(* ===== verification/_CoqProject ===== *)
-Q . S2P
Prelude.v
SumTree.v
SumTreeFacts.v
Seek.v
Cursor.v
CursorFacts.v
CursorMoves.v
CursorOps.v
Keyed.v
KeyedFacts.v
TreeMap.v
TreeMapFacts.v
SumTreeTheorems.v
Geometry.v
BoundsTree.v
BoundsTreeFacts.v
Subscription.v
SubscriptionFacts.v
Queue.v
Chars.v
KeyContext.v
Predicate.v
PredicateFacts.v
Keystroke.v
KeystrokeFacts.v
Binding.v
Keymap.v
KeymapTheorems.v
DispatchTree.v
DispatchTreeFacts.v
DispatchReuse.v
DispatchTheorems.v
TabStops.v
TabStopsTheorems.v
Pixels.v
ListState.v
ListOps.v
ListFacts.v
ListOpsFacts.v
ListLayout.v
ListLayoutFacts.v
ListLayoutSpec.v
ListLayoutOk.v
ListSamples.v
ListTheorems.v
ListLayoutTheorems.v
LineWrapper.v
LineWrapFacts.v
LineLayout.v
LineLayoutFacts.v
LineWrapTheorems.v
LineLayoutTheorems.v
LineCache.v
LineCacheTheorems.v
Entities.v
EntityFacts.v
EntityTheorems.v
WindowTabs.v
Scene.v
SceneFacts.v
SceneTheorems.v
ScenePaths.v
Tracking.v
Effects.v
EffectsFacts.v
EffectsTheorems.v
TestScheduler.v
TestSchedulerFacts.v
TestSchedulerTheorems.v
TestSchedulerRuns.v
Arena.v
ArenaTheorems.v
Scroll.v
ScrollTheorems.v
Window.v
WindowInput.v
Interactivity.v
WindowFacts.v
WindowTheorems.v
InteractivityTheorems.v
