(* ===== verification/Prelude.v ===== *)
(** * A verification of GPUI

    GPUI is a retained-state, immediate-layout UI framework.  This development models, from the Rust sources under
    [src/crates], the parts of it that hold its state and order its work, and proves that they do what their callers rely
    on.  Every model is executable; what panics in Rust is [Panic] here, and every loop that is not structural runs on fuel
    that is shown to be enough.

    ** The parts and where they are modelled

    A file named after a part has its data and operations; the files [*Facts] carry the lemmas and [*Theorems] state what
    the part promises.  Paths are under [src/crates]; [gpui/src] is left out where no other crate is named.

    - The sum tree, [sum_tree]: a B+ tree of items with cached summaries.  [SumTree] has the traits as classes ([Summary],
      [Item], [Dimension], [SeekTarget]), the nodes and their construction, [Cursor] cursors, filter cursors and iterators,
      [Keyed] trees of keyed items with [edit], [TreeMap] the ordered map and set; [Seek] is the linear scan that is the
      reference for searches; [CursorMoves] and [CursorOps] have more lemmas; theorems in [SumTreeTheorems].
    - The z-order of a frame: [Geometry] has points, sizes and bounds ([geometry.rs]), [BoundsTree] the R-tree that assigns
      paint orders ([bounds_tree.rs]), [BoundsTreeFacts] its correctness by a ghost tree over the arena.
    - [Scene]: primitives, layers, replay and batches ([scene.rs]), with paths and transformations in [ScenePaths].
    - Subscriptions ([subscription.rs]): [Subscription], with callbacks that change the set while it is iterated.
    - [Queue]: the queue of background tasks ([queue.rs]), with receivers that block as a step relation.
    - The language of key bindings ([keymap/context.rs], [platform/keystroke.rs], [keymap/binding.rs], [keymap.rs]): [Chars]
      (text), [KeyContext], [Predicate], [Keystroke], [Binding], [Keymap].
    - Key dispatch ([key_dispatch.rs]): [DispatchTree], with the reuse of subtrees in [DispatchReuse].
    - [TabStops]: the order of the tab key ([tab_stop.rs]).
    - Lists ([elements/list.rs]): [Pixels] (lengths), [ListState], [ListOps] (the operations), [ListLayout] (the layout of a
      frame); [ListLayoutSpec], [ListLayoutOk] and [ListSamples] carry its proofs.
    - Scrolling ([elements/div.rs], [elements/uniform_list.rs], [gestures.rs], [interactive.rs]): [Scroll].
    - Text ([text_system/line_wrapper.rs], [text_system/line_layout.rs]): [LineWrapper] (soft wraps and truncation),
      [LineLayout] (shaped lines and their rows), [LineCache] (the cache over two frames).
    - Entities ([app/entity_map.rs]): [Entities], the map with its reference counts, as steps of several threads.
    - The application ([app.rs]): [Effects] is the cycle of updates and effects, over subscriptions, entities and [Tracking],
      which knows which windows show which entities; [WindowTabs] is the controller of window tabs.
    - Windows ([window.rs], drags of [app.rs]): [Window] has hitboxes and hit tests, focus, frames and [draw], [WindowInput]
      the dispatch of mouse events, keystrokes with pending input and timers, and actions, over [DispatchTree], [Keymap],
      [TabStops] and [Subscription].
    - The interactivity of elements ([elements/div.rs]): [Interactivity], the listeners that make clicks, drags, drops,
      hovers and tooltips of the events of a window, over [Window].
    - [Arena]: the memory that the elements of a frame live in ([arena.rs]).
    - [TestScheduler]: the deterministic scheduler of tests ([scheduler/src/test_scheduler.rs], [scheduler/src/clock.rs],
      [platform/test/dispatcher.rs]); [TestSchedulerRuns] has the termination of its runs.

    Components meet as in the code: [TreeMap], keyed trees, lists and tab stops are clients of cursors and of the sum tree,
    scenes of the R-tree, the keymap of predicates and keystrokes, the dispatch tree of the keymap, windows of the dispatch
    tree, the tab stops and the subscriptions, elements of windows, and the effect cycle of subscriptions and entities.
    Theorems of clients use the interface lemmas of the component below.

    ** What the theorems show

    The claims C1, C2, ... are the theorems whose comments carry the number; others have no number.
    - The sum tree: operations keep the invariant (heights, fill, cached summaries) and denote the list operation on
      the items; seeks agree with a linear scan; slices partition; batches of edits, maps and sets refine finite maps.
    - The R-tree answers what the quadratic reference answers; scenes are painted in painter's order, in batches that
      draw every primitive once; replaying a whole scene gives the scene.
    - Subscriptions survive callbacks that change them: a pass keeps exactly the subscribers whose callbacks want to
      stay and that were not dropped, and then those that the callbacks added; the queue loses nothing and never
      fails, but a blocked receiver is not woken when the last sender goes.
    - Predicates and keystrokes round-trip through their text; parsers end; the keymap resolves inputs by precedence.
    - The dispatch tree keeps its invariant, reused subtrees are copies, and dispatching a keystroke ends and accounts
      for all pending input.  Tab stops are in the order that the history of a frame describes.
    - Lists: every operation keeps the state consistent and cannot panic; the layout covers the viewport and adds the
      focused item when it lies elsewhere; remeasuring keeps the scroll position.  Scrolling to an item shows it;
      uniform lists render what is seen.
    - Text: wrapped lines and rows fit, positions of indices are hit at these indices, up to glyphs that stand on top
      of one another or behind the width, and the cache is transparent.
    - Entities: counts are exact under every interleaving, and what was released stays released.
    - The application: the effect cycle settles, and all along at most one notification of each emitter waits;
      callbacks run to completion, subscribers are called in order; a notification invalidates exactly the windows
      that show the entity; every window stays in one group of tabs.
    - Windows: hit tests reach what is not covered, listeners and actions run in the documented order up to exactly
      the one that stops the propagation, focus and pending input follow an abstract machine, timers flush only the
      input they were started for, and no event makes a window panic if its elements draw.
    - Elements: a press becomes at most one click or one drag, pressing and releasing clicks, the keyboard clicks
      after a clean press, hovers alternate, tooltips wait for an uninterrupted hover, and what a drop does is exactly
      described.
    - The arena refines a store of values whose destructors run once.  The test scheduler runs sessions in order, lets
      blocked sessions wait, fires timers on time, and ends when the code that it runs neither blocks nor advances the
      clock and schedules a bounded amount of work.

    ** Choices, bounds and hypotheses

    - Lengths, indices and counts ([usize]) are [nat], with checked subtraction where the code subtracts; no list
      comes near 2^64 elements.  Identifiers and generations that wrap ([u64]) and orders ([u32]) are numbers with
      their width, and allocating a session beyond the 16 bits of its id panics.
    - Lengths of pixels are exact rationals ([Qc]) in theorems about scrolling, lists, windows and elements, and any
      ordered coordinates with the laws of [CoordLaws] elsewhere; floating-point rounding is not modelled.
    - Shared nodes ([Arc], copy on write) are values; aliasing is modelled where it is observable: the flags of a
      subscription, handles of entities, boxes of the arena, and the cells that the closures of an element share.
    - [TREE_BASE] is 6 as in a release build; the proofs use only that it is at least 2.  A cursor's stack has 16
      entries, which is enough for 12^16 items.
    - Fuel: the height of the tree for searches; the number of items for enumerations, plus one for loops over tab
      stops and wraps, plus two for draining a queue or flushing effects that are quiet; the number of nodes plus one
      for chains of parents; the length of the input plus one for a keystroke; two calls per character for the
      predicate parser; one more than the primitives for the batches of a scene; the work plus one for a run of the
      scheduler, and twice the work plus two where it advances the clock.  The context parser has a theorem on the
      sources for which no fuel is enough.
    - Code that is not under [src], and code of the application, is a parameter.  Laws are documented behaviour and
      have instances: [OrdLaws], [KeyedLaws], [CoordLaws], the sorting routine of [edit], the random generator
      ([RatioLaws]), the Unicode tables ([CharLaws], [CaseTable]), the slot map ([SlotKeysLaws]), the order in which
      hash maps are visited, the widths of glyphs and the shaping of lines, the addresses of chunks, the readings of
      the clock.  What listeners, callbacks and elements do is a function from the state to a list of calls ([behave],
      [react], [prepaint], [paint], programs of the scheduler); rendering an item of a list is its size ([measure]).

    ** What is not modelled

    - Platform backends, rendering, HTTP and media crates bind libraries that are not under [src]; macros generate code.
    - The layout library, styles and colours: plain data and builders around a library that is not under [src].
    - Of windows: tooltips' placement, deferred draws, prompts, the inspector, accessibility, assets and the painting of
      single primitives; of elements: the computation of styles, and the element trees themselves, which are seen as the calls
      that they make.
    - Scheduled code of tests that moves the test clock itself or that changes whether parking is allowed: a program of
      [TestScheduler] calls the scheduler, and such calls are made by the test between executions only.
    - Executors, which wrap the async runtime and threads; formatting for debugging and the counters of the profiler.

    This file holds the shared notation, the outcome monad of partial Rust code, fixed-capacity arrays and list lemmas. *)
From stdpp Require Export prelude sorting.

#[global] Arguments Nat.div : simpl never.
#[global] Arguments Nat.modulo : simpl never.
#[global] Arguments Nat.mul : simpl never.

(** ** Outcomes *)

(** What a piece of Rust code does: it returns, it panics, or the model ran out of the fuel
    that bounds a loop.  Every loop's fuel is shown to be enough where the loop is used. *)
Inductive outcome (A : Type) : Type :=
| Ok (x : A)
| Panic
| OutOfFuel.
Arguments Ok {A} x.
Arguments Panic {A}.
Arguments OutOfFuel {A}.

#[export] Instance outcome_ret : MRet outcome := λ A x, Ok x.
#[export] Instance outcome_bind : MBind outcome := λ A B f m,
  match m with Ok x => f x | Panic => Panic | OutOfFuel => OutOfFuel end.
#[export] Instance outcome_fmap : FMap outcome := λ A B f m,
  match m with Ok x => Ok (f x) | Panic => Panic | OutOfFuel => OutOfFuel end.

(** [Option::unwrap] and [Option::expect]. *)
Definition unwrap {A} (o : option A) : outcome A :=
  match o with Some x => Ok x | None => Panic end.

(** [Result], and the [?] operator as a bind. *)
Inductive result (A E : Type) : Type := ResOk (x : A) | ResErr (e : E).
Arguments ResOk {A E}.
Arguments ResErr {A E}.
Definition and_then {A B E} (m : result A E) (f : A → result B E) : result B E :=
  match m with ResOk x => f x | ResErr e => ResErr e end.

(** [assert!(b)]. *)
Definition assert_that (b : bool) : outcome () := if b then Ok () else Panic.

(** Checked subtraction on an unsigned integer (a debug build panics below zero). *)
Definition checked_sub (a b : nat) : outcome nat :=
  if decide (b ≤ a) then Ok (a - b) else Panic.

(** Slice and [Vec] indexing. *)
Definition index {A} (l : list A) (i : nat) : outcome A := unwrap (l !! i).
Definition slice_from {A} (l : list A) (i : nat) : outcome (list A) :=
  if decide (i ≤ length l) then Ok (drop i l) else Panic.
Definition slice_to {A} (l : list A) (i : nat) : outcome (list A) :=
  if decide (i ≤ length l) then Ok (take i l) else Panic.

(** ** Fixed-capacity arrays ([heapless::Vec<A, N>]) *)

(** [push(x).unwrap_oob()], [extend] and [collect] panic past the capacity. *)
Definition arr_push {A} (cap : nat) (l : list A) (x : A) : outcome (list A) :=
  if decide (length l < cap) then Ok (l ++ [x]) else Panic.
Definition arr_extend {A} (cap : nat) (l r : list A) : outcome (list A) :=
  if decide (length l + length r ≤ cap) then Ok (l ++ r) else Panic.
Definition arr_collect {A} (cap : nat) (l : list A) : outcome (list A) :=
  if decide (length l ≤ cap) then Ok l else Panic.
(** [insert(0, x).unwrap_oob()]. *)
Definition arr_push_front {A} (cap : nat) (l : list A) (x : A) : outcome (list A) :=
  if decide (length l < cap) then Ok (x :: l) else Panic.

(** [*v.last_mut().unwrap() = x] and [*v.first_mut().unwrap() = x]. *)
Definition set_last {A} (l : list A) (x : A) : outcome (list A) :=
  match l with [] => Panic | _ => Ok (take (length l - 1) l ++ [x]) end.
Definition set_first {A} (l : list A) (x : A) : outcome (list A) :=
  match l with [] => Panic | _ :: r => Ok (x :: r) end.

(** [Vec::pop], whose result is not used; [pop] does nothing to an empty vector. *)
Definition pop_back {X} (l : list X) : list X := take (length l - 1) l.

(** Apply [f] to the last element; written as a loop over the list so that [f] may be a
    recursive call of the caller. *)
Definition on_last {A B} (f : A → B) : list A → option B :=
  fix go l := match l with [] => None | [x] => Some (f x) | _ :: l' => go l' end.

(** [iter.chunks(n)] of a list, [n > 0]; [fuel] bounds the number of chunks. *)
Fixpoint chunks_fuel {A} (fuel n : nat) (l : list A) : list (list A) :=
  match fuel, l with
  | _, [] => []
  | O, _ => []
  | S fuel, _ => take n l :: chunks_fuel fuel n (drop n l)
  end.
Definition chunks {A} (n : nat) (l : list A) : list (list A) := chunks_fuel (length l) n l.

(** A [for] loop over a list that can panic. *)
Fixpoint foldM {A B} (f : B → A → outcome B) (acc : B) (l : list A) : outcome B :=
  match l with
  | [] => Ok acc
  | x :: l => acc ← f acc x; foldM f acc l
  end.

(** [iter.map(f).collect()] where [f] can panic. *)
Fixpoint mapM_ok {A B} (f : A → outcome B) (l : list A) : outcome (list B) :=
  match l with
  | [] => Ok []
  | x :: l => y ← f x; ys ← mapM_ok f l; Ok (y :: ys)
  end.

(** ** Tactics *)

(** Arithmetic side conditions on lengths; a file that fixes a capacity extends it. *)
Ltac solve_cap :=
  simpl in *; repeat rewrite ?length_app, ?length_map, ?length_fmap, ?length_take, ?length_drop,
    ?length_rev in *; simpl in *; lia.

(** Split a successful computation in a hypothesis into its successful steps. *)
Ltac inv_ok H :=
  repeat match type of H with
  | mbind _ ?m = Ok _ => let E := fresh "E" in destruct m eqn:E; simpl in H; try discriminate H
  | Ok _ = Ok _ => injection H as H
  end.

(** ** Lemmas *)

Lemma unwrap_Some {A} (o : option A) x : o = Some x → unwrap o = Ok x.
Proof. by intros ->. Qed.

Lemma outcome_bind_ok {A B} (m : outcome A) (f : A → outcome B) y :
  m ≫= f = Ok y ↔ ∃ x, m = Ok x ∧ f x = Ok y.
Proof. destruct m; simpl; naive_solver. Qed.

Lemma arr_push_ok {A} cap (l : list A) x :
  length l < cap → arr_push cap l x = Ok (l ++ [x]).
Proof. intros. unfold arr_push. by rewrite decide_True. Qed.

Lemma arr_extend_ok {A} cap (l r : list A) :
  length l + length r ≤ cap → arr_extend cap l r = Ok (l ++ r).
Proof. intros. unfold arr_extend. by rewrite decide_True. Qed.

Lemma arr_collect_ok {A} cap (l : list A) : length l ≤ cap → arr_collect cap l = Ok l.
Proof. intros. unfold arr_collect. by rewrite decide_True. Qed.

Lemma arr_push_front_ok {A} cap (l : list A) x :
  length l < cap → arr_push_front cap l x = Ok (x :: l).
Proof. intros. unfold arr_push_front. by rewrite decide_True. Qed.

Lemma checked_sub_ok a b : b ≤ a → checked_sub a b = Ok (a - b).
Proof. intros. unfold checked_sub. by rewrite decide_True. Qed.

Lemma slice_from_ok {A} (l : list A) i : i ≤ length l → slice_from l i = Ok (drop i l).
Proof. intros. unfold slice_from. by rewrite decide_True. Qed.

Lemma slice_to_ok {A} (l : list A) i : i ≤ length l → slice_to l i = Ok (take i l).
Proof. intros. unfold slice_to. by rewrite decide_True. Qed.

Lemma set_last_snoc {A} (l : list A) x y : set_last (l ++ [x]) y = Ok (l ++ [y]).
Proof.
  unfold set_last. destruct (l ++ [x]) eqn:E.
  - by apply app_nil in E as [_ ?].
  - rewrite <-E, length_app; simpl.
    by rewrite Nat.add_sub, take_app_length.
Qed.

Lemma on_last_snoc {A B} (f : A → B) l x : on_last f (l ++ [x]) = Some (f x).
Proof.
  induction l as [|y l IH]; [done|]. simpl.
  destruct (l ++ [x]) eqn:E; [by destruct l|done].
Qed.

Lemma pop_back_snoc {X} (l : list X) x : pop_back (l ++ [x]) = l.
Proof. unfold pop_back. rewrite length_app. simpl. rewrite Nat.add_sub. apply take_app_length. Qed.

Lemma snoc_inv {A} (l : list A) : 0 < length l → ∃ l' x, l = l' ++ [x].
Proof. destruct l using rev_ind; simpl; [lia|eauto]. Qed.

Lemma list_split_at {A} (l : list A) n :
  n < length l → ∃ x, l !! n = Some x ∧ l = take n l ++ x :: drop (S n) l.
Proof.
  intros [x Hx]%lookup_lt_is_Some. exists x. split; [done|].
  by rewrite take_drop_middle.
Qed.

Lemma chunks_fuel_concat {A} fuel n (l : list A) :
  0 < n → length l ≤ fuel → concat (chunks_fuel fuel n l) = l.
Proof.
  intros Hn. revert l. induction fuel as [|fuel IH]; intros [|x l] Hl; simpl in *; [done|lia|done|].
  destruct n as [|n]; [lia|]. simpl. f_equal.
  rewrite IH by (rewrite length_drop; lia). apply take_drop.
Qed.

Lemma chunks_concat {A} n (l : list A) : 0 < n → concat (chunks n l) = l.
Proof. intros. by apply chunks_fuel_concat. Qed.

Lemma chunks_fuel_size {A} fuel n (l : list A) :
  0 < n → Forall (λ c, 0 < length c ≤ n) (chunks_fuel fuel n l).
Proof.
  intros Hn. revert l. induction fuel as [|fuel IH]; intros [|x l]; simpl; [constructor..|].
  constructor; [|apply IH]. destruct n as [|n]; [lia|]. simpl.
  rewrite length_take. lia.
Qed.

Lemma chunks_size {A} n (l : list A) : 0 < n → Forall (λ c, 0 < length c ≤ n) (chunks n l).
Proof. apply chunks_fuel_size. Qed.

Lemma chunks_fuel_enough {A} fuel n (l : list A) :
  0 < n → length l ≤ fuel → chunks_fuel fuel n l = chunks n l.
Proof.
  intros Hn. unfold chunks.
  cut (∀ f1 f2 (l : list A), length l ≤ f1 → length l ≤ f2 →
    chunks_fuel f1 n l = chunks_fuel f2 n l); [by eauto|].
  intros f1. induction f1 as [|f1 IH]; intros [|f2] [|x l'] ??; simpl in *; try lia; try done.
  f_equal. apply IH; rewrite length_drop; simpl; lia.
Qed.

Lemma chunks_cons {A} n (l : list A) :
  0 < n → 0 < length l → chunks n l = take n l :: chunks n (drop n l).
Proof.
  intros Hn Hl. destruct l as [|x l]; [simpl in *; lia|].
  unfold chunks at 1. simpl. f_equal.
  apply chunks_fuel_enough; [done|]. rewrite length_drop; simpl; lia.
Qed.

Lemma chunks_app_full {A} n (l r : list A) :
  0 < n → length l = n → chunks n (l ++ r) = l :: chunks n r.
Proof.
  intros Hn Hl. rewrite chunks_cons by (rewrite ?length_app; lia).
  by rewrite take_app_length', drop_app_length' by done.
Qed.

Lemma chunks_small {A} n (l : list A) : 0 < length l ≤ n → chunks n l = [l].
Proof.
  intros. rewrite chunks_cons by lia. by rewrite take_ge, drop_ge by lia.
Qed.

Lemma length_chunks_fuel {A} fuel n (l : list A) :
  1 < n → length (chunks_fuel fuel n l) ≤ length l ∧
    (1 < length l → length (chunks_fuel fuel n l) < length l).
Proof.
  intros Hn. revert l. induction fuel as [|fuel IH]; intros [|x l]; simpl; try lia.
  destruct (IH (drop n (x :: l))) as [H1 _]. rewrite length_drop in H1. simpl in H1. lia.
Qed.

Lemma length_chunks_fuel_mul {A} fuel n (l : list A) :
  0 < n → length (chunks_fuel fuel n l) * n < length l + n.
Proof.
  intros Hn. revert l. induction fuel as [|fuel IH]; intros [|x l]; simpl; try lia.
  specialize (IH (drop n (x :: l))). rewrite length_drop in IH. simpl in IH.
  destruct (decide (n ≤ S (length l))); [lia|].
  destruct (length (chunks_fuel fuel n (drop n (x :: l)))) eqn:E; nia.
Qed.

(** A level has [n] times fewer chunks than elements. *)
Lemma length_chunks_pow {A} n j (l : list A) :
  0 < n → length l ≤ n ^ S j → length (chunks n l) ≤ n ^ j.
Proof.
  intros Hn Hl. pose proof (length_chunks_fuel_mul (length l) n l Hn) as Hm.
  fold (chunks n l) in Hm. simpl in Hl. nia.
Qed.

Lemma filter_all {A} (P : A → Prop) `{∀ x, Decision (P x)} (l : list A) :
  Forall P l → filter P l = l.
Proof. induction 1; [done|]. by rewrite filter_cons_True; f_equal. Qed.

Lemma filter_ext {A} (P Q : A → Prop) `{∀ x, Decision (P x), ∀ x, Decision (Q x)} (l : list A) :
  Forall (λ x, P x ↔ Q x) l → filter P l = filter Q l.
Proof.
  induction 1 as [|x l Hx _ IH]; [done|]. rewrite !filter_cons, IH.
  repeat case_decide; naive_solver.
Qed.

Lemma filter_none {A} (P : A → Prop) `{∀ x, Decision (P x)} (l : list A) :
  Forall (λ x, ¬ P x) l → filter P l = [].
Proof. induction 1; [done|]. by rewrite filter_cons_False. Qed.

Lemma foldM_app {A B} (f : B → A → outcome B) acc l1 l2 :
  foldM f acc (l1 ++ l2) = (acc ← foldM f acc l1; foldM f acc l2).
Proof.
  revert acc. induction l1 as [|x l1 IH]; intros acc; [done|]. simpl.
  destruct (f acc x); simpl; [apply IH|done..].
Qed.

Lemma mapM_ok_map {A B} (f : A → outcome B) (g : A → B) l :
  Forall (λ x, f x = Ok (g x)) l → mapM_ok f l = Ok (map g l).
Proof. induction 1 as [|x l Hx _ IH]; simpl; [done|]. by rewrite Hx; simpl; rewrite IH. Qed.

(** Run the array operations at the head of a computation whose bounds follow by
    [solve_cap]. *)
Ltac run_step :=
  first
  [ rewrite arr_push_ok by solve_cap
  | rewrite arr_extend_ok by solve_cap
  | rewrite arr_collect_ok by solve_cap
  | rewrite arr_push_front_ok by solve_cap
  | rewrite checked_sub_ok by solve_cap
  | rewrite slice_from_ok by solve_cap
  | rewrite slice_to_ok by solve_cap
  | rewrite set_last_snoc ]; simpl.
Ltac run := repeat run_step.
