(* ===== verification/SumTree.v ===== *)
(** The B+ tree of [crates/sum_tree/src/sum_tree.rs]: the [Summary], [Item] and [Dimension]
    traits, [Node], construction from an iterator, concatenation ([append]) and the searches
    that walk the tree without a cursor. *)
From S2P Require Import Prelude.

(** [TREE_BASE] of a non-test build. *)
Definition TREE_BASE : nat := 6.

Lemma TREE_BASE_eq : TREE_BASE = 6.
Proof. reflexivity. Qed.
#[global] Opaque TREE_BASE.

Abbreviation CAP := (2 * TREE_BASE).

(** ** Traits *)

(** [trait Summary]: [zero] and [add_summary] under a context of type [C]. *)
Class Summary (C S : Type) := {
  zero : C → S;
  add_summary : C → S → S → S;
}.

(** [trait Item]: its summary. *)
Class Item (C S T : Type) := item_summary : C → T → S.

(** [trait Dimension]: what a summary adds to a position. *)
Class Dimension (C S D : Type) := {
  dim_zero : C → D;
  dim_add : C → D → S → D;
}.

(** [trait SeekTarget]: how a target compares with a cursor location. *)
Class SeekTarget (C D Tg : Type) := seek_cmp : C → Tg → D → comparison.

(** [impl Dimension for T where T: Summary]: a summary is a dimension of itself. *)
#[export] Instance summary_dimension {C S} `{!Summary C S} : Dimension C S S := {|
  dim_zero := zero;
  dim_add := add_summary;
|}.

(** [impl Dimension for ()]. *)
#[export] Instance unit_dimension {C S} : Dimension C S () := {|
  dim_zero := λ _, ();
  dim_add := λ _ _ _, ();
|}.

(** [impl Dimension for Dimensions<D1, D2, D3>]. *)
#[export] Instance dimensions_dimension {C S D1 D2 D3}
    `{!Dimension C S D1, !Dimension C S D2, !Dimension C S D3} :
    Dimension C S (D1 * D2 * D3) := {|
  dim_zero := λ cx, (dim_zero (S:=S) cx, dim_zero (S:=S) cx, dim_zero (S:=S) cx);
  dim_add := λ cx d s, (dim_add cx d.1.1 s, dim_add cx d.1.2 s, dim_add cx d.2 s);
|}.

(** [impl SeekTarget<S, Dimensions<D1, D2, D3>> for D1]. *)
Definition dimensions_seek_target {C D1 D2 D3 Tg} `{!SeekTarget C D1 Tg} :
    SeekTarget C (D1 * D2 * D3) Tg := λ cx t d, seek_cmp cx t d.1.1.

Inductive Bias := Left | Right.

#[export] Instance bias_eq_dec : EqDecision Bias.
Proof. solve_decision. Defined.

Definition invert (b : Bias) : Bias := match b with Left => Right | Right => Left end.

(** What the tree needs of a summary: [add_summary] is associative and [zero] is a left unit.
    [zero] need not be a right unit: [MapKey] keeps the last key added. *)
Class SummaryLaws {C S} `{!Summary C S} (cx : C) : Prop := {
  zero_left s : add_summary cx (zero cx) s = s;
  add_summary_assoc s1 s2 s3 :
    add_summary cx (add_summary cx s1 s2) s3 = add_summary cx s1 (add_summary cx s2 s3);
}.

(** A dimension measures a sum by measuring its parts in order, and the zero summary measures
    nothing from the start (it may move another position: [MapKey]'s zero does). *)
Class DimensionLaws {C S} (D : Type) `{!Summary C S, !Dimension C S D} (cx : C) : Prop := {
  dim_add_summary (d : D) s1 s2 :
    dim_add cx d (add_summary cx s1 s2) = dim_add cx (dim_add cx d s1) s2;
  dim_add_zero : dim_add cx (dim_zero (S:=S) cx : D) (zero cx) = dim_zero (S:=S) cx;
}.

(** ** Nodes *)

(** [enum Node]; a [SumTree] is a shared pointer to a [Node]. *)
Inductive Node (S T : Type) : Type :=
| Internal (height : nat) (summary : S) (child_summaries : list S) (child_trees : list (Node S T))
| Leaf (summary : S) (items : list T) (item_summaries : list S).
Arguments Internal {S T}.
Arguments Leaf {S T}.

Section node.
Context {S T : Type}.
Implicit Types n : Node S T.

Definition is_leaf n : bool := match n with Leaf _ _ _ => true | _ => false end.

Definition height n : nat := match n with Internal h _ _ _ => h | Leaf _ _ _ => 0 end.

Definition summary n : S := match n with Internal _ s _ _ => s | Leaf s _ _ => s end.

Definition child_summaries n : list S :=
  match n with Internal _ _ cs _ => cs | Leaf _ _ cs => cs end.

Definition child_trees n : outcome (list (Node S T)) :=
  match n with Internal _ _ _ ts => Ok ts | Leaf _ _ _ => Panic end.

Definition node_items n : outcome (list T) :=
  match n with Leaf _ its _ => Ok its | Internal _ _ _ _ => Panic end.

Definition is_underflowing n : bool :=
  match n with
  | Internal _ _ _ ts => bool_decide (length ts < TREE_BASE)
  | Leaf _ its _ => bool_decide (length its < TREE_BASE)
  end.

Definition is_empty n : bool :=
  match n with Internal _ _ _ _ => false | Leaf _ its _ => bool_decide (its = []) end.

(** The items under a node, in order (a specification; the code enumerates them with a
    cursor or an iterator). *)
Fixpoint tree_items n : list T :=
  match n with
  | Leaf _ its _ => its
  | Internal _ _ _ ts => concat (map tree_items ts)
  end.

Fixpoint leftmost_leaf n : outcome (Node S T) :=
  match n with
  | Leaf _ _ _ => Ok n
  | Internal _ _ _ ts =>
      match ts with [] => Panic | t :: _ => leftmost_leaf t end
  end.

Fixpoint rightmost_leaf n : outcome (Node S T) :=
  match n with
  | Leaf _ _ _ => Ok n
  | Internal _ _ _ ts =>
      match on_last rightmost_leaf ts with Some r => r | None => Panic end
  end.

Definition first n : outcome (option T) :=
  l ← leftmost_leaf n; its ← node_items l; Ok (head its).

Definition tree_last n : outcome (option T) :=
  l ← rightmost_leaf n; its ← node_items l; Ok (last its).

Definition last_summary n : outcome (option S) :=
  l ← rightmost_leaf n; Ok (last (child_summaries l)).

End node.

(** ** Operations *)

Section operations.
Context {C S T : Type} `{!Summary C S, !Item C S T} (cx : C).
Implicit Types n : Node S T.

(** [fn sum]. *)
Definition sum (l : list S) : S := foldl (add_summary cx) (zero cx) l.

Definition new : Node S T := Leaf (zero cx) [] [].

Definition from_summary (s : S) : Node S T := Leaf s [] [].

(** The leaf that [from_iter] and [from_par_iter] build from a chunk of items. *)
Definition leaf_of_chunk (chunk : list T) : outcome (Node S T) :=
  items ← arr_collect CAP chunk;
  item_summaries ← arr_collect CAP (map (item_summary cx) items);
  first ← index item_summaries 0;
  rest ← slice_from item_summaries 1;
  Ok (Leaf (foldl (add_summary cx) first rest) items item_summaries).

(** One iteration of [from_iter]'s loop over the nodes of a level: the child goes to the
    current parent, which is closed when it is full. *)
Definition add_child (h : nat) (acc : option (Node S T) * list (Node S T)) (child : Node S T) :
    outcome (option (Node S T) * list (Node S T)) :=
  let '(current_parent_node, parent_nodes) := acc in
  match default (Internal h (zero cx) [] []) current_parent_node with
  | Leaf _ _ _ => Panic
  | Internal h s css cts =>
      let child_summary := summary child in
      css ← arr_push CAP css child_summary;
      cts ← arr_push CAP cts child;
      let parent := Internal h (add_summary cx s child_summary) css cts in
      Ok (if decide (length cts = CAP) then (None, parent_nodes ++ [parent])
          else (Some parent, parent_nodes))
  end.

(** [from_iter]'s loop over the levels. *)
Fixpoint from_iter_levels (fuel h : nat) (nodes : list (Node S T)) : outcome (list (Node S T)) :=
  if decide (1 < length nodes) then
    match fuel with
    | O => OutOfFuel
    | Datatypes.S fuel =>
        acc ← foldM (add_child (h + 1)) (None, []) nodes;
        from_iter_levels fuel (h + 1) (acc.2 ++ option_list acc.1)
    end
  else Ok nodes.

(** The root that remains when a level has at most one node. *)
Definition root_of (nodes : list (Node S T)) : outcome (Node S T) :=
  match nodes with [] => Ok new | _ => unwrap (last nodes) end.

Definition from_iter (iter : list T) : outcome (Node S T) :=
  nodes ← mapM_ok leaf_of_chunk (chunks CAP iter);
  nodes ← from_iter_levels (length nodes) 0 nodes;
  root_of nodes.

(** The parent that [from_par_iter] builds from a chunk of nodes. *)
Definition parent_of_chunk (h : nat) (chunk : list (Node S T)) : outcome (Node S T) :=
  child_trees ← arr_collect CAP chunk;
  child_summaries ← arr_collect CAP (map summary child_trees);
  first ← index child_summaries 0;
  rest ← slice_from child_summaries 1;
  Ok (Internal h (foldl (add_summary cx) first rest) child_summaries child_trees).

Fixpoint from_par_iter_levels (fuel h : nat) (nodes : list (Node S T)) :
    outcome (list (Node S T)) :=
  if decide (1 < length nodes) then
    match fuel with
    | O => OutOfFuel
    | Datatypes.S fuel =>
        nodes ← mapM_ok (parent_of_chunk (h + 1)) (chunks CAP nodes);
        from_par_iter_levels fuel (h + 1) nodes
    end
  else Ok nodes.

Definition from_par_iter (iter : list T) : outcome (Node S T) :=
  nodes ← mapM_ok leaf_of_chunk (chunks CAP iter);
  nodes ← from_par_iter_levels (length nodes) 0 nodes;
  root_of nodes.

Definition from_child_trees (left right : Node S T) : outcome (Node S T) :=
  let h := height left + 1 in
  css ← arr_push CAP [] (summary left);
  css ← arr_push CAP css (summary right);
  cts ← arr_push CAP [] left;
  cts ← arr_push CAP cts right;
  Ok (Internal h (sum css) css cts).

(** Split a sequence that overflows one array into two arrays at [midpoint]. *)
Definition split_at {A} (midpoint : nat) (all : list A) : outcome (list A * list A) :=
  l ← arr_collect CAP (take midpoint all);
  r ← arr_collect CAP (drop midpoint all);
  Ok (l, r).

Fixpoint push_tree_recursive (self other : Node S T) : outcome (Node S T * option (Node S T)) :=
  match self with
  | Internal h s css cts =>
      let s := add_summary cx s (summary other) in
      height_delta ← checked_sub h (height other);
      '(css, cts, summaries_to_append, trees_to_append) ←
        (if decide (height_delta = 0) then
          sa ← arr_extend CAP [] (child_summaries other);
          ts ← child_trees other;
          ta ← arr_extend CAP [] ts;
          Ok (css, cts, sa, ta)
        else if bool_decide (height_delta = 1) && negb (is_underflowing other) then
          sa ← arr_push CAP [] (summary other);
          ta ← arr_push CAP [] other;
          Ok (css, cts, sa, ta)
        else
          r ← unwrap (on_last (λ c, push_tree_recursive c other) cts);
          '(last_child, tree_to_append) ← r;
          cts ← set_last cts last_child;
          css ← set_last css (summary last_child);
          match tree_to_append with
          | Some split_tree =>
              sa ← arr_push CAP [] (summary split_tree);
              ta ← arr_push CAP [] split_tree;
              Ok (css, cts, sa, ta)
          | None => Ok (css, cts, [], [])
          end);
      let child_count := length cts + length trees_to_append in
      if decide (CAP < child_count) then
        let midpoint := (child_count + child_count `mod` 2) `div` 2 in
        '(left_summaries, right_summaries) ← split_at midpoint (css ++ summaries_to_append);
        '(left_trees, right_trees) ← split_at midpoint (cts ++ trees_to_append);
        Ok (Internal h (sum left_summaries) left_summaries left_trees,
            Some (Internal h (sum right_summaries) right_summaries right_trees))
      else
        css ← arr_extend CAP css summaries_to_append;
        cts ← arr_extend CAP cts trees_to_append;
        Ok (Internal h s css cts, None)
  | Leaf s items item_summaries =>
      other_items ← node_items other;
      let child_count := length items + length other_items in
      if decide (CAP < child_count) then
        let midpoint := (child_count + child_count `mod` 2) `div` 2 in
        '(left_items, right_items) ← split_at midpoint (items ++ other_items);
        '(left_summaries, right_summaries) ←
          split_at midpoint (item_summaries ++ child_summaries other);
        Ok (Leaf (sum left_summaries) left_items left_summaries,
            Some (Leaf (sum right_summaries) right_items right_summaries))
      else
        items ← arr_extend CAP items other_items;
        item_summaries ← arr_extend CAP item_summaries (child_summaries other);
        Ok (Leaf (add_summary cx s (summary other)) items item_summaries, None)
  end.

(** [merge_into_right(small, &mut large)]: the new [large] and the node split off, if any. *)
Definition merge_into_right (small large : Node S T) :
    outcome (Node S T * option (Node S T)) :=
  match small, large with
  | Internal _ small_summary small_css small_cts, Internal h s css cts =>
      let total_child_count := length cts + length small_cts in
      if decide (total_child_count ≤ CAP) then
        all_trees ← arr_extend CAP small_cts cts;
        all_summaries ← arr_extend CAP small_css css;
        Ok (Internal h (add_summary cx small_summary s) all_summaries all_trees, None)
      else
        let midpoint := (total_child_count + 1) `div` 2 in
        '(left_trees, right_trees) ← split_at midpoint (small_cts ++ cts);
        '(left_summaries, right_summaries) ← split_at midpoint (small_css ++ css);
        Ok (Internal h (sum right_summaries) right_summaries right_trees,
            Some (Internal h (sum left_summaries) left_summaries left_trees))
  | Leaf small_summary small_items small_item_summaries, Leaf s items item_summaries =>
      let total_child_count := length small_items + length items in
      if decide (total_child_count ≤ CAP) then
        all_items ← arr_extend CAP small_items items;
        all_summaries ← arr_extend CAP small_item_summaries item_summaries;
        Ok (Leaf (add_summary cx small_summary s) all_items all_summaries, None)
      else
        let midpoint := (total_child_count + 1) `div` 2 in
        '(left_items, right_items) ← split_at midpoint (small_items ++ items);
        '(left_summaries, right_summaries) ←
          split_at midpoint (small_item_summaries ++ item_summaries);
        Ok (Leaf (sum right_summaries) right_items right_summaries,
            Some (Leaf (sum left_summaries) left_items left_summaries))
  | _, _ => Panic
  end.

(** [append_large(small, &mut large)]: the new [large] and the node split off to its left. *)
Fixpoint append_large (small large : Node S T) : outcome (Node S T * option (Node S T)) :=
  if decide (height small = height large) then
    if negb (is_underflowing small) then Ok (large, Some small)
    else merge_into_right small large
  else
    match large with
    | Leaf _ _ _ => Panic
    | Internal h s css cts =>
        let s := add_summary cx (summary small) s in
        match cts with
        | [] => Panic
        | first :: rest =>
            '(first, res) ← append_large small first;
            let cts := first :: rest in
            css ← set_first css (summary first);
            match res with
            | None => Ok (Internal h s css cts, None)
            | Some tree =>
                if decide (length cts < CAP) then
                  css ← arr_push_front CAP css (summary tree);
                  cts ← arr_push_front CAP cts tree;
                  Ok (Internal h s css cts, None)
                else
                  drained_summaries ← slice_to css TREE_BASE;
                  new_child_summaries ← arr_extend CAP [summary tree] drained_summaries;
                  drained_trees ← slice_to cts TREE_BASE;
                  new_child_trees ← arr_extend CAP [tree] drained_trees;
                  let css := drop TREE_BASE css in
                  let cts := drop TREE_BASE cts in
                  Ok (Internal h (sum css) css cts,
                      Some (Internal h (sum new_child_summaries)
                              new_child_summaries new_child_trees))
            end
        end
    end.

Definition append (self other : Node S T) : outcome (Node S T) :=
  if is_empty self then Ok other
  else
    nonempty ← (if negb (is_leaf other) then Ok true
                else its ← node_items other; Ok (bool_decide (its ≠ [])));
    if (nonempty : bool) then
      if decide (height self < height other) then
        '(other, res) ← append_large self other;
        match res with
        | Some tree => from_child_trees tree other
        | None => Ok other
        end
      else
        '(self, split_tree) ← push_tree_recursive self other;
        match split_tree with
        | Some split_tree => from_child_trees self split_tree
        | None => Ok self
        end
    else Ok self.

Definition push (self : Node S T) (item : T) : outcome (Node S T) :=
  let s := item_summary cx item in
  items ← arr_collect CAP [item];
  item_summaries ← arr_collect CAP [s];
  append self (Leaf s items item_summaries).

Definition from_item (item : T) : outcome (Node S T) := push new item.

Definition extend (self : Node S T) (iter : list T) : outcome (Node S T) :=
  other ← from_iter iter; append self other.

Definition par_extend (self : Node S T) (iter : list T) : outcome (Node S T) :=
  other ← from_par_iter iter; append self other.

(** [update_last_recursive(f)]: the new node and the returned summary. *)
Fixpoint update_last_recursive (f : T → T) (self : Node S T) : outcome (Node S T * option S) :=
  match self with
  | Internal h s css cts =>
      r ← unwrap (on_last (update_last_recursive f) cts);
      '(last_child, last_summary) ← r;
      last_summary ← unwrap last_summary;
      cts ← set_last cts last_child;
      css ← set_last css last_summary;
      let s := sum css in
      Ok (Internal h s css cts, Some s)
  | Leaf s items item_summaries =>
      match last items, last item_summaries with
      | Some item, Some _ =>
          let item := f item in
          items ← set_last items item;
          item_summaries ← set_last item_summaries (item_summary cx item);
          let s := sum item_summaries in
          Ok (Leaf s items item_summaries, Some s)
      | _, _ => Ok (self, None)
      end
  end.

Definition update_last (f : T → T) (self : Node S T) : outcome (Node S T) :=
  fst <$> update_last_recursive f self.

Fixpoint update_first_recursive (f : T → T) (self : Node S T) : outcome (Node S T * option S) :=
  match self with
  | Internal h s css cts =>
      match cts with
      | [] => Panic
      | first_child :: rest =>
          '(first_child, first_summary) ← update_first_recursive f first_child;
          first_summary ← unwrap first_summary;
          css ← set_first css first_summary;
          let s := sum css in
          Ok (Internal h s css (first_child :: rest), Some s)
      end
  | Leaf s items item_summaries =>
      match items, item_summaries with
      | item :: _, _ :: _ =>
          let item := f item in
          items ← set_first items item;
          item_summaries ← set_first item_summaries (item_summary cx item);
          let s := sum item_summaries in
          Ok (Leaf s items item_summaries, Some s)
      | _, _ => Ok (self, None)
      end
  end.

Definition update_first (f : T → T) (self : Node S T) : outcome (Node S T) :=
  fst <$> update_first_recursive f self.

End operations.

(** ** Searches without a cursor *)

Section find.
Context {C S T D Tg : Type}.
Context `{!Summary C S, !Item C S T, !Dimension C S D, !SeekTarget C D Tg} (cx : C).
Implicit Types n : Node S T.

(** [target_in_child] of [find_iterate]: the target is before the end of the child. *)
Definition target_in_child (bias : Bias) (comparison : comparison) : bool :=
  match comparison with Lt => true | Eq => bool_decide (bias = Left) | Gt => false end.

(** The loop over the items of a leaf.  The result pairs the entry found with its end, and
    [position] after the loop. *)
Fixpoint find_in_leaf (exact : bool) (target : Tg) (bias : Bias) (position : D)
    (items : list T) (item_summaries : list S) : option (T * D) * D :=
  match items, item_summaries with
  | item :: items, s :: item_summaries =>
      let child_end := dim_add cx position s in
      let comparison := seek_cmp cx target child_end in
      let entry_found :=
        if exact then bool_decide (comparison = Eq) else target_in_child bias comparison in
      if entry_found then (Some (item, child_end), position)
      else find_in_leaf exact target bias child_end items item_summaries
  | _, _ => (None, position)
  end.

Fixpoint find_iterate (exact : bool) (target : Tg) (bias : Bias) (position : D) (this : Node S T) :
    option (T * D) * D :=
  match this with
  | Internal _ _ css cts =>
      (fix go (position : D) cts (css : list S) {struct cts} :=
         match cts, css with
         | child_tree :: cts, child_summary :: css =>
             let child_end := dim_add cx position child_summary in
             if target_in_child bias (seek_cmp cx target child_end)
             then find_iterate exact target bias position child_tree
             else go child_end cts css
         | _, _ => (None, position)
         end) position cts css
  | Leaf _ items item_summaries => find_in_leaf exact target bias position items item_summaries
  end.

(** Whether the target is past the end of the whole tree. *)
Definition past_end (target : Tg) (bias : Bias) (tree_end : D) : bool :=
  negb (target_in_child bias (seek_cmp cx target tree_end)).

Definition find_with (exact : bool) (self : Node S T) (target : Tg) (bias : Bias) :
    D * D * option T :=
  let tree_end := dim_add cx (dim_zero (S:=S) cx) (summary self) in
  if past_end target bias tree_end then (tree_end, tree_end, None)
  else
    match find_iterate exact target bias (dim_zero (S:=S) cx) self with
    | (Some (item, end_), pos) => (pos, end_, Some item)
    | (None, pos) => (pos, pos, None)
    end.

Definition find_exact : Node S T → Tg → Bias → D * D * option T := find_with true.

Definition find : Node S T → Tg → Bias → D * D * option T := find_with false.

(** The leaf loop of [find_with_prev_iterate], which also tracks the previous item. *)
Fixpoint find_prev_in_leaf (target : Tg) (bias : Bias) (position : D) (prev : option T)
    (items : list T) (item_summaries : list S) : option (option T * T * D) * D :=
  match items, item_summaries with
  | item :: items, s :: item_summaries =>
      let child_end := dim_add cx position s in
      if target_in_child bias (seek_cmp cx target child_end)
      then (Some (prev, item, child_end), position)
      else find_prev_in_leaf target bias child_end (Some item) items item_summaries
  | _, _ => (None, position)
  end.

Fixpoint find_with_prev_iterate (target : Tg) (bias : Bias) (position : D) (prev : option T)
    (this : Node S T) : outcome (option (option T * T * D) * D) :=
  match this with
  | Internal _ _ css cts =>
      (fix go (position : D) prev cts (css : list S) {struct cts} :=
         match cts, css with
         | child_tree :: cts, child_summary :: css =>
             let child_end := dim_add cx position child_summary in
             if target_in_child bias (seek_cmp cx target child_end)
             then find_with_prev_iterate target bias position prev child_tree
             else prev ← tree_last child_tree; go child_end prev cts css
         | _, _ => Ok (None, position)
         end) position prev cts css
  | Leaf _ items item_summaries =>
      Ok (find_prev_in_leaf target bias position prev items item_summaries)
  end.

Definition find_with_prev (self : Node S T) (target : Tg) (bias : Bias) :
    outcome (D * D * option (option T * T)) :=
  let tree_end := dim_add cx (dim_zero (S:=S) cx) (summary self) in
  if past_end target bias tree_end then Ok (tree_end, tree_end, None)
  else
    r ← find_with_prev_iterate target bias (dim_zero (S:=S) cx) None self;
    Ok match r with
       | (Some (prev, item, end_), pos) => (pos, end_, Some (prev, item))
       | (None, pos) => (pos, pos, None)
       end.

(** [extent]: the tree's summary as a dimension. *)
Definition extent (self : Node S T) : D := dim_add cx (dim_zero (S:=S) cx) (summary self).

End find.
