(* ===== verification/SumTreeFacts.v ===== *)
(** The well-formedness invariant of the B+ tree, that every constructor and [append] preserve
    it without panicking, and the sequence of items they build. *)
From S2P Require Import Prelude SumTree.

(** Capacity side conditions. *)
Ltac solve_cap ::=
  simpl in *; repeat rewrite ?length_app, ?length_map, ?length_fmap, ?length_take, ?length_drop,
    ?length_rev in *; simpl in *; pose proof TREE_BASE_eq; lia.

(** ** Invariant *)

Section wf.
Context {C S T : Type} `{!Summary C S, !Item C S T} (cx : C).

(** A node of height [h]: at most [CAP] entries, at least one, children of equal height, and
    summaries that sum the entries. *)
Inductive wf_node : nat → Node S T → Prop :=
| wf_leaf items :
    0 < length items ≤ CAP →
    wf_node 0 (Leaf (sum cx (map (item_summary cx) items)) items (map (item_summary cx) items))
| wf_internal h cts :
    0 < length cts ≤ CAP →
    Forall (wf_node h) cts →
    wf_node (Datatypes.S h)
      (Internal (Datatypes.S h) (sum cx (map summary cts)) (map summary cts) cts).

(** A tree is empty or a well-formed node. *)
Definition wf_tree (n : Node S T) : Prop := n = new cx ∨ ∃ h, wf_node h n.

(** The summary of a sequence of items. *)
Definition summary_of (l : list T) : S := sum cx (map (item_summary cx) l).

(** The concatenation of the items of a list of trees. *)
Definition items_of (ts : list (Node S T)) : list T := concat (map tree_items ts).

End wf.

Create HintDb sum_tree.
#[export] Hint Constructors wf_node : sum_tree.

Section facts.
Context {C S T : Type} `{!Summary C S, !Item C S T} (cx : C) `{!SummaryLaws cx}.
Implicit Types n : Node S T.
Implicit Types l : list T.

Local Notation sum := (sum cx).
Local Notation summary_of := (summary_of cx).
Local Notation wf_node := (wf_node cx).
Local Notation wf_tree := (wf_tree cx).

(** ** Sums *)

Lemma foldl_add (a : S) (l : list S) :
  l ≠ [] → foldl (add_summary cx) a l = add_summary cx a (sum l).
Proof.
  induction l as [|x l IH] using rev_ind; [done|]. intros _.
  unfold SumTree.sum. rewrite !foldl_app; simpl.
  destruct (decide (l = [])) as [->|Hl]; simpl.
  - by rewrite zero_left.
  - rewrite IH by done. unfold SumTree.sum. by rewrite add_summary_assoc.
Qed.

Lemma sum_app (l r : list S) :
  l ≠ [] → r ≠ [] → sum (l ++ r) = add_summary cx (sum l) (sum r).
Proof. intros _ Hr. unfold SumTree.sum at 1. rewrite foldl_app. by apply foldl_add. Qed.

Lemma sum_singleton (x : S) : sum [x] = x.
Proof. unfold SumTree.sum; simpl. apply zero_left. Qed.

Lemma sum_cons (x : S) (l : list S) : foldl (add_summary cx) x l = sum (x :: l).
Proof. unfold SumTree.sum; simpl. by rewrite zero_left. Qed.

Lemma summary_of_app l1 l2 :
  l1 ≠ [] → l2 ≠ [] → summary_of (l1 ++ l2) = add_summary cx (summary_of l1) (summary_of l2).
Proof.
  intros. unfold SumTreeFacts.summary_of. rewrite map_app. apply sum_app; by destruct l1, l2.
Qed.

(** ** Elimination of the invariant *)

(** Induction on a well-formed node with the hypothesis for every child. *)
Lemma wf_node_ind' (P : nat → Node S T → Prop) :
  (∀ items, 0 < length items ≤ CAP →
    P 0 (Leaf (summary_of items) items (map (item_summary cx) items))) →
  (∀ h cts, 0 < length cts ≤ CAP → Forall (wf_node h) cts → Forall (P h) cts →
    P (Datatypes.S h) (Internal (Datatypes.S h) (sum (map summary cts)) (map summary cts) cts)) →
  ∀ h n, wf_node h n → P h n.
Proof.
  intros HL HI h. induction h as [|h IH]; intros n Hn.
  - inversion Hn; subst. by apply HL.
  - inversion Hn as [|h' cts ? Hcts]; subst. apply HI; [done..|].
    eapply Forall_impl; [exact Hcts|]. exact IH.
Qed.

Lemma wf_height h n : wf_node h n → height n = h.
Proof. by inversion 1. Qed.

Lemma wf_items_nonempty h n : wf_node h n → tree_items n ≠ [].
Proof.
  revert h n. apply wf_node_ind'; [intros items Hl|intros h cts Hl Hwf IH]; simpl.
  - by destruct items; simpl in *; [lia|].
  - destruct cts as [|t cts]; simpl in *; [lia|]. inversion IH; subst.
    by intros [? _]%app_nil.
Qed.

Lemma items_of_nonempty h cts :
  0 < length cts → Forall (wf_node h) cts → items_of cts ≠ [].
Proof.
  destruct cts as [|t cts]; simpl; [lia|]. intros _ Hcts. inversion Hcts; subst.
  intros [? _]%app_nil. by eapply wf_items_nonempty.
Qed.

Lemma items_of_app ts1 ts2 :
  items_of (ts1 ++ ts2) = @items_of S T ts1 ++ items_of ts2.
Proof. unfold items_of. by rewrite map_app, concat_app. Qed.

(** Summing the summaries of children sums their items. *)
Lemma sum_summaries_gen cts :
  cts ≠ [] → Forall (λ t, tree_items t ≠ [] ∧ summary t = summary_of (tree_items t)) cts →
  items_of cts ≠ [] ∧ sum (map summary cts) = summary_of (items_of cts).
Proof.
  induction cts as [|t cts IH] using rev_ind; [done|]. intros _ [Hc Ht]%Forall_app.
  inversion Ht as [|?? [Hne Hs] _]; subst.
  rewrite map_app, items_of_app; simpl. unfold items_of at 2 4; simpl. rewrite app_nil_r.
  destruct (decide (cts = [])) as [->|Hcts].
  { simpl. rewrite sum_singleton. by unfold items_of. }
  destruct (IH Hcts Hc) as [Hne' Hsum].
  split; [by intros [? _]%app_nil|].
  rewrite sum_app, summary_of_app by (done || by destruct cts).
  by rewrite Hsum, sum_singleton, Hs.
Qed.

(** The summary of a node is the summary of its items. *)
Lemma wf_summary h n : wf_node h n → summary n = summary_of (tree_items n).
Proof.
  revert h n. apply wf_node_ind'; [intros items Hl|intros h cts Hl Hwf IH]; simpl; [done|].
  apply sum_summaries_gen; [by destruct cts; simpl in *; [lia|]|].
  apply Forall_and; split; [|done].
  eapply Forall_impl; [exact Hwf|]. intros t. apply wf_items_nonempty.
Qed.

Lemma sum_summaries h cts :
  0 < length cts → Forall (wf_node h) cts → sum (map summary cts) = summary_of (items_of cts).
Proof.
  intros Hl Hwf. apply sum_summaries_gen; [by destruct cts; simpl in *; [lia|]|].
  eapply Forall_impl; [exact Hwf|].
  intros t Ht. split; [by eapply wf_items_nonempty|by eapply wf_summary].
Qed.

Lemma child_summaries_leaf items s css :
  wf_node 0 (Leaf s items css) → css = map (item_summary cx) items ∧ s = summary_of items.
Proof. by inversion 1. Qed.

Lemma wf_tree_nil n : wf_tree n → tree_items n = [] ↔ n = new cx.
Proof.
  intros [->|[h Hn]]; [done|]. split; [|by intros ->].
  intros []%(wf_items_nonempty _ _ Hn).
Qed.

Lemma is_empty_spec n : wf_tree n → is_empty n = bool_decide (tree_items n = []).
Proof.
  intros [->|[h Hn]]; [done|]. pose proof (wf_items_nonempty _ _ Hn) as Hne.
  rewrite (bool_decide_eq_false_2 _ Hne).
  inversion Hn; subst; [|done]. simpl in *. by apply bool_decide_eq_false_2.
Qed.

Lemma wf_tree_node h n : wf_node h n → wf_tree n.
Proof. right; eauto. Qed.

Lemma wf_tree_summary n : wf_tree n → summary n = summary_of (tree_items n).
Proof. intros [->|[h Hn]]; [done|]. by eapply wf_summary. Qed.

(** Introduction of the invariant from the equations the code establishes. *)
Lemma wf_leaf_intro s items css :
  0 < length items ≤ CAP → css = map (item_summary cx) items → s = summary_of items →
  wf_node 0 (Leaf s items css).
Proof. intros ? -> ->. by constructor. Qed.

Lemma wf_internal_intro h h' s css cts :
  h' = Datatypes.S h → 0 < length cts ≤ CAP → Forall (wf_node h) cts →
  css = map summary cts → s = summary_of (items_of cts) →
  wf_node (Datatypes.S h) (Internal h' s css cts).
Proof.
  intros -> ? Hwf -> ->. rewrite <-(sum_summaries h) by (done || lia). by constructor.
Qed.

(** ** Concatenation *)

(** What [push_tree_recursive] returns: nodes of the same height that hold [l] between them. *)
Definition holds_split (h : nat) (l : list T) (r : Node S T * option (Node S T)) : Prop :=
  wf_node h r.1 ∧
  match r.2 with
  | None => tree_items r.1 = l
  | Some n => wf_node h n ∧ tree_items r.1 ++ tree_items n = l
  end.

(** The same for [append_large] and [merge_into_right], whose split node goes to the left. *)
Definition holds_split_left (h : nat) (l : list T) (r : Node S T * option (Node S T)) : Prop :=
  wf_node h r.1 ∧
  match r.2 with
  | None => tree_items r.1 = l
  | Some n => wf_node h n ∧ tree_items n ++ tree_items r.1 = l
  end.

Lemma split_at_ok {A} mid (all : list A) :
  mid ≤ CAP → length all - mid ≤ CAP → split_at mid all = Ok (take mid all, drop mid all).
Proof.
  intros. unfold split_at.
  by run.
Qed.

Lemma Forall_take_drop {A} (P : A → Prop) k (l : list A) :
  Forall P l → Forall P (take k l) ∧ Forall P (drop k l).
Proof. intros. by apply Forall_app; rewrite take_drop. Qed.

(** A sequence of children that overflows a node, split at [mid]. *)
Lemma split_internal h mid (all : list (Node S T)) :
  0 < mid ≤ CAP → mid < length all ≤ mid + CAP → Forall (wf_node h) all →
  wf_node (Datatypes.S h) (Internal (Datatypes.S h) (sum (take mid (map summary all)))
    (take mid (map summary all)) (take mid all)) ∧
  wf_node (Datatypes.S h) (Internal (Datatypes.S h) (sum (drop mid (map summary all)))
    (drop mid (map summary all)) (drop mid all)).
Proof.
  intros Hm Hl Hwf. apply (Forall_take_drop _ mid) in Hwf as [Hwf1 Hwf2].
  rewrite !firstn_map, !skipn_map. split.
  all: constructor; [|done]; rewrite ?length_take, ?length_drop; lia.
Qed.

Lemma split_leaf mid (all : list T) :
  0 < mid ≤ CAP → mid < length all ≤ mid + CAP →
  wf_node 0 (Leaf (sum (take mid (map (item_summary cx) all))) (take mid all)
    (take mid (map (item_summary cx) all))) ∧
  wf_node 0 (Leaf (sum (drop mid (map (item_summary cx) all))) (drop mid all)
    (drop mid (map (item_summary cx) all))).
Proof.
  intros Hm Hl. rewrite !firstn_map, !skipn_map. split.
  all: constructor; rewrite ?length_take, ?length_drop; lia.
Qed.

Lemma items_of_take_drop mid (all : list (Node S T)) :
  items_of (take mid all) ++ items_of (drop mid all) = items_of all.
Proof. by rewrite <-items_of_app, take_drop. Qed.

(** The end of [push_tree_recursive]'s internal case: append children to a node, splitting it
    when it overflows. *)
Lemma push_finish h s css cts sa ta (l : list T) :
  let cc := length cts + length ta in
  let mid := (cc + cc `mod` 2) `div` 2 in
  0 < length cts ≤ CAP → length ta ≤ CAP → Forall (wf_node h) (cts ++ ta) →
  css = map summary cts → sa = map summary ta →
  items_of (cts ++ ta) = l → s = summary_of l →
  ∃ r,
    (if decide (CAP < cc) then
       '(ls, rs) ← split_at mid (css ++ sa);
       '(lt, rt) ← split_at mid (cts ++ ta);
       Ok (Internal (Datatypes.S h) (sum ls) ls lt, Some (Internal (Datatypes.S h) (sum rs) rs rt))
     else
       css ← arr_extend CAP css sa;
       cts ← arr_extend CAP cts ta;
       Ok (Internal (Datatypes.S h) s css cts, None)) = Ok r ∧
    holds_split (Datatypes.S h) l r.
Proof.
  intros cc mid Hc Ht Hwf -> -> Hl ->.
  assert (length (cts ++ ta) = cc) as Hcc by (by rewrite length_app).
  case_decide as Hover.
  - assert (0 < mid ≤ CAP ∧ mid < cc ≤ mid + CAP) as [Hm1 Hm2].
    { subst mid. pose proof (Nat.div_mod_eq cc 2). pose proof (Nat.mod_upper_bound cc 2).
      pose proof (Nat.div_mod_eq (cc + cc `mod` 2) 2).
      pose proof (Nat.mod_upper_bound (cc + cc `mod` 2) 2). lia. }
    rewrite <-map_app, !split_at_ok by (rewrite ?length_map; lia). simpl.
    eexists; split; [done|]. unfold holds_split; simpl.
    destruct (split_internal h mid (cts ++ ta)) as [H1 H2]; [lia..|done|].
    split_and!; [done..|]. by rewrite <-Hl, <-(items_of_take_drop mid).
  - run.
    eexists; split; [done|]. unfold holds_split; simpl. split; [|done].
    apply wf_internal_intro; rewrite ?map_app; try done; [lia|congruence].
Qed.

Lemma push_leaf_ok n1 n2 :
  wf_node 0 n1 → wf_node 0 n2 →
  ∃ r, push_tree_recursive cx n1 n2 = Ok r ∧ holds_split 0 (tree_items n1 ++ tree_items n2) r.
Proof.
  inversion 1 as [items Hl|]; subst. inversion 1 as [items' Hl'|]; subst. simpl.
  assert (items ≠ [] ∧ items' ≠ []) as [Hne Hne']
    by (split; intros ->; simpl in *; lia).
  rewrite <-map_app.
  set (cc := length items + length items').
  set (mid := (cc + cc `mod` 2) `div` 2).
  assert (length (items ++ items') = cc) as Hcc by (by rewrite length_app).
  case_decide as Hover.
  - assert (0 < mid ≤ CAP ∧ mid < cc ≤ mid + CAP) as [Hm1 Hm2].
    { subst mid. pose proof (Nat.div_mod_eq cc 2). pose proof (Nat.mod_upper_bound cc 2).
      pose proof (Nat.div_mod_eq (cc + cc `mod` 2) 2).
      pose proof (Nat.mod_upper_bound (cc + cc `mod` 2) 2). lia. }
    rewrite !split_at_ok by (rewrite ?length_map; lia). simpl.
    eexists; split; [done|]. unfold holds_split; simpl.
    destruct (split_leaf mid (items ++ items')) as [H1 H2]; [lia..|].
    split_and!; [done..|]. apply take_drop.
  - run.
    eexists; split; [done|]. unfold holds_split; simpl. split; [|done].
    apply wf_leaf_intro; rewrite ?map_app; [lia|done|].
    symmetry. by apply summary_of_app.
Qed.

(** [push_tree_recursive] on well-formed nodes never panics, keeps the invariant and appends
    the items. *)
Lemma push_tree_recursive_ok h n1 :
  wf_node h n1 → ∀ h2 n2, wf_node h2 n2 → h2 ≤ h →
  ∃ r, push_tree_recursive cx n1 n2 = Ok r ∧ holds_split h (tree_items n1 ++ tree_items n2) r.
Proof.
  revert h n1. refine (wf_node_ind' (λ h n1, _) _ _).
  { intros items Hl h2 n2 Hn2 Hle. assert (h2 = 0) as -> by lia.
    apply push_leaf_ok; [by constructor|done]. }
  intros h cts Hl Hwf IH h2 n2 Hn2 Hle. cbn [push_tree_recursive].
  rewrite (wf_height _ _ Hn2), checked_sub_ok by done. simpl.
  assert (sum (map summary cts) = summary_of (items_of cts)) as Hs
    by (eapply sum_summaries; [lia|done]).
  assert (items_of cts ≠ []) as Hne by (eapply items_of_nonempty; [lia|done]).
  pose proof (wf_items_nonempty _ _ Hn2) as Hne2.
  rewrite Hs, (wf_summary _ _ Hn2), <-summary_of_app by done.
  case_decide as Hd0; [|case_match eqn:Hd1].
  - assert (h2 = Datatypes.S h) as -> by lia.
    inversion Hn2 as [|h' cts2 Hl2 Hwf2]; subst; cbn [child_summaries child_trees].
    run.
    apply push_finish; try done; try solve_cap; [by apply Forall_app|by rewrite items_of_app].
  - run.
    apply andb_true_iff in Hd1 as [Hd1%bool_decide_eq_true _].
    assert (h2 = h) as -> by lia.
    apply (push_finish h _ _ _ [summary_of (tree_items n2)] [n2]); try done; try solve_cap.
    + apply Forall_app; split; [done|]. by constructor.
    + simpl. by rewrite (wf_summary _ _ Hn2).
    + rewrite items_of_app. unfold items_of at 2; simpl. by rewrite app_nil_r.
  - apply andb_false_iff in Hd1.
    assert (h2 ≤ h).
    { destruct Hd1 as [Hd1%bool_decide_eq_false|_]; lia. }
    destruct (snoc_inv cts) as (cts' & lst & ->); [lia|].
    apply Forall_app in Hwf as [Hwf Hwf1]. inversion Hwf1 as [|?? Hwlst _]; subst.
    apply Forall_app in IH as [_ IH1]. inversion IH1 as [|?? IHlst _]; subst.
    destruct (IHlst h2 n2 Hn2) as ([lst' res] & Hrun & Hlst' & Hres); [done|].
    rewrite on_last_snoc. simpl. rewrite Hrun. simpl.
    run. rewrite map_app; cbn [map]. run. simpl in *.
    rewrite length_app in Hl; simpl in Hl.
    assert (map summary cts' ++ [summary lst'] = map summary (cts' ++ [lst'])) as Hcss
      by (by rewrite map_app).
    destruct res as [split|]; simpl.
    + destruct Hres as [Hws Hitems].
      run.
      apply (push_finish h _ _ _ [summary split] [split]); try done; try solve_cap.
      { by rewrite !Forall_app, !Forall_singleton. }
      unfold items_of. rewrite !map_app, !concat_app; simpl. rewrite !app_nil_r, <-!app_assoc.
      by rewrite Hitems.
    + apply (push_finish h _ _ _ [] []); try done; try solve_cap.
      { by rewrite app_nil_r, Forall_app, Forall_singleton. }
      unfold items_of. rewrite app_nil_r, !map_app, !concat_app; simpl. rewrite !app_nil_r, <-!app_assoc.
      by rewrite Hres.
Qed.

Lemma div_ceil_bounds k : CAP < k ≤ 2 * CAP → 0 < (k + 1) `div` 2 ≤ CAP ∧
  (k + 1) `div` 2 < k ≤ (k + 1) `div` 2 + CAP.
Proof.
  intros. pose proof (Nat.div_mod_eq (k + 1) 2). pose proof (Nat.mod_upper_bound (k + 1) 2). lia.
Qed.

(** [merge_into_right] on nodes of the same height. *)
Lemma merge_into_right_ok h n1 n2 :
  wf_node h n1 → wf_node h n2 →
  ∃ r, merge_into_right cx n1 n2 = Ok r ∧ holds_split_left h (tree_items n1 ++ tree_items n2) r.
Proof.
  intros Hn1 Hn2. pose proof (wf_items_nonempty _ _ Hn1). pose proof (wf_items_nonempty _ _ Hn2).
  destruct Hn1 as [items1 Hl1|h cts1 Hl1 Hwf1];
    inversion Hn2 as [items2 Hl2|h' cts2 Hl2 Hwf2]; subst; cbn [merge_into_right].
  - case_decide as Hover.
    + run.
      eexists; split; [done|]. unfold holds_split_left; simpl. split; [|done].
      apply wf_leaf_intro; [rewrite length_app; lia|by rewrite map_app|].
      symmetry. by apply summary_of_app.
    + rewrite Nat.add_comm in Hover.
      destruct (div_ceil_bounds (length items1 + length items2)) as [Hm1 Hm2]; [lia|].
      rewrite <-map_app, !split_at_ok by (rewrite ?length_map, ?length_app; lia). simpl.
      eexists; split; [done|]. unfold holds_split_left; simpl.
      destruct (split_leaf ((length items1 + length items2 + 1) `div` 2) (items1 ++ items2))
        as [H1 H2]; [rewrite ?length_app; lia..|].
      split_and!; [done..|]. apply take_drop.
  - case_decide as Hover.
    + run.
      eexists; split; [done|]. unfold holds_split_left; simpl.
      fold (items_of cts1) (items_of cts2). rewrite <-items_of_app. split; [|done].
      apply wf_internal_intro; [done|rewrite length_app; lia|by apply Forall_app|by rewrite map_app|].
      rewrite !(sum_summaries h) by (done || lia). by rewrite <-summary_of_app, items_of_app by done.
    + destruct (div_ceil_bounds (length cts2 + length cts1)) as [Hm1 Hm2]; [lia|].
      rewrite <-map_app, !split_at_ok by (rewrite ?length_map, ?length_app; lia). simpl.
      eexists; split; [done|]. unfold holds_split_left; simpl.
      destruct (split_internal h ((length cts2 + length cts1 + 1) `div` 2) (cts1 ++ cts2))
        as [H1 H2]; [rewrite ?length_app; lia..|by apply Forall_app|].
      split_and!; [done..|].
      fold (items_of cts1) (items_of cts2). rewrite <-items_of_app. apply items_of_take_drop.
Qed.

Lemma append_large_ok hs n1 h n2 :
  wf_node hs n1 → wf_node h n2 → hs ≤ h →
  ∃ r, append_large cx n1 n2 = Ok r ∧ holds_split_left h (tree_items n1 ++ tree_items n2) r.
Proof.
  intros Hn1 Hn2. revert h n2 Hn2. refine (wf_node_ind' (λ h n2, _) _ _).
  { intros items Hl Hle. assert (hs = 0) as -> by lia.
    simpl. rewrite (wf_height _ _ Hn1). simpl.
    case_match; [|by apply merge_into_right_ok; [|constructor]].
    eexists; split; [done|]. split; [by constructor|done]. }
  intros h cts Hl Hwf IH Hle. cbn [append_large height].
  rewrite (wf_height _ _ Hn1). case_decide as Hh.
  { subst hs. case_match; [|by apply merge_into_right_ok; [|constructor]].
    eexists; split; [done|]. split; [by constructor|done]. }
  assert (sum (map summary cts) = summary_of (items_of cts)) as Hs
    by (eapply sum_summaries; [lia|done]).
  rewrite Hs, (wf_summary _ _ Hn1). pose proof (wf_items_nonempty _ _ Hn1) as Hne1.
  assert (items_of cts ≠ []) as Hne by (eapply items_of_nonempty; [lia|done]).
  rewrite <-summary_of_app by done.
  destruct cts as [|fst0 rest]; [simpl in *; lia|].
  inversion Hwf as [|?? Hw0 Hwr]; subst. inversion IH as [|?? IH0 _]; subst.
  destruct IH0 as ([fst1 res] & Hrun & Hw1 & Hres); [lia|]. simpl in Hw1, Hres.
  rewrite Hrun. simpl.
  destruct res as [tree|]; simpl.
  2:{ eexists; split; [done|]. split; simpl.
      - apply wf_internal_intro; [done|solve_cap|by constructor|done|].
        unfold items_of; simpl. by rewrite Hres, <-app_assoc.
      - by rewrite Hres, <-app_assoc. }
  destruct Hres as [Hwt Hitems].
  case_decide as Hcap.
  - run. eexists; split; [done|]. split; simpl.
    + apply wf_internal_intro; [done|solve_cap|by repeat constructor|done|].
      unfold items_of; simpl. by rewrite !app_assoc, Hitems.
    + by rewrite !app_assoc, Hitems.
  - run. eexists; split; [done|].
    pose proof (split_internal h (Datatypes.S TREE_BASE) (tree :: fst1 :: rest)) as [H1 H2];
      [solve_cap..|by repeat constructor|].
    split; [exact H2|]. split; [exact H1|].
    change (items_of (take (Datatypes.S TREE_BASE) (tree :: fst1 :: rest))
      ++ items_of (drop (Datatypes.S TREE_BASE) (tree :: fst1 :: rest)) = tree_items n1 ++ items_of (fst0 :: rest)).
    rewrite items_of_take_drop. unfold items_of; simpl. by rewrite !app_assoc, Hitems.
Qed.

Lemma from_child_trees_ok h n1 n2 :
  wf_node h n1 → wf_node h n2 →
  ∃ n, from_child_trees cx n1 n2 = Ok n ∧ wf_node (Datatypes.S h) n ∧
    tree_items n = tree_items n1 ++ tree_items n2.
Proof.
  intros Hn1 Hn2. unfold from_child_trees. run.
  eexists; split; [done|]. rewrite (wf_height _ _ Hn1), Nat.add_1_r. simpl.
  rewrite app_nil_r. split; [|done].
  apply (wf_internal cx h [n1; n2]); [solve_cap|by repeat constructor].
Qed.

(** [append] of well-formed trees. *)
Lemma append_ok n1 n2 :
  wf_tree n1 → wf_tree n2 →
  ∃ n, append cx n1 n2 = Ok n ∧ wf_tree n ∧ tree_items n = tree_items n1 ++ tree_items n2.
Proof.
  intros Hn1 Hn2. unfold append. rewrite (is_empty_spec _ Hn1).
  case_bool_decide as He1; [rewrite He1; eauto|].
  destruct Hn1 as [->|[h1 Hn1]]; [done|].
  destruct Hn2 as [->|[h2 Hn2]]; simpl.
  { rewrite app_nil_r. eauto using wf_tree_node. }
  assert ((if negb (is_leaf n2) then Ok true
     else its ← node_items n2; Ok (bool_decide (its ≠ []))) = Ok true) as ->.
  { destruct Hn2 as [items Hl|]; simpl; [|done].
    rewrite bool_decide_eq_true_2; [done|]. intros ->; simpl in *; lia. }
  simpl. rewrite (wf_height _ _ Hn1), (wf_height _ _ Hn2).
  case_decide as Hh.
  - destruct (append_large_ok h1 n1 h2 n2) as ([n' res] & -> & Hw & Hres); [done..|lia|].
    simpl in *. destruct res as [t|].
    + destruct Hres as [Hwt Hitems].
      destruct (from_child_trees_ok h2 t n') as (n & -> & Hn & Hi); [done..|].
      eexists; split; [done|]. split; [by eapply wf_tree_node|congruence].
    + eexists; split; [done|]. split; [by eapply wf_tree_node|done].
  - destruct (push_tree_recursive_ok h1 n1 Hn1 h2 n2) as ([n' res] & -> & Hw & Hres); [done|lia|].
    simpl in *. destruct res as [t|].
    + destruct Hres as [Hwt Hitems].
      destruct (from_child_trees_ok h1 n' t) as (n & -> & Hn & Hi); [done..|].
      eexists; split; [done|]. split; [by eapply wf_tree_node|congruence].
    + eexists; split; [done|]. split; [by eapply wf_tree_node|done].
Qed.

Lemma wf_new : wf_tree (new cx).
Proof. by left. Qed.

Lemma push_ok n item :
  wf_tree n →
  ∃ n', push cx n item = Ok n' ∧ wf_tree n' ∧ tree_items n' = tree_items n ++ [item].
Proof.
  intros Hn. unfold push. run.
  apply (append_ok n (Leaf (item_summary cx item) [item] [item_summary cx item])); [done|].
  eapply wf_tree_node, wf_leaf_intro; [solve_cap|done|].
  unfold SumTreeFacts.summary_of; simpl. by rewrite sum_singleton.
Qed.

(** ** Ends of the tree and in-place updates *)

Lemma last_app_ne {A} (l r : list A) : r ≠ [] → last (l ++ r) = last r.
Proof.
  destruct r as [|x r _] using rev_ind; [done|]. intros _. by rewrite app_assoc, !last_snoc.
Qed.

Lemma rightmost_leaf_ok h n :
  wf_node h n → ∃ leaf, rightmost_leaf n = Ok leaf ∧ wf_node 0 leaf ∧
    last (tree_items leaf) = last (tree_items n).
Proof.
  revert h n. refine (wf_node_ind' (λ h n, _) _ _).
  { intros items Hl. eexists; split_and!; [done|by constructor|done]. }
  intros h cts Hl Hwf IH. destruct (snoc_inv cts) as (cts' & c & ->); [lia|].
  apply Forall_app in IH as [_ IH]. inversion IH as [|?? (leaf & Hr & Hw & Hlast) _]; subst.
  apply Forall_app in Hwf as [_ Hwf]. inversion Hwf as [|?? Hwc _]; subst.
  exists leaf. split_and!; [|done|].
  - cbn [rightmost_leaf]. by rewrite on_last_snoc.
  - rewrite Hlast. simpl. rewrite map_app, concat_app; simpl. rewrite app_nil_r.
    rewrite last_app_ne; [done|]. by eapply wf_items_nonempty.
Qed.

Lemma tree_last_ok h n : wf_node h n → tree_last n = Ok (last (tree_items n)).
Proof.
  intros (leaf & Hr & Hw & Hl)%rightmost_leaf_ok. unfold tree_last. rewrite Hr. simpl.
  inversion Hw; subst. simpl in *. by rewrite Hl.
Qed.

Lemma last_summary_ok h n :
  wf_node h n → last_summary n = Ok (item_summary cx <$> last (tree_items n)).
Proof.
  intros (leaf & Hr & Hw & Hl)%rightmost_leaf_ok. unfold last_summary. rewrite Hr. simpl.
  inversion Hw; subst. simpl in *. rewrite <-Hl. f_equal. apply fmap_last.
Qed.

Lemma leftmost_leaf_ok h n :
  wf_node h n → ∃ leaf, leftmost_leaf n = Ok leaf ∧ wf_node 0 leaf ∧
    head (tree_items leaf) = head (tree_items n).
Proof.
  revert h n. refine (wf_node_ind' (λ h n, _) _ _).
  { intros items Hl. eexists; split_and!; [done|by constructor|done]. }
  intros h cts Hl Hwf IH. destruct cts as [|c cts]; [simpl in *; lia|].
  inversion IH as [|?? (leaf & Hr & Hw & Hhd) _]; subst.
  inversion Hwf as [|?? Hwc _]; subst. exists leaf. split_and!; [done..|].
  rewrite Hhd. simpl. pose proof (wf_items_nonempty _ _ Hwc).
  by destruct (tree_items c).
Qed.

Lemma first_ok h n : wf_node h n → first n = Ok (head (tree_items n)).
Proof.
  intros (leaf & Hr & Hw & Hl)%leftmost_leaf_ok. unfold first. rewrite Hr. simpl.
  inversion Hw; subst. simpl in *. by rewrite Hl.
Qed.

(** The node a finished computation returns. *)
Local Ltac exists_node := match goal with |- ∃ n', Ok (?m, _) = _ ∧ _ => exists m end.

Lemma update_last_rec_ok f h n :
  wf_node h n → ∃ n', update_last_recursive cx f n = Ok (n', Some (summary n')) ∧ wf_node h n' ∧
    ∃ l x, tree_items n = l ++ [x] ∧ tree_items n' = l ++ [f x].
Proof.
  revert h n. refine (wf_node_ind' (λ h n, _) _ _).
  { intros items Hl. destruct (snoc_inv items) as (l & x & ->); [lia|].
    cbn [update_last_recursive]. rewrite map_app, !last_snoc. cbn [map]. run.
    assert (map (item_summary cx) l ++ [item_summary cx (f x)]
      = map (item_summary cx) (l ++ [f x])) as -> by by rewrite map_app.
    rewrite last_snoc. simpl.
    exists_node; split_and!; [done|constructor; solve_cap|by eauto]. }
  intros h cts Hl Hwf IH. destruct (snoc_inv cts) as (cts' & c & ->); [lia|].
  apply Forall_app in IH as [_ IH].
  inversion IH as [|?? (c' & Hr & Hw & l & x & Hc & Hc') _]; subst.
  apply Forall_app in Hwf as [Hwf _].
  cbn [update_last_recursive]. rewrite on_last_snoc. simpl. rewrite Hr. simpl.
  rewrite map_app. cbn [map]. run.
  assert (map summary cts' ++ [summary c'] = map summary (cts' ++ [c'])) as ->
    by by rewrite map_app.
  exists_node; split_and!; [done|constructor; [solve_cap|by apply Forall_app; auto]|].
  exists (concat (map tree_items cts') ++ l), x. simpl.
  rewrite !map_app, !concat_app; simpl. by rewrite Hc, Hc', !app_nil_r, <-!app_assoc.
Qed.

Lemma update_first_rec_ok f h n :
  wf_node h n → ∃ n', update_first_recursive cx f n = Ok (n', Some (summary n')) ∧ wf_node h n' ∧
    ∃ x l, tree_items n = x :: l ∧ tree_items n' = f x :: l.
Proof.
  revert h n. refine (wf_node_ind' (λ h n, _) _ _).
  { intros items Hl. destruct items as [|x l]; [simpl in *; lia|]. simpl.
    exists_node; split_and!; [done|apply (wf_leaf cx (f x :: l)); solve_cap|by eauto]. }
  intros h cts Hl Hwf IH. destruct cts as [|c cts]; [simpl in *; lia|].
  inversion IH as [|?? (c' & Hr & Hw & x & l & Hc & Hc') _]; subst.
  inversion Hwf as [|?? _ Hwf']; subst.
  cbn [update_first_recursive]. rewrite Hr. simpl.
  exists_node; split_and!; [done|apply (wf_internal cx h (c' :: cts)); [solve_cap|by constructor]|].
  exists x, (l ++ concat (map tree_items cts)). simpl. by rewrite Hc, Hc'.
Qed.

(** ** Construction from an iterator *)

(** The node a full or final parent of a level is. *)
Definition mk_parent (h : nat) (cts : list (Node S T)) : Node S T :=
  Internal h (sum (map summary cts)) (map summary cts) cts.

Definition cur_parent (h : nat) (cts : list (Node S T)) : option (Node S T) :=
  match cts with [] => None | _ => Some (mk_parent h cts) end.

Lemma leaf_of_chunk_ok (c : list T) :
  0 < length c ≤ CAP →
  leaf_of_chunk cx c = Ok (Leaf (summary_of c) c (map (item_summary cx) c)).
Proof.
  intros Hc. unfold leaf_of_chunk. run. destruct c as [|x c]; [simpl in *; lia|].
  simpl. unfold index, slice_from; simpl. by rewrite sum_cons.
Qed.

Lemma parent_of_chunk_ok h (c : list (Node S T)) :
  0 < length c ≤ CAP → parent_of_chunk cx h c = Ok (mk_parent h c).
Proof.
  intros Hc. unfold parent_of_chunk. run. destruct c as [|x c]; [simpl in *; lia|].
  simpl. unfold index, slice_from; simpl. by rewrite sum_cons.
Qed.

(** [from_iter]'s loop over a level closes a parent after every [CAP] children: it groups the
    nodes as [chunks] does. *)
Lemma add_child_fold h (l cts ps : list (Node S T)) :
  length cts < CAP →
  ∃ r, foldM (add_child cx h) (cur_parent h cts, ps) l = Ok r ∧
    r.2 ++ option_list r.1 = ps ++ map (mk_parent h) (chunks CAP (cts ++ l)).
Proof.
  revert cts ps. induction l as [|x l IH]; intros cts ps Hc; simpl.
  - eexists; split; [done|]. rewrite app_nil_r. simpl. f_equal.
    destruct cts as [|c cts]; [done|]. by rewrite chunks_small by (simpl in *; lia).
  - assert (default (Internal h (zero cx) [] []) (cur_parent h cts) = mk_parent h cts) as ->
      by by destruct cts.
    simpl. run.
    assert (Internal h (add_summary cx (sum (map summary cts)) (summary x))
      (map summary cts ++ [summary x]) (cts ++ [x]) = mk_parent h (cts ++ [x])) as ->.
    { unfold mk_parent, SumTree.sum. by rewrite map_app, foldl_app. }
    assert (cts ++ x :: l = (cts ++ [x]) ++ l) as -> by by rewrite <-app_assoc.
    case_decide as Hfull; simpl.
    + destruct (IH [] (ps ++ [mk_parent h (cts ++ [x])])) as (r & Hr & Hr2); [solve_cap|].
      exists r. split; [exact Hr|]. rewrite Hr2; simpl. rewrite (chunks_app_full CAP (cts ++ [x])) by (done || solve_cap).
      simpl. by rewrite <-app_assoc.
    + destruct (IH (cts ++ [x]) ps) as (r & Hr & Hr2); [solve_cap|].
      exists r. split; [|done]. rewrite <-Hr. f_equal. by destruct cts.
Qed.

Lemma mk_parents_ok h (nodes : list (Node S T)) :
  Forall (wf_node h) nodes →
  Forall (wf_node (h + 1)) (map (mk_parent (h + 1)) (chunks CAP nodes)) ∧
  items_of (map (mk_parent (h + 1)) (chunks CAP nodes)) = items_of nodes.
Proof.
  intros Hwf. assert (0 < CAP) as Hcap by solve_cap.
  rewrite <-(chunks_concat CAP nodes) in Hwf at 1 by done.
  rewrite <-(chunks_concat CAP nodes) at 3 by done.
  pose proof (chunks_size CAP nodes Hcap) as Hsz.
  induction (chunks CAP nodes) as [|c cs IH]; [by split; [constructor|]|]. simpl in *.
  apply Forall_app in Hwf as [Hc Hcs]. inversion Hsz as [|?? Hsc Hscs]; subst.
  destruct IH as [IH1 IH2]; [done..|]. split.
  - constructor; [|done]. rewrite Nat.add_1_r. by constructor.
  - rewrite items_of_app, <-IH2. done.
Qed.

Lemma from_iter_levels_ok fuel h nodes :
  Forall (wf_node h) nodes → length nodes ≤ fuel →
  ∃ ns h', from_iter_levels cx fuel h nodes = Ok ns ∧ length ns ≤ 1 ∧
    Forall (wf_node h') ns ∧ items_of ns = items_of nodes ∧
    (∀ j, length nodes ≤ CAP ^ j → h' ≤ h + j).
Proof.
  revert h nodes. induction fuel as [|fuel IH]; intros h nodes Hwf Hf; simpl;
    case_decide as Hl; [lia|by eauto 10 with lia| |by eauto 10 with lia].
  destruct (add_child_fold (h + 1) nodes [] []) as (r & Hr & Hr2); [solve_cap|].
  simpl in Hr. rewrite Hr. simpl. rewrite Hr2. simpl.
  destruct (mk_parents_ok h nodes Hwf) as [Hw Hi].
  destruct (IH (h + 1) (map (mk_parent (h + 1)) (chunks CAP nodes))) as (ns & h' & Hns & ?&?&?&Hh).
  - done.
  - rewrite length_map. unfold chunks.
    destruct (length_chunks_fuel (length nodes) CAP nodes) as [_ Hlt]; [solve_cap|]. lia.
  - exists ns, h'. split_and!; [done..|congruence|].
    intros [|j] Hj; [simpl in Hj; lia|].
    specialize (Hh j). rewrite length_map in Hh.
    specialize (Hh (length_chunks_pow CAP j nodes ltac:(solve_cap) Hj)). lia.
Qed.

Lemma from_par_iter_levels_eq fuel h (nodes : list (Node S T)) :
  from_par_iter_levels cx fuel h nodes = from_iter_levels cx fuel h nodes.
Proof.
  revert h nodes. induction fuel as [|fuel IH]; intros h nodes; simpl; [done|].
  case_decide as Hl; [|done].
  destruct (add_child_fold (h + 1) nodes [] []) as (r & Hr & Hr2); [solve_cap|].
  simpl in Hr. rewrite Hr. simpl. rewrite Hr2, <-IH. simpl.
  rewrite (mapM_ok_map _ (mk_parent (h + 1))); [done|].
  eapply Forall_impl; [apply chunks_size; solve_cap|]. intros c. apply parent_of_chunk_ok.
Qed.

Lemma leaves_ok (iter : list T) :
  ∃ ns, mapM_ok (leaf_of_chunk cx) (chunks CAP iter) = Ok ns ∧
    Forall (wf_node 0) ns ∧ items_of ns = iter ∧ length ns = length (chunks CAP iter).
Proof.
  assert (0 < CAP) as Hcap by solve_cap.
  rewrite (mapM_ok_map _ (λ c, Leaf (summary_of c) c (map (item_summary cx) c))).
  2:{ eapply Forall_impl; [by apply chunks_size|]. intros c. apply leaf_of_chunk_ok. }
  eexists; split; [done|]. split_and!; [| |by rewrite length_map].
  - apply Forall_map. eapply Forall_impl; [by apply chunks_size|]. intros c Hc. by constructor.
  - rewrite <-(chunks_concat CAP iter) at 2 by done. unfold items_of.
    by rewrite map_map; simpl; rewrite map_id.
Qed.

(** The tree built from a sequence, whose height is logarithmic in the length. *)
Lemma from_iter_height iter :
  ∃ n, from_iter cx iter = Ok n ∧ wf_tree n ∧ tree_items n = iter ∧
    ∀ j, length iter ≤ CAP ^ Datatypes.S j → height n ≤ j.
Proof.
  unfold from_iter. destruct (leaves_ok iter) as (ns & -> & Hw & Hi & Hlen). simpl.
  destruct (from_iter_levels_ok (length ns) 0 ns) as (ns' & h & -> & Hl & Hw' & Hi' & Hh); [done..|].
  rewrite Hi in Hi'. rewrite Hlen in Hh. clear Hi Hlen Hw ns. cbn [mbind outcome_bind].
  destruct ns' as [|n [|]]; simpl in Hl; [| |lia].
  - exists (new cx). split_and!; [done|by left|by rewrite <-Hi'|simpl; lia].
  - apply Forall_cons in Hw' as [Hn _].
    assert (tree_items n = iter) as Ht by (rewrite <-Hi'; unfold items_of; simpl; by rewrite app_nil_r).
    exists n. split_and!; [done|by eapply wf_tree_node|done|]. intros j Hj.
    assert (height n = h) as -> by (by inversion Hn; subst).
    apply (Hh j). apply length_chunks_pow; [solve_cap|done].
Qed.

Lemma from_iter_ok iter :
  ∃ n, from_iter cx iter = Ok n ∧ wf_tree n ∧ tree_items n = iter.
Proof. destruct (from_iter_height iter) as (n & ? & ? & ? & _). by exists n. Qed.

Lemma from_par_iter_eq (iter : list T) : from_par_iter cx iter = from_iter cx iter.
Proof.
  unfold from_par_iter, from_iter. destruct (mapM_ok _ _); simpl; [|done..].
  by rewrite from_par_iter_levels_eq.
Qed.

Lemma extend_ok n iter :
  wf_tree n →
  ∃ n', extend cx n iter = Ok n' ∧ wf_tree n' ∧ tree_items n' = tree_items n ++ iter.
Proof.
  intros Hn. unfold extend. destruct (from_iter_ok iter) as (m & -> & Hm & <-). simpl.
  by apply append_ok.
Qed.

End facts.
