(* ===== verification/Seek.v ===== *)
(** Seeking: the position after a prefix of the items, the linear scan that is the reference
    for every search, and the proof that [find], [find_exact] and [find_with_prev] agree with
    it. *)
From S2P Require Import Prelude SumTree SumTreeFacts.

Section defs.
Context {C S T D Tg : Type}.
Context `{!Summary C S, !Item C S T, !Dimension C S D, !SeekTarget C D Tg} (cx : C).

(** The position reached from [d] by moving over the items [l]. *)
Definition pos_from (d : D) (l : list T) : D :=
  foldl (λ d x, dim_add cx d (item_summary cx x)) d l.

(** The position after the items [l] from the start. *)
Definition pos_of (l : list T) : D := pos_from (dim_zero (S:=S) cx) l.

(** Whether [d] has reached the target: seeking stops before the first item whose end has. *)
Definition reached (target : Tg) (bias : Bias) (d : D) : bool :=
  target_in_child bias (seek_cmp cx target d).

(** The linear scan: the items before the first one whose end has reached the target, and the
    rest. *)
Fixpoint scan (target : Tg) (bias : Bias) (d : D) (l : list T) : list T * list T :=
  match l with
  | [] => ([], [])
  | x :: l' =>
      let e := dim_add cx d (item_summary cx x) in
      if reached target bias e then ([], l)
      else let '(a, b) := scan target bias e l' in (x :: a, b)
  end.

(** [Lt <= Eq <= Gt]. *)
Definition comparison_le (a b : comparison) : Prop :=
  match a, b with Lt, _ | Eq, Eq | Eq, Gt | Gt, Gt => True | _, _ => False end.

(** The items are sorted for the target: the target compares lower and lower with the
    positions of the sequence. *)
Definition seek_sorted (target : Tg) (d : D) (l : list T) : Prop :=
  ∀ l1 l2 l3, l = l1 ++ l2 ++ l3 →
    comparison_le (seek_cmp cx target (pos_from d (l1 ++ l2)))
      (seek_cmp cx target (pos_from d l1)).

End defs.

Section facts.
Context {C S T D Tg : Type}.
Context `{!Summary C S, !Item C S T, !Dimension C S D, !SeekTarget C D Tg} (cx : C).
Context `{!SummaryLaws cx, !DimensionLaws (S:=S) D cx}.
Implicit Types n : Node S T.
Implicit Types l a b : list T.
Implicit Types d : D.

Local Notation pos_from := (pos_from cx).
Local Notation reached := (reached cx).
Local Notation scan := (scan cx).
Local Notation seek_sorted := (seek_sorted cx).
Local Notation wf_node := (wf_node cx).
Local Notation wf_tree := (wf_tree cx).

(** ** Positions *)

Lemma pos_from_app d l1 l2 : pos_from d (l1 ++ l2) = pos_from (pos_from d l1) l2.
Proof. apply foldl_app. Qed.

Lemma pos_of_app l1 l2 : pos_of cx (D:=D) (l1 ++ l2) = pos_from (pos_of cx l1) l2.
Proof. apply pos_from_app. Qed.

Lemma dim_add_sum d (l : list S) :
  l ≠ [] → dim_add cx d (sum cx l) = foldl (dim_add cx) d l.
Proof.
  induction l as [|x l IH] using rev_ind; [done|]. intros _.
  destruct (decide (l = [])) as [->|Hl]; simpl; [by rewrite sum_singleton|].
  rewrite sum_app, sum_singleton, foldl_app by done. simpl.
  by rewrite dim_add_summary, IH.
Qed.

Lemma dim_add_summary_of d l : l ≠ [] → dim_add cx d (summary_of cx l) = pos_from d l.
Proof.
  intros Hl. unfold summary_of. rewrite dim_add_sum by by destruct l.
  unfold Seek.pos_from. clear Hl. revert d. induction l as [|x l IH]; intros d; simpl; auto.
Qed.

(** Adding a node's summary moves over its items. *)
Lemma dim_add_node d h n : wf_node h n → dim_add cx d (summary n) = pos_from d (tree_items n).
Proof.
  intros Hn. rewrite (wf_summary cx _ _ Hn).
  apply dim_add_summary_of. by eapply wf_items_nonempty.
Qed.

Lemma dim_add_tree n :
  wf_tree n → dim_add cx (dim_zero (S:=S) cx) (summary n) = pos_of cx (D:=D) (tree_items n).
Proof.
  intros [->|[h Hn]]; [|by eapply dim_add_node].
  simpl. by rewrite dim_add_zero.
Qed.

(** ** The scan *)

Lemma scan_app target bias d l : (scan target bias d l).1 ++ (scan target bias d l).2 = l.
Proof.
  revert d. induction l as [|x l IH]; intros d; simpl; [done|].
  case_match; [done|]. specialize (IH (dim_add cx d (item_summary cx x))).
  destruct (scan _ _ _ l) as [a b]; simpl in *. by rewrite IH.
Qed.

Lemma seek_sorted_cons target d x l :
  seek_sorted target d (x :: l) → seek_sorted target (dim_add cx d (item_summary cx x)) l.
Proof. intros Hs l1 l2 l3 ->. apply (Hs (x :: l1) l2 l3). done. Qed.

Lemma seek_sorted_app target d l1 l2 :
  seek_sorted target d (l1 ++ l2) →
  seek_sorted target d l1 ∧ seek_sorted target (pos_from d l1) l2.
Proof.
  intros Hs. split.
  - intros a b c ->. apply (Hs a b (c ++ l2)). by rewrite <-!app_assoc.
  - intros a b c ->. rewrite <-!pos_from_app, (app_assoc l1).
    apply (Hs (l1 ++ a) b c). by rewrite <-!app_assoc.
Qed.

Lemma reached_le target bias d1 d2 :
  comparison_le (seek_cmp cx target d2) (seek_cmp cx target d1) →
  reached target bias d1 = true → reached target bias d2 = true.
Proof.
  unfold Seek.reached, target_in_child.
  by destruct (seek_cmp cx target d1), (seek_cmp cx target d2), bias.
Qed.

(** When the end has not reached the target, no item has. *)
Lemma scan_miss target bias d l :
  seek_sorted target d l → (l ≠ [] → reached target bias (pos_from d l) = false) →
  scan target bias d l = (l, []).
Proof.
  revert d. induction l as [|x l IH]; intros d Hs Hr; simpl; [done|].
  assert (reached target bias (dim_add cx d (item_summary cx x)) = false) as ->.
  { apply not_true_iff_false. intros Hx.
    eapply reached_le in Hx; [by rewrite (Hr ltac:(done)) in Hx|].
    apply (Hs [x] l []). by rewrite app_nil_r. }
  rewrite IH; [done|by apply seek_sorted_cons|]. intros Hl. by apply (Hr ltac:(done)).
Qed.

(** When the end has reached the target, the scan stops at an item. *)
Lemma scan_hit target bias d l :
  l ≠ [] → reached target bias (pos_from d l) = true →
  ∃ a x b, scan target bias d l = (a, x :: b).
Proof.
  revert d. induction l as [|x l IH]; intros d Hne Hr; simpl; [done|].
  case_match eqn:Hx; [by eexists [], x, l|].
  destruct (decide (l = [])) as [->|Hl]; [simpl in *; congruence|].
  destruct (IH (dim_add cx d (item_summary cx x))) as (a & y & b & ->); [done..|].
  by eexists _, _, _.
Qed.

Lemma scan_app_hit target bias d l r a x b :
  scan target bias d l = (a, x :: b) → scan target bias d (l ++ r) = (a, x :: b ++ r).
Proof.
  revert d a. induction l as [|y l IH]; intros d a; simpl; [done|].
  case_match; [by intros; simplify_eq|].
  destruct (scan _ _ _ l) as [a' b'] eqn:E. intros; simplify_eq.
  by erewrite IH.
Qed.

Lemma scan_app_miss target bias d l r :
  scan target bias d l = (l, []) →
  scan target bias d (l ++ r) =
    let '(a, b) := scan target bias (pos_from d l) r in (l ++ a, b).
Proof.
  revert d. induction l as [|y l IH]; intros d; simpl.
  - by destruct (scan _ _ d r).
  - case_match; [done|]. destruct (scan _ _ _ l) as [a' b'] eqn:E. intros; simplify_eq.
    rewrite IH by done. unfold Seek.pos_from; simpl. by destruct (scan _ _ _ r).
Qed.

(** What the scan finds in a node, by the position of its end. *)
Lemma scan_node target bias d h n r :
  wf_node h n → seek_sorted target d (tree_items n ++ r) →
  if reached target bias (pos_from d (tree_items n))
  then ∃ a x b, scan target bias d (tree_items n) = (a, x :: b) ∧
    scan target bias d (tree_items n ++ r) = (a, x :: b ++ r)
  else scan target bias d (tree_items n) = (tree_items n, []) ∧
    scan target bias d (tree_items n ++ r) =
      let '(a, b) := scan target bias (pos_from d (tree_items n)) r in (tree_items n ++ a, b).
Proof.
  intros Hn [Hs _]%seek_sorted_app. case_match eqn:Hr.
  - destruct (scan_hit target bias d (tree_items n)) as (a & x & b & Hx);
      [by eapply wf_items_nonempty|done|].
    exists a, x, b. eauto using scan_app_hit.
  - assert (scan target bias d (tree_items n) = (tree_items n, [])) as Hx by by apply scan_miss.
    eauto using scan_app_miss.
Qed.

(** ** [find] *)

(** What a search returns for the scan of the items. *)
Definition found (d : D) (r : list T * list T) : option (T * D) * D :=
  match r.2 with
  | [] => (None, pos_from d r.1)
  | x :: _ => (Some (x, pos_from d (r.1 ++ [x])), pos_from d r.1)
  end.

Lemma found_app d l r : found d (l ++ r.1, r.2) = found (pos_from d l) r.
Proof. unfold found; simpl. destruct r.2; by rewrite ?pos_from_app. Qed.

Lemma find_in_leaf_ok target bias d (items : list T) :
  find_in_leaf cx false target bias d items (map (item_summary cx) items)
  = found d (scan target bias d items).
Proof.
  revert d. induction items as [|x l IH]; intros d; simpl; [done|].
  unfold Seek.reached. destruct (target_in_child _ _); [done|]. rewrite IH.
  set (e := dim_add _ _ _). unfold Seek.reached.
  destruct (scan target bias e l) as [a b] eqn:E.
  exact (eq_sym (found_app d [x] (a, b))).
Qed.

Lemma find_iterate_ok target bias h n :
  wf_node h n → ∀ d, seek_sorted target d (tree_items n) →
  find_iterate cx false target bias d n = found d (scan target bias d (tree_items n)).
Proof.
  revert h n. refine (wf_node_ind' cx (λ h n, _) _ _).
  { intros items Hl d _. apply find_in_leaf_ok. }
  intros h cts _ Hwf IH d Hs. simpl in *. revert d Hs.
  induction cts as [|c cts IHc]; intros d Hs; simpl in *; [done|].
  inversion Hwf as [|?? Hwc Hwcs]; subst. inversion IH as [|?? IHn IHcs]; subst.
  rewrite (dim_add_node d _ _ Hwc). pose proof (scan_node target bias d h c _ Hwc Hs) as Hc.
  apply seek_sorted_app in Hs as [Hs1 Hs2].
  unfold Seek.reached in *. case_match.
  - destruct Hc as (a & x & b & H1 & ->). rewrite IHn by done. unfold Seek.reached in H1.
    by rewrite H1.
  - destruct Hc as [_ ->]. rewrite IHc by done.
    destruct (scan target bias (pos_from d (tree_items c)) _) as [a b] eqn:E.
    exact (eq_sym (found_app d (tree_items c) (a, b))).
Qed.

Lemma past_end_ok target bias n :
  wf_tree n →
  past_end cx target bias (dim_add cx (dim_zero (S:=S) cx) (summary n)) =
  negb (reached target bias (pos_of cx (tree_items n))).
Proof. intros. unfold past_end. by rewrite dim_add_tree. Qed.

Lemma find_ok target bias n :
  wf_tree n → seek_sorted target (dim_zero (S:=S) cx) (tree_items n) →
  find cx n target bias =
    match scan target bias (dim_zero (S:=S) cx) (tree_items n) with
    | (l, []) => (pos_of cx l, pos_of cx l, None)
    | (l, x :: _) => (pos_of cx l, pos_of cx (l ++ [x]), Some x)
    end.
Proof.
  intros Hn Hs. unfold find, find_with. rewrite past_end_ok by done.
  destruct (reached target bias (pos_of cx (tree_items n))) eqn:Hr; simpl.
  - destruct Hn as [->|[h Hn]]; [done|].
    rewrite (find_iterate_ok target bias h n Hn) by done. unfold found.
    destruct (scan target bias _ (tree_items n)) as [l [|x b]]; done.
  - rewrite scan_miss, dim_add_tree by done. done.
Qed.

(** ** [find_exact] *)

Lemma comparison_le_trans c1 c2 c3 :
  comparison_le c1 c2 → comparison_le c2 c3 → comparison_le c1 c3.
Proof. by destruct c1, c2, c3. Qed.

(** What an exact search to the left returns for the scan of the items. *)
Definition found_exact (target : Tg) d (r : list T * list T) : option (T * D) :=
  match r.2 with
  | [] => None
  | x :: _ =>
      let e := pos_from d (r.1 ++ [x]) in
      if decide (seek_cmp cx target e = Eq) then Some (x, e) else None
  end.

Lemma found_exact_app target d l r :
  found_exact target d (l ++ r.1, r.2) = found_exact target (pos_from d l) r.
Proof. unfold found_exact; simpl. destruct r.2; by rewrite ?pos_from_app. Qed.

Lemma find_in_leaf_before target d (items : list T) :
  seek_sorted target d items → seek_cmp cx target d = Lt →
  (find_in_leaf cx true target Left d items (map (item_summary cx) items)).1 = None.
Proof.
  revert d. induction items as [|x l IH]; intros d Hs Hlt; simpl; [done|].
  assert (seek_cmp cx target (dim_add cx d (item_summary cx x)) = Lt) as He.
  { pose proof (Hs [] [x] l eq_refl) as Hle. simpl in Hle. rewrite Hlt in Hle.
    by destruct (seek_cmp cx target (dim_add cx d (item_summary cx x))). }
  rewrite He. simpl. apply IH; [by apply seek_sorted_cons|done].
Qed.

Lemma find_in_leaf_exact_ok target d (items : list T) :
  seek_sorted target d items →
  let r := find_in_leaf cx true target Left d items (map (item_summary cx) items) in
  let sc := scan target Left d items in
  r.1 = found_exact target d sc ∧ (is_Some r.1 → r.2 = pos_from d sc.1).
Proof.
  revert d. induction items as [|x l IH]; intros d Hs; simpl; [done|].
  apply seek_sorted_cons in Hs as Hs'. unfold Seek.reached, found_exact, target_in_child.
  set (e := dim_add cx d (item_summary cx x)) in *.
  destruct (seek_cmp cx target e) eqn:He; simpl.
  - fold e. by rewrite He.
  - rewrite find_in_leaf_before by done. fold e. by rewrite He.
  - destruct (IH e Hs') as [IH1 IH2]. fold (reached target Left).
    destruct (scan target Left e l) as [a b] eqn:E. simpl in *. split; [|exact IH2].
    rewrite IH1. exact (eq_sym (found_exact_app target d [x] (a, b))).
Qed.

Lemma find_iterate_exact_ok target h n :
  wf_node h n → ∀ d, seek_sorted target d (tree_items n) →
  let r := find_iterate cx true target Left d n in
  let sc := scan target Left d (tree_items n) in
  r.1 = found_exact target d sc ∧ (is_Some r.1 → r.2 = pos_from d sc.1).
Proof.
  revert h n. refine (wf_node_ind' cx (λ h n, _) _ _).
  { intros items Hl d Hs. by apply find_in_leaf_exact_ok. }
  intros h cts _ Hwf IH d Hs. simpl in *. revert d Hs.
  induction cts as [|c cts IHc]; intros d Hs; simpl in *; [done|].
  inversion Hwf as [|?? Hwc Hwcs]; subst. inversion IH as [|?? IHn IHcs]; subst.
  rewrite (dim_add_node d _ _ Hwc). pose proof (scan_node target Left d h c _ Hwc Hs) as Hc.
  apply seek_sorted_app in Hs as [Hs1 Hs2].
  unfold Seek.reached at 1 in Hc. case_match.
  - destruct Hc as (a & x & b & H1 & H2). rewrite H2. specialize (IHn _ Hs1).
    by rewrite H1 in IHn.
  - destruct Hc as [_ H2]. rewrite H2. specialize (IHc Hwcs IHcs _ Hs2).
    destruct (scan target Left (pos_from d (tree_items c)) _) as [a b].
    destruct IHc as [-> IH2]. split.
    + exact (eq_sym (found_exact_app target d (tree_items c) (a, b))).
    + intros Hs. rewrite (IH2 Hs). symmetry. apply pos_from_app.
Qed.

Lemma find_exact_ok target n :
  wf_tree n → seek_sorted target (dim_zero (S:=S) cx) (tree_items n) →
  let sc := scan target Left (dim_zero (S:=S) cx) (tree_items n) in
  match found_exact target (dim_zero (S:=S) cx) sc with
  | Some (x, e) => find_exact cx n target Left = (pos_of cx sc.1, e, Some x)
  | None => (find_exact cx n target Left).2 = None
  end.
Proof.
  intros Hn Hs. unfold find_exact, find_with. rewrite past_end_ok by done.
  destruct (reached target Left (pos_of cx (tree_items n))) eqn:Hr; simpl.
  - destruct Hn as [->|[h Hn]]; [done|].
    destruct (find_iterate_exact_ok target h n Hn _ Hs) as [H1 H2].
    destruct (find_iterate cx true target Left _ n) as [[[x e]|] pos]; simpl in *;
      rewrite <-H1; [|done]. by rewrite H2 by eauto.
  - by rewrite scan_miss.
Qed.

(** ** [find_with_prev] *)

Definition found_prev (prev : option T) d (r : list T * list T) :
    option (option T * T * D) * D :=
  match r.2 with
  | [] => (None, pos_from d r.1)
  | x :: _ =>
      (Some (if last r.1 is Some y then Some y else prev, x, pos_from d (r.1 ++ [x])),
       pos_from d r.1)
  end.

Lemma found_prev_app prev d l y r :
  last l = Some y →
  found_prev prev d (l ++ r.1, r.2) = found_prev (Some y) (pos_from d l) r.
Proof.
  intros Hl. unfold found_prev; simpl.
  destruct r.2; rewrite ?pos_from_app; [done|].
  repeat f_equal. destruct r.1 as [|z r1 _] using rev_ind.
  - by rewrite app_nil_r, Hl.
  - by rewrite app_assoc, !last_snoc.
Qed.

Lemma find_prev_in_leaf_ok target bias d prev (items : list T) :
  find_prev_in_leaf cx target bias d prev items (map (item_summary cx) items)
  = found_prev prev d (scan target bias d items).
Proof.
  revert d prev. induction items as [|x l IH]; intros d prev; simpl; [done|].
  fold (reached target bias (dim_add cx d (item_summary cx x))).
  destruct (reached _ _ _); [done|]. rewrite IH.
  destruct (scan target bias _ l) as [a b] eqn:E.
  exact (eq_sym (found_prev_app prev d [x] x (a, b) eq_refl)).
Qed.

Lemma find_with_prev_iterate_ok target bias h n :
  wf_node h n → ∀ d prev, seek_sorted target d (tree_items n) →
  find_with_prev_iterate cx target bias d prev n
  = Ok (found_prev prev d (scan target bias d (tree_items n))).
Proof.
  revert h n. refine (wf_node_ind' cx (λ h n, _) _ _).
  { intros items Hl d prev _. simpl. by rewrite find_prev_in_leaf_ok. }
  intros h cts _ Hwf IH d prev Hs. simpl in *. revert d prev Hs.
  induction cts as [|c cts IHc]; intros d prev Hs; simpl in *; [done|].
  inversion Hwf as [|?? Hwc Hwcs]; subst. inversion IH as [|?? IHn IHcs]; subst.
  rewrite (dim_add_node d _ _ Hwc). pose proof (scan_node target bias d h c _ Hwc Hs) as Hc.
  apply seek_sorted_app in Hs as [Hs1 Hs2].
  unfold Seek.reached at 1 in Hc. case_match.
  - destruct Hc as (a & x & b & H1 & ->). rewrite IHn by done. by rewrite H1.
  - destruct Hc as [_ ->]. rewrite (tree_last_ok cx _ _ Hwc). simpl. rewrite IHc by done.
    destruct (scan target bias (pos_from d (tree_items c)) _) as [a b] eqn:E.
    f_equal. destruct (last (tree_items c)) as [y|] eqn:Hy.
    + exact (eq_sym (found_prev_app prev d (tree_items c) y (a, b) Hy)).
    + apply last_None in Hy. by destruct (wf_items_nonempty cx _ _ Hwc).
Qed.

Lemma find_with_prev_ok target bias n :
  wf_tree n → seek_sorted target (dim_zero (S:=S) cx) (tree_items n) →
  find_with_prev cx n target bias = Ok
    match scan target bias (dim_zero (S:=S) cx) (tree_items n) with
    | (l, []) => (pos_of cx l, pos_of cx l, None)
    | (l, x :: _) => (pos_of cx l, pos_of cx (l ++ [x]), Some (last l, x))
    end.
Proof.
  intros Hn Hs. unfold find_with_prev. rewrite past_end_ok by done.
  destruct (reached target bias (pos_of cx (tree_items n))) eqn:Hr; simpl.
  - destruct Hn as [->|[h Hn]]; [done|].
    rewrite (find_with_prev_iterate_ok target bias h n Hn) by done. simpl. unfold found_prev.
    destruct (scan target bias _ (tree_items n)) as [l [|x b]]; [done|]. simpl.
    repeat f_equal. by destruct (last l).
  - rewrite scan_miss, dim_add_tree by done. done.
Qed.

End facts.
