(* ===== verification/Cursor.v ===== *)
(** The cursor of [crates/sum_tree/src/cursor.rs]: a position in a tree kept as the stack of
    the nodes above it, its movements, seeking, and the slices and summaries that seeking
    collects; the iterator [Iter]; the keyed operations of [sum_tree.rs] built on cursors. *)
From S2P Require Import Prelude SumTree.

(** [struct StackEntry]. *)
Record StackEntry (S T D : Type) : Type := mkEntry {
  se_tree : Node S T;
  se_index : nat;
  se_position : D;
}.
Arguments mkEntry {S T D}.
Arguments se_tree {S T D}.
Arguments se_index {S T D}.
Arguments se_position {S T D}.

(** [struct Cursor]; the top of the stack is the head of the list. *)
Record Cursor (S T D : Type) : Type := mkCursor {
  c_tree : Node S T;
  c_stack : list (StackEntry S T D);
  c_position : D;
  c_did_seek : bool;
  c_at_end : bool;
}.
Arguments mkCursor {S T D}.
Arguments c_tree {S T D}.
Arguments c_stack {S T D}.
Arguments c_position {S T D}.
Arguments c_did_seek {S T D}.
Arguments c_at_end {S T D}.

(** The capacity of the stack. *)
Definition STACK_CAP : nat := 16.

(** [self.stack.push(entry).unwrap_oob()]. *)
Definition push_entry {A} (e : A) (stack : list A) : outcome (list A) :=
  if decide (length stack < STACK_CAP) then Ok (e :: stack) else Panic.

(** Fuel for a loop over a tree: one step to enter a node, one to come back from each child,
    and one per item. *)
Fixpoint node_fuel {S T} (n : Node S T) : nat :=
  match n with
  | Internal _ _ _ cts => 2 + sum_list (map (λ c, 1 + node_fuel c) cts)
  | Leaf _ items _ => 2 + length items
  end.

(** ** The aggregate a seek feeds *)

(** [trait SeekAggregate]. *)
Class SeekAggregate (S T A : Type) := {
  begin_leaf : A → A;
  end_leaf : A → outcome A;
  push_item : A → T → S → outcome A;
  push_tree : A → Node S T → S → outcome A;
}.

(** [impl SeekAggregate for ()]. *)
#[export] Instance unit_aggregate {S T} : SeekAggregate S T () := {|
  begin_leaf := λ a, a;
  end_leaf := λ a, Ok a;
  push_item := λ a _ _, Ok a;
  push_tree := λ a _ _, Ok a;
|}.

(** [struct SliceSeekAggregate]. *)
Record SliceSeekAggregate (S T : Type) : Type := mkSlice {
  sl_tree : Node S T;
  sl_leaf_items : list T;
  sl_leaf_item_summaries : list S;
  sl_leaf_summary : S;
}.
Arguments mkSlice {S T}.
Arguments sl_tree {S T}.
Arguments sl_leaf_items {S T}.
Arguments sl_leaf_item_summaries {S T}.
Arguments sl_leaf_summary {S T}.

Definition slice_aggregate {C S T} `{!Summary C S} (cx : C) :
    SeekAggregate S T (SliceSeekAggregate S T) := {|
  begin_leaf := λ a, a;
  end_leaf := λ a,
    tree ← append cx (sl_tree a)
      (Leaf (sl_leaf_summary a) (sl_leaf_items a) (sl_leaf_item_summaries a));
    Ok (mkSlice tree [] [] (zero cx));
  push_item := λ a item s,
    items ← arr_push CAP (sl_leaf_items a) item;
    item_summaries ← arr_push CAP (sl_leaf_item_summaries a) s;
    Ok (mkSlice (sl_tree a) items item_summaries (add_summary cx (sl_leaf_summary a) s));
  push_tree := λ a tree _,
    tree ← append cx (sl_tree a) tree;
    Ok (mkSlice tree (sl_leaf_items a) (sl_leaf_item_summaries a) (sl_leaf_summary a));
|}.

(** [struct SummarySeekAggregate<D>(D)]. *)
Definition summary_aggregate {C S T D} `{!Dimension C S D} (cx : C) : SeekAggregate S T D := {|
  begin_leaf := λ a, a;
  end_leaf := λ a, Ok a;
  push_item := λ a _ s, Ok (dim_add cx a s);
  push_tree := λ a _ s, Ok (dim_add cx a s);
|}.

(** [struct End]: greater than every position. *)
Inductive End := mkEnd.
#[export] Instance end_seek_target {C D} : SeekTarget C D End := λ _ _ _, Gt.

Section cursor.
Context {C S T D : Type}.
Context `{!Summary C S, !Item C S T, !Dimension C S D} (cx : C).
Implicit Types c : Cursor S T D.
Implicit Types n : Node S T.

Local Notation dzero := (dim_zero (S:=S) cx : D).

Definition cursor_new (tree : Node S T) : Cursor S T D :=
  mkCursor tree [] dzero false (is_empty tree).

Definition reset c : Cursor S T D :=
  mkCursor (c_tree c) [] dzero false (is_empty (c_tree c)).

Definition start c : D := c_position c.

Definition assert_did_seek c : outcome () := assert_that (c_did_seek c).

Definition item c : outcome (option T) :=
  assert_did_seek c;;
  match c_stack c with
  | entry :: _ =>
      match se_tree entry with
      | Leaf _ items _ =>
          if decide (se_index entry = length items) then Ok None
          else Some <$> index items (se_index entry)
      | Internal _ _ _ _ => Panic
      end
  | [] => Ok None
  end.

Definition cursor_item_summary c : outcome (option S) :=
  assert_did_seek c;;
  match c_stack c with
  | entry :: _ =>
      match se_tree entry with
      | Leaf _ _ item_summaries =>
          if decide (se_index entry = length item_summaries) then Ok None
          else Some <$> index item_summaries (se_index entry)
      | Internal _ _ _ _ => Panic
      end
  | [] => Ok None
  end.

(** [fn end]. *)
Definition cursor_end c : outcome D :=
  s ← cursor_item_summary c;
  Ok (match s with Some s => dim_add cx (start c) s | None => start c end).

(** The loop of [next_leaf], over the stack below its top. *)
Fixpoint next_leaf (stack : list (StackEntry S T D)) : outcome (option (Node S T)) :=
  match stack with
  | [] => Ok None
  | entry :: stack =>
      cts ← child_trees (se_tree entry);
      bound ← checked_sub (length cts) 1;
      if decide (se_index entry < bound) then
        next ← index cts (se_index entry + 1);
        Some <$> leftmost_leaf next
      else next_leaf stack
  end.

Definition next_item c : outcome (option T) :=
  assert_did_seek c;;
  match c_stack c with
  | entry :: below =>
      items ← node_items (se_tree entry);
      bound ← checked_sub (length items) 1;
      if decide (se_index entry = bound) then
        leaf ← next_leaf below;
        match leaf with
        | Some next_leaf =>
            items ← node_items next_leaf; Some <$> unwrap (head items)
        | None => Ok None
        end
      else Some <$> index items (se_index entry + 1)
  | [] => if c_at_end c then Ok None else first (c_tree c)
  end.

Fixpoint prev_leaf (stack : list (StackEntry S T D)) : outcome (option (Node S T)) :=
  match stack with
  | [] => Ok None
  | entry :: stack =>
      if decide (se_index entry ≠ 0) then
        cts ← child_trees (se_tree entry);
        prev ← index cts (se_index entry - 1);
        Some <$> rightmost_leaf prev
      else prev_leaf stack
  end.

Definition prev_item c : outcome (option T) :=
  assert_did_seek c;;
  match c_stack c with
  | entry :: below =>
      if decide (se_index entry = 0) then
        leaf ← prev_leaf below;
        match leaf with
        | Some prev_leaf =>
            items ← node_items prev_leaf; Some <$> unwrap (last items)
        | None => Ok None
        end
      else
        items ← node_items (se_tree entry);
        Some <$> index items (se_index entry - 1)
  | [] => if c_at_end c then tree_last (c_tree c) else Ok None
  end.

(** The [while] loop of [search_backward]. *)
Fixpoint search_backward_loop (fuel : nat) (filter_node : S → bool) c (descending : bool) :
    outcome (Cursor S T D) :=
  match fuel with
  | O => OutOfFuel
  | Datatypes.S fuel =>
      match c_stack c with
      | [] => Ok c
      | entry :: below =>
          let position := match below with e :: _ => se_position e | [] => dzero end in
          let go stack position :=
            search_backward_loop fuel filter_node
              (mkCursor (c_tree c) stack position (c_did_seek c) (c_at_end c)) in
          if negb descending && bool_decide (se_index entry = 0) then go below position false
          else
            let i := if descending then se_index entry else se_index entry - 1 in
            before ← slice_to (child_summaries (se_tree entry)) i;
            let position := foldl (dim_add cx) position before in
            let entry := mkEntry (se_tree entry) i position in
            s ← index (child_summaries (se_tree entry)) i;
            let descending := filter_node s in
            match se_tree entry with
            | Internal _ _ _ cts =>
                if descending then
                  tree ← index cts i;
                  last ← checked_sub (length (child_summaries tree)) 1;
                  stack ← push_entry (mkEntry tree last dzero) (entry :: below);
                  go stack position descending
                else go (entry :: below) position descending
            | Leaf _ _ _ =>
                if descending
                then Ok (mkCursor (c_tree c) (entry :: below) position (c_did_seek c) (c_at_end c))
                else go (entry :: below) position descending
            end
      end
  end.

Definition search_backward (filter_node : S → bool) c : outcome (Cursor S T D) :=
  let at_end := if c_did_seek c then c_at_end c else true in
  if at_end then
    let position := dzero in
    stack ←
      (if is_empty (c_tree c) then Ok (c_stack c)
       else push_entry
         (mkEntry (c_tree c) (length (child_summaries (c_tree c)))
            (dim_add cx dzero (summary (c_tree c)))) (c_stack c));
    search_backward_loop (1 + node_fuel (c_tree c)) filter_node
      (mkCursor (c_tree c) stack position true (is_empty (c_tree c))) false
  else
    search_backward_loop (1 + node_fuel (c_tree c)) filter_node
      (mkCursor (c_tree c) (c_stack c) (c_position c) true (c_at_end c)) false.

Definition prev c : outcome (Cursor S T D) := search_backward (λ _, true) c.

(** The inner loops of [search_forward]: skip the summaries that the filter rejects, moving
    the entry's index and position and the cursor's position. *)
Fixpoint skip_filtered (filter_node : S → bool) (css : list S) (i : nat) (entry_pos pos : D) :
    nat * D * D :=
  match css with
  | [] => (i, entry_pos, pos)
  | s :: css =>
      if filter_node s then (i, entry_pos, pos)
      else skip_filtered filter_node css (i + 1) (dim_add cx entry_pos s) (dim_add cx pos s)
  end.

(** The [while] loop of [search_forward], with the assignment of [at_end] after it; the
    [return] in the leaf case leaves [at_end] as it was. *)
Fixpoint search_forward_loop (fuel : nat) (filter_node : S → bool) c (descend : bool) :
    outcome (Cursor S T D) :=
  match fuel with
  | O => OutOfFuel
  | Datatypes.S fuel =>
      let with_stack stack position at_end :=
        mkCursor (c_tree c) stack position (c_did_seek c) at_end in
      match c_stack c with
      | [] => Ok (with_stack [] (c_position c) true)
      | entry :: below =>
          match se_tree entry with
          | Internal _ _ css cts =>
              let '(i, entry_pos) :=
                if descend then (se_index entry, se_position entry)
                else (se_index entry + 1, c_position c) in
              let '(i, entry_pos, pos) :=
                skip_filtered filter_node (drop i css) i entry_pos (c_position c) in
              match cts !! i with
              | Some subtree =>
                  stack ← push_entry (mkEntry subtree 0 pos)
                    (mkEntry (se_tree entry) i entry_pos :: below);
                  search_forward_loop fuel filter_node (with_stack stack pos (c_at_end c)) true
              | None =>
                  search_forward_loop fuel filter_node (with_stack below pos (c_at_end c)) false
              end
          | Leaf _ _ item_summaries =>
              '(i, entry_pos, pos) ←
                (if descend then Ok (se_index entry, se_position entry, c_position c)
                 else
                   s ← index item_summaries (se_index entry);
                   Ok (se_index entry + 1, dim_add cx (se_position entry) s,
                       dim_add cx (c_position c) s));
              let '(i, entry_pos, pos) :=
                skip_filtered filter_node (drop i item_summaries) i entry_pos pos in
              if decide (i < length item_summaries) then
                Ok (with_stack (mkEntry (se_tree entry) i entry_pos :: below) pos (c_at_end c))
              else
                search_forward_loop fuel filter_node (with_stack below pos (c_at_end c)) false
          end
      end
  end.

Definition search_forward (filter_node : S → bool) c : outcome (Cursor S T D) :=
  match c_stack c with
  | [] =>
      if c_at_end c then
        search_forward_loop (1 + node_fuel (c_tree c)) filter_node
          (mkCursor (c_tree c) [] (c_position c) true (c_at_end c)) false
      else
        stack ← push_entry (mkEntry (c_tree c) 0 dzero) [];
        search_forward_loop (1 + node_fuel (c_tree c)) filter_node
          (mkCursor (c_tree c) stack (c_position c) true (c_at_end c)) true
  | _ => search_forward_loop (1 + node_fuel (c_tree c)) filter_node c false
  end.

Definition next c : outcome (Cursor S T D) := search_forward (λ _, true) c.

End cursor.

(** ** Seeking *)

Section seek.
Context {C S T D Tg A : Type}.
Context `{!Summary C S, !Item C S T, !Dimension C S D, !SeekTarget C D Tg}.
Context `{!SeekAggregate S T A} (cx : C).
Implicit Types c : Cursor S T D.

Local Notation dzero := (dim_zero (S:=S) cx : D).

(** The test of [seek_internal]: the child ends before the target. *)
Definition seek_past (bias : Bias) (comparison : comparison) : bool :=
  match comparison with Gt => true | Eq => bool_decide (bias = Right) | Lt => false end.

(** The loop of [seek_internal] over the children of an internal node: the children passed
    over, and the child to descend into, if any. *)
Fixpoint seek_children (target : Tg) (bias : Bias) (children : list (Node S T * S)) (i : nat)
    (entry_pos pos : D) (aggregate : A) :
    outcome (nat * D * D * A * option (Node S T)) :=
  match children with
  | [] => Ok (i, entry_pos, pos, aggregate, None)
  | (child_tree, child_summary) :: children =>
      let child_end := dim_add cx pos child_summary in
      if seek_past bias (seek_cmp cx target child_end) then
        aggregate ← push_tree aggregate child_tree child_summary;
        seek_children target bias children (i + 1) child_end child_end aggregate
      else Ok (i, entry_pos, pos, aggregate, Some child_tree)
  end.

(** The loop over the items of a leaf: the items passed over, and whether the target is at an
    item of this leaf. *)
Fixpoint seek_items (target : Tg) (bias : Bias) (items : list (T * S)) (i : nat) (pos : D)
    (aggregate : A) : outcome (nat * D * A * bool) :=
  match items with
  | [] => Ok (i, pos, aggregate, false)
  | (item, s) :: items =>
      let child_end := dim_add cx pos s in
      if seek_past bias (seek_cmp cx target child_end) then
        aggregate ← push_item aggregate item s;
        seek_items target bias items (i + 1) child_end aggregate
      else Ok (i, pos, aggregate, true)
  end.

Fixpoint seek_loop (fuel : nat) (target : Tg) (bias : Bias) (stack : list (StackEntry S T D))
    (pos : D) (aggregate : A) (ascending : bool) :
    outcome (list (StackEntry S T D) * D * A) :=
  match fuel with
  | O => OutOfFuel
  | Datatypes.S fuel =>
      match stack with
      | [] => Ok ([], pos, aggregate)
      | entry :: below =>
          match se_tree entry with
          | Internal _ _ css cts =>
              let '(i, entry_pos) :=
                if ascending then (se_index entry + 1, pos)
                else (se_index entry, se_position entry) in
              cts ← slice_from cts i;
              css ← slice_from css i;
              '(i, entry_pos, pos, aggregate, child) ←
                seek_children target bias (zip cts css) i entry_pos pos aggregate;
              match child with
              | Some child_tree =>
                  stack ← push_entry (mkEntry child_tree 0 pos)
                    (mkEntry (se_tree entry) i entry_pos :: below);
                  seek_loop fuel target bias stack pos aggregate false
              | None => seek_loop fuel target bias below pos aggregate true
              end
          | Leaf _ items item_summaries =>
              let aggregate := begin_leaf aggregate in
              items ← slice_from items (se_index entry);
              item_summaries ← slice_from item_summaries (se_index entry);
              '(i, pos, aggregate, stop) ←
                seek_items target bias (zip items item_summaries) (se_index entry) pos aggregate;
              aggregate ← end_leaf aggregate;
              if (stop : bool)
              then Ok (mkEntry (se_tree entry) i (se_position entry) :: below, pos, aggregate)
              else seek_loop fuel target bias below pos aggregate true
          end
      end
  end.

(** [Ordering::is_ge]. *)
Definition is_ge (c : comparison) : bool := match c with Lt => false | _ => true end.

Definition seek_internal (target : Tg) (bias : Bias) (aggregate : A) c :
    outcome (Cursor S T D * A * bool) :=
  assert_that (is_ge (seek_cmp cx target (c_position c)));;
  stack ←
    (if c_did_seek c then Ok (c_stack c)
     else push_entry (mkEntry (c_tree c) 0 dzero) (c_stack c));
  '(stack, pos, aggregate) ←
    seek_loop (1 + node_fuel (c_tree c)) target bias stack (c_position c) aggregate false;
  let c := mkCursor (c_tree c) stack pos true (bool_decide (stack = [])) in
  e ← (if decide (bias = Left) then
         s ← cursor_item_summary c;
         Ok (match s with Some s => dim_add cx pos s | None => pos end)
       else Ok pos);
  Ok (c, aggregate, match seek_cmp cx target e with Eq => true | _ => false end).

End seek.

(** ** The public operations *)

Section operations.
Context {C S T D Tg : Type}.
Context `{!Summary C S, !Item C S T, !Dimension C S D, !SeekTarget C D Tg} (cx : C).
Implicit Types c : Cursor S T D.

Definition seek (pos : Tg) (bias : Bias) c : outcome (Cursor S T D * bool) :=
  '(c, _, b) ← seek_internal cx (SeekAggregate0:=unit_aggregate) pos bias () (reset cx c);
  Ok (c, b).

Definition seek_forward (pos : Tg) (bias : Bias) c : outcome (Cursor S T D * bool) :=
  '(c, _, b) ← seek_internal cx (SeekAggregate0:=unit_aggregate) pos bias () c;
  Ok (c, b).

Definition slice (target : Tg) (bias : Bias) c : outcome (Cursor S T D * Node S T) :=
  '(c, a, _) ← seek_internal cx (SeekAggregate0:=slice_aggregate cx) target bias
    (mkSlice (new cx) [] [] (zero cx)) c;
  Ok (c, sl_tree a).

(** [fn summary], with the dimension [Output] as its parameter. *)
Definition cursor_summary {Output : Type} `{!Dimension C S Output} (target : Tg) (bias : Bias) c :
    outcome (Cursor S T D * Output) :=
  '(c, a, _) ← seek_internal cx (SeekAggregate0:=summary_aggregate cx) target bias
    (dim_zero (S:=S) cx) c;
  Ok (c, a).

End operations.

Section iteration.
Context {C S T D : Type}.
Context `{!Summary C S, !Item C S T, !Dimension C S D} (cx : C).
Implicit Types c : Cursor S T D.

Definition suffix c : outcome (Cursor S T D * Node S T) := slice cx mkEnd Right c.

(** [impl Iterator for Cursor]. *)
Definition iterate c : outcome (Cursor S T D * option T) :=
  c ← (if c_did_seek c then Ok c else next cx c);
  x ← item c;
  match x with
  | Some x => c ← next cx c; Ok (c, Some x)
  | None => Ok (c, None)
  end.

(** Draining that iterator ([collect]). *)
Fixpoint iterate_all (fuel : nat) c (acc : list T) : outcome (Cursor S T D * list T) :=
  match fuel with
  | O => OutOfFuel
  | Datatypes.S fuel =>
      '(c, x) ← iterate c;
      match x with
      | Some x => iterate_all fuel c (acc ++ [x])
      | None => Ok (c, acc)
      end
  end.

(** [struct FilterCursor]: a cursor and the filter its movements use. *)
Record FilterCursor : Type := mkFilterCursor {
  fc_cursor : Cursor S T D;
  fc_filter_node : S → bool;
}.
Definition filter_new (tree : Node S T) (filter_node : S → bool) : FilterCursor :=
  mkFilterCursor (cursor_new cx tree) filter_node.
Definition filter_item (f : FilterCursor) : outcome (option T) := item (fc_cursor f).
Definition filter_next (f : FilterCursor) : outcome FilterCursor :=
  c ← search_forward cx (fc_filter_node f) (fc_cursor f);
  Ok (mkFilterCursor c (fc_filter_node f)).
Definition filter_prev (f : FilterCursor) : outcome FilterCursor :=
  c ← search_backward cx (fc_filter_node f) (fc_cursor f);
  Ok (mkFilterCursor c (fc_filter_node f)).

(** [impl Iterator for FilterCursor]. *)
Definition filter_iterate (f : FilterCursor) : outcome (FilterCursor * option T) :=
  f ← (if c_did_seek (fc_cursor f) then Ok f else filter_next f);
  x ← filter_item f;
  match x with
  | Some x => f ← filter_next f; Ok (f, Some x)
  | None => Ok (f, None)
  end.

Fixpoint filter_iterate_all (fuel : nat) (f : FilterCursor) (acc : list T) :
    outcome (FilterCursor * list T) :=
  match fuel with
  | O => OutOfFuel
  | Datatypes.S fuel =>
      '(f, x) ← filter_iterate f;
      match x with
      | Some x => filter_iterate_all fuel f (acc ++ [x])
      | None => Ok (f, acc)
      end
  end.

End iteration.

Section items.
Context {C S T : Type}.
Context `{!Summary C S, !Item C S T} (cx : C).

(** The loop of [SumTree::items]. *)
Fixpoint items_loop (fuel : nat) (c : Cursor S T ()) (items : list T) : outcome (list T) :=
  match fuel with
  | O => OutOfFuel
  | Datatypes.S fuel =>
      x ← item c;
      match x with
      | Some x => c ← next cx c; items_loop fuel c (items ++ [x])
      | None => Ok items
      end
  end.

Definition items (tree : Node S T) : outcome (list T) :=
  c ← next cx (cursor_new cx tree);
  items_loop (1 + node_fuel tree) c [].

(** [struct Iter]: the tree and the stack, whose entries' position is the unit dimension. *)
Record Iter : Type := mkIter {
  it_tree : Node S T;
  it_stack : list (StackEntry S T ());
}.
Definition iter (tree : Node S T) : Iter := mkIter tree [].

(** The [while] loop of [Iter::next]. *)
Fixpoint iter_loop (fuel : nat) (stack : list (StackEntry S T ())) (descend : bool) :
    outcome (list (StackEntry S T ()) * option T) :=
  match fuel with
  | O => OutOfFuel
  | Datatypes.S fuel =>
      match stack with
      | [] => Ok ([], None)
      | entry :: below =>
          let i := if descend then se_index entry else se_index entry + 1 in
          let entry := mkEntry (se_tree entry) i () in
          match se_tree entry with
          | Internal _ _ _ child_trees =>
              match child_trees !! i with
              | Some subtree =>
                  stack ← push_entry (mkEntry subtree 0 ()) (entry :: below);
                  iter_loop fuel stack true
              | None => iter_loop fuel below false
              end
          | Leaf _ items _ =>
              match items !! i with
              | Some next_item => Ok (entry :: below, Some next_item)
              | None => iter_loop fuel below false
              end
          end
      end
  end.

Definition iter_next (it : Iter) : outcome (Iter * option T) :=
  '(stack, descend) ←
    match it_stack it with
    | [] => stack ← push_entry (mkEntry (it_tree it) 0 ()) []; Ok (stack, true)
    | stack => Ok (stack, false)
    end;
  '(stack, x) ← iter_loop (1 + node_fuel (it_tree it)) stack descend;
  Ok (mkIter (it_tree it) stack, x).

(** [Iter::last]. *)
Definition iter_last (it : Iter) : outcome (option T) :=
  leaf ← rightmost_leaf (it_tree it); tree_last leaf.

(** Draining the iterator; it must not be called again after its end (it would restart). *)
Fixpoint iter_all (fuel : nat) (it : Iter) (acc : list T) : outcome (list T) :=
  match fuel with
  | O => OutOfFuel
  | Datatypes.S fuel =>
      '(it, x) ← iter_next it;
      match x with
      | Some x => iter_all fuel it (acc ++ [x])
      | None => Ok acc
      end
  end.

End items.
