(* ===== verification/CursorFacts.v ===== *)
(** The cursor's invariant (its stack is a path from the root to the item it is at), and what
    seeking, moving forward and moving backward do to the position, over every well-formed
    tree whose height fits the stack. *)
From S2P Require Import Prelude SumTree SumTreeFacts Seek Cursor.

Section defs.
Context {C S T D : Type}.
Context `{!Summary C S, !Item C S T, !Dimension C S D} (cx : C).

(** [path n es d pre post]: the entries [es], topmost first, lead from node [n], which starts
    at position [d], to a leaf; the items of [n] before and from the entry's index on are
    [pre] and [post].  The position kept in an internal entry is that of the child at its
    index; the one kept in a leaf entry is not used. *)
Inductive path : Node S T → list (StackEntry S T D) → D → list T → list T → Prop :=
| path_leaf s items css i pos d :
    i < length items →
    path (Leaf s items css) [mkEntry (Leaf s items css) i pos] d (take i items) (drop i items)
| path_internal h s css l c r es d pre post :
    path c es (pos_from cx d (items_of l)) pre post →
    path (Internal h s css (l ++ c :: r))
      (es ++ [mkEntry (Internal h s css (l ++ c :: r)) (length l) (pos_from cx d (items_of l))])
      d (items_of l ++ pre) (post ++ items_of r).

(** A tree the cursor can walk: well formed, and not too high for the stack. *)
Definition walkable (n : Node S T) : Prop := wf_tree cx n ∧ height n < STACK_CAP.

(** A cursor that was created or reset. *)
Definition unseeked (c : Cursor S T D) : Prop :=
  c_did_seek c = false ∧ c_stack c = [] ∧ c_position c = dim_zero (S:=S) cx ∧
  c_at_end c = is_empty (c_tree c).

(** A cursor at the first item of [post]. *)
Definition at_item (c : Cursor S T D) (pre post : list T) : Prop :=
  c_did_seek c = true ∧ c_at_end c = false ∧ c_position c = pos_of cx pre ∧
  path (c_tree c) (c_stack c) (dim_zero (S:=S) cx) pre post.

(** A cursor past the last item. *)
Definition past_items (c : Cursor S T D) : Prop :=
  c_did_seek c = true ∧ c_at_end c = true ∧ c_stack c = [] ∧
  c_position c = pos_of cx (tree_items (c_tree c)).

(** A cursor before the first item, after moving backward from it. *)
Definition before_items (c : Cursor S T D) : Prop :=
  c_did_seek c = true ∧ c_at_end c = is_empty (c_tree c) ∧ c_stack c = [] ∧
  c_position c = dim_zero (S:=S) cx.

(** The positions a seek or a forward movement leads to: [pre] before the cursor, [post]
    after it. *)
Definition seeked (c : Cursor S T D) (pre post : list T) : Prop :=
  at_item c pre post ∨ (past_items c ∧ pre = tree_items (c_tree c) ∧ post = []).

(** The positions a seek can start from. *)
Definition seekable (c : Cursor S T D) (pre post : list T) : Prop :=
  seeked c pre post ∨ (unseeked c ∧ pre = [] ∧ post = tree_items (c_tree c)).

(** What an aggregate promises: [agg_out a l] says that [a] has collected the items [l] and is
    between leaves, [agg_in a l k] that it is in a leaf of which it has taken [k] items. *)
Class SeekAggregateSpec {A} `{!SeekAggregate S T A} (agg_out : A → list T → Prop)
    (agg_in : A → list T → nat → Prop) : Prop := {
  spec_begin a l : agg_out a l → agg_in (begin_leaf a) l 0;
  spec_item a l k x :
    agg_in a l k → k < CAP →
    ∃ a', push_item a x (item_summary cx x) = Ok a' ∧ agg_in a' (l ++ [x]) (Datatypes.S k);
  spec_end a l k : agg_in a l k → ∃ a', end_leaf a = Ok a' ∧ agg_out a' l;
  spec_tree a l h n :
    agg_out a l → wf_node cx h n →
    ∃ a', push_tree a n (summary n) = Ok a' ∧ agg_out a' (l ++ tree_items n);
}.

End defs.

Section path_facts.
Context {C S T D : Type}.
Context `{!Summary C S, !Item C S T, !Dimension C S D} (cx : C) `{!SummaryLaws cx}.
Implicit Types n : Node S T.

Local Notation path := (path cx (D:=D)).

Lemma items_of_cons (t : Node S T) ts : items_of (t :: ts) = tree_items t ++ items_of ts.
Proof. done. Qed.

Lemma path_items n es d pre post :
  path n es d pre post → tree_items n = pre ++ post ∧ post ≠ [].
Proof.
  induction 1 as [s items css i pos d Hi|h s css l c r es d pre post _ [IH1 IH2]]; simpl.
  - rewrite take_drop. split; [done|]. intros Hd.
    apply (f_equal length) in Hd. rewrite length_drop in Hd. simpl in Hd. lia.
  - split; [|by intros [??]%app_nil].
    change (items_of (l ++ c :: r) = (items_of l ++ pre) ++ post ++ items_of r).
    by rewrite items_of_app, items_of_cons, IH1, <-!app_assoc.
Qed.

Lemma path_stack_nonempty n es d pre post : path n es d pre post → es ≠ [].
Proof. induction 1; [done|]. by intros [??]%app_nil. Qed.

Lemma path_top n es d pre post :
  path n es d pre post →
  ∃ s items css i pos es', es = mkEntry (Leaf s items css) i pos :: es' ∧ i < length items ∧
    head post = items !! i.
Proof.
  induction 1 as [s items css i pos d Hi|h s css l c r es d pre post _ IH].
  - eexists _, _, _, _, _, _. split_and!; [done..|]. by rewrite head_lookup, lookup_drop, Nat.add_0_r.
  - destruct IH as (s' & items & css' & i & pos & es' & -> & Hi & Hh).
    eexists _, _, _, _, _, _. split_and!; [done..|]. rewrite <-Hh.
    destruct post; [|done]. simpl in Hh. symmetry in Hh. apply lookup_ge_None in Hh. lia.
Qed.

(** The leaf entry on top of a path into a well-formed node. *)
Lemma path_top_wf h n es d pre post :
  path n es d pre post → wf_node cx h n →
  ∃ items i pos es', es = mkEntry (Leaf (summary_of cx items) items (map (item_summary cx) items)) i pos :: es' ∧
    i < length items ∧ head post = items !! i.
Proof.
  intros Hp. revert h.
  induction Hp as [s items css i pos d Hi|hh s css l c r es d pre post Hp IH]; intros h Hn.
  - inversion Hn; subst. eexists _, _, _, _. split_and!; [done..|].
    by rewrite head_lookup, lookup_drop, Nat.add_0_r.
  - inversion Hn as [|h' ? Hl Hwf]; subst. apply Forall_app in Hwf as [_ Hwf].
    inversion Hwf as [|?? Hc _]; subst.
    destruct (IH _ Hc) as (items & i & pos & es' & -> & Hi & Hh).
    eexists _, _, _, _. split_and!; [done..|]. rewrite <-Hh.
    destruct (path_items _ _ _ _ _ Hp) as [_ ?]. by destruct post.
Qed.

Lemma wf_tree_inv (n : Node S T) :
  wf_tree cx n → n = new cx ∨ (is_empty n = false ∧ wf_node cx (height n) n).
Proof.
  intros [->|[h Hn]]; [by left|]. right. split.
  - rewrite (is_empty_spec cx) by by apply (wf_tree_node cx h).
    apply bool_decide_eq_false_2. by eapply wf_items_nonempty.
  - inversion Hn; subst; done.
Qed.

Lemma path_not_new es d pre post : ¬ path (new cx) es d pre post.
Proof. intros [H1 H2]%path_items. simpl in H1. by symmetry in H1; apply app_nil in H1 as [_ ?]. Qed.

Lemma path_wf_tree n es d pre post :
  path n es d pre post → wf_tree cx n → is_empty n = false ∧ wf_node cx (height n) n.
Proof. intros Hp [->|?]%wf_tree_inv; [|done]. by apply path_not_new in Hp. Qed.

(** ** What the accessors return *)

Lemma at_item_top (c : Cursor S T D) pre post :
  at_item cx c pre post → wf_tree cx (c_tree c) →
  ∃ x post' items i pos es', post = x :: post' ∧ items !! i = Some x ∧ i < length items ∧
    c_stack c = mkEntry (Leaf (summary_of cx items) items (map (item_summary cx) items)) i pos :: es'.
Proof.
  intros (? & ? & ? & Hp) Hw. destruct (path_wf_tree _ _ _ _ _ Hp Hw) as [_ Hn].
  destruct (path_top_wf _ _ _ _ _ _ Hp Hn) as (items & i & pos & es' & He & Hi & Hh).
  apply path_items in Hp as [_ Hpost]. destruct post as [|x post]; [done|].
  by eexists x, post, items, i, pos, es'.
Qed.

Lemma item_seeked (c : Cursor S T D) pre post :
  seeked cx c pre post → wf_tree cx (c_tree c) → item c = Ok (head post).
Proof.
  intros [Hat|[(Hd & _ & Hs & _) [_ ->]]] Hw; unfold item, assert_did_seek.
  - destruct (at_item_top _ _ _ Hat Hw) as (x & post' & items & i & pos & es' & -> & Hx & Hi & ->).
    destruct Hat as (-> & _). simpl. rewrite decide_False by lia.
    unfold index. by rewrite Hx.
  - by rewrite Hd, Hs.
Qed.

Lemma item_summary_seeked (c : Cursor S T D) pre post :
  seeked cx c pre post → wf_tree cx (c_tree c) →
  cursor_item_summary c = Ok (item_summary cx <$> head post).
Proof.
  intros [Hat|[(Hd & _ & Hs & _) [_ ->]]] Hw; unfold cursor_item_summary, assert_did_seek.
  - destruct (at_item_top _ _ _ Hat Hw) as (x & post' & items & i & pos & es' & -> & Hx & Hi & ->).
    destruct Hat as (-> & _). simpl. rewrite length_map, decide_False by lia.
    unfold index. rewrite list_lookup_fmap, Hx. done.
  - by rewrite Hd, Hs.
Qed.

Lemma end_seeked (c : Cursor S T D) pre post :
  seeked cx c pre post → wf_tree cx (c_tree c) →
  cursor_end cx c = Ok (match post with
                        | x :: _ => dim_add cx (c_position c) (item_summary cx x)
                        | [] => c_position c end).
Proof.
  intros Hc Hw. unfold cursor_end. rewrite (item_summary_seeked _ _ _ Hc Hw). simpl.
  by destruct post.
Qed.

Lemma seeked_items (c : Cursor S T D) pre post :
  seeked cx c pre post → tree_items (c_tree c) = pre ++ post.
Proof.
  intros [(_ & _ & _ & Hp)|(_ & -> & ->)]; [by apply path_items in Hp as [? _]|].
  by rewrite app_nil_r.
Qed.

Lemma seeked_position (c : Cursor S T D) pre post :
  seeked cx c pre post → c_position c = pos_of cx pre.
Proof. by intros [(_ & _ & ? & _)|((_ & _ & _ & ?) & -> & _)]. Qed.

Lemma sum_list_app l1 l2 : sum_list (l1 ++ l2) = sum_list l1 + sum_list l2.
Proof. induction l1; simpl; lia. Qed.

End path_facts.

Section seek_facts.
Context {C S T D Tg A : Type}.
Context `{!Summary C S, !Item C S T, !Dimension C S D, !SeekTarget C D Tg}.
Context `{!SeekAggregate S T A} (cx : C).
Context `{!SummaryLaws cx, !DimensionLaws (S:=S) D cx}.
Context (agg_out : A → list T → Prop) (agg_in : A → list T → nat → Prop).
Context `{!SeekAggregateSpec cx agg_out agg_in}.
Context (target : Tg) (bias : Bias).
Implicit Types n : Node S T.
Implicit Types d : D.
Implicit Types l pre post : list T.
Implicit Types st es : list (StackEntry S T D).

Local Notation path := (path cx (D:=D)).
Local Notation pos_from := (pos_from cx).
Local Notation wf_node := (wf_node cx).
Local Notation scan := (scan cx target bias).
Local Notation seek_sorted := (seek_sorted cx target).
Local Notation seek_loop := (seek_loop cx).

Lemma seek_past_reached d : seek_past bias (seek_cmp cx target d) = negb (reached cx target bias d).
Proof.
  unfold seek_past, reached, target_in_child. by destruct (seek_cmp cx target d), bias.
Qed.

(** The outcome of running the loop with [post] of node [n] still ahead: it stops on a path
    into [n], or leaves [n] with all its items passed. *)
Definition seek_result n d pre post st l fuel cost
    (lhs : outcome (list (StackEntry S T D) * D * A)) : Prop :=
  let sc := scan (pos_from d pre) post in
  ∃ a', agg_out a' (l ++ sc.1) ∧
  match sc.2 with
  | [] => ∃ fuel', fuel ≤ fuel' + cost ∧
      lhs = seek_loop fuel' target bias st (pos_from d (pre ++ post)) a' true
  | _ => ∃ es, lhs = Ok (es ++ st, pos_from d (pre ++ sc.1), a') ∧ path n es d (pre ++ sc.1) sc.2
  end.

Lemma seek_items_ok (items : list T) i d a l k :
  agg_in a l k → k + length items ≤ CAP →
  let sc := scan d items in
  ∃ a', seek_items cx target bias (zip items (map (item_summary cx) items)) i d a
        = Ok (i + length sc.1, pos_from d sc.1, a', negb (bool_decide (sc.2 = []))) ∧
    agg_in a' (l ++ sc.1) (k + length sc.1).
Proof.
  revert i d a l k. induction items as [|x items IH]; intros i d a l k Ha Hk; simpl.
  { exists a. rewrite !Nat.add_0_r, app_nil_r. done. }
  rewrite seek_past_reached. destruct (reached _ _ _ _); simpl.
  { exists a. rewrite !Nat.add_0_r, app_nil_r. done. }
  destruct (spec_item cx a l k x Ha) as (a1 & -> & Ha1); [simpl in Hk; lia|]. simpl.
  destruct (IH (i + 1) (dim_add cx d (item_summary cx x)) a1 (l ++ [x]) (Datatypes.S k) Ha1)
    as (a2 & Hrun & Ha2); [simpl in Hk; lia|].
  exists a2. destruct (scan _ items) as [u v]; simpl in *. rewrite Hrun. split.
  - by rewrite <-Nat.add_assoc.
  - rewrite <-app_assoc in Ha2. by rewrite <-Nat.add_succ_comm.
Qed.

(** The loop on a leaf, from index [i]. *)
Lemma seek_leaf_ok (items : list T) s i pos d st a l fuel :
  let n := Leaf s items (map (item_summary cx) items) in
  length items ≤ CAP → i ≤ length items → agg_out a l →
  seek_result n d (take i items) (drop i items) st l (Datatypes.S fuel) 1
    (seek_loop (Datatypes.S fuel) target bias (mkEntry n i pos :: st)
       (pos_from d (take i items)) a false).
Proof.
  intros n Hc Hi Ha. subst n. cbn [Cursor.seek_loop se_tree se_index se_position].
  rewrite !slice_from_ok by (rewrite ?length_map; lia). simpl. rewrite skipn_map.
  destruct (seek_items_ok (drop i items) i (pos_from d (take i items)) (begin_leaf a) l 0)
    as (a1 & -> & Ha1); [by eapply (spec_begin cx)|rewrite length_drop; lia|].
  cbn [mbind outcome_bind].
  destruct (spec_end cx a1 _ _ Ha1) as (a2 & -> & Ha2). cbn [mbind outcome_bind].
  unfold seek_result. exists a2. split; [done|].
  pose proof (scan_app cx target bias (pos_from d (take i items)) (drop i items)) as Hsc.
  destruct (scan _ (drop i items)) as [u v]; simpl in *.
  destruct v as [|x v]; simpl.
  - exists fuel. rewrite app_nil_r in Hsc. subst u. rewrite pos_from_app.
    split; [lia|done].
  - eexists [_]. rewrite pos_from_app. split; [done|].
    assert (i + length u < length items) as Hlt.
    { apply (f_equal length) in Hsc. rewrite length_app, length_drop in Hsc. simpl in Hsc. lia. }
    assert (take (i + length u) items = take i items ++ u) as <-.
    { rewrite <-(take_drop i items) at 1. rewrite <-Hsc.
      rewrite take_app_add', take_app_length; [done|]. rewrite length_take. lia. }
    assert (drop (i + length u) items = x :: v) as <-.
    { rewrite <-drop_drop, <-Hsc. by rewrite drop_app_length. }
    by constructor.
Qed.

(** The loop over the children: the children passed over and the one to enter. *)
Lemma seek_children_ok h (r : list (Node S T)) i d a l :
  Forall (wf_node h) r → seek_sorted d (items_of r) → agg_out a l →
  let sc := scan d (items_of r) in
  ∃ r1 r2 a',
    r = r1 ++ r2 ∧ agg_out a' (l ++ items_of r1) ∧
    seek_children cx target bias (zip r (map summary r)) i d d a
    = Ok (i + length r1, pos_from d (items_of r1), pos_from d (items_of r1), a', head r2) ∧
    match r2 with
    | [] => sc = (items_of r, [])
    | c :: r3 => ∃ u x v, scan (pos_from d (items_of r1)) (tree_items c) = (u, x :: v) ∧
        sc = (items_of r1 ++ u, x :: v ++ items_of r3)
    end.
Proof.
  revert i d a l. induction r as [|c r IH]; intros i d a l Hwf Hs Ha; simpl.
  { exists [], [], a. rewrite Nat.add_0_r. unfold items_of; simpl. by rewrite app_nil_r. }
  inversion Hwf as [|?? Hc Hr]; subst.
  rewrite (dim_add_node cx d _ _ Hc), seek_past_reached.
  rewrite items_of_cons in *. pose proof (scan_node cx target bias d h c _ Hc Hs) as Hsc.
  apply seek_sorted_app in Hs as [_ Hs].
  destruct (reached cx target bias (pos_from d (tree_items c))); simpl.
  - destruct Hsc as (u & x & v & H1 & H2). exists [], (c :: r), a.
    unfold items_of at 1 2 3 4; simpl. rewrite Nat.add_0_r, app_nil_r.
    split_and!; [done..|]. exists u, x, v. by rewrite H2.
  - destruct Hsc as [_ H2].
    destruct (spec_tree cx a l h c Ha Hc) as (a1 & -> & Ha1). simpl.
    destruct (IH (i + 1) _ a1 _ Hr Hs Ha1) as (r1 & r2 & a2 & -> & Ha2 & -> & Hm).
    exists (c :: r1), r2, a2. rewrite items_of_cons, pos_from_app.
    rewrite <-app_assoc in Ha2. split_and!; [done..| |].
    + simpl. by rewrite <-Nat.add_assoc.
    + rewrite H2. destruct r2 as [|c2 r3].
      * rewrite Hm. done.
      * destruct Hm as (u & x & v & Hu & ->). exists u, x, v. by rewrite <-app_assoc.
Qed.

Definition children_fuel (r : list (Node S T)) : nat :=
  sum_list (map (λ c, 1 + node_fuel c) r).

Lemma children_fuel_app (r1 r2 : list (Node S T)) :
  children_fuel (r1 ++ r2) = children_fuel r1 + children_fuel r2.
Proof. unfold children_fuel. by rewrite map_app, sum_list_app. Qed.

Lemma node_fuel_internal hh s css (cts : list (Node S T)) :
  node_fuel (Internal hh s css cts) = 2 + children_fuel cts.
Proof. done. Qed.

(** The loop on a node it has just pushed. *)
Definition fresh_ok (h : nat) (n : Node S T) : Prop :=
  ∀ d st l a fuel,
    seek_sorted d (tree_items n) → agg_out a l → length st + h < STACK_CAP →
    node_fuel n ≤ fuel →
    seek_result n d [] (tree_items n) st l fuel (node_fuel n)
      (seek_loop fuel target bias (mkEntry n 0 d :: st) d a false).

(** The loop on an internal node, before its children [r] and after [l0]. *)
Lemma seek_at h hh s css (l0 r : list (Node S T)) d st l a fuel e ascending :
  let n := Internal hh s css (l0 ++ r) in
  let d0 := pos_from d (items_of l0) in
  css = map summary (l0 ++ r) → Forall (wf_node h) (l0 ++ r) → Forall (fresh_ok h) r →
  seek_sorted d0 (items_of r) → agg_out a l → length st + Datatypes.S h < STACK_CAP →
  1 + children_fuel r ≤ fuel → se_tree e = n →
  (if (ascending : bool) then (se_index e + 1, d0) else (se_index e, se_position e))
    = (length l0, d0) →
  seek_result n d (items_of l0) (items_of r) st l fuel (1 + children_fuel r)
    (seek_loop fuel target bias (e :: st) d0 a ascending).
Proof.
  intros n d0 -> Hwf Hfresh Hs Ha Hst Hfuel He Hi.
  destruct fuel as [|fuel]; [lia|]. cbn [Cursor.seek_loop]. rewrite He. subst n. cbn match.
  set (n := Internal _ _ _ _) in *. rewrite Hi. rewrite !slice_from_ok by (rewrite ?length_map, ?length_app; lia).
  cbn [mbind outcome_bind]. rewrite skipn_map, drop_app_length.
  apply Forall_app in Hwf as [Hwf0 Hwf].
  destruct (seek_children_ok h r (length l0) d0 a l) as (r1 & r2 & a1 & -> & Ha1 & -> & Hsc);
    [done..|]. cbn [mbind outcome_bind].
  unfold seek_result. fold d0. rewrite children_fuel_app in *.
  destruct r2 as [|c r3]; simpl.
  - rewrite app_nil_r in *. rewrite Hsc. simpl. exists a1. split; [done|].
    exists fuel. split; [lia|]. rewrite pos_from_app. done.
  - destruct Hsc as (u & x & v & Hsc & ->). simpl.
    apply Forall_app in Hfresh as [_ Hfresh]. inversion Hfresh as [|?? Hc _]; subst.
    rewrite items_of_app, items_of_cons in Hs.
    apply seek_sorted_app in Hs as [_ Hs]. apply seek_sorted_app in Hs as [Hs _].
    unfold push_entry. rewrite decide_True by (simpl; lia). cbn [mbind outcome_bind].
    set (e1 := mkEntry n _ _).
    destruct (Hc (pos_from d0 (items_of r1)) (e1 :: st) (l ++ items_of r1) a1 fuel)
      as (a2 & Ha2 & Hres); [done..|simpl; lia|unfold children_fuel in Hfuel; simpl in Hfuel; lia|].
    simpl in Ha2, Hres. rewrite Hsc in Ha2, Hres. simpl in Ha2, Hres.
    exists a2. rewrite <-app_assoc in Ha2. split; [done|].
    destruct Hres as (es & Hrun & Hpath).
    exists (es ++ [e1]). rewrite Hrun. split.
    + rewrite <-app_assoc. subst d0. by rewrite !pos_from_app.
    + rewrite (app_assoc (items_of l0)), <-items_of_app.
      assert (pos_from d0 (items_of r1) = pos_from d (items_of (l0 ++ r1))) as Hd
        by by rewrite items_of_app, pos_from_app.
      subst e1 n. rewrite <-length_app, Hd in *. rewrite (app_assoc l0 r1 (c :: r3)).
      by apply (path_internal cx hh s _ (l0 ++ r1) c r3 es d u (x :: v)).
Qed.

Lemma seek_fresh h n : wf_node h n → fresh_ok h n.
Proof.
  revert h n. apply (wf_node_ind' cx).
  - intros items Hl d st l a fuel Hs Ha Hst Hfuel. simpl in *.
    destruct fuel as [|fuel]; [lia|].
    destruct (seek_leaf_ok items (summary_of cx items) 0 d d st a l fuel) as (a' & Ha' & Hres);
      [lia..|done|]. rewrite take_0, drop_0 in *.
    exists a'. split; [done|]. case_match; [|done].
    destruct Hres as (fuel' & ? & ?). exists fuel'. split; [lia|done].
  - intros h cts Hl Hwf IH d st l a fuel Hs Ha Hst Hfuel.
    simpl tree_items in *. fold (items_of cts) in *. rewrite node_fuel_internal in *.
    destruct (seek_at h (Datatypes.S h) (sum cx (map summary cts)) (map summary cts) [] cts d st l a
      fuel (mkEntry (Internal (Datatypes.S h) (sum cx (map summary cts)) (map summary cts) cts) 0 d)
      false) as (a' & Ha' & Hres); try done.
    { lia. }
    exists a'. split; [done|]. simpl in Hres |- *. case_match; [|done].
    destruct Hres as (fuel' & ? & ?). exists fuel'. split; [lia|done].
Qed.

(** The loop from a stack that is a path into [n]. *)
Lemma seek_path h n es d pre post st l a fuel :
  path n es d pre post → wf_node h n → seek_sorted (pos_from d pre) post → agg_out a l →
  length st + h < STACK_CAP → node_fuel n ≤ fuel →
  seek_result n d pre post st l fuel (node_fuel n)
    (seek_loop fuel target bias (es ++ st) (pos_from d pre) a false).
Proof.
  intros Hp. revert h st l a fuel.
  induction Hp as [s items css i pos d Hi|hh s css l0 c r es d pre post Hp IH];
    intros h st l a fuel Hn Hs Ha Hst Hfuel.
  - simpl in Hfuel. destruct fuel as [|fuel]; [lia|].
    inversion Hn as [? Hl|]; subst.
    destruct (seek_leaf_ok items (sum cx (map (item_summary cx) items)) i pos d st a l fuel)
      as (a' & Ha' & Hres); [lia..|done|].
    exists a'. split; [done|]. case_match; [|done].
    destruct Hres as (fuel' & ? & ?). exists fuel'. simpl. split; [lia|done].
  - inversion Hn as [|h' ? Hl Hwf]; subst.
    apply Forall_app in Hwf as Hwf'. destruct Hwf' as [Hwf0 Hwfc].
    inversion Hwfc as [|?? Hc Hr]; subst.
    rewrite pos_from_app in Hs. apply seek_sorted_app in Hs as [Hs1 Hs2].
    destruct (path_items cx _ _ _ _ _ Hp) as [Hitems _].
    assert (node_fuel (Internal (Datatypes.S h') (sum cx (map summary (l0 ++ c :: r)))
      (map summary (l0 ++ c :: r)) (l0 ++ c :: r))
      = 2 + (children_fuel l0 + (1 + node_fuel c + children_fuel r))) as Hnf.
    { by rewrite node_fuel_internal, children_fuel_app. }
    rewrite Hnf in *. clear Hnf. set (n := Internal _ _ _ _).
    set (e := mkEntry n _ _).
    destruct (IH h' (e :: st) l a fuel) as (a1 & Ha1 & Hres); [done..|simpl; lia|lia|].
    assert (items_of (l0 ++ [c]) = items_of l0 ++ pre ++ post) as Hl0c.
    { rewrite items_of_app, items_of_cons. unfold items_of at 2; simpl.
      by rewrite app_nil_r, Hitems. }
    rewrite <-app_assoc, pos_from_app. cbn [app].
    unfold seek_result. rewrite pos_from_app.
    destruct (scan (pos_from (pos_from d (items_of l0)) pre) post) as [u v] eqn:Hsc.
    simpl in Ha1, Hres. destruct v as [|x v].
    + (* the child's items are all passed: go on with its right siblings *)
      pose proof (scan_app cx target bias (pos_from (pos_from d (items_of l0)) pre) post) as Hu.
      rewrite Hsc, app_nil_r in Hu. simpl in Hu. subst u.
      rewrite (scan_app_miss cx _ _ _ _ _ Hsc).
      destruct Hres as (fuel' & Hf & ->).
      destruct (seek_at h' (Datatypes.S h') (sum cx (map summary (l0 ++ c :: r)))
        (map summary (l0 ++ c :: r)) (l0 ++ [c]) r d st (l ++ post) a1 fuel' e true)
        as (a2 & Ha2 & Hres2); try done; try lia.
      * by rewrite <-app_assoc.
      * by rewrite <-app_assoc.
      * eapply Forall_impl; [exact Hr|]. intros. by apply seek_fresh.
      * by rewrite Hl0c, !pos_from_app.
      * by rewrite <-app_assoc.
      * simpl. by rewrite length_app, Hl0c, !pos_from_app.
      * rewrite Hl0c, !pos_from_app, <-app_assoc in Hres2. rewrite Hl0c, !pos_from_app in Ha2.
        destruct (scan _ (items_of r)) as [u v] eqn:Hsc2. simpl in *.
        exists a2. rewrite <-app_assoc in Ha2. split; [done|].
        rewrite !pos_from_app, <-!app_assoc in *. destruct v as [|x v].
        -- destruct Hres2 as (fuel'' & Hf2 & ->). exists fuel''.
           split; [lia|done].
        -- done.
    + destruct Hres as (es' & -> & Hp').
      rewrite (scan_app_hit cx _ _ _ _ _ _ _ _ Hsc). simpl.
      exists a1. split; [done|]. exists (es' ++ [e]).
      rewrite <-!app_assoc, !pos_from_app. split; [done|].
      by apply (path_internal cx _ _ _ l0 c r es' d (pre ++ u) (x :: v)).
Qed.

(** The loop of [seek_internal] on the cursor's own stack, or on the root it pushes. *)
Lemma seek_loop_ok c pre post a l :
  walkable cx (c_tree c) → seekable cx c pre post → seek_sorted (pos_of cx pre) post →
  agg_out a l →
  let sc := scan (pos_of cx pre) post in
  ∃ st a',
    (stack ← (if c_did_seek c then Ok (c_stack c)
              else push_entry (mkEntry (c_tree c) 0 (dim_zero (S:=S) cx)) (c_stack c));
     seek_loop (1 + node_fuel (c_tree c)) target bias stack (c_position c) a false)
      = Ok (st, pos_of cx (pre ++ sc.1), a') ∧
    agg_out a' (l ++ sc.1) ∧
    match sc.2 with
    | [] => st = []
    | _ => path (c_tree c) st (dim_zero (S:=S) cx) (pre ++ sc.1) sc.2
    end.
Proof.
  intros [Hw Hh] Hc Hs Ha. set (f := node_fuel (c_tree c)).
  assert (1 ≤ f) as Hf1 by (unfold f; destruct (c_tree c); simpl; lia).
  destruct Hc as [[(Hd & _ & Hp & Hpath)|((Hd & _ & Hst & Hp) & -> & ->)]|
    ((Hd & Hst & Hp & _) & -> & ->)]; rewrite Hd, Hp; simpl mbind.
  - destruct (path_wf_tree cx _ _ _ _ _ Hpath Hw) as [_ Hn].
    destruct (seek_path _ _ _ _ _ _ [] l a (1 + f) Hpath Hn Hs Ha) as (a' & Ha' & Hr);
      [simpl; lia|lia|]. rewrite app_nil_r in Hr.
    unfold pos_of in *. cbn [mbind outcome_bind].
    destruct (scan _ post) as [u v] eqn:E; simpl in *.
    destruct v as [|x v].
    + destruct Hr as ([|fuel'] & Hf & ->); [lia|]. exists [], a'.
      pose proof (scan_app cx target bias (pos_from (dim_zero (S:=S) cx) pre) post) as Hu.
      rewrite E, app_nil_r in Hu. simpl in Hu. by subst u.
    + destruct Hr as (es & -> & Hp'). exists es, a'. by rewrite app_nil_r.
  - rewrite Hst. exists [], a. simpl. by rewrite !app_nil_r.
  - rewrite Hst. unfold push_entry. simpl length.
    rewrite decide_True by (unfold STACK_CAP; lia). cbn [mbind outcome_bind].
    unfold pos_of in *. simpl Seek.pos_from in *.
    assert (seek_result (c_tree c) (dim_zero (S:=S) cx) [] (tree_items (c_tree c)) [] l (1 + f) f
      (seek_loop (1 + f) target bias [mkEntry (c_tree c) 0 (dim_zero (S:=S) cx)]
        (dim_zero (S:=S) cx) a false)) as Hr.
    { destruct (wf_tree_inv cx _ Hw) as [Hnew|[_ Hn]].
      - rewrite Hnew in *.
        destruct (seek_leaf_ok [] (zero cx) 0 (dim_zero (S:=S) cx) (dim_zero (S:=S) cx) [] a l f)
          as (a' & Ha' & Hr); [simpl; lia..|done|].
        exists a'. split; [done|]. simpl in Hr |- *.
        destruct Hr as (fuel' & ? & ?). exists fuel'. split; [lia|done].
      - apply (seek_fresh _ _ Hn); [done..|simpl; lia|lia]. }
    destruct Hr as (a' & Ha' & Hr). simpl in Ha', Hr.
    destruct (scan _ (tree_items (c_tree c))) as [u v] eqn:E; simpl in *.
    destruct v as [|x v].
    + destruct Hr as ([|fuel'] & Hf & ->); [lia|]. exists [], a'.
      pose proof (scan_app cx target bias (dim_zero (S:=S) cx) (tree_items (c_tree c))) as Hu.
      rewrite E, app_nil_r in Hu. simpl in Hu. by subst u.
    + destruct Hr as (es & -> & Hp'). exists es, a'. by rewrite app_nil_r.
Qed.

(** The position whose comparison with the target a seek returns. *)
Definition seek_end (pre post : list T) : D :=
  match bias, post with
  | Left, x :: _ => dim_add cx (pos_of cx pre) (item_summary cx x)
  | _, _ => pos_of cx pre
  end.

Lemma seek_internal_ok c pre post a l :
  walkable cx (c_tree c) → seekable cx c pre post → seek_sorted (pos_of cx pre) post →
  seek_cmp cx target (pos_of cx (D:=D) pre) ≠ Lt → agg_out a l →
  let sc := scan (pos_of cx pre) post in
  ∃ c' a',
    seek_internal cx target bias a c
      = Ok (c', a', bool_decide (seek_cmp cx target (seek_end (pre ++ sc.1) sc.2) = Eq)) ∧
    c_tree c' = c_tree c ∧ seeked cx c' (pre ++ sc.1) sc.2 ∧ agg_out a' (l ++ sc.1).
Proof.
  intros Hw Hc Hs Hlt Ha sc.
  destruct (seek_loop_ok c pre post a l Hw Hc Hs Ha) as (st & a' & Hrun & Ha' & Hst).
  fold sc in Hrun, Ha', Hst.
  assert (c_position c = pos_of cx pre) as Hpos.
  { destruct Hc as [Hc|((_ & _ & -> & _) & -> & _)]; [by apply (seeked_position cx _ pre post)|done]. }
  set (c' := mkCursor (c_tree c) st (pos_of cx (pre ++ sc.1)) true (bool_decide (st = []))).
  assert (seeked cx c' (pre ++ sc.1) sc.2) as Hc'.
  { destruct sc.2 as [|x v] eqn:Hsc2.
    - right. subst st c'.
      assert (tree_items (c_tree c) = pre ++ sc.1) as Ht.
      { transitivity (pre ++ post).
        - destruct Hc as [Hc|(_ & -> & ->)]; [by apply (seeked_items cx)|done].
        - pose proof (scan_app cx target bias (pos_of cx pre) post) as Hu. fold sc in Hu.
          by rewrite Hsc2, app_nil_r in Hu; rewrite Hu. }
      split; [|done]. unfold past_items; simpl. by rewrite Ht.
    - left. subst c'. unfold at_item; simpl. split_and!; try done.
      apply bool_decide_eq_false_2. by eapply path_stack_nonempty. }
  exists c', a'. split; [|done]. unfold seek_internal. rewrite Hpos.
  assert (is_ge (seek_cmp cx target (pos_of cx (D:=D) pre)) = true) as ->
    by by destruct (seek_cmp _ _ _).
  cbn [assert_that mbind outcome_bind].
  apply outcome_bind_ok in Hrun as (stack & -> & Hrun). rewrite Hpos in Hrun.
  cbn [mbind outcome_bind]. rewrite Hrun. cbn [mbind outcome_bind]. fold c'.
  rewrite (item_summary_seeked cx c' _ _ Hc') by by apply Hw.
  assert (∀ o, match o with Eq => true | _ => false end = bool_decide (o = Eq)) as HEq
    by by intros [].
  unfold seek_end. rewrite <-!HEq. destruct bias; simpl; [by destruct sc.2|done].
Qed.

End seek_facts.

(** ** The three aggregates *)

Section aggregates.
Context {C S T : Type}.
Context `{!Summary C S, !Item C S T} (cx : C) `{!SummaryLaws cx}.

(** Seeking without collecting anything. *)
Lemma unit_aggregate_spec :
  SeekAggregateSpec cx (SeekAggregate0:=unit_aggregate) (λ _ _, True) (λ _ _ _, True).
Proof. split; intros; try done; by exists a. Qed.

(** Slicing: the tree holds the items collected so far, the buffers the rest of the leaf. *)
Definition slice_out (a : SliceSeekAggregate S T) (l : list T) : Prop :=
  wf_tree cx (sl_tree a) ∧ tree_items (sl_tree a) = l ∧
  sl_leaf_items a = [] ∧ sl_leaf_item_summaries a = [] ∧ sl_leaf_summary a = zero cx.
Definition slice_in (a : SliceSeekAggregate S T) (l : list T) (k : nat) : Prop :=
  ∃ l1 l2, l = l1 ++ l2 ∧ length l2 = k ∧ k ≤ CAP ∧
    wf_tree cx (sl_tree a) ∧ tree_items (sl_tree a) = l1 ∧
    sl_leaf_items a = l2 ∧ sl_leaf_item_summaries a = map (item_summary cx) l2 ∧
    sl_leaf_summary a = summary_of cx l2.

Lemma slice_aggregate_spec :
  SeekAggregateSpec cx (SeekAggregate0:=slice_aggregate cx) slice_out slice_in.
Proof.
  split.
  - intros a l (Hw & Ht & Hi & His & Hs). exists l, []. rewrite app_nil_r. simpl.
    split_and!; [done|done|lia|done..].
  - intros a l k x (l1 & l2 & -> & <- & Hk & Hw & Ht & Hi & His & Hs) Hlt.
    cbn [push_item end_leaf slice_aggregate]. rewrite Hi, His, (arr_push_ok CAP l2 x), arr_push_ok
      by (rewrite ?length_map; lia). simpl.
    eexists. split; [done|]. exists l1, (l2 ++ [x]). simpl.
    rewrite <-app_assoc, length_app, map_app. simpl. split_and!; try done; try lia.
    rewrite Hs. unfold summary_of, SumTree.sum. by rewrite map_app, foldl_app.
  - intros a l k (l1 & l2 & -> & <- & Hk & Hw & Ht & Hi & His & Hs).
    cbn [push_item end_leaf slice_aggregate]. rewrite Hi, His, Hs.
    destruct (append_ok cx (sl_tree a)
      (Leaf (summary_of cx l2) l2 (map (item_summary cx) l2))) as (n & -> & Hn & Hni); [done| |].
    { destruct l2 as [|y l2]; [by left|right]. exists 0. constructor. simpl in *. lia. }
    simpl. eexists. split; [done|]. rewrite Ht in Hni. done.
  - intros a l h n (Hw & Ht & Hi & His & Hs) Hn. simpl.
    destruct (append_ok cx (sl_tree a) n) as (n' & -> & Hn' & Hni); [done|by eapply wf_tree_node|].
    simpl. eexists. split; [done|]. unfold slice_out; simpl. by rewrite Hni, Ht.
Qed.

(** Summing a dimension over the items passed. *)
Context {D : Type} `{!Dimension C S D} `{!DimensionLaws (S:=S) D cx}.

Lemma summary_aggregate_spec :
  SeekAggregateSpec cx (SeekAggregate0:=summary_aggregate (T:=T) (D:=D) cx)
    (λ a l, a = pos_of cx l) (λ a l _, a = pos_of cx l).
Proof.
  split; simpl.
  - done.
  - intros a l k x -> _. eexists. split; [done|]. by rewrite pos_of_app.
  - eauto.
  - intros a l h n -> Hn. eexists. split; [done|].
    by rewrite pos_of_app, (dim_add_node cx _ _ _ Hn).
Qed.

End aggregates.
