(* ===== verification/CursorMoves.v ===== *)
(** Moving a cursor forward and backward, with and without a filter on the summaries: the
    cursor goes to the nearest item that the filter accepts, and every item is visited once. *)
From S2P Require Import Prelude SumTree SumTreeFacts Seek Cursor CursorFacts.

(** The items before the first one that satisfies [p], and the rest. *)
Fixpoint skip {T} (p : T → bool) (l : list T) : list T * list T :=
  match l with
  | [] => ([], [])
  | x :: l' => if p x then ([], l) else let '(a, b) := skip p l' in (x :: a, b)
  end.

(** The items up to the last one that satisfies [p], and the rest. *)
Definition skip_back {T} (p : T → bool) (l : list T) : list T * list T :=
  let '(a, b) := skip p (reverse l) in (reverse b, reverse a).

Section skip_facts.
Context {T : Type} (p : T → bool).
Implicit Types l : list T.

Lemma skip_app_eq l : (skip p l).1 ++ (skip p l).2 = l.
Proof.
  induction l as [|x l IH]; simpl; [done|]. destruct (p x); [done|].
  destruct (skip p l); simpl in *. by rewrite IH.
Qed.

Lemma skip_all l : Forall (λ x, p x = false) l → skip p l = (l, []).
Proof. induction 1 as [|x l Hx _ IH]; simpl; [done|]. by rewrite Hx, IH. Qed.

Lemma skip_miss l : (skip p l).2 = [] → (skip p l).1 = l.
Proof. intros Hs. pose proof (skip_app_eq l) as H. by rewrite Hs, app_nil_r in H. Qed.

Lemma skip_app_hit l r a x b : skip p l = (a, x :: b) → skip p (l ++ r) = (a, x :: b ++ r).
Proof.
  revert a. induction l as [|y l IH]; intros a; simpl; [done|].
  destruct (p y); [by intros; simplify_eq|].
  destruct (skip p l) as [a' b']. intros; simplify_eq. by erewrite IH.
Qed.

Lemma skip_app_miss l r :
  (skip p l).2 = [] → skip p (l ++ r) = let '(a, b) := skip p r in (l ++ a, b).
Proof.
  induction l as [|y l IH]; simpl; [by destruct (skip p r)|].
  destruct (p y); [done|]. destruct (skip p l) as [a' b']. simpl. intros ->.
  rewrite IH by done. by destruct (skip p r).
Qed.

Lemma skip_hit_true l a x b : skip p l = (a, x :: b) → p x = true.
Proof.
  revert a. induction l as [|y l IH]; intros a; simpl; [done|].
  destruct (p y) eqn:E; [by intros; simplify_eq|].
  destruct (skip p l) as [a' b']. intros; simplify_eq. by eapply IH.
Qed.

Lemma skip_fst_false l : Forall (λ x, p x = false) (skip p l).1.
Proof.
  induction l as [|x l IH]; simpl; [constructor|]. destruct (p x) eqn:E; [constructor|].
  destruct (skip p l); simpl in *. by constructor.
Qed.

Lemma skip_back_app_eq l : (skip_back p l).1 ++ (skip_back p l).2 = l.
Proof.
  unfold skip_back. pose proof (skip_app_eq (reverse l)) as H.
  destruct (skip p (reverse l)) as [a b]; simpl in *.
  by rewrite <-reverse_app, H, reverse_involutive.
Qed.

Lemma skip_back_snoc l x :
  skip_back p (l ++ [x]) =
    if p x then (l ++ [x], []) else let '(a, b) := skip_back p l in (a, b ++ [x]).
Proof.
  unfold skip_back. rewrite reverse_snoc. simpl. destruct (p x); simpl.
  - by rewrite reverse_cons, reverse_involutive.
  - destruct (skip p (reverse l)). by rewrite reverse_cons.
Qed.

Lemma skip_back_app_miss l r :
  (skip_back p r).1 = [] → skip_back p (l ++ r) = let '(a, b) := skip_back p l in (a, b ++ r).
Proof.
  unfold skip_back. rewrite reverse_app. destruct (skip p (reverse r)) as [a b] eqn:E; simpl.
  intros Hb. rewrite skip_app_miss.
  - destruct (skip p (reverse l)). by rewrite reverse_app, reverse_involutive.
  - rewrite E. simpl. by rewrite <-(reverse_involutive b), Hb.
Qed.

Lemma skip_back_app_hit l r a x b :
  skip_back p r = (a ++ [x], b) → skip_back p (l ++ r) = (l ++ a ++ [x], b).
Proof.
  unfold skip_back. rewrite reverse_app. destruct (skip p (reverse r)) as [a' b'] eqn:E; simpl.
  intros [= Hb <-].
  assert (b' = x :: reverse a) as -> by by rewrite <-(reverse_involutive b'), Hb, reverse_snoc.
  rewrite (skip_app_hit _ _ _ _ _ E). f_equal.
  by rewrite reverse_cons, reverse_app, !reverse_involutive, app_assoc.
Qed.

Lemma skip_back_all l : Forall (λ x, p x = false) l → skip_back p l = ([], l).
Proof.
  intros Hl. unfold skip_back. rewrite skip_all by by apply Forall_reverse.
  by rewrite reverse_involutive.
Qed.

Lemma skip_back_miss l : (skip_back p l).1 = [] → (skip_back p l).2 = l.
Proof. intros Hs. pose proof (skip_back_app_eq l) as H. by rewrite Hs in H. Qed.

Lemma skip_back_hit_snoc l : (skip_back p l).1 ≠ [] → ∃ a x, (skip_back p l).1 = a ++ [x] ∧ p x = true.
Proof.
  unfold skip_back. destruct (skip p (reverse l)) as [a b] eqn:E; simpl.
  destruct b as [|x b]; [done|]. intros _. exists (reverse b), x.
  rewrite reverse_cons. split; [done|]. by eapply skip_hit_true.
Qed.

End skip_facts.

Section moves.
Context {C S T D : Type}.
Context `{!Summary C S, !Item C S T, !Dimension C S D} (cx : C).
Context `{!SummaryLaws cx, !DimensionLaws (S:=S) D cx}.
Context (filter_node : S → bool).
Implicit Types n : Node S T.
Implicit Types d : D.
Implicit Types l pre post : list T.
Implicit Types st es : list (StackEntry S T D).

Local Notation path := (path cx (D:=D)).
Local Notation pos_from := (pos_from cx).
Local Notation wf_node := (wf_node cx).

(** Whether the filter accepts an item, and what it promises about the summary of a subtree
    it rejects. *)
Definition accepts (x : T) : bool := filter_node (item_summary cx x).
Definition filter_sound : Prop :=
  ∀ h n, wf_node h n → filter_node (summary n) = false →
    Forall (λ x, accepts x = false) (tree_items n).

Context (Hsound : filter_sound) (tree : Node S T) (ae : bool).

Local Notation fwd fuel st d descend :=
  (search_forward_loop cx fuel filter_node (mkCursor tree st d true ae) descend).
Local Notation bwd fuel st d descending :=
  (search_backward_loop cx fuel filter_node (mkCursor tree st d true ae) descending).

(** ** Forward *)

Definition fwd_result n d pre post st fuel cost (lhs : outcome (Cursor S T D)) : Prop :=
  let sp := skip accepts post in
  match sp.2 with
  | [] => ∃ fuel', fuel ≤ fuel' + cost ∧ lhs = fwd fuel' st (pos_from d (pre ++ post)) false
  | _ => ∃ es, lhs = Ok (mkCursor tree (es ++ st) (pos_from d (pre ++ sp.1)) true ae) ∧
           path n es d (pre ++ sp.1) sp.2
  end.

Lemma skip_filtered_ok {X} (g : X → S) (xs : list X) i (ep d : D) :
  let u := (skip (λ x, filter_node (g x)) xs).1 in
  skip_filtered cx filter_node (map g xs) i ep d =
    (i + length u, foldl (λ d x, dim_add cx d (g x)) ep u,
     foldl (λ d x, dim_add cx d (g x)) d u).
Proof.
  revert i ep d. induction xs as [|x xs IH]; intros i ep d; simpl; [by rewrite Nat.add_0_r|].
  destruct (filter_node (g x)); simpl; [by rewrite Nat.add_0_r|].
  rewrite IH. destruct (skip _ xs) as [u v]; simpl. by rewrite <-Nat.add_assoc.
Qed.

Lemma take_drop_skip (items : list T) i u v :
  i ≤ length items → u ++ v = drop i items →
  take (i + length u) items = take i items ++ u ∧ drop (i + length u) items = v ∧
  i + length u + length v = length items.
Proof.
  intros Hi Huv. split_and!.
  - rewrite <-(take_drop i items) at 1. rewrite <-Huv, take_app_add', take_app_length; [done|].
    rewrite length_take. lia.
  - by rewrite <-drop_drop, <-Huv, drop_app_length.
  - apply (f_equal length) in Huv. rewrite length_app, length_drop in Huv. lia.
Qed.

(** A leaf, after its index has been advanced to [i]. *)
Lemma fwd_leaf_ok (items : list T) s j pos d st fuel (descend : bool) :
  let n := Leaf s items (map (item_summary cx) items) in
  let i := if descend then j else j + 1 in
  i ≤ length items →
  fwd_result n d (take i items) (drop i items) st (Datatypes.S fuel) 1
    (fwd (Datatypes.S fuel) (mkEntry n j pos :: st) (pos_from d (take j items)) descend).
Proof.
  intros n i Hi. subst n. cbn [search_forward_loop c_stack se_tree se_index se_position
    c_position c_tree c_did_seek c_at_end].
  assert (∃ ep, (if descend then Ok (j, pos, pos_from d (take j items))
      else s ← index (map (item_summary cx) items) j;
           Ok (j + 1, dim_add cx pos s, dim_add cx (pos_from d (take j items)) s))
    = Ok (i, ep, pos_from d (take i items))) as [ep ->].
  { subst i. destruct descend; [by eexists|].
    destruct (lookup_lt_is_Some_2 items j) as [x Hx]; [lia|].
    unfold index. rewrite list_lookup_fmap, Hx. simpl. eexists. f_equal. f_equal.
    by rewrite Nat.add_1_r, (take_S_r _ _ _ Hx), pos_from_app. }
  cbn [mbind outcome_bind]. rewrite skipn_map, skip_filtered_ok. fold accepts.
  unfold fwd_result. change (λ x, filter_node (item_summary cx x)) with accepts.
  pose proof (skip_app_eq accepts (drop i items)) as Huv.
  destruct (skip accepts (drop i items)) as [u v]; simpl in *.
  destruct (take_drop_skip items i u v Hi Huv) as (Htake & Hdrop & Hlen).
  rewrite length_map.
  assert (foldl (λ d x, dim_add cx d (item_summary cx x)) (pos_from d (take i items)) u
    = pos_from d (take i items ++ u)) as -> by by rewrite pos_from_app.
  destruct v as [|x v]; simpl in Hlen.
  - rewrite decide_False by lia. exists fuel. rewrite app_nil_r in Huv. subst u.
    split; [lia|done].
  - rewrite decide_True by lia. eexists [_]. split; [done|].
    rewrite <-Htake, <-Hdrop. constructor. lia.
Qed.

Lemma rejected_items h (r : list (Node S T)) :
  Forall (wf_node h) r → Forall (λ n, filter_node (summary n) = false) r →
  Forall (λ x, accepts x = false) (items_of r).
Proof.
  induction 1 as [|n r Hn _ IH]; intros Hf; [constructor|].
  apply Forall_cons in Hf as [Hf Hr]. rewrite items_of_cons. apply Forall_app. eauto.
Qed.

Lemma pos_from_items_of h (r : list (Node S T)) d :
  Forall (wf_node h) r →
  foldl (λ d x, dim_add cx d (summary x)) d r = pos_from d (items_of r).
Proof.
  intros Hr. revert d. induction Hr as [|n r Hn _ IH]; intros d; [done|].
  rewrite items_of_cons, pos_from_app. simpl. by rewrite IH, (dim_add_node cx _ _ _ Hn).
Qed.

Definition fresh_fwd (h : nat) n : Prop :=
  ∀ d st fuel, length st + h < STACK_CAP → node_fuel n ≤ fuel →
    fwd_result n d [] (tree_items n) st fuel (node_fuel n) (fwd fuel (mkEntry n 0 d :: st) d true).

Lemma fwd_at h hh s css (r l0 : list (Node S T)) d st fuel e (descend : bool) :
  let n := Internal hh s css (l0 ++ r) in
  let d0 := pos_from d (items_of l0) in
  css = map summary (l0 ++ r) → Forall (wf_node h) r → Forall (fresh_fwd h) r →
  length st + Datatypes.S h < STACK_CAP → 1 + children_fuel r ≤ fuel → se_tree e = n →
  (if descend then (se_index e, se_position e) else (se_index e + 1, d0)) = (length l0, d0) →
  fwd_result n d (items_of l0) (items_of r) st fuel (1 + children_fuel r)
    (fwd fuel (e :: st) d0 descend).
Proof.
  revert l0 fuel e descend. induction r as [r IH] using (induction_ltof1 _ length).
  intros l0 fuel e descend n d0 -> Hwf Hfresh Hst Hfuel He Hi.
  destruct fuel as [|fuel]; [lia|].
  cbn [search_forward_loop c_stack c_position c_tree c_did_seek c_at_end].
  rewrite He. subst n. cbn match. set (n := Internal _ _ _ _) in *. rewrite Hi.
  rewrite skipn_map, drop_app_length, skip_filtered_ok.
  pose proof (skip_app_eq (λ x, filter_node (summary x)) r) as Hr.
  destruct (skip (λ x, filter_node (summary x)) r) as [r1 r2] eqn:Hskip.
  cbn [fst snd] in Hr |- *. subst r.
  apply Forall_app in Hwf as [Hwf1 Hwf2]. apply Forall_app in Hfresh as [_ Hfresh2].
  pose proof (skip_fst_false (λ x, filter_node (summary x)) (r1 ++ r2)) as Hf1.
  rewrite Hskip in Hf1. cbn [fst] in Hf1.
  pose proof (rejected_items _ _ Hwf1 Hf1) as Hrej.
  rewrite !(pos_from_items_of h) by done.
  rewrite app_assoc, lookup_app_r, length_app, Nat.sub_diag, children_fuel_app in *
    by (rewrite length_app; lia).
  unfold fwd_result. rewrite items_of_app, skip_app_miss by by rewrite skip_all.
  destruct r2 as [|c r3]; cbn [lookup list_lookup].
  - unfold items_of at 2 4; simpl. rewrite !app_nil_r.
    exists fuel. split; [lia|]. subst d0. by rewrite pos_from_app.
  - apply Forall_cons in Hwf2 as [Hc Hr3]. apply Forall_cons in Hfresh2 as [Hfc Hf3].
    assert (pos_from d0 (items_of r1) = pos_from d (items_of (l0 ++ r1))) as Hd1
      by by rewrite items_of_app, pos_from_app.
    rewrite Hd1. clear Hd1 Hrej Hf1 Hskip. rewrite <-length_app.
    clear Hi He. subst d0 n. rewrite (app_assoc l0 r1 (c :: r3)) in *.
    set (n := Internal _ _ _ _).
    assert (∀ a : list T, items_of l0 ++ items_of r1 ++ a = items_of (l0 ++ r1) ++ a) as Hassoc
      by by intros; rewrite items_of_app, app_assoc.
    set (l1 := l0 ++ r1) in *. clearbody l1.
    assert (children_fuel (c :: r3) = 1 + node_fuel c + children_fuel r3) as Hcf by done.
    rewrite Hcf in *. clear Hcf.
    unfold push_entry. rewrite decide_True by (simpl; lia). cbn [mbind outcome_bind].
    set (e1 := mkEntry n (length l1) _).
    specialize (Hfc (pos_from d (items_of l1)) (e1 :: st) fuel). unfold fwd_result in Hfc.
    rewrite items_of_cons. destruct (skip accepts (tree_items c)) as [u [|x v]] eqn:Hsk.
    + destruct Hfc as (fuel' & Hf' & ->); [simpl; lia|lia|]. cbn [app].
      rewrite skip_app_miss by by rewrite Hsk.
      pose proof (IH r3) as IH'. unfold fwd_result in IH'.
      specialize (IH' ltac:(unfold ltof; rewrite length_app; simpl; lia) (l1 ++ [c]) fuel' e1 false).
      rewrite <-app_assoc in IH'. specialize (IH' eq_refl Hr3 Hf3 Hst ltac:(lia) eq_refl).
      assert (items_of (l1 ++ [c]) = items_of l1 ++ tree_items c) as Hl1c.
      { rewrite items_of_app. unfold items_of at 2; simpl. by rewrite app_nil_r. }
      rewrite length_app, Hl1c, pos_from_app in IH'. specialize (IH' eq_refl).
      destruct (skip accepts (items_of r3)) as [u3 v3]; cbn [fst snd] in *.
      rewrite <-!app_assoc in IH'. rewrite ?Hassoc. destruct v3 as [|x3 v3].
      * destruct IH' as (fuel'' & ? & ->). exists fuel''. split; [lia|done].
      * done.
    + destruct Hfc as (es & -> & Hp); [simpl; lia|lia|].
      rewrite (skip_app_hit _ _ _ _ _ _ Hsk). cbn [fst snd]. rewrite Hassoc.
      exists (es ++ [e1]). rewrite <-app_assoc, (pos_from_app cx d). split; [done|].
      by apply (path_internal cx hh s _ l1 c r3 es d u (x :: v)).
Qed.

Lemma fwd_fresh h n : wf_node h n → fresh_fwd h n.
Proof.
  revert h n. apply (wf_node_ind' cx).
  - intros items Hl d st fuel Hst Hfuel. destruct fuel as [|fuel]; [simpl in *; lia|].
    pose proof (fwd_leaf_ok items (summary_of cx items) 0 d d st fuel true ltac:(simpl; lia)) as Hr.
    rewrite take_0, drop_0 in Hr. unfold fwd_result in *. simpl in Hr |- *.
    destruct (skip _ _).2; [|done]. destruct Hr as (fuel' & ? & ?). exists fuel'. split; [lia|done].
  - intros h cts Hl Hwf IH d st fuel Hst Hfuel. rewrite node_fuel_internal in *.
    set (n := Internal _ _ _ _).
    pose proof (fwd_at h (Datatypes.S h) (sum cx (map summary cts)) (map summary cts) cts [] d st
      fuel (mkEntry n 0 d) true eq_refl Hwf IH Hst ltac:(lia) eq_refl eq_refl) as Hr.
    unfold fwd_result in *. simpl tree_items. fold (items_of cts).
    destruct (skip _ _).2; [|done]. destruct Hr as (fuel' & ? & ?). exists fuel'. split; [lia|done].
Qed.

(** From the item the stack leads to, to the next item the filter accepts. *)
Lemma fwd_path h n es d pre x post st fuel :
  path n es d pre (x :: post) → wf_node h n → length st + h < STACK_CAP → node_fuel n ≤ fuel →
  fwd_result n d (pre ++ [x]) post st fuel (node_fuel n) (fwd fuel (es ++ st) (pos_from d pre) false).
Proof.
  intros Hp. remember (x :: post) as post' eqn:Hpost. revert h st fuel post Hpost.
  induction Hp as [s items css i pos d Hi|hh s css l0 c r es d pre post' Hp IH];
    intros h st fuel post Hpost Hn Hst Hfuel.
  - inversion Hn; subst. destruct fuel as [|fuel]; [simpl in *; lia|].
    pose proof (fwd_leaf_ok items (sum cx (map (item_summary cx) items)) i pos d st fuel false
      ltac:(simpl; lia)) as Hr. cbv zeta in Hr.
    assert (items !! i = Some x) as Hx by by rewrite <-(Nat.add_0_r i), <-lookup_drop, Hpost.
    rewrite Nat.add_1_r, (take_S_r _ _ _ Hx) in Hr.
    assert (drop (Datatypes.S i) items = post) as Hdp.
    { rewrite <-Nat.add_1_r, <-drop_drop, Hpost. done. }
    rewrite Hdp in Hr. unfold fwd_result in *. simpl node_fuel.
    destruct (skip _ _).2; [|done]. destruct Hr as (fuel' & ? & ?). exists fuel'. split; [lia|done].
  - inversion Hn as [|h' ? Hl Hwf]; subst.
    apply Forall_app in Hwf as Hwf'. destruct Hwf' as [Hwf0 Hwfc].
    inversion Hwfc as [|?? Hc Hr]; subst.
    destruct (path_items cx _ _ _ _ _ Hp) as [Hitems Hne].
    destruct post' as [|x' post']; [done|]. injection Hpost as -> <-.
    assert (node_fuel (Internal (Datatypes.S h') (sum cx (map summary (l0 ++ c :: r)))
      (map summary (l0 ++ c :: r)) (l0 ++ c :: r))
      = 2 + (children_fuel l0 + (1 + node_fuel c + children_fuel r))) as Hnf.
    { by rewrite node_fuel_internal, children_fuel_app. }
    rewrite Hnf in *. clear Hnf. set (n := Internal _ _ _ _). set (e := mkEntry n _ _).
    pose proof (IH h' (e :: st) fuel post' eq_refl Hc ltac:(simpl; lia) ltac:(lia)) as Hres.
    assert (items_of (l0 ++ [c]) = items_of l0 ++ pre ++ x :: post') as Hl0c.
    { rewrite items_of_app, items_of_cons. unfold items_of at 2; simpl.
      by rewrite app_nil_r, Hitems. }
    rewrite <-(app_assoc es), pos_from_app. cbn [app] in Hres |- *.
    unfold fwd_result in Hres |- *.
    destruct (skip accepts post') as [u [|y v]] eqn:Hsk; cbn [fst snd] in Hres |- *.
    + destruct Hres as (fuel' & Hf & ->). rewrite skip_app_miss by by rewrite Hsk.
      pose proof (fwd_at h' (Datatypes.S h') (sum cx (map summary (l0 ++ c :: r)))
        (map summary (l0 ++ c :: r)) r (l0 ++ [c]) d st fuel' e false) as Hres2.
      rewrite <-app_assoc in Hres2.
      specialize (Hres2 eq_refl Hr ltac:(eapply Forall_impl; [exact Hr|]; intros; by apply fwd_fresh)
        Hst ltac:(lia) eq_refl).
      rewrite length_app, Hl0c, pos_from_app in Hres2. specialize (Hres2 eq_refl).
      unfold fwd_result in Hres2. destruct (skip accepts (items_of r)) as [u2 v2].
      cbn [fst snd] in *. repeat progress (rewrite <-?app_assoc in *; cbn [app] in *).
      destruct v2 as [|y2 v2]; [|done].
      destruct Hres2 as (fuel'' & ? & ->). exists fuel''. split; [lia|done].
    + destruct Hres as (es' & -> & Hp'). rewrite (skip_app_hit _ _ _ _ _ _ Hsk). cbn [fst snd].
      exists (es' ++ [e]). repeat progress (rewrite <-?app_assoc in *; cbn [app] in *).
      rewrite (pos_from_app cx d). split; [done|].
      by apply (path_internal cx _ _ _ l0 c r es' d _ (y :: v)).
Qed.

(** ** Backward *)

(** The position at which the node on top of [st] points its child to start. *)
Definition start_of st : D :=
  match st with e :: _ => se_position e | [] => dim_zero (S:=S) cx end.

Definition bwd_result n d pre post st fuel cost (lhs : outcome (Cursor S T D)) : Prop :=
  let sb := skip_back accepts pre in
  match sb.1 with
  | [] => ∃ fuel', fuel ≤ fuel' + cost ∧ lhs = bwd fuel' st d false
  | _ => ∃ es a x, sb.1 = a ++ [x] ∧
           lhs = Ok (mkCursor tree (es ++ st) (pos_from d a) true ae) ∧
           path n es d a (x :: sb.2 ++ post)
  end.

(** The index the loop looks at: an entry it has just pushed, or the one before. *)
Definition bwd_at_index (descending : bool) (i k : nat) : Prop :=
  if descending then i = k else i = Datatypes.S k.

Lemma bwd_step n idx pos st p (descending : bool) fuel css1 sm css2 :
  child_summaries n = css1 ++ sm :: css2 → bwd_at_index descending idx (length css1) →
  bwd (Datatypes.S fuel) (mkEntry n idx pos :: st) p descending =
    let d1 := foldl (dim_add cx) (start_of st) css1 in
    let st1 := mkEntry n (length css1) d1 :: st in
    if filter_node sm then
      match n with
      | Internal _ _ _ cts =>
          c ← index cts (length css1);
          last ← checked_sub (length (child_summaries c)) 1;
          stack ← push_entry (mkEntry c last (dim_zero (S:=S) cx)) st1;
          bwd fuel stack d1 true
      | Leaf _ _ _ => Ok (mkCursor tree st1 d1 true ae)
      end
    else bwd fuel st1 d1 false.
Proof.
  intros Hcss Hidx. cbn [search_backward_loop c_stack se_tree se_index].
  assert (negb descending && bool_decide (idx = 0) = false) as ->
    by (destruct descending; [done|]; rewrite Hidx; done).
  assert ((if descending then idx else idx - 1) = length css1) as ->
    by (destruct descending; simpl in Hidx; lia).
  rewrite Hcss, slice_to_ok by (rewrite length_app; lia). cbn [mbind outcome_bind].
  assert (index (css1 ++ sm :: css2) (length css1) = Ok sm) as ->
    by (unfold index; by rewrite list_lookup_middle).
  cbn [unwrap mbind outcome_bind]. rewrite take_app_length. fold (start_of st).
  by destruct n, (filter_node sm).
Qed.

Lemma bwd_pop n pos st d p fuel :
  start_of st = d → bwd (Datatypes.S fuel) (mkEntry n 0 pos :: st) p false = bwd fuel st d false.
Proof. intros <-. done. Qed.

Lemma bwd_leaf_ok (l r : list T) s st d idx pos p fuel (descending : bool) :
  (if descending then l ≠ [] ∧ idx = length l - 1 else idx = length l) →
  start_of st = d → 1 + length l ≤ fuel →
  bwd_result (Leaf s (l ++ r) (map (item_summary cx) (l ++ r))) d l r st fuel (1 + length l)
    (bwd fuel (mkEntry (Leaf s (l ++ r) (map (item_summary cx) (l ++ r))) idx pos :: st) p
      descending).
Proof.
  revert r idx pos p fuel descending. induction l as [|x l IH] using rev_ind;
    intros r idx pos p fuel descending Hidx Hd Hfuel; (destruct fuel as [|fuel]; [lia|]).
  { destruct descending; [by destruct Hidx|]. simpl in Hidx. subst idx.
    exists fuel. split; [lia|]. by apply bwd_pop. }
  rewrite length_app in *. simpl in Hfuel, Hidx.
  rewrite (bwd_step _ _ _ _ _ _ _ (map (item_summary cx) l) (item_summary cx x)
    (map (item_summary cx) r)).
  2: { simpl. by rewrite <-app_assoc, map_app. }
  2: { unfold bwd_at_index. rewrite length_map. destruct descending; lia. }
  rewrite Hd, length_map. cbv zeta.
  assert (foldl (dim_add cx) d (map (item_summary cx) l) = pos_from d l) as ->.
  { unfold Seek.pos_from. clear. revert d. induction l; intros; simpl; auto. }
  unfold bwd_result. rewrite skip_back_snoc. fold (accepts x).
  rewrite <-!app_assoc. cbn [app].
  destruct (accepts x) eqn:Hx; cbn [fst snd].
  - destruct (l ++ [x]) eqn:El; [by apply app_nil in El as [_ ?]|]. rewrite <-El.
    eexists [_], l, x. split_and!; [done..|]. simpl.
    pose proof (path_leaf cx s (l ++ x :: r) (map (item_summary cx) (l ++ x :: r)) (length l)
      (pos_from d l) d ltac:(rewrite length_app; simpl; lia)) as Hp.
    by rewrite take_app_length, drop_app_length in Hp.
  - pose proof (IH (x :: r) (length l) (pos_from d l) (pos_from d l) fuel false eq_refl Hd ltac:(lia))
      as Hr. unfold bwd_result in Hr.
    destruct (skip_back accepts l) as [[|a0 a] b]; cbn [fst snd] in *.
    + destruct Hr as (fuel' & ? & ?). exists fuel'. split; [simpl; lia|done].
    + by rewrite <-app_assoc.
Qed.

Definition fresh_bwd (h : nat) n : Prop :=
  ∀ d pos p st fuel, start_of st = d → length st + h < STACK_CAP → node_fuel n ≤ fuel →
    bwd_result n d (tree_items n) [] st fuel (node_fuel n)
      (bwd fuel (mkEntry n (length (child_summaries n) - 1) pos :: st) p true).

Lemma bwd_at h hh s css (l r : list (Node S T)) d st p fuel idx pos (descending : bool) :
  css = map summary (l ++ r) → Forall (wf_node h) l → Forall (fresh_bwd h) l →
  length st + Datatypes.S h < STACK_CAP → 1 + children_fuel l ≤ fuel → start_of st = d →
  (if descending then l ≠ [] ∧ idx = length l - 1 else idx = length l) →
  bwd_result (Internal hh s css (l ++ r)) d (items_of l) (items_of r) st fuel (1 + children_fuel l)
    (bwd fuel (mkEntry (Internal hh s css (l ++ r)) idx pos :: st) p descending).
Proof.
  intros ->. revert r p fuel idx pos descending.
  induction l as [|c l IH] using rev_ind; intros r p fuel idx pos descending Hwf Hfresh Hst Hfuel
    Hd Hidx; (destruct fuel as [|fuel]; [lia|]).
  { destruct descending; [by destruct Hidx|]. simpl in Hidx. subst idx.
    exists fuel. split; [lia|]. by apply bwd_pop. }
  rewrite children_fuel_app in *.
  assert (children_fuel [c] = 1 + node_fuel c) as Hcf by (unfold children_fuel; simpl; lia).
  rewrite Hcf in *. clear Hcf.
  apply Forall_app in Hwf as [Hwfl Hc]. apply Forall_app in Hfresh as [Hfl Hfc].
  rewrite Forall_singleton in Hc, Hfc.
  rewrite length_app in Hidx. simpl in Hidx.
  rewrite (bwd_step _ _ _ _ _ _ _ (map summary l) (summary c) (map summary r)).
  2: { simpl. by rewrite <-app_assoc, map_app. }
  2: { unfold bwd_at_index. rewrite length_map. destruct descending; lia. }
  rewrite Hd, length_map. cbv zeta.
  assert (foldl (dim_add cx) d (map summary l) = pos_from d (items_of l)) as Hfold.
  { rewrite <-(pos_from_items_of h) by done. clear. revert d. induction l; intros; simpl; auto. }
  rewrite Hfold. clear Hfold.
  assert (items_of (l ++ [c]) = items_of l ++ tree_items c) as ->.
  { rewrite items_of_app. unfold items_of at 2; simpl. by rewrite app_nil_r. }
  rewrite <-!app_assoc. cbn [app]. set (n := Internal _ _ _ _).
  set (e1 := mkEntry n (length l) (pos_from d (items_of l))).
  pose proof (IH (c :: r) (pos_from d (items_of l))) as Hl. unfold bwd_result in Hl.
  rewrite items_of_cons in Hl.
  assert (∀ fuel', fuel ≤ fuel' + node_fuel c → (skip_back accepts (tree_items c)).1 = [] →
    bwd_result n d (items_of l ++ tree_items c) (items_of r) st (Datatypes.S fuel)
      (1 + (children_fuel l + (1 + node_fuel c)))
      (bwd fuel' (e1 :: st) (pos_from d (items_of l)) false)) as Hrest.
  { intros fuel' Hf Hmiss. unfold bwd_result. rewrite skip_back_app_miss by done.
    specialize (Hl fuel' (length l) (pos_from d (items_of l)) false Hwfl Hfl Hst ltac:(lia) Hd eq_refl).
    fold n in Hl. fold e1 in Hl.
    destruct (skip_back accepts (items_of l)) as [[|a0 a] b]; cbn [fst snd] in *.
    - destruct Hl as (fuel'' & ? & ?). exists fuel''. split; [lia|done].
    - by rewrite <-!app_assoc. }
  destruct (filter_node (summary c)) eqn:Hf.
  - assert (index (l ++ c :: r) (length l) = Ok c) as ->
      by (unfold index; by rewrite list_lookup_middle).
    cbn [mbind outcome_bind].
    assert (0 < length (child_summaries c)) as Hlc.
    { clear -Hc. inversion Hc; subst; simpl; rewrite length_map; lia. }
    rewrite checked_sub_ok by lia. cbn [mbind outcome_bind].
    unfold push_entry. rewrite decide_True by (simpl; lia). cbn [mbind outcome_bind].
    specialize (Hfc (pos_from d (items_of l)) (dim_zero (S:=S) cx) (pos_from d (items_of l))
      (e1 :: st) fuel eq_refl ltac:(simpl; lia) ltac:(lia)).
    unfold bwd_result in Hfc.
    destruct (decide ((skip_back accepts (tree_items c)).1 = [])) as [Hmiss|Hhit].
    + rewrite Hmiss in Hfc. destruct Hfc as (fuel' & Hf' & ->). by apply Hrest.
    + unfold bwd_result.
      destruct (skip_back accepts (tree_items c)) as [[|a0 a] b] eqn:Hsk; cbn [fst snd] in *; [done|].
      destruct Hfc as (es & a' & x & Ha & -> & Hp). rewrite Ha in Hsk.
      rewrite (skip_back_app_hit _ _ _ _ _ _ Hsk). cbn [fst snd].
      destruct (items_of l ++ a' ++ [x]) eqn:Hn;
        [by apply (f_equal length) in Hn; rewrite !length_app in Hn; simpl in Hn; lia|].
      rewrite <-Hn. exists (es ++ [e1]), (items_of l ++ a'), x.
      rewrite <-!app_assoc, (pos_from_app cx d). split_and!; [done..|].
      rewrite app_nil_r in Hp.
      by apply (path_internal cx hh s _ l c r es d a' (x :: b)).
  - apply Hrest; [lia|].
    rewrite skip_back_all; [done|]. by eapply Hsound.
Qed.

Lemma bwd_fresh h n : wf_node h n → fresh_bwd h n.
Proof.
  revert h n. apply (wf_node_ind' cx).
  - intros items Hl d pos p st fuel Hd Hst Hfuel. simpl in Hfuel.
    pose proof (bwd_leaf_ok items [] (summary_of cx items) st d (length items - 1) pos p fuel true)
      as Hr. rewrite app_nil_r in Hr. simpl. rewrite length_map.
    specialize (Hr ltac:(split; [by destruct items; simpl in *; [lia|]|done]) Hd ltac:(lia)).
    unfold bwd_result in *. destruct (skip_back _ _).1; [|done].
    destruct Hr as (fuel' & ? & ?). exists fuel'. split; [lia|done].
  - intros h cts Hl Hwf IH d pos p st fuel Hd Hst Hfuel. rewrite node_fuel_internal in *.
    pose proof (bwd_at h (Datatypes.S h) (sum cx (map summary cts)) (map summary cts) cts [] d st p
      fuel (length cts - 1) pos true) as Hr. rewrite app_nil_r in Hr. simpl. rewrite length_map.
    specialize (Hr eq_refl Hwf IH Hst ltac:(lia) Hd
      ltac:(split; [by destruct cts; simpl in *; [lia|]|done])).
    unfold bwd_result in *. simpl. fold (items_of cts). destruct (skip_back _ _).1; [|done].
    destruct Hr as (fuel' & ? & ?). exists fuel'. split; [lia|done].
Qed.

(** From the end of the root. *)
Lemma bwd_from_end h n d pos p st fuel :
  wf_node h n → start_of st = d → length st + h < STACK_CAP → node_fuel n ≤ fuel →
  bwd_result n d (tree_items n) [] st fuel (node_fuel n)
    (bwd fuel (mkEntry n (length (child_summaries n)) pos :: st) p false).
Proof.
  intros Hn Hd Hst Hfuel. inversion Hn as [items Hl|h' cts Hl Hwf]; subst.
  - simpl in Hfuel.
    pose proof (bwd_leaf_ok items [] (summary_of cx items) st (start_of st) (length items) pos p fuel false
      eq_refl eq_refl ltac:(lia)) as Hr. rewrite app_nil_r in Hr. simpl. rewrite length_map.
    unfold bwd_result in *. destruct (skip_back _ _).1; [|done].
    destruct Hr as (fuel' & ? & ?). exists fuel'. split; [lia|done].
  - rewrite node_fuel_internal in *.
    pose proof (bwd_at h' (Datatypes.S h') (sum cx (map summary cts)) (map summary cts) cts []
      (start_of st) st p fuel (length cts) pos false) as Hr.
    rewrite app_nil_r in Hr. simpl. rewrite length_map.
    specialize (Hr eq_refl Hwf ltac:(eapply Forall_impl; [exact Hwf|]; intros; by apply bwd_fresh)
      Hst ltac:(lia) eq_refl eq_refl).
    unfold bwd_result in *. simpl. fold (items_of cts). destruct (skip_back _ _).1; [|done].
    destruct Hr as (fuel' & ? & ?). exists fuel'. split; [lia|done].
Qed.

(** From the item the stack leads to, to the last item before it that the filter accepts. *)
Lemma bwd_path h n es d pre post p st fuel :
  path n es d pre post → wf_node h n → start_of st = d → length st + h < STACK_CAP →
  node_fuel n ≤ fuel →
  bwd_result n d pre post st fuel (node_fuel n) (bwd fuel (es ++ st) p false).
Proof.
  intros Hp. revert h st fuel.
  induction Hp as [s items css i pos d Hi|hh s css l0 c r es d pre post Hp IH];
    intros h st fuel Hn Hd Hst Hfuel.
  - inversion Hn; subst. simpl in Hfuel.
    pose proof (bwd_leaf_ok (take i items) (drop i items) (sum cx (map (item_summary cx) items)) st
      (start_of st) i pos p fuel false) as Hr.
    rewrite take_drop, length_take in Hr.
    specialize (Hr ltac:(simpl; lia) eq_refl ltac:(lia)).
    unfold bwd_result in *. destruct (skip_back _ _).1; [|done].
    destruct Hr as (fuel' & ? & ?). exists fuel'. simpl. split; [lia|done].
  - inversion Hn as [|h' ? Hl Hwf]; subst.
    apply Forall_app in Hwf as Hwf'. destruct Hwf' as [Hwf0 Hwfc].
    inversion Hwfc as [|?? Hc Hr]; subst.
    destruct (path_items cx _ _ _ _ _ Hp) as [Hitems Hne].
    assert (node_fuel (Internal (Datatypes.S h') (sum cx (map summary (l0 ++ c :: r)))
      (map summary (l0 ++ c :: r)) (l0 ++ c :: r))
      = 2 + (children_fuel l0 + (1 + node_fuel c + children_fuel r))) as Hnf.
    { by rewrite node_fuel_internal, children_fuel_app. }
    rewrite Hnf in *. clear Hnf. set (n := Internal _ _ _ _). set (e := mkEntry n _ _).
    pose proof (IH h' (e :: st) fuel Hc eq_refl ltac:(simpl; lia) ltac:(lia)) as Hres.
    rewrite <-(app_assoc es). cbn [app]. unfold bwd_result in Hres |- *.
    destruct (decide ((skip_back accepts pre).1 = [])) as [Hmiss|Hhit].
    + rewrite Hmiss in Hres. destruct Hres as (fuel' & Hf & ->).
      rewrite skip_back_app_miss by done. pose proof (skip_back_miss _ _ Hmiss) as Hb.
      pose proof (bwd_at h' (Datatypes.S h') (sum cx (map summary (l0 ++ c :: r)))
        (map summary (l0 ++ c :: r)) l0 (c :: r) (start_of st) st (pos_from (start_of st) (items_of l0))
        fuel' (length l0) (pos_from (start_of st) (items_of l0)) false eq_refl Hwf0
        ltac:(eapply Forall_impl; [exact Hwf0|]; intros; by apply bwd_fresh)
        Hst ltac:(lia) eq_refl eq_refl) as Hres2.
      unfold bwd_result in Hres2. fold n in Hres2. rewrite items_of_cons, Hitems in Hres2.
      destruct (skip_back accepts (items_of l0)) as [[|a0 a] b]; cbn [fst snd] in *.
      * destruct Hres2 as (fuel'' & ? & ?). exists fuel''. split; [lia|done].
      * by rewrite <-!app_assoc in *.
    + destruct (skip_back accepts pre) as [[|a0 a] b] eqn:Hsk; cbn [fst snd] in *; [done|].
      destruct Hres as (es' & a' & x & Ha & -> & Hp'). rewrite Ha in Hsk.
      rewrite (skip_back_app_hit _ _ _ _ _ _ Hsk). cbn [fst snd].
      destruct (items_of l0 ++ a' ++ [x]) eqn:Hnl;
        [by apply (f_equal length) in Hnl; rewrite !length_app in Hnl; simpl in Hnl; lia|].
      rewrite <-Hnl. exists (es' ++ [e]), (items_of l0 ++ a'), x.
      rewrite <-!app_assoc, (pos_from_app cx (start_of st)). split_and!; [done..|].
      pose proof (path_internal cx (Datatypes.S h') (sum cx (map summary (l0 ++ c :: r)))
        (map summary (l0 ++ c :: r)) l0 c r es' (start_of st) a' (x :: b ++ post) Hp') as Hpi. cbn [app] in Hpi.
      rewrite <-app_assoc in Hpi. exact Hpi.
Qed.

End moves.

(** ** The two movements from any position *)

Section steps.
Context {C S T D : Type}.
Context `{!Summary C S, !Item C S T, !Dimension C S D} (cx : C).
Context `{!SummaryLaws cx, !DimensionLaws (S:=S) D cx}.
Implicit Types c : Cursor S T D.
Implicit Types pre post l : list T.

(** [ahead c pre post]: moving forward looks through [post]; [behind c pre post]: moving
    backward looks through [pre]. *)
Inductive ahead c : list T → list T → Prop :=
| ahead_item pre x post : at_item cx c pre (x :: post) → ahead c (pre ++ [x]) post
| ahead_past : past_items cx c → ahead c (tree_items (c_tree c)) []
| ahead_unseeked : unseeked cx c → ahead c [] (tree_items (c_tree c))
| ahead_before : before_items cx c → ahead c [] (tree_items (c_tree c)).

Inductive behind c : list T → list T → Prop :=
| behind_item pre post : at_item cx c pre post → behind c pre post
| behind_past : past_items cx c → behind c (tree_items (c_tree c)) []
| behind_unseeked : unseeked cx c → behind c (tree_items (c_tree c)) []
| behind_before : before_items cx c → behind c [] (tree_items (c_tree c)).

(** The position after moving backward. *)
Definition moved_back c pre post : Prop :=
  match last pre with
  | Some x => ∃ a, pre = a ++ [x] ∧ at_item cx c a (x :: post)
  | None => before_items cx c
  end.

Lemma fwd_result_seeked filter_node (tree : Node S T) pre post fuel cost lhs :
  tree_items tree = pre ++ post → cost < fuel →
  fwd_result cx filter_node tree false tree (dim_zero (S:=S) cx) pre post [] fuel cost lhs →
  let sp := skip (accepts cx filter_node) post in
  ∃ c', lhs = Ok c' ∧ c_tree c' = tree ∧ seeked cx c' (pre ++ sp.1) sp.2.
Proof.
  intros Htree Hfuel Hr sp. unfold fwd_result in Hr. fold sp in Hr.
  pose proof (skip_app_eq (accepts cx filter_node) post) as Hpost. fold sp in Hpost.
  destruct sp as [u [|x v]]; cbn [fst snd] in *.
  - destruct Hr as ([|fuel'] & ? & ->); [lia|]. simpl. eexists. split_and!; [done..|].
    rewrite app_nil_r in Hpost. subst u.
    right. simpl. split_and!; [|done..]. by rewrite <-Htree.
  - destruct Hr as (es & -> & Hp). eexists. split_and!; [done..|]. left.
    unfold at_item; simpl. by rewrite app_nil_r.
Qed.

Lemma search_forward_ok filter_node c pre post :
  filter_sound cx filter_node → walkable cx (c_tree c) → ahead c pre post →
  let sp := skip (accepts cx filter_node) post in
  ∃ c', search_forward cx filter_node c = Ok c' ∧ c_tree c' = c_tree c ∧
    seeked cx c' (pre ++ sp.1) sp.2.
Proof.
  intros Hsound [Hw Hh] Hc.
  assert (c_position c = dim_zero (S:=S) cx → c_stack c = [] → c_at_end c = is_empty (c_tree c) →
    let sp := skip (accepts cx filter_node) (tree_items (c_tree c)) in
    ∃ c', search_forward cx filter_node c = Ok c' ∧ c_tree c' = c_tree c ∧ seeked cx c' sp.1 sp.2)
    as Hstart.
  { intros Hp Hs He sp. unfold search_forward. rewrite Hs, He.
    destruct (wf_tree_inv cx _ Hw) as [Hn|[Hne Hn]].
    - subst sp. rewrite Hn in *. simpl. eexists. split_and!; [done..|]. right.
      split_and!; [done..| |done|done]. simpl. by rewrite Hp.
    - rewrite Hne. unfold push_entry. rewrite decide_True by (simpl; unfold STACK_CAP; lia).
      cbn [mbind outcome_bind]. rewrite Hp.
      apply (fwd_result_seeked filter_node (c_tree c) [] _ (1 + node_fuel (c_tree c))
        (node_fuel (c_tree c))); [done|lia|].
      by apply (fwd_fresh cx filter_node Hsound _ _ _ _ Hn); [simpl; lia|lia]. }
  destruct Hc as [pre x post (Hd & He & Hp & Hpath)|(Hd & He & Hs & Hp)|(Hd & Hs & Hp & He)
    |(Hd & He & Hs & Hp)]; [| |by apply Hstart..].
  - destruct (path_wf_tree cx _ _ _ _ _ Hpath Hw) as [Hne Hn].
    assert (search_forward cx filter_node c =
      search_forward_loop cx (1 + node_fuel (c_tree c)) filter_node c false) as ->.
    { unfold search_forward. apply path_stack_nonempty in Hpath. by destruct (c_stack c). }
    pose proof (fwd_path cx filter_node Hsound (c_tree c) false _ _ _ _ _ _ _ []
      (1 + node_fuel (c_tree c)) Hpath Hn) as Hr.
    destruct c as [tree st p ds ae]; simpl in *; subst. rewrite app_nil_r in Hr.
    apply (fwd_result_seeked filter_node tree (pre ++ [x]) post (1 + node_fuel tree)
      (node_fuel tree)); [|lia|apply Hr; simpl; lia].
    apply (path_items cx) in Hpath as [-> _]. by rewrite <-app_assoc.
  - unfold search_forward. rewrite Hs, He. simpl. eexists. split_and!; [done..|]. right.
    split_and!; try done. simpl. by rewrite app_nil_r.
Qed.

Lemma bwd_result_moved filter_node (tree : Node S T) ae pre post fuel cost lhs :
  is_empty tree = false → ae = false → cost < fuel →
  bwd_result cx filter_node tree ae tree (dim_zero (S:=S) cx) pre post [] fuel cost lhs →
  let sp := skip_back (accepts cx filter_node) pre in
  ∃ c', lhs = Ok c' ∧ c_tree c' = tree ∧ moved_back c' sp.1 (sp.2 ++ post).
Proof.
  intros Hne -> Hfuel Hr sp. unfold bwd_result in Hr. fold sp in Hr. unfold moved_back.
  destruct sp as [[|a0 a] b]; cbn [fst snd] in *.
  - destruct Hr as ([|fuel'] & ? & ->); [lia|]. simpl. eexists. split; [done|]. split; [done|].
    unfold before_items; simpl. by rewrite Hne.
  - destruct Hr as (es & a' & x & -> & -> & Hp). eexists. split_and!; [done..|].
    rewrite last_snoc. exists a'. split; [done|]. rewrite app_nil_r.
    by split_and!.
Qed.

Lemma search_backward_ok filter_node c pre post :
  filter_sound cx filter_node → walkable cx (c_tree c) → behind c pre post →
  let sp := skip_back (accepts cx filter_node) pre in
  ∃ c', search_backward cx filter_node c = Ok c' ∧ c_tree c' = c_tree c ∧
    moved_back c' sp.1 (sp.2 ++ post).
Proof.
  intros Hsound [Hw Hh] Hc.
  assert (c_stack c = [] → (if c_did_seek c then c_at_end c else true) = true →
    let sp := skip_back (accepts cx filter_node) (tree_items (c_tree c)) in
    ∃ c', search_backward cx filter_node c = Ok c' ∧ c_tree c' = c_tree c ∧
      moved_back c' sp.1 (sp.2 ++ [])) as Hend.
  { intros Hs He sp. unfold search_backward. rewrite He, Hs.
    destruct (wf_tree_inv cx _ Hw) as [Hn|[Hne Hn]].
    - subst sp. rewrite Hn in *. simpl. eexists. by split_and!.
    - rewrite Hne. unfold push_entry. rewrite decide_True by (simpl; unfold STACK_CAP; lia).
      cbn [mbind outcome_bind].
      apply (bwd_result_moved filter_node (c_tree c) false _ [] (1 + node_fuel (c_tree c))
        (node_fuel (c_tree c))); [done..|lia|].
      eapply (bwd_from_end cx filter_node Hsound); [done|done|simpl; lia|lia]. }
  destruct Hc as [pre post (Hd & He & Hp & Hpath)|(Hd & He & Hs & Hp)|(Hd & Hs & Hp & He)
    |(Hd & He & Hs & Hp)].
  - destruct (path_wf_tree cx _ _ _ _ _ Hpath Hw) as [Hne Hn].
    unfold search_backward. rewrite Hd, He.
    pose proof (bwd_path cx filter_node Hsound (c_tree c) false _ _ _ _ _ _ (pos_of cx pre) []
      (1 + node_fuel (c_tree c)) Hpath Hn eq_refl) as Hr.
    rewrite app_nil_r, <-Hp in Hr.
    apply (bwd_result_moved filter_node (c_tree c) false _ _ (1 + node_fuel (c_tree c))
      (node_fuel (c_tree c))); [done..|lia|apply Hr; simpl; lia].
  - apply Hend; [done|]. by rewrite Hd.
  - apply Hend; [done|]. by rewrite Hd.
  - simpl. destruct (is_empty (c_tree c)) eqn:Hemp.
    + destruct Hend as (c' & ? & ? & ?); [done|by rewrite Hd|].
      exists c'. split_and!; [done..|].
      destruct (wf_tree_inv cx _ Hw) as [Hn|[Hne Hn]]; [|congruence]. by rewrite Hn in *.
    + unfold search_backward. rewrite Hd, He. simpl. rewrite Hs. eexists.
      split_and!; [done..|]. unfold moved_back. simpl. by split_and!.
Qed.

(** ** [next] and [prev] *)

Lemma filter_true_sound : filter_sound (T:=T) cx (λ _, true).
Proof. done. Qed.

Lemma next_ok c pre post :
  walkable cx (c_tree c) → ahead c pre post →
  ∃ c', next cx c = Ok c' ∧ c_tree c' = c_tree c ∧ seeked cx c' pre post.
Proof.
  intros Hw Hc. destruct (search_forward_ok _ c _ _ filter_true_sound Hw Hc) as (c' & H1 & H2 & H3).
  exists c'. split_and!; [done..|]. destruct post; simpl in H3; by rewrite app_nil_r in H3.
Qed.

Lemma prev_ok c pre post :
  walkable cx (c_tree c) → behind c pre post →
  ∃ c', prev cx c = Ok c' ∧ c_tree c' = c_tree c ∧ moved_back c' pre post.
Proof.
  intros Hw Hc. destruct (search_backward_ok _ c _ _ filter_true_sound Hw Hc) as (c' & H1 & H2 & H3).
  exists c'. split_and!; [done..|].
  assert (skip_back (accepts cx (λ _, true)) pre = (pre, [])) as Hsb.
  { destruct pre as [|x pre] using rev_ind; [done|]. by rewrite skip_back_snoc. }
  by rewrite Hsb in H3.
Qed.

(** The cursor stays ahead of the same items after reaching one. *)
Lemma seeked_ahead c pre post :
  seeked cx c pre post →
  match post with
  | x :: post => ahead c (pre ++ [x]) post
  | [] => ahead c pre []
  end.
Proof.
  intros [Hc|(Hc & -> & ->)]; [|by constructor].
  destruct post; [|by constructor].
  destruct Hc as (_ & _ & _ & Hp). by apply (path_items cx) in Hp as [_ ?].
Qed.

End steps.
