(* ===== verification/CursorOps.v ===== *)
(** The public operations of cursors and iterators, over every well-formed tree: seeking,
    slicing, summing and iterating agree with the linear scan of the items. *)
From S2P Require Import Prelude SumTree SumTreeFacts Seek Cursor CursorFacts CursorMoves.

Section ops.
Context {C S T D Tg : Type}.
Context `{!Summary C S, !Item C S T, !Dimension C S D, !SeekTarget C D Tg} (cx : C).
Context `{!SummaryLaws cx, !DimensionLaws (S:=S) D cx}.
Context (target : Tg) (bias : Bias).
Implicit Types c : Cursor S T D.
Implicit Types pre post l : list T.

(** What every seek promises: it is possible forward, the items are sorted for the target. *)
Definition seek_pre c pre post : Prop :=
  walkable cx (c_tree c) ∧ seekable cx c pre post ∧
  seek_sorted cx target (pos_of cx (D:=D) pre) post ∧ seek_cmp cx target (pos_of cx (D:=D) pre) ≠ Lt.

(** Whether the seek found its target. *)
Definition seek_found pre post : bool :=
  bool_decide (seek_cmp cx target (seek_end (D:=D) cx bias pre post) = Eq).

Lemma reset_unseeked c : unseeked cx (reset cx c) ∧ c_tree (reset cx c) = c_tree c.
Proof. done. Qed.

Lemma new_unseeked (tree : Node S T) : unseeked (D:=D) cx (cursor_new cx tree).
Proof. done. Qed.

Lemma unseeked_pre c :
  walkable cx (c_tree c) → unseeked cx c →
  seek_sorted cx target (dim_zero (S:=S) cx : D) (tree_items (c_tree c)) →
  seek_cmp cx target (dim_zero (S:=S) cx : D) ≠ Lt → seek_pre c [] (tree_items (c_tree c)).
Proof. intros. split_and!; try done. by right. Qed.

Lemma seek_forward_ok c pre post :
  seek_pre c pre post →
  let sc := scan cx target bias (pos_of cx pre : D) post in
  ∃ c', seek_forward cx target bias c = Ok (c', seek_found (pre ++ sc.1) sc.2) ∧
    c_tree c' = c_tree c ∧ seeked cx c' (pre ++ sc.1) sc.2.
Proof.
  intros (Hw & Hc & Hs & Hlt). pose proof (unit_aggregate_spec (T:=T) cx).
  destruct (seek_internal_ok (SeekAggregate0:=unit_aggregate) cx _ _ target bias c pre post () []
    Hw Hc Hs Hlt I) as (c' & [] & Hrun & Ht & Hc' & _).
  exists c'. split_and!; [|done..]. unfold seek_forward. by rewrite Hrun.
Qed.

Lemma seek_ok c :
  walkable cx (c_tree c) →
  seek_sorted cx target (dim_zero (S:=S) cx : D) (tree_items (c_tree c)) →
  seek_cmp cx target (dim_zero (S:=S) cx : D) ≠ Lt →
  let sc := scan cx target bias (dim_zero (S:=S) cx : D) (tree_items (c_tree c)) in
  ∃ c', seek cx target bias c = Ok (c', seek_found sc.1 sc.2) ∧
    c_tree c' = c_tree c ∧ seeked cx c' sc.1 sc.2.
Proof.
  intros Hw Hs Hlt. apply (seek_forward_ok (reset cx c) [] (tree_items (c_tree c))).
  by apply (unseeked_pre (reset cx c)).
Qed.

Lemma slice_ok c pre post :
  seek_pre c pre post →
  let sc := scan cx target bias (pos_of cx pre : D) post in
  ∃ c' n, slice cx target bias c = Ok (c', n) ∧ wf_tree cx n ∧ tree_items n = sc.1 ∧
    c_tree c' = c_tree c ∧ seeked cx c' (pre ++ sc.1) sc.2.
Proof.
  intros (Hw & Hc & Hs & Hlt). pose proof (slice_aggregate_spec (T:=T) cx).
  destruct (seek_internal_ok (SeekAggregate0:=slice_aggregate cx) cx _ _ target bias c pre post
    (mkSlice (new cx) [] [] (zero cx)) [] Hw Hc Hs Hlt) as (c' & a & Hrun & Ht & Hc' & (? & ? & _)).
  { split_and!; [apply wf_new|done..]. }
  exists c', (sl_tree a). split_and!; [|done..]. unfold slice. by rewrite Hrun.
Qed.

Lemma cursor_summary_ok `{!Dimension C S Out, !DimensionLaws (S:=S) Out cx} c pre post :
  seek_pre c pre post →
  let sc := scan cx target bias (pos_of cx pre : D) post in
  ∃ c', cursor_summary cx target bias c = Ok (c', pos_of cx sc.1 : Out) ∧
    c_tree c' = c_tree c ∧ seeked cx c' (pre ++ sc.1) sc.2.
Proof.
  intros (Hw & Hc & Hs & Hlt). pose proof (summary_aggregate_spec (T:=T) (D:=Out) cx).
  destruct (seek_internal_ok (SeekAggregate0:=summary_aggregate (D:=Out) cx) cx _ _ target bias c
    pre post (dim_zero (S:=S) cx) [] Hw Hc Hs Hlt eq_refl) as (c' & a & Hrun & Ht & Hc' & Ha).
  exists c'. split_and!; [|done..]. unfold cursor_summary. rewrite Hrun. simpl. by rewrite Ha.
Qed.

End ops.

Section iteration.
Context {C S T D : Type}.
Context `{!Summary C S, !Item C S T, !Dimension C S D} (cx : C).
Context `{!SummaryLaws cx, !DimensionLaws (S:=S) D cx}.
Implicit Types c : Cursor S T D.
Implicit Types pre post l : list T.

Lemma scan_end bias (d : D) l : scan cx mkEnd bias d l = (l, []).
Proof. revert d. induction l as [|x l IH]; intros d; simpl; [done|]. by rewrite IH. Qed.

Lemma suffix_ok c pre post :
  walkable cx (c_tree c) → seekable cx c pre post →
  ∃ c' n, suffix cx c = Ok (c', n) ∧ wf_tree cx n ∧ tree_items n = post ∧
    c_tree c' = c_tree c ∧ past_items cx c'.
Proof.
  intros Hw Hc. destruct (slice_ok cx mkEnd Right c pre post) as (c' & n & ? & ? & Ht & ? & Hc').
  { split; [done|]. split; [done|]. split; [by intros ????|done]. }
  rewrite scan_end in Ht, Hc'. simpl in Ht, Hc'. exists c', n. split_and!; try done.
  destruct Hc' as [(_ & _ & _ & Hp)|[? _]]; [|done]. by apply (path_items cx) in Hp as [_ ?].
Qed.

(** Draining the cursor yields the items from its position on. *)
Lemma iterate_seeked c pre post :
  walkable cx (c_tree c) → seeked cx c pre post →
  ∃ c', iterate cx c = Ok (c', head post) ∧ c_tree c' = c_tree c ∧
    seeked cx c' (pre ++ take 1 post) (tail post).
Proof.
  intros Hw Hc. unfold iterate.
  assert (c_did_seek c = true) as -> by by destruct Hc as [(? & _)|[(? & _) _]].
  cbn [mbind outcome_bind]. rewrite (item_seeked cx _ _ _ Hc) by apply Hw.
  cbn [mbind outcome_bind]. pose proof (seeked_ahead cx c pre post Hc) as Hah.
  destruct post as [|x post]; simpl.
  - exists c. rewrite app_nil_r. done.
  - destruct (next_ok cx c _ _ Hw Hah) as (c' & -> & ? & ?). simpl. eauto.
Qed.

Lemma iterate_all_ok fuel c pre post acc :
  walkable cx (c_tree c) → seeked cx c pre post → length post < fuel →
  ∃ c', iterate_all cx fuel c acc = Ok (c', acc ++ post) ∧ c_tree c' = c_tree c ∧ past_items cx c'.
Proof.
  revert c pre post acc. induction fuel as [|fuel IH]; intros c pre post acc Hw Hc Hf; [lia|].
  simpl. destruct (iterate_seeked c pre post Hw Hc) as (c' & -> & Ht & Hc'). simpl.
  destruct post as [|x post]; simpl in *.
  - exists c'. rewrite !app_nil_r in *. split_and!; try done.
    destruct Hc' as [(_ & _ & _ & Hp)|[? _]]; [|done]. by apply (path_items cx) in Hp as [_ ?].
  - rewrite <-Ht in Hw. destruct (IH c' _ post (acc ++ [x]) Hw Hc') as (c2 & -> & ? & ?); [lia|].
    exists c2. rewrite <-app_assoc. split_and!; [done|congruence|done].
Qed.

Lemma iterate_all_new fuel (tree : Node S T) acc :
  walkable cx tree → length (tree_items tree) < fuel →
  ∃ c', iterate_all cx fuel (cursor_new (D:=D) cx tree) acc = Ok (c', acc ++ tree_items tree) ∧
    past_items cx c'.
Proof.
  intros Hw Hf. destruct fuel as [|fuel]; [lia|].
  destruct (next_ok cx (cursor_new cx tree) [] (tree_items tree) Hw) as (c1 & Hn & Ht & Hc1).
  { by constructor. }
  destruct (iterate_all_ok (Datatypes.S fuel) c1 [] (tree_items tree) acc) as (c2 & H2 & _ & H2');
    [by rewrite Ht|done|done|].
  exists c2. split; [|done]. rewrite <-H2. simpl. unfold iterate at 1.
  change (c_did_seek (cursor_new cx tree)) with false. cbv iota. rewrite Hn.
  cbn [mbind outcome_bind]. unfold iterate at 1.
  by assert (c_did_seek c1 = true) as -> by by destruct Hc1 as [(? & _)|[(? & _) _]].
Qed.

(** The filtered cursor visits exactly the items its filter accepts, in order. *)
Lemma filter_skip_sp (p : T → bool) l :
  filter p l = match skip p l with (_, x :: b) => x :: filter p b | (_, []) => [] end.
Proof.
  induction l as [|x l IH]; [done|]. simpl. rewrite filter_cons.
  case_decide as Hx; [by apply Is_true_true in Hx as ->|].
  apply Is_true_false in Hx as ->. rewrite IH. by destruct (skip p l) as [? []].
Qed.

Lemma filter_iterate_all_ok filter_node fuel c pre post acc :
  filter_sound cx filter_node → walkable cx (c_tree c) → seeked cx c pre post →
  match post with x :: _ => accepts cx filter_node x = true | [] => True end →
  length post < fuel →
  ∃ c', filter_iterate_all cx fuel (mkFilterCursor c filter_node) acc =
    Ok (mkFilterCursor c' filter_node, acc ++ filter (accepts cx filter_node) post).
Proof.
  intros Hs. revert c pre post acc.
  induction fuel as [|fuel IH]; intros c pre post acc Hw Hc Hacc Hf; [lia|].
  simpl. unfold filter_iterate, filter_item. cbn [fc_cursor].
  assert (c_did_seek c = true) as -> by by destruct Hc as [(? & _)|[(? & _) _]].
  cbn [mbind outcome_bind fc_cursor]. rewrite (item_seeked cx _ _ _ Hc) by apply Hw.
  cbn [mbind outcome_bind]. pose proof (seeked_ahead cx c pre post Hc) as Hah.
  destruct post as [|x post]; simpl.
  - exists c. by rewrite app_nil_r.
  - unfold filter_next. cbn [fc_cursor fc_filter_node].
    destruct (search_forward_ok cx filter_node c _ _ Hs Hw Hah) as (c' & -> & Ht & Hc').
    cbn [mbind outcome_bind].
    rewrite filter_cons, decide_True, (filter_skip_sp _ post) by by rewrite Hacc.
    pose proof (skip_app_eq (accepts cx filter_node) post) as Hlen.
    apply (f_equal length) in Hlen. rewrite length_app in Hlen.
    destruct (skip (accepts cx filter_node) post) as [u v] eqn:Hsk. cbn [fst snd] in *.
    rewrite <-Ht in Hw.
    destruct (IH c' _ v (acc ++ [x]) Hw Hc') as (c2 & ->).
    + destruct v; [done|]. by apply skip_hit_true in Hsk.
    + simpl in Hf. lia.
    + exists c2. rewrite <-app_assoc. simpl. destruct v as [|y v]; [done|].
      by rewrite filter_cons, decide_True by by rewrite (skip_hit_true _ _ _ _ _ Hsk).
Qed.

Lemma filter_iterate_all_new filter_node fuel (tree : Node S T) :
  filter_sound cx filter_node → walkable cx tree → length (tree_items tree) < fuel →
  ∃ f, filter_iterate_all cx fuel (filter_new (D:=D) cx tree filter_node) [] =
    Ok (f, filter (accepts cx filter_node) (tree_items tree)).
Proof.
  intros Hs Hw Hf. destruct fuel as [|fuel]; [lia|].
  destruct (search_forward_ok cx filter_node (cursor_new (D:=D) cx tree) [] (tree_items tree) Hs Hw)
    as (c1 & Hn & Ht & Hc1). { by constructor. }
  set (l := tree_items tree) in *. simpl in Hc1.
  pose proof (skip_app_eq (accepts cx filter_node) l) as Hlen.
  apply (f_equal length) in Hlen. rewrite length_app in Hlen.
  rewrite (filter_skip_sp _ l).
  destruct (skip (accepts cx filter_node) l) as [u v] eqn:Hsk. cbn [fst snd] in *.
  destruct (filter_iterate_all_ok filter_node (Datatypes.S fuel) c1 u v []) as (c2 & H2);
    [done|by rewrite Ht|done|destruct v; [done|by apply skip_hit_true in Hsk]|lia|].
  exists (mkFilterCursor c2 filter_node).
  transitivity (filter_iterate_all cx (Datatypes.S fuel) (mkFilterCursor c1 filter_node) []).
  - simpl. unfold filter_iterate at 1. cbn [filter_new fc_cursor].
    change (c_did_seek (cursor_new cx tree)) with false. cbv iota.
    assert (filter_next cx (filter_new (D:=D) cx tree filter_node) = Ok (mkFilterCursor c1 filter_node))
      as -> by (unfold filter_next; simpl; by rewrite Hn).
    cbn [mbind outcome_bind]. unfold filter_iterate at 1. cbn [fc_cursor].
    by assert (c_did_seek c1 = true) as -> by by destruct Hc1 as [(? & _)|[(? & _) _]].
  - rewrite H2. f_equal. f_equal. simpl. destruct v as [|y v]; [done|].
    by rewrite filter_cons, decide_True by by rewrite (skip_hit_true _ _ _ _ _ Hsk).
Qed.

End iteration.

Section items.
Context {C S T : Type}.
Context `{!Summary C S, !Item C S T} (cx : C) `{!SummaryLaws cx}.
Implicit Types n : Node S T.
Implicit Types l : list T.

#[local] Instance unit_laws : DimensionLaws (S:=S) () cx.
Proof. by split. Qed.

Lemma sum_list_ge_length {A} (f : A → nat) (g : A → list T) (l : list A) :
  Forall (λ x, length (g x) ≤ f x) l →
  length (concat (map g l)) ≤ sum_list (map f l).
Proof. induction 1; simpl; [lia|]. rewrite length_app. lia. Qed.

(** The fuel of the loops exceeds the number of items. *)
Lemma items_lt_fuel n : wf_tree cx n → length (tree_items n) < node_fuel n.
Proof.
  intros [->|[h Hn]]; [simpl; lia|]. revert h n Hn. apply (wf_node_ind' cx); simpl; [lia|].
  intros h cts _ _ IH.
  enough (length (concat (map tree_items cts)) ≤ sum_list (map (λ c, Datatypes.S (node_fuel c)) cts)) by lia.
  apply sum_list_ge_length. eapply Forall_impl; [exact IH|]. intros c Hc. simpl in *. lia.
Qed.

Lemma items_loop_ok fuel (c : Cursor S T ()) pre post acc :
  walkable cx (c_tree c) → seeked cx c pre post → length post < fuel →
  items_loop cx fuel c acc = Ok (acc ++ post).
Proof.
  revert c pre post acc. induction fuel as [|fuel IH]; intros c pre post acc Hw Hc Hf; [lia|].
  simpl. rewrite (item_seeked cx _ _ _ Hc) by apply Hw. simpl.
  pose proof (seeked_ahead cx c pre post Hc) as Hah.
  destruct post as [|x post]; simpl; [by rewrite app_nil_r|].
  destruct (next_ok cx c _ _ Hw Hah) as (c' & -> & Ht & Hc'). simpl.
  rewrite <-Ht in Hw. simpl in Hf. rewrite (IH c' _ post _ Hw Hc'), <-app_assoc by lia. done.
Qed.

Lemma items_ok (tree : Node S T) : walkable cx tree → items cx tree = Ok (tree_items tree).
Proof.
  intros Hw. unfold items.
  destruct (next_ok cx (cursor_new (D:=()) cx tree) [] (tree_items tree) Hw) as (c & -> & Ht & Hc).
  { by constructor. }
  cbn [mbind outcome_bind]. apply (items_loop_ok _ c [] (tree_items tree) []); [by rewrite Ht|done|].
  pose proof (items_lt_fuel tree ltac:(apply Hw)). lia.
Qed.

(** ** [Iter] is the cursor without positions *)

(** The entries of a stack are subtrees of a well-formed tree. *)
Definition wf_stack (st : list (StackEntry S T ())) : Prop :=
  Forall (λ e, wf_tree cx (se_tree e)) st.

Definition top_item (st : list (StackEntry S T ())) : option T :=
  match st with
  | e :: _ => match se_tree e with Leaf _ items _ => items !! se_index e | _ => None end
  | [] => None
  end.

Lemma skip_filtered_true (css : list S) i (ep p : ()) :
  skip_filtered cx (λ _, true) css i ep p = (i, ep, p).
Proof. by destruct css. Qed.

Lemma iter_loop_forward fuel st (descend : bool) t ae p c' :
  wf_stack st →
  search_forward_loop cx fuel (λ _, true) (mkCursor t st p true ae) descend = Ok c' →
  iter_loop fuel st descend = Ok (c_stack c', top_item (c_stack c')).
Proof.
  revert st descend ae p. induction fuel as [|fuel IH]; intros st descend ae p Hst; [done|].
  destruct st as [|[n i []] st]; [by intros [= <-]|].
  apply Forall_cons in Hst as [Hn Hst]. cbn [se_tree] in Hn.
  cbn [search_forward_loop iter_loop c_stack se_tree se_index se_position c_position c_tree
    c_did_seek c_at_end].
  destruct n as [hh s css cts|s items css].
  - assert (∀ ep : (), (if descend then (i, ()) else (i + 1, ep)) = (if descend then i else i + 1, ()))
      as -> by by intros []; destruct descend.
    rewrite skip_filtered_true. set (j := if descend then i else i + 1).
    destruct (cts !! j) as [c|] eqn:Hj.
    + unfold push_entry. case_decide; [|done]. cbn [mbind outcome_bind].
      destruct p. apply IH. destruct Hn as [Hn|[h Hn]]; [done|].
      inversion Hn as [|h' ? Hl Hwf]; subst. apply Forall_cons. split.
      * right. exists h'. by eapply Forall_lookup_1.
      * apply Forall_cons. split; [right; by exists (Datatypes.S h')|done].
    + by apply IH.
  - set (j := if descend then i else i + 1).
    assert (length css = length items) as Hlen.
    { destruct Hn as [[= -> -> ->]|[h Hn]]; [done|]. inversion Hn; subst. by rewrite length_map. }
    assert (∀ q : (), (if descend then Ok (i, (), q) else
        s ← index css i; Ok (i + 1, dim_add cx () s, dim_add cx q s)) =
      if decide (descend = true ∨ i < length css) then Ok (j, (), ()) else Panic) as ->.
    { intros []. subst j. destruct descend; [by rewrite decide_True by auto|].
      unfold index. destruct (css !! i) eqn:E.
      - apply lookup_lt_Some in E. by rewrite decide_True by auto.
      - apply lookup_ge_None in E. rewrite decide_False; [done|]. intros [?|?]; [done|lia]. }
    case_decide as Hd; [|done]. cbn [mbind outcome_bind]. rewrite skip_filtered_true, Hlen.
    case_decide as Hj.
    + intros [= <-]. simpl. destruct (items !! j) eqn:E; [done|].
      apply lookup_ge_None in E. lia.
    + rewrite (proj2 (lookup_ge_None items j)) by lia. by apply IH.
Qed.

Lemma path_wf_stack h n st d pre post : path cx n st d pre post → wf_node cx h n → wf_stack st.
Proof.
  intros Hp. revert h. induction Hp as [|hh s css l c r es d pre post Hp IH]; intros h Hn.
  - apply Forall_singleton. by eapply wf_tree_node.
  - apply Forall_app. split; [|apply Forall_singleton; by eapply wf_tree_node].
    inversion Hn as [|h' ? Hl Hwf]; subst. apply Forall_app in Hwf as [_ Hwf].
    apply Forall_cons in Hwf as [Hc _]. by eapply IH.
Qed.

(** The position of an iterator: at the first item of [post], or at the end. *)
Definition iter_at (it : Iter) pre post : Prop :=
  path cx (it_tree it) (it_stack it) () pre post ∨ (it_stack it = [] ∧ post = []).

Lemma iter_at_seeked (c : Cursor S T ()) pre post :
  wf_tree cx (c_tree c) → seeked cx c pre post →
  iter_at (mkIter (c_tree c) (c_stack c)) pre post ∧ top_item (c_stack c) = head post.
Proof.
  intros Hw [Hc|((_ & _ & Hs & _) & _ & ->)]; [|by split; [right|rewrite Hs]].
  destruct (at_item_top cx _ _ _ Hc Hw) as (x & post' & its & i & p & es & -> & Hx & _ & Hs).
  split; [left; by destruct Hc as (_ & _ & _ & Hp)|]. by rewrite Hs.
Qed.

Lemma iter_next_from (tree : Node S T) st pre x post :
  walkable cx tree → path cx tree st () pre (x :: post) →
  ∃ it, iter_next (mkIter tree st) = Ok (it, head post) ∧ it_tree it = tree ∧
    iter_at it (pre ++ [x]) post.
Proof.
  intros Hw Hp. destruct (path_wf_tree cx _ _ _ _ _ Hp (proj1 Hw)) as [He Hn].
  set (c := mkCursor tree st () true false).
  destruct (next_ok cx c (pre ++ [x]) post Hw) as (c' & Hrun & Ht & Hc').
  { constructor. split_and!; [done|done|by destruct (pos_of _ _)|done]. }
  destruct (iter_at_seeked c' (pre ++ [x]) post) as [Hat Htop]; [by rewrite Ht; apply Hw|done|].
  rewrite Ht in Hat. eexists. split; [|by split; [|exact Hat]].
  unfold iter_next. cbn [it_stack it_tree].
  pose proof (path_stack_nonempty cx _ _ _ _ _ Hp) as Hne.
  destruct st as [|e st]; [done|]. cbn [mbind outcome_bind]. erewrite iter_loop_forward; [|by eapply path_wf_stack|].
  - cbn [mbind outcome_bind]. by rewrite Htop.
  - unfold next, search_forward in Hrun. exact Hrun.
Qed.

Lemma iter_next_start (tree : Node S T) :
  walkable cx tree →
  ∃ it, iter_next (iter tree) = Ok (it, head (tree_items tree)) ∧ it_tree it = tree ∧
    iter_at it [] (tree_items tree).
Proof.
  intros Hw. destruct (wf_tree_inv cx _ (proj1 Hw)) as [->|[He Hn]].
  { simpl. exists (mkIter (new cx) []). split_and!; [done..|by right]. }
  set (c := cursor_new (D:=()) cx tree).
  destruct (next_ok cx c [] (tree_items tree) Hw) as (c' & Hrun & Ht & Hc').
  { by apply (ahead_unseeked cx c). }
  destruct (iter_at_seeked c' [] (tree_items tree)) as [Hat Htop]; [by rewrite Ht; apply Hw|done|].
  rewrite Ht in Hat. eexists. split; [|by split; [|exact Hat]].
  unfold iter_next. cbn [it_stack it_tree iter].
  assert (search_forward_loop cx (1 + node_fuel tree) (λ _, true)
    (mkCursor tree [mkEntry tree 0 ()] () true false) true = Ok c') as Hrun'.
  { rewrite <-Hrun. unfold next, search_forward, c, cursor_new. simpl c_stack. simpl c_at_end.
    by rewrite He. }
  assert (push_entry (mkEntry tree 0 ()) [] = Ok [mkEntry tree 0 ()]) as -> by done.
  cbn [mbind outcome_bind].
  erewrite iter_loop_forward; [|apply Forall_singleton; apply Hw|exact Hrun'].
  cbn [mbind outcome_bind]. by rewrite Htop.
Qed.

Lemma iter_all_at fuel (it : Iter) pre x post acc :
  walkable cx (it_tree it) → iter_at it pre (x :: post) → length post < fuel →
  iter_all fuel it acc = Ok (acc ++ post).
Proof.
  revert it pre x post acc. induction fuel as [|fuel IH]; intros it pre x post acc Hw Hat Hf; [lia|].
  simpl. destruct Hat as [Hp|[_ ?]]; [|done]. destruct it as [tree st]; simpl in *.
  destruct (iter_next_from tree st pre x post Hw Hp) as (it' & -> & Ht & Hat'). simpl.
  destruct post as [|y post]; simpl in *; [by rewrite app_nil_r|].
  rewrite (IH it' (pre ++ [x]) y post), <-app_assoc; [done|by rewrite Ht|done|lia].
Qed.

Lemma iter_all_ok fuel (tree : Node S T) :
  walkable cx tree → length (tree_items tree) < fuel →
  iter_all fuel (iter tree) [] = Ok (tree_items tree).
Proof.
  intros Hw Hf. destruct fuel as [|fuel]; [lia|]. simpl.
  destruct (iter_next_start tree Hw) as (it & -> & Ht & Hat). simpl.
  destruct (tree_items tree) as [|x l] eqn:E; simpl in *; [done|].
  rewrite (iter_all_at fuel it [] x l [x]); [done|by rewrite Ht|done|lia].
Qed.

End items.
