(* ===== verification/Keyed.v ===== *)
(** Trees of keyed items ([impl<T: KeyedItem> SumTree<T>] in [sum_tree.rs]): insertion,
    removal, batched edits and lookup by key, refining the operations on a list of items
    sorted by key. *)
From S2P Require Import Prelude SumTree SumTreeFacts Seek Cursor CursorFacts CursorMoves CursorOps.

(** ** Keys *)

(** [trait Ord]. *)
Class Ord (K : Type) := ord_cmp : K → K → comparison.
#[global] Hint Mode Ord ! : typeclass_instances.

(** What [Ord] documents: a total order that agrees with equality. *)
Class OrdLaws (K : Type) `{!Ord K} : Prop := {
  ord_eq (a b : K) : ord_cmp a b = Eq ↔ a = b;
  ord_antisym (a b : K) : ord_cmp b a = CompOpp (ord_cmp a b);
  ord_lt_trans (a b c : K) : ord_cmp a b = Lt → ord_cmp b c = Lt → ord_cmp a c = Lt;
}.

#[export] Instance nat_ord : Ord nat := Nat.compare.

(** The derived order of [Option]: [None] first. *)
#[export] Instance option_ord {K} `{!Ord K} : Ord (option K) := λ a b,
  match a, b with
  | None, None => Eq
  | None, Some _ => Lt
  | Some _, None => Gt
  | Some a, Some b => ord_cmp a b
  end.

(** [impl SeekTarget<S, D> for D where D: Ord]. *)
#[export] Instance ord_seek_target {C K} `{!Ord K} : SeekTarget C K K := λ _ target location,
  ord_cmp target location.

(** [trait KeyedItem]. *)
Class KeyedItem (T K : Type) := key : T → K.
#[global] Hint Mode KeyedItem ! - : typeclass_instances.

(** [enum Edit]. *)
Inductive Edit (T K : Type) : Type :=
| Insert (item : T)
| Remove (k : K).
Arguments Insert {T K}.
Arguments Remove {T K}.

(** ** The operations *)

Section keyed.
Context {C S T K : Type}.
Context `{!Summary C S, !Item C S T, !Dimension C S K, !Ord K, !EqDecision K, !KeyedItem T K}.
Context (cx : C).
Implicit Types tree : Node S T.

Definition insert_or_replace (self : Node S T) (item : T) : outcome (Node S T * option T) :=
  '(cursor, new_tree) ← slice (D:=K) cx (key item : K) Left (cursor_new cx self);
  cursor_item ← Cursor.item cursor;
  '(cursor, replaced) ←
    match cursor_item with
    | Some cursor_item =>
        if decide (key cursor_item = (key item : K))
        then c ← next cx cursor; Ok (c, Some cursor_item)
        else Ok (cursor, None)
    | None => Ok (cursor, None)
    end;
  new_tree ← push cx new_tree item;
  '(_, rest) ← suffix cx cursor;
  new_tree ← append cx new_tree rest;
  Ok (new_tree, replaced).

(** [SumTree::remove]. *)
Definition tree_remove (self : Node S T) (k : K) : outcome (Node S T * option T) :=
  '(cursor, new_tree) ← slice (D:=K) (Tg:=K) cx k Left (cursor_new cx self);
  cursor_item ← item cursor;
  '(cursor, removed) ←
    match cursor_item with
    | Some item =>
        if decide (key item = k) then c ← next cx cursor; Ok (c, Some item)
        else Ok (cursor, None)
    | None => Ok (cursor, None)
    end;
  '(_, rest) ← suffix cx cursor;
  new_tree ← append cx new_tree rest;
  Ok (new_tree, removed).

(** [Edit::key]. *)
Definition edit_key (e : Edit T K) : K :=
  match e with Insert item => key item | Remove k => k end.

(** One round of the loop of [edit]: the cursor, the new tree, the buffered items and the
    removed items. *)
Definition edit_step (st : Cursor S T K * Node S T * list T * list T) (e : Edit T K) :
    outcome (Cursor S T K * Node S T * list T * list T) :=
  let '(cursor, new_tree, buffered_items, removed) := st in
  let new_key := edit_key e in
  old_item ← item cursor;
  '(cursor, new_tree, buffered_items, old_item) ←
    match old_item with
    | Some old =>
        if decide (ord_cmp (key old) new_key = Lt) then
          new_tree ← extend cx new_tree buffered_items;
          '(cursor, sliced) ← slice (Tg:=K) cx new_key Left cursor;
          new_tree ← append cx new_tree sliced;
          old_item ← item cursor;
          Ok (cursor, new_tree, [], old_item)
        else Ok (cursor, new_tree, buffered_items, Some old)
    | None => Ok (cursor, new_tree, buffered_items, None)
    end;
  '(cursor, removed) ←
    match old_item with
    | Some old =>
        if decide (key old = new_key) then c ← next cx cursor; Ok (c, removed ++ [old])
        else Ok (cursor, removed)
    | None => Ok (cursor, removed)
    end;
  Ok (cursor, new_tree,
      match e with Insert item => buffered_items ++ [item] | Remove _ => buffered_items end,
      removed).

(** [sort_edits] is the standard library's unstable sort by key. *)
Definition edit (sort_edits : list (Edit T K) → list (Edit T K)) (self : Node S T)
    (edits : list (Edit T K)) : outcome (Node S T * list T) :=
  match edits with
  | [] => Ok (self, [])
  | _ =>
      let edits := sort_edits edits in
      '(cursor, _) ← seek (D:=K) (Tg:=K) cx (dim_zero (S:=S) cx) Left (cursor_new cx self);
      '(cursor, new_tree, buffered_items, removed) ←
        foldM edit_step (cursor, new cx, [], []) edits;
      new_tree ← extend cx new_tree buffered_items;
      '(_, rest) ← suffix cx cursor;
      new_tree ← append cx new_tree rest;
      Ok (new_tree, removed)
  end.

(** [SumTree::get]. *)
Definition tree_get (self : Node S T) (k : K) : option T := (find_exact (D:=K) (Tg:=K) cx self k Left).2.

(** ** The specification: lists of items in the order of their keys *)

(** [passed k bias x]: a seek to [k] passes over [x]. *)
Definition passed (k : K) (bias : Bias) (x : T) : bool :=
  seek_past bias (ord_cmp k (key x)).

Definition keys_lt (x y : T) : Prop := ord_cmp (key x : K) (key y) = Lt.
Definition sorted_keys (l : list T) : Prop := StronglySorted keys_lt l.

Definition klookup (k : K) (l : list T) : option T := head (filter (λ x, key x = k) l).
Definition kinsert (x : T) (l : list T) : list T :=
  filter (λ y, ord_cmp (key y : K) (key x) = Lt) l ++ [x]
    ++ filter (λ y, ord_cmp (key x : K) (key y) = Lt) l.
Definition kremove (k : K) (l : list T) : list T := filter (λ x, key x ≠ k) l.

(** One edit applied to a sorted list, with the item it takes out. *)
Definition kedit (l : list T) (e : Edit T K) : list T :=
  match e with Insert x => kinsert x l | Remove k => kremove k l end.

(** How a position in the key's dimension relates to the keys: an item moves a position that
    is not past it to its own key. *)
Class KeyedLaws : Prop := {
  key_end (d : K) (x : T) : ord_cmp d (key x) ≠ Gt → dim_add cx d (item_summary cx x) = key x;
  key_zero (x : T) : ord_cmp (dim_zero (S:=S) cx : K) (key x) = Lt;
}.

End keyed.
Arguments KeyedLaws {C S T} K {_ _ _ _} cx.
Arguments passed {T K _ _}.
Arguments sorted_keys {T} K {_ _}.
