(* ===== verification/KeyedFacts.v ===== *)
(** The keyed operations refine the operations on lists sorted by key. *)
From S2P Require Import Prelude SumTree SumTreeFacts Seek Cursor CursorFacts CursorMoves CursorOps Keyed.

Section ord_facts.
Context {K : Type} `{!Ord K, !OrdLaws K}.
Implicit Types a b c : K.

Lemma ord_refl a : ord_cmp a a = Eq.
Proof. by apply ord_eq. Qed.

Lemma ord_gt a b : ord_cmp a b = Gt ↔ ord_cmp b a = Lt.
Proof. rewrite (ord_antisym b a). by destruct (ord_cmp b a). Qed.

Lemma ord_le_lt_trans a b c : ord_cmp a b ≠ Gt → ord_cmp b c = Lt → ord_cmp a c = Lt.
Proof.
  intros Hab Hbc. destruct (ord_cmp a b) eqn:E; [|by eapply ord_lt_trans|done].
  by apply ord_eq in E as ->.
Qed.

Lemma ord_lt_le_trans a b c : ord_cmp a b = Lt → ord_cmp b c ≠ Gt → ord_cmp a c = Lt.
Proof.
  intros Hab Hbc. destruct (ord_cmp b c) eqn:E; [|by eapply ord_lt_trans|done].
  by apply ord_eq in E as <-.
Qed.

Lemma ord_le_trans a b c : ord_cmp a b ≠ Gt → ord_cmp b c ≠ Gt → ord_cmp a c ≠ Gt.
Proof.
  intros Hab Hbc. destruct (ord_cmp a b) eqn:E; [by apply ord_eq in E as ->| |done].
  by rewrite (ord_lt_le_trans _ _ _ E Hbc).
Qed.

Lemma ord_lt_irrefl a : ord_cmp a a ≠ Lt.
Proof. by rewrite ord_refl. Qed.

(** A target compares lower and lower with greater and greater positions. *)
Lemma ord_cmp_mono k a b : ord_cmp a b ≠ Gt → comparison_le (ord_cmp k b) (ord_cmp k a).
Proof.
  intros Hab. destruct (ord_cmp k a) eqn:Ea; simpl.
  - apply ord_eq in Ea as ->. by destruct (ord_cmp a b).
  - by rewrite (ord_lt_le_trans _ _ _ Ea Hab).
  - by destruct (ord_cmp k b).
Qed.

End ord_facts.

#[export] Instance option_ord_laws {K} `{!Ord K, !OrdLaws K} : OrdLaws (option K).
Proof.
  split.
  - intros [a|] [b|]; [|done..]. change (ord_cmp a b = Eq ↔ Some a = Some b).
    rewrite (ord_eq a b). naive_solver.
  - intros [a|] [b|]; [|done..]. apply (ord_antisym a b).
  - intros [a|] [b|] [c|]; try done. apply (ord_lt_trans a b c).
Qed.

#[export] Instance nat_ord_laws : OrdLaws nat.
Proof.
  split; unfold ord_cmp, nat_ord.
  - intros a b. apply Nat.compare_eq_iff.
  - intros a b. apply Nat.compare_antisym.
  - intros a b c ?%Nat.compare_lt_iff ?%Nat.compare_lt_iff. apply Nat.compare_lt_iff. lia.
Qed.

Section sorted.
Context {C S T K : Type}.
Context `{!Summary C S, !Item C S T, !Dimension C S K, !Ord K, !EqDecision K, !KeyedItem T K}.
Context (cx : C) `{!OrdLaws K, !KeyedLaws K cx}.
Implicit Types (d k : K) (x y : T) (l : list T).

Local Notation sorted := (sorted_keys K).
Local Notation lt_k k := (λ x, ord_cmp (key x : K) k = Lt).
Local Notation gt_k k := (λ x, ord_cmp k (key x : K) = Lt).
Local Notation from d l := (Forall (λ x, ord_cmp (d : K) (key x) ≠ Gt) l).

(** The position at the end of sorted items. *)
Definition ends d l : K := match last l with Some x => key x | None => d end.

Lemma ends_cons d x l : ends d (x :: l) = ends (key x) l.
Proof. unfold ends. rewrite last_cons. by destruct (last l). Qed.

Lemma ends_app d l1 l2 : ends d (l1 ++ l2) = ends (ends d l1) l2.
Proof. revert d. induction l1 as [|x l1 IH]; intros d; simpl; [done|]. by rewrite !ends_cons. Qed.

Lemma sorted_cons x l :
  sorted (x :: l) ↔ sorted l ∧ Forall (λ y, ord_cmp (key x : K) (key y) = Lt) l.
Proof. split; [by intros [? ?]%StronglySorted_inv|intros [? ?]; by constructor]. Qed.

Lemma sorted_from x l : sorted (x :: l) → from (key x) l.
Proof.
  intros [_ H]%sorted_cons. eapply Forall_impl; [exact H|]. intros y Hy. simpl in *. by rewrite Hy.
Qed.

Lemma pos_from_keyed d l : sorted l → from d l → pos_from cx d l = ends d l.
Proof.
  revert d. induction l as [|x l IH]; intros d Hs Hd; [done|].
  apply Forall_cons in Hd as [Hx Hd]. pose proof (sorted_from _ _ Hs) as Hf.
  apply sorted_cons in Hs as [Hs _].
  rewrite ends_cons, <-IH by done. unfold pos_from; simpl. by rewrite key_end.
Qed.

Lemma sorted_app l1 l2 : sorted (l1 ++ l2) → sorted l1 ∧ sorted l2.
Proof. by intros (_ & ? & ?)%StronglySorted_app. Qed.

Lemma from_ends d l1 l2 : sorted (l1 ++ l2) → from d (l1 ++ l2) → from (ends d l1) l2.
Proof.
  revert d. induction l1 as [|x l1 IH]; intros d Hs Hd; [done|]. rewrite ends_cons.
  apply IH; [|by apply sorted_from]. by apply sorted_cons in Hs as [? _].
Qed.

Lemma ends_le d l : from d l → ord_cmp d (ends d l) ≠ Gt.
Proof.
  intros Hd. unfold ends. destruct (last l) as [x|] eqn:E; [|by rewrite ord_refl].
  apply last_Some_elem_of in E. rewrite Forall_forall in Hd. by apply Hd.
Qed.

Lemma seek_sorted_keyed k d l : sorted l → from d l → seek_sorted cx k d l.
Proof.
  intros Hs Hd l1 l2 l3 ->. rewrite app_assoc in Hs, Hd.
  apply sorted_app in Hs as [Hs _]. apply Forall_app in Hd as [Hd _].
  rewrite (pos_from_keyed d (l1 ++ l2)) by done.
  apply sorted_app in Hs as Hs1. destruct Hs1 as [Hs1 _]. apply Forall_app in Hd as Hd1.
  rewrite (pos_from_keyed d l1) by (try done; apply Hd1).
  rewrite ends_app. apply ord_cmp_mono. apply ends_le. by apply from_ends.
Qed.

Lemma zero_from l : from (dim_zero (S:=S) cx) l.
Proof. apply Forall_true. intros x. by rewrite (key_zero cx x). Qed.

Lemma passed_mono k bias x y :
  ord_cmp (key x : K) (key y) ≠ Gt → passed k bias y = true → passed k bias x = true.
Proof.
  intros Hxy. pose proof (ord_cmp_mono k _ _ Hxy) as Hm. unfold passed, seek_past.
  by destruct (ord_cmp k (key x)), (ord_cmp k (key y)), bias.
Qed.

(** A seek to a key splits the sorted items at the key. *)
Lemma scan_keyed k bias d l :
  sorted l → from d l →
  scan cx k bias d l = (filter (λ x, passed k bias x = true) l, filter (λ x, passed k bias x = false) l).
Proof.
  revert d. induction l as [|x l IH]; intros d Hs Hd; [done|].
  apply Forall_cons in Hd as [Hx Hd]. pose proof (sorted_from _ _ Hs) as Hf.
  simpl. rewrite key_end by done.
  assert (reached cx k bias (key x : K) = negb (passed k bias x)) as ->.
  { unfold passed. change (ord_cmp k (key x)) with (seek_cmp cx k (key x : K)).
    by rewrite seek_past_reached, negb_involutive. }
  destruct (passed k bias x) eqn:Hp; simpl.
  - apply sorted_cons in Hs as [Hs _]. rewrite IH by done.
    by rewrite filter_cons_True, filter_cons_False by (by rewrite Hp).
  - assert (Forall (λ y, passed k bias y = false) l) as Hall.
    { eapply Forall_impl; [exact Hf|]. intros y Hy. simpl in Hy.
      destruct (passed k bias y) eqn:E; [|done]. by rewrite (passed_mono _ _ _ _ Hy E) in Hp. }
    rewrite filter_cons_False, filter_cons_True by (by rewrite Hp).
    rewrite filter_none, filter_all; [done|done|].
    eapply Forall_impl; [exact Hall|]. by intros y ->.
Qed.

(** The items below a key, the item with the key and the items above it. *)
Lemma sorted_split k l :
  sorted l → l = filter (lt_k k) l ++ option_list (klookup k l) ++ filter (gt_k k) l.
Proof.
  induction l as [|x l IH]; [done|]. intros Hs. apply sorted_cons in Hs as Hs'.
  destruct Hs' as [Hs' Hx]. unfold klookup.
  destruct (ord_cmp (key x) k) eqn:E.
  - apply ord_eq in E. rewrite filter_cons_False by (by rewrite E, ord_refl).
    rewrite (filter_cons_True _ x l) by done.
    rewrite (filter_cons_False (gt_k k)) by (by rewrite E, ord_refl).
    rewrite E in Hx. rewrite filter_none.
    2: { eapply Forall_impl; [exact Hx|]. intros y Hy. simpl in *.
         apply ord_gt in Hy. by rewrite Hy. }
    simpl. by rewrite filter_all.
  - rewrite filter_cons_True by done. rewrite filter_cons_False.
    2: { intros Hk. rewrite Hk in E. by rewrite ord_refl in E. }
    rewrite (filter_cons_False (gt_k k)) by (apply ord_gt in E; by rewrite E).
    simpl. f_equal. by apply IH.
  - apply ord_gt in E.
    assert (Forall (gt_k k) l) as Hg.
    { eapply Forall_impl; [exact Hx|]. intros y Hy. simpl in *. by eapply ord_lt_trans. }
    rewrite (filter_none (lt_k k)), (filter_none (λ x, key x = k)), filter_all; [done|..].
    + by constructor.
    + constructor; [intros Hk; by rewrite Hk, ord_refl in E|].
      eapply Forall_impl; [exact Hg|]. intros y Hy Hk. simpl in Hy. by rewrite Hk, ord_refl in Hy.
    + constructor; [apply ord_gt in E; by rewrite E|].
      eapply Forall_impl; [exact Hg|]. intros y Hy. simpl in *. apply ord_gt in Hy. by rewrite Hy.
Qed.

Lemma passed_left k x : passed k Left x = true ↔ ord_cmp (key x : K) k = Lt.
Proof.
  rewrite <-ord_gt. unfold passed, seek_past. destruct (ord_cmp k (key x)); naive_solver.
Qed.

Lemma passed_right k x : passed k Right x = true ↔ ord_cmp k (key x : K) ≠ Lt.
Proof. unfold passed, seek_past. destruct (ord_cmp k (key x)); naive_solver. Qed.

Lemma klookup_key k l x : klookup k l = Some x → key x = k ∧ x ∈ l.
Proof.
  unfold klookup. intros Hx. assert (x ∈ filter (λ x, key x = k) l) as Hin.
  { destruct (filter _ l); [done|]. injection Hx as ->. left. }
  by apply list_elem_of_filter in Hin.
Qed.

Lemma klookup_None k l : klookup k l = None ↔ ∀ x, x ∈ l → key x ≠ k.
Proof.
  unfold klookup. split.
  - intros Hn x Hx Hk. assert (x ∈ filter (λ x, key x = k) l) as Hin
      by by apply list_elem_of_filter.
    destruct (filter _ l); [by apply elem_of_nil in Hin|done].
  - intros Hn. rewrite filter_none; [done|]. by apply Forall_forall.
Qed.

Lemma elem_of_option_list (o : option T) x : x ∈ option_list o → o = Some x.
Proof. destruct o; simpl; [by intros ->%list_elem_of_singleton|by intros ?%elem_of_nil]. Qed.

(** The items that a seek to the left of a key leaves ahead. *)
Lemma left_behind k l : filter (λ x, passed k Left x = true) l = filter (lt_k k) l.
Proof. apply list_filter_iff. intros. apply passed_left. Qed.

Lemma left_ahead k l :
  sorted l →
  filter (λ x, passed k Left x = false) l = option_list (klookup k l) ++ filter (gt_k k) l.
Proof.
  intros Hs. rewrite (sorted_split k l Hs) at 1. rewrite !filter_app.
  rewrite filter_none, filter_all, filter_all; [done|..].
  - apply Forall_forall. intros x [Hx _]%list_elem_of_filter.
    apply not_true_is_false. rewrite passed_left, <-ord_gt, Hx. done.
  - apply Forall_forall. intros x Hx. apply elem_of_option_list in Hx.
    apply klookup_key in Hx as [<- _]. apply not_true_is_false. rewrite passed_left.
    apply ord_lt_irrefl.
  - apply Forall_forall. intros x [Hx _]%list_elem_of_filter.
    rewrite (proj2 (passed_left _ _) Hx). done.
Qed.

Lemma kremove_split k l : sorted l → kremove k l = filter (lt_k k) l ++ filter (gt_k k) l.
Proof.
  intros Hs. unfold kremove. rewrite (sorted_split k l Hs) at 1. rewrite !filter_app.
  rewrite (filter_all _ (filter (lt_k k) l)), (filter_none _ (option_list _)),
    (filter_all _ (filter (gt_k k) l)); [done|..].
  - apply Forall_forall. intros x [Hx _]%list_elem_of_filter Hk. by rewrite Hk, ord_refl in Hx.
  - apply Forall_forall. intros x Hx Hk. apply elem_of_option_list in Hx.
    by apply klookup_key in Hx as [? _].
  - apply Forall_forall. intros x [Hx _]%list_elem_of_filter Hk. by rewrite Hk, ord_refl in Hx.
Qed.

(** ** The list operations keep the keys sorted and act on one key *)

Lemma sorted_filter (P : T → Prop) `{∀ x, Decision (P x)} l : sorted l → sorted (filter P l).
Proof.
  induction l as [|x l IH]; [done|]. intros [Hs Hx]%sorted_cons. rewrite filter_cons.
  case_decide; [|by apply IH]. apply sorted_cons. split; [by apply IH|].
  apply Forall_forall. intros y [_ Hy]%list_elem_of_filter. rewrite Forall_forall in Hx. by apply Hx.
Qed.

Lemma sorted_kremove k l : sorted l → sorted (kremove k l).
Proof. apply sorted_filter. Qed.

Lemma sorted_kinsert x l : sorted l → sorted (kinsert x l).
Proof.
  intros Hs. unfold kinsert. apply StronglySorted_app. split_and!.
  - intros y z [Hy _]%list_elem_of_filter [<-%list_elem_of_singleton|[Hz _]%list_elem_of_filter]%elem_of_app;
      unfold keys_lt; [done|]. by eapply ord_lt_trans.
  - by apply sorted_filter.
  - apply sorted_cons. split; [by apply sorted_filter|].
    apply Forall_forall. by intros y [? _]%list_elem_of_filter.
Qed.

Lemma klookup_kinsert k x l :
  klookup k (kinsert x l) = if decide (key x = k) then Some x else klookup k l.
Proof.
  unfold klookup, kinsert. rewrite !filter_app, filter_cons, !list_filter_filter. simpl.
  case_decide as Hk; simpl.
  - rewrite filter_none; [done|]. apply Forall_true. intros y [H1 H2].
    rewrite Hk, H1 in H2. by rewrite ord_refl in H2.
  - f_equal. destruct (ord_cmp k (key x)) eqn:E.
    + apply ord_eq in E. congruence.
    + rewrite (filter_none (λ y, key y = k ∧ ord_cmp (key x : K) (key y) = Lt) l).
      * rewrite app_nil_r. apply list_filter_iff. intros y. split; [by intros [? _]|].
        intros Hy. split; [done|]. by rewrite Hy.
      * apply Forall_true. intros y [H1 H2]. rewrite H1 in H2. apply ord_gt in H2. congruence.
    + rewrite (filter_none (λ y, key y = k ∧ ord_cmp (key y : K) (key x) = Lt) l).
      * apply list_filter_iff. intros y. split; [by intros [? _]|].
        intros Hy. split; [done|]. rewrite Hy. by apply ord_gt.
      * apply Forall_true. intros y [H1 H2]. rewrite H1 in H2. congruence.
Qed.

Lemma klookup_kremove k k' l :
  klookup k (kremove k' l) = if decide (k = k') then None else klookup k l.
Proof.
  unfold klookup, kremove. rewrite list_filter_filter. case_decide as Hk.
  - rewrite filter_none; [done|]. apply Forall_true. intros y [H1 H2]. congruence.
  - f_equal. apply list_filter_iff. intros y. split; [by intros [? _]|]. intros <-. done.
Qed.

(** The invariant of a keyed tree. *)
Definition keyed_tree (tree : Node S T) : Prop :=
  walkable cx tree ∧ sorted (tree_items tree).

Context `{!SummaryLaws cx, !DimensionLaws (S:=S) K cx}.

(** Seeking to a key from a position before it. *)
Lemma keyed_pre k (c : Cursor S T K) pre post :
  walkable cx (c_tree c) → sorted (pre ++ post) → seekable cx c pre post →
  ord_cmp k (ends (dim_zero (S:=S) cx) pre) ≠ Lt →
  seek_pre cx k c pre post.
Proof.
  intros Hw Hs Hc Hk. apply sorted_app in Hs as Hs'. destruct Hs' as [Hs1 Hs2].
  pose proof (from_ends _ _ _ Hs (zero_from (pre ++ post))) as Hf.
  unfold seek_pre, pos_of. rewrite (pos_from_keyed _ pre Hs1) by apply zero_from.
  split; [done|]. split; [done|]. split; [by apply seek_sorted_keyed|done].
Qed.

Lemma keyed_slice_ok k (c : Cursor S T K) pre post :
  walkable cx (c_tree c) → sorted (pre ++ post) → seekable cx c pre post →
  ord_cmp k (ends (dim_zero (S:=S) cx) pre) ≠ Lt →
  ∃ c' n, slice cx k Left c = Ok (c', n) ∧ wf_tree cx n ∧ tree_items n = filter (lt_k k) post ∧
    c_tree c' = c_tree c ∧
    seeked cx c' (pre ++ filter (lt_k k) post)
      (option_list (klookup k post) ++ filter (gt_k k) post).
Proof.
  intros Hw Hs Hc Hk.
  destruct (slice_ok cx k Left c pre post) as (c' & n & Hrun & Hn & Hi & Ht & Hc');
    [by apply keyed_pre|].
  apply sorted_app in Hs as Hs'. destruct Hs' as [Hs1 Hs2].
  assert (from (pos_of cx pre : K) post) as Hf.
  { unfold pos_of. rewrite (pos_from_keyed _ pre Hs1) by apply zero_from.
    apply (from_ends _ _ _ Hs), zero_from. }
  rewrite (scan_keyed _ _ _ _ Hs2 Hf) in Hi, Hc'.
  cbn [fst snd] in Hi, Hc'. rewrite left_ahead, left_behind in Hc' by done.
  rewrite left_behind in Hi. by exists c', n.
Qed.

(** Stepping over the item with the key, if there is one. *)
Lemma take_found (c : Cursor S T K) pre k l :
  walkable cx (c_tree c) →
  seeked cx c pre (option_list (klookup k l) ++ filter (gt_k k) l) →
  ∃ c2, item c = Ok (head (option_list (klookup k l) ++ filter (gt_k k) l)) ∧
    match head (option_list (klookup k l) ++ filter (gt_k k) l) with
    | Some x => if decide (key x = k) then c ← next cx c; Ok (c, Some x) else Ok (c, None)
    | None => Ok (c, None)
    end = Ok (c2, klookup k l) ∧
    c_tree c2 = c_tree c ∧ seeked cx c2 (pre ++ option_list (klookup k l)) (filter (gt_k k) l).
Proof.
  intros Hw Hc. pose proof (item_seeked cx _ _ _ Hc (proj1 Hw)) as Hi.
  pose proof (seeked_ahead cx _ _ _ Hc) as Ha.
  destruct (klookup k l) as [x|] eqn:Hx; simpl in *.
  - destruct (next_ok cx c _ _ Hw Ha) as (c2 & Hn & Ht & Hc2). exists c2.
    split; [done|]. apply klookup_key in Hx as [Hk _]. rewrite decide_True by done.
    by rewrite Hn.
  - exists c. rewrite app_nil_r. split; [done|].
    destruct (head (filter (gt_k k) l)) as [y|] eqn:Hy; [|done]. simpl.
    rewrite decide_False; [done|]. intros Hk.
    assert (y ∈ filter (gt_k k) l) as [Hy' _]%list_elem_of_filter.
    { destruct (filter _ l); [done|]. injection Hy as ->. left. }
    by rewrite Hk, ord_refl in Hy'.
Qed.

Lemma zero_ge x : ord_cmp (key x : K) (ends (dim_zero (S:=S) cx) []) ≠ Lt.
Proof. simpl. unfold ends; simpl. rewrite ord_antisym, (key_zero cx x). done. Qed.

Lemma insert_or_replace_ok tree x :
  keyed_tree tree →
  ∃ tree', insert_or_replace (K:=K) cx tree x = Ok (tree', klookup (key x) (tree_items tree)) ∧
    wf_tree cx tree' ∧ tree_items tree' = kinsert x (tree_items tree).
Proof.
  intros [Hw Hs]. set (l := tree_items tree) in *.
  destruct (keyed_slice_ok (key x) (cursor_new cx tree) [] l) as (c & n & Hsl & Hn & Hni & Ht & Hc);
    [done|done|by right|by apply zero_ge|].
  unfold insert_or_replace. rewrite Hsl. cbn [mbind outcome_bind].
  destruct (take_found c _ _ _ ltac:(by rewrite Ht) Hc) as (c2 & Hit & Hm & Ht2 & Hc2).
  rewrite Hit. cbn [mbind outcome_bind]. rewrite Hm. cbn [mbind outcome_bind].
  destruct (push_ok cx n x Hn) as (n2 & -> & Hn2 & Hni2). cbn [mbind outcome_bind].
  destruct (suffix_ok cx c2 _ _ ltac:(by rewrite Ht2, Ht) (or_introl Hc2))
    as (c3 & n3 & -> & Hn3 & Hni3 & _). cbn [mbind outcome_bind].
  destruct (append_ok cx n2 n3 Hn2 Hn3) as (n4 & -> & Hn4 & Hni4). simpl.
  exists n4. split_and!; [done..|]. rewrite Hni4, Hni2, Hni3, Hni. by rewrite <-app_assoc.
Qed.

Lemma tree_remove_ok tree k :
  keyed_tree tree → ord_cmp k (dim_zero (S:=S) cx) ≠ Lt →
  ∃ tree', tree_remove cx tree k = Ok (tree', klookup k (tree_items tree)) ∧
    wf_tree cx tree' ∧ tree_items tree' = kremove k (tree_items tree).
Proof.
  intros [Hw Hs] Hk. set (l := tree_items tree) in *.
  destruct (keyed_slice_ok k (cursor_new cx tree) [] l) as (c & n & Hsl & Hn & Hni & Ht & Hc);
    [done|done|by right|done|].
  unfold tree_remove. rewrite Hsl. cbn [mbind outcome_bind].
  destruct (take_found c _ _ _ ltac:(by rewrite Ht) Hc) as (c2 & Hit & Hm & Ht2 & Hc2).
  rewrite Hit. cbn [mbind outcome_bind]. rewrite Hm. cbn [mbind outcome_bind].
  destruct (suffix_ok cx c2 _ _ ltac:(by rewrite Ht2, Ht) (or_introl Hc2))
    as (c3 & n3 & -> & Hn3 & Hni3 & _). cbn [mbind outcome_bind].
  destruct (append_ok cx n n3 Hn Hn3) as (n4 & -> & Hn4 & Hni4). simpl.
  exists n4. split_and!; [done..|]. rewrite Hni4, Hni3, Hni. by rewrite kremove_split.
Qed.

(** Lookup is an exact search. *)
Lemma tree_get_ok tree k :
  keyed_tree tree → tree_get cx tree k = klookup k (tree_items tree).
Proof.
  intros [Hw Hs]. set (l := tree_items tree) in *. unfold tree_get.
  pose proof (find_exact_ok cx k tree (proj1 Hw)
    (seek_sorted_keyed _ _ _ Hs (zero_from l))) as Hf.
  fold l in Hf. cbv zeta in Hf.
  rewrite scan_keyed in Hf by (done || apply zero_from).
  rewrite left_ahead, left_behind in Hf by done. unfold found_exact in Hf. cbn [fst snd] in Hf.
  assert (∀ x, ord_cmp k (key x) ≠ Gt →
    pos_from cx (dim_zero (S:=S) cx : K) (filter (lt_k k) l ++ [x]) = key x) as Hpos.
  { intros x Hx. rewrite pos_from_keyed; [by unfold ends; rewrite last_snoc| |apply zero_from].
    apply StronglySorted_app_2; [|by apply sorted_filter|by repeat constructor].
    intros y z [Hy _]%list_elem_of_filter ->%list_elem_of_singleton. by eapply ord_lt_le_trans. }
  destruct (klookup k l) as [x|] eqn:Hx; simpl in Hf.
  - apply klookup_key in Hx as [Hkx _]. rewrite Hpos in Hf by (by rewrite Hkx, ord_refl).
    rewrite decide_True in Hf by (rewrite Hkx; apply ord_refl). by rewrite Hf.
  - destruct (filter (gt_k k) l) as [|y g] eqn:Hg; [done|].
    assert (y ∈ filter (gt_k k) l) as [Hy _]%list_elem_of_filter by (rewrite Hg; left).
    rewrite Hpos in Hf by (by rewrite Hy).
    rewrite decide_False in Hf; [done|]. unfold seek_cmp, ord_seek_target. by rewrite Hy.
Qed.

(** ** Batched edits *)

Lemma lt_k_app_lt k l1 l2 :
  Forall (lt_k k) l1 → filter (lt_k k) (l1 ++ l2) = l1 ++ filter (lt_k k) l2.
Proof. intros H. by rewrite filter_app, filter_all. Qed.

Lemma gt_k_app_lt k l1 l2 : Forall (lt_k k) l1 → filter (gt_k k) (l1 ++ l2) = filter (gt_k k) l2.
Proof.
  intros H. rewrite filter_app, filter_none; [done|]. eapply Forall_impl; [exact H|].
  intros x Hx. simpl in *. apply ord_gt in Hx. by rewrite Hx.
Qed.

Lemma klookup_app_lt k l1 l2 : Forall (lt_k k) l1 → klookup k (l1 ++ l2) = klookup k l2.
Proof.
  intros H. unfold klookup. rewrite filter_app, filter_none; [done|]. eapply Forall_impl; [exact H|].
  intros x Hx Hk. simpl in Hx. by rewrite Hk, ord_refl in Hx.
Qed.

(** What one edit does to the items after the ones below its key. *)
Lemma kedit_app_lt (e : Edit T K) l1 l2 :
  Forall (lt_k (edit_key e)) l1 → sorted (l1 ++ l2) →
  kedit (l1 ++ l2) e =
    l1 ++ filter (lt_k (edit_key e)) l2
      ++ match e with Insert x => [x] | Remove _ => [] end ++ filter (gt_k (edit_key e)) l2.
Proof.
  intros Hl Hs. destruct e as [x|k]; simpl in *.
  - unfold kinsert. by rewrite lt_k_app_lt, gt_k_app_lt, <-app_assoc.
  - by rewrite kremove_split, lt_k_app_lt, gt_k_app_lt, <-app_assoc.
Qed.

(** The head of sorted items at or above [k]: nothing is below [k]. *)
Lemma head_not_lt k l :
  sorted l → match head l with Some x => ord_cmp (key x) k ≠ Lt | None => True end →
  filter (lt_k k) l = [].
Proof.
  destruct l as [|x l]; [done|]. simpl. intros [_ Hx]%sorted_cons Hk.
  apply filter_none. constructor; [done|]. eapply Forall_impl; [exact Hx|].
  intros y Hy Hyk. simpl in *. apply Hk. by eapply ord_lt_trans.
Qed.

(** The loop invariant of [edit]: the cursor is at [pre]/[post], and the items gathered so far
    are those of the new tree and the buffer. *)
Definition edit_inv (self : Node S T) (k_next : K → Prop) pre post l'
    (st : Cursor S T K * Node S T * list T * list T) : Prop :=
  let '(c, new_tree, buffered, _) := st in
  c_tree c = self ∧ seeked cx c pre post ∧ wf_tree cx new_tree ∧
  l' = (tree_items new_tree ++ buffered) ++ post ∧
  (∀ k, k_next k → Forall (lt_k k) pre ∧ Forall (lt_k k) (tree_items new_tree ++ buffered)).

Lemma lt_ends k pre :
  Forall (lt_k k) pre → ord_cmp k (dim_zero (S:=S) cx) ≠ Lt →
  ord_cmp k (ends (dim_zero (S:=S) cx) pre) ≠ Lt.
Proof.
  intros Hpre Hz. unfold ends. destruct (last pre) as [x|] eqn:E; [|done].
  apply last_Some_elem_of in E. rewrite Forall_forall in Hpre.
  apply Hpre in E. apply ord_gt in E. by rewrite E.
Qed.

Lemma take_found_removed (c : Cursor S T K) pre k l removed :
  walkable cx (c_tree c) →
  seeked cx c pre (option_list (klookup k l) ++ filter (gt_k k) l) →
  ∃ c2,
    match head (option_list (klookup k l) ++ filter (gt_k k) l) with
    | Some x => if decide (key x = k) then c ← next cx c; Ok (c, removed ++ [x]) else Ok (c, removed)
    | None => Ok (c, removed)
    end = Ok (c2, removed ++ option_list (klookup k l)) ∧
    c_tree c2 = c_tree c ∧ seeked cx c2 (pre ++ option_list (klookup k l)) (filter (gt_k k) l).
Proof.
  intros Hw Hc. destruct (take_found c pre k l Hw Hc) as (c2 & _ & Hm & Ht & Hc2).
  exists c2. split_and!; [|done..]. destruct (head _) as [x|].
  - case_decide.
    + destruct (next cx c) as [c'| |]; try discriminate Hm. simpl in Hm |- *.
      injection Hm as -> <-. done.
    + injection Hm as -> <-. by rewrite app_nil_r.
  - injection Hm as -> <-. by rewrite app_nil_r.
Qed.

Lemma edit_step_ok self (k_next : K → Prop) pre post l' c new_tree buffered removed e :
  walkable cx self → sorted (pre ++ post) → sorted l' → k_next (edit_key e) →
  ord_cmp (edit_key e) (dim_zero (S:=S) cx) ≠ Lt →
  edit_inv self k_next pre post l' (c, new_tree, buffered, removed) →
  ∃ c2 new2 buf2 pre2 post2,
    edit_step cx (c, new_tree, buffered, removed) e
      = Ok (c2, new2, buf2, removed ++ option_list (klookup (edit_key e) (pre ++ post))) ∧
    pre2 ++ post2 = pre ++ post ∧
    edit_inv self (λ k, k_next k ∧ ord_cmp (edit_key e) k = Lt) pre2 post2 (kedit l' e)
      (c2, new2, buf2, removed ++ option_list (klookup (edit_key e) (pre ++ post))).
Proof.
  intros Hw Hs Hs' Hk Hz (Ht & Hc & Hn & -> & Hlt). set (k := edit_key e) in *.
  destruct (Hlt k Hk) as [Hpre Hdone]. rewrite klookup_app_lt by done.
  apply sorted_app in Hs as Hs2. destruct Hs2 as [_ Hs2].
  rewrite kedit_app_lt by done. fold k.
  assert (∃ c1 new1 buf1,
    (old_item ← item c;
     match old_item with
     | Some old =>
        if decide (ord_cmp (key old) k = Lt) then
          new_tree ← extend cx new_tree buffered;
          '(cursor, sliced) ← slice cx k Left c;
          new_tree ← append cx new_tree sliced;
          old_item ← item cursor;
          Ok (cursor, new_tree, [], old_item)
        else Ok (c, new_tree, buffered, Some old)
     | None => Ok (c, new_tree, buffered, None)
     end) = Ok (c1, new1, buf1, head (option_list (klookup k post) ++ filter (gt_k k) post)) ∧
    c_tree c1 = self ∧ wf_tree cx new1 ∧
    tree_items new1 ++ buf1 = (tree_items new_tree ++ buffered) ++ filter (lt_k k) post ∧
    seeked cx c1 (pre ++ filter (lt_k k) post) (option_list (klookup k post) ++ filter (gt_k k) post))
    as (c1 & new1 & buf1 & Hrun & Ht1 & Hn1 & Hi1 & Hc1).
  { rewrite (item_seeked cx _ _ _ Hc) by (rewrite Ht; apply Hw). cbn [mbind outcome_bind].
    assert (head post = head (filter (lt_k k) post ++ option_list (klookup k post) ++ filter (gt_k k) post))
      as Hhead by by rewrite <-sorted_split.
    destruct (decide (filter (lt_k k) post = [])) as [Hnil|Hb].
    - rewrite Hnil in *. exists c, new_tree, buffered. rewrite !app_nil_r.
      rewrite (sorted_split k post Hs2), Hnil in Hc.
      split; [|done]. cbn [app] in Hhead. rewrite <-Hhead. destruct (head post) as [old|] eqn:Hh; [|done].
      rewrite decide_False; [done|]. intros Hold.
      assert (old ∈ filter (lt_k k) post) as Hin.
      { apply list_elem_of_filter. split; [done|]. destruct post; [done|]. injection Hh as ->. left. }
      rewrite Hnil in Hin. by apply elem_of_nil in Hin.
    - assert (∃ old, head post = Some old ∧ ord_cmp (key old) k = Lt) as (old & -> & Hold).
      { destruct (head post) as [old|] eqn:Hh; [|by destruct Hb; apply head_not_lt; rewrite ?Hh].
        destruct (decide (ord_cmp (key old) k = Lt)); [by exists old|].
        destruct Hb. apply head_not_lt; by rewrite ?Hh. }
      rewrite decide_True by done.
      destruct (extend_ok cx new_tree buffered Hn) as (n1 & -> & Hn1 & Hi1). cbn [mbind outcome_bind].
      destruct (keyed_slice_ok k c pre post) as (c1 & sl & -> & Hsl & Hsli & Ht1 & Hc1);
        [by rewrite Ht|done|by left|by apply lt_ends|]. cbn [mbind outcome_bind].
      destruct (append_ok cx n1 sl Hn1 Hsl) as (n2 & -> & Hn2 & Hi2). cbn [mbind outcome_bind].
      rewrite (item_seeked cx _ _ _ Hc1) by (rewrite Ht1, Ht; apply Hw). cbn [mbind outcome_bind].
      eexists c1, n2, []. split; [done|]. rewrite app_nil_r, Hi2, Hi1, Hsli.
      split; [congruence|done]. }
  destruct (take_found_removed c1 (pre ++ filter (lt_k k) post) k post removed ltac:(by rewrite Ht1) Hc1)
    as (c2 & Hm & Ht2 & Hc2).
  set (add := match e with Insert x => [x] | Remove _ => [] end).
  exists c2, new1, (buf1 ++ add), ((pre ++ filter (lt_k k) post) ++ option_list (klookup k post)),
    (filter (gt_k k) post).
  unfold edit_inv. split_and!.
  - unfold edit_step. fold k.
    apply outcome_bind_ok in Hrun as (old & -> & Hrun).
    cbn [mbind outcome_bind]. rewrite Hrun. cbn [mbind outcome_bind]. rewrite Hm.
    cbn [mbind outcome_bind]. subst add. by destruct e; rewrite ?app_nil_r.
  - rewrite <-!app_assoc. f_equal. by rewrite <-sorted_split.
  - congruence.
  - done.
  - done.
  - subst add. rewrite !app_assoc, Hi1. by rewrite <-!app_assoc.
  - intros k' [Hk' Hlt']. destruct (Hlt k' Hk') as [Hp' Hd'].
    assert (∀ x, ord_cmp (key x) k = Lt → ord_cmp (key x) k' = Lt) as Htr
      by (intros x Hx; by eapply ord_lt_trans).
    assert (Forall (lt_k k') (filter (lt_k k) post)) as Hf.
    { apply Forall_forall. intros x [Hx _]%list_elem_of_filter. auto. }
    split.
    + apply Forall_app. split; [by apply Forall_app|]. apply Forall_forall.
      intros x Hx%elem_of_option_list. apply klookup_key in Hx as [-> _]. done.
    + rewrite app_assoc, Hi1. apply Forall_app. split; [by apply Forall_app|].
      subst add k. destruct e; repeat constructor. done.
Qed.

Lemma sorted_kedit l (e : Edit T K) : sorted l → sorted (kedit l e).
Proof. destruct e; [apply sorted_kinsert|apply sorted_kremove]. Qed.

(** The loop of [edit]: the edits in the order of their keys, which are distinct. *)
Lemma edit_loop_ok self es pre post l' c new_tree buffered removed :
  walkable cx self → sorted (pre ++ post) → sorted l' →
  StronglySorted (λ e1 e2 : Edit T K, ord_cmp (edit_key e1) (edit_key e2) = Lt) es →
  Forall (λ e : Edit T K, ord_cmp (edit_key e) (dim_zero (S:=S) cx) ≠ Lt) es →
  edit_inv self (λ k, ∃ e, e ∈ es ∧ edit_key e = k) pre post l' (c, new_tree, buffered, removed) →
  let removed2 := removed ++ omap (λ e : Edit T K, klookup (edit_key e) (pre ++ post)) es in
  ∃ c2 new2 buf2 pre2 post2,
    foldM (edit_step cx) (c, new_tree, buffered, removed) es = Ok (c2, new2, buf2, removed2) ∧
    pre2 ++ post2 = pre ++ post ∧
    edit_inv self (λ _, False) pre2 post2 (foldl kedit l' es) (c2, new2, buf2, removed2).
Proof.
  revert pre post l' c new_tree buffered removed.
  induction es as [|e es IH]; intros pre post l' c new_tree buffered removed Hw Hs Hs' Hes Hz Hinv.
  - simpl. rewrite app_nil_r. exists c, new_tree, buffered, pre, post. split; [done|]. split; [done|].
    destruct Hinv as (? & ? & ? & ? & _). unfold edit_inv. by split_and!.
  - apply StronglySorted_inv in Hes as [Hes He].
    apply Forall_cons in Hz as [Hze Hz].
    destruct (edit_step_ok self (λ k, ∃ e', e' ∈ e :: es ∧ edit_key e' = k) pre post l' c new_tree buffered removed e Hw Hs Hs'
      ltac:(exists e; split; [left|done]) Hze Hinv)
      as (c1 & new1 & buf1 & pre1 & post1 & Hrun & Hpp & Hinv1).
    cbv zeta. cbn [foldM foldl]. rewrite Hrun. cbn [mbind outcome_bind].
    destruct (IH pre1 post1 (kedit l' e) c1 new1 buf1
      (removed ++ option_list (klookup (edit_key e) (pre ++ post)))) as
      (c2 & new2 & buf2 & pre2 & post2 & Hrun2 & Hpp2 & Hinv2); try done.
    + by rewrite Hpp.
    + by apply sorted_kedit.
    + destruct Hinv1 as (? & ? & ? & ? & Hlt). unfold edit_inv. split_and!; try done.
      intros k (e' & He' & <-). apply Hlt. split.
      * exists e'. split; [by right|done].
      * rewrite Forall_forall in He. by apply He.
    + rewrite Hpp in *. exists c2, new2, buf2, pre2, post2.
      assert ((removed ++ option_list (klookup (edit_key e) (pre ++ post))) ++
        omap (λ e, klookup (edit_key e) (pre ++ post)) es =
        removed ++ omap (λ e, klookup (edit_key e) (pre ++ post)) (e :: es)) as Heq.
      { rewrite <-app_assoc. f_equal. simpl. by destruct (klookup _ _). }
      rewrite <-Heq. split; [done|]. by split.
Qed.

Lemma edit_ok sort_edits tree (edits : list (Edit T K)) :
  keyed_tree tree →
  StronglySorted (λ e1 e2 : Edit T K, ord_cmp (edit_key e1) (edit_key e2) = Lt) (sort_edits edits) →
  Forall (λ e : Edit T K, ord_cmp (edit_key e) (dim_zero (S:=S) cx) ≠ Lt) (sort_edits edits) →
  (edits = [] → sort_edits edits = []) →
  ∃ tree', edit cx sort_edits tree edits =
      Ok (tree', omap (λ e : Edit T K, klookup (edit_key e) (tree_items tree)) (sort_edits edits)) ∧
    wf_tree cx tree' ∧ tree_items tree' = foldl kedit (tree_items tree) (sort_edits edits).
Proof.
  intros [Hw Hs] Hsort Hz Hempty. unfold edit.
  destruct edits as [|e0 edits0].
  { rewrite Hempty by done. exists tree. split_and!; [done|apply Hw|done]. }
  remember (e0 :: edits0) as edits eqn:Heq. clear Heq Hempty e0 edits0.
  set (l := tree_items tree) in *. set (es := sort_edits edits) in *.
  destruct (seek_ok cx (dim_zero (S:=S) cx : K) Left (cursor_new cx tree)) as (c & Hseek & Ht & Hc);
    [done|by apply seek_sorted_keyed; [|apply zero_from]
    |unfold seek_cmp, ord_seek_target; by rewrite ord_refl|].
  rewrite Hseek. cbn [mbind outcome_bind].
  rewrite (scan_keyed _ _ _ _ Hs (zero_from l)) in Hc. cbn [fst snd] in Hc.
  rewrite left_behind in Hc. fold l in Hc.
  assert (filter (lt_k (dim_zero (S:=S) cx)) l = []) as Hnil.
  { apply filter_none. apply Forall_true. intros x Hx. pose proof (key_zero cx x) as Hx0.
    apply ord_gt in Hx0. congruence. }
  assert (filter (λ x, passed (dim_zero (S:=S) cx) Left x = false) l = l) as Hall.
  { apply filter_all. apply Forall_true. intros x. unfold passed. by rewrite (key_zero cx x). }
  rewrite Hnil, Hall in Hc.
  destruct (edit_loop_ok tree es [] l l c (new cx) [] []) as
    (c2 & new2 & buf2 & pre2 & post2 & -> & Hpp & (Ht2 & Hc2 & Hn2 & Hl2 & _)); try done.
  { unfold edit_inv. split_and!; try done. by left. }
  cbn [mbind outcome_bind].
  destruct (extend_ok cx new2 buf2 Hn2) as (n3 & -> & Hn3 & Hi3). cbn [mbind outcome_bind].
  destruct (suffix_ok cx c2 pre2 post2 ltac:(by rewrite Ht2) (or_introl Hc2))
    as (c4 & n4 & -> & Hn4 & Hi4 & _). cbn [mbind outcome_bind].
  destruct (append_ok cx n3 n4 Hn3 Hn4) as (n5 & -> & Hn5 & Hi5). cbn [mbind outcome_bind].
  exists n5. split_and!; [done..|]. by rewrite Hi5, Hi4, Hi3.
Qed.

(** The edit of a key, when no key is edited twice. *)
Definition edit_for k (es : list (Edit T K)) : option (Edit T K) :=
  head (filter (λ e, edit_key e = k) es).

Definition edited k l (e : option (Edit T K)) : option T :=
  match e with Some (Insert x) => Some x | Some (Remove _) => None | None => klookup k l end.

Lemma edit_for_cons k e (es : list (Edit T K)) :
  edit_for k (e :: es) = if decide (edit_key e = k) then Some e else edit_for k es.
Proof. unfold edit_for. rewrite filter_cons. by case_decide. Qed.

Lemma edit_for_None k (es : list (Edit T K)) : k ∉ map edit_key es → edit_for k es = None.
Proof.
  intros Hk. unfold edit_for. rewrite filter_none; [done|]. apply Forall_forall.
  intros e He <-. apply Hk. by apply list_elem_of_fmap_2.
Qed.

Lemma klookup_kedit k e l :
  klookup k (kedit l e) = edited k l (if decide (edit_key e = k) then Some e else None).
Proof.
  destruct e as [x|k']; simpl.
  - rewrite klookup_kinsert. by case_decide.
  - rewrite klookup_kremove. destruct (decide (k = k')), (decide (k' = k)); done.
Qed.

Lemma klookup_kedits k l (es : list (Edit T K)) :
  NoDup (map edit_key es) → klookup k (foldl kedit l es) = edited k l (edit_for k es).
Proof.
  revert l. induction es as [|e es IH]; intros l; [done|]. simpl. intros [He Hnd]%NoDup_cons.
  rewrite IH, edit_for_cons by done. unfold edited at 1. rewrite klookup_kedit.
  case_decide as Hk.
  - subst k. by rewrite edit_for_None.
  - by destruct (edit_for k es) as [[]|].
Qed.

Lemma sorted_kedits l (es : list (Edit T K)) : sorted l → sorted (foldl kedit l es).
Proof. revert l. induction es; intros l Hl; simpl; [done|]. by apply IHes, sorted_kedit. Qed.

Lemma edit_for_Permutation k (es1 es2 : list (Edit T K)) :
  NoDup (map edit_key es1) → es1 ≡ₚ es2 → edit_for k es1 = edit_for k es2.
Proof.
  intros Hnd Hp. revert Hnd.
  induction Hp as [|e es1 es2 Hp IH|e1 e2 es|es1 es2 es3 H1 IH1 H2 IH2]; intros Hnd.
  - done.
  - rewrite !edit_for_cons. apply NoDup_cons in Hnd as [_ Hnd]. by rewrite IH.
  - rewrite !edit_for_cons. apply NoDup_cons in Hnd as [Hn _].
    case_decide as Hk1; case_decide as Hk2; try done.
    destruct Hn. rewrite Hk1, <-Hk2. left.
  - rewrite IH1 by done. apply IH2. by rewrite <-H1.
Qed.

(** An unstable sort of edits with distinct keys puts the keys in strict order. *)
Lemma sorted_edits_strict (es es' : list (Edit T K)) :
  es' ≡ₚ es → NoDup (map edit_key es) →
  StronglySorted (λ e1 e2 : Edit T K, ord_cmp (edit_key e1) (edit_key e2) ≠ Gt) es' →
  StronglySorted (λ e1 e2 : Edit T K, ord_cmp (edit_key e1) (edit_key e2) = Lt) es'.
Proof.
  intros Hp Hnd. rewrite <-Hp in Hnd. clear Hp. revert Hnd.
  induction es' as [|e es' IH]; intros Hnd Hs; [constructor|].
  apply NoDup_cons in Hnd as [He Hnd]. apply StronglySorted_inv in Hs as [Hs Hle].
  constructor; [by apply IH|]. apply Forall_forall. intros e2 He2.
  rewrite Forall_forall in Hle. specialize (Hle e2 He2).
  destruct (ord_cmp (edit_key e) (edit_key e2)) eqn:E; [|done|done].
  apply ord_eq in E. destruct He. rewrite E. by apply list_elem_of_fmap_2.
Qed.

End sorted.
