(* ===== verification/TreeMap.v ===== *)
(** The ordered map and set of [crates/sum_tree/src/tree_map.rs]: a keyed tree whose summary
    is the last key.  Every operation refines the operation on finite maps. *)
From stdpp Require Import gmap.
From S2P Require Import Prelude SumTree SumTreeFacts Seek Cursor CursorFacts CursorMoves CursorOps Keyed KeyedFacts.

(** [struct MapEntry]; [MapKey] and [MapKeyRef] wrap an optional key. *)
Record MapEntry (K V : Type) : Type := mkMapEntry { me_key : K; me_value : V }.
Arguments mkMapEntry {K V}.
Arguments me_key {K V}.
Arguments me_value {K V}.

(** The pair of references the iterators return. *)
Definition entry_pair {K V} (e : MapEntry K V) : K * V := (me_key e, me_value e).

(** [impl ContextLessSummary for MapKey]: the key on the right wins. *)
#[export] Instance map_key_summary {K} : Summary () (option K) := {|
  zero := λ _, None;
  add_summary := λ _ _ s, s;
|}.

(** [impl KeyedItem for MapEntry] and [impl Item for MapEntry]. *)
#[export] Instance map_entry_key {K V} : KeyedItem (MapEntry K V) (option K) := λ e,
  Some (me_key e).
#[export] Instance map_entry_item {K V} : Item () (option K) (MapEntry K V) := λ _ e,
  Some (me_key e).

(** [trait MapSeekTarget] and the adaptor that makes it a seek target. *)
Class MapSeekTarget (K Tg : Type) := cmp_cursor : Tg → K → comparison.
#[export] Instance ord_map_seek_target {K} `{!Ord K} : MapSeekTarget K K := ord_cmp.
Record MapSeekTargetAdaptor (Tg : Type) : Type := mkAdaptor { adaptor_target : Tg }.
Arguments mkAdaptor {Tg}.
Arguments adaptor_target {Tg}.
#[export] Instance map_seek_target_adaptor {K Tg} `{!MapSeekTarget K Tg} :
    SeekTarget () (option K) (MapSeekTargetAdaptor Tg) := λ _ target location,
  match location with
  | Some k => cmp_cursor (adaptor_target target) k
  | None => Gt
  end.

Module TreeMap.
Section tree_map.
Context {K V : Type} `{!Ord K, !EqDecision K}.

(** [struct TreeMap(SumTree<MapEntry<K, V>>)]. *)
Definition t : Type := Node (option K) (MapEntry K V).
Implicit Types self : t.

Definition cursor_of self : Cursor (option K) (MapEntry K V) (option K) := cursor_new () self.

Definition default : t := new ().

Definition from_ordered_entries (entries : list (K * V)) : outcome t :=
  from_iter () (map (λ '(k, v), mkMapEntry k v) entries).

Definition is_empty self : bool := SumTree.is_empty self.

Definition get self (k : K) : option V :=
  match (find (D:=option K) (Tg:=option K) () self (Some k) Left).2 with
  | Some item => if decide (Some k = key item) then Some (me_value item) else None
  | None => None
  end.

Definition contains_key self (k : K) : bool := bool_decide (is_Some (get self k)).

Definition insert self (k : K) (v : V) : outcome t :=
  '(self, _) ← insert_or_replace (K:=option K) () self (mkMapEntry k v); Ok self.

Definition insert_or_replace self (k : K) (v : V) : outcome (t * option V) :=
  '(self, replaced) ← Keyed.insert_or_replace (K:=option K) () self (mkMapEntry k v);
  Ok (self, fmap (M:=option) me_value replaced).

Definition extend (sort_edits : list (Edit (MapEntry K V) (option K)) → list (Edit _ _)) self
    (iter : list (K * V)) : outcome t :=
  '(self, _) ← edit () sort_edits self (map (λ '(k, v), Insert (mkMapEntry k v)) iter);
  Ok self.

Definition clear self : t := new ().

Definition remove self (k : K) : outcome (t * option V) :=
  let target := Some k in
  '(cursor, new_tree) ← slice (D:=option K) (Tg:=option K) () target Left (cursor_of self);
  e ← cursor_end () cursor;
  '(cursor, removed) ←
    (if decide (seek_cmp (Tg:=option K) () target e = Eq) then
       x ← item cursor; x ← unwrap x;
       c ← next () cursor; Ok (c, Some (me_value x))
     else Ok (cursor, None));
  '(_, rest) ← suffix () cursor;
  new_tree ← append () new_tree rest;
  Ok (new_tree, removed).

Definition remove_range {T1 T2} `{!MapSeekTarget K T1, !MapSeekTarget K T2} self
    (start : T1) (end_ : T2) : outcome t :=
  '(cursor, new_tree) ← slice (D:=option K) (Tg:=MapSeekTargetAdaptor T1) () (mkAdaptor start) Left (cursor_of self);
  '(cursor, _) ← seek (D:=option K) (Tg:=MapSeekTargetAdaptor T2) () (mkAdaptor end_) Left cursor;
  '(_, rest) ← suffix () cursor;
  append () new_tree rest.

Definition closest self (k : K) : outcome (option (K * V)) :=
  '(cursor, _) ← seek (D:=option K) (Tg:=option K) () (Some k) Right (cursor_of self);
  cursor ← prev () cursor;
  x ← item cursor;
  Ok (fmap (M:=option) entry_pair x).

(** The iterator of [iter_from], drained with [fuel] calls. *)
Definition iter_from (fuel : nat) self (k : K) : outcome (list (K * V)) :=
  '(cursor, _) ← seek (D:=option K) (Tg:=option K) () (Some k) Left (cursor_of self);
  '(_, l) ← iterate_all () fuel cursor [];
  Ok (map entry_pair l).

(** [f] updates the value in place and returns a result. *)
Definition update {R} self (k : K) (f : V → V * R) : outcome (t * option R) :=
  let target := Some k in
  '(cursor, new_tree) ← slice (D:=option K) (Tg:=option K) () target Left (cursor_of self);
  e ← cursor_end () cursor;
  '(cursor, new_tree, result) ←
    (if decide (seek_cmp (Tg:=option K) () target e = Eq) then
       x ← item cursor; updated ← unwrap x;
       let '(v, r) := f (me_value updated) in
       new_tree ← push () new_tree (mkMapEntry (me_key updated) v);
       c ← next () cursor; Ok (c, new_tree, Some r)
     else Ok (cursor, new_tree, None));
  '(_, rest) ← suffix () cursor;
  new_tree ← append () new_tree rest;
  Ok (new_tree, result).

(** The loop of [retain]. *)
Fixpoint retain_loop (fuel : nat) (predicate : K → V → bool)
    (cursor : Cursor (option K) (MapEntry K V) (option K)) (new_map : t) : outcome t :=
  match fuel with
  | O => OutOfFuel
  | Datatypes.S fuel =>
      x ← item cursor;
      match x with
      | Some x =>
          new_map ← (if predicate (me_key x) (me_value x) then push () new_map x else Ok new_map);
          cursor ← next () cursor;
          retain_loop fuel predicate cursor new_map
      | None => Ok new_map
      end
  end.

Definition retain self (predicate : K → V → bool) : outcome t :=
  cursor ← next () (cursor_of self);
  retain_loop (1 + node_fuel self) predicate cursor (new ()).

Definition iter self : outcome (list (K * V)) :=
  l ← iter_all (1 + node_fuel self) (Cursor.iter self) [];
  Ok (map entry_pair l).

Definition values self : outcome (list V) :=
  l ← iter_all (1 + node_fuel self) (Cursor.iter self) [];
  Ok (map me_value l).

Definition first self : outcome (option (K * V)) :=
  x ← SumTree.first self; Ok (fmap (M:=option) entry_pair x).

Definition last self : outcome (option (K * V)) :=
  x ← tree_last self; Ok (fmap (M:=option) entry_pair x).

Definition insert_tree (sort_edits : list (Edit (MapEntry K V) (option K)) → list (Edit _ _)) self
    (other : t) : outcome t :=
  entries ← iter other;
  '(self, _) ← edit () sort_edits self (map (λ '(k, v), Insert (mkMapEntry k v)) entries);
  Ok self.

End tree_map.
Arguments t : clear implicits.
End TreeMap.

(** [struct TreeSet(TreeMap<K, ()>)]. *)
Module TreeSet.
Section tree_set.
Context {K : Type} `{!Ord K, !EqDecision K}.

Definition t : Type := TreeMap.t K ().
Implicit Types self : t.

Definition from_ordered_entries (entries : list K) : outcome t :=
  TreeMap.from_ordered_entries (map (λ k, (k, ())) entries).
Definition is_empty self : bool := TreeMap.is_empty self.
Definition insert self (k : K) : outcome t := TreeMap.insert self k ().
Definition remove self (k : K) : outcome (t * bool) :=
  '(self, removed) ← TreeMap.remove self k; Ok (self, bool_decide (is_Some removed)).
Definition extend sort_edits self (iter : list K) : outcome t :=
  TreeMap.extend sort_edits self (map (λ k, (k, ())) iter).
Definition contains self (k : K) : bool := bool_decide (is_Some (TreeMap.get self k)).
Definition iter self : outcome (list K) := l ← TreeMap.iter self; Ok (map fst l).
Definition iter_from (fuel : nat) self (k : K) : outcome (list K) :=
  l ← TreeMap.iter_from fuel self k; Ok (map fst l).

End tree_set.
Arguments t : clear implicits.
End TreeSet.
