(* ===== verification/TreeMapFacts.v ===== *)
(** [TreeMap] refines finite maps: its entries are sorted by key, and every operation does to
    the map they denote what the map operation does. *)
From stdpp Require Import gmap.
From S2P Require Import Prelude SumTree SumTreeFacts Seek Cursor CursorFacts CursorMoves CursorOps Keyed KeyedFacts TreeMap.

#[export] Instance map_key_laws {K} : SummaryLaws (S:=option K) ().
Proof. by split. Qed.

#[export] Instance map_key_dim_laws {K} : DimensionLaws (S:=option K) (option K) ().
Proof. by split. Qed.

#[export] Instance map_entry_laws {K V} `{!Ord K} :
  KeyedLaws (C:=()) (S:=option K) (T:=MapEntry K V) (option K) ().
Proof. by split. Qed.

Section tree_map.
Context {K V : Type} `{!Ord K, !EqDecision K, !OrdLaws K}.
Implicit Types (m : TreeMap.t K V) (k : K) (v : V) (e : MapEntry K V).

(** The invariant of a map: a keyed tree. *)
Definition tmap m : Prop := keyed_tree (K:=option K) () m.

Local Notation lt_k k := (λ e : MapEntry K V, ord_cmp (key e : option K) (Some k) = Lt).
Local Notation gt_k k := (λ e : MapEntry K V, ord_cmp (Some k) (key e : option K) = Lt).
Local Notation lookup k l := (klookup (Some k : option K) l).

Lemma get_lookup m k : tmap m → TreeMap.get m k = me_value <$> lookup k (tree_items m).
Proof.
  intros [Hw Hs]. set (l := tree_items m) in *. unfold TreeMap.get.
  rewrite (find_ok () (Some k) Left m (proj1 Hw)) by (by apply (seek_sorted_keyed (K:=option K) ()), (zero_from ())).
  fold l. rewrite (scan_keyed () (Some k) Left _ l Hs (zero_from () l)).
  rewrite left_ahead, left_behind by done.
  destruct (klookup (Some k) l) as [e|] eqn:He; simpl.
  - apply klookup_key in He as [He _]. by rewrite decide_True.
  - destruct (filter (gt_k k) l) as [|e g] eqn:Hg; [done|]. simpl.
    assert (e ∈ filter (gt_k k) l) as [Hlt _]%list_elem_of_filter by (rewrite Hg; left).
    rewrite decide_False; [done|]. intros Hk. rewrite <-Hk in Hlt.
    by rewrite ord_refl in Hlt.
Qed.

(** What [remove] and [update] test at the item after the slice. *)
Lemma end_is_key (c : Cursor (option K) (MapEntry K V) (option K)) k (l : list (MapEntry K V)) :
  walkable () (c_tree c) → sorted_keys (option K) l →
  seeked () c (filter (lt_k k) l) (option_list (lookup k l) ++ filter (gt_k k) l) →
  ∃ p : option K, cursor_end () c = Ok p ∧
    (seek_cmp (Tg:=option K) () (Some k) p = Eq ↔ is_Some (lookup k l)).
Proof.
  intros Hw Hs Hc. rewrite (end_seeked () _ _ _ Hc (proj1 Hw)).
  eexists. split; [done|]. unfold seek_cmp, ord_seek_target.
  destruct (klookup (Some k) l) as [x|] eqn:Hx; simpl.
  - apply klookup_key in Hx as [Hk _]. unfold item_summary, map_entry_item.
    change (Some (me_key x)) with (key x : option K). rewrite Hk. rewrite ord_refl. naive_solver.
  - split; [|by intros [??]]. intros Heq. exfalso.
    destruct (filter (gt_k k) l) as [|y g] eqn:Hg.
    + rewrite (seeked_position () _ _ _ Hc) in Heq. unfold pos_of in Heq.
      rewrite (pos_from_keyed ()) in Heq; [|by apply sorted_filter|apply (zero_from ())].
      unfold ends in Heq. destruct (list.last (filter (lt_k k) l)) as [z|] eqn:Hz; [|done].
      apply last_Some_elem_of, list_elem_of_filter in Hz as [Hz _].
      rewrite ord_antisym, Heq in Hz. done.
    + assert (y ∈ filter (gt_k k) l) as [Hlt _]%list_elem_of_filter by (rewrite Hg; left).
      change (ord_cmp (Some k) (key y : option K) = Eq) in Heq. congruence.
Qed.

Lemma remove_lookup m k :
  tmap m →
  ∃ m', TreeMap.remove m k = Ok (m', me_value <$> lookup k (tree_items m)) ∧
    wf_tree () m' ∧ tree_items m' = kremove (Some k : option K) (tree_items m).
Proof.
  intros [Hw Hs]. set (l := tree_items m) in *.
  destruct (keyed_slice_ok () (Some k) (cursor_new () m) [] l) as (c & n & Hsl & Hn & Hni & Ht & Hc);
    [done|done|by right|done|].
  unfold TreeMap.remove. cbv zeta. unfold TreeMap.cursor_of. rewrite Hsl. cbn [mbind outcome_bind].
  assert (walkable () (c_tree c)) as Hwc by by rewrite Ht.
  destruct (end_is_key c k l Hwc Hs Hc) as (p & -> & He). cbn [mbind outcome_bind].
  destruct (take_found () c _ _ _ Hwc Hc) as (c2 & Hit & Hm & Ht2 & Hc2).
  assert ((if decide (seek_cmp (Tg:=option K) () (Some k) p = Eq) then
       x ← item c; x ← unwrap x; c ← next () c; Ok (c, Some (me_value x))
     else Ok (c, None)) = Ok (c2, me_value <$> lookup k l)) as ->.
  { rewrite Hit. destruct (klookup (Some k) l) as [x|] eqn:Hx; simpl in Hm |- *.
    - rewrite decide_True by by apply He. apply klookup_key in Hx as [Hk _].
      rewrite decide_True in Hm by done.
      destruct (next () c); [|done..]. simpl in *. by injection Hm as ->.
    - rewrite decide_False by (rewrite He; by intros [??]).
      assert (Ok (c, None) = Ok (c2, None : option (MapEntry K V))) as [= ->]; [|done].
      rewrite <-Hm. destruct (head _) as [y|]; [|done]. case_decide; [|done].
      destruct (next () c); by simplify_eq. }
  cbn [mbind outcome_bind].
  destruct (suffix_ok () c2 _ _ ltac:(by rewrite Ht2) (or_introl Hc2))
    as (c3 & n3 & -> & Hn3 & Hni3 & _). cbn [mbind outcome_bind].
  destruct (append_ok () n n3 Hn Hn3) as (n4 & -> & Hn4 & Hni4). simpl.
  exists n4. split_and!; [done..|]. rewrite Hni4, Hni3, Hni. by rewrite kremove_split.
Qed.

(** The entries with the value of [k] replaced. *)
Definition kupdate (k : K) (g : V → V) (l : list (MapEntry K V)) : list (MapEntry K V) :=
  map (λ e, if decide (me_key e = k) then mkMapEntry (me_key e) (g (me_value e)) else e) l.

Lemma kupdate_id k g (l : list (MapEntry K V)) :
  Forall (λ e, me_key e ≠ k) l → kupdate k g l = l.
Proof. induction 1 as [|e l He _ IH]; simpl; [done|]. rewrite decide_False by done. by rewrite IH. Qed.

Lemma kupdate_split k g (l : list (MapEntry K V)) :
  sorted_keys (option K) l →
  kupdate k g l =
    filter (lt_k k) l ++
    (match lookup k l with Some e => [mkMapEntry (me_key e) (g (me_value e))] | None => [] end)
    ++ filter (gt_k k) l.
Proof.
  intros Hs. rewrite (sorted_split (Some k : option K) l Hs) at 1. unfold kupdate. rewrite !map_app.
  fold (kupdate k g (filter (lt_k k) l)) (kupdate k g (filter (gt_k k) l)).
  rewrite !kupdate_id.
  - destruct (klookup (Some k) l) as [x|] eqn:Hx; [|done].
    apply klookup_key in Hx as [[= Hk] _]. simpl. by rewrite decide_True.
  - apply Forall_forall. intros x [Hx _]%list_elem_of_filter Hk.
    unfold key, map_entry_key in Hx. rewrite Hk in Hx. by rewrite ord_refl in Hx.
  - apply Forall_forall. intros x [Hx _]%list_elem_of_filter Hk.
    unfold key, map_entry_key in Hx. rewrite Hk in Hx. by rewrite ord_refl in Hx.
Qed.

Lemma update_lookup {R} m k (f : V → V * R) :
  tmap m →
  ∃ m', TreeMap.update m k f =
      Ok (m', (λ e, (f (me_value e)).2) <$> lookup k (tree_items m)) ∧
    wf_tree () m' ∧ tree_items m' = kupdate k (λ v, (f v).1) (tree_items m).
Proof.
  intros [Hw Hs]. set (l := tree_items m) in *.
  destruct (keyed_slice_ok () (Some k) (cursor_new () m) [] l) as (c & n & Hsl & Hn & Hni & Ht & Hc);
    [done|done|by right|done|].
  unfold TreeMap.update. cbv zeta. unfold TreeMap.cursor_of. rewrite Hsl. cbn [mbind outcome_bind].
  assert (walkable () (c_tree c)) as Hwc by by rewrite Ht.
  destruct (end_is_key c k l Hwc Hs Hc) as (p & -> & He). cbn [mbind outcome_bind].
  destruct (take_found () c _ _ _ Hwc Hc) as (c2 & Hit & Hm & Ht2 & Hc2).
  rewrite (kupdate_split _ _ _ Hs).
  set (add := match lookup k l with
    | Some e => [mkMapEntry (me_key e) (f (me_value e)).1] | None => [] end).
  assert (∃ n2, (if decide (seek_cmp (Tg:=option K) () (Some k) p = Eq) then
       x ← item c; updated ← unwrap x;
       let '(v, r) := f (me_value updated) in
       new_tree ← push () n (mkMapEntry (me_key updated) v);
       c ← next () c; Ok (c, new_tree, Some r)
     else Ok (c, n, None)) = Ok (c2, n2, (λ e, (f (me_value e)).2) <$> lookup k l) ∧
    wf_tree () n2 ∧ tree_items n2 = tree_items n ++ add) as (n2 & -> & Hn2 & Hni2).
  { rewrite Hit. subst add. destruct (klookup (Some k) l) as [x|] eqn:Hx; simpl in Hm |- *.
    - rewrite decide_True by by apply He. apply klookup_key in Hx as [Hk _].
      rewrite decide_True in Hm by done. destruct (f (me_value x)) as [v r].
      destruct (push_ok () n (mkMapEntry (me_key x) v) Hn) as (n2 & -> & Hn2 & Hni2).
      destruct (next () c); [|done..]. simpl in *. injection Hm as ->. by exists n2.
    - rewrite decide_False by (rewrite He; by intros [??]). exists n. rewrite app_nil_r.
      split; [|done].
      assert (Ok (c, None) = Ok (c2, None : option (MapEntry K V))) as [= ->]; [|done].
      rewrite <-Hm. destruct (head _) as [y|]; [|done]. case_decide; [|done].
      destruct (next () c); by simplify_eq. }
  cbn [mbind outcome_bind].
  destruct (suffix_ok () c2 _ _ ltac:(by rewrite Ht2) (or_introl Hc2))
    as (c3 & n3 & -> & Hn3 & Hni3 & _). cbn [mbind outcome_bind].
  destruct (append_ok () n2 n3 Hn2 Hn3) as (n4 & -> & Hn4 & Hni4). simpl.
  exists n4. split_and!; [done..|]. rewrite Hni4, Hni3, Hni2, Hni. by rewrite <-app_assoc.
Qed.

Lemma insert_or_replace_lookup m k v :
  tmap m →
  ∃ m', TreeMap.insert_or_replace m k v = Ok (m', me_value <$> lookup k (tree_items m)) ∧
    TreeMap.insert m k v = Ok m' ∧ wf_tree () m' ∧
    tree_items m' = kinsert (K:=option K) (mkMapEntry k v) (tree_items m).
Proof.
  intros Hm. destruct (insert_or_replace_ok () m (mkMapEntry k v) Hm) as (m' & Hr & ? & ?).
  exists m'. unfold TreeMap.insert_or_replace, TreeMap.insert. rewrite Hr. done.
Qed.

Lemma closest_last m k :
  tmap m →
  TreeMap.closest m k =
    Ok (entry_pair <$> list.last (filter (λ e, ord_cmp k (me_key e) ≠ Lt) (tree_items m))).
Proof.
  intros [Hw Hs]. set (l := tree_items m) in *. unfold TreeMap.closest, TreeMap.cursor_of.
  destruct (seek_ok () (Some k : option K) Right (cursor_new () m)) as (c & -> & Ht & Hc);
    [done|by apply (seek_sorted_keyed (K:=option K) ()), (zero_from ())|done|].
  cbn [mbind outcome_bind].
  rewrite (scan_keyed () _ _ _ _ Hs (zero_from () l)) in Hc. cbn [fst snd] in Hc.
  assert (∀ l : list (MapEntry K V), filter (λ e, passed (Some k) Right e = true) l
    = filter (λ e, ord_cmp k (me_key e) ≠ Lt) l) as Hpass.
  { intros l'. apply list_filter_iff. intros e. by rewrite passed_right. }
  rewrite Hpass in Hc. fold l in Hc.
  assert (walkable () (c_tree c)) as Hwc by by rewrite Ht.
  assert (∃ pre post, behind () c pre post ∧ pre = filter (λ e, ord_cmp k (me_key e) ≠ Lt) l)
    as (pre & post & Hb & ->).
  { destruct Hc as [Hc|(Hc & -> & _)]; [eexists _, _; by split; [by constructor|]|].
    eexists _, _. split; [by apply behind_past|done]. }
  destruct (prev_ok () c _ _ Hwc Hb) as (c2 & -> & Ht2 & Hc2). cbn [mbind outcome_bind].
  unfold moved_back in Hc2. destruct (list.last _) as [x|].
  - destruct Hc2 as (a & _ & Hc2).
    assert (wf_tree () (c_tree c2)) as Hw2 by (rewrite Ht2; apply Hwc).
    by rewrite (item_seeked () c2 _ _ (or_introl Hc2) Hw2).
  - destruct Hc2 as (Hd & _ & Hst & _). unfold item, assert_did_seek. by rewrite Hd, Hst.
Qed.

Lemma iter_from_filter m k fuel :
  tmap m → length (tree_items m) < fuel →
  TreeMap.iter_from fuel m k =
    Ok (map entry_pair (filter (λ e, ord_cmp (me_key e) k ≠ Lt) (tree_items m))).
Proof.
  intros [Hw Hs] Hf. set (l := tree_items m) in *. unfold TreeMap.iter_from, TreeMap.cursor_of.
  destruct (seek_ok () (Some k : option K) Left (cursor_new () m)) as (c & -> & Ht & Hc);
    [done|by apply (seek_sorted_keyed (K:=option K) ()), (zero_from ())|done|].
  cbn [mbind outcome_bind].
  rewrite (scan_keyed () _ _ _ _ Hs (zero_from () l)) in Hc. cbn [fst snd] in Hc.
  assert (filter (λ e, passed (Some k) Left e = false) l
    = filter (λ e, ord_cmp (me_key e) k ≠ Lt) l) as Hpass.
  { apply list_filter_iff. intros e. rewrite <-not_true_iff_false, passed_left. done. }
  fold l in Hc. rewrite Hpass in Hc.
  destruct (iterate_all_ok () fuel c _ _ [] ltac:(by rewrite Ht) Hc) as (c' & -> & _).
  - eapply Nat.le_lt_trans; [apply length_filter|exact Hf].
  - done.
Qed.

Lemma map_retain_loop_ok fuel (predicate : K → V → bool) c pre post (new_map : TreeMap.t K V) :
  walkable () (c_tree c) → seeked () c pre post → wf_tree () new_map → length post < fuel →
  ∃ m', TreeMap.retain_loop fuel predicate c new_map = Ok m' ∧ wf_tree () m' ∧
    tree_items m' = tree_items new_map ++
      filter (λ e, predicate (me_key e) (me_value e) = true) post.
Proof.
  revert c pre post new_map. induction fuel as [|fuel IH]; intros c pre post new_map Hw Hc Hn Hf; [lia|].
  cbn [TreeMap.retain_loop]. rewrite (item_seeked () _ _ _ Hc (proj1 Hw)). cbn [mbind outcome_bind].
  pose proof (seeked_ahead () c pre post Hc) as Hah.
  destruct post as [|x post]; cbn [head]; [exists new_map; by rewrite app_nil_r|].
  assert (∃ n : TreeMap.t K V,
    (if predicate (me_key x) (me_value x) return outcome (TreeMap.t K V)
     then push () new_map x else Ok new_map) = Ok n ∧
    wf_tree () n ∧ tree_items n = tree_items new_map ++
      filter (λ e, predicate (me_key e) (me_value e) = true) [x]) as (n & -> & Hn' & Hni).
  { rewrite filter_cons. simpl. destruct (predicate _ _); simpl.
    - destruct (push_ok () new_map x Hn) as (n & ? & ? & ?). by exists n.
    - exists new_map. by rewrite app_nil_r. }
  cbn [mbind outcome_bind].
  destruct (next_ok () c _ _ Hw Hah) as (c' & -> & Ht & Hc'). cbn [mbind outcome_bind].
  simpl in Hf. destruct (IH c' _ post n ltac:(by rewrite Ht) Hc' Hn' ltac:(lia)) as (m' & -> & Hm' & Hi').
  exists m'. split_and!; [done..|]. rewrite Hi', Hni, <-app_assoc. f_equal.
  by rewrite <-filter_app.
Qed.

Lemma retain_filter m (predicate : K → V → bool) :
  tmap m →
  ∃ m', TreeMap.retain m predicate = Ok m' ∧ wf_tree () m' ∧
    tree_items m' = filter (λ e, predicate (me_key e) (me_value e) = true) (tree_items m).
Proof.
  intros [Hw Hs]. unfold TreeMap.retain, TreeMap.cursor_of.
  destruct (next_ok () (cursor_new (D:=option K) () m) [] (tree_items m) Hw) as (c & -> & Ht & Hc).
  { by constructor. }
  cbn [mbind outcome_bind].
  apply (map_retain_loop_ok _ predicate c [] (tree_items m) (new ())); [by rewrite Ht|done|by left|].
  pose proof (items_lt_fuel () m (proj1 Hw)). lia.
Qed.

Lemma iter_entries m : tmap m → TreeMap.iter m = Ok (map entry_pair (tree_items m)).
Proof.
  intros [Hw Hs]. unfold TreeMap.iter. rewrite (iter_all_ok () _ m Hw); [done|].
  pose proof (items_lt_fuel () m (proj1 Hw)). lia.
Qed.

Lemma values_entries m : tmap m → TreeMap.values m = Ok (map me_value (tree_items m)).
Proof.
  intros [Hw Hs]. unfold TreeMap.values. rewrite (iter_all_ok () _ m Hw); [done|].
  pose proof (items_lt_fuel () m (proj1 Hw)). lia.
Qed.

(** ** Ranges *)

(** A map seek target that compares lower and lower with greater and greater keys. *)
Definition monotone_target {Tg} `{!MapSeekTarget K Tg} (target : Tg) : Prop :=
  ∀ k1 k2 : K, ord_cmp k1 k2 = Lt → comparison_le (cmp_cursor target k2) (cmp_cursor target k1).

Lemma range_mono {Tg} `{!MapSeekTarget K Tg} (target : Tg) (p1 p2 : option K) :
  monotone_target target → ord_cmp p1 p2 ≠ Gt →
  comparison_le (seek_cmp () (mkAdaptor target) p2) (seek_cmp () (mkAdaptor target) p1).
Proof.
  intros Hm. unfold seek_cmp, map_seek_target_adaptor. destruct p1 as [k1|], p2 as [k2|]; simpl.
  - intros Hk. destruct (ord_cmp k1 k2) eqn:E; [|by apply Hm|by destruct Hk].
    apply ord_eq in E as ->. by destruct (cmp_cursor _ _).
  - by intros [].
  - by destruct (cmp_cursor _ _).
  - done.
Qed.

Lemma range_sorted {Tg} `{!MapSeekTarget K Tg} (target : Tg) (d : option K) (l : list (MapEntry K V)) :
  monotone_target target → sorted_keys (option K) l →
  Forall (λ e, ord_cmp d (key e : option K) ≠ Gt) l →
  seek_sorted () (mkAdaptor target) d l.
Proof.
  intros Hm Hs Hd l1 l2 l3 ->. apply range_mono; [done|].
  rewrite app_assoc in Hs, Hd. apply sorted_app in Hs as [Hs _]. apply Forall_app in Hd as [Hd _].
  rewrite pos_from_app. apply sorted_app in Hs as Hs'. apply Forall_app in Hd as Hd'.
  rewrite (pos_from_keyed () d l1) by (apply Hs' || apply Hd').
  rewrite (pos_from_keyed ()); [|apply Hs'|by apply from_ends].
  by apply ends_le, from_ends.
Qed.

Lemma range_scan {Tg} `{!MapSeekTarget K Tg} (target : Tg) (d : option K) (l : list (MapEntry K V)) :
  monotone_target target → sorted_keys (option K) l →
  scan () (mkAdaptor target) Left d l =
    (filter (λ e, cmp_cursor target (me_key e) = Gt) l,
     filter (λ e, cmp_cursor target (me_key e) ≠ Gt) l).
Proof.
  intros Hm. revert d. induction l as [|e l IH]; intros d Hs; [done|].
  apply sorted_cons in Hs as Hs'. destruct Hs' as [Hs' He]. simpl.
  unfold reached at 1, seek_cmp, map_seek_target_adaptor, target_in_child. simpl.
  destruct (cmp_cursor target (me_key e)) eqn:E.
  1,2: rewrite filter_cons_False by (by rewrite E); rewrite filter_cons_True by (by rewrite E);
    rewrite filter_none, filter_all; [done| |];
    (eapply Forall_impl; [exact He|]); intros e2 He2; specialize (Hm _ _ He2); simpl in Hm |- *;
    rewrite E in Hm; by destruct (cmp_cursor target (me_key e2)).
  rewrite filter_cons_True, filter_cons_False by (rewrite E; by auto).
  change (Some (me_key e)) with (key e : option K). by rewrite IH.
Qed.

Lemma remove_range_filter {T1 T2} `{!MapSeekTarget K T1, !MapSeekTarget K T2} m (start : T1) (end_ : T2) :
  tmap m → monotone_target start → monotone_target end_ →
  ∃ m', TreeMap.remove_range m start end_ = Ok m' ∧ wf_tree () m' ∧
    tree_items m' = filter (λ e, cmp_cursor start (me_key e) = Gt) (tree_items m)
      ++ filter (λ e, cmp_cursor end_ (me_key e) ≠ Gt) (tree_items m).
Proof.
  intros [Hw Hs] H1 H2. set (l := tree_items m) in *. unfold TreeMap.remove_range, TreeMap.cursor_of.
  destruct (slice_ok () (mkAdaptor start) Left (cursor_new (D:=option K) () m) [] l)
    as (c & n & -> & Hn & Hni & Ht & Hc).
  { split; [done|]. split; [by right|]. split; [|done]. apply range_sorted; [done..|apply (zero_from ())]. }
  cbn [mbind outcome_bind].
  rewrite range_scan in Hni by done. cbn [fst] in Hni.
  destruct (seek_ok () (mkAdaptor end_) Left c) as (c2 & -> & Ht2 & Hc2).
  { by rewrite Ht. }
  { rewrite Ht. apply range_sorted; [done..|apply (zero_from ())]. }
  { done. }
  cbn [mbind outcome_bind]. rewrite Ht in Hc2. rewrite range_scan in Hc2 by done. cbn [fst snd] in Hc2.
  destruct (suffix_ok () c2 _ _ ltac:(by rewrite Ht2, Ht) (or_introl Hc2))
    as (c3 & n3 & -> & Hn3 & Hni3 & _). cbn [mbind outcome_bind].
  destruct (append_ok () n n3 Hn Hn3) as (n4 & -> & Hn4 & Hni4).
  exists n4. split_and!; [done..|]. by rewrite Hni4, Hni3, Hni.
Qed.

(** A range from [start] to [end_] that are in order takes out what is in between. *)
Lemma range_filter {T1 T2} `{!MapSeekTarget K T1, !MapSeekTarget K T2} (start : T1) (end_ : T2)
    (l : list (MapEntry K V)) :
  sorted_keys (option K) l → monotone_target start → monotone_target end_ →
  (∀ k, cmp_cursor start k = Gt → cmp_cursor end_ k = Gt) →
  filter (λ e, cmp_cursor start (me_key e) = Gt) l ++ filter (λ e, cmp_cursor end_ (me_key e) ≠ Gt) l
  = filter (λ e, ¬ (cmp_cursor start (me_key e) ≠ Gt ∧ cmp_cursor end_ (me_key e) = Gt)) l.
Proof.
  intros Hs H1 H2 Hse. induction l as [|e l IH]; [done|].
  apply sorted_cons in Hs as [Hs He]. rewrite !filter_cons.
  destruct (decide (cmp_cursor start (me_key e) = Gt)) as [Ha|Ha].
  - rewrite decide_False by (rewrite (Hse _ Ha); by auto). rewrite decide_True by naive_solver.
    simpl. by rewrite IH.
  - assert (filter (λ e, cmp_cursor start (me_key e) = Gt) l = []) as Hnil.
    { apply filter_none. eapply Forall_impl; [exact He|]. intros e2 He2 Hgt.
      specialize (H1 _ _ He2). simpl in H1. rewrite Hgt in H1.
      by destruct (cmp_cursor start (me_key e)). }
    rewrite Hnil in *. simpl in IH |- *. rewrite IH by done.
    destruct (decide (cmp_cursor end_ (me_key e) ≠ Gt)); case_decide; naive_solver.
Qed.

(** ** Batches *)

Lemma extend_edits sort_edits m (iter : list (K * V)) :
  tmap m →
  let edits := map (λ '(k, v), Insert (K:=option K) (mkMapEntry k v)) iter in
  sort_edits edits ≡ₚ edits → NoDup (map fst iter) →
  StronglySorted (λ e1 e2 : Edit (MapEntry K V) (option K),
    ord_cmp (edit_key e1) (edit_key e2) ≠ Gt) (sort_edits edits) →
  ∃ m', TreeMap.extend sort_edits m iter = Ok m' ∧ wf_tree () m' ∧
    tree_items m' = foldl (kedit (K:=option K)) (tree_items m) (sort_edits edits).
Proof.
  intros Hm edits Hp Hnd Hs.
  assert (map edit_key edits = map Some (map fst iter)) as Hkeys.
  { subst edits. rewrite !map_map. apply map_ext. by intros []. }
  destruct (edit_ok () sort_edits m edits Hm) as (m' & Hr & Hw & Hi).
  - apply (sorted_edits_strict edits); [exact Hp| |done]. rewrite Hkeys. by apply (NoDup_fmap_2 Some).
  - rewrite Hp. apply Forall_forall.
    intros e (kv & -> & _)%list_elem_of_fmap. by destruct kv.
  - intros He. rewrite He in *. by apply Permutation_nil_r.
  - exists m'. unfold TreeMap.extend. fold edits. rewrite Hr. done.
Qed.

Lemma first_entry m : tmap m → TreeMap.first m = Ok (entry_pair <$> head (tree_items m)).
Proof.
  intros [[Hw _] _]. unfold TreeMap.first. destruct Hw as [->|[h Hn]]; [done|].
  by rewrite (first_ok () h).
Qed.

Lemma last_entry m : tmap m → TreeMap.last m = Ok (entry_pair <$> list.last (tree_items m)).
Proof.
  intros [[Hw _] _]. unfold TreeMap.last. destruct Hw as [->|[h Hn]]; [done|].
  by rewrite (tree_last_ok () h).
Qed.

Lemma from_ordered_entries_items (entries : list (K * V)) :
  ∃ m : TreeMap.t K V, TreeMap.from_ordered_entries entries = Ok m ∧ wf_tree () m ∧
    map entry_pair (tree_items m) = entries.
Proof.
  unfold TreeMap.from_ordered_entries.
  destruct (from_iter_ok () (map (λ '(k, v), mkMapEntry k v) entries)) as (m & Hr & Hw & Hi).
  exists m. split_and!; [done..|]. rewrite Hi, map_map. rewrite <-(map_id entries) at 2.
  apply map_ext. by intros [].
Qed.

End tree_map.

(** ** The finite map a tree map denotes *)

Section denotation.
Context {K V : Type} `{!Ord K, !EqDecision K, !Countable K, !OrdLaws K}.
Implicit Types (m : TreeMap.t K V) (k : K) (v : V) (l : list (MapEntry K V)).

Definition entries_map l : gmap K V := list_to_map (map entry_pair l).
Definition denote m : gmap K V := entries_map (tree_items m).

Local Notation lookup_k k l := (klookup (Some k : option K) l).

Lemma entries_map_lookup l k : entries_map l !! k = me_value <$> lookup_k k l.
Proof.
  unfold entries_map, klookup. induction l as [|e l IH]; simpl; [by rewrite lookup_empty|].
  rewrite filter_cons. destruct (decide (me_key e = k)) as [<-|Hk].
  - by rewrite lookup_insert_eq, decide_True.
  - rewrite lookup_insert_ne, IH by done. rewrite decide_False; [done|].
    unfold key, map_entry_key. congruence.
Qed.

Lemma get_denote m k : tmap m → TreeMap.get m k = denote m !! k.
Proof. intros Hm. by rewrite get_lookup, <-entries_map_lookup. Qed.

Lemma entries_insert k v l :
  entries_map (kinsert (K:=option K) (mkMapEntry k v) l) = <[k:=v]> (entries_map l).
Proof.
  apply map_eq. intros k'. rewrite entries_map_lookup, klookup_kinsert.
  destruct (decide (k = k')) as [<-|Hk].
  - by rewrite decide_True, lookup_insert_eq.
  - rewrite decide_False, lookup_insert_ne, entries_map_lookup; [done|done|].
    unfold key, map_entry_key. simpl. congruence.
Qed.

Lemma entries_delete k l : entries_map (kremove (Some k : option K) l) = delete k (entries_map l).
Proof.
  apply map_eq. intros k'. rewrite entries_map_lookup, klookup_kremove.
  destruct (decide (k = k')) as [<-|Hk].
  - by rewrite decide_True, lookup_delete_eq.
  - rewrite decide_False, lookup_delete_ne, entries_map_lookup; [done|done|]. congruence.
Qed.

Lemma entries_update k g l : entries_map (kupdate k g l) = alter g k (entries_map l).
Proof.
  unfold entries_map, kupdate. induction l as [|e l IH]; simpl; [by rewrite alter_empty|].
  rewrite IH. case_decide as Hk; simpl.
  - subst k. apply map_eq. intros k'. destruct (decide (me_key e = k')) as [<-|].
    + by rewrite lookup_alter_eq, !lookup_insert_eq.
    + by rewrite lookup_alter_ne, !lookup_insert_ne, lookup_alter_ne.
  - apply map_eq. intros k'. destruct (decide (k = k')) as [<-|].
    + by rewrite lookup_alter_eq, !lookup_insert_ne, lookup_alter_eq by done.
    + rewrite lookup_alter_ne by done. destruct (decide (me_key e = k')) as [<-|].
      * by rewrite !lookup_insert_eq.
      * by rewrite !lookup_insert_ne, lookup_alter_ne by done.
Qed.

Lemma sorted_NoDup_keys l : sorted_keys (option K) l → NoDup (map me_key l).
Proof.
  induction l as [|e l IH]; simpl; [constructor|]. intros [Hs He]%sorted_cons.
  apply NoDup_cons. split; [|by apply IH]. intros (e2 & Hk & He2)%list_elem_of_fmap.
  rewrite Forall_forall in He. specialize (He e2 He2). simpl in He.
  unfold key, map_entry_key in He. rewrite Hk in He. by rewrite ord_refl in He.
Qed.

Lemma entries_filter (P : K → V → bool) l :
  sorted_keys (option K) l →
  entries_map (filter (λ e, P (me_key e) (me_value e) = true) l)
  = filter (λ kv, P kv.1 kv.2 = true) (entries_map l).
Proof.
  unfold entries_map. induction l as [|e l IH]; simpl; [by rewrite map_filter_empty|]. intros Hs.
  pose proof (sorted_NoDup_keys _ Hs) as Hnd. simpl in Hnd. apply NoDup_cons in Hnd as [He _].
  apply sorted_cons in Hs as [Hs _].
  assert ((list_to_map (map entry_pair l) : gmap K V) !! me_key e = None) as Hnone.
  { apply not_elem_of_list_to_map_1. change (me_key e ∉ map fst (map entry_pair l)).
    by rewrite map_map. }
  rewrite filter_cons. destruct (decide (P (me_key e) (me_value e) = true)) as [HP|HP]; simpl.
  - rewrite map_filter_insert_True by done. by rewrite IH.
  - rewrite map_filter_insert_False by done. by rewrite delete_id, IH.
Qed.

Lemma entries_edits (iter : list (K * V)) l :
  NoDup (map fst iter) →
  ∀ es, es ≡ₚ map (λ '(k, v), Insert (K:=option K) (mkMapEntry k v)) iter →
  entries_map (foldl (kedit (K:=option K)) l es) = list_to_map iter ∪ entries_map l.
Proof.
  intros Hnd es Hes. apply map_eq. intros k.
  assert (NoDup (map edit_key (map (λ '(k, v), Insert (K:=option K) (mkMapEntry k v)) iter))) as Hnd'.
  { rewrite map_map, (map_ext _ (λ kv, Some (fst kv))) by by intros []. rewrite <-(map_map fst Some).
    by apply (NoDup_fmap_2 Some). }
  rewrite entries_map_lookup, klookup_kedits by by rewrite Hes.
  rewrite (edit_for_Permutation _ es _ ltac:(by rewrite Hes) Hes).
  rewrite lookup_union, entries_map_lookup. clear Hes Hnd Hnd' es.
  induction iter as [|[k' v'] iter IH]; simpl.
  - rewrite lookup_empty. by destruct (lookup_k k l).
  - rewrite edit_for_cons. destruct (decide (k' = k)) as [<-|Hk].
    + rewrite decide_True by done. rewrite lookup_insert_eq. simpl. by destruct (lookup_k k' l).
    + rewrite decide_False by (simpl; unfold key, map_entry_key; simpl; congruence).
      rewrite lookup_insert_ne by done. exact IH.
Qed.

End denotation.
