(* ===== verification/SumTreeTheorems.v ===== *)
(** What the sum tree, its cursors and the ordered map promise: the properties of
    [crates/sum_tree], each over every well-formed tree, with an instance on a map of forty
    entries. *)
From stdpp Require Import gmap.
From S2P Require Import Prelude SumTree SumTreeFacts Seek Cursor CursorFacts CursorMoves CursorOps Keyed KeyedFacts TreeMap TreeMapFacts.

(** ** The example the properties are instantiated on *)

Definition demo_entries : list (nat * nat) := map (λ i, (2 * i, i)) (seq 0 40).

Definition demo_map : TreeMap.t nat nat :=
  match TreeMap.from_ordered_entries demo_entries with Ok m => m | _ => TreeMap.default end.

Lemma demo_wf : wf_tree () demo_map ∧ map entry_pair (tree_items demo_map) = demo_entries.
Proof.
  unfold demo_map. destruct (from_ordered_entries_items demo_entries) as (m & -> & Hw & Hi). done.
Qed.

Lemma demo_walkable : walkable () demo_map.
Proof.
  split; [apply demo_wf|].
  assert (height demo_map = 1) as -> by by vm_compute. unfold STACK_CAP. lia.
Qed.

Lemma demo_sorted : sorted_keys (option nat) (tree_items demo_map).
Proof.
  assert (tree_items demo_map = map (λ i, mkMapEntry (2 * i) i) (seq 0 40)) as -> by by vm_compute.
  unfold sorted_keys, keys_lt. generalize 0 at 2. intros a. generalize 40. intros n.
  revert a. induction n as [|n IH]; intros a; simpl; constructor; [apply IH|].
  apply Forall_forall. intros e (i & -> & Hi)%list_elem_of_fmap.
  apply elem_of_seq in Hi. unfold key, map_entry_key, ord_cmp, option_ord, ord_cmp, nat_ord. simpl.
  apply Nat.compare_lt_iff. lia.
Qed.

Lemma demo_tmap : tmap demo_map.
Proof. split; [apply demo_walkable|apply demo_sorted]. Qed.

Lemma demo_seek_sorted (k : option nat) : seek_sorted () k (None : option nat) (tree_items demo_map).
Proof. apply (seek_sorted_keyed (K:=option nat) ()); [apply demo_sorted|by apply Forall_true]. Qed.

(** ** Building and changing trees *)

Section building.
Context {C S T : Type} `{!Summary C S, !Item C S T} (cx : C) `{!SummaryLaws cx}.
Implicit Types n : Node S T.

(** C1: [append] (with [push_tree_recursive], [append_large], [merge_into_right] and
    [from_child_trees] behind it) never panics on well-formed trees; the result is a
    well-formed tree, its items are the items of both trees in order, and its cached summary is
    the sum of the items' summaries. *)
Theorem append_concatenates n1 n2 :
  wf_tree cx n1 → wf_tree cx n2 →
  ∃ n, append cx n1 n2 = Ok n ∧ wf_tree cx n ∧ tree_items n = tree_items n1 ++ tree_items n2 ∧
    summary n = sum cx (map (item_summary cx) (tree_items n1 ++ tree_items n2)).
Proof.
  intros H1 H2. destruct (append_ok cx n1 n2 H1 H2) as (n & Hr & Hw & Hi).
  exists n. split_and!; [done..|]. by rewrite <-Hi, (wf_tree_summary cx n Hw).
Qed.

(** [from_iter] builds a well-formed tree of exactly the items it is given, whose height
    is logarithmic in their number (so that the 16 entries of a cursor's stack are enough for
    12^16 items), and the parallel [from_par_iter] builds the same tree. *)
Theorem from_iter_builds (iter : list T) :
  ∃ n, from_iter cx iter = Ok n ∧ from_par_iter cx iter = Ok n ∧ wf_tree cx n ∧
    tree_items n = iter ∧ (length iter ≤ CAP ^ STACK_CAP → walkable cx n).
Proof.
  destruct (from_iter_height cx iter) as (n & Hr & Hw & Hi & Hh).
  exists n. rewrite (from_par_iter_eq cx). split_and!; [done..|]. intros Hl. split; [done|].
  specialize (Hh 15 Hl). unfold STACK_CAP. lia.
Qed.

(** [update_last] and [update_first] replace the last and the first item by [f] of it and
    nothing else, restore every cached summary on the way up, and do nothing to an empty tree. *)
Theorem update_ends n (f : T → T) :
  wf_tree cx n →
  (∃ n', update_last cx f n = Ok n' ∧ wf_tree cx n' ∧
    tree_items n' = match last (tree_items n) with
                    | Some x => take (length (tree_items n) - 1) (tree_items n) ++ [f x]
                    | None => [] end) ∧
  (∃ n', update_first cx f n = Ok n' ∧ wf_tree cx n' ∧
    tree_items n' = match tree_items n with x :: l => f x :: l | [] => [] end).
Proof.
  intros [->|[h Hn]].
  { split; exists (new cx); by split_and!; [|left|]. }
  split.
  - destruct (update_last_rec_ok cx f h n Hn) as (n' & Hr & Hw & l & x & Hi & Hi').
    exists n'. unfold update_last. rewrite Hr. split_and!; [done|by eapply wf_tree_node|].
    rewrite Hi, last_snoc, Hi', length_app. simpl. by rewrite Nat.add_sub, take_app_length.
  - destruct (update_first_rec_ok cx f h n Hn) as (n' & Hr & Hw & x & l & Hi & Hi').
    exists n'. unfold update_first. rewrite Hr. split_and!; [done|by eapply wf_tree_node|].
    by rewrite Hi, Hi'.
Qed.

End building.

Lemma append_concatenates_witness :
  ∃ n, append () demo_map demo_map = Ok n ∧ length (tree_items n) = 80.
Proof.
  destruct (append_concatenates () demo_map demo_map (proj1 demo_wf) (proj1 demo_wf))
    as (n & Hr & _ & Hi & _).
  exists n. split; [exact Hr|]. rewrite Hi. by vm_compute.
Defined.

Lemma from_iter_builds_witness :
  ∃ n, from_iter () (map (λ i, mkMapEntry i i) (seq 0 100)) = Ok n ∧ walkable () n.
Proof.
  destruct (from_iter_builds () (map (λ i, mkMapEntry i i) (seq 0 100))) as (n & Hr & _ & _ & _ & Hw).
  exists n. split; [exact Hr|]. apply Hw. rewrite length_map, length_seq.
  transitivity (CAP ^ 2); [rewrite TREE_BASE_eq; simpl; lia|].
  apply Nat.pow_le_mono_r; [rewrite TREE_BASE_eq; lia|unfold STACK_CAP; lia].
Defined.

Lemma update_ends_witness :
  ∃ n', update_last () (λ e, mkMapEntry (me_key e) 7) demo_map = Ok n' ∧
    last (tree_items n') = Some (mkMapEntry 78 7).
Proof.
  destruct (update_ends () demo_map (λ e, mkMapEntry (me_key e) 7) (proj1 demo_wf))
    as [(n' & Hr & _ & Hi) _].
  exists n'. split; [exact Hr|]. rewrite Hi. by vm_compute.
Defined.

(** ** Searching *)

Section searching.
Context {C S T D Tg : Type}.
Context `{!Summary C S, !Item C S T, !Dimension C S D, !SeekTarget C D Tg} (cx : C).
Context `{!SummaryLaws cx, !DimensionLaws (S:=S) D cx}.
Implicit Types (n : Node S T) (c : Cursor S T D) (pre post l : list T).

(** On a tree whose items are sorted for the target, [find] and [find_with_prev] return
    what the linear scan of the items returns: the position before the first item whose end has
    reached the target, the position after it, the item, and the item before it. *)
Theorem find_agrees_with_scan n (target : Tg) bias :
  wf_tree cx n → seek_sorted cx target (dim_zero (S:=S) cx : D) (tree_items n) →
  match scan cx target bias (dim_zero (S:=S) cx : D) (tree_items n) with
  | (l, x :: _) =>
      find cx n target bias = (pos_of cx l : D, pos_of cx (l ++ [x]), Some x) ∧
      find_with_prev cx n target bias = Ok (pos_of cx l : D, pos_of cx (l ++ [x]), Some (last l, x))
  | (l, []) =>
      find cx n target bias = (pos_of cx l : D, pos_of cx l, None) ∧
      find_with_prev cx n target bias = Ok (pos_of cx l : D, pos_of cx l, None)
  end.
Proof.
  intros Hn Hs. rewrite (find_ok cx target bias n Hn Hs), (find_with_prev_ok cx target bias n Hn Hs).
  by destruct (scan _ _ _ _ _) as [l [|x b]].
Qed.

(** C2: [seek] restarts the cursor and moves it to the first item whose end has reached the
    target, whatever the cursor's state was: [item] returns that item, [start] is the sum of the
    items before it and [end] adds it, the result says whether the end is at the target, and no
    loop runs out of fuel or panics. *)
Theorem seek_finds (target : Tg) bias c :
  walkable cx (c_tree c) →
  seek_sorted cx target (dim_zero (S:=S) cx : D) (tree_items (c_tree c)) →
  seek_cmp cx target (dim_zero (S:=S) cx : D) ≠ Lt →
  let '(l, r) := scan cx target bias (dim_zero (S:=S) cx : D) (tree_items (c_tree c)) in
  ∃ c', seek cx target bias c
      = Ok (c', bool_decide (seek_cmp cx target (seek_end (D:=D) cx bias l r) = Eq)) ∧
    start c' = pos_of cx l ∧ item c' = Ok (head r) ∧
    cursor_end cx c' = Ok (match r with x :: _ => pos_of cx (l ++ [x]) | [] => pos_of cx l end).
Proof.
  intros Hw Hs Hlt. destruct (seek_ok cx target bias c Hw Hs Hlt) as (c' & Hr & Ht & Hc).
  destruct (scan _ _ _ _ _) as [l r]. cbn [fst snd] in *. exists c'.
  assert (wf_tree cx (c_tree c')) as Hw' by (rewrite Ht; apply Hw).
  split_and!; [done|by eapply (seeked_position cx)|by eapply (item_seeked cx)|].
  rewrite (end_seeked cx c' l r Hc Hw'), (seeked_position cx c' l r Hc).
  destruct r; [done|]. by rewrite pos_of_app.
Qed.

(** C3: cutting a tree with a cursor loses nothing: the slice up to the target and the suffix
    after it are well-formed trees, the slice holds exactly the items whose end has not reached
    the target, and the items of both, in order, are the items of the tree. *)
Theorem slice_suffix_partition (target : Tg) bias (tree : Node S T) :
  walkable cx tree → seek_sorted cx target (dim_zero (S:=S) cx : D) (tree_items tree) →
  seek_cmp cx target (dim_zero (S:=S) cx : D) ≠ Lt →
  ∃ c left_ right_ c',
    slice cx target bias (cursor_new (D:=D) cx tree) = Ok (c, left_) ∧
    suffix cx c = Ok (c', right_) ∧ wf_tree cx left_ ∧ wf_tree cx right_ ∧
    tree_items left_ = (scan cx target bias (dim_zero (S:=S) cx : D) (tree_items tree)).1 ∧
    tree_items left_ ++ tree_items right_ = tree_items tree.
Proof.
  intros Hw Hs Hlt.
  destruct (slice_ok cx target bias (cursor_new cx tree) [] (tree_items tree))
    as (c & n1 & Hr1 & Hn1 & Hi1 & Ht & Hc); [by apply (unseeked_pre cx target (cursor_new cx tree))|].
  destruct (suffix_ok cx c _ _ ltac:(by rewrite Ht) (or_introl Hc)) as (c' & n2 & Hr2 & Hn2 & Hi2 & _).
  exists c, n1, n2, c'. split_and!; [done..|]. rewrite Hi1, Hi2. apply scan_app.
Qed.

(** A cursor measures what it passes over: [summary] to a target, from wherever the cursor
    is, returns the other dimension of exactly the items between the cursor and the target, and
    leaves the cursor at the target. *)
Theorem summary_measures `{!Dimension C S Out, !DimensionLaws (S:=S) Out cx} (target : Tg) bias c
    pre post :
  walkable cx (c_tree c) → seeked cx c pre post →
  seek_sorted cx target (pos_of cx pre : D) post → seek_cmp cx target (pos_of cx pre : D) ≠ Lt →
  let '(l, r) := scan cx target bias (pos_of cx pre : D) post in
  ∃ c', cursor_summary cx target bias c = Ok (c', pos_of cx l : Out) ∧
    seeked cx c' (pre ++ l) r ∧ tree_items (c_tree c) = (pre ++ l) ++ r.
Proof.
  intros Hw Hc Hs Hlt.
  destruct (cursor_summary_ok (Out:=Out) cx target bias c pre post) as (c' & Hr & Ht & Hc').
  { split; [done|]. split; [by left|done]. }
  destruct (scan _ _ _ _ _) as [l r]. cbn [fst snd] in *. exists c'. split_and!; [done..|].
  rewrite <-Ht. by apply (seeked_items cx).
Qed.

(** A cursor that was neither sought nor moved refuses to say where it is, and one that is
    past the target refuses to go back to it. *)
Theorem cursor_panics (tree : Node S T) c (target : Tg) bias :
  let fresh := cursor_new (D:=D) cx tree in
  item fresh = Panic ∧ cursor_item_summary fresh = Panic ∧ next_item fresh = Panic ∧
  prev_item fresh = Panic ∧ cursor_end cx fresh = Panic ∧
  (seek_cmp cx target (start c) = Lt →
    seek_forward cx target bias c = Panic ∧ slice cx target bias c = Panic).
Proof.
  split_and!; [done..|]. intros Hlt. unfold seek_forward, slice, seek_internal, start in *.
  by rewrite Hlt.
Qed.

End searching.

Lemma find_agrees_with_scan_witness :
  (find (D:=option nat) () demo_map (Some 31) Left).2 = Some (mkMapEntry 32 16).
Proof.
  pose proof (find_agrees_with_scan (D:=option nat) () demo_map (Some 31) Left (proj1 demo_wf)
    (demo_seek_sorted _)) as H.
  assert (scan () (Some 31) Left (None : option nat) (tree_items demo_map)
    = (map (λ i, mkMapEntry (2 * i) i) (seq 0 16), map (λ i, mkMapEntry (2 * i) i) (seq 16 24)))
    as Hsc by by vm_compute.
  change (dim_zero () : option nat) with (None : option nat) in H. rewrite Hsc in H.
  destruct H as [-> _]. by vm_compute.
Defined.

Lemma seek_finds_witness :
  ∃ c, seek () (Some 30) Left (cursor_new (D:=option nat) () demo_map) = Ok (c, true) ∧
    item c = Ok (Some (mkMapEntry 30 15)).
Proof.
  pose proof (seek_finds () (Some 30) Left (cursor_new (D:=option nat) () demo_map) demo_walkable
    (demo_seek_sorted _) ltac:(discriminate)) as H.
  assert (scan () (Some 30) Left (None : option nat) (tree_items demo_map)
    = (map (λ i, mkMapEntry (2 * i) i) (seq 0 15), map (λ i, mkMapEntry (2 * i) i) (seq 15 25)))
    as Hsc by by vm_compute.
  change (dim_zero () : option nat) with (None : option nat) in H.
  change (c_tree (cursor_new () demo_map)) with demo_map in H. rewrite Hsc in H.
  destruct H as (c & Hr & _ & Hi & _). exists c. split; [rewrite Hr; by vm_compute|].
  rewrite Hi. by vm_compute.
Defined.

Lemma slice_suffix_partition_witness :
  ∃ c left_ right_ c', slice () (Some 31) Left (cursor_new (D:=option nat) () demo_map) = Ok (c, left_) ∧
    suffix () c = Ok (c', right_) ∧ length (tree_items left_) = 16 ∧ length (tree_items right_) = 24.
Proof.
  destruct (slice_suffix_partition () (Some 31) Left demo_map demo_walkable (demo_seek_sorted _)
    ltac:(discriminate)) as (c & n1 & n2 & c' & H1 & H2 & _ & _ & Hi1 & Hi2).
  exists c, n1, n2, c'. split_and!; [done..| |].
  - rewrite Hi1. by vm_compute.
  - apply (f_equal length) in Hi2. rewrite length_app, Hi1 in Hi2. vm_compute in Hi2.
    by injection Hi2.
Defined.

Lemma summary_measures_witness :
  ∃ c c', seek () (Some 30) Left (cursor_new (D:=option nat) () demo_map) = Ok (c, true) ∧
    cursor_summary () (Some 50) Right c = Ok (c', Some 50 : option nat).
Proof.
  destruct (seek_ok () (Some 30) Left (cursor_new (D:=option nat) () demo_map) demo_walkable
    (demo_seek_sorted _) ltac:(discriminate)) as (c & Hr & Ht & Hc).
  change (dim_zero () : option nat) with (None : option nat) in Hr, Hc.
  assert (scan () (Some 30) Left (None : option nat) (tree_items demo_map)
    = (map (λ i, mkMapEntry (2 * i) i) (seq 0 15), map (λ i, mkMapEntry (2 * i) i) (seq 15 25)))
    as Hsc by by vm_compute.
  change (c_tree (cursor_new () demo_map)) with demo_map in Hr, Hc, Ht. rewrite Hsc in Hr, Hc.
  cbn [fst snd] in Hr, Hc.
  pose proof (summary_measures (Out:=option nat) () (Some 50) Right c _ _
    ltac:(rewrite Ht; apply demo_walkable) Hc) as H.
  assert (scan () (Some 50) Right (Some 28 : option nat) (map (λ i, mkMapEntry (2 * i) i) (seq 15 25))
    = (map (λ i, mkMapEntry (2 * i) i) (seq 15 11), map (λ i, mkMapEntry (2 * i) i) (seq 26 14)))
    as Hsc2 by by vm_compute.
  assert (pos_of () (map (λ i, mkMapEntry (2 * i) i) (seq 0 15)) = (Some 28 : option nat)) as Hpos
    by by vm_compute.
  rewrite Hpos, Hsc2 in H. destruct H as (c' & Hr' & _).
  - rewrite <-Hpos. eapply seek_sorted_app. pose proof (demo_seek_sorted (Some 50)) as Hd.
    by rewrite <-(scan_app () (Some 30) Left None (tree_items demo_map)), Hsc in Hd.
  - discriminate.
  - exists c, c'. split; [rewrite Hr; by vm_compute|]. rewrite Hr'. by vm_compute.
Defined.

Lemma cursor_panics_witness :
  seek_forward () (Some 3) Left
    (mkCursor (D:=option nat) demo_map [] (Some 5) true true) = Panic.
Proof.
  destruct (cursor_panics () demo_map (mkCursor (D:=option nat) demo_map [] (Some 5) true true)
    (Some 3) Left) as (_ & _ & _ & _ & _ & H).
  apply H. by vm_compute.
Defined.

(** ** Moving and iterating *)

Section moving.
Context {C S T D : Type}.
Context `{!Summary C S, !Item C S T, !Dimension C S D} (cx : C).
Context `{!SummaryLaws cx, !DimensionLaws (S:=S) D cx}.
Implicit Types (n : Node S T) (c : Cursor S T D) (pre post l : list T).

(** At an item, [next] moves to the item after it (or to the end), its position the sum of
    all items passed, and [prev] from there comes back to the item and to its position. *)
Theorem next_then_prev c pre x post :
  walkable cx (c_tree c) → at_item cx c pre (x :: post) →
  ∃ c1 c2, next cx c = Ok c1 ∧ item c1 = Ok (head post) ∧ start c1 = pos_of cx (pre ++ [x]) ∧
    prev cx c1 = Ok c2 ∧ item c2 = Ok (Some x) ∧ start c2 = start c.
Proof.
  intros Hw Hc. destruct (next_ok cx c _ _ Hw (ahead_item cx c pre x post Hc)) as (c1 & H1 & Ht1 & Hc1).
  assert (walkable cx (c_tree c1)) as Hw1 by by rewrite Ht1.
  assert (behind cx c1 (pre ++ [x]) post) as Hb.
  { destruct Hc1 as [Hc1|(Hc1 & -> & ->)]; by constructor. }
  destruct (prev_ok cx c1 _ _ Hw1 Hb) as (c2 & H2 & Ht2 & Hc2).
  unfold moved_back in Hc2. rewrite last_snoc in Hc2.
  destruct Hc2 as (a & Ha%app_inj_tail & Hc2). destruct Ha as [<- _].
  exists c1, c2. split_and!; [done| | |done| |].
  - by apply (item_seeked cx c1 _ _ Hc1 (proj1 Hw1)).
  - by apply (seeked_position cx c1 _ _ Hc1).
  - eapply (item_seeked cx c2 _ _ (or_introl Hc2)). rewrite Ht2. apply Hw1.
  - destruct Hc as (_ & _ & Hp & _), Hc2 as (_ & _ & Hp2 & _). unfold start. congruence.
Qed.

(** Every way to enumerate a tree yields exactly its items in order: [SumTree::items],
    draining [Iter], and draining a cursor from any position yields the items from there on. *)
Theorem enumerations_agree (tree : Node S T) c pre post fuel :
  walkable cx tree → length (tree_items tree) < fuel →
  c_tree c = tree → seeked cx c pre post →
  items cx tree = Ok (tree_items tree) ∧
  iter_all fuel (iter tree) [] = Ok (tree_items tree) ∧
  (∃ c', iterate_all cx fuel (cursor_new (D:=D) cx tree) [] = Ok (c', tree_items tree)) ∧
  (∃ c', iterate_all cx fuel c [] = Ok (c', post) ∧ tree_items tree = pre ++ post).
Proof.
  intros Hw Hf Ht Hc. pose proof (seeked_items cx c pre post Hc) as Hi. rewrite Ht in Hi.
  split_and!; [by apply items_ok|by apply (iter_all_ok cx)| |].
  - destruct (iterate_all_new (D:=D) cx fuel tree [] Hw Hf) as (c' & Hr & _). by exists c'.
  - destruct (iterate_all_ok cx fuel c pre post []) as (c' & Hr & _); [by rewrite Ht|done| |].
    + rewrite Hi, length_app in Hf. lia.
    + by exists c'.
Qed.

(** A filtered cursor visits, in order, exactly the items whose own summary the filter
    accepts, however the filter cuts whole subtrees off, provided it never rejects the summary
    of a subtree that holds an item it accepts. *)
Theorem filter_cursor_visits filter_node (tree : Node S T) fuel :
  filter_sound cx filter_node → walkable cx tree → length (tree_items tree) < fuel →
  ∃ f, filter_iterate_all cx fuel (filter_new (D:=D) cx tree filter_node) [] =
    Ok (f, filter (λ x, filter_node (item_summary cx x) = true) (tree_items tree)).
Proof.
  intros Hs Hw Hf.
  destruct (filter_iterate_all_new (D:=D) cx filter_node fuel tree Hs Hw Hf) as (f & ->).
  exists f. repeat f_equal. apply list_filter_iff. intros x. unfold accepts.
  by rewrite Is_true_true.
Qed.

End moving.

Lemma demo_seek_30 :
  ∃ c, seek () (Some 30) Left (cursor_new (D:=option nat) () demo_map) = Ok (c, true) ∧
    c_tree c = demo_map ∧
    at_item () c (map (λ i, mkMapEntry (2 * i) i) (seq 0 15))
      (mkMapEntry 30 15 :: map (λ i, mkMapEntry (2 * i) i) (seq 16 24)).
Proof.
  destruct (seek_ok () (Some 30) Left (cursor_new (D:=option nat) () demo_map) demo_walkable
    (demo_seek_sorted _) ltac:(discriminate)) as (c & Hr & Ht & Hc).
  change (dim_zero () : option nat) with (None : option nat) in Hr, Hc.
  assert (scan () (Some 30) Left (None : option nat) (tree_items demo_map)
    = (map (λ i, mkMapEntry (2 * i) i) (seq 0 15),
       mkMapEntry 30 15 :: map (λ i, mkMapEntry (2 * i) i) (seq 16 24)))
    as Hsc by by vm_compute.
  change (c_tree (cursor_new () demo_map)) with demo_map in Hr, Hc, Ht. rewrite Hsc in Hr, Hc.
  exists c. split_and!; [rewrite Hr; by vm_compute|done|].
  destruct Hc as [Hc|(_ & _ & Hc)]; [exact Hc|discriminate Hc].
Qed.

Lemma next_then_prev_witness :
  ∃ c c1 c2, seek () (Some 30) Left (cursor_new (D:=option nat) () demo_map) = Ok (c, true) ∧
    next () c = Ok c1 ∧ item c1 = Ok (Some (mkMapEntry 32 16)) ∧
    prev () c1 = Ok c2 ∧ item c2 = Ok (Some (mkMapEntry 30 15)).
Proof.
  destruct demo_seek_30 as (c & Hr & Ht & Hc).
  destruct (next_then_prev () c _ _ _ ltac:(rewrite Ht; apply demo_walkable) Hc)
    as (c1 & c2 & H1 & H2 & _ & H3 & H4 & _).
  by exists c, c1, c2.
Defined.

Lemma enumerations_agree_witness :
  ∃ c', iterate_all (D:=option nat) () 41 (cursor_new () demo_map) [] = Ok (c', tree_items demo_map).
Proof.
  destruct demo_seek_30 as (c & _ & Ht & Hc).
  destruct (enumerations_agree () demo_map c _ _ 41 demo_walkable
    ltac:(apply Nat.ltb_lt; vm_compute; reflexivity) Ht (or_introl Hc)) as (_ & _ & H & _).
  exact H.
Defined.

Lemma filter_cursor_visits_witness :
  ∃ f, filter_iterate_all (D:=option nat) () 41 (filter_new () demo_map (λ _, true)) []
    = Ok (f, tree_items demo_map).
Proof.
  destruct (filter_cursor_visits (D:=option nat) () (λ _, true) demo_map 41 ltac:(done) demo_walkable
    ltac:(apply Nat.ltb_lt; vm_compute; reflexivity)) as (f & Hf).
  exists f. rewrite Hf. by rewrite filter_all by by apply Forall_true.
Defined.

(** ** Keyed trees *)

Section keyed.
Context {C S T K : Type}.
Context `{!Summary C S, !Item C S T, !Dimension C S K, !Ord K, !EqDecision K, !KeyedItem T K}.
Context (cx : C) `{!SummaryLaws cx, !DimensionLaws (S:=S) K cx, !OrdLaws K, !KeyedLaws K cx}.
Implicit Types (tree : Node S T) (k : K).

(** [insert_or_replace], [remove] and [get] on a tree whose items are sorted by key refine
    the sorted list: the item goes to its place, only the item with the same key is replaced or
    removed and it is returned, the keys stay sorted, and [get] finds by key. *)
Theorem keyed_operations tree item k :
  keyed_tree cx tree → ord_cmp k (dim_zero (S:=S) cx : K) ≠ Lt →
  let l := tree_items tree in
  tree_get cx tree k = klookup k l ∧
  (∃ tree', insert_or_replace (K:=K) cx tree item = Ok (tree', klookup (key item) l) ∧
    wf_tree cx tree' ∧ tree_items tree' = kinsert (K:=K) item l ∧
    sorted_keys K (tree_items tree') ∧
    klookup k (tree_items tree') = if decide (key item = k) then Some item else klookup k l) ∧
  (∃ tree', tree_remove cx tree k = Ok (tree', klookup k l) ∧
    wf_tree cx tree' ∧ tree_items tree' = kremove k l ∧ sorted_keys K (tree_items tree')).
Proof.
  intros Ht Hk l. split_and!; [by apply (tree_get_ok cx)| |].
  - destruct (insert_or_replace_ok cx tree item Ht) as (tree' & Hr & Hw & Hi).
    exists tree'. rewrite Hi. split_and!; try done; [by apply sorted_kinsert, Ht|].
    by rewrite klookup_kinsert.
  - destruct (tree_remove_ok cx tree k Ht Hk) as (tree' & Hr & Hw & Hi).
    exists tree'. rewrite Hi. split_and!; try done. by apply sorted_kremove, Ht.
Qed.

(** [edit] applies a batch of edits, in any order, to a sorted tree in one pass: when no
    key is edited twice, the key of an inserted item leads to that item, a removed key to
    nothing, every other key to what it led to before; the keys stay sorted; and the replaced
    and removed items are returned in the order of their keys. *)
Theorem edit_applies_batch sort_edits tree (edits : list (Edit T K)) k :
  keyed_tree cx tree → sort_edits edits ≡ₚ edits →
  StronglySorted (λ e1 e2 : Edit T K, ord_cmp (edit_key e1) (edit_key e2) ≠ Gt) (sort_edits edits) →
  NoDup (map edit_key edits) →
  Forall (λ e : Edit T K, ord_cmp (edit_key e) (dim_zero (S:=S) cx) ≠ Lt) edits →
  ∃ tree', edit cx sort_edits tree edits =
      Ok (tree', omap (λ e : Edit T K, klookup (edit_key e) (tree_items tree)) (sort_edits edits)) ∧
    wf_tree cx tree' ∧ sorted_keys K (tree_items tree') ∧
    klookup k (tree_items tree') = edited k (tree_items tree) (edit_for k edits).
Proof.
  intros Ht Hp Hs Hnd Hz.
  destruct (edit_ok cx sort_edits tree edits Ht) as (tree' & Hr & Hw & Hi).
  - by apply (sorted_edits_strict edits).
  - by rewrite Hp.
  - intros ->. by apply Permutation_nil_r.
  - exists tree'. rewrite Hi. split_and!; try done; [by apply sorted_kedits, Ht|].
    rewrite klookup_kedits by by rewrite Hp. f_equal.
    apply edit_for_Permutation; [by rewrite Hp|done].
Qed.

End keyed.

Lemma keyed_operations_witness :
  ∃ tree', insert_or_replace (K:=option nat) () demo_map (mkMapEntry 31 99) = Ok (tree', None) ∧
    klookup (Some 31 : option nat) (tree_items tree') = Some (mkMapEntry 31 99).
Proof.
  assert (ord_cmp (Some 31 : option nat) (dim_zero (S:=option nat) () : option nat) ≠ Lt) as Hz
    by done.
  destruct (keyed_operations (K:=option nat) () demo_map (mkMapEntry 31 99) (Some 31) demo_tmap Hz)
    as (_ & (tree' & Hr & _ & _ & _ & Hl) & _).
  exists tree'. split; [rewrite Hr; by vm_compute|exact Hl].
Defined.

Lemma edit_applies_batch_witness :
  ∃ tree', edit () id demo_map [Remove (Some 3); Insert (mkMapEntry 4 9)]
      = Ok (tree', [mkMapEntry 4 2]) ∧
    klookup (Some 4 : option nat) (tree_items tree') = Some (mkMapEntry 4 9).
Proof.
  destruct (edit_applies_batch (K:=option nat) () id demo_map [Remove (Some 3); Insert (mkMapEntry 4 9)] (Some 4)
    demo_tmap) as (tree' & Hr & _ & _ & Hl).
  - done.
  - repeat constructor; done.
  - apply (bool_decide_unpack _). by vm_compute.
  - repeat constructor; done.
  - exists tree'. split; [rewrite Hr; by vm_compute|exact Hl].
Defined.

(** ** The ordered map *)

Section map.
Context {K V : Type} `{!Ord K, !EqDecision K, !Countable K, !OrdLaws K}.
Implicit Types (m : TreeMap.t K V) (k : K) (v : V).

(** C5: [TreeMap] implements a finite map: [get] is lookup, [insert_or_replace] and [insert]
    are insertion and return the old value, [remove] is deletion and returns the removed value,
    and the map stays a balanced tree with the summaries of its entries, which are sorted by their keys. *)
Theorem map_refines_gmap m k v :
  tmap m →
  TreeMap.get m k = denote m !! k ∧
  (∃ m', TreeMap.insert_or_replace m k v = Ok (m', denote m !! k) ∧ TreeMap.insert m k v = Ok m' ∧
    denote m' = <[k:=v]> (denote m) ∧ wf_tree () m' ∧ sorted_keys (option K) (tree_items m')) ∧
  (∃ m', TreeMap.remove m k = Ok (m', denote m !! k) ∧
    denote m' = delete k (denote m) ∧ wf_tree () m' ∧ sorted_keys (option K) (tree_items m')).
Proof.
  intros Hm. unfold denote. rewrite entries_map_lookup. split_and!.
  - by apply get_lookup.
  - destruct (insert_or_replace_lookup m k v Hm) as (m' & H1 & H2 & Hw & Hi).
    exists m'. rewrite Hi. do 2 (split; [done|]). split; [apply entries_insert|].
    split; [done|]. by apply sorted_kinsert, Hm.
  - destruct (remove_lookup m k Hm) as (m' & H1 & Hw & Hi).
    exists m'. rewrite Hi. split; [done|]. split; [apply entries_delete|].
    split; [done|]. by apply sorted_kremove, Hm.
Qed.

(** [update] changes the value of one key through the function, returns the function's
    result, and leaves every other entry, and the map when the key is absent, as it was. *)
Theorem map_update {R} m k (f : V → V * R) :
  tmap m →
  ∃ m', TreeMap.update m k f = Ok (m', (λ v, (f v).2) <$> denote m !! k) ∧
    denote m' = alter (λ v, (f v).1) k (denote m) ∧
    map me_key (tree_items m') = map me_key (tree_items m).
Proof.
  intros Hm. destruct (update_lookup m k f Hm) as (m' & Hr & _ & Hi).
  exists m'. unfold denote. rewrite Hi. split_and!; [|apply entries_update|].
  - rewrite Hr, entries_map_lookup. by destruct (klookup _ _).
  - unfold kupdate. rewrite map_map. apply map_ext. intros e. by case_decide.
Qed.

(** [remove_range] from a start to an end that are in order takes out exactly the entries
    between them, end excluded, for any monotone search targets, and [retain] exactly the
    entries its predicate rejects. *)
Theorem map_bulk_removal {T1 T2} `{!MapSeekTarget K T1, !MapSeekTarget K T2} m
    (start : T1) (end_ : T2) (predicate : K → V → bool) :
  tmap m → monotone_target start → monotone_target end_ →
  (∀ k, cmp_cursor start k = Gt → cmp_cursor end_ k = Gt) →
  (∃ m', TreeMap.remove_range m start end_ = Ok m' ∧
    tree_items m' = filter (λ e, ¬ (cmp_cursor start (me_key e) ≠ Gt ∧
                                    cmp_cursor end_ (me_key e) = Gt)) (tree_items m)) ∧
  (∃ m', TreeMap.retain m predicate = Ok m' ∧
    denote m' = filter (λ kv, predicate kv.1 kv.2 = true) (denote m)).
Proof.
  intros Hm H1 H2 Hse. split.
  - destruct (remove_range_filter m start end_ Hm H1 H2) as (m' & Hr & _ & Hi).
    exists m'. split; [done|]. rewrite Hi. apply range_filter; [apply Hm|done..].
  - destruct (retain_filter m predicate Hm) as (m' & Hr & _ & Hi).
    exists m'. split; [done|]. unfold denote. rewrite Hi. apply entries_filter, Hm.
Qed.

(** [closest] returns the entry with the greatest key not above the given key, and
    [iter_from] the entries whose key is not below it, in order. *)
Theorem map_neighbours m k fuel :
  tmap m → length (tree_items m) < fuel →
  TreeMap.closest m k =
    Ok (entry_pair <$> last (filter (λ e, ord_cmp k (me_key e) ≠ Lt) (tree_items m))) ∧
  TreeMap.iter_from fuel m k =
    Ok (map entry_pair (filter (λ e, ord_cmp (me_key e) k ≠ Lt) (tree_items m))).
Proof. intros Hm Hf. split; [by apply closest_last|by apply iter_from_filter]. Qed.

(** [extend] with pairs whose keys are distinct adds them to the map, the new value
    winning, whatever the order of the pairs, and keeps the entries sorted. *)
Theorem map_extend sort_edits m (iter : list (K * V)) :
  tmap m → NoDup (map fst iter) →
  let edits := map (λ '(k, v), Insert (K:=option K) (mkMapEntry k v)) iter in
  sort_edits edits ≡ₚ edits →
  StronglySorted (λ e1 e2 : Edit (MapEntry K V) (option K),
    ord_cmp (edit_key e1) (edit_key e2) ≠ Gt) (sort_edits edits) →
  ∃ m', TreeMap.extend sort_edits m iter = Ok m' ∧
    denote m' = list_to_map iter ∪ denote m ∧ sorted_keys (option K) (tree_items m').
Proof.
  intros Hm Hnd edits Hp Hs.
  destruct (extend_edits sort_edits m iter Hm Hp Hnd Hs) as (m' & Hr & _ & Hi).
  exists m'. unfold denote. rewrite Hi. split_and!; [done| |].
  - by apply entries_edits.
  - apply sorted_kedits, Hm.
Qed.

End map.

Lemma map_refines_gmap_witness :
  TreeMap.get demo_map 30 = Some 15 ∧ TreeMap.get demo_map 31 = None.
Proof.
  destruct (map_refines_gmap demo_map 30 0 demo_tmap) as [H1 _].
  destruct (map_refines_gmap demo_map 31 0 demo_tmap) as [H2 _].
  rewrite H1, H2. by vm_compute.
Defined.

Lemma map_update_witness :
  ∃ m', TreeMap.update demo_map 30 (λ v, (v + 1, v)) = Ok (m', Some 15) ∧
    denote m' !! 30 = Some 16.
Proof.
  destruct (map_update demo_map 30 (λ v, (v + 1, v)) demo_tmap) as (m' & Hr & Hd & _).
  exists m'. rewrite Hr, Hd. split; by vm_compute.
Defined.

Lemma nat_monotone_target (k : nat) : monotone_target k.
Proof.
  intros k1 k2 H. unfold cmp_cursor, ord_map_seek_target. apply ord_cmp_mono. by rewrite H.
Qed.

Lemma map_bulk_removal_witness :
  ∃ m', TreeMap.remove_range demo_map 10 20 = Ok m' ∧ length (tree_items m') = 35.
Proof.
  destruct (map_bulk_removal demo_map 10 20 (λ _ _, true) demo_tmap (nat_monotone_target 10)
    (nat_monotone_target 20)) as [(m' & Hr & Hi) _].
  - intros k. unfold cmp_cursor, ord_map_seek_target, ord_cmp, nat_ord.
    intros ?%Nat.compare_gt_iff. apply Nat.compare_gt_iff. lia.
  - exists m'. split; [exact Hr|]. rewrite Hi. by vm_compute.
Defined.

Lemma map_neighbours_witness :
  TreeMap.closest demo_map 31 = Ok (Some (30, 15)) ∧
  TreeMap.iter_from 41 demo_map 75 = Ok [(76, 38); (78, 39)].
Proof.
  destruct (map_neighbours demo_map 31 41 demo_tmap ltac:(apply Nat.ltb_lt; vm_compute; reflexivity))
    as [-> _].
  destruct (map_neighbours demo_map 75 41 demo_tmap ltac:(apply Nat.ltb_lt; vm_compute; reflexivity))
    as [_ ->].
  split; by vm_compute.
Defined.

Lemma map_extend_witness :
  ∃ m', TreeMap.extend id demo_map [(30, 1); (31, 2)] = Ok m' ∧
    denote m' !! 30 = Some 1 ∧ denote m' !! 31 = Some 2 ∧ denote m' !! 32 = Some 16.
Proof.
  destruct (map_extend id demo_map [(30, 1); (31, 2)] demo_tmap) as (m' & Hr & Hd & _).
  - apply (bool_decide_unpack _). by vm_compute.
  - done.
  - repeat constructor; done.
  - exists m'. split; [exact Hr|]. rewrite Hd. split_and!; vm_compute; reflexivity.
Defined.
