(* ===== verification/Geometry.v ===== *)
(** Points, sizes and rectangles of [crates/gpui/src/geometry.rs]: the operations that hit testing,
    clipping and the z-order index [BoundsTree.v] are built on, over a class of coordinates. *)
From Stdlib Require Import ZArith.
From S2P Require Import Prelude.

(** ** Coordinates *)

(** The operations of a coordinate type that the code uses: [Add], [Sub], [PartialOrd] ([clt] is
    [<], [cle] is [<=]; [a > b] is [clt b a]), [Default] and [Half]. *)
Class Coord (U : Type) := {
  cadd : U → U → U;
  csub : U → U → U;
  clt : U → U → bool;
  cle : U → U → bool;
  czero : U;
  chalf : U → U;
}.

(** A total order that addition preserves, with exact addition and subtraction.  Integer
    coordinates such as [DevicePixels] obey the laws as long as no operation overflows;
    floating-point coordinates obey them as long as no operation rounds. *)
Class CoordLaws (U : Type) `{Coord U} : Prop := {
  cle_refl a : cle a a = true;
  cle_trans a b c : cle a b = true → cle b c = true → cle a c = true;
  cle_antisym a b : cle a b = true → cle b a = true → a = b;
  clt_nle a b : clt a b = negb (cle b a);
  cle_total a b : cle a b = true ∨ cle b a = true;
  cadd_csub a b : cadd a (csub b a) = b;
  cadd_cle a b c : cle (cadd a b) (cadd a c) = cle b c;
  cadd_czero a : cadd a czero = a;
}.

(** [i32] without overflow. *)
#[export] Instance Z_coord : Coord Z := {|
  cadd := Z.add; csub := Z.sub; clt := Z.ltb; cle := Z.leb; czero := 0%Z;
  chalf a := Z.quot a 2;
|}.
#[export] Instance Z_coord_laws : CoordLaws Z.
Proof.
  split; simpl; intros; try lia.
  all: apply eq_true_iff_eq; rewrite ?negb_true_iff; lia.
Qed.

(** ** Points, sizes and bounds *)

Record Point (U : Type) : Type := point { x : U; y : U }.
Arguments point {U}.
Arguments x {U}.
Arguments y {U}.

Record Size (U : Type) : Type := size { width : U; height : U }.
Arguments size {U}.
Arguments width {U}.
Arguments height {U}.

Record Bounds (U : Type) : Type := bounds { origin : Point U; bsize : Size U }.
Arguments bounds {U}.
Arguments origin {U}.
Arguments bsize {U}.

Section geometry.
Context {U : Type} `{!Coord U}.
Implicit Types p : Point U.
Implicit Types self other r : Bounds U.

(** [Point::relative_to], [Point::max] and [Point::min]. *)
Definition relative_to p (origin : Point U) : Point U :=
  point (csub (x p) (x origin)) (csub (y p) (y origin)).
Definition point_max p (other : Point U) : Point U :=
  point (if clt (x other) (x p) then x p else x other)
        (if clt (y other) (y p) then y p else y other).
Definition point_min p (other : Point U) : Point U :=
  point (if cle (x p) (x other) then x p else x other)
        (if cle (y p) (y other) then y p else y other).

(** [Bounds::from_corners]. *)
Definition from_corners (top_left bottom_right : Point U) : Bounds U :=
  bounds (point (x top_left) (y top_left))
    (size (csub (x bottom_right) (x top_left)) (csub (y bottom_right) (y top_left))).

Definition top self : U := y (origin self).
Definition bottom self : U := cadd (y (origin self)) (height (bsize self)).
Definition left self : U := x (origin self).
Definition right self : U := cadd (x (origin self)) (width (bsize self)).

(** [Bounds::bottom_right], [top_right] and [bottom_left]. *)
Definition bottom_right self : Point U :=
  point (cadd (x (origin self)) (width (bsize self))) (cadd (y (origin self)) (height (bsize self))).
Definition top_right self : Point U :=
  point (cadd (x (origin self)) (width (bsize self))) (y (origin self)).
Definition bottom_left self : Point U :=
  point (x (origin self)) (cadd (y (origin self)) (height (bsize self))).

(** [Bounds::intersects]. *)
Definition intersects self other : bool :=
  let my_lower_right := bottom_right self in
  let their_lower_right := bottom_right other in
  clt (x (origin self)) (x their_lower_right)
    && clt (x (origin other)) (x my_lower_right)
    && clt (y (origin self)) (y their_lower_right)
    && clt (y (origin other)) (y my_lower_right).

(** [Bounds::half_perimeter]. *)
Definition half_perimeter self : U := cadd (width (bsize self)) (height (bsize self)).

(** [Bounds::intersect] and [Bounds::union]. *)
Definition intersect self other : Bounds U :=
  let upper_left := point_max (origin self) (origin other) in
  let bottom_right :=
    point_max (point_min (bottom_right self) (bottom_right other)) upper_left in
  from_corners upper_left bottom_right.
Definition union self other : Bounds U :=
  let top_left := point_min (origin self) (origin other) in
  let bottom_right := point_max (bottom_right self) (bottom_right other) in
  from_corners top_left bottom_right.

(** [Bounds::contains], [is_contained_within], [localize] and [is_empty]. *)
Definition contains self p : bool :=
  cle (x (origin self)) (x p)
    && clt (x p) (cadd (x (origin self)) (width (bsize self)))
    && cle (y (origin self)) (y p)
    && clt (y p) (cadd (y (origin self)) (height (bsize self))).
Definition is_contained_within self other : bool :=
  contains other (origin self) && contains other (bottom_right self).
Definition localize self p : option (Point U) :=
  if contains self p then Some (relative_to p (origin self)) else None.
Definition is_empty self : bool :=
  cle (width (bsize self)) czero || cle (height (bsize self)) czero.

(** [self] encloses [other]: its four edges are at or beyond those of [other]. *)
Definition encloses self other : Prop :=
  cle (x (origin self)) (x (origin other)) = true ∧ cle (y (origin self)) (y (origin other)) = true ∧
  cle (x (bottom_right other)) (x (bottom_right self)) = true ∧
  cle (y (bottom_right other)) (y (bottom_right self)) = true.

(** ** Facts *)

Context `{!CoordLaws U}.
Implicit Types a b c : U.

Lemma clt_false a b : clt a b = false ↔ cle b a = true.
Proof. rewrite clt_nle. by destruct (cle b a). Qed.
Lemma clt_true a b : clt a b = true ↔ cle b a = false.
Proof. rewrite clt_nle. by destruct (cle b a). Qed.
Lemma cle_false a b : cle a b = false → cle b a = true.
Proof. destruct (cle_total a b); congruence. Qed.
Lemma cle_lt_trans a b c : cle a b = true → clt b c = true → clt a c = true.
Proof.
  rewrite !clt_true. intros Hab Hbc. destruct (cle c a) eqn:Hca; [|done].
  by rewrite (cle_trans c a b) in Hbc.
Qed.
Lemma clt_le_trans a b c : clt a b = true → cle b c = true → clt a c = true.
Proof.
  rewrite !clt_true. intros Hab Hbc. destruct (cle c a) eqn:Hca; [|done].
  by rewrite (cle_trans b c a) in Hab.
Qed.

(** The smaller and the larger of two coordinates, however they are computed. *)
Lemma cle_min a b c : cle c (if cle a b then a else b) = cle c a && cle c b.
Proof.
  apply eq_true_iff_eq. rewrite andb_true_iff. destruct (cle a b) eqn:Hab.
  - split; [eauto using cle_trans|by intros [??]].
  - apply cle_false in Hab. split; [eauto using cle_trans|by intros [??]].
Qed.
Lemma max_cle a b c : cle (if clt b a then a else b) c = cle a c && cle b c.
Proof.
  apply eq_true_iff_eq. rewrite andb_true_iff. destruct (clt b a) eqn:Hab.
  - apply clt_true, cle_false in Hab. split; [eauto using cle_trans|by intros [??]].
  - apply clt_false in Hab. split; [eauto using cle_trans|by intros [??]].
Qed.
Lemma max_clt a b c : clt (if clt b a then a else b) c = clt a c && clt b c.
Proof.
  apply eq_true_iff_eq. rewrite andb_true_iff. destruct (clt b a) eqn:Hab.
  - apply clt_true, cle_false in Hab. split; [eauto using cle_lt_trans|by intros [??]].
  - apply clt_false in Hab. split; [eauto using cle_lt_trans|by intros [??]].
Qed.
Lemma clt_min a b c : clt c (if cle a b then a else b) = clt c a && clt c b.
Proof.
  apply eq_true_iff_eq. rewrite andb_true_iff. destruct (cle a b) eqn:Hab.
  - split; [eauto using clt_le_trans|by intros [??]].
  - apply cle_false in Hab. split; [eauto using clt_le_trans|by intros [??]].
Qed.
Lemma clt_max a b c : clt c (if clt b a then a else b) = clt c a || clt c b.
Proof.
  apply eq_true_iff_eq. rewrite orb_true_iff. destruct (clt b a) eqn:Hab.
  - apply clt_true, cle_false in Hab. split; [auto|intros [|]; eauto using clt_le_trans].
  - apply clt_false in Hab. split; [auto|intros [|]; eauto using clt_le_trans].
Qed.

Lemma bottom_right_from_corners p q : bottom_right (from_corners p q) = q.
Proof. destruct q. unfold bottom_right, from_corners. simpl. by rewrite !cadd_csub. Qed.
Lemma origin_from_corners p q : origin (from_corners p q) = p.
Proof. by destruct p. Qed.

Lemma encloses_refl r : encloses r r.
Proof. unfold encloses. repeat split; apply cle_refl. Qed.
Lemma encloses_trans r1 r2 r3 : encloses r1 r2 → encloses r2 r3 → encloses r1 r3.
Proof.
  intros (?&?&?&?) (?&?&?&?). repeat split; eapply cle_trans; eassumption.
Qed.

Lemma encloses_union r1 r2 r3 : encloses r3 (union r1 r2) ↔ encloses r3 r1 ∧ encloses r3 r2.
Proof.
  unfold encloses, union. rewrite bottom_right_from_corners. simpl.
  rewrite !cle_min, !max_cle, !andb_true_iff. naive_solver.
Qed.
Lemma union_encloses_l r1 r2 : encloses (union r1 r2) r1.
Proof. by apply (encloses_union r1 r2), encloses_refl. Qed.
Lemma union_encloses_r r1 r2 : encloses (union r1 r2) r2.
Proof. by apply (encloses_union r1 r2), encloses_refl. Qed.

(** Whoever meets a rectangle meets what encloses it. *)
Lemma intersects_encloses q r1 r2 :
  encloses r1 r2 → intersects q r2 = true → intersects q r1 = true.
Proof.
  unfold encloses, intersects. intros (H1 & H2 & H3 & H4). rewrite !andb_true_iff.
  intros (((?&?)&?)&?). repeat split; first [eapply cle_lt_trans; eassumption|eapply clt_le_trans; eassumption].
Qed.

Lemma contains_corners r p :
  contains r p = cle (x (origin r)) (x p) && clt (x p) (x (bottom_right r))
    && cle (y (origin r)) (y p) && clt (y p) (y (bottom_right r)).
Proof. done. Qed.

Lemma clt_irrefl a : clt a a = false.
Proof. apply clt_false, cle_refl. Qed.

(** One axis of [intersect]: the clipped interval, for membership and for emptiness. *)
Lemma clip_axis a1 a2 b1 b2 v :
  let lo := if clt a2 a1 then a1 else a2 in
  let hi := if cle b1 b2 then b1 else b2 in
  cle lo v && clt v (if clt lo hi then hi else lo)
    = (cle a1 v && clt v b1) && (cle a2 v && clt v b2).
Proof.
  simpl. rewrite clt_max, !max_cle, !clt_max, !clt_min, !clt_nle.
  by destruct (cle a1 v), (cle a2 v), (cle b1 v), (cle b2 v).
Qed.
Lemma clip_axis_empty a1 a2 b1 b2 :
  clt a1 b1 = true → clt a2 b2 = true →
  let lo := if clt a2 a1 then a1 else a2 in
  let hi := if cle b1 b2 then b1 else b2 in
  clt lo (if clt lo hi then hi else lo) = clt a1 b2 && clt a2 b1.
Proof.
  intros H1 H2. simpl. rewrite clt_max, clt_irrefl, orb_false_r.
  rewrite clt_min, !max_clt, H1, H2. simpl.
  by destruct (clt a1 b2), (clt a2 b1).
Qed.

Lemma contains_intersect r1 r2 p : contains (intersect r1 r2) p = contains r1 p && contains r2 p.
Proof.
  rewrite !contains_corners. unfold intersect.
  rewrite bottom_right_from_corners, origin_from_corners. cbn [x y point_max point_min].
  rewrite <-!andb_assoc, andb_assoc, !clip_axis.
  by repeat match goal with |- context [cle ?a ?b] => destruct (cle a b) end;
    repeat match goal with |- context [clt ?a ?b] => destruct (clt a b) end.
Qed.

Lemma is_empty_corners r :
  is_empty r = negb (clt (x (origin r)) (x (bottom_right r))
    && clt (y (origin r)) (y (bottom_right r))).
Proof.
  unfold is_empty, bottom_right. cbn [x y]. rewrite !clt_nle, negb_andb, !negb_involutive.
  rewrite <-(cadd_czero (x (origin r))) at 2. rewrite <-(cadd_czero (y (origin r))) at 2.
  by rewrite !cadd_cle.
Qed.

Lemma is_empty_intersect r1 r2 :
  is_empty r1 = false → is_empty r2 = false →
  is_empty (intersect r1 r2) = negb (intersects r1 r2).
Proof.
  rewrite !is_empty_corners, !negb_false_iff, !andb_true_iff. intros [Hx1 Hy1] [Hx2 Hy2].
  unfold intersect. rewrite bottom_right_from_corners, origin_from_corners.
  cbn [x y point_max point_min]. f_equal. rewrite !clip_axis_empty by done.
  unfold intersects. by rewrite !andb_assoc.
Qed.

Lemma is_contained_within_encloses r1 r2 : is_contained_within r1 r2 = true → encloses r2 r1.
Proof.
  unfold is_contained_within, encloses. rewrite !contains_corners, !andb_true_iff, !clt_true.
  intros [[[[??]?]?] [[[??]?]?]]. repeat split; auto using cle_false.
Qed.

(** Rectangles form a lattice under enclosure, on coordinates with exact arithmetic: [union]
    is the least rectangle that encloses both, clipping with [intersect] keeps exactly the points
    that both contain, two rectangles that are not empty intersect exactly when their clip is not
    empty, [localize] answers exactly for the contained points, and [is_contained_within] implies
    enclosure, but is false of a rectangle and itself, since the right and bottom edges are not
    contained. *)
Theorem bounds_lattice r1 r2 r3 p :
  (encloses r3 (union r1 r2) ↔ encloses r3 r1 ∧ encloses r3 r2) ∧
  contains (intersect r1 r2) p = contains r1 p && contains r2 p ∧
  (is_empty r1 = false → is_empty r2 = false →
     is_empty (intersect r1 r2) = negb (intersects r1 r2)) ∧
  (localize r1 p = None ↔ contains r1 p = false) ∧
  (is_contained_within r1 r2 = true → encloses r2 r1) ∧ is_contained_within r1 r1 = false.
Proof.
  split_and!.
  - apply encloses_union.
  - apply contains_intersect.
  - apply is_empty_intersect.
  - unfold localize. by destruct (contains r1 p).
  - apply is_contained_within_encloses.
  - unfold is_contained_within. rewrite (contains_corners _ (bottom_right r1)), !clt_irrefl.
    by rewrite !andb_false_r.
Qed.

End geometry.

Lemma bounds_lattice_witness :
  let r1 := bounds (point 0 0)%Z (size 10 10)%Z in
  let r2 := bounds (point 5 5)%Z (size 10 10)%Z in
  is_empty (intersect r1 r2) = negb (intersects r1 r2) ∧
  is_contained_within (bounds (point 1 1) (size 2 2))%Z r1 = true ∧
  encloses r1 (bounds (point 1 1) (size 2 2))%Z.
Proof.
  cbv zeta.
  destruct (bounds_lattice (bounds (point 0 0)%Z (size 10 10)%Z)
    (bounds (point 5 5)%Z (size 10 10)%Z) (bounds (point 0 0)%Z (size 10 10)%Z) (point 0 0)%Z)
    as (_ & _ & H & _).
  split; [apply H; reflexivity|]. split; [reflexivity|].
  destruct (bounds_lattice (bounds (point 1 1) (size 2 2))%Z
    (bounds (point 0 0)%Z (size 10 10)%Z) (bounds (point 0 0)%Z (size 10 10)%Z) (point 0 0)%Z)
    as (_ & _ & _ & _ & H' & _).
  apply H'. reflexivity.
Defined.

(** Rectangles that do not meet may still have a clip with one side that is not zero. *)
Example clip_of_disjoint_keeps_a_side :
  bsize (intersect (bounds (point 0 0) (size 10 10)) (bounds (point 20 0) (size 10 10)))%Z
    = size 0%Z 10%Z.
Proof. reflexivity. Qed.
