(* ===== verification/BoundsTree.v ===== *)
(** The z-order index of [crates/gpui/src/bounds_tree.rs]: an R-tree in an arena of nodes that
    assigns to each inserted rectangle an order above the orders of the rectangles it meets. *)
From Stdlib Require Import NArith.
From S2P Require Import Prelude Geometry.

(** [const MAX_CHILDREN]. *)
Definition MAX_CHILDREN : nat := 12.

(** [struct NodeChildren]: an array of [MAX_CHILDREN] indices, of which [len] are used. *)
Record NodeChildren : Type := mkChildren { indices : list nat; len : nat }.

Inductive NodeKind := Leaf (order : N) | Internal (children : NodeChildren).

Record Node (U : Type) : Type := mkNode {
  node_bounds : Bounds U;
  max_order : N;
  kind : NodeKind;
}.
Arguments mkNode {U}.
Arguments node_bounds {U}.
Arguments max_order {U}.
Arguments kind {U}.

(** [struct BoundsTree].  The two reusable stacks are locals of the operations, which clear them
    before use. *)
Record BoundsTree (U : Type) : Type := mkTree {
  nodes : list (Node U);
  root : option nat;
  max_leaf : option nat;
}.
Arguments mkTree {U}.
Arguments nodes {U}.
Arguments root {U}.
Arguments max_leaf {U}.

(** [u32] addition, which panics on overflow in a checked build. *)
Definition u32_add (a b : N) : outcome N :=
  if decide (a + b < 2 ^ 32)%N then Ok (a + b)%N else Panic.

(** [slice::swap]. *)
Definition swap (l : list nat) (a b : nat) : outcome (list nat) :=
  x ← index l a; y ← index l b; Ok (<[a := y]> (<[b := x]> l)).

(** ** [impl NodeChildren] *)

Definition children_new : NodeChildren := mkChildren (replicate MAX_CHILDREN 0) 0.
Definition children_push (self : NodeChildren) (i : nat) : outcome NodeChildren :=
  if decide (len self < MAX_CHILDREN)
  then Ok (mkChildren (<[len self := i]> (indices self)) (len self + 1)) else Panic.
Definition as_slice (self : NodeChildren) : list nat := take (len self) (indices self).
Definition children_swap (self : NodeChildren) (a b : nat) : outcome NodeChildren :=
  l ← swap (indices self) a b; Ok (mkChildren l (len self)).

(** Two children, the one with the larger order at the end. *)
Definition children_pair (old new : nat) (old_order new_order : N) : outcome NodeChildren :=
  if decide (old_order < new_order)%N
  then c ← children_push children_new old; children_push c new
  else c ← children_push children_new new; children_push c old.

Definition is_leaf {U} (n : Node U) : bool := match kind n with Leaf _ => true | _ => false end.

Section tree.
Context {U : Type} `{!Coord U}.
Implicit Types self : BoundsTree U.
Implicit Types ns : list (Node U).

(** [BoundsTree::default] and [clear]. *)
Definition default_tree : BoundsTree U := mkTree [] None None.
Definition clear self : BoundsTree U := default_tree.

(** The search loop of [find_max_ordering].  The top of the stack is the head of the list;
    [fuel] bounds the number of nodes that are popped. *)
Fixpoint search (fuel : nat) ns (query : Bounds U) (stack : list (Node U)) (max_found : N)
    : outcome N :=
  match fuel with
  | O => OutOfFuel
  | S fuel =>
      match stack with
      | [] => Ok max_found
      | node :: stack =>
          if decide (max_order node ≤ max_found)%N then search fuel ns query stack max_found
          else if negb (intersects query (node_bounds node))
          then search fuel ns query stack max_found
          else
            match kind node with
            | Leaf order => search fuel ns query stack (N.max max_found order)
            | Internal children =>
                l ← mapM_ok (index ns) (as_slice children);
                search fuel ns query
                  (reverse (filter (λ n, (max_found < max_order n)%N) l) ++ stack) max_found
            end
      end
  end.

Definition find_max_ordering self (query : Bounds U) : outcome N :=
  match root self with
  | None => Ok 0%N
  | Some root_idx =>
      fast ←
        match max_leaf self with
        | Some max_idx =>
            max_node ← index (nodes self) max_idx;
            Ok (if intersects query (node_bounds max_node)
                then Some (max_order max_node) else None)
        | None => Ok None
        end;
      match fast with
      | Some order => Ok order
      | None =>
          root ← index (nodes self) root_idx;
          search (length (nodes self) + 1) (nodes self) query [root] 0%N
      end
  end.

(** The child whose union with the new bounds has the smallest half perimeter: its index in the
    arena and its position among the children. *)
Definition best_step ns (new : Bounds U) (best : U * nat * nat) (child : nat * nat)
    : outcome (U * nat * nat) :=
  let '(best_cost, best_child_idx, best_child_pos) := best in
  let '(pos, child_idx) := child in
  node ← index ns child_idx;
  let cost := half_perimeter (union new (node_bounds node)) in
  Ok (if clt cost best_cost then (cost, child_idx, pos) else best).
Definition best_child ns (new : Bounds U) (children : NodeChildren) : outcome (nat * nat) :=
  first ← index (as_slice children) 0;
  node ← index ns first;
  '(_, best_child_idx, best_child_pos) ←
    foldM (best_step ns new) (half_perimeter (union new (node_bounds node)), first, 0)
      (drop 1 (imap pair (as_slice children)));
  Ok (best_child_idx, best_child_pos).

(** Adding the leaf to an internal node that has room. *)
Definition add_leaf ns (new : Bounds U) (order : N) (new_leaf_idx current_idx : nat)
    : outcome (list (Node U)) :=
  node ← index ns current_idx;
  kind ←
    match kind node with
    | Internal children =>
        children ← children_push children new_leaf_idx;
        if decide (order ≤ max_order node)%N then
          last ← checked_sub (len children) 1;
          last' ← checked_sub last 1;
          children ← children_swap children last' last;
          Ok (Internal children)
        else Ok (Internal children)
    | k => Ok k
    end;
  Ok (<[current_idx := mkNode (union (node_bounds node) new) (N.max (max_order node) order) kind]> ns).

(** Replacing the best child, a leaf of a full node, by an internal node with both leaves. *)
Definition split_leaf ns (new : Bounds U) (order : N)
    (new_leaf_idx current_idx best_child_idx best_child_pos : nat) : outcome (list (Node U)) :=
  best ← index ns best_child_idx;
  new_children ← children_pair best_child_idx new_leaf_idx (max_order best) order;
  let new_internal_idx := length ns in
  let new_internal_max := N.max (max_order best) order in
  let ns := ns ++ [mkNode (union (node_bounds best) new) new_internal_max (Internal new_children)] in
  parent ← index ns current_idx;
  kind ←
    match kind parent with
    | Internal children =>
        _ ← index (indices children) best_child_pos;
        let children :=
          mkChildren (<[best_child_pos := new_internal_idx]> (indices children)) (len children) in
        if decide (max_order parent < new_internal_max)%N then
          last ← checked_sub (len children) 1;
          children ← children_swap children best_child_pos last;
          Ok (Internal children)
        else Ok (Internal children)
    | k => Ok k
    end;
  Ok (<[current_idx := mkNode (node_bounds parent) (max_order parent) kind]> ns).

(** The descent: the path of internal nodes to the place of the leaf, which is added there.
    [fuel] bounds the depth. *)
Fixpoint descend (fuel : nat) ns (new : Bounds U) (order : N) (new_leaf_idx current_idx : nat)
    (insert_path : list nat) : outcome (list (Node U) * list nat) :=
  match fuel with
  | O => OutOfFuel
  | S fuel =>
      current ← index ns current_idx;
      match kind current with
      | Leaf _ => Panic
      | Internal children =>
          let insert_path := insert_path ++ [current_idx] in
          '(best_child_idx, best_child_pos) ← best_child ns new children;
          best ← index ns best_child_idx;
          if is_leaf best then
            ns ← if decide (len children < MAX_CHILDREN)
                 then add_leaf ns new order new_leaf_idx current_idx
                 else split_leaf ns new order new_leaf_idx current_idx
                        best_child_idx best_child_pos;
            Ok (ns, insert_path)
          else descend fuel ns new order new_leaf_idx best_child_idx insert_path
      end
  end.

(** One step of the propagation: the bounds and the order of a node of the path, whose child on
    the path moves to the end when it brought a larger order. *)
Definition propagate_step (new : Bounds U) (order : N) (st : list (Node U) * option nat)
    (node_idx : nat) : outcome (list (Node U) * option nat) :=
  let '(ns, updated_child_idx) := st in
  node ← index ns node_idx;
  let b := union (node_bounds node) new in
  node ←
    if decide (max_order node < order)%N then
      kind ←
        match updated_child_idx, kind node with
        | Some child_idx, Internal children =>
            match list_find (eq child_idx) (as_slice children) with
            | Some (pos, _) =>
                last ← checked_sub (len children) 1;
                if decide (pos = last) then Ok (Internal children)
                else children ← children_swap children pos last; Ok (Internal children)
            | None => Ok (Internal children)
            end
        | _, k => Ok k
        end;
      Ok (mkNode b order kind)
    else Ok (mkNode b (max_order node) (kind node));
  Ok (<[node_idx := node]> ns, Some node_idx).

Definition insert_leaf self (new : Bounds U) (order : N) : outcome (BoundsTree U * nat) :=
  let new_leaf_idx := length (nodes self) in
  let ns := nodes self ++ [mkNode new order (Leaf order)] in
  match root self with
  | None => Ok (mkTree ns (Some new_leaf_idx) (max_leaf self), new_leaf_idx)
  | Some root_idx =>
      root ← index ns root_idx;
      if is_leaf root then
        children ← children_pair root_idx new_leaf_idx (max_order root) order;
        let new_root_idx := length ns in
        let ns := ns ++ [mkNode (union (node_bounds root) new) (N.max (max_order root) order)
                           (Internal children)] in
        Ok (mkTree ns (Some new_root_idx) (max_leaf self), new_leaf_idx)
      else
        '(ns, insert_path) ← descend (length ns) ns new order new_leaf_idx root_idx [];
        '(ns, _) ← foldM (propagate_step new order) (ns, None) (rev insert_path);
        Ok (mkTree ns (Some root_idx) (max_leaf self), new_leaf_idx)
  end.

Definition insert self (new_bounds : Bounds U) : outcome (BoundsTree U * N) :=
  max_intersecting ← find_max_ordering self new_bounds;
  ordering ← u32_add max_intersecting 1;
  '(self, new_leaf_idx) ← insert_leaf self new_bounds ordering;
  max_leaf ←
    match max_leaf self with
    | None => Ok (Some new_leaf_idx)
    | Some old_idx =>
        old ← index (nodes self) old_idx;
        Ok (if decide (max_order old < ordering)%N then Some new_leaf_idx else Some old_idx)
    end;
  Ok (mkTree (nodes self) (root self) max_leaf, ordering).

(** Inserting a sequence of rectangles, as a frame does. *)
Fixpoint insert_all self (l : list (Bounds U)) : outcome (BoundsTree U * list N) :=
  match l with
  | [] => Ok (self, [])
  | b :: l => '(self, o) ← insert self b; '(self, os) ← insert_all self l; Ok (self, o :: os)
  end.

(** The reference: the largest order among the rectangles that a query meets, and the orders of
    a sequence of rectangles that are each one more than it. *)
Fixpoint max_ordering (query : Bounds U) (l : list (Bounds U * N)) : N :=
  match l with
  | [] => 0%N
  | (b, o) :: l => N.max (if intersects query b then o else 0%N) (max_ordering query l)
  end.
Fixpoint orderings (seen : list (Bounds U * N)) (l : list (Bounds U)) : list N :=
  match l with
  | [] => []
  | b :: l =>
      let o := (max_ordering b seen + 1)%N in
      o :: orderings ((b, o) :: seen) l
  end.

End tree.

Example insert_test :
  let b x y w := bounds (point x y) (size w w) in
  snd <$> insert_all default_tree
    [b 0 0 10; b 5 5 10; b 10 10 10; b 20 20 10; b 40 40 10; b 25 25 10]%Z
  = Ok [1; 2; 3; 1; 1; 2]%N.
Proof. vm_compute. reflexivity. Qed.
