(* ===== verification/BoundsTreeFacts.v ===== *)
(** The z-order index is correct: a ghost tree describes the arena, and every insertion answers
    one more than the largest order among the rectangles that the new one meets. *)
From Stdlib Require Import NArith.
From S2P Require Import Prelude Geometry BoundsTree.

(** ** Children arrays *)

(** The used part of the array is [l]. *)
Definition holds (ch : NodeChildren) (l : list nat) : Prop :=
  as_slice ch = l ∧ length (indices ch) = MAX_CHILDREN ∧ len ch = length l.

Lemma holds_length ch l : holds ch l → length l ≤ MAX_CHILDREN.
Proof. intros (<- & H & ?). unfold as_slice. rewrite length_take. lia. Qed.

Lemma holds_new : holds children_new [].
Proof. done. Qed.

Lemma holds_push ch l i :
  holds ch l → length l < MAX_CHILDREN → ∃ ch', children_push ch i = Ok ch' ∧ holds ch' (l ++ [i]).
Proof.
  intros (Hs & Hi & Hl) Hlt. unfold children_push. rewrite decide_True by lia.
  eexists; split; [done|]. unfold holds, as_slice in *. simpl.
  rewrite length_insert, length_app. simpl. split_and!; [|done|lia].
  rewrite Nat.add_1_r, (take_S_r _ _ i) by (apply list_lookup_insert_eq; lia).
  by rewrite take_insert_ge by lia; rewrite Hs.
Qed.

Lemma holds_set ch l pos i :
  holds ch l → pos < length l → holds (mkChildren (<[pos := i]> (indices ch)) (len ch)) (<[pos := i]> l).
Proof.
  intros (Hs & Hi & Hl) Hlt. unfold holds, as_slice in *. simpl.
  rewrite !length_insert. split_and!; [|done..]. by rewrite take_insert_lt, Hs by lia.
Qed.

Lemma holds_lookup ch l a v : holds ch l → l !! a = Some v → indices ch !! a = Some v.
Proof.
  intros (<- & _ & Hl) Ha. unfold as_slice in Ha. by apply lookup_take_Some in Ha as [? _].
Qed.

Lemma holds_swap ch l a b v w :
  holds ch l → l !! a = Some v → l !! b = Some w →
  ∃ ch', children_swap ch a b = Ok ch' ∧ holds ch' (<[a := w]> (<[b := v]> l)).
Proof.
  intros Hh Ha Hb. unfold children_swap, swap, index, unwrap.
  rewrite (holds_lookup _ _ _ _ Hh Ha), (holds_lookup _ _ _ _ Hh Hb). simpl.
  eexists; split; [done|].
  pose proof (lookup_lt_Some _ _ _ Ha). pose proof (lookup_lt_Some _ _ _ Hb).
  apply (holds_set (mkChildren (<[b := v]> (indices ch)) (len ch))); [by apply holds_set|].
  by rewrite length_insert.
Qed.

Lemma holds_pair old new o1 o2 :
  ∃ ch, children_pair old new o1 o2 = Ok ch ∧
    holds ch (if decide (o1 < o2)%N then [old; new] else [new; old]).
Proof.
  unfold children_pair. case_decide; eexists; split; try done.
Qed.

(** ** Lists *)

Section lists.
Context {A : Type}.
Implicit Types l : list A.

Lemma insert_permutation l i v w : l !! i = Some v → v :: <[i := w]> l ≡ₚ w :: l.
Proof.
  revert i. induction l as [|u l IH]; intros [|i] Hi; simplify_eq/=; [constructor|].
  rewrite perm_swap, IH by done. apply perm_swap.
Qed.

Lemma lookup_permutation l i v :
  l !! i = Some v → ∃ rest, l ≡ₚ v :: rest ∧ ∀ w, <[i := w]> l ≡ₚ w :: rest.
Proof.
  intros Hi. exists (delete i l). split; [by apply delete_Permutation|].
  intros w. apply (Permutation_cons_inv (a:=v)). rewrite (insert_permutation _ _ _ _ Hi).
  rewrite perm_swap. apply perm_skip. by apply delete_Permutation.
Qed.

Lemma swap_permutation l a b v w :
  l !! a = Some v → l !! b = Some w → <[a := w]> (<[b := v]> l) ≡ₚ l.
Proof.
  intros Ha Hb. destruct (decide (a = b)) as [->|Hne].
  - simplify_eq. by rewrite !list_insert_id by (rewrite ?list_insert_id by done; done).
  - apply (Permutation_cons_inv (a:=v)). rewrite insert_permutation.
    + by apply insert_permutation.
    + by rewrite list_lookup_insert_ne.
Qed.

Lemma last_lookup_length l v : last l = Some v ↔ l !! (length l - 1) = Some v ∧ l ≠ [].
Proof.
  rewrite last_lookup. replace (pred (length l)) with (length l - 1) by lia.
  destruct l; naive_solver.
Qed.

Lemma last_swap l a v w :
  l !! a = Some v → last l = Some w →
  last (<[a := w]> (<[length l - 1 := v]> l)) = Some v.
Proof.
  intros Ha [Hw Hne]%last_lookup_length. pose proof (lookup_lt_Some _ _ _ Ha).
  apply last_lookup_length. rewrite !length_insert. split.
  - destruct (decide (a = length l - 1)) as [->|].
    + simplify_eq. apply list_lookup_insert_eq. by rewrite length_insert.
    + rewrite list_lookup_insert_ne by done. apply list_lookup_insert_eq. lia.
  - intros He. apply (f_equal length) in He. rewrite !length_insert in He. simpl in He. lia.
Qed.

Lemma last_insert l i v w u :
  l !! i = Some v → last l = Some u →
  (i = length l - 1 ∧ u = v ∧ last (<[i := w]> l) = Some w) ∨ last (<[i := w]> l) = Some u.
Proof.
  intros Hi [Hu Hne]%last_lookup_length. pose proof (lookup_lt_Some _ _ _ Hi).
  assert (<[i := w]> l ≠ []) as Hne'.
  { intros He. apply (f_equal length) in He. rewrite length_insert in He. simpl in He. lia. }
  destruct (decide (i = length l - 1)) as [->|].
  - left. simplify_eq. split_and!; [done..|]. apply last_lookup_length.
    rewrite length_insert. split; [|done]. by apply list_lookup_insert_eq.
  - right. apply last_lookup_length. rewrite length_insert. split; [|done].
    by rewrite list_lookup_insert_ne.
Qed.

End lists.

Lemma elem_of_flat_map {A B} (f : A → list B) l (v : B) :
  v ∈ flat_map f l ↔ ∃ u, u ∈ l ∧ v ∈ f u.
Proof.
  rewrite list_elem_of_In, in_flat_map. by setoid_rewrite list_elem_of_In.
Qed.

(** ** The ghost tree *)

Section ghost.
Context {U : Type} `{!Coord U, !CoordLaws U}.
Implicit Types ns : list (Node U).
Implicit Types q new : Bounds U.

Inductive rtree :=
| RLeaf (i : nat) (b : Bounds U) (o : N)
| RNode (i : nat) (b : Bounds U) (m : N) (ts : list rtree).
Implicit Types t c tl : rtree.
Implicit Types ts : list rtree.

Lemma rtree_nested_ind (P : rtree → Prop) :
  (∀ i b o, P (RLeaf i b o)) → (∀ i b m ts, Forall P ts → P (RNode i b m ts)) → ∀ t, P t.
Proof.
  intros Hl Hn. fix IH 1. intros [i b o|i b m ts]; [apply Hl|apply Hn].
  induction ts; constructor; auto.
Qed.

Definition tidx t : nat := match t with RLeaf i _ _ | RNode i _ _ _ => i end.
Definition tbounds t : Bounds U := match t with RLeaf _ b _ | RNode _ b _ _ => b end.
Definition torder t : N := match t with RLeaf _ _ o | RNode _ _ o _ => o end.
Fixpoint idxs t : list nat :=
  match t with RLeaf i _ _ => [i] | RNode i _ _ ts => i :: flat_map idxs ts end.
Fixpoint ileaves t : list (nat * (Bounds U * N)) :=
  match t with RLeaf i b o => [(i, (b, o))] | RNode _ _ _ ts => flat_map ileaves ts end.

(** The arena [ns] stores the tree. *)
Inductive repr ns : rtree → Prop :=
| repr_leaf i b o : ns !! i = Some (mkNode b o (Leaf o)) → repr ns (RLeaf i b o)
| repr_node i b m ts ch :
    ns !! i = Some (mkNode b m (Internal ch)) → holds ch (tidx <$> ts) → Forall (repr ns) ts →
    repr ns (RNode i b m ts).

(** The documented invariant: an internal node has at least two children (and at most
    [MAX_CHILDREN], by [holds]), encloses them, and its order is the largest of theirs, which the
    last child has. *)
Inductive wf : rtree → Prop :=
| wf_leaf i b o : wf (RLeaf i b o)
| wf_node i b m ts tl :
    Forall wf ts → Forall (λ c, encloses b (tbounds c)) ts →
    Forall (λ c, (torder c ≤ m)%N) ts → last ts = Some tl → torder tl = m → 2 ≤ length ts →
    wf (RNode i b m ts).

Definition node_of ns t (n : Node U) : Prop := ns !! tidx t = Some n.

Lemma index_node ns t n : node_of ns t n → index ns (tidx t) = Ok n.
Proof. unfold node_of, index. by intros ->. Qed.

Lemma repr_node_of ns t :
  repr ns t → ∃ n, node_of ns t n ∧ node_bounds n = tbounds t ∧ max_order n = torder t.
Proof. destruct 1; by eexists. Qed.

Lemma tidx_idxs t : tidx t ∈ idxs t.
Proof. destruct t; simpl; left. Qed.

Lemma elem_of_idxs_child j c ts : j ∈ idxs c → c ∈ ts → j ∈ flat_map idxs ts.
Proof.
  intros Hj Hc. apply elem_of_flat_map. by exists c.
Qed.

Lemma repr_frame ns ns' t :
  repr ns t → (∀ j, j ∈ idxs t → ns' !! j = ns !! j) → repr ns' t.
Proof.
  induction t as [i b o|i b m ts IH] using rtree_nested_ind; intros Hr Hf.
  - inversion Hr; subst. constructor. rewrite Hf by left. done.
  - inversion Hr as [|????? Hi Hh Hts]; subst. econstructor.
    + rewrite Hf by left. done.
    + done.
    + rewrite Forall_forall in *. intros c Hc. apply IH; [done|by apply Hts|].
      intros j Hj. apply Hf. simpl. right. by eapply elem_of_idxs_child.
Qed.

Lemma repr_bound ns t j : repr ns t → j ∈ idxs t → j < length ns.
Proof.
  induction t as [i b o|i b m ts IH] using rtree_nested_ind; intros Hr Hj.
  - inversion Hr; subst. apply list_elem_of_singleton in Hj as ->.
    by eapply lookup_lt_Some.
  - inversion Hr as [|????? Hi Hh Hts]; subst. simpl in Hj.
    apply elem_of_cons in Hj as [->|Hj]; [by eapply lookup_lt_Some|].
    apply elem_of_flat_map in Hj as (c & Hc & Hj). rewrite Forall_forall in *. eauto.
Qed.

Lemma repr_leaves ns t i b o :
  repr ns t → (i, (b, o)) ∈ ileaves t → ns !! i = Some (mkNode b o (Leaf o)).
Proof.
  induction t as [i' b' o'|i' b' m ts IH] using rtree_nested_ind; intros Hr Hj.
  - inversion Hr; subst. by apply list_elem_of_singleton in Hj as [= -> -> ->].
  - inversion Hr as [|????? Hi Hh Hts]; subst. simpl in Hj.
    apply elem_of_flat_map in Hj as (c & Hc & Hj). rewrite Forall_forall in *. eauto.
Qed.

Lemma wf_leaves t e :
  wf t → e ∈ ileaves t → encloses (tbounds t) e.2.1 ∧ (e.2.2 ≤ torder t)%N.
Proof.
  revert e. induction t as [i' b' o'|i' b' m ts IH] using rtree_nested_ind; intros e Hw He.
  - apply list_elem_of_singleton in He as ->. simpl. split; [apply encloses_refl|done].
  - inversion Hw as [|????? Hws Hb Ho]; subst. simpl in *.
    apply elem_of_flat_map in He as (c & Hc & He). rewrite Forall_forall in *.
    destruct (IH c Hc e (Hws c Hc) He) as [Hb1 Ho1]. split.
    + eapply encloses_trans; [by apply Hb|done].
    + etrans; [done|by apply Ho].
Qed.

(** The order of a node is reached by one of its leaves. *)
Lemma wf_max_leaf t : wf t → ∃ e, e ∈ ileaves t ∧ e.2.2 = torder t.
Proof.
  induction t as [i' b' o'|i' b' m ts IH] using rtree_nested_ind; intros Hw.
  - eexists. split; [by left|done].
  - inversion Hw as [|????? Hws Hb Ho Hl]; subst. rewrite Forall_forall in *.
    apply last_Some_elem_of in Hl.
    destruct (IH _ Hl (Hws _ Hl)) as (e & He & Hm). exists e. split; [|done].
    simpl. apply elem_of_flat_map. by exists tl.
Qed.

(** ** The search *)

Lemma max_ordering_app q (l1 l2 : list (Bounds U * N)) :
  max_ordering q (l1 ++ l2) = N.max (max_ordering q l1) (max_ordering q l2).
Proof. induction l1 as [|[b o] l1 IH]; simpl; [|rewrite IH]; lia. Qed.

#[export] Instance max_ordering_perm q : Proper ((≡ₚ) ==> (=)) (max_ordering q).
Proof.
  induction 1 as [|[b o] l1 l2 _ IH|[b o] [b' o'] l|]; simpl; [done|by rewrite IH|lia|congruence].
Qed.

Lemma max_ordering_le q (l : list (Bounds U * N)) m :
  (∀ e, e ∈ l → (e.2 ≤ m)%N) → (max_ordering q l ≤ m)%N.
Proof.
  induction l as [|[b o] l IH]; intros Hl; simpl; [lia|].
  assert (o ≤ m)%N by (apply (Hl (b, o)); left).
  specialize (IH ltac:(intros; apply Hl; by right)). destruct (intersects q b); lia.
Qed.

Lemma max_ordering_none q (l : list (Bounds U * N)) :
  (∀ e, e ∈ l → intersects q e.1 = false) → max_ordering q l = 0%N.
Proof.
  induction l as [|[b o] l IH]; intros Hl; simpl; [done|].
  specialize (Hl (b, o) ltac:(left)) as Hb. simpl in Hb. rewrite Hb.
  rewrite IH; [done|]. intros. apply Hl. by right.
Qed.

Lemma max_ordering_elem q (l : list (Bounds U * N)) b o :
  (b, o) ∈ l → intersects q b = true → (o ≤ max_ordering q l)%N.
Proof.
  induction l as [|[b' o'] l IH]; intros Hl Hb; [by apply elem_of_nil in Hl|]. simpl.
  apply elem_of_cons in Hl as [[= -> ->]|Hl]; [rewrite Hb; lia|].
  specialize (IH Hl Hb). lia.
Qed.

Definition leaves t : list (Bounds U * N) := (ileaves t).*2.
Definition fleaves ts : list (Bounds U * N) := (flat_map ileaves ts).*2.

Lemma fleaves_cons t ts : fleaves (t :: ts) = leaves t ++ fleaves ts.
Proof. unfold fleaves. simpl. by rewrite fmap_app. Qed.
Lemma fleaves_app ts ts' : fleaves (ts ++ ts') = fleaves ts ++ fleaves ts'.
Proof. unfold fleaves. by rewrite flat_map_app, fmap_app. Qed.
#[local] Instance fleaves_perm : Proper ((≡ₚ) ==> (≡ₚ)) fleaves.
Proof. intros ts ts' H. unfold fleaves. by apply fmap_Permutation, Permutation_flat_map. Qed.

Lemma elem_of_leaves t e : wf t → e ∈ leaves t → encloses (tbounds t) e.1 ∧ (e.2 ≤ torder t)%N.
Proof. intros Hw (x & -> & Hx)%list_elem_of_fmap. by apply wf_leaves. Qed.

(** Subtrees that the search skips hold nothing it misses. *)
Lemma skipped q t m :
  wf t → (torder t ≤ m)%N ∨ intersects q (tbounds t) = false → (max_ordering q (leaves t) ≤ m)%N.
Proof.
  intros Hw [Hm|Hq].
  - apply max_ordering_le. intros e He. apply elem_of_leaves in He as [_ He]; [lia|done].
  - rewrite max_ordering_none; [lia|]. intros e He. apply elem_of_leaves in He as [He _]; [|done].
    destruct (intersects q e.1) eqn:Hi; [|done].
    by rewrite (intersects_encloses q _ _ He Hi) in Hq.
Qed.

Lemma mapM_index ns ts :
  Forall (repr ns) ts → ∃ l, mapM_ok (index ns) (tidx <$> ts) = Ok l ∧ Forall2 (node_of ns) ts l.
Proof.
  induction 1 as [|t ts Ht _ (l & IH & Hl)]; [by exists []|].
  destruct (repr_node_of _ _ Ht) as (n & Hn & _). exists (n :: l). split; [|by constructor].
  rewrite fmap_cons. cbn [mapM_ok]. by rewrite (index_node ns t n Hn), IH.
Qed.

(** The children that are pushed, and the ones that are not. *)
Lemma filter_kept ns ts l m :
  Forall (repr ns) ts → Forall2 (node_of ns) ts l →
  ∃ kept dropped, ts ≡ₚ kept ++ dropped ∧ Forall (λ t, (torder t ≤ m)%N) dropped ∧
    Forall2 (node_of ns) kept (filter (λ n, (m < max_order n)%N) l).
Proof.
  intros Hts Hl. revert Hts. induction Hl as [|t n ts l Ht _ IH]; intros Hts; [by exists [], []|].
  inversion Hts as [|?? Hr Hts']; subst. destruct (IH Hts') as (k & d & Hp & Hd & Hk).
  destruct (repr_node_of _ _ Hr) as (n' & Hn & _ & Ho).
  assert (n' = n) as -> by (unfold node_of in *; congruence).
  rewrite filter_cons. case_decide.
  - exists (t :: k), d. split_and!; [by rewrite Hp|done|by constructor].
  - exists k, (t :: d). split_and!; [by rewrite Hp, <-Permutation_middle| |done].
    constructor; [lia|done].
Qed.

Lemma max_ordering_dropped q ts m :
  Forall wf ts → Forall (λ t, (torder t ≤ m)%N) ts → (max_ordering q (fleaves ts) ≤ m)%N.
Proof.
  induction 1 as [|t ts Ht Hts IH]; intros Hm; [simpl; lia|].
  inversion Hm; subst. rewrite fleaves_cons, max_ordering_app.
  pose proof (skipped q t m Ht ltac:(by left)). specialize (IH ltac:(done)). lia.
Qed.

Lemma search_ok ns q fuel ts stack m :
  Forall (repr ns) ts → Forall wf ts → Forall2 (node_of ns) ts stack →
  length (flat_map idxs ts) < fuel →
  search fuel ns q stack m = Ok (N.max m (max_ordering q (fleaves ts))).
Proof.
  revert ts stack m. induction fuel as [|fuel IH]; intros ts stack m Hr Hw Hs Hf; [lia|].
  destruct Hs as [|t n ts stack Hn Hs]; cbn [search].
  { simpl. do 2 f_equal. lia. }
  inversion Hr as [|?? Hrt Hrs]; subst. inversion Hw as [|?? Hwt Hws]; subst.
  destruct (repr_node_of _ _ Hrt) as (n' & Hn' & Hnb & Hno).
  assert (n' = n) as -> by (unfold node_of in *; congruence). clear Hn'.
  rewrite fleaves_cons, max_ordering_app.
  assert (length (flat_map idxs ts) < fuel) as Hf'.
  { simpl in Hf. rewrite length_app in Hf. destruct t; simpl in Hf; lia. }
  case_decide as Hle.
  { rewrite (IH ts) by done. pose proof (skipped q t m Hwt ltac:(left; congruence)). f_equal. lia. }
  rewrite Hnb. destruct (intersects q (tbounds t)) eqn:Hq; simpl.
  2:{ rewrite (IH ts) by done. pose proof (skipped q t m Hwt ltac:(by right)). f_equal. lia. }
  inversion Hrt as [i b o Hi|i b o us ch Hi Hh Hus]; subst; unfold node_of in Hn; simpl in Hn;
    rewrite Hi in Hn; injection Hn as <-; simpl in *.
  - rewrite (IH ts) by done. rewrite Hq. f_equal. lia.
  - inversion Hwt as [|????? Hwu _ _ _ _]; subst. destruct Hh as (-> & _ & _).
    destruct (mapM_index ns us Hus) as (l & -> & Hl). simpl.
    destruct (filter_kept ns us l m Hus Hl) as (kept & dropped & Hp & Hd & Hk).
    rewrite Hp in Hus, Hwu. apply Forall_app in Hus as [Hrk _], Hwu as [Hwk Hwd].
    rewrite (IH (reverse kept ++ ts)).
    + rewrite fleaves_app, max_ordering_app. change (leaves (RNode i b _ us)) with (fleaves us).
      rewrite Hp, reverse_Permutation, fleaves_app, max_ordering_app.
      pose proof (max_ordering_dropped q dropped m Hwd Hd). f_equal. lia.
    + apply Forall_app. by rewrite reverse_Permutation.
    + apply Forall_app. by rewrite reverse_Permutation.
    + apply Forall2_app; [by apply Forall2_reverse|done].
    + rewrite flat_map_app, length_app.
      rewrite (Permutation_length (Permutation_flat_map idxs (reverse_Permutation kept))).
      rewrite length_app in Hf. rewrite (Permutation_length (Permutation_flat_map idxs Hp)) in Hf.
      rewrite flat_map_app, length_app in Hf. lia.
Qed.

(** ** Insertion *)

(** What inserting the leaf [nl] below [t] does: [ns] holds the leaf already, [ns'] is the arena
    after the leaf was linked and the path was updated. *)
Record inserted (new : Bounds U) (order : N) (nl : nat) ns ns' t t' (extra : nat) : Prop := {
  ins_repr : repr ns' t';
  ins_wf : wf t';
  ins_idx : tidx t' = tidx t;
  ins_order : torder t' = N.max (torder t) order;
  ins_bounds r : encloses r (tbounds t') ↔ encloses r (tbounds t) ∧ encloses r new;
  ins_idxs : idxs t' ≡ₚ idxs t ++ nl :: seq (length ns) extra;
  ins_length : length ns' = length ns + extra;
  ins_frame j : j < length ns → j ∉ idxs t → ns' !! j = ns !! j;
  ins_leaves : ileaves t' ≡ₚ (nl, (new, order)) :: ileaves t;
}.

(** The last child of a node has its order. *)
Definition topped ts (m : N) : Prop := ∃ tl, last ts = Some tl ∧ torder tl = m.

(** The children of an updated node: [ts'] are the old ones with the leaf, in the sense of their
    indices and leaves; the bounds and the order of the node are as the code computes them. *)
Lemma inserted_node new order nl ns ns' i b b' m ts ts' ch extra :
  ns' !! i = Some (mkNode b' (N.max m order) (Internal ch)) → holds ch (tidx <$> ts') →
  Forall (repr ns') ts' → Forall wf ts' →
  Forall (λ c, ∀ r, encloses r b → encloses r new → encloses r (tbounds c)) ts' →
  Forall (λ c, (torder c ≤ N.max m order)%N) ts' → topped ts' (N.max m order) → 2 ≤ length ts' →
  (∀ r, encloses r b' ↔ encloses r b ∧ encloses r new) →
  flat_map idxs ts' ≡ₚ flat_map idxs ts ++ nl :: seq (length ns) extra →
  flat_map ileaves ts' ≡ₚ (nl, (new, order)) :: flat_map ileaves ts →
  length ns' = length ns + extra →
  (∀ j, j < length ns → j ∉ i :: flat_map idxs ts → ns' !! j = ns !! j) →
  inserted new order nl ns ns' (RNode i b m ts) (RNode i b' (N.max m order) ts') extra.
Proof.
  intros Hi Hh Hr Hw Henc Hord (tl & Hl & Htl) Hlen Hb Hx Hv Hn Hf.
  split; simpl; try done.
  - by econstructor.
  - econstructor; try done. eapply Forall_impl; [exact Henc|]. simpl. intros c Hc.
    destruct (proj1 (Hb b') (encloses_refl _)). by apply Hc.
  - by rewrite Hx.
Qed.

(** Replacing one child. *)
Lemma replace_children {X} (f : rtree → list X) ts c c' rest (l : list X) ts' :
  ts ≡ₚ c :: rest → ts' ≡ₚ c' :: rest → f c' ≡ₚ f c ++ l → flat_map f ts' ≡ₚ flat_map f ts ++ l.
Proof.
  intros Hp Hp' Hf. rewrite (Permutation_flat_map f Hp), (Permutation_flat_map f Hp'). simpl.
  rewrite Hf, <-!app_assoc. apply Permutation_app_head, Permutation_app_comm.
Qed.

(** Moving the child at [pos], which got the order [m'], to the end when its order is the new
    maximum: by a swap when [m < order], and nothing otherwise. *)
Lemma topped_replaced ts pos c c' m order :
  ts !! pos = Some c → topped ts m → Forall (λ c, (torder c ≤ m)%N) ts →
  torder c' = N.max (torder c) order → (order ≤ m)%N → topped (<[pos := c']> ts) (N.max m order).
Proof.
  intros Hp (tl & Hl & Htl) Hle Hc' Hom. rewrite Forall_forall in Hle.
  destruct (last_insert ts pos c c' tl Hp Hl) as [(-> & -> & Hl')|Hl']; eexists; (split; [done|]);
    lia.
Qed.
Lemma topped_swapped ts pos c c' m order tl :
  ts !! pos = Some c → Forall (λ c, (torder c ≤ m)%N) ts →
  torder c' = N.max (torder c) order → (m < order)%N → last (<[pos := c']> ts) = Some tl →
  topped (<[pos := tl]> (<[length ts - 1 := c']> (<[pos := c']> ts))) (N.max m order).
Proof.
  intros Hp Hle Hc' Hom Hl. rewrite Forall_forall in Hle.
  exists c'. split.
  - replace (length ts) with (length (<[pos:=c']> ts)) by apply length_insert.
    apply last_swap; [|done]. apply list_lookup_insert_eq. by eapply lookup_lt_Some.
  - assert (torder c ≤ m)%N by (by eapply Hle, list_elem_of_lookup_2). lia.
Qed.

(** [best_child] returns one of the children. *)
Lemma best_step_ok ns new ts best pos c n :
  node_of ns c n →
  ∃ best', best_step ns new best (pos, tidx c) = Ok best' ∧
    (best' = best ∨ best'.1.2 = tidx c ∧ best'.2 = pos).
Proof.
  intros Hn. destruct best as [[cost idx] p]. unfold best_step.
  rewrite (index_node ns c n Hn). simpl. case_match; eexists; (split; [done|]); auto.
Qed.

Lemma best_loop_ok ns new ts k (all : list nat) best :
  Forall (repr ns) ts → (∀ j c, ts !! j = Some c → all !! (k + j) = Some (tidx c)) →
  all !! best.2 = Some best.1.2 →
  ∃ best' : U * nat * nat,
    foldM (best_step ns new) best (imap (λ j, pair (k + j)) (tidx <$> ts)) = Ok best' ∧
    all !! best'.2 = Some best'.1.2.
Proof.
  revert k best. induction ts as [|c ts IH]; intros k best Hr Hall Hb; [by exists best|].
  inversion Hr as [|?? Hc Hts]; subst. destruct (repr_node_of _ _ Hc) as (n & Hn & _).
  rewrite fmap_cons, imap_cons. cbn [foldM].
  destruct (best_step_ok ns new ts best (k + 0) c n Hn) as (b1 & -> & Hb1). simpl.
  destruct (IH (S k) b1 Hts) as (b2 & Hb2 & Hl2).
  - intros j c' Hj. rewrite Nat.add_succ_comm. by apply Hall.
  - destruct Hb1 as [->|[H1 H2]]; [done|]. rewrite H1, H2. by apply Hall.
  - exists b2. split; [|done]. rewrite <-Hb2. f_equal. apply imap_ext. intros j ? _.
    unfold compose. f_equal. lia.
Qed.

Lemma best_child_ok ns new ch ts :
  Forall (repr ns) ts → holds ch (tidx <$> ts) → ts ≠ [] →
  ∃ pos c, best_child ns new ch = Ok (tidx c, pos) ∧ ts !! pos = Some c.
Proof.
  intros Hr Hh Hne. unfold best_child. destruct Hh as (-> & _ & _).
  destruct ts as [|c ts]; [done|]. inversion Hr as [|?? Hc Hts]; subst.
  destruct (repr_node_of _ _ Hc) as (n & Hn & _). rewrite fmap_cons, imap_cons. simpl.
  rewrite (index_node ns c n Hn). simpl. rewrite drop_0.
  destruct (best_loop_ok ns new ts 1 (tidx <$> c :: ts)
    (half_perimeter (union new (node_bounds n)), tidx c, 0)) as ([[cost idx] pos] & Hl & Hp).
  - done.
  - intros j c' Hj. simpl. by rewrite list_lookup_fmap, Hj.
  - done.
  - exists pos. cbn [fst snd] in Hp. rewrite list_lookup_fmap, fmap_Some in Hp.
    destruct Hp as (c' & Hc' & ->). exists c'. split; [|done].
    unfold compose. cbn in Hl |- *. by rewrite Hl.
Qed.

(** Children in which the one at [pos] was replaced by [c'], and how the code moves it. *)
Lemma promote ch ts pos c c' m order :
  holds ch (tidx <$> <[pos := c']> ts) → ts !! pos = Some c → topped ts m →
  Forall (λ c, (torder c ≤ m)%N) ts → torder c' = N.max (torder c) order → (m < order)%N →
  ∃ ch' ts', children_swap ch pos (length ts - 1) = Ok ch' ∧ holds ch' (tidx <$> ts') ∧
    ts' ≡ₚ <[pos := c']> ts ∧ topped ts' (N.max m order) ∧
    (pos = length ts - 1 → topped (<[pos := c']> ts) (N.max m order)).
Proof.
  intros Hh Hp (tl & Hl & Htl) Hle Hc' Hlt.
  assert (∃ tl', last (<[pos := c']> ts) = Some tl') as (tl' & Hl').
  { destruct (last_insert ts pos c c' tl Hp Hl) as [(_ & _ & ?)|?]; eauto. }
  pose proof (lookup_lt_Some _ _ _ Hp) as Hlen.
  assert (<[pos := c']> ts !! pos = Some c') as Hpos by by apply list_lookup_insert_eq.
  pose proof Hl' as [Hlast _]%last_lookup_length. rewrite length_insert in Hlast.
  destruct (holds_swap ch _ pos (length ts - 1) (tidx c') (tidx tl') Hh) as (ch' & Hs & Hh').
  { by rewrite list_lookup_fmap, Hpos. }
  { by rewrite list_lookup_fmap, Hlast. }
  rewrite <-!list_fmap_insert in Hh'.
  exists ch'. eexists. split; [done|]. split; [done|]. split; [by apply swap_permutation|].
  pose proof (topped_swapped ts pos c c' m order tl' Hp Hle Hc' Hlt Hl') as Ht.
  split; [done|]. intros ->.
  assert (tl' = c') as -> by congruence. exists c'. split; [done|].
  rewrite Forall_forall in Hle.
  assert (torder c ≤ m)%N by (by eapply Hle, list_elem_of_lookup_2). lia.
Qed.

Lemma holds_len ch ts : holds ch (tidx <$> ts) → len ch = length ts.
Proof. intros (_ & _ & ->). apply length_fmap. Qed.

Lemma propagate_none ns new order i b m k :
  ns !! i = Some (mkNode b m k) →
  propagate_step new order (ns, None) i
    = Ok (<[i := mkNode (union b new) (N.max m order) k]> ns, Some i).
Proof.
  intros Hi. unfold propagate_step, index. rewrite Hi. simpl.
  case_decide; simpl; do 4 f_equal; lia.
Qed.

Lemma propagate_child ns new order i b m ch ts pos c c' :
  ns !! i = Some (mkNode b m (Internal ch)) → holds ch (tidx <$> <[pos := c']> ts) →
  NoDup (tidx <$> <[pos := c']> ts) → ts !! pos = Some c → topped ts m →
  Forall (λ c, (torder c ≤ m)%N) ts → torder c' = N.max (torder c) order →
  ∃ ch' ts',
    propagate_step new order (ns, Some (tidx c')) i
      = Ok (<[i := mkNode (union b new) (N.max m order) (Internal ch')]> ns, Some i) ∧
    holds ch' (tidx <$> ts') ∧ ts' ≡ₚ <[pos := c']> ts ∧ topped ts' (N.max m order).
Proof.
  intros Hi Hh Hnd Hp Ht Hle Hc'. unfold propagate_step, index. rewrite Hi. simpl.
  case_decide as Hlt.
  - assert (list_find (eq (tidx c')) (as_slice ch) = Some (pos, tidx c')) as ->.
    { destruct Hh as (-> & _ & _).
      assert ((tidx <$> <[pos := c']> ts) !! pos = Some (tidx c')) as Hl.
      { rewrite list_lookup_fmap, list_lookup_insert_eq; [done|by eapply lookup_lt_Some]. }
      apply list_find_Some. split_and!; [done..|]. intros j y Hj Hlt' <-.
      pose proof (NoDup_lookup _ _ _ _ Hnd Hl Hj). lia. }
    pose proof (promote ch ts pos c c' m order Hh Hp Ht Hle Hc' Hlt)
      as (ch' & ts' & Hs & Hh' & Hp' & Ht' & Hpos).
    rewrite (holds_len _ _ Hh), length_insert.
    assert (0 < length ts) as Hlen by (apply lookup_lt_Some in Hp; lia).
    rewrite checked_sub_ok by lia. simpl. case_decide as Hd.
    + exists ch, (<[pos := c']> ts). simpl. split_and!; [|done|done|auto].
      by rewrite N.max_r by lia.
    + exists ch', ts'. rewrite Hs. simpl. split_and!; [|done..]. by rewrite N.max_r by lia.
  - exists ch, (<[pos := c']> ts). simpl. split_and!; [by rewrite N.max_l by lia|done|done|].
    apply (topped_replaced ts pos c c'); auto. lia.
Qed.

(** The leaf is added to a node with room. *)
Lemma add_leaf_ok ns new order nl i b m ch ts :
  ns !! i = Some (mkNode b m (Internal ch)) → holds ch (tidx <$> ts) → topped ts m →
  length ts < MAX_CHILDREN →
  ∃ ch' ts', add_leaf ns new order nl i
      = Ok (<[i := mkNode (union b new) (N.max m order) (Internal ch')]> ns) ∧
    holds ch' (tidx <$> ts') ∧ ts' ≡ₚ ts ++ [RLeaf nl new order] ∧ topped ts' (N.max m order).
Proof.
  intros Hi Hh (tl & Hl & Htl) Hlen. unfold add_leaf, index. rewrite Hi. simpl.
  set (leaf := RLeaf nl new order).
  destruct (holds_push ch _ nl Hh) as (ch1 & -> & Hh1); [by rewrite length_fmap|]. simpl.
  replace ((tidx <$> ts) ++ [nl]) with (tidx <$> ts ++ [leaf]) in Hh1 by by rewrite fmap_app.
  pose proof Hl as [Hlast Hne]%last_lookup_length.
  assert (0 < length ts) by (destruct ts; simpl; [done|lia]).
  case_decide as Hle.
  - assert ((ts ++ [leaf]) !! (length ts - 1) = Some tl) as Ha.
    { rewrite lookup_app_l by lia. done. }
    assert ((ts ++ [leaf]) !! length ts = Some leaf) as Hb by by rewrite list_lookup_middle.
    rewrite (holds_len _ _ Hh1), length_app. simpl.
    rewrite checked_sub_ok by lia. simpl. rewrite checked_sub_ok by lia. simpl.
    replace (length ts + 1 - 1) with (length ts) by lia.
    destruct (holds_swap ch1 _ (length ts - 1) (length ts) (tidx tl) (tidx leaf) Hh1)
      as (ch2 & -> & Hh2); [by rewrite list_lookup_fmap, ?Ha, ?Hb..|].
    rewrite <-!list_fmap_insert in Hh2. simpl.
    eexists ch2, _. split; [done|]. split; [done|]. split; [by apply swap_permutation|].
    exists tl. split; [|lia]. apply last_lookup_length.
    rewrite !length_insert, length_app. simpl.
    replace (length ts + 1 - 1) with (length ts) by lia. split.
    + rewrite list_lookup_insert_ne by lia. apply list_lookup_insert_eq.
      rewrite length_app. simpl. lia.
    + intros He. apply (f_equal length) in He. rewrite !length_insert, length_app in He.
      simpl in He. lia.
  - eexists ch1, (ts ++ [leaf]). split; [done|]. split; [done|]. split; [done|].
    exists leaf. split; [by rewrite last_snoc|]. simpl. lia.
Qed.

(** The leaf [best] of a full node is replaced by a node with both leaves. *)
Lemma split_leaf_ok ns new order nl i b m ch ts pos bi bb bo :
  ns !! i = Some (mkNode b m (Internal ch)) → holds ch (tidx <$> ts) → topped ts m →
  Forall (λ c, (torder c ≤ m)%N) ts → ts !! pos = Some (RLeaf bi bb bo) →
  ns !! bi = Some (mkNode bb bo (Leaf bo)) →
  ∃ ch' ts' chp,
    let us := if decide (bo < order)%N then [RLeaf bi bb bo; RLeaf nl new order]
              else [RLeaf nl new order; RLeaf bi bb bo] in
    let pair := RNode (length ns) (union bb new) (N.max bo order) us in
    split_leaf ns new order nl i bi pos
      = Ok (<[i := mkNode b m (Internal ch')]>
              (ns ++ [mkNode (union bb new) (N.max bo order) (Internal chp)])) ∧
    holds chp (tidx <$> us) ∧ holds ch' (tidx <$> ts') ∧ ts' ≡ₚ <[pos := pair]> ts ∧
    topped ts' (N.max m order).
Proof.
  intros Hi Hh Ht Hle Hp Hb. unfold split_leaf.
  assert (index ns bi = Ok (mkNode bb bo (Leaf bo))) as -> by by unfold index; rewrite Hb.
  simpl. destruct (holds_pair bi nl bo order) as (chp & -> & Hhp). simpl.
  set (us := if decide (bo < order)%N then _ else _).
  set (pair := RNode (length ns) (union bb new) (N.max bo order) us).
  set (ns1 := ns ++ _).
  assert (index ns1 i = Ok (mkNode b m (Internal ch))) as ->.
  { unfold index, ns1. rewrite lookup_app_l by (by eapply lookup_lt_Some). by rewrite Hi. }
  simpl. pose proof (lookup_lt_Some _ _ _ Hp) as Hlen.
  assert (index (indices ch) pos = Ok bi) as ->.
  { unfold index. rewrite (holds_lookup _ _ pos bi Hh); [done|].
    by rewrite list_lookup_fmap, Hp. }
  simpl. assert (holds (mkChildren (<[pos:=length ns]> (indices ch)) (len ch))
    (tidx <$> <[pos:=pair]> ts)) as Hh1.
  { rewrite list_fmap_insert. apply holds_set; [done|]. by rewrite length_fmap. }
  assert (holds chp (tidx <$> us)) as Hhp' by by unfold us; case_decide.
  assert ((bo ≤ m)%N) as Hbo.
  { rewrite Forall_forall in Hle. apply (Hle (RLeaf bi bb bo)). by eapply list_elem_of_lookup_2. }
  destruct (decide (m < N.max bo order)%N) as [Hlt|Hlt].
  - rewrite (holds_len _ _ Hh), checked_sub_ok by lia. simpl.
    destruct (promote _ ts pos _ pair m order Hh1 Hp Ht Hle) as (ch' & ts' & Hs & Hh' & Hp' & Ht' & _);
      [done|lia|].
    rewrite (holds_len _ _ Hh) in Hs. rewrite Hs. simpl. exists ch', ts', chp.
    split; [done|]. by split_and!.
  - eexists _, (<[pos:=pair]> ts), chp. split; [done|]. split_and!; [done..|].
    apply (topped_replaced ts pos (RLeaf bi bb bo)); auto. lia.
Qed.

(** ** The descent *)

Lemma repr_insert ns ts i n :
  Forall (repr ns) ts → i ∉ flat_map idxs ts → Forall (repr (<[i := n]> ns)) ts.
Proof.
  rewrite !Forall_forall. intros Hr Hi c Hc. apply (repr_frame ns); [by apply Hr|].
  intros j Hj. apply list_lookup_insert_ne. intros ->. apply Hi. by eapply elem_of_idxs_child.
Qed.
Lemma repr_app ns ts l : Forall (repr ns) ts → Forall (repr (ns ++ l)) ts.
Proof.
  rewrite !Forall_forall. intros Hr c Hc. apply (repr_frame ns); [by apply Hr|].
  intros j Hj. apply lookup_app_l. by eapply repr_bound; [apply Hr|].
Qed.

Lemma NoDup_tidx ts : NoDup (flat_map idxs ts) → NoDup (tidx <$> ts).
Proof.
  induction ts as [|c ts IH]; simpl; [constructor|].
  intros (_ & Hd & Hn)%NoDup_app. apply NoDup_cons. split; [|auto].
  intros (c' & He & Hc')%list_elem_of_fmap. apply (Hd (tidx c)); [apply tidx_idxs|].
  rewrite He. apply (elem_of_idxs_child _ c'); [apply tidx_idxs|done].
Qed.

Lemma wf_pair bi bb bo nl new order i :
  wf (RNode i (union bb new) (N.max bo order)
    (if decide (bo < order)%N then [RLeaf bi bb bo; RLeaf nl new order]
     else [RLeaf nl new order; RLeaf bi bb bo])).
Proof.
  case_decide; econstructor; try (by simpl; lia); repeat constructor; simpl;
    try apply union_encloses_l; try apply union_encloses_r; lia.
Qed.

(** Old children are enclosed by whatever encloses the old bounds and the new leaf. *)
Lemma enclosed_children b new ts :
  Forall (λ c, encloses b (tbounds c)) ts →
  Forall (λ c, ∀ r, encloses r b → encloses r new → encloses r (tbounds c)) ts.
Proof. intros H. eapply Forall_impl; [exact H|]. simpl. eauto using encloses_trans. Qed.

Lemma order_children m order ts :
  Forall (λ c, (torder c ≤ m)%N) ts → Forall (λ c, (torder c ≤ N.max m order)%N) ts.
Proof. intros H. eapply Forall_impl; [exact H|]. simpl. lia. Qed.

(** What the insertion needs of the arena: the tree is stored without sharing, and the new leaf
    is stored and not linked. *)
Definition ready (new : Bounds U) (order : N) (nl : nat) ns t : Prop :=
  repr ns t ∧ wf t ∧ NoDup (idxs t) ∧ (nl ∉ idxs t) ∧
  ns !! nl = Some (mkNode new order (Leaf order)).

Lemma room_case new order nl ns i b m ts ch :
  ready new order nl ns (RNode i b m ts) →
  ns !! i = Some (mkNode b m (Internal ch)) → holds ch (tidx <$> ts) → length ts < MAX_CHILDREN →
  ∃ ns1 ns2 t',
    add_leaf ns new order nl i = Ok ns1 ∧
    propagate_step new order (ns1, None) i = Ok (ns2, Some i) ∧
    inserted new order nl ns ns2 (RNode i b m ts) t' 0.
Proof.
  intros (Hr & Hw & Hnd & Hnl & Hleaf) Hi Hh Hlen.
  inversion Hr as [|?????? _ Hrs]; subst. inversion Hw as [|????? Hws Hb Ho Hl Ht Hlen2]; subst.
  simpl in Hnd, Hnl. apply NoDup_cons in Hnd as [Hin Hnd]. apply not_elem_of_cons in Hnl as [Hne Hnl].
  destruct (add_leaf_ok ns new order nl i b _ ch ts Hi Hh ltac:(by eexists) Hlen)
    as (ch' & ts' & -> & Hh' & Hp & Ht').
  pose proof (lookup_lt_Some _ _ _ Hi) as Hil.
  eexists _, _, _. split; [done|]. split.
  { apply (propagate_none _ _ _ _ (union b new) (N.max (torder tl) order)).
    by apply list_lookup_insert_eq. }
  rewrite list_insert_insert_eq, <-N.max_assoc, N.max_id.
  eapply (inserted_node _ _ _ _ _ _ _ _ _ _ ts'); try done.
  - by apply list_lookup_insert_eq.
  - rewrite Hp. apply Forall_app. split; [by apply repr_insert|]. constructor; [|done].
    constructor. by rewrite list_lookup_insert_ne.
  - rewrite Hp. apply Forall_app. split; [done|]. repeat constructor.
  - rewrite Hp. apply Forall_app. split; [by apply enclosed_children|]. constructor; [by intros|done].
  - rewrite Hp. apply Forall_app. split; [by apply order_children|]. repeat constructor. simpl. lia.
  - rewrite Hp, length_app. simpl. lia.
  - intros r. rewrite !encloses_union. naive_solver.
  - by rewrite (Permutation_flat_map idxs Hp), flat_map_app.
  - rewrite (Permutation_flat_map ileaves Hp), flat_map_app. simpl.
    by rewrite <-Permutation_cons_append.
  - rewrite length_insert. lia.
  - intros j _ Hj. apply list_lookup_insert_ne. intros ->. apply Hj. left.
Qed.

Lemma full_case new order nl ns i b m ts ch pos bi bb bo :
  ready new order nl ns (RNode i b m ts) →
  ns !! i = Some (mkNode b m (Internal ch)) → holds ch (tidx <$> ts) →
  ts !! pos = Some (RLeaf bi bb bo) →
  ∃ ns1 ns2 t',
    split_leaf ns new order nl i bi pos = Ok ns1 ∧
    propagate_step new order (ns1, None) i = Ok (ns2, Some i) ∧
    inserted new order nl ns ns2 (RNode i b m ts) t' 1.
Proof.
  intros (Hr & Hw & Hnd & Hnl & Hleaf) Hi Hh Hpos.
  inversion Hr as [|?????? _ Hrs]; subst. inversion Hw as [|????? Hws Hb Ho Hl Ht Hlen2]; subst.
  simpl in Hnd, Hnl. apply NoDup_cons in Hnd as [Hin Hnd]. apply not_elem_of_cons in Hnl as [Hne Hnl].
  pose proof (list_elem_of_lookup_2 _ _ _ Hpos) as Hbest.
  assert (bi ∈ flat_map idxs ts) as Hbi by (apply (elem_of_idxs_child _ (RLeaf bi bb bo)); [by left|done]).
  assert (repr ns (RLeaf bi bb bo)) as Hrb by (rewrite Forall_forall in Hrs; auto).
  inversion Hrb as [??? Hnb|]; subst.
  destruct (split_leaf_ok ns new order nl i b _ ch ts pos bi bb bo Hi Hh ltac:(by eexists) Ho Hpos Hnb)
    as (ch' & ts' & chp & Hsplit & Hhp & Hh' & Hp & Ht'). cbv zeta in *. rewrite Hsplit. clear Hsplit.
  set (us := if decide (bo < order)%N then _ else _) in *.
  set (pair := RNode (length ns) (union bb new) (N.max bo order) us) in *.
  destruct (lookup_permutation ts pos _ Hpos) as (rest & Hrest & Hrest').
  rewrite Hrest' in Hp.
  pose proof (lookup_lt_Some _ _ _ Hi) as Hil.
  pose proof (lookup_lt_Some _ _ _ Hleaf) as Hnll. pose proof (lookup_lt_Some _ _ _ Hnb) as Hbil.
  eexists _, _, _. split; [done|]. split.
  { apply propagate_none. apply list_lookup_insert_eq. rewrite length_app. lia. }
  rewrite list_insert_insert_eq.
  set (ns2 := <[i:=_]> _).
  assert (∀ j, j ≠ i → j < length ns → ns2 !! j = ns !! j) as Hns2.
  { intros j Hj Hjl. unfold ns2. rewrite list_lookup_insert_ne by done. by apply lookup_app_l. }
  assert (Forall (repr ns2) rest) as Hrr.
  { apply repr_insert; [apply repr_app; by rewrite Hrest in Hrs; inversion Hrs|].
    intros Hj. apply Hin. rewrite (Permutation_flat_map idxs Hrest). simpl. by right. }
  assert (repr ns2 pair) as Hrp.
  { apply (repr_node _ _ _ _ _ chp); [|done|].
    - unfold ns2. rewrite list_lookup_insert_ne by lia. by apply list_lookup_middle.
    - unfold us. case_decide; repeat constructor; rewrite Hns2; try done; by intros ->. }
  eapply (inserted_node _ _ _ _ _ _ _ _ _ _ ts'); try done.
  - apply list_lookup_insert_eq. rewrite length_app. lia.
  - rewrite Hp. by constructor.
  - rewrite Hp. constructor; [apply wf_pair|]. rewrite Hrest in Hws. by inversion Hws.
  - rewrite Hp. apply (enclosed_children _ new) in Hb. rewrite Hrest in Hb.
    inversion Hb as [|?? Hbb]; subst. constructor; [|done]. intros r H1 H2. simpl.
    apply encloses_union. split; [by apply Hbb|done].
  - rewrite Hp. rewrite Hrest in Ho. apply (order_children _ order) in Ho.
    inversion Ho as [|?? Hoo]; subst. constructor; [|done]. simpl in *. lia.
  - rewrite Hp. rewrite Hrest in Hlen2. done.
  - intros r. rewrite !encloses_union. done.
  - apply (replace_children idxs ts (RLeaf bi bb bo) pair rest _ ts' Hrest Hp). simpl.
    rewrite Permutation_cons_append. unfold us. case_decide; simpl; [done|apply perm_swap].
  - rewrite Permutation_cons_append.
    apply (replace_children ileaves ts (RLeaf bi bb bo) pair rest _ ts' Hrest Hp). simpl.
    unfold us. case_decide; simpl; [done|apply perm_swap].
  - unfold ns2. rewrite length_insert, length_app. simpl. lia.
  - intros j Hjl Hj. apply Hns2; [|done]. intros ->. apply Hj. left.
Qed.

(** The step of the propagation at a node whose child at [pos] was updated below. *)
Lemma updated_case new order nl ns ns' i b m ts ch pos c c' extra :
  ready new order nl ns (RNode i b m ts) →
  ns !! i = Some (mkNode b m (Internal ch)) → holds ch (tidx <$> ts) →
  ts !! pos = Some c → inserted new order nl ns ns' c c' extra →
  ∃ ns2 t',
    propagate_step new order (ns', Some (tidx c)) i = Ok (ns2, Some i) ∧
    inserted new order nl ns ns2 (RNode i b m ts) t' extra.
Proof.
  intros (Hr & Hw & Hnd & Hnl & Hleaf) Hi Hh Hpos [Ir Iw Ii Io Ib Ix In If Iv].
  inversion Hr as [|?????? _ Hrs]; subst. inversion Hw as [|????? Hws Hb Ho Hl Ht Hlen2]; subst.
  simpl in Hnd, Hnl. apply NoDup_cons in Hnd as [Hin Hnd]. apply not_elem_of_cons in Hnl as [Hne Hnl].
  destruct (lookup_permutation ts pos _ Hpos) as (rest & Hrest & Hrest').
  pose proof (lookup_lt_Some _ _ _ Hi) as Hil.
  pose proof (list_elem_of_lookup_2 _ _ _ Hpos) as Hc.
  assert (Hic : i ∉ idxs c) by (intros Hj; apply Hin; by eapply elem_of_idxs_child).
  pose proof Hnd as Hnd'. rewrite (Permutation_flat_map idxs Hrest) in Hnd'. simpl in Hnd'.
  apply NoDup_app in Hnd' as (_ & Hdisj & _).
  assert (Htidx : tidx <$> <[pos:=c']> ts = tidx <$> ts).
  { rewrite list_fmap_insert, Ii. apply list_insert_id. by rewrite list_lookup_fmap, Hpos. }
  destruct (propagate_child ns' new order i b (torder tl) ch ts pos c c')
    as (ch' & ts' & Hstep & Hh' & Hp & Ht'); try done.
  { by rewrite If. }
  { by rewrite Htidx. }
  { rewrite Htidx. by apply NoDup_tidx. }
  { by eexists. }
  rewrite Ii in Hstep. rewrite Hstep. clear Hstep. rewrite Hrest' in Hp.
  eexists _, _. split; [done|]. set (ns2 := <[i:=_]> ns').
  assert (Hns2 : ∀ j, j ≠ i → ns2 !! j = ns' !! j) by (intros; by apply list_lookup_insert_ne).
  assert (Hidx : flat_map idxs ts' ≡ₚ flat_map idxs ts ++ nl :: seq (length ns) extra)
    by by apply (replace_children idxs ts c c' rest).
  assert (Hic' : i ∉ flat_map idxs ts').
  { rewrite Hidx, elem_of_app, elem_of_cons, elem_of_seq. intros [?|[?|?]]; [done|done|lia]. }
  eapply (inserted_node _ _ _ _ _ _ _ _ _ _ ts'); try done.
  - apply list_lookup_insert_eq. lia.
  - apply repr_insert; [|done]. rewrite Hp. constructor; [done|].
    rewrite Hrest in Hrs. inversion Hrs as [|?? _ Hrr]; subst. rewrite Forall_forall in *.
    intros d Hd. apply (repr_frame ns); [by apply Hrr|]. intros j Hj. apply If.
    + by eapply repr_bound; [apply Hrr|].
    + intros Hj'. apply (Hdisj j Hj'). by apply (elem_of_idxs_child j d).
  - rewrite Hp. rewrite Hrest in Hws. inversion Hws. by constructor.
  - rewrite Hp. apply (enclosed_children _ new) in Hb. rewrite Hrest in Hb.
    inversion Hb as [|?? Hbc]; subst. constructor; [|done]. intros r H1 H2. apply Ib.
    split; [by apply Hbc|done].
  - rewrite Hp. rewrite Hrest in Ho. inversion Ho as [|?? Hoc Hoo]; subst.
    constructor; [lia|by apply order_children].
  - rewrite Hp. rewrite Hrest in Hlen2. done.
  - intros r. by rewrite encloses_union.
  - rewrite Permutation_cons_append. apply (replace_children ileaves ts c c' rest _ ts' Hrest Hp).
    by rewrite Iv, Permutation_cons_append.
  - unfold ns2. by rewrite length_insert.
  - intros j Hjl Hj. apply not_elem_of_cons in Hj as [Hji Hj].
    rewrite Hns2 by done. apply If; [done|]. intros Hjc. apply Hj. by eapply elem_of_idxs_child.
Qed.

Lemma descend_ok new order nl t fuel ns path :
  (∃ i b m ts, t = RNode i b m ts) → ready new order nl ns t → length (idxs t) ≤ fuel →
  ∃ ns1 p ns2 t' extra,
    descend fuel ns new order nl (tidx t) path = Ok (ns1, path ++ p) ∧
    foldM (propagate_step new order) (ns1, None) (rev p) = Ok (ns2, Some (tidx t)) ∧
    inserted new order nl ns ns2 t t' extra.
Proof.
  revert fuel path. induction t as [|i b m ts IH] using rtree_nested_ind;
    intros fuel path Hnode Hready Hfuel; [naive_solver|]. clear Hnode.
  pose proof Hready as (Hr & Hw & Hnd & Hnl & Hleaf).
  inversion Hr as [|????? Hi Hh Hrs]; subst. inversion Hw as [|????? Hws _ _ _ _ Hlen2]; subst.
  destruct fuel as [|fuel]; [simpl in Hfuel; lia|]. cbn [descend tidx].
  assert (index ns i = Ok (mkNode b m (Internal ch))) as -> by by unfold index; rewrite Hi.
  cbn [mbind outcome_bind kind].
  destruct (best_child_ok ns new ch ts Hrs Hh) as (pos & c & -> & Hpos);
    [by intros ->; simpl in Hlen2; lia|].
  pose proof (list_elem_of_lookup_2 _ _ _ Hpos) as Hc.
  rewrite Forall_forall in IH, Hrs, Hws. pose proof (Hrs c Hc) as Hrc.
  destruct (repr_node_of _ _ Hrc) as (n & Hn & _). cbn [mbind outcome_bind].
  rewrite (index_node ns c n Hn). cbn [mbind outcome_bind].
  destruct c as [bi bb bo|ci cb cm cts]; inversion Hrc as [??? Hn'|????? Hn']; subst;
    unfold node_of in Hn; cbn [tidx] in Hn; rewrite Hn' in Hn; injection Hn as <-; cbn [is_leaf kind].
  - rewrite (holds_len _ _ Hh). case_decide as Hroom.
    + destruct (room_case _ _ _ _ _ _ _ _ _ Hready Hi Hh Hroom) as (ns1 & ns2 & t' & -> & Hp & Hins).
      exists ns1, [i], ns2, t', 0. split; [done|]. split; [|done].
      cbn [rev app foldM]. by rewrite Hp.
    + destruct (full_case _ _ _ _ _ _ _ _ _ _ _ _ _ Hready Hi Hh Hpos)
        as (ns1 & ns2 & t' & Hs & Hp & Hins). cbn [tidx]. rewrite Hs.
      exists ns1, [i], ns2, t', 1. split; [done|]. split; [|done].
      cbn [rev app foldM]. by rewrite Hp.
  - set (c := RNode ci cb cm cts) in *.
    destruct (lookup_permutation ts pos _ Hpos) as (rest & Hrest & _).
    pose proof (Permutation_flat_map idxs Hrest) as Hidx. simpl in Hnd, Hnl, Hfuel.
    apply NoDup_cons in Hnd as [_ Hnd]. rewrite Hidx in Hnd. apply NoDup_app in Hnd as [Hndc _].
    destruct (IH c Hc fuel (path ++ [i])) as (ns1 & p & ns2 & c' & extra & Hd & Hf & Hins).
    { by eexists _, _, _, _. }
    { split_and!; [done|by apply Hws|done| |done]. intros Hj. apply Hnl. right.
      by eapply elem_of_idxs_child. }
    { rewrite (Permutation_length Hidx) in Hfuel.
      change (flat_map idxs (c :: rest)) with (idxs c ++ flat_map idxs rest) in Hfuel.
      rewrite length_app in Hfuel. lia. }
    destruct (updated_case _ _ _ _ ns2 _ _ _ _ _ _ c c' extra Hready Hi Hh Hpos Hins)
      as (ns3 & t' & Hp & Hins').
    rewrite Hd. exists ns1, (i :: p), ns3, t', extra.
    split; [by rewrite <-app_assoc|]. split; [|done].
    cbn [rev]. rewrite foldM_app, Hf. cbn [mbind outcome_bind foldM]. by rewrite Hp.
Qed.

(** ** The tree *)

(** The tree stores [t], which uses the whole arena. *)
Definition stored (T : BoundsTree U) t : Prop :=
  root T = Some (tidx t) ∧ repr (nodes T) t ∧ wf t ∧ idxs t ≡ₚ seq 0 (length (nodes T)).

(** The tree holds the rectangles [l] with their orders, and remembers a leaf with the largest. *)
Definition valid (T : BoundsTree U) (l : list (Bounds U * N)) : Prop :=
  (T = default_tree ∧ l = []) ∨
  ∃ t i b, stored T t ∧ leaves t ≡ₚ l ∧ max_leaf T = Some i ∧ (i, (b, torder t)) ∈ ileaves t.

Lemma find_max_ordering_ok T l q :
  valid T l → find_max_ordering T q = Ok (max_ordering q l).
Proof.
  intros [[-> ->]|(t & i & b & (Hroot & Hr & Hw & Hx) & Hl & Hm & Hi)]; [done|].
  unfold find_max_ordering. rewrite Hroot, Hm. unfold index.
  rewrite (repr_leaves _ _ _ _ _ Hr Hi). simpl.
  assert ((b, torder t) ∈ leaves t) as He.
  { apply (list_elem_of_fmap_2 snd _ _ Hi). }
  rewrite <-Hl. destruct (intersects q b) eqn:Hq; simpl.
  - f_equal. apply N.le_antisymm; [by eapply max_ordering_elem|].
    apply max_ordering_le. intros e He'. by apply (elem_of_leaves t).
  - destruct (repr_node_of _ _ Hr) as (n & Hn & _). unfold node_of in Hn. rewrite Hn. simpl.
    rewrite (search_ok _ q _ [t]); try (by constructor).
    + rewrite N.max_0_l. unfold fleaves, leaves. cbn [flat_map]. by rewrite app_nil_r.
    + simpl. rewrite app_nil_r, (Permutation_length Hx), length_seq. lia.
Qed.

Lemma seq_snoc2 n extra l :
  l ≡ₚ seq 0 n → l ++ n :: seq (n + 1) extra ≡ₚ seq 0 (n + 1 + extra).
Proof.
  intros ->. rewrite seq_app, seq_app, <-app_assoc. done.
Qed.

Lemma insert_leaf_default new order :
  ∃ T', insert_leaf default_tree new order = Ok (T', 0) ∧ max_leaf T' = None ∧
    stored T' (RLeaf 0 new order).
Proof. eexists. split; [done|]. split; [done|]. by repeat constructor. Qed.

Lemma insert_leaf_ok T t new order :
  stored T t →
  ∃ T' t', insert_leaf T new order = Ok (T', length (nodes T)) ∧ max_leaf T' = max_leaf T ∧
    stored T' t' ∧ ileaves t' ≡ₚ (length (nodes T), (new, order)) :: ileaves t ∧
    torder t' = N.max (torder t) order.
Proof.
  intros (Hroot & Hr & Hw & Hx). unfold insert_leaf. rewrite Hroot.
  set (n := length (nodes T)). set (ns := nodes T ++ [mkNode new order (Leaf order)]).
  assert (Hlen : length ns = n + 1) by (unfold ns; by rewrite length_app).
  assert (Hnl : ns !! n = Some (mkNode new order (Leaf order))) by by apply list_lookup_middle.
  assert (Hr' : repr ns t).
  { apply (repr_frame (nodes T)); [done|]. intros j Hj. apply lookup_app_l.
    by eapply repr_bound. }
  destruct (repr_node_of _ _ Hr') as (nd & Hnd & _). rewrite (index_node _ _ _ Hnd).
  cbn [mbind outcome_bind].
  destruct t as [i b o|i b m ts]; inversion Hr' as [??? Hi|????? Hi]; subst;
    unfold node_of in Hnd; cbn [tidx] in *; rewrite Hi in Hnd; injection Hnd as <-;
    cbn [is_leaf kind max_order node_bounds].
  - destruct (holds_pair i n o order) as (ch & -> & Hh). cbn [mbind outcome_bind].
    set (us := if decide (o < order)%N then [RLeaf i b o; RLeaf n new order]
               else [RLeaf n new order; RLeaf i b o]).
    eexists _, (RNode (n + 1) (union b new) (N.max o order) us).
    rewrite Hlen. split; [done|]. split; [done|]. split; [|split; [|done]].
    + split; [done|]. cbn [nodes]. split_and!.
      * apply (repr_node _ _ _ _ _ ch).
        { rewrite <-Hlen. by apply list_lookup_middle. }
        { unfold us. by case_decide. }
        unfold us. pose proof (lookup_lt_Some _ _ _ Hi). pose proof (lookup_lt_Some _ _ _ Hnl).
        case_decide; repeat constructor; by rewrite lookup_app_l.
      * apply wf_pair.
      * rewrite length_app, Hlen. rewrite <-(seq_snoc2 n 1 _ Hx). simpl.
        rewrite Permutation_cons_append. unfold us. case_decide; simpl; [done|apply perm_swap].
    + unfold us. simpl. case_decide; simpl; [apply perm_swap|done].
  - rewrite Hlen.
    destruct (descend_ok new order n (RNode i b m ts) (n + 1) ns [])
      as (ns1 & p & ns2 & t' & extra & Hd & Hf & [Ir Iw Ii Io Ib Ix In If Iv]).
    { by eexists _, _, _, _. }
    { split_and!; [done|done| | |done].
      - rewrite Hx. apply NoDup_seq.
      - rewrite Hx, elem_of_seq. lia. }
    { rewrite (Permutation_length Hx), length_seq. fold n. lia. }
    cbn [tidx] in Hd, Hf. rewrite Hd. cbn [mbind outcome_bind app]. rewrite Hf.
    eexists _, t'. split; [done|]. split; [done|]. split; [|split; [done|done]].
    split; [by rewrite Ii|]. cbn [nodes]. split; [done|]. split; [done|].
    rewrite Ix, In, Hlen. by apply seq_snoc2.
Qed.

(** One insertion, with the invariant. *)
Lemma insert_ok T l new :
  valid T l → (max_ordering new l + 1 < 2 ^ 32)%N →
  ∃ T', insert T new = Ok (T', (max_ordering new l + 1)%N) ∧
    valid T' ((new, (max_ordering new l + 1)%N) :: l).
Proof.
  intros Hv Hlt. unfold insert. rewrite (find_max_ordering_ok T l new Hv).
  cbn [mbind outcome_bind]. unfold u32_add. rewrite decide_True by done.
  cbn [mbind outcome_bind]. set (o := (max_ordering new l + 1)%N) in *.
  destruct Hv as [[-> ->]|(t & i & b & Hs & Hl & Hm & Hi)].
  - destruct (insert_leaf_default new o) as (T' & -> & Hm & Hs). cbn [mbind outcome_bind].
    rewrite Hm. simpl. eexists. split; [done|]. right. exists (RLeaf 0 new o), 0, new.
    split; [done|]. split; [done|]. split; [done|]. by left.
  - destruct (insert_leaf_ok T t new o Hs) as (T' & t' & -> & Hm' & Hs' & Hv' & Ho').
    cbn [mbind outcome_bind]. rewrite Hm', Hm. unfold index.
    assert ((i, (b, torder t)) ∈ ileaves t') as Hi' by (rewrite Hv'; by right).
    destruct Hs' as (Hroot & Hr & Hw & Hx).
    rewrite (repr_leaves _ _ _ _ _ Hr Hi'). simpl.
    assert (leaves t' ≡ₚ (new, o) :: l) as Hl'.
    { unfold leaves in *. by rewrite Hv', <-Hl. }
    eexists. split; [done|]. right. case_decide.
    + exists t', (length (nodes T)), new. split; [done|]. split; [done|]. split; [done|].
      rewrite Ho', N.max_r by lia. rewrite Hv'. by left.
    + exists t', i, b. split; [done|]. split; [done|]. split; [done|].
      by rewrite Ho', N.max_l by lia.
Qed.

Lemma insert_overflow T l new :
  valid T l → (2 ^ 32 ≤ max_ordering new l + 1)%N → insert T new = Panic.
Proof.
  intros Hv Hlt. unfold insert. rewrite (find_max_ordering_ok T l new Hv).
  cbn [mbind outcome_bind]. unfold u32_add. by rewrite decide_False by lia.
Qed.

Lemma insert_all_ok T seen l k :
  valid T seen → (∀ e, e ∈ seen → (e.2 ≤ k)%N) → (k + N.of_nat (length l) < 2 ^ 32)%N →
  ∃ T', insert_all T l = Ok (T', orderings seen l) ∧
    valid T' (reverse (zip l (orderings seen l)) ++ seen).
Proof.
  revert T seen k. induction l as [|b l IH]; intros T seen k Hv Hk Hlt; [by exists T|].
  cbn [insert_all orderings length] in *. pose proof (max_ordering_le b seen k Hk) as Hle.
  destruct (insert_ok T seen b Hv) as (T1 & -> & Hv1); [lia|]. cbn [mbind outcome_bind].
  destruct (IH T1 _ (k + 1)%N Hv1) as (T2 & -> & Hv2).
  - intros e [->|He]%elem_of_cons; simpl; [lia|]. specialize (Hk e He). lia.
  - lia.
  - exists T2. split; [done|]. cbn [zip zip_with]. by rewrite reverse_cons, <-app_assoc.
Qed.

End ghost.
Arguments rtree : clear implicits.

(** ** Properties *)

Section theorems.
Context {U : Type} `{!Coord U, !CoordLaws U}.
Implicit Types l : list (Bounds U).
Implicit Types new : Bounds U.

Lemma max_ordering_witness new (seen : list (Bounds U * N)) :
  max_ordering new seen = 0%N ∨
  ∃ e, e ∈ seen ∧ intersects new e.1 = true ∧ max_ordering new seen = e.2.
Proof.
  induction seen as [|[b o] seen IH]; simpl; [by left|].
  destruct (intersects new b) eqn:Hb.
  - destruct (N.max_spec o (max_ordering new seen)) as [[? ->]|[? ->]].
    + destruct IH as [?|(e & ? & ? & ?)]; [lia|]. right. exists e. split; [by right|done].
    + right. exists (b, o). split; [by left|done].
  - rewrite N.max_0_l. destruct IH as [?|(e & ? & ? & ?)]; [by left|].
    right. exists e. split; [by right|done].
Qed.

Lemma orderings_length seen l : length (orderings seen l) = length l.
Proof. revert seen. induction l as [|b l IH]; intros seen; simpl; [done|]. by rewrite IH. Qed.

Lemma orderings_lookup seen l j b :
  l !! j = Some b →
  orderings seen l !! j
    = Some (max_ordering b (reverse (zip (take j l) (take j (orderings seen l))) ++ seen) + 1)%N.
Proof.
  revert seen j. induction l as [|b' l IH]; intros seen [|j] Hj; simplify_eq/=; [done|].
  rewrite (IH _ _ Hj). by rewrite reverse_cons, <-app_assoc.
Qed.

(** The rectangles before position [j] with their orders. *)
Lemma elem_of_before seen l j e :
  e ∈ zip (take j l) (take j (orderings seen l)) ↔
  ∃ i, i < j ∧ l !! i = Some e.1 ∧ orderings seen l !! i = Some e.2.
Proof.
  rewrite list_elem_of_lookup. setoid_rewrite lookup_zip_with_Some. split.
  - intros (i & b & o & -> & [Hb Hi]%lookup_take_Some & [Ho _]%lookup_take_Some). eauto.
  - intros (i & Hi & Hb & Ho). destruct e as [b o]. exists i, b, o.
    by rewrite !lookup_take_lt by lia.
Qed.

Lemma orderings_le l j o : orderings [] l !! j = Some o → (1 ≤ o ≤ N.of_nat j + 1)%N.
Proof.
  revert o. induction j as [j IH] using lt_wf_ind. intros o Ho.
  assert (∃ b, l !! j = Some b) as [b Hb].
  { apply lookup_lt_is_Some. rewrite <-(orderings_length []). by eapply lookup_lt_Some. }
  rewrite (orderings_lookup [] l j b Hb) in Ho. injection Ho as <-.
  split; [lia|]. apply N.add_le_mono_r, max_ordering_le.
  intros e He. rewrite app_nil_r, elem_of_reverse, elem_of_before in He.
  destruct He as (i & Hi & _ & Hoi). specialize (IH i Hi _ Hoi). lia.
Qed.

(** A rectangle has a larger order than those before it that it meets. *)
Lemma orderings_before l i j bi bj oi oj :
  i < j → l !! i = Some bi → l !! j = Some bj → orderings [] l !! i = Some oi →
  orderings [] l !! j = Some oj → intersects bj bi = true → (oi < oj)%N.
Proof.
  intros Hi Hbi Hj Hoi Ho Hint. rewrite (orderings_lookup [] l j bj Hj) in Ho.
  injection Ho as <-. enough (oi ≤ max_ordering bj (reverse (zip (take j l)
    (take j (orderings [] l))) ++ []))%N by lia.
  apply (max_ordering_elem bj _ bi); [|done].
  rewrite app_nil_r, elem_of_reverse. apply (elem_of_before [] l j (bi, oi)). by exists i.
Qed.
Lemma orderings_snoc l b :
  orderings [] (l ++ [b]) = orderings [] l ++ [(max_ordering b (reverse (zip l (orderings [] l))) + 1)%N].
Proof.
  assert (H : ∀ seen, orderings seen (l ++ [b])
    = orderings seen l ++ [(max_ordering b (reverse (zip l (orderings seen l)) ++ seen) + 1)%N]).
  { induction l as [|c l IH]; intros seen; [done|]. cbn [app orderings zip]. rewrite IH.
    cbn [app zip_with]. by rewrite reverse_cons, <-app_assoc. }
  by rewrite H, app_nil_r.
Qed.

(** C4: The R-tree keeps its invariant and answers exactly: in every state that holds the
    rectangles [l] with their orders, a query answers the largest order among the rectangles that
    it meets, and an insertion answers one more and leads to a state that holds the new rectangle
    too, or panics when the order does not fit [u32].  The fast path by the remembered leaf, the
    pruning by order and by bounds, the choice of the child, the split of a full node and the
    swaps of children are invisible. *)
Theorem bounds_tree_exact (T : BoundsTree U) seen new :
  valid T seen →
  find_max_ordering T new = Ok (max_ordering new seen) ∧
  if decide (max_ordering new seen + 1 < 2 ^ 32)%N
  then ∃ T', insert T new = Ok (T', (max_ordering new seen + 1)%N) ∧
    valid T' ((new, (max_ordering new seen + 1)%N) :: seen)
  else insert T new = Panic.
Proof.
  intros Hv. split; [by apply find_max_ordering_ok|]. case_decide; [by apply insert_ok|].
  apply (insert_overflow T seen); [done|lia].
Qed.

(** A frame of fewer than 2^32 rectangles gets the orders of the quadratic reference, from
    a new tree and from a cleared one: no index is out of range and no loop runs out of fuel. *)
Theorem insert_all_reference (T : BoundsTree U) l :
  (N.of_nat (length l) < 2 ^ 32)%N →
  ∃ T', insert_all default_tree l = Ok (T', orderings [] l) ∧
    insert_all (clear T) l = Ok (T', orderings [] l) ∧
    valid T' (reverse (zip l (orderings [] l))).
Proof.
  intros Hl. destruct (insert_all_ok default_tree [] l 0) as (T' & HT & Hv).
  - by left.
  - by intros e He%elem_of_nil.
  - lia.
  - rewrite app_nil_r in Hv. by exists T'.
Qed.

(** Painting in the assigned orders is painting in sequence: of two rectangles that meet,
    the later one has the larger order.  The orders are also as small as that allows: each is
    between one and its position, and when it is not one, some earlier rectangle that it meets
    has the order just below. *)
Theorem paint_order (T T' : BoundsTree U) l os j bj oj :
  (N.of_nat (length l) < 2 ^ 32)%N → insert_all (clear T) l = Ok (T', os) →
  l !! j = Some bj → os !! j = Some oj →
  (∀ i bi oi, i < j → l !! i = Some bi → os !! i = Some oi → intersects bj bi = true →
     (oi < oj)%N) ∧
  (1 ≤ oj ≤ N.of_nat j + 1)%N ∧
  (oj = 1%N ∨ ∃ i bi oi, i < j ∧ l !! i = Some bi ∧ os !! i = Some oi ∧
     intersects bj bi = true ∧ oj = (oi + 1)%N).
Proof.
  intros Hl Hall Hj Ho. destruct (insert_all_ok default_tree [] l 0) as (T1 & HT & _).
  { by left. }
  { by intros e He%elem_of_nil. }
  { lia. }
  unfold clear in Hall. rewrite HT in Hall. injection Hall as <- <-.
  split; [|split; [by eapply orderings_le|]].
  - intros i bi oi Hi Hbi Hoi Hint. by eapply (orderings_before l i j bi bj).
  - rewrite (orderings_lookup [] l j bj Hj) in Ho. injection Ho as <-.
    destruct (max_ordering_witness bj (reverse (zip (take j l) (take j (orderings [] l))) ++ []))
      as [->|([bi oi] & He & Hint & ->)]; [by left|right].
    rewrite app_nil_r, elem_of_reverse, elem_of_before in He.
    destruct He as (i & Hi & Hbi & Hoi). by exists i, bi, oi.
Qed.

End theorems.

(** ** Witnesses *)

(** A frame with a full node: fourteen rectangles, of which every other one is far away. *)
Definition demo_frame : list (Bounds Z) :=
  (λ i, bounds (point (if Nat.even i then Z.of_nat i else 100 + 20 * Z.of_nat i) 0)%Z (size 10 10)%Z)
    <$> seq 0 14.

Lemma bounds_tree_exact_witness :
  valid (default_tree (U:=Z)) [] ∧
  find_max_ordering (default_tree (U:=Z)) (bounds (point 0 0) (size 10 10))%Z = Ok 0%N.
Proof.
  assert (valid (default_tree (U:=Z)) []) as Hv by (by left).
  split; [exact Hv|].
  exact (proj1 (bounds_tree_exact default_tree [] (bounds (point 0 0) (size 10 10))%Z Hv)).
Defined.

Lemma insert_all_reference_witness :
  (N.of_nat (length demo_frame) < 2 ^ 32)%N ∧
  ∃ T', insert_all default_tree demo_frame = Ok (T', orderings [] demo_frame) ∧
    length (nodes T') = 17.
Proof.
  assert (N.of_nat (length demo_frame) < 2 ^ 32)%N as Hl by (vm_compute; reflexivity).
  split; [exact Hl|].
  destruct (insert_all_reference default_tree demo_frame Hl) as (T' & H & _).
  exists T'. split; [exact H|]. vm_compute in H. injection H as <-. reflexivity.
Defined.

Lemma paint_order_witness :
  ∃ T' os, insert_all default_tree demo_frame = Ok (T', os) ∧ os !! 2 = Some 2%N ∧
    (1 ≤ 2 ≤ N.of_nat 2 + 1)%N.
Proof.
  eexists _, _. split; [vm_compute; reflexivity|]. split; [reflexivity|].
  refine (proj1 (proj2 (paint_order default_tree _ demo_frame _ 2 _ 2%N _ _ _ _)));
    [vm_compute; reflexivity..].
Defined.
