(* ===== verification/Subscription.v ===== *)
(** The subscriptions of [crates/gpui/src/subscription.rs]: subscribers by emitter, in the
    order they were added, each with an [active] and a [dropped] flag that the subscription
    handle and the set share, and callbacks that may change the set while it is iterated. *)
From stdpp Require Import gmap.
From S2P Require Import Prelude.

Section subscriber_set.
Context {K Cb : Type} `{!EqDecision K, !Countable K}.

(** A [BTreeMap<usize, Subscriber>]: the subscribers in the order of their ids.  The two cells
    of a subscriber are shared with the closures that [insert] returns; they are kept in the
    state, by the subscriber's id. *)
Local Notation Subscribers := (list (nat * Cb)).

(** [struct SubscriberSetState], with the cells [active] and [dropped] that are set.  A key
    whose value is [None] is being iterated by [retain], which has taken the subscribers. *)
Record SubscriberSet : Type := mkSet {
  subscribers : gmap K (option Subscribers);
  next_subscriber_id : nat;
  active : gset nat;
  dropped : gset nat;
}.
Implicit Types st : SubscriberSet.
Implicit Types m : Subscribers.

(** [SubscriberSet::new]. *)
Definition set_new : SubscriberSet := mkSet ∅ 0 ∅ ∅.

(** [BTreeMap::insert]: replaces the value of an id, keeps the ids in order. *)
Fixpoint btree_insert (id : nat) (cb : Cb) m : Subscribers :=
  match m with
  | [] => [(id, cb)]
  | (id', cb') :: m' =>
      if decide (id < id') then (id, cb) :: m
      else if decide (id = id') then (id, cb) :: m'
      else (id', cb') :: btree_insert id cb m'
  end.
Definition btree_remove (id : nat) m : Subscribers := filter (λ s, s.1 ≠ id) m.
Definition btree_extend m new : Subscribers :=
  foldl (λ m s, btree_insert s.1 s.2 m) m new.

(** [SubscriberSet::insert]: the id names the subscription and its cells. *)
Definition insert_subscriber (emitter_key : K) (callback : Cb) st : nat * SubscriberSet :=
  let subscriber_id := next_subscriber_id st in
  let entry := match subscribers st !! emitter_key with Some (Some m) => m | _ => [] end in
  (subscriber_id,
   mkSet (<[emitter_key := Some (btree_insert subscriber_id callback entry)]> (subscribers st))
     (next_subscriber_id st + 1) (active st) (dropped st)).

(** The closure that activates a subscription. *)
Definition activate (subscriber_id : nat) st : SubscriberSet :=
  mkSet (subscribers st) (next_subscriber_id st) ({[subscriber_id]} ∪ active st) (dropped st).

(** The closure [unsubscribe] of a subscription to [emitter_key]. *)
Definition unsubscribe (emitter_key : K) (subscriber_id : nat) st : SubscriberSet :=
  let dropped := {[subscriber_id]} ∪ dropped st in
  let subscribers :=
    match subscribers st !! emitter_key with
    | None => subscribers st
    | Some None => subscribers st
    | Some (Some m) =>
        let m := btree_remove subscriber_id m in
        if decide (m = []) then delete emitter_key (subscribers st)
        else <[emitter_key := Some m]> (subscribers st)
    end in
  mkSet subscribers (next_subscriber_id st) (active st) dropped.

(** [SubscriberSet::remove]: the callbacks of the active subscribers. *)
Definition remove_emitter (emitter : K) st : list Cb * SubscriberSet :=
  let m := match subscribers st !! emitter with Some (Some m) => m | _ => [] end in
  (map snd (filter (λ s, s.1 ∈ active st) m),
   mkSet (delete emitter (subscribers st)) (next_subscriber_id st) (active st) (dropped st)).

(** What a callback may do to the set while [retain] runs. *)
Inductive op : Type :=
| OInsert (emitter_key : K) (callback : Cb)
| OActivate (subscriber_id : nat)
| OUnsubscribe (emitter_key : K) (subscriber_id : nat)
| ORemove (emitter : K).

Definition run_op st (o : op) : SubscriberSet :=
  match o with
  | OInsert k cb => (insert_subscriber k cb st).2
  | OActivate id => activate id st
  | OUnsubscribe k id => unsubscribe k id st
  | ORemove k => (remove_emitter k st).2
  end.

(** The callback of [retain], [FnMut(&mut Callback) -> bool]: from what it has captured [W],
    the set and the subscriber's callback, it makes the new capture, the operations it performs
    on the set, the new callback and its result. *)
Context {W : Type} (f : W → SubscriberSet → Cb → W * list op * Cb * bool).

(** The closure given to [BTreeMap::retain], over the subscribers taken out of the set. *)
Fixpoint retain_loop (w : W) st m : W * SubscriberSet * Subscribers :=
  match m with
  | [] => (w, st, [])
  | (id, cb) :: m =>
      if decide (id ∉ active st) then
        let '(w, st, m) := retain_loop w st m in (w, st, (id, cb) :: m)
      else if decide (id ∈ dropped st) then retain_loop w st m
      else
        let '(w, ops, cb, keep) := f w st cb in
        let st := foldl run_op st ops in
        let keep := keep && bool_decide (id ∉ dropped st) in
        let '(w, st, m) := retain_loop w st m in
        (w, st, if keep then (id, cb) :: m else m)
  end.

(** [SubscriberSet::retain]. *)
Definition retain (emitter : K) (w : W) st : W * SubscriberSet :=
  match subscribers st !! emitter with
  | Some (Some m) =>
      let st := mkSet (<[emitter := None]> (subscribers st)) (next_subscriber_id st) (active st)
        (dropped st) in
      let '(w, st, m) := retain_loop w st m in
      let m :=
        match subscribers st !! emitter with
        | Some (Some new_subscribers) => btree_extend m new_subscribers
        | _ => m
        end in
      let map := delete emitter (subscribers st) in
      let map := if decide (m = []) then map else <[emitter := Some m]> map in
      (w, mkSet map (next_subscriber_id st) (active st) (dropped st))
  | _ => (w, st)
  end.

End subscriber_set.
Arguments SubscriberSet K Cb {_ _}.
Arguments op : clear implicits.

(** [struct Subscription]: the unsubscribe closure, as what it does to the set. *)
Section subscription.
Context {St : Type}.
Record Subscription : Type := mkSubscription { sub_unsubscribe : option (St → St) }.
Definition subscription_new (unsubscribe : St → St) : Subscription :=
  mkSubscription (Some unsubscribe).
(** [detach] takes the closure out; the handle is then dropped without it. *)
Definition detach (self : Subscription) : Subscription := mkSubscription None.
Definition join (subscription_a subscription_b : Subscription) : Subscription :=
  mkSubscription (Some (λ st,
    let st := match sub_unsubscribe subscription_a with Some u => u st | None => st end in
    match sub_unsubscribe subscription_b with Some u => u st | None => st end)).
(** [impl Drop for Subscription]. *)
Definition drop_subscription (self : Subscription) (st : St) : St :=
  match sub_unsubscribe self with Some u => u st | None => st end.
End subscription.
Arguments Subscription : clear implicits.
