(* ===== verification/SubscriptionFacts.v ===== *)
(** The invariant of the subscriber set, that every operation keeps it even when callbacks
    change the set during [retain], and what [retain] invokes. *)
From stdpp Require Import gmap.
From S2P Require Import Prelude Subscription.

Section btree.
Context {Cb : Type}.
Implicit Types m : list (nat * Cb).

Definition ids m : list nat := map fst m.
Definition sorted_ids m : Prop := StronglySorted lt (ids m).

Lemma ids_app m1 m2 : ids (m1 ++ m2) = ids m1 ++ ids m2.
Proof. apply map_app. Qed.

Lemma sorted_ids_app m1 m2 :
  sorted_ids m1 → sorted_ids m2 → (∀ a b, a ∈ ids m1 → b ∈ ids m2 → a < b) →
  sorted_ids (m1 ++ m2).
Proof. intros. unfold sorted_ids. rewrite ids_app. by apply StronglySorted_app_2. Qed.

(** Inserting a greater id appends. *)
Lemma btree_insert_last id cb m : Forall (λ i, i < id) (ids m) → btree_insert id cb m = m ++ [(id, cb)].
Proof.
  induction m as [|[i c] m IH]; [done|]. intros [Hi Hm]%Forall_cons. simpl in *.
  rewrite decide_False, decide_False by lia. by rewrite IH.
Qed.

Lemma btree_extend_above m new :
  sorted_ids new → (∀ a b, a ∈ ids m → b ∈ ids new → a < b) → btree_extend m new = m ++ new.
Proof.
  unfold btree_extend. revert m. induction new as [|[i c] new IH]; intros m Hs Hlt; simpl.
  { by rewrite app_nil_r. }
  apply StronglySorted_inv in Hs as [Hs Hi].
  rewrite btree_insert_last.
  - rewrite IH; [by rewrite <-app_assoc|done|].
    intros a b. rewrite ids_app. intros [Ha|Ha]%elem_of_app Hb.
    + apply Hlt; [done|by right].
    + apply list_elem_of_singleton in Ha as ->. rewrite Forall_forall in Hi. by apply Hi.
  - apply Forall_forall. intros a Ha. apply Hlt; [done|left].
Qed.

Lemma ids_filter (P : nat * Cb → Prop) `{∀ s, Decision (P s)} m a : a ∈ ids (filter P m) → a ∈ ids m.
Proof.
  intros (s & -> & [_ Hs]%list_elem_of_filter)%list_elem_of_fmap. by apply list_elem_of_fmap_2.
Qed.

Lemma sorted_ids_filter (P : nat * Cb → Prop) `{∀ s, Decision (P s)} m :
  sorted_ids m → sorted_ids (filter P m).
Proof.
  induction m as [|s m IH]; [done|]. intros [Hs Hi]%StronglySorted_inv. rewrite filter_cons.
  case_decide; [|by apply IH]. constructor; [by apply IH|].
  apply Forall_forall. intros a Ha%ids_filter. rewrite Forall_forall in Hi. by apply Hi.
Qed.

End btree.

Section set.
Context {K Cb : Type} `{!EqDecision K, !Countable K}.
Implicit Types st : SubscriberSet K Cb.
Implicit Types m : list (nat * Cb).

(** The invariant: no emitter is kept without subscribers, the ids of an emitter are in order
    and were handed out, no id is subscribed to two emitters, and the flags are of ids that
    were handed out. *)
Record wf_set st : Prop := {
  wf_entry k m : subscribers st !! k = Some (Some m) →
    m ≠ [] ∧ sorted_ids m ∧ Forall (λ i, i < next_subscriber_id st) (ids m);
  wf_unique k1 k2 m1 m2 i : subscribers st !! k1 = Some (Some m1) →
    subscribers st !! k2 = Some (Some m2) → i ∈ ids m1 → i ∈ ids m2 → k1 = k2;
  wf_active i : i ∈ active st → i < next_subscriber_id st;
  wf_dropped i : i ∈ dropped st → i < next_subscriber_id st;
}.

(** An operation that is made with a handle of the set: an id that was handed out, with the
    emitter it was handed out for. *)
Definition op_ok st (o : op K Cb) : Prop :=
  match o with
  | OActivate i => i < next_subscriber_id st
  | OUnsubscribe k i => i < next_subscriber_id st ∧
      ∀ k' m, subscribers st !! k' = Some (Some m) → i ∈ ids m → k' = k
  | OInsert _ _ | ORemove _ => True
  end.

Fixpoint ops_ok st (os : list (op K Cb)) : Prop :=
  match os with [] => True | o :: os => op_ok st o ∧ ops_ok (run_op st o) os end.

(** Every subscriber after an operation was there before, or is the inserted one. *)
Lemma run_op_entry st o k m i :
  subscribers (run_op st o) !! k = Some (Some m) → i ∈ ids m →
  (∃ m', subscribers st !! k = Some (Some m') ∧ i ∈ ids m') ∨
  (∃ cb, o = OInsert k cb ∧ i = next_subscriber_id st).
Proof.
  destruct o as [k' cb|i'|k' i'|k']; simpl; [| |unfold unsubscribe; simpl|].
  - destruct (decide (k' = k)) as [->|]; [|rewrite lookup_insert_ne by done; by eauto].
    rewrite lookup_insert_eq. intros [= <-] Hi.
    assert (i ∈ ids (match subscribers st !! k with Some (Some m) => m | _ => [] end)
      ∨ i = next_subscriber_id st) as [Hin| ->]; [|left|right; by eauto].
    { revert Hi. generalize (match subscribers st !! k with Some (Some m) => m | _ => [] end).
      intros l. induction l as [|[j c] l IH]; simpl; [intros ->%list_elem_of_singleton; by right|].
      case_decide; [|case_decide]; simpl.
      - intros [->|Hl]%elem_of_cons; [by right|by left].
      - subst j. intros [->|Hl]%elem_of_cons; [by right|left; by right].
      - intros [->|Hl]%elem_of_cons; [left; left|]. destruct (IH Hl); [left; by right|by right]. }
    destruct (subscribers st !! k) as [[m'|]|]; [by exists m'|by apply elem_of_nil in Hin..].
  - by eauto.
  - destruct (subscribers st !! k') as [[m'|]|] eqn:E; [|by eauto..].
    case_decide.
    + intros [_ ?]%lookup_delete_Some ?. by eauto.
    + intros [[<- [= <-]]|[_ ?]]%lookup_insert_Some Hi; [|by eauto]. apply ids_filter in Hi. by eauto.
  - intros [_ ?]%lookup_delete_Some ?. by eauto.
Qed.

Lemma run_op_next st o : next_subscriber_id st ≤ next_subscriber_id (run_op st o).
Proof. destruct o; simpl; lia. Qed.

Lemma run_op_dropped st o : dropped st ⊆ dropped (run_op st o).
Proof. destruct o; simpl; set_solver. Qed.

Lemma run_op_active st o : active st ⊆ active (run_op st o).
Proof. destruct o; simpl; set_solver. Qed.

Lemma run_op_wf st o : wf_set st → op_ok st o → wf_set (run_op st o).
Proof.
  intros Hwf Ho. split.
  - destruct o as [k' cb|i'|k' i'|k']; simpl; intros k m.
    + intros [[<- [= <-]]|[_ Hk]]%lookup_insert_Some.
      * set (l := match subscribers st !! k' with Some (Some m) => m | _ => [] end).
        assert (sorted_ids l ∧ Forall (λ i, i < next_subscriber_id st) (ids l)) as [Hs Hl].
        { subst l. destruct (subscribers st !! k') as [[m|]|] eqn:E; [|repeat constructor..].
          by apply (wf_entry _ Hwf) in E as (_ & ? & ?). }
        rewrite btree_insert_last by done. split_and!.
        -- by intros [_ ?]%app_nil.
        -- apply sorted_ids_app; [done|repeat constructor|].
           intros a b Ha ->%list_elem_of_singleton. rewrite Forall_forall in Hl. by apply Hl.
        -- rewrite ids_app. apply Forall_app. split; [|repeat constructor; simpl; lia].
           eapply Forall_impl; [exact Hl|]. simpl. lia.
      * apply (wf_entry _ Hwf) in Hk as (? & ? & Hl). split_and!; [done..|].
        eapply Forall_impl; [exact Hl|]. simpl. lia.
    + apply (wf_entry _ Hwf).
    + unfold unsubscribe; simpl. destruct (subscribers st !! k') as [[m'|]|] eqn:E;
        [|apply (wf_entry _ Hwf)..].
      case_decide as Hnil.
      * intros [_ ?]%lookup_delete_Some. by apply (wf_entry _ Hwf k).
      * intros [[<- [= <-]]|[_ ?]]%lookup_insert_Some; [|by apply (wf_entry _ Hwf k)].
        apply (wf_entry _ Hwf) in E as (_ & Hs & Hl). split_and!; [done|by apply sorted_ids_filter|].
        apply Forall_forall. intros a Ha%ids_filter. rewrite Forall_forall in Hl. by apply Hl.
    + intros [_ ?]%lookup_delete_Some. by apply (wf_entry _ Hwf k).
  - intros k1 k2 m1 m2 i H1 H2 Hi1 Hi2.
    destruct (run_op_entry _ _ _ _ _ H1 Hi1) as [(m1' & E1 & I1)|(cb1 & -> & ->)],
      (run_op_entry _ _ _ _ _ H2 Hi2) as [(m2' & E2 & I2)|(cb2 & Heq & ?)].
    + by eapply (wf_unique _ Hwf).
    + subst. apply (wf_entry _ Hwf) in E1 as (_ & _ & Hl). rewrite Forall_forall in Hl.
      apply Hl in I1. simpl in I1. lia.
    + apply (wf_entry _ Hwf) in E2 as (_ & _ & Hl). rewrite Forall_forall in Hl.
      apply Hl in I2. simpl in I2. lia.
    + by injection Heq.
  - intros i Hi. destruct o; simpl in *.
    + apply (wf_active _ Hwf) in Hi. lia.
    + apply elem_of_union in Hi as [->%elem_of_singleton|Hi]; [done|by apply (wf_active _ Hwf)].
    + by apply (wf_active _ Hwf).
    + by apply (wf_active _ Hwf).
  - intros i Hi. destruct o; simpl in *.
    + apply (wf_dropped _ Hwf) in Hi. lia.
    + by apply (wf_dropped _ Hwf).
    + destruct Ho as [Ho _].
      apply elem_of_union in Hi as [->%elem_of_singleton|Hi]; [done|by apply (wf_dropped _ Hwf)].
    + by apply (wf_dropped _ Hwf).
Qed.

Lemma wf_set_new : wf_set (set_new (K:=K) (Cb:=Cb)).
Proof. by split; unfold set_new; simpl; intros; simplify_map_eq; set_solver. Qed.

End set.

Section retain.
Context {K Cb W : Type} `{!EqDecision K, !Countable K}.
Context (f : W → SubscriberSet K Cb → Cb → W * list (op K Cb) * Cb * bool).
Implicit Types st : SubscriberSet K Cb.
Implicit Types m : list (nat * Cb).

(** The iteration is sequential. *)
Lemma retain_loop_app w st m1 m2 :
  retain_loop f w st (m1 ++ m2) =
    let '(w1, st1, r1) := retain_loop f w st m1 in
    let '(w2, st2, r2) := retain_loop f w1 st1 m2 in
    (w2, st2, r1 ++ r2).
Proof.
  revert w st. induction m1 as [|[i c] m1 IH]; intros w st; simpl.
  { by destruct (retain_loop f w st m2) as [[? ?] ?]. }
  case_decide; [|case_decide]; [rewrite IH|rewrite IH|].
  - destruct (retain_loop f w st m1) as [[w1 st1] r1].
    by destruct (retain_loop f w1 st1 m2) as [[? ?] ?].
  - done.
  - destruct (f w st c) as [[[w' os] c'] kp]. rewrite IH.
    destruct (retain_loop f w' _ m1) as [[w1 st1] r1].
    destruct (retain_loop f w1 st1 m2) as [[w2 st2] r2]. by case_match.
Qed.

(** The callbacks make operations with handles of the set. *)
Definition callbacks_ok : Prop := ∀ w st cb, wf_set st → ops_ok st (f w st cb).1.1.2.

Lemma run_ops_wf st os : wf_set st → ops_ok st os → wf_set (foldl run_op st os).
Proof.
  revert st. induction os as [|o os IH]; intros st Hwf; simpl; [done|].
  intros [Ho Hos]. apply IH; [by apply run_op_wf|done].
Qed.

(** While [retain] runs on [k]: the subscribers it has taken are nowhere in the set, and those
    of [k] in the set were added since. *)
Definition taken_inv (k : K) (n0 : nat) (taken : list nat) st : Prop :=
  wf_set st ∧ n0 ≤ next_subscriber_id st ∧ Forall (λ i, i < n0) taken ∧
  ∀ k' m i, subscribers st !! k' = Some (Some m) → i ∈ ids m →
    (i ∉ taken) ∧ (k' = k → n0 ≤ i).

Lemma run_ops_taken k n0 taken st os :
  taken_inv k n0 taken st → ops_ok st os → taken_inv k n0 taken (foldl run_op st os).
Proof.
  revert st. induction os as [|o os IH]; intros st Hinv; simpl; [done|].
  intros [Ho Hos]. apply IH; [|done]. destruct Hinv as (Hwf & Hn & Ht & Hinv).
  split; [by apply run_op_wf|]. split; [pose proof (run_op_next st o); lia|]. split; [done|].
  intros k' m i Hm Hi. destruct (run_op_entry _ _ _ _ _ Hm Hi) as [(m' & Hm' & Hi')|(cb & -> & ->)].
  - by eapply Hinv.
  - split; [|lia]. intros Hin. rewrite Forall_forall in Ht. apply Ht in Hin. simpl in Hin. lia.
Qed.

Lemma run_ops_dropped st os : dropped st ⊆ dropped (foldl run_op st os).
Proof.
  revert st. induction os as [|o os IH]; intros st; simpl; [done|].
  etrans; [apply (run_op_dropped st o)|apply IH].
Qed.

Lemma retain_loop_ok k n0 taken w st m w' st' r :
  callbacks_ok → taken_inv k n0 taken st → retain_loop f w st m = (w', st', r) →
  taken_inv k n0 taken st' ∧ dropped st ⊆ dropped st' ∧ sublist (ids r) (ids m).
Proof.
  intros Hf. revert w st w' st' r. induction m as [|[i c] m IH]; intros w st w' st' r Hinv; simpl.
  { by intros [= <- <- <-]. }
  case_decide as Ha; [|case_decide as Hd].
  - destruct (retain_loop f w st m) as [[w1 st1] r1] eqn:E. intros [= <- <- <-].
    destruct (IH _ _ _ _ _ Hinv E) as (? & ? & ?). split_and!; [done..|]. by constructor.
  - intros E. destruct (IH _ _ _ _ _ Hinv E) as (? & ? & ?). split_and!; [done..|]. by constructor.
  - destruct (f w st c) as [[[w1 os] c'] kp] eqn:Ef.
    set (st1 := foldl run_op st os).
    assert (taken_inv k n0 taken st1) as Hinv1.
    { apply run_ops_taken; [done|]. pose proof (Hf w st c (proj1 Hinv)) as Hos. by rewrite Ef in Hos. }
    destruct (retain_loop f w1 st1 m) as [[w2 st2] r2] eqn:E. intros [= <- <- <-].
    destruct (IH _ _ _ _ _ Hinv1 E) as (? & Hdr & ?).
    split_and!; [done|etrans; [apply run_ops_dropped|exact Hdr]|].
    case_match; by constructor.
Qed.

Lemma sublist_sorted (l1 l2 : list nat) :
  sublist l1 l2 → StronglySorted lt l2 → StronglySorted lt l1.
Proof.
  induction 1 as [|x l1 l2 Hs IH|x l1 l2 Hs IH]; [done| |]; intros [H1 H2]%StronglySorted_inv.
  - constructor; [by apply IH|]. apply Forall_forall. intros y Hy. rewrite Forall_forall in H2.
    apply H2. by eapply elem_of_sublist.
  - by apply IH.
Qed.

(** The set while [retain] has the subscribers of [k]. *)
Definition taken_out (k : K) st : SubscriberSet K Cb :=
  mkSet (<[k := None]> (subscribers st)) (next_subscriber_id st) (active st) (dropped st).
Lemma taken_out_inv k st m :
  wf_set st → subscribers st !! k = Some (Some m) →
  taken_inv k (next_subscriber_id st) (ids m) (taken_out k st).
Proof.
  intros Hwf Hm. pose proof (wf_entry _ Hwf _ _ Hm) as (_ & _ & Hlt). split_and!; [|simpl; lia|done|].
  - split; simpl.
    + intros k' m'. intros [[_ ?]|[_ ?]]%lookup_insert_Some; [done|by eapply (wf_entry _ Hwf)].
    + intros k1 k2 m1 m2 i. intros [[_ ?]|[_ H1]]%lookup_insert_Some [[_ ?]|[_ H2]]%lookup_insert_Some;
        [done..|by eapply (wf_unique _ Hwf)].
    + apply (wf_active _ Hwf).
    + apply (wf_dropped _ Hwf).
  - simpl. intros k' m' i [[_ ?]|[Hne H1]]%lookup_insert_Some Hi; [done|]. split; [|done].
    intros Hin. by pose proof (wf_unique _ Hwf _ _ _ _ _ Hm H1 Hin Hi).
Qed.

(** What [retain] leaves at the emitter: the subscribers kept, then the new ones. *)
Lemma retain_ok k w st m :
  callbacks_ok → wf_set st → subscribers st !! k = Some (Some m) →
  ∃ w' st1 r new,
    retain_loop f w (taken_out k st) m = (w', st1, r) ∧
    sublist (ids r) (ids m) ∧
    new = match subscribers st1 !! k with Some (Some new) => new | _ => [] end ∧
    Forall (λ i, next_subscriber_id st ≤ i) (ids new) ∧
    ∃ st', retain f k w st = (w', st') ∧ wf_set st' ∧
      subscribers st' !! k = (if decide (r ++ new = []) then None else Some (Some (r ++ new))) ∧
      (∀ k', k' ≠ k → subscribers st' !! k' = subscribers st1 !! k') ∧
      next_subscriber_id st' = next_subscriber_id st1 ∧ active st' = active st1 ∧ dropped st' = dropped st1.
Proof.
  intros Hf Hwf Hm. set (st0 := taken_out k st). pose proof (taken_out_inv k st m Hwf Hm) as Hinv. fold st0 in Hinv.
  destruct (retain_loop f w st0 m) as [[w' st1] r] eqn:E.
  destruct (retain_loop_ok _ _ _ _ _ _ _ _ _ Hf Hinv E) as ((Hwf1 & Hn1 & Ht1 & Hinv1) & Hdr & Hsub).
  set (new := match subscribers st1 !! k with Some (Some new) => new | _ => [] end).
  assert (Forall (λ i, next_subscriber_id st ≤ i) (ids new) ∧ sorted_ids new ∧
    Forall (λ i, i < next_subscriber_id st1) (ids new)) as (Hge & Hsn & Hln).
  { subst new. destruct (subscribers st1 !! k) as [[n|]|] eqn:En; [|repeat constructor..].
    split; [|by apply (wf_entry _ Hwf1) in En as (_ & ? & ?)]. apply Forall_forall. intros i Hi.
    by eapply Hinv1. }
  pose proof (wf_entry _ Hwf _ _ Hm) as (_ & Hsm & Hlm).
  assert (sorted_ids r) as Hsr by by eapply sublist_sorted.
  assert (Forall (λ i, i < next_subscriber_id st) (ids r)) as Hlr.
  { apply Forall_forall. intros i Hi. rewrite Forall_forall in Hlm. apply Hlm. by eapply elem_of_sublist. }
  assert (∀ a b, a ∈ ids r → b ∈ ids new → a < b) as Hrn.
  { intros a b Ha Hb. rewrite Forall_forall in Hlr, Hge. apply Hlr in Ha. apply Hge in Hb.
    simpl in *. lia. }
  exists w', st1, r, new. split_and!; [done..|].
  unfold retain. rewrite Hm. fold (taken_out k st). fold st0. rewrite E.
  assert (match subscribers st1 !! k with
    | Some (Some new_subscribers) => btree_extend r new_subscribers | _ => r end = r ++ new) as ->.
  { subst new. destruct (subscribers st1 !! k) as [[n|]|]; [|by rewrite app_nil_r..].
    by apply btree_extend_above. }
  eexists. split; [done|]. simpl.
  assert (∀ k' m', (if decide (r ++ new = []) then delete k (subscribers st1)
      else <[k:=Some (r ++ new)]> (delete k (subscribers st1))) !! k' = Some (Some m') →
    (k' = k ∧ m' = r ++ new ∧ m' ≠ []) ∨ (k' ≠ k ∧ subscribers st1 !! k' = Some (Some m'))) as Hlook.
  { intros k' m'. case_decide.
    - intros [? ?]%lookup_delete_Some. by right.
    - intros [[<- [= <-]]|[Hk [_ ?]%lookup_delete_Some]]%lookup_insert_Some; [by left|by right]. }
  split_and!.
  - split; simpl.
    + intros k' m' [(-> & -> & Hne)|[_ H']]%Hlook; [|by apply (wf_entry _ Hwf1 k')].
      split_and!; [done|by apply sorted_ids_app|]. rewrite ids_app. apply Forall_app. split; [|done].
      eapply Forall_impl; [exact Hlr|]. simpl. lia.
    + intros k1 k2 m1 m2 i H1%Hlook H2%Hlook Hi1 Hi2.
      assert (∀ k' m', subscribers st1 !! k' = Some (Some m') → k' ≠ k → i ∈ ids m' →
        i ∈ ids (r ++ new) → False) as Hdisj.
      { intros k' m' H' Hk' Hi'. rewrite ids_app. intros [Hr|Hn]%elem_of_app.
        - destruct (Hinv1 _ _ _ H' Hi') as [[] _]. by eapply elem_of_sublist.
        - subst new. destruct (subscribers st1 !! k) as [[n|]|] eqn:En;
            [|by apply elem_of_nil in Hn..].
          apply Hk'. by eapply (wf_unique _ Hwf1). }
      destruct H1 as [(-> & -> & _)|[Hk1 H1]], H2 as [(-> & -> & _)|[Hk2 H2]]; [done| | |].
      * by destruct (Hdisj _ _ H2 Hk2 Hi2 Hi1).
      * by destruct (Hdisj _ _ H1 Hk1 Hi1 Hi2).
      * by eapply (wf_unique _ Hwf1).
    + apply (wf_active _ Hwf1).
    + apply (wf_dropped _ Hwf1).
  - case_decide; [by rewrite lookup_delete_eq|by rewrite lookup_insert_eq].
  - intros k' Hk'. case_decide; by rewrite ?lookup_insert_ne, lookup_delete_ne.
  - done.
  - done.
  - done.
Qed.

(** ** The specification of a pass *)

(** The subscribers are visited in turn, each in the state that the calls before it have left: the ones that stay, and the
    operations that the calls made. *)
Inductive visits : W → SubscriberSet K Cb → list (nat * Cb) → list (nat * Cb) → list (op K Cb) → W → Prop :=
  | visits_end w st : visits w st [] [] [] w
  | visits_inactive w st i cb m kept os w' :
      i ∉ active st → visits w st m kept os w' → visits w st ((i, cb) :: m) ((i, cb) :: kept) os w'
  | visits_dropped w st i cb m kept os w' :
      i ∈ active st → i ∈ dropped st → visits w st m kept os w' → visits w st ((i, cb) :: m) kept os w'
  | visits_kept w st i cb m kept os w' w1 os1 cb1 :
      i ∈ active st → i ∉ dropped st → f w st cb = (w1, os1, cb1, true) → i ∉ dropped (foldl run_op st os1) →
      visits w1 (foldl run_op st os1) m kept os w' → visits w st ((i, cb) :: m) ((i, cb1) :: kept) (os1 ++ os) w'
  | visits_done w st i cb m kept os w' w1 os1 cb1 keep :
      i ∈ active st → i ∉ dropped st → f w st cb = (w1, os1, cb1, keep) →
      keep = false ∨ i ∈ dropped (foldl run_op st os1) →
      visits w1 (foldl run_op st os1) m kept os w' → visits w st ((i, cb) :: m) kept (os1 ++ os) w'.

Lemma retain_loop_visits w st m w' st' kept :
  retain_loop f w st m = (w', st', kept) → ∃ os, visits w st m kept os w' ∧ st' = foldl run_op st os.
Proof.
  revert w st kept. induction m as [|[i cb] m IH]; intros w st kept; cbn [retain_loop].
  { intros [= <- <- <-]. exists []. by split; [constructor|]. }
  case_decide as Ha; [|case_decide as Hd].
  - destruct (retain_loop f w st m) as [[? ?] r] eqn:E. intros [= <- <- <-].
    destruct (IH _ _ _ E) as (os & ? & ->). exists os. by split; [constructor|].
  - intros E. destruct (IH _ _ _ E) as (os & ? & ->). exists os. split; [|done].
    by apply visits_dropped.
  - destruct (f w st cb) as [[[w1 os1] cb1] keep] eqn:Ef.
    destruct (retain_loop f w1 (foldl run_op st os1) m) as [[w2 st2] r] eqn:E. intros [= <- <- <-].
    destruct (IH _ _ _ E) as (os & Hv & ->). exists (os1 ++ os). rewrite foldl_app. split; [|done].
    destruct keep; cbn [andb]; [|eapply visits_done; eauto].
    case_bool_decide as Hk; [by eapply visits_kept|eapply visits_done; eauto].
Qed.

(** The subscribers of [k] that operations add, of which those that they take away again are left: with the next id. *)
Definition added_step (k : K) (a : nat * list (nat * Cb)) (o : op K Cb) : nat * list (nat * Cb) :=
  match o with
  | OInsert k' cb => (S a.1, if decide (k' = k) then a.2 ++ [(a.1, cb)] else a.2)
  | OActivate _ => a
  | OUnsubscribe k' i => (a.1, if decide (k' = k) then filter (λ s, s.1 ≠ i) a.2 else a.2)
  | ORemove k' => (a.1, if decide (k' = k) then [] else a.2)
  end.
Definition added_to (k : K) (next : nat) (os : list (op K Cb)) : list (nat * Cb) := (foldl (added_step k) (next, []) os).2.
(** The subscribers of [k] in the set. *)
Definition entry_of (k : K) st : list (nat * Cb) := match subscribers st !! k with Some (Some m) => m | _ => [] end.

Lemma run_op_added k st o :
  wf_set st → added_step k (next_subscriber_id st, entry_of k st) o
    = (next_subscriber_id (run_op st o), entry_of k (run_op st o)).
Proof.
  intros Hwf. unfold entry_of. destruct o as [k' cb|i|k' i|k']; cbn [added_step fst snd].
  - cbn. rewrite Nat.add_1_r. f_equal. case_decide as Hk; [subst k'|by rewrite lookup_insert_ne].
    rewrite lookup_insert_eq, btree_insert_last; [done|].
    destruct (subscribers st !! k) as [[m|]|] eqn:E; [|constructor..]. by apply (wf_entry _ Hwf) in E as (_ & _ & ?).
  - done.
  - unfold unsubscribe. cbn. f_equal. case_decide as Hk; [subst k'|].
    + destruct (subscribers st !! k) as [[m|]|] eqn:E; rewrite ?E; [|done..]. unfold btree_remove.
      case_decide as Hn; [by rewrite Hn, lookup_delete_eq|by rewrite lookup_insert_eq].
    + destruct (subscribers st !! k') as [[m|]|]; [|done..]. case_decide; [by rewrite lookup_delete_ne|by rewrite lookup_insert_ne].
  - cbn. f_equal. case_decide as Hk; [subst k'; by rewrite lookup_delete_eq|by rewrite lookup_delete_ne].
Qed.
Lemma run_ops_added k st os :
  wf_set st → ops_ok st os →
  foldl (added_step k) (next_subscriber_id st, entry_of k st) os
    = (next_subscriber_id (foldl run_op st os), entry_of k (foldl run_op st os)).
Proof.
  revert st. induction os as [|o os IH]; intros st Hwf; [done|]. intros [Ho Hos]. cbn [foldl].
  rewrite run_op_added by done. apply IH; [by apply run_op_wf|done].
Qed.
Lemma ops_ok_app st os1 os2 : ops_ok st (os1 ++ os2) ↔ ops_ok st os1 ∧ ops_ok (foldl run_op st os1) os2.
Proof. revert st. induction os1 as [|o os1 IH]; intros st; simpl; [tauto|]. rewrite IH. tauto. Qed.
Lemma visits_ops_ok w st m kept os w' : callbacks_ok → wf_set st → visits w st m kept os w' → ops_ok st os.
Proof.
  intros Hf Hwf Hv. induction Hv as [| | |w st i cb m kept os w' w1 os1 cb1 _ _ E _ _ IH|w st i cb m kept os w' w1 os1 cb1 keep _ _ E _ _ IH];
    auto; simpl; [done|..]; pose proof (Hf w st cb Hwf) as Hos; rewrite E in Hos; apply ops_ok_app;
    (split; [done|]); by apply IH, run_ops_wf.
Qed.

(** A subscriber that is inactive, or was dropped before its turn, is passed over: the captured
    state and the set are as if it were not there. *)
Lemma retain_loop_passes w st m1 i c m2 w1 st1 r1 :
  retain_loop f w st m1 = (w1, st1, r1) → (i ∉ active st1 ∨ i ∈ dropped st1) →
  (retain_loop f w st (m1 ++ (i, c) :: m2)).1 = (retain_loop f w st (m1 ++ m2)).1.
Proof.
  intros E H. rewrite !retain_loop_app, E. simpl. case_decide as Ha.
  - by destruct (retain_loop f w1 st1 m2) as [[? ?] ?].
  - rewrite decide_True by by destruct H. by destruct (retain_loop f w1 st1 m2) as [[? ?] ?].
Qed.

End retain.

Section theorems.
Context {K Cb W : Type} `{!EqDecision K, !Countable K}.
Context (f : W → SubscriberSet K Cb → Cb → W * list (op K Cb) * Cb * bool).
Implicit Types st : SubscriberSet K Cb.
Implicit Types m : list (nat * Cb).

(** C6: [retain] survives callbacks that insert, activate, drop and remove subscriptions of any
    emitter while it iterates, and what it leaves is exact. The subscribers are visited in their
    order, each in the state that the calls before it have left: an inactive one stays without a call,
    a dropped one goes without a call, and any other one is called, and stays if and only if its
    callback returned true and it was not dropped meanwhile. Behind those that stay come all the
    subscribers that the calls have added to the emitter and not taken away again; an emitter without
    subscribers is not kept. Everything else is as the operations of the callbacks have left it, and
    the invariant of the set holds afterwards. *)
Theorem retain_is_reentrant k w st m :
  callbacks_ok f → wf_set st → subscribers st !! k = Some (Some m) →
  ∃ w' st' kept os,
    let new := added_to k (next_subscriber_id st) os in
    let after := foldl run_op (taken_out k st) os in
    retain f k w st = (w', st') ∧ wf_set st' ∧ visits f w (taken_out k st) m kept os w' ∧
    sublist (ids kept) (ids m) ∧ Forall (λ i, next_subscriber_id st ≤ i) (ids new) ∧
    subscribers st' !! k = (if decide (kept ++ new = []) then None else Some (Some (kept ++ new))) ∧
    (∀ k', k' ≠ k → subscribers st' !! k' = subscribers after !! k') ∧
    next_subscriber_id st' = next_subscriber_id after ∧ active st' = active after ∧ dropped st' = dropped after.
Proof.
  intros Hf Hwf Hm.
  destruct (retain_ok f k w st m Hf Hwf Hm) as (w' & st1 & kept & new & E & Hsub & Hnew & Hge & st' & Hr & Hwf' & Hk & Hrest).
  destruct (retain_loop_visits _ _ _ _ _ _ _ E) as (os & Hv & ->).
  pose proof (taken_out_inv _ _ _ Hwf Hm) as (Hwf0 & _).
  assert (added_to k (next_subscriber_id st) os = new) as Ha.
  { pose proof (run_ops_added k (taken_out k st) os Hwf0 (visits_ops_ok _ _ _ _ _ _ _ Hf Hwf0 Hv)) as Ha.
    unfold entry_of at 1 in Ha. cbn [taken_out subscribers next_subscriber_id] in Ha. rewrite lookup_insert_eq in Ha.
    unfold added_to. rewrite Ha, Hnew. done. }
  exists w', st', kept, os. cbn zeta. rewrite Ha. done.
Qed.

(** [retain] never calls back a subscription that was dropped or not activated, even when
    an earlier callback of the same pass dropped it; and when the callbacks leave the set alone
    it calls each active one once, in the order they were added, and keeps exactly the inactive
    ones and those whose callback returned true. *)
Theorem retain_calls_live_subscribers k w st m1 i c m2 w1 st1 r1 :
  retain_loop f w st m1 = (w1, st1, r1) →
  ((i ∉ active st1 ∨ i ∈ dropped st1) →
    (retain_loop f w st (m1 ++ (i, c) :: m2)).1 = (retain_loop f w st (m1 ++ m2)).1) ∧
  ((∀ w st cb, (f w st cb).1.1.2 = []) → subscribers st !! k = Some (Some m1) →
    let live := filter (λ s, s.1 ∈ active st ∧ s.1 ∉ dropped st) m1 in
    let st0 := mkSet (<[k := None]> (subscribers st)) (next_subscriber_id st) (active st) (dropped st) in
    (retain f k w st).1 = foldl (λ w s, (f w st0 s.2).1.1.1) w live ∧
    (∀ k', k' ≠ k → subscribers (retain f k w st).2 !! k' = subscribers st !! k')).
Proof.
  intros E. split; [by eapply retain_loop_passes|]. intros Hquiet Hm live st0.
  assert (∀ w m, ∃ r, retain_loop f w st0 m = (foldl (λ w s, (f w st0 s.2).1.1.1) w
    (filter (λ s, s.1 ∈ active st ∧ s.1 ∉ dropped st) m), st0, r)) as Hloop.
  { clear E Hm live. intros w0 m. revert w0. induction m as [|[j b] m IH]; intros w0; [by eexists|].
    cbn [retain_loop]. rewrite filter_cons. change (active st0) with (active st).
    change (dropped st0) with (dropped st).
    case_decide as Ha; [|case_decide as Hd].
    - destruct (IH w0) as (r & ->). rewrite decide_False by (simpl; by intros [? ?]). by eexists.
    - destruct (IH w0) as (r & ->). rewrite decide_False by (simpl; by intros [? ?]). by eexists.
    - rewrite decide_True by done. simpl.
      pose proof (Hquiet w0 st0 b) as Hq. destruct (f w0 st0 b) as [[[w2 os] b'] kp] eqn:Ef.
      simpl in Hq. subst os. simpl. destruct (IH w2) as (r & ->). by eexists. }
  unfold retain. rewrite Hm. fold st0. destruct (Hloop w m1) as (r & ->).
  assert (subscribers st0 !! k = Some None) as Hk0 by (simpl; by rewrite lookup_insert_eq).
  rewrite Hk0. cbn [fst snd subscribers]. split; [done|].
  intros k' Hk'. case_decide; simpl.
  - by rewrite lookup_delete_ne, lookup_insert_ne.
  - by rewrite lookup_insert_ne, lookup_delete_ne, lookup_insert_ne.
Qed.

(** The life of a subscription: a new one is not listed until it is activated and then
    comes last; dropping its handle takes the set back to what it was, so that nothing of it is
    left; a detached handle does nothing when dropped; and a joined handle cancels both. *)
Theorem subscription_life k cb st :
  wf_set st → subscribers st !! k ≠ Some None →
  let '(i, st1) := insert_subscriber k cb st in
  (remove_emitter k st1).1 = (remove_emitter k st).1 ∧
  (remove_emitter k (activate i st1)).1 = (remove_emitter k st).1 ++ [cb] ∧
  wf_set st1 ∧
  (let handle := subscription_new (unsubscribe k i) in
   subscribers (drop_subscription handle (activate i st1)) = subscribers st ∧
   drop_subscription (detach handle) st1 = st1 ∧
   ∀ other, drop_subscription (join handle other) st1
     = drop_subscription other (drop_subscription handle st1)).
Proof.
  intros Hwf Hk. unfold insert_subscriber. set (i := next_subscriber_id st).
  set (l := match subscribers st !! k with Some (Some m) => m | _ => [] end).
  assert (Forall (λ j, j < i) (ids l)) as Hl.
  { subst l. destruct (subscribers st !! k) as [[m|]|] eqn:E; [|constructor..].
    by apply (wf_entry _ Hwf) in E as (_ & _ & ?). }
  rewrite btree_insert_last by done.
  assert (i ∉ active st) as Hi by (intros Hi%(wf_active _ Hwf); lia).
  assert (∀ a : gset nat, (∀ j, j ∈ ids l → j ∈ a ↔ j ∈ active st) →
    map snd (filter (λ s, s.1 ∈ a) (l ++ [(i, cb)])) =
    map snd (filter (λ s, s.1 ∈ active st) l) ++ if decide (i ∈ a) then [cb] else []) as Hrem.
  { intros a Ha. rewrite filter_app, map_app. f_equal.
    - f_equal. apply filter_ext. apply Forall_forall. intros s Hs. apply Ha.
      by apply list_elem_of_fmap_2.
    - rewrite filter_cons, filter_nil. simpl. by case_decide. }
  split_and!.
  - unfold remove_emitter. simpl. rewrite lookup_insert_eq, Hrem by done. fold l.
    by rewrite decide_False, app_nil_r.
  - unfold remove_emitter. simpl. rewrite lookup_insert_eq, Hrem.
    + fold l. by rewrite decide_True by set_solver.
    + intros j Hj. rewrite Forall_forall in Hl. apply Hl in Hj. simpl in Hj.
      rewrite elem_of_union, elem_of_singleton. split; [intros [->|?]; [lia|done]|by right].
  - pose proof (run_op_wf st (OInsert k cb) Hwf I) as Hw. simpl in Hw.
    fold l in Hw. by rewrite btree_insert_last in Hw.
  - unfold drop_subscription, unsubscribe; simpl. rewrite lookup_insert_eq. unfold btree_remove.
    rewrite filter_app, (filter_all _ l).
    + rewrite filter_cons_False by (simpl; naive_solver). rewrite filter_nil, app_nil_r.
      subst l. destruct (subscribers st !! k) as [[m|]|] eqn:E; [|done|].
      * rewrite decide_False by (by apply (wf_entry _ Hwf) in E as (? & _)).
        by rewrite insert_insert_eq, insert_id.
      * by rewrite decide_True, delete_insert_id.
    + apply Forall_forall. intros s Hs Heq. rewrite Forall_forall in Hl.
      assert (s.1 ∈ ids l) as Hin by by apply list_elem_of_fmap_2. apply Hl in Hin. simpl in Hin. lia.
  - done.
  - done.
Qed.

End theorems.

(** ** An example: two active subscribers of one emitter, the first of which adds a subscriber
    and drops the second one. *)

Definition demo_set : SubscriberSet nat nat :=
  foldl run_op set_new [OInsert 1 10; OInsert 1 20; OActivate 0; OActivate 1].

Definition demo_callback (log : list nat) (st : SubscriberSet nat nat) (cb : nat) :
    list nat * list (op nat nat) * nat * bool :=
  (log ++ [cb], if decide (cb = 10) then [OInsert 1 30; ORemove 2] else [], cb, true).

Lemma demo_set_wf : wf_set demo_set.
Proof.
  apply run_ops_wf; [apply wf_set_new|]. cbn [ops_ok op_ok]. repeat split; vm_compute; lia.
Qed.

Lemma demo_callbacks_ok : callbacks_ok demo_callback.
Proof. intros w st cb _. unfold demo_callback. simpl. by case_decide. Qed.

Lemma retain_is_reentrant_witness :
  ∃ w' st' kept os, retain demo_callback 1 [] demo_set = (w', st') ∧
    visits demo_callback [] (taken_out 1 demo_set) [(0, 10); (1, 20)] kept os w' ∧
    subscribers st' !! 1 = Some (Some [(0, 10); (1, 20); (2, 30)]).
Proof.
  destruct (retain_is_reentrant demo_callback 1 [] demo_set [(0, 10); (1, 20)] demo_callbacks_ok
    demo_set_wf ltac:(by vm_compute)) as (w' & st' & kept & os & H1 & _ & H2 & _).
  exists w', st', kept, os. split; [exact H1|]. split; [exact H2|].
  change st' with (w', st').2. rewrite <-H1. vm_compute. reflexivity.
Defined.

Lemma retain_calls_live_subscribers_witness :
  (retain (λ log st cb, (log ++ [cb], [], cb, true)) 1 [] (unsubscribe 1 7 demo_set)).1 = [10; 20].
Proof.
  destruct (retain_calls_live_subscribers (λ log st cb, (log ++ [cb], [], cb, true)) 1 []
    (unsubscribe 1 7 demo_set) [(0, 10); (1, 20)] 9 9 [] [10; 20] (unsubscribe 1 7 demo_set)
    [(0, 10); (1, 20)] ltac:(by vm_compute)) as [_ H].
  destruct (H ltac:(done) ltac:(by vm_compute)) as [-> _]. by vm_compute.
Defined.

Lemma subscription_life_witness :
  subscribers (unsubscribe 1 2 (activate 2 (insert_subscriber 1 30 demo_set).2)) = subscribers demo_set.
Proof.
  pose proof (subscription_life 1 30 demo_set demo_set_wf ltac:(by vm_compute)) as H.
  destruct H as (_ & _ & _ & H & _). exact H.
Defined.

(** A subscription dropped by a later callback of the same pass stays in the set until the next
    pass, so [remove] still returns its callback. *)
Example remove_returns_dropped :
  let drop_first := λ (log : list nat) (st : SubscriberSet nat nat) cb,
    (log ++ [cb], if decide (cb = 20) then [OUnsubscribe 1 0] else [], cb, true) in
  let '(_, st) := retain drop_first 1 [] demo_set in
  0 ∈ dropped st ∧ (remove_emitter 1 st).1 = [10; 20].
Proof. vm_compute. split; [by apply (bool_decide_unpack _); vm_compute|done]. Qed.
