(* ===== verification/Queue.v ===== *)
(** The priority queue of [crates/gpui/src/queue.rs]: three FIFO queues behind a mutex, from
    which a receiver takes by a weighted random choice, and the blocking of receivers on the
    condition variable. *)
From S2P Require Import Prelude.

(** [enum Priority] and [Priority::weight] of [scheduler.rs]. *)
Inductive Priority := RealtimeAudio | High | Medium | Low.
#[export] Instance Priority_eq_dec : EqDecision Priority.
Proof. solve_decision. Defined.
Definition weight (self : Priority) : nat :=
  match self with High => 60 | Medium => 30 | Low => 10 | RealtimeAudio => 0 end.

(** [struct PriorityQueues]. *)
Record PriorityQueues (T : Type) : Type := mkQueues {
  high_priority : list T;
  medium_priority : list T;
  low_priority : list T;
}.
Arguments mkQueues {T}.
Arguments high_priority {T}.
Arguments medium_priority {T}.
Arguments low_priority {T}.

(** [struct RecvError]. *)
Inductive RecvError := mkRecvError.

(** [VecDeque::is_empty]. *)
Definition deque_empty {T} (l : list T) : bool := match l with [] => true | _ :: _ => false end.

Section queue.
Context {T : Type}.
Implicit Types q : PriorityQueues T.

(** [PriorityQueues::is_empty]. *)
Definition queues_empty q : bool :=
  deque_empty (high_priority q) && deque_empty (medium_priority q)
    && deque_empty (low_priority q).

(** [struct PriorityQueueState], without the condition variable. *)
Record QueueState : Type := mkState {
  queues : PriorityQueues T;
  receiver_count : nat;
  sender_count : nat;
}.
Implicit Types st : QueueState.

(** [PriorityQueueReceiver::new]: the state that the sender and the receiver share. *)
Definition queue_new : QueueState := mkState (mkQueues [] [] []) 1 1.

(** [PriorityQueueState::push]. *)
Definition queue_push q (priority : Priority) (item : T) : outcome (PriorityQueues T) :=
  match priority with
  | RealtimeAudio => Panic
  | High => Ok (mkQueues (high_priority q ++ [item]) (medium_priority q) (low_priority q))
  | Medium => Ok (mkQueues (high_priority q) (medium_priority q ++ [item]) (low_priority q))
  | Low => Ok (mkQueues (high_priority q) (medium_priority q) (low_priority q ++ [item]))
  end.

(** [send] and [spin_send]. *)
Definition send st (priority : Priority) (item : T) : outcome (QueueState * result () T) :=
  if decide (receiver_count st = 0) then Ok (st, ResErr item)
  else
    q ← queue_push (queues st) priority item;
    Ok (mkState q (receiver_count st) (sender_count st), ResOk ()).

(** [impl Drop for PriorityQueueSender] and for [PriorityQueueReceiver], and [Clone]. *)
Definition drop_sender st : QueueState :=
  mkState (queues st) (receiver_count st) (sender_count st - 1).
Definition drop_receiver st : QueueState :=
  mkState (queues st) (receiver_count st - 1) (sender_count st).
Definition clone_receiver st : QueueState :=
  mkState (queues st) (receiver_count st + 1) (sender_count st).

(** The first part of [recv]: fail, wait on the condition variable, or go on with the lock. *)
Inductive recv_outcome := RecvFail | RecvWait | RecvReady.
Definition recv st : recv_outcome :=
  if queues_empty (queues st) && bool_decide (sender_count st = 0) then RecvFail
  else if queues_empty (queues st) then RecvWait else RecvReady.

(** [try_recv] and [spin_try_recv]: whether there are queues to take from. *)
Definition try_recv st : result bool RecvError :=
  if queues_empty (queues st) && bool_decide (sender_count st = 0) then ResErr mkRecvError
  else if queues_empty (queues st) then ResOk false else ResOk true.

(** The random choice: [random_ratio] of the receiver's generator. *)
Context {R : Type} (random_ratio : R → nat → nat → outcome (bool * R)).

(** The part of [pop_inner] and [spin_try_pop] that holds the lock. *)
Definition pop_locked (rand : R) q : outcome (R * PriorityQueues T * option T) :=
  let high := weight High * Nat.b2n (negb (deque_empty (high_priority q))) in
  let medium := weight Medium * Nat.b2n (negb (deque_empty (medium_priority q))) in
  let low := weight Low * Nat.b2n (negb (deque_empty (low_priority q))) in
  let mass := high + medium + low in
  '(rand, mass, flipped) ←
    match high_priority q with
    | x :: rest =>
        '(flip, rand) ← random_ratio rand (weight High) mass;
        if (flip : bool)
        then Ok (rand, mass, Some (mkQueues rest (medium_priority q) (low_priority q), x))
        else mass ← checked_sub mass (weight High); Ok (rand, mass, None)
    | [] => Ok (rand, mass, None)
    end;
  '(rand, mass, flipped) ←
    match flipped, medium_priority q with
    | None, x :: rest =>
        '(flip, rand) ← random_ratio rand (weight Medium) mass;
        if (flip : bool)
        then Ok (rand, mass, Some (mkQueues (high_priority q) rest (low_priority q), x))
        else mass ← checked_sub mass (weight Medium); Ok (rand, mass, None)
    | _, _ => Ok (rand, mass, flipped)
    end;
  '(rand, flipped) ←
    match flipped, low_priority q with
    | None, x :: rest =>
        '(flip, rand) ← random_ratio rand (weight Low) mass;
        Ok (rand, if (flip : bool)
                  then Some (mkQueues (high_priority q) (medium_priority q) rest, x) else None)
    | _, _ => Ok (rand, flipped)
    end;
  match flipped with
  | Some (q, x) => Ok (rand, q, Some x)
  | None => Ok (rand, q, None)
  end.

(** [try_pop] and [spin_try_pop]. *)
Definition try_pop (rand : R) st : outcome (R * QueueState * result (option T) RecvError) :=
  match try_recv st with
  | ResErr e => Ok (rand, st, ResErr e)
  | ResOk false => Ok (rand, st, ResOk None)
  | ResOk true =>
      '(rand, q, x) ← pop_locked rand (queues st);
      Ok (rand, mkState q (receiver_count st) (sender_count st), ResOk x)
  end.

(** [struct TryIter] over the shared state: the receiver's generator and [ended].  [next] yields
    an item, the error of a closed queue once, or nothing. *)
Record TryIter : Type := mkTryIter { t_rand : R; t_ended : bool }.
Definition try_iter_next (self : TryIter) st
    : outcome (TryIter * QueueState * option (result T RecvError)) :=
  if t_ended self then Ok (self, st, None)
  else
    '(rand, st, res) ← try_pop (t_rand self) st;
    Ok match res with
       | ResOk (Some x) => (mkTryIter rand false, st, Some (ResOk x))
       | ResOk None => (mkTryIter rand false, st, None)
       | ResErr e => (mkTryIter rand true, st, Some (ResErr e))
       end.

(** Calling [next] until it yields nothing. *)
Fixpoint drain (fuel : nat) (self : TryIter) st (acc : list (result T RecvError))
    : outcome (QueueState * list (result T RecvError)) :=
  match fuel with
  | O => OutOfFuel
  | Datatypes.S fuel =>
      '(self, st, x) ← try_iter_next self st;
      match x with
      | Some x => drain fuel self st (acc ++ [x])
      | None => Ok (st, acc)
      end
  end.

(** ** Blocking receivers *)

(** The shared state and the receivers that wait on the condition variable, or were notified
    and have not taken the lock again. *)
Record World : Type := mkWorld { w_state : QueueState; w_waiting : nat; w_notified : nat }.

(** [notify_one]. *)
Definition notify_one (w : World) : World :=
  match w_waiting w with
  | O => w
  | Datatypes.S n => mkWorld (w_state w) n (w_notified w + 1)
  end.

(** What the threads do.  A receiver that was notified looks at the queues again, and at nothing
    else ([while queues.is_empty() { wait }]). *)
Inductive world_step : World → World → Prop :=
| step_send w priority item st :
    sender_count (w_state w) ≠ 0 →
    send (w_state w) priority item = Ok (st, ResOk ()) →
    world_step w (notify_one (mkWorld st (w_waiting w) (w_notified w)))
| step_drop_sender w :
    sender_count (w_state w) ≠ 0 →
    world_step w (mkWorld (drop_sender (w_state w)) (w_waiting w) (w_notified w))
| step_wait w :
    recv (w_state w) = RecvWait →
    world_step w (mkWorld (w_state w) (w_waiting w + 1) (w_notified w))
| step_pop w rand rand' q x :
    recv (w_state w) = RecvReady → pop_locked rand (queues (w_state w)) = Ok (rand', q, x) →
    world_step w (mkWorld (mkState q (receiver_count (w_state w)) (sender_count (w_state w)))
      (w_waiting w) (w_notified w))
| step_wake_pop w rand rand' q x :
    w_notified w ≠ 0 → queues_empty (queues (w_state w)) = false →
    pop_locked rand (queues (w_state w)) = Ok (rand', q, x) →
    world_step w (mkWorld (mkState q (receiver_count (w_state w)) (sender_count (w_state w)))
      (w_waiting w) (w_notified w - 1))
| step_wake_wait w :
    w_notified w ≠ 0 → queues_empty (queues (w_state w)) = true →
    world_step w (mkWorld (w_state w) (w_waiting w + 1) (w_notified w - 1)).

End queue.
Arguments QueueState : clear implicits.
Arguments World : clear implicits.

(** What [rand] documents of [random_ratio(numerator, denominator)]: it panics when the
    denominator is zero or less than the numerator, and is certain to be true when both are
    equal. *)
Class RatioLaws {R} (random_ratio : R → nat → nat → outcome (bool * R)) : Prop := {
  ratio_defined r n d : 0 < d → n ≤ d → ∃ b r', random_ratio r n d = Ok (b, r');
  ratio_certain r n : 0 < n → ∃ r', random_ratio r n n = Ok (true, r');
}.

(** ** Facts *)

Section facts.
Context {T R : Type} (random_ratio : R → nat → nat → outcome (bool * R)) `{!RatioLaws random_ratio}.
Implicit Types q : PriorityQueues T.
Implicit Types st : QueueState T.

(** Taking one item from the front of one of the queues. *)
Inductive takes : PriorityQueues T → T → PriorityQueues T → Prop :=
| takes_high x h m l : takes (mkQueues (x :: h) m l) x (mkQueues h m l)
| takes_medium x h m l : takes (mkQueues h (x :: m) l) x (mkQueues h m l)
| takes_low x h m l : takes (mkQueues h m (x :: l)) x (mkQueues h m l).

Lemma queues_empty_false q :
  queues_empty q = false → high_priority q ≠ [] ∨ medium_priority q ≠ [] ∨ low_priority q ≠ [].
Proof.
  unfold queues_empty. destruct q as [[|] [|] [|]]; simpl; intros; try naive_solver.
Qed.

(** The choice never fails: when the coins of the other queues have failed, the mass that is
    left is the weight of the last one. *)
Lemma pop_locked_ok rand q :
  queues_empty q = false →
  ∃ rand' q' x, pop_locked random_ratio rand q = Ok (rand', q', Some x) ∧ takes q x q'.
Proof.
  intros Hne. unfold pop_locked, weight. destruct q as [h m l]; simpl.
  assert (∀ r n d, 0 < d → n ≤ d → ∃ b r', random_ratio r n d = Ok (b, r') ∧
    (n = d → b = true)) as Hr.
  { intros r n d Hd Hn. destruct (decide (n = d)) as [->|].
    - destruct (ratio_certain r d Hd) as (r' & ->). by exists true, r'.
    - destruct (ratio_defined r n d Hd Hn) as (b & r' & ->). by exists b, r'. }
  assert (∀ a b, b ≤ a → checked_sub a b = Ok (a - b)) as Hsub by apply checked_sub_ok.
  destruct h as [|x h], m as [|y m], l as [|z l]; cbn -[checked_sub]; try done.
  all: repeat match goal with
    | |- context [random_ratio ?r ?n ?d] =>
        let b := fresh "b" in let r' := fresh "r" in let Hb := fresh "Hb" in
        destruct (Hr r n d ltac:(lia) ltac:(lia)) as (b & r' & -> & Hb);
        cbn -[checked_sub]; destruct b; cbn -[checked_sub];
        try (specialize (Hb ltac:(lia)); done)
    | |- context [checked_sub ?a ?b] => rewrite (Hsub a b) by lia; cbn -[checked_sub]
    end; eexists _, _, _; (split; [reflexivity|constructor]).
Qed.

(** The items in the queues. *)
Definition queued q : list T := high_priority q ++ medium_priority q ++ low_priority q.

Lemma takes_permutation q x q' : takes q x q' → queued q ≡ₚ x :: queued q'.
Proof.
  unfold queued. destruct 1; simpl; [done|by rewrite <-Permutation_middle|].
  by rewrite app_assoc, <-Permutation_middle, <-app_assoc.
Qed.

Lemma queued_nil q : queues_empty q = true ↔ queued q = [].
Proof.
  unfold queues_empty, queued. destruct q as [[|] [|] [|]]; simpl; naive_solver.
Qed.

Lemma try_pop_ready rand st :
  queues_empty (queues st) = false →
  ∃ rand' q' x, takes (queues st) x q' ∧
    try_pop random_ratio rand st
      = Ok (rand', mkState q' (receiver_count st) (sender_count st), ResOk (Some x)).
Proof.
  intros He. destruct (pop_locked_ok rand _ He) as (rand' & q' & x & Hp & Ht).
  exists rand', q', x. split; [done|]. unfold try_pop, try_recv. rewrite He. simpl.
  by rewrite Hp.
Qed.

(** What a drained iterator ends with. *)
Definition closing st : list (result T RecvError) :=
  if decide (sender_count st = 0) then [ResErr mkRecvError] else [].

Lemma drain_ok fuel rand st acc :
  length (queued (queues st)) + 1 < fuel →
  ∃ st' l, drain random_ratio fuel (mkTryIter rand false) st acc
      = Ok (st', acc ++ (ResOk <$> l) ++ closing st) ∧
    l ≡ₚ queued (queues st) ∧ queued (queues st') = [].
Proof.
  revert rand st acc. induction fuel as [|fuel IH]; intros rand st acc Hf; [lia|].
  cbn [drain]. unfold try_iter_next. cbn [t_ended t_rand].
  destruct (queues_empty (queues st)) eqn:He.
  - unfold try_pop, try_recv, closing. rewrite He. apply queued_nil in He. exists st, [].
    rewrite He in *. case_decide; [rewrite bool_decide_true by done|rewrite bool_decide_false by done];
      simpl; [destruct fuel; [simpl in *; lia|]; done|by rewrite app_nil_r].
  - destruct (try_pop_ready rand _ He) as (r' & q' & x & Ht & ->). simpl.
    apply takes_permutation in Ht.
    destruct (IH r' (mkState q' (receiver_count st) (sender_count st)) (acc ++ [ResOk x]))
      as (st' & l & Hd & Hp & He').
    + apply Permutation_length in Ht. simpl in *. lia.
    + exists st', (x :: l). rewrite Hd, <-app_assoc. split_and!; [done| |done].
      rewrite Hp. simpl. by rewrite Ht.
Qed.

End facts.

(** ** Properties *)

(** A generator that follows a list of coin tosses, used by the witnesses. *)
Definition tosses (r : list bool) (n d : nat) : outcome (bool * list bool) :=
  if decide (d = 0 ∨ d < n) then Panic
  else if decide (n = d) then Ok (true, tail r)
  else match r with b :: r => Ok (b, r) | [] => Ok (false, []) end.

#[export] Instance tosses_laws : RatioLaws tosses.
Proof.
  split.
  - intros r n d Hd Hn. unfold tosses. rewrite decide_False by lia.
    case_decide; [by eexists _, _|]. destruct r; by eexists _, _.
  - intros r n Hn. unfold tosses. rewrite decide_False by lia. rewrite decide_True by done.
    by eexists.
Qed.

Section theorems.
Context {T R : Type} (random_ratio : R → nat → nat → outcome (bool * R)) `{!RatioLaws random_ratio}.
Implicit Types st : QueueState T.

(** [try_pop] of a queue that is not empty takes the item at the front of one of the three
    queues and leaves the others and the counts as they are, whatever the generator answers: the
    chain of biased coins always ends with a certain one, so that no subtraction underflows, no
    ratio has a zero denominator and [None] is not returned.  On an empty queue it reports the
    closed channel exactly when there is no sender. *)
Theorem try_pop_total rand st :
  (queues_empty (queues st) = false ∧
     ∃ rand' q' x, takes (queues st) x q' ∧
       try_pop random_ratio rand st
         = Ok (rand', mkState q' (receiver_count st) (sender_count st), ResOk (Some x)))
  ∨ (queues_empty (queues st) = true ∧
     try_pop random_ratio rand st
       = Ok (rand, st, if decide (sender_count st = 0) then ResErr mkRecvError else ResOk None)).
Proof.
  destruct (queues_empty (queues st)) eqn:He; [right|left; eauto using try_pop_ready].
  split; [done|]. unfold try_pop, try_recv. rewrite He. simpl.
  by case_decide; [rewrite bool_decide_true|rewrite bool_decide_false].
Qed.

(** Sending a list of items, each with its priority. *)
Definition send_step st (e : Priority * T) : outcome (QueueState T) :=
  '(st, _) ← send st e.1 e.2; Ok st.
Definition send_all st (l : list (Priority * T)) : outcome (QueueState T) := foldM send_step st l.

Definition of_priority (p : Priority) (l : list (Priority * T)) : list T :=
  (filter (λ e, e.1 = p) l).*2.

Lemma send_all_queues st l :
  receiver_count st ≠ 0 → Forall (λ e, e.1 ≠ RealtimeAudio) l →
  send_all st l = Ok (mkState (mkQueues (high_priority (queues st) ++ of_priority High l)
      (medium_priority (queues st) ++ of_priority Medium l)
      (low_priority (queues st) ++ of_priority Low l)) (receiver_count st) (sender_count st)).
Proof.
  intros Hr Hl. revert st Hr. induction Hl as [|[p x] l Hp Hl IH]; intros st Hr.
  - unfold send_all, of_priority. simpl. rewrite !app_nil_r. by destruct st as [[]].
  - unfold send_all, of_priority in *. cbn [foldM]. assert (∀ q, queue_push (queues st) p x = Ok q →
      send_step st (p, x) = Ok (mkState q (receiver_count st) (sender_count st))) as Hs.
    { intros q Hq. unfold send_step, send. cbn [fst snd]. rewrite decide_False by done.
      by rewrite Hq. }
    rewrite !filter_cons. simpl in *.
    destruct p; [done|..]; rewrite (Hs _ eq_refl); simpl; rewrite IH by done; simpl;
      rewrite <-?app_assoc; done.
Qed.

Lemma of_priority_permutation l :
  Forall (λ e, e.1 ≠ RealtimeAudio) l →
  of_priority High l ++ of_priority Medium l ++ of_priority Low l ≡ₚ l.*2.
Proof.
  induction 1 as [|[p x] l Hp Hl IH]; [done|].
  unfold of_priority in *. rewrite !filter_cons. simpl in *. rewrite <-IH.
  destruct p; [done|..]; simpl; [done|by rewrite <-Permutation_middle|].
  by rewrite app_assoc, <-Permutation_middle, <-app_assoc.
Qed.

(** Nothing that is sent is lost or yielded twice: sending a batch to a new queue and then
    draining it with [try_iter] yields a permutation of the batch, then the error of a closed
    queue when the sender was dropped, and leaves the queues empty; after the receiver is dropped
    a send returns the item to the caller. *)
Theorem queue_conserves rand l p x (dropped : bool) :
  Forall (λ e, e.1 ≠ RealtimeAudio) l →
  (∃ st, send_all queue_new l = Ok st ∧
     queues_empty (queues st) = bool_decide (l = []) ∧
     ∃ st' items,
       drain random_ratio (length l + 2) (mkTryIter rand false)
         (if dropped then drop_sender st else st) []
         = Ok (st', (ResOk <$> items) ++ if dropped then [ResErr mkRecvError] else []) ∧
       items ≡ₚ l.*2 ∧ queues_empty (queues st') = true) ∧
  (∀ st, send_all queue_new l = Ok st →
     send (drop_receiver st) p x = Ok (drop_receiver st, ResErr x)).
Proof.
  intros Hl. pose proof (of_priority_permutation l Hl) as Hperm.
  rewrite (send_all_queues _ l) by done. simpl.
  split; [|by intros ? [= <-]].
  eexists; split; [done|]. simpl. split.
  { destruct l as [|[q y] l]; [done|]. rewrite bool_decide_false by done.
    apply not_true_iff_false. rewrite queued_nil. unfold queued. simpl. intros He.
    rewrite He in Hperm. apply Permutation_length in Hperm. done. }
  set (st := mkState _ _ _).
  assert (queued (queues st) ≡ₚ l.*2) as Hq by done.
  pose proof (Permutation_length Hq) as Hlen. rewrite length_fmap in Hlen.
  destruct dropped.
  - destruct (drain_ok random_ratio (length l + 2) rand (drop_sender st) [])
      as (st' & items & Hd & Hp & He); [simpl in *; lia|].
    exists st', items. rewrite Hd. split_and!; [done|by rewrite Hp|by apply queued_nil].
  - destruct (drain_ok random_ratio (length l + 2) rand st [])
      as (st' & items & Hd & Hp & He); [simpl in *; lia|].
    exists st', items. rewrite Hd. split_and!; [done|by rewrite Hp|by apply queued_nil].
Qed.

(** No step of a world without senders and items wakes a waiting receiver. *)
Definition stuck (n : nat) (w : World T) : Prop :=
  sender_count (w_state w) = 0 ∧ queues_empty (queues (w_state w)) = true ∧ n ≤ w_waiting w.

Lemma stuck_step n w w' : stuck n w → world_step random_ratio w w' → stuck n w'.
Proof.
  intros (Hs & Hq & Hn). destruct 1; try congruence.
  - unfold stuck. simpl in *. unfold recv in *. rewrite Hq, Hs in *. done.
  - unfold recv in *. rewrite Hq in *. by destruct (bool_decide _).
  - unfold stuck. simpl. split_and!; [done|done|lia].
Qed.

Lemma stuck_reachable n w w' : rtc (world_step random_ratio) w w' → stuck n w → stuck n w'.
Proof. induction 1; eauto using stuck_step. Qed.

(** C34: A receiver that blocks in [pop] when the last sender is dropped is never woken: dropping
    a sender does not notify the condition variable, and a woken receiver looks only at the
    queues.  From the shared state of a new queue whose receiver waits and whose sender is then
    dropped, every state that can be reached still has the receiver waiting, although a [pop]
    that starts in such a state fails at once. *)
Theorem dropped_sender_strands_receiver (w1 w2 w : World T) :
  w1 = mkWorld queue_new 0 0 →
  w2 = mkWorld (drop_sender queue_new) 1 0 →
  rtc (world_step random_ratio) w1 w2 ∧
  (rtc (world_step random_ratio) w2 w → w_waiting w ≥ 1 ∧ recv (w_state w) = RecvFail).
Proof.
  intros -> ->. split.
  - eapply rtc_l; [by apply step_wait|]. apply rtc_once.
    by apply (step_drop_sender _ (mkWorld queue_new 1 0)).
  - intros Hrtc.
    destruct (stuck_reachable 1 _ _ Hrtc) as (Hs & Hq & Hn); [by repeat split|].
    split; [done|]. unfold recv. by rewrite Hq, Hs.
Qed.

End theorems.

(** ** Witnesses *)

Lemma try_pop_total_witness :
  let st := mkState (mkQueues [30] [] [10]) 1 1 in
  queues_empty (queues st) = false ∧
  ∃ rand' q' x, takes (queues st) x q' ∧
    try_pop tosses [false; true] st = Ok (rand', mkState q' 1 1, ResOk (Some x)).
Proof.
  intros st.
  destruct (try_pop_total tosses [false; true] st) as [H|[H _]]; [exact H|discriminate H].
Defined.

Lemma queue_conserves_witness :
  Forall (λ e, e.1 ≠ RealtimeAudio) [(Medium, 20); (High, 30); (Low, 10)] ∧
  drain tosses 5 (mkTryIter [false; false; true] false) 
     (drop_sender (mkState (mkQueues [30] [20] [10]) 1 1)) []
   = Ok (mkState (mkQueues [] [] []) 1 0, [ResOk 10; ResOk 20; ResOk 30; ResErr mkRecvError]) ∧
  (∃ items, items ≡ₚ [20; 30; 10]) ∧
  send (drop_receiver (mkState (mkQueues [30] [20] [10]) 1 1)) High 5
   = Ok (drop_receiver (mkState (mkQueues [30] [20] [10]) 1 1), ResErr 5).
Proof.
  assert (Forall (λ e : Priority * nat, e.1 ≠ RealtimeAudio) [(Medium, 20); (High, 30); (Low, 10)])
    as Hl by (repeat constructor; done).
  split; [exact Hl|]. split; [vm_compute; reflexivity|].
  destruct (queue_conserves tosses [false; false; true] _ High 5 true Hl)
    as [(st & _ & _ & st' & items & _ & Hp & _) H].
  split; [by exists items|]. apply H. vm_compute. reflexivity.
Defined.

Lemma dropped_sender_strands_receiver_witness :
  rtc (world_step (T:=nat) tosses) (mkWorld queue_new 0 0) (mkWorld (drop_sender queue_new) 1 0) ∧
  (w_waiting (mkWorld (T:=nat) (drop_sender queue_new) 1 0) ≥ 1).
Proof.
  destruct (dropped_sender_strands_receiver (T:=nat) tosses _ _
    (mkWorld (drop_sender queue_new) 1 0) eq_refl eq_refl) as [H1 H2].
  split; [exact H1|]. apply (H2 (rtc_refl _ _)).
Defined.
