(* ===== verification/Chars.v ===== *)
(** Text as the keymap code sees it: strings as lists of Unicode scalar values, and the character
    classes of the Rust standard library that the code relies on. *)
From Stdlib Require Import NArith Ascii String.
From S2P Require Import Prelude.

(** [char] and [str]. *)
Notation char := N (only parsing).
Definition ch (a : ascii) : char := N_of_ascii a.
Arguments ch : simpl never.
Fixpoint str (s : string) : list char :=
  match s with EmptyString => [] | String a s => ch a :: str s end.

(** [char::is_alphanumeric] and [char::is_whitespace], which are tables of the Unicode database. *)
Class CharTables := {
  is_alphanumeric : char → bool;
  is_whitespace : char → bool;
}.

(** What is documented of them: the classes are disjoint, the ASCII letters and digits are
    alphanumeric and the other printable ASCII characters are in neither class, a space is
    whitespace. *)
Class CharLaws `{CharTables} : Prop := {
  alphanumeric_not_whitespace c : is_alphanumeric c = true → is_whitespace c = false;
  space_is_whitespace : is_whitespace (ch " ") = true;
  punctuation_classes c :
    c ∈ str "!()&|=<>~?_-{}[].,:;'*+/\^%$#@`" ++ [34%N] →
    is_alphanumeric c = false ∧ is_whitespace c = false;
}.

(** Membership of a character in a literal string. *)
Ltac solve_char := repeat (first [apply list_elem_of_here | apply list_elem_of_further]).

(** The tables restricted to ASCII, which satisfy the laws. *)
Module Ascii.
Definition ascii_alphanumeric (c : char) : bool :=
  ((48 <=? c) && (c <=? 57) || (65 <=? c) && (c <=? 90) || (97 <=? c) && (c <=? 122))%N.
Definition ascii_whitespace (c : char) : bool :=
  ((c =? 32) || (9 <=? c) && (c <=? 13))%N.
#[export] Instance ascii_tables : CharTables :=
  {| is_alphanumeric := ascii_alphanumeric; is_whitespace := ascii_whitespace |}.
#[export] Instance ascii_laws : CharLaws.
Proof.
  split; simpl.
  - intros c. unfold ascii_alphanumeric, ascii_whitespace. intros H.
    apply not_true_iff_false. intros H'.
    rewrite ?orb_true_iff, ?andb_true_iff, ?N.leb_le, ?N.eqb_eq in *. lia.
  - done.
  - intros c Hc. rewrite !elem_of_cons, elem_of_nil in Hc.
    repeat destruct Hc as [->|Hc]; done.
Qed.
End Ascii.

(** ** Scanning *)

(** [source.chars().take_while(p).collect()] and the rest of the source after it. *)
Fixpoint take_while (p : char → bool) (s : list char) : list char :=
  match s with c :: s => if p c then c :: take_while p s else [] | [] => [] end.
Fixpoint drop_while (p : char → bool) (s : list char) : list char :=
  match s with c :: s' => if p c then drop_while p s' else s | [] => [] end.

(** [strip_prefix] of a character and [starts_with] of a string. *)
Definition strip_char (c : char) (s : list char) : option (list char) :=
  match s with c' :: s => if decide (c' = c) then Some s else None | [] => None end.
Fixpoint starts_with (prefix s : list char) : bool :=
  match prefix, s with
  | [], _ => true
  | c :: prefix, c' :: s => bool_decide (c = c') && starts_with prefix s
  | _ :: _, [] => false
  end.

Section scanning.
Implicit Types p : char → bool.
Implicit Types s : list char.

Lemma take_drop_while p s : take_while p s ++ drop_while p s = s.
Proof. induction s as [|c s IH]; simpl; [done|]. destruct (p c); simpl; [by rewrite IH|done]. Qed.

Lemma drop_while_length p s : length (drop_while p s) ≤ length s.
Proof. rewrite <-(take_drop_while p s) at 2. rewrite length_app. lia. Qed.

Lemma drop_while_drop p s : drop_while p s = drop (length (take_while p s)) s.
Proof. induction s as [|c s IH]; simpl; [done|]. by destruct (p c). Qed.

Lemma drop_while_suffix p s : drop_while p s `suffix_of` s.
Proof. exists (take_while p s). by rewrite take_drop_while. Qed.

(** A run of accepted characters, up to a rejected one or the end. *)
Definition stops p s : Prop := match s with c :: _ => p c = false | [] => True end.

Lemma take_while_app p s s' :
  Forall (λ c, p c = true) s → stops p s' → take_while p (s ++ s') = s.
Proof.
  induction 1 as [|c s Hc Hs IH]; intros Hstop; simpl.
  - destruct s' as [|c s']; [done|]. simpl in *. by rewrite Hstop.
  - by rewrite Hc, IH.
Qed.
Lemma drop_while_app p s s' :
  Forall (λ c, p c = true) s → stops p s' → drop_while p (s ++ s') = s'.
Proof.
  induction 1 as [|c s Hc Hs IH]; intros Hstop; simpl.
  - destruct s' as [|c s']; [done|]. simpl in *. by rewrite Hstop.
  - by rewrite Hc, IH.
Qed.
Lemma drop_while_stops p s : stops p (drop_while p s).
Proof. induction s as [|c s IH]; simpl; [done|]. destruct (p c) eqn:Hc; simpl; [done|done]. Qed.
Lemma drop_while_id p s : stops p s → drop_while p s = s.
Proof. destruct s as [|c s]; simpl; [done|]. by intros ->. Qed.
Lemma take_while_forall p s : Forall (λ c, p c = true) (take_while p s).
Proof. induction s as [|c s IH]; simpl; [done|]. destruct (p c) eqn:Hc; by constructor. Qed.

Lemma starts_with_app prefix s : starts_with prefix (prefix ++ s) = true.
Proof. induction prefix as [|c prefix IH]; simpl; [done|]. by rewrite bool_decide_true. Qed.

Lemma starts_with_drop prefix s :
  starts_with prefix s = true → s = prefix ++ drop (length prefix) s.
Proof.
  revert s. induction prefix as [|c prefix IH]; intros [|c' s] Hs; try done; simpl in *.
  apply andb_true_iff in Hs as [->%bool_decide_eq_true Hs]. f_equal. by apply IH.
Qed.

End scanning.
