(* ===== verification/KeyContext.v ===== *)
(** Key contexts of [crates/gpui/src/keymap/context.rs]: the identifiers and the key-value pairs
    that an element adds to the dispatch path, with their parser and their printer. *)
From Stdlib Require Import NArith Ascii String.
From S2P Require Import Prelude Chars.

(** [is_identifier_char], [is_vim_operator_char] and [skip_whitespace]. *)
Definition is_identifier_char `{CharTables} (c : char) : bool :=
  is_alphanumeric c || (c =? ch "_")%N || (c =? ch "-")%N.
Definition is_vim_operator_char (c : char) : bool :=
  (c =? ch ">")%N || (c =? ch "<")%N || (c =? ch "~")%N || (c =? 34)%N || (c =? ch "?")%N.
Definition skip_whitespace `{CharTables} (source : list char) : list char :=
  drop_while is_whitespace source.

(** [struct ContextEntry]. *)
Record ContextEntry : Type := mkEntry { key : list char; value : option (list char) }.
#[export] Instance ContextEntry_eq_dec : EqDecision ContextEntry.
Proof. solve_decision. Defined.

Module KeyContext.
(** [struct KeyContext]. *)
Notation t := (list ContextEntry) (only parsing).
Implicit Types self : t.

Definition contains self (k : list char) : bool := existsb (λ e, bool_decide (key e = k)) self.
Definition get self (k : list char) : option (list char) :=
  match list_find (λ e, key e = k) self with Some (_, e) => value e | None => None end.

(** [add] and [set]. *)
Definition add self (identifier : list char) : t :=
  if negb (contains self identifier) then self ++ [mkEntry identifier None] else self.
Definition set self (k v : list char) : t :=
  if negb (contains self k) then self ++ [mkEntry k (Some v)] else self.

(** [extend]. *)
Definition extend self (other : t) : t :=
  foldl (λ self entry, if negb (contains self (key entry)) then self ++ [entry] else self)
    self other.

(** [primary] and [secondary]. *)
Definition primary self : option ContextEntry :=
  snd <$> list_find (λ e, value e = None) self.
Definition secondary self : list ContextEntry := filter (λ e, Some e ≠ primary self) self.

Definition is_empty self : bool := match self with [] => true | _ => false end.
Definition clear self : t := [].

Section parse.
Context `{CharTables}.

(** One round of [parse_expr]: an identifier, or a key and a value, with the rest of the source. *)
Definition parse_entry (source : list char) (context : t) : list char * t :=
  let key := take_while is_identifier_char source in
  let source := skip_whitespace (drop (length key) source) in
  match strip_char (ch "=") source with
  | Some suffix =>
      let source := skip_whitespace suffix in
      let value := take_while is_identifier_char source in
      let source := skip_whitespace (drop (length value) source) in
      (source, set context key value)
  | None => (source, add context key)
  end.

(** [parse_expr], which calls itself on the rest; [fuel] bounds the calls. *)
Fixpoint parse_expr (fuel : nat) (source : list char) (context : t) : outcome t :=
  match fuel with
  | O => OutOfFuel
  | S fuel =>
      match source with
      | [] => Ok context
      | _ => let '(source, context) := parse_entry source context in parse_expr fuel source context
      end
  end.
Definition parse (fuel : nat) (source : list char) : outcome t :=
  parse_expr fuel (skip_whitespace source) [].

End parse.

(** [impl Debug]. *)
Definition fmt_entry (e : ContextEntry) : list char :=
  match value e with Some v => key e ++ ch "=" :: v | None => key e end.
Fixpoint fmt self : list char :=
  match self with
  | [] => []
  | [e] => fmt_entry e
  | e :: self => fmt_entry e ++ ch " " :: fmt self
  end.

End KeyContext.

(** ** Facts *)

Section facts.
Context `{!CharTables, !CharLaws}.
Implicit Types ctx : KeyContext.t.
Implicit Types s k v : list char.

Lemma contains_true ctx k : KeyContext.contains ctx k = true ↔ k ∈ key <$> ctx.
Proof.
  unfold KeyContext.contains. rewrite existsb_exists, list_elem_of_fmap.
  setoid_rewrite <-list_elem_of_In. setoid_rewrite bool_decide_eq_true. naive_solver.
Qed.

Lemma get_cons e ctx k :
  KeyContext.get (e :: ctx) k = if decide (key e = k) then value e else KeyContext.get ctx k.
Proof.
  unfold KeyContext.get. simpl. case_decide; [done|].
  by destruct (list_find (λ e, key e = k) ctx) as [[? ?]|].
Qed.

Lemma get_app ctx1 ctx2 k :
  KeyContext.get (ctx1 ++ ctx2) k
    = if KeyContext.contains ctx1 k then KeyContext.get ctx1 k else KeyContext.get ctx2 k.
Proof.
  induction ctx1 as [|e ctx1 IH]; [done|]. simpl. rewrite !get_cons.
  case_decide; [by rewrite bool_decide_true|by rewrite bool_decide_false].
Qed.

Lemma contains_app ctx1 ctx2 k :
  KeyContext.contains (ctx1 ++ ctx2) k = KeyContext.contains ctx1 k || KeyContext.contains ctx2 k.
Proof. apply existsb_app. Qed.

Lemma contains_cons e ctx k :
  KeyContext.contains (e :: ctx) k = bool_decide (key e = k) || KeyContext.contains ctx k.
Proof. done. Qed.

(** Pushing an entry unless its key is there: [add], [set] and each step of [extend]. *)
Definition push_new ctx (e : ContextEntry) : KeyContext.t :=
  if negb (KeyContext.contains ctx (key e)) then ctx ++ [e] else ctx.

Lemma push_new_contains ctx e k :
  KeyContext.contains (push_new ctx e) k = KeyContext.contains ctx k || bool_decide (key e = k).
Proof.
  unfold push_new. destruct (KeyContext.contains ctx (key e)) eqn:Hc; simpl.
  - case_bool_decide as Hk; [subst; by rewrite Hc|by rewrite orb_false_r].
  - rewrite contains_app, contains_cons. simpl. by rewrite orb_false_r.
Qed.
Lemma push_new_get ctx e k :
  KeyContext.get (push_new ctx e) k
    = if KeyContext.contains ctx k then KeyContext.get ctx k
      else if decide (key e = k) then value e else None.
Proof.
  unfold push_new. destruct (KeyContext.contains ctx (key e)) eqn:Hc; simpl.
  - destruct (KeyContext.contains ctx k) eqn:Hk; [done|].
    case_decide as Hd; [subst; congruence|].
    unfold KeyContext.get. destruct (list_find _ ctx) as [[i e']|] eqn:Hf; [|done].
    apply list_find_Some in Hf as (Hi & <- & _). exfalso.
    apply not_true_iff_false in Hk. apply Hk, contains_true.
    apply list_elem_of_fmap. exists e'. split; [done|by eapply list_elem_of_lookup_2].
  - by rewrite get_app, get_cons.
Qed.
Lemma push_new_NoDup ctx e : NoDup (key <$> ctx) → NoDup (key <$> push_new ctx e).
Proof.
  intros Hnd. unfold push_new. destruct (KeyContext.contains ctx (key e)) eqn:Hc; [done|]. simpl.
  rewrite fmap_app. apply NoDup_app. split; [done|]. split; [|apply NoDup_singleton].
  intros k Hk ->%list_elem_of_singleton. apply not_true_iff_false in Hc. by apply Hc, contains_true.
Qed.

Lemma extend_push ctx1 ctx2 : KeyContext.extend ctx1 ctx2 = foldl push_new ctx1 ctx2.
Proof. done. Qed.

Lemma extend_contains ctx1 ctx2 k :
  KeyContext.contains (KeyContext.extend ctx1 ctx2) k
    = KeyContext.contains ctx1 k || KeyContext.contains ctx2 k.
Proof.
  rewrite extend_push. revert ctx1. induction ctx2 as [|e ctx2 IH]; intros ctx1; simpl.
  - by rewrite orb_false_r.
  - by rewrite IH, push_new_contains, orb_assoc.
Qed.
Lemma extend_get ctx1 ctx2 k :
  KeyContext.get (KeyContext.extend ctx1 ctx2) k
    = if KeyContext.contains ctx1 k then KeyContext.get ctx1 k else KeyContext.get ctx2 k.
Proof.
  rewrite extend_push. revert ctx1. induction ctx2 as [|e ctx2 IH]; intros ctx1; simpl.
  - destruct (KeyContext.contains ctx1 k) eqn:Hc; [done|]. unfold KeyContext.get at 1.
    destruct (list_find _ ctx1) as [[i e]|] eqn:Hf; [|done].
    apply list_find_Some in Hf as (Hi & <- & _). apply not_true_iff_false in Hc. exfalso.
    apply Hc, contains_true, list_elem_of_fmap. exists e. split; [done|].
    by eapply list_elem_of_lookup_2.
  - rewrite IH, push_new_contains, push_new_get, get_cons.
    destruct (KeyContext.contains ctx1 k) eqn:Hc; [done|]. simpl.
    by case_bool_decide; case_decide.
Qed.
Lemma extend_NoDup ctx1 ctx2 :
  NoDup (key <$> ctx1) → NoDup (key <$> KeyContext.extend ctx1 ctx2).
Proof.
  rewrite extend_push. revert ctx1. induction ctx2 as [|e ctx2 IH]; intros ctx1 Hnd; simpl; [done|].
  by apply IH, push_new_NoDup.
Qed.
Lemma extend_prefix ctx1 ctx2 : ctx1 `prefix_of` KeyContext.extend ctx1 ctx2.
Proof.
  rewrite extend_push. revert ctx1. induction ctx2 as [|e ctx2 IH]; intros ctx1; simpl; [done|].
  etrans; [|apply IH]. unfold push_new. destruct (negb _); [by eexists|done].
Qed.

(** ** Characters *)



Lemma identifier_not_whitespace c : is_identifier_char c = true → is_whitespace c = false.
Proof.
  unfold is_identifier_char. rewrite !orb_true_iff, !N.eqb_eq.
  intros [[Hc| ->]| ->]; [by apply alphanumeric_not_whitespace|apply punctuation_classes; solve_char..].
Qed.
Lemma equal_sign : is_identifier_char (ch "=") = false ∧ is_whitespace (ch "=") = false.
Proof.
  destruct (punctuation_classes (ch "=")) as [H1 H2]; [solve_char|].
  unfold is_identifier_char. by rewrite H1.
Qed.
Lemma space_not_identifier : is_identifier_char (ch " ") = false.
Proof.
  destruct (is_identifier_char (ch " ")) eqn:Hc; [|done].
  apply identifier_not_whitespace in Hc. by rewrite space_is_whitespace in Hc.
Qed.

(** ** The parser *)

(** The characters that the parser can consume. *)
Definition readable (c : char) : bool :=
  is_identifier_char c || is_whitespace c || (c =? ch "=")%N.

Lemma while_readable (p : char → bool) s :
  (∀ c, p c = true → readable c = true) → Forall (λ c, readable c = true) (take_while p s).
Proof. intros Hp. eapply Forall_impl; [apply take_while_forall|done]. Qed.
Lemma identifier_readable c : is_identifier_char c = true → readable c = true.
Proof. unfold readable. by intros ->. Qed.
Lemma whitespace_readable c : is_whitespace c = true → readable c = true.
Proof. unfold readable. intros ->. by rewrite orb_true_r. Qed.

(** [parse_entry] consumes readable characters up to the next entry. *)
Lemma parse_entry_consumes s ctx :
  ∃ used, s = used ++ (KeyContext.parse_entry s ctx).1 ∧
    Forall (λ c, readable c = true) used ∧
    stops is_whitespace (KeyContext.parse_entry s ctx).1.
Proof.
  unfold KeyContext.parse_entry. rewrite <-drop_while_drop.
  set (k := take_while is_identifier_char s). set (r := drop_while is_identifier_char s).
  assert (s = k ++ r) as Hs by (symmetry; apply take_drop_while).
  assert (Forall (λ c, readable c = true) k) as Hk by apply while_readable, identifier_readable.
  pose proof (take_drop_while is_whitespace r) as Hr. set (w := take_while is_whitespace r) in *.
  assert (Forall (λ c, readable c = true) w) as Hw by apply while_readable, whitespace_readable.
  unfold skip_whitespace. destruct (strip_char (ch "=") (drop_while is_whitespace r)) as [q|] eqn:Hq.
  - unfold strip_char in Hq. destruct (drop_while is_whitespace r) as [|c r'] eqn:Hr'; [done|].
    case_decide; [|done]. injection Hq as ->. subst c.
    rewrite <-drop_while_drop. cbn [fst].
    set (q1 := drop_while is_whitespace q). set (q2 := drop_while is_identifier_char q1).
    exists (k ++ w ++ [ch "="] ++ take_while is_whitespace q ++ take_while is_identifier_char q1
              ++ take_while is_whitespace q2).
    split; [|split].
    + rewrite <-!app_assoc, take_drop_while. unfold q2. rewrite take_drop_while.
      unfold q1. rewrite take_drop_while. cbn [app]. by rewrite Hr.
    + rewrite !Forall_app. split_and!; try done; try (apply while_readable);
        auto using identifier_readable, whitespace_readable.
      constructor; [|done]. unfold readable. by rewrite orb_true_r.
    + apply drop_while_stops.
  - exists (k ++ w). simpl. split; [by rewrite <-app_assoc, Hr|]. split; [by apply Forall_app|].
    apply drop_while_stops.
Qed.

(** It consumes something when it can. *)
Lemma parse_entry_progress c s ctx :
  readable c = true → is_whitespace c = false →
  length (KeyContext.parse_entry (c :: s) ctx).1 < length (c :: s).
Proof.
  intros Hc Hw. unfold KeyContext.parse_entry. rewrite <-!drop_while_drop. unfold skip_whitespace.
  unfold readable in Hc. rewrite Hw, orb_false_r in Hc.
  apply orb_true_iff in Hc as [Hc|Hc%N.eqb_eq].
  - simpl. rewrite Hc.
    pose proof (drop_while_length is_identifier_char s) as H1.
    pose proof (drop_while_length is_whitespace (drop_while is_identifier_char s)) as H2.
    destruct (strip_char _ _) as [q|] eqn:Hq; simpl; [|lia].
    assert (length q < S (length s)) as Hlq.
    { unfold strip_char in Hq. destruct (drop_while is_whitespace _) as [|c' r]; [done|].
      case_decide; [|done]. injection Hq as ->. simpl in H2. lia. }
    rewrite <-drop_while_drop.
    pose proof (drop_while_length is_whitespace q).
    pose proof (drop_while_length is_identifier_char (drop_while is_whitespace q)).
    pose proof (drop_while_length is_whitespace
      (drop_while is_identifier_char (drop_while is_whitespace q))). lia.
  - subst c. destruct equal_sign as [He Hew]. simpl. rewrite He. simpl. rewrite Hew. simpl.
    rewrite <-drop_while_drop.
    pose proof (drop_while_length is_whitespace s).
    pose proof (drop_while_length is_identifier_char (drop_while is_whitespace s)).
    pose proof (drop_while_length is_whitespace
      (drop_while is_identifier_char (drop_while is_whitespace s))). lia.
Qed.

Lemma parse_expr_total fuel s ctx :
  Forall (λ c, readable c = true) s → stops is_whitespace s → length s < fuel →
  ∃ ctx', KeyContext.parse_expr fuel s ctx = Ok ctx'.
Proof.
  revert s ctx. induction fuel as [|fuel IH]; intros s ctx Hs Hw Hf; [lia|].
  destruct s as [|c s]; [by eexists|]. cbn [KeyContext.parse_expr].
  pose proof (parse_entry_consumes (c :: s) ctx) as (used & Hu & _ & Hst).
  inversion Hs as [|?? Hc Hs']; subst. pose proof (parse_entry_progress c s ctx Hc Hw) as Hp.
  destruct (KeyContext.parse_entry (c :: s) ctx) as [s' ctx']. simpl in *. apply IH; [|done|lia].
  assert (Forall (λ c, readable c = true) (c :: s)) as Hall by by constructor.
  rewrite Hu in Hall. by apply Forall_app in Hall as [_ ?].
Qed.

Lemma parse_expr_diverges fuel s ctx c :
  c ∈ s → readable c = false → KeyContext.parse_expr fuel s ctx = OutOfFuel.
Proof.
  intros Hc Hr. revert s ctx Hc. induction fuel as [|fuel IH]; intros s ctx Hc; [done|].
  destruct s as [|c' s]; [by apply elem_of_nil in Hc|]. cbn [KeyContext.parse_expr].
  pose proof (parse_entry_consumes (c' :: s) ctx) as (used & Hu & Hall & _).
  destruct (KeyContext.parse_entry (c' :: s) ctx) as [s' ctx']. simpl in *. apply IH.
  rewrite Hu in Hc. apply elem_of_app in Hc as [Hc|Hc]; [|done].
  rewrite Forall_forall in Hall. specialize (Hall c Hc). congruence.
Qed.

(** An identifier as the parser reads it: not empty, of identifier characters. *)
Definition identifier (s : list char) : Prop :=
  s ≠ [] ∧ Forall (λ c, is_identifier_char c = true) s.
Definition printable_entry (e : ContextEntry) : Prop :=
  identifier (key e) ∧ match value e with Some v => identifier v | None => True end.

Lemma identifier_stops s s' : identifier s → stops is_whitespace (s ++ s').
Proof.
  intros [Hne Hs]. destruct Hs as [|c s Hc]; [done|]. simpl. by apply identifier_not_whitespace.
Qed.
Lemma fmt_stops ctx : Forall printable_entry ctx → stops is_whitespace (KeyContext.fmt ctx).
Proof.
  destruct 1 as [|e ctx He Hctx]; [done|].
  assert (∀ r, stops is_whitespace (KeyContext.fmt_entry e ++ r)) as Hst.
  { intros r. destruct He as [Hk _]. unfold KeyContext.fmt_entry.
    destruct (value e); rewrite <-?app_assoc; by apply identifier_stops. }
  destruct ctx as [|e' ctx]; [|apply Hst]. cbn [KeyContext.fmt].
  rewrite <-(app_nil_r (KeyContext.fmt_entry e)). apply Hst.
Qed.

(** What follows an entry in the printed text, and the text after it. *)
Definition separator (s s' : list char) : Prop :=
  s = [] ∧ s' = [] ∨ s = ch " " :: s' ∧ stops is_whitespace s'.

Lemma separator_ok s s' :
  separator s s' →
  stops is_identifier_char s ∧ skip_whitespace s = s' ∧ strip_char (ch "=") s' = strip_char (ch "=") s'.
Proof.
  intros [[-> ->]|[-> Hs]]; [done|]. simpl. rewrite space_not_identifier. split_and!; [done| |done].
  unfold skip_whitespace. simpl. rewrite space_is_whitespace. by apply drop_while_id.
Qed.

Lemma parse_entry_fmt e s s' ctx :
  printable_entry e → separator s s' → stops (λ c, (c =? ch "=")%N) s' →
  key e ∉ key <$> ctx →
  KeyContext.parse_entry (KeyContext.fmt_entry e ++ s) ctx = (s', ctx ++ [e]).
Proof.
  intros [[Hkne Hk] Hv] Hsep Heq Hnew. destruct (separator_ok s s' Hsep) as (Hst & Hskip & _).
  destruct e as [k v]. simpl in *. unfold KeyContext.parse_entry. rewrite <-drop_while_drop.
  assert (KeyContext.contains ctx k = false) as Hc.
  { apply not_true_iff_false. by rewrite contains_true. }
  destruct v as [v|]; unfold KeyContext.fmt_entry; simpl.
  - destruct equal_sign as [He Hew]. destruct Hv as [Hvne Hv].
    rewrite <-app_assoc. simpl.
    assert (stops is_identifier_char (ch "=" :: v ++ s)) as Hst1 by done.
    rewrite (take_while_app _ _ _ Hk Hst1), (drop_while_app _ _ _ Hk Hst1).
    unfold skip_whitespace in *. simpl. rewrite Hew. simpl.
    rewrite (drop_while_id _ (v ++ s)) by by apply identifier_stops.
    rewrite <-drop_while_drop.
    rewrite (take_while_app _ _ _ Hv Hst), (drop_while_app _ _ _ Hv Hst), Hskip.
    unfold KeyContext.set. by rewrite Hc.
  - rewrite (take_while_app _ _ _ Hk Hst), (drop_while_app _ _ _ Hk Hst), Hskip.
    assert (strip_char (ch "=") s' = None) as ->.
    { destruct s' as [|c s']; [done|]. simpl in Heq. simpl.
      by rewrite decide_False by by apply N.eqb_neq. }
    unfold KeyContext.add. by rewrite Hc.
Qed.

Lemma fmt_starts ctx : Forall printable_entry ctx → stops (λ c, (c =? ch "=")%N) (KeyContext.fmt ctx).
Proof.
  destruct 1 as [|e ctx [[Hkne Hk] _] Hctx]; [done|].
  assert (∀ r, stops (λ c, (c =? ch "=")%N) (key e ++ r)) as Hst.
  { intros r. destruct Hk as [|c k Hc]; [done|]. simpl. apply N.eqb_neq. intros ->.
    destruct equal_sign as [He _]. congruence. }
  destruct ctx as [|e' ctx]; cbn [KeyContext.fmt]; unfold KeyContext.fmt_entry;
    destruct (value e); rewrite <-?app_assoc; try apply Hst.
  rewrite <-(app_nil_r (key e)). apply Hst.
Qed.

Lemma parse_expr_fmt ctx acc fuel :
  Forall printable_entry ctx → NoDup (key <$> acc ++ ctx) → length ctx < fuel →
  KeyContext.parse_expr fuel (KeyContext.fmt ctx) acc = Ok (acc ++ ctx).
Proof.
  intros Hctx. revert acc fuel. induction Hctx as [|e ctx He Hctx IH]; intros acc fuel Hnd Hf.
  - destruct fuel; [simpl in Hf; lia|]. simpl. by rewrite app_nil_r.
  - destruct fuel as [|fuel]; [simpl in Hf; lia|].
    assert (∃ s, KeyContext.fmt (e :: ctx) = KeyContext.fmt_entry e ++ s ∧
      separator s (KeyContext.fmt ctx)) as (s & Hs & Hsep).
    { destruct ctx as [|e' ctx].
      - exists []. rewrite app_nil_r. split; [done|by left].
      - exists (ch " " :: KeyContext.fmt (e' :: ctx)). split; [done|]. right.
        split; [done|]. by apply fmt_stops. }
    rewrite Hs. cbn [KeyContext.parse_expr].
    destruct (KeyContext.fmt_entry e ++ s) as [|c r] eqn:Hr.
    { destruct He as [[Hne _] _]. unfold KeyContext.fmt_entry in Hr.
      apply app_eq_nil in Hr as [Hr _]. destruct (value e); [|done].
      by apply app_eq_nil in Hr as [Hr _]. }
    rewrite <-Hr, (parse_entry_fmt e s (KeyContext.fmt ctx)); [|done|done|by apply fmt_starts|].
    + rewrite IH; [by rewrite <-app_assoc|by rewrite <-app_assoc|simpl in Hf; lia].
    + rewrite fmap_app in Hnd. apply NoDup_app in Hnd as (_ & Hd & _). intros Hin.
      apply (Hd _ Hin). rewrite fmap_cons. left.
Qed.

Lemma fmt_length ctx : Forall printable_entry ctx → length ctx ≤ length (KeyContext.fmt ctx).
Proof.
  induction 1 as [|e ctx [[Hne _] _] _ IH]; [done|].
  assert (1 ≤ length (KeyContext.fmt_entry e)) as He.
  { unfold KeyContext.fmt_entry. destruct (key e); [done|]. destruct (value e); simpl; lia. }
  destruct ctx; cbn [KeyContext.fmt]; simpl in *; rewrite ?length_app; simpl; lia.
Qed.

(** ** Properties *)

(** The first entry for a key wins: extending a context keeps its entries, in order, adds
    exactly the entries of the other context with new keys, and keeps keys unique; [add] and [set]
    do nothing to a key that is there, and otherwise bind it. *)
Theorem key_context_first_wins ctx other k k' v :
  ctx `prefix_of` KeyContext.extend ctx other ∧
  (NoDup (key <$> ctx) → NoDup (key <$> KeyContext.extend ctx other)) ∧
  KeyContext.contains (KeyContext.extend ctx other) k
    = KeyContext.contains ctx k || KeyContext.contains other k ∧
  KeyContext.get (KeyContext.extend ctx other) k
    = (if KeyContext.contains ctx k then KeyContext.get ctx k else KeyContext.get other k) ∧
  KeyContext.get (KeyContext.set ctx k v) k'
    = (if KeyContext.contains ctx k' then KeyContext.get ctx k'
       else if decide (k = k') then Some v else None) ∧
  KeyContext.get (KeyContext.add ctx k) k'
    = (if KeyContext.contains ctx k' then KeyContext.get ctx k' else None) ∧
  KeyContext.contains (KeyContext.set ctx k v) k' = KeyContext.contains ctx k' || bool_decide (k = k') ∧
  KeyContext.contains (KeyContext.add ctx k) k' = KeyContext.contains ctx k' || bool_decide (k = k').
Proof.
  split; [apply extend_prefix|]. split; [apply extend_NoDup|].
  split; [apply extend_contains|]. split; [apply extend_get|].
  split; [exact (push_new_get ctx (mkEntry k (Some v)) k')|].
  split.
  - etrans; [exact (push_new_get ctx (mkEntry k None) k')|]. by repeat case_match.
  - split; [exact (push_new_contains ctx (mkEntry k (Some v)) k')|].
    exact (push_new_contains ctx (mkEntry k None) k').
Qed.

(** Parsing a key context either succeeds or never returns: when every character of the
    source is an identifier character, whitespace or an equals sign, a number of rounds below its
    length plus two is enough, and when the source has any other character, no number of rounds
    is: the parser calls itself on the same source for ever. *)
Theorem parse_context_terminates (source : list char) :
  if forallb readable source
  then ∃ ctx, KeyContext.parse (length source + 1) source = Ok ctx
  else ∀ fuel, KeyContext.parse fuel source = OutOfFuel.
Proof.
  unfold KeyContext.parse, skip_whitespace.
  pose proof (take_drop_while is_whitespace source) as Hs.
  pose proof (drop_while_length is_whitespace source) as Hl.
  pose proof (drop_while_stops is_whitespace source) as Hst.
  destruct (forallb readable source) eqn:Hf.
  - apply parse_expr_total; [|done|lia].
    rewrite <-Hs, forallb_app in Hf. apply andb_true_iff in Hf as [_ Hf].
    rewrite Forall_forall. intros c Hc. rewrite forallb_forall in Hf.
    apply Hf. by apply list_elem_of_In.
  - intros fuel. apply not_true_iff_false in Hf. rewrite forallb_forall in Hf.
    assert (∃ c, c ∈ source ∧ readable c = false) as (c & Hc & Hr).
    { assert (¬ Forall (λ c, readable c = true) source) as Hn.
      { intros Hall. apply Hf. intros c Hc. rewrite Forall_forall in Hall.
        by apply Hall, list_elem_of_In. }
      apply not_Forall_Exists, Exists_exists in Hn as (c & Hc & Hr); [|apply _].
      exists c. split; [done|]. by apply not_true_is_false. }
    apply (parse_expr_diverges _ _ _ c); [|done].
    rewrite <-Hs in Hc. apply elem_of_app in Hc as [Hc|Hc]; [|done].
    pose proof (while_readable is_whitespace source whitespace_readable) as Hall.
    rewrite Forall_forall in Hall. specialize (Hall c Hc). congruence.
Qed.

(** Printing a key context and parsing the text gives the context back, when its keys are
    distinct and its keys and values are identifiers that are not empty. *)
Theorem key_context_roundtrip ctx :
  NoDup (key <$> ctx) → Forall printable_entry ctx →
  KeyContext.parse (length (KeyContext.fmt ctx) + 1) (KeyContext.fmt ctx) = Ok ctx.
Proof.
  intros Hnd Hctx. unfold KeyContext.parse, skip_whitespace.
  rewrite drop_while_id by by apply fmt_stops. pose proof (fmt_length ctx Hctx).
  by apply (parse_expr_fmt ctx []); [|done|lia].
Qed.

End facts.

(** ** Witnesses *)

Import Chars.Ascii.

Definition demo_context : KeyContext.t :=
  [mkEntry (str "baz") None; mkEntry (str "foo") (Some (str "bar"))].

Example parse_tests :
  KeyContext.parse 99 (str "  baz foo   =   bar baz") = Ok demo_context ∧
  KeyContext.fmt demo_context = str "baz foo=bar" ∧
  KeyContext.parse 99 (str "baz !") = OutOfFuel.
Proof. split_and!; vm_compute; reflexivity. Qed.

Lemma key_context_first_wins_witness :
  NoDup (key <$> demo_context) ∧
  NoDup (key <$> KeyContext.extend demo_context [mkEntry (str "foo") None; mkEntry (str "x") None]).
Proof.
  assert (NoDup (key <$> demo_context)) as Hnd by by apply (bool_decide_unpack _).
  split; [exact Hnd|].
  apply (key_context_first_wins demo_context [mkEntry (str "foo") None; mkEntry (str "x") None]
    [] [] []). exact Hnd.
Defined.

Lemma parse_context_terminates_witness :
  (∃ ctx, KeyContext.parse 7 (str "a b= c") = Ok ctx) ∧
  (∀ fuel, KeyContext.parse fuel (str "a (b)") = OutOfFuel).
Proof.
  split.
  - exact (parse_context_terminates (str "a b= c")).
  - exact (parse_context_terminates (str "a (b)")).
Defined.

Lemma key_context_roundtrip_witness :
  KeyContext.parse 12 (str "baz foo=bar") = Ok demo_context.
Proof.
  apply (key_context_roundtrip demo_context).
  - by apply (bool_decide_unpack _).
  - repeat constructor; done.
Defined.
