(* ===== verification/Predicate.v ===== *)
(** Context predicates of [crates/gpui/src/keymap/context.rs]: the language that says where a key
    binding applies, with its evaluator, its parser and its printer. *)
From Stdlib Require Import NArith Ascii String.
From S2P Require Import Prelude Chars KeyContext.

(** [enum KeyBindingContextPredicate]. *)
Inductive Predicate : Type :=
| Identifier (name : list char)
| Equal (l r : list char)
| NotEqual (l r : list char)
| Descendant (parent child : Predicate)
| Not (pred : Predicate)
| And (l r : Predicate)
| Or (l r : Predicate).
#[export] Instance Predicate_eq_dec : EqDecision Predicate.
Proof. solve_decision. Defined.
Implicit Types self : Predicate.

(** ** Evaluation *)

(** [eval_inner].  [take (i + 1)] is the slice [..=i], [drop (i + 1)] the slice [i + 1..]. *)
Fixpoint eval_inner self (contexts all_contexts : list KeyContext.t) : bool :=
  match last contexts with
  | None => false
  | Some context =>
      match self with
      | Identifier name => KeyContext.contains context name
      | Equal l r =>
          match KeyContext.get context l with
          | Some value => bool_decide (value = r)
          | None => false
          end
      | NotEqual l r =>
          match KeyContext.get context l with
          | Some value => bool_decide (value ≠ r)
          | None => true
          end
      | Not pred =>
          forallb (λ i, negb (eval_inner pred (take (i + 1) all_contexts) all_contexts))
            (seq 0 (length all_contexts))
      | Descendant parent child =>
          match find (λ i, eval_inner parent (take (i + 1) contexts) all_contexts)
                  (seq 0 (length contexts - 1)) with
          | Some i => eval_inner child (drop (i + 1) contexts) (drop (i + 1) contexts)
          | None => false
          end
      | And l r => eval_inner l contexts all_contexts && eval_inner r contexts all_contexts
      | Or l r => eval_inner l contexts all_contexts || eval_inner r contexts all_contexts
      end
  end.
Definition eval self (contexts : list KeyContext.t) : bool := eval_inner self contexts contexts.

(** [depth_of]: the loop over the depths, from the deepest. *)
Definition depth_of self (contexts : list KeyContext.t) : option nat :=
  find (λ depth, eval_inner self (take depth contexts) contexts)
    (rev (seq 0 (length contexts + 1))).

(** [is_superset]. *)
Fixpoint is_superset self : Predicate → bool :=
  fix inner other :=
    if decide (self = other) then true
    else
      match self with
      | Or l r => is_superset l other || is_superset r other
      | _ =>
          match other with
          | Descendant _ child => inner child
          | And l r => inner l || inner r
          | _ => false
          end
      end.

(** ** Printing *)

Inductive LogicalOperator := LogicalAnd | LogicalOr.

(** [fmt_joined_inner]: the operands of a chain of one operator, printed by [show]. *)
Section joined.
Context (show : Predicate → list char) (operator : LogicalOperator).
Fixpoint fmt_joined_inner self : list (list char) :=
  match operator, self with
  | LogicalAnd, And l r => fmt_joined_inner l ++ fmt_joined_inner r
  | LogicalOr, Or l r => fmt_joined_inner l ++ fmt_joined_inner r
  | LogicalAnd, Or _ _ => [ch "(" :: show self ++ str ")"]
  | LogicalOr, And _ _ => [ch "(" :: show self ++ str ")"]
  | _, _ => [show self]
  end.
End joined.

(** The separator between the operands, written before each one but the first. *)
Fixpoint join (separator : list char) (l : list (list char)) : list char :=
  match l with
  | [] => []
  | [s] => s
  | s :: l => s ++ separator ++ join separator l
  end.

(** [impl Display]. *)
Fixpoint fmt self : list char :=
  match self with
  | Identifier name => name
  | Equal l r => l ++ str " == " ++ r
  | NotEqual l r => l ++ str " != " ++ r
  | Descendant parent child => fmt parent ++ str " > " ++ fmt child
  | Not (Identifier name) => ch "!" :: name
  | Not pred => str "!(" ++ fmt pred ++ str ")"
  | And l r =>
      join (str " && ") (fmt_joined_inner fmt LogicalAnd l ++ fmt_joined_inner fmt LogicalAnd r)
  | Or l r =>
      join (str " || ") (fmt_joined_inner fmt LogicalOr l ++ fmt_joined_inner fmt LogicalOr r)
  end.

(** ** Parsing *)

Inductive ParseError :=
| UnexpectedEnd | ExpectedParen | UnexpectedCharacter (c : char) | OperandsMustBeIdentifiers.

(** The result of the parser; [NoFuel] is a computation that was not given enough fuel. *)
Inductive parsed (A : Type) := Parsed (x : A) | Failed (e : ParseError) | NoFuel.
Arguments Parsed {A}.
Arguments Failed {A}.
Arguments NoFuel {A}.
#[export] Instance parsed_bind : MBind parsed := λ A B f m,
  match m with Parsed x => f x | Failed e => Failed e | NoFuel => NoFuel end.

Definition PRECEDENCE_CHILD : nat := 1.
Definition PRECEDENCE_OR : nat := 2.
Definition PRECEDENCE_AND : nat := 3.
Definition PRECEDENCE_EQ : nat := 4.
Definition PRECEDENCE_NOT : nat := 5.

Definition new_or self (other : Predicate) : parsed Predicate := Parsed (Or self other).
Definition new_and self (other : Predicate) : parsed Predicate := Parsed (And self other).
Definition new_child self (other : Predicate) : parsed Predicate := Parsed (Descendant self other).
Definition new_eq self (other : Predicate) : parsed Predicate :=
  match self, other with
  | Identifier l, Identifier r => Parsed (Equal l r)
  | _, _ => Failed OperandsMustBeIdentifiers
  end.
Definition new_neq self (other : Predicate) : parsed Predicate :=
  match self, other with
  | Identifier l, Identifier r => Parsed (NotEqual l r)
  | _, _ => Failed OperandsMustBeIdentifiers
  end.

(** The table of operators, and the first one that matches. *)
Definition operators : list (list char * nat * (Predicate → Predicate → parsed Predicate)) :=
  [(str ">", PRECEDENCE_CHILD, new_child); (str "&&", PRECEDENCE_AND, new_and);
   (str "||", PRECEDENCE_OR, new_or); (str "==", PRECEDENCE_EQ, new_eq);
   (str "!=", PRECEDENCE_EQ, new_neq)].
Definition find_operator (source : list char) (min_precedence : nat)
    : option (list char * nat * (Predicate → Predicate → parsed Predicate)) :=
  find (λ '(operator, precedence, _),
    starts_with operator source && (min_precedence <=? precedence)) operators.

Section parser.
Context `{!CharTables}.

(** [parse_expr], its loop and [parse_primary]; [fuel] bounds the calls. *)
Fixpoint parse_expr (fuel : nat) (source : list char) (min_precedence : nat)
    : parsed (Predicate * list char) :=
  match fuel with
  | O => NoFuel
  | S fuel =>
      '(predicate, rest) ← parse_primary fuel source;
      parse_loop fuel predicate rest min_precedence
  end
with parse_loop (fuel : nat) (predicate : Predicate) (source : list char) (min_precedence : nat)
    : parsed (Predicate * list char) :=
  match fuel with
  | O => NoFuel
  | S fuel =>
      match find_operator source min_precedence with
      | None => Parsed (predicate, source)
      | Some (operator, precedence, constructor) =>
          let source := skip_whitespace (drop (length operator) source) in
          '(operand, rest) ← parse_expr fuel source (precedence + 1);
          predicate ← constructor predicate operand;
          parse_loop fuel predicate rest min_precedence
      end
  end
with parse_primary (fuel : nat) (source : list char) : parsed (Predicate * list char) :=
  match fuel with
  | O => NoFuel
  | S fuel =>
      match source with
      | [] => Failed UnexpectedEnd
      | next :: tail =>
          if (next =? ch "(")%N then
            '(predicate, rest) ← parse_expr fuel (skip_whitespace tail) 0;
            match strip_char (ch ")") rest with
            | Some stripped => Parsed (predicate, skip_whitespace stripped)
            | None => Failed ExpectedParen
            end
          else if (next =? ch "!")%N then
            '(predicate, source) ← parse_expr fuel (skip_whitespace tail) PRECEDENCE_NOT;
            Parsed (Not predicate, source)
          else if is_identifier_char next then
            let in_identifier c := is_identifier_char c || is_vim_operator_char c in
            let identifier := take_while in_identifier source in
            Parsed (Identifier identifier, skip_whitespace (drop (length identifier) source))
          else if is_vim_operator_char next then
            Parsed (Identifier [next], skip_whitespace tail)
          else Failed (UnexpectedCharacter next)
      end
  end.

(** [parse]. *)
Definition parse (fuel : nat) (source : list char) : parsed Predicate :=
  '(predicate, rest) ← parse_expr fuel (skip_whitespace source) 0;
  match rest with
  | next :: _ => Failed (UnexpectedCharacter next)
  | [] => Parsed predicate
  end.

End parser.
