(* ===== verification/PredicateFacts.v ===== *)
(** Facts on context predicates: the parser always ends, what the printer writes the parser reads
    back, and what evaluation, depths and the superset check mean. *)
From Stdlib Require Import NArith Ascii String.
From S2P Require Import Prelude Chars KeyContext Predicate.
Implicit Types self p q : Predicate.
Implicit Types s rest : list char.

(** ** Evaluation *)

Lemma eval_inner_nil p all : eval_inner p [] all = false.
Proof. by destruct p. Qed.

Lemma find_seq_None f n m : find f (seq n m) = None ↔ ∀ i, n ≤ i < n + m → f i = false.
Proof.
  revert n. induction m as [|m IH]; intros n; simpl; [split; [lia|done]|].
  destruct (f n) eqn:Hf.
  - split; [done|]. intros H. rewrite H in Hf by lia. done.
  - rewrite IH. split; intros H i Hi; [|apply H; lia].
    destruct (decide (i = n)) as [->|]; [done|]. apply H. lia.
Qed.
Lemma find_seq_Some f n m i :
  find f (seq n m) = Some i ↔ n ≤ i < n + m ∧ f i = true ∧ ∀ j, n ≤ j < i → f j = false.
Proof.
  revert n. induction m as [|m IH]; intros n; simpl; [split; [done|lia]|].
  destruct (f n) eqn:Hf.
  - split.
    + intros [= ->]. split; [lia|]. split; [done|lia].
    + intros (Hi & Hfi & Hj). f_equal. destruct (decide (i = n)); [done|].
      rewrite Hj in Hf by lia. done.
  - rewrite IH. split; intros (Hi & Hfi & Hj).
    + split; [lia|]. split; [done|]. intros j Hj'.
      destruct (decide (j = n)) as [->|]; [done|]. apply Hj. lia.
    + assert (i ≠ n) by congruence. split; [lia|]. split; [done|]. intros j Hj'. apply Hj. lia.
Qed.

Lemma find_rev_seq_Some f m i :
  find f (rev (seq 0 m)) = Some i ↔ i < m ∧ f i = true ∧ ∀ j, i < j < m → f j = false.
Proof.
  induction m as [|m IH]; [split; [done|lia]|].
  rewrite seq_S, rev_app_distr. simpl. destruct (f m) eqn:Hf.
  - split.
    + intros [= ->]. split; [lia|]. split; [done|lia].
    + intros (Hi & Hfi & Hj). f_equal. destruct (decide (i = m)); [done|].
      rewrite Hj in Hf by lia. done.
  - rewrite IH. split; intros (Hi & Hfi & Hj).
    + split; [lia|]. split; [done|]. intros j Hj'.
      destruct (decide (j = m)) as [->|]; [done|]. apply Hj. lia.
    + assert (i ≠ m) by congruence. split; [lia|]. split; [done|]. intros j Hj'. apply Hj. lia.
Qed.
Lemma find_rev_seq_None f m : find f (rev (seq 0 m)) = None ↔ ∀ i, i < m → f i = false.
Proof.
  induction m as [|m IH]; [split; [lia|done]|].
  rewrite seq_S, rev_app_distr. simpl. destruct (f m) eqn:Hf.
  - split; [done|]. intros H. rewrite H in Hf by lia. done.
  - rewrite IH. split; intros H i Hi; [|apply H; lia].
    destruct (decide (i = m)) as [->|]; [done|]. apply H. lia.
Qed.

Lemma depth_of_Some p contexts d :
  depth_of p contexts = Some d ↔
  1 ≤ d ≤ length contexts ∧ eval_inner p (take d contexts) contexts = true ∧
  ∀ d', d < d' ≤ length contexts → eval_inner p (take d' contexts) contexts = false.
Proof.
  unfold depth_of. rewrite find_rev_seq_Some. split; intros (Hd & He & Hmax).
  - split; [|split; [done|intros; apply Hmax; lia]].
    destruct d; [by rewrite take_0, eval_inner_nil in He|lia].
  - split; [lia|]. split; [done|]. intros; apply Hmax; lia.
Qed.
Lemma depth_of_None p contexts :
  depth_of p contexts = None ↔
  ∀ d, d ≤ length contexts → eval_inner p (take d contexts) contexts = false.
Proof.
  unfold depth_of. rewrite find_rev_seq_None. split; intros H d Hd; apply H; lia.
Qed.

Lemma last_nonempty {A} (l : list A) : l ≠ [] → is_Some (last l).
Proof. intros Hl. destruct (last l) eqn:H; [done|]. by apply last_None in H. Qed.

Lemma eval_not p contexts all :
  contexts ≠ [] → eval_inner (Not p) contexts all = true ↔ depth_of p all = None.
Proof.
  intros [c Hc]%last_nonempty. simpl. rewrite Hc, depth_of_None, forallb_forall. split.
  - intros H [|d] Hd; [by rewrite take_0, eval_inner_nil|].
    apply negb_true_iff. rewrite <-(Nat.add_1_r d). apply H. apply in_seq. lia.
  - intros H i Hi%in_seq. rewrite H; [done|lia].
Qed.

Lemma eval_descendant p q contexts all :
  eval_inner (Descendant p q) contexts all = true ↔
  ∃ i, i + 1 < length contexts ∧ eval_inner p (take (i + 1) contexts) all = true ∧
    (∀ j, j < i → eval_inner p (take (j + 1) contexts) all = false) ∧
    eval_inner q (drop (i + 1) contexts) (drop (i + 1) contexts) = true.
Proof.
  destruct (decide (contexts = [])) as [->|Hne].
  { split; [done|]. intros (i & Hi & _). simpl in Hi. lia. }
  destruct (last_nonempty _ Hne) as [c Hc]. simpl. rewrite Hc.
  destruct (find _ _) as [i|] eqn:Hf.
  - apply find_seq_Some in Hf as (Hi & Hp & Hj). split.
    + intros Hq. exists i. split; [lia|]. split; [done|]. split; [|done]. intros; apply Hj; lia.
    + intros (i' & Hi' & Hp' & Hj' & Hq'). destruct (decide (i < i')).
      { rewrite Hj' in Hp by done. done. }
      destruct (decide (i' < i)); [rewrite Hj in Hp' by lia; done|].
      by replace i with i' by lia.
  - split; [done|]. intros (i & Hi & Hp & _).
    rewrite find_seq_None in Hf. rewrite (Hf i) in Hp by lia. done.
Qed.

(** ** Supersets *)

(** The predicates without negation. *)
Fixpoint positive p : Prop :=
  match p with
  | Identifier _ | Equal _ _ | NotEqual _ _ => True
  | Not _ => False
  | Descendant p q | And p q | Or p q => positive p ∧ positive q
  end.

Lemma last_app_nonempty {A} (l l' : list A) : l' ≠ [] → last (l ++ l') = last l'.
Proof. intros [v Hv]%last_nonempty. rewrite last_app. by rewrite Hv. Qed.

(** A predicate without negation that holds keeps holding under more ancestors. *)
Lemma positive_mono p outer contexts all all' :
  positive p → eval_inner p contexts all = true → eval_inner p (outer ++ contexts) all' = true.
Proof.
  revert outer contexts all all'.
  induction p as [n|l r|l r|p1 IH1 p2 IH2|p IH|p1 IH1 p2 IH2|p1 IH1 p2 IH2];
    intros outer contexts all all' Hp He;
    (destruct (decide (contexts = [])) as [->|Hne]; [by rewrite eval_inner_nil in He|]).
  all: pose proof (last_app_nonempty outer contexts Hne) as Hlast.
  1-3: by simpl in *; rewrite Hlast.
  - destruct Hp as [Hp1 Hp2]. apply eval_descendant in He as (i & Hi & H1 & _ & H2).
    set (f := λ j, eval_inner p1 (take (j + 1) (outer ++ contexts)) all').
    destruct (find f (seq 0 (length outer + i + 1))) as [j|] eqn:Hf.
    + apply find_seq_Some in Hf as (Hj & Hfj & Hmin). apply eval_descendant. exists j.
      rewrite length_app. split; [lia|]. split; [done|]. split; [intros; apply Hmin; lia|].
      assert (drop (j + 1) (outer ++ contexts)
        = (drop (j + 1) (take (length outer + i + 1) (outer ++ contexts))) ++ drop (i + 1) contexts)
        as Hd.
      { rewrite <-(take_drop (length outer + i + 1) (outer ++ contexts)) at 1.
        rewrite drop_app_le by (rewrite length_take, length_app; lia). f_equal.
        rewrite drop_app_ge by lia. f_equal. lia. }
      rewrite Hd. by eapply IH2.
    + exfalso. rewrite find_seq_None in Hf. specialize (Hf (length outer + i) ltac:(lia)).
      unfold f in Hf. rewrite take_app_ge in Hf by lia.
      replace (length outer + i + 1 - length outer) with (i + 1) in Hf by lia.
      rewrite (IH1 outer _ all all') in Hf; done.
  - done.
  - simpl in *. rewrite Hlast. destruct (last contexts); [|done]. destruct Hp.
    apply andb_true_iff in He as [H1 H2]. by rewrite (IH1 _ _ all), (IH2 _ _ all).
  - simpl in *. rewrite Hlast. destruct (last contexts); [|done]. destruct Hp.
    apply orb_true_iff in He as [H1|H2]; apply orb_true_iff; [left|right]; eauto.
Qed.

Lemma is_superset_unfold p q :
  is_superset p q =
    if decide (p = q) then true
    else
      match p with
      | Or l r => is_superset l q || is_superset r q
      | _ =>
          match q with
          | Descendant _ child => is_superset p child
          | And l r => is_superset p l || is_superset p r
          | _ => false
          end
      end.
Proof. by destruct p, q. Qed.

Lemma is_superset_ok p q contexts all :
  positive p → is_superset p q = true →
  eval_inner q contexts all = true → eval_inner p contexts all = true.
Proof.
  revert q contexts all. induction p as [n|l r|l r|p1 IH1 p2 IH2|p IH|p1 IH1 p2 IH2|p1 IH1 p2 IH2].
  all: try (intros q contexts all Hp Hs Hq; rewrite is_superset_unfold in Hs;
    case_decide; [by subst|]; apply orb_true_iff in Hs as [Hs|Hs]; destruct Hp;
    (destruct (decide (contexts = [])) as [->|Hne]; [by rewrite eval_inner_nil in Hq|]);
    destruct (last_nonempty _ Hne) as [c Hc]; simpl; rewrite Hc; apply orb_true_iff; eauto; done).
  all: match goal with |- ∀ q contexts all, positive ?p → _ => set (self := p) end.
  all: intros q; induction q as [| | |q1 _ q2 IHq| |q1 IHq1 q2 IHq2|]; intros contexts all Hp Hs Hq;
    rewrite is_superset_unfold in Hs; (case_decide as Heq; [by rewrite Heq|]); try discriminate Hs.
  all: try (apply eval_descendant in Hq as (i & Hi & _ & _ & Hq);
    rewrite <-(take_drop (i + 1) contexts); eapply positive_mono; [done|]; by eapply IHq).
  all: destruct (decide (contexts = [])) as [->|Hne]; [by rewrite eval_inner_nil in Hq|];
    destruct (last_nonempty _ Hne) as [c Hc]; cbn [eval_inner] in Hq; rewrite Hc in Hq;
    apply andb_true_iff in Hq as [Hq1 Hq2]; apply orb_true_iff in Hs as [Hs|Hs];
    [by apply IHq1|by apply IHq2].
Qed.

(** ** The parser *)

Section parser.
Context {tables : CharTables}.

(** A result that did not run out of fuel, with a rest of at most [n] characters. *)
Definition settled (n : nat) (res : parsed (Predicate * list char)) : Prop :=
  match res with Parsed x => length x.2 ≤ n | Failed _ => True | NoFuel => False end.

Lemma settled_bind n m res (f : Predicate * list char → parsed (Predicate * list char)) :
  settled n res → (∀ p s, length s ≤ n → settled m (f (p, s))) → settled m (res ≫= f).
Proof. destruct res as [[p s]| |]; simpl; auto. Qed.

Lemma settled_le n m res : settled n res → n ≤ m → settled m res.
Proof. destruct res; simpl; [lia|done|done]. Qed.

Lemma skip_whitespace_length s : length (skip_whitespace s) ≤ length s.
Proof. apply drop_while_length. Qed.

Lemma find_operator_length s m op prec c :
  find_operator s m = Some (op, prec, c) → length (drop (length op) s) < length s.
Proof.
  unfold find_operator. intros [Hin Hm]%find_some.
  apply andb_true_iff in Hm as [Hs%starts_with_drop _].
  assert (1 ≤ length op) as Hop.
  { simpl in Hin. repeat destruct Hin as [[= <- _ _]|Hin]; simpl; lia. }
  rewrite Hs at 2. rewrite length_app. lia.
Qed.

Lemma constructor_settled op prec c p q :
  (op, prec, c) ∈ operators → c p q ≠ NoFuel.
Proof.
  unfold operators. rewrite !elem_of_cons, elem_of_nil. intros H.
  repeat destruct H as [[= _ _ ->]|H]; try done; by destruct p, q.
Qed.

Lemma parser_total fuel :
  (∀ s m, 2 * length s + 2 ≤ fuel → settled (length s - 1) (parse_expr fuel s m)) ∧
  (∀ p s m, 2 * length s + 1 ≤ fuel → settled (length s) (parse_loop fuel p s m)) ∧
  (∀ s, 2 * length s + 1 ≤ fuel → settled (length s - 1) (parse_primary fuel s)).
Proof.
  induction fuel as [|fuel (IHe & IHl & IHp)]; [split_and!; intros; lia|]. split_and!.
  - intros s m Hf. cbn [parse_expr]. eapply settled_bind; [apply IHp; lia|].
    intros p r Hr. eapply settled_le; [apply IHl; lia|lia].
  - intros p s m Hf. cbn [parse_loop].
    destruct (find_operator s m) as [[[op prec] c]|] eqn:Hop; [|simpl; lia].
    pose proof (find_operator_length _ _ _ _ _ Hop) as Hl.
    pose proof (skip_whitespace_length (drop (length op) s)) as Hs.
    eapply settled_bind; [apply IHe; lia|]. intros q r Hr.
    unfold find_operator in Hop. apply find_some in Hop as [Hop _].
    pose proof (constructor_settled op prec c p q) as Hc. rewrite list_elem_of_In in Hc.
    specialize (Hc Hop). destruct (c p q) as [p'| |]; simpl; try done.
    eapply settled_le; [apply IHl; lia|lia].
  - intros s Hf. cbn [parse_primary]. destruct s as [|next tail]; [done|]. simpl in Hf.
    pose proof (skip_whitespace_length tail) as Hw.
    destruct (next =? ch "(")%N; [|destruct (next =? ch "!")%N; [|]].
    + eapply settled_bind; [apply IHe; lia|]. intros p r Hr. simpl.
      destruct r as [|c r]; simpl; [done|]. case_decide; simpl; [|done].
      pose proof (skip_whitespace_length r). simpl in Hr. lia.
    + eapply settled_bind; [apply IHe; lia|]. intros p r Hr. simpl. lia.
    + destruct (is_identifier_char next) eqn:Hi; [|destruct (is_vim_operator_char next)]; simpl;
        [|lia|done].
      rewrite Hi. simpl. etrans; [apply skip_whitespace_length|]. rewrite length_drop. lia.
Qed.

(** More fuel does not change a result. *)
Definition below {A} (a b : parsed A) : Prop := a = NoFuel ∨ a = b.

Lemma below_bind {A B} (a b : parsed A) (f g : A → parsed B) :
  below a b → (∀ x, below (f x) (g x)) → below (a ≫= f) (b ≫= g).
Proof. intros [->| ->] Hf; [by left|]. destruct b; [apply Hf|by right|by right]. Qed.

Lemma parser_mono fuel :
  (∀ s m, below (parse_expr fuel s m) (parse_expr (S fuel) s m)) ∧
  (∀ p s m, below (parse_loop fuel p s m) (parse_loop (S fuel) p s m)) ∧
  (∀ s, below (parse_primary fuel s) (parse_primary (S fuel) s)).
Proof.
  induction fuel as [|fuel (IHe & IHl & IHp)]; [split_and!; intros; by left|].
  split_and!.
  - intros s m. change (below (parse_primary fuel s ≫= λ '(p, r), parse_loop fuel p r m)
      (parse_primary (S fuel) s ≫= λ '(p, r), parse_loop (S fuel) p r m)).
    apply below_bind; [apply IHp|]. intros [p r]. apply IHl.
  - intros p s m. remember (S fuel) as fuel' eqn:Hf'. rewrite Hf' at 1. cbn [parse_loop].
    destruct (find_operator s m) as [[[op prec] c]|]; [|by right].
    apply below_bind; [apply IHe|]. intros [q r]. apply below_bind; [by right|]. intros; apply IHl.
  - intros s. remember (S fuel) as fuel' eqn:Hf'. rewrite Hf' at 1. cbn [parse_primary].
    destruct s as [|next tail]; [by right|].
    repeat case_match; try (by right); (apply below_bind; [apply IHe|]); intros; by right.
Qed.

Lemma parse_expr_mono fuel fuel' s m :
  fuel ≤ fuel' → parse_expr fuel s m ≠ NoFuel → parse_expr fuel' s m = parse_expr fuel s m.
Proof.
  induction 1 as [|fuel' _ IH]; intros Hne; [done|].
  destruct (parser_mono fuel') as [He _]. destruct (He s m) as [H|H]; [|rewrite <-H; auto].
  rewrite IH in H by done. done.
Qed.

(** ** Deriving results *)

Definition yields_expr s m res : Prop := ∃ F, ∀ fuel, F ≤ fuel → parse_expr fuel s m = res.
Definition yields_loop p s m res : Prop := ∃ F, ∀ fuel, F ≤ fuel → parse_loop fuel p s m = res.
Definition yields_primary s res : Prop := ∃ F, ∀ fuel, F ≤ fuel → parse_primary fuel s = res.

(** Enough fuel for two computations and one more step. *)
Ltac more_fuel F fuel Hf := exists F; intros [|fuel] Hf; [lia|].

Lemma expr_rule s m p rest res :
  yields_primary s (Parsed (p, rest)) → yields_loop p rest m res → yields_expr s m res.
Proof.
  intros [F1 H1] [F2 H2]. more_fuel (S (F1 + F2)) fuel Hf. cbn [parse_expr].
  rewrite H1 by lia. simpl. apply H2. lia.
Qed.
Lemma loop_done p s m : find_operator s m = None → yields_loop p s m (Parsed (p, s)).
Proof. intros Hn. more_fuel 1 fuel Hf. cbn [parse_loop]. by rewrite Hn. Qed.
Lemma loop_rule p s m op prec c q rest p' res :
  find_operator s m = Some (op, prec, c) →
  yields_expr (skip_whitespace (drop (length op) s)) (prec + 1) (Parsed (q, rest)) →
  c p q = Parsed p' → yields_loop p' rest m res → yields_loop p s m res.
Proof.
  intros Hop [F1 H1] Hc [F2 H2]. more_fuel (S (F1 + F2)) fuel Hf. cbn [parse_loop].
  rewrite Hop. rewrite H1 by lia. simpl. rewrite Hc. simpl. apply H2. lia.
Qed.
Lemma paren_rule s p rest :
  yields_expr (skip_whitespace s) 0 (Parsed (p, ch ")" :: rest)) →
  yields_primary (ch "(" :: s) (Parsed (p, skip_whitespace rest)).
Proof.
  intros [F1 H1]. more_fuel (S F1) fuel Hf. cbn [parse_primary].
  rewrite N.eqb_refl, H1 by lia. simpl. done.
Qed.
Lemma not_rule s p rest :
  yields_expr (skip_whitespace s) PRECEDENCE_NOT (Parsed (p, rest)) →
  yields_primary (ch "!" :: s) (Parsed (Not p, rest)).
Proof.
  intros [F1 H1]. more_fuel (S F1) fuel Hf. cbn [parse_primary].
  assert ((ch "!" =? ch "(")%N = false) as -> by done. rewrite N.eqb_refl, H1 by lia. done.
Qed.

(** ** Printing *)

Context {laws : CharLaws}.


(** What the parser reads as one identifier. *)
Definition in_identifier (c : char) : bool := is_identifier_char c || is_vim_operator_char c.
Definition name_ok (s : list char) : Prop :=
  (∃ c s', s = c :: s' ∧ is_identifier_char c = true ∧ Forall (λ c, in_identifier c = true) s') ∨
  (∃ c, s = [c] ∧ is_identifier_char c = false ∧ is_vim_operator_char c = true).

(** The characters that cannot start an operand: the parser tells them apart from names. *)
Lemma special_char c :
  c ∈ str "()!&|=" → is_identifier_char c = false ∧ is_vim_operator_char c = false ∧
    is_whitespace c = false.
Proof.
  intros Hc. assert (is_alphanumeric c = false ∧ is_whitespace c = false) as [Ha Hw].
  { apply punctuation_classes. cbn [str] in Hc. rewrite !elem_of_cons, elem_of_nil in Hc.
    repeat destruct Hc as [->|Hc]; try done; solve_char. }
  unfold is_identifier_char. rewrite Ha. split; [|split; [|done]].
  - cbn [str] in Hc. rewrite !elem_of_cons, elem_of_nil in Hc.
    by repeat destruct Hc as [->|Hc].
  - cbn [str] in Hc. rewrite !elem_of_cons, elem_of_nil in Hc.
    by repeat destruct Hc as [->|Hc].
Qed.

Lemma vim_not_whitespace c : is_vim_operator_char c = true → is_whitespace c = false.
Proof.
  unfold is_vim_operator_char. rewrite !orb_true_iff, !N.eqb_eq.
  intros [[[[->| ->]| ->]| ->]| ->]; apply punctuation_classes; solve_char.
Qed.
Lemma space_chars : in_identifier (ch " ") = false ∧ is_whitespace (ch " ") = true.
Proof.
  split; [|apply space_is_whitespace]. unfold in_identifier, is_identifier_char.
  destruct (is_alphanumeric (ch " ")) eqn:Ha; [|done].
  apply alphanumeric_not_whitespace in Ha. by rewrite space_is_whitespace in Ha.
Qed.

Lemma name_head s : name_ok s → ∃ c s', s = c :: s' ∧ in_identifier c = true.
Proof.
  unfold in_identifier.
  intros [(c & s' & -> & Hc & _)|(c & -> & _ & Hc)]; eexists _, _; (split; [done|]); rewrite Hc; [done|].
  apply orb_true_r.
Qed.
Lemma in_identifier_special c : in_identifier c = true → c ∉ str "()!&|=".
Proof.
  intros Hc Hs. destruct (special_char c Hs) as (H1 & H2 & _). unfold in_identifier in Hc.
  by rewrite H1, H2 in Hc.
Qed.
Lemma in_identifier_not_whitespace c : in_identifier c = true → is_whitespace c = false.
Proof.
  unfold in_identifier, is_identifier_char. rewrite !orb_true_iff, !N.eqb_eq.
  intros [[[Hc| ->]| ->]|Hc]; [by apply alphanumeric_not_whitespace| | |by apply vim_not_whitespace];
    apply punctuation_classes; solve_char.
Qed.

(** The texts that can follow an operand. *)
Definition follows (rest : list char) : Prop :=
  match rest with c :: _ => c = ch " " ∨ c = ch ")" | [] => True end.
Lemma follows_stops rest : follows rest → stops in_identifier rest.
Proof.
  destruct rest as [|c rest]; [done|]. simpl. intros [->| ->]; [apply space_chars|].
  destruct (special_char (ch ")")) as (H1 & H2 & _); [solve_char|].
  unfold in_identifier. by rewrite H1, H2.
Qed.

(** A name is read whole. *)
Lemma name_rule n rest :
  name_ok n → follows rest → yields_primary (n ++ rest) (Parsed (Identifier n, skip_whitespace rest)).
Proof.
  intros Hn Hr. destruct (name_head n Hn) as (c & s' & -> & Hin).
  pose proof (in_identifier_special c Hin) as Hsp.
  assert ((c =? ch "(")%N = false) as Hc1.
  { apply N.eqb_neq. intros ->. apply Hsp. solve_char. }
  assert ((c =? ch "!")%N = false) as Hc2.
  { apply N.eqb_neq. intros ->. apply Hsp. solve_char. }
  exists 1; intros [|fuel] Hf; [lia|]. cbn [parse_primary app]. rewrite Hc1, Hc2.
  destruct Hn as [(c' & s'' & [= <- <-] & Hc & Hs)|(c' & [= <- ->] & Hc & Hv)]; rewrite Hc.
  - fold in_identifier. rewrite <-drop_while_drop.
    change (c :: s' ++ rest) with ((c :: s') ++ rest).
    pose proof (follows_stops rest Hr) as Hst.
    assert (Forall (λ c, in_identifier c = true) (c :: s')) as Hall by by constructor.
    change (λ c0, is_identifier_char c0 || is_vim_operator_char c0) with in_identifier.
    by rewrite (take_while_app _ _ _ Hall Hst), (drop_while_app _ _ _ Hall Hst).
  - by rewrite Hv.
Qed.

(** The operators and the texts without one. *)
Lemma find_operator_mono s m m' :
  find_operator s m = None → m ≤ m' → find_operator s m' = None.
Proof.
  unfold find_operator. intros Hn Hm.
  destruct (find (λ '(operator, precedence, _), starts_with operator s && (m' <=? precedence))
    operators) as [[[op prec] c]|] eqn:Hf; [|done].
  apply find_some in Hf as [Hin [Hs Hle]%andb_true_iff].
  pose proof (find_none _ _ Hn _ Hin) as Hnone. simpl in Hnone.
  rewrite Hs in Hnone. simpl in Hnone. apply Nat.leb_le in Hle. apply Nat.leb_gt in Hnone. lia.
Qed.

Lemma find_operator_max s m : 5 ≤ m → find_operator s m = None.
Proof.
  intros Hm. apply (find_operator_mono s 5); [|done]. unfold find_operator. cbn [find operators].
  by rewrite !andb_false_r.
Qed.
Lemma find_operator_paren rest m : find_operator (ch ")" :: rest) m = None.
Proof. reflexivity. Qed.
Lemma find_operator_and rest m :
  find_operator (str "&& " ++ rest) m
    = if m <=? PRECEDENCE_AND then Some (str "&&", PRECEDENCE_AND, new_and) else None.
Proof. by destruct m as [|[|[|[|m]]]]. Qed.
Lemma find_operator_or rest m :
  find_operator (str "|| " ++ rest) m
    = if m <=? PRECEDENCE_OR then Some (str "||", PRECEDENCE_OR, new_or) else None.
Proof. by destruct m as [|[|[|m]]]. Qed.
Lemma find_operator_child rest m :
  find_operator (str "> " ++ rest) m
    = if m <=? PRECEDENCE_CHILD then Some (str ">", PRECEDENCE_CHILD, new_child) else None.
Proof. by destruct m as [|[|m]]. Qed.
Lemma find_operator_eq rest m :
  find_operator (str "== " ++ rest) m
    = if m <=? PRECEDENCE_EQ then Some (str "==", PRECEDENCE_EQ, new_eq) else None.
Proof. by destruct m as [|[|[|[|[|m]]]]]. Qed.
Lemma find_operator_neq rest m :
  find_operator (str "!= " ++ rest) m
    = if m <=? PRECEDENCE_EQ then Some (str "!=", PRECEDENCE_EQ, new_neq) else None.
Proof. by destruct m as [|[|[|[|[|m]]]]]. Qed.

(** ** Predicates that the printer renders faithfully *)

Definition is_descendant p : bool := match p with Descendant _ _ => true | _ => false end.
Definition is_and p : bool := match p with And _ _ => true | _ => false end.
Definition is_or p : bool := match p with Or _ _ => true | _ => false end.

(** The names can be read back, chains of one operator nest to the left, as the parser builds them,
    and a descendant is not an operand of [&&] or [||], nor the child of another one. *)
Fixpoint canonical p : Prop :=
  match p with
  | Identifier n => name_ok n
  | Equal l r | NotEqual l r => name_ok l ∧ name_ok r
  | Descendant p q => canonical p ∧ canonical q ∧ is_descendant q = false
  | Not p => canonical p
  | And p q =>
      canonical p ∧ canonical q ∧ is_descendant p = false ∧ is_descendant q = false ∧ is_and q = false
  | Or p q =>
      canonical p ∧ canonical q ∧ is_descendant p = false ∧ is_descendant q = false ∧ is_or q = false
  end.

Definition level p : nat :=
  match p with
  | Identifier _ | Not _ => 5
  | Equal _ _ | NotEqual _ _ => 4
  | And _ _ => 3
  | Or _ _ => 2
  | Descendant _ _ => 1
  end.

(** An operand of a chain, with its parentheses, and its level. *)
Definition wrapped (paren : bool) p : list char :=
  if paren then ch "(" :: fmt p ++ str ")" else fmt p.
Definition wrapped_level (paren : bool) p : nat := if paren then 5 else level p.

Lemma join_snoc sep (l : list (list char)) s :
  l ≠ [] → join sep (l ++ [s]) = join sep l ++ sep ++ s.
Proof.
  induction l as [|s1 l IH]; intros Hl; [done|]. destruct l as [|s2 l]; [done|].
  change (join sep ((s1 :: s2 :: l) ++ [s])) with (s1 ++ sep ++ join sep ((s2 :: l) ++ [s])).
  change (join sep (s1 :: s2 :: l)) with (s1 ++ sep ++ join sep (s2 :: l)).
  rewrite IH by done. by rewrite <-!app_assoc.
Qed.
Lemma joined_nonempty show op p : fmt_joined_inner show op p ≠ [].
Proof.
  induction p as [n|l r|l r|p1 IH1 p2 IH2|p IH|p1 IH1 p2 IH2|p1 IH1 p2 IH2]; destruct op; simpl;
    try done; intros [? _]%app_eq_nil; done.
Qed.

Lemma fmt_and p q :
  is_and q = false → fmt (And p q) = wrapped (is_or p) p ++ str " && " ++ wrapped (is_or q) q.
Proof.
  intros Hq. cbn [fmt].
  assert (fmt_joined_inner fmt LogicalAnd q = [wrapped (is_or q) q]) as -> by by destruct q.
  rewrite join_snoc by apply joined_nonempty. f_equal. by destruct p.
Qed.
Lemma fmt_or p q :
  is_or q = false → fmt (Or p q) = wrapped (is_and p) p ++ str " || " ++ wrapped (is_and q) q.
Proof.
  intros Hq. cbn [fmt].
  assert (fmt_joined_inner fmt LogicalOr q = [wrapped (is_and q) q]) as -> by by destruct q.
  rewrite join_snoc by apply joined_nonempty. f_equal. by destruct p.
Qed.

(** A printed operand starts with a character that is not whitespace. *)
Definition starts_operand s : Prop := ∃ c s', s = c :: s' ∧ is_whitespace c = false.
Lemma starts_operand_app s s' : starts_operand s → starts_operand (s ++ s').
Proof. intros (c & s1 & -> & Hc). by eexists _, _. Qed.
Lemma starts_operand_skip s : starts_operand s → skip_whitespace s = s.
Proof. intros (c & s' & -> & Hc). by apply drop_while_id. Qed.
Lemma starts_special c s : c ∈ str "()!&|=" → starts_operand (c :: s).
Proof. intros Hc. eexists _, _. split; [done|]. by apply special_char. Qed.

Lemma fmt_starts_operand p : canonical p → starts_operand (fmt p).
Proof.
  assert (∀ n, name_ok n → starts_operand n) as Hname.
  { intros n (c & s' & -> & Hc)%name_head. eexists _, _. split; [done|].
    by apply in_identifier_not_whitespace. }
  induction p as [n|l r|l r|p1 IH1 p2 IH2|p IH|p1 IH1 p2 IH2|p1 IH1 p2 IH2]; intros Hp.
  - by apply Hname.
  - by apply starts_operand_app, Hname, Hp.
  - by apply starts_operand_app, Hname, Hp.
  - by apply starts_operand_app, IH1, Hp.
  - simpl. destruct p; apply starts_special; solve_char.
  - destruct Hp as (Hp1 & _ & _ & _ & Ha). rewrite (fmt_and _ _ Ha). apply starts_operand_app.
    unfold wrapped. destruct (is_or p1); [apply starts_special; solve_char|by apply IH1].
  - destruct Hp as (Hp1 & _ & _ & _ & Ha). rewrite (fmt_or _ _ Ha). apply starts_operand_app.
    unfold wrapped. destruct (is_and p1); [apply starts_special; solve_char|by apply IH1].
Qed.

(** Skipping the space before an operator and the one after it. *)
Lemma skip_space s : skip_whitespace (ch " " :: s) = skip_whitespace s.
Proof. unfold skip_whitespace. simpl. by rewrite space_is_whitespace. Qed.
Lemma skip_operator op s :
  op = str "&&" ∨ op = str "||" ∨ op = str "==" ∨ op = str "!=" ∨ op = str ">" →
  skip_whitespace (ch " " :: op ++ s) = op ++ s.
Proof.
  intros Hop. rewrite skip_space. apply starts_operand_skip.
  destruct Hop as [->|[->|[->|[->| ->]]]]; cbn [str app];
    try (apply starts_special; solve [solve_char]).
  eexists _, _. split; [done|]. by apply vim_not_whitespace.
Qed.

(** [text] is read as [p], up to an operator that does not bind tighter than [lvl]. *)
Definition reading (text : list char) (lvl : nat) p : Prop := ∀ m rest res,
  m ≤ lvl → follows rest → find_operator (skip_whitespace rest) (lvl + 1) = None →
  yields_loop p (skip_whitespace rest) m res → yields_expr (text ++ rest) m res.

Lemma reading_name n : name_ok n → reading n 5 (Identifier n).
Proof.
  intros Hn m rest res Hm Hr Hf Hl. eapply expr_rule; [by apply name_rule|done].
Qed.

Lemma reading_paren text lvl p :
  starts_operand text → reading text lvl p → reading (ch "(" :: text ++ str ")") 5 p.
Proof.
  intros Hs Ht m rest res Hm Hr Hf Hl. eapply expr_rule; [|done].
  rewrite <-app_comm_cons, <-app_assoc. apply paren_rule.
  rewrite starts_operand_skip by by apply starts_operand_app.
  assert (skip_whitespace (str ")" ++ rest) = ch ")" :: rest) as Hsk.
  { apply starts_operand_skip. apply starts_special. solve_char. }
  apply Ht; [lia|by right| |]; rewrite Hsk; [done|]. by apply loop_done.
Qed.

Lemma reading_not text lvl p :
  5 ≤ lvl → starts_operand text → reading text lvl p → reading (ch "!" :: text) 5 (Not p).
Proof.
  intros Hlvl Hs Ht m rest res Hm Hr Hf Hl. eapply expr_rule; [|done].
  rewrite <-app_comm_cons. apply not_rule.
  rewrite starts_operand_skip by by apply starts_operand_app.
  apply Ht; [unfold PRECEDENCE_NOT; lia|done|by apply find_operator_max; lia|].
  apply loop_done. by apply find_operator_max.
Qed.

Lemma reading_binary op prec c (textl textr : list char) (ll lr : nat) pl pr p :
  (op = str "&&" ∨ op = str "||" ∨ op = str "==" ∨ op = str "!=" ∨ op = str ">") →
  (∀ s m, find_operator (op ++ ch " " :: s) m
     = if m <=? prec then Some (op, prec, c) else None) →
  prec ≤ ll → prec + 1 ≤ lr → starts_operand textr → c pl pr = Parsed p →
  reading textl ll pl → reading textr lr pr →
  reading (textl ++ ch " " :: op ++ ch " " :: textr) prec p.
Proof.
  intros Hop Hfind Hll Hlr Hstart Hc Hl Hr m rest res Hm Hrest Hf Hloop.
  assert ((ch " " :: op ++ ch " " :: textr) ++ rest = ch " " :: op ++ ch " " :: (textr ++ rest))
    as Htext by by simpl; rewrite <-app_assoc.
  rewrite <-app_assoc, Htext. apply Hl; [lia|by left| |].
  - rewrite skip_operator, Hfind by done.
    destruct (Nat.leb_spec (ll + 1) prec); [lia|done].
  - rewrite skip_operator by done.
    eapply (loop_rule _ _ _ op prec c pr); [|rewrite drop_app_length|exact Hc|exact Hloop].
    + rewrite Hfind. by destruct (Nat.leb_spec m prec); [|lia].
    + rewrite skip_space, starts_operand_skip by by apply starts_operand_app.
      apply Hr; [done|done| |by apply loop_done].
      eapply find_operator_mono; [exact Hf|lia].
Qed.

Lemma reading_wrapped paren p :
  canonical p → reading (fmt p) (level p) p →
  reading (wrapped paren p) (wrapped_level paren p) p.
Proof.
  intros Hp Hr. destruct paren; [|done]. by eapply reading_paren; [apply fmt_starts_operand|].
Qed.
Lemma wrapped_starts paren p : canonical p → starts_operand (wrapped paren p).
Proof.
  intros Hp. destruct paren; [apply starts_special; solve_char|by apply fmt_starts_operand].
Qed.

(** The printed text of a canonical predicate is read as the predicate. *)
Lemma reading_fmt p : canonical p → reading (fmt p) (level p) p.
Proof.
  assert (∀ n, name_ok n → starts_operand n) as Hname.
  { intros n Hn. exact (fmt_starts_operand (Identifier n) Hn). }
  induction p as [n|l r|l r|p1 IH1 p2 IH2|p IH|p1 IH1 p2 IH2|p1 IH1 p2 IH2]; intros Hp.
  - by apply reading_name.
  - destruct Hp as [Hl Hr].
    apply (reading_binary (str "==") 4 new_eq l r 5 5 (Identifier l) (Identifier r));
      [tauto|intros s m; apply find_operator_eq|lia|lia|by apply Hname|done|by apply reading_name..].
  - destruct Hp as [Hl Hr].
    apply (reading_binary (str "!=") 4 new_neq l r 5 5 (Identifier l) (Identifier r));
      [tauto|intros s m; apply find_operator_neq|lia|lia|by apply Hname|done|by apply reading_name..].
  - destruct Hp as (Hp1 & Hp2 & Hd).
    apply (reading_binary (str ">") 1 new_child (fmt p1) (fmt p2) (level p1) (level p2) p1 p2);
      [tauto|intros s m; apply find_operator_child| | |by apply fmt_starts_operand|done|by apply IH1|by apply IH2].
    + destruct p1; simpl; lia.
    + destruct p2; simpl in *; lia || done.
  - simpl in Hp. specialize (IH Hp). cbn [fmt level].
    assert (reading (ch "!" :: ch "(" :: fmt p ++ str ")") 5 (Not p)) as Hparen.
    { apply (reading_not _ 5); [done|apply starts_special; solve_char|].
      apply (reading_paren _ (level p)); [by apply fmt_starts_operand|done]. }
    destruct p; try exact Hparen. by apply (reading_not _ 5); auto.
  - destruct Hp as (Hp1 & Hp2 & Hd1 & Hd2 & Ha). rewrite (fmt_and _ _ Ha).
    apply (reading_binary (str "&&") 3 new_and (wrapped (is_or p1) p1) (wrapped (is_or p2) p2)
      (wrapped_level (is_or p1) p1) (wrapped_level (is_or p2) p2) p1 p2);
      [tauto|intros s m; apply find_operator_and| | |by apply wrapped_starts|done|auto using reading_wrapped..].
    + destruct p1; simpl in *; lia || done.
    + destruct p2; simpl in *; lia || done.
  - destruct Hp as (Hp1 & Hp2 & Hd1 & Hd2 & Ha). rewrite (fmt_or _ _ Ha).
    apply (reading_binary (str "||") 2 new_or (wrapped (is_and p1) p1) (wrapped (is_and p2) p2)
      (wrapped_level (is_and p1) p1) (wrapped_level (is_and p2) p2) p1 p2);
      [tauto|intros s m; apply find_operator_or| | |by apply wrapped_starts|done|auto using reading_wrapped..].
    + destruct p1; simpl in *; lia || done.
    + destruct p2; simpl in *; lia || done.
Qed.

(** ** Properties *)

(** The predicate parser always ends, with the predicate or an error, within two calls per
    character of the source and three more; more fuel does not change its answer. *)
Theorem parse_predicate_total (source : list char) (fuel : nat) :
  2 * length source + 2 ≤ fuel →
  parse fuel source ≠ NoFuel ∧ parse fuel source = parse (2 * length source + 2) source.
Proof.
  intros Hf. pose proof (skip_whitespace_length source) as Hl. unfold parse.
  destruct (parser_total (2 * length source + 2)) as (He & _ & _).
  specialize (He (skip_whitespace source) 0 ltac:(lia)).
  rewrite (parse_expr_mono (2 * length source + 2) fuel); [|lia|by intros Hn; rewrite Hn in He].
  split; [|done]. destruct (parse_expr _ _ _) as [[p [|c r]]| |]; done.
Qed.

(** C7: Printing a predicate and parsing the text gives the predicate back, for every predicate
    whose names can be read, whose chains of one operator nest to the left, and in which a
    descendant is neither an operand of [&&] or [||] nor the child of a descendant: precedences,
    parentheses and spaces agree between the printer and the parser. *)
Theorem predicate_roundtrip p :
  canonical p → parse (2 * length (fmt p) + 2) (fmt p) = Parsed p.
Proof.
  intros Hp. assert (yields_expr (fmt p) 0 (Parsed (p, []))) as [F HF].
  { rewrite <-(app_nil_r (fmt p)). apply (reading_fmt p Hp); [lia|done|done|].
    by apply loop_done. }
  unfold parse. rewrite starts_operand_skip by by apply fmt_starts_operand.
  destruct (parser_total (2 * length (fmt p) + 2)) as (He & _ & _).
  specialize (He (fmt p) 0 ltac:(lia)).
  rewrite <-(parse_expr_mono (2 * length (fmt p) + 2) (F + (2 * length (fmt p) + 2)));
    [|lia|by intros Hn; rewrite Hn in He].
  by rewrite HF by lia.
Qed.

End parser.

(** What a predicate with a negation or a descendant means, and its depth: [depth_of] is the
    deepest prefix of the path at which the predicate holds, a negation holds anywhere on a path
    exactly when its predicate holds at no depth of the path, and a descendant holds when its
    child holds on the path below the outermost place where its parent holds. *)
Theorem predicate_semantics p q contexts all d :
  (depth_of p contexts = Some d ↔
     1 ≤ d ≤ length contexts ∧ eval_inner p (take d contexts) contexts = true ∧
     ∀ d', d < d' ≤ length contexts → eval_inner p (take d' contexts) contexts = false) ∧
  (contexts ≠ [] → eval_inner (Not p) contexts all = true ↔ depth_of p all = None) ∧
  (eval_inner (Descendant p q) contexts all = true ↔
     ∃ i, i + 1 < length contexts ∧ eval_inner p (take (i + 1) contexts) all = true ∧
       (∀ j, j < i → eval_inner p (take (j + 1) contexts) all = false) ∧
       eval q (drop (i + 1) contexts) = true).
Proof.
  split; [apply depth_of_Some|]. split; [apply eval_not|apply eval_descendant].
Qed.

(** The superset check is sound for predicates without negation: when it accepts, every path
    that the other predicate matches is matched, whatever the other predicate is. *)
Theorem is_superset_sound p q contexts :
  positive p → is_superset p q = true → eval q contexts = true → eval p contexts = true.
Proof. intros. by eapply is_superset_ok. Qed.

(** ** Witnesses and examples *)

Import Chars.Ascii.

Notation id s := (Identifier (str s)).
Notation context s := [mkEntry (str s) None].

(** With a negation the check accepts predicates that are not supersets. *)
Example is_superset_unsound :
  let p := Not (id "x") in
  let q := Descendant (id "b") p in
  let path := [[mkEntry (str "b") None; mkEntry (str "x") None]; context "c"] in
  is_superset p q = true ∧ eval q path = true ∧ eval p path = false.
Proof. split_and!; vm_compute; reflexivity. Qed.

(** A descendant below [&&] loses its parentheses, and the text means something else. *)
Example fmt_drops_parentheses :
  let p := And (Descendant (id "a") (id "b")) (Not (id "x")) in
  let path := [[mkEntry (str "a") None; mkEntry (str "x") None]; context "b"] in
  fmt p = str "a > b && !x" ∧
  parse 99 (str "(a > b) && !x") = Parsed p ∧
  parse 99 (fmt p) = Parsed (Descendant (id "a") (And (id "b") (Not (id "x")))) ∧
  eval p path = false ∧ eval (Descendant (id "a") (And (id "b") (Not (id "x")))) path = true.
Proof. split_and!; vm_compute; reflexivity. Qed.

Definition demo_predicate : Predicate :=
  Descendant (Or (id "a") (And (Equal (str "m") (str "n")) (Not (Or (id "b") (id "c"))))) (id "d").

Lemma demo_canonical : canonical demo_predicate.
Proof.
  unfold demo_predicate. simpl. repeat split; left; eexists _, _; (split; [reflexivity|]); by split.
Defined.

Lemma parse_predicate_total_witness :
  parse 50 (str "a > (b") ≠ NoFuel ∧ parse 50 (str "a > (b") = parse 14 (str "a > (b").
Proof. apply (parse_predicate_total (str "a > (b") 50). vm_compute. lia. Defined.

Lemma predicate_roundtrip_witness :
  fmt demo_predicate = str "a || (m == n && !(b || c)) > d" ∧
  parse 62 (str "a || (m == n && !(b || c)) > d") = Parsed demo_predicate.
Proof. split; [vm_compute; reflexivity|]. exact (predicate_roundtrip _ demo_canonical). Defined.

Lemma predicate_semantics_witness :
  [context "c"] ≠ [] ∧ eval_inner (Not (id "x")) [context "c"] [context "c"] = true.
Proof.
  assert ([context "c"] ≠ []) as Hne by discriminate. split; [exact Hne|].
  apply (predicate_semantics (id "x") (id "x") [context "c"] [context "c"] 0); [exact Hne|].
  vm_compute. reflexivity.
Defined.

Lemma is_superset_sound_witness :
  eval (Descendant (id "w") (id "e")) [context "w"; context "e"] = true ∧
  eval (id "e") [context "w"; context "e"] = true.
Proof.
  split; [vm_compute; reflexivity|].
  apply (is_superset_sound (id "e") (Descendant (id "w") (id "e")));
    [exact I|vm_compute; reflexivity..].
Defined.
