(* ===== verification/Keystroke.v ===== *)
(** Keystrokes of [crates/gpui/src/platform/keystroke.rs]: the keys and modifiers that the
    platform reports, what a typed keystroke matches, and the syntax keymaps write them in. *)
From Stdlib Require Import NArith Ascii String.
From S2P Require Import Prelude Chars.

(** ** Text *)

(** [char::len_utf8], [str::len] and the ASCII case functions. *)
Definition len_utf8 (c : char) : nat :=
  if decide (c < 128)%N then 1 else if decide (c < 2048)%N then 2
  else if decide (c < 65536)%N then 3 else 4.
Definition byte_len (s : list char) : nat := foldr (λ c n, len_utf8 c + n) 0 s.
Definition is_ascii_uppercase (c : char) : bool := ((65 <=? c) && (c <=? 90))%N.
Definition is_ascii_lowercase (c : char) : bool := ((97 <=? c) && (c <=? 122))%N.
Definition to_ascii_lowercase (c : char) : char := if is_ascii_uppercase c then (c + 32)%N else c.
Definition to_ascii_uppercase (c : char) : char := if is_ascii_lowercase c then (c - 32)%N else c.
Definition make_ascii_lowercase (s : list char) : list char := to_ascii_lowercase <$> s.
Definition eq_ignore_ascii_case (s s' : list char) : bool :=
  bool_decide (make_ascii_lowercase s = make_ascii_lowercase s').

(** [source.split(c)]: the parts between the occurrences of [c], one more than these. *)
Fixpoint split_char (c : char) (s : list char) : list (list char) :=
  match s with
  | [] => [[]]
  | c' :: s =>
      if decide (c' = c) then [] :: split_char c s
      else match split_char c s with part :: parts => (c' :: part) :: parts | [] => [[c']] end
  end.
(** [source.ends_with(c)]. *)
Definition ends_with (c : char) (s : list char) : bool := bool_decide (last s = Some c).

(** The operating system the program is compiled for ([target_os]); [OtherOs] stands for the ones
    that no [cfg] of the code names, such as the web. *)
Inductive Os := MacOs | Linux | Windows | OtherOs.
#[export] Instance Os_eq_dec : EqDecision Os.
Proof. solve_decision. Defined.
Class Target := target_os : Os.

(** [str::to_uppercase], a table of the Unicode database. *)
Class CaseTable := to_uppercase : list char → list char.

(** ** Modifiers *)

Module Modifiers.
(** [struct Modifiers]. *)
Record t : Type :=
  mk { control : bool; alt : bool; shift : bool; platform : bool; function : bool }.
#[global] Instance eq_dec : EqDecision t.
Proof. solve_decision. Defined.
Implicit Types self other : t.

Definition none : t := mk false false false false false.
Definition modified self : bool :=
  control self || alt self || shift self || platform self || function self.
Definition number_of_modifiers self : nat :=
  Nat.b2n (control self) + Nat.b2n (alt self) + Nat.b2n (shift self) + Nat.b2n (platform self)
    + Nat.b2n (function self).

(** [bitor], [bitxor] and [bitand]. *)
Definition bitor self other : t :=
  mk (control self || control other) (alt self || alt other) (shift self || shift other)
     (platform self || platform other) (function self || function other).
Definition bitxor self other : t :=
  mk (xorb (control self) (control other)) (xorb (alt self) (alt other))
     (xorb (shift self) (shift other)) (xorb (platform self) (platform other))
     (xorb (function self) (function other)).
Definition bitand self other : t :=
  mk (control self && control other) (alt self && alt other) (shift self && shift other)
     (platform self && platform other) (function self && function other).
Definition is_subset_of self other : bool := bool_decide (bitand other self = self).

(** Assignments to one field. *)
Definition set_control self (b : bool) : t := mk b (alt self) (shift self) (platform self) (function self).
Definition set_alt self (b : bool) : t := mk (control self) b (shift self) (platform self) (function self).
Definition set_shift self (b : bool) : t := mk (control self) (alt self) b (platform self) (function self).
Definition set_platform self (b : bool) : t := mk (control self) (alt self) (shift self) b (function self).
Definition set_function self (b : bool) : t := mk (control self) (alt self) (shift self) (platform self) b.

Definition command : t := set_platform none true.
Definition windows : t := set_platform none true.
Definition super_key : t := set_platform none true.
Definition command_shift : t := set_platform (set_shift none true) true.
Definition control_shift : t := set_control (set_shift none true) true.

Section target.
Context `{Target}.
(** [secondary] and [secondary_key]. *)
Definition secondary self : bool :=
  match target_os with MacOs => platform self | _ => control self end.
Definition secondary_key : t :=
  match target_os with MacOs => set_platform none true | _ => set_control none true end.
End target.
End Modifiers.

(** ** Keystrokes *)

Module Keystroke.
(** [struct Keystroke]. *)
Record t : Type :=
  mk { modifiers : Modifiers.t; key : list char; key_char : option (list char) }.
#[global] Instance eq_dec : EqDecision t.
Proof. solve_decision. Defined.
End Keystroke.

Module KeybindingKeystroke.
(** [struct KeybindingKeystroke]; [display] holds the fields [display_modifiers] and [display_key],
    which exist on Windows only. *)
Record t : Type := mk { inner : Keystroke.t; display : option (Modifiers.t * list char) }.
#[global] Instance eq_dec : EqDecision t.
Proof. solve_decision. Defined.
Implicit Types self : t.

Definition from_keystroke `{Target} (keystroke : Keystroke.t) : t :=
  mk keystroke
    match target_os with
    | Windows => Some (Keystroke.modifiers keystroke, Keystroke.key keystroke)
    | _ => None
    end.

(** The accessors [modifiers] and [key]. *)
Definition modifiers self : Modifiers.t :=
  match display self with Some (m, _) => m | None => Keystroke.modifiers (inner self) end.
Definition key self : list char :=
  match display self with Some (_, k) => k | None => Keystroke.key (inner self) end.

Definition set_modifiers self (m : Modifiers.t) : t :=
  mk (Keystroke.mk m (Keystroke.key (inner self)) (Keystroke.key_char (inner self)))
    ((λ d, (m, snd d)) <$> display self).
Definition set_key self (k : list char) : t :=
  mk (Keystroke.mk (Keystroke.modifiers (inner self)) k (Keystroke.key_char (inner self)))
    ((λ d, (fst d, k)) <$> display self).
Definition remove_key_char self : t :=
  mk (Keystroke.mk (Keystroke.modifiers (inner self)) (Keystroke.key (inner self)) None)
    (display self).
End KeybindingKeystroke.

(** [is_printable_key]. *)
Definition unprintable_keys : list (list char) := str <$>
  ["f1"; "f2"; "f3"; "f4"; "f5"; "f6"; "f7"; "f8"; "f9"; "f10"; "f11"; "f12"; "f13"; "f14"; "f15";
   "f16"; "f17"; "f18"; "f19"; "f20"; "f21"; "f22"; "f23"; "f24"; "f25"; "f26"; "f27"; "f28"; "f29";
   "f30"; "f31"; "f32"; "f33"; "f34"; "f35"; "backspace"; "delete"; "left"; "right"; "up"; "down";
   "pageup"; "pagedown"; "insert"; "home"; "end"; "back"; "forward"; "escape"]%string.
Definition is_printable_key (key : list char) : bool := bool_decide (key ∉ unprintable_keys).

(** [struct InvalidKeystrokeError]. *)
Record InvalidKeystrokeError : Type := mkInvalid { keystroke : list char }.

Section target.
Context {os : Target}.
Implicit Types self : Keystroke.t.
Implicit Types m : Modifiers.t.

(** [should_match]: [self] was typed, [target] is in the keymap. *)
Definition should_match self (target : KeybindingKeystroke.t) : bool :=
  let inner := KeybindingKeystroke.inner target in
  let typed := match Keystroke.key_char self with
               | Some c => if decide (c ≠ Keystroke.key self) then Some c else None
               | None => None
               end in
  let ime_modifiers :=
    match target_os with
    | Windows => Modifiers.none
    | _ => Modifiers.mk (Modifiers.control (Keystroke.modifiers self)) false false
             (Modifiers.platform (Keystroke.modifiers self)) false
    end in
  match typed with
  | Some c => bool_decide (Keystroke.key inner = c)
                && bool_decide (Keystroke.modifiers inner = ime_modifiers)
  | None => false
  end
  || bool_decide (Keystroke.modifiers inner = Keystroke.modifiers self)
       && bool_decide (Keystroke.key inner = Keystroke.key self).

(** One modifier of the syntax: what it sets, if [component] names one. *)
Definition parse_modifier (component : list char) m : option Modifiers.t :=
  if eq_ignore_ascii_case component (str "ctrl") then Some (Modifiers.set_control m true)
  else if eq_ignore_ascii_case component (str "alt") then Some (Modifiers.set_alt m true)
  else if eq_ignore_ascii_case component (str "shift") then Some (Modifiers.set_shift m true)
  else if eq_ignore_ascii_case component (str "fn") then Some (Modifiers.set_function m true)
  else if eq_ignore_ascii_case component (str "secondary") then
    Some (match target_os with
          | MacOs => Modifiers.set_platform m true
          | _ => Modifiers.set_control m true
          end)
  else if eq_ignore_ascii_case component (str "cmd")
       || eq_ignore_ascii_case component (str "super")
       || eq_ignore_ascii_case component (str "win") then Some (Modifiers.set_platform m true)
  else None.

(** The loop of [parse] over the components of [source]. *)
Fixpoint parse_components (source : list char) (components : list (list char)) m
    (key key_char : option (list char))
    : result (Modifiers.t * option (list char) * option (list char)) InvalidKeystrokeError :=
  match components with
  | [] => ResOk (m, key, key_char)
  | component :: rest =>
      match parse_modifier component m with
      | Some m => parse_components source rest m key key_char
      | None =>
          match rest with
          | next :: rest' =>
              if bool_decide (next = []) && ends_with (ch "-") source
              then ResOk (m, Some (str "-"), key_char)
              else if bool_decide (1 < byte_len next) && bool_decide (head next = Some (ch ">"))
              then parse_components source rest' m (Some component) (Some (drop 1 next))
              else ResErr (mkInvalid source)
          | [] =>
              let m := if bool_decide (byte_len component = 1)
                            && match component with c :: _ => is_ascii_uppercase c | [] => false end
                       then Modifiers.set_shift m true else m in
              parse_components source rest m (Some (make_ascii_lowercase component)) key_char
          end
      end
  end.

(** The modifier that stands for itself when there is no key. *)
Definition take_modifier m : Modifiers.t * option (list char) :=
  if Modifiers.shift m then (Modifiers.set_shift m false, Some (str "shift"))
  else if Modifiers.control m then (Modifiers.set_control m false, Some (str "control"))
  else if Modifiers.alt m then (Modifiers.set_alt m false, Some (str "alt"))
  else if Modifiers.platform m then (Modifiers.set_platform m false, Some (str "platform"))
  else if Modifiers.function m then (Modifiers.set_function m false, Some (str "function"))
  else (m, None).

(** [Keystroke::parse]. *)
Definition parse (source : list char) : result Keystroke.t InvalidKeystrokeError :=
  and_then (parse_components source (split_char (ch "-") source) Modifiers.none None None)
    (λ '(m, key, key_char),
       let '(m, key) := match key with Some k => (m, Some k) | None => take_modifier m end in
       match key with
       | Some key => ResOk (Keystroke.mk m key key_char)
       | None => ResErr (mkInvalid source)
       end).

(** The free function [unparse] and the methods that call it. *)
Definition platform_prefix : list char :=
  match target_os with
  | MacOs => str "cmd-" | Linux => str "super-" | Windows => str "win-" | OtherOs => []
  end.
Definition unparse_parts m (key : list char) : list char :=
  (if Modifiers.function m then str "fn-" else [])
  ++ (if Modifiers.control m then str "ctrl-" else [])
  ++ (if Modifiers.alt m then str "alt-" else [])
  ++ (if Modifiers.platform m then platform_prefix else [])
  ++ (if Modifiers.shift m then str "shift-" else [])
  ++ key.
Definition unparse self : list char := unparse_parts (Keystroke.modifiers self) (Keystroke.key self).
Definition unparse_binding (k : KeybindingKeystroke.t) : list char :=
  unparse_parts (KeybindingKeystroke.modifiers k) (KeybindingKeystroke.key k).

(** [is_ime_in_progress] and [with_simulated_ime]. *)
Definition is_ime_in_progress self : bool :=
  let m := Keystroke.modifiers self in
  bool_decide (Keystroke.key_char self = None)
  && (is_printable_key (Keystroke.key self) || bool_decide (Keystroke.key self = []))
  && negb (Modifiers.platform m || Modifiers.control m || Modifiers.function m || Modifiers.alt m).
Definition with_simulated_ime `{CaseTable} self : Keystroke.t :=
  let m := Keystroke.modifiers self in
  let key := Keystroke.key self in
  if bool_decide (Keystroke.key_char self = None) && negb (Modifiers.platform m)
     && negb (Modifiers.control m) && negb (Modifiers.function m) && negb (Modifiers.alt m)
  then Keystroke.mk m key
    (if decide (key = str "space") then Some (str " ")
     else if decide (key = str "tab") then Some [9%N]
     else if decide (key = str "enter") then Some [10%N]
     else if negb (is_printable_key key) || bool_decide (key = []) then None
     else Some (if Modifiers.shift m then to_uppercase key else key))
  else self.

(** [display_modifiers] and [display_key], on a formatter that collects what is written. *)
Definition display_modifiers m : list char :=
  (if Modifiers.control m then
     match target_os with MacOs => str "^" | _ => str "ctrl-" end else [])
  ++ (if Modifiers.alt m then
        match target_os with MacOs => [8997%N] | _ => str "alt-" end else [])
  ++ (if Modifiers.platform m then
        match target_os with
        | MacOs => [8984%N] | Linux => [10070%N] | Windows => [8862%N] | OtherOs => []
        end else [])
  ++ (if Modifiers.shift m then
        match target_os with MacOs => [8679%N] | _ => str "shift-" end else []).
Definition mac_glyphs : list (list char * char) :=
  [(str "backspace", 9003); (str "up", 8593); (str "down", 8595); (str "left", 8592);
   (str "right", 8594); (str "tab", 8677); (str "escape", 9099); (str "shift", 8679);
   (str "control", 8963); (str "alt", 8997); (str "platform", 8984)]%N.
Definition display_key (key : list char) : list char :=
  match (match target_os with MacOs => list_find (λ g, g.1 = key) mac_glyphs | _ => None end) with
  | Some (_, (_, glyph)) => [glyph]
  | None =>
      if decide (byte_len key = 1)
      then match key with c :: _ => [to_ascii_uppercase c] | [] => [] end
      else key
  end.
(** [impl Display] of both types. *)
Definition display self : list char :=
  display_modifiers (Keystroke.modifiers self) ++ display_key (Keystroke.key self).
Definition display_binding (k : KeybindingKeystroke.t) : list char :=
  display_modifiers (KeybindingKeystroke.modifiers k) ++ display_key (KeybindingKeystroke.key k).

End target.
