(* ===== verification/KeystrokeFacts.v ===== *)
(** The syntax of keystrokes: which keystrokes survive printing and parsing, and what the parser
    can return. *)
From Stdlib Require Import NArith Ascii String.
From S2P Require Import Prelude Chars Keystroke.

(** A decidable statement about literals. *)
Ltac decide_closed := apply (bool_decide_unpack _); vm_compute; done.

(** ** Splitting *)

Section split.
Implicit Types s : list char.

Lemma split_char_cons c s : ∃ part parts, split_char c s = part :: parts.
Proof.
  induction s as [|c' s (part & parts & IH)]; simpl; [eauto|].
  destruct (decide (c' = c)); [eauto|]. rewrite IH. eauto.
Qed.

Lemma split_char_none c s : c ∉ s → split_char c s = [s].
Proof.
  induction s as [|c' s IH]; [done|]. intros [Hc Hs]%not_elem_of_cons. simpl.
  rewrite decide_False by done. by rewrite IH.
Qed.

Lemma split_char_app c s s' : c ∉ s → split_char c (s ++ c :: s') = s :: split_char c s'.
Proof.
  induction s as [|c' s IH]; simpl; [by rewrite decide_True|].
  intros [Hc Hs]%not_elem_of_cons. rewrite decide_False by done. by rewrite IH.
Qed.

Lemma split_char_parts c s : Forall (λ part, c ∉ part) (split_char c s).
Proof.
  induction s as [|c' s IH]; simpl; [repeat constructor; set_solver|].
  destruct (decide (c' = c)); [constructor; [set_solver|done]|].
  destruct (split_char c s) as [|part parts]; [repeat constructor; set_solver|].
  apply Forall_cons in IH as [??]. constructor; [set_solver|done].
Qed.

Lemma is_ascii_uppercase_spec c : is_ascii_uppercase c = true ↔ (65 ≤ c ≤ 90)%N.
Proof. unfold is_ascii_uppercase. rewrite andb_true_iff, !N.leb_le. done. Qed.

Lemma to_ascii_lowercase_not_upper c : is_ascii_uppercase (to_ascii_lowercase c) = false.
Proof.
  unfold to_ascii_lowercase. destruct (is_ascii_uppercase c) eqn:Hc; [|done].
  apply not_true_iff_false. rewrite is_ascii_uppercase_spec in *. lia.
Qed.

Lemma to_ascii_lowercase_id c : to_ascii_lowercase c = c ↔ is_ascii_uppercase c = false.
Proof.
  split; [intros <-; apply to_ascii_lowercase_not_upper|].
  unfold to_ascii_lowercase. by intros ->.
Qed.

Lemma make_ascii_lowercase_idemp s :
  make_ascii_lowercase (make_ascii_lowercase s) = make_ascii_lowercase s.
Proof.
  unfold make_ascii_lowercase. rewrite <-list_fmap_compose. apply list_fmap_ext. intros i c _. simpl.
  apply to_ascii_lowercase_id, to_ascii_lowercase_not_upper.
Qed.

Lemma make_ascii_lowercase_dash s : ch "-" ∉ s → ch "-" ∉ make_ascii_lowercase s.
Proof.
  unfold make_ascii_lowercase. intros Hs (c & Heq & Hc)%list_elem_of_fmap.
  unfold to_ascii_lowercase in Heq. destruct (is_ascii_uppercase c) eqn:Hu; [|by subst].
  rewrite is_ascii_uppercase_spec in Hu. change (ch "-") with 45%N in *. lia.
Qed.
End split.

(** ** Modifiers *)

Section modifiers.
Implicit Types m : Modifiers.t.

(** [is_subset_of] is the order of a lattice, and the number of modifiers grows with it. *)
Lemma is_subset_of_spec m1 m2 :
  Modifiers.is_subset_of m1 m2 = true ↔
    (Modifiers.control m1 → Modifiers.control m2) ∧ (Modifiers.alt m1 → Modifiers.alt m2) ∧
    (Modifiers.shift m1 → Modifiers.shift m2) ∧ (Modifiers.platform m1 → Modifiers.platform m2) ∧
    (Modifiers.function m1 → Modifiers.function m2).
Proof.
  unfold Modifiers.is_subset_of. rewrite bool_decide_eq_true.
  destruct m1 as [c1 a1 s1 p1 f1], m2 as [c2 a2 s2 p2 f2]. unfold Modifiers.bitand. simpl.
  split.
  - intros [= Hc Ha Hs Hp Hf]. rewrite !Is_true_true.
    rewrite <-Hc, <-Ha, <-Hs, <-Hp, <-Hf, !andb_true_iff. tauto.
  - rewrite !Is_true_true. intros (Hc & Ha & Hs & Hp & Hf).
    assert (Hand : ∀ b b' : bool, (b' = true → b = true) → b && b' = b')
      by (intros [] []; simpl; intros H; [done..|by rewrite H|done]).
    by rewrite !Hand.
Qed.

Lemma is_subset_of_bitor m1 m2 : Modifiers.is_subset_of m1 (Modifiers.bitor m1 m2) = true.
Proof. apply is_subset_of_spec. destruct m1, m2; simpl. rewrite !Is_true_true, !orb_true_iff. tauto. Qed.

Lemma is_subset_of_count m1 m2 :
  Modifiers.is_subset_of m1 m2 = true →
  Modifiers.number_of_modifiers m1 ≤ Modifiers.number_of_modifiers m2 ≤ 5.
Proof.
  rewrite is_subset_of_spec. destruct m1 as [c1 a1 s1 p1 f1], m2 as [c2 a2 s2 p2 f2].
  unfold Modifiers.number_of_modifiers. simpl. rewrite !Is_true_true.
  intros (Hc & Ha & Hs & Hp & Hf).
  assert (Hle : ∀ b1 b2, (b1 = true → b2 = true) → Nat.b2n b1 ≤ Nat.b2n b2 ≤ 1)
    by (intros [] []; simpl; intros H; try (by discriminate H); lia).
  pose proof (Hle _ _ Hc). pose proof (Hle _ _ Ha). pose proof (Hle _ _ Hs).
  pose proof (Hle _ _ Hp). pose proof (Hle _ _ Hf). lia.
Qed.
End modifiers.

(** ** The components of a keystroke *)

Section parse.
Context {os : Target}.
Implicit Types m : Modifiers.t.
Implicit Types k : Keystroke.t.
Implicit Types s source component : list char.

(** The names of the modifiers in the syntax. *)
Definition modifier_names : list (list char) :=
  str <$> ["ctrl"; "alt"; "shift"; "fn"; "secondary"; "cmd"; "super"; "win"]%string.

Lemma parse_modifier_None component m :
  parse_modifier component m = None ↔ make_ascii_lowercase component ∉ modifier_names.
Proof.
  unfold parse_modifier, eq_ignore_ascii_case.
  repeat match goal with
  | |- context [bool_decide (make_ascii_lowercase component = ?n)] =>
      let n' := eval vm_compute in n in change n with n';
      destruct (bool_decide_reflect (make_ascii_lowercase component = n')) as [Heq|?];
      [rewrite Heq; simpl; split; [done|intros Hn; exfalso; apply Hn; compute; solve_char]|]
  end.
  simpl. split; [intros _|done].
  let l := eval vm_compute in modifier_names in change modifier_names with l.
  rewrite !not_elem_of_cons. repeat split; try done. set_solver.
Qed.

(** A key that the syntax can name as such. *)
Definition plain_key (key : list char) : Prop :=
  make_ascii_lowercase key = key ∧ (ch "-" ∉ key) ∧ (key ∉ modifier_names).

(** The keystrokes that the syntax can express: a plain key, a dash, or one of two modifiers that
    stand for themselves. *)
Definition expressible k : Prop :=
  let m := Keystroke.modifiers k in
  Keystroke.key_char k = None ∧
  (Keystroke.key k = str "-" ∨ plain_key (Keystroke.key k) ∨
   Keystroke.key k = str "shift" ∧ Modifiers.shift m = false ∨
   Keystroke.key k = str "alt" ∧
     Modifiers.alt m = false ∧ Modifiers.shift m = false ∧ Modifiers.control m = false).

(** The modifiers that [unparse] writes. *)
Definition written m : Modifiers.t :=
  if decide (target_os = OtherOs) then Modifiers.set_platform m false else m.

Lemma written_id m :
  written m = m ↔ (target_os = OtherOs → Modifiers.platform m = false).
Proof.
  unfold written. case_decide as Hos; [|naive_solver].
  destruct m as [c a sh p f]; unfold Modifiers.set_platform; simpl. split.
  - by intros [= <-].
  - intros Hp. by rewrite Hp.
Qed.

Definition prefix_names m : list (list char) :=
  (if Modifiers.function m then [str "fn"] else [])
  ++ (if Modifiers.control m then [str "ctrl"] else [])
  ++ (if Modifiers.alt m then [str "alt"] else [])
  ++ (if Modifiers.platform m
      then match target_os with
           | MacOs => [str "cmd"] | Linux => [str "super"] | Windows => [str "win"] | OtherOs => []
           end
      else [])
  ++ (if Modifiers.shift m then [str "shift"] else []).

Lemma split_unparse m key :
  split_char (ch "-") (unparse_parts m key) = prefix_names m ++ split_char (ch "-") key.
Proof.
  unfold unparse_parts, prefix_names, platform_prefix.
  destruct m as [[] [] [] [] []], target_os; reflexivity.
Qed.

Lemma parse_prefix m source rest :
  parse_components source (prefix_names m ++ rest) Modifiers.none None None
    = parse_components source rest (written m) None None.
Proof.
  unfold prefix_names, written.
  destruct m as [[] [] [] [] []]; destruct target_os eqn:Hos; reflexivity.
Qed.

(** What the last component of a keystroke without [->] stands for. *)
Definition finish source (res : result (Modifiers.t * option (list char) * option (list char))
    InvalidKeystrokeError) : result Keystroke.t InvalidKeystrokeError :=
  and_then res (λ '(m, key, key_char),
    let '(m, key) := match key with Some k => (m, Some k) | None => take_modifier m end in
    match key with
    | Some key => ResOk (Keystroke.mk m key key_char)
    | None => ResErr (mkInvalid source)
    end).

Lemma parse_unparse_parts m key :
  ch "-" ∉ key →
  parse (unparse_parts m key)
    = finish (unparse_parts m key)
        (parse_components (unparse_parts m key) [key] (written m) None None).
Proof.
  intros Hkey. unfold parse. rewrite split_unparse, split_char_none by done.
  by rewrite parse_prefix.
Qed.

Lemma parse_components_dash source m :
  ends_with (ch "-") source = true →
  parse_components source [[]; []] m None None = ResOk (m, Some (str "-"), None).
Proof. intros Hend. simpl. by rewrite Hend. Qed.

Lemma parse_unparse_dash m :
  parse (unparse_parts m (str "-")) = ResOk (Keystroke.mk (written m) (str "-") None).
Proof.
  unfold parse. rewrite split_unparse. change (split_char (ch "-") (str "-")) with [[] : list char; []].
  rewrite parse_prefix, parse_components_dash; [done|].
  unfold ends_with, unparse_parts. rewrite bool_decide_eq_true.
  change (str "-") with [ch "-"]. by rewrite !app_assoc, last_snoc.
Qed.

(** Upper-case letters in a key are not preserved. *)
Lemma lowercase_upper component m :
  make_ascii_lowercase component = component →
  (if bool_decide (byte_len component = 1)
        && match component with c :: _ => is_ascii_uppercase c | [] => false end
   then Modifiers.set_shift m true else m) = m.
Proof.
  intros Hl. destruct component as [|c component]; [done|]. injection Hl as Hc _.
  apply to_ascii_lowercase_id in Hc. by rewrite Hc, andb_false_r.
Qed.

Lemma take_modifier_special m m' key m0 :
  take_modifier m' = (m, Some key) → parse_modifier key m0 = Some m' →
  (key = str "shift" ∧ m' = Modifiers.set_shift m0 true ∧ m = Modifiers.set_shift m' false ∨
   key = str "alt" ∧ m' = Modifiers.set_alt m0 true ∧ m = Modifiers.set_alt m' false ∧
     Modifiers.shift m' = false ∧ Modifiers.control m' = false).
Proof.
  unfold take_modifier. intros Ht Hp. repeat case_match; simplify_eq/=;
    try discriminate Hp; injection Hp as <-; first [by left|right; repeat split; done].
Qed.

Lemma unparse_parse_plain m key kc :
  ch "-" ∉ key →
  parse (unparse_parts m key) = ResOk (Keystroke.mk m key kc) →
  written m = m ∧ expressible (Keystroke.mk m key kc).
Proof.
  intros Hdash. rewrite parse_unparse_parts by done. simpl.
  destruct (parse_modifier key (written m)) as [m'|] eqn:Hp; simpl.
  - destruct (take_modifier m') as [m0 [key0|]] eqn:Ht; [|done]. intros [= -> -> <-].
    destruct (take_modifier_special _ _ _ _ Ht Hp) as [(-> & -> & Hm)|(-> & -> & Hm & Hs & Hc)].
    + assert (Hsh : Modifiers.shift m = false) by (by rewrite Hm).
      split; [|split; [done|by right; right; left]].
      apply written_id. intros Hos. rewrite Hm. unfold written. by rewrite decide_True.
    + assert (Hal : Modifiers.alt m = false) by (by rewrite Hm).
      split; [|split; [done|right; right; right; simpl; repeat split; try done; by rewrite Hm]].
      apply written_id. intros Hos. rewrite Hm. unfold written. by rewrite decide_True.
  - intros [= Hm Hkey <-]. rewrite parse_modifier_None, Hkey in Hp.
    rewrite lowercase_upper in Hm by done.
    split; [done|]. split; [done|]. right; left. done.
Qed.

Lemma expressible_roundtrip k :
  expressible k → written (Keystroke.modifiers k) = Keystroke.modifiers k →
  parse (unparse k) = ResOk k.
Proof.
  destruct k as [m key kc]. intros [Hkc Hk] Hw. simpl in *. subst kc. unfold unparse; simpl.
  destruct Hk as [->|[(Hl & Hdash & Hn)|[(-> & Hs)|(-> & Ha & Hs & Hc)]]].
  - by rewrite parse_unparse_dash, Hw.
  - rewrite parse_unparse_parts by done. simpl.
    rewrite (proj2 (parse_modifier_None key (written m))) by (by rewrite Hl).
    rewrite lowercase_upper, Hw, Hl by done. done.
  - rewrite parse_unparse_parts by (by decide_closed). rewrite Hw.
    destruct m; simpl in *; by subst.
  - rewrite parse_unparse_parts by (by decide_closed). rewrite Hw.
    destruct m; simpl in *; by subst.
Qed.

(** ** What the parser returns *)

Lemma parse_components_char source components m key kc m' key' kc' :
  parse_components source components m key (Some kc) = ResOk (m', key', kc') → kc' ≠ None.
Proof.
  revert m key kc. induction components as [components IH] using (induction_ltof1 _ length).
  unfold ltof in IH. intros m key kc. destruct components as [|component rest]; simpl in *.
  { by intros [= _ _ <-]. }
  destruct (parse_modifier component m) as [m1|]; [apply IH; lia|].
  destruct rest as [|next rest]; [by intros [= _ _ <-]|].
  destruct (_ && ends_with _ _); [by intros [= _ _ <-]|].
  destruct (_ && _); [|done]. apply IH; simpl; lia.
Qed.

Lemma parse_components_key source components m key m' key' kc kc' :
  Forall (λ c, ch "-" ∉ c) components →
  (∀ s, key = Some s → ch "-" ∉ s) →
  parse_components source components m key kc = ResOk (m', Some key', kc') →
  (ch "-" ∉ key') ∨ key' = str "-".
Proof.
  revert m key kc. induction components as [components IH] using (induction_ltof1 _ length).
  unfold ltof in IH. intros m key kc Hcs Hkey.
  destruct components as [|component rest]; simpl in *.
  { intros [= _ Hk _]. left. by apply Hkey. }
  apply Forall_cons in Hcs as [Hc Hcs].
  destruct (parse_modifier component m) as [m1|]; [by apply IH; [lia|..]|].
  destruct rest as [|next rest].
  { intros [= _ <- _]. left. by apply make_ascii_lowercase_dash. }
  destruct (_ && ends_with _ _); [intros [= _ <- _]; by right|].
  destruct (_ && _); [|done].
  apply IH; [simpl; lia|by apply Forall_cons in Hcs as [??]|].
  by intros s [= <-].
Qed.

Lemma parse_components_plain source components m m' key' :
  Forall (λ c, ch "-" ∉ c) components →
  parse_components source components m None None = ResOk (m', Some key', None) →
  key' = str "-" ∨ plain_key key'.
Proof.
  revert m. induction components as [|component rest IH]; intros m Hcs; simpl; [done|].
  apply Forall_cons in Hcs as [Hc Hcs].
  destruct (parse_modifier component m) as [m1|] eqn:Hp; [by apply IH|].
  destruct rest as [|next rest].
  - intros [= _ <-]. right. apply parse_modifier_None in Hp.
    split; [apply make_ascii_lowercase_idemp|]. split; [by apply make_ascii_lowercase_dash|done].
  - destruct (_ && ends_with _ _); [intros [= _ <-]; by left|].
    destruct (_ && _); [|done]. by intros Hkc%parse_components_char.
Qed.

Lemma take_modifier_expressible m m' key :
  take_modifier m = (m', Some key) → expressible (Keystroke.mk m' key None).
Proof.
  unfold take_modifier, expressible. intros H. split; [done|]. simpl. right.
  repeat case_match; simplify_eq/=;
    first [by right; left|by right; right; repeat split|left; split; [done|split; decide_closed]].
Qed.

Lemma parse_expressible source k :
  parse source = ResOk k → Keystroke.key_char k = None → expressible k.
Proof.
  unfold parse. pose proof (split_char_parts (ch "-") source) as Hparts.
  destruct (parse_components _ _ _ _ _) as [[[m key] kc]|e] eqn:Hpc; simpl; [|done].
  destruct key as [key|].
  - intros [= <-]; simpl. intros ->. split; [done|].
    destruct (parse_components_plain _ _ _ _ _ Hparts Hpc); auto.
  - destruct (take_modifier m) as [m' [key|]] eqn:Ht; [|done].
    intros [= <-]; simpl. intros ->. by eapply take_modifier_expressible.
Qed.

Lemma parse_key_shape source k :
  parse source = ResOk k → (ch "-" ∉ Keystroke.key k) ∨ Keystroke.key k = str "-".
Proof.
  unfold parse. pose proof (split_char_parts (ch "-") source) as Hparts.
  destruct (parse_components _ _ _ _ _) as [[[m key] kc]|e] eqn:Hpc; simpl; [|done].
  destruct key as [key|].
  - intros [= <-]; simpl. by refine (parse_components_key _ _ _ _ _ _ _ _ Hparts _ Hpc).
  - destruct (take_modifier m) as [m' [key|]] eqn:Ht; [|done].
    intros [= <-]; simpl. left. unfold take_modifier in Ht.
    repeat case_match; simplify_eq/=; decide_closed.
Qed.

Lemma parse_components_error source components m key kc e :
  parse_components source components m key kc = ResErr e → e = mkInvalid source.
Proof.
  revert m key kc. induction components as [components IH] using (induction_ltof1 _ length).
  unfold ltof in IH. intros m key kc. destruct components as [|component rest]; simpl in *; [done|].
  destruct (parse_modifier component m) as [m1|]; [apply IH; lia|].
  destruct rest as [|next rest]; [done|].
  destruct (_ && ends_with _ _); [done|].
  destruct (_ && _); [apply IH; simpl; lia|]. by intros [= <-].
Qed.

Lemma parse_error source e : parse source = ResErr e → e = mkInvalid source.
Proof.
  unfold parse. destruct (parse_components _ _ _ _ _) as [[[m key] kc]|e'] eqn:Hpc; simpl.
  - repeat case_match; by intros [= <-].
  - intros [= <-]. by eapply parse_components_error.
Qed.
End parse.

(** C33: [Keystroke::unparse] is, as its comment says, a representation of the key that [parse]
    understands, for exactly these keystrokes: ones without a typed character, whose key is a
    dash, a lower-case name without dashes that is not the name of a modifier, or [shift] or [alt]
    standing for themselves; on a platform that the code has no name for its logo key on, the
    platform modifier is lost.  Every keystroke that the parser returns is one of these, unless it
    was given a typed character; every error carries the source. *)
Theorem keystroke_roundtrip `{Target} (k : Keystroke.t) (source : list char) :
  (parse (unparse k) = ResOk k ↔
     expressible k ∧ (target_os = OtherOs → Modifiers.platform (Keystroke.modifiers k) = false)) ∧
  (parse source = ResOk k → Keystroke.key_char k = None → expressible k) ∧
  (∀ e, parse source = ResErr e → e = mkInvalid source).
Proof.
  split; [|split; [apply parse_expressible|apply parse_error]].
  rewrite <-written_id. split; [|intros [??]; by apply expressible_roundtrip].
  intros Hp. destruct k as [m key kc]. destruct (parse_key_shape _ _ Hp) as [Hd|Hd]; simpl in Hd.
  - destruct (unparse_parse_plain _ _ _ Hd Hp). done.
  - subst key. unfold unparse in Hp; simpl in Hp. rewrite parse_unparse_dash in Hp.
    injection Hp as Hm <-. split; [split; [done|by left]|done].
Qed.

Lemma keystroke_roundtrip_witness :
  let os : Target := Linux in
  parse (str "ctrl-Shift-Up") = ResOk (Keystroke.mk Modifiers.control_shift (str "up") None) ∧
  expressible (Keystroke.mk Modifiers.control_shift (str "up") None).
Proof.
  intros os. split; [vm_compute; reflexivity|].
  apply (keystroke_roundtrip (H:=os) _ (str "ctrl-Shift-Up")); vm_compute; reflexivity.
Defined.
