(* ===== verification/Binding.v ===== *)
(** Key bindings of [crates/gpui/src/keymap/binding.rs]: the actions they dispatch, the keystrokes
    they are typed with, and how bindings are read from the text of a keymap. *)
From Stdlib Require Import NArith Ascii String.
From stdpp Require Import countable.
From S2P Require Import Prelude Chars KeyContext Predicate Keystroke.

(** ** Actions ([action.rs]) *)

(** The actions of the application: [type_id], [name] and [partial_eq] of the [Action] trait. *)
Class UserAction (A : Type) := {
  user_type : A → positive;
  user_name : A → list char;
  user_eq : A → A → bool;
}.

(** The derived [partial_eq] compares values of one type only; the actions that are compared are
    equal to themselves. *)
Class UserActionLaws (A : Type) `{UserAction A} : Prop := {
  user_eq_type a b : user_eq a b = true → user_type a = user_type b;
  user_eq_refl a : user_eq a a = true;
}.

(** [dyn Action]: one of the two markers of the framework, or an action of the application. *)
Inductive Action (A : Type) : Type :=
| NoAction
| Unbind (action_name : list char)
| User (a : A).
Arguments NoAction {A}.
Arguments Unbind {A}.
Arguments User {A}.

Inductive TypeId := NoActionType | UnbindType | UserType (p : positive).
#[export] Instance TypeId_eq_dec : EqDecision TypeId.
Proof. solve_decision. Defined.
#[export] Program Instance TypeId_countable : Countable TypeId :=
  inj_countable' (λ t, match t with NoActionType => None | UnbindType => Some None
                       | UserType p => Some (Some p) end)
    (λ o, match o with None => NoActionType | Some None => UnbindType
          | Some (Some p) => UserType p end) _.
Next Obligation. by intros []. Qed.

Section action.
Context `{UserAction A}.
Implicit Types self : Action A.

Definition type_id self : TypeId :=
  match self with
  | NoAction => NoActionType | Unbind _ => UnbindType | User a => UserType (user_type a)
  end.
Definition name self : list char :=
  match self with
  | NoAction => str "zed::NoAction" | Unbind _ => str "zed::Unbind" | User a => user_name a
  end.
Definition partial_eq self (action : Action A) : bool :=
  match self, action with
  | NoAction, NoAction => true
  | Unbind n, Unbind n' => bool_decide (n = n')
  | User a, User a' => user_eq a a'
  | _, _ => false
  end.
Definition is_no_action self : bool := match self with NoAction => true | _ => false end.
Definition is_unbind self : bool := match self with Unbind _ => true | _ => false end.
End action.

(** ** Bindings *)

(** [trait AsKeystroke]. *)
Class AsKeystroke (K : Type) := as_keystroke : K → Keystroke.t.
#[export] Instance keystroke_as_keystroke : AsKeystroke Keystroke.t := λ k, k.
#[export] Instance keybinding_as_keystroke : AsKeystroke KeybindingKeystroke.t :=
  KeybindingKeystroke.inner.

(** [struct KeyBinding]; [KeyBindingMetaIndex] is a [u32]. *)
Record KeyBinding (A : Type) : Type := mkBinding {
  action : Action A;
  keystrokes : list KeybindingKeystroke.t;
  context_predicate : option Predicate;
  meta : option N;
  action_input : option (list char);
}.
Arguments mkBinding {A}.
Arguments action {A}.
Arguments keystrokes {A}.
Arguments context_predicate {A}.
Arguments meta {A}.
Arguments action_input {A}.

Section binding.
Context {A : Type} {os : Target}.
Implicit Types self : KeyBinding A.

(** [with_meta] and [set_meta]. *)
Definition with_meta self (m : N) : KeyBinding A :=
  mkBinding (action self) (keystrokes self) (context_predicate self) (Some m) (action_input self).

(** [match_keystrokes]: whether [typed] is typed with this binding or, with [Some true], starts
    it. *)
Definition match_keystrokes {K} `{AsKeystroke K} self (typed : list K) : option bool :=
  if decide (length (keystrokes self) < length typed) then None
  else if forallb (λ '(target, typed), should_match (as_keystroke typed) target)
            (zip (keystrokes self) typed)
  then Some (bool_decide (length typed < length (keystrokes self)))
  else None.

(** [str::split_whitespace]: the parts between runs of white space. *)
Section load.
Context `{CharTables}.
Fixpoint split_whitespace_from (part s : list char) : list (list char) :=
  match s with
  | [] => match part with [] => [] | _ => [part] end
  | c :: s =>
      if is_whitespace c
      then match part with
           | [] => split_whitespace_from [] s
           | _ => part :: split_whitespace_from [] s
           end
      else split_whitespace_from (part ++ [c]) s
  end.
Definition split_whitespace (s : list char) : list (list char) := split_whitespace_from [] s.

(** [trait PlatformKeyboardMapper], and the mapper that maps nothing. *)
Definition KeyboardMapper : Type := Keystroke.t → bool → KeybindingKeystroke.t.
Definition DummyKeyboardMapper : KeyboardMapper := λ keystroke _,
  KeybindingKeystroke.from_keystroke keystroke.

(** [collect] of the results: the first error, or all values. *)
Fixpoint load_keystrokes (sources : list (list char)) (use_key_equivalents : bool)
    (mapper : KeyboardMapper) : result (list KeybindingKeystroke.t) InvalidKeystrokeError :=
  match sources with
  | [] => ResOk []
  | source :: sources =>
      and_then (parse source) (λ keystroke,
      and_then (load_keystrokes sources use_key_equivalents mapper) (λ rest,
      ResOk (mapper keystroke use_key_equivalents :: rest)))
  end.

(** [KeyBinding::load]. *)
Definition load (source : list char) (act : Action A) (predicate : option Predicate)
    (use_key_equivalents : bool) (input : option (list char)) (mapper : KeyboardMapper)
    : result (KeyBinding A) InvalidKeystrokeError :=
  and_then (load_keystrokes (split_whitespace source) use_key_equivalents mapper)
    (λ ks, ResOk (mkBinding act ks predicate None input)).

(** [KeyBinding::new], which panics when the keystrokes or the context do not parse; [fuel] is for
    the parser of the context. *)
Definition new_binding (fuel : nat) (source : list char) (act : Action A)
    (context : option (list char)) : outcome (KeyBinding A) :=
  predicate ← match context with
              | None => Ok None
              | Some context =>
                  match Predicate.parse fuel context with
                  | Parsed p => Ok (Some p) | Failed _ => Panic | NoFuel => OutOfFuel
                  end
              end;
  match load source act predicate false None DummyKeyboardMapper with
  | ResOk binding => Ok binding
  | ResErr _ => Panic
  end.
End load.
End binding.

(** An application whose actions are numbers, which satisfies the laws. *)
Module NumberedActions.
#[export] Instance numbered : UserAction N :=
  {| user_type n := N.succ_pos n; user_name n := [n]; user_eq := N.eqb |}.
#[export] Instance numbered_laws : UserActionLaws N.
Proof. split; simpl; [by intros a b ->%N.eqb_eq|apply N.eqb_refl]. Qed.
End NumberedActions.
