(* ===== verification/Keymap.v ===== *)
(** The keymap of [crates/gpui/src/keymap.rs]: the bindings in the order they were added, the index
    of the bindings of an action, and which bindings an input dispatches. *)
From Stdlib Require Import NArith Ascii String.
From stdpp Require Import gmap.
From S2P Require Import Prelude Chars KeyContext Predicate Keystroke Binding.

(** [iter().enumerate()]. *)
Definition enumerate {X} (l : list X) : list (nat * X) := zip (seq 0 (length l)) l.

(** The values that [filter_map] keeps. *)
Definition somes {X} (l : list (option X)) : list X := omap (M:=list) id l.

Module Keymap.
(** [struct Keymap]; a [BindingIndex] and a [KeymapVersion] are the numbers they hold. *)
Record t (A : Type) : Type := mk {
  bindings : list (KeyBinding A);
  binding_indices_by_action_id : gmap TypeId (list nat);
  disabled_binding_indices : list nat;
  version : nat;
}.
Arguments mk {A}.
Arguments bindings {A}.
Arguments binding_indices_by_action_id {A}.
Arguments disabled_binding_indices {A}.
Arguments version {A}.
End Keymap.

Section keymap.
Context {A : Type} `{UserAction A} {os : Target}.
Implicit Types self : Keymap.t A.
Implicit Types binding disabled_binding : KeyBinding A.

Definition disabled_binding_matches_context disabled_binding binding : bool :=
  match context_predicate disabled_binding, context_predicate binding with
  | None, _ => true
  | Some _, None => false
  | Some disabled_predicate, Some predicate => is_superset disabled_predicate predicate
  end.

Definition binding_is_unbound disabled_binding binding : bool :=
  bool_decide (keystrokes disabled_binding = keystrokes binding)
  && match action disabled_binding with
     | Unbind action_name => bool_decide (action_name = name (action binding))
     | _ => false
     end.

(** ** Changes *)

Definition default_keymap : Keymap.t A := Keymap.mk [] ∅ [] 0.

(** The loop body of [add_bindings]. *)
Definition add_binding self binding : Keymap.t A :=
  let ix := length (Keymap.bindings self) in
  let action_id := type_id (action binding) in
  if is_no_action (action binding) || is_unbind (action binding)
  then Keymap.mk (Keymap.bindings self ++ [binding]) (Keymap.binding_indices_by_action_id self)
         (Keymap.disabled_binding_indices self ++ [ix]) (Keymap.version self)
  else Keymap.mk (Keymap.bindings self ++ [binding])
         (partial_alter (λ ixs, Some (default [] ixs ++ [ix])) action_id
            (Keymap.binding_indices_by_action_id self))
         (Keymap.disabled_binding_indices self) (Keymap.version self).

(** The version moves. *)
Definition bump self : Keymap.t A :=
  Keymap.mk (Keymap.bindings self) (Keymap.binding_indices_by_action_id self)
    (Keymap.disabled_binding_indices self) (Keymap.version self + 1).

Definition add_bindings self (bindings : list (KeyBinding A)) : Keymap.t A :=
  bump (foldl add_binding self bindings).
Definition keymap_new (bindings : list (KeyBinding A)) : Keymap.t A :=
  add_bindings default_keymap bindings.
Definition keymap_clear self : Keymap.t A := bump (Keymap.mk [] ∅ [] (Keymap.version self)).

(** ** The bindings of an action *)

(** The loop over the disabled bindings in [bindings_for_action]. *)
Fixpoint is_disabled self (disabled : list nat) (ix : nat) binding : outcome bool :=
  match disabled with
  | [] => Ok false
  | disabled_ix :: disabled =>
      if decide (ix < disabled_ix) then
        disabled_binding ← index (Keymap.bindings self) disabled_ix;
        if decide (keystrokes disabled_binding ≠ keystrokes binding)
        then is_disabled self disabled ix binding
        else if is_no_action (action disabled_binding) then
          if disabled_binding_matches_context disabled_binding binding then Ok true
          else is_disabled self disabled ix binding
        else if is_unbind (action disabled_binding)
                && disabled_binding_matches_context disabled_binding binding
                && binding_is_unbound disabled_binding binding
        then Ok true
        else is_disabled self disabled ix binding
      else is_disabled self disabled ix binding
  end.

(** The closure of [bindings_for_action] and the list that the iterator yields. *)
Definition binding_for_action self (act : Action A) (ix : nat) : outcome (option (KeyBinding A)) :=
  binding ← index (Keymap.bindings self) ix;
  if negb (partial_eq (action binding) act) then Ok None
  else
    disabled ← is_disabled self (Keymap.disabled_binding_indices self) ix binding;
    Ok (if disabled : bool then None else Some binding).
Definition bindings_for_action self (act : Action A) : outcome (list (KeyBinding A)) :=
  found ← mapM_ok (binding_for_action self act)
            (default [] (Keymap.binding_indices_by_action_id self !! type_id act));
  Ok (somes found).

(** ** The bindings of an input *)

Section input.
Context {K : Type} `{AsKeystroke K}.
Implicit Types input : list K.

Definition all_bindings_for_input self input : list (KeyBinding A) :=
  filter (λ binding, match_keystrokes binding input = Some false) (rev (Keymap.bindings self)).

Definition binding_enabled binding (contexts : list KeyContext.t) : option nat :=
  match context_predicate binding with
  | Some predicate => depth_of predicate contexts
  | None => Some (length contexts)
  end.

(** A match: its depth, its index and the binding. *)
Definition Match : Type := nat * nat * KeyBinding A.

(** The comparison of [matched_bindings.sort_by]: deeper first, then later first. *)
Definition match_le (a b : Match) : Prop :=
  b.1.1 < a.1.1 ∨ a.1.1 = b.1.1 ∧ b.1.2 ≤ a.1.2.
#[export] Instance match_le_dec : RelDecision match_le.
Proof. intros a b. unfold match_le. apply _. Defined.

(** The first loop of [resolve_bindings_for_input]. *)
Definition classify input context_stack (entry : nat * KeyBinding A) : option (Match * bool) :=
  depth ← binding_enabled entry.2 context_stack;
  pending ← match_keystrokes entry.2 input;
  Some ((depth, entry.1, entry.2), pending).

(** The state of the second loop. *)
Record Resolution : Type := mkResolution {
  res_bindings : list (nat * KeyBinding A);
  first_binding_index : option nat;
  unbound_bindings : list (KeyBinding A);
  no_action_meta : option N;
}.
Definition meta_or_user binding : N := default 0%N (meta binding).

Definition resolve_match (st : Resolution) (m : Match) : Resolution :=
  let '(_, ix, binding) := m in
  let meta := meta_or_user binding in
  if is_no_action (action binding) then
    mkResolution (res_bindings st) (first_binding_index st) (unbound_bindings st)
      (Some (match no_action_meta st with Some existing => N.min existing meta | None => meta end))
  else if match no_action_meta st with Some m => (m <=? meta)%N | None => false end then st
  else if is_unbind (action binding) then
    mkResolution (res_bindings st) (first_binding_index st) (unbound_bindings st ++ [binding])
      (no_action_meta st)
  else if existsb (λ d, binding_is_unbound d binding) (unbound_bindings st) then st
  else mkResolution (res_bindings st ++ [(ix, binding)])
         (Some (default ix (first_binding_index st))) (unbound_bindings st) (no_action_meta st).

(** The loop over the pending bindings; a [HashSet] of keystrokes is a list without duplicates. *)
Definition resolve_pending (first : option nat) (pending : list (list KeybindingKeystroke.t))
    (entry : nat * KeyBinding A) : list (list KeybindingKeystroke.t) :=
  let '(ix, binding) := entry in
  if match first with Some binding_ix => bool_decide (ix < binding_ix) | None => false end
  then pending
  else if is_no_action (action binding) || is_unbind (action binding)
  then filter (λ k, k ≠ keystrokes binding) pending
  else if decide (keystrokes binding ∈ pending) then pending else keystrokes binding :: pending.

Definition resolve_bindings_for_input input context_stack
    (keymap_bindings : list (nat * KeyBinding A)) : list (nat * KeyBinding A) * bool :=
  let entries := omap (classify input context_stack) keymap_bindings in
  let matched := omap (λ '(m, pending), if pending : bool then None else Some m) entries in
  let pending := omap (λ '(m, pending), if pending : bool then Some (m.1.2, m.2) else None) entries in
  let res := foldl resolve_match (mkResolution [] None [] None) (merge_sort match_le matched) in
  let pending := foldl (resolve_pending (first_binding_index res)) [] (rev pending) in
  (res_bindings res, negb (bool_decide (pending = []))).

Definition bindings_for_input self input context_stack : list (KeyBinding A) * bool :=
  let '(bindings, pending) :=
    resolve_bindings_for_input input context_stack (rev (enumerate (Keymap.bindings self))) in
  (bindings.*2, pending).
End input.

(** ** What can follow an input *)

Definition bindings_extending self (input : list Keystroke.t) : list (nat * KeyBinding A) :=
  filter (λ entry, match_keystrokes entry.2 input = Some true)
    (rev (enumerate (Keymap.bindings self))).

(** The closure of [possible_next_bindings_for_input]. *)
Definition next_candidate (input : list Keystroke.t) context_stack extending
    (entry : nat * KeyBinding A) : outcome (option Match) :=
  match binding_enabled entry.2 context_stack with
  | None => Ok None
  | Some depth =>
      rest ← slice_from (keystrokes entry.2) (length input);
      let full_input := input ++ (as_keystroke <$> rest) in
      let '(dispatched, _) := resolve_bindings_for_input full_input context_stack extending in
      Ok (if bool_decide (entry.1 ∈ dispatched.*1) then Some (depth, entry.1, entry.2) else None)
  end.

Definition possible_next_bindings_for_input self (input : list Keystroke.t) context_stack
    : outcome (list (KeyBinding A)) :=
  let extending := bindings_extending self input in
  candidates ← mapM_ok (next_candidate input context_stack extending)
    (filter (λ entry, is_no_action (action entry.2) = false ∧ is_unbind (action entry.2) = false)
       extending);
  Ok (merge_sort match_le (somes candidates)).*2.
End keymap.
