(* ===== verification/KeymapTheorems.v ===== *)
(** The keymap: the index of the bindings of an action agrees with a scan of all bindings, and the loops that resolve an
    input compute the bindings that nothing of higher precedence disables; then what the keymap promises: looking up the
    bindings of an action, the precedence of the bindings of an input, when an input is incomplete, and what can follow it. *)
From Stdlib Require Import NArith Ascii String.
From stdpp Require Import gmap.
From S2P Require Import Prelude Chars KeyContext Predicate Keystroke Binding Keymap.

(** ** Lists *)

Section lists.
Context {X : Type}.
Implicit Types l : list X.

Lemma enumerate_snoc l x : enumerate (l ++ [x]) = enumerate l ++ [(length l, x)].
Proof.
  unfold enumerate. rewrite length_app, seq_app, zip_with_app by (by rewrite length_seq). done.
Qed.

Lemma elem_of_enumerate l i x : (i, x) ∈ enumerate l ↔ l !! i = Some x.
Proof.
  induction l as [|y l IH] using rev_ind; [set_solver|].
  rewrite enumerate_snoc, elem_of_app, IH, list_elem_of_singleton. split.
  - intros [Hl|[= -> ->]]; [by apply lookup_app_l_Some|]. by rewrite list_lookup_middle.
  - intros [Hl|[Hle Hx]]%lookup_app_Some; [by left|right].
    apply list_lookup_singleton_Some in Hx as [Hi ->]. f_equal. lia.
Qed.

(** Enumerations have ascending indices. *)
Lemma enumerate_sorted l : StronglySorted (λ a b : nat * X, a.1 < b.1) (enumerate l).
Proof.
  induction l as [|y l IH] using rev_ind; [constructor|]. rewrite enumerate_snoc.
  apply StronglySorted_app; split; [|split]; [|done|repeat constructor].
  intros [i x] b Hi%elem_of_enumerate Hb. apply list_elem_of_singleton in Hb as ->. simpl.
  by eapply lookup_lt_Some.
Qed.

Lemma somes_fmap {Y} (f : Y → option X) (l : list Y) : somes (f <$> l) = omap f l.
Proof.
  induction l as [|y l IH]; [done|]. unfold somes in *. cbn. unfold id at 1.
  destruct (f y); [|apply IH]. f_equal. apply IH.
Qed.

Lemma elem_of_somes (l : list (option X)) x : x ∈ somes l ↔ Some x ∈ l.
Proof. unfold somes. rewrite list_elem_of_omap. simpl. naive_solver. Qed.

(** In a sorted list, what comes before an element is what is smaller. *)
Lemma StronglySorted_snoc (R : X → X → Prop) l x :
  StronglySorted R (l ++ [x]) ↔ StronglySorted R l ∧ ∀ y, y ∈ l → R y x.
Proof.
  rewrite StronglySorted_app. split.
  - intros (Hc & Hl & _). split; [done|]. intros y Hy. apply Hc; set_solver.
  - intros [Hl Hx]. split; [|split; [done|repeat constructor]].
    intros y z Hy Hz%list_elem_of_singleton. subst z. by apply Hx.
Qed.

Lemma StronglySorted_rev (R : X → X → Prop) l : StronglySorted R l → StronglySorted (flip R) (rev l).
Proof.
  induction 1 as [|x l Hl IH Hx]; simpl; [constructor|].
  apply StronglySorted_snoc. split; [done|]. intros y Hy. rewrite Forall_forall in Hx.
  apply Hx. apply list_elem_of_In. apply in_rev. by apply list_elem_of_In.
Qed.
End lists.

(** ** The index of actions *)

Section index.
Context {A : Type} `{UserAction A}.
Implicit Types km : Keymap.t A.
Implicit Types b d : KeyBinding A.

(** The two markers that disable other bindings. *)
Definition marker b : bool := is_no_action (action b) || is_unbind (action b).

(** What the marker [d], added later, does to [b] when actions are looked up. *)
Definition disables d b : bool :=
  bool_decide (keystrokes d = keystrokes b) && disabled_binding_matches_context d b
  && (is_no_action (action d) || binding_is_unbound d b).

(** The index holds what a scan of the bindings finds. *)
Definition indexed km : Prop :=
  Keymap.disabled_binding_indices km
    = (filter (λ e, marker e.2 = true) (enumerate (Keymap.bindings km))).*1 ∧
  ∀ id, default [] (Keymap.binding_indices_by_action_id km !! id)
    = (filter (λ e, marker e.2 = false ∧ type_id (action e.2) = id)
         (enumerate (Keymap.bindings km))).*1.

Lemma indexed_empty version : indexed (Keymap.mk [] ∅ [] version).
Proof. by split. Qed.

Lemma indexed_bump km : indexed (bump km) ↔ indexed km.
Proof. done. Qed.

Lemma add_binding_bindings km b : Keymap.bindings (add_binding km b) = Keymap.bindings km ++ [b].
Proof. unfold add_binding. by case_match. Qed.

Lemma indexed_add_binding km b : indexed km → indexed (add_binding km b).
Proof.
  intros [Hd Hi]. unfold indexed. rewrite add_binding_bindings, enumerate_snoc.
  unfold add_binding. fold (marker b). destruct (marker b) eqn:Hm; simpl; split.
  - rewrite filter_app, fmap_app, filter_cons_True by done. by rewrite <-Hd.
  - intros id. rewrite filter_app, filter_cons_False by (simpl; rewrite Hm; naive_solver).
    by rewrite filter_nil, app_nil_r.
  - rewrite filter_app, filter_cons_False by (simpl; by rewrite Hm).
    by rewrite filter_nil, app_nil_r.
  - intros id. rewrite filter_app, fmap_app, <-Hi.
    destruct (decide (id = type_id (action b))) as [->|Hne].
    + rewrite lookup_partial_alter_eq. by rewrite filter_cons_True.
    + rewrite lookup_partial_alter_ne by done.
      rewrite filter_cons_False by naive_solver. by rewrite app_nil_r.
Qed.

Lemma add_bindings_spec km bs :
  indexed km →
  indexed (add_bindings km bs) ∧ Keymap.bindings (add_bindings km bs) = Keymap.bindings km ++ bs ∧
  Keymap.version (add_bindings km bs) = Keymap.version km + 1.
Proof.
  unfold add_bindings. intros Hk. rewrite indexed_bump. cbn [bump Keymap.bindings Keymap.version].
  cut (indexed (foldl add_binding km bs) ∧
       Keymap.bindings (foldl add_binding km bs) = Keymap.bindings km ++ bs ∧
       Keymap.version (foldl add_binding km bs) = Keymap.version km).
  { intros (? & ? & ->). done. }
  revert km Hk. induction bs as [|b bs IH]; intros km Hk; simpl; [by rewrite app_nil_r|].
  destruct (IH (add_binding km b)) as (Hi & Hb & Hv); [by apply indexed_add_binding|].
  rewrite Hb, Hv, add_binding_bindings, <-app_assoc. split; [done|split; [done|]].
  unfold add_binding. by case_match.
Qed.

(** The loop over the disabled bindings. *)
Lemma is_disabled_spec km es ix b :
  Forall (λ e, Keymap.bindings km !! e.1 = Some e.2) es →
  Forall (λ e, marker e.2 = true) es →
  is_disabled km es.*1 ix b = Ok (existsb (λ e, (ix <? e.1) && disables e.2 b) es).
Proof.
  induction 1 as [|[j d] es Hj _ IH]; intros Hm; [done|]. apply Forall_cons in Hm as [Hm Hms].
  specialize (IH Hms). simpl in *. destruct (decide (ix < j)) as [Hlt|Hge].
  - rewrite (proj2 (Nat.ltb_lt ix j)) by done. unfold index. rewrite Hj. simpl. unfold disables.
    destruct (decide (keystrokes d = keystrokes b)) as [Hk|Hk].
    + rewrite decide_False by tauto. rewrite bool_decide_true by done. simpl.
      unfold marker in Hm. destruct (is_no_action (action d)); simpl.
      * rewrite andb_true_r. by destruct (disabled_binding_matches_context d b).
      * simpl in Hm. rewrite Hm. simpl.
        by destruct (disabled_binding_matches_context d b), (binding_is_unbound d b).
    + rewrite decide_True by done. by rewrite bool_decide_false.
  - by rewrite (proj2 (Nat.ltb_ge ix j)) by lia.
Qed.

(** The reference: scan all bindings for the action, and all later markers for each of them. *)
Definition reaches (bs : list (KeyBinding A)) (act : Action A) (e : nat * KeyBinding A) : bool :=
  negb (marker e.2) && partial_eq (action e.2) act
  && negb (existsb (λ m, (e.1 <? m.1) && marker m.2 && disables m.2 e.2) (enumerate bs)).
Definition scan_for_action (bs : list (KeyBinding A)) (act : Action A) : list (KeyBinding A) :=
  (filter (λ e, reaches bs act e = true) (enumerate bs)).*2.

Lemma existsb_filter {X} (P : X → bool) (f g : X → bool) (l : list X) :
  (∀ x, g x = P x && f x) → existsb f (filter (λ x, P x = true) l) = existsb g l.
Proof.
  intros Hg. induction l as [|x l IH]; [done|]. rewrite filter_cons. simpl. rewrite Hg.
  case_decide as HP; simpl; rewrite IH; [by rewrite HP|].
  by rewrite (not_true_is_false _ HP).
Qed.

Lemma bindings_for_action_scan `{!UserActionLaws A} km act :
  indexed km → bindings_for_action km act = Ok (scan_for_action (Keymap.bindings km) act).
Proof.
  intros [Hd Hi]. unfold bindings_for_action. rewrite Hi.
  set (es := enumerate (Keymap.bindings km)).
  assert (Hes : Forall (λ e, Keymap.bindings km !! e.1 = Some e.2) es).
  { apply Forall_forall. intros [i b] Hib. by apply elem_of_enumerate. }
  rewrite (mapM_ok_map _ (λ ix, b ← Keymap.bindings km !! ix;
    if reaches (Keymap.bindings km) act (ix, b) then Some b else None)).
  - simpl. f_equal. unfold scan_for_action. fold es. clear Hd Hi.
    induction Hes as [|[i b] es' Hib _ IH]; [done|]. simpl in Hib. rewrite !filter_cons. simpl.
    destruct (decide (reaches _ _ _ = true)) as [Hr|Hr].
    + rewrite decide_True.
      * cbn. rewrite Hib; simpl. rewrite Hr. unfold somes in *; cbn. f_equal. apply IH.
      * revert Hr. unfold reaches. simpl. rewrite !andb_true_iff, !negb_true_iff.
        intros [[? Heq] _]. split; [done|]. revert Heq.
        destruct (action b), act; simpl; try done. intros Heq. by f_equal; apply user_eq_type.
    + rewrite <-IH. case_decide; [|done]. cbn. rewrite Hib; simpl.
      by rewrite (not_true_is_false _ Hr).
  - apply Forall_fmap, Forall_forall. intros [i b] [[Hm _] Hib]%list_elem_of_filter.
    simpl in *. apply elem_of_enumerate in Hib. unfold binding_for_action, index. rewrite Hib; simpl.
    unfold reaches; simpl. rewrite Hm; simpl.
    destruct (partial_eq (action b) act); simpl; [|done].
    rewrite Hd. fold es. rewrite is_disabled_spec; simpl.
    + rewrite (existsb_filter (λ e, marker e.2) _ (λ m, (i <? m.1) && marker m.2 && disables m.2 b)).
      * by destruct (existsb _ es).
      * intros [j d]. simpl. by destruct (marker d), (i <? j).
    + rewrite Forall_forall in Hes |- *. intros e [_ He]%list_elem_of_filter. by apply Hes.
    + apply Forall_forall. intros e [? _]%list_elem_of_filter. done.
Qed.
End index.

(** ** Resolution of an input *)

Section resolution.
Context {A : Type} `{UserAction A} {os : Target}.
Implicit Types b d : KeyBinding A.
#[local] Notation Match := (Match (A:=A)).
Implicit Types m n : Match.
Implicit Types M : Match → Prop.

(** [m] has precedence over [n]: it is deeper, or as deep and added later. *)
Definition outranks m n : Prop := n.1.1 < m.1.1 ∨ m.1.1 = n.1.1 ∧ n.1.2 < m.1.2.

(** Of the matches [M]: a null binding of higher precedence, from a source that is as strong. *)
Definition suppressed M m : Prop := ∃ n,
  M n ∧ outranks n m ∧ is_no_action (action n.2) = true ∧ (meta_or_user n.2 ≤ meta_or_user m.2)%N.
(** An unbind marker of higher precedence that is not suppressed itself and names the action. *)
Definition unbound M m : Prop := ∃ n,
  M n ∧ outranks n m ∧ is_unbind (action n.2) = true ∧ ¬ suppressed M n ∧
  binding_is_unbound n.2 m.2 = true.
(** What is dispatched. *)
Definition dispatched M m : Prop :=
  M m ∧ marker m.2 = false ∧ ¬ suppressed M m ∧ ¬ unbound M m.

Lemma outranks_asym m n : outranks m n → outranks n m → False.
Proof. unfold outranks. lia. Qed.

(** A match of lower precedence than all of [M] changes nothing for these. *)
Lemma suppressed_snoc M m x :
  (∀ y, M y → outranks y m) → M x →
  suppressed (λ y, M y ∨ y = m) x ↔ suppressed M x.
Proof.
  intros HM Hx. split.
  - intros (n & [Hn| ->] & Hr & Hrest); [by exists n; auto|].
    by destruct (outranks_asym _ _ Hr (HM x Hx)).
  - intros (n & Hn & Hrest). exists n. auto.
Qed.
Lemma suppressed_last M m :
  (∀ y, M y → outranks y m) →
  suppressed (λ y, M y ∨ y = m) m ↔
    ∃ n, M n ∧ is_no_action (action n.2) = true ∧ (meta_or_user n.2 ≤ meta_or_user m.2)%N.
Proof.
  intros HM. split.
  - intros (n & [Hn| ->] & Hr & Hrest); [by exists n|]. by destruct (outranks_asym _ _ Hr Hr).
  - intros (n & Hn & Hrest). exists n. auto.
Qed.
Lemma unbound_snoc M m x :
  (∀ y, M y → outranks y m) → M x → unbound (λ y, M y ∨ y = m) x ↔ unbound M x.
Proof.
  intros HM Hx. split.
  - intros (n & [Hn| ->] & Hr & Hu & Hs & Hb); [|by destruct (outranks_asym _ _ Hr (HM x Hx))].
    exists n. rewrite suppressed_snoc in Hs by done. done.
  - intros (n & Hn & Hr & Hu & Hs & Hb). exists n. rewrite suppressed_snoc by done. auto.
Qed.
Lemma unbound_last M m :
  (∀ y, M y → outranks y m) →
  unbound (λ y, M y ∨ y = m) m ↔
    ∃ n, M n ∧ is_unbind (action n.2) = true ∧ ¬ suppressed M n ∧ binding_is_unbound n.2 m.2 = true.
Proof.
  intros HM. split.
  - intros (n & [Hn| ->] & Hr & Hu & Hs & Hb); [|by destruct (outranks_asym _ _ Hr Hr)].
    exists n. rewrite suppressed_snoc in Hs by done. done.
  - intros (n & Hn & Hu & Hs & Hb). exists n. rewrite suppressed_snoc by done. auto.
Qed.
Lemma dispatched_snoc M m x :
  (∀ y, M y → outranks y m) → M x → dispatched (λ y, M y ∨ y = m) x ↔ dispatched M x.
Proof.
  intros HM Hx. unfold dispatched. rewrite suppressed_snoc, unbound_snoc by done. naive_solver.
Qed.
Lemma dispatched_ext M M' m : (∀ x, M x ↔ M' x) → dispatched M m ↔ dispatched M' m.
Proof.
  intros HM. assert (Hs : ∀ x, suppressed M x ↔ suppressed M' x).
  { intros x. unfold suppressed. by setoid_rewrite HM. }
  unfold dispatched, unbound. setoid_rewrite Hs. by setoid_rewrite HM.
Qed.

(** The state of the loop after the matches [ms], which are in order of precedence: the weakest
    source that null bindings let through, the unbind markers, the bindings that are kept. *)
Record resolved (ms : list Match) (st : Resolution) (ks : list Match) : Prop := {
  resolved_meta x :
    match no_action_meta st with Some y => (y ≤ x)%N | None => False end ↔
      ∃ n, n ∈ ms ∧ is_no_action (action n.2) = true ∧ (meta_or_user n.2 ≤ x)%N;
  resolved_unbound d :
    d ∈ unbound_bindings st ↔
      ∃ n, n ∈ ms ∧ n.2 = d ∧ is_unbind (action d) = true ∧ ¬ suppressed (.∈ ms) n;
  resolved_bindings : res_bindings st = (λ m, (m.1.2, m.2)) <$> ks;
  resolved_first : first_binding_index st = (λ m, m.1.2) <$> head ks;
  resolved_kept m : m ∈ ks ↔ dispatched (.∈ ms) m;
  resolved_sorted : StronglySorted outranks ks;
}.

Lemma elem_of_snoc_iff {X} (l : list X) x y : y ∈ l ++ [x] ↔ y ∈ l ∨ y = x.
Proof. set_solver. Qed.

Lemma resolve_match_unfold st m :
  resolve_match st m =
    let meta := meta_or_user m.2 in
    if is_no_action (action m.2) then
      mkResolution (res_bindings st) (first_binding_index st) (unbound_bindings st)
        (Some (match no_action_meta st with Some existing => N.min existing meta | None => meta end))
    else if match no_action_meta st with Some m => (m <=? meta)%N | None => false end then st
    else if is_unbind (action m.2) then
      mkResolution (res_bindings st) (first_binding_index st) (unbound_bindings st ++ [m.2])
        (no_action_meta st)
    else if existsb (λ d, binding_is_unbound d m.2) (unbound_bindings st) then st
    else mkResolution (res_bindings st ++ [(m.1.2, m.2)])
           (Some (default m.1.2 (first_binding_index st))) (unbound_bindings st) (no_action_meta st).
Proof. by destruct m as [[depth ix] b]. Qed.

Section step.
Context (ms : list Match) (m : Match) (st : Resolution (A:=A)) (ks : list Match).
Hypothesis Hlast : ∀ y, y ∈ ms → outranks y m.
Hypothesis Hst : resolved ms st ks.

Lemma in_snoc_ext (P : (Match → Prop) → Match → Prop) x :
  (∀ M M', (∀ y, M y ↔ M' y) → P M x ↔ P M' x) →
  P (.∈ ms ++ [m]) x ↔ P (λ y, y ∈ ms ∨ y = m) x.
Proof. intros HP. apply HP. intros y. apply elem_of_snoc_iff. Qed.
Lemma suppressed_in_snoc x :
  x ∈ ms → suppressed (.∈ ms ++ [m]) x ↔ suppressed (.∈ ms) x.
Proof.
  intros Hx. rewrite (in_snoc_ext suppressed); [by apply (suppressed_snoc (.∈ ms))|].
  intros M M' HM. unfold suppressed. by setoid_rewrite HM.
Qed.
Lemma suppressed_in_last :
  suppressed (.∈ ms ++ [m]) m ↔
    match no_action_meta st with Some y => (y ≤ meta_or_user m.2)%N | None => False end.
Proof using Hlast Hst.
  rewrite (in_snoc_ext suppressed), (suppressed_last (.∈ ms)), (resolved_meta _ _ _ Hst); [done..|].
  intros M M' HM. unfold suppressed. by setoid_rewrite HM.
Qed.
Lemma dispatched_in_snoc x :
  dispatched (.∈ ms ++ [m]) x ↔ x ∈ ks ∨ x = m ∧ dispatched (.∈ ms ++ [m]) m.
Proof using Hlast Hst.
  rewrite (resolved_kept _ _ _ Hst). split.
  - intros Hd. pose proof Hd as (Hx & _). apply elem_of_snoc_iff in Hx as [Hx| ->]; [left|by right].
    revert Hd. rewrite (in_snoc_ext dispatched); [by apply (dispatched_snoc (.∈ ms))|].
    intros M M' HM. by apply dispatched_ext.
  - intros [Hd|[-> Hd]]; [|done]. pose proof Hd as (Hx & _). revert Hd.
    rewrite (in_snoc_ext dispatched); [by apply (dispatched_snoc (.∈ ms))|].
    intros M M' HM. by apply dispatched_ext.
Qed.
Lemma unbound_in_last :
  unbound (.∈ ms ++ [m]) m ↔ ∃ d, d ∈ unbound_bindings st ∧ binding_is_unbound d m.2 = true.
Proof using Hlast Hst.
  rewrite (in_snoc_ext unbound), (unbound_last (.∈ ms)); [|done|].
  - setoid_rewrite (resolved_unbound _ _ _ Hst). naive_solver.
  - intros M M' HM. assert (Hs : ∀ x, suppressed M x ↔ suppressed M' x).
    { intros x. unfold suppressed. by setoid_rewrite HM. }
    unfold unbound. setoid_rewrite Hs. by setoid_rewrite HM.
Qed.
Lemma unbound_bindings_snoc d :
  (∃ n, n ∈ ms ++ [m] ∧ n.2 = d ∧ is_unbind (action d) = true ∧ ¬ suppressed (.∈ ms ++ [m]) n) ↔
  d ∈ unbound_bindings st ∨
    d = m.2 ∧ is_unbind (action d) = true ∧ ¬ suppressed (.∈ ms ++ [m]) m.
Proof using Hlast Hst.
  rewrite (resolved_unbound _ _ _ Hst). split.
  - intros (n & [Hn| ->]%elem_of_snoc_iff & <- & Hu & Hs); [left|by right].
    exists n. rewrite suppressed_in_snoc in Hs by done. done.
  - intros [(n & Hn & <- & Hu & Hs)|(-> & Hu & Hs)].
    + exists n. rewrite suppressed_in_snoc by done. rewrite elem_of_snoc_iff. auto.
    + exists m. rewrite elem_of_snoc_iff. auto.
Qed.
Lemma no_action_meta_snoc x :
  (∃ n, n ∈ ms ++ [m] ∧ is_no_action (action n.2) = true ∧ (meta_or_user n.2 ≤ x)%N) ↔
  match no_action_meta st with Some y => (y ≤ x)%N | None => False end ∨
    is_no_action (action m.2) = true ∧ (meta_or_user m.2 ≤ x)%N.
Proof using Hst.
  rewrite (resolved_meta _ _ _ Hst). setoid_rewrite elem_of_snoc_iff. split.
  - intros (n & [Hn| ->] & Hrest); [left; by exists n|by right].
  - intros [(n & Hn & Hrest)|Hm]; [exists n|exists m]; auto.
Qed.

Lemma kept_ranks n : n ∈ ks → outranks n m.
Proof using Hlast Hst. intros (Hn & _)%(resolved_kept _ _ _ Hst). by apply Hlast. Qed.

(** The new state, when the loop does not keep [m] and when it does. *)
Lemma resolved_skip st' :
  (∀ x, match no_action_meta st' with Some y => (y ≤ x)%N | None => False end ↔
        match no_action_meta st with Some y => (y ≤ x)%N | None => False end ∨
          is_no_action (action m.2) = true ∧ (meta_or_user m.2 ≤ x)%N) →
  (∀ d, d ∈ unbound_bindings st' ↔ d ∈ unbound_bindings st ∨
     d = m.2 ∧ is_unbind (action d) = true ∧ ¬ suppressed (.∈ ms ++ [m]) m) →
  res_bindings st' = res_bindings st → first_binding_index st' = first_binding_index st →
  ¬ dispatched (.∈ ms ++ [m]) m →
  resolved (ms ++ [m]) st' ks.
Proof using Hlast Hst.
  intros Hm Hu Hb Hf Hd. split.
  - intros x. by rewrite no_action_meta_snoc.
  - intros d. by rewrite unbound_bindings_snoc.
  - rewrite Hb. apply Hst.
  - rewrite Hf. apply Hst.
  - intros x. rewrite dispatched_in_snoc. naive_solver.
  - apply Hst.
Qed.
Lemma resolved_keep :
  dispatched (.∈ ms ++ [m]) m →
  resolved (ms ++ [m])
    (mkResolution (res_bindings st ++ [(m.1.2, m.2)])
       (Some (default m.1.2 (first_binding_index st))) (unbound_bindings st) (no_action_meta st))
    (ks ++ [m]).
Proof using Hlast Hst.
  intros Hd. pose proof Hd as (_ & Hm & _). apply orb_false_iff in Hm as [Hn Hu]. split; simpl.
  - intros x. rewrite no_action_meta_snoc, Hn. naive_solver.
  - intros d. rewrite unbound_bindings_snoc. naive_solver congruence.
  - rewrite fmap_app. by rewrite (resolved_bindings _ _ _ Hst).
  - rewrite (resolved_first _ _ _ Hst). by destruct ks.
  - intros x. rewrite dispatched_in_snoc, elem_of_snoc_iff. naive_solver.
  - apply StronglySorted_snoc. split; [apply Hst|apply kept_ranks].
Qed.

Lemma resolve_match_spec : ∃ ks', resolved (ms ++ [m]) (resolve_match st m) ks'.
Proof using Hlast Hst.
  pose proof suppressed_in_last as Hsupp. pose proof unbound_in_last as Hunb.
  assert (Hdisp : dispatched (.∈ ms ++ [m]) m ↔ marker m.2 = false ∧
    ¬ suppressed (.∈ ms ++ [m]) m ∧ ¬ unbound (.∈ ms ++ [m]) m) by (unfold dispatched; set_solver).
  unfold marker in Hdisp. rewrite resolve_match_unfold. cbv zeta.
  destruct (is_no_action (action m.2)) eqn:Hno.
  { exists ks. apply resolved_skip; simpl; rewrite ?Hno; try done; [| |naive_solver].
    - intros x. destruct (no_action_meta st) as [y|]; [|naive_solver].
      rewrite N.min_le_iff. naive_solver.
    - intros d. split; [by left|]. intros [?|(-> & Hu & _)]; [done|].
      by destruct (action m.2). }
  destruct (match no_action_meta st with Some y => (y <=? meta_or_user m.2)%N | None => false end)
    eqn:Hsup.
  { assert (Hs : suppressed (.∈ ms ++ [m]) m).
    { apply Hsupp. destruct (no_action_meta st); [by apply N.leb_le|done]. }
    exists ks. apply resolved_skip; rewrite ?Hno; naive_solver. }
  assert (Hs : ¬ suppressed (.∈ ms ++ [m]) m).
  { rewrite Hsupp. destruct (no_action_meta st); [|tauto]. by apply N.leb_nle. }
  destruct (is_unbind (action m.2)) eqn:Hun.
  { exists ks. apply resolved_skip; simpl; rewrite ?Hno; [naive_solver| |done..|naive_solver].
    intros d. rewrite elem_of_snoc_iff. naive_solver. }
  destruct (existsb _ _) eqn:Hex.
  - exists ks. apply resolved_skip; rewrite ?Hno; [naive_solver|naive_solver congruence|done..|].
    intros (_ & _ & Hd)%Hdisp. apply Hd, Hunb.
    apply existsb_exists in Hex as (d & Hd' & Hb). exists d. by rewrite list_elem_of_In.
  - exists (ks ++ [m]). apply resolved_keep, Hdisp. split; [done|split; [done|]].
    intros (d & Hd & Hb)%Hunb.
    apply not_true_iff_false in Hex. apply Hex. apply existsb_exists. exists d.
    by rewrite <-list_elem_of_In.
Qed.
End step.

Lemma resolve_matches_spec ms :
  StronglySorted outranks ms →
  ∃ ks, resolved ms (foldl resolve_match (mkResolution [] None [] None) ms) ks.
Proof.
  induction ms as [|m ms IH] using rev_ind; intros Hs.
  - exists []. split; simpl; try done; try constructor; unfold dispatched; set_solver.
  - apply StronglySorted_snoc in Hs as [Hs Hm]. destruct (IH Hs) as [ks Hks].
    rewrite foldl_app. simpl. by eapply resolve_match_spec.
Qed.

(** The loop over the pending bindings [es], by ascending index. *)
Definition past (first : option nat) (ix : nat) : Prop := ∀ i, first = Some i → i ≤ ix.
Lemma resolve_pending_spec first es k :
  StronglySorted (λ a c : nat * KeyBinding A, a.1 < c.1) es →
  k ∈ foldl (resolve_pending first) [] es ↔
    ∃ e, e ∈ es ∧ past first e.1 ∧ marker e.2 = false ∧ keystrokes e.2 = k ∧
      ∀ e', e' ∈ es → e.1 < e'.1 → marker e'.2 = true → keystrokes e'.2 ≠ k.
Proof.
  revert k. induction es as [|[ix b] es IH] using rev_ind; intros k Hs; [set_solver|].
  apply StronglySorted_snoc in Hs as [Hs Hix]. simpl in Hix. specialize (IH k Hs).
  rewrite foldl_app. simpl.
  (* an earlier binding survives unless the last one is a marker for its keystrokes *)
  assert (Hold : (∃ e, e ∈ es ∧ past first e.1 ∧ marker e.2 = false ∧ keystrokes e.2 = k ∧
      ∀ e', e' ∈ es ++ [(ix, b)] → e.1 < e'.1 → marker e'.2 = true → keystrokes e'.2 ≠ k) ↔
    k ∈ foldl (resolve_pending first) [] es ∧ ¬ (marker b = true ∧ keystrokes b = k)).
  { rewrite IH. split.
    - intros (e & He & Hp & Hm & Hk & Hall). split.
      + exists e. repeat split; try done. intros e' He'. apply Hall. set_solver.
      + intros [Hb Hkb]. apply (Hall (ix, b)); [set_solver|by apply Hix|done..].
    - intros [(e & He & Hp & Hm & Hk & Hall) Hb]. exists e. repeat split; try done.
      intros e' [He'| ->]%elem_of_snoc_iff Hlt Hm'; [by apply Hall|]. simpl in *. naive_solver. }
  transitivity ((k ∈ foldl (resolve_pending first) [] es ∧ ¬ (marker b = true ∧ keystrokes b = k)) ∨
    past first ix ∧ marker b = false ∧ keystrokes b = k); last first.
  { rewrite <-Hold. split.
    - intros [(e & He & Hrest)|(Hp & Hm & Hk)].
      + exists e. split; [set_solver|done].
      + exists (ix, b). split; [set_solver|]. repeat split; try done. simpl.
        intros e' [He'| ->]%elem_of_snoc_iff Hlt; [specialize (Hix _ He')|simpl in Hlt]; lia.
    - intros (e & [He| ->]%elem_of_snoc_iff & Hp & Hm & Hk & Hall); [|right; done].
      left. exists e. done. }
  unfold resolve_pending at 1. fold (marker b).
  destruct (match first with Some _ => _ | None => _ end) eqn:Hskip.
  { assert (Hnp : ¬ past first ix).
    { destruct first as [i|]; [|done]. apply bool_decide_eq_true in Hskip.
      intros Hp. specialize (Hp i eq_refl). lia. }
    split; [|tauto]. intros Hk. left. split; [done|]. intros [Hm Hkb].
    apply IH in Hk as (e & He & Hp & _). apply Hnp. intros i Hi. specialize (Hp i Hi).
    specialize (Hix _ He). lia. }
  assert (Hp : past first ix).
  { intros i ->. apply bool_decide_eq_false in Hskip. lia. }
  destruct (marker b) eqn:Hm.
  - rewrite list_elem_of_filter. naive_solver.
  - destruct (decide (keystrokes b ∈ _)) as [Hin|Hin]; [|rewrite elem_of_cons]; naive_solver.
Qed.

(** ** The whole of [resolve_bindings_for_input] *)

Section resolve.
Context {K : Type} `{AsKeystroke K}.
Context (input : list K) (contexts : list KeyContext.t) (kb : list (nat * KeyBinding A)).
Hypothesis Hkb : StronglySorted (λ a c : nat * KeyBinding A, c.1 < a.1) kb.

(** The bindings that the input completes, and the ones that it starts. *)
Definition completes m : Prop :=
  (m.1.2, m.2) ∈ kb ∧ binding_enabled m.2 contexts = Some m.1.1 ∧
  match_keystrokes m.2 input = Some false.
Definition begins (e : nat * KeyBinding A) : Prop :=
  e ∈ kb ∧ is_Some (binding_enabled e.2 contexts) ∧ match_keystrokes e.2 input = Some true.

Definition matched_bindings : list Match :=
  omap (λ '(m, pending), if pending : bool then None else Some m)
    (omap (classify input contexts) kb).
Definition pending_bindings : list (nat * KeyBinding A) :=
  omap (λ '(m, pending), if pending : bool then Some (m.1.2, m.2) else None)
    (omap (classify input contexts) kb).

Lemma elem_of_matched m : m ∈ matched_bindings ↔ completes m.
Proof.
  unfold matched_bindings, completes. rewrite list_elem_of_omap. setoid_rewrite list_elem_of_omap.
  unfold classify. split.
  - intros ([m' p] & ([i b] & Hin & Hc) & Hp). destruct p; [done|]. injection Hp as ->.
    destruct (binding_enabled _ _) as [depth|] eqn:He; [|done].
    destruct (match_keystrokes _ _) as [p|] eqn:Hm; [|done].
    simpl in Hc. injection Hc as <- ->. simpl in *. done.
  - destruct m as [[depth i] b]. intros (Hin & He & Hm). simpl in *.
    exists ((depth, i, b), false). split; [|done]. exists (i, b). split; [done|]. simpl.
    by rewrite He, Hm.
Qed.

Lemma elem_of_pending e : e ∈ pending_bindings ↔ begins e.
Proof.
  unfold pending_bindings, begins. rewrite list_elem_of_omap. setoid_rewrite list_elem_of_omap.
  unfold classify. split.
  - intros ([m' p] & ([i b] & Hin & Hc) & Hp). destruct p; [|done]. injection Hp as <-.
    destruct (binding_enabled _ _) as [depth|] eqn:He; [|done].
    destruct (match_keystrokes _ _) as [p|] eqn:Hm; [|done].
    simpl in Hc. injection Hc as <- ->. simpl in *. eauto.
  - destruct e as [i b]. intros (Hin & [depth He] & Hm). simpl in *.
    exists ((depth, i, b), true). split; [|done]. exists (i, b). split; [done|]. simpl.
    by rewrite He, Hm.
Qed.

(** Selecting from a list that is sorted by index keeps it sorted. *)
Lemma omap_sorted {X Y} (R : X → X → Prop) (S : Y → Y → Prop) (f : X → option Y) (l : list X) :
  (∀ a c x y, R a c → f a = Some x → f c = Some y → S x y) →
  StronglySorted R l → StronglySorted S (omap f l).
Proof.
  intros HRS. induction 1 as [|a l Hl IH Ha]; [constructor|]. cbn. destruct (f a) as [x|] eqn:Hfa; [|done].
  constructor; [done|]. rewrite Forall_forall in Ha. apply Forall_forall. intros y (c & Hc & Hfc)%list_elem_of_omap.
  eapply HRS; [by apply Ha|done..].
Qed.

Lemma classify_index e m p : classify input contexts e = Some (m, p) → m.1.2 = e.1.
Proof.
  unfold classify. destruct (binding_enabled _ _); [|done]. simpl.
  destruct (match_keystrokes _ _); [|done]. by intros [= <- _].
Qed.

Lemma matched_sorted : StronglySorted (λ m n : Match, n.1.2 < m.1.2) matched_bindings.
Proof using Hkb.
  unfold matched_bindings.
  eapply (omap_sorted (λ a c : Match * bool, c.1.1.2 < a.1.1.2)); [|eapply omap_sorted; [|exact Hkb]].
  - intros [m []] [n []] ?? Hlt [= <-] [= <-]. done.
  - intros a c [m p] [n q] Hlt Hm%classify_index Hn%classify_index. simpl in *. lia.
Qed.
Lemma pending_sorted : StronglySorted (λ a c : nat * KeyBinding A, c.1 < a.1) pending_bindings.
Proof using Hkb.
  unfold pending_bindings.
  eapply (omap_sorted (λ a c : Match * bool, c.1.1.2 < a.1.1.2)); [|eapply omap_sorted; [|exact Hkb]].
  - intros [m []] [n []] ?? Hlt [= <-] [= <-]. done.
  - intros a c [m p] [n q] Hlt Hm%classify_index Hn%classify_index. simpl in *. lia.
Qed.
End resolve.

(** Sorting matches with different indices. *)
#[export] Instance match_le_trans : Transitive (match_le (A:=A)).
Proof. intros x y z. unfold match_le. lia. Qed.
#[export] Instance match_le_total : Total (match_le (A:=A)).
Proof. intros x y. unfold match_le. lia. Qed.

Lemma sorted_outranks (ms : list Match) :
  NoDup ((λ m, m.1.2) <$> ms) → StronglySorted outranks (merge_sort match_le ms).
Proof.
  intros Hnd. pose proof (merge_sort_Permutation match_le ms) as Hperm.
  pose proof (StronglySorted_merge_sort match_le ms) as Hs.
  rewrite <-Hperm in Hnd. clear Hperm. revert Hnd. induction Hs as [|m l Hl IH Hm]; [constructor|].
  rewrite fmap_cons, NoDup_cons. intros [Hnin Hnd]. constructor; [by apply IH|].
  rewrite Forall_forall in Hm. apply Forall_forall. intros n Hn. specialize (Hm n Hn). unfold match_le, outranks in *.
  assert (m.1.2 ≠ n.1.2); [|lia]. intros Heq. apply Hnin. rewrite Heq. by apply (list_elem_of_fmap_2 (λ m, m.1.2)).
Qed.

Lemma StronglySorted_filter {X} (R : X → X → Prop) (P : X → Prop) `{∀ x, Decision (P x)} (l : list X) :
  StronglySorted R l → StronglySorted R (filter P l).
Proof.
  induction 1 as [|a l Hl IH Ha]; [constructor|]. rewrite filter_cons. case_decide; [|done].
  constructor; [done|]. rewrite Forall_forall in Ha. apply Forall_forall.
  intros c [_ Hc]%list_elem_of_filter. by apply Ha.
Qed.

Lemma index_sorted_NoDup {X} (f : X → nat) (l : list X) :
  StronglySorted (λ a c, f c < f a) l → NoDup (f <$> l).
Proof.
  induction 1 as [|a l Hl IH Ha]; [constructor|]. rewrite fmap_cons. constructor; [|done].
  intros (c & Heq & Hc)%list_elem_of_fmap. rewrite Forall_forall in Ha. specialize (Ha c Hc). lia.
Qed.

Lemma resolve_spec {K} `{AsKeystroke K} (input : list K) contexts kb :
  StronglySorted (λ a c : nat * KeyBinding A, c.1 < a.1) kb →
  let res := resolve_bindings_for_input input contexts kb in
  ∃ ks, res.1 = (λ m, (m.1.2, m.2)) <$> ks ∧ StronglySorted outranks ks ∧
    (∀ m, m ∈ ks ↔ dispatched (completes input contexts kb) m) ∧
    (res.2 = true ↔ ∃ e, begins input contexts kb e ∧ marker e.2 = false ∧
       (∀ m, head ks = Some m → m.1.2 ≤ e.1) ∧
       ∀ e', begins input contexts kb e' → e.1 < e'.1 → marker e'.2 = true →
         keystrokes e'.2 ≠ keystrokes e.2).
Proof.
  intros Hkb. unfold resolve_bindings_for_input. cbv zeta. cbn [fst snd].
  fold (matched_bindings input contexts kb). fold (pending_bindings input contexts kb).
  destruct (resolve_matches_spec (merge_sort match_le (matched_bindings input contexts kb)))
    as [ks Hks].
  { apply sorted_outranks, index_sorted_NoDup, matched_sorted, Hkb. }
  exists ks. split; [apply Hks|]. split; [apply Hks|]. split.
  { intros m. rewrite (resolved_kept _ _ _ Hks). apply dispatched_ext. intros x.
    rewrite merge_sort_Permutation. apply elem_of_matched. }
  rewrite (resolved_first _ _ _ Hks), negb_true_iff, bool_decide_eq_false.
  assert (Hrev : ∀ e, e ∈ rev (pending_bindings input contexts kb) ↔ begins input contexts kb e).
  { intros e. rewrite list_elem_of_In, <-in_rev, <-list_elem_of_In. apply elem_of_pending. }
  pose proof (StronglySorted_rev _ _ (pending_sorted input contexts kb Hkb)) as Hs.
  assert (Hfirst : ∀ e : nat * KeyBinding A,
    past ((λ m, m.1.2) <$> head ks) e.1 ↔ ∀ m, head ks = Some m → m.1.2 ≤ e.1).
  { intros e. unfold past. destruct (head ks) as [m0|]; simpl; split; try done.
    - intros Hp m [= <-]. by apply Hp.
    - intros Hp i [= <-]. by apply Hp. }
  split.
  - intros Hne. destruct (foldl (resolve_pending _) _ _) as [|k l] eqn:Hf; [done|].
    assert (Hk : k ∈ k :: l) by apply list_elem_of_here. rewrite <-Hf in Hk.
    apply resolve_pending_spec in Hk as (e & He & Hp & Hm & <- & Hall); [|done].
    exists e. rewrite <-Hfirst, <-Hrev. setoid_rewrite <-Hrev. done.
  - intros (e & He & Hm & Hp & Hall) Hnil.
    assert (Hk : keystrokes e.2 ∈ @nil (list KeybindingKeystroke.t)); [|by apply not_elem_of_nil in Hk].
    rewrite <-Hnil. apply resolve_pending_spec; [done|]. exists e.
    rewrite Hrev, Hfirst. setoid_rewrite Hrev. done.
Qed.

(** For the bindings of a whole keymap. *)
Definition typed {K} `{AsKeystroke K} (km : Keymap.t A) (input : list K) contexts m : Prop :=
  Keymap.bindings km !! m.1.2 = Some m.2 ∧ binding_enabled m.2 contexts = Some m.1.1 ∧
  match_keystrokes m.2 input = Some false.
Definition started {K} `{AsKeystroke K} (km : Keymap.t A) (input : list K) contexts
    (e : nat * KeyBinding A) : Prop :=
  Keymap.bindings km !! e.1 = Some e.2 ∧ is_Some (binding_enabled e.2 contexts) ∧
  match_keystrokes e.2 input = Some true.

Lemma elem_of_rev_enumerate {X} (l : list X) e : e ∈ rev (enumerate l) ↔ l !! e.1 = Some e.2.
Proof.
  rewrite list_elem_of_In, <-in_rev, <-list_elem_of_In. destruct e. apply elem_of_enumerate.
Qed.

Lemma bindings_for_input_spec {K} `{AsKeystroke K} (km : Keymap.t A) (input : list K) contexts :
  let res := bindings_for_input km input contexts in
  ∃ ks, res.1 = (λ m, m.2) <$> ks ∧ StronglySorted outranks ks ∧
    (∀ m, m ∈ ks ↔ dispatched (typed km input contexts) m) ∧
    (res.2 = true ↔ ∃ e, started km input contexts e ∧ marker e.2 = false ∧
       (∀ m, head ks = Some m → m.1.2 ≤ e.1) ∧
       ∀ e', started km input contexts e' → e.1 < e'.1 → marker e'.2 = true →
         keystrokes e'.2 ≠ keystrokes e.2).
Proof.
  unfold bindings_for_input.
  destruct (resolve_spec input contexts (rev (enumerate (Keymap.bindings km))))
    as (ks & Hb & Hs & Hin & Hp).
  { apply (StronglySorted_rev _ _ (enumerate_sorted _)). }
  destruct (resolve_bindings_for_input _ _ _) as [bs pending]. simpl in *. subst bs.
  exists ks. split; [by rewrite <-list_fmap_compose|]. split; [done|]. split.
  - intros m. rewrite Hin. apply dispatched_ext. intros x. unfold completes, typed.
    by rewrite elem_of_rev_enumerate.
  - rewrite Hp. unfold begins, started. by setoid_rewrite elem_of_rev_enumerate.
Qed.

End resolution.

(** ** What can follow an input *)

Section next.
Context {A : Type} `{UserAction A} {os : Target}.
Implicit Types km : Keymap.t A.
Implicit Types b : KeyBinding A.
Implicit Types input : list Keystroke.t.

Lemma match_keystrokes_Some {K} `{AsKeystroke K} b (typed : list K) p :
  match_keystrokes b typed = Some p ↔
    length typed ≤ length (keystrokes b) ∧
    forallb (λ '(target, typed), should_match (as_keystroke typed) target)
      (zip (keystrokes b) typed) = true ∧
    p = bool_decide (length typed < length (keystrokes b)).
Proof.
  unfold match_keystrokes. case_decide; [naive_solver lia|]. case_match; naive_solver lia.
Qed.

(** What completes a longer input is started by a shorter one. *)
Lemma match_keystrokes_prefix b input rest :
  rest ≠ [] → match_keystrokes b (input ++ rest) = Some false →
  match_keystrokes b input = Some true.
Proof.
  intros Hrest (Hl & Hf & _)%match_keystrokes_Some. rewrite length_app in Hl.
  destruct rest as [|r rest]; [done|]. simpl in Hl.
  apply match_keystrokes_Some. split; [lia|]. split.
  - clear Hl Hrest. revert Hf. generalize (keystrokes b). clear.
    induction input as [|t input IH]; intros ks Hf; [by destruct ks|].
    destruct ks as [|k ks]; [done|]. simpl in *. apply andb_true_iff in Hf as [-> Hf].
    by apply IH.
  - symmetry. apply bool_decide_eq_true. lia.
Qed.

(** The input that a candidate would complete. *)
Definition completed_input input b : list Keystroke.t :=
  input ++ (as_keystroke <$> drop (length input) (keystrokes b)).

Lemma completed_input_rest input b :
  match_keystrokes b input = Some true → as_keystroke <$> drop (length input) (keystrokes b) ≠ [].
Proof.
  intros (_ & _ & Hp)%match_keystrokes_Some. symmetry in Hp. apply bool_decide_eq_true in Hp.
  intros Hnil%(f_equal length). rewrite length_fmap, length_drop in Hnil. simpl in Hnil. lia.
Qed.

(** Looking only at the bindings that extend the input is enough. *)
Lemma completes_extending km input contexts b m :
  match_keystrokes b input = Some true →
  completes (completed_input input b) contexts (bindings_extending km input) m ↔
    typed km (completed_input input b) contexts m.
Proof.
  intros Hb%completed_input_rest. unfold completes, typed, bindings_extending.
  rewrite list_elem_of_filter, elem_of_rev_enumerate. simpl. split; [naive_solver|].
  intros (Hl & He & Hm). repeat split; try done. by eapply match_keystrokes_prefix.
Qed.

Definition candidate km input contexts (e : nat * KeyBinding A) : option Match :=
  depth ← binding_enabled e.2 contexts;
  if bool_decide (e.1 ∈ (resolve_bindings_for_input (completed_input input e.2) contexts
                           (bindings_extending km input)).1.*1)
  then Some (depth, e.1, e.2) else None.

Lemma next_candidate_ok km input contexts e :
  match_keystrokes e.2 input = Some true →
  next_candidate input contexts (bindings_extending km input) e = Ok (candidate km input contexts e).
Proof.
  intros (Hl & _)%match_keystrokes_Some. unfold next_candidate, candidate.
  destruct (binding_enabled _ _); [|done]. rewrite slice_from_ok by done.
  cbn [mbind outcome_bind option_bind]. fold (completed_input input e.2).
  by destruct (resolve_bindings_for_input _ _ _).
Qed.

Lemma extending_sorted km input :
  StronglySorted (λ a c : nat * KeyBinding A, c.1 < a.1) (bindings_extending km input).
Proof.
  unfold bindings_extending. pose proof (StronglySorted_rev _ _ (enumerate_sorted (Keymap.bindings km))) as Hs.
  by apply StronglySorted_filter.
Qed.

Lemma candidate_Some km input contexts e m :
  Keymap.bindings km !! e.1 = Some e.2 → match_keystrokes e.2 input = Some true →
  candidate km input contexts e = Some m ↔
    (m.1.2, m.2) = e ∧ binding_enabled e.2 contexts = Some m.1.1 ∧
    dispatched (typed km (completed_input input e.2) contexts) m.
Proof.
  intros Hl Hm. unfold candidate.
  destruct (resolve_spec (completed_input input e.2) contexts (bindings_extending km input)
    (extending_sorted km input)) as (ks & -> & _ & Hks & _).
  setoid_rewrite (dispatched_ext _ _ _ (λ x, completes_extending km input contexts e.2 x Hm)) in Hks.
  rewrite <-list_fmap_compose. destruct (binding_enabled e.2 contexts) as [depth|] eqn:He; simpl; [|naive_solver].
  assert (Hsame : ∀ n, dispatched (typed km (completed_input input e.2) contexts) n →
    n.1.2 = e.1 → n = (depth, e.1, e.2)).
  { intros [[d i] b'] ((Hl' & He' & _) & _) Hi. simpl in *. subst i. rewrite Hl in Hl'.
    injection Hl' as <-. rewrite He in He'. by injection He' as <-. }
  case_bool_decide as Hin.
  - apply list_elem_of_fmap in Hin as (n & Hi & Hn). simpl in Hi. apply Hks in Hn.
    pose proof (Hsame n Hn (eq_sym Hi)) as ->. destruct e as [i b], m as [[d j] b']. simpl in *.
    naive_solver.
  - split; [done|]. intros (Heq & Hd & Hm'). destruct Hin. apply list_elem_of_fmap.
    exists m. split; [|by apply Hks]. by destruct e; injection Heq.
Qed.

Lemma possible_next_spec km input contexts :
  ∃ cs, possible_next_bindings_for_input km input contexts = Ok ((λ m, m.2) <$> cs) ∧
    StronglySorted outranks cs ∧
    ∀ m, m ∈ cs ↔ Keymap.bindings km !! m.1.2 = Some m.2 ∧
      match_keystrokes m.2 input = Some true ∧
      dispatched (typed km (completed_input input m.2) contexts) m.
Proof.
  set (live := filter (λ e, is_no_action (action e.2) = false ∧ is_unbind (action e.2) = false)
    (bindings_extending km input)).
  assert (Hlive : ∀ e, e ∈ live ↔ Keymap.bindings km !! e.1 = Some e.2 ∧
    match_keystrokes e.2 input = Some true ∧ marker e.2 = false).
  { intros e. unfold live, bindings_extending. rewrite !list_elem_of_filter, elem_of_rev_enumerate.
    unfold marker. rewrite orb_false_iff. tauto. }
  set (found := omap (candidate km input contexts) live).
  exists (merge_sort match_le found). split; [|split].
  - unfold possible_next_bindings_for_input. fold live.
    rewrite (mapM_ok_map _ (candidate km input contexts)); simpl.
    + do 2 f_equal. by rewrite somes_fmap.
    + apply Forall_forall. intros e (_ & He & _)%Hlive. by apply next_candidate_ok.
  - apply sorted_outranks, index_sorted_NoDup.
    apply (omap_sorted (λ a c : nat * KeyBinding A, c.1 < a.1)).
    + intros a c m n Hlt Ha Hc. unfold candidate in *.
      repeat (case_match || destruct (binding_enabled _ _); simplify_eq/=). done.
    + apply StronglySorted_filter, extending_sorted.
  - intros m. rewrite merge_sort_Permutation. unfold found. rewrite list_elem_of_omap. split.
    + intros (e & (Hl & Hm & _)%Hlive & Hc). apply candidate_Some in Hc as (<- & _ & Hd); [|done..].
      done.
    + intros (Hl & Hm & Hd). exists (m.1.2, m.2). split.
      * apply Hlive. pose proof Hd as (_ & ? & _). done.
      * apply candidate_Some; [done..|]. split; [done|]. split; [|done]. by destruct Hd as [(_ & ? & _) _].
Qed.
End next.

(** The keymaps that the application can build. *)
Inductive keymap_reachable {A} `{UserAction A} : Keymap.t A → Prop :=
| reach_default : keymap_reachable default_keymap
| reach_add km bs : keymap_reachable km → keymap_reachable (add_bindings km bs)
| reach_clear km : keymap_reachable km → keymap_reachable (keymap_clear km).

Section theorems.
Context {A : Type} `{UserAction A} {os : Target}.
Implicit Types km : Keymap.t A.
Implicit Types m : Match (A:=A).

Lemma reachable_indexed km : keymap_reachable km → indexed km.
Proof.
  induction 1 as [|km bs _ IH|km _ IH]; [apply indexed_empty|by apply add_bindings_spec|].
  apply indexed_empty.
Qed.

(** A keystroke in a keymap is matched by itself. *)
Lemma should_match_self (k : Keystroke.t) : should_match k (KeybindingKeystroke.from_keystroke k) = true.
Proof. unfold should_match. apply orb_true_intro. right. simpl. by rewrite !bool_decide_true. Qed.

(** The index of actions never goes stale: after any additions and resets, the bindings of an
    action that the index yields, without ever being out of range, are those that a scan of all
    bindings finds, in the order they were added: the ones with an equal action that no null
    binding or unbind marker added later, for the same keystrokes and a context that covers
    theirs, disables.  Additions append, and every change moves the version. *)
Theorem action_lookup_exact `{!UserActionLaws A} km bs act :
  keymap_reachable km →
  bindings_for_action km act = Ok (scan_for_action (Keymap.bindings km) act) ∧
  Keymap.bindings (add_bindings km bs) = Keymap.bindings km ++ bs ∧
  Keymap.version (add_bindings km bs) = Keymap.version km + 1 ∧
  Keymap.bindings (keymap_clear km) = [] ∧ Keymap.version (keymap_clear km) = Keymap.version km + 1.
Proof.
  intros Hk%reachable_indexed. split; [by apply bindings_for_action_scan|].
  destruct (add_bindings_spec km bs Hk) as (_ & ? & ?). done.
Qed.

(** C8: The bindings for an input are exactly the ones that the input completes in this context
    and that are no markers, are not suppressed by a null binding of higher precedence from a
    source that is as strong, and are not named by an unbind marker of higher precedence that is
    not suppressed itself; they come in order of precedence, deeper contexts first and later
    bindings first among these. *)
Theorem input_precedence {K} `{AsKeystroke K} km (input : list K) (contexts : list KeyContext.t) :
  ∃ ks, (bindings_for_input km input contexts).1 = (λ m, m.2) <$> ks ∧
    StronglySorted outranks ks ∧ ∀ m, m ∈ ks ↔ dispatched (typed km input contexts) m.
Proof.
  destruct (bindings_for_input_spec km input contexts) as (ks & ? & ? & ? & _). by exists ks.
Qed.

(** An input is incomplete exactly when some binding that is no marker needs more keystrokes,
    was added after the binding that the input dispatches, if there is one, and is not followed by
    a marker for its keystrokes that is enabled too. *)
Theorem input_pending {K} `{AsKeystroke K} km (input : list K) (contexts : list KeyContext.t) :
  (bindings_for_input km input contexts).2 = true ↔
    ∃ e, started km input contexts e ∧ marker e.2 = false ∧
      (∀ m, dispatched (typed km input contexts) m →
         (∀ n, dispatched (typed km input contexts) n → n = m ∨ outranks m n) → m.1.2 ≤ e.1) ∧
      ∀ e', started km input contexts e' → e.1 < e'.1 → marker e'.2 = true →
        keystrokes e'.2 ≠ keystrokes e.2.
Proof.
  destruct (bindings_for_input_spec km input contexts) as (ks & _ & Hs & Hin & ->).
  assert (Hhead : ∀ i, (∀ m, head ks = Some m → m.1.2 ≤ i) ↔
    ∀ m, dispatched (typed km input contexts) m →
      (∀ n, dispatched (typed km input contexts) n → n = m ∨ outranks m n) → m.1.2 ≤ i).
  { intros i. setoid_rewrite <-Hin. destruct Hs as [|m ks Hs Hm]; simpl.
    - split; [|done]. intros _ m Hm. by apply not_elem_of_nil in Hm.
    - rewrite Forall_forall in Hm. split.
      + intros Hi n Hn Hfirst. apply Hi. f_equal. specialize (Hfirst m (list_elem_of_here _ _)).
        apply elem_of_cons in Hn as [->|Hn]; [done|]. destruct Hfirst as [|Hout]; [done|].
        by destruct (outranks_asym _ _ Hout (Hm n Hn)).
      + intros Hi n [= <-]. apply Hi; [left|]. intros n [->|Hn]%elem_of_cons; auto. }
  by setoid_rewrite Hhead.
Qed.

(** The bindings offered as continuations of an input are exactly those that it starts and
    that would be dispatched in this context if the rest of their keystrokes were typed, in order
    of precedence; collecting them never indexes out of range, and resolving them against only
    the bindings that extend the input loses nothing. *)
Theorem next_bindings_dispatch km (input : list Keystroke.t) (contexts : list KeyContext.t) :
  ∃ cs, possible_next_bindings_for_input km input contexts = Ok ((λ m, m.2) <$> cs) ∧
    StronglySorted outranks cs ∧
    ∀ m, m ∈ cs ↔ Keymap.bindings km !! m.1.2 = Some m.2 ∧
      match_keystrokes m.2 input = Some true ∧
      dispatched (typed km (completed_input input m.2) contexts) m.
Proof. apply possible_next_spec. Qed.

(** An unbind marker removes every sequence with its keystrokes from the pending ones, also
    the bindings of actions it does not name: with such a marker, typing the whole sequence would
    dispatch the other action, which is offered as a continuation, but its first keystroke is
    reported as complete. *)
Theorem unbind_blocks_sequence (act : A) (action_name : list char) (k1 k2 : Keystroke.t)
    (contexts : list KeyContext.t) :
  action_name ≠ user_name act →
  let ks := KeybindingKeystroke.from_keystroke <$> [k1; k2] in
  let b := mkBinding (User act) ks None None None in
  let km := keymap_new [b; mkBinding (Unbind action_name) ks None None None] in
  bindings_for_input km [k1; k2] contexts = ([b], false) ∧
  possible_next_bindings_for_input km [k1] contexts = Ok [b] ∧
  bindings_for_input km [k1] contexts = ([], false).
Proof.
  intros Hname ks b km.
  assert (Hfull : ∀ a' : Action A, match_keystrokes (mkBinding a' ks None None None) [k1; k2] = Some false).
  { intros a'. unfold match_keystrokes, as_keystroke, keystroke_as_keystroke. simpl.
    by rewrite !should_match_self. }
  assert (Hpart : ∀ a' : Action A, match_keystrokes (mkBinding a' ks None None None) [k1] = Some true).
  { intros a'. unfold match_keystrokes, as_keystroke, keystroke_as_keystroke. simpl.
    by rewrite !should_match_self. }
  assert (Hclass : ∀ (a' : Action A) (input : list Keystroke.t) p i,
    match_keystrokes (mkBinding a' ks None None None) input = Some p →
    classify input contexts (i, mkBinding a' ks None None None)
      = Some ((length contexts, i, mkBinding a' ks None None None), p)).
  { intros a' input p i Hm. unfold classify. simpl. by rewrite Hm. }
  set (u := mkBinding (Unbind action_name) ks None None None) in *.
  pose proof (Hclass _ _ _ 1 (Hfull (Unbind action_name)) : classify _ _ (1, u) = _) as Hfu.
  pose proof (Hclass _ _ _ 0 (Hfull (User act)) : classify _ _ (0, b) = _) as Hfb.
  pose proof (Hclass _ _ _ 1 (Hpart (Unbind action_name)) : classify _ _ (1, u) = _) as Hpu.
  pose proof (Hclass _ _ _ 0 (Hpart (User act)) : classify _ _ (0, b) = _) as Hpb.
  fold u b in Hfu, Hfb, Hpu, Hpb. clear Hclass.
  assert (Hsort : ∀ l : list (Match (A:=A)),
    l = [(length contexts, 1, u); (length contexts, 0, b)] → merge_sort match_le l = l).
  { intros l ->. cbn. rewrite decide_True; [done|]. unfold match_le. simpl. lia. }
  assert (Hun : binding_is_unbound u b = false).
  { unfold binding_is_unbound. simpl. rewrite (bool_decide_false (action_name = _)) by done.
    apply andb_false_r. }
  assert (Hres : resolve_bindings_for_input [k1; k2] contexts [(1, u); (0, b)] = ([(0, b)], false)).
  { unfold resolve_bindings_for_input. cbn [omap list_omap].
    rewrite Hfu, Hfb. cbn -[merge_sort binding_is_unbound]. rewrite Hsort by done. cbn -[binding_is_unbound]. by rewrite Hun. }
  split; [|split].
  - unfold bindings_for_input. change (rev _) with [(1, u); (0, b)]. by rewrite Hres.
  - unfold possible_next_bindings_for_input, bindings_extending. change (rev _) with [(1, u); (0, b)].
    rewrite !filter_cons_True by apply Hpart. rewrite filter_nil.
    rewrite filter_cons_False by (simpl; naive_solver). rewrite filter_cons_True by done.
    rewrite filter_nil. unfold mapM_ok, next_candidate. cbn -[resolve_bindings_for_input].
    rewrite slice_from_ok by (simpl; lia). cbn -[resolve_bindings_for_input].
    change (k1 :: _) with [k1; k2]. by rewrite Hres.
  - unfold bindings_for_input. change (rev _) with [(1, u); (0, b)].
    unfold resolve_bindings_for_input. cbn [omap list_omap].
    rewrite Hpu, Hpb. cbn -[decide filter].
    rewrite decide_False by (by apply not_elem_of_nil). by rewrite filter_cons_False by naive_solver.
Qed.
End theorems.

(** ** The hypotheses can hold *)

Import NumberedActions.
Definition bind (n : N) (key : string) : KeyBinding N :=
  mkBinding (User n) [KeybindingKeystroke.mk (Keystroke.mk Modifiers.none (str key) None) None]
    None None None.

Lemma action_lookup_exact_witness :
  let km := add_bindings (keymap_new [bind 1 "a"; bind 2 "b"])
    [bind 1 "c"; mkBinding NoAction (keystrokes (bind 1 "a")) None None None] in
  keymap_reachable km ∧ bindings_for_action km (User 1%N) = Ok [bind 1 "c"].
Proof.
  split; [apply (reach_add _ _ (reach_add _ _ reach_default))|].
  eapply eq_trans.
  - apply (action_lookup_exact _ [] (User 1%N) (reach_add _ _ (reach_add _ _ reach_default))).
  - vm_compute. reflexivity.
Defined.

Lemma unbind_blocks_sequence_witness :
  let os : Target := Linux in
  let k := Keystroke.mk Modifiers.none (str "a") None in
  let ks := [KeybindingKeystroke.mk k None; KeybindingKeystroke.mk k None] in
  (bindings_for_input (keymap_new [mkBinding (User 7%N) ks None None None;
     mkBinding (Unbind [8%N]) ks None None None]) [k] []) = ([], false).
Proof.
  intros os k. refine (proj2 (proj2 (unbind_blocks_sequence 7%N [8%N] k k [] _))).
  vm_compute. discriminate.
Defined.
