(* ===== verification/DispatchTree.v ===== *)
(** The dispatch tree of [crates/gpui/src/key_dispatch.rs]: the nodes that a frame registers for
    focus, contexts and listeners, and how typed keystrokes are turned into bindings, pending input
    and replays. *)
From Stdlib Require Import NArith Ascii String.
From stdpp Require Import gmap.
From S2P Require Import Prelude Chars KeyContext Predicate Keystroke Binding Keymap.

(** [FocusId] and [EntityId] are keys of slot maps, [DispatchNodeId] is an index. *)
Notation FocusId := nat (only parsing).
Notation EntityId := nat (only parsing).
Notation DispatchNodeId := nat (only parsing).

Module DispatchNode.
(** [struct DispatchNode]; the listeners are closures of type [L]. *)
Record t (L : Type) : Type := mk {
  key_listeners : list L;
  action_listeners : list (TypeId * L);
  modifiers_changed_listeners : list L;
  context : option KeyContext.t;
  focus_id : option FocusId;
  view_id : option EntityId;
  parent : option DispatchNodeId;
}.
Arguments mk {L}.
Arguments key_listeners {L}.
Arguments action_listeners {L}.
Arguments modifiers_changed_listeners {L}.
Arguments context {L}.
Arguments focus_id {L}.
Arguments view_id {L}.
Arguments parent {L}.

Section node.
Context {L : Type}.
Implicit Types n : t L.
(** [DispatchNode { parent, ..Default::default() }], and assignments to one field. *)
Definition fresh (p : option DispatchNodeId) : t L := mk [] [] [] None None None p.
Definition set_context n (c : KeyContext.t) : t L :=
  mk (key_listeners n) (action_listeners n) (modifiers_changed_listeners n) (Some c) (focus_id n)
    (view_id n) (parent n).
Definition set_focus n (f : FocusId) : t L :=
  mk (key_listeners n) (action_listeners n) (modifiers_changed_listeners n) (context n) (Some f)
    (view_id n) (parent n).
Definition set_view n (v : EntityId) : t L :=
  mk (key_listeners n) (action_listeners n) (modifiers_changed_listeners n) (context n) (focus_id n)
    (Some v) (parent n).
Definition set_listeners n (ks : list L) (acts : list (TypeId * L)) (ms : list L) : t L :=
  mk ks acts ms (context n) (focus_id n) (view_id n) (parent n).
End node.
End DispatchNode.

Module DispatchTree.
(** [struct DispatchTree], without the keymap and the registry, which are shared with the rest of
    the application and are arguments of the operations that read them. *)
Record t (L : Type) : Type := mk {
  node_stack : list DispatchNodeId;
  context_stack : list KeyContext.t;
  view_stack : list EntityId;
  nodes : list (DispatchNode.t L);
  focusable_node_ids : gmap FocusId DispatchNodeId;
  view_node_ids : gmap EntityId DispatchNodeId;
}.
Arguments mk {L}.
Arguments node_stack {L}.
Arguments context_stack {L}.
Arguments view_stack {L}.
Arguments nodes {L}.
Arguments focusable_node_ids {L}.
Arguments view_node_ids {L}.
End DispatchTree.
Import DispatchTree.

Section tree.
Context {L : Type}.
Implicit Types self : DispatchTree.t L.
Implicit Types node_id : DispatchNodeId.

(** [new] and [clear]. *)
Definition tree_new : DispatchTree.t L := mk [] [] [] [] ∅ ∅.
Definition tree_clear self : DispatchTree.t L := mk [] [] [] [] ∅ ∅.
Definition tree_len self : nat := length (nodes self).

(** [node], [active_node_id] and the mutable borrow [active_node]. *)
Definition node self node_id : outcome (DispatchNode.t L) := index (nodes self) node_id.
Definition active_node_id self : option DispatchNodeId := last (node_stack self).
Definition update_node self node_id (f : DispatchNode.t L → DispatchNode.t L)
    : outcome (DispatchTree.t L) :=
  n ← node self node_id;
  Ok (mk (node_stack self) (context_stack self) (view_stack self) (<[node_id := f n]> (nodes self))
        (focusable_node_ids self) (view_node_ids self)).
Definition update_active self (f : DispatchNode.t L → DispatchNode.t L) : outcome (DispatchTree.t L) :=
  id ← unwrap (active_node_id self); update_node self id f.

Definition push_node self : DispatchTree.t L * DispatchNodeId :=
  let parent := last (node_stack self) in
  let node_id := length (nodes self) in
  (mk (node_stack self ++ [node_id]) (context_stack self) (view_stack self)
      (nodes self ++ [DispatchNode.fresh parent]) (focusable_node_ids self) (view_node_ids self),
   node_id).

Definition set_key_context self (context : KeyContext.t) : outcome (DispatchTree.t L) :=
  self ← update_active self (λ n, DispatchNode.set_context n context);
  Ok (mk (node_stack self) (context_stack self ++ [context]) (view_stack self) (nodes self)
        (focusable_node_ids self) (view_node_ids self)).

Definition set_focus_id self (focus_id : FocusId) : outcome (DispatchTree.t L) :=
  node_id ← unwrap (last (node_stack self));
  self ← update_node self node_id (λ n, DispatchNode.set_focus n focus_id);
  Ok (mk (node_stack self) (context_stack self) (view_stack self) (nodes self)
        (<[focus_id := node_id]> (focusable_node_ids self)) (view_node_ids self)).

Definition set_view_id self (view_id : EntityId) : outcome (DispatchTree.t L) :=
  if decide (last (view_stack self) ≠ Some view_id) then
    node_id ← unwrap (last (node_stack self));
    self ← update_node self node_id (λ n, DispatchNode.set_view n view_id);
    Ok (mk (node_stack self) (context_stack self) (view_stack self ++ [view_id]) (nodes self)
          (focusable_node_ids self) (<[view_id := node_id]> (view_node_ids self)))
  else Ok self.

Definition pop_node self : outcome (DispatchTree.t L) :=
  id ← unwrap (active_node_id self);
  n ← node self id;
  Ok (mk (pop_back (node_stack self))
        (if DispatchNode.context n then pop_back (context_stack self) else context_stack self)
        (if DispatchNode.view_id n then pop_back (view_stack self) else view_stack self)
        (nodes self) (focusable_node_ids self) (view_node_ids self)).

(** The loop of [set_active_node] that pops until the parent of the node is on top; every round
    pops one, so that the number of open nodes is enough fuel. *)
Fixpoint pop_until (fuel : nat) self (next_node_parent : option DispatchNodeId)
    : outcome (DispatchTree.t L) :=
  if decide (last (node_stack self) = next_node_parent ∨ node_stack self = []) then Ok self
  else match fuel with
       | O => OutOfFuel
       | S fuel => self ← pop_node self; pop_until fuel self next_node_parent
       end.

(** The node that becomes active and what it adds to the stacks. *)
Definition enter_node self node_id (n : DispatchNode.t L) : DispatchTree.t L :=
  mk (node_stack self ++ [node_id])
     (context_stack self ++ match DispatchNode.context n with Some c => [c] | None => [] end)
     (view_stack self ++ match DispatchNode.view_id n with Some v => [v] | None => [] end)
     (nodes self) (focusable_node_ids self) (view_node_ids self).

(** The loop over a node and its ancestors in the other branch. *)
Fixpoint enter_ancestors (fuel : nat) self (current_node_id : option DispatchNodeId)
    : outcome (DispatchTree.t L) :=
  match current_node_id, fuel with
  | None, _ => Ok self
  | Some _, O => OutOfFuel
  | Some node_id, S fuel =>
      n ← node self node_id;
      enter_ancestors fuel (enter_node self node_id n) (DispatchNode.parent n)
  end.

Definition set_active_node self node_id : outcome (DispatchTree.t L) :=
  n ← node self node_id;
  let next_node_parent := DispatchNode.parent n in
  self ← pop_until (length (node_stack self)) self next_node_parent;
  if decide (last (node_stack self) = next_node_parent) then
    n ← node self node_id;
    Ok (enter_node self node_id n)
  else
    _ ← assert_that (bool_decide (length (node_stack self) = 0));
    self ← enter_ancestors (length (nodes self) + 1) self (Some node_id);
    Ok (mk (rev (node_stack self)) (rev (context_stack self)) (rev (view_stack self)) (nodes self)
          (focusable_node_ids self) (view_node_ids self)).

(** [on_key_event], [on_modifiers_changed] and [on_action]. *)
Definition on_key_event self (listener : L) : outcome (DispatchTree.t L) :=
  update_active self (λ n, DispatchNode.set_listeners n (DispatchNode.key_listeners n ++ [listener])
    (DispatchNode.action_listeners n) (DispatchNode.modifiers_changed_listeners n)).
Definition on_modifiers_changed self (listener : L) : outcome (DispatchTree.t L) :=
  update_active self (λ n, DispatchNode.set_listeners n (DispatchNode.key_listeners n)
    (DispatchNode.action_listeners n) (DispatchNode.modifiers_changed_listeners n ++ [listener])).
Definition on_action self (action_type : TypeId) (listener : L) : outcome (DispatchTree.t L) :=
  update_active self (λ n, DispatchNode.set_listeners n (DispatchNode.key_listeners n)
    (DispatchNode.action_listeners n ++ [(action_type, listener)])
    (DispatchNode.modifiers_changed_listeners n)).

(** ** Reusing the nodes of the previous frame *)

(** [move_node]: the new tree, and the source node without its listeners. *)
Definition move_node self (source : DispatchNode.t L)
    : outcome (DispatchTree.t L * DispatchNode.t L) :=
  let self := (push_node self).1 in
  self ← match DispatchNode.context source with
         | Some context => set_key_context self context | None => Ok self
         end;
  self ← match DispatchNode.focus_id source with
         | Some focus_id => set_focus_id self focus_id | None => Ok self
         end;
  self ← match DispatchNode.view_id source with
         | Some view_id => set_view_id self view_id | None => Ok self
         end;
  self ← update_active self (λ n, DispatchNode.set_listeners n
           (DispatchNode.key_listeners source) (DispatchNode.action_listeners source)
           (DispatchNode.modifiers_changed_listeners source));
  Ok (self, DispatchNode.set_listeners source [] [] []).

(** [struct ReusedSubtree]; a range is its start and its end. *)
Record ReusedSubtree : Type := mkReused {
  old_range : nat * nat;
  new_range : nat * nat;
  contains_focus : bool;
}.
Definition refresh_node_id (reused : ReusedSubtree) node_id : outcome DispatchNodeId :=
  let '(start, finish) := old_range reused in
  _ ← assert_that (bool_decide (start ≤ node_id ∧ node_id < finish));
  d ← checked_sub node_id start;
  Ok (d + (new_range reused).1).

(** The inner loop of [reuse_subtree]: both trees leave the nodes that are no ancestors. *)
Fixpoint pop_to_ancestor (fuel : nat) self (source_stack : list DispatchNodeId)
    (parent : option DispatchNodeId) : outcome (DispatchTree.t L * list DispatchNodeId) :=
  match last source_stack, fuel with
  | None, _ => Ok (self, source_stack)
  | Some source_ancestor, fuel =>
      if decide (parent = Some source_ancestor) then Ok (self, source_stack)
      else match fuel with
           | O => OutOfFuel
           | S fuel => self ← pop_node self; pop_to_ancestor fuel self (pop_back source_stack) parent
           end
  end.

(** The state of the outer loop: the new tree, the visited source nodes, the open source nodes and
    whether the focus was seen. *)
Definition reuse_step (focus : option FocusId)
    (st : DispatchTree.t L * list (DispatchNode.t L) * list DispatchNodeId * bool)
    (entry : DispatchNodeId * DispatchNode.t L)
    : outcome (DispatchTree.t L * list (DispatchNode.t L) * list DispatchNodeId * bool) :=
  let '(self, moved, source_stack, contains_focus) := st in
  let '(source_node_id, source_node) := entry in
  '(self, source_stack) ← pop_to_ancestor (length source_stack) self source_stack
                            (DispatchNode.parent source_node);
  let contains_focus := contains_focus
    || bool_decide (DispatchNode.focus_id source_node ≠ None)
       && bool_decide (DispatchNode.focus_id source_node = focus) in
  '(self, source_node) ← move_node self source_node;
  Ok (self, moved ++ [source_node], source_stack ++ [source_node_id], contains_focus).

(** [while !source_stack.is_empty()]. *)
Fixpoint pop_all (source_stack : list DispatchNodeId) self : outcome (DispatchTree.t L) :=
  match source_stack with
  | [] => Ok self
  | _ :: source_stack => self ← pop_node self; pop_all source_stack self
  end.

(** [reuse_subtree]: the new tree, the source tree after the moves, and where the nodes went. *)
Definition reuse_subtree self (old_range : nat * nat) (source : DispatchTree.t L)
    (focus : option FocusId) : outcome (DispatchTree.t L * DispatchTree.t L * ReusedSubtree) :=
  let '(start, finish) := old_range in
  let len := finish - start in
  let new_range := (length (nodes self), length (nodes self) + len) in
  '(self, moved, source_stack, contains_focus) ←
    foldM (reuse_step focus) (self, [], [], false)
      (take len (drop start (enumerate (nodes source))));
  self ← pop_all source_stack self;
  let source := mk (node_stack source) (context_stack source) (view_stack source)
    (take start (nodes source) ++ moved ++ drop (start + length moved) (nodes source))
    (focusable_node_ids source) (view_node_ids source) in
  Ok (self, source, mkReused old_range new_range contains_focus).

(** [truncate]; slicing past the end panics. *)
Definition tree_truncate self (ix : nat) : outcome (DispatchTree.t L) :=
  dropped ← slice_from (nodes self) ix;
  Ok (mk (node_stack self) (context_stack self) (view_stack self) (take ix (nodes self))
        (foldl (λ ids n, match DispatchNode.focus_id n with Some f => delete f ids | None => ids end)
           (focusable_node_ids self) dropped)
        (foldl (λ ids n, match DispatchNode.view_id n with Some v => delete v ids | None => ids end)
           (view_node_ids self) dropped)).

(** ** Paths *)

(** The chains of parents that the loops of this file follow; [fuel] bounds their length. *)
Fixpoint ancestors (fuel : nat) self (current_node_id : option DispatchNodeId)
    : outcome (list DispatchNodeId) :=
  match current_node_id, fuel with
  | None, _ => Ok []
  | Some _, O => OutOfFuel
  | Some node_id, S fuel =>
      n ← node self node_id;
      rest ← ancestors fuel self (DispatchNode.parent n);
      Ok (node_id :: rest)
  end.

(** The loop of [dispatch_path], which ends at an index that is out of range. *)
Fixpoint dispatch_path_loop (fuel : nat) self (current_node_id : option DispatchNodeId)
    (path : list DispatchNodeId) : outcome (list DispatchNodeId) :=
  match current_node_id, fuel with
  | None, _ => Ok path
  | Some _, O => OutOfFuel
  | Some node_id, S fuel =>
      dispatch_path_loop fuel self (nodes self !! node_id ≫= DispatchNode.parent) (path ++ [node_id])
  end.
Definition path_fuel self : nat := length (nodes self) + 1.
Definition dispatch_path self (target : DispatchNodeId) : outcome (list DispatchNodeId) :=
  path ← dispatch_path_loop (path_fuel self) self (Some target) [];
  Ok (rev path).

(** [focus_path], [view_path_reversed]. *)
Definition focus_path self (focus_id : FocusId) : outcome (list FocusId) :=
  ids ← ancestors (path_fuel self) self (focusable_node_ids self !! focus_id);
  path ← mapM_ok (node self) ids;
  Ok (rev (omap (M:=list) DispatchNode.focus_id path)).
Definition view_path_reversed self (view_id : EntityId) : outcome (list EntityId) :=
  ids ← ancestors (path_fuel self) self (view_node_ids self !! view_id);
  path ← mapM_ok (node self) ids;
  Ok (omap (M:=list) DispatchNode.view_id path).

(** [focus_contains]; the loop stops when it meets the parent. *)
Fixpoint meets (fuel : nat) self (parent_node_id : DispatchNodeId)
    (current_node_id : option DispatchNodeId) : outcome bool :=
  match current_node_id, fuel with
  | None, _ => Ok false
  | Some _, O => OutOfFuel
  | Some node_id, S fuel =>
      if decide (node_id = parent_node_id) then Ok true
      else n ← node self node_id; meets fuel self parent_node_id (DispatchNode.parent n)
  end.
Definition focus_contains self (parent child : FocusId) : outcome bool :=
  if decide (parent = child) then Ok true
  else match focusable_node_ids self !! parent with
       | Some parent_node_id => meets (path_fuel self) self parent_node_id (focusable_node_ids self !! child)
       | None => Ok false
       end.

Definition focusable_node_id self (target : FocusId) : option DispatchNodeId :=
  focusable_node_ids self !! target.
Definition root_node_id self : outcome DispatchNodeId :=
  _ ← assert_that (bool_decide (nodes self ≠ [])); Ok 0.

(** [is_action_available]. *)
Definition is_action_available {A} `{UserAction A} self (act : Action A) (target : DispatchNodeId)
    : outcome bool :=
  path ← dispatch_path self target;
  found ← mapM_ok (λ id, n ← node self id;
             Ok (existsb (λ l, bool_decide (fst l = type_id act)) (DispatchNode.action_listeners n))) path;
  Ok (existsb id found).
End tree.

(** ** Dispatching keystrokes *)

(** [struct Replay] and [struct DispatchResult]. *)
Record Replay (A : Type) : Type := mkReplay {
  replay_keystroke : Keystroke.t;
  replay_bindings : list (KeyBinding A);
}.
Arguments mkReplay {A}.
Arguments replay_keystroke {A}.
Arguments replay_bindings {A}.
Record DispatchResult (A : Type) : Type := mkDispatch {
  pending : list Keystroke.t;
  pending_has_binding : bool;
  dispatch_bindings : list (KeyBinding A);
  to_replay : list (Replay A);
  result_context_stack : list KeyContext.t;
}.
Arguments mkDispatch {A}.
Arguments pending {A}.
Arguments pending_has_binding {A}.
Arguments dispatch_bindings {A}.
Arguments to_replay {A}.
Arguments result_context_stack {A}.

Section dispatch.
Context {L A : Type} `{UserAction A} {os : Target}.
Implicit Types self : DispatchTree.t L.
Implicit Types keymap : Keymap.t A.
Implicit Types input : list Keystroke.t.
Implicit Types dispatch_path : list DispatchNodeId.

(** The contexts along a path, and the bindings for an input in them. *)
Definition contexts_of self dispatch_path : outcome (list KeyContext.t) :=
  path ← mapM_ok (node self) dispatch_path;
  Ok (omap (M:=list) DispatchNode.context path).
Definition tree_bindings_for_input self keymap input dispatch_path
    : outcome (list (KeyBinding A) * bool * list KeyContext.t) :=
  context_stack ← contexts_of self dispatch_path;
  let '(bindings, partial) := bindings_for_input keymap input context_stack in
  Ok (bindings, partial, context_stack).

(** The loop of [replay_prefix] over the prefixes of the input, the longest first: the bindings of
    the first one that has any, and its length. *)
Fixpoint longest_match (len : nat) self keymap input dispatch_path
    : outcome (option (nat * list (KeyBinding A))) :=
  match len with
  | O => Ok None
  | S last =>
      '(bindings, _, _) ← tree_bindings_for_input self keymap (take (last + 1) input) dispatch_path;
      match bindings with
      | [] => longest_match last self keymap input dispatch_path
      | _ => Ok (Some (last + 1, bindings))
      end
  end.

(** [replay_prefix]; [input.remove(0)] panics on an empty input. *)
Definition replay_prefix self keymap input dispatch_path
    : outcome (list Keystroke.t * list (Replay A)) :=
  found ← longest_match (length input) self keymap input dispatch_path;
  match found with
  | Some (n, bindings) =>
      keystroke ← unwrap (last (take n input));
      Ok (drop n input, [mkReplay keystroke bindings])
  | None =>
      match input with
      | [] => Panic
      | keystroke :: input => Ok (input, [mkReplay keystroke []])
      end
  end.

(** [dispatch_key]; every round of the recursion has a shorter input. *)
Fixpoint dispatch_key (fuel : nat) self keymap input (keystroke : Keystroke.t) dispatch_path
    : outcome (DispatchResult A) :=
  match fuel with
  | O => OutOfFuel
  | S fuel =>
      let input := input ++ [keystroke] in
      '(bindings, partial, context_stack) ← tree_bindings_for_input self keymap input dispatch_path;
      if partial : bool then
        Ok (mkDispatch input (bool_decide (bindings ≠ [])) [] [] context_stack)
      else if bool_decide (bindings ≠ []) then Ok (mkDispatch [] false bindings [] context_stack)
      else if decide (length input = 1) then Ok (mkDispatch [] false [] [] context_stack)
      else
        let input := pop_back input in
        '(suffix, replayed) ← replay_prefix self keymap input dispatch_path;
        result ← dispatch_key fuel self keymap suffix keystroke dispatch_path;
        Ok (mkDispatch (pending result) (pending_has_binding result) (dispatch_bindings result)
              (replayed ++ to_replay result) (result_context_stack result))
  end.

(** [flush_dispatch]. *)
Fixpoint flush_dispatch (fuel : nat) self keymap input dispatch_path : outcome (list (Replay A)) :=
  match fuel with
  | O => OutOfFuel
  | S fuel =>
      '(suffix, replayed) ← replay_prefix self keymap input dispatch_path;
      if decide (suffix = []) then Ok replayed
      else rest ← flush_dispatch fuel self keymap suffix dispatch_path; Ok (replayed ++ rest)
  end.

(** ** The bindings to display for an action *)

Definition binding_matches_predicate_and_not_shadowed keymap (binding : KeyBinding A)
    (context_stack : list KeyContext.t) : bool :=
  match (bindings_for_input keymap (keystrokes binding) context_stack).1 with
  | found :: _ => partial_eq (action found) (action binding)
  | [] => false
  end.
Definition tree_bindings_for_action keymap (act : Action A) (context_stack : list KeyContext.t)
    : outcome (list (KeyBinding A)) :=
  bindings ← bindings_for_action keymap act;
  Ok (filter (λ b, binding_matches_predicate_and_not_shadowed keymap b context_stack = true) bindings).
Definition highest_precedence_binding_for_action keymap (act : Action A)
    (context_stack : list KeyContext.t) : outcome (option (KeyBinding A)) :=
  bindings ← bindings_for_action keymap act;
  Ok (find (λ b, binding_matches_predicate_and_not_shadowed keymap b context_stack) (rev bindings)).
End dispatch.
