(* ===== verification/DispatchTreeFacts.v ===== *)
(** The invariant of the dispatch tree: parents come before their children, the open nodes are a path from the root, and the
    stacks of contexts and views are those of the open nodes; and what the dispatch of keystrokes replays, keeps pending and
    dispatches. *)
From Stdlib Require Import NArith Ascii String.
From stdpp Require Import gmap.
From S2P Require Import Prelude Chars KeyContext Predicate Keystroke Binding Keymap DispatchTree.
Import DispatchTree.

Section facts.
Context {L : Type}.
Implicit Types ns : list (DispatchNode.t L).
Implicit Types t : DispatchTree.t L.
Implicit Types n : DispatchNode.t L.
Implicit Types i p : DispatchNodeId.
Implicit Types s : list DispatchNodeId.

(** ** Paths *)

(** A path from a root of the forest [ns] down to its last node. *)
Inductive is_path ns : list DispatchNodeId → Prop :=
| path_root i n : ns !! i = Some n → DispatchNode.parent n = None → is_path ns [i]
| path_child s p i n :
    is_path ns (s ++ [p]) → ns !! i = Some n → DispatchNode.parent n = Some p →
    is_path ns ((s ++ [p]) ++ [i]).

(** Parents come before their children. *)
Definition ordered ns : Prop :=
  ∀ i n p, ns !! i = Some n → DispatchNode.parent n = Some p → p < i.

Lemma is_path_nonempty ns s : is_path ns s → s ≠ [].
Proof. intros [] ?%(f_equal length); rewrite ?length_app in *; simpl in *; lia. Qed.

(** Taking the last node off a path. *)
Lemma is_path_snoc_inv ns s i :
  is_path ns (s ++ [i]) →
  ∃ n, ns !! i = Some n ∧ DispatchNode.parent n = last s ∧ (s = [] ∨ is_path ns s).
Proof.
  inversion 1 as [i' n Hn Hp Heq|s' p i' n Hs Hn Hp Heq].
  - destruct s as [|x [|]]; simplify_eq/=. exists n. auto.
  - apply app_inj_tail in Heq as [<- <-]. exists n. rewrite last_snoc. auto.
Qed.

Lemma is_path_snoc ns s i n :
  s = [] ∨ is_path ns s → ns !! i = Some n → DispatchNode.parent n = last s →
  is_path ns (s ++ [i]).
Proof.
  intros [->|Hs] Hn Hp; [by eapply path_root|].
  destruct s as [|p s _] using rev_ind; [by apply is_path_nonempty in Hs|].
  rewrite last_snoc in Hp. by eapply path_child.
Qed.

Lemma is_path_unique ns s1 s2 i : is_path ns (s1 ++ [i]) → is_path ns (s2 ++ [i]) → s1 = s2.
Proof.
  revert s2 i. induction s1 as [|p s1 IH] using rev_ind; intros s2 i
    (n1 & H1 & P1 & Q1)%is_path_snoc_inv (n2 & H2 & P2 & Q2)%is_path_snoc_inv; simplify_eq.
  - destruct s2 as [|p s2 _] using rev_ind; [done|]. rewrite last_snoc in P2. naive_solver.
  - rewrite last_snoc in P1. destruct s2 as [|p' s2 _] using rev_ind; [simpl in *; naive_solver|].
    rewrite last_snoc in P2. assert (p' = p) as -> by naive_solver.
    destruct Q1 as [Q1|Q1]; [by apply app_nil in Q1 as [_ ?]|].
    destruct Q2 as [Q2|Q2]; [by apply app_nil in Q2 as [_ ?]|].
    f_equal. by eapply IH.
Qed.

Lemma is_path_exists ns i :
  ordered ns → i < length ns → ∃ s, is_path ns (s ++ [i]).
Proof.
  intros Ho. induction i as [i IH] using lt_wf_ind. intros [n Hn]%lookup_lt_is_Some.
  destruct (DispatchNode.parent n) as [p|] eqn:Hp.
  - pose proof (Ho _ _ _ Hn Hp) as Hlt. pose proof (lookup_lt_Some _ _ _ Hn).
    destruct (IH p Hlt) as [s Hs]; [lia|]. exists (s ++ [p]). by eapply path_child.
  - exists []. by eapply path_root.
Qed.

(** The nodes of a path ascend, so that it has no more nodes than its last index allows. *)
Lemma is_path_bound ns s i :
  ordered ns → is_path ns (s ++ [i]) → length s ≤ i ∧ Forall (λ j, j < i) s ∧ i < length ns.
Proof.
  intros Ho. revert i. induction s as [|p s IH] using rev_ind; intros i
    (n & Hn & Hp & Hs)%is_path_snoc_inv; pose proof (lookup_lt_Some _ _ _ Hn).
  - simpl. split; [lia|]. split; [constructor|done].
  - rewrite last_snoc in Hp. destruct Hs as [Hs|Hs]; [by apply app_nil in Hs as [_ ?]|].
    apply IH in Hs as (Hl & Hall & _). pose proof (Ho _ _ _ Hn Hp).
    rewrite length_app, Forall_app, Forall_singleton. simpl. split; [lia|]. split; [|done].
    split; [|done]. eapply Forall_impl; [exact Hall|]. simpl. lia.
Qed.

Lemma is_path_mono ns ns' s :
  (∀ i n, ns !! i = Some n → i ∈ s →
     ∃ n', ns' !! i = Some n' ∧ DispatchNode.parent n' = DispatchNode.parent n) →
  is_path ns s → is_path ns' s.
Proof.
  intros Hext. induction 1 as [i n Hn Hp|s p i n Hs IH Hn Hp].
  - destruct (Hext i n Hn) as (n' & Hn' & Hp'); [set_solver|]. eapply path_root; [done|congruence].
  - destruct (Hext i n Hn) as (n' & Hn' & Hp'); [set_solver|]. eapply path_child; [|done|congruence].
    apply IH. intros j m Hm Hj. apply Hext; set_solver.
Qed.

(** ** The stacks *)

Definition contexts_at ns s : list KeyContext.t := omap (λ i, ns !! i ≫= DispatchNode.context) s.
Definition views_at ns s : list EntityId := omap (λ i, ns !! i ≫= DispatchNode.view_id) s.

Record well_formed t : Prop := {
  wf_ordered : ordered (nodes t);
  wf_stack : node_stack t = [] ∨ is_path (nodes t) (node_stack t);
  wf_contexts : context_stack t = contexts_at (nodes t) (node_stack t);
  wf_views : view_stack t = views_at (nodes t) (node_stack t);
  wf_focus f i : focusable_node_ids t !! f = Some i →
    ∃ n, nodes t !! i = Some n ∧ DispatchNode.focus_id n = Some f;
  wf_view_ids v i : view_node_ids t !! v = Some i →
    ∃ n, nodes t !! i = Some n ∧ DispatchNode.view_id n = Some v;
}.

Lemma omap_snoc {X Y} (f : X → option Y) (l : list X) x :
  omap f (l ++ [x]) = omap f l ++ match f x with Some y => [y] | None => [] end.
Proof. rewrite omap_app. done. Qed.

Lemma contexts_at_snoc ns s i n :
  ns !! i = Some n →
  contexts_at ns (s ++ [i])
    = contexts_at ns s ++ match DispatchNode.context n with Some c => [c] | None => [] end.
Proof. intros Hn. unfold contexts_at. rewrite omap_snoc. simpl. by rewrite Hn. Qed.
Lemma views_at_snoc ns s i n :
  ns !! i = Some n →
  views_at ns (s ++ [i])
    = views_at ns s ++ match DispatchNode.view_id n with Some v => [v] | None => [] end.
Proof. intros Hn. unfold views_at. rewrite omap_snoc. simpl. by rewrite Hn. Qed.

Lemma well_formed_new : well_formed tree_new.
Proof. split; try done; try by left. Qed.

(** The last open node of a well-formed tree. *)
Lemma wf_active t s i :
  well_formed t → node_stack t = s ++ [i] →
  ∃ n, nodes t !! i = Some n ∧ DispatchNode.parent n = last s ∧ (s = [] ∨ is_path (nodes t) s).
Proof.
  intros Hwf Hs. destruct (wf_stack t Hwf) as [He|Hp]; rewrite Hs in *.
  - by apply app_nil in He as [_ ?].
  - by apply is_path_snoc_inv.
Qed.

Lemma pop_node_spec t s i :
  well_formed t → node_stack t = s ++ [i] →
  ∃ t', pop_node t = Ok t' ∧ well_formed t' ∧ node_stack t' = s ∧ nodes t' = nodes t ∧
    focusable_node_ids t' = focusable_node_ids t ∧ view_node_ids t' = view_node_ids t.
Proof.
  intros Hwf Hs. destruct (wf_active t s i Hwf Hs) as (n & Hn & _ & Hp).
  unfold pop_node, active_node_id, node, index. rewrite Hs, last_snoc. simpl. rewrite Hn. simpl.
  eexists. split; [done|]. rewrite (wf_contexts t Hwf), (wf_views t Hwf), Hs.
  rewrite (contexts_at_snoc _ _ _ _ Hn), (views_at_snoc _ _ _ _ Hn), pop_back_snoc.
  split; [|done]. split; simpl; try apply Hwf; [done|..].
  - destruct (DispatchNode.context n); [by rewrite pop_back_snoc|by rewrite app_nil_r].
  - destruct (DispatchNode.view_id n); [by rewrite pop_back_snoc|by rewrite app_nil_r].
Qed.

Lemma contexts_at_app ns ns' s :
  Forall (λ i, i < length ns) s → contexts_at (ns ++ ns') s = contexts_at ns s.
Proof.
  induction 1 as [|i s Hi _ IH]; [done|]. unfold contexts_at in *. cbn.
  rewrite lookup_app_l by done. by rewrite IH.
Qed.
Lemma views_at_app ns ns' s :
  Forall (λ i, i < length ns) s → views_at (ns ++ ns') s = views_at ns s.
Proof.
  induction 1 as [|i s Hi _ IH]; [done|]. unfold views_at in *. cbn.
  rewrite lookup_app_l by done. by rewrite IH.
Qed.

Lemma is_path_in_range ns s : is_path ns s → Forall (λ i, i < length ns) s.
Proof.
  induction 1 as [i n Hn _|s p i n _ IH Hn _]; pose proof (lookup_lt_Some _ _ _ Hn).
  - by repeat constructor.
  - rewrite Forall_app, Forall_singleton. done.
Qed.
Lemma wf_stack_in_range t : well_formed t → Forall (λ i, i < length (nodes t)) (node_stack t).
Proof. intros Hwf. destruct (wf_stack t Hwf) as [->|Hp]; [constructor|by apply is_path_in_range]. Qed.

Lemma push_node_spec t :
  well_formed t →
  well_formed (push_node t).1 ∧ node_stack (push_node t).1 = node_stack t ++ [length (nodes t)] ∧
  nodes (push_node t).1 = nodes t ++ [DispatchNode.fresh (last (node_stack t))].
Proof.
  intros Hwf. split; [|done]. pose proof (wf_stack_in_range t Hwf) as Hr.
  assert (Hlast : ∀ p, last (node_stack t) = Some p → p < length (nodes t)).
  { intros p [s Hs]%last_Some. rewrite Hs, Forall_app, Forall_singleton in Hr. tauto. }
  split; simpl.
  - intros i n p [Hn|[Hi Hn]]%lookup_app_Some Hp; [by eapply wf_ordered|].
    apply list_lookup_singleton_Some in Hn as [Hi' <-]. simpl in Hp. apply Hlast in Hp. lia.
  - right. eapply is_path_snoc.
    + destruct (wf_stack t Hwf) as [He|Hp]; [by left|right].
      eapply is_path_mono; [|done]. intros i n Hn _. exists n. split; [by apply lookup_app_l_Some|done].
    + by apply list_lookup_middle.
    + done.
  - erewrite contexts_at_snoc by (by apply list_lookup_middle). simpl. rewrite app_nil_r.
    rewrite (wf_contexts t Hwf). symmetry. by apply contexts_at_app.
  - erewrite views_at_snoc by (by apply list_lookup_middle). simpl. rewrite app_nil_r.
    rewrite (wf_views t Hwf). symmetry. by apply views_at_app.
  - intros f i (n & Hn & Hf)%(wf_focus t Hwf). exists n. split; [by apply lookup_app_l_Some|done].
  - intros v i (n & Hn & Hv)%(wf_view_ids t Hwf). exists n. split; [by apply lookup_app_l_Some|done].
Qed.
(** ** Changing the active node *)

Lemma contexts_at_insert ns s i n :
  Forall (λ j, j < i) s → contexts_at (<[i := n]> ns) s = contexts_at ns s.
Proof.
  induction 1 as [|j s Hj _ IH]; [done|]. unfold contexts_at in *. cbn.
  rewrite list_lookup_insert_ne by lia. by rewrite IH.
Qed.
Lemma views_at_insert ns s i n :
  Forall (λ j, j < i) s → views_at (<[i := n]> ns) s = views_at ns s.
Proof.
  induction 1 as [|j s Hj _ IH]; [done|]. unfold views_at in *. cbn.
  rewrite list_lookup_insert_ne by lia. by rewrite IH.
Qed.

Lemma lookup_insert_node ns i j n n' m :
  ns !! i = Some n → <[i := n']> ns !! j = Some m →
  (j = i ∧ m = n') ∨ (j ≠ i ∧ ns !! j = Some m).
Proof.
  intros Hi Hj. destruct (decide (j = i)) as [->|Hne].
  - rewrite list_lookup_insert_eq in Hj by (by eapply lookup_lt_Some). left. by simplify_eq.
  - rewrite list_lookup_insert_ne in Hj by done. by right.
Qed.

(** The active node gets a new value that keeps its parent, and the stacks follow. *)
Lemma wf_replace_top t s i n n' :
  well_formed t → node_stack t = s ++ [i] → nodes t !! i = Some n →
  DispatchNode.parent n' = DispatchNode.parent n →
  (∀ f, DispatchNode.focus_id n = Some f → DispatchNode.focus_id n' = Some f) →
  (∀ v, DispatchNode.view_id n = Some v → DispatchNode.view_id n' = Some v) →
  well_formed (mk (node_stack t)
    (contexts_at (nodes t) s ++ match DispatchNode.context n' with Some c => [c] | None => [] end)
    (views_at (nodes t) s ++ match DispatchNode.view_id n' with Some v => [v] | None => [] end)
    (<[i := n']> (nodes t)) (focusable_node_ids t) (view_node_ids t)).
Proof.
  intros Hwf Hs Hn Hp Hf Hv. pose proof (lookup_lt_Some _ _ _ Hn) as Hlt.
  assert (Hpath : is_path (nodes t) (s ++ [i])).
  { destruct (wf_stack t Hwf) as [He|Hpath]; rewrite Hs in *; [|done].
    by apply app_nil in He as [_ ?]. }
  destruct (is_path_bound _ _ _ (wf_ordered t Hwf) Hpath) as (_ & Hbelow & _).
  assert (Hnew : <[i := n']> (nodes t) !! i = Some n') by by apply list_lookup_insert_eq.
  split; simpl.
  - intros j m p Hj Hmp. destruct (lookup_insert_node _ _ _ _ _ _ Hn Hj) as [[-> ->]|[_ Hj']].
    + rewrite Hp in Hmp. by eapply wf_ordered.
    + by eapply wf_ordered.
  - right. rewrite Hs. eapply is_path_mono; [|done]. intros j m Hj _.
    destruct (decide (j = i)) as [->|Hne]; [exists n'; split; congruence|].
    exists m. by rewrite list_lookup_insert_ne.
  - rewrite Hs. erewrite contexts_at_snoc by done. by rewrite contexts_at_insert.
  - rewrite Hs. erewrite views_at_snoc by done. by rewrite views_at_insert.
  - intros f j (m & Hj & Hfm)%(wf_focus t Hwf). destruct (decide (j = i)) as [->|Hne].
    + exists n'. split; [done|]. apply Hf. congruence.
    + exists m. by rewrite list_lookup_insert_ne.
  - intros v j (m & Hj & Hvm)%(wf_view_ids t Hwf). destruct (decide (j = i)) as [->|Hne].
    + exists n'. split; [done|]. apply Hv. congruence.
    + exists m. by rewrite list_lookup_insert_ne.
Qed.

(** The stacks of a tree whose last open node is [i]. *)
Lemma wf_stacks t s i n :
  well_formed t → node_stack t = s ++ [i] → nodes t !! i = Some n →
  context_stack t = contexts_at (nodes t) s
    ++ match DispatchNode.context n with Some c => [c] | None => [] end ∧
  view_stack t = views_at (nodes t) s
    ++ match DispatchNode.view_id n with Some v => [v] | None => [] end.
Proof.
  intros Hwf Hs Hn. rewrite (wf_contexts t Hwf), (wf_views t Hwf), Hs.
  split; [by apply contexts_at_snoc|by apply views_at_snoc].
Qed.

Lemma set_key_context_spec t s i n c :
  well_formed t → node_stack t = s ++ [i] → nodes t !! i = Some n → DispatchNode.context n = None →
  ∃ t', set_key_context t c = Ok t' ∧ well_formed t' ∧ node_stack t' = node_stack t ∧
    view_stack t' = view_stack t ∧ nodes t' = <[i := DispatchNode.set_context n c]> (nodes t).
Proof.
  intros Hwf Hs Hn Hc. destruct (wf_stacks t s i n Hwf Hs Hn) as [Hcs Hvs].
  unfold set_key_context, update_active, update_node, active_node_id, node, index.
  rewrite Hs, last_snoc. simpl. rewrite Hn. simpl. eexists. split; [done|].
  split; [|done].
  pose proof (wf_replace_top t s i n (DispatchNode.set_context n c) Hwf Hs Hn eq_refl
    (λ _ H, H) (λ _ H, H)) as Hnew. simpl in Hnew. rewrite Hs in Hnew.
  by rewrite Hcs, Hc, app_nil_r, Hvs.
Qed.

Lemma set_focus_id_spec t s i n f :
  well_formed t → node_stack t = s ++ [i] → nodes t !! i = Some n → DispatchNode.focus_id n = None →
  ∃ t', set_focus_id t f = Ok t' ∧ well_formed t' ∧ node_stack t' = node_stack t ∧
    view_stack t' = view_stack t ∧ nodes t' = <[i := DispatchNode.set_focus n f]> (nodes t) ∧
    focusable_node_ids t' = <[f := i]> (focusable_node_ids t).
Proof.
  intros Hwf Hs Hn Hf. destruct (wf_stacks t s i n Hwf Hs Hn) as [Hcs Hvs].
  unfold set_focus_id, update_node, node, index. rewrite Hs, last_snoc. simpl. rewrite Hn. simpl.
  eexists. split; [done|]. split; [|done].
  pose proof (wf_replace_top t s i n (DispatchNode.set_focus n f) Hwf Hs Hn eq_refl) as Hnew.
  simpl in Hnew. rewrite <-Hcs, <-Hvs, Hs in Hnew.
  specialize (Hnew ltac:(intros g Hg; congruence) (λ _ H, H)).
  split; try apply Hnew; simpl. intros g j [[<- <-]|[_ Hg]]%lookup_insert_Some.
  - exists (DispatchNode.set_focus n f). split; [|done].
    apply list_lookup_insert_eq. by eapply lookup_lt_Some.
  - by apply (wf_focus _ Hnew) in Hg.
Qed.

Lemma set_view_id_spec t s i n v :
  well_formed t → node_stack t = s ++ [i] → nodes t !! i = Some n → DispatchNode.view_id n = None →
  ∃ t', set_view_id t v = Ok t' ∧ well_formed t' ∧ node_stack t' = node_stack t ∧
    nodes t' = (if decide (last (view_stack t) = Some v) then nodes t
                else <[i := DispatchNode.set_view n v]> (nodes t)).
Proof.
  intros Hwf Hs Hn Hv. destruct (wf_stacks t s i n Hwf Hs Hn) as [Hcs Hvs].
  unfold set_view_id. destruct (decide (last (view_stack t) = Some v)) as [Hl|Hl].
  { rewrite decide_False by tauto. by exists t. }
  rewrite decide_True by done. unfold update_node, node, index. rewrite Hs, last_snoc. simpl.
  rewrite Hn. simpl. eexists. split; [done|]. split; [|done].
  pose proof (wf_replace_top t s i n (DispatchNode.set_view n v) Hwf Hs Hn eq_refl (λ _ H, H)
    ltac:(intros g Hg; congruence)) as Hnew.
  simpl in Hnew. rewrite <-Hcs in Hnew. rewrite Hvs, Hv, app_nil_r. rewrite Hs in Hnew.
  split; try apply Hnew; simpl. intros g j [[<- <-]|[_ Hg]]%lookup_insert_Some.
  - exists (DispatchNode.set_view n v). split; [|done].
    apply list_lookup_insert_eq. by eapply lookup_lt_Some.
  - by apply (wf_view_ids _ Hnew) in Hg.
Qed.

(** Registering listeners. *)
Lemma update_listeners_spec t s i n ks acts ms :
  well_formed t → node_stack t = s ++ [i] → nodes t !! i = Some n →
  well_formed (mk (node_stack t) (context_stack t) (view_stack t)
    (<[i := DispatchNode.set_listeners n ks acts ms]> (nodes t)) (focusable_node_ids t)
    (view_node_ids t)).
Proof.
  intros Hwf Hs Hn. destruct (wf_stacks t s i n Hwf Hs Hn) as [-> ->].
  apply (wf_replace_top t s i n (DispatchNode.set_listeners n ks acts ms) Hwf Hs Hn); done.
Qed.

Lemma pop_until_spec t fuel q :
  well_formed t → length (node_stack t) ≤ fuel →
  ∃ t', pop_until fuel t q = Ok t' ∧ well_formed t' ∧ nodes t' = nodes t ∧
    focusable_node_ids t' = focusable_node_ids t ∧ view_node_ids t' = view_node_ids t ∧
    (last (node_stack t') = q ∨ node_stack t' = []).
Proof.
  revert t. induction fuel as [|fuel IH]; intros t Hwf Hl; simpl.
  - rewrite decide_True by (right; by apply length_zero_iff_nil; lia). exists t.
    split_and!; try done. right. apply length_zero_iff_nil; lia.
  - destruct (decide (last (node_stack t) = q ∨ node_stack t = [])) as [Hd|Hd]; [by exists t|].
    destruct (node_stack t) as [|i s _] eqn:Hs using rev_ind; [tauto|].
    destruct (pop_node_spec t s i Hwf Hs) as (t' & -> & Hwf' & Hs' & Hns & Hf & Hv). simpl.
    rewrite length_app in Hl. simpl in Hl.
    destruct (IH t' Hwf') as (t'' & Ht & Hwf'' & Hns' & Hf' & Hv' & Hq); [rewrite Hs'; lia|].
    exists t''. split_and!; try done; congruence.
Qed.

Lemma enter_node_spec t i n :
  well_formed t → nodes t !! i = Some n → DispatchNode.parent n = last (node_stack t) →
  well_formed (enter_node t i n).
Proof.
  intros Hwf Hn Hp. split; simpl; try apply Hwf.
  - right. by eapply is_path_snoc; [apply Hwf|..].
  - by rewrite (contexts_at_snoc _ _ _ _ Hn), (wf_contexts t Hwf).
  - by rewrite (views_at_snoc _ _ _ _ Hn), (wf_views t Hwf).
Qed.

(** The loop over the ancestors pushes the path backwards. *)
Lemma enter_ancestors_spec ns fuel t s i :
  nodes t = ns → is_path ns (s ++ [i]) → length s < fuel →
  enter_ancestors fuel t (Some i) = Ok (mk (node_stack t ++ rev (s ++ [i]))
    (context_stack t ++ rev (contexts_at ns (s ++ [i])))
    (view_stack t ++ rev (views_at ns (s ++ [i]))) ns (focusable_node_ids t) (view_node_ids t)).
Proof.
  intros Ht Hpath. revert t i fuel Ht Hpath.
  induction s as [|p s IH] using rev_ind; intros t i fuel Ht
    (n & Hn & Hp & Hs)%is_path_snoc_inv Hf; (destruct fuel as [|fuel]; [lia|]);
    rewrite (contexts_at_snoc _ _ _ _ Hn), (views_at_snoc _ _ _ _ Hn), !rev_app_distr;
    simpl; unfold node, index; rewrite Ht, Hn; simpl; rewrite Hp.
  - unfold enter_node. rewrite Ht. destruct fuel; simpl;
      by destruct (DispatchNode.context n), (DispatchNode.view_id n).
  - rewrite last_snoc. destruct Hs as [Hs|Hs]; [by apply app_nil in Hs as [_ ?]|].
    rewrite length_app in Hf; simpl in Hf.
    rewrite (IH (enter_node t i n) p fuel) by (try done; lia). simpl.
    rewrite <-!app_assoc. simpl. do 2 f_equal.
    + by rewrite rev_app_distr.
    + by destruct (DispatchNode.context n).
    + by destruct (DispatchNode.view_id n).
Qed.

Lemma set_active_node_spec t i :
  well_formed t → i < length (nodes t) →
  ∃ t' s, set_active_node t i = Ok t' ∧ well_formed t' ∧ node_stack t' = s ++ [i] ∧
    nodes t' = nodes t ∧ focusable_node_ids t' = focusable_node_ids t ∧
    view_node_ids t' = view_node_ids t.
Proof.
  intros Hwf Hi. destruct (lookup_lt_is_Some_2 _ _ Hi) as [n Hn].
  unfold set_active_node, node, index. rewrite Hn. simpl.
  destruct (pop_until_spec t (length (node_stack t)) (DispatchNode.parent n) Hwf)
    as (t1 & -> & Hwf1 & Hns & Hf & Hv & Hq); [done|]. simpl. rewrite Hns, Hn. simpl.
  destruct (decide (last (node_stack t1) = DispatchNode.parent n)) as [Hl|Hl].
  { exists (enter_node t1 i n), (node_stack t1). split; [done|]. split; [|done].
    by apply enter_node_spec; [|rewrite Hns|]. }
  destruct Hq as [?|Hnil]; [done|]. rewrite Hnil. simpl.
  destruct (is_path_exists (nodes t) i (wf_ordered t Hwf) Hi) as [s Hpath].
  destruct (is_path_bound _ _ _ (wf_ordered t Hwf) Hpath) as (Hsl & _ & _).
  pose proof (wf_contexts t1 Hwf1) as Hc1. pose proof (wf_views t1 Hwf1) as Hv1.
  rewrite Hnil in Hc1, Hv1. unfold path_fuel.
  rewrite (enter_ancestors_spec (nodes t) _ t1 s i Hns Hpath) by lia. simpl.
  eexists _, s. split; [done|]. rewrite Hnil, Hc1, Hv1, !app_nil_l, !rev_involutive, Hf, Hv.
  split; [|done]. split; simpl; try done; try apply Hwf. by right.
Qed.

(** ** Following parents *)

Lemma ancestors_spec t fuel s i :
  is_path (nodes t) (s ++ [i]) → length s < fuel → ancestors fuel t (Some i) = Ok (rev (s ++ [i])).
Proof.
  revert i fuel. induction s as [|p s IH] using rev_ind; intros i fuel
    (n & Hn & Hp & Hs)%is_path_snoc_inv Hf; (destruct fuel as [|fuel]; [lia|]); simpl;
    unfold node, index; rewrite Hn; simpl; rewrite Hp.
  - by destruct fuel.
  - rewrite last_snoc. destruct Hs as [Hs|Hs]; [by apply app_nil in Hs as [_ ?]|].
    rewrite length_app in Hf; simpl in Hf. rewrite IH by (done || lia). simpl.
    by rewrite !rev_app_distr.
Qed.

Lemma dispatch_path_loop_spec t fuel s i path :
  is_path (nodes t) (s ++ [i]) → length s < fuel →
  dispatch_path_loop fuel t (Some i) path = Ok (path ++ rev (s ++ [i])).
Proof.
  revert i fuel path. induction s as [|p s IH] using rev_ind; intros i fuel path
    (n & Hn & Hp & Hs)%is_path_snoc_inv Hf; (destruct fuel as [|fuel]; [lia|]); simpl;
    rewrite Hn; simpl; rewrite Hp.
  - by destruct fuel.
  - rewrite last_snoc. destruct Hs as [Hs|Hs]; [by apply app_nil in Hs as [_ ?]|].
    rewrite length_app in Hf; simpl in Hf. rewrite IH by (done || lia).
    by rewrite !rev_app_distr, <-app_assoc.
Qed.

Lemma dispatch_path_spec t i :
  well_formed t → i < length (nodes t) →
  ∃ s, is_path (nodes t) (s ++ [i]) ∧ dispatch_path t i = Ok (s ++ [i]).
Proof.
  intros Hwf Hi. destruct (is_path_exists _ i (wf_ordered t Hwf) Hi) as [s Hs].
  destruct (is_path_bound _ _ _ (wf_ordered t Hwf) Hs) as (Hl & _ & _).
  exists s. split; [done|]. unfold dispatch_path, path_fuel.
  rewrite (dispatch_path_loop_spec _ _ s) by (done || lia). simpl. by rewrite rev_involutive.
Qed.

Lemma dispatch_path_out_of_range t i : length (nodes t) ≤ i → dispatch_path t i = Ok [i].
Proof.
  intros Hi. unfold dispatch_path, path_fuel. rewrite Nat.add_comm. simpl.
  rewrite lookup_ge_None_2 by done. simpl. by destruct (length (nodes t)).
Qed.

Lemma nodes_of_path t s :
  is_path (nodes t) s → ∃ ns, mapM_ok (node t) s = Ok ns ∧
    omap DispatchNode.context ns = contexts_at (nodes t) s.
Proof.
  intros Hs%is_path_in_range. induction Hs as [|i s [n Hn]%lookup_lt_is_Some _ (ns & IH & Hc)].
  - by exists [].
  - exists (n :: ns). simpl.
    assert (node t i = Ok n) as -> by (unfold node, index; by rewrite Hn).
    simpl. rewrite IH. split; [done|].
    unfold contexts_at in *. cbn. rewrite Hn. simpl. by rewrite <-Hc.
Qed.

Lemma contexts_of_spec t s : is_path (nodes t) s → contexts_of t s = Ok (contexts_at (nodes t) s).
Proof.
  intros Hs. unfold contexts_of. destruct (nodes_of_path t s Hs) as (ns & -> & <-). done.
Qed.

Lemma meets_spec t fuel s i p :
  is_path (nodes t) (s ++ [i]) → length s < fuel →
  meets fuel t p (Some i) = Ok (bool_decide (p ∈ s ++ [i])).
Proof.
  revert i fuel. induction s as [|q s IH] using rev_ind; intros i fuel
    (n & Hn & Hp & Hs)%is_path_snoc_inv Hf; (destruct fuel as [|fuel]; [lia|]); simpl;
    destruct (decide (i = p)) as [->|Hne];
    try (rewrite bool_decide_true by set_solver; done);
    unfold node, index; rewrite Hn; simpl; rewrite Hp.
  - rewrite bool_decide_false by set_solver. by destruct fuel.
  - rewrite last_snoc. destruct Hs as [Hs|Hs]; [by apply app_nil in Hs as [_ ?]|].
    rewrite length_app in Hf; simpl in Hf. rewrite IH by (done || lia).
    f_equal. apply bool_decide_ext. set_solver.
Qed.

Lemma focus_contains_spec t parent child :
  well_formed t →
  ∃ b, focus_contains t parent child = Ok b ∧
    (b = true ↔ parent = child ∨ ∃ p c s, focusable_node_ids t !! parent = Some p ∧
       focusable_node_ids t !! child = Some c ∧ is_path (nodes t) (s ++ [c]) ∧ p ∈ s ++ [c]).
Proof.
  intros Hwf. unfold focus_contains. destruct (decide (parent = child)) as [->|Hne].
  { exists true. naive_solver. }
  destruct (focusable_node_ids t !! parent) as [p|] eqn:Hp; [|exists false; naive_solver].
  destruct (focusable_node_ids t !! child) as [c|] eqn:Hc; last first.
  { exists false. unfold path_fuel. rewrite Nat.add_comm. simpl. naive_solver. }
  destruct (wf_focus t Hwf _ _ Hc) as (n & Hn & _).
  destruct (is_path_exists _ c (wf_ordered t Hwf) (lookup_lt_Some _ _ _ Hn)) as [s Hs].
  destruct (is_path_bound _ _ _ (wf_ordered t Hwf) Hs) as (Hl & _ & Hlt).
  rewrite (meets_spec t _ s c p Hs) by (unfold path_fuel; lia).
  eexists. split; [done|]. rewrite bool_decide_eq_true. split.
  - intros Hin. right. by exists p, c, s.
  - intros [?|(p' & c' & s' & [= <-] & [= <-] & Hs' & Hin)]; [done|].
    by rewrite (is_path_unique _ _ _ _ Hs Hs').
Qed.

(** ** Truncation *)

Lemma foldl_delete (g : DispatchNode.t L → option nat) (dropped : list (DispatchNode.t L))
    (ids : gmap nat nat) f i :
  foldl (λ ids n, match g n with Some f => delete f ids | None => ids end) ids dropped !! f = Some i →
  ids !! f = Some i ∧ ∀ n, n ∈ dropped → g n ≠ Some f.
Proof.
  revert ids. induction dropped as [|n dropped IH]; intros ids; simpl; [set_solver|].
  intros (Hids & Hall)%IH. destruct (g n) as [f'|] eqn:Hg.
  - apply lookup_delete_Some in Hids as [Hne Hids]. split; [done|]. set_solver.
  - split; [done|]. set_solver.
Qed.

Lemma contexts_at_take ns s ix :
  Forall (λ i, i < ix) s → contexts_at (take ix ns) s = contexts_at ns s.
Proof.
  induction 1 as [|i s Hi _ IH]; [done|]. unfold contexts_at in *. cbn.
  rewrite lookup_take_lt by done. by rewrite IH.
Qed.
Lemma views_at_take ns s ix : Forall (λ i, i < ix) s → views_at (take ix ns) s = views_at ns s.
Proof.
  induction 1 as [|i s Hi _ IH]; [done|]. unfold views_at in *. cbn.
  rewrite lookup_take_lt by done. by rewrite IH.
Qed.

Lemma tree_truncate_spec t ix :
  well_formed t → ix ≤ length (nodes t) → Forall (λ i, i < ix) (node_stack t) →
  ∃ t', tree_truncate t ix = Ok t' ∧ well_formed t' ∧ nodes t' = take ix (nodes t) ∧
    node_stack t' = node_stack t.
Proof.
  intros Hwf Hix Hst. unfold tree_truncate. rewrite slice_from_ok by done. simpl.
  eexists. split; [done|]. split; [|done].
  assert (Hkeep : ∀ i n, nodes t !! i = Some n → (i < ix → take ix (nodes t) !! i = Some n) ∧
    (ix ≤ i → n ∈ drop ix (nodes t))).
  { intros i n Hn. split; [intros; by rewrite lookup_take_lt|]. intros Hi.
    apply list_elem_of_lookup. exists (i - ix). rewrite lookup_drop. by replace (ix + (i - ix)) with i by lia. }
  split; simpl.
  - intros i n p [Hn _]%lookup_take_Some. by eapply wf_ordered.
  - destruct (wf_stack t Hwf) as [?|Hp]; [by left|right]. eapply is_path_mono; [|done].
    intros i n Hn Hi. exists n. rewrite Forall_forall in Hst. split; [by apply Hkeep, Hst|done].
  - by rewrite contexts_at_take, (wf_contexts t Hwf).
  - by rewrite views_at_take, (wf_views t Hwf).
  - intros f i (Hi & Hall)%foldl_delete. destruct (wf_focus t Hwf _ _ Hi) as (n & Hn & Hf).
    exists n. split; [|done]. destruct (decide (i < ix)); [by apply Hkeep|].
    destruct (Hall n); [by eapply Hkeep; [done|lia]|done].
  - intros v i (Hi & Hall)%foldl_delete. destruct (wf_view_ids t Hwf _ _ Hi) as (n & Hn & Hv).
    exists n. split; [|done]. destruct (decide (i < ix)); [by apply Hkeep|].
    destruct (Hall n); [by eapply Hkeep; [done|lia]|done].
Qed.

End facts.

Section dispatch.
Context {L A : Type} `{UserAction A} {os : Target}.
Context (self : DispatchTree.t L) (keymap : Keymap.t A) (dispatch_path : list nat).
Context (contexts : list KeyContext.t) (Hcontexts : contexts_of self dispatch_path = Ok contexts).
Implicit Types input rest : list Keystroke.t.
Implicit Types k : Keystroke.t.

(** The bindings that an input dispatches here, and whether more could follow. *)
Definition bindings_of input : list (KeyBinding A) := (bindings_for_input keymap input contexts).1.
Definition incomplete input : bool := (bindings_for_input keymap input contexts).2.

Lemma tree_bindings_for_input_ok input :
  tree_bindings_for_input self keymap input dispatch_path
    = Ok (bindings_of input, incomplete input, contexts).
Proof using Hcontexts.
  unfold tree_bindings_for_input, bindings_of, incomplete. rewrite Hcontexts.
  cbn [mbind outcome_bind]. by destruct (bindings_for_input keymap input contexts).
Qed.

(** How an input is cut into replays from its front: the longest prefix that dispatches anything,
    replayed with its bindings, or a single keystroke when no prefix does; [stuck] holds of what
    is left before every cut. *)
Inductive replayed (stuck : list Keystroke.t → Prop)
    : list Keystroke.t → list (Replay A) → list Keystroke.t → Prop :=
| replayed_none input : replayed stuck input [] input
| replayed_prefix n input k rs rest :
    stuck input → last (take n input) = Some k → n ≤ length input →
    bindings_of (take n input) ≠ [] →
    (∀ m, n < m ≤ length input → bindings_of (take m input) = []) →
    replayed stuck (drop n input) rs rest →
    replayed stuck input (mkReplay k (bindings_of (take n input)) :: rs) rest
| replayed_single input k rs rest :
    stuck (k :: input) →
    (∀ m, 0 < m ≤ length (k :: input) → bindings_of (take m (k :: input)) = []) →
    replayed stuck input rs rest →
    replayed stuck (k :: input) (mkReplay k [] :: rs) rest.

Lemma longest_match_spec input len :
  len ≤ length input →
  ∃ found, longest_match len self keymap input dispatch_path = Ok found ∧
    match found with
    | Some (n, bs) => 0 < n ≤ len ∧ bs = bindings_of (take n input) ∧ bs ≠ [] ∧
        ∀ m, n < m ≤ len → bindings_of (take m input) = []
    | None => ∀ m, 0 < m ≤ len → bindings_of (take m input) = []
    end.
Proof using Hcontexts.
  induction len as [|len IH]; intros Hl; simpl; [exists None; split; [done|]; lia|].
  rewrite tree_bindings_for_input_ok, Nat.add_1_r. simpl.
  destruct (bindings_of (take (S len) input)) as [|b bs] eqn:Hb.
  - destruct IH as (found & -> & Hf); [lia|]. exists found. split; [done|].
    destruct found as [[n bs]|].
    + destruct Hf as (? & ? & ? & Hm). split; [lia|]. split; [done|]. split; [done|].
      intros m Hm'. destruct (decide (m = S len)) as [->|]; [done|]. apply Hm. lia.
    + intros m Hm'. destruct (decide (m = S len)) as [->|]; [done|]. apply Hf. lia.
  - exists (Some (S len, b :: bs)). split; [done|]. rewrite Hb. split; [lia|]. split; [done|].
    split; [done|]. lia.
Qed.

(** One round: a shorter rest, and one more cut in front of its replays. *)
Lemma replay_prefix_spec (stuck : list Keystroke.t → Prop) input :
  input ≠ [] → stuck input →
  ∃ rest r, replay_prefix self keymap input dispatch_path = Ok (rest, [r]) ∧
    length rest < length input ∧
    ∀ rs rest', replayed stuck rest rs rest' → replayed stuck input (r :: rs) rest'.
Proof using Hcontexts.
  intros Hne Hst. unfold replay_prefix.
  destruct (longest_match_spec input (length input)) as (found & -> & Hf); [done|]. simpl.
  destruct found as [[n bs]|].
  - destruct Hf as (Hn & -> & Hbs & Hm).
    destruct (last (take n input)) as [k|] eqn:Hk; simpl.
    + eexists _, _. split; [done|]. rewrite length_drop. split; [lia|].
      intros rs rest' Hr. apply replayed_prefix; try done; lia.
    + apply last_None in Hk. apply (f_equal length) in Hk. rewrite length_take in Hk. simpl in Hk. lia.
  - destruct input as [|k input]; [done|]. eexists _, _. split; [done|]. simpl. split; [lia|].
    intros rs rest' Hr. by apply replayed_single.
Qed.

(** The result of dispatching [k] after the pending [input]. *)
Definition settles input k (res : DispatchResult A) : Prop :=
  ∃ rest,
    replayed (λ l, l ≠ [] ∧ incomplete (l ++ [k]) = false ∧ bindings_of (l ++ [k]) = [])
      input (to_replay res) rest ∧
    result_context_stack res = contexts ∧
    (if incomplete (rest ++ [k])
     then pending res = rest ++ [k] ∧ dispatch_bindings res = [] ∧
          pending_has_binding res = bool_decide (bindings_of (rest ++ [k]) ≠ [])
     else pending res = [] ∧ dispatch_bindings res = bindings_of (rest ++ [k]) ∧
          pending_has_binding res = false ∧ (rest = [] ∨ bindings_of (rest ++ [k]) ≠ [])).

Lemma dispatch_key_spec fuel input k :
  length input < fuel →
  ∃ res, dispatch_key fuel self keymap input k dispatch_path = Ok res ∧ settles input k res.
Proof using Hcontexts.
  revert input. induction fuel as [|fuel IH]; intros input Hl; [lia|]. simpl.
  rewrite tree_bindings_for_input_ok. simpl.
  destruct (incomplete (input ++ [k])) eqn:Hinc.
  { eexists. split; [done|]. exists input. rewrite Hinc. simpl. split; [constructor|done]. }
  destruct (bool_decide (bindings_of (input ++ [k]) ≠ [])) eqn:Hb.
  { eexists. split; [done|]. exists input. rewrite Hinc. simpl. split; [constructor|].
    apply bool_decide_eq_true in Hb. split_and!; auto. }
  apply bool_decide_eq_false, dec_stable in Hb.
  destruct (decide (length (input ++ [k]) = 1)) as [Hone|Hone].
  { assert (input = []) as ->.
    { rewrite length_app in Hone. simpl in Hone. apply length_zero_iff_nil. lia. }
    eexists. split; [done|]. exists []. rewrite Hinc. simpl in *. rewrite Hb. split_and!; auto; constructor. }
  assert (Hne : input ≠ []) by (by intros ->).
  unfold pop_back. rewrite length_app, Nat.add_sub, take_app_length.
  destruct (replay_prefix_spec (λ l, l ≠ [] ∧ incomplete (l ++ [k]) = false ∧
    bindings_of (l ++ [k]) = []) input Hne) as (rest & r & -> & Hlt & Hr); [done|]. simpl.
  destruct (IH rest) as (res & -> & rest' & Hrep & Hctx & Hend); [lia|]. simpl.
  eexists. split; [done|]. exists rest'. simpl. split; [by apply Hr|]. done.
Qed.

Lemma flush_dispatch_spec fuel input :
  input ≠ [] → length input ≤ fuel →
  ∃ rs, flush_dispatch fuel self keymap input dispatch_path = Ok rs ∧
    replayed (λ _, True) input rs [].
Proof using Hcontexts.
  revert input. induction fuel as [|fuel IH]; intros input Hne Hl.
  { by destruct input; [|simpl in Hl; lia]. }
  simpl. destruct (replay_prefix_spec (λ _, True) input Hne) as (rest & r & -> & Hlt & Hr); [done|].
  simpl. destruct (decide (rest = [])) as [->|Hrest].
  - eexists. split; [done|]. apply Hr. constructor.
  - destruct (IH rest) as (rs & -> & Hrs); [done|lia|]. simpl. eexists. split; [done|]. by apply Hr.
Qed.
End dispatch.

(** Searching from the back finds the last element that is kept. *)
Lemma find_rev_last {X} (f : X → bool) (l : list X) :
  find f (rev l) = last (filter (λ x, f x = true) l).
Proof.
  induction l as [|x l IH] using rev_ind; [done|]. rewrite rev_app_distr, filter_app. simpl.
  rewrite filter_cons, filter_nil. destruct (f x) eqn:Hf.
  - rewrite decide_True by done. by rewrite last_snoc.
  - rewrite decide_False by done. by rewrite app_nil_r.
Qed.
