(* ===== verification/DispatchReuse.v ===== *)
(** Reusing a subtree of the previous frame: the moved nodes are the old ones, renumbered, below
    the node that is active in the new tree. *)
From Stdlib Require Import NArith Ascii String.
From stdpp Require Import gmap.
From S2P Require Import Prelude Chars KeyContext Predicate Keystroke Binding Keymap KeymapTheorems DispatchTree DispatchTreeFacts.
Import DispatchTree.

Section reuse.
Context {L : Type}.
Implicit Types t : DispatchTree.t L.
Implicit Types n : DispatchNode.t L.
Implicit Types i p : nat.
Implicit Types s : list nat.

(** ** One node *)

(** The copy of [n] below the active node of [t]; a view that is open already is not opened again. *)
Definition moved_node t n : DispatchNode.t L :=
  DispatchNode.mk (DispatchNode.key_listeners n) (DispatchNode.action_listeners n)
    (DispatchNode.modifiers_changed_listeners n) (DispatchNode.context n) (DispatchNode.focus_id n)
    (if decide (DispatchNode.view_id n = last (view_stack t)) then None else DispatchNode.view_id n)
    (last (node_stack t)).

Lemma insert_snoc {X} (l : list X) x y : <[length l := y]> (l ++ [x]) = l ++ [y].
Proof. rewrite insert_app_r_alt, Nat.sub_diag by done. done. Qed.

(** The steps of [move_node] after the push: the last node [m] is filled in. *)
Lemma move_context_spec t ns s m c :
  well_formed t → node_stack t = s ++ [length ns] → nodes t = ns ++ [m] →
  DispatchNode.context m = None →
  ∃ t', match c with Some c => set_key_context t c | None => Ok t end = Ok t' ∧
    well_formed t' ∧ node_stack t' = node_stack t ∧ view_stack t' = view_stack t ∧
    nodes t' = ns ++ [DispatchNode.mk (DispatchNode.key_listeners m) (DispatchNode.action_listeners m)
      (DispatchNode.modifiers_changed_listeners m) c (DispatchNode.focus_id m)
      (DispatchNode.view_id m) (DispatchNode.parent m)].
Proof.
  intros Hwf Hs Hn Hc. destruct c as [c|].
  - destruct (set_key_context_spec t s (length ns) m c) as (t' & -> & ? & ? & ? & Hns); try done.
    { rewrite Hn. by apply list_lookup_middle. }
    exists t'. by rewrite Hns, Hn, insert_snoc.
  - exists t. rewrite Hn. split_and!; try done. destruct m; simpl in *. by subst.
Qed.
Lemma move_focus_spec t ns s m f :
  well_formed t → node_stack t = s ++ [length ns] → nodes t = ns ++ [m] →
  DispatchNode.focus_id m = None →
  ∃ t', match f with Some f => set_focus_id t f | None => Ok t end = Ok t' ∧
    well_formed t' ∧ node_stack t' = node_stack t ∧ view_stack t' = view_stack t ∧
    nodes t' = ns ++ [DispatchNode.mk (DispatchNode.key_listeners m) (DispatchNode.action_listeners m)
      (DispatchNode.modifiers_changed_listeners m) (DispatchNode.context m) f
      (DispatchNode.view_id m) (DispatchNode.parent m)].
Proof.
  intros Hwf Hs Hn Hc. destruct f as [f|].
  - destruct (set_focus_id_spec t s (length ns) m f) as (t' & -> & ? & ? & ? & Hns & _); try done.
    { rewrite Hn. by apply list_lookup_middle. }
    exists t'. by rewrite Hns, Hn, insert_snoc.
  - exists t. rewrite Hn. split_and!; try done. destruct m; simpl in *. by subst.
Qed.
Lemma move_view_spec t ns s m v :
  well_formed t → node_stack t = s ++ [length ns] → nodes t = ns ++ [m] →
  DispatchNode.view_id m = None →
  ∃ t', match v with Some v => set_view_id t v | None => Ok t end = Ok t' ∧
    well_formed t' ∧ node_stack t' = node_stack t ∧
    nodes t' = ns ++ [DispatchNode.mk (DispatchNode.key_listeners m) (DispatchNode.action_listeners m)
      (DispatchNode.modifiers_changed_listeners m) (DispatchNode.context m) (DispatchNode.focus_id m)
      (if decide (v = last (view_stack t)) then None else v) (DispatchNode.parent m)].
Proof.
  intros Hwf Hs Hn Hc. destruct v as [v|].
  - destruct (set_view_id_spec t s (length ns) m v) as (t' & -> & ? & ? & Hns); try done.
    { rewrite Hn. by apply list_lookup_middle. }
    exists t'. rewrite Hns, Hn. split_and!; try done.
    destruct (decide (last (view_stack t) = Some v)) as [Hl|Hl].
    + rewrite decide_True by done. destruct m; simpl in *. by subst.
    + rewrite decide_False by done. by rewrite insert_snoc.
  - exists t. rewrite Hn. split_and!; try done. destruct m; simpl in *. subst. by case_decide.
Qed.

Lemma move_node_spec t n :
  well_formed t →
  ∃ t', move_node t n = Ok (t', DispatchNode.set_listeners n [] [] []) ∧ well_formed t' ∧
    node_stack t' = node_stack t ++ [length (nodes t)] ∧ nodes t' = nodes t ++ [moved_node t n].
Proof.
  intros Hwf. destruct (push_node_spec t Hwf) as (Hwf1 & Hs1 & Hn1). unfold move_node.
  set (t1 := (push_node t).1) in *. assert (Hv1 : view_stack t1 = view_stack t) by done.
  destruct (move_context_spec t1 _ _ _ (DispatchNode.context n) Hwf1 Hs1 Hn1)
    as (t2 & -> & Hwf2 & Hs2 & Hv2 & Hn2); [done|]. cbn [mbind outcome_bind]. rewrite Hs1 in Hs2.
  destruct (move_focus_spec t2 _ _ _ (DispatchNode.focus_id n) Hwf2 Hs2 Hn2)
    as (t3 & -> & Hwf3 & Hs3 & Hv3 & Hn3); [done|]. cbn [mbind outcome_bind]. rewrite Hs2 in Hs3.
  destruct (move_view_spec t3 _ _ _ (DispatchNode.view_id n) Hwf3 Hs3 Hn3)
    as (t4 & -> & Hwf4 & Hs4 & Hn4); [done|]. cbn [mbind outcome_bind]. rewrite Hs3 in Hs4.
  unfold update_active, update_node, active_node_id, node, index. rewrite Hs4, last_snoc. simpl.
  rewrite Hn4, list_lookup_middle by done. simpl. eexists. split; [done|].
  split; [|split; [done|]].
  - pose proof (update_listeners_spec t4 _ _ _ (DispatchNode.key_listeners n)
      (DispatchNode.action_listeners n) (DispatchNode.modifiers_changed_listeners n) Hwf4 Hs4
      ltac:(rewrite Hn4; by apply list_lookup_middle)) as Hw.
    rewrite Hs4, Hn4 in Hw. exact Hw.
  - simpl. rewrite insert_snoc. do 2 f_equal. unfold moved_node, DispatchNode.set_listeners. simpl.
    by rewrite Hv3, Hv2, Hv1.
Qed.
(** ** A range of nodes *)

Section range.
Context (ns : list (DispatchNode.t L)) (start finish : nat).

(** A path from a node whose parent is before the range down to its last node, in the range. *)
Inductive range_path : list nat → Prop :=
| range_root i n :
    ns !! i = Some n → start ≤ i → (∀ p, DispatchNode.parent n = Some p → p < start) →
    range_path [i]
| range_child s p i n :
    range_path (s ++ [p]) → ns !! i = Some n → start ≤ i → DispatchNode.parent n = Some p →
    range_path ((s ++ [p]) ++ [i]).

(** The range was registered in preorder: a node in it hangs below a node outside, or on the path
    to the node before it.  This is what pushing and popping nodes gives. *)
Definition preorder : Prop := start ≤ finish ≤ length ns ∧
  ∀ i n p, start < i < finish → ns !! i = Some n → DispatchNode.parent n = Some p → start ≤ p →
    ∃ s, range_path (s ++ [i - 1]) ∧ p ∈ s ++ [i - 1].

Lemma range_path_snoc_inv s i :
  range_path (s ++ [i]) →
  ∃ n, ns !! i = Some n ∧ start ≤ i ∧ (s = [] ∨ range_path s) ∧
    match last s with
    | Some p => DispatchNode.parent n = Some p
    | None => ∀ p, DispatchNode.parent n = Some p → p < start
    end.
Proof.
  inversion 1 as [i' n Hn Hi Hp Heq|s' p i' n Hs Hn Hi Hp Heq].
  - destruct s as [|x [|]]; simplify_eq/=. exists n. auto.
  - apply app_inj_tail in Heq as [<- <-]. exists n. rewrite last_snoc. auto.
Qed.

Lemma range_path_snoc s i n :
  s = [] ∨ range_path s → ns !! i = Some n → start ≤ i →
  match last s with
  | Some p => DispatchNode.parent n = Some p
  | None => ∀ p, DispatchNode.parent n = Some p → p < start
  end → range_path (s ++ [i]).
Proof.
  intros Hs Hn Hi Hp. destruct s as [|p s _] using rev_ind; [by eapply range_root|].
  rewrite last_snoc in Hp. destruct Hs as [Hs|Hs]; [by apply app_nil in Hs as [_ ?]|].
  by eapply range_child.
Qed.

Lemma range_path_above s : range_path s → Forall (λ i, start ≤ i) s.
Proof.
  induction 1 as [i n _ Hi _|s p i n _ IH _ Hi _]; [by repeat constructor|].
  rewrite Forall_app, Forall_singleton. done.
Qed.

Lemma range_path_prefix s1 s2 : range_path (s1 ++ s2) → s1 = [] ∨ range_path s1.
Proof.
  revert s1. induction s2 as [|i s2 IH] using rev_ind; intros s1; [rewrite app_nil_r; by right|].
  rewrite app_assoc. intros (n & _ & _ & [Hs|Hs] & _)%range_path_snoc_inv; [|by apply IH].
  apply app_nil in Hs as [-> _]. by left.
Qed.

Lemma range_path_unique s1 s2 i : range_path (s1 ++ [i]) → range_path (s2 ++ [i]) → s1 = s2.
Proof.
  revert s2 i. induction s1 as [|p s1 IH] using rev_ind; intros s2 i
    (n1 & H1 & _ & Q1 & P1)%range_path_snoc_inv (n2 & H2 & _ & Q2 & P2)%range_path_snoc_inv;
    simplify_eq; destruct s2 as [|p' s2 _] using rev_ind; try done; rewrite ?last_snoc in *.
  - simpl in P1. apply P1 in P2. destruct Q2 as [Q2|Q2]; [by apply app_nil in Q2 as [_ ?]|].
    apply range_path_above in Q2. rewrite Forall_app, Forall_singleton in Q2. lia.
  - simpl in P2. apply P2 in P1. destruct Q1 as [Q1|Q1]; [by apply app_nil in Q1 as [_ ?]|].
    apply range_path_above in Q1. rewrite Forall_app, Forall_singleton in Q1. lia.
  - assert (p' = p) as -> by congruence.
    destruct Q1 as [Q1|Q1]; [by apply app_nil in Q1 as [_ ?]|].
    destruct Q2 as [Q2|Q2]; [by apply app_nil in Q2 as [_ ?]|].
    f_equal. by eapply IH.
Qed.

(** ** The loop *)

Context (base : DispatchTree.t L) (focus : option nat).
Hypothesis Hbase : well_formed base.
Hypothesis Hpre : preorder.
Hypothesis Hord : ordered ns.

(** Where a node of the range goes. *)
Definition shifted i : nat := i - start + length (nodes base).

(** The copy of a node of the range: its parent is the copy of its parent, or the node that is
    active in the new tree when its parent is not in the range. *)
Definition copied n n' : Prop :=
  DispatchNode.key_listeners n' = DispatchNode.key_listeners n ∧
  DispatchNode.action_listeners n' = DispatchNode.action_listeners n ∧
  DispatchNode.modifiers_changed_listeners n' = DispatchNode.modifiers_changed_listeners n ∧
  DispatchNode.context n' = DispatchNode.context n ∧
  DispatchNode.focus_id n' = DispatchNode.focus_id n ∧
  (DispatchNode.view_id n' = DispatchNode.view_id n ∨ DispatchNode.view_id n' = None) ∧
  DispatchNode.parent n'
    = match DispatchNode.parent n with
      | Some p => if decide (start ≤ p) then Some (shifted p) else last (node_stack base)
      | None => last (node_stack base)
      end.

(** The state after the nodes of the range below [i]. *)
Record visited (i : nat) t (moved : list (DispatchNode.t L)) s (seen : bool) : Prop := {
  visited_wf : well_formed t;
  visited_stack : node_stack t = node_stack base ++ (shifted <$> s);
  visited_nodes : ∃ copies, nodes t = nodes base ++ copies ∧
    Forall2 copied (take (i - start) (drop start ns)) copies;
  visited_moved : moved
    = (λ n, DispatchNode.set_listeners n [] [] []) <$> take (i - start) (drop start ns);
  visited_path : if decide (i = start) then s = [] else ∃ s', s = s' ++ [i - 1] ∧ range_path s;
  visited_focus : seen = true ↔ ∃ n f, n ∈ take (i - start) (drop start ns) ∧
    DispatchNode.focus_id n = Some f ∧ focus = Some f;
}.

Lemma pop_to_ancestor_spec t s q fuel :
  well_formed t → node_stack t = node_stack base ++ (shifted <$> s) → length s ≤ fuel →
  ∃ t' s1 s2, pop_to_ancestor fuel t s q = Ok (t', s1) ∧ s = s1 ++ s2 ∧ well_formed t' ∧
    node_stack t' = node_stack base ++ (shifted <$> s1) ∧ nodes t' = nodes t ∧
    ((s1 = [] ∧ ∀ x, x ∈ s → q ≠ Some x) ∨ (∃ x, last s1 = Some x ∧ q = Some x)).
Proof.
  revert t s. induction fuel as [|fuel IH]; intros t s Hwf Hs Hl.
  { destruct s; [|simpl in Hl; lia]. exists t, [], []. simpl. split_and!; try done. left. set_solver. }
  destruct s as [|x s _] using rev_ind.
  { exists t, [], []. simpl. split_and!; try done. left. set_solver. }
  simpl. rewrite last_snoc. destruct (decide (q = Some x)) as [->|Hne].
  { exists t, (s ++ [x]), []. rewrite app_nil_r, last_snoc. split_and!; try done. right. eauto. }
  rewrite fmap_app, app_assoc in Hs.
  destruct (pop_node_spec t _ _ Hwf Hs) as (t1 & -> & Hwf1 & Hs1 & Hn1 & _).
  rewrite pop_back_snoc. rewrite length_app in Hl. simpl in Hl. cbn [mbind outcome_bind].
  destruct (IH t1 s Hwf1 Hs1) as (t' & s1 & s2 & -> & -> & Hwf' & Hs' & Hn' & Hq); [lia|].
  exists t', s1, (s2 ++ [x]). rewrite app_assoc. split_and!; try done; [congruence|].
  destruct Hq as [[-> Hq]|Hq]; [left|by right]. split; [done|]. set_solver.
Qed.

Lemma take_range_S i n :
  start ≤ i → ns !! i = Some n →
  take (S i - start) (drop start ns) = take (i - start) (drop start ns) ++ [n].
Proof.
  intros Hi Hn. replace (S i - start) with (S (i - start)) by lia.
  apply take_S_r. rewrite lookup_drop. by replace (start + (i - start)) with i by lia.
Qed.

Lemma length_range i : start ≤ i ≤ finish → length (take (i - start) (drop start ns)) = i - start.
Proof using Hpre. destruct Hpre as [? _]. intros. rewrite length_take, length_drop. lia. Qed.

(** The open nodes that remain are the path to the parent. *)
Lemma kept_path i n s s1 s2 :
  start ≤ i < finish → ns !! i = Some n →
  (if decide (i = start) then s = [] else ∃ s', s = s' ++ [i - 1] ∧ range_path s) →
  s = s1 ++ s2 →
  ((s1 = [] ∧ ∀ x, x ∈ s → DispatchNode.parent n ≠ Some x) ∨
   (∃ x, last s1 = Some x ∧ DispatchNode.parent n = Some x)) →
  range_path (s1 ++ [i]).
Proof using Hpre Hord.
  intros Hi Hn Hs -> Hq. eapply range_path_snoc; [|exact Hn|lia|].
  - case_decide; [apply app_nil in Hs as [-> _]; by left|].
    destruct Hs as (s' & _ & Hs). by eapply range_path_prefix.
  - destruct Hq as [[-> Hq]|(x & -> & Hx)]; [|done]. simpl in *. intros p Hp.
    destruct (decide (p < start)) as [|Hge]; [done|]. exfalso.
    case_decide as Hfirst.
    + subst i. pose proof (Hord _ _ _ Hn Hp). lia.
    + destruct Hpre as [_ Hpre'].
      destruct (Hpre' i n p) as (s & Hs2 & Hin); [lia|done..|lia|].
      destruct Hs as (s' & -> & Hs). rewrite (range_path_unique _ _ _ Hs2 Hs) in Hin.
      by apply (Hq p).
Qed.

Lemma reuse_step_spec i n t moved s seen :
  start ≤ i < finish → ns !! i = Some n → visited i t moved s seen →
  ∃ t' moved' s' seen', reuse_step focus (t, moved, s, seen) (i, n) = Ok (t', moved', s', seen') ∧
    visited (S i) t' moved' s' seen'.
Proof using Hbase Hpre Hord.
  intros Hi Hn [Hwf Hst (copies & Hns & Hcopies) Hmoved Hpath Hseen]. unfold reuse_step.
  destruct (pop_to_ancestor_spec t s (DispatchNode.parent n) (length s) Hwf Hst)
    as (t1 & s1 & s2 & -> & Hs & Hwf1 & Hst1 & Hn1 & Hq); [done|]. cbn [mbind outcome_bind].
  pose proof (kept_path i n s s1 s2 Hi Hn Hpath Hs Hq) as Hrange.
  destruct (move_node_spec t1 n Hwf1) as (t2 & -> & Hwf2 & Hst2 & Hn2). cbn [mbind outcome_bind].
  assert (Hlen : length (nodes t1) = shifted i).
  { rewrite Hn1, Hns, length_app. apply Forall2_length in Hcopies.
    rewrite <-Hcopies, length_range by lia. unfold shifted. lia. }
  eexists _, _, _, _. split; [done|]. split; try done.
  - rewrite Hst2, Hst1, Hlen, fmap_app, app_assoc. done.
  - exists (copies ++ [moved_node t1 n]). rewrite Hn2, Hn1, Hns, app_assoc. split; [done|].
    rewrite (take_range_S _ _ (proj1 Hi) Hn). apply Forall2_app; [done|]. constructor; [|constructor].
    unfold copied, moved_node. simpl. do 5 (split; [done|]).
    split; [destruct (decide (DispatchNode.view_id n = _)); [by right|by left]|]. rewrite Hst1. destruct Hq as [[-> Hq]|(x & Hx & ->)].
    + rewrite fmap_nil, app_nil_r. destruct (DispatchNode.parent n) as [p|] eqn:Hp; [|done].
      destruct (decide (start ≤ p)) as [Hge|]; [|done]. exfalso.
      apply range_path_snoc_inv in Hrange as (n' & Hn' & _ & _ & Hp'). simpl in Hp'.
      assert (n' = n) as -> by congruence. specialize (Hp' p Hp). lia.
    + apply last_Some in Hx as [s1' ->]. rewrite fmap_app, app_assoc, fmap_cons, fmap_nil, last_snoc.
      apply range_path_snoc_inv in Hrange as (_ & _ & _ & [Hr|Hr] & _);
        [by apply app_nil in Hr as [_ ?]|].
      apply range_path_above in Hr. rewrite Forall_app, Forall_singleton in Hr.
      by rewrite decide_True by tauto.
  - rewrite (take_range_S _ _ (proj1 Hi) Hn), fmap_app. by rewrite Hmoved.
  - rewrite decide_False by lia. exists s1. by rewrite Nat.sub_succ, Nat.sub_0_r.
  - rewrite (take_range_S _ _ (proj1 Hi) Hn), orb_true_iff, Hseen, andb_true_iff, !bool_decide_eq_true.
    setoid_rewrite elem_of_snoc_iff. split.
    + intros [(m & f & Hm & Hf)|[Hf1 Hf2]]; [exists m, f; naive_solver|].
      destruct (DispatchNode.focus_id n) as [f|] eqn:Hf; [|done]. exists n, f. auto.
    + intros (m & f & [Hm| ->] & Hf & ->); [left; eauto|right]. by rewrite Hf.
Qed.

Lemma reuse_loop_spec k :
  start + k ≤ finish →
  ∃ t moved s seen,
    foldM (reuse_step focus) (base, [], [], false) (take k (drop start (enumerate ns)))
      = Ok (t, moved, s, seen) ∧ visited (start + k) t moved s seen.
Proof using Hbase Hpre Hord.
  induction k as [|k IH]; intros Hk.
  - exists base, [], [], false. rewrite Nat.add_0_r. split; [done|]. split; try done.
    + by rewrite app_nil_r.
    + exists []. rewrite app_nil_r, Nat.sub_diag. by split; [|constructor].
    + by rewrite Nat.sub_diag.
    + by rewrite decide_True.
    + rewrite Nat.sub_diag. simpl. split; [done|]. set_solver.
  - destruct IH as (t & moved & s & seen & Hf & Hv); [lia|].
    destruct Hpre as [Hrng _].
    destruct (lookup_lt_is_Some_2 ns (start + k)) as [n Hn]; [lia|].
    assert (Hent : drop start (enumerate ns) !! k = Some (start + k, n)).
    { rewrite lookup_drop. unfold enumerate. rewrite lookup_zip_with.
      rewrite lookup_seq_lt by lia. simpl. by rewrite Hn. }
    rewrite (take_S_r _ _ _ Hent), foldM_app, Hf. cbn [mbind outcome_bind foldM].
    destruct (reuse_step_spec (start + k) n t moved s seen) as (t' & moved' & s' & seen' & -> & Hv');
      [lia|done..|]. cbn [mbind outcome_bind]. exists t', moved', s', seen'.
    rewrite Nat.add_succ_r. done.
Qed.

Lemma pop_all_spec t s t0 (opened : list nat) :
  well_formed t → node_stack t = node_stack t0 ++ s → length opened = length s →
  ∃ t', pop_all opened t = Ok t' ∧ well_formed t' ∧ node_stack t' = node_stack t0 ∧ nodes t' = nodes t.
Proof.
  revert t opened. induction s as [|x s IH] using rev_ind; intros t opened Hwf Hs Hl.
  { destruct opened; [|done]. exists t. rewrite app_nil_r in Hs. done. }
  rewrite length_app, Nat.add_1_r in Hl. destruct opened as [|y opened]; [done|].
  rewrite app_assoc in Hs. simpl.
  destruct (pop_node_spec t _ _ Hwf Hs) as (t1 & -> & Hwf1 & Hs1 & Hn1 & _). cbn [mbind outcome_bind].
  destruct (IH t1 opened Hwf1 Hs1) as (t' & -> & Hwf' & Hs' & Hn'); [simpl in Hl; lia|].
  exists t'. split_and!; try done. congruence.
Qed.
End range.

End reuse.
