(* ===== verification/DispatchTheorems.v ===== *)
(** What the dispatch tree promises: its invariant, the paths along which events travel, the reuse
    of subtrees and the dispatch of keystrokes. *)
From Stdlib Require Import NArith Ascii String.
From stdpp Require Import gmap.
From S2P Require Import Prelude Chars KeyContext Predicate Keystroke Binding Keymap DispatchTree DispatchTreeFacts DispatchReuse.
Import DispatchTree.

Section tree.
Context {L : Type}.
Implicit Types t : DispatchTree.t L.

(** The calls that build a tree while a frame is drawn. *)
Inductive TreeOp : Type :=
| OpClear | OpPush | OpPop
| OpContext (c : KeyContext.t) | OpFocus (f : nat) | OpView (v : nat)
| OpKey (l : L) | OpModifiers (l : L) | OpAction (ty : TypeId) (l : L)
| OpActivate (i : nat) | OpTruncate (i : nat).

Definition run_op t (op : TreeOp) : outcome (DispatchTree.t L) :=
  match op with
  | OpClear => Ok (tree_clear t)
  | OpPush => Ok (push_node t).1
  | OpPop => pop_node t
  | OpContext c => set_key_context t c
  | OpFocus f => set_focus_id t f
  | OpView v => set_view_id t v
  | OpKey l => on_key_event t l
  | OpModifiers l => on_modifiers_changed t l
  | OpAction ty l => on_action t ty l
  | OpActivate i => set_active_node t i
  | OpTruncate i => tree_truncate t i
  end.

(** When an element may make them: a node is open where one is needed, it gets its context, its
    focus and its view once, and no open node is cut off. *)
Definition active t (P : DispatchNode.t L → Prop) : Prop :=
  ∃ s i n, node_stack t = s ++ [i] ∧ nodes t !! i = Some n ∧ P n.
Definition allowed t (op : TreeOp) : Prop :=
  match op with
  | OpClear | OpPush => True
  | OpPop | OpKey _ | OpModifiers _ | OpAction _ _ => active t (λ _, True)
  | OpContext _ => active t (λ n, DispatchNode.context n = None)
  | OpFocus _ => active t (λ n, DispatchNode.focus_id n = None)
  | OpView _ => active t (λ n, DispatchNode.view_id n = None)
  | OpActivate i => i < length (nodes t)
  | OpTruncate i => i ≤ length (nodes t) ∧ Forall (λ j, j < i) (node_stack t)
  end.

Lemma listener_spec t s i n f :
  well_formed t → node_stack t = s ++ [i] → nodes t !! i = Some n →
  (∃ ks acts ms, f n = DispatchNode.set_listeners n ks acts ms) →
  ∃ t', update_active t f = Ok t' ∧ well_formed t'.
Proof.
  intros Hwf Hs Hn (ks & acts & ms & Hf).
  unfold update_active, update_node, active_node_id, node, index. rewrite Hs, last_snoc. simpl.
  rewrite Hn. simpl. eexists. split; [done|]. rewrite Hf.
  pose proof (update_listeners_spec t s i n ks acts ms Hwf Hs Hn) as Hw. by rewrite Hs in Hw.
Qed.

Lemma run_op_ok t (op : TreeOp) :
  well_formed t → allowed t op → ∃ t', run_op t op = Ok t' ∧ well_formed t'.
Proof.
  intros Hwf Hop. destruct op; simpl in *;
    try (destruct Hop as (s & i & n & Hs & Hn & Hc)).
  - exists (tree_clear t). split; [done|apply well_formed_new].
  - eexists. split; [done|by apply push_node_spec].
  - destruct (pop_node_spec t s i Hwf Hs) as (t' & ? & ? & _). by exists t'.
  - destruct (set_key_context_spec t s i n c Hwf Hs Hn Hc) as (t' & ? & ? & _). by exists t'.
  - destruct (set_focus_id_spec t s i n f Hwf Hs Hn Hc) as (t' & ? & ? & _). by exists t'.
  - destruct (set_view_id_spec t s i n v Hwf Hs Hn Hc) as (t' & ? & ? & _). by exists t'.
  - eapply listener_spec; eauto.
  - eapply listener_spec; eauto.
  - eapply listener_spec; eauto.
  - destruct (set_active_node_spec t i Hwf Hop) as (t' & s & ? & ? & _). by exists t'.
  - destruct Hop as [Hi Hs]. destruct (tree_truncate_spec t i Hwf Hi Hs) as (t' & ? & ? & _). by exists t'.
Qed.

(** C10: Drawing a frame keeps the dispatch tree consistent: none of the calls panics, parents
    stay before their children, the open nodes stay a path from the root, and the stacks of key
    contexts and of views are those of the open nodes, also after jumping to another node with
    [set_active_node], which ends with that node open; the maps of focus handles and views lead
    to nodes that carry them. *)
Theorem dispatch_tree_invariant t (op : TreeOp) :
  well_formed t → allowed t op →
  ∃ t', run_op t op = Ok t' ∧ well_formed t' ∧
    ∀ i, op = OpActivate i → last (node_stack t') = Some i ∧ nodes t' = nodes t.
Proof.
  intros Hwf Hop. destruct (run_op_ok t op Hwf Hop) as (t' & Ht' & Hwf'). exists t'.
  split; [done|]. split; [done|]. intros i ->. simpl in *.
  destruct (set_active_node_spec t i Hwf Hop) as (t2 & s & Ht2 & _ & Hs & Hn & _).
  assert (t' = t2) as -> by congruence. by rewrite Hs, last_snoc.
Qed.

(** The path of an event runs from a root down to its target, each node the parent of the
    next, and the contexts along it are the contexts that were on the stack when the target was
    the active node; one focus handle contains another exactly when they are the same or the
    node of the first is on the path to the node of the second.  The loops over parents end. *)
Theorem dispatch_paths t (target parent child : nat) :
  well_formed t → target < length (nodes t) →
  (∃ path, dispatch_path t target = Ok path ∧ is_path (nodes t) path ∧ last path = Some target ∧
     (node_stack t = path ∨ last (node_stack t) ≠ Some target) ∧
     (last (node_stack t) = Some target → contexts_of t path = Ok (context_stack t))) ∧
  (∃ b, focus_contains t parent child = Ok b ∧
     (b = true ↔ parent = child ∨ ∃ p c path,
        focusable_node_ids t !! parent = Some p ∧ focusable_node_ids t !! child = Some c ∧
        dispatch_path t c = Ok path ∧ p ∈ path)).
Proof.
  intros Hwf Hi. split.
  - destruct (dispatch_path_spec t target Hwf Hi) as (s & Hs & Hd).
    exists (s ++ [target]). rewrite last_snoc. split; [done|]. split; [done|]. split; [done|].
    assert (Heq : last (node_stack t) = Some target → node_stack t = s ++ [target]).
    { intros [s' Hs']%last_Some. destruct (wf_stack t Hwf) as [He|Hp]; rewrite Hs' in *.
      - by apply app_nil in He as [_ ?].
      - by rewrite (is_path_unique _ _ _ _ Hp Hs). }
    split.
    + destruct (decide (last (node_stack t) = Some target)); [left; by apply Heq|by right].
    + intros Hl. rewrite (contexts_of_spec t _ Hs), (wf_contexts t Hwf). by rewrite (Heq Hl).
  - destruct (focus_contains_spec t parent child Hwf) as (b & Hb & Hiff). exists b. split; [done|].
    rewrite Hiff. split; (intros [?|(p & c & s & Hp & Hc & Hrest)]; [by left|right]).
    + destruct Hrest as [Hs Hin]. exists p, c, (s ++ [c]). split; [done|]. split; [done|].
      destruct (wf_focus t Hwf _ _ Hc) as (n & Hn & _).
      destruct (dispatch_path_spec t c Hwf (lookup_lt_Some _ _ _ Hn)) as (s' & Hs' & ->).
      by rewrite (is_path_unique _ _ _ _ Hs' Hs).
    + destruct Hrest as [Hd Hin]. destruct (wf_focus t Hwf _ _ Hc) as (n & Hn & _).
      destruct (dispatch_path_spec t c Hwf (lookup_lt_Some _ _ _ Hn)) as (s' & Hs' & Hd').
      exists p, c, s'. rewrite Hd in Hd'. injection Hd' as ->. done.
Qed.

(** C11: Reusing a range of nodes that the previous frame registered in preorder copies them in
    order below the active node, with their contexts, focus handles and listeners and with their
    parents renumbered, leaves every open node and both stacks as they were, takes the listeners
    out of the old nodes and nothing else; [refresh_node_id] gives the index of the copy of a
    node of the range and panics on any other, and the focus is reported when it was moved. *)
Theorem reuse_subtree_copies t (source : DispatchTree.t L) (start finish : nat) (focus : option nat) :
  well_formed t → well_formed source → preorder (nodes source) start finish →
  let range := take (finish - start) (drop start (nodes source)) in
  ∃ t' source' reused copies,
    reuse_subtree t (start, finish) source focus = Ok (t', source', reused) ∧
    well_formed t' ∧ node_stack t' = node_stack t ∧ context_stack t' = context_stack t ∧
    view_stack t' = view_stack t ∧
    nodes t' = nodes t ++ copies ∧ Forall2 (copied start t) range copies ∧
    nodes source' = take start (nodes source)
      ++ ((λ n, DispatchNode.set_listeners n [] [] []) <$> range) ++ drop finish (nodes source) ∧
    (∀ i, refresh_node_id reused i
       = if decide (start ≤ i < finish) then Ok (shifted start t i) else Panic) ∧
    (contains_focus reused = true ↔
       ∃ n f, n ∈ range ∧ DispatchNode.focus_id n = Some f ∧ focus = Some f).
Proof.
  intros Hwf Hsrc Hpre range. unfold reuse_subtree.
  destruct (reuse_loop_spec (nodes source) start finish t focus Hwf Hpre (wf_ordered _ Hsrc)
    (finish - start)) as (t1 & moved & s & seen & -> & Hv).
  { destruct Hpre. lia. }
  cbn [mbind outcome_bind]. destruct Hpre as [Hrng Hpre].
  destruct Hv as [Hwf1 Hst1 (copies & Hns1 & Hcopies) Hmoved _ Hseen].
  replace (start + (finish - start) - start) with (finish - start) in * by lia. fold range in Hcopies, Hmoved, Hseen.
  destruct (pop_all_spec t1 _ t s Hwf1 Hst1) as (t2 & -> & Hwf2 & Hst2 & Hns2); [by rewrite length_fmap|].
  cbn [mbind outcome_bind]. eexists _, _, _, copies. split; [done|]. split; [done|]. split; [done|].
  rewrite Hns1 in Hns2. pose proof (wf_stack_in_range t Hwf) as Hin.
  split; [|split; [|split; [done|split; [done|split; [|split; [|done]]]]]].
  - rewrite (wf_contexts t2 Hwf2), (wf_contexts t Hwf), Hst2, Hns2. by apply contexts_at_app.
  - rewrite (wf_views t2 Hwf2), (wf_views t Hwf), Hst2, Hns2. by apply views_at_app.
  - simpl. rewrite Hmoved, length_fmap. do 3 f_equal. unfold range.
    rewrite length_take, length_drop. lia.
  - intros i. unfold refresh_node_id. simpl. unfold assert_that.
    destruct (decide (start ≤ i < finish)) as [Hi|Hi].
    + rewrite bool_decide_true by done. simpl. rewrite checked_sub_ok by lia. done.
    + by rewrite bool_decide_false.
Qed.
End tree.

Section keys.
Context {L A : Type} `{UserAction A} {os : Target}.
Implicit Types t : DispatchTree.t L.

(** C9: Dispatching a keystroke after pending input always ends.  The pending input is replayed
    from its front, the longest prefix with bindings at a time or else one keystroke, only while
    what is left does not become incomplete or complete with the new keystroke; what is left then
    is kept pending together with it when more could follow, and is dispatched otherwise, and
    then either it has bindings or the keystroke stands alone.  Flushing replays all of a
    non-empty input in the same way. *)
Theorem dispatch_key_settles t (keymap : Keymap.t A) (path : list nat) (contexts : list KeyContext.t)
    (input : list Keystroke.t) (keystroke : Keystroke.t) :
  contexts_of t path = Ok contexts →
  (∃ res, dispatch_key (length input + 1) t keymap input keystroke path = Ok res ∧
     settles keymap contexts input keystroke res) ∧
  (input ≠ [] → ∃ rs, flush_dispatch (length input) t keymap input path = Ok rs ∧
     replayed keymap contexts (λ _, True) input rs []).
Proof.
  intros Hc. split; [apply dispatch_key_spec; [done|lia]|].
  intros Hne. by apply flush_dispatch_spec.
Qed.

(** The binding that is displayed for an action is the last of those that apply. *)
Lemma highest_precedence_is_last (keymap : Keymap.t A) (act : Action A) (contexts : list KeyContext.t) :
  highest_precedence_binding_for_action keymap act contexts
    = (last <$> tree_bindings_for_action keymap act contexts).
Proof.
  unfold highest_precedence_binding_for_action, tree_bindings_for_action.
  destruct (bindings_for_action keymap act); simpl; try done. by rewrite find_rev_last.
Qed.
End keys.

(** ** The hypotheses can hold *)

Import NumberedActions.

Definition two_nodes : DispatchTree.t nat := (push_node (push_node tree_new).1).1.
Lemma two_nodes_wf : well_formed two_nodes.
Proof. apply push_node_spec, push_node_spec, well_formed_new. Qed.

Lemma dispatch_tree_invariant_witness :
  ∃ t', run_op two_nodes (OpActivate 0) = Ok t' ∧ well_formed t' ∧ last (node_stack t') = Some 0.
Proof.
  destruct (dispatch_tree_invariant two_nodes (OpActivate 0) two_nodes_wf) as (t' & ? & ? & Ha).
  - simpl. lia.
  - exists t'. split; [done|]. split; [done|]. by apply (Ha 0).
Defined.

Lemma dispatch_paths_witness :
  ∃ path, dispatch_path two_nodes 1 = Ok path ∧ last path = Some 1.
Proof.
  destruct (dispatch_paths two_nodes 1 0 0 two_nodes_wf) as [(path & Hp & _ & Hl & _) _].
  - simpl. lia.
  - exists path. done.
Defined.

Lemma reuse_subtree_copies_witness :
  preorder (nodes two_nodes) 0 2 ∧
  ∃ t' source' reused, reuse_subtree two_nodes (0, 2) two_nodes None = Ok (t', source', reused) ∧
    refresh_node_id reused 1 = Ok 3.
Proof.
  assert (Hpre : preorder (nodes two_nodes) 0 2).
  { split; [simpl; lia|]. intros i n p Hi Hn Hp _. assert (i = 1) as -> by lia. injection Hn as <-.
    injection Hp as <-. exists []. split; [|solve_char]. by eapply range_root; [done|lia|]. }
  split; [exact Hpre|].
  destruct (reuse_subtree_copies two_nodes two_nodes 0 2 None two_nodes_wf two_nodes_wf Hpre)
    as (t' & source' & reused & copies & Hr & _ & _ & _ & _ & _ & _ & _ & Hid & _).
  exists t', source', reused. split; [exact Hr|]. rewrite Hid. reflexivity.
Defined.

Lemma dispatch_key_settles_witness :
  let os : Target := Linux in
  let k := Keystroke.mk Modifiers.none (str "a") None in
  let keymap := keymap_new [mkBinding (User 7%N) [KeybindingKeystroke.mk k None;
    KeybindingKeystroke.mk k None] None None None] in
  ∃ res, dispatch_key (os:=os) (L:=nat) (A:=N) 1 tree_new keymap [] k [] = Ok res ∧ pending res = [k].
Proof.
  intros os k keymap.
  destruct (dispatch_key_settles (os:=os) (tree_new (L:=nat)) keymap [] [] [] k eq_refl)
    as [(res & Hres & _) _].
  exists res. split; [exact Hres|]. vm_compute in Hres. injection Hres as <-. reflexivity.
Defined.
