(* ===== verification/TabStops.v ===== *)
(** Tab stops of [crates/gpui/src/tab_stop.rs]: the order in which the tab key visits the focusable
    elements of a frame, kept in a sum tree of nodes sorted by tab index. *)
From Stdlib Require Import ZArith.
From stdpp Require Import gmap.
From S2P Require Import Prelude SumTree Cursor Keyed.

(** [struct FocusHandle], the fields that this file reads; [TabIndex] is an [isize]. *)
Record FocusHandle : Type := mkHandle { handle_id : nat; tab_index : Z; handle_tab_stop : bool }.
#[export] Instance FocusHandle_eq_dec : EqDecision FocusHandle.
Proof. solve_decision. Defined.

(** [enum TabStopOperation]. *)
Inductive TabStopOperation : Type :=
| OpInsert (focus_handle : FocusHandle)
| OpGroup (tab_index : Z)
| OpGroupEnd.
Definition focus_handle (self : TabStopOperation) : option FocusHandle :=
  match self with OpInsert h => Some h | _ => None end.

(** [struct TabStopNode], with its path. *)
Record TabStopNode : Type := mkTabNode {
  node_path : list Z;
  node_insertion_index : nat;
  tab_stop : bool;
}.
#[export] Instance TabStopNode_eq_dec : EqDecision TabStopNode.
Proof. solve_decision. Defined.

(** The derived order of paths, and [impl Ord for TabStopNode]. *)
Fixpoint path_cmp (a b : list Z) : comparison :=
  match a, b with
  | [], [] => Eq
  | [], _ :: _ => Lt
  | _ :: _, [] => Gt
  | x :: a, y :: b => match (x ?= y)%Z with Eq => path_cmp a b | c => c end
  end.
Definition node_cmp (a b : TabStopNode) : comparison :=
  match path_cmp (node_path a) (node_path b) with
  | Eq => node_insertion_index a ?= node_insertion_index b
  | c => c
  end.
#[export] Instance tab_node_ord : Ord TabStopNode := node_cmp.

(** [struct TabStopOrderNodeSummary], and the traits of the sum tree. *)
Record TabStopOrderNodeSummary : Type := mkTabSummary {
  max_index : nat;
  max_path : list Z;
  tab_stops : nat;
}.
#[export] Instance tab_summary : Summary () TabStopOrderNodeSummary := {|
  zero := λ _, mkTabSummary 0 [] 0;
  add_summary := λ _ self summary,
    mkTabSummary (max_index summary) (max_path summary) (tab_stops self + tab_stops summary);
|}.
#[export] Instance tab_item : Item () TabStopOrderNodeSummary TabStopNode := λ _ n,
  mkTabSummary (node_insertion_index n) (node_path n) (if tab_stop n then 1 else 0).
#[export] Instance tab_keyed : KeyedItem TabStopNode TabStopNode := λ n, n.
#[export] Instance tab_node_dimension : Dimension () TabStopOrderNodeSummary TabStopNode := {|
  dim_zero := λ _, mkTabNode [] 0 false;
  dim_add := λ _ self summary, mkTabNode (max_path summary) (max_index summary) (tab_stop self);
|}.
#[export] Instance tab_count_dimension : Dimension () TabStopOrderNodeSummary nat := {|
  dim_zero := λ _, 0;
  dim_add := λ _ self summary, self + tab_stops summary;
|}.
(** [impl SeekTarget for &TabStopNode]. *)
Definition tab_seek_target : SeekTarget () TabStopNode TabStopNode := λ _ target cursor_location,
  match path_cmp (node_path target) (node_path cursor_location) with
  | Eq => node_insertion_index target ?= node_insertion_index cursor_location
  | c => c
  end.

Module TabStopMap.
(** [struct TabStopMap]. *)
Record t : Type := mk {
  current_path : list Z;
  insertion_history : list TabStopOperation;
  by_id : gmap nat TabStopNode;
  order : Node TabStopOrderNodeSummary TabStopNode;
}.
End TabStopMap.
Import TabStopMap.

Section tab_stops.
Implicit Types self : TabStopMap.t.

(** [default] and [clear]. *)
Definition tab_default : TabStopMap.t := mk [] [] ∅ (SumTree.new ()).
Definition tab_clear self : TabStopMap.t := mk [] [] ∅ (SumTree.new ()).

Definition tab_insert self (h : FocusHandle) : outcome TabStopMap.t :=
  let history := insertion_history self ++ [OpInsert h] in
  let path := current_path self ++ [tab_index h] in
  ix ← checked_sub (length history) 1;
  let order_node := mkTabNode path ix (handle_tab_stop h) in
  '(order, _) ← Keyed.insert_or_replace (K:=TabStopNode) () (order self) order_node;
  Ok (mk (current_path self) history (<[handle_id h := order_node]> (by_id self)) order).

Definition begin_group self (tab_index : Z) : TabStopMap.t :=
  mk (current_path self ++ [tab_index]) (insertion_history self ++ [OpGroup tab_index]) (by_id self)
    (order self).
Definition end_group self : TabStopMap.t :=
  mk (pop_back (current_path self)) (insertion_history self ++ [OpGroupEnd]) (by_id self) (order self).

(** [replay]. *)
Definition replay_step self (op : TabStopOperation) : outcome TabStopMap.t :=
  match op with
  | OpInsert h => tab_insert self h
  | OpGroup tab_index => Ok (begin_group self tab_index)
  | OpGroupEnd => Ok (end_group self)
  end.
Definition replay self (nodes : list TabStopOperation) : outcome TabStopMap.t :=
  foldM replay_step self nodes.

Definition paint_index self : nat := length (insertion_history self).
Definition tab_stop_count self : nat :=
  length (filter (λ n, tab_stop n = true) (map_to_list (by_id self)).*2).

(** [focus_handle_for_order], with its [debug_assert]. *)
Definition focus_handle_for_order self (n : TabStopNode) : outcome (option FocusHandle) :=
  op ← index (insertion_history self) (node_insertion_index n);
  let handle := focus_handle op in
  _ ← assert_that (bool_decide (handle ≠ None));
  Ok handle.
Definition tab_node_for_focus_id self (focused_id : nat) : option TabStopNode :=
  by_id self !! focused_id.

(** The loops of [next_inner] and [prev_inner] over nodes that are no tab stops. *)
Fixpoint skip_next (fuel : nat) (cursor : Cursor TabStopOrderNodeSummary TabStopNode TabStopNode)
    : outcome (Cursor TabStopOrderNodeSummary TabStopNode TabStopNode) :=
  match fuel with
  | O => OutOfFuel
  | S fuel =>
      x ← item cursor;
      match x with
      | Some n => if tab_stop n then Ok cursor else cursor ← Cursor.next () cursor; skip_next fuel cursor
      | None => Ok cursor
      end
  end.
Fixpoint skip_prev (fuel : nat) (cursor : Cursor TabStopOrderNodeSummary TabStopNode TabStopNode)
    : outcome (Cursor TabStopOrderNodeSummary TabStopNode TabStopNode) :=
  match fuel with
  | O => OutOfFuel
  | S fuel =>
      x ← item cursor;
      match x with
      | Some n => if tab_stop n then Ok cursor else cursor ← Cursor.prev () cursor; skip_prev fuel cursor
      | None => Ok cursor
      end
  end.
Definition loop_fuel self : nat := length (tree_items (order self)) + 1.

Definition next_inner self (n : TabStopNode) : outcome (option TabStopNode) :=
  '(cursor, _) ← seek (SeekTarget0:=tab_seek_target) () n Left (cursor_new () (order self));
  cursor ← Cursor.next () cursor;
  cursor ← skip_next (loop_fuel self) cursor;
  item cursor.
Definition prev_inner self (n : TabStopNode) : outcome (option TabStopNode) :=
  '(cursor, _) ← seek (SeekTarget0:=tab_seek_target) () n Left (cursor_new () (order self));
  cursor ← Cursor.prev () cursor;
  cursor ← skip_prev (loop_fuel self) cursor;
  item cursor.

(** [and_then(|order| self.focus_handle_for_order(order))]. *)
Definition handle_of self (n : option TabStopNode) : outcome (option FocusHandle) :=
  match n with Some n => focus_handle_for_order self n | None => Ok None end.

(** [next(None)] and [next]. *)
Definition next_from_start self : outcome (option FocusHandle) :=
  first ← SumTree.first (order self);
  match first with
  | None => Ok None
  | Some first =>
      if tab_stop first then focus_handle_for_order self first
      else n ← next_inner self first; handle_of self n
  end.
Definition tab_next self (focused_id : option nat) : outcome (option FocusHandle) :=
  match focused_id with
  | None => next_from_start self
  | Some focused_id =>
      match tab_node_for_focus_id self focused_id with
      | None => next_from_start self
      | Some n =>
          n ← next_inner self n;
          match n with
          | Some n => focus_handle_for_order self n
          | None => next_from_start self
          end
      end
  end.

(** [prev(None)] and [prev]. *)
Definition prev_from_end self : outcome (option FocusHandle) :=
  last ← SumTree.tree_last (order self);
  match last with
  | None => Ok None
  | Some last =>
      if tab_stop last then focus_handle_for_order self last
      else n ← prev_inner self last; handle_of self n
  end.
Definition tab_prev self (focused_id : option nat) : outcome (option FocusHandle) :=
  match focused_id with
  | None => prev_from_end self
  | Some focused_id =>
      match tab_node_for_focus_id self focused_id with
      | None => prev_from_end self
      | Some n =>
          n ← prev_inner self n;
          match n with
          | Some n => focus_handle_for_order self n
          | None => prev_from_end self
          end
      end
  end.
End tab_stops.
