(* ===== verification/TabStopsTheorems.v ===== *)
(** Tab stops: the order of the nodes and what the cursor finds in it; and what the tab stops promise: the order is the one
    the history of a frame describes, and the tab key cycles through it. *)
From Stdlib Require Import ZArith.
From stdpp Require Import gmap.
From S2P Require Import Prelude SumTree SumTreeFacts Seek Cursor CursorFacts CursorMoves CursorOps Keyed KeyedFacts TabStops.
Import TabStopMap.

(** ** The order *)

Lemma path_cmp_eq a b : path_cmp a b = Eq ↔ a = b.
Proof.
  revert b. induction a as [|x a IH]; intros [|y b]; simpl; try done.
  destruct (Z.compare_spec x y) as [->|?|?]; [rewrite IH; naive_solver|..]; split; try done;
    intros [= -> ->]; lia.
Qed.
Lemma path_cmp_antisym a b : path_cmp b a = CompOpp (path_cmp a b).
Proof.
  revert b. induction a as [|x a IH]; intros [|y b]; simpl; try done.
  rewrite (Z.compare_antisym x y). destruct (x ?= y)%Z; simpl; [apply IH|done|done].
Qed.
Lemma path_cmp_lt_trans a b c : path_cmp a b = Lt → path_cmp b c = Lt → path_cmp a c = Lt.
Proof.
  revert b c. induction a as [|x a IH]; intros [|y b] [|z c]; simpl; try done.
  destruct (Z.compare_spec x y) as [->|Hxy|]; try done.
  - destruct (y ?= z)%Z; [apply IH|done|done].
  - intros _. destruct (Z.compare_spec y z) as [->|Hyz|]; try done; intros _.
    + by rewrite (proj2 (Z.compare_lt_iff x z)).
    + by rewrite (proj2 (Z.compare_lt_iff x z)) by lia.
Qed.

(** The key of a node: what the order looks at. *)
Definition place (n : TabStopNode) : list Z * nat := (node_path n, node_insertion_index n).
#[export] Instance place_ord : Ord (list Z * nat) := λ a b,
  match path_cmp a.1 b.1 with Eq => a.2 ?= b.2 | c => c end.
#[export] Instance place_ord_laws : OrdLaws (list Z * nat).
Proof.
  split; unfold ord_cmp, place_ord.
  - intros [p i] [q j]. simpl. destruct (path_cmp p q) eqn:E; simpl.
    + apply path_cmp_eq in E as ->. rewrite Nat.compare_eq_iff. naive_solver.
    + split; [done|]. intros [= -> _]. by rewrite (proj2 (path_cmp_eq q q)) in E.
    + split; [done|]. intros [= -> _]. by rewrite (proj2 (path_cmp_eq q q)) in E.
  - intros [p i] [q j]. simpl. rewrite (path_cmp_antisym p q).
    destruct (path_cmp p q); simpl; [apply Nat.compare_antisym|done|done].
  - intros [p i] [q j] [r k]. simpl.
    destruct (path_cmp p q) eqn:Epq; try done.
    + apply path_cmp_eq in Epq as ->. destruct (path_cmp q r); try done.
      rewrite !Nat.compare_lt_iff. lia.
    + intros _. destruct (path_cmp q r) eqn:Eqr; try done.
      * apply path_cmp_eq in Eqr as ->. by rewrite Epq.
      * by rewrite (path_cmp_lt_trans _ _ _ Epq Eqr).
Qed.

Lemma node_cmp_place a b : node_cmp a b = ord_cmp (place a) (place b).
Proof. done. Qed.

Notation before x := (λ y, ord_cmp (place y) (place x) = Lt).
Notation beyond x := (λ y, ord_cmp (place x) (place y) = Lt).

Lemma tab_seek_place x p :
  @seek_cmp () TabStopNode TabStopNode tab_seek_target () x p = ord_cmp (place x) (place p).
Proof. done. Qed.

(** ** The laws of the sum tree *)

#[export] Instance tab_summary_laws : SummaryLaws (S:=TabStopOrderNodeSummary) ().
Proof. split; simpl; [by intros []|]. intros [] [] []. by rewrite Nat.add_assoc. Qed.
#[export] Instance tab_node_dimension_laws :
  DimensionLaws (S:=TabStopOrderNodeSummary) TabStopNode ().
Proof. split; simpl; done. Qed.
#[export] Instance tab_count_dimension_laws : DimensionLaws (S:=TabStopOrderNodeSummary) nat ().
Proof. split; simpl; [|done]. intros. by rewrite Nat.add_assoc. Qed.

(** ** Sorted nodes *)

Section sorted.
Implicit Types l : list TabStopNode.
Implicit Types x y d : TabStopNode.

Definition in_order l : Prop := StronglySorted (λ x y, ord_cmp (place x) (place y) = Lt) l.
Notation from d l := (Forall (λ x, ord_cmp (place d) (place x) ≠ Gt) l).

Lemma in_order_cons x l :
  in_order (x :: l) ↔ in_order l ∧ Forall (beyond x) l.
Proof. split; [by intros [? ?]%StronglySorted_inv|intros [? ?]; by constructor]. Qed.

Lemma in_order_filter (P : TabStopNode → Prop) `{∀ x, Decision (P x)} l :
  in_order l → in_order (filter P l).
Proof.
  induction l as [|x l IH]; [done|]. intros [Hs Hx]%in_order_cons. rewrite filter_cons.
  case_decide; [|by apply IH]. apply in_order_cons. split; [by apply IH|].
  apply Forall_forall. intros y [_ Hy]%list_elem_of_filter. rewrite Forall_forall in Hx. by apply Hx.
Qed.

Lemma pos_from_le d l : in_order l → from d l → ord_cmp (place d) (place (pos_from () d l)) ≠ Gt.
Proof.
  revert d. induction l as [|y l IH]; intros d; simpl; [by rewrite ord_refl|].
  intros [Hs Hy]%in_order_cons [Hd _]%Forall_cons.
  eapply ord_le_trans; [exact Hd|]. apply (IH (mkTabNode (node_path y) (node_insertion_index y) (tab_stop d))); [done|].
  eapply Forall_impl; [exact Hy|]. intros z Hz.
  change (ord_cmp (place y) (place z) ≠ Gt). by rewrite Hz.
Qed.

Lemma in_order_app l1 l2 : in_order (l1 ++ l2) → in_order l1 ∧ in_order l2.
Proof. by intros (_ & ? & ?)%StronglySorted_app. Qed.

Lemma from_position d l1 l2 : in_order (l1 ++ l2) → from d (l1 ++ l2) → from (pos_from () d l1) l2.
Proof.
  revert d. induction l1 as [|y l1 IH]; intros d; simpl; [done|].
  intros [Hs Hy]%in_order_cons _. apply IH; [done|].
  eapply Forall_impl; [exact Hy|]. intros z Hz.
  change (ord_cmp (place y) (place z) ≠ Gt). by rewrite Hz.
Qed.

Lemma tab_seek_sorted x d l :
  in_order l → from d l → seek_sorted (SeekTarget0:=tab_seek_target) () x d l.
Proof.
  intros Hs Hd l1 l2 l3 ->. rewrite app_assoc in Hs, Hd. apply in_order_app in Hs as [Hs _].
  apply Forall_app in Hd as [Hd _].
  rewrite pos_from_app.
  rewrite !tab_seek_place. apply ord_cmp_mono.
  apply pos_from_le; [by apply in_order_app in Hs as [_ ?]|by apply from_position].
Qed.

(** A seek to the left of a node stops at the first node that is not before it. *)
Lemma tab_scan x d l :
  in_order l → from d l →
  scan (SeekTarget0:=tab_seek_target) () x Left d l
    = (filter (before x) l, filter (λ y, ord_cmp (place y) (place x) ≠ Lt) l).
Proof.
  revert d. induction l as [|y l IH]; intros d; [done|].
  intros [Hs Hy]%in_order_cons [Hd _]%Forall_cons. simpl.
  assert (Hr : reached (SeekTarget0:=tab_seek_target) () x Left
    (dim_add () d (item_summary () y : TabStopOrderNodeSummary)) = false ↔ ord_cmp (place y) (place x) = Lt).
  { unfold reached, target_in_child, seek_cmp, tab_seek_target. cbn -[path_cmp].
    change (match path_cmp (node_path x) (node_path y) with
      | Eq => node_insertion_index x ?= node_insertion_index y | c => c end)
      with (ord_cmp (place x) (place y)).
    rewrite <-ord_gt. by destruct (ord_cmp (place x) (place y)). }
  destruct (reached _ _ _ _) eqn:E.
  - assert (Hyx : ord_cmp (place y) (place x) ≠ Lt) by (intros H; by apply Hr in H).
    assert (Hall : Forall (λ z, ord_cmp (place z) (place x) ≠ Lt) l).
    { eapply Forall_impl; [exact Hy|]. intros z Hz Hlt. apply Hyx.
      eapply ord_lt_trans; [exact Hz|exact Hlt]. }
    rewrite filter_cons_False, filter_cons_True by done.
    rewrite filter_none, filter_all; [done|done|]. eapply Forall_impl; [exact Hall|done].
  - apply proj1 in Hr. specialize (Hr eq_refl).
    rewrite IH; [|done|].
    + by rewrite filter_cons_True, filter_cons_False by tauto.
    + eapply Forall_impl; [exact Hy|]. intros z Hz.
      change (ord_cmp (place y) (place z) ≠ Gt). by rewrite Hz.
Qed.

Lemma tab_zero_from l : from (dim_zero (S:=TabStopOrderNodeSummary) () : TabStopNode) l.
Proof.
  apply Forall_true. intros x. unfold ord_cmp, place_ord. cbn -[path_cmp].
  destruct (node_path x); simpl; [|done]. by destruct (node_insertion_index x).
Qed.
End sorted.

(** ** What the cursor finds *)

Notation stops l := (filter (λ n, tab_stop n = true) l).

Section moves.
Implicit Types l pre post : list TabStopNode.
Implicit Types x y : TabStopNode.
Implicit Types c : Cursor TabStopOrderNodeSummary TabStopNode TabStopNode.

(** A node splits the order into the nodes before it and the nodes beyond it. *)
Lemma in_order_split l x :
  in_order l → x ∈ l →
  l = filter (before x) l ++ x :: filter (beyond x) l ∧
  filter (λ y, ord_cmp (place y) (place x) ≠ Lt) l = x :: filter (beyond x) l.
Proof.
  intros Hs (l1 & l2 & ->)%list_elem_of_split.
  apply StronglySorted_app in Hs as (H1 & _ & [_ H2]%in_order_cons).
  assert (Hb : Forall (before x) l1) by (apply Forall_forall; intros y Hy; apply H1; set_solver).
  assert (Hirr : ord_cmp (place x) (place x) ≠ Lt) by (by rewrite ord_refl).
  rewrite !filter_app, !(filter_cons_False (before x)), !(filter_cons_False (beyond x)) by done.
  rewrite (filter_cons_True (λ y, ord_cmp (place y) (place x) ≠ Lt)) by done.
  rewrite (filter_all (before x) l1), (filter_all (beyond x) l2) by done.
  rewrite (filter_none (beyond x) l1), (filter_none (before x) l2).
  - rewrite app_nil_r. split; [done|]. rewrite filter_none, filter_all; [done|..].
    + eapply Forall_impl; [exact H2|]. intros y Hy Hlt. apply (ord_gt (place x) (place y)) in Hlt.
      by rewrite Hy in Hlt.
    + eapply Forall_impl; [exact Hb|]. intros y Hy Hn. by apply Hn.
  - eapply Forall_impl; [exact H2|]. intros y Hy Hlt. apply (ord_gt (place x) (place y)) in Hlt.
    by rewrite Hy in Hlt.
  - eapply Forall_impl; [exact Hb|]. intros y Hy Hlt. apply (ord_gt (place y) (place x)) in Hlt.
    by rewrite Hy in Hlt.
Qed.

Lemma skip_next_ok fuel c pre post :
  walkable () (c_tree c) → seeked () c pre post → length post < fuel →
  ∃ c', skip_next fuel c = Ok c' ∧ item c' = Ok (head (stops post)).
Proof.
  revert c pre post. induction fuel as [|fuel IH]; intros c pre post Hw Hc Hf; [lia|].
  simpl. rewrite (item_seeked () c pre post Hc (proj1 Hw)). simpl.
  destruct post as [|x post]; simpl; [by exists c; split; [|apply (item_seeked () c pre [] Hc (proj1 Hw))]|].
  rewrite filter_cons. destruct (tab_stop x) eqn:Hx.
  - exists c. rewrite decide_True by done. split; [done|].
    apply (item_seeked () c pre (x :: post) Hc (proj1 Hw)).
  - rewrite decide_False by done.
    destruct (next_ok () c (pre ++ [x]) post Hw (seeked_ahead () c pre (x :: post) Hc))
      as (c1 & -> & Ht & Hc1). cbn [mbind outcome_bind].
    apply (IH c1 (pre ++ [x]) post); [by rewrite Ht|done|simpl in Hf; lia].
Qed.

Lemma before_items_item c : before_items () c → item c = Ok None.
Proof. intros (Hd & _ & Hs & _). unfold item, assert_did_seek. by rewrite Hd, Hs. Qed.

Lemma skip_prev_ok fuel c pre post :
  walkable () (c_tree c) → moved_back () c pre post → length pre < fuel →
  ∃ c', skip_prev fuel c = Ok c' ∧ item c' = Ok (last (stops pre)).
Proof.
  revert c pre post. induction fuel as [|fuel IH]; intros c pre post Hw Hc Hf; [lia|].
  destruct pre as [|x pre _] using rev_ind.
  { exists c. simpl. rewrite (before_items_item c Hc). done. }
  unfold moved_back in Hc. rewrite last_snoc in Hc.
  destruct Hc as (a & [<- _]%app_inj_tail & Hc). simpl.
  rewrite (item_seeked () c pre (x :: post) (or_introl Hc) (proj1 Hw)). simpl.
  rewrite filter_app, filter_cons, filter_nil. destruct (tab_stop x) eqn:Hx.
  - exists c. rewrite decide_True, last_snoc by done. split; [done|].
    apply (item_seeked () c pre (x :: post) (or_introl Hc) (proj1 Hw)).
  - rewrite decide_False, app_nil_r by done.
    destruct (prev_ok () c pre (x :: post) Hw (behind_item () c _ _ Hc)) as (c1 & -> & Ht & Hc1).
    cbn [mbind outcome_bind]. rewrite length_app in Hf. simpl in Hf.
    apply (IH c1 pre (x :: post)); [by rewrite Ht|done|lia].
Qed.

Variable self : TabStopMap.t.
Hypothesis Hw : walkable () (order self).
Hypothesis Hs : in_order (tree_items (order self)).

Lemma seek_node x :
  x ∈ tree_items (order self) →
  ∃ c b, seek (SeekTarget0:=tab_seek_target) () x Left (cursor_new () (order self)) = Ok (c, b) ∧
    c_tree c = order self ∧
    at_item () c (filter (before x) (tree_items (order self)))
      (x :: filter (beyond x) (tree_items (order self))).
Proof using Hw Hs.
  intros Hx. pose proof (tab_zero_from (tree_items (order self))) as Hz.
  destruct (seek_ok (SeekTarget0:=tab_seek_target) () x Left
    (cursor_new (D:=TabStopNode) () (order self))) as (c & Hr & Ht & Hc);
    [done|by apply tab_seek_sorted| |].
  { rewrite tab_seek_place. intros Hlt. pose proof (tab_zero_from [x]) as [Hzx _]%Forall_cons.
    by apply ord_gt in Hlt. }
  cbn [c_tree cursor_new] in *. rewrite (tab_scan x _ _ Hs Hz) in Hc. cbn [fst snd] in Hc.
  destruct (in_order_split _ x Hs Hx) as [_ Hsplit]. rewrite Hsplit in Hc.
  eexists c, _. split; [exact Hr|]. split; [done|]. destruct Hc as [Hc|(_ & _ & Hc)]; done.
Qed.

Lemma next_inner_ok x :
  x ∈ tree_items (order self) →
  next_inner self x = Ok (head (stops (filter (beyond x) (tree_items (order self))))).
Proof using Hw Hs.
  intros Hx. destruct (seek_node x Hx) as (c & b & Hr & Ht & Hc). unfold next_inner. rewrite Hr.
  cbn [mbind outcome_bind].
  destruct (next_ok () c _ _ ltac:(by rewrite Ht) (ahead_item () c _ _ _ Hc)) as (c1 & -> & Ht1 & Hc1).
  cbn [mbind outcome_bind].
  destruct (skip_next_ok (loop_fuel self) c1 _ _ ltac:(by rewrite Ht1, Ht) Hc1) as (c2 & -> & Hi).
  { unfold loop_fuel. rewrite Nat.add_1_r. apply Nat.lt_succ_r, length_filter. }
  exact Hi.
Qed.

Lemma prev_inner_ok x :
  x ∈ tree_items (order self) →
  prev_inner self x = Ok (last (stops (filter (before x) (tree_items (order self))))).
Proof using Hw Hs.
  intros Hx. destruct (seek_node x Hx) as (c & b & Hr & Ht & Hc). unfold prev_inner. rewrite Hr.
  cbn [mbind outcome_bind].
  destruct (prev_ok () c _ _ ltac:(by rewrite Ht) (behind_item () c _ _ Hc)) as (c1 & -> & Ht1 & Hc1).
  cbn [mbind outcome_bind].
  destruct (skip_prev_ok (loop_fuel self) c1 _ _ ltac:(by rewrite Ht1, Ht) Hc1) as (c2 & -> & Hi).
  { unfold loop_fuel. rewrite Nat.add_1_r. apply Nat.lt_succ_r, length_filter. }
  exact Hi.
Qed.

(** Inserting a node whose place is free. *)
Lemma insert_node_ok x :
  (∀ y, y ∈ tree_items (order self) → place y ≠ place x) →
  ∃ order', Keyed.insert_or_replace (K:=TabStopNode) () (order self) x = Ok (order', None) ∧
    wf_tree () order' ∧
    tree_items order' = filter (before x) (tree_items (order self)) ++ [x]
      ++ filter (beyond x) (tree_items (order self)).
Proof using Hw Hs.
  intros Hfree. set (l := tree_items (order self)) in *. pose proof (tab_zero_from l) as Hz.
  assert (Hbeyond : filter (λ y, ord_cmp (place y) (place x) ≠ Lt) l = filter (beyond x) l).
  { apply filter_ext, Forall_forall. intros y Hy. rewrite <-(ord_gt (place y) (place x)).
    destruct (ord_cmp (place y) (place x)) eqn:E; try done. apply ord_eq in E. by destruct (Hfree y). }
  assert (Hpre : seek_pre (SeekTarget0:=tab_seek_target) () x
    (cursor_new (D:=TabStopNode) () (order self)) [] l).
  { apply (unseeked_pre (SeekTarget0:=tab_seek_target)); [done|done|by apply tab_seek_sorted|].
    rewrite tab_seek_place. intros Hlt. pose proof (tab_zero_from [x]) as [Hzx _]%Forall_cons.
    by apply ord_gt in Hlt. }
  destruct (slice_ok (SeekTarget0:=tab_seek_target) () x Left _ _ _ Hpre)
    as (c & n & Hsl & Hn & Hni & Ht & Hc).
  assert (Hsc : scan (SeekTarget0:=tab_seek_target) () x Left (pos_of () [] : TabStopNode) l
    = (filter (before x) l, filter (beyond x) l)).
  { rewrite (tab_scan x _ _ Hs); [by rewrite Hbeyond|exact Hz]. }
  rewrite Hsc in Hni, Hc. cbn [fst snd app] in Hni, Hc. cbn [c_tree cursor_new] in Ht.
  assert (Hkey : slice (D:=TabStopNode) () (key x : TabStopNode) Left (cursor_new () (order self))
    = Ok (c, n)) by exact Hsl.
  unfold Keyed.insert_or_replace. rewrite Hkey. cbn [mbind outcome_bind].
  rewrite (item_seeked () c _ _ Hc) by (rewrite Ht; apply Hw). cbn [mbind outcome_bind].
  assert (Hhead : match head (filter (beyond x) l) with
    | Some cursor_item =>
        if decide (key cursor_item = (key x : TabStopNode))
        then c ← Cursor.next () c; Ok (c, Some cursor_item)
        else Ok (c, None)
    | None => Ok (c, None)
    end = Ok (c, None)).
  { destruct (head (filter (beyond x) l)) as [y|] eqn:Hy; [|done]. apply head_Some_elem_of in Hy.
    apply list_elem_of_filter in Hy as [_ Hy]. rewrite decide_False; [done|].
    intros Heq. apply (Hfree y Hy). by unfold key, tab_keyed in Heq; rewrite Heq. }
  rewrite Hhead. cbn [mbind outcome_bind].
  destruct (push_ok () n x Hn) as (n2 & -> & Hn2 & Hni2). cbn [mbind outcome_bind].
  destruct (suffix_ok () c _ _ ltac:(by rewrite Ht) (or_introl Hc)) as (c3 & n3 & -> & Hn3 & Hni3 & _).
  cbn [mbind outcome_bind]. destruct (append_ok () n2 n3 Hn2 Hn3) as (n4 & -> & Hn4 & Hni4). simpl.
  exists n4. split; [done|]. split; [done|]. rewrite Hni4, Hni2, Hni3, Hni. by rewrite <-app_assoc.
Qed.
End moves.

Section history.
Implicit Types history : list TabStopOperation.
Implicit Types m : TabStopMap.t.
Implicit Types n : TabStopNode.

(** ** The meaning of a history *)

(** The tab indices of the groups that are open after a history. *)
Definition group_step (p : list Z) (op : TabStopOperation) : list Z :=
  match op with OpInsert _ => p | OpGroup i => p ++ [i] | OpGroupEnd => pop_back p end.
Definition open_groups history : list Z := foldl group_step [] history.

(** The node of the handle inserted by the operation [i]: its tab index below those of the groups
    that are open there. *)
Definition entry history n : Prop := ∃ h,
  history !! node_insertion_index n = Some (OpInsert h) ∧
  node_path n = open_groups (take (node_insertion_index n) history) ++ [tab_index h] ∧
  tab_stop n = handle_tab_stop h.

(** The node of the last insertion of the focus handle [f]. *)
Definition latest history (f : nat) n : Prop :=
  entry history n ∧
  (∃ h, history !! node_insertion_index n = Some (OpInsert h) ∧ handle_id h = f) ∧
  ∀ j h, node_insertion_index n < j → history !! j = Some (OpInsert h) → handle_id h ≠ f.

Record tab_ok m : Prop := {
  ok_walkable : walkable () (order m);
  ok_order : in_order (tree_items (order m));
  ok_path : current_path m = open_groups (insertion_history m);
  ok_entries n : n ∈ tree_items (order m) ↔ entry (insertion_history m) n;
  ok_by_id f n : by_id m !! f = Some n ↔ latest (insertion_history m) f n;
}.

Lemma open_groups_snoc history op :
  open_groups (history ++ [op]) = group_step (open_groups history) op.
Proof. unfold open_groups. by rewrite foldl_app. Qed.

Lemma entry_index history n : entry history n → node_insertion_index n < length history.
Proof. intros (h & Hh & _). by eapply lookup_lt_Some. Qed.

(** An entry of a longer history is an old one, or the one of the last operation. *)
Lemma entry_snoc history op n :
  entry (history ++ [op]) n ↔ entry history n ∨ ∃ h, op = OpInsert h ∧
    n = mkTabNode (open_groups history ++ [tab_index h]) (length history) (handle_tab_stop h).
Proof.
  unfold entry. split.
  - intros (h & [Hh|[Hge Hh]]%lookup_app_Some & Hp & Ht).
    + left. exists h. rewrite take_app_le in Hp by (apply lookup_lt_Some in Hh; lia). done.
    + right. exists h. apply list_lookup_singleton_Some in Hh as [Hi ->].
      assert (Hix : node_insertion_index n = length history) by lia.
      rewrite Hix, take_app_length in Hp. destruct n as [p i t]. simpl in *. by subst.
  - intros [(h & Hh & Hp & Ht)|(h & -> & ->)].
    + exists h. rewrite take_app_le by (apply lookup_lt_Some in Hh; lia).
      split; [by apply lookup_app_l_Some|done].
    + exists h. simpl. rewrite take_app_length. split; [by apply list_lookup_middle|done].
Qed.

Lemma latest_other history op f n :
  (∀ h, op = OpInsert h → handle_id h ≠ f) → latest (history ++ [op]) f n ↔ latest history f n.
Proof.
  intros Hop. unfold latest. split.
  - intros (He & (h & Hh & Hf) & Hall). apply lookup_app_Some in Hh as [Hh|[_ Hh]].
    + apply entry_snoc in He as [He|(h' & -> & ->)]; [|simpl in *; apply lookup_lt_Some in Hh; lia].
      split; [done|]. split; [by exists h|]. intros j h' Hj Hh'. eapply Hall; [done|].
      by apply lookup_app_l_Some.
    + apply list_lookup_singleton_Some in Hh as [_ ->]. by destruct (Hop h).
  - intros (He & (h & Hh & Hf) & Hall). split; [apply entry_snoc; by left|].
    split; [exists h; split; [by apply lookup_app_l_Some|done]|].
    intros j h' Hj [Hh'|[_ Hh']]%lookup_app_Some; [by eapply Hall|].
    apply list_lookup_singleton_Some in Hh' as [_ ->]. by apply Hop.
Qed.

Lemma latest_insert history h n :
  latest (history ++ [OpInsert h]) (handle_id h) n ↔
    n = mkTabNode (open_groups history ++ [tab_index h]) (length history) (handle_tab_stop h).
Proof.
  unfold latest. rewrite entry_snoc. split.
  - intros ([He|(h' & [= <-] & ->)] & _ & Hall); [|done].
    destruct (Hall (length history) h); [by apply entry_index|by apply list_lookup_middle|done].
  - intros ->. simpl. split; [right; by exists h|]. split; [exists h; by rewrite list_lookup_middle|].
    intros j h' Hj Hh'. apply lookup_lt_Some in Hh'. rewrite length_app in Hh'. simpl in Hh'. lia.
Qed.

(** ** The operations *)

Lemma tab_default_ok : tab_ok tab_default.
Proof.
  split; simpl.
  - split; [by left|]. unfold STACK_CAP. simpl. lia.
  - constructor.
  - done.
  - intros n. split; [by intros ?%elem_of_nil|]. intros (h & Hh & _). done.
  - intros f n. rewrite lookup_empty. split; [done|]. intros ((h & Hh & _) & _). done.
Qed.

Lemma tab_ok_no_insert m op path :
  tab_ok m → (∀ h, op ≠ OpInsert h) → path = group_step (current_path m) op →
  tab_ok (mk path (insertion_history m ++ [op]) (by_id m) (order m)).
Proof.
  intros [Hw Hs Hp He Hid] Hop ->. split; simpl; try done.
  - by rewrite open_groups_snoc, Hp.
  - intros n. rewrite entry_snoc, He. naive_solver.
  - intros f n. rewrite latest_other, Hid by naive_solver. done.
Qed.

Lemma tab_insert_ok m h :
  tab_ok m →
  ∃ m', tab_insert m h = Ok m' ∧ insertion_history m' = insertion_history m ++ [OpInsert h] ∧
    (height (order m') < STACK_CAP → tab_ok m').
Proof.
  intros [Hw Hs Hp He Hid]. unfold tab_insert.
  rewrite checked_sub_ok by (rewrite length_app; simpl; lia). cbn [mbind outcome_bind].
  rewrite length_app, Nat.add_sub.
  set (n := mkTabNode (current_path m ++ [tab_index h]) (length (insertion_history m)) (handle_tab_stop h)).
  assert (Hn : n = mkTabNode (open_groups (insertion_history m) ++ [tab_index h])
    (length (insertion_history m)) (handle_tab_stop h)) by (unfold n; by rewrite Hp).
  destruct (insert_node_ok m Hw Hs n) as (order' & -> & Hwf & Hi).
  { intros y Hy%He%entry_index [= _ Heq]. lia. }
  cbn [mbind outcome_bind]. eexists. split; [done|]. split; [done|]. simpl. intros Hh.
  split; simpl; [done| |by rewrite open_groups_snoc|..].
  - rewrite Hi. apply StronglySorted_app. split; [|split; [by apply in_order_filter|]].
    + intros x y [Hx _]%list_elem_of_filter [->|[Hy _]%list_elem_of_filter]%elem_of_cons; [done|].
      by eapply ord_lt_trans.
    + apply in_order_cons. split; [by apply in_order_filter|].
      apply Forall_forall. by intros y [? _]%list_elem_of_filter.
  - intros x. rewrite Hi, entry_snoc, <-He. rewrite !elem_of_app, list_elem_of_singleton, !list_elem_of_filter.
    split.
    + intros [[_ ?]|[->|[_ ?]]]; [by left|right; by exists h|by left].
    + intros [Hx|(h' & [= <-] & ->)]; [|right; left; by rewrite Hn].
      destruct (ord_cmp (place x) (place n)) eqn:E; [|by left|].
      * apply ord_eq in E. apply He, entry_index in Hx. injection E as _ E. lia.
      * right; right. split; [by apply ord_gt|done].
  - intros f x. destruct (decide (f = handle_id h)) as [->|Hne].
    + rewrite lookup_insert_eq, latest_insert, <-Hn. naive_solver.
    + rewrite lookup_insert_ne by done. rewrite latest_other, Hid; [done|]. naive_solver.
Qed.

(** The maps that frames build, as long as the tree fits the stack of a cursor. *)
Inductive built : TabStopMap.t → Prop :=
| built_default : built tab_default
| built_step m op m' :
    built m → replay_step m op = Ok m' → height (order m') < STACK_CAP → built m'
| built_clear m : built m → built (tab_clear m).

Lemma replay_step_ok m op :
  tab_ok m → ∃ m', replay_step m op = Ok m' ∧ insertion_history m' = insertion_history m ++ [op] ∧
    (height (order m') < STACK_CAP → tab_ok m').
Proof.
  intros Hm. destruct op as [h|i|]; simpl; [by apply tab_insert_ok|eexists; split; [done|]..].
  - split; [done|]. intros _. by apply tab_ok_no_insert.
  - split; [done|]. intros _. by apply tab_ok_no_insert.
Qed.

Lemma built_ok m : built m → tab_ok m.
Proof.
  induction 1 as [|m op m' _ IH Hop Hh|]; [apply tab_default_ok| |apply tab_default_ok].
  destruct (replay_step_ok m op IH) as (m2 & H2 & _ & Hok). assert (m2 = m') as <- by congruence.
  by apply Hok.
Qed.

(** ** The handles *)

Lemma focus_handle_ok m n :
  tab_ok m → entry (insertion_history m) n →
  ∃ h, focus_handle_for_order m n = Ok (Some h) ∧
    insertion_history m !! node_insertion_index n = Some (OpInsert h).
Proof.
  intros Hm (h & Hh & _). exists h. unfold focus_handle_for_order, index. rewrite Hh. done.
Qed.

(** The handle of the first of some nodes. *)
Definition handle_at m (o : option TabStopNode) : option FocusHandle :=
  n ← o; op ← insertion_history m !! node_insertion_index n; focus_handle op.

Lemma handle_of_ok m (o : option TabStopNode) :
  tab_ok m → (∀ x, o = Some x → x ∈ tree_items (order m)) → handle_of m o = Ok (handle_at m o).
Proof.
  intros Hm Hn. destruct o as [n|]; [|done]. simpl.
  destruct (focus_handle_ok m n Hm) as (h & -> & Hh); [by apply (ok_entries m Hm), Hn|].
  by rewrite Hh.
Qed.
Lemma focus_handle_at m n :
  tab_ok m → n ∈ tree_items (order m) → focus_handle_for_order m n = Ok (handle_at m (Some n)).
Proof. intros Hm Hn. apply (handle_of_ok m (Some n) Hm). by intros x [= <-]. Qed.

(** The tab stops in order, and the ones on either side of the focused element. *)
Definition all_stops m : list TabStopNode := stops (tree_items (order m)).
Definition stops_after m (focused : option nat) : list TabStopNode :=
  match focused ≫= (by_id m !!.) with
  | Some n => stops (filter (beyond n) (tree_items (order m))) | None => [] end.
Definition stops_before m (focused : option nat) : list TabStopNode :=
  match focused ≫= (by_id m !!.) with
  | Some n => stops (filter (before n) (tree_items (order m))) | None => [] end.

(** The first node and the last node of an order that is not empty. *)
Lemma in_order_ends x l :
  in_order (x :: l) → filter (beyond x) (x :: l) = l.
Proof.
  intros [_ Hx]%in_order_cons. rewrite filter_cons_False by (by rewrite ord_refl).
  by apply filter_all.
Qed.
Lemma in_order_last_end x l :
  in_order (l ++ [x]) → filter (before x) (l ++ [x]) = l.
Proof.
  intros (H & _ & _)%StronglySorted_app. rewrite filter_app, filter_cons_False, app_nil_r by (by rewrite ord_refl).
  apply filter_all, Forall_forall. intros y Hy. apply H; [done|]. by left.
Qed.

Lemma order_first m : tab_ok m → SumTree.first (order m) = Ok (head (tree_items (order m))).
Proof. intros [[[->|[h Hw]] _] _ _ _ _]; [done|]. by eapply first_ok. Qed.
Lemma order_last m : tab_ok m → SumTree.tree_last (order m) = Ok (last (tree_items (order m))).
Proof. intros [[[->|[h Hw]] _] _ _ _ _]; [done|]. by eapply tree_last_ok. Qed.

Lemma next_from_start_ok m :
  tab_ok m → next_from_start m = Ok (handle_at m (head (all_stops m))).
Proof.
  intros Hm. unfold next_from_start. rewrite order_first by done. cbn [mbind outcome_bind].
  pose proof (ok_order m Hm) as Hs. unfold all_stops.
  destruct (tree_items (order m)) as [|x l] eqn:Hl; [done|]. cbn [head].
  assert (Hx : x ∈ tree_items (order m)) by (rewrite Hl; by left).
  rewrite filter_cons. destruct (tab_stop x) eqn:Hst.
  - rewrite decide_True by done. by apply focus_handle_at.
  - rewrite decide_False by done.
    rewrite (next_inner_ok m (ok_walkable m Hm) (ok_order m Hm) x Hx). cbn [mbind outcome_bind].
    rewrite Hl, in_order_ends by done. apply handle_of_ok; [done|].
    intros y Hy%head_Some_elem_of. rewrite Hl. apply list_elem_of_filter in Hy as [_ ?]. by right.
Qed.

Lemma prev_from_end_ok m :
  tab_ok m → prev_from_end m = Ok (handle_at m (last (all_stops m))).
Proof.
  intros Hm. unfold prev_from_end. rewrite order_last by done. cbn [mbind outcome_bind].
  pose proof (ok_order m Hm) as Hs. unfold all_stops.
  destruct (tree_items (order m)) as [|x l _] eqn:Hl using rev_ind; [done|]. rewrite last_snoc.
  assert (Hx : x ∈ tree_items (order m)) by (rewrite Hl; set_solver).
  rewrite filter_app, filter_cons, filter_nil. destruct (tab_stop x) eqn:Hst.
  - rewrite decide_True, last_snoc by done. by apply focus_handle_at.
  - rewrite decide_False, app_nil_r by done.
    rewrite (prev_inner_ok m (ok_walkable m Hm) (ok_order m Hm) x Hx). cbn [mbind outcome_bind].
    rewrite Hl, in_order_last_end by done. apply handle_of_ok; [done|].
    intros y Hy%last_Some_elem_of. rewrite Hl. apply list_elem_of_filter in Hy as [_ ?]. set_solver.
Qed.
End history.

Section properties.
Implicit Types m : TabStopMap.t.

(** C32: the maps of tab stops that frames build are exact. The nodes in the sum tree are the handles
    of the history, each at its tab index below those of the groups that are open where it is
    inserted, sorted by this path and then by insertion, without duplicates; a focus handle maps to
    the node of its last insertion; and no operation fails, whatever the groups that are open. *)
Theorem tab_order_exact m :
  built m →
  in_order (tree_items (order m)) ∧
  (∀ n, n ∈ tree_items (order m) ↔ entry (insertion_history m) n) ∧
  (∀ f n, tab_node_for_focus_id m f = Some n ↔ latest (insertion_history m) f n) ∧
  ∀ op, ∃ m', replay_step m op = Ok m' ∧ insertion_history m' = insertion_history m ++ [op].
Proof.
  intros Hm%built_ok. split; [by apply ok_order|]. split; [by apply ok_entries|].
  split; [by apply ok_by_id|]. intros op. destruct (replay_step_ok m op Hm) as (m' & ? & ? & _). by exists m'.
Qed.

(** The tab key cycles through the tab stops. [next] gives the handle of the first tab stop
    beyond the focused element, which need not be one itself, and starts again with the first of all
    when there is none or nothing known is focused; [prev] is its mirror image. Both give nothing
    only when the frame has no tab stop, and never panic. *)
Theorem tab_cycles m focused :
  built m →
  tab_next m focused = Ok (handle_at m (head (stops_after m focused ++ all_stops m))) ∧
  tab_prev m focused = Ok (handle_at m (last (all_stops m ++ stops_before m focused))).
Proof.
  intros Hm%built_ok. unfold tab_next, tab_prev, stops_after, stops_before, tab_node_for_focus_id.
  destruct focused as [f|]; cbn [mbind option_bind];
    [|rewrite app_nil_r; split; [by apply next_from_start_ok|by apply prev_from_end_ok]].
  destruct (by_id m !! f) as [n|] eqn:Hf;
    [|rewrite app_nil_r; split; [by apply next_from_start_ok|by apply prev_from_end_ok]].
  assert (Hn : n ∈ tree_items (order m)) by (apply (ok_by_id m Hm) in Hf as [? _]; by apply ok_entries).
  rewrite (next_inner_ok m (ok_walkable m Hm) (ok_order m Hm) n Hn).
  rewrite (prev_inner_ok m (ok_walkable m Hm) (ok_order m Hm) n Hn). cbn [mbind outcome_bind].
  split.
  - destruct (stops (filter (beyond n) (tree_items (order m)))) as [|x l] eqn:E; [by apply next_from_start_ok|].
    cbn [head app]. apply focus_handle_at; [done|].
    assert (Hx : x ∈ x :: l) by (by left). rewrite <-E in Hx.
    by apply list_elem_of_filter in Hx as [_ [_ ?]%list_elem_of_filter].
  - rewrite last_app.
    destruct (last (stops (filter (before n) (tree_items (order m))))) as [x|] eqn:E; [|by apply prev_from_end_ok].
    apply focus_handle_at; [done|]. apply last_Some_elem_of in E.
    by apply list_elem_of_filter in E as [_ [_ ?]%list_elem_of_filter].
Qed.
End properties.

(** ** A frame with a group, an element that is no tab stop, and two insertions of one handle *)

Definition sample_history : list TabStopOperation :=
  [OpInsert (mkHandle 1 2 true); OpGroup 1; OpInsert (mkHandle 2 0 true); OpInsert (mkHandle 3 (-1) false);
   OpGroupEnd; OpInsert (mkHandle 4 0 true); OpGroupEnd; OpInsert (mkHandle 1 0 true)].
Definition sample_map : TabStopMap.t :=
  match replay tab_default sample_history with Ok m => m | _ => tab_default end.

Lemma foldM_built history m m' :
  built m → replay m history = Ok m' →
  (∀ k m2, replay m (take k history) = Ok m2 → height (order m2) < STACK_CAP) → built m'.
Proof.
  unfold replay. revert m. induction history as [|op history IH]; simpl; intros m Hm Hr Hh; [by injection Hr as <-|].
  destruct (replay_step m op) as [m2| |] eqn:E; try done. cbn [mbind outcome_bind] in Hr.
  apply (IH m2); [|done|].
  - eapply built_step; [done..|]. apply (Hh 1). simpl. by rewrite E.
  - intros k m3 H3. apply (Hh (S k)). simpl. by rewrite E.
Qed.

Lemma sample_built : built sample_map.
Proof.
  apply (foldM_built sample_history tab_default); [apply built_default|by vm_compute|].
  intros k m2 Hr. destruct (decide (k < 8)) as [Hk|Hk].
  - do 8 (destruct k as [|k]; [vm_compute in Hr; injection Hr as <-; vm_compute; lia|]). lia.
  - rewrite take_ge in Hr by (unfold sample_history; simpl; lia). vm_compute in Hr. injection Hr as <-.
    vm_compute. lia.
Qed.

Lemma tab_order_exact_witness :
  built sample_map ∧ map node_insertion_index (tree_items (order sample_map)) = [5; 7; 3; 2; 0] ∧
  in_order (tree_items (order sample_map)).
Proof.
  split; [apply sample_built|]. split; [by vm_compute|]. apply (tab_order_exact sample_map), sample_built.
Defined.

Lemma tab_cycles_witness :
  tab_next sample_map (Some 3) = Ok (Some (mkHandle 2 0 true)) ∧
  tab_prev sample_map (Some 4) = Ok (Some (mkHandle 1 2 true)).
Proof.
  split.
  - etransitivity; [apply (tab_cycles sample_map (Some 3)), sample_built|]. by vm_compute.
  - etransitivity; [apply (tab_cycles sample_map (Some 4)), sample_built|]. by vm_compute.
Defined.
