(* ===== verification/Pixels.v ===== *)
(** Lengths in pixels, [Pixels] and [Edges] of [crates/gpui/src/geometry.rs]: the operations that
    the code uses on them beyond those of every coordinate, and exact rational lengths, for which
    the theorems about scrolling are proved. *)
From Stdlib Require Import QArith Qcanon Lqa.
From S2P Require Import Prelude Geometry.

(** ** Operations *)

(** What [Pixels] has beyond [Coord]: the derived [PartialEq] and [Neg], the product and the
    quotient of the [f32] values, and the length of one pixel. *)
Class PixelOps (U : Type) := {
  peq : U → U → bool;
  pneg : U → U;
  pmul : U → U → U;
  pdiv : U → U → U;
  pone : U;
}.

Section pixels.
Context {U : Type} `{!Coord U, !PixelOps U}.

(** [Ord::max] and [Ord::min]; the derived comparisons of [Pixels] are those of its [Ord]. *)
Definition pmax (a b : U) : U := if clt b a then a else b.
Definition pmin (a b : U) : U := if clt b a then b else a.

(** [Ord::cmp]. *)
Definition pcmp (a b : U) : comparison := if clt a b then Lt else if clt b a then Gt else Eq.

(** [f32::clamp] to the interval from 0 to 1. *)
Definition clamp01 (a : U) : U :=
  let a := if clt a czero then czero else a in if clt pone a then pone else a.
End pixels.

(** [struct Edges]. *)
Record Edges (U : Type) : Type := edges {
  edge_top : U;
  edge_right : U;
  edge_bottom : U;
  edge_left : U;
}.
Arguments edges {U}.
Arguments edge_top {U}.
Arguments edge_right {U}.
Arguments edge_bottom {U}.
Arguments edge_left {U}.

(** [Default] for sizes, bounds and edges. *)
Definition size_default {U} `{!Coord U} : Size U := size czero czero.
Definition bounds_default {U} `{!Coord U} : Bounds U := bounds (point czero czero) size_default.
Definition edges_default {U} `{!Coord U} : Edges U := edges czero czero czero czero.

(** ** Exact lengths *)

Local Open Scope Qc_scope.

#[export] Instance Qc_coord : Coord Qc := {|
  cadd := Qcplus; csub := Qcminus;
  clt a b := match a ?= b with Lt => true | _ => false end;
  cle a b := match a ?= b with Gt => false | _ => true end;
  czero := 0;
  chalf a := a / Q2Qc 2;
|}.
#[export] Instance Qc_pixel_ops : PixelOps Qc := {|
  peq a b := match a ?= b with Eq => true | _ => false end;
  pneg := Qcopp; pmul := Qcmult; pdiv := Qcdiv; pone := 1;
|}.

(** Linear arithmetic: the canonical rationals are read as rationals. *)
Lemma this_add (x y : Qc) : (this (x + y) == this x + this y)%Q.
Proof. apply Qred_correct. Qed.
Lemma this_opp (x : Qc) : (this (- x) == - this x)%Q.
Proof. apply Qred_correct. Qed.
Lemma this_sub (x y : Qc) : (this (x - y) == this x - this y)%Q.
Proof. unfold Qcminus. rewrite this_add, this_opp. reflexivity. Qed.

Ltac pose_new E :=
  let T := type of E in lazymatch goal with _ : T |- _ => fail | _ => pose proof E end.
Ltac qc_equations :=
  repeat match goal with
  | H : @eq Qc ?x ?y |- _ =>
      let H' := fresh in assert (H' : (this x == this y)%Q) by (rewrite H; reflexivity); clear H
  end.
Ltac qc_lra :=
  intros; unfold Qclt, Qcle in *; try apply Qc_is_canon; qc_equations;
  repeat match goal with
  | _ : context [this (?x + ?y)] |- _ => pose_new (this_add x y)
  | _ : context [this (?x - ?y)] |- _ => pose_new (this_sub x y)
  | _ : context [this (- ?x)] |- _ => pose_new (this_opp x)
  | |- context [this (?x + ?y)] => pose_new (this_add x y)
  | |- context [this (?x - ?y)] => pose_new (this_sub x y)
  | |- context [this (- ?x)] => pose_new (this_opp x)
  end;
  change (this 0) with 0%Q in *; change (this 1) with 1%Q in *; first [lra | exfalso; lra].

(** The comparisons, as case analyses. *)
Lemma clt_spec (a b : Qc) : BoolSpec (a < b) (b <= a) (clt a b).
Proof.
  simpl. destruct (a ?= b) eqn:E; constructor.
  - apply Qceq_alt in E. qc_lra.
  - by apply Qclt_alt.
  - apply Qcgt_alt in E. qc_lra.
Qed.
Lemma cle_spec (a b : Qc) : BoolSpec (a <= b) (b < a) (cle a b).
Proof.
  simpl. destruct (a ?= b) eqn:E; constructor.
  - apply Qceq_alt in E. qc_lra.
  - apply Qclt_alt in E. qc_lra.
  - by apply Qcgt_alt in E.
Qed.
Lemma peq_spec (a b : Qc) : reflect (a = b) (peq a b).
Proof.
  simpl. destruct (a ?= b) eqn:E; constructor.
  - by apply Qceq_alt.
  - apply Qclt_alt in E. intros ->. qc_lra.
  - apply Qcgt_alt in E. intros ->. qc_lra.
Qed.
Lemma pcmp_spec (a b : Qc) : CompareSpec (a = b) (a < b) (b < a) (pcmp a b).
Proof. unfold pcmp. destruct (clt_spec a b), (clt_spec b a); constructor; qc_lra. Qed.

(** Splits every comparison and maximum of the goal, then linear arithmetic. *)
Ltac qc_cases :=
  unfold pmax, pmin in *;
  repeat match goal with
  | |- context [clt ?a ?b] => destruct (clt_spec a b)
  | |- context [cle ?a ?b] => destruct (cle_spec a b)
  | _ : context [clt ?a ?b] |- _ => destruct (clt_spec a b)
  | _ : context [cle ?a ?b] |- _ => destruct (cle_spec a b)
  end.
Ltac qc_solve := qc_cases; try done; cbn [cadd csub czero pneg pone Qc_coord Qc_pixel_ops] in *; qc_lra.

#[export] Instance Qc_coord_laws : CoordLaws Qc.
Proof.
  split; intros; qc_cases; cbn [cadd csub czero Qc_coord] in *; auto; qc_solve.
Qed.

Lemma pmax_le (a b c : Qc) : pmax a b <= c ↔ a <= c ∧ b <= c.
Proof. unfold pmax. destruct (clt_spec b a); split; [..|by intros []| |by intros []]; split; qc_lra. Qed.
Lemma pmax_ge (a b : Qc) : a <= pmax a b ∧ b <= pmax a b.
Proof. by apply pmax_le; unfold Qcle; apply Qle_refl. Qed.
Lemma clt_yes (a b : Qc) : a < b → clt a b = true.
Proof. intros H. destruct (clt_spec a b); [done|qc_lra]. Qed.
Lemma clt_no (a b : Qc) : b <= a → clt a b = false.
Proof. intros H. destruct (clt_spec a b); [qc_lra|done]. Qed.
Lemma cle_yes (a b : Qc) : a <= b → cle a b = true.
Proof. intros H. destruct (cle_spec a b); [done|qc_lra]. Qed.
Lemma cle_no (a b : Qc) : b < a → cle a b = false.
Proof. intros H. destruct (cle_spec a b); [qc_lra|done]. Qed.

Lemma div_range (a h : Qc) : 0 < h → 0 <= a → a <= h → 0 <= a / h ∧ a / h <= 1.
Proof.
  intros Hh Ha Hle.
  assert (Hd : a / h * h = a).
  { unfold Qcdiv. rewrite <-Qcmult_assoc, (Qcmult_comm (/ h)), Qcmult_inv_r, Qcmult_1_r; [done|].
    intros ->. by apply Qclt_not_eq in Hh. }
  split; apply (Qcmult_lt_0_le_reg_r _ _ h Hh); rewrite Hd; [by rewrite Qcmult_0_l|by rewrite Qcmult_1_l].
Qed.
