(* ===== verification/ListState.v ===== *)
(** The items of a list of [crates/gpui/src/elements/list.rs] with what the sum tree needs of them, and the state of a
    list. *)
From S2P Require Import Prelude SumTree Seek Cursor Geometry TabStops Pixels.

Section items.
Context {U : Type} `{!Coord U}.

(** [enum ListItem]. *)
Inductive ListItem : Type :=
| Unmeasured (size_hint : option (Size U)) (focus_handle : option FocusHandle)
| Measured (s : Size U) (focus_handle : option FocusHandle).

Definition measured_size (self : ListItem) : option (Size U) :=
  match self with Measured s _ => Some s | Unmeasured _ _ => None end.
Definition item_size_hint (self : ListItem) : option (Size U) :=
  match self with Measured s _ => Some s | Unmeasured size_hint _ => size_hint end.
Definition item_focus_handle (self : ListItem) : option FocusHandle :=
  match self with Unmeasured _ focus_handle | Measured _ focus_handle => focus_handle end.

(** [contains_focused], with the test of a handle as its argument: it asks the window. *)
Definition item_contains_focused (contains_focused : FocusHandle → bool) (self : ListItem) : bool :=
  match item_focus_handle self with Some handle => contains_focused handle | None => false end.

(** [struct ListItemSummary]. *)
Record ListItemSummary : Type := mkListSummary {
  count : nat;
  rendered_count : nat;
  unrendered_count : nat;
  sum_height : U;
  has_focus_handles : bool;
  has_unknown_height : bool;
}.

(** [impl ContextLessSummary for ListItemSummary] and [impl Item for ListItem]. *)
#[global] Instance list_summary : Summary () ListItemSummary := {|
  zero := λ _, mkListSummary 0 0 0 czero false false;
  add_summary := λ _ self summary,
    mkListSummary (count self + count summary) (rendered_count self + rendered_count summary)
      (unrendered_count self + unrendered_count summary) (cadd (sum_height self) (sum_height summary))
      (has_focus_handles self || has_focus_handles summary)
      (has_unknown_height self || has_unknown_height summary);
|}.
#[global] Instance list_item : Item () ListItemSummary ListItem := λ _ self,
  match self with
  | Unmeasured size_hint focus_handle =>
      mkListSummary 1 0 1 (match size_hint with Some s => height s | None => czero end)
        (bool_decide (is_Some focus_handle)) (bool_decide (size_hint = None))
  | Measured s focus_handle =>
      mkListSummary 1 1 0 (height s) (bool_decide (is_Some focus_handle)) false
  end.

(** [struct Count] and [struct Height]. *)
Record Count : Type := mkCount { count_of : nat }.
Record Height : Type := mkHeight { height_of : U }.
#[global] Instance count_dimension : Dimension () ListItemSummary Count := {|
  dim_zero := λ _, mkCount 0;
  dim_add := λ _ self summary, mkCount (count_of self + count summary);
|}.
#[global] Instance height_dimension : Dimension () ListItemSummary Height := {|
  dim_zero := λ _, mkHeight czero;
  dim_add := λ _ self summary, mkHeight (cadd (height_of self) (sum_height summary));
|}.

(** [impl SeekTarget for Count], for positions that are summaries, counts, or pairs of a count and
    a height; and [impl SeekTarget for Height]. *)
#[global] Instance count_seek_summary : SeekTarget () ListItemSummary Count := λ _ self other,
  count_of self ?= count other.
#[global] Instance count_seek_count : SeekTarget () Count Count := λ _ self other,
  count_of self ?= count_of other.
#[global] Instance count_seek_dimensions : SeekTarget () (Count * Height * ()) Count :=
  dimensions_seek_target.
#[global] Instance height_seek_summary `{!PixelOps U} : SeekTarget () ListItemSummary Height :=
  λ _ self other, pcmp (height_of self) (sum_height other).
End items.
Arguments ListItem : clear implicits.
Arguments ListItemSummary : clear implicits.
Arguments Height : clear implicits.

(** The dimensions and summaries of a list are additive when the lengths are. *)
Section laws.
Context {U : Type} `{!Coord U} (cadd_assoc : ∀ a b c : U, cadd (cadd a b) c = cadd a (cadd b c))
  (czero_cadd : ∀ a : U, cadd czero a = a).

Lemma list_summary_laws : SummaryLaws (S:=ListItemSummary U) ().
Proof using cadd_assoc czero_cadd.
  split; simpl.
  - intros []. simpl. by rewrite czero_cadd.
  - intros [] [] []. simpl. by rewrite cadd_assoc, !Nat.add_assoc, !orb_assoc.
Qed.
Lemma height_dimension_laws : DimensionLaws (S:=ListItemSummary U) (Height U) ().
Proof using cadd_assoc czero_cadd.
  split; simpl; [|by rewrite czero_cadd]. intros [] [] []. simpl. by rewrite cadd_assoc.
Qed.
End laws.
#[export] Instance count_dimension_laws {U} `{!Coord U} : DimensionLaws (S:=ListItemSummary U) Count ().
Proof. split; simpl; [|done]. intros [] [] []. simpl. by rewrite Nat.add_assoc. Qed.

(** ** Data *)

(** [enum ListAlignment], [enum FollowMode] and [enum FollowState]. *)
Inductive ListAlignment := AlignTop | AlignBottom.
#[export] Instance ListAlignment_eq_dec : EqDecision ListAlignment.
Proof. solve_decision. Defined.
Inductive FollowMode := FollowNormal | FollowTail.
Inductive FollowState := Normal | Tail (is_following : bool).
#[export] Instance FollowState_eq_dec : EqDecision FollowState.
Proof. solve_decision. Defined.

Definition is_following (self : FollowState) : bool := bool_decide (self = Tail true).
Definition has_stopped_following (self : FollowState) : bool := bool_decide (self = Tail false).
Definition start_following (self : FollowState) : FollowState :=
  match self with Tail false => Tail true | _ => self end.
Definition stop_following (self : FollowState) : FollowState :=
  match self with Tail true => Tail false | _ => self end.

(** [enum ListMeasuringBehavior]. *)
Inductive ListMeasuringBehavior := Measure (has_measured : bool) | Visible.
Definition measuring_reset (self : ListMeasuringBehavior) : ListMeasuringBehavior :=
  match self with Measure _ => Measure false | Visible => Visible end.

(** [enum ScrollAnchor]. *)
Inductive ScrollAnchor := AnchorAbsolute | AnchorProportional.

(** [struct ListOffset]. *)
Record ListOffset (U : Type) : Type := mkOffset { item_ix : nat; offset_in_item : U }.
Arguments mkOffset {U}.
Arguments item_ix {U}.
Arguments offset_in_item {U}.

(** [enum PendingScroll], with [struct PendingScrollFraction]. *)
Inductive PendingScroll (U : Type) : Type :=
| PendingAbsolute (item_ix : nat) (offset : U)
| PendingProportional (item_ix : nat) (fraction : U).
Arguments PendingAbsolute {U}.
Arguments PendingProportional {U}.

(** [struct ListScrollEvent]. *)
Record ListScrollEvent : Type := mkScrollEvent {
  event_visible_range : nat * nat;
  event_count : nat;
  event_is_scrolled : bool;
  event_is_following_tail : bool;
}.

Module ListState.

(** [struct StateInner]. Of the scroll handler, a closure, only whether there is one. *)
Record t (U : Type) : Type := mk {
  last_layout_bounds : option (Bounds U);
  last_padding : option (Edges U);
  items : Node (ListItemSummary U) (ListItem U);
  logical_top : option (ListOffset U);
  alignment : ListAlignment;
  overdraw : U;
  was_reset : bool;
  scroll_handler : bool;
  scrollbar_drag_start_height : option U;
  measuring_behavior : ListMeasuringBehavior;
  pending_scroll : option (PendingScroll U);
  follow_state : FollowState;
}.
Arguments mk {U}.
Arguments last_layout_bounds {U}.
Arguments last_padding {U}.
Arguments items {U}.
Arguments logical_top {U}.
Arguments alignment {U}.
Arguments overdraw {U}.
Arguments was_reset {U}.
Arguments scroll_handler {U}.
Arguments scrollbar_drag_start_height {U}.
Arguments measuring_behavior {U}.
Arguments pending_scroll {U}.
Arguments follow_state {U}.

Section assignments.
Context {U : Type}.
Implicit Types s : t U.
Definition with_items s v : t U :=
  mk (last_layout_bounds s) (last_padding s) v (logical_top s) (alignment s) (overdraw s) (was_reset s)
    (scroll_handler s) (scrollbar_drag_start_height s) (measuring_behavior s) (pending_scroll s)
    (follow_state s).
Definition with_top s v : t U :=
  mk (last_layout_bounds s) (last_padding s) (items s) v (alignment s) (overdraw s) (was_reset s)
    (scroll_handler s) (scrollbar_drag_start_height s) (measuring_behavior s) (pending_scroll s)
    (follow_state s).
Definition with_handler s v : t U :=
  mk (last_layout_bounds s) (last_padding s) (items s) (logical_top s) (alignment s) (overdraw s)
    (was_reset s) v (scrollbar_drag_start_height s) (measuring_behavior s) (pending_scroll s)
    (follow_state s).
Definition with_drag s v : t U :=
  mk (last_layout_bounds s) (last_padding s) (items s) (logical_top s) (alignment s) (overdraw s)
    (was_reset s) (scroll_handler s) v (measuring_behavior s) (pending_scroll s) (follow_state s).
Definition with_measuring s v : t U :=
  mk (last_layout_bounds s) (last_padding s) (items s) (logical_top s) (alignment s) (overdraw s)
    (was_reset s) (scroll_handler s) (scrollbar_drag_start_height s) v (pending_scroll s)
    (follow_state s).
Definition with_pending s v : t U :=
  mk (last_layout_bounds s) (last_padding s) (items s) (logical_top s) (alignment s) (overdraw s)
    (was_reset s) (scroll_handler s) (scrollbar_drag_start_height s) (measuring_behavior s) v
    (follow_state s).
Definition with_follow s v : t U :=
  mk (last_layout_bounds s) (last_padding s) (items s) (logical_top s) (alignment s) (overdraw s)
    (was_reset s) (scroll_handler s) (scrollbar_drag_start_height s) (measuring_behavior s)
    (pending_scroll s) v.
Definition with_layout s bounds padding : t U :=
  mk bounds padding (items s) (logical_top s) (alignment s) (overdraw s) (was_reset s)
    (scroll_handler s) (scrollbar_drag_start_height s) (measuring_behavior s) (pending_scroll s)
    (follow_state s).
Definition with_reset s v : t U :=
  mk (last_layout_bounds s) (last_padding s) (items s) (logical_top s) (alignment s) (overdraw s) v
    (scroll_handler s) (scrollbar_drag_start_height s) (measuring_behavior s) (pending_scroll s)
    (follow_state s).
End assignments.
End ListState.
Import ListState.
