(* ===== verification/ListOps.v ===== *)
(** The operations of [ListState] and [StateInner] of [crates/gpui/src/elements/list.rs], except the
    layout, which is in [ListLayout.v]. *)
From S2P Require Import Prelude SumTree Seek Cursor TabStops Geometry Pixels ListState.
Import ListState.

Section ops.
Context {U : Type} `{!Coord U, !PixelOps U}.
Implicit Types self : t U.

Local Notation tree := (Node (ListItemSummary U) (ListItem U)).
Local Notation count_cursor tr := (cursor_new (D:=Count) () tr).
Local Notation summary_cursor tr := (cursor_new (D:=ListItemSummary U) () tr).

(** [range.contains]. *)
Definition range_contains (range : nat * nat) (i : nat) : bool := (range.1 <=? i) && (i <? range.2).

(** The items of a tree, through its iterator. *)
Definition list_of (tr : tree) : outcome (list (ListItem U)) :=
  iter_all (1 + node_fuel tr) (iter tr) [].

Definition item_count self : nat := count (summary (items self)).

(** [StateInner::logical_scroll_top] and [StateInner::scroll_top]. *)
Definition logical_scroll_top self : ListOffset U :=
  match logical_top self with
  | Some top => top
  | None =>
      match alignment self with
      | AlignTop => mkOffset 0 czero
      | AlignBottom => mkOffset (count (summary (items self))) czero
      end
  end.
Definition scroll_top self (logical_scroll_top : ListOffset U) : U :=
  let '(start, _, _) :=
    find (D:=ListItemSummary U) () (items self) (mkCount (item_ix logical_scroll_top)) Right in
  cadd (sum_height start) (offset_in_item logical_scroll_top).

(** The fraction of an item that is scrolled past, [0.0] to [1.0]. *)
Definition fraction_of (offset : U) (s : Size U) : U := clamp01 (pdiv offset (height s)).

(** [StateInner::rebase_pending_scroll]. *)
Definition rebase_pending_scroll self (scroll_top : ListOffset U) : outcome (t U) :=
  match pending_scroll self with
  | None => Ok self
  | Some pending =>
      let self := with_pending self None in
      if decide (count (summary (items self)) ≤ item_ix scroll_top) then Ok self
      else match pending with
      | PendingAbsolute _ _ =>
          Ok (with_pending self (Some (PendingAbsolute (item_ix scroll_top) (offset_in_item scroll_top))))
      | PendingProportional _ _ =>
          '(cursor, _) ← seek () (mkCount (item_ix scroll_top)) Right (count_cursor (items self));
          x ← item cursor;
          Ok (with_pending self
            match x ≫= item_size_hint with
            | Some s =>
                if clt czero (height s)
                then Some (PendingProportional (item_ix scroll_top) (fraction_of (offset_in_item scroll_top) s))
                else None
            | None => None
            end)
      end
  end.

(** ** The items *)

Definition splice_focusable self (old_range : nat * nat) (focus_handles : list (option FocusHandle))
    : outcome (t U) :=
  '(old_items, new_items) ← slice () (mkCount old_range.1) Right (count_cursor (items self));
  '(old_items, _) ← seek_forward () (mkCount old_range.2) Right old_items;
  let spliced_count := length focus_handles in
  new_items ← extend () new_items (map (Unmeasured None) focus_handles);
  '(_, rest) ← suffix () old_items;
  new_items ← append () new_items rest;
  let self := with_items self new_items in
  match logical_top self with
  | Some top =>
      if range_contains old_range (item_ix top)
      then Ok (with_top self (Some (mkOffset old_range.1 czero)))
      else if old_range.2 <=? item_ix top
      then
        removed ← checked_sub old_range.2 old_range.1;
        kept ← checked_sub (item_ix top) removed;
        Ok (with_top self (Some (mkOffset (kept + spliced_count) (offset_in_item top))))
      else Ok self
  | None => Ok self
  end.
Definition splice self (old_range : nat * nat) (count : nat) : outcome (t U) :=
  splice_focusable self old_range (repeat None count).

(** [ListState::new]. *)
Definition list_new (item_count : nat) (alignment : ListAlignment) (overdraw : U) : outcome (t U) :=
  splice (mk None None (new ()) None alignment overdraw false false None Visible None Normal) (0, 0)
    item_count.
Definition measure_all self : t U := with_measuring self (Measure false).
Definition set_scroll_handler self : t U := with_handler self true.

(** [apply_uniform_item_height], which is [with_uniform_item_height]. *)
Definition apply_uniform_item_height self (height : U) : outcome (t U) :=
  let size_hint := size czero height in
  its ← list_of (items self);
  let new_items := map (λ it, Unmeasured (Some (default size_hint (item_size_hint it))) (item_focus_handle it)) its in
  tr ← extend () (new ()) new_items;
  Ok (with_items self tr).

Definition list_reset self (element_count : nat) : outcome (t U) :=
  let self := with_reset self true in
  let self := with_measuring self (measuring_reset (measuring_behavior self)) in
  let self := with_top self None in
  let self := with_pending self None in
  let self := with_drag self None in
  splice self (0, count (summary (items self))) element_count.
Definition reset_with_uniform_height self (element_count : nat) (height : U) : outcome (t U) :=
  self ← list_reset self element_count; apply_uniform_item_height self height.

(** The pending scroll that a remeasurement leaves. *)
Definition stash_scroll self (range : nat * nat) (scroll_anchor : ScrollAnchor)
    : outcome (option (PendingScroll U)) :=
  match logical_top self with
  | Some top =>
      if range_contains range (item_ix top) then
        match scroll_anchor with
        | AnchorAbsolute => Ok (Some (PendingAbsolute (item_ix top) (offset_in_item top)))
        | AnchorProportional =>
            '(cursor, _) ← seek () (mkCount (item_ix top)) Right (count_cursor (items self));
            x ← item cursor;
            Ok match x ≫= measured_size with
               | Some s =>
                   Some (PendingProportional (item_ix top)
                     (if clt czero (height s) then fraction_of (offset_in_item top) s else czero))
               | None => pending_scroll self
               end
        end
      else Ok (pending_scroll self)
  | None => Ok (pending_scroll self)
  end.
Definition remeasure_items_with_scroll_anchor self (range : nat * nat) (scroll_anchor : ScrollAnchor)
    : outcome (t U) :=
  pending ← stash_scroll self range scroll_anchor;
  let self := with_pending self pending in
  '(cursor, new_items) ← slice () (mkCount range.1) Right (count_cursor (items self));
  '(cursor, invalidated) ← slice () (mkCount range.2) Right cursor;
  its ← list_of invalidated;
  new_items ← extend () new_items (map (λ it, Unmeasured (item_size_hint it) (item_focus_handle it)) its);
  '(_, rest) ← suffix () cursor;
  new_items ← append () new_items rest;
  let self := with_items self new_items in
  Ok (with_measuring self (measuring_reset (measuring_behavior self))).
Definition remeasure self : outcome (t U) :=
  remeasure_items_with_scroll_anchor self (0, item_count self) AnchorProportional.
Definition remeasure_items self (range : nat * nat) : outcome (t U) :=
  remeasure_items_with_scroll_anchor self range AnchorAbsolute.

(** ** Scrolling *)

Definition is_scrolled_to_end self : option bool :=
  last_bounds ← last_layout_bounds self;
  let summary := summary (items self) in
  if has_unknown_height summary then None
  else
    let padding := default edges_default (last_padding self) in
    let content_height := cadd (cadd (sum_height summary) (edge_top padding)) (edge_bottom padding) in
    let scroll_max := pmax (csub content_height (height (bsize last_bounds))) czero in
    if cle scroll_max czero then None
    else Some (cle scroll_max (scroll_top self (logical_scroll_top self))).

Definition scroll_by self (distance : U) : outcome (t U) :=
  if peq distance czero then Ok self
  else
    let current_offset := logical_scroll_top self in
    let self := if clt distance czero then with_follow self (stop_following (follow_state self)) else self in
    '(cursor, _) ← seek () (mkCount (item_ix current_offset)) Right (summary_cursor (items self));
    let start_pixel_offset := cadd (sum_height (start cursor)) (offset_in_item current_offset) in
    let new_pixel_offset := pmax (cadd start_pixel_offset distance) czero in
    '(cursor, _) ←
      (if clt start_pixel_offset new_pixel_offset
       then seek_forward () (mkHeight new_pixel_offset) Right cursor
       else seek () (mkHeight new_pixel_offset) Right cursor);
    let scroll_top :=
      mkOffset (count (start cursor)) (csub new_pixel_offset (sum_height (start cursor))) in
    self ← rebase_pending_scroll self scroll_top;
    Ok (with_top self (Some scroll_top)).

Definition scroll_to_end self : t U :=
  let item_count := count (summary (items self)) in
  with_top (with_pending self None) (Some (mkOffset item_count czero)).

Definition set_follow_mode self (mode : FollowMode) : t U :=
  match mode with
  | FollowNormal => with_follow self Normal
  | FollowTail =>
      let self := with_follow self (Tail true) in
      with_top self (Some (mkOffset (count (summary (items self))) czero))
  end.
Definition is_following_tail self : bool := bool_decide (follow_state self = Tail true).

Definition scroll_to self (scroll_top : ListOffset U) : outcome (t U) :=
  let item_count := count (summary (items self)) in
  let scroll_top := if decide (item_count ≤ item_ix scroll_top) then mkOffset item_count czero else scroll_top in
  let self :=
    if decide (item_ix scroll_top < item_count)
    then with_follow self (stop_following (follow_state self)) else self in
  self ← rebase_pending_scroll self scroll_top;
  Ok (with_top self (Some scroll_top)).

Definition scroll_to_reveal_item self (ix : nat) : outcome (t U) :=
  let scroll_top := logical_scroll_top self in
  let height := match last_layout_bounds self with Some last_bounds => Geometry.height (bsize last_bounds) | None => czero end in
  let padding := default edges_default (last_padding self) in
  scroll_top ←
    (if decide (ix ≤ item_ix scroll_top) then Ok (mkOffset ix czero)
     else
       '(cursor, _) ← seek () (mkCount (ix + 1)) Right (summary_cursor (items self));
       let bottom := cadd (sum_height (start cursor)) (edge_top padding) in
       let goal_top := pmax czero (cadd (csub bottom height) (edge_bottom padding)) in
       '(cursor, _) ← seek () (mkHeight goal_top) Left cursor;
       let start_ix := count (start cursor) in
       let start_item_top := sum_height (start cursor) in
       Ok (if decide (item_ix scroll_top ≤ start_ix)
           then mkOffset start_ix (csub goal_top start_item_top)
           else scroll_top));
  self ← rebase_pending_scroll self scroll_top;
  Ok (with_top self (Some scroll_top)).

(** [StateInner::visible_range] and [StateInner::scroll]. *)
Definition visible_range (items : tree) (height : U) (scroll_top : ListOffset U) : outcome (nat * nat) :=
  '(cursor, _) ← seek () (mkCount (item_ix scroll_top)) Right (summary_cursor items);
  let start_y := cadd (sum_height (start cursor)) (offset_in_item scroll_top) in
  '(cursor, _) ← seek_forward () (mkHeight (cadd start_y height)) Left cursor;
  Ok (item_ix scroll_top, count (start cursor) + 1).

(** The position of a pixel offset from the top of the content. *)
Definition offset_at (items : tree) (new_scroll_top : U) : ListOffset U :=
  let '(start, _, _) := find (D:=ListItemSummary U) () items (mkHeight new_scroll_top) Right in
  mkOffset (count start) (csub new_scroll_top (sum_height start)).

Definition scroll self (scroll_top0 : ListOffset U) (height : U) (delta : Point U)
    : outcome (t U * option ListScrollEvent) :=
  if was_reset self then Ok (self, None)
  else
    let padding := default edges_default (last_padding self) in
    let scroll_max :=
      pmax (csub (cadd (cadd (sum_height (summary (items self))) (edge_top padding)) (edge_bottom padding)) height)
        czero in
    let new_scroll_top := pmin (pmax (csub (scroll_top self scroll_top0) (y delta)) czero) scroll_max in
    self ←
      (if bool_decide (alignment self = AlignBottom) && peq new_scroll_top scroll_max
       then Ok (with_top (with_pending self None) None)
       else
         let scroll_top := offset_at (items self) new_scroll_top in
         self ← rebase_pending_scroll self scroll_top;
         Ok (with_top self (Some scroll_top)));
    let self := if clt czero (y delta) then with_follow self (stop_following (follow_state self)) else self in
    if scroll_handler self then
      visible_range ← visible_range (items self) height scroll_top0;
      Ok (self, Some (mkScrollEvent visible_range (count (summary (items self)))
        (bool_decide (is_Some (logical_top self))) (bool_decide (follow_state self = Tail true))))
    else Ok (self, None).

(** ** The scrollbar *)

Definition max_scroll_offset self : U :=
  let bounds := default bounds_default (last_layout_bounds self) in
  let content := default (sum_height (summary (items self))) (scrollbar_drag_start_height self) in
  pmax (csub content (height (bsize bounds))) czero.

Definition scrollbar_drag_started self : t U := with_drag self (Some (sum_height (summary (items self)))).
Definition scrollbar_drag_ended self : t U := with_drag self None.
Definition is_scrollbar_dragging self : bool := bool_decide (is_Some (scrollbar_drag_start_height self)).
Definition max_offset_for_scrollbar self : Point U := point czero (max_scroll_offset self).

Definition set_offset_from_scrollbar self (p : Point U) : outcome (t U) :=
  match last_layout_bounds self with
  | None => Ok self
  | Some last_bounds =>
      let height := height (bsize last_bounds) in
      let padding := default edges_default (last_padding self) in
      let content_height := default (sum_height (summary (items self))) (scrollbar_drag_start_height self) in
      let scroll_max :=
        pmax (csub (cadd (cadd content_height (edge_top padding)) (edge_bottom padding)) height) czero in
      let new_scroll_top := pmin (pmax (pneg (y p)) czero) scroll_max in
      let dragged_to_end :=
        clt czero scroll_max && cle (pmax (csub scroll_max pone) czero) new_scroll_top in
      match follow_state self, dragged_to_end with
      | Tail _, true =>
          let self := with_follow self (Tail true) in
          let item_count := count (summary (items self)) in
          Ok (with_top (with_pending self None) (Some (mkOffset item_count czero)))
      | _, _ =>
          let self := with_follow self (stop_following (follow_state self)) in
          if bool_decide (alignment self = AlignBottom) && peq new_scroll_top scroll_max
          then Ok (with_top (with_pending self None) None)
          else
            let scroll_top := offset_at (items self) new_scroll_top in
            self ← rebase_pending_scroll self scroll_top;
            Ok (with_top self (Some scroll_top))
      end
  end.

Definition scroll_px_offset_for_scrollbar self : outcome (Point U) :=
  match logical_top self, alignment self with
  | None, AlignBottom => Ok (point czero (pneg (max_scroll_offset self)))
  | _, _ =>
      let logical_scroll_top := logical_scroll_top self in
      '(_, summary) ← cursor_summary () (Output:=ListItemSummary U) (mkCount (item_ix logical_scroll_top)) Right
        (summary_cursor (items self));
      let offset := cadd (sum_height summary) (offset_in_item logical_scroll_top) in
      Ok (point czero (pneg offset))
  end.

(** ** The viewport *)

Definition bounds_for_item self (ix : nat) : outcome (option (Bounds U)) :=
  let bounds := default bounds_default (last_layout_bounds self) in
  let scroll_top := logical_scroll_top self in
  if decide (ix < item_ix scroll_top) then Ok None
  else
    '(cursor, _) ← seek () (mkCount (item_ix scroll_top)) Right
      (cursor_new (D:=Count * Height U * ()) () (items self));
    let scroll_top := cadd (height_of (start cursor).1.2) (offset_in_item scroll_top) in
    '(cursor, _) ← seek_forward () (mkCount ix) Right cursor;
    x ← item cursor;
    match x with
    | Some (Measured s _) =>
        let '(cnt, tp, _) := start cursor in
        if decide (count_of cnt = ix) then
          let tp := csub (cadd (top bounds) (height_of tp)) scroll_top in
          Ok (Some (from_corners (point (left bounds) tp) (point (right bounds) (cadd tp (height s)))))
        else Ok None
    | _ => Ok None
    end.

Definition viewport_bounds self : Bounds U := default bounds_default (last_layout_bounds self).

Definition item_is_above_viewport self (ix : nat) : outcome (option bool) :=
  match last_layout_bounds self with
  | None => Ok None
  | Some viewport_bounds =>
      if decide (ix < item_ix (logical_scroll_top self)) then Ok (Some true)
      else
        item_bounds ← bounds_for_item self ix;
        Ok (option_map (λ b : Bounds U, cle (bottom b) (top viewport_bounds)) item_bounds)
  end.
Definition item_is_below_viewport self (ix : nat) : outcome (option bool) :=
  match last_layout_bounds self with
  | None => Ok None
  | Some viewport_bounds =>
      if decide (ix < item_ix (logical_scroll_top self)) then Ok (Some false)
      else
        item_bounds ← bounds_for_item self ix;
        Ok (option_map (λ b : Bounds U, cle (bottom viewport_bounds) (top b)) item_bounds)
  end.
End ops.
