(* ===== verification/ListFacts.v ===== *)
(** Positions in the items of a list: how many of them, and how many pixels, lie before a point,
    and what the cursors of the sum tree find by either measure. Lengths are exact here. *)
From Stdlib Require Import QArith Qcanon.
From S2P Require Import Prelude SumTree SumTreeFacts Seek Cursor CursorFacts CursorMoves CursorOps TabStops Geometry Pixels ListState ListOps.
Import ListState.
Local Open Scope Qc_scope.
Local Open Scope nat_scope.

Notation list_tree := (Node (ListItemSummary Qc) (ListItem Qc)).

#[export] Instance Qc_list_laws : SummaryLaws (S:=ListItemSummary Qc) ().
Proof. apply list_summary_laws; simpl; [intros; symmetry; apply Qcplus_assoc|apply Qcplus_0_l]. Qed.
#[export] Instance Qc_height_laws : DimensionLaws (S:=ListItemSummary Qc) (Height Qc) ().
Proof. apply height_dimension_laws; simpl; [intros; symmetry; apply Qcplus_assoc|apply Qcplus_0_l]. Qed.
#[export] Instance summary_dimension_laws : DimensionLaws (S:=ListItemSummary Qc) (ListItemSummary Qc) ().
Proof. split; [intros; symmetry; apply (add_summary_assoc (cx:=()))|apply (zero_left (cx:=()))]. Qed.
#[export] Instance count_height_laws :
  DimensionLaws (S:=ListItemSummary Qc) (Count * Height Qc * ()) ().
Proof.
  split.
  - intros [[c h] u] s1 s2. apply (f_equal2 pair); [apply (f_equal2 pair)|done].
    + apply (dim_add_summary (cx:=()) c).
    + apply (dim_add_summary (cx:=()) h).
  - simpl. by rewrite Qcplus_0_l.
Qed.

Section positions.
Implicit Types l a b : list (ListItem Qc).
Implicit Types it : ListItem Qc.
Implicit Types p h : Qc.

(** ** Heights *)

(** The height that an item contributes: measured, hinted, or none. *)
Definition item_height it : Qc := sum_height (item_summary () it : ListItemSummary Qc).
Fixpoint heights l : Qc := match l with [] => 0 | it :: l => item_height it + heights l end%Qc.

Lemma heights_app a b : heights (a ++ b) = (heights a + heights b)%Qc.
Proof. induction a as [|it a IH]; simpl; [|rewrite IH]; qc_lra. Qed.

Notation nonneg l := (Forall (λ it, (0 <= item_height it)%Qc) l).

Lemma heights_nonneg l : nonneg l → (0 <= heights l)%Qc.
Proof. induction 1; simpl; qc_lra. Qed.
Lemma heights_mono l i j : nonneg l → i ≤ j → (heights (take i l) <= heights (take j l))%Qc.
Proof.
  intros Hl Hij. replace (take j l) with (take i l ++ take (j - i) (drop i l)).
  - rewrite heights_app. enough (0 <= heights (take (j - i) (drop i l)))%Qc by qc_lra.
    by apply heights_nonneg, Forall_take, Forall_drop.
  - rewrite <-(take_drop i (take j l)), take_take, Nat.min_l by done. f_equal.
    by rewrite skipn_firstn_comm.
Qed.

Lemma pos_count (s : ListItemSummary Qc) l : count (pos_from () s l) = count s + length l.
Proof.
  revert s. induction l as [|it l IH]; intros s; simpl; [lia|]. rewrite IH. simpl.
  destruct it; simpl; lia.
Qed.
Lemma pos_height (s : ListItemSummary Qc) l : sum_height (pos_from () s l) = (sum_height s + heights l)%Qc.
Proof.
  revert s. induction l as [|it l IH]; intros s; simpl; [qc_lra|]. rewrite IH.
  unfold item_height. cbn -[item_summary]. change cadd with Qcplus. qc_lra.
Qed.

Lemma list_summary_of l :
  count (summary_of () l : ListItemSummary Qc) = length l ∧
  sum_height (summary_of () l : ListItemSummary Qc) = heights l.
Proof.
  induction l as [|it l [IH1 IH2]]; [done|].
  change (it :: l) with ([it] ++ l). destruct l as [|it' l].
  - unfold summary_of. rewrite app_nil_r. simpl map. rewrite (sum_singleton ()).
    split; [by destruct it|]. change (item_height it = (item_height it + 0)%Qc). qc_lra.
  - rewrite (summary_of_app ()) by done. cbn [count sum_height add_summary list_summary]. rewrite IH1, IH2.
    assert (summary_of () [it] = item_summary () it :> ListItemSummary Qc) as ->
      by (unfold summary_of; simpl map; by rewrite (sum_singleton ())).
    split; [by destruct it|done].
Qed.

(** ** Seeking by count *)

(** The dimensions that contain a count. *)
Class CountDim (D : Type) `{!Dimension () (ListItemSummary Qc) D, !SeekTarget () D Count} := {
  dim_count : D → nat;
  dim_count_zero : dim_count (dim_zero (S:=ListItemSummary Qc) ()) = 0;
  dim_count_add d it : dim_count (dim_add () d (item_summary () it)) = S (dim_count d);
  dim_count_cmp k d : seek_cmp () (mkCount k) d = (k ?= dim_count d);
}.
End positions.
Notation nonneg l := (Forall (λ it, (0 <= item_height it)%Qc) l).

#[export] Program Instance count_count_dim : CountDim Count := {| dim_count := count_of |}.
Solve All Obligations with (try done; intros; destruct it; simpl; lia).
#[export] Program Instance summary_count_dim : CountDim (ListItemSummary Qc) := {| dim_count := count |}.
Solve All Obligations with (try done; intros; destruct it; simpl; lia).
#[export] Program Instance pair_count_dim : CountDim (Count * Height Qc * ()) :=
  {| dim_count := λ d, count_of d.1.1 |}.
Solve All Obligations with (try done; intros; destruct it; simpl; lia).

Section seek_count.
Context {D : Type} `{!Dimension () (ListItemSummary Qc) D, !SeekTarget () D Count, !CountDim D}.
Context `{!DimensionLaws (S:=ListItemSummary Qc) D ()}.
Implicit Types l pre post : list (ListItem Qc).
Implicit Types c : Cursor (ListItemSummary Qc) (ListItem Qc) D.

Lemma dim_count_from d l : dim_count (pos_from () d l) = dim_count d + length l.
Proof. revert d. induction l as [|it l IH]; intros d; simpl; [lia|]. rewrite IH, dim_count_add. lia. Qed.
Lemma dim_count_of l : dim_count (pos_of () l : D) = length l.
Proof. unfold pos_of. by rewrite dim_count_from, dim_count_zero. Qed.

Lemma count_sorted k (d : D) l : seek_sorted () (mkCount k) d l.
Proof.
  intros l1 l2 l3 _. rewrite !dim_count_cmp, !dim_count_from, length_app.
  destruct (Nat.compare_spec k (dim_count d + (length l1 + length l2))),
    (Nat.compare_spec k (dim_count d + length l1)); simpl; auto; lia.
Qed.

Lemma count_scan k (d : D) l :
  scan () (mkCount k) Right d l = (take (k - dim_count d) l, drop (k - dim_count d) l).
Proof.
  revert d. induction l as [|it l IH]; intros d; simpl; [by rewrite take_nil, drop_nil|].
  unfold reached. rewrite dim_count_cmp, dim_count_add, IH, dim_count_add.
  destruct (Nat.compare_spec k (S (dim_count d))) as [->|Hlt|Hgt]; simpl.
  - rewrite Nat.sub_diag, Nat.sub_succ_l, Nat.sub_diag by lia. done.
  - by replace (k - dim_count d) with 0 by lia.
  - replace (k - dim_count d) with (S (k - S (dim_count d))) by lia. done.
Qed.

Lemma seek_count (tr : list_tree) c k :
  walkable () tr → c_tree c = tr →
  ∃ c' b, seek () (mkCount k) Right c = Ok (c', b) ∧ c_tree c' = tr ∧
    seeked () c' (take k (tree_items tr)) (drop k (tree_items tr)).
Proof.
  intros Hw <-. destruct (seek_ok () (mkCount k) Right c Hw) as (c' & Hr & Ht & Hc).
  - apply count_sorted.
  - rewrite dim_count_cmp, dim_count_zero. by destruct k.
  - rewrite count_scan, dim_count_zero, Nat.sub_0_r in Hc. eexists c', _. done.
Qed.

Lemma count_pre (tr : list_tree) c pre post k :
  walkable () tr → c_tree c = tr → seekable () c pre post → length pre ≤ k ∨ post = [] ∧ length pre ≤ k →
  seek_pre () (mkCount k) c pre post.
Proof.
  intros Hw <- Hc Hk. split; [done|]. split; [done|]. split; [apply count_sorted|].
  rewrite dim_count_cmp, dim_count_of. destruct (Nat.compare_spec k (length pre)); try done. lia.
Qed.

Lemma seek_forward_count (tr : list_tree) c pre post k :
  walkable () tr → c_tree c = tr → seekable () c pre post → length pre ≤ k →
  ∃ c' b, seek_forward () (mkCount k) Right c = Ok (c', b) ∧ c_tree c' = tr ∧
    seeked () c' (pre ++ take (k - length pre) post) (drop (k - length pre) post).
Proof.
  intros Hw Ht Hc Hk. destruct (seek_forward_ok () (mkCount k) Right c pre post) as (c' & Hr & Ht' & Hc').
  - by apply (count_pre tr); auto.
  - rewrite count_scan, dim_count_of in Hc'. exists c'. eexists. split; [exact Hr|].
    split; [congruence|done].
Qed.

Lemma slice_count (tr : list_tree) c pre post k :
  walkable () tr → c_tree c = tr → seekable () c pre post → length pre ≤ k →
  ∃ c' n, slice () (mkCount k) Right c = Ok (c', n) ∧ wf_tree () n ∧
    tree_items n = take (k - length pre) post ∧ c_tree c' = tr ∧
    seeked () c' (pre ++ take (k - length pre) post) (drop (k - length pre) post).
Proof.
  intros Hw Ht Hc Hk. destruct (slice_ok () (mkCount k) Right c pre post) as (c' & n & Hr & Hn & Hi & Ht' & Hc').
  - by apply (count_pre tr); auto.
  - rewrite count_scan, dim_count_of in Hc', Hi. exists c', n. split; [exact Hr|].
    split; [done|]. split; [done|]. split; [congruence|done].
Qed.
End seek_count.

(** ** Seeking by height *)

(** The position at [p] pixels from the top of the content: the item that covers the pixel, or the
    end, and the rest of the pixels as the offset into it. *)
Definition at_pixel (l : list (ListItem Qc)) (p : Qc) (top : ListOffset Qc) : Prop :=
  item_ix top ≤ length l ∧
  (heights (take (item_ix top) l) + offset_in_item top = p)%Qc ∧
  (heights (take (item_ix top) l) <= p)%Qc ∧
  (item_ix top = length l ∨ (p < heights (take (S (item_ix top)) l))%Qc).

(** The pixels above a position. *)
Definition pixel_of (l : list (ListItem Qc)) (top : ListOffset Qc) : Qc :=
  (heights (take (item_ix top) l) + offset_in_item top)%Qc.

Section seek_height.
Implicit Types l pre post : list (ListItem Qc).
Implicit Types p h : Qc.
Implicit Types c : Cursor (ListItemSummary Qc) (ListItem Qc) (ListItemSummary Qc).

Lemma at_pixel_unique l p top1 top2 : nonneg l → at_pixel l p top1 → at_pixel l p top2 → top1 = top2.
Proof.
  intros Hl (Hi1 & Ho1 & Hb1 & He1) (Hi2 & Ho2 & Hb2 & He2).
  assert (item_ix top1 = item_ix top2) as Hi.
  { destruct (Nat.lt_trichotomy (item_ix top1) (item_ix top2)) as [Hlt|[?|Hlt]]; [exfalso|done|exfalso].
    - destruct He1 as [He1|He1]; [lia|]. pose proof (heights_mono l _ _ Hl Hlt). qc_lra.
    - destruct He2 as [He2|He2]; [lia|]. pose proof (heights_mono l _ _ Hl Hlt). qc_lra. }
  destruct top1 as [i o1], top2 as [j o2]. simpl in *. subst j. f_equal. qc_lra.
Qed.

Lemma height_cmp h (d : ListItemSummary Qc) :
  CompareSpec (h = sum_height d) (h < sum_height d)%Qc (sum_height d < h)%Qc (seek_cmp () (mkHeight h) d).
Proof. apply pcmp_spec. Qed.

Lemma height_add (d : ListItemSummary Qc) (it : ListItem Qc) :
  sum_height (dim_add () d (item_summary () it)) = (sum_height d + item_height it)%Qc.
Proof. done. Qed.

Lemma height_sorted h (d : ListItemSummary Qc) l : nonneg l → seek_sorted () (mkHeight h) d l.
Proof.
  intros Hl l1 l2 l3 ->. apply Forall_app in Hl as [_ [Hl _]%Forall_app]. apply heights_nonneg in Hl.
  destruct (height_cmp h (pos_from () d (l1 ++ l2))) as [E1|E1|E1],
    (height_cmp h (pos_from () d l1)) as [E2|E2|E2]; simpl; auto;
    rewrite pos_height in E1, E2; rewrite heights_app in E1; qc_lra.
Qed.

(** Whether the end of an item stops a seek. *)
Definition stops_at (bias : Bias) (h e : Qc) : Prop :=
  match bias with Left => (h <= e)%Qc | Right => (h < e)%Qc end.

Lemma height_reached bias h d : reached () (mkHeight h) bias d = true ↔ stops_at bias h (sum_height d).
Proof.
  unfold reached. destruct (height_cmp h d) as [->|?|?], bias; simpl; split; try done; intros; qc_lra.
Qed.

(** The scan stops at the first item whose end is at the pixel, or beyond it. *)
Lemma height_scan h bias (d : ListItemSummary Qc) l :
  (sum_height d <= h)%Qc → nonneg l →
  let sc := scan () (mkHeight h) bias d l in
  (sum_height d + heights sc.1 <= h)%Qc ∧
  match sc.2 with
  | [] => True
  | it :: _ => stops_at bias h (sum_height d + heights (sc.1 ++ [it]))
  end.
Proof.
  revert d. induction l as [|it l IH]; intros d Hd Hl; [simpl; split; [qc_lra|done]|].
  apply Forall_cons in Hl as [Hit Hl]. cbn [scan].
  pose proof (height_reached bias h (dim_add () d (item_summary () it))) as Hr. rewrite height_add in Hr.
  destruct (reached _ _ _ _).
  - cbn [fst snd app heights]. split; [qc_lra|]. apply proj1 in Hr. specialize (Hr eq_refl).
    destruct bias; simpl in *; qc_lra.
  - assert (Hd' : (sum_height (dim_add () d (item_summary () it : ListItemSummary Qc)) <= h)%Qc).
    { rewrite height_add. apply proj2 in Hr. destruct (Qclt_le_dec h (sum_height d + item_height it)) as [Hlt|]; [|done].
      exfalso. assert (false = true) by (apply Hr; destruct bias; simpl; [apply Qclt_le_weak|]; done). done. }
    specialize (IH _ Hd' Hl). destruct (scan _ _ _ _ l) as [a b]. cbn [fst snd] in *.
    rewrite height_add in IH. destruct IH as [IH1 IH2]. cbn [heights app]. split; [qc_lra|].
    destruct b as [|it' b]; [done|]. destruct bias; simpl in *; qc_lra.
Qed.

(** A seek by height from a position at or before the pixel. *)
Lemma seek_forward_height (tr : list_tree) c pre post h bias :
  walkable () tr → c_tree c = tr → seekable () c pre post → nonneg (tree_items tr) →
  (heights pre <= h)%Qc →
  ∃ c' b a z, seek_forward () (mkHeight h) bias c = Ok (c', b) ∧ c_tree c' = tr ∧
    seeked () c' (pre ++ a) z ∧ post = a ++ z ∧ (heights (pre ++ a) <= h)%Qc ∧
    match z with [] => True | it :: _ => stops_at bias h (heights (pre ++ a ++ [it])) end.
Proof.
  intros Hw <- Hc Hn Hh.
  assert (Hpost : tree_items (c_tree c) = pre ++ post).
  { destruct Hc as [Hc|(_ & -> & ->)]; [by eapply (seeked_items ())|done]. }
  rewrite Hpost in Hn. apply Forall_app in Hn as [_ Hn].
  assert (Hp : sum_height (pos_of () pre : ListItemSummary Qc) = heights pre).
  { unfold pos_of. rewrite pos_height. simpl. qc_lra. }
  destruct (seek_forward_ok () (mkHeight h) bias c pre post) as (c' & Hr & Ht & Hc').
  { split; [done|]. split; [done|]. split; [by apply height_sorted|].
    destruct (height_cmp h (pos_of () pre)); try done. rewrite Hp in *. qc_lra. }
  pose proof (scan_app () (mkHeight h) bias (pos_of () pre : ListItemSummary Qc) post) as Ha.
  pose proof (height_scan h bias (pos_of () pre) post) as Hs.
  rewrite Hp in Hs. destruct (Hs Hh Hn) as [H1 H2]. clear Hs.
  destruct (scan () (mkHeight h) bias (pos_of () pre) post) as [a z]. cbn [fst snd] in *.
  eexists c', _, a, z. split; [exact Hr|]. split; [done|]. split; [done|]. split; [done|].
  rewrite heights_app. split; [done|]. destruct z as [|it z]; [done|].
  by rewrite heights_app.
Qed.

Lemma seek_height (tr : list_tree) c h bias :
  walkable () tr → c_tree c = tr → nonneg (tree_items tr) → (0 <= h)%Qc →
  ∃ c' b a z, seek () (mkHeight h) bias c = Ok (c', b) ∧ c_tree c' = tr ∧
    seeked () c' a z ∧ tree_items tr = a ++ z ∧ (heights a <= h)%Qc ∧
    match z with [] => True | it :: _ => stops_at bias h (heights (a ++ [it])) end.
Proof.
  intros Hw <- Hn Hh.
  destruct (seek_forward_height (c_tree c) (reset () c) [] (tree_items (c_tree c)) h bias)
    as (c' & b & a & z & Hr & Ht & Hc & Hp & Ha & Hz); [done|done| |done|done|].
  { right. split; [apply reset_unseeked|done]. }
  exists c', b, a, z. done.
Qed.

(** A split of the items around a pixel is the position at the pixel. *)
Lemma at_pixel_split l p a z :
  l = a ++ z → (heights a <= p)%Qc →
  match z with [] => True | it :: _ => (p < heights (a ++ [it]))%Qc end →
  at_pixel l p (mkOffset (length a) (p - heights a)%Qc).
Proof.
  intros -> Ha Hz. unfold at_pixel. cbn [item_ix offset_in_item].
  rewrite take_app_length, length_app. split; [lia|]. split; [qc_lra|]. split; [done|].
  destruct z as [|it z]; [left; simpl; lia|right]. 
  replace (take (S (length a)) (a ++ it :: z)) with (a ++ [it]); [done|].
  rewrite (assoc_L (++) a [it] z : a ++ it :: z = _), take_app_length'; [done|].
  rewrite length_app. simpl. lia.
Qed.
End seek_height.
