(* ===== verification/ListOpsFacts.v ===== *)
(** What each operation of a list does to its items, its scroll position and the pending scroll, and where the scrolling
    operations lead. *)
From Stdlib Require Import QArith Qcanon.
From S2P Require Import Prelude SumTree SumTreeFacts Seek Cursor CursorFacts CursorMoves CursorOps Geometry TabStops Pixels ListState ListOps ListFacts.
Import ListState.
Local Open Scope Qc_scope.
Local Open Scope nat_scope.

Notation contents s := (tree_items (items s)).

Implicit Types s : ListState.t Qc.
Implicit Types l : list (ListItem Qc).
Implicit Types top : ListOffset Qc.
Implicit Types p h : Qc.

(** ** The invariant *)

Definition top_ok l top : Prop := item_ix top ≤ length l ∧ (0 <= offset_in_item top)%Qc.
Definition pending_ok (pending : PendingScroll Qc) : Prop :=
  match pending with
  | PendingAbsolute _ offset => (0 <= offset)%Qc
  | PendingProportional _ fraction => (0 <= fraction)%Qc ∧ (fraction <= 1)%Qc
  end.

Record list_ok s : Prop := {
  ok_tree : walkable () (items s);
  ok_heights : nonneg (contents s);
  ok_top : ∀ top, logical_top s = Some top → top_ok (contents s) top;
  ok_pending : ∀ pending, pending_scroll s = Some pending → pending_ok pending;
}.

Lemma tree_summary (tr : list_tree) :
  wf_tree () tr →
  count (summary tr) = length (tree_items tr) ∧ sum_height (summary tr) = heights (tree_items tr).
Proof. intros Hw. rewrite (wf_tree_summary ()) by done. apply list_summary_of. Qed.

Lemma scroll_top_wf s top : wf_tree () (items s) → scroll_top s top = pixel_of (contents s) top.
Proof.
  intros Hw. unfold scroll_top, pixel_of. rewrite (find_ok ()); [|done|apply count_sorted].
  rewrite count_scan. simpl dim_count. rewrite Nat.sub_0_r.
  assert (∀ l, sum_height (pos_of () l : ListItemSummary Qc) = heights l) as Hp.
  { intros l. unfold pos_of. rewrite pos_height. simpl. qc_lra. }
  destruct (drop _ _); by rewrite Hp.
Qed.

Section queries.
Context s (Hs : list_ok s).

Lemma content_summary :
  count (summary (items s)) = length (contents s) ∧
  sum_height (summary (items s)) = heights (contents s).
Proof using Hs. apply tree_summary, Hs. Qed.
Lemma content_count : count (summary (items s)) = length (contents s).
Proof using Hs. apply content_summary. Qed.
Lemma content_height : sum_height (summary (items s)) = heights (contents s).
Proof using Hs. apply content_summary. Qed.

Lemma logical_scroll_top_ok : top_ok (contents s) (logical_scroll_top s).
Proof using Hs.
  unfold logical_scroll_top. destruct (logical_top s) as [top|] eqn:E; [by apply Hs|].
  destruct (alignment s); split; simpl; try rewrite content_count; try lia; qc_lra.
Qed.

Lemma scroll_top_pixel top : scroll_top s top = pixel_of (contents s) top.
Proof using Hs. apply scroll_top_wf, Hs. Qed.

Lemma offset_at_pixel p : (0 <= p)%Qc → at_pixel (contents s) p (offset_at (items s) p).
Proof using Hs.
  intros Hp. unfold offset_at.
  rewrite (find_ok ()); [|apply Hs|by apply height_sorted, Hs].
  pose proof (scan_app () (mkHeight p) Right (dim_zero (S:=ListItemSummary Qc) () : ListItemSummary Qc) (contents s)) as Ha.
  pose proof (height_scan p Right (dim_zero (S:=ListItemSummary Qc) ()) (contents s)) as Hsc.
  destruct Hsc as [H1 H2]; [done|apply Hs|].
  destruct (scan _ _ _ _ _) as [a z]. cbn [fst snd] in *.
  assert (count (pos_of () a : ListItemSummary Qc) = length a ∧
    sum_height (pos_of () a : ListItemSummary Qc) = heights a) as [Hc Hh].
  { unfold pos_of. rewrite pos_count, pos_height. simpl. split; [done|qc_lra]. }
  change (sum_height (dim_zero (S:=ListItemSummary Qc) () : ListItemSummary Qc)) with 0%Qc in *.
  assert (at_pixel (contents s) p (mkOffset (length a) (p - heights a)%Qc)).
  { apply (at_pixel_split _ _ a z); [done|qc_lra|]. destruct z as [|it z]; [done|]. simpl in H2.
    qc_lra. }
  destruct z; simpl; by rewrite Hc, Hh.
Qed.
End queries.

(** The position of a cursor that is between [pre] and [post]. *)
Lemma start_summary (c : Cursor (ListItemSummary Qc) (ListItem Qc) (ListItemSummary Qc)) pre post :
  seeked () c pre post → count (start c) = length pre ∧ sum_height (start c) = heights pre.
Proof.
  intros Hc. unfold start. rewrite (seeked_position () c _ _ Hc). unfold pos_of.
  rewrite pos_count, pos_height. simpl. split; [done|qc_lra].
Qed.

Lemma list_of_ok (tr : list_tree) : walkable () tr → list_of tr = Ok (tree_items tr).
Proof.
  intros Hw. unfold list_of. apply (iter_all_ok ()); [done|].
  pose proof (items_lt_fuel () tr (proj1 Hw)). lia.
Qed.

(** Positions at a pixel are positions in the list. *)
Lemma at_pixel_ok l p top : at_pixel l p top → top_ok l top.
Proof. intros (Hi & Ho & Hb & _). split; [done|]. qc_lra. Qed.

Lemma clamp01_ok p : (0 <= clamp01 p)%Qc ∧ (clamp01 p <= 1)%Qc.
Proof.
  unfold clamp01. change (pone : Qc) with 1%Qc. change (czero : Qc) with 0%Qc.
  destruct (clt_spec p 0); [destruct (clt_spec 1 0)|destruct (clt_spec 1 p)]; split; qc_lra.
Qed.

Lemma fraction_ok (offset : Qc) (sz : Size Qc) :
  let f := if clt czero (height sz) then fraction_of offset sz else czero in
  (0 <= f)%Qc ∧ (f <= 1)%Qc.
Proof. destruct (clt_spec czero (height sz)); [apply clamp01_ok|]. change (czero : Qc) with 0%Qc. split; qc_lra. Qed.

(** ** The pending scroll *)

Definition rebased s top : option (PendingScroll Qc) :=
  match pending_scroll s with
  | None => None
  | Some pending =>
      if decide (length (contents s) ≤ item_ix top) then None
      else match pending with
      | PendingAbsolute _ _ => Some (PendingAbsolute (item_ix top) (offset_in_item top))
      | PendingProportional _ _ =>
          match contents s !! item_ix top ≫= item_size_hint with
          | Some sz =>
              if clt czero (height sz)
              then Some (PendingProportional (item_ix top) (fraction_of (offset_in_item top) sz)) else None
          | None => None
          end
      end
  end.

Lemma rebase_ok s top :
  list_ok s → rebase_pending_scroll s top = Ok (with_pending s (rebased s top)).
Proof.
  intros Hs. unfold rebase_pending_scroll, rebased.
  destruct (pending_scroll s) as [pending|] eqn:E; [|by destruct s; simpl in *; subst].
  simpl items. rewrite (content_count s Hs). destruct (decide _); [done|].
  destruct pending as [k o|k f]; [done|].
  destruct (seek_count (D:=Count) (items s) (cursor_new () (items s)) (item_ix top))
    as (c & b & -> & Ht & Hc); [apply Hs|done|]. cbn [mbind outcome_bind].
  rewrite (item_seeked () c _ _ Hc) by (rewrite Ht; apply Hs). cbn [mbind outcome_bind].
  by rewrite head_lookup, lookup_drop, Nat.add_0_r.
Qed.

Lemma rebased_ok s top pending :
  (0 <= offset_in_item top)%Qc → rebased s top = Some pending → pending_ok pending.
Proof.
  intros Ho. unfold rebased. destruct (pending_scroll s) as [q|]; [|done]. destruct (decide _); [done|].
  destruct q; [by intros [= <-]|]. destruct (_ ≫= _) as [sz|]; [|done].
  destruct (clt _ _); [|done]. intros [= <-]. apply clamp01_ok.
Qed.

(** A new scroll position, with the pending scroll moved to it. *)
Definition scrolled s top : ListState.t Qc := with_top (with_pending s (rebased s top)) (Some top).

Lemma scrolled_ok s top : list_ok s → top_ok (contents s) top → list_ok (scrolled s top).
Proof.
  intros Hs Ht. split; simpl; try apply Hs.
  - by intros ? [= <-].
  - intros pending. apply rebased_ok, Ht.
Qed.

Lemma with_follow_ok s v : list_ok s → list_ok (with_follow s v).
Proof. intros []. by split. Qed.

(** ** The items *)

Definition unmeasure (it : ListItem Qc) : ListItem Qc := Unmeasured (item_size_hint it) (item_focus_handle it).
Lemma unmeasure_height it : item_height (unmeasure it) = item_height it.
Proof. by destruct it. Qed.
Lemma heights_unmeasure l : heights (map unmeasure l) = heights l.
Proof. induction l as [|it l IH]; [done|]. cbn [map heights]. by rewrite unmeasure_height, IH. Qed.
Lemma nonneg_unmeasure l : nonneg l → nonneg (map unmeasure l).
Proof. intros Hl. apply Forall_map. eapply Forall_impl; [exact Hl|]. intros it. simpl. by rewrite unmeasure_height. Qed.

Definition splice_top (range : nat * nat) (spliced : nat) (top : option (ListOffset Qc)) :
    option (ListOffset Qc) :=
  match top with
  | None => None
  | Some top =>
      Some (if range_contains range (item_ix top) then mkOffset range.1 0%Qc
            else if range.2 <=? item_ix top
            then mkOffset (item_ix top - (range.2 - range.1) + spliced) (offset_in_item top)
            else top)
  end.

Lemma splice_ok s i j handles :
  list_ok s → i ≤ j →
  ∃ tr, splice_focusable s (i, j) handles
      = Ok (with_top (with_items s tr) (splice_top (i, j) (length handles) (logical_top s))) ∧
    wf_tree () tr ∧
    tree_items tr = take i (contents s) ++ map (Unmeasured None) handles ++ drop j (contents s).
Proof.
  intros Hs Hij. unfold splice_focusable. cbn [fst snd].
  destruct (slice_count (D:=Count) (items s) (cursor_new () (items s)) [] (contents s) i)
    as (c1 & n1 & -> & Hn1 & Hi1 & Ht1 & Hc1); [apply Hs|done|by right|simpl; lia|].
  rewrite Nat.sub_0_r in Hi1, Hc1. cbn [mbind outcome_bind]. simpl app in Hc1.
  destruct (seek_forward_count (D:=Count) (items s) c1 _ _ j (ok_tree s Hs) Ht1 (or_introl Hc1))
    as (c2 & b2 & -> & Ht2 & Hc2); [rewrite length_take; lia|]. cbn [mbind outcome_bind].
  destruct (extend_ok () n1 (map (Unmeasured None) handles) Hn1) as (n2 & -> & Hn2 & Hi2).
  cbn [mbind outcome_bind].
  destruct (suffix_ok () c2 _ _ ltac:(by rewrite Ht2; apply Hs) (or_introl Hc2)) as (c3 & n3 & -> & Hn3 & Hi3 & _).
  cbn [mbind outcome_bind].
  destruct (append_ok () n2 n3 Hn2 Hn3) as (n4 & -> & Hn4 & Hi4). cbn [mbind outcome_bind].
  exists n4. split; [|split; [done|]].
  - unfold splice_top. simpl logical_top. destruct (logical_top s) as [top|] eqn:E; [|by destruct s; simpl in *; subst].
    destruct (range_contains (i, j) (item_ix top)) eqn:Er; [done|]. cbn [fst snd].
    destruct (Nat.leb_spec j (item_ix top)); [|by destruct s; simpl in *; subst].
    rewrite !checked_sub_ok by lia. cbn [mbind outcome_bind]. rewrite checked_sub_ok by lia. done.
  - rewrite Hi4, Hi2, Hi1, Hi3, drop_drop, <-app_assoc. f_equal. f_equal.
    rewrite length_take. destruct (Nat.le_ge_cases i (length (contents s))).
    + f_equal. lia.
    + rewrite !drop_ge by lia. done.
Qed.

Lemma handles_nonneg (handles : list (option FocusHandle)) : nonneg (map (Unmeasured (U:=Qc) None) handles).
Proof. apply Forall_map, Forall_true. intros h. unfold item_height. simpl. qc_lra. Qed.

Lemma nonneg_pieces l i j mid : nonneg l → nonneg mid → nonneg (take i l ++ mid ++ drop j l).
Proof. intros. rewrite !Forall_app. auto using Forall_take, Forall_drop. Qed.

Lemma splice_top_ok s i j (handles : list (option FocusHandle)) top :
  list_ok s → i ≤ j → splice_top (i, j) (length handles) (logical_top s) = Some top →
  top_ok (take i (contents s) ++ map (Unmeasured None) handles ++ drop j (contents s)) top.
Proof.
  intros Hs Hij. unfold splice_top. destruct (logical_top s) as [top0|] eqn:E; [|done].
  destruct (ok_top s Hs _ E) as [Hi Ho]. intros [= <-]. unfold top_ok.
  rewrite !length_app, length_map, length_take, length_drop. unfold range_contains. cbn [fst snd].
  destruct (Nat.leb_spec i (item_ix top0)), (Nat.ltb_spec (item_ix top0) j); simpl;
    try (split; [lia|qc_lra]); destruct (Nat.leb_spec j (item_ix top0)); simpl; split; try done; lia.
Qed.

Lemma with_items_ok s (tr : list_tree) (top : option (ListOffset Qc)) :
  list_ok s → wf_tree () tr → SumTree.height tr < STACK_CAP → nonneg (tree_items tr) →
  (∀ t, top = Some t → top_ok (tree_items tr) t) → list_ok (with_top (with_items s tr) top).
Proof. intros [] Hw Hh Hn Ht. split; simpl; auto. by split. Qed.

(** A remeasurement keeps every height, as a hint, and every focus handle. *)
Definition remeasured l (i j : nat) : list (ListItem Qc) :=
  take i l ++ map unmeasure (take (j - i) (drop i l)) ++ drop j l.

Lemma stash_ok s range anchor :
  list_ok s →
  ∃ pending, stash_scroll s range anchor = Ok pending ∧ (∀ q, pending = Some q → pending_ok q) ∧
    pending = match logical_top s with
      | Some top =>
          if range_contains range (item_ix top) then
            match anchor with
            | AnchorAbsolute => Some (PendingAbsolute (item_ix top) (offset_in_item top))
            | AnchorProportional =>
                match contents s !! item_ix top ≫= measured_size with
                | Some sz => Some (PendingProportional (item_ix top)
                    (if clt czero (height sz) then fraction_of (offset_in_item top) sz else czero))
                | None => pending_scroll s
                end
            end
          else pending_scroll s
      | None => pending_scroll s
      end.
Proof.
  intros Hs. unfold stash_scroll.
  destruct (logical_top s) as [top|] eqn:E; [|eexists; split; [done|]; split; [apply Hs|done]].
  destruct (range_contains _ _); [|eexists; split; [done|]; split; [apply Hs|done]].
  destruct anchor.
  - eexists. split; [done|]. split; [|done]. intros q [= <-]. by apply (ok_top s Hs).
  - destruct (seek_count (D:=Count) (items s) (cursor_new () (items s)) (item_ix top))
      as (c & b & -> & Ht & Hc); [apply Hs|done|]. cbn [mbind outcome_bind].
    rewrite (item_seeked () c _ _ Hc) by (rewrite Ht; apply Hs). cbn [mbind outcome_bind].
    rewrite head_lookup, lookup_drop, Nat.add_0_r. eexists. split; [done|]. split; [|done].
    destruct (_ ≫= _) as [sz|]; [|apply Hs]. intros q [= <-]. exact (fraction_ok (offset_in_item top) sz).
Qed.

(** The slice that is remeasured fits the stack of an iterator. *)
Definition slice_fits s (i j : nat) : Prop := ∀ c1 n1 c2 n2,
  slice () (mkCount i) Right (cursor_new (D:=Count) () (items s)) = Ok (c1, n1) →
  slice () (mkCount j) Right c1 = Ok (c2, n2) → SumTree.height n2 < STACK_CAP.

Lemma remeasure_ok s i j anchor :
  list_ok s → i ≤ j → slice_fits s i j →
  ∃ (tr : list_tree) pending, remeasure_items_with_scroll_anchor s (i, j) anchor
      = Ok (with_measuring (with_items (with_pending s pending) tr) (measuring_reset (measuring_behavior s))) ∧
    stash_scroll s (i, j) anchor = Ok pending ∧ (∀ q, pending = Some q → pending_ok q) ∧
    wf_tree () tr ∧ tree_items tr = remeasured (contents s) i j.
Proof.
  intros Hs Hij Hfit. unfold remeasure_items_with_scroll_anchor.
  destruct (stash_ok s (i, j) anchor Hs) as (pending & -> & Hp & _). cbn [mbind outcome_bind fst snd].
  destruct (slice_count (D:=Count) (items s) (cursor_new () (items s)) [] (contents s) i)
    as (c1 & n1 & Hr1 & Hn1 & Hi1 & Ht1 & Hc1); [apply Hs|done|by right|simpl; lia|].
  change (items (with_pending s pending)) with (items s). rewrite Hr1.
  rewrite Nat.sub_0_r in Hi1, Hc1. cbn [mbind outcome_bind]. simpl app in Hc1.
  destruct (slice_count (D:=Count) (items s) c1 _ _ j (ok_tree s Hs) Ht1 (or_introl Hc1))
    as (c2 & n2 & Hr2 & Hn2 & Hi2 & Ht2 & Hc2); [rewrite length_take; lia|].
  pose proof (Hfit _ _ _ _ Hr1 Hr2) as Hh. rewrite Hr2. cbn [mbind outcome_bind].
  rewrite (list_of_ok n2) by done. cbn [mbind outcome_bind].
  destruct (extend_ok () n1 (map unmeasure (tree_items n2)) Hn1) as (n3 & Hr3 & Hn3 & Hi3).
  unfold unmeasure in Hr3 at 1. rewrite Hr3. cbn [mbind outcome_bind].
  destruct (suffix_ok () c2 _ _ ltac:(by rewrite Ht2; apply Hs) (or_introl Hc2)) as (c3 & n4 & -> & Hn4 & Hi4 & _).
  cbn [mbind outcome_bind].
  destruct (append_ok () n3 n4 Hn3 Hn4) as (n5 & -> & Hn5 & Hi5). cbn [mbind outcome_bind].
  exists n5, pending. split; [done|]. split; [done|]. split; [done|]. split; [done|].
  rewrite Hi5, Hi3, Hi1, Hi2, Hi4, drop_drop, <-app_assoc. unfold remeasured. rewrite length_take.
  destruct (Nat.le_ge_cases i (length (contents s))).
  - rewrite Nat.min_l by done. f_equal. f_equal. f_equal. lia.
  - rewrite !(drop_ge (contents s)) by lia. by rewrite !take_nil.
Qed.

Lemma remeasured_heights l i j : i ≤ j → nonneg l →
  nonneg (remeasured l i j) ∧ length (remeasured l i j) = length l ∧
  ∀ k, heights (take k (remeasured l i j)) = heights (take k l).
Proof.
  intros Hij Hl. unfold remeasured. split; [|split].
  - apply nonneg_pieces; [done|]. by apply nonneg_unmeasure, Forall_take, Forall_drop.
  - rewrite !length_app, length_map, !length_take, !length_drop. lia.
  - intros k.
    assert (l = take i l ++ take (j - i) (drop i l) ++ drop j l) as Hsplit.
    { rewrite <-(take_drop i l) at 1. f_equal. rewrite <-(take_drop (j - i) (drop i l)) at 1.
      f_equal. rewrite drop_drop. f_equal. lia. }
    transitivity (heights (take k (take i l ++ take (j - i) (drop i l) ++ drop j l))); [|by rewrite <-Hsplit].
    rewrite !take_app, !heights_app, !length_map. f_equal. f_equal.
    by rewrite firstn_map, heights_unmeasure.
Qed.

Lemma uniform_keeps s (h : Qc) :
  list_ok s → (0 <= h)%Qc →
  ∃ s', apply_uniform_item_height s h = Ok s' ∧ (SumTree.height (items s') < STACK_CAP → list_ok s') ∧
    contents s' = map (λ it, Unmeasured (Some (default (size 0%Qc h) (item_size_hint it))) (item_focus_handle it)) (contents s).
Proof.
  intros Hs Hh. unfold apply_uniform_item_height. rewrite (list_of_ok _ (ok_tree s Hs)). cbn [mbind outcome_bind].
  set (l' := map _ _).
  destruct (extend_ok () (new ()) l' (wf_new ())) as (tr & -> & Hw & Hi). simpl in Hi.
  cbn [mbind outcome_bind]. eexists. split; [done|]. split; [|exact Hi]. intros Hht.
  split; simpl; rewrite ?Hi; [by split| |..].
  - unfold l'. apply Forall_map. eapply Forall_impl; [apply Hs|]. intros it Hit.
    destruct it as [[sz|] f|sz f]; done.
  - intros top Ht. unfold l', top_ok. rewrite length_map. by apply Hs.
  - apply Hs.
Qed.

Lemma remeasure_keeps s i j anchor :
  list_ok s → i ≤ j → slice_fits s i j →
  ∃ s', remeasure_items_with_scroll_anchor s (i, j) anchor = Ok s' ∧
    (SumTree.height (items s') < STACK_CAP → list_ok s').
Proof.
  intros Hs Hij Hfit. destruct (remeasure_ok s i j anchor Hs Hij Hfit) as (tr & pending & -> & _ & Hp & Hw & Hi).
  eexists. split; [done|]. intros Hh. destruct (remeasured_heights (contents s) i j Hij (ok_heights s Hs)) as (Hn & Hl & _).
  split; simpl; rewrite ?Hi; [by split|done| |done].
  intros top Ht. unfold top_ok. rewrite Hl. by apply Hs.
Qed.


Lemma pixel_of_nonneg l top : nonneg l → (0 <= offset_in_item top)%Qc → (0 <= pixel_of l top)%Qc.
Proof.
  intros Hl Ho. unfold pixel_of. pose proof (heights_nonneg (take (item_ix top) l) (Forall_take _ _ _ Hl)).
  qc_lra.
Qed.

Lemma at_pixel_of l p top : at_pixel l p top → pixel_of l top = p.
Proof. by intros (_ & ? & _). Qed.

(** [scroll_by]. *)
Definition unfollowed s (b : bool) : ListState.t Qc :=
  if b then with_follow s (stop_following (follow_state s)) else s.

Lemma unfollowed_ok s b : list_ok s → list_ok (unfollowed s b).
Proof. destruct b; [by apply with_follow_ok|done]. Qed.
Lemma unfollowed_same s b :
  items (unfollowed s b) = items s ∧ logical_top (unfollowed s b) = logical_top s ∧
  pending_scroll (unfollowed s b) = pending_scroll s ∧ alignment (unfollowed s b) = alignment s.
Proof. by destruct b. Qed.

Lemma scroll_by_ok s (d : Qc) :
  list_ok s → d ≠ 0%Qc →
  ∃ top, scroll_by s d = Ok (scrolled (unfollowed s (clt d czero)) top) ∧
    at_pixel (contents s) (pmax (pixel_of (contents s) (logical_scroll_top s) + d)%Qc 0%Qc) top.
Proof.
  intros Hs Hd. unfold scroll_by. destruct (peq_spec d czero) as [|_]; [done|].
  change (if clt d czero then with_follow s (stop_following (follow_state s)) else s)
    with (unfollowed s (clt d czero)).
  pose proof (unfollowed_ok s (clt d czero) Hs) as Hs'.
  destruct (unfollowed_same s (clt d czero)) as (Hi & _). rewrite Hi.
  set (s' := unfollowed s (clt d czero)) in *. set (tr := items s) in *. set (l := tree_items tr) in *.
  set (top0 := logical_scroll_top s). pose proof (logical_scroll_top_ok s Hs) as [Ht0 Ho0]. fold top0 in Ht0, Ho0.
  destruct (seek_count (D:=ListItemSummary Qc) tr (cursor_new () tr) (item_ix top0))
    as (c1 & b1 & -> & Ht1 & Hc1); [apply Hs|done|]. cbn [mbind outcome_bind].
  destruct (start_summary c1 _ _ Hc1) as [_ ->]. fold l in Hc1 |- *.
  change (cadd (heights (take (item_ix top0) l)) (offset_in_item top0)) with (pixel_of l top0).
  change (cadd (pixel_of l top0) d) with (pixel_of l top0 + d)%Qc. change (czero : Qc) with 0%Qc.
  set (p := pmax (pixel_of l top0 + d)%Qc 0%Qc).
  assert (0 <= p)%Qc by apply pmax_ge.
  assert (∃ c b a z, (if clt (pixel_of l top0) p then seek_forward () (mkHeight p) Right c1
      else seek () (mkHeight p) Right c1) = Ok (c, b) ∧ seeked () c a z ∧ l = a ++ z ∧
      (heights a <= p)%Qc ∧ match z with [] => True | it :: _ => (p < heights (a ++ [it]))%Qc end)
    as (c & b & a & z & -> & Hc & Hl & Ha & Hz).
  { destruct (clt_spec (pixel_of l top0) p) as [Hlt|Hle].
    - destruct (seek_forward_height tr c1 _ _ p Right (ok_tree s Hs) Ht1 (or_introl Hc1) (ok_heights s Hs))
        as (c & b & a & z & Hr & _ & Hc & Hl & Ha & Hz); [unfold pixel_of in Hlt; qc_lra|].
      eexists c, b, _, z. split; [exact Hr|]. split; [exact Hc|].
      split; [by rewrite <-app_assoc, <-Hl, take_drop|]. split; [done|].
      destruct z; [done|]. by rewrite <-app_assoc.
    - destruct (seek_height tr c1 p Right (ok_tree s Hs) Ht1 (ok_heights s Hs))
        as (c & b & a & z & Hr & _ & Hc & Hl & Ha & Hz); [done|].
      eexists c, b, a, z. by split_and!. }
  cbn [mbind outcome_bind]. destruct (start_summary c _ _ Hc) as [-> ->].
  change (csub p (heights a)) with (p - heights a)%Qc.
  rewrite (rebase_ok s' _ Hs'). cbn [mbind outcome_bind].
  eexists. split; [done|]. by apply (at_pixel_split l p a z).
Qed.

(** Setting the position at a pixel, as [scroll] and the scrollbar do. *)
Lemma set_pixel_ok s p :
  list_ok s → (0 <= p)%Qc →
  ∃ top, (s' ← rebase_pending_scroll s (offset_at (items s) p);
      Ok (with_top s' (Some (offset_at (items s) p)))) = Ok (scrolled s top) ∧
    at_pixel (contents s) p top.
Proof.
  intros Hs Hp. exists (offset_at (items s) p). rewrite rebase_ok by done.
  split; [done|]. by apply offset_at_pixel.
Qed.

(** [visible_range]. *)
Lemma visible_range_ok s top h :
  list_ok s → (0 <= offset_in_item top)%Qc → (0 <= h)%Qc →
  ∃ j, visible_range (items s) h top = Ok (item_ix top, j) ∧ j ≤ length (contents s) + 1.
Proof.
  intros Hs Ho Hh. unfold visible_range.
  destruct (seek_count (D:=ListItemSummary Qc) (items s) (cursor_new () (items s)) (item_ix top))
    as (c1 & b1 & -> & Ht1 & Hc1); [apply Hs|done|]. cbn [mbind outcome_bind].
  destruct (start_summary c1 _ _ Hc1) as [_ ->].
  destruct (seek_forward_height (items s) c1 _ _
    (cadd (cadd (heights (take (item_ix top) (contents s))) (offset_in_item top)) h) Left
    (ok_tree s Hs) Ht1 (or_introl Hc1) (ok_heights s Hs))
    as (c & b & a & z & -> & Ht & Hc & Hl & Ha & Hz); [cbn [cadd Qc_coord]; qc_lra|].
  cbn [mbind outcome_bind]. destruct (start_summary c _ _ Hc) as [-> _].
  eexists. split; [done|]. apply (f_equal length) in Hl.
  rewrite length_app, length_drop in Hl. rewrite length_app, length_take. lia.
Qed.

(** [scroll_to_reveal_item]. *)
Definition viewport_height s : Qc :=
  match last_layout_bounds s with Some b => height (bsize b) | None => 0%Qc end.
Definition padding_of s : Edges Qc := default edges_default (last_padding s).
(** The scroll position at which the bottom of the item is at the bottom of the viewport. *)
Definition goal_top s (ix : nat) : Qc :=
  pmax 0%Qc (heights (take (S ix) (contents s)) + edge_top (padding_of s) - viewport_height s
    + edge_bottom (padding_of s))%Qc.

Lemma reveal_ok s ix :
  list_ok s →
  ∃ top, scroll_to_reveal_item s ix = Ok (scrolled s top) ∧
    ((ix ≤ item_ix (logical_scroll_top s) ∧ top = mkOffset ix 0%Qc) ∨
     (item_ix (logical_scroll_top s) < ix ∧
      ((top = logical_scroll_top s ∧ (goal_top s ix <= pixel_of (contents s) top)%Qc) ∨
       (top_ok (contents s) top ∧ pixel_of (contents s) top = goal_top s ix)))).
Proof.
  intros Hs. unfold scroll_to_reveal_item. destruct (decide (ix ≤ _)) as [Hle|Hlt].
  { cbn [mbind outcome_bind]. rewrite rebase_ok by done. cbn [mbind outcome_bind].
    eexists. split; [done|]. by left. }
  pose proof (logical_scroll_top_ok s Hs) as [Ht0 Ho0]. set (top0 := logical_scroll_top s) in *.
  destruct (seek_count (D:=ListItemSummary Qc) (items s) (cursor_new () (items s)) (ix + 1))
    as (c1 & b1 & -> & Ht1 & Hc1); [apply Hs|done|]. cbn [mbind outcome_bind].
  destruct (start_summary c1 _ _ Hc1) as [_ ->]. rewrite Nat.add_1_r.
  change (pmax czero _) with (goal_top s ix).
  assert (0 <= goal_top s ix)%Qc by apply pmax_ge.
  destruct (seek_height (items s) c1 (goal_top s ix) Left (ok_tree s Hs) Ht1 (ok_heights s Hs))
    as (c & b & a & z & -> & _ & Hc & Hl & Ha & Hz); [done|].
  cbn [mbind outcome_bind]. destruct (start_summary c _ _ Hc) as [-> ->].
  change (csub (goal_top s ix) (heights a)) with (goal_top s ix - heights a)%Qc.
  rewrite rebase_ok by done. cbn [mbind outcome_bind]. eexists. split; [done|]. right. split; [lia|].
  destruct (decide (item_ix top0 ≤ length a)) as [Hi|Hi].
  - right. unfold top_ok, pixel_of. cbn [item_ix offset_in_item]. rewrite Hl, take_app_length, length_app.
    split; [split; [lia|]|]; qc_lra.
  - left. split; [done|]. unfold pixel_of. rewrite Hl in Ht0 |- *.
    destruct z as [|it z]; [rewrite app_nil_r in Ht0; lia|].
    replace (item_ix top0) with (length (a ++ [it]) + (item_ix top0 - S (length a))) by (rewrite length_app; simpl; lia).
    rewrite (assoc_L (++) a [it] z : a ++ it :: z = _), take_app_add, heights_app.
    assert (0 <= heights (take (item_ix top0 - S (length a)) z))%Qc.
    { apply heights_nonneg, Forall_take. pose proof (ok_heights s Hs) as Hn. rewrite Hl in Hn.
      by apply Forall_app in Hn as [_ [_ ?]%Forall_cons]. }
    simpl in Hz. qc_lra.
Qed.

Lemma top_scrolled s top : logical_scroll_top (scrolled s top) = top.
Proof. done. Qed.

(** [scroll_px_offset_for_scrollbar], when there is a position. *)
Lemma px_offset_ok s top :
  list_ok s → logical_top s = Some top →
  scroll_px_offset_for_scrollbar s = Ok (point 0%Qc (- pixel_of (contents s) top)%Qc).
Proof.
  intros Hs Ht. unfold scroll_px_offset_for_scrollbar, logical_scroll_top. rewrite Ht.
  destruct (cursor_summary_ok () (Out:=ListItemSummary Qc) (mkCount (item_ix top)) Right
    (cursor_new (D:=ListItemSummary Qc) () (items s)) [] (contents s)) as (c & -> & _).
  { apply (count_pre (items s)); [apply Hs|done|by right|simpl; lia]. }
  cbn [mbind outcome_bind]. rewrite count_scan. cbn [fst dim_count summary_count_dim].
  rewrite Nat.sub_0_r. unfold pos_of. rewrite pos_height. simpl. unfold pixel_of. f_equal. f_equal.
  qc_lra.
Qed.

(** [bounds_for_item]. *)
Lemma bounds_for_item_ok s ix :
  list_ok s → item_ix (logical_scroll_top s) ≤ ix →
  bounds_for_item s ix = Ok
    match contents s !! ix with
    | Some (Measured sz _) =>
        let view := viewport_bounds s in
        let y := (Geometry.top view + (heights (take ix (contents s)) - pixel_of (contents s) (logical_scroll_top s)))%Qc in
        Some (from_corners (point (left view) y) (point (right view) (y + height sz)%Qc))
    | _ => None
    end.
Proof.
  intros Hs Hix. unfold bounds_for_item. rewrite decide_False by lia.
  set (top0 := logical_scroll_top s) in *. pose proof (logical_scroll_top_ok s Hs) as [Ht0 _]. fold top0 in Ht0.
  destruct (seek_count (D:=Count * Height Qc * ()) (items s) (cursor_new () (items s)) (item_ix top0))
    as (c1 & b1 & -> & Ht1 & Hc1); [apply Hs|done|]. cbn [mbind outcome_bind].
  destruct (seek_forward_count (D:=Count * Height Qc * ()) (items s) c1 _ _ ix (ok_tree s Hs) Ht1 (or_introl Hc1))
    as (c2 & b2 & -> & Ht2 & Hc2); [rewrite length_take; lia|]. cbn [mbind outcome_bind].
  rewrite (item_seeked () c2 _ _ Hc2) by (rewrite Ht2; apply Hs). cbn [mbind outcome_bind].
  rewrite length_take, Nat.min_l in Hc2 by done. rewrite length_take, Nat.min_l by done.
  rewrite drop_drop, head_lookup, lookup_drop.
  replace (item_ix top0 + (ix - item_ix top0)) with ix in * by lia. rewrite Nat.add_0_r.
  assert (Hpos : ∀ l, (pos_of () l : Count * Height Qc * ()) = (mkCount (length l), mkHeight (heights l), ())).
  { intros l0. unfold pos_of. rewrite <-(rev_involutive l0). generalize (rev l0). clear. intros l.
    induction l as [|it l IH]; [done|]. simpl rev. rewrite (pos_from_app ()), IH.
    rewrite heights_app, length_app. simpl. f_equal. f_equal.
    - f_equal. by destruct it.
    - f_equal. unfold item_height. simpl. qc_lra. }
  destruct (contents s !! ix) as [[h f|sz f]|] eqn:E; [done| |done].
  unfold start. rewrite (seeked_position () c1 _ _ Hc1), (seeked_position () c2 _ _ Hc2), !Hpos.
  pose proof (lookup_lt_Some _ _ _ E) as Hlt.
  assert (Htake : take (item_ix top0) (contents s) ++ take (ix - item_ix top0) (drop (item_ix top0) (contents s))
    = take ix (contents s)).
  { rewrite <-(take_drop (item_ix top0) (take ix (contents s))), take_take, Nat.min_l by done.
    f_equal. by rewrite skipn_firstn_comm. }
  rewrite Htake, length_take, Nat.min_l by lia. simpl count_of. rewrite decide_True by done.
  f_equal. f_equal. cbn [height_of snd fst]. unfold pixel_of, viewport_bounds. 
  assert ((Geometry.top (default bounds_default (last_layout_bounds s)) + heights (take ix (contents s)) -
     (heights (take (item_ix top0) (contents s)) + offset_in_item top0))%Qc =
    (Geometry.top (default bounds_default (last_layout_bounds s)) + (heights (take ix (contents s)) -
     (heights (take (item_ix top0) (contents s)) + offset_in_item top0)))%Qc) as Hy by qc_lra.
  by rewrite <-Hy.
Qed.
