(* ===== verification/ListLayout.v ===== *)
(** The layout of a list of [crates/gpui/src/elements/list.rs]: measuring items around the scroll
    position, and the prepaint of the element. Rendering an item and laying it out is user code and
    the layout library: [measure width ix] is the size that it gives for the item [ix] in the
    available width, and [contains_focused handle] whether the focus is inside of the element. *)
From S2P Require Import Prelude SumTree Seek Cursor TabStops Geometry Pixels ListState ListOps.
Import ListState.

(** [struct ItemLayout], without the element, and [struct LayoutItemsResponse]. *)
Record ItemLayout (U : Type) : Type := mkItemLayout { layout_index : nat; layout_size : Size U }.
Arguments mkItemLayout {U}.
Arguments layout_index {U}.
Arguments layout_size {U}.
Record LayoutItemsResponse (U : Type) : Type := mkResponse {
  max_item_width : U;
  response_scroll_top : ListOffset U;
  item_layouts : list (ItemLayout U);
}.
Arguments mkResponse {U}.
Arguments max_item_width {U}.
Arguments response_scroll_top {U}.
Arguments item_layouts {U}.

(** The variables of [layout_items] that its loops change. *)
Record Pass (U : Type) : Type := mkPass {
  pass_pending : option (PendingScroll U);
  pass_logical : option (ListOffset U);
  pass_top : ListOffset U;
  measured_items : list (ListItem U);
  pass_layouts : list (ItemLayout U);
  rendered_height : U;
  pass_width : U;
  rendered_focused_item : bool;
}.
Arguments mkPass {U}.
Arguments pass_pending {U}.
Arguments pass_logical {U}.
Arguments pass_top {U}.
Arguments measured_items {U}.
Arguments pass_layouts {U}.
Arguments rendered_height {U}.
Arguments pass_width {U}.
Arguments rendered_focused_item {U}.

Section layout.
Context {U : Type} `{!Coord U, !PixelOps U}.
Context (measure : option U → nat → Size U) (contains_focused : FocusHandle → bool).
Implicit Types self : t U.
Implicit Types p : Pass U.
Implicit Types it : ListItem U.

Local Notation tree := (Node (ListItemSummary U) (ListItem U)).
Local Notation count_cursor tr := (cursor_new (D:=Count) () tr).
Local Notation cursor := (Cursor (ListItemSummary U) (ListItem U) Count).

(** [layout_all_items]. *)
Definition measure_item (available_width : option U) (ix : nat) it : ListItem U :=
  Measured (default (measure available_width ix) (measured_size it)) (item_focus_handle it).
Definition layout_all_items self (available_width : U) : outcome (t U) :=
  match measuring_behavior self with
  | Visible | Measure true => Ok self
  | Measure false =>
      let self := with_measuring self (Measure true) in
      '(_, its) ← iterate_all () (1 + node_fuel (items self)) (count_cursor (items self)) [];
      tr ← from_iter () (imap (measure_item (Some available_width)) its);
      Ok (with_items self tr)
  end.

(** The adjustment of the scroll position once the item at the scroll top is measured. *)
Definition apply_pending p (element_size : Size U) : Pass U :=
  let set offset :=
    let top := mkOffset (item_ix (pass_top p)) offset in
    mkPass None (Some top) top (measured_items p) (pass_layouts p) (rendered_height p) (pass_width p)
      (rendered_focused_item p) in
  let drop :=
    mkPass None (pass_logical p) (pass_top p) (measured_items p) (pass_layouts p) (rendered_height p)
      (pass_width p) (rendered_focused_item p) in
  match pass_pending p with
  | None => p
  | Some (PendingAbsolute ix offset) =>
      if decide (ix = item_ix (pass_top p)) then set (pmin offset (height element_size)) else drop
  | Some (PendingProportional ix fraction) =>
      if decide (ix = item_ix (pass_top p)) then set (pmul fraction (height element_size)) else drop
  end.

(** The body of the loop below the scroll top, after the check that it goes on. *)
Definition layout_item (available_width : option U) (available_height : U) (ix : nat) it p : Pass U :=
  let visible_height := csub (rendered_height p) (offset_in_item (pass_top p)) in
  let sz := measured_size it in
  let '(sz, p) :=
    match sz, clt visible_height available_height with
    | Some sz, false => (sz, p)
    | _, visible =>
        let item_index := item_ix (pass_top p) + ix in
        let element_size := measure available_width item_index in
        let p := if decide (ix = 0) then apply_pending p element_size else p in
        let p := if visible
          then mkPass (pass_pending p) (pass_logical p) (pass_top p) (measured_items p)
                 (pass_layouts p ++ [mkItemLayout item_index element_size]) (rendered_height p)
                 (pass_width p) (rendered_focused_item p || item_contains_focused contains_focused it)
          else p in
        (element_size, p)
    end in
  mkPass (pass_pending p) (pass_logical p) (pass_top p)
    (measured_items p ++ [Measured sz (item_focus_handle it)]) (pass_layouts p)
    (cadd (rendered_height p) (height sz)) (pmax (pass_width p) (width sz)) (rendered_focused_item p).
Fixpoint layout_below (available_width : option U) (available_height overdraw : U) (fuel : nat) (ix : nat)
    (c : cursor) p : outcome (Pass U) :=
  match fuel with
  | O => OutOfFuel
  | S fuel =>
      '(c, x) ← iterate () c;
      match x with
      | None => Ok p
      | Some it =>
          let visible_height := csub (rendered_height p) (offset_in_item (pass_top p)) in
          if cle (cadd available_height overdraw) visible_height then Ok p
          else layout_below available_width available_height overdraw fuel (S ix) c
                 (layout_item available_width available_height ix it p)
      end
  end.

(** The loop that fills the viewport upward. *)
Definition push_front_visible (ix : nat) (element_size : Size U) it p : Pass U :=
  mkPass (pass_pending p) (pass_logical p) (pass_top p)
    (Measured element_size (item_focus_handle it) :: measured_items p)
    (mkItemLayout ix element_size :: pass_layouts p) (cadd (rendered_height p) (height element_size))
    (pass_width p) (rendered_focused_item p || item_contains_focused contains_focused it).
Fixpoint fill_above (available_width : option U) (available_height : U) (fuel : nat) (c : cursor) p :
    outcome (cursor * Pass U) :=
  match fuel with
  | O => OutOfFuel
  | S fuel =>
      if clt (rendered_height p) available_height then
        c ← prev () c;
        x ← item c;
        match x with
        | Some it =>
            let ix := count_of (start c) in
            fill_above available_width available_height fuel c
              (push_front_visible ix (measure available_width ix) it p)
        | None => Ok (c, p)
        end
      else Ok (c, p)
  end.

(** The loop that measures items in the leading overdraw. *)
Fixpoint overdraw_above (available_width : option U) (overdraw : U) (fuel : nat) (c : cursor)
    (leading_overdraw : U) (measured : list (ListItem U)) : outcome (cursor * list (ListItem U)) :=
  match fuel with
  | O => OutOfFuel
  | S fuel =>
      if clt leading_overdraw overdraw then
        c ← prev () c;
        x ← item c;
        match x with
        | Some it =>
            let sz := default (measure available_width (count_of (start c))) (measured_size it) in
            overdraw_above available_width overdraw fuel c (cadd leading_overdraw (height sz))
              (Measured sz (item_focus_handle it) :: measured)
        | None => Ok (c, measured)
        end
      else Ok (c, measured)
  end.

(** The loop that looks for a focused item outside of the viewport. *)
Fixpoint find_focused (available_width : option U) (fuel : nat)
    (f : FilterCursor (S:=ListItemSummary U) (T:=ListItem U) (D:=Count)) :
    outcome (option (ItemLayout U)) :=
  match fuel with
  | O => OutOfFuel
  | S fuel =>
      x ← filter_item f;
      match x with
      | None => Ok None
      | Some it =>
          if item_contains_focused contains_focused it
          then
            let ix := count_of (start (fc_cursor f)) in
            Ok (Some (mkItemLayout ix (measure available_width ix)))
          else f ← filter_next () f; find_focused available_width fuel f
      end
  end.

(** The replacement of the items from [first] on by the measured ones. *)
Definition replace_items (old_items : tree) (first : nat) (measured : list (ListItem U)) : outcome tree :=
  '(c, new_items) ← slice () (mkCount first) Right (count_cursor old_items);
  new_items ← extend () new_items measured;
  '(c, _) ← seek () (mkCount (first + length measured)) Right c;
  '(_, rest) ← suffix () c;
  append () new_items rest.

(** The scroll position after the viewport was filled. *)
Definition settle (alignment : ListAlignment) (available_height : U) (c : cursor) p : Pass U :=
  let scroll_top := mkOffset (count_of (start c)) (csub (rendered_height p) available_height) in
  let '(logical, scroll_top) :=
    match alignment with
    | AlignTop =>
        let scroll_top := mkOffset (item_ix scroll_top) (pmax (offset_in_item scroll_top) czero) in
        (Some scroll_top, scroll_top)
    | AlignBottom => (None, scroll_top)
    end in
  mkPass (pass_pending p) logical scroll_top (measured_items p) (pass_layouts p) (rendered_height p)
    (pass_width p) (rendered_focused_item p).

(** [layout_items] up to the new items and the follow state. *)
Definition layout_visible self (available_width : option U) (available_height : U) (padding : Edges U)
    : outcome (t U * Pass U) :=
  let old_items := items self in
  let fuel := 1 + node_fuel old_items in
  let '(scroll_top, logical) :=
    if is_following (follow_state self)
    then let top := mkOffset (count (summary (items self))) czero in (top, Some top)
    else (logical_scroll_top self, logical_top self) in
  let p := mkPass (pending_scroll self) logical scroll_top [] [] (edge_top padding) czero false in
  '(c, _) ← seek () (mkCount (item_ix scroll_top)) Right (count_cursor old_items);
  p ← layout_below available_width available_height (overdraw self) fuel 0 c p;
  let p := mkPass (pass_pending p) (pass_logical p) (pass_top p) (measured_items p) (pass_layouts p)
             (cadd (rendered_height p) (edge_bottom padding)) (pass_width p) (rendered_focused_item p) in
  '(c, _) ← seek () (mkCount (item_ix (pass_top p))) Right (count_cursor old_items);
  '(c, p) ←
    (if clt (csub (rendered_height p) (offset_in_item (pass_top p))) available_height
     then
       '(c, p) ← fill_above available_width available_height fuel c p;
       Ok (c, settle (alignment self) available_height c p)
     else Ok (c, p));
  '(c, measured) ← overdraw_above available_width (overdraw self) fuel c (offset_in_item (pass_top p))
    (measured_items p);
  let first := count_of (start c) in
  new_items ← replace_items old_items first measured;
  let self := with_items (with_top (with_pending self (pass_pending p)) (pass_logical p)) new_items in
  let self :=
    if has_stopped_following (follow_state self) then
      let last := default edges_default (last_padding self) in
      let total_height :=
        cadd (cadd (sum_height (summary (items self))) (edge_top last)) (edge_bottom last) in
      let scroll_offset := ListOps.scroll_top self (pass_top p) in
      if cle (csub total_height pone) (cadd scroll_offset available_height)
      then with_follow self (start_following (follow_state self)) else self
    else self in
  Ok (self, p).

Definition layout_items self (available_width : option U) (available_height : U) (padding : Edges U)
    : outcome (t U * LayoutItemsResponse U) :=
  '(self, p) ← layout_visible self available_width available_height padding;
  focused ←
    (if rendered_focused_item p then Ok None
     else
       f ← filter_next () (filter_new () (items self) has_focus_handles);
       find_focused available_width (1 + node_fuel (items self)) f);
  Ok (self, mkResponse (pass_width p) (pass_top p)
              (pass_layouts p ++ match focused with Some l => [l] | None => [] end)).

(** ** Prepaint *)

(** The walks of [prepaint_items] to the item that an autoscroll request ends in. *)
Fixpoint autoscroll_up (available_width : U) (fuel : nat) (c : cursor) (ix : nat) (offset : U) :
    outcome (ListOffset U) :=
  match fuel with
  | O => OutOfFuel
  | S fuel =>
      if clt offset czero then
        c ← prev () c;
        x ← item c;
        match x with
        | None => Ok (mkOffset ix czero)
        | Some it =>
            let ix := count_of (start c) in
            let sz := default (measure (Some available_width) ix) (measured_size it) in
            autoscroll_up available_width fuel c ix (cadd offset (height sz))
        end
      else Ok (mkOffset ix offset)
  end.
Definition stop_at (c : cursor) (room : U) : ListOffset U :=
  mkOffset (count_of (start c)) (if clt room czero then pneg room else czero).
Fixpoint autoscroll_down (available_width : U) (fuel : nat) (c : cursor) (room : U) :
    outcome (ListOffset U) :=
  match fuel with
  | O => OutOfFuel
  | S fuel =>
      if clt czero room then
        c ← prev () c;
        x ← item c;
        match x with
        | None => Ok (stop_at c room)
        | Some it =>
            let sz := default (measure (Some available_width) (count_of (start c))) (measured_size it) in
            autoscroll_down available_width fuel c (csub room (height sz))
        end
      else Ok (stop_at c room)
  end.

(** The loop of [prepaint_items] over the items: [prepaint_at item origin] is the autoscroll request
    that the window holds after the element of the item was prepainted. *)
Context (prepaint_at : ItemLayout U → Point U → option (Bounds U)).

Fixpoint prepaint_loop self (view : Bounds U) (padding : Edges U) (autoscroll : bool) (origin : Point U)
    (layouts : list (ItemLayout U)) : outcome (option (ListOffset U)) :=
  match layouts with
  | [] => Ok None
  | layout :: layouts =>
      let next origin :=
        prepaint_loop self view padding autoscroll
          (point (x origin) (cadd (y origin) (height (layout_size layout)))) layouts in
      match prepaint_at layout origin with
      | Some request =>
          if negb autoscroll then next origin
          else if clt (top request) (top view) then
            let offset := csub (top request) (y origin) in
            (if clt offset czero then
               '(c, _) ← seek () (mkCount (layout_index layout)) Right (count_cursor (items self));
               top ← autoscroll_up (width (bsize view)) (1 + node_fuel (items self)) c
                       (layout_index layout) offset;
               Ok (Some top)
             else Ok (Some (mkOffset (layout_index layout) offset)))
          else if clt (bottom view) (bottom request) then
            '(c, _) ← seek () (mkCount (layout_index layout)) Right (count_cursor (items self));
            let room := csub (csub (height (bsize view)) (edge_top padding)) (edge_bottom padding) in
            let room := csub room (csub (bottom request) (y origin)) in
            top ← autoscroll_down (width (bsize view)) (1 + node_fuel (items self)) c room;
            Ok (Some top)
          else next origin
      | None => next origin
      end
  end.

Definition measure_first self (view : Bounds U) : outcome (t U) :=
  match measuring_behavior self with
  | Measure false => layout_all_items self (width (bsize view))
  | _ => Ok self
  end.
Definition prepaint_items self (view : Bounds U) (padding : Edges U) (autoscroll : bool) :
    outcome (t U * result (LayoutItemsResponse U) (ListOffset U)) :=
  self ← measure_first self view;
  '(self, response) ← layout_items self (Some (width (bsize view))) (height (bsize view)) padding;
  if clt (cadd (edge_top padding) (edge_bottom padding)) (height (bsize view)) then
    let origin :=
      point (x (origin view))
        (csub (cadd (y (origin view)) (edge_top padding)) (offset_in_item (response_scroll_top response))) in
    request ← prepaint_loop self view padding autoscroll origin (item_layouts response);
    Ok (self, match request with Some top => ResErr top | None => ResOk response end)
  else Ok (self, ResOk (mkResponse (max_item_width response) (response_scroll_top response) [])).

(** The change of the state in [Element::prepaint], with the padding of the style. *)
Definition invalidate self (view : Bounds U) : outcome (t U) :=
  let same :=
    match last_layout_bounds self with
    | Some last => peq (width (bsize last)) (width (bsize view))
    | None => false
    end in
  if same then Ok self
  else
    its ← list_of (items self);
    tr ← from_iter () (map (λ it, Unmeasured None (item_focus_handle it)) its);
    let self := with_items self tr in
    Ok (with_measuring self (measuring_reset (measuring_behavior self))).
Definition list_prepaint self (view : Bounds U) (padding : Edges U) :
    outcome (t U * LayoutItemsResponse U) :=
  self ← invalidate (with_reset self false) view;
  '(self, layout) ← prepaint_items self view padding true;
  '(self, layout) ←
    match layout with
    | ResOk layout => Ok (self, layout)
    | ResErr autoscroll_request =>
        '(self, layout) ← prepaint_items (with_top self (Some autoscroll_request)) view padding false;
        match layout with ResOk layout => Ok (self, layout) | ResErr _ => Panic end
    end;
  Ok (with_layout self (Some view) (Some padding), layout).
End layout.
