(* ===== verification/ListLayoutFacts.v ===== *)
(** What the loops of the layout of a list do, as functions of the items: the cursor replaced by the
    index that it stands for. *)
From Stdlib Require Import QArith Qcanon.
From S2P Require Import Prelude SumTree SumTreeFacts Seek Cursor CursorFacts CursorMoves CursorOps TabStops Geometry Pixels ListState ListOps ListFacts ListOpsFacts ListLayout.
Import ListState.
Local Open Scope Qc_scope.
Local Open Scope nat_scope.

Section loops.
Variable measure : option Qc → nat → Size Qc.
Variable contains_focused : FocusHandle → bool.
Variable tr : list_tree.
Hypothesis Hw : walkable () tr.
Variable w : option Qc.
Implicit Types p : Pass Qc.
Implicit Types l M : list (ListItem Qc).
Implicit Types c : Cursor (ListItemSummary Qc) (ListItem Qc) Count.
Notation l := (tree_items tr).

(** ** Cursors as indices *)

(** The cursor stands before the item [k]. *)
Definition at_count c (k : nat) : Prop :=
  c_tree c = tr ∧ start c = mkCount k ∧ k ≤ length l ∧ behind () c (take k l) (drop k l).

Lemma pos_of_count (a : list (ListItem Qc)) : (pos_of () a : Count) = mkCount (length a).
Proof. pose proof (dim_count_of (D:=Count) a). destruct (pos_of () a). simpl in *. by subst. Qed.

Lemma seeked_at_count c k :
  c_tree c = tr → k ≤ length l → seeked () c (take k l) (drop k l) → at_count c k.
Proof using.
  intros Ht Hk Hc. split; [done|]. split.
  - unfold start. rewrite (seeked_position () c _ _ Hc), pos_of_count, length_take. f_equal. lia.
  - split; [done|]. destruct Hc as [Hc|(Hc & -> & ->)]; [by constructor|]. by apply behind_past.
Qed.

Lemma seek_at_count c k :
  c_tree c = tr → k ≤ length l → ∃ c' b, seek () (mkCount k) Right c = Ok (c', b) ∧ at_count c' k.
Proof using Hw.
  intros Ht Hk. destruct (seek_count (D:=Count) tr c k Hw Ht) as (c' & b & -> & Ht' & Hc).
  eexists c', _. split; [done|]. by apply seeked_at_count.
Qed.

Lemma prev_at_count c k :
  at_count c (S k) →
  ∃ c' it, prev () c = Ok c' ∧ l !! k = Some it ∧ item c' = Ok (Some it) ∧ at_count c' k.
Proof using Hw.
  intros (Ht & _ & Hk & Hb). destruct (lookup_lt_is_Some_2 l k) as [it Hit]; [lia|].
  rewrite (take_S_r _ _ _ Hit) in Hb.
  destruct (prev_ok () c _ _ ltac:(by rewrite Ht) Hb) as (c' & Hr & Ht' & Hm).
  unfold moved_back in Hm. rewrite last_snoc in Hm. destruct Hm as (a & [<- _]%app_inj_tail & Hc).
  rewrite Ht in Ht'. rewrite <-(drop_S l it k Hit) in Hc.
  exists c', it. split; [done|]. split; [done|].
  assert (Hs : seeked () c' (take k l) (drop k l)) by by left.
  split; [|apply seeked_at_count; [done|lia|done]].
  rewrite (item_seeked () c' _ _ Hs) by (rewrite Ht'; apply Hw). by rewrite (drop_S l it k Hit).
Qed.
Lemma prev_at_zero c :
  at_count c 0 → ∃ c', prev () c = Ok c' ∧ item c' = Ok None ∧ at_count c' 0.
Proof using Hw.
  intros (Ht & _ & _ & Hb). rewrite take_0, drop_0 in Hb.
  destruct (prev_ok () c _ _ ltac:(by rewrite Ht) Hb) as (c' & Hr & Ht' & Hm).
  exists c'. split; [done|]. unfold moved_back in Hm. simpl in Hm. rewrite Ht in Ht'.
  split; [destruct Hm as (Hd & _ & Hst & _); unfold item, assert_did_seek; by rewrite Hd, Hst|].
  split; [done|]. split; [apply Hm|]. split; [lia|]. rewrite take_0, drop_0, <-Ht' at 1. by apply behind_before.
Qed.

(** ** Below the scroll top *)

Variables available overdraw : Qc.

Fixpoint below (ix : nat) (post : list (ListItem Qc)) p : Pass Qc :=
  match post with
  | [] => p
  | it :: post =>
      if cle (cadd available overdraw) (csub (rendered_height p) (offset_in_item (pass_top p))) then p
      else below (S ix) post (layout_item measure contains_focused w available ix it p)
  end.

Lemma layout_below_ok fuel ix c pre post p :
  c_tree c = tr → seeked () c pre post → length post < fuel →
  layout_below measure contains_focused w available overdraw fuel ix c p = Ok (below ix post p).
Proof using Hw.
  revert ix c pre post p. induction fuel as [|fuel IH]; intros ix c pre post p Ht Hc Hf; [lia|].
  cbn [layout_below]. destruct (iterate_seeked () c pre post ltac:(by rewrite Ht) Hc) as (c' & -> & Ht' & Hc').
  cbn [mbind outcome_bind]. destruct post as [|it post]; [done|]. cbn [head tail below] in *.
  destruct (cle _ _); [done|]. apply (IH (S ix) c' (pre ++ [it])); [congruence|done|simpl in Hf; lia].
Qed.

(** ** Above the scroll top *)

(** The pass after the items from [k'] up to [k] were put in front. *)
Definition filled (k k' : nat) (F : list (ListItem Qc)) p : Pass Qc :=
  mkPass (pass_pending p) (pass_logical p) (pass_top p) (F ++ measured_items p)
    (map (λ i, mkItemLayout i (measure w i)) (seq k' (k - k')) ++ pass_layouts p)
    (rendered_height p + heights F)%Qc (pass_width p)
    (rendered_focused_item p || existsb (item_contains_focused contains_focused) (take (k - k') (drop k' l))).

Lemma filled_none k p : filled k k [] p = p.
Proof.
  destruct p. unfold filled. rewrite Nat.sub_diag. simpl. rewrite orb_false_r. f_equal. qc_lra.
Qed.

Lemma fill_above_ok fuel c k p :
  at_count c k → k < fuel →
  ∃ c' k' F, fill_above measure contains_focused w available fuel c p = Ok (c', filled k k' F p) ∧
    at_count c' k' ∧ k' ≤ k ∧
    F = imap (λ j it, Measured (measure w (k' + j)) (item_focus_handle it)) (take (k - k') (drop k' l)) ∧
    (k' = 0 ∨ (available <= rendered_height p + heights F)%Qc).
Proof using Hw.
  revert c k p. induction fuel as [|fuel IH]; intros c k p Hc Hf; [lia|]. cbn [fill_above].
  destruct (clt_spec (rendered_height p) available) as [Hlt|Hge].
  - destruct k as [|k].
    + destruct (prev_at_zero c Hc) as (c' & -> & Hi & Hc'). cbn [mbind outcome_bind]. rewrite Hi.
      cbn [mbind outcome_bind]. exists c', 0, []. split; [by rewrite filled_none|].
      split; [done|]. split; [done|]. split; [done|by left].
    + destruct (prev_at_count c k Hc) as (c' & it & -> & Hit & Hi & Hc'). cbn [mbind outcome_bind].
      rewrite Hi. cbn [mbind outcome_bind].
      assert (count_of (start c') = k) as -> by (destruct Hc' as (_ & -> & _); done).
      destruct (IH c' k (push_front_visible contains_focused k (measure w k) it p) Hc') as
        (c2 & k' & F & -> & Hc2 & Hk & HF & Hend); [lia|].
      exists c2, k', (F ++ [Measured (measure w k) (item_focus_handle it)]).
      assert (Htake : take (S k - k') (drop k' l) = take (k - k') (drop k' l) ++ [it]).
      { replace (S k - k') with (S (k - k')) by lia. apply take_S_r. rewrite lookup_drop.
        by replace (k' + (k - k')) with k by lia. }
      split; [|split; [done|split; [lia|split]]].
      * unfold filled, push_front_visible. cbn [pass_pending pass_logical pass_top measured_items pass_layouts
          rendered_height pass_width rendered_focused_item].
        rewrite Htake, existsb_app, <-!app_assoc. f_equal. f_equal. f_equal.
        -- replace (S k - k') with (k - k' + 1) by lia.
           rewrite seq_app, map_app, <-app_assoc. simpl. by replace (k' + (k - k')) with k by lia.
        -- rewrite heights_app. cbn [heights]. change (item_height (Measured (measure w k) (item_focus_handle it)))
             with (height (measure w k)). cbn [cadd Qc_coord]. qc_lra.
        -- simpl. rewrite orb_false_r.
           by rewrite <-orb_assoc, (orb_comm (item_contains_focused contains_focused it)).
      * rewrite Htake, imap_app, HF. f_equal. simpl. rewrite length_take, length_drop.
        assert (k < length l) by (by eapply lookup_lt_Some).
        rewrite Nat.min_l by lia. do 3 f_equal. lia.
      * destruct Hend as [?|Hend]; [by left|right]. rewrite heights_app.
        cbn [push_front_visible rendered_height heights] in *.
        change (item_height (Measured (measure w k) (item_focus_handle it))) with (height (measure w k)).
        cbn [cadd Qc_coord] in Hend. qc_lra.
  - exists c, k, []. split; [by rewrite filled_none|]. split; [done|]. split; [done|].
    split; [by rewrite Nat.sub_diag|]. right. simpl. qc_lra.
Qed.

(** The items of the leading overdraw keep the sizes they have. *)
Lemma overdraw_above_ok fuel c k (leading : Qc) M :
  at_count c k → k < fuel →
  ∃ c' k', overdraw_above measure w overdraw fuel c leading M
      = Ok (c', imap (λ j it, measure_item measure w (k' + j) it) (take (k - k') (drop k' l)) ++ M) ∧
    at_count c' k' ∧ k' ≤ k.
Proof using Hw.
  revert c k leading M. induction fuel as [|fuel IH]; intros c k leading M Hc Hf; [lia|]. cbn [overdraw_above].
  destruct (clt leading overdraw).
  - destruct k as [|k].
    + destruct (prev_at_zero c Hc) as (c' & -> & Hi & Hc'). cbn [mbind outcome_bind]. rewrite Hi.
      cbn [mbind outcome_bind]. by exists c', 0.
    + destruct (prev_at_count c k Hc) as (c' & it & -> & Hit & Hi & Hc'). cbn [mbind outcome_bind].
      rewrite Hi. cbn [mbind outcome_bind].
      assert (count_of (start c') = k) as -> by (destruct Hc' as (_ & -> & _); done).
      edestruct (IH c' k) as (c2 & k' & -> & Hc2 & Hk); [done|lia|].
      exists c2, k'. split; [|split; [done|lia]]. f_equal. f_equal.
      assert (Htake : take (S k - k') (drop k' l) = take (k - k') (drop k' l) ++ [it]).
      { replace (S k - k') with (S (k - k')) by lia. apply take_S_r. rewrite lookup_drop.
        by replace (k' + (k - k')) with k by lia. }
      rewrite Htake, imap_app, <-app_assoc. f_equal. simpl. rewrite length_take, length_drop.
      assert (k < length l) by (by eapply lookup_lt_Some).
      rewrite Nat.min_l by lia. replace (k' + (k - k' + 0)) with k by lia. done.
  - exists c, k. rewrite Nat.sub_diag. done.
Qed.
End loops.
