(* ===== verification/ListLayoutSpec.v ===== *)
(** What the layout of a list promises: the items that it measures, and the viewport that it covers. *)
From Stdlib Require Import QArith Qcanon.
From S2P Require Import Prelude SumTree SumTreeFacts Seek Cursor CursorFacts CursorMoves CursorOps TabStops Geometry Pixels ListState ListOps ListFacts ListOpsFacts ListLayout ListLayoutFacts.
Import ListState.
Local Open Scope Qc_scope.
Local Open Scope nat_scope.

Section spec.
Variable measure : option Qc → nat → Size Qc.
Variable contains_focused : FocusHandle → bool.
Variable w : option Qc.
Variable l : list (ListItem Qc).
Hypothesis measure_nonneg : ∀ i, (0 <= height (measure w i))%Qc.
Hypothesis content_nonneg : nonneg l.
Implicit Types p q : Pass Qc.
Implicit Types it : ListItem Qc.
Implicit Types M F : list (ListItem Qc).

(** The layouts of [n] items from [k] on, and their heights. *)
Definition laid (k n : nat) : list (ItemLayout Qc) := map (λ i, mkItemLayout i (measure w i)) (seq k n).
Definition extent (k n : nat) : Qc := foldr (λ i h, height (measure w i) + h)%Qc 0%Qc (seq k n).

Lemma laid_app k n m : laid k (n + m) = laid k n ++ laid (k + n) m.
Proof. unfold laid. by rewrite seq_app, map_app. Qed.
Lemma extent_app k n m : extent k (n + m) = (extent k n + extent (k + n) m)%Qc.
Proof.
  revert k. induction n as [|n IH]; intros k; simpl.
  - rewrite Nat.add_0_r. unfold extent. simpl. qc_lra.
  - unfold extent in *. simpl. rewrite IH. replace (S k + n) with (k + S n) by lia. qc_lra.
Qed.
Lemma extent_nonneg k n : (0 <= extent k n)%Qc.
Proof using measure_nonneg.
  revert k. induction n as [|n IH]; intros k; unfold extent in *; simpl; [qc_lra|].
  specialize (IH (S k)). pose proof (measure_nonneg k). qc_lra.
Qed.
Lemma extent_one k : extent k 1 = height (measure w k).
Proof. unfold extent. simpl. qc_lra. Qed.

(** [M] measures the items from [k] on: each keeps its focus handle, and its size if it has one and
    need not be measured again. *)
Definition measures (k : nat) M : Prop := ∀ j it', M !! j = Some it' → ∃ it sz,
  l !! (k + j) = Some it ∧ it' = Measured sz (item_focus_handle it) ∧
  (sz = measure w (k + j) ∨ measured_size it = Some sz).

Lemma measured_nonneg it sz i :
  it ∈ l → sz = measure w i ∨ measured_size it = Some sz → (0 <= height sz)%Qc.
Proof using content_nonneg measure_nonneg.
  intros Hit [->|Hsz]; [apply measure_nonneg|].
  pose proof (proj1 (Forall_forall _ _) content_nonneg it Hit) as Hn. destruct it; simpl in *; [done|].
  by injection Hsz as ->.
Qed.
Lemma measures_nonneg k M : measures k M → nonneg M.
Proof using content_nonneg measure_nonneg.
  intros HM. apply Forall_lookup. intros j it' Hj. destruct (HM j it' Hj) as (it & sz & Hl & -> & Hsz).
  change (0 <= height sz)%Qc. eapply measured_nonneg; [by eapply list_elem_of_lookup_2|exact Hsz].
Qed.
Lemma measures_app k M1 M2 : measures k M1 → measures (k + length M1) M2 → measures k (M1 ++ M2).
Proof.
  intros H1 H2 j it' [Hj|[Hge Hj]]%lookup_app_Some; [by apply H1|].
  destruct (H2 _ _ Hj) as (it & sz & Hl & ? & ?). exists it, sz.
  by replace (k + j) with (k + length M1 + (j - length M1)) by lia.
Qed.
Lemma measures_snoc k M it sz :
  measures k M → l !! (k + length M) = Some it →
  sz = measure w (k + length M) ∨ measured_size it = Some sz →
  measures k (M ++ [Measured sz (item_focus_handle it)]).
Proof.
  intros HM Hit Hsz. apply measures_app; [done|]. intros [|j] it'; [|done]. intros [= <-].
  exists it, sz. by rewrite Nat.add_0_r.
Qed.

(** ** The pass below the scroll top *)

Variables available overdraw pad : Qc.
Hypothesis overdraw_nonneg : (0 <= overdraw)%Qc.

(** The state of the pass after [n] items, of which the first [v] are in the viewport. *)
Record passed (i0 : nat) (off : Qc) (n v : nat) (pending : option (PendingScroll Qc))
    (logical : option (ListOffset Qc)) p : Prop := {
  pd_pending : pass_pending p = pending;
  pd_logical : pass_logical p = logical;
  pd_top : pass_top p = mkOffset i0 off;
  pd_rendered : rendered_height p = (pad + heights (measured_items p))%Qc;
  pd_length : length (measured_items p) = n;
  pd_measures : measures i0 (measured_items p);
  pd_visible : v ≤ n;
  pd_layouts : pass_layouts p = laid i0 v;
  pd_sizes : ∀ j, j < v → ∃ f, measured_items p !! j = Some (Measured (measure w (i0 + j)) f);
  pd_extent : heights (take v (measured_items p)) = extent i0 v;
  pd_covered : v = n ∨ (available <= pad + extent i0 v - off)%Qc;
  pd_focused : rendered_focused_item p = existsb (item_contains_focused contains_focused) (take v (drop i0 l));
}.

Lemma passed_bound i0 off n v pending logical p :
  passed i0 off n v pending logical p → (extent i0 v <= heights (measured_items p))%Qc.
Proof using content_nonneg measure_nonneg.
  intros Hp. rewrite <-(pd_extent _ _ _ _ _ _ _ Hp).
  rewrite <-(take_ge (measured_items p) n) at 2 by (by rewrite (pd_length _ _ _ _ _ _ _ Hp)).
  apply heights_mono; [|apply Hp]. by eapply measures_nonneg, pd_measures.
Qed.

(** The body of the loop, by whether the item is in the viewport. *)
Definition seen p it (ix : nat) : Pass Qc :=
  let sz := measure w (item_ix (pass_top p) + ix) in
  mkPass (pass_pending p) (pass_logical p) (pass_top p)
    (measured_items p ++ [Measured sz (item_focus_handle it)])
    (pass_layouts p ++ [mkItemLayout (item_ix (pass_top p) + ix) sz])
    (cadd (rendered_height p) (height sz)) (pmax (pass_width p) (width sz))
    (rendered_focused_item p || item_contains_focused contains_focused it).
Lemma layout_item_seen ix it p :
  clt (csub (rendered_height p) (offset_in_item (pass_top p))) available = true →
  layout_item measure contains_focused w available ix it p =
    seen (if decide (ix = 0) then apply_pending p (measure w (item_ix (pass_top p) + ix)) else p) it ix.
Proof.
  intros Hc. unfold layout_item, seen. rewrite Hc.
  assert (∀ sz : Size Qc, item_ix (pass_top (if decide (ix = 0) then apply_pending p sz else p)) = item_ix (pass_top p)) as Hi.
  { intros sz. destruct (decide (ix = 0)); [|done]. unfold apply_pending.
    destruct (pass_pending p) as [[]|]; [| |done]; by destruct (decide _). }
  rewrite Hi. by destruct (measured_size it).
Qed.
Lemma layout_item_hidden ix it p :
  clt (csub (rendered_height p) (offset_in_item (pass_top p))) available = false → ix ≠ 0 →
  ∃ sz, (sz = measure w (item_ix (pass_top p) + ix) ∨ measured_size it = Some sz) ∧
  layout_item measure contains_focused w available ix it p =
    mkPass (pass_pending p) (pass_logical p) (pass_top p)
      (measured_items p ++ [Measured sz (item_focus_handle it)]) (pass_layouts p)
      (cadd (rendered_height p) (height sz)) (pmax (pass_width p) (width sz)) (rendered_focused_item p).
Proof.
  intros Hc Hix. unfold layout_item. rewrite Hc, decide_False by done.
  destruct (measured_size it) as [sz|]; [exists sz; auto|].
  eexists. split; [by left|done].
Qed.

(** The item of the body of the loop, when the pending scroll is not touched. *)
Lemma passed_step i0 off n v pending logical p it :
  passed i0 off n v pending logical p → 0 < n → l !! (i0 + n) = Some it →
  ∃ v', passed i0 off (S n) v' pending logical (layout_item measure contains_focused w available n it p).
Proof using content_nonneg measure_nonneg.
  intros Hp Hn Hit. pose proof (passed_bound _ _ _ _ _ _ _ Hp) as Hb.
  destruct Hp as [Hpe Hlo Hto Hre Hle Hme Hvi Hla Hsi Hex Hco Hfo].
  destruct (clt_spec (csub (rendered_height p) (offset_in_item (pass_top p))) available) as [Hlt|Hge].
  - (* the item is in the viewport *)
    rewrite layout_item_seen, decide_False by (first [lia | by apply clt_yes]).
    rewrite Hto, Hre in Hlt. cbn [csub Qc_coord offset_in_item] in Hlt.
    destruct Hco as [->|Hco]; [|exfalso; qc_lra]. exists (S n).
    assert (He : heights (measured_items p) = extent i0 n) by (by rewrite <-Hex, take_ge by lia).
    unfold seen. rewrite Hto. cbn [item_ix].
    split; cbn [pass_pending pass_logical pass_top measured_items pass_layouts rendered_height rendered_focused_item]; try done.
    + rewrite Hre, heights_app. cbn [heights cadd Qc_coord].
      change (item_height (Measured ?a ?b)) with (height a). qc_lra.
    + rewrite length_app. simpl. lia.
    + apply measures_snoc; [done|by rewrite Hle|left; by rewrite Hle].
    + rewrite Hla. replace (S n) with (n + 1) by lia. by rewrite laid_app.
    + intros j Hj. destruct (decide (j = n)) as [->|Hne].
      * rewrite lookup_app_r, Hle, Nat.sub_diag by lia. by eexists.
      * destruct (Hsi j) as [f Hf]; [lia|]. exists f. by apply lookup_app_l_Some.
    + rewrite take_ge by (rewrite length_app; simpl; lia). rewrite heights_app, He.
      replace (S n) with (n + 1) by lia. rewrite extent_app, extent_one. cbn [heights].
      change (item_height (Measured ?a ?b)) with (height a). qc_lra.
    + by left.
    + rewrite Hfo. rewrite (take_S_r _ n it) by (by rewrite lookup_drop).
      rewrite existsb_app. simpl. by rewrite orb_false_r.
  - (* the item is in the overdraw *)
    destruct (layout_item_hidden n it p) as (sz & Hsz & ->); [|lia|].
    { by apply clt_no. }
    rewrite Hto in Hsz. rewrite Hto, Hre in Hge. cbn [csub Qc_coord offset_in_item item_ix] in *. exists v.
    split; cbn [pass_pending pass_logical pass_top measured_items pass_layouts rendered_height rendered_focused_item]; try done.
    + rewrite Hre, heights_app. cbn [heights cadd Qc_coord].
      change (item_height (Measured ?a ?b)) with (height a). qc_lra.
    + rewrite length_app. simpl. lia.
    + apply measures_snoc; [done|by rewrite Hle|by rewrite Hle].
    + lia.
    + intros j Hj. destruct (Hsi j Hj) as [f Hf]. exists f. by apply lookup_app_l_Some.
    + rewrite take_app_le by lia. done.
    + right. destruct Hco as [->|Hco]; [|done].
      assert (heights (measured_items p) = extent i0 n) by (by rewrite <-Hex, take_ge by lia). qc_lra.
Qed.

Lemma below_passed i0 off post n v pending logical p :
  passed i0 off n v pending logical p → 0 < n → drop (i0 + n) l = post →
  ∃ n' v', passed i0 off n' v' pending logical
      (below measure contains_focused w available overdraw n post p) ∧ n ≤ n' ∧
    (i0 + n' = i0 + n + length post ∨
     (available + overdraw <= pad + heights (measured_items (below measure contains_focused w available overdraw n post p)) - off)%Qc) ∧
    n' ≤ n + length post.
Proof using content_nonneg measure_nonneg.
  revert n v p. induction post as [|it post IH]; intros n v p Hp Hn Hpost; cbn [below].
  - exists n, v. split; [done|]. simpl. split; [lia|]. split; [left; lia|lia].
  - rewrite (pd_rendered _ _ _ _ _ _ _ Hp), (pd_top _ _ _ _ _ _ _ Hp). cbn [offset_in_item].
    destruct (cle_spec (cadd available overdraw) (csub (pad + heights (measured_items p))%Qc off)) as [Hle|Hlt].
    + exists n, v. split; [done|]. split; [lia|]. split; [right; exact Hle|simpl; lia].
    + assert (Hit : l !! (i0 + n) = Some it).
      { rewrite <-(Nat.add_0_r (i0 + n)), <-lookup_drop, Hpost. done. }
      destruct (passed_step _ _ _ _ _ _ _ _ Hp Hn Hit) as (v' & Hp').
      destruct (IH (S n) v' _ Hp') as (n' & v2 & Hp2 & Hn' & Hend & Hlen); [lia| |].
      { rewrite (drop_S _ _ _ Hit) in Hpost. injection Hpost as <-. by rewrite Nat.add_succ_r. }
      exists n', v2. split; [done|]. split; [lia|]. split; [|simpl; lia].
      destruct Hend as [?|?]; [left; simpl; lia|by right].
Qed.

(** ** The pending scroll *)

Definition resumes (pending : option (PendingScroll Qc)) (i : nat) : bool :=
  match pending with
  | Some (PendingAbsolute j _ | PendingProportional j _) => bool_decide (j = i)
  | None => false
  end.
(** The scroll position, once the item at the scroll top has the size [sz]. *)
Definition resumed (pending : option (PendingScroll Qc)) (top : ListOffset Qc) (sz : Size Qc) : ListOffset Qc :=
  if resumes pending (item_ix top) then
    mkOffset (item_ix top) match pending with
      | Some (PendingAbsolute _ offset) => pmin offset (height sz)
      | Some (PendingProportional _ fraction) => (fraction * height sz)%Qc
      | None => offset_in_item top
      end
  else top.

Lemma resumed_ix pending top sz : item_ix (resumed pending top sz) = item_ix top.
Proof. unfold resumed. by destruct (resumes _ _). Qed.

Lemma resumed_ok pending top sz :
  (∀ pe, pending = Some pe → pending_ok pe) → (0 <= offset_in_item top)%Qc → (0 <= height sz)%Qc →
  (0 <= offset_in_item (resumed pending top sz))%Qc.
Proof.
  intros Hp Ho Hsz. unfold resumed. destruct (resumes _ _); [|done]. simpl.
  destruct pending as [[i o|i f]|]; [|destruct (Hp _ eq_refl) as [Hf _]|done].
  - specialize (Hp _ eq_refl). unfold pmin. by destruct (clt _ _).
  - rewrite <-(Qcmult_0_l (height sz)). by apply Qcmult_le_compat_r.
Qed.

Lemma apply_pending_eq p (sz : Size Qc) :
  apply_pending p sz =
    mkPass None
      (if resumes (pass_pending p) (item_ix (pass_top p))
       then Some (resumed (pass_pending p) (pass_top p) sz) else pass_logical p)
      (resumed (pass_pending p) (pass_top p) sz) (measured_items p) (pass_layouts p) (rendered_height p)
      (pass_width p) (rendered_focused_item p).
Proof.
  unfold apply_pending, resumed, resumes. destruct p as [[[i o|i f]|] lg tp M L r wd b]; cbn [pass_pending pass_top].
  - destruct (decide _) as [->|Hne]; [by rewrite bool_decide_eq_true_2|by rewrite bool_decide_eq_false_2].
  - destruct (decide _) as [->|Hne]; [by rewrite bool_decide_eq_true_2|by rewrite bool_decide_eq_false_2].
  - done.
Qed.

(** ** The whole pass below *)

Definition start_pass (pending : option (PendingScroll Qc)) (logical : option (ListOffset Qc))
    (top : ListOffset Qc) : Pass Qc :=
  mkPass pending logical top [] [] pad 0%Qc false.

Lemma below_ok pending logical top :
  item_ix top ≤ length l → (pad - offset_in_item top < available)%Qc →
  let p := below measure contains_focused w available overdraw 0 (drop (item_ix top) l)
             (start_pass pending logical top) in
  let sz := measure w (item_ix top) in
  ∃ n v,
    (if decide (item_ix top < length l)
     then passed (item_ix top) (offset_in_item (resumed pending top sz)) n v None
            (if resumes pending (item_ix top) then Some (resumed pending top sz) else logical) p
     else passed (item_ix top) (offset_in_item top) n v pending logical p ∧ n = 0) ∧
    item_ix top + n ≤ length l ∧
    (item_ix top + n = length l ∨
     (available + overdraw <= pad + heights (measured_items p) - offset_in_item (pass_top p))%Qc).
Proof using content_nonneg measure_nonneg overdraw_nonneg.
  intros Hi Hvis. set (i0 := item_ix top) in *. cbn zeta. destruct (decide (i0 < length l)) as [Hlt|Hge].
  - destruct (lookup_lt_is_Some_2 l i0 Hlt) as [it Hit]. rewrite (drop_S _ _ _ Hit). cbn [below].
    cbn [start_pass rendered_height pass_top]. rewrite cle_no by (cbn [cadd csub Qc_coord]; qc_lra).
    rewrite layout_item_seen by (by apply clt_yes). rewrite decide_True by done.
    rewrite apply_pending_eq. cbn [start_pass pass_top pass_pending pass_logical measured_items pass_layouts
      rendered_height pass_width rendered_focused_item]. fold i0. rewrite Nat.add_0_r.
    set (off := offset_in_item (resumed pending top (measure w i0))).
    assert (Htop : resumed pending top (measure w i0) = mkOffset i0 off).
    { unfold off. pose proof (resumed_ix pending top (measure w i0)) as Hix. fold i0 in Hix.
      destruct (resumed pending top (measure w i0)). simpl in *. by subst. }
    match goal with |- context [seen ?q it 0] => set (p0 := q) end.
    assert (Hp : passed i0 off 1 1 None
      (if resumes pending i0 then Some (resumed pending top (measure w i0)) else logical) (seen p0 it 0)).
    { unfold seen, p0. rewrite Htop. cbn [pass_top item_ix]. rewrite Nat.add_0_r.
      split; cbn [pass_pending pass_logical pass_top measured_items pass_layouts rendered_height rendered_focused_item app]; try done.
      - cbn [heights cadd Qc_coord]. change (item_height (Measured ?a ?b)) with (height a). qc_lra.
      - apply (measures_snoc i0 [] it); [by intros ? ?|by rewrite Nat.add_0_r|left; by rewrite Nat.add_0_r].
      - intros [|j] Hj; [|lia]. rewrite Nat.add_0_r. by eexists.
      - by left.
      - rewrite (drop_S _ _ _ Hit). simpl. by rewrite orb_false_r. }
    destruct (below_passed _ _ (drop (S i0) l) _ _ _ _ _ Hp) as (n & v & Hn & Hle & Hend & Hlen); [lia|by rewrite Nat.add_1_r|].
    exists n, v. rewrite length_drop in Hend, Hlen. split; [done|]. split; [lia|].
    destruct Hend as [?|Hend]; [left; lia|right]. rewrite (pd_top _ _ _ _ _ _ _ Hn). exact Hend.
  - rewrite drop_ge by lia. cbn [below]. exists 0, 0. split; [|split; [lia|left; lia]]. split; [|done].
    split; cbn [start_pass pass_pending pass_logical pass_top measured_items pass_layouts rendered_height rendered_focused_item]; try done.
    + by destruct top.
    + simpl. qc_lra.
    + intros j Hj. lia.
    + by left.
Qed.

(** ** The viewport *)

(** Items that are measured one by one. *)
Definition fresh (k : nat) (its : list (ListItem Qc)) : list (ListItem Qc) :=
  imap (λ j it, Measured (measure w (k + j)) (item_focus_handle it)) its.
Lemma heights_fresh k its : heights (fresh k its) = extent k (length its).
Proof.
  induction its as [|it its IH] using rev_ind; [done|]. unfold fresh in *.
  rewrite imap_app, heights_app, IH, length_app, extent_app. f_equal. simpl. rewrite extent_one.
  change (item_height (Measured ?a ?b)) with (height a). rewrite Nat.add_0_r. qc_lra.
Qed.
Lemma fresh_lookup k m j : j < m → k + m ≤ length l →
  ∃ it, l !! (k + j) = Some it ∧
    fresh k (take m (drop k l)) !! j = Some (Measured (measure w (k + j)) (item_focus_handle it)).
Proof.
  intros Hj Hk. destruct (lookup_lt_is_Some_2 l (k + j)) as [it Hit]; [lia|]. exists it. split; [done|].
  unfold fresh. rewrite list_lookup_imap, lookup_take_lt, lookup_drop, Hit by done. done.
Qed.
Lemma fresh_measures k m : measures k (fresh k (take m (drop k l))).
Proof.
  intros j it' Hj. unfold fresh in Hj. rewrite list_lookup_imap in Hj.
  destruct (take m (drop k l) !! j) as [it|] eqn:E; [|done]. injection Hj as <-.
  apply lookup_take_Some in E as [E _]. rewrite lookup_drop in E. exists it, (measure w (k + j)). auto.
Qed.

Section viewport.
Variable tr : list_tree.
Hypothesis Hw : walkable () tr.
Hypothesis Htr : tree_items tr = l.
Variable alignment : ListAlignment.
Variable bottom_pad : Qc.
Hypothesis pads : (0 <= pad)%Qc ∧ (0 <= bottom_pad)%Qc.

(** The part of [layout_items] between the pass below and the leading overdraw. *)
Definition fill_viewport (fuel : nat) (c : Cursor (ListItemSummary Qc) (ListItem Qc) Count) p :=
  let p := mkPass (pass_pending p) (pass_logical p) (pass_top p) (measured_items p) (pass_layouts p)
             (cadd (rendered_height p) bottom_pad) (pass_width p) (rendered_focused_item p) in
  if clt (csub (rendered_height p) (offset_in_item (pass_top p))) available
  then
    '(c, p) ← fill_above measure contains_focused w available fuel c p;
    Ok (c, settle alignment available c p)
  else Ok (c, p).

Record viewport (i0 n : nat) (off : Qc) (pending : option (PendingScroll Qc))
    (logical : option (ListOffset Qc)) (k m : nat) p : Prop := {
  vp_start : k ≤ i0;
  vp_pending : pass_pending p = pending;
  vp_top : item_ix (pass_top p) = k;
  vp_kept : (pass_top p = mkOffset i0 off ∧ pass_logical p = logical) ∨
    (pad + extent i0 (length l - i0) + bottom_pad - off < available)%Qc;
  vp_logical : pass_logical p = Some (pass_top p) ∨ (pass_logical p = logical ∧ pass_top p = mkOffset i0 off) ∨
    (pass_logical p = None ∧ alignment = AlignBottom);
  vp_measures : measures k (measured_items p);
  vp_length : k + length (measured_items p) = i0 + n;
  vp_end : k + m ≤ i0 + n;
  vp_none : n = 0 → k + m = i0;
  vp_layouts : pass_layouts p = laid k m;
  vp_sizes j : j < m → ∃ f, measured_items p !! j = Some (Measured (measure w (k + j)) f);
  vp_focused : rendered_focused_item p = existsb (item_contains_focused contains_focused) (take m (drop k l));
  vp_above : (0 <= offset_in_item (pass_top p))%Qc ∨
    (pass_logical p = None ∧ alignment = AlignBottom ∧ k = 0);
  vp_below : k + m = length l ∨ (available <= pad + extent k m - offset_in_item (pass_top p))%Qc;
  vp_end_below : k + m = length l →
    k = 0 ∨ (available <= pad + extent k m + bottom_pad - offset_in_item (pass_top p))%Qc;
}.

Lemma fill_viewport_ok fuel c i0 off n v pending logical p :
  at_count tr c i0 → i0 < fuel → (0 <= off)%Qc → i0 + n ≤ length l →
  passed i0 off n v pending logical p →
  (i0 + n = length l ∨ (available + overdraw <= pad + heights (measured_items p) - off)%Qc) →
  ∃ c' p' k m, fill_viewport fuel c p = Ok (c', p') ∧ at_count tr c' k ∧
    viewport i0 n off pending logical k m p'.
Proof using content_nonneg measure_nonneg overdraw_nonneg Hw Htr pads.
  intros Hc Hf Ho Hn Hp Hend. pose proof (passed_bound _ _ _ _ _ _ _ Hp) as Hb.
  destruct Hp as [Hpe Hlo Hto Hre Hle Hme Hvi Hla Hsi Hex Hco Hfo].
  unfold fill_viewport. cbn zeta. cbn [rendered_height pass_top]. rewrite Hto. cbn [offset_in_item].
  destruct pads as [Hpad Hbot].
  destruct (clt_spec (csub (cadd (rendered_height p) bottom_pad) off) available) as [Hlt|Hge];
    rewrite Hre in *; cbn [csub cadd Qc_coord] in *.
  - (* the viewport is filled from above *)
    destruct Hend as [Hend|Hend]; [|exfalso; qc_lra].
    destruct Hco as [->|Hco]; [|exfalso; qc_lra].
    assert (He : heights (measured_items p) = extent i0 n) by (by rewrite <-Hex, take_ge by lia).
    match goal with |- context [fill_above _ _ _ _ _ _ ?q] => set (p1 := q) end.
    destruct (fill_above_ok measure contains_focused tr Hw w available fuel c i0 p1 Hc Hf)
      as (c' & k & F & -> & Hc' & Hk & HF & Hfill).
    cbn [mbind outcome_bind]. exists c'. eexists _, k, (i0 - k + n). split; [done|]. split; [done|].
    rewrite Htr in HF. fold (fresh k (take (i0 - k) (drop k l))) in HF.
    assert (Hshort : (pad + extent i0 (length l - i0) + bottom_pad - off < available)%Qc).
    { replace (length l - i0) with n by lia. qc_lra. }
    assert (HlenF : length F = i0 - k).
    { rewrite HF. unfold fresh. rewrite length_imap, length_take, length_drop. lia. }
    assert (HextF : heights F = extent k (i0 - k)).
    { rewrite HF, heights_fresh, length_take, length_drop. f_equal. lia. }
    assert (Hext : extent k (i0 - k + n) = (extent k (i0 - k) + extent i0 n)%Qc).
    { rewrite extent_app. by replace (k + (i0 - k)) with i0 by lia. }
    set (R := (pad + heights (measured_items p) + bottom_pad + heights F)%Qc).
    assert (HR : R = (pad + extent k (i0 - k + n) + bottom_pad)%Qc).
    { unfold R. rewrite Hext, HextF, He. qc_lra. }
    change (available <= rendered_height p1 + heights F)%Qc with (available <= R)%Qc in Hfill.
    unfold settle. assert (start c' = mkCount k) as -> by apply Hc'. cbn [count_of].
    change (csub (rendered_height (filled measure contains_focused tr w i0 k F p1)) available)
      with (R - available)%Qc.
    assert (Hmeas : measures k (F ++ measured_items p)).
    { apply measures_app; [rewrite HF; apply fresh_measures|]. rewrite HlenF.
      by replace (k + (i0 - k)) with i0 by lia. }
    assert (Hlaid : map (λ i, mkItemLayout i (measure w i)) (seq k (i0 - k)) ++ pass_layouts p
      = laid k (i0 - k + n)).
    { rewrite laid_app, Hla. by replace (k + (i0 - k)) with i0 by lia. }
    assert (Hsizes : ∀ j, j < i0 - k + n → ∃ f, (F ++ measured_items p) !! j = Some (Measured (measure w (k + j)) f)).
    { intros j Hj. destruct (decide (j < i0 - k)) as [Hlt'|Hge].
      - destruct (fresh_lookup k (i0 - k) j) as (it & _ & Hit); [done|lia|]. rewrite <-HF in Hit.
        eexists. by apply lookup_app_l_Some.
      - destruct (Hsi (j - (i0 - k))) as [f Hfj]; [lia|]. exists f.
        rewrite lookup_app_r, HlenF, Hfj by lia. do 3 f_equal. lia. }
    assert (Hfocus : (rendered_focused_item p || existsb (item_contains_focused contains_focused)
        (take (i0 - k) (drop k l))) =
      existsb (item_contains_focused contains_focused) (take (i0 - k + n) (drop k l))).
    { rewrite Hfo, <-(take_take_drop (drop k l) (i0 - k) n), existsb_app, orb_comm, drop_drop.
      by replace (k + (i0 - k)) with i0 by lia. }
    destruct alignment eqn:Hal; cbn zeta; cbn [item_ix offset_in_item filled pass_pending pass_logical pass_top
      measured_items pass_layouts rendered_height pass_width rendered_focused_item p1]; rewrite Htr;
      split; cbn [pass_pending pass_logical pass_top measured_items pass_layouts rendered_height
        rendered_focused_item item_ix offset_in_item]; try done; try (by auto).
    + rewrite length_app. lia.
    + lia.
    + lia.
    + left. apply pmax_ge.
    + left. lia.
    + intros _. destruct Hfill as [?|Hfill]; [by left|right]. unfold pmax.
      destruct (clt_spec czero (R - available)%Qc) as [|Hle0]; [qc_lra|].
      change (czero : Qc) with 0%Qc in *. qc_lra.
    + rewrite length_app. lia.
    + lia.
    + lia.
    + destruct Hfill as [?|Hfill]; [by right|left]. qc_lra.
    + left. lia.
    + intros _. destruct Hfill as [?|Hfill]; [by left|right]. qc_lra.
  - (* the viewport is full *)
    exists c. eexists _, i0, v. split; [done|]. split; [done|].
    split; cbn [pass_pending pass_logical pass_top measured_items pass_layouts rendered_height rendered_focused_item offset_in_item]; try done.
    + by left.
    + right; left. done.
    + by rewrite Hle.
    + lia.
    + lia.
    + by left.
    + destruct Hco as [->|Hco]; [|by right].
      destruct Hend as [?|Hend]; [by left|right]. rewrite <-Hex, take_ge by lia. qc_lra.
    + intros Hv. right. assert (v = n) as -> by lia. rewrite <-Hex, take_ge by lia. qc_lra.
Qed.
End viewport.
End spec.
