(* ===== verification/ListLayoutOk.v ===== *)
(** The layout of a list, put together: the items that are left, the scroll position, and the focused
    item that is kept alive. *)
From Stdlib Require Import QArith Qcanon.
From S2P Require Import Prelude SumTree SumTreeFacts Seek Cursor CursorFacts CursorMoves CursorOps TabStops Geometry Pixels ListState ListOps ListFacts ListOpsFacts ListLayout ListLayoutFacts ListLayoutSpec.
Import ListState.
Local Open Scope Qc_scope.
Local Open Scope nat_scope.

Implicit Types s : ListState.t Qc.
Implicit Types it : ListItem Qc.

Section layout.
Variable measure : option Qc → nat → Size Qc.
Variable contains_focused : FocusHandle → bool.
Variable w : option Qc.

(** ** The focused item *)

Notation focused := (item_contains_focused contains_focused).
Fixpoint first_focused (i : nat) (l : list (ListItem Qc)) : option nat :=
  match l with [] => None | it :: l => if focused it then Some i else first_focused (S i) l end.

Lemma first_focused_skip i (l1 l2 : list (ListItem Qc)) :
  Forall (λ it, focused it = false) l1 → first_focused i (l1 ++ l2) = first_focused (i + length l1) l2.
Proof.
  intros Hl. revert i. induction Hl as [|it l1 Hit _ IH]; intros i; simpl; [by rewrite Nat.add_0_r|].
  rewrite Hit, IH. f_equal. lia.
Qed.

Lemma first_focused_spec i (l : list (ListItem Qc)) :
  match first_focused i l with
  | Some k => ∃ it, i ≤ k ∧ l !! (k - i) = Some it ∧ focused it = true
  | None => Forall (λ it, focused it = false) l
  end.
Proof.
  revert i. induction l as [|it l IH]; intros i; simpl; [constructor|].
  destruct (focused it) eqn:E; [exists it; rewrite Nat.sub_diag; auto|].
  specialize (IH (S i)). destruct (first_focused (S i) l) as [k|]; [|by constructor].
  destruct IH as (it' & Hk & Hit & Hf). exists it'. split; [lia|]. split; [|done].
  by replace (k - i) with (S (k - S i)) by lia.
Qed.

Lemma focus_sound : filter_sound (T:=ListItem Qc) () (has_focus_handles (U:=Qc)).
Proof.
  intros h n Hn Hf. rewrite (wf_summary () _ _ Hn) in Hf. clear Hn.
  assert (∀ l : list (ListItem Qc), has_focus_handles (summary_of () l : ListItemSummary Qc)
    = existsb (accepts () has_focus_handles) l) as Hs.
  { intros l. induction l as [|it l IH]; [done|]. change (it :: l) with ([it] ++ l).
    destruct l as [|it' l].
    - unfold summary_of. rewrite app_nil_r. simpl map. rewrite (sum_singleton ()). simpl. by rewrite orb_false_r.
    - rewrite (summary_of_app ()) by done. cbn [has_focus_handles add_summary list_summary]. rewrite IH.
      rewrite existsb_app. f_equal. unfold summary_of. simpl map. rewrite (sum_singleton ()). simpl.
      by rewrite orb_false_r. }
  rewrite Hs in Hf. apply Forall_forall. intros it Hit.
  destruct (accepts () has_focus_handles it) eqn:E; [|done]. exfalso.
  enough (existsb (accepts () has_focus_handles) (tree_items n) = true) by congruence.
  apply existsb_exists. exists it. by rewrite <-list_elem_of_In.
Qed.

Lemma rejected_unfocused (l : list (ListItem Qc)) :
  Forall (λ it, accepts () (has_focus_handles (U:=Qc)) it = false) l → Forall (λ it, focused it = false) l.
Proof.
  intros Hl. eapply Forall_impl; [exact Hl|]. intros it. unfold accepts, item_contains_focused.
  destruct it as [h [f|]|sz [f|]]; simpl; done.
Qed.

Lemma find_focused_ok (tr : list_tree) fuel f pre post :
  walkable () tr → c_tree (fc_cursor f) = tr → seeked () (fc_cursor f) pre post →
  fc_filter_node f = has_focus_handles → length post < fuel →
  find_focused measure contains_focused w fuel f
    = Ok ((λ i, mkItemLayout i (measure w i)) <$> first_focused (length pre) post).
Proof.
  intros Hw. revert f pre post. induction fuel as [|fuel IH]; intros f pre post Ht Hc Hf Hlen; [lia|].
  cbn [find_focused]. unfold filter_item. rewrite (item_seeked () _ _ _ Hc) by (rewrite Ht; apply Hw).
  cbn [mbind outcome_bind]. destruct post as [|it post]; [done|]. cbn [head first_focused].
  destruct (focused it) eqn:Hit.
  - unfold start. by rewrite (seeked_position () _ _ _ Hc), pos_of_count.
  - unfold filter_next. rewrite Hf.
    destruct (search_forward_ok () has_focus_handles (fc_cursor f) (pre ++ [it]) post focus_sound)
      as (c' & -> & Ht' & Hc'); [by rewrite Ht|by apply (seeked_ahead () _ pre (it :: post))|].
    cbn [mbind outcome_bind].
    pose proof (skip_app_eq (accepts () (has_focus_handles (U:=Qc))) post) as Hsk.
    pose proof (rejected_unfocused _ (skip_fst_false (accepts () (has_focus_handles (U:=Qc))) post)) as Hun.
    destruct (skip (accepts () has_focus_handles) post) as [u v]. cbn [fst snd] in *. subst post.
    rewrite (IH _ ((pre ++ [it]) ++ u) v); [|simpl; congruence|exact Hc'|done|].
    + rewrite first_focused_skip by done. rewrite !length_app. simpl. do 3 f_equal. lia.
    + simpl in Hlen. rewrite length_app in Hlen. lia.
Qed.

Lemma search_focused_ok (tr : list_tree) :
  walkable () tr →
  (f ← filter_next () (filter_new (D:=Count) () tr has_focus_handles);
   find_focused measure contains_focused w (1 + node_fuel tr) f)
    = Ok ((λ i, mkItemLayout i (measure w i)) <$> first_focused 0 (tree_items tr)).
Proof.
  intros Hw. unfold filter_next. cbn [filter_new fc_filter_node fc_cursor].
  destruct (search_forward_ok () has_focus_handles (cursor_new (D:=Count) () tr) [] (tree_items tr) focus_sound Hw)
    as (c' & -> & Ht & Hc); [by constructor|]. cbn [mbind outcome_bind].
  pose proof (skip_app_eq (accepts () (has_focus_handles (U:=Qc))) (tree_items tr)) as Hsk.
  pose proof (rejected_unfocused _ (skip_fst_false (accepts () (has_focus_handles (U:=Qc))) (tree_items tr))) as Hun.
  destruct (skip (accepts () has_focus_handles) (tree_items tr)) as [u v]. cbn [fst snd] in *.
  rewrite (find_focused_ok tr _ _ u v); [|done|done|exact Hc|done|].
  - rewrite <-Hsk, first_focused_skip by done. done.
  - pose proof (items_lt_fuel () tr (proj1 Hw)) as Hlt. rewrite <-Hsk, length_app in Hlt. lia.
Qed.

(** ** Measuring everything *)

Lemma layout_all_items_ok s (available_width : Qc) :
  list_ok s →
  ∃ s', layout_all_items measure s available_width = Ok s' ∧
    contents s' = (match measuring_behavior s with
      | Measure false => imap (measure_item measure (Some available_width)) (contents s)
      | _ => contents s end) ∧ wf_tree () (items s') ∧
    s' = with_measuring (with_items s (items s')) (match measuring_behavior s with Measure _ => Measure true | Visible => Visible end).
Proof.
  intros Hs. unfold layout_all_items. destruct (measuring_behavior s) as [[]|] eqn:E;
    [eexists; split; [done|]; split; [done|]; split; [apply Hs|destruct s; simpl in *; by rewrite E]| |
     eexists; split; [done|]; split; [done|]; split; [apply Hs|destruct s; simpl in *; by rewrite E]].
  cbn zeta. cbn [items with_measuring].
  destruct (iterate_all_new (D:=Count) () (1 + node_fuel (items s)) (items s) [] (ok_tree s Hs)) as (c' & -> & _).
  { pose proof (items_lt_fuel () (items s) (proj1 (ok_tree s Hs))). lia. }
  cbn [mbind outcome_bind app].
  destruct (from_iter_ok () (imap (measure_item measure (Some available_width)) (contents s))) as (tr & -> & Hw & Hi).
  cbn [mbind outcome_bind]. eexists. split; [done|]. split; [exact Hi|]. by split.
Qed.

(** ** The items *)

(** Where the layout starts, and the position it leaves when nothing moves it. *)
Definition start_top s : ListOffset Qc :=
  if is_following (follow_state s) then mkOffset (length (contents s)) 0%Qc else logical_scroll_top s.
Definition start_logical s : option (ListOffset Qc) :=
  if is_following (follow_state s) then Some (mkOffset (length (contents s)) 0%Qc) else logical_top s.
(** The pixels of the item at the scroll top that are above the viewport, with the pending scroll. *)
Definition start_offset s : Qc :=
  let top := start_top s in
  if decide (item_ix top < length (contents s))
  then offset_in_item (resumed (pending_scroll s) top (measure w (item_ix top))) else offset_in_item top.

Lemma start_top_ok s : list_ok s → top_ok (contents s) (start_top s).
Proof.
  intros Hs. unfold start_top. destruct (is_following _); [split; simpl; [lia|qc_lra]|].
  by apply logical_scroll_top_ok.
Qed.
Lemma start_offset_ok s :
  list_ok s → (∀ i, (0 <= height (measure w i))%Qc) → (0 <= start_offset s)%Qc.
Proof.
  intros Hs Hm. unfold start_offset. destruct (decide _); [|by apply start_top_ok].
  apply resumed_ok; [apply Hs|by apply start_top_ok|done].
Qed.

Record laid_out s (available : Qc) (padding : Edges Qc) s' (p : Pass Qc) (k m a : nat)
    (M : list (ListItem Qc)) : Prop := {
  lo_pending : pass_pending p = None ∨
    (pass_pending p = pending_scroll s ∧ item_ix (start_top s) = length (contents s));
  lo_above : k ≤ item_ix (start_top s);
  lo_top : item_ix (pass_top p) = k;
  lo_kept : (pass_top p = mkOffset (item_ix (start_top s)) (start_offset s) ∧
    (pass_logical p = Some (pass_top p) ∨ (pass_logical p = start_logical s ∧ pass_top p = start_top s))) ∨
    (edge_top padding + extent measure w (item_ix (start_top s)) (length (contents s) - item_ix (start_top s))
      + edge_bottom padding - start_offset s < available)%Qc;
  lo_logical : pass_logical p = Some (pass_top p) ∨
    (pass_logical p = start_logical s ∧ pass_top p = start_top s) ∨
    (pass_logical p = None ∧ alignment s = AlignBottom);
  lo_layouts : pass_layouts p = laid measure w k m;
  lo_focused : rendered_focused_item p = existsb (item_contains_focused contains_focused) (take m (drop k (contents s)));
  lo_offset : (0 <= offset_in_item (pass_top p))%Qc ∨
    (pass_logical p = None ∧ alignment s = AlignBottom ∧ k = 0);
  lo_below : k + m = length (contents s) ∨
    (available <= edge_top padding + extent measure w k m - offset_in_item (pass_top p))%Qc;
  lo_end_below : k + m = length (contents s) →
    k = 0 ∨ (available <= edge_top padding + extent measure w k m + edge_bottom padding
                          - offset_in_item (pass_top p))%Qc;
  lo_follow : is_following (follow_state s) = true → k + m = length (contents s);
  lo_tree : wf_tree () (items s');
  lo_contents : contents s' = take a (contents s) ++ M ++ drop (a + length M) (contents s);
  lo_measures : measures measure w (contents s) a M;
  lo_range : a ≤ k ∧ k + m ≤ a + length M ∧ a + length M ≤ length (contents s);
  lo_sizes i : k ≤ i → i < k + m → ∃ f, contents s' !! i = Some (Measured (measure w i) f);
  lo_state : ∃ follow,
    s' = with_follow (with_items (with_top (with_pending s (pass_pending p)) (pass_logical p)) (items s')) follow ∧
    follow = if has_stopped_following (follow_state s)
      then let last := default edges_default (last_padding s) in
        if cle (heights (contents s') + edge_top last + edge_bottom last - 1)%Qc
               (pixel_of (contents s') (pass_top p) + available)%Qc
        then start_following (follow_state s) else follow_state s
      else follow_state s;
}.

Lemma measure_items_measures (l : list (ListItem Qc)) a n :
  measures measure w l a (imap (λ j it, measure_item measure w (a + j) it) (take n (drop a l))).
Proof.
  intros j it' Hj. rewrite list_lookup_imap in Hj.
  destruct (take n (drop a l) !! j) as [it|] eqn:E; [|done]. injection Hj as <-.
  apply lookup_take_Some in E as [E _]. rewrite lookup_drop in E.
  exists it, (default (measure w (a + j)) (measured_size it)). split; [done|]. split; [done|].
  destruct (measured_size it); auto.
Qed.

Lemma replace_range (l M : list (ListItem Qc)) a i :
  a + length M ≤ length l →
  (take a l ++ M ++ drop (a + length M) l) !! i =
    if decide (a ≤ i ∧ i < a + length M) then M !! (i - a) else l !! i.
Proof.
  intros Ha. destruct (decide _) as [[H1 H2]|Hn].
  - rewrite lookup_app_r, length_take, Nat.min_l by (rewrite ?length_take; lia).
    by rewrite lookup_app_l by lia.
  - destruct (decide (i < a)).
    + rewrite lookup_app_l, lookup_take_lt by (rewrite ?length_take; lia). done.
    + rewrite lookup_app_r, length_take, Nat.min_l by (rewrite ?length_take; lia).
      rewrite lookup_app_r, lookup_drop by lia. f_equal. lia.
Qed.

Hypothesis measure_nonneg : ∀ i, (0 <= height (measure w i))%Qc.

Lemma replace_items_ok s a M :
  list_ok s → a + length M ≤ length (contents s) →
  ∃ tr, replace_items (items s) a M = Ok tr ∧ wf_tree () tr ∧
    tree_items tr = take a (contents s) ++ M ++ drop (a + length M) (contents s).
Proof.
  intros Hs Ha. unfold replace_items.
  destruct (slice_count (D:=Count) (items s) (cursor_new () (items s)) [] (contents s) a)
    as (c1 & n1 & -> & Hn1 & Hi1 & Ht1 & _); [apply Hs|done|by right|simpl; lia|].
  rewrite Nat.sub_0_r in Hi1. cbn [mbind outcome_bind].
  destruct (extend_ok () n1 M Hn1) as (n2 & -> & Hn2 & Hi2). cbn [mbind outcome_bind].
  destruct (seek_count (D:=Count) (items s) c1 (a + length M)) as (c2 & b2 & -> & Ht2 & Hc2); [apply Hs|done|].
  cbn [mbind outcome_bind].
  destruct (suffix_ok () c2 _ _ ltac:(by rewrite Ht2; apply Hs) (or_introl Hc2)) as (c3 & n3 & -> & Hn3 & Hi3 & _).
  cbn [mbind outcome_bind].
  destruct (append_ok () n2 n3 Hn2 Hn3) as (n4 & -> & Hn4 & Hi4).
  exists n4. split; [done|]. split; [done|]. by rewrite Hi4, Hi2, Hi1, Hi3, <-app_assoc.
Qed.

Lemma layout_visible_ok s available padding :
  list_ok s → (0 <= overdraw s)%Qc → (0 <= edge_top padding)%Qc → (0 <= edge_bottom padding)%Qc →
  (edge_top padding < available)%Qc →
  ∃ s' p k m a M, layout_visible measure contains_focused s w available padding = Ok (s', p) ∧
    laid_out s available padding s' p k m a M.
Proof using measure_nonneg.
  intros Hs Hover Htp Hbp Hav. unfold layout_visible.
  pose proof (start_top_ok s Hs) as [Hti Hto]. pose proof (start_offset_ok s Hs measure_nonneg) as Hoff.
  assert (Hst : (if is_following (follow_state s)
      then (mkOffset (count (summary (items s))) czero, Some (mkOffset (count (summary (items s))) czero))
      else (logical_scroll_top s, logical_top s)) = (start_top s, start_logical s)).
  { unfold start_top, start_logical. rewrite (content_count s Hs). by destruct (is_following _). }
  cbn zeta. rewrite Hst. clear Hst.
  destruct (seek_count (D:=Count) (items s) (cursor_new () (items s)) (item_ix (start_top s)))
    as (c1 & b1 & -> & Ht1 & Hc1); [apply Hs|done|]. cbn [mbind outcome_bind].
  pose proof (items_lt_fuel () (items s) (proj1 (ok_tree s Hs))) as Hfuel.
  rewrite (layout_below_ok measure contains_focused (items s) (ok_tree s Hs) w available (overdraw s) _ 0 c1 _ _ _ Ht1 Hc1)
    by (rewrite length_drop; lia).
  change (mkPass (pending_scroll s) (start_logical s) (start_top s) [] [] (edge_top padding) czero false)
    with (start_pass (edge_top padding) (pending_scroll s) (start_logical s) (start_top s)).
  destruct (below_ok measure contains_focused w (contents s) measure_nonneg (ok_heights s Hs) available (overdraw s)
    (edge_top padding) Hover (pending_scroll s) (start_logical s) (start_top s) Hti) as (n & v & Hp & Hn & Hend); [qc_lra|].
  set (p := below _ _ _ _ _ _ _ _) in *. cbn [mbind outcome_bind].
  assert (∃ pending logical, passed measure contains_focused w (contents s) available (edge_top padding)
      (item_ix (start_top s)) (start_offset s) n v pending logical p ∧
      (pending = None ∨ (pending = pending_scroll s ∧ item_ix (start_top s) = length (contents s))) ∧
      (logical = Some (mkOffset (item_ix (start_top s)) (start_offset s)) ∨
       (logical = start_logical s ∧ start_top s = mkOffset (item_ix (start_top s)) (start_offset s))))
    as (pending & logical & Hpassed & Hpend & Hlog).
  { unfold start_offset. destruct (decide (item_ix (start_top s) < length (contents s))) as [Hlt|Hge].
    - eexists _, _. split; [exact Hp|]. split; [by left|]. unfold resumed.
      destruct (resumes _ _); [by left|right]. split; [done|]. by destruct (start_top s).
    - destruct Hp as [Hp _]. eexists _, _. split; [exact Hp|]. split; [right; split; [done|lia]|].
      right. split; [done|]. by destruct (start_top s). }
  clear Hp. pose proof (pd_top _ _ _ _ _ _ _ _ _ _ _ _ _ Hpassed) as Hptop.
  assert (Hpi : item_ix (pass_top p) = item_ix (start_top s)) by (by rewrite Hptop).
  cbn [pass_top]. rewrite Hpi.
  destruct (seek_at_count (items s) (ok_tree s Hs) (cursor_new () (items s)) (item_ix (start_top s)) eq_refl Hti)
    as (c2 & b2 & -> & Hc2). cbn [mbind outcome_bind].
  destruct (fill_viewport_ok measure contains_focused w (contents s) measure_nonneg (ok_heights s Hs) available
    (overdraw s) (edge_top padding) Hover (items s) (ok_tree s Hs) eq_refl (alignment s) (edge_bottom padding)
    (conj Htp Hbp) (1 + node_fuel (items s)) c2 (item_ix (start_top s)) (start_offset s) n v pending logical p
    Hc2 ltac:(lia) Hoff Hn Hpassed) as (c3 & p' & k & m & Hfill & Hc3 & Hview); [by rewrite Hptop in Hend|].
  unfold fill_viewport in Hfill. cbn zeta in Hfill. cbn [pass_top] in Hfill. rewrite Hfill.
  cbn [mbind outcome_bind]. clear Hfill.
  destruct (overdraw_above_ok measure (items s) (ok_tree s Hs) w (overdraw s) (1 + node_fuel (items s)) c3 k
    (offset_in_item (pass_top p')) (measured_items p') Hc3) as (c4 & a & -> & Hc4 & Hak).
  { destruct Hview. lia. }
  cbn [mbind outcome_bind]. assert (count_of (start c4) = a) as -> by (destruct Hc4 as (_ & -> & _); done).
  set (M := imap _ _ ++ measured_items p').
  destruct Hview as [Hk Hvp Hvt Hvkept Hvl Hvm Hvlen Hvend Hvnone Hvlay Hvs Hvf Hva Hvb Hve].
  assert (HlenM : length M = k - a + length (measured_items p')).
  { unfold M. rewrite length_app, length_imap, length_take, length_drop. lia. }
  destruct (replace_items_ok s a M Hs) as (tr & -> & Htr & Hitems); [lia|]. cbn [mbind outcome_bind].
  set (s1 := with_items (with_top (with_pending s (pass_pending p')) (pass_logical p')) tr).
  assert (Hs1 : items s1 = tr) by done.
  rewrite (scroll_top_wf s1) by done. destruct (tree_summary tr Htr) as [_ Hsum].
  eexists _, p', k, m, a, M. split; [reflexivity|].
  assert (HM : measures measure w (contents s) a M).
  { unfold M. apply measures_app; [apply measure_items_measures|].
    rewrite length_imap, length_take, length_drop, Nat.min_l by lia. by replace (a + (k - a)) with k by lia. }
  match goal with |- laid_out _ _ _ ?x _ _ _ _ _ => set (s2 := x) end.
  assert (Hi2 : items s2 = tr) by (unfold s2; destruct (has_stopped_following _); [destruct (cle _ _)|]; done).
  split; rewrite ?Hi2; try done.
  - rewrite Hvp. done.
  - destruct Hvkept as [[Ht Hl]|?]; [left|by right]. split; [done|].
    destruct Hlog as [->|[-> Htop]]; [left; by rewrite Hl, Ht|right]. split; [done|by rewrite Ht].
  - destruct Hvl as [?|[[Hl Ht]|?]]; [by left| |by right; right].
    destruct Hlog as [->|[-> Htop]]; [left; by rewrite Hl, Ht|right; left]. split; [done|by rewrite Ht].
  - intros Hfol. unfold start_top in Hvnone, Hn. rewrite Hfol in Hvnone, Hn. simpl in Hvnone, Hn. lia.
  - lia.
  - intros i Hi1 Hi3. rewrite Hitems, replace_range by lia. rewrite decide_True by lia.
    destruct (Hvs (i - k)) as [f Hf]; [lia|]. exists f. unfold M.
    rewrite lookup_app_r, length_imap, length_take, length_drop, Nat.min_l
      by (rewrite ?length_imap, ?length_take, ?length_drop; lia).
    replace (i - a - (k - a)) with (i - k) by lia. rewrite Hf. do 3 f_equal. lia.
  - exists (follow_state s2). unfold s2. clear Hi2 s2. rewrite Hs1, Hsum.
    change (follow_state s1) with (follow_state s). change (last_padding s1) with (last_padding s).
    destruct (has_stopped_following (follow_state s)); [|split; [by destruct s|done]]. cbn zeta.
    cbn [cadd csub Qc_coord]. change (pone : Qc) with 1%Qc. destruct (cle _ _); by split.
Qed.

(** The trees that a layout builds fit the stack of a cursor. *)
Definition layout_fits s (available : Qc) (padding : Edges Qc) : Prop := ∀ s' p,
  layout_visible measure contains_focused s w available padding = Ok (s', p) →
  SumTree.height (items s') < STACK_CAP.

(** The item that is rendered for the focus that is in none of the visible items. *)
Definition kept_alive s' (p : Pass Qc) : list (ItemLayout Qc) :=
  if rendered_focused_item p then []
  else match first_focused 0 (contents s') with Some i => [mkItemLayout i (measure w i)] | None => [] end.

Lemma layout_items_ok s available padding :
  list_ok s → (0 <= overdraw s)%Qc → (0 <= edge_top padding)%Qc → (0 <= edge_bottom padding)%Qc →
  (edge_top padding < available)%Qc → layout_fits s available padding →
  ∃ s' p k m a M,
    layout_items measure contains_focused s w available padding
      = Ok (s', mkResponse (pass_width p) (pass_top p) (laid measure w k m ++ kept_alive s' p)) ∧
    laid_out s available padding s' p k m a M ∧ list_ok s'.
Proof using measure_nonneg.
  intros Hs Hover Htp Hbp Hav Hfit.
  destruct (layout_visible_ok s available padding Hs Hover Htp Hbp Hav) as (s' & p & k & m & a & M & Hr & Hl).
  exists s', p, k, m, a, M. pose proof (Hfit _ _ Hr) as Hh. unfold layout_items. rewrite Hr. cbn [mbind outcome_bind].
  assert (Hw' : walkable () (items s')) by (split; [apply Hl|done]).
  split; [|split; [done|]].
  - unfold kept_alive. rewrite (lo_layouts _ _ _ _ _ _ _ _ _ Hl). destruct (rendered_focused_item p); [done|].
    pose proof (search_focused_ok (items s') Hw') as Hsf.
    destruct (filter_next () _) as [f| |]; try done. cbn [mbind outcome_bind] in *. rewrite Hsf.
    by destruct (first_focused 0 (contents s')).
  - destruct (lo_state _ _ _ _ _ _ _ _ _ Hl) as (follow & Hst & _).
    assert (Hlen : length (contents s') = length (contents s)).
    { rewrite (lo_contents _ _ _ _ _ _ _ _ _ Hl), !length_app, length_take, length_drop.
      destruct (lo_range _ _ _ _ _ _ _ _ _ Hl). lia. }
    split.
    + done.
    + rewrite (lo_contents _ _ _ _ _ _ _ _ _ Hl). apply nonneg_pieces; [apply Hs|].
      eapply measures_nonneg; [exact measure_nonneg|apply (ok_heights s Hs)|apply Hl].
    + intros top Htop. rewrite Hst in Htop. simpl in Htop. unfold top_ok. rewrite Hlen.
      pose proof (start_top_ok s Hs) as [Hti Hto]. pose proof (lo_above _ _ _ _ _ _ _ _ _ Hl) as Hk.
      destruct (lo_logical _ _ _ _ _ _ _ _ _ Hl) as [Hlg|[[Hlg Hpt]|[Hlg _]]]; rewrite Hlg in Htop; [|..|done].
      * injection Htop as <-. rewrite (lo_top _ _ _ _ _ _ _ _ _ Hl). split; [lia|].
        destruct (lo_offset _ _ _ _ _ _ _ _ _ Hl) as [?|[Hno _]]; [done|congruence].
      * assert (top = start_top s) as ->; [|done]. unfold start_top, start_logical, logical_scroll_top in *.
        destruct (is_following _); [by injection Htop|]. by rewrite Htop.
    + intros pe Hpe. rewrite Hst in Hpe. simpl in Hpe.
      destruct (lo_pending _ _ _ _ _ _ _ _ _ Hl) as [Hn|[Hn _]]; rewrite Hn in Hpe; [done|by apply Hs].
Qed.
End layout.

(** What the callers of the layout see to: lengths that are not negative, and a top padding that does
    not fill the viewport; and that the new tree fits the stack of a cursor. *)
Record layout_pre (measure : option Qc → nat → Size Qc) (contains_focused : FocusHandle → bool)
    (w : option Qc) s (available : Qc) (padding : Edges Qc) : Prop := {
  lp_state : list_ok s;
  lp_measure i : (0 <= height (measure w i))%Qc;
  lp_overdraw : (0 <= overdraw s)%Qc;
  lp_top : (0 <= edge_top padding)%Qc;
  lp_bottom : (0 <= edge_bottom padding)%Qc;
  lp_available : (edge_top padding < available)%Qc;
  lp_fits : layout_fits measure contains_focused w s available padding;
}.
