(* ===== verification/ListSamples.v ===== *)
(** A small list, at which the theorems about lists are applied: six items of height 20 in a viewport
    of height 50. *)
From Stdlib Require Import QArith Qcanon.
From S2P Require Import Prelude SumTree SumTreeFacts Seek Cursor CursorFacts TabStops Geometry Pixels ListState ListOps ListFacts ListOpsFacts ListLayout ListLayoutSpec ListLayoutOk.
Import ListState.
Local Open Scope Qc_scope.
Local Open Scope nat_scope.

Definition px (z : Z) : Qc := Q2Qc (inject_Z z).
Definition sample_measure (w : option Qc) (ix : nat) : Size Qc := size (px 100) (px 20).
Definition sample_view : Bounds Qc := bounds (point (px 0) (px 0)) (size (px 100) (px 50)).
Definition sample_padding : Edges Qc := edges (px 2) (px 0) (px 3) (px 0).

Definition empty_list : ListState.t Qc :=
  mk None None (new ()) None AlignTop (px 10) false false None Visible None Normal.
Definition of_outcome (o : outcome (ListState.t Qc)) : ListState.t Qc :=
  match o with Ok s => s | _ => empty_list end.

(** Unmeasured, hinted, and measured, with a viewport. *)
Definition sample_new : ListState.t Qc := of_outcome (splice empty_list (0, 0) 6).
Definition sample_hinted : ListState.t Qc :=
  with_layout (of_outcome (apply_uniform_item_height sample_new (px 20))) (Some sample_view) (Some sample_padding).
Definition sample_measured : ListState.t Qc :=
  of_outcome (layout_all_items sample_measure (with_measuring sample_hinted (Measure false)) (px 100)).

(** A comparison of closed lengths. *)
Ltac by_length := unfold Qcle, Qclt, not; vm_compute; first [reflexivity | discriminate].

Lemma empty_list_ok : list_ok empty_list.
Proof. split; try done. split; [by left|]. vm_compute. lia. Qed.

Lemma sample_new_ok :
  list_ok sample_new ∧ contents sample_new = repeat (Unmeasured None None) 6.
Proof.
  destruct (splice_ok empty_list 0 0 (repeat None 6) empty_list_ok) as (tr & Hr & Hw & Hi); [lia|].
  assert (SumTree.height (items sample_new) < STACK_CAP) as Hh by (vm_compute; lia).
  unfold sample_new, of_outcome, splice in *. rewrite Hr in *. simpl in Hh.
  assert (Hc : tree_items tr = repeat (Unmeasured None None) 6) by exact Hi.
  split; [|exact Hc]. apply with_items_ok; [apply empty_list_ok|done|done| |done].
  rewrite Hc. repeat constructor; by_length.
Qed.

Lemma sample_hinted_ok :
  list_ok sample_hinted ∧ contents sample_hinted = repeat (Unmeasured (Some (size 0%Qc (px 20))) None) 6.
Proof.
  destruct sample_new_ok as [Hs Hc].
  destruct (uniform_keeps sample_new (px 20) Hs) as (s' & Hr & Hok & Hi); [by_length|].
  rewrite Hc in Hi. assert (of_outcome (apply_uniform_item_height sample_new (px 20)) = s') as He by (by rewrite Hr).
  assert (SumTree.height (items s') < STACK_CAP) as Hh by (rewrite <-He; vm_compute; lia).
  unfold sample_hinted. rewrite He. specialize (Hok Hh). split; [destruct Hok; by split|exact Hi].
Qed.

Lemma sample_measured_ok :
  list_ok sample_measured ∧ contents sample_measured = repeat (Measured (size (px 100) (px 20)) None) 6 ∧
  last_layout_bounds sample_measured = Some sample_view ∧ last_padding sample_measured = Some sample_padding ∧
  logical_top sample_measured = None ∧ follow_state sample_measured = Normal ∧
  pending_scroll sample_measured = None ∧ alignment sample_measured = AlignTop ∧
  overdraw sample_measured = px 10.
Proof.
  destruct sample_hinted_ok as [Hs Hc].
  assert (Hs1 : list_ok (with_measuring sample_hinted (Measure false))) by (destruct Hs; by split).
  destruct (layout_all_items_ok sample_measure _ (px 100) Hs1) as (s' & Hr & Hi & Hw & Hst).
  cbn [contents items with_measuring measuring_behavior] in Hi. rewrite Hc in Hi.
  assert (sample_measured = s') as He by (unfold sample_measured; by rewrite Hr).
  assert (SumTree.height (items s') < STACK_CAP) as Hh by (rewrite <-He; vm_compute; lia).
  rewrite He. assert (Hi' : contents s' = repeat (Measured (size (px 100) (px 20)) None) 6) by exact Hi.
  split; [|split; [exact Hi'|]].
  - destruct Hs1 as [_ _ Ht Hp]. split; [by split| | |].
    + rewrite Hi'. repeat constructor; by_length.
    + rewrite Hst. intros top Htop. discriminate Htop.
    + rewrite Hst. intros pe Hpe. discriminate Hpe.
  - rewrite Hst. split_and!; reflexivity.
Qed.

(** The same list, scrolled to the middle of an item. *)
Definition sample_top : ListOffset Qc := mkOffset 2 (px 5).
Definition sample_scrolled : ListState.t Qc := with_top sample_measured (Some sample_top).

Lemma sample_scrolled_ok :
  list_ok sample_scrolled ∧ contents sample_scrolled = repeat (Measured (size (px 100) (px 20)) None) 6 ∧
  last_layout_bounds sample_scrolled = Some sample_view ∧ last_padding sample_scrolled = Some sample_padding ∧
  logical_top sample_scrolled = Some sample_top ∧ follow_state sample_scrolled = Normal.
Proof.
  destruct sample_measured_ok as (Hs & Hc & Hb & Hp & _ & Hf & _). 
  split; [|split; [exact Hc|split; [exact Hb|split; [exact Hp|split; [reflexivity|exact Hf]]]]].
  destruct Hs as [Hw Hn _ Hpe]. split; [exact Hw|exact Hn| |exact Hpe]. intros top [= <-].
  change (top_ok (contents sample_measured) sample_top).
  rewrite Hc. split; [simpl; lia|by_length].
Qed.

(** ** Layouts *)

Definition fits (o : outcome (ListState.t Qc * Pass Qc)) : bool :=
  match o with Ok (s, _) => SumTree.height (items s) <? STACK_CAP | _ => true end.
Lemma fits_layout (measure : option Qc → nat → Size Qc) (contains_focused : FocusHandle → bool)
    (w : option Qc) (s : ListState.t Qc) (available : Qc) (padding : Edges Qc) :
  fits (layout_visible measure contains_focused s w available padding) = true →
  layout_fits measure contains_focused w s available padding.
Proof. intros Hf s' p Hr. rewrite Hr in Hf. by apply Nat.ltb_lt. Qed.

(** The padding leaves room, and the measured heights are 20. *)
Lemma sample_layout_pre (contains_focused : FocusHandle → bool) (s : ListState.t Qc) :
  list_ok s → overdraw s = px 10 →
  fits (layout_visible sample_measure contains_focused s (Some (px 100)) (px 50) sample_padding) = true →
  layout_pre sample_measure contains_focused (Some (px 100)) s (px 50) sample_padding.
Proof.
  intros Hs Ho Hf. split; [exact Hs|intros i; by_length|rewrite Ho; by_length|by_length|by_length|by_length|].
  by apply fits_layout.
Qed.
Lemma sample_scrolled_pre :
  layout_pre sample_measure (λ _, false) (Some (px 100)) sample_scrolled (px 50) sample_padding.
Proof. apply sample_layout_pre; [apply sample_scrolled_ok|reflexivity|by vm_compute]. Qed.

Lemma sample_scrolled_measured : measuring_behavior sample_scrolled = Measure true.
Proof. vm_compute. reflexivity. Qed.

(** The last item has the focus, out of view. *)
Definition sample_handle : FocusHandle := mkHandle 7 0 true.
Definition sample_focused : ListState.t Qc := of_outcome (splice_focusable sample_scrolled (5, 6) [Some sample_handle]).
Definition focuses_sample (h : FocusHandle) : bool := handle_id h =? 7.

Lemma sample_focused_ok :
  list_ok sample_focused ∧ Unmeasured None (Some sample_handle) ∈ contents sample_focused ∧
  overdraw sample_focused = px 10.
Proof.
  destruct sample_scrolled_ok as (Hs & Hc & _ & _ & Ht & _).
  destruct (splice_ok sample_scrolled 5 6 [Some sample_handle] Hs) as (tr & Hr & Hw & Hi); [lia|].
  assert (He : sample_focused = with_top (with_items sample_scrolled tr) (splice_top (5, 6) 1 (logical_top sample_scrolled)))
    by (unfold sample_focused; by rewrite Hr).
  assert (Hh : SumTree.height (items sample_focused) < STACK_CAP) by (vm_compute; lia).
  rewrite He in *. clear He. split; [|split; [|reflexivity]].
  - apply with_items_ok; [exact Hs|exact Hw|exact Hh| |].
    + rewrite Hi. apply nonneg_pieces; [apply Hs|apply handles_nonneg].
    + intros top Htop. rewrite Hi. eapply splice_top_ok; [exact Hs| |exact Htop]. lia.
  - change (Unmeasured None (Some sample_handle) ∈ tree_items tr). rewrite Hi. apply elem_of_app. right. by left.
Qed.
Lemma sample_focused_pre :
  layout_pre sample_measure focuses_sample (Some (px 100)) sample_focused (px 50) sample_padding.
Proof. apply sample_layout_pre; [apply sample_focused_ok..|by vm_compute]. Qed.

(** The item at the scroll top is to be measured again. *)
Definition sample_remeasured : ListState.t Qc :=
  of_outcome (remeasure_items_with_scroll_anchor sample_scrolled (2, 3) AnchorProportional).

Definition slice_fits_b (s : ListState.t Qc) (i j : nat) : bool :=
  match slice () (mkCount i) Right (cursor_new (D:=Count) () (items s)) with
  | Ok (c, _) =>
      match slice () (mkCount j) Right c with Ok (_, n) => SumTree.height n <? STACK_CAP | _ => true end
  | _ => true
  end.
Lemma fits_slice (s : ListState.t Qc) (i j : nat) : slice_fits_b s i j = true → slice_fits s i j.
Proof.
  intros Hf c1 n1 c2 n2 H1 H2. unfold slice_fits_b in Hf. rewrite H1, H2 in Hf. by apply Nat.ltb_lt.
Qed.
Lemma sample_slice_fits : slice_fits sample_scrolled 2 3.
Proof. apply fits_slice. vm_compute. reflexivity. Qed.

Lemma sample_remeasured_ok :
  remeasure_items_with_scroll_anchor sample_scrolled (2, 3) AnchorProportional = Ok sample_remeasured ∧
  layout_pre sample_measure (λ _, false) (Some (px 100)) sample_remeasured (px 50) sample_padding.
Proof.
  destruct sample_scrolled_ok as (Hs & _).
  destruct (remeasure_keeps sample_scrolled 2 3 AnchorProportional Hs) as (s' & Hr & Hok);
    [lia|exact sample_slice_fits|].
  assert (Hov : match remeasure_items_with_scroll_anchor sample_scrolled (2, 3) AnchorProportional with
    Ok s => overdraw s | _ => px 10 end = overdraw sample_scrolled).
  { destruct (remeasure_ok sample_scrolled 2 3 AnchorProportional Hs) as (tr & pe & -> & _);
      [lia|exact sample_slice_fits|reflexivity]. }
  assert (He : sample_remeasured = s') by (unfold sample_remeasured; by rewrite Hr).
  rewrite Hr in Hov. split; [by rewrite He|]. apply sample_layout_pre.
  - rewrite He. apply Hok. rewrite <-He. vm_compute. lia.
  - rewrite He. exact Hov.
  - vm_compute. reflexivity.
Qed.
