(* ===== verification/ListTheorems.v ===== *)
(** What lists promise: every operation keeps the state consistent and cannot panic, the scroll position
    follows the items, scrolling is exact, and the layout covers the viewport. *)
From Stdlib Require Import QArith Qcanon.
From S2P Require Import Prelude SumTree SumTreeFacts Seek Cursor CursorFacts CursorMoves CursorOps TabStops Geometry Pixels ListState ListOps ListFacts ListOpsFacts ListLayout ListLayoutFacts ListLayoutSpec ListLayoutOk ListSamples.
Import ListState.
Local Open Scope Qc_scope.
Local Open Scope nat_scope.

Implicit Types s : ListState.t Qc.
Implicit Types top : ListOffset Qc.

(** ** Every operation *)

(** The operations that change the state. *)
Inductive list_op : Type :=
| DoSplice (i j : nat) (handles : list (option FocusHandle))
| DoReset (n : nat)
| DoUniform (h : Qc)
| DoRemeasure (i j : nat) (anchor : ScrollAnchor)
| DoScrollBy (distance : Qc)
| DoScrollTo (top : ListOffset Qc)
| DoScrollToEnd
| DoReveal (ix : nat)
| DoFollow (mode : FollowMode)
| DoDragStart
| DoDragEnd
| DoScrollbar (p : Point Qc)
| DoScroll (top : ListOffset Qc) (h : Qc) (delta : Point Qc)
| DoMeasureAll
| DoSetHandler.
Definition apply_list_op s (op : list_op) : outcome (ListState.t Qc) :=
  match op with
  | DoSplice i j handles => splice_focusable s (i, j) handles
  | DoReset n => list_reset s n
  | DoUniform h => apply_uniform_item_height s h
  | DoRemeasure i j anchor => remeasure_items_with_scroll_anchor s (i, j) anchor
  | DoScrollBy distance => scroll_by s distance
  | DoScrollTo top => scroll_to s top
  | DoScrollToEnd => Ok (scroll_to_end s)
  | DoReveal ix => scroll_to_reveal_item s ix
  | DoFollow mode => Ok (set_follow_mode s mode)
  | DoDragStart => Ok (scrollbar_drag_started s)
  | DoDragEnd => Ok (scrollbar_drag_ended s)
  | DoScrollbar p => set_offset_from_scrollbar s p
  | DoScroll top h delta => '(s, _) ← scroll s top h delta; Ok s
  | DoMeasureAll => Ok (measure_all s)
  | DoSetHandler => Ok (set_scroll_handler s)
  end.
(** What the caller must see to: ranges that are not reversed, and lengths that are not negative. *)
Definition list_op_pre s (op : list_op) : Prop :=
  match op with
  | DoSplice i j _ => i ≤ j
  | DoUniform h => (0 <= h)%Qc
  | DoRemeasure i j _ => i ≤ j ∧ slice_fits s i j
  | DoScrollTo top => (0 <= offset_in_item top)%Qc
  | DoScroll top h _ => (0 <= offset_in_item top)%Qc ∧ (0 <= h)%Qc
  | _ => True
  end.

Lemma clear_top_ok s' : list_ok s' → list_ok (with_top (with_pending s' None) None).
Proof. intros []. by split. Qed.
Lemma end_top_ok s' : list_ok s' → list_ok (scroll_to_end s').
Proof.
  intros Hs'. unfold scroll_to_end. rewrite (content_count s' Hs'). split; try apply Hs'; simpl; [|done].
  intros top [= <-]. split; simpl; [lia|qc_lra].
Qed.

Lemma scroll_position_keeps s (b : bool) (p : Qc) :
  list_ok s →
  (0 <= p)%Qc →
  ∃ s', (if b then Ok (with_top (with_pending s None) None)
    else let top := offset_at (items s) p in
      self ← rebase_pending_scroll s top; Ok (with_top self (Some top))) = Ok s' ∧ list_ok s' ∧
    items s' = items s ∧ logical_top s' = (if b then None else Some (offset_at (items s) p)).
Proof.
  intros Hs Hp. destruct b; [eexists; split; [done|]; split; [by apply clear_top_ok|done]|].
  cbn zeta. rewrite rebase_ok by done. cbn [mbind outcome_bind]. eexists. split; [done|].
  split; [|done]. apply (scrolled_ok s (offset_at (items s) p) Hs).
  by eapply at_pixel_ok, offset_at_pixel.
Qed.

Section ops.
Context s (Hs : list_ok s).

Lemma splice_keeps i j (handles : list (option FocusHandle)) :
  i ≤ j → ∃ s', splice_focusable s (i, j) handles = Ok s' ∧ (SumTree.height (items s') < STACK_CAP → list_ok s').
Proof using Hs.
  intros Hij. destruct (splice_ok s i j handles Hs Hij) as (tr & -> & Hw & Hi).
  eexists. split; [done|]. intros Hh. apply with_items_ok; [done|done|done|..].
  - rewrite Hi. apply nonneg_pieces; [apply Hs|apply handles_nonneg].
  - intros top Ht. rewrite Hi. by eapply splice_top_ok.
Qed.

Lemma scroll_to_ok top :
  (0 <= offset_in_item top)%Qc →
  ∃ s', scroll_to s top = Ok s' ∧ list_ok s' ∧ items s' = items s ∧
    logical_top s' = Some (if decide (length (contents s) ≤ item_ix top) then mkOffset (length (contents s)) 0%Qc else top).
Proof using Hs.
  intros Ho. unfold scroll_to. rewrite (content_count s Hs). cbn zeta.
  set (top' := if decide (length (contents s) ≤ item_ix top) then mkOffset (length (contents s)) czero else top).
  assert (Ht : top_ok (contents s) top').
  { unfold top'. destruct (decide _); split; simpl; try lia; try done; qc_lra. }
  set (s1 := if decide (item_ix top' < length (contents s)) then _ else s).
  assert (list_ok s1 ∧ items s1 = items s) as [Hs1 Hi1].
  { unfold s1. destruct (decide (item_ix top' < length (contents s))); [|by split].
    split; [by apply with_follow_ok|done]. }
  rewrite rebase_ok by done. cbn [mbind outcome_bind]. eexists. split; [done|].
  split; [|by split]. apply (scrolled_ok s1 top' Hs1). by rewrite Hi1.
Qed.

Lemma scrollbar_ok (p : Point Qc) :
  ∃ s', set_offset_from_scrollbar s p = Ok s' ∧ list_ok s'.
Proof using Hs.
  unfold set_offset_from_scrollbar. destruct (last_layout_bounds s) as [b|]; [|by exists s]. cbn zeta.
  match goal with |- context [pmin (pmax (pneg (y p)) czero) ?m] => set (q := pmin (pmax (pneg (y p)) czero) m) end.
  assert (Hq : (0 <= q)%Qc).
  { unfold q, pmin. destruct (clt _ _); [apply pmax_ge|apply (pmax_ge (pneg (y p)))]. }
  assert (∀ bo : bool, ∃ s', (let self := with_follow s (stop_following (follow_state s)) in
      if bo then Ok (with_top (with_pending self None) None)
      else let scroll_top := offset_at (items self) q in
        self ← rebase_pending_scroll self scroll_top; Ok (with_top self (Some scroll_top))) = Ok s' ∧ list_ok s')
    as Hset.
  { intros bo. destruct (scroll_position_keeps (with_follow s (stop_following (follow_state s))) bo q (with_follow_ok s _ Hs) Hq) as (s' & ? & ? & _). by exists s'. }
  destruct (follow_state s) as [|b0].
  - apply Hset.
  - destruct (_ && _); [|apply Hset]. eexists. split; [done|].
    apply (end_top_ok (with_follow s (Tail true))). by apply with_follow_ok.
Qed.
End ops.

Lemma scroll_ok s top0 (h : Qc) (delta : Point Qc) :
  list_ok s → (0 <= offset_in_item top0)%Qc → (0 <= h)%Qc →
  ∃ s' event, scroll s top0 h delta = Ok (s', event) ∧ list_ok s' ∧ items s' = items s.
Proof.
  intros Hs Ho Hh. unfold scroll. destruct (was_reset s); [by exists s, None|]. cbn zeta.
  match goal with |- context [pmin (pmax ?a czero) ?m] => set (q := pmin (pmax a czero) m) end.
  assert (Hq : (0 <= q)%Qc).
  { unfold q, pmin. destruct (clt _ _); [apply pmax_ge|].
    apply (pmax_ge (csub (scroll_top s top0) (y delta))). }
  match goal with |- context [if ?b then Ok (with_top (with_pending s None) None) else _] =>
    destruct (scroll_position_keeps s b q Hs Hq) as (s1 & Hr & Hs1 & Hi & _) end.
  cbn zeta in Hr. rewrite Hr. cbn [mbind outcome_bind].
  match goal with |- context [if clt czero (y delta) then ?a else s1] =>
    set (s2 := if clt czero (y delta) then a else s1) end.
  assert (list_ok s2 ∧ items s2 = items s) as [Hs2 Hi2].
  { unfold s2. destruct (clt czero (y delta)); [split; [by apply with_follow_ok|done]|done]. }
  destruct (scroll_handler s2); [|by exists s2, None].
  destruct (visible_range_ok s2 top0 h Hs2 Ho Hh) as (j & -> & _). cbn [mbind outcome_bind].
  eexists s2, _. done.
Qed.

Section properties.

(** C31: no operation of a list panics, and each keeps the state consistent: the sum tree is well formed,
    the scroll position points at an item or at the end, and offsets and fractions are in range. The
    caller must not reverse ranges nor give negative lengths. *)
Theorem list_ops_safe s (op : list_op) :
  list_ok s → list_op_pre s op →
  ∃ s', apply_list_op s op = Ok s' ∧ (SumTree.height (items s') < STACK_CAP → list_ok s').
Proof.
  intros Hs Hpre. destruct op as [i j handles|n|h|i j anchor|d|top| |ix|mode| | |p|top h delta| |];
    cbn [apply_list_op list_op_pre] in *.
  - by apply splice_keeps.
  - unfold list_reset, splice. cbn zeta.
    match goal with |- context [splice_focusable ?x _ _] => set (s1 := x) end.
    assert (Hs1 : list_ok s1) by (destruct Hs; by split).
    apply (splice_keeps s1 Hs1). lia.
  - destruct (uniform_keeps s h Hs Hpre) as (s' & ? & ? & _). by exists s'.
  - destruct Hpre. by apply remeasure_keeps.
  - destruct (decide (d = 0%Qc)) as [->|Hd].
    + exists s. split; [|done]. unfold scroll_by. by destruct (peq_spec 0%Qc czero).
    + destruct (scroll_by_ok s d Hs Hd) as (top & -> & Ht). eexists. split; [done|]. intros _.
      pose proof (unfollowed_same s (clt d czero)) as (Hi & _).
      apply scrolled_ok; [by apply unfollowed_ok|]. rewrite Hi. by eapply at_pixel_ok.
  - destruct (scroll_to_ok s Hs top Hpre) as (s' & ? & ? & _). by exists s'.
  - eexists. split; [done|]. intros _. by apply end_top_ok.
  - destruct (reveal_ok s ix Hs) as (top & -> & Ht). eexists. split; [done|]. intros _.
    pose proof (logical_scroll_top_ok s Hs) as Ht0. apply scrolled_ok; [done|].
    destruct Ht as [[Hle ->]|[_ [[-> _]|[Ht _]]]]; [|done..]. destruct Ht0. split; simpl; [lia|qc_lra].
  - eexists. split; [done|]. intros _. destruct mode; simpl; [by apply with_follow_ok|].
    destruct Hs as [Hw Hn Ht Hp]. split; try done. intros top [= <-]. simpl.
    rewrite (proj1 (tree_summary _ (proj1 Hw))). split; simpl; [lia|qc_lra].
  - eexists. split; [done|]. intros _. destruct Hs. by split.
  - eexists. split; [done|]. intros _. destruct Hs. by split.
  - destruct (scrollbar_ok s Hs p) as (s' & ? & ?). by exists s'.
  - destruct Hpre as [Ho Hh]. destruct (scroll_ok s top h delta Hs Ho Hh) as (s' & e & -> & ? & _).
    by exists s'.
  - eexists. split; [done|]. intros _. destruct Hs. by split.
  - eexists. split; [done|]. intros _. destruct Hs. by split.
Qed.
Lemma list_ops_safe_witness :
  ∃ s', apply_list_op sample_scrolled (DoSplice 1 3 [None]) = Ok s' ∧ list_ok s'.
Proof.
  destruct (list_ops_safe sample_scrolled (DoSplice 1 3 [None])) as (s' & Hr & Hok);
    [apply sample_scrolled_ok|simpl; lia|].
  exists s'. split; [exact Hr|]. apply Hok. assert (of_outcome (apply_list_op sample_scrolled (DoSplice 1 3 [None])) = s') as <-
    by (by rewrite Hr). vm_compute. lia.
Defined.

(** After a splice the items are the old ones around the new ones, which are unmeasured, and the
    scroll position stays with its item: outside of the spliced range the item at the top is the same
    item at the same offset, inside of it the top is where the new items start. *)
Theorem splice_keeps_anchor s i j (handles : list (option FocusHandle)) :
  list_ok s → i ≤ j → i ≤ length (contents s) →
  ∃ s', splice_focusable s (i, j) handles = Ok s' ∧
    contents s' = take i (contents s) ++ map (Unmeasured None) handles ++ drop j (contents s) ∧
    match logical_top s, logical_top s' with
    | Some top, Some top' =>
        if range_contains (i, j) (item_ix top) then top' = mkOffset i 0%Qc
        else contents s' !! item_ix top' = contents s !! item_ix top ∧ offset_in_item top' = offset_in_item top
    | None, None => True
    | _, _ => False
    end.
Proof.
  intros Hs Hij Hin. destruct (splice_ok s i j handles Hs Hij) as (tr & -> & Hw & Hi).
  eexists. split; [done|]. cbn [items with_top with_items logical_top]. split; [done|].
  unfold splice_top. destruct (logical_top s) as [top|] eqn:E; [|done].
  destruct (ok_top s Hs top E) as [Hix _]. unfold range_contains. cbn [fst snd].
  set (l := contents s) in *. cbn [items with_top with_items]. rewrite Hi.
  destruct (Nat.leb_spec i (item_ix top)), (Nat.ltb_spec (item_ix top) j); simpl; [done|..];
    destruct (Nat.leb_spec j (item_ix top)); cbn [item_ix offset_in_item]; try lia; (split; [|done]).
  - rewrite lookup_app_r by (rewrite length_take; lia). rewrite length_take.
    rewrite lookup_app_r by (rewrite length_map; lia). rewrite length_map, lookup_drop. f_equal. lia.
  - rewrite lookup_app_l, lookup_take_lt by (rewrite ?length_take; lia). done.
Qed.
Lemma splice_keeps_anchor_witness :
  ∃ s', splice_focusable sample_scrolled (0, 1) [None; None; None] = Ok s' ∧ length (contents s') = 8 ∧
    ∃ top', logical_top s' = Some top' ∧ contents s' !! item_ix top' = contents sample_scrolled !! 2 ∧
      offset_in_item top' = px 5.
Proof.
  destruct sample_scrolled_ok as (Hs & Hc & _ & _ & Ht & _).
  destruct (splice_keeps_anchor sample_scrolled 0 1 [None; None; None] Hs) as (s' & Hr & Hi & Htop);
    [lia|rewrite Hc; simpl; lia|].
  exists s'. split; [exact Hr|]. split; [by rewrite Hi, Hc|]. rewrite Ht in Htop.
  destruct (logical_top s') as [top'|]; [|destruct Htop]. exists top'. split; [reflexivity|exact Htop].
Defined.

(** Scrolling by a distance moves the viewport by exactly that many pixels, stopping at the top of
    the content, and the new position is at the item that covers the pixel. The list scrolls as if the
    distances of two scrolls were added when the first stays below the top. *)
Theorem scroll_by_exact s (d e : Qc) :
  list_ok s → d ≠ 0%Qc → e ≠ 0%Qc → (d + e)%Qc ≠ 0%Qc →
  (0 <= pixel_of (contents s) (logical_scroll_top s) + d)%Qc →
  ∃ s1 s2 s12, scroll_by s d = Ok s1 ∧ scroll_by s1 e = Ok s2 ∧ scroll_by s (d + e)%Qc = Ok s12 ∧
    at_pixel (contents s1) (pixel_of (contents s) (logical_scroll_top s) + d)%Qc (logical_scroll_top s1) ∧
    logical_top s2 = logical_top s12 ∧ contents s1 = contents s.
Proof.
  intros Hs Hd He Hde Hpos. set (q := pixel_of (contents s) (logical_scroll_top s)) in *.
  destruct (scroll_by_ok s d Hs Hd) as (top1 & Hr1 & Ht1). fold q in Ht1.
  destruct (scroll_by_ok s (d + e)%Qc Hs Hde) as (top12 & Hr12 & Ht12). fold q in Ht12.
  pose proof (unfollowed_same s (clt d czero)) as (Hi & _).
  set (s1 := scrolled (unfollowed s (clt d czero)) top1) in *.
  assert (Hc1 : contents s1 = contents s) by (by rewrite <-Hi).
  assert (Hmax : pmax (q + d)%Qc 0%Qc = (q + d)%Qc).
  { unfold pmax. destruct (clt_spec 0%Qc (q + d)%Qc); [done|qc_lra]. }
  rewrite Hmax in Ht1.
  assert (Hs1 : list_ok s1).
  { apply scrolled_ok; [by apply unfollowed_ok|]. rewrite Hi. by eapply at_pixel_ok. }
  destruct (scroll_by_ok s1 e Hs1 He) as (top2 & Hr2 & Ht2).
  exists s1. eexists _, _. split; [done|]. split; [exact Hr2|]. split; [exact Hr12|].
  split; [by rewrite Hc1|]. split; [|done]. simpl. f_equal.
  change (logical_scroll_top s1) with top1 in Ht2. rewrite Hc1 in Ht2.
  rewrite (at_pixel_of _ _ _ Ht1) in Ht2.
  apply (at_pixel_unique (contents s) (pmax (q + (d + e))%Qc 0%Qc)); [apply Hs| |done].
  replace (q + (d + e))%Qc with (q + d + e)%Qc by qc_lra. done.
Qed.
Lemma scroll_by_exact_witness :
  ∃ s1 s2 s12, scroll_by sample_scrolled (px 30) = Ok s1 ∧ scroll_by s1 (px 20) = Ok s2 ∧
    scroll_by sample_scrolled (px 30 + px 20)%Qc = Ok s12 ∧ logical_top s2 = logical_top s12.
Proof.
  destruct sample_scrolled_ok as (Hs & Hc & _ & _ & Ht & _).
  destruct (scroll_by_exact sample_scrolled (px 30) (px 20) Hs) as (s1 & s2 & s12 & H1 & H2 & H12 & _ & Hl & _);
    [intros H; vm_compute in H; discriminate..| |].
  - unfold logical_scroll_top. rewrite Ht, Hc. by_length.
  - exists s1, s2, s12. split_and!; done.
Defined.

(** The largest position that the scrollbar can be dragged to. *)
Definition scrollbar_max s : Qc :=
  pmax (default (heights (contents s)) (scrollbar_drag_start_height s) + edge_top (padding_of s)
    + edge_bottom (padding_of s) - viewport_height s)%Qc 0%Qc.

(** The scrollbar reads back the offset that was set, clamped to the range of the content with its
    padding, whatever is being dragged. Only at the end of a list that is aligned to its bottom it
    reads the maximal offset instead, which does not count the padding. *)
Theorem scrollbar_roundtrip s (b : Bounds Qc) (p : Point Qc) :
  list_ok s → last_layout_bounds s = Some b → follow_state s = Normal →
  let q := pmin (pmax (- y p) 0)%Qc (scrollbar_max s) in
  ∃ s', set_offset_from_scrollbar s p = Ok s' ∧
    scroll_px_offset_for_scrollbar s' = Ok (point 0%Qc
      (if bool_decide (alignment s = AlignBottom) && peq q (scrollbar_max s)
       then - max_scroll_offset s else - q)%Qc).
Proof.
  intros Hs Hb Hf q. unfold set_offset_from_scrollbar. rewrite Hb, Hf. cbn zeta.
  rewrite (content_height s Hs).
  assert (Hmax : pmax (csub (cadd (cadd (default (heights (contents s)) (scrollbar_drag_start_height s))
      (edge_top (default edges_default (last_padding s)))) (edge_bottom (default edges_default (last_padding s))))
      (height (bsize b))) czero = scrollbar_max s).
  { unfold scrollbar_max, viewport_height. rewrite Hb. done. }
  rewrite Hmax. change (pmin (pmax (pneg (y p)) czero) (scrollbar_max s)) with q.
  assert (Hq : (0 <= q)%Qc).
  { unfold q, pmin. destruct (clt _ _); [apply pmax_ge|apply (pmax_ge (- y p)%Qc)]. }
  assert (Hs0 : list_ok (with_follow s (stop_following Normal))) by by apply with_follow_ok.
  destruct (scroll_position_keeps _ (bool_decide (alignment s = AlignBottom) && peq q (scrollbar_max s)) q Hs0 Hq)
    as (s' & Hr & Hs' & Hi & Ht).
  change (alignment (with_follow s (stop_following Normal))) with (alignment s).
  assert (∃ s'', s'' = s' ∧ items s'' = items s) as (s'' & -> & Hi') by (by exists s').
  exists s'. split; [exact Hr|].
  destruct (bool_decide (alignment s = AlignBottom) && peq q (scrollbar_max s)) eqn:E.
  - injection Hr as <-. apply andb_true_iff in E as [Ha%bool_decide_eq_true _].
    unfold scroll_px_offset_for_scrollbar. simpl. by rewrite Ha.
  - rewrite (px_offset_ok s' _ Hs' Ht), Hi'. do 3 f_equal.
    apply at_pixel_of. by apply (offset_at_pixel _ Hs0).
Qed.
Lemma scrollbar_roundtrip_witness :
  ∃ s', set_offset_from_scrollbar sample_measured (point (px 0) (px (-30))) = Ok s' ∧
    scroll_px_offset_for_scrollbar s' =
      Ok (point 0%Qc (- pmin (pmax (- px (-30)) 0) (scrollbar_max sample_measured))%Qc).
Proof.
  destruct sample_measured_ok as (Hs & _ & Hb & _ & _ & Hf & _ & Ha & _).
  destruct (scrollbar_roundtrip sample_measured sample_view (point (px 0) (px (-30))) Hs Hb Hf) as (s' & Hr & Hp).
  exists s'. split; [exact Hr|]. rewrite Hp. by rewrite Ha.
Defined.

(** After [scroll_to_reveal_item] the item is in the viewport, between the paddings, if it fits
    there: an item above the scroll top is aligned with the top, one below is moved up just as far as
    needed, and nothing moves when it can be seen already. *)
Theorem reveal_item_visible s (ix : nat) :
  list_ok s → ix < length (contents s) →
  (0 <= edge_top (padding_of s))%Qc →
  (pixel_of (contents s) (logical_scroll_top s) <= heights (take (S (item_ix (logical_scroll_top s))) (contents s)))%Qc →
  (edge_top (padding_of s) + (heights (take (S ix) (contents s)) - heights (take ix (contents s)))
    + edge_bottom (padding_of s) <= viewport_height s)%Qc →
  ∃ s', scroll_to_reveal_item s ix = Ok s' ∧ contents s' = contents s ∧
    let y := (edge_top (padding_of s) - pixel_of (contents s) (logical_scroll_top s'))%Qc in
    (0 <= y + heights (take ix (contents s)))%Qc ∧
    (y + heights (take (S ix) (contents s)) <= viewport_height s - edge_bottom (padding_of s))%Qc.
Proof.
  intros Hs Hix Hpt Hin Hfit. destruct (reveal_ok s ix Hs) as (top & -> & Ht). eexists. split; [done|].
  split; [done|]. rewrite top_scrolled. cbn zeta. set (l := contents s) in *.
  pose proof (heights_mono l ix (S ix) (ok_heights s Hs)) as Hm.
  destruct Ht as [[_ ->]|[Hlt [[-> Hge]|[_ Hp]]]].
  - unfold pixel_of. cbn [item_ix offset_in_item]. split; qc_lra.
  - pose proof (heights_mono l (S (item_ix (logical_scroll_top s))) ix (ok_heights s Hs) Hlt).
    pose proof (proj2 (pmax_ge 0%Qc (heights (take (S ix) l) + edge_top (padding_of s) - viewport_height s
      + edge_bottom (padding_of s))%Qc)) as Hg. fold l in Hg. change (pmax _ _) with (goal_top s ix) in Hg.
    split; qc_lra.
  - pose proof (proj2 (pmax_ge 0%Qc (heights (take (S ix) l) + edge_top (padding_of s) - viewport_height s
      + edge_bottom (padding_of s))%Qc)) as Hg. change (pmax _ _) with (goal_top s ix) in Hg.
    rewrite Hp. split; [|qc_lra]. unfold goal_top. fold l. unfold pmax.
    destruct (clt_spec (heights (take (S ix) l) + edge_top (padding_of s) - viewport_height s
      + edge_bottom (padding_of s))%Qc 0%Qc).
    + assert (0 <= heights (take ix l))%Qc by apply heights_nonneg, Forall_take, Hs. qc_lra.
    + qc_lra.
Qed.
Lemma reveal_item_visible_witness :
  ∃ s', scroll_to_reveal_item sample_scrolled 5 = Ok s' ∧ contents s' = contents sample_scrolled ∧
    (0 <= edge_top (padding_of sample_scrolled) - pixel_of (contents sample_scrolled) (logical_scroll_top s')
      + heights (take 5 (contents sample_scrolled)))%Qc.
Proof.
  destruct sample_scrolled_ok as (Hs & Hc & Hb & Hp & Ht & _).
  destruct (reveal_item_visible sample_scrolled 5 Hs) as (s' & Hr & Hi & Hlow & _).
  - rewrite Hc. simpl. lia.
  - unfold padding_of. rewrite Hp. by_length.
  - unfold logical_scroll_top. rewrite Ht, Hc. by_length.
  - unfold padding_of, viewport_height. rewrite Hp, Hb, Hc. by_length.
  - exists s'. split_and!; done.
Defined.

(** Once the list is laid out, the queries about a measured item are exact: it is above the viewport
    when its bottom is at or above the scroll position, below it when its top is at or below the
    bottom of the viewport. They do not count the padding at the top. *)
Theorem viewport_queries s (b : Bounds Qc) (ix : nat) (sz : Size Qc) (f : option FocusHandle) :
  list_ok s → last_layout_bounds s = Some b → (0 < height (bsize b))%Qc →
  contents s !! ix = Some (Measured sz f) →
  let p := pixel_of (contents s) (logical_scroll_top s) in
  item_is_above_viewport s ix = Ok (Some (cle (heights (take (S ix) (contents s))) p)) ∧
  item_is_below_viewport s ix = Ok (Some (cle (p + height (bsize b))%Qc (heights (take ix (contents s))))).
Proof.
  intros Hs Hb Hv Hix p. unfold item_is_above_viewport, item_is_below_viewport. rewrite Hb.
  set (l := contents s) in *. set (top := logical_scroll_top s) in *.
  pose proof (logical_scroll_top_ok s Hs) as [Hti Hto]. fold top in Hti, Hto.
  assert (HS : heights (take (S ix) l) = (heights (take ix l) + height sz)%Qc).
  { rewrite (take_S_r _ _ _ Hix), heights_app. cbn [heights].
    change (item_height (Measured ?a ?b)) with (height a). qc_lra. }
  destruct (decide (ix < item_ix top)) as [Hlt|Hge].
  - pose proof (heights_mono l (S ix) (item_ix top) (ok_heights s Hs) Hlt) as Hm1.
    pose proof (heights_mono l ix (item_ix top) (ok_heights s Hs) (Nat.lt_le_incl _ _ Hlt)) as Hm2.
    unfold p, pixel_of. rewrite cle_yes by qc_lra. rewrite cle_no by qc_lra. done.
  - rewrite (bounds_for_item_ok s ix Hs) by (fold top; lia). fold l top. rewrite Hix. cbn zeta.
    cbn [mbind outcome_bind option_map].
    unfold viewport_bounds. rewrite Hb. cbn [default from_option id]. fold p.
    unfold Geometry.bottom, Geometry.top, from_corners. cbn [origin bsize y height].
    cbn [cadd csub Qc_coord]. split; do 2 f_equal; apply eq_true_iff_eq.
    + destruct (cle_spec (y (origin b) + (heights (take ix l) - p) +
        (y (origin b) + (heights (take ix l) - p) + height sz - (y (origin b) + (heights (take ix l) - p))))%Qc (y (origin b))),
        (cle_spec (heights (take (S ix) l)) p); split; try done; exfalso; qc_lra.
    + destruct (cle_spec (y (origin b) + height (bsize b))%Qc (y (origin b) + (heights (take ix l) - p))%Qc),
        (cle_spec (p + height (bsize b))%Qc (heights (take ix l))); split; try done; exfalso; qc_lra.
Qed.
Lemma viewport_queries_witness :
  item_is_above_viewport sample_scrolled 1 = Ok (Some true) ∧ item_is_below_viewport sample_scrolled 3 = Ok (Some false).
Proof.
  destruct sample_scrolled_ok as (Hs & Hc & Hb & _ & Ht & _).
  assert (Hv : (0 < height (bsize sample_view))%Qc) by by_length.
  assert (Hi : ∀ i, i < 6 → contents sample_scrolled !! i = Some (Measured (size (px 100) (px 20)) None)).
  { intros i Hi. rewrite Hc. do 6 (destruct i as [|i]; [reflexivity|]). lia. }
  destruct (viewport_queries sample_scrolled sample_view 1 _ _ Hs Hb Hv (Hi 1 ltac:(lia))) as [-> _].
  destruct (viewport_queries sample_scrolled sample_view 3 _ _ Hs Hb Hv (Hi 3 ltac:(lia))) as [_ ->].
  unfold logical_scroll_top. rewrite Ht, Hc. split; vm_compute; reflexivity.
Defined.
End properties.

(** ** Behaviour that a caller may not expect *)

(** A splice of the item at the scroll top leaves the pending scroll of the item that it replaced. *)
Example splice_keeps_pending :
  match splice_focusable sample_remeasured (2, 3) [None] with
  | Ok s =>
      match logical_top s, pending_scroll s with
      | Some top, Some (PendingProportional i _) => (item_ix top =? 2) && (i =? 2) && peq (offset_in_item top) (px 0)
      | _, _ => false
      end
  | _ => false
  end = true.
Proof. vm_compute. reflexivity. Qed.

(** The range in a scroll event is the one before the event: scrolling from the third item to the last ones
    reports the items that could be seen before. *)
Example event_range_is_old :
  match scroll (set_scroll_handler sample_scrolled) sample_top (px 50) (point (px 0) (px (-60))) with
  | Ok (s, Some event) =>
      match logical_top s with
      | Some top => (item_ix top =? 3) && bool_decide (event_visible_range event = (2, 5))
      | None => false
      end
  | _ => false
  end = true.
Proof. vm_compute. reflexivity. Qed.
