(* ===== verification/ListLayoutTheorems.v ===== *)
(** What the layout of a list promises: it covers the viewport, measures what it shows and leaves the rest
    alone, keeps the scroll position across remeasurements, and keeps the focused item alive. *)
From Stdlib Require Import QArith Qcanon.
From S2P Require Import Prelude SumTree SumTreeFacts Seek Cursor CursorFacts CursorMoves CursorOps TabStops Geometry Pixels ListState ListOps ListFacts ListOpsFacts ListLayout ListLayoutFacts ListLayoutSpec ListLayoutOk ListSamples.
Import ListState.
Local Open Scope Qc_scope.
Local Open Scope nat_scope.

Implicit Types s : ListState.t Qc.
Implicit Types top : ListOffset Qc.

Section layout.
Variables (measure : option Qc → nat → Size Qc) (contains_focused : FocusHandle → bool) (w : option Qc).
Notation layout s available padding := (layout_items measure contains_focused s w available padding).
Notation pre s available padding := (layout_pre measure contains_focused w s available padding).

Lemma layout_ok s available padding :
  pre s available padding →
  ∃ s' p k m a M,
    layout s available padding
      = Ok (s', mkResponse (pass_width p) (pass_top p) (laid measure w k m ++ kept_alive measure contains_focused w s' p)) ∧
    laid_out measure contains_focused w s available padding s' p k m a M ∧ list_ok s'.
Proof. intros [Hs Hm Ho Ht Hb Ha Hf]. by apply layout_items_ok. Qed.

Notation has_focus it := (item_contains_focused contains_focused it = true).

(** Measuring leaves the focus handles alone. *)
Lemma laid_out_focus s available padding s' p k m a M :
  laid_out measure contains_focused w s available padding s' p k m a M →
  item_contains_focused contains_focused <$> contents s' = item_contains_focused contains_focused <$> contents s.
Proof.
  intros Hl. destruct (lo_range _ _ _ _ _ _ _ _ _ _ _ _ Hl) as (H1 & H2 & H3).
  apply list_eq. intros i. rewrite !list_lookup_fmap.
  rewrite (lo_contents _ _ _ _ _ _ _ _ _ _ _ _ Hl), replace_range by done. destruct (decide _) as [[Hi1 Hi2]|_]; [|done].
  destruct (lookup_lt_is_Some_2 M (i - a)) as [it' Hit']; [lia|].
  destruct (lo_measures _ _ _ _ _ _ _ _ _ _ _ _ Hl _ _ Hit') as (it & sz & Hit & -> & _).
  replace (a + (i - a)) with i in Hit by lia. by rewrite Hit', Hit.
Qed.
Lemma first_focused_find (l l' : list (ListItem Qc)) i :
  item_contains_focused contains_focused <$> l' = item_contains_focused contains_focused <$> l →
  first_focused contains_focused i l' = (λ x, i + x.1) <$> list_find (λ it, has_focus it) l.
Proof.
  revert l' i. induction l as [|it l IH]; intros [|it' l'] i; [done..|]. intros [= He Hl]. cbn [first_focused list_find].
  rewrite He. destruct (item_contains_focused contains_focused it) eqn:E.
  - rewrite decide_True by done. simpl. by rewrite Nat.add_0_r.
  - rewrite decide_False by congruence. rewrite (IH l') by done. destruct (list_find _ l) as [[j x]|]; simpl; [f_equal; lia|done].
Qed.

(** The item that is laid out besides those of the viewport, from [k] on: the first one of the list that has the focus, if
    none in the viewport has. *)
Definition focused_elsewhere (its : list (ListItem Qc)) (k m : nat) : list (ItemLayout Qc) :=
  if decide (Exists (λ it, has_focus it) (take m (drop k its))) then []
  else match list_find (λ it, has_focus it) its with Some (i, _) => [mkItemLayout i (measure w i)] | None => [] end.
Lemma kept_alive_elsewhere s available padding s' p k m a M :
  laid_out measure contains_focused w s available padding s' p k m a M →
  kept_alive measure contains_focused w s' p = focused_elsewhere (contents s) k m.
Proof.
  intros Hl. unfold kept_alive, focused_elsewhere. rewrite (lo_focused _ _ _ _ _ _ _ _ _ _ _ _ Hl).
  rewrite (first_focused_find _ _ _ (laid_out_focus _ _ _ _ _ _ _ _ _ Hl)).
  destruct (existsb _ _) eqn:E; case_decide as Hd; try done.
  - exfalso. apply Hd. apply existsb_exists in E as (it & Hin%list_elem_of_In & Hf). apply Exists_exists. by exists it.
  - exfalso. apply Exists_exists in Hd as (it & Hin%list_elem_of_In & Hf).
    assert (existsb (item_contains_focused contains_focused) (take m (drop k (contents s))) = true) by (apply existsb_exists; eauto).
    congruence.
  - by destruct (list_find _ _) as [[i it]|].
Qed.
Lemma focused_elsewhere_length its k m : length (focused_elsewhere its k m) ≤ 1.
Proof. unfold focused_elsewhere. case_decide; [simpl; lia|]. destruct (list_find _ _) as [[]|]; simpl; lia. Qed.

(** C12: the layout covers the viewport, when the viewport is higher than the top padding and no length is negative. The
    items that it returns to be painted are consecutive from the scroll position on, each once and in order, at the size that
    rendering gives; behind them comes one more item exactly if some item of the list has the focus and none of these has:
    the first item that has it. They reach the bottom of the viewport or the end of the list; a blank is left below
    the last item only when the first one is shown; and none is left above the first item, except in
    a list that is aligned to its bottom and too short. A list that follows its tail shows the end. *)
Theorem layout_covers_viewport s available padding :
  pre s available padding →
  ∃ s' r m, layout s available padding = Ok (s', r) ∧
    let top := response_scroll_top r in
    let k := item_ix top in
    item_layouts r = map (λ i, mkItemLayout i (measure w i)) (seq k m) ++ focused_elsewhere (contents s) k m ∧
    k + m ≤ length (contents s) ∧
    let bottom := (edge_top padding + extent measure w k m - offset_in_item top)%Qc in
    (k + m = length (contents s) ∨ (available <= bottom)%Qc) ∧
    (k + m = length (contents s) → k = 0 ∨ (available <= bottom + edge_bottom padding)%Qc) ∧
    ((0 <= offset_in_item top)%Qc ∨ (alignment s = AlignBottom ∧ k = 0)) ∧
    (is_following (follow_state s) = true → k + m = length (contents s)).
Proof.
  intros Hpre. destruct (layout_ok s available padding Hpre) as (s' & p & k & m & a & M & Hr & Hl & _).
  eexists s', _, m. split; [exact Hr|]. cbn zeta. cbn [response_scroll_top item_layouts].
  rewrite (lo_top _ _ _ _ _ _ _ _ _ _ _ _ Hl), (kept_alive_elsewhere _ _ _ _ _ _ _ _ _ Hl). split; [done|].
  destruct (lo_range _ _ _ _ _ _ _ _ _ _ _ _ Hl) as (H1 & H2 & H3). split; [lia|].
  split; [apply (lo_below _ _ _ _ _ _ _ _ _ _ _ _ Hl)|].
  split. { intros He. destruct (lo_end_below _ _ _ _ _ _ _ _ _ _ _ _ Hl He) as [?|Hb]; [by left|right]. qc_lra. }
  split; [destruct (lo_offset _ _ _ _ _ _ _ _ _ _ _ _ Hl) as [?|(_ & ? & ?)]; auto|].
  apply (lo_follow _ _ _ _ _ _ _ _ _ _ _ _ Hl).
Qed.

(** The layout changes no item but by measuring it: the list keeps its length, every item keeps its
    focus handle, an item that is painted has the size that it was painted with, and an item that
    changes has either the size it had or the one that rendering it gives. The state stays consistent. *)
Theorem layout_measures_items s available padding :
  pre s available padding →
  ∃ s' r, layout s available padding = Ok (s', r) ∧ list_ok s' ∧
    length (contents s') = length (contents s) ∧
    (∀ i it', contents s' !! i = Some it' → ∃ it, contents s !! i = Some it ∧
      item_focus_handle it' = item_focus_handle it ∧
      (it' = it ∨ measured_size it' = measured_size it ∨ measured_size it' = Some (measure w i))) ∧
    (∀ i sz, mkItemLayout i sz ∈ item_layouts r → sz = measure w i ∧ i < length (contents s)) ∧
    (∀ i, item_ix (response_scroll_top r) ≤ i →
      i < item_ix (response_scroll_top r) + length (item_layouts r) - 1 →
      ∃ it, contents s' !! i = Some it ∧ measured_size it = Some (measure w i)).
Proof.
  intros Hpre. destruct (layout_ok s available padding Hpre) as (s' & p & k & m & a & M & Hr & Hl & Hok).
  destruct (lo_range _ _ _ _ _ _ _ _ _ _ _ _ Hl) as (H1 & H2 & H3).
  pose proof (lo_contents _ _ _ _ _ _ _ _ _ _ _ _ Hl) as Hc.
  eexists s', _. split; [exact Hr|]. split; [done|]. cbn [item_layouts response_scroll_top].
  assert (Hlen : length (contents s') = length (contents s)).
  { rewrite Hc, !length_app, length_take, length_drop. lia. }
  split; [done|]. split; [|split].
  - intros i it'. rewrite Hc, replace_range by done. destruct (decide _) as [[Hi1 Hi2]|_].
    + intros Hit. destruct (lo_measures _ _ _ _ _ _ _ _ _ _ _ _ Hl _ _ Hit) as (it & sz & Hl1 & -> & Hsz).
      replace (a + (i - a)) with i in * by lia. exists it. split; [done|]. split; [done|]. right.
      destruct Hsz as [->|Hsz]; [by right|left]. by rewrite Hsz.
    + intros Hit. exists it'. auto.
  - intros i sz [Hin|Hin]%elem_of_app.
    + apply list_elem_of_fmap in Hin as (j & [= -> ->] & Hj). apply elem_of_seq in Hj. split; [done|lia].
    + unfold kept_alive in Hin. destruct (rendered_focused_item p); [by apply elem_of_nil in Hin|].
      pose proof (first_focused_spec contains_focused 0 (contents s')) as Hff.
      destruct (first_focused _ _ _) as [j|]; [|by apply elem_of_nil in Hin].
      apply list_elem_of_singleton in Hin as [= -> ->]. split; [done|].
      destruct Hff as (it & _ & Hit & _). rewrite Nat.sub_0_r in Hit. apply lookup_lt_Some in Hit. lia.
  - rewrite (lo_top _ _ _ _ _ _ _ _ _ _ _ _ Hl). intros i Hi1 Hi2.
    pose proof (focused_elsewhere_length (contents s) k m) as Hone.
    rewrite <-(kept_alive_elsewhere _ _ _ _ _ _ _ _ _ Hl) in Hone.
    unfold laid in Hi2. rewrite length_app, length_map, length_seq in Hi2.
    destruct (lo_sizes _ _ _ _ _ _ _ _ _ _ _ _ Hl i Hi1) as [f Hf]; [lia|].
    eexists. split; [exact Hf|done].
Qed.

(** An item with the focus is always among the elements of the frame, so that the keyboard keeps
    working in it when it is scrolled out of view. *)
Theorem layout_keeps_focus s available padding :
  pre s available padding →
  (∃ it, it ∈ contents s ∧ item_contains_focused contains_focused it = true) →
  ∃ s' r i it, layout s available padding = Ok (s', r) ∧ mkItemLayout i (measure w i) ∈ item_layouts r ∧
    contents s' !! i = Some it ∧ item_contains_focused contains_focused it = true.
Proof.
  intros Hpre (it & Hit & Hfoc).
  destruct (layout_ok s available padding Hpre) as (s' & p & k & m & a & M & Hr & Hl & _).
  destruct (lo_range _ _ _ _ _ _ _ _ _ _ _ _ Hl) as (H1 & H2 & H3).
  pose proof (lo_contents _ _ _ _ _ _ _ _ _ _ _ _ Hl) as Hc.
  assert (Hkeep : ∀ i it, contents s !! i = Some it → ∃ it', contents s' !! i = Some it' ∧
      item_focus_handle it' = item_focus_handle it).
  { intros i it0 Hi. rewrite Hc, replace_range by done. destruct (decide _) as [[Hi1 Hi2]|_]; [|by exists it0].
    destruct (lookup_lt_is_Some_2 M (i - a)) as [it' Hit']; [lia|].
    destruct (lo_measures _ _ _ _ _ _ _ _ _ _ _ _ Hl _ _ Hit') as (it1 & sz & Hl1 & -> & _).
    replace (a + (i - a)) with i in Hl1 by lia. eexists. split; [done|]. simpl. congruence. }
  assert (Hf : ∀ it1 it2 : ListItem Qc, item_focus_handle it1 = item_focus_handle it2 →
      item_contains_focused contains_focused it1 = item_contains_focused contains_focused it2).
  { intros it1 it2 He. unfold item_contains_focused. by rewrite He. }
  destruct (rendered_focused_item p) eqn:Hrf.
  - rewrite (lo_focused _ _ _ _ _ _ _ _ _ _ _ _ Hl) in Hrf. apply existsb_exists in Hrf as (it0 & Hin & Hf0).
    apply list_elem_of_In, list_elem_of_lookup_1 in Hin as [j Hj]. apply lookup_take_Some in Hj as [Hj Hjm].
    rewrite lookup_drop in Hj. destruct (Hkeep _ _ Hj) as (it' & Hit' & He).
    eexists s', _, (k + j), it'. split; [exact Hr|]. split; [|split; [done|by rewrite (Hf _ _ He)]].
    cbn [item_layouts]. apply elem_of_app. left. apply list_elem_of_fmap. exists (k + j). split; [done|].
    apply elem_of_seq. lia.
  - pose proof (first_focused_spec contains_focused 0 (contents s')) as Hff.
    destruct (first_focused contains_focused 0 (contents s')) as [j|] eqn:Ej.
    + destruct Hff as (it0 & _ & Hit0 & Hf0). rewrite Nat.sub_0_r in Hit0.
      eexists s', _, j, it0. split; [exact Hr|]. split; [|done]. cbn [item_layouts]. apply elem_of_app. right.
      unfold kept_alive. rewrite Hrf, Ej. by left.
    + exfalso. apply list_elem_of_lookup_1 in Hit as [i Hi]. destruct (Hkeep _ _ Hi) as (it' & Hit' & He).
      rewrite Forall_forall in Hff. specialize (Hff it' (list_elem_of_lookup_2 _ _ _ Hit')).
      rewrite (Hf _ _ He) in Hff. congruence.
Qed.

(** A remeasurement of the item at the scroll top does not move it, up to its new height: with an absolute
    anchor the same pixels of it stay above the viewport, with a proportional one the same
    fraction, unless the rest of the list no longer fills the viewport. *)
Theorem remeasure_keeps_scroll s i j (anchor : ScrollAnchor) top (sz : Size Qc) (f : option FocusHandle)
    s1 available padding :
  list_ok s → i ≤ j → slice_fits s i j →
  logical_top s = Some top → i ≤ item_ix top → item_ix top < j →
  contents s !! item_ix top = Some (Measured sz f) → (0 < height sz)%Qc →
  (offset_in_item top <= height sz)%Qc → is_following (follow_state s) = false →
  remeasure_items_with_scroll_anchor s (i, j) anchor = Ok s1 → pre s1 available padding →
  ∃ s' r, layout s1 available padding = Ok (s', r) ∧
    let new := height (measure w (item_ix top)) in
    let offset :=
      match anchor with
      | AnchorAbsolute => pmin (offset_in_item top) new
      | AnchorProportional => (offset_in_item top / height sz * new)%Qc
      end in
    (response_scroll_top r = mkOffset (item_ix top) offset ∧ logical_top s' = Some (response_scroll_top r)) ∨
    (edge_top padding + extent measure w (item_ix top) (length (contents s) - item_ix top)
      + edge_bottom padding - offset < available)%Qc.
Proof.
  intros Hs Hij Hfit Htop Hi Hj Hit Hsz Ho Hfol Hrem Hpre.
  destruct (remeasure_ok s i j anchor Hs Hij Hfit) as (tr & pending & Hr1 & Hst & _ & _ & Hitems).
  rewrite Hrem in Hr1. injection Hr1 as ->.
  destruct (stash_ok s (i, j) anchor Hs) as (pending' & Hst' & _ & Hpend). assert (pending' = pending) as -> by congruence.
  rewrite Htop in Hpend. unfold range_contains in Hpend. cbn [fst snd] in Hpend.
  rewrite (proj2 (Nat.leb_le _ _) Hi), (proj2 (Nat.ltb_lt _ _) Hj) in Hpend. simpl andb in Hpend. cbv iota in Hpend.
  destruct (remeasured_heights (contents s) i j Hij (ok_heights s Hs)) as (_ & Hlen & _).
  match goal with Hp : layout_pre _ _ _ ?x _ _ |- _ => set (s1 := x) in * end.
  assert (Hlen1 : length (contents s1) = length (contents s)) by (change (contents s1) with (tree_items tr); by rewrite Hitems).
  pose proof (lookup_lt_Some _ _ _ Hit) as Hlt.
  assert (Hst1 : start_top s1 = top).
  { unfold start_top. change (follow_state s1) with (follow_state s). rewrite Hfol. unfold logical_scroll_top.
    change (logical_top s1) with (logical_top s). by rewrite Htop. }
  set (offset := match anchor with
    | AnchorAbsolute => pmin (offset_in_item top) (height (measure w (item_ix top)))
    | AnchorProportional => (offset_in_item top / height sz * height (measure w (item_ix top)))%Qc
    end).
  assert (Hres : resumed pending top (measure w (item_ix top)) = mkOffset (item_ix top) offset ∧
    resumes pending (item_ix top) = true).
  { rewrite Hpend. unfold resumed, offset. destruct anchor.
    - unfold resumes. by rewrite bool_decide_eq_true_2.
    - rewrite Hit. simpl option_bind. cbn [mbind option_bind measured_size]. unfold resumes.
      rewrite bool_decide_eq_true_2 by done. split; [|done]. f_equal.
      rewrite clt_yes by done. unfold fraction_of, clamp01. cbn [pdiv Qc_pixel_ops].
      destruct (div_range (offset_in_item top) (height sz) Hsz) as [Hd0 Hd1]; [apply (ok_top s Hs _ Htop)|done|].
      rewrite (clt_no (offset_in_item top / height sz)%Qc czero) by done. by rewrite (clt_no pone). }
  assert (Hoff : start_offset measure w s1 = offset).
  { unfold start_offset. rewrite Hst1, Hlen1, decide_True by done. change (pending_scroll s1) with pending.
    by rewrite (proj1 Hres). }
  destruct (layout_ok s1 available padding Hpre) as (s' & p & k & m & a & M & Hr & Hl & _).
  eexists s', _. split; [exact Hr|]. cbn zeta. fold offset. cbn [response_scroll_top].
  destruct (lo_state _ _ _ _ _ _ _ _ _ _ _ _ Hl) as (fo & -> & _). cbn [logical_top with_follow with_items with_top].
  pose proof (lo_kept _ _ _ _ _ _ _ _ _ _ _ _ Hl) as Hk. rewrite Hoff, Hst1, Hlen1 in Hk.
  destruct Hk as [[Hpt Hlg]|Hshort]; [left|by right]. split; [done|].
  destruct Hlg as [->|[-> ->]]; [done|]. unfold start_logical. change (follow_state s1) with (follow_state s).
  by rewrite Hfol.
Qed.
End layout.

Lemma layout_covers_viewport_witness :
  ∃ s' r m, layout_items sample_measure focuses_sample sample_focused (Some (px 100)) (px 50) sample_padding = Ok (s', r) ∧
    item_layouts r = map (λ i, mkItemLayout i (sample_measure (Some (px 100)) i)) (seq (item_ix (response_scroll_top r)) m) ++
      focused_elsewhere sample_measure focuses_sample (Some (px 100)) (contents sample_focused) (item_ix (response_scroll_top r)) m.
Proof.
  destruct (layout_covers_viewport _ _ _ _ _ _ sample_focused_pre) as (s' & r & m & Hr & Hl & _).
  exists s', r, m. split; [exact Hr|exact Hl].
Defined.

Lemma layout_measures_items_witness :
  ∃ s' r, layout_items sample_measure (λ _, false) sample_scrolled (Some (px 100)) (px 50) sample_padding = Ok (s', r) ∧
    list_ok s' ∧ length (contents s') = 6.
Proof.
  destruct (layout_measures_items _ _ _ _ _ _ sample_scrolled_pre) as (s' & r & Hr & Hok & Hl & _).
  exists s', r. split; [exact Hr|]. split; [exact Hok|].
  destruct sample_scrolled_ok as (_ & Hc & _). by rewrite Hl, Hc.
Defined.

Lemma layout_keeps_focus_witness :
  ∃ s' r i it, layout_items sample_measure focuses_sample sample_focused (Some (px 100)) (px 50) sample_padding = Ok (s', r) ∧
    mkItemLayout i (sample_measure (Some (px 100)) i) ∈ item_layouts r ∧
    contents s' !! i = Some it ∧ item_contains_focused focuses_sample it = true.
Proof.
  apply (layout_keeps_focus _ _ _ _ _ _ sample_focused_pre).
  exists (Unmeasured None (Some sample_handle)). split; [apply sample_focused_ok|reflexivity].
Defined.

Lemma remeasure_keeps_scroll_witness :
  ∃ s' r, layout_items sample_measure (λ _, false) sample_remeasured (Some (px 100)) (px 50) sample_padding = Ok (s', r) ∧
    response_scroll_top r = mkOffset 2 (px 5 / px 20 * px 20)%Qc ∧ logical_top s' = Some (response_scroll_top r).
Proof.
  destruct sample_scrolled_ok as (Hs & Hc & _ & _ & Ht & Hf). destruct sample_remeasured_ok as [Hr Hp].
  destruct (remeasure_keeps_scroll sample_measure (λ _, false) (Some (px 100)) sample_scrolled 2 3 AnchorProportional sample_top (size (px 100) (px 20)) None
    sample_remeasured (px 50) sample_padding Hs) as (s' & r & Hl & [Hres|Hshort]);
    [lia|exact sample_slice_fits|exact Ht|simpl; lia|simpl; lia|rewrite Hc; reflexivity|by_length|by_length|
     by rewrite Hf|exact Hr|exact Hp| |].
  - exists s', r. split; [exact Hl|exact Hres].
  - exfalso. rewrite Hc in Hshort. revert Hshort. by_length.
Defined.

(** ** Prepaint *)

Section prepaint.
Variables (measure : option Qc → nat → Size Qc) (contains_focused : FocusHandle → bool).
Variable prepaint_at : ItemLayout Qc → Point Qc → option (Bounds Qc).
Implicit Types c : Cursor (ListItemSummary Qc) (ListItem Qc) Count.

Lemma autoscroll_up_ok (tr : list_tree) (available_width : Qc) fuel c k (offset : Qc) :
  walkable () tr → at_count tr c k → k < fuel →
  ∃ top, autoscroll_up measure available_width fuel c k offset = Ok top ∧
    item_ix top ≤ k ∧ (0 <= offset_in_item top)%Qc.
Proof.
  intros Hw. revert c k offset. induction fuel as [|fuel IH]; intros c k offset Hc Hf; [lia|]. cbn [autoscroll_up].
  destruct (clt_spec offset czero) as [Hlt|Hge]; [|by eexists; split_and!].
  destruct k as [|k].
  - destruct (prev_at_zero tr Hw c Hc) as (c' & -> & Hi & _). cbn [mbind outcome_bind]. rewrite Hi.
    cbn [mbind outcome_bind]. eexists. split; [done|]. split; [done|]. simpl. qc_lra.
  - destruct (prev_at_count tr Hw c k Hc) as (c' & it & -> & _ & Hi & Hc'). cbn [mbind outcome_bind]. rewrite Hi.
    cbn [mbind outcome_bind]. cbn zeta. assert (count_of (start c') = k) as -> by (destruct Hc' as (_ & -> & _); done).
    edestruct (IH c' k) as (top & -> & Hix & Ho); [done|lia|]. exists top. split; [done|]. split; [lia|done].
Qed.

Lemma stop_at_ok (tr : list_tree) c k (room : Qc) :
  at_count tr c k → item_ix (stop_at c room) = k ∧ (0 <= offset_in_item (stop_at c room))%Qc.
Proof.
  intros (_ & Hst & _). unfold stop_at. rewrite Hst. split; [done|]. cbn [offset_in_item].
  destruct (clt_spec room czero); cbn [pneg czero Qc_coord Qc_pixel_ops] in *; qc_lra.
Qed.
Lemma autoscroll_down_ok (tr : list_tree) (available_width : Qc) fuel c k (room : Qc) :
  walkable () tr → at_count tr c k → k < fuel →
  ∃ top, autoscroll_down measure available_width fuel c room = Ok top ∧
    item_ix top ≤ k ∧ (0 <= offset_in_item top)%Qc.
Proof.
  intros Hw. revert c k room. induction fuel as [|fuel IH]; intros c k room Hc Hf; [lia|]. cbn [autoscroll_down].
  pose proof (stop_at_ok tr c k room Hc) as [Hix Ho].
  destruct (clt_spec czero room) as [Hlt|Hge]; [|eexists; split; [done|]; split; [lia|done]].
  destruct k as [|k].
  - destruct (prev_at_zero tr Hw c Hc) as (c' & -> & Hi & Hc'). cbn [mbind outcome_bind]. rewrite Hi.
    cbn [mbind outcome_bind]. pose proof (stop_at_ok tr c' 0 room Hc') as [Hix' Ho'].
    eexists. split; [done|]. split; [lia|done].
  - destruct (prev_at_count tr Hw c k Hc) as (c' & it & -> & _ & Hi & Hc'). cbn [mbind outcome_bind]. rewrite Hi.
    cbn [mbind outcome_bind]. cbn zeta.
    edestruct (IH c' k) as (top & -> & Hix' & Ho'); [done|lia|]. exists top. split; [done|]. split; [lia|done].
Qed.

Lemma prepaint_loop_ok s (view : Bounds Qc) (padding : Edges Qc) (autoscroll : bool) (origin : Point Qc)
    (layouts : list (ItemLayout Qc)) :
  list_ok s → Forall (λ layout, layout_index layout ≤ length (contents s)) layouts →
  ∃ request, prepaint_loop measure prepaint_at s view padding autoscroll origin layouts = Ok request ∧
    (autoscroll = false → request = None) ∧ ∀ top, request = Some top → top_ok (contents s) top.
Proof.
  intros Hs Hl. revert origin. induction Hl as [|layout layouts Hix _ IH]; intros origin; [by exists None|].
  cbn [prepaint_loop]. destruct (prepaint_at layout origin) as [request|]; [|apply IH].
  destruct autoscroll; simpl negb; cbv iota; [|apply IH].
  pose proof (items_lt_fuel () (items s) (proj1 (ok_tree s Hs))) as Hf.
  destruct (seek_at_count (items s) (ok_tree s Hs) (cursor_new () (items s)) (layout_index layout) eq_refl Hix)
    as (c & b & Hr & Hc).
  destruct (clt _ _).
  - destruct (clt_spec (csub (top request) (y origin)) czero).
    + rewrite Hr. cbn [mbind outcome_bind].
      destruct (autoscroll_up_ok (items s) (width (bsize view)) (1 + node_fuel (items s)) c _
        (csub (top request) (y origin)) (ok_tree s Hs) Hc) as (tp & -> & Hi & Ho); [lia|].
      cbn [mbind outcome_bind]. eexists. split; [done|]. split; [done|]. intros ? [= <-]. split; [lia|done].
    + eexists. split; [done|]. split; [done|]. by intros ? [= <-].
  - destruct (clt _ _); [|apply IH]. rewrite Hr. cbn [mbind outcome_bind]. cbn zeta.
    match goal with |- context [autoscroll_down _ _ _ _ ?r] => set (room := r) end.
    destruct (autoscroll_down_ok (items s) (width (bsize view)) (1 + node_fuel (items s)) c _ room (ok_tree s Hs) Hc)
      as (tp & -> & Hi & Ho); [lia|].
    cbn [mbind outcome_bind]. eexists. split; [done|]. split; [done|]. intros ? [= <-]. split; [lia|done].
Qed.

(** The prepaint of a list cannot panic. An autoscroll request of an item gives a scroll position in
    the list, without a blank above the first item; the second pass, which does not honor such
    requests, always returns a layout, so that [unwrap] in the prepaint of the element is safe. *)
Theorem prepaint_settles s (view : Bounds Qc) (padding : Edges Qc) (autoscroll : bool) :
  list_ok s →
  (∀ s1, measure_first measure s view = Ok s1 →
    layout_pre measure contains_focused (Some (width (bsize view))) s1 (height (bsize view)) padding) →
  ∃ s' res, prepaint_items measure contains_focused prepaint_at s view padding autoscroll = Ok (s', res) ∧
    list_ok s' ∧ (autoscroll = false → ∃ layout, res = ResOk layout) ∧
    (∀ top, res = ResErr top → list_ok (with_top s' (Some top))).
Proof.
  intros Hs Hpre. unfold prepaint_items.
  assert (∃ s1, measure_first measure s view = Ok s1) as [s1 Hs1].
  { unfold measure_first. destruct (layout_all_items_ok measure s (width (bsize view)) Hs) as (s1 & Hr & _).
    destruct (measuring_behavior s) as [[]|]; eauto. }
  rewrite Hs1. specialize (Hpre s1 Hs1). cbn [mbind outcome_bind].
  destruct (layout_ok _ _ _ _ _ _ Hpre) as (s' & p & k & m & a & M & -> & Hl & Hok). cbn [mbind outcome_bind].
  destruct (clt _ _); [|eexists s', _; split; [done|]; split; [done|]; split; [by eexists|done]].
  cbn zeta. cbn [response_scroll_top item_layouts].
  match goal with |- context [prepaint_loop _ _ _ _ _ _ ?o ?ls] => set (origin := o); set (layouts := ls) end.
  destruct (prepaint_loop_ok s' view padding autoscroll origin layouts Hok) as (request & -> & Hq & Ht).
  { pose proof (lo_contents _ _ _ _ _ _ _ _ _ _ _ _ Hl) as Hc.
    destruct (lo_range _ _ _ _ _ _ _ _ _ _ _ _ Hl) as (H1 & H2 & H3).
    assert (Hlen : length (contents s') = length (contents s1)).
    { rewrite Hc, !length_app, length_take, length_drop. lia. }
    apply Forall_app. split.
    - apply Forall_map, Forall_forall. intros i Hi%elem_of_seq. simpl. lia.
    - unfold kept_alive. destruct (rendered_focused_item p); [constructor|].
      pose proof (first_focused_spec contains_focused 0 (contents s')) as Hff.
      destruct (first_focused _ _ _) as [j|]; [|constructor]. constructor; [|constructor].
      destruct Hff as (it & _ & Hit & _). rewrite Nat.sub_0_r in Hit. apply lookup_lt_Some in Hit. simpl. lia. }
  cbn [mbind outcome_bind]. eexists s', _. split; [done|]. split; [done|]. split.
  - intros Ha. rewrite (Hq Ha). by eexists.
  - intros tp Hres. destruct request as [tp'|]; [|done]. injection Hres as <-.
    destruct Hok as [Hw Hn _ Hp]. by split.
Qed.
End prepaint.

Lemma prepaint_settles_witness :
  ∃ s' layout, prepaint_items sample_measure (λ _, false) (λ _ _, Some sample_view) sample_scrolled sample_view
      sample_padding false = Ok (s', ResOk layout) ∧ list_ok s'.
Proof.
  destruct sample_scrolled_ok as (Hs & _).
  destruct (prepaint_settles sample_measure (λ _, false) (λ _ _, Some sample_view) sample_scrolled sample_view
    sample_padding false Hs) as (s' & res & Hr & Hok & Hres & _).
  - intros s1 Hs1. unfold measure_first in Hs1. rewrite sample_scrolled_measured in Hs1.
    injection Hs1 as <-. exact sample_scrolled_pre.
  - destruct (Hres eq_refl) as [layout ->]. exists s', layout. split; [exact Hr|exact Hok].
Defined.
