(* ===== verification/LineWrapper.v ===== *)
(** The line wrapper of [crates/gpui/src/text_system/line_wrapper.rs]: soft wraps and truncation of a
    line of text. The shaped width of a character, [TextSystem::layout_width], is done by the platform:
    it is the parameter [layout_width]. *)
From Stdlib Require Import NArith QArith Qcanon Qround Ascii String.
From stdpp Require Import gmap.
From S2P Require Import Prelude Chars Geometry Pixels.
Local Open Scope nat_scope.

(** ** Text as bytes *)

(** [char::len_utf8] and [str::len]. *)
Definition len_utf8 (c : char) : nat :=
  if (c <? 128)%N then 1 else if (c <? 2048)%N then 2 else if (c <? 65536)%N then 3 else 4.
Definition byte_len (s : list char) : nat := sum_list (map len_utf8 s).

(** [str::char_indices]. *)
Fixpoint char_indices_from (ix : nat) (s : list char) : list (nat * char) :=
  match s with [] => [] | c :: s => (ix, c) :: char_indices_from (ix + len_utf8 c) s end.
Definition char_indices (s : list char) : list (nat * char) := char_indices_from 0 s.

(** [&s[..i]] and [&s[i..]], which panic inside of a character and past the end. *)
Fixpoint split_bytes (s : list char) (i : nat) : outcome (list char * list char) :=
  match i, s with
  | O, _ => Ok ([], s)
  | _, [] => Panic
  | _, c :: s =>
      if decide (len_utf8 c ≤ i)
      then '(s1, s2) ← split_bytes s (i - len_utf8 c); Ok (c :: s1, s2)
      else Panic
  end.

(** [str::ceil_char_boundary]. *)
Fixpoint ceil_char_boundary (s : list char) (i : nat) : nat :=
  match i, s with
  | O, _ | _, [] => 0
  | _, c :: s => len_utf8 c + ceil_char_boundary s (i - len_utf8 c)
  end.

(** [char::is_ascii_punctuation] and [char::is_ascii_alphanumeric]. *)
Definition is_ascii_punctuation (c : char) : bool :=
  ((33 <=? c) && (c <=? 47) || (58 <=? c) && (c <=? 64) || (91 <=? c) && (c <=? 96) ||
   (123 <=? c) && (c <=? 126))%N.
Definition is_ascii_alphanumeric (c : char) : bool :=
  ((48 <=? c) && (c <=? 57) || (65 <=? c) && (c <=? 90) || (97 <=? c) && (c <=? 122))%N.

(** [str::trim_end_matches] of a class of characters. *)
Definition trim_end_matches (p : char → bool) (s : list char) : list char := rev (drop_while p (rev s)).

(** [LineWrapper::is_word_char]; the characters above ASCII are given by their code points. *)
Definition between (lo hi c : char) : bool := ((lo <=? c) && (c <=? hi))%N.
Definition is_word_char (c : char) : bool :=
  is_ascii_alphanumeric c ||
  between 192 255 c || between 256 383 c || between 384 591 c || between 1024 1279 c ||
  between 7680 7935 c || between 768 879 c || between 2432 2559 c ||
  bool_decide (c ∈ str "-_.'$%@#^~,=:;" ++ [8217; 8216]%N) ||
  bool_decide (c ∈ str "!)]}" ++ [34; 8221; 187; 8230]%N) ||
  (c =? 8943)%N ||
  bool_decide (c ∈ [8239; 160; 8209]%N).

(** ** Data *)

(** The conversion of an integer to [f32], [Pixels::floor], and the cast to [usize], which rounds to zero and
    clamps negative values. *)
Class PixelFloor (U : Type) := { of_nat : nat → U; pfloor : U → U; as_usize : U → nat }.
#[export] Instance Qc_floor : PixelFloor Qc := {|
  of_nat n := Q2Qc (inject_Z (Z.of_nat n));
  pfloor a := Q2Qc (inject_Z (Qfloor a));
  as_usize a := Z.to_nat (Qfloor a);
|}.

Inductive TruncateFrom := TruncateStart | TruncateEnd | TruncateMiddle.

(** [struct TextRun]: its length in bytes, and its font and colours as one value. *)
Record TextRun (S : Type) : Type := mkRun { run_len : nat; run_style : S }.
Arguments mkRun {S}.
Arguments run_len {S}.
Arguments run_style {S}.

Inductive LineFragment (U : Type) : Type :=
| FragmentText (text : list char)
| FragmentElement (width : U) (len_utf8 : nat).
Arguments FragmentText {U}.
Arguments FragmentElement {U}.

Inductive WrapBoundaryCandidate (U : Type) : Type :=
| CandidateChar (character : char)
| CandidateElement (width : U) (len_utf8 : nat).
Arguments CandidateChar {U}.
Arguments CandidateElement {U}.

Definition wrap_boundary_candidates {U} (self : LineFragment U) : list (WrapBoundaryCandidate U) :=
  match self with
  | FragmentText text => map CandidateChar text
  | FragmentElement width len_utf8 => [CandidateElement width len_utf8]
  end.
Definition candidate_len {U} (self : WrapBoundaryCandidate U) : nat :=
  match self with
  | CandidateChar character => len_utf8 character
  | CandidateElement _ len => len
  end.

Record Boundary : Type := mkBoundary { ix : nat; next_indent : N }.

(** [LineWrapper::MAX_INDENT], and the cast to [u32]. *)
Definition MAX_INDENT : N := 256.
Definition as_u32 (n : nat) : N := (N.of_nat n mod 2 ^ 32)%N.

(** ** The cache of widths *)

Module CharWidthCache.
Record t (U : Type) : Type := mk { ascii : list (option U); other : gmap char U }.
Arguments mk {U}.
Arguments ascii {U}.
Arguments other {U}.
Definition default {U} : t U := mk (repeat None 128) ∅.
End CharWidthCache.

(** [LineWrapper::width_for_char]. *)
Definition width_for_char {U} (layout_width : char → U) (self : CharWidthCache.t U) (c : char) :
    outcome (U * CharWidthCache.t U) :=
  if (c <? 128)%N then
    cached ← index (CharWidthCache.ascii self) (N.to_nat c);
    match cached with
    | Some cached_width => Ok (cached_width, self)
    | None =>
        let width := layout_width c in
        Ok (width, CharWidthCache.mk (<[N.to_nat c := Some width]> (CharWidthCache.ascii self))
                     (CharWidthCache.other self))
    end
  else
    match CharWidthCache.other self !! c with
    | Some cached_width => Ok (cached_width, self)
    | None =>
        let width := layout_width c in
        Ok (width, CharWidthCache.mk (CharWidthCache.ascii self) (<[c := width]> (CharWidthCache.other self)))
    end.

Section wrapper.
Context {U : Type} `{!Coord U, !PixelOps U, !PixelFloor U, !CharTables}.
(** The widths, by [width_for_char]; the cache is transparent. *)
Context (layout_width : char → U).
Local Notation w := layout_width (only parsing).
Local Notation candidate := (WrapBoundaryCandidate U).

(** ** Wrapping *)

(** The variables that the iterator of [wrap_line] captures. *)
Record WrapState : Type := mkWrap {
  width : U;
  first_non_whitespace_ix : option nat;
  indent : option N;
  last_candidate_ix : nat;
  last_candidate_width : U;
  last_wrap_ix : nat;
  prev_c : char;
  index : nat;
}.
Definition wrap_start : WrapState := mkWrap czero None None 0 czero 0 0%N 0.

Definition is_char (c : char) (a : Ascii.ascii) : bool := (c =? ch a)%N.

(** What an item does before its width is added: where a line may be broken, and where the first
    character that is no space is. *)
Definition note_item (st : WrapState) (ix : nat) (breaks : bool) (space : bool) (item_len : nat) : WrapState :=
  let breaks := breaks && bool_decide (is_Some (first_non_whitespace_ix st)) in
  mkWrap (width st)
    (if negb space && bool_decide (first_non_whitespace_ix st = None) then Some ix else first_non_whitespace_ix st)
    (indent st)
    (if breaks then ix else last_candidate_ix st)
    (if breaks then width st else last_candidate_width st)
    (last_wrap_ix st) (prev_c st) (ix + item_len).
(** The item, its new [prev_c] and its width; [None] is the [continue] at a newline. *)
Definition see_item (st : WrapState) (item : candidate) : WrapState * option (char * U) :=
  let ix := index st in
  match item with
  | CandidateChar c =>
      if is_char c "010" then
        (mkWrap (width st) (first_non_whitespace_ix st) (indent st) (last_candidate_ix st)
           (last_candidate_width st) (last_wrap_ix st) (prev_c st) (ix + len_utf8 c), None)
      else
        let breaks :=
          if is_word_char c then is_char (prev_c st) " " && negb (is_char c " ") else negb (is_char c " ") in
        (note_item st ix breaks (is_char c " ") (len_utf8 c), Some (c, w c))
  | CandidateElement element_width len =>
      (note_item st ix (is_char (prev_c st) " ") false len, Some (prev_c st, element_width))
  end.

(** The block that breaks the line before the last candidate, or before the item at [ix]. *)
Definition break_line (st : WrapState) (ix : nat) (item_width : U) : outcome (WrapState * Boundary) :=
  indent ←
    match indent st, first_non_whitespace_ix st with
    | None, Some first => n ← checked_sub first (last_wrap_ix st); Ok (Some (N.min MAX_INDENT (as_u32 n)))
    | indent, _ => Ok indent
    end;
  let '(last_wrap_ix, width, last_candidate_ix) :=
    if decide (0 < last_candidate_ix st)
    then (last_candidate_ix st, csub (width st) (last_candidate_width st), 0)
    else (ix, item_width, last_candidate_ix st) in
  let width :=
    match indent with
    | Some indent => cadd width (pmul (w (ch " ")) (of_nat (N.to_nat indent)))
    | None => width
    end in
  Ok (mkWrap width (first_non_whitespace_ix st) indent last_candidate_ix (last_candidate_width st)
        last_wrap_ix (prev_c st) (index st),
      mkBoundary last_wrap_ix (default 0%N indent)).

(** The next boundary of the iterator, with the items that are left. *)
Fixpoint next_boundary (wrap_width : U) (items : list candidate) (st : WrapState) :
    outcome (option (Boundary * list candidate * WrapState)) :=
  match items with
  | [] => Ok None
  | item :: items =>
      let ix := index st in
      let '(st, seen) := see_item st item in
      match seen with
      | None => next_boundary wrap_width items st
      | Some (new_prev_c, item_width) =>
          let st :=
            mkWrap (cadd (width st) item_width) (first_non_whitespace_ix st) (indent st)
              (last_candidate_ix st) (last_candidate_width st) (last_wrap_ix st) (prev_c st) (index st) in
          if clt wrap_width (width st) && (last_wrap_ix st <? ix) then
            '(st, boundary) ← break_line st ix item_width;
            Ok (Some (boundary, items, st))
          else
            next_boundary wrap_width items
              (mkWrap (width st) (first_non_whitespace_ix st) (indent st) (last_candidate_ix st)
                 (last_candidate_width st) (last_wrap_ix st) new_prev_c (index st))
      end
  end.
(** The boundaries of [wrap_line], collected; every call consumes an item. *)
Fixpoint wrap_loop (fuel : nat) (wrap_width : U) (items : list candidate) (st : WrapState) :
    outcome (list Boundary) :=
  match fuel with
  | O => OutOfFuel
  | S fuel =>
      next ← next_boundary wrap_width items st;
      match next with
      | None => Ok []
      | Some (boundary, items, st) => bs ← wrap_loop fuel wrap_width items st; Ok (boundary :: bs)
      end
  end.
Definition wrap_line (fragments : list (LineFragment U)) (wrap_width : U) : outcome (list Boundary) :=
  let candidates := flat_map wrap_boundary_candidates fragments in
  wrap_loop (1 + length candidates) wrap_width candidates wrap_start.

(** ** Truncation *)

(** The sum of the widths of the characters. *)
Definition text_width (s : list char) : U := foldl (λ a c, cadd a (w c)) czero s.

(** The loop of [should_truncate_line], over the characters in either direction. *)
Fixpoint truncate_loop (suffix_width truncate_width : U) (chars : list (nat * char)) (width : U)
    (truncate_ix : nat) : option nat :=
  match chars with
  | [] => None
  | (ix, c) :: chars =>
      let truncate_ix := if clt (cadd width suffix_width) truncate_width then ix else truncate_ix in
      let width := cadd width (w c) in
      if clt truncate_width (pfloor width) then Some truncate_ix
      else truncate_loop suffix_width truncate_width chars width truncate_ix
  end.
Definition should_truncate_line (line : list char) (truncate_width : U) (truncation_affix : list char)
    (truncate_from : TruncateFrom) : option nat :=
  let suffix_width := text_width truncation_affix in
  match truncate_from with
  | TruncateStart => truncate_loop suffix_width truncate_width (rev (char_indices line)) czero 0
  | TruncateEnd => truncate_loop suffix_width truncate_width (char_indices line) czero 0
  | TruncateMiddle => None
  end.

Fixpoint front_loop (front_budget : U) (chars : list (nat * char)) (front_width : U) (front_end_ix : nat) : nat :=
  match chars with
  | [] => front_end_ix
  | (ix, c) :: chars =>
      if clt front_budget (cadd front_width (w c)) then front_end_ix
      else front_loop front_budget chars (cadd front_width (w c)) (ix + len_utf8 c)
  end.
Fixpoint back_loop (back_budget : U) (chars : list (nat * char)) (back_width : U) (back_start_ix : nat) : nat :=
  match chars with
  | [] => back_start_ix
  | (ix, c) :: chars =>
      if clt back_budget (cadd back_width (w c)) then back_start_ix
      else back_loop back_budget chars (cadd back_width (w c)) ix
  end.
Definition should_truncate_line_middle (line : list char) (truncate_width : U) (truncation_affix : list char)
    : option (nat * nat) :=
  let suffix_width := text_width truncation_affix in
  let total_width := text_width line in
  if cle total_width truncate_width then None
  else
    let content_budget := csub truncate_width suffix_width in
    if cle content_budget czero then Some (0, byte_len line)
    else
      let two := cadd pone pone in
      let front_budget := pmul content_budget (pdiv two (cadd two pone)) in
      let back_budget := csub content_budget front_budget in
      let front_end_ix := front_loop front_budget (char_indices line) czero 0 in
      let back_start_ix := back_loop back_budget (rev (char_indices line)) czero (byte_len line) in
      if decide (back_start_ix ≤ front_end_ix) then Some (0, byte_len line)
      else Some (front_end_ix, back_start_ix).

(** ** The runs *)

Section runs.
Context {S : Type}.
Implicit Types runs : list (TextRun S).

(** The loop of [update_runs_after_truncation] from the end that is kept: the run that is cut takes the
    affix, and the runs past it are dropped. *)
Fixpoint cut_runs (truncate_at ellipsis_len : nat) runs : list (TextRun S) :=
  match runs with
  | [] => []
  | run :: runs =>
      if decide (run_len run ≤ truncate_at) then run :: cut_runs (truncate_at - run_len run) ellipsis_len runs
      else [mkRun (truncate_at + ellipsis_len) (run_style run)]
  end.
Definition update_runs_after_truncation (result ellipsis : list char) runs (truncate_from : TruncateFrom)
    : outcome (list (TextRun S)) :=
  truncate_at ← checked_sub (byte_len result) (byte_len ellipsis);
  match truncate_from with
  | TruncateStart => Ok (rev (cut_runs truncate_at (byte_len ellipsis) (rev runs)))
  | TruncateEnd => Ok (cut_runs truncate_at (byte_len ellipsis) runs)
  | TruncateMiddle => Panic
  end.

(** The two loops of [update_runs_after_middle_truncation]. *)
Fixpoint front_runs (front_remaining ellipsis_len : nat) runs : list (TextRun S) * bool :=
  match runs with
  | [] => ([], false)
  | run :: runs =>
      if decide (run_len run ≤ front_remaining)
      then let '(rs, front_done) := front_runs (front_remaining - run_len run) ellipsis_len runs in
           (run :: rs, front_done)
      else ([mkRun (front_remaining + ellipsis_len) (run_style run)], true)
  end.
Fixpoint back_runs (back_start_ix byte_pos : nat) runs : list (TextRun S) :=
  match runs with
  | [] => []
  | run :: runs =>
      let run_end := byte_pos + run_len run in
      (if decide (back_start_ix < run_end) then
         if decide (byte_pos < back_start_ix) then [mkRun (run_end - back_start_ix) (run_style run)] else [run]
       else []) ++ back_runs back_start_ix run_end runs
  end.
Definition update_runs_after_middle_truncation (ellipsis : list char) runs (front_end_ix back_start_ix : nat)
    : list (TextRun S) :=
  let '(result_runs, front_done) := front_runs front_end_ix (byte_len ellipsis) runs in
  let result_runs :=
    if front_done then result_runs
    else match last result_runs with
         | Some l => take (length result_runs - 1) result_runs ++ [mkRun (run_len l + byte_len ellipsis) (run_style l)]
         | None => match runs with
                   | first :: _ => result_runs ++ [mkRun (byte_len ellipsis) (run_style first)]
                   | [] => result_runs
                   end
         end in
  result_runs ++ back_runs back_start_ix 0 runs.

(** ** Truncating *)

Definition is_trimmed (c : char) : bool := is_whitespace c || is_ascii_punctuation c.

(** The text up to [truncate_ix] with the affix, and its runs. *)
Definition truncate_end (line : list char) (truncate_ix : nat) (truncation_affix : list char) runs
    : outcome (list char * list (TextRun S)) :=
  '(kept, _) ← split_bytes line truncate_ix;
  let result := trim_end_matches is_trimmed kept ++ truncation_affix in
  runs ← update_runs_after_truncation result truncation_affix runs TruncateEnd;
  Ok (result, runs).

Definition truncate_line (line : list char) (truncate_width : U) (truncation_affix : list char) runs
    (truncate_from : TruncateFrom) : outcome (list char * list (TextRun S)) :=
  match truncate_from with
  | TruncateMiddle =>
      match should_truncate_line_middle line truncate_width truncation_affix with
      | Some (front_end_ix, back_start_ix) =>
          '(front, _) ← split_bytes line front_end_ix;
          '(_, back) ← split_bytes line back_start_ix;
          Ok (front ++ truncation_affix ++ back,
              update_runs_after_middle_truncation truncation_affix runs front_end_ix back_start_ix)
      | None => Ok (line, runs)
      end
  | _ =>
      match should_truncate_line line truncate_width truncation_affix truncate_from with
      | Some truncate_ix =>
          match truncate_from with
          | TruncateStart =>
              '(_, kept) ← split_bytes line (ceil_char_boundary line (truncate_ix + 1));
              let result := truncation_affix ++ kept in
              runs ← update_runs_after_truncation result truncation_affix runs TruncateStart;
              Ok (result, runs)
          | TruncateEnd => truncate_end line truncate_ix truncation_affix runs
          | TruncateMiddle => Panic
          end
      | None => Ok (line, runs)
      end
  end.
End runs.

(** ** Truncating wrapped text *)

(** The variables of [truncate_wrapped_line]. *)
Record ClampState : Type := mkClamp {
  t_width : U;
  t_line : nat;
  t_first_non_whitespace_ix : option nat;
  t_last_candidate_ix : nat;
  t_last_candidate_width : U;
  t_last_wrap_ix : nat;
  t_prev_c : char;
  t_indent : option N;
  t_truncate_ix : nat;
}.
Definition clamp_start : ClampState := mkClamp czero 0 None 0 czero 0 0%N None 0.

(** A newline before the last line. *)
Definition new_line (st : ClampState) (ix : nat) : ClampState :=
  mkClamp czero (t_line st + 1) None 0 czero (ix + 1) 0%N None (ix + 1).

(** The character [c] at [ix], up to its width. *)
Definition add_char (st : ClampState) (ix : nat) (c : char) : ClampState :=
  let first := t_first_non_whitespace_ix st in
  let breaks :=
    (if is_word_char c then is_char (t_prev_c st) " " else negb (is_char c " ")) &&
    bool_decide (is_Some first) in
  mkClamp (cadd (t_width st) (w c)) (t_line st)
    (if negb (is_char c " ") && bool_decide (first = None) then Some ix else first)
    (if breaks then ix else t_last_candidate_ix st)
    (if breaks then t_width st else t_last_candidate_width st)
    (t_last_wrap_ix st) (t_prev_c st) (t_indent st) (t_truncate_ix st).

(** The wrap before the last line. *)
Definition wrap_clamped (st : ClampState) (ix : nat) (char_width : U) : outcome ClampState :=
  indent ←
    match t_indent st, t_first_non_whitespace_ix st with
    | None, Some first => n ← checked_sub first (t_last_wrap_ix st); Ok (Some (N.min MAX_INDENT (as_u32 n)))
    | indent, _ => Ok indent
    end;
  let '(last_wrap_ix, width, last_candidate_ix) :=
    if decide (t_last_wrap_ix st < t_last_candidate_ix st)
    then (t_last_candidate_ix st, csub (t_width st) (t_last_candidate_width st), 0)
    else (ix, char_width, t_last_candidate_ix st) in
  let width :=
    match indent with
    | Some indent => cadd width (pmul (w (ch " ")) (of_nat (N.to_nat indent)))
    | None => width
    end in
  Ok (mkClamp width (t_line st + 1) (t_first_non_whitespace_ix st) last_candidate_ix
        (t_last_candidate_width st) last_wrap_ix (t_prev_c st) indent last_wrap_ix).

Definition with_prev_c (st : ClampState) (c : char) : ClampState :=
  mkClamp (t_width st) (t_line st) (t_first_non_whitespace_ix st) (t_last_candidate_ix st)
    (t_last_candidate_width st) (t_last_wrap_ix st) c (t_indent st) (t_truncate_ix st).
Definition with_truncate_ix (st : ClampState) (ix : nat) : ClampState :=
  mkClamp (t_width st) (t_line st) (t_first_non_whitespace_ix st) (t_last_candidate_ix st)
    (t_last_candidate_width st) (t_last_wrap_ix st) (t_prev_c st) (t_indent st) ix.

(** Where the text is to be truncated, if it does not fit. *)
Fixpoint clamp_loop (text : list char) (wrap_width affix_width : U) (max_lines : nat)
    (chars : list (nat * char)) (st : ClampState) : outcome (option nat) :=
  match chars with
  | [] => Ok None
  | (ix, c) :: chars =>
      last_line ← checked_sub max_lines 1;
      if is_char c "010" then
        overflows ←
          (if decide (last_line ≤ t_line st)
           then '(_, below) ← split_bytes text (ix + 1); Ok (negb (forallb is_whitespace below))
           else Ok false);
        if overflows : bool then Ok (Some (t_truncate_ix st))
        else clamp_loop text wrap_width affix_width max_lines chars (new_line st ix)
      else
        let st := add_char st ix c in
        if decide (t_line st < last_line) then
          st ← (if clt wrap_width (t_width st) && (t_last_wrap_ix st <? ix)
                then wrap_clamped st ix (w c) else Ok st);
          clamp_loop text wrap_width affix_width max_lines chars (with_prev_c st c)
        else
          let st :=
            if cle (cadd (t_width st) affix_width) wrap_width
            then with_truncate_ix st (ix + len_utf8 c) else st in
          if clt wrap_width (t_width st) then Ok (Some (t_truncate_ix st))
          else clamp_loop text wrap_width affix_width max_lines chars (with_prev_c st c)
  end.

Definition truncate_wrapped_line {S} (text : list char) (wrap_width : U) (max_lines : nat)
    (truncation_affix : list char) (runs : list (TextRun S)) (truncate_from : TruncateFrom)
    : outcome (list char * list (TextRun S)) :=
  if (max_lines <=? 1) || match truncate_from with TruncateStart => true | _ => false end
  then truncate_line text (pmul wrap_width (of_nat max_lines)) truncation_affix runs truncate_from
  else match truncate_from with
  | TruncateMiddle => truncate_line text wrap_width truncation_affix runs truncate_from
  | _ =>
      truncated ← clamp_loop text wrap_width (text_width truncation_affix) max_lines (char_indices text) clamp_start;
      match truncated with
      | Some truncate_ix => truncate_end text truncate_ix truncation_affix runs
      | None => Ok (text, runs)
      end
  end.
End wrapper.
