(* ===== verification/LineWrapFacts.v ===== *)
(** Facts about the line wrapper: bytes and characters, the width of the line so far and where it can be broken, the
    lines that come out, truncation of a line and of wrapped text. *)
From Stdlib Require Import NArith QArith Qcanon.
From Stdlib Require Import NArith QArith Qcanon Ascii.
From Stdlib Require Import NArith QArith Qcanon Qround.
From S2P Require Import Prelude Geometry Chars Pixels LineWrapper.
Local Open Scope Qc_scope.
Local Open Scope nat_scope.

(** ** Bytes *)

Lemma len_utf8_pos (c : char) : 0 < len_utf8 c.
Proof. unfold len_utf8. repeat destruct (_ <? _)%N; lia. Qed.

Lemma byte_len_cons (c : char) (s : list char) : byte_len (c :: s) = len_utf8 c + byte_len s.
Proof. done. Qed.
Lemma byte_len_app (s1 s2 : list char) : byte_len (s1 ++ s2) = byte_len s1 + byte_len s2.
Proof. induction s1 as [|c s1 IH]; [done|]. cbn [app]. rewrite !byte_len_cons, IH. lia. Qed.

Lemma split_bytes_app (s1 s2 : list char) : split_bytes (s1 ++ s2) (byte_len s1) = Ok (s1, s2).
Proof.
  induction s1 as [|c s1 IH]; [by destruct s2|]. rewrite byte_len_cons. cbn [app].
  pose proof (len_utf8_pos c). destruct (len_utf8 c + byte_len s1) as [|n] eqn:E; [lia|]. cbn [split_bytes].
  rewrite decide_True by lia. replace (S n - len_utf8 c) with (byte_len s1) by lia. by rewrite IH.
Qed.

Lemma char_indices_app k (s1 s2 : list char) :
  char_indices_from k (s1 ++ s2) = char_indices_from k s1 ++ char_indices_from (k + byte_len s1) s2.
Proof.
  revert k. induction s1 as [|c s1 IH]; intros k; cbn [app char_indices_from]; [by rewrite Nat.add_0_r|].
  rewrite IH. change (byte_len (c :: s1)) with (len_utf8 c + byte_len s1). by rewrite Nat.add_assoc.
Qed.

Lemma ceil_after (s1 s2 : list char) (c : char) :
  ceil_char_boundary (s1 ++ c :: s2) (byte_len s1 + 1) = byte_len (s1 ++ [c]).
Proof.
  induction s1 as [|d s1 IH].
  - cbn [app byte_len map sum_list]. simpl. pose proof (len_utf8_pos c).
    replace (1 - len_utf8 c) with 0 by lia. by destruct s2.
  - change (byte_len (d :: s1)) with (len_utf8 d + byte_len s1). cbn [app].
    change (byte_len (d :: s1 ++ [c])) with (len_utf8 d + byte_len (s1 ++ [c])). rewrite <-IH.
    replace (len_utf8 d + byte_len s1 + 1) with (S (len_utf8 d + byte_len s1)) by lia. cbn [ceil_char_boundary].
    f_equal. f_equal. lia.
Qed.

Lemma trim_prefix (p : char → bool) (s : list char) : ∃ t, s = trim_end_matches p s ++ t.
Proof.
  unfold trim_end_matches. exists (rev (take_while p (rev s))).
  by rewrite <-rev_app_distr, take_drop_while, rev_involutive.
Qed.

(** ** Widths *)

Lemma of_nat_add (m n : nat) : (of_nat (m + n) : Qc) = (of_nat m + of_nat n)%Qc.
Proof.
  apply Qc_is_canon. cbn [of_nat Qc_floor]. rewrite this_add. simpl. rewrite !Qred_correct.
  rewrite Nat2Z.inj_add, inject_Z_plus. reflexivity.
Qed.
Lemma of_nat_0 : (of_nat 0 : Qc) = 0%Qc.
Proof. by apply Qc_is_canon. Qed.
Lemma of_nat_1 : (of_nat 1 : Qc) = 1%Qc.
Proof. by apply Qc_is_canon. Qed.
Lemma of_nat_nonneg (n : nat) : (0 <= of_nat n)%Qc.
Proof.
  induction n as [|n IH]; [rewrite of_nat_0; qc_lra|]. rewrite <-Nat.add_1_r, of_nat_add, of_nat_1. qc_lra.
Qed.
Lemma of_nat_le (m n : nat) : m ≤ n → (of_nat m <= of_nat n)%Qc.
Proof.
  intros Hle. replace n with (m + (n - m)) by lia. rewrite of_nat_add. pose proof (of_nat_nonneg (n - m)). qc_lra.
Qed.
Lemma indent_le (n : nat) : N.to_nat (N.min MAX_INDENT (as_u32 n)) ≤ n.
Proof. unfold as_u32. pose proof (N.Div0.mod_le (N.of_nat n) (2 ^ 32)). lia. Qed.

Section wrap.
Context `{!CharTables} (layout_width : char → Qc) (wrap_width : Qc).
Notation item := (WrapBoundaryCandidate Qc).
Notation space := (ch " ").
Notation indent_width n := (layout_width space * of_nat (N.to_nat n))%Qc.

Definition item_width (it : item) : Qc :=
  match it with CandidateChar c => layout_width c | CandidateElement width _ => width end.
Definition is_space (it : item) : bool := match it with CandidateChar c => is_char c " " | _ => false end.
Definition is_newline (it : item) : bool := match it with CandidateChar c => is_char c "010" | _ => false end.

Fixpoint items_width (its : list item) : Qc :=
  match its with [] => 0%Qc | it :: its => (item_width it + items_width its)%Qc end.
Lemma items_width_app its1 its2 : items_width (its1 ++ its2) = (items_width its1 + items_width its2)%Qc.
Proof. induction its1 as [|it its1 IH]; simpl; [qc_lra|]. rewrite IH. qc_lra. Qed.
Definition items_len (its : list item) : nat := sum_list (map candidate_len its).
Lemma items_len_app its1 its2 : items_len (its1 ++ its2) = items_len its1 + items_len its2.
Proof. unfold items_len. rewrite map_app. induction (map candidate_len its1) as [|n l IH]; simpl; [done|]. rewrite IH. lia. Qed.

(** The items of the line, none of which is a newline. *)
Variable its : list item.
Hypothesis its_ok : Forall (λ it, 0 < candidate_len it ∧ (0 <= item_width it)%Qc ∧ is_newline it = false) its.
Hypothesis space_nonneg : (0 <= layout_width space)%Qc.

(** The byte position before the item [k], and the width of the items before it. *)
Definition pos (k : nat) : nat := items_len (take k its).
Definition upto (k : nat) : Qc := items_width (take k its).

Lemma pos_S k it : its !! k = Some it → pos (S k) = pos k + candidate_len it.
Proof. intros Hk. unfold pos. rewrite (take_S_r _ _ _ Hk), items_len_app. unfold items_len. simpl. lia. Qed.
Lemma upto_S k it : its !! k = Some it → upto (S k) = (upto k + item_width it)%Qc.
Proof. intros Hk. unfold upto. rewrite (take_S_r _ _ _ Hk), items_width_app. simpl. qc_lra. Qed.
Lemma item_ok k it : its !! k = Some it → 0 < candidate_len it ∧ (0 <= item_width it)%Qc ∧ is_newline it = false.
Proof. intros Hk. rewrite Forall_lookup in its_ok. eauto. Qed.

Lemma pos_lt a k : a < k → k ≤ length its → pos a < pos k.
Proof.
  intros Hak Hk. induction k as [|k IH]; [lia|].
  destruct (lookup_lt_is_Some_2 its k Hk) as [it Hit]. rewrite (pos_S _ _ Hit). pose proof (item_ok _ _ Hit) as (? & _).
  destruct (decide (a = k)) as [->|]; [lia|]. assert (pos a < pos k) by (apply IH; lia). lia.
Qed.
Lemma pos_lt_iff a k : a ≤ length its → k ≤ length its → pos a < pos k ↔ a < k.
Proof.
  intros Ha Hk. split; [|intros; by apply pos_lt]. intros Hp. destruct (decide (a < k)) as [|Hn]; [done|].
  destruct (decide (a = k)) as [->|]; [lia|]. pose proof (pos_lt k a). lia.
Qed.
Lemma upto_le a k : a ≤ k → k ≤ length its → (upto a <= upto k)%Qc.
Proof.
  intros Hak Hk. induction k as [|k IH]; [by replace a with 0 by lia; qc_lra|].
  destruct (lookup_lt_is_Some_2 its k Hk) as [it Hit]. rewrite (upto_S _ _ Hit). pose proof (item_ok _ _ Hit) as (_ & ? & _).
  destruct (decide (a = S k)) as [->|]; [rewrite (upto_S _ _ Hit); qc_lra|].
  assert (upto a <= upto k)%Qc by (apply IH; lia). qc_lra.
Qed.

Definition spaces (a m : nat) : Prop := ∀ j it, a ≤ j → j < m → its !! j = Some it → is_space it = true.
Lemma spaces_width a m : a ≤ m → m ≤ length its → spaces a m →
  (upto m = upto a + layout_width space * of_nat (m - a))%Qc ∧ pos m = pos a + (m - a).
Proof.
  intros Ham Hm Hs. induction m as [|m IH].
  - replace a with 0 by lia. rewrite Nat.sub_diag, of_nat_0, Qcmult_0_r. split; [qc_lra|lia].
  - destruct (decide (a = S m)) as [->|Hne]; [rewrite Nat.sub_diag, of_nat_0, Qcmult_0_r; split; [qc_lra|lia]|].
    destruct (lookup_lt_is_Some_2 its m Hm) as [it Hit].
    destruct IH as [IHw IHp]; [lia|lia|intros j it' ? ?; apply Hs; lia|].
    rewrite (upto_S _ _ Hit), (pos_S _ _ Hit), IHw, IHp.
    assert (is_space it = true) as Hsp by (apply (Hs m it); [lia|lia|done]).
    destruct it as [c|]; [|done]. apply N.eqb_eq in Hsp. simpl in Hsp. subst c. cbn [item_width candidate_len].
    replace (S m - a) with (m - a + 1) by lia. rewrite of_nat_add, of_nat_1, Qcmult_plus_distr_r, Qcmult_1_r. split; [qc_lra|].
    change (len_utf8 space) with 1. lia.
Qed.

(** A prefix of spaces is at least as wide as the indent that it gives. *)
Lemma indent_fits a m : a ≤ m → m ≤ length its → spaces a m →
  (indent_width (N.min MAX_INDENT (as_u32 (pos m - pos a))) <= upto m - upto a)%Qc.
Proof.
  intros Ham Hm Hs. destruct (spaces_width a m Ham Hm Hs) as [Hw Hp].
  assert (of_nat (N.to_nat (N.min MAX_INDENT (as_u32 (pos m - pos a)))) <= of_nat (m - a))%Qc as Hle.
  { apply of_nat_le. rewrite Hp. pose proof (indent_le (pos a + (m - a) - pos a)). lia. }
  rewrite Hw. apply (Qcmult_le_compat_r _ _ (layout_width space)) in Hle; [|done].
  rewrite !(Qcmult_comm (layout_width space)). qc_lra.
Qed.

(** ** The line so far *)

(** What [wrap_line] and [truncate_wrapped_line] know of the current line. *)
Record Line : Type := mkLine {
  l_width : Qc;
  l_first : option nat;
  l_indent : option N;
  l_cand : nat;
  l_cand_width : Qc;
  l_wrap : nat;
}.
(** The item at [ix] is added; it starts a word, or can stand at the start of a line, if [breaks]. *)
Definition see (l : Line) (ix : nat) (breaks space : bool) (width : Qc) : Line :=
  let breaks := breaks && bool_decide (is_Some (l_first l)) in
  mkLine (l_width l + width)%Qc
    (if negb space && bool_decide (l_first l = None) then Some ix else l_first l)
    (l_indent l) (if breaks then ix else l_cand l) (if breaks then l_width l else l_cand_width l) (l_wrap l).
(** The indent of the next line, if the line is broken now. *)
Definition next_ind (l : Line) : option N :=
  match l_indent l, l_first l with
  | None, Some first => Some (N.min MAX_INDENT (as_u32 (first - l_wrap l)))
  | indent, _ => indent
  end.
Definition ind_width (indent : option N) : Qc :=
  match indent with Some n => indent_width n | None => 0%Qc end.
Definition broken (l : Line) (ix : nat) (width : Qc) : Line :=
  if decide (0 < l_cand l)
  then mkLine (l_width l - l_cand_width l + ind_width (next_ind l))%Qc (l_first l) (next_ind l) 0 (l_cand_width l) (l_cand l)
  else mkLine (width + ind_width (next_ind l))%Qc (l_first l) (next_ind l) (l_cand l) (l_cand_width l) ix.

(** All items are as wide as a space, in the typical case. *)
Variable mono : bool.
Hypothesis mono_ok : mono = true → Forall (λ it, item_width it = layout_width space) its.

(** The items from [a] to [k] fit in the line after the indent: all of them, or all but the last one if
    the widths differ; or there is only one. *)
Definition line_fits (a k : nat) (ind : Qc) : Prop :=
  k ≤ a + 1 ∨ (ind + upto (if mono then k else k - 1) - upto a <= wrap_width)%Qc.

Record line_base (k a : nat) (ind : Qc) (l : Line) : Prop := {
  li_bound : k ≤ length its;
  li_start : a < k ∨ (a = 0 ∧ k = 0);
  li_wrap : l_wrap l = pos a;
  li_width : l_width l = (ind + upto k - upto a)%Qc;
  li_ind : ind = ind_width (l_indent l);
  li_first :
    match l_first l with
    | None => l_indent l = None ∧ l_cand l = 0 ∧ spaces a k
    | Some f => ∃ m, f = pos m ∧ m < k ∧
        (l_indent l = None → a ≤ m ∧ spaces a m ∧ (0 < l_cand l → f < l_cand l))
    end;
  li_cand : l_cand l = 0 ∨
    ∃ b, l_cand l = pos b ∧ a < b ∧ b < k ∧ l_cand_width l = (ind + upto b - upto a)%Qc ∧ line_fits a b ind;
}.
(** The line fits, or has one item, or the break before it left one item too many. *)
Definition line_ok (k a : nat) (ind : Qc) (l : Line) : Prop :=
  (ind + upto k - upto a <= wrap_width)%Qc ∨ k ≤ a + 1 ∨
  (mono = false ∧ l_cand l = 0 ∧ (ind + upto (k - 1) - upto a <= wrap_width)%Qc).
Definition line_inv (k a : nat) (ind : Qc) (l : Line) : Prop := line_base k a ind l ∧ line_ok k a ind l.

Lemma line_start : line_inv 0 0 0%Qc (mkLine 0%Qc None None 0 0%Qc 0).
Proof.
  split; [|right; left; lia].
  split; cbn [l_width l_first l_indent l_cand l_cand_width l_wrap]; try done; try lia; auto.
  split; [done|]. split; [done|]. intros j it ? ?; lia.
Qed.

Lemma inv_fits k a ind l : line_inv k a ind l → line_fits a k ind.
Proof.
  intros [[Hk _ _ _ _ _ _] Hok]. unfold line_fits. destruct Hok as [Hf|[Hs|(Hm & _ & Hf)]]; [|by left|rewrite Hm; by right].
  right. destruct mono; [done|]. assert (upto (k - 1) <= upto k)%Qc by (apply upto_le; lia). qc_lra.
Qed.

Lemma see_keeps k a ind l it (breaks : bool) :
  line_inv k a ind l → its !! k = Some it → (breaks = true → is_space it = false) →
  line_base (S k) a ind (see l (pos k) breaks (is_space it) (item_width it)).
Proof.
  intros Hl Hit Hb. pose proof (lookup_lt_Some _ _ _ Hit) as Hk. pose proof (inv_fits _ _ _ _ Hl) as Hfit.
  destruct Hl as [[_ Hst Hw Hwd Hi Hf Hc] _]. unfold see.
  split; cbn [l_width l_first l_indent l_cand l_cand_width l_wrap]; try done.
  - left. lia.
  - rewrite Hwd, (upto_S _ _ Hit). qc_lra.
  - destruct (l_first l) as [f|] eqn:Ef; simpl.
    + rewrite andb_false_r. destruct Hf as (m & -> & Hm & Hnone). exists m. split; [done|]. split; [lia|].
      intros Hin. destruct (Hnone Hin) as (Ha & Hsp & Hcd). split; [done|]. split; [done|].
      destruct breaks; simpl; [|done]. intros _. apply pos_lt; lia.
    + rewrite !andb_false_r, andb_true_r. destruct Hf as (Hin & Hcd & Hsp). destruct (is_space it) eqn:Es; simpl.
      * split; [done|]. split; [done|]. intros j it' Hj1 Hj2 Hj. destruct (decide (j = k)) as [->|].
        -- congruence.
        -- apply (Hsp j it'); [done|lia|done].
      * exists k. split; [done|]. split; [lia|]. intros _. split; [destruct Hst; lia|]. split; [done|]. rewrite Hcd. lia.
  - destruct (breaks && _) eqn:Eb.
    + apply andb_true_iff in Eb as [_ [f Ef]%bool_decide_eq_true]. rewrite Ef in Hf.
      destruct Hf as (m & _ & Hm & _). right. exists k. split; [done|].
      split; [|split; [lia|by split]]. destruct Hst as [|[_ ->]]; lia.
    + destruct Hc as [?|(b & ? & ? & ? & ? & ?)]; [by left|right]. exists b. split_and!; try done; lia.
Qed.

(** Without a break the line goes on. *)
Lemma goes_on k a ind l :
  line_base (S k) a ind l → clt wrap_width (l_width l) && (l_wrap l <? pos k) = false → line_inv (S k) a ind l.
Proof.
  intros Hl Hno. split; [done|]. destruct Hl as [Hk Hst Hw Hwd _ _ _]. apply andb_false_iff in Hno as [Hno|Hno].
  - left. rewrite Hwd in Hno. destruct (clt_spec wrap_width (ind + upto (S k) - upto a)%Qc); [done|qc_lra].
  - right; left. apply Nat.ltb_ge in Hno. rewrite Hw in Hno. destruct (decide (a < k)); [|lia].
    assert (pos a < pos k) by (apply pos_lt; lia). lia.
Qed.

(** The indent of the next line is no wider than what precedes a candidate in this one, and with equal
    widths it leaves room for one more item. *)
Lemma next_ind_fits k a ind l b :
  line_base k a ind l → l_cand l = pos b → a < b → b ≤ length its → 0 < l_cand l →
  (ind_width (next_ind l) <= ind + upto b - upto a)%Qc ∧
  (mono = true → (ind_width (next_ind l) + layout_width space <= ind + upto b - upto a)%Qc).
Proof.
  intros [Hk _ Hw _ Hi Hf _] Hb Hab Hbl Hpos. assert (upto a <= upto b)%Qc as Hle by (apply upto_le; lia).
  assert (Hone : ∀ j, j < b → mono = true → (upto j + layout_width space <= upto b)%Qc).
  { intros j Hj Hm. destruct (lookup_lt_is_Some_2 its j) as [it Hit]; [lia|].
    assert (upto (S j) <= upto b)%Qc as Hs by (apply upto_le; lia). rewrite (upto_S _ _ Hit) in Hs.
    pose proof (mono_ok Hm) as Hall. rewrite Forall_lookup in Hall. by rewrite (Hall _ _ Hit) in Hs. }
  unfold next_ind. destruct (l_indent l) as [i|] eqn:Ei; [|destruct (l_first l) as [f|] eqn:Ef].
  - rewrite <-Hi. split; [qc_lra|]. intros Hm. specialize (Hone a Hab Hm). qc_lra.
  - destruct Hf as (m & -> & Hm & Hnone). destruct (Hnone eq_refl) as (Ham & Hsp & Hc). specialize (Hc Hpos).
    rewrite Hb in Hc. rewrite pos_lt_iff in Hc by lia. simpl in Hi. rewrite Hi, Hw.
    pose proof (indent_fits a m Ham ltac:(lia) Hsp) as Hind. cbn [ind_width].
    assert (upto m <= upto b)%Qc by (apply upto_le; lia). split; [qc_lra|].
    intros Hmo. specialize (Hone m Hc Hmo). qc_lra.
  - destruct Hf as (_ & Hc & _). lia.
Qed.

Lemma break_keeps k a ind l it (breaks : bool) :
  line_inv k a ind l → its !! k = Some it → (breaks = true → is_space it = false) →
  let l' := see l (pos k) breaks (is_space it) (item_width it) in
  l_wrap l' < pos k →
  (l_indent l' = None → ∀ f, l_first l' = Some f → l_wrap l' ≤ f) ∧
  (0 < l_cand l' ↔ l_wrap l' < l_cand l') ∧
  ∃ a', l_wrap (broken l' (pos k) (item_width it)) = pos a' ∧ a < a' ∧ a' ≤ k ∧ line_fits a a' ind ∧
    line_inv (S k) a' (ind_width (next_ind l')) (broken l' (pos k) (item_width it)).
Proof.
  intros Hl Hit Hb. pose proof (see_keeps k a ind l it breaks Hl Hit Hb) as Hl'. cbn zeta.
  pose proof (lookup_lt_Some _ _ _ Hit) as Hk. pose proof (inv_fits _ _ _ _ Hl) as Hfit. destruct Hl as [Hl0 Hok].
  assert (Hcd : l_cand (see l (pos k) breaks (is_space it) (item_width it)) = pos k ∨
    l_cand (see l (pos k) breaks (is_space it) (item_width it)) = l_cand l).
  { unfold see. cbn [l_cand]. destruct (breaks && _); auto. }
  set (l' := see l (pos k) breaks (is_space it) (item_width it)) in *. intros Hpos.
  pose proof Hl' as [Hkl Hst Hw Hwd Hi Hf Hc]. rewrite Hw in *.
  assert (Hak : a < k) by (rewrite pos_lt_iff in Hpos by lia; done). clear Hst.
  assert (Hpa : 0 < pos k) by lia.
  split; [|split].
  - intros Hn f Ef. rewrite Ef in Hf. destruct Hf as (m & -> & Hm & Hnone). destruct (Hnone Hn) as (Ham & _).
    destruct (decide (a = m)) as [->|]; [done|]. assert (pos a < pos m) by (apply pos_lt; lia). lia.
  - destruct Hc as [->|(b & -> & Hab & Hbk & _)]; [lia|]. split; [|lia]. intros _. apply pos_lt; lia.
  - destruct Hc as [Hc|(b & Hb' & Hab & Hbk & Hcw & Hcf)].
    + (* the line is broken before the item *)
      assert (Hbr : broken l' (pos k) (item_width it) =
        mkLine (item_width it + ind_width (next_ind l'))%Qc (l_first l') (next_ind l') 0 (l_cand_width l') (pos k)).
      { unfold broken. by rewrite Hc, decide_False by lia. }
      rewrite Hbr. exists k. split_and!; try done; try lia. split; [|right; left; lia].
      split; cbn [l_width l_first l_indent l_cand l_cand_width l_wrap];
        [lia|left; lia|done|rewrite (upto_S _ _ Hit); qc_lra|done| |by left].
      { unfold next_ind. destruct (l_first l') as [f|].
        -- destruct Hf as (m & -> & Hm & _). exists m. split; [done|]. split; [done|]. by destruct (l_indent l').
        -- destruct Hf as (Hin & _ & Hsp). rewrite Hin. split; [done|]. split; [done|].
           intros j it' Hj1 Hj2. apply Hsp; lia. }
    + (* the line is broken before the candidate *)
      assert (Hcpos : 0 < l_cand l') by (rewrite Hb'; assert (pos a < pos b) by (apply pos_lt; lia); lia).
      destruct (next_ind_fits (S k) a ind l' b Hl' Hb' Hab ltac:(lia) Hcpos) as [Hni Hnm].
      assert (Hbr : broken l' (pos k) (item_width it) =
        mkLine (ind_width (next_ind l') + upto (S k) - upto b)%Qc (l_first l') (next_ind l') 0 (l_cand_width l') (pos b)).
      { unfold broken. rewrite decide_True by done. rewrite Hb', Hwd, Hcw. f_equal. qc_lra. }
      rewrite Hbr. exists b. split_and!; try done; try lia. split.
      * split; cbn [l_width l_first l_indent l_cand l_cand_width l_wrap];
          [lia|left; lia|done|done|done| |by left].
        unfold next_ind. destruct (l_first l') as [f|]; [|by destruct Hf as (_ & ? & _); lia].
        destruct Hf as (m & -> & Hm & _). exists m. split; [done|]. split; [done|]. by destruct (l_indent l').
      * unfold line_ok. cbn [l_cand]. replace (S k - 1) with k by lia. destruct (decide (b = k)) as [->|Hne]; [by right; left; lia|].
        assert (Hcl : l_cand l = pos b).
        { destruct Hcd as [Hcd|<-]; [|done]. rewrite Hcd in Hb'. exfalso.
          assert (pos b < pos k) by (apply pos_lt; lia). lia. }
        destruct Hok as [Hfull|[?|(_ & Hz & _)]]; [|lia|rewrite Hb' in Hcpos; lia].
        destruct mono eqn:Em; [|right; right; split; [done|]; split; [done|qc_lra]].
        left. specialize (Hnm eq_refl). rewrite (upto_S _ _ Hit). pose proof (mono_ok eq_refl) as Hall.
        rewrite Forall_lookup in Hall. rewrite (Hall _ _ Hit). qc_lra.
Qed.

(** ** The boundaries *)

(** Every line ends at a boundary that lies in the text, fits, and would not fit with what follows it. *)
Fixpoint wrapped (a : nat) (ind : Qc) (bs : list Boundary) : Prop :=
  match bs with
  | [] => line_fits a (length its) ind
  | b :: bs => ∃ k, ix b = pos k ∧ a < k ∧ k < length its ∧ line_fits a k ind ∧
      (∃ j, k ≤ j ∧ j < length its ∧ (wrap_width < ind + upto (S j) - upto a)%Qc) ∧
      wrapped k (indent_width (next_indent b)) bs
  end.

Definition line_of (st : WrapState (U:=Qc)) : Line :=
  mkLine (width st) (first_non_whitespace_ix st) (indent st) (last_candidate_ix st) (last_candidate_width st)
    (last_wrap_ix st).
Definition added (st : WrapState (U:=Qc)) (w : Qc) : WrapState :=
  mkWrap (cadd (width st) w) (first_non_whitespace_ix st) (indent st) (last_candidate_ix st)
    (last_candidate_width st) (last_wrap_ix st) (prev_c st) (index st).

Lemma ind_width_default (o : option N) : ind_width o = indent_width (default 0%N o).
Proof. destruct o; [done|]. change (0 = layout_width space * of_nat 0)%Qc. by rewrite of_nat_0, Qcmult_0_r. Qed.

Lemma see_item_ok (st : WrapState (U:=Qc)) it :
  is_newline it = false →
  ∃ st1 pc (breaks : bool), see_item layout_width st it = (st1, Some (pc, item_width it)) ∧
    (breaks = true → is_space it = false) ∧ index st1 = index st + candidate_len it ∧
    line_of (added st1 (item_width it)) = see (line_of st) (index st) breaks (is_space it) (item_width it).
Proof.
  intros Hn. unfold see_item. destruct it as [c|wd len]; cbn [is_newline is_space item_width] in *.
  - rewrite Hn. eexists _, _, (if is_word_char c then is_char (prev_c st) " " && negb (is_char c " ")
      else negb (is_char c " ")). split; [reflexivity|]. split; [|by split].
    destruct (is_char c " "); [|done]. rewrite andb_false_r. by destruct (is_word_char c).
  - eexists _, _, (is_char (prev_c st) " "). split; [reflexivity|]. by split.
Qed.

Lemma break_line_ok (st : WrapState (U:=Qc)) (i : nat) (w : Qc) :
  (indent st = None → ∀ f, first_non_whitespace_ix st = Some f → last_wrap_ix st ≤ f) →
  ∃ st', break_line layout_width st i w
      = Ok (st', mkBoundary (l_wrap (broken (line_of st) i w)) (default 0%N (next_ind (line_of st)))) ∧
    line_of st' = broken (line_of st) i w ∧ index st' = index st.
Proof.
  intros Hf. unfold break_line, broken, next_ind.
  cbn [line_of l_width l_first l_indent l_cand l_cand_width l_wrap].
  assert (Hind : match indent st, first_non_whitespace_ix st with
    | None, Some first => n ← checked_sub first (last_wrap_ix st); Ok (Some (N.min MAX_INDENT (as_u32 n)))
    | indent, _ => Ok indent
    end = Ok (next_ind (line_of st))).
  { unfold next_ind. cbn [line_of l_indent l_first l_wrap]. destruct (indent st) as [n|]; [done|].
    destruct (first_non_whitespace_ix st) as [f|]; [|done]. rewrite checked_sub_ok by auto. done. }
  rewrite Hind. cbn [mbind outcome_bind]. unfold next_ind. cbn [line_of l_indent l_first l_wrap].
  set (o := match indent st with Some _ => _ | None => _ end).
  destruct (decide (0 < last_candidate_ix st)); eexists; (split; [reflexivity|]); (split; [|reflexivity]);
    unfold line_of; cbn [width first_non_whitespace_ix indent last_candidate_ix last_candidate_width last_wrap_ix];
    f_equal; destruct o; cbn [ind_width cadd csub Qc_coord]; try done; by rewrite Qcplus_0_r.
Qed.

Lemma next_boundary_ok rest st k a ind :
  drop k its = rest → line_inv k a ind (line_of st) → index st = pos k →
  (next_boundary layout_width wrap_width rest st = Ok None ∧ line_fits a (length its) ind) ∨
  ∃ b k' st' a', next_boundary layout_width wrap_width rest st = Ok (Some (b, drop k' its, st')) ∧
    k < k' ∧ k' ≤ length its ∧ ix b = pos a' ∧ a < a' ∧ a' < k' ∧ line_fits a a' ind ∧
    (wrap_width < ind + upto k' - upto a)%Qc ∧ index st' = pos k' ∧
    line_inv k' a' (indent_width (next_indent b)) (line_of st').
Proof.
  revert st k. induction rest as [|it rest IH]; intros st k Hd Hl Hidx; pose proof (li_bound _ _ _ _ (proj1 Hl)) as Hkb.
  - left. split; [done|]. apply inv_fits in Hl. pose proof (f_equal length Hd) as Hlen. rewrite length_drop in Hlen.
    simpl in Hlen. by replace (length its) with k by lia.
  - assert (Hit : its !! k = Some it) by (rewrite <-(Nat.add_0_r k), <-lookup_drop, Hd; done).
    assert (Hd' : drop (S k) its = rest) by (rewrite (drop_S _ _ _ Hit) in Hd; by injection Hd).
    destruct (item_ok _ _ Hit) as (_ & _ & Hnl). pose proof (lookup_lt_Some _ _ _ Hit) as Hk.
    destruct (see_item_ok st it Hnl) as (st1 & pc & breaks & Hsee & Hb & Hidx1 & Hline).
    cbn [next_boundary]. rewrite Hsee. cbn zeta. fold (added st1 (item_width it)). rewrite Hidx in *.
    change (width (added st1 (item_width it))) with (l_width (line_of (added st1 (item_width it)))).
    change (last_wrap_ix (added st1 (item_width it))) with (l_wrap (line_of (added st1 (item_width it)))).
    pose proof (see_keeps k a ind (line_of st) it breaks Hl Hit Hb) as Hbase. rewrite <-Hline in Hbase.
    rewrite <-(pos_S _ _ Hit) in Hidx1.
    destruct (clt wrap_width (l_width (line_of (added st1 (item_width it)))) && _) eqn:Hbr.
    + right. pose proof Hbr as [Hover Hlt]%andb_true_iff. apply Nat.ltb_lt in Hlt.
      destruct (break_keeps k a ind (line_of st) it breaks Hl Hit Hb) as (Hfirst & _ & a' & Hw' & Haa & Hak & Hfit & Hinv).
      { by rewrite <-Hline. }
      rewrite <-Hline in *. destruct (break_line_ok (added st1 (item_width it)) (pos k) (item_width it) Hfirst)
        as (st' & -> & Hl' & Hidx'). cbn [mbind outcome_bind].
      eexists _, (S k), st', a'. rewrite Hd'. split; [reflexivity|]. cbn [ix next_indent].
      rewrite <-ind_width_default, Hl', Hidx'. split_and!; try done; try lia.
      destruct (clt_spec wrap_width (l_width (line_of (added st1 (item_width it))))) as [Ho|]; [|done].
      by rewrite (li_width _ _ _ _ Hbase) in Ho.
    + pose proof (goes_on _ _ _ _ Hbase Hbr) as Hinv.
      destruct (IH (mkWrap (width (added st1 (item_width it))) (first_non_whitespace_ix st1) (indent st1)
        (last_candidate_ix st1) (last_candidate_width st1) (last_wrap_ix st1) pc (index st1)) (S k) Hd')
        as [Hnone|(b & k' & st' & a' & Hr & Hkk & Hrest)]; [exact Hinv|exact Hidx1|by left|].
      right. exists b, k', st', a'. split; [exact Hr|]. split; [lia|exact Hrest].
Qed.

Lemma wrap_loop_ok fuel st k a ind :
  line_inv k a ind (line_of st) → index st = pos k → length its < fuel + k →
  ∃ bs, wrap_loop layout_width fuel wrap_width (drop k its) st = Ok bs ∧ wrapped a ind bs.
Proof.
  revert st k a ind. induction fuel as [|fuel IH]; intros st k a ind Hl Hidx Hf;
    pose proof (li_bound _ _ _ _ (proj1 Hl)) as Hkb; [lia|]. cbn [wrap_loop].
  destruct (next_boundary_ok (drop k its) st k a ind eq_refl Hl Hidx)
    as [[-> Hfit]|(b & k' & st' & a' & -> & Hkk & Hkl & Hix & Haa & Hak & Hfit & Hover & Hidx' & Hinv)];
    cbn [mbind outcome_bind]; [by exists []|].
  destruct (IH st' k' a' _ Hinv Hidx') as (bs & -> & Hbs); [lia|]. cbn [mbind outcome_bind].
  eexists. split; [done|]. exists a'. split; [done|]. split; [done|]. split; [lia|]. split; [done|].
  split; [|done]. exists (k' - 1). split; [lia|]. split; [lia|]. by replace (S (k' - 1)) with k' by lia.
Qed.
End wrap.

(** ** Runs *)

Section runs.
Context {S : Type}.
Implicit Types runs : list (TextRun S).

(** The style of every byte. *)
Definition styles runs : list S := flat_map (λ r, repeat (run_style r) (run_len r)) runs.

Lemma styles_app runs1 runs2 : styles (runs1 ++ runs2) = styles runs1 ++ styles runs2.
Proof. apply flat_map_app. Qed.
Lemma repeat_rev {A} (x : A) n : rev (repeat x n) = repeat x n.
Proof.
  induction n as [|n IH]; [done|]. simpl. rewrite IH. clear IH. induction n as [|n IH]; simpl; [done|]. by rewrite <-IH.
Qed.
Lemma styles_rev runs : styles (rev runs) = rev (styles runs).
Proof.
  induction runs as [|r runs IH]; [done|]. simpl. rewrite styles_app, IH, rev_app_distr, repeat_rev.
  simpl. by rewrite app_nil_r.
Qed.

Lemma cut_runs_styles at_ e runs s :
  styles runs !! at_ = Some s → styles (cut_runs at_ e runs) = take at_ (styles runs) ++ repeat s e.
Proof.
  revert at_. induction runs as [|r runs IH]; intros at_ Hs; [done|]. simpl in *.
  destruct (decide (run_len r ≤ at_)) as [Hle|Hgt].
  - rewrite lookup_app_r in Hs by (rewrite repeat_length; lia). rewrite repeat_length in Hs.
    simpl. rewrite (IH _ Hs), take_app, repeat_length, (take_ge (repeat _ _)), app_assoc by (rewrite repeat_length; lia). done.
  - rewrite lookup_app_l in Hs by (rewrite repeat_length; lia).
    apply list_elem_of_lookup_2, list_elem_of_In, repeat_spec in Hs as ->.
    simpl. rewrite app_nil_r, repeat_app, take_app_le by (rewrite repeat_length; lia). f_equal.
    assert (repeat (run_style r) (run_len r) = repeat (run_style r) at_ ++ repeat (run_style r) (run_len r - at_)) as ->
      by (rewrite <-repeat_app; f_equal; lia).
    by rewrite take_app_length' by (by rewrite repeat_length).
Qed.

Lemma front_runs_cut at_ e runs :
  at_ < length (styles runs) → front_runs at_ e runs = (cut_runs at_ e runs, true).
Proof.
  revert at_. induction runs as [|r runs IH]; intros at_ Hlt; simpl in *; [lia|].
  rewrite length_app, repeat_length in Hlt. destruct (decide (run_len r ≤ at_)); [|done].
  by rewrite IH by lia.
Qed.

Lemma back_runs_styles b p runs : styles (back_runs b p runs) = drop (b - p) (styles runs).
Proof.
  revert p. induction runs as [|r runs IH]; intros p; [simpl; by rewrite drop_nil|]. cbn [back_runs]. cbn zeta.
  rewrite styles_app, IH. change (styles (r :: runs)) with (repeat (run_style r) (run_len r) ++ styles runs).
  rewrite drop_app, repeat_length. replace (b - (p + run_len r)) with (b - p - run_len r) by lia. f_equal.
  destruct (decide (b < p + run_len r)) as [Hlt|Hge]; [destruct (decide (p < b))|]; simpl; rewrite ?app_nil_r.
  - replace (repeat (run_style r) (run_len r)) with
      (repeat (run_style r) (b - p) ++ repeat (run_style r) (p + run_len r - b)) by (rewrite <-repeat_app; f_equal; lia).
    by rewrite drop_app_length' by (by rewrite repeat_length).
  - by replace (b - p) with 0 by lia.
  - by rewrite drop_ge by (rewrite repeat_length; lia).
Qed.

(** The affix takes the style of a byte that it replaces: the first one, or the last one at the start. *)
Lemma update_end_styles (front affix : list char) runs s :
  styles runs !! byte_len front = Some s →
  ∃ runs', update_runs_after_truncation (front ++ affix) affix runs TruncateEnd = Ok runs' ∧
    styles runs' = take (byte_len front) (styles runs) ++ repeat s (byte_len affix).
Proof.
  intros Hs. unfold update_runs_after_truncation. rewrite byte_len_app, checked_sub_ok by lia.
  cbn [mbind outcome_bind]. rewrite Nat.add_sub. eexists. split; [done|]. by apply cut_runs_styles.
Qed.
Lemma update_start_styles (affix back : list char) runs s n :
  length (styles runs) = Datatypes.S n + byte_len back → styles runs !! n = Some s →
  ∃ runs', update_runs_after_truncation (affix ++ back) affix runs TruncateStart = Ok runs' ∧
    styles runs' = repeat s (byte_len affix) ++ drop (Datatypes.S n) (styles runs).
Proof.
  intros Hlen Hs. unfold update_runs_after_truncation. rewrite byte_len_app, checked_sub_ok by lia.
  cbn [mbind outcome_bind]. replace (byte_len affix + byte_len back - byte_len affix) with (byte_len back) by lia.
  eexists. split; [done|].
  pose proof (take_drop_middle _ _ _ Hs) as Hmid. pose proof (lookup_lt_Some _ _ _ Hs) as Hlt.
  assert (Hm : length (drop (Datatypes.S n) (styles runs)) = byte_len back) by (rewrite length_drop; lia).
  rewrite styles_rev, (cut_runs_styles _ _ _ s).
  - rewrite rev_app_distr, repeat_rev, styles_rev, firstn_rev, rev_involutive. do 2 f_equal. lia.
  - rewrite styles_rev, <-Hmid, rev_app_distr. cbn [rev]. rewrite <-app_assoc.
    rewrite lookup_app_r by (rewrite length_rev; lia). rewrite length_rev, Hm, Nat.sub_diag. done.
Qed.
Lemma update_middle_styles (affix : list char) runs front back s :
  styles runs !! front = Some s →
  styles (update_runs_after_middle_truncation affix runs front back)
    = take front (styles runs) ++ repeat s (byte_len affix) ++ drop back (styles runs).
Proof.
  intros Hs. pose proof (lookup_lt_Some _ _ _ Hs). unfold update_runs_after_middle_truncation.
  rewrite front_runs_cut by done. by rewrite styles_app, (cut_runs_styles _ _ _ s), back_runs_styles, Nat.sub_0_r, <-app_assoc.
Qed.
End runs.

(** ** Widths *)

Section loops.
Context `{!CharTables} (layout_width : char → Qc).
Hypothesis width_nonneg : ∀ c, (0 <= layout_width c)%Qc.
Notation tw := (text_width layout_width).
Implicit Types s p q : list char.

Lemma text_width_snoc s c : tw (s ++ [c]) = (tw s + layout_width c)%Qc.
Proof. unfold text_width. by rewrite foldl_app. Qed.
Lemma text_width_app p q : tw (p ++ q) = (tw p + tw q)%Qc.
Proof.
  induction q as [|c q IH] using rev_ind; [rewrite app_nil_r; change (tw []) with 0%Qc; qc_lra|].
  rewrite app_assoc, !text_width_snoc, IH. qc_lra.
Qed.
Lemma text_width_cons c s : tw (c :: s) = (layout_width c + tw s)%Qc.
Proof. change (c :: s) with ([c] ++ s). rewrite text_width_app. unfold text_width at 1. simpl. qc_lra. Qed.
Lemma text_width_nonneg s : (0 <= tw s)%Qc.
Proof.
  induction s as [|c s IH]; [change (tw []) with 0%Qc; qc_lra|]. rewrite text_width_cons. pose proof (width_nonneg c). qc_lra.
Qed.

Lemma pfloor_le (a : Qc) : (pfloor a <= a)%Qc.
Proof. unfold Qcle. cbn [pfloor Qc_floor]. simpl. rewrite Qred_correct. apply Qfloor_le. Qed.

(** The loops of [should_truncate_line]. *)
Lemma truncate_end_ok (suffix budget : Qc) p q (t : nat) :
  match truncate_loop layout_width suffix budget (char_indices_from (byte_len p) q) (tw p) t with
  | None => q = [] ∨ (pfloor (tw (p ++ q)) <= budget)%Qc
  | Some ix => (budget < tw (p ++ q))%Qc ∧
      (ix = t ∨ ∃ q1 q2, q = q1 ++ q2 ∧ q2 ≠ [] ∧ ix = byte_len (p ++ q1) ∧ (tw (p ++ q1) + suffix < budget)%Qc)
  end.
Proof.
  revert p t. induction q as [|c q IH]; intros p t; cbn [char_indices_from truncate_loop]; [by left|]. cbn zeta.
  change (cadd (tw p) (layout_width c)) with (tw p + layout_width c)%Qc. rewrite <-text_width_snoc.
  set (t' := if clt _ _ then _ else t).
  assert (Ht' : t' = t ∨ (t' = byte_len p ∧ (tw p + suffix < budget)%Qc)).
  { unfold t'. destruct (clt_spec (cadd (tw p) suffix) budget); auto. }
  assert (Hsplit : p ++ c :: q = (p ++ [c]) ++ q) by by rewrite <-app_assoc.
  destruct (clt_spec budget (pfloor (tw (p ++ [c])))) as [Hlt|Hge].
  - split.
    + rewrite Hsplit, text_width_app. pose proof (text_width_nonneg q). pose proof (pfloor_le (tw (p ++ [c]))). qc_lra.
    + destruct Ht' as [->|[-> ?]]; [by left|right]. exists [], (c :: q). rewrite app_nil_r. done.
  - specialize (IH (p ++ [c]) t'). rewrite byte_len_app in IH. change (byte_len [c]) with (len_utf8 c + 0) in IH.
    rewrite Nat.add_0_r in IH. destruct (truncate_loop _ _ _ _ _ _) as [ix|].
    + destruct IH as [Hb [->|(q1 & q2 & -> & Hq & -> & Hw)]]; rewrite Hsplit; (split; [done|]).
      * destruct Ht' as [->|[-> ?]]; [by left|right]. exists [], (c :: q). rewrite app_nil_r. done.
      * right. exists (c :: q1), q2. rewrite <-!app_assoc in *. done.
    + right. rewrite Hsplit. destruct IH as [->|IH]; [by rewrite app_nil_r|done].
Qed.

Lemma char_indices_snoc p c : char_indices (p ++ [c]) = char_indices p ++ [(byte_len p, c)].
Proof. unfold char_indices. by rewrite char_indices_app. Qed.

Lemma truncate_start_ok (suffix budget : Qc) p q (t : nat) :
  match truncate_loop layout_width suffix budget (rev (char_indices p)) (tw q) t with
  | None => p = [] ∨ (pfloor (tw (p ++ q)) <= budget)%Qc
  | Some ix => (budget < tw (p ++ q))%Qc ∧
      ((budget <= tw q + suffix)%Qc ∧ ix = t ∨
       ∃ p1 c p2, p = p1 ++ c :: p2 ∧ ix = byte_len p1 ∧ (tw (p2 ++ q) + suffix < budget)%Qc)
  end.
Proof.
  revert q t. induction p as [|c p IH] using rev_ind; intros q t; [by left|].
  rewrite char_indices_snoc, rev_app_distr. cbn [rev app truncate_loop]. cbn zeta.
  assert (Hw : cadd (tw q) (layout_width c) = tw (c :: q)) by (rewrite text_width_cons; cbn [cadd Qc_coord]; qc_lra).
  rewrite Hw. set (t' := if clt _ _ then _ else t).
  assert (Hsplit : (p ++ [c]) ++ q = p ++ c :: q) by by rewrite <-app_assoc.
  assert (Ht' : (t' = t ∧ (budget <= tw q + suffix)%Qc) ∨ (t' = byte_len p ∧ (tw q + suffix < budget)%Qc)).
  { unfold t'. destruct (clt_spec (cadd (tw q) suffix) budget); auto. }
  assert (Hhere : (budget <= tw q + suffix)%Qc ∧ t' = t ∨
    ∃ p1 d p2, p ++ [c] = p1 ++ d :: p2 ∧ t' = byte_len p1 ∧ (tw (p2 ++ q) + suffix < budget)%Qc).
  { destruct Ht' as [[-> ?]|[-> ?]]; [by left|right]. by exists p, c, []. }
  destruct (clt_spec budget (pfloor (tw (c :: q)))) as [Hlt|Hge].
  - split; [|done]. rewrite Hsplit, text_width_app. pose proof (text_width_nonneg p).
    pose proof (pfloor_le (tw (c :: q))). qc_lra.
  - specialize (IH (c :: q) t'). rewrite Hsplit. destruct (truncate_loop _ _ _ _ _ _) as [ix|].
    + destruct IH as [Hb [[_ ->]|(p1 & d & p2 & -> & -> & Hp2)]]; (split; [done|]); [done|].
      right. exists p1, d, (p2 ++ [c]). rewrite <-!app_assoc. done.
    + right. destruct IH as [->|IH]; done.
Qed.

(** The loops of [should_truncate_line_middle]. *)
Lemma front_loop_ok (budget : Qc) p q :
  (tw p <= budget)%Qc →
  ∃ q1 q2, q = q1 ++ q2 ∧ (tw (p ++ q1) <= budget)%Qc ∧
    front_loop layout_width budget (char_indices_from (byte_len p) q) (tw p) (byte_len p) = byte_len (p ++ q1).
Proof.
  revert p. induction q as [|c q IH]; intros p Hp; [exists [], []; by rewrite !app_nil_r|].
  cbn [char_indices_from front_loop]. change (cadd (tw p) (layout_width c)) with (tw p + layout_width c)%Qc.
  rewrite <-text_width_snoc. destruct (clt_spec budget (tw (p ++ [c]))) as [Hlt|Hge].
  - exists [], (c :: q). by rewrite !app_nil_r.
  - destruct (IH (p ++ [c]) Hge) as (q1 & q2 & -> & Hq & Hl). exists (c :: q1), q2. split; [done|].
    rewrite byte_len_app in Hl. change (byte_len [c]) with (len_utf8 c + 0) in Hl. rewrite Nat.add_0_r in Hl.
    rewrite <-app_assoc in Hq, Hl. split; [exact Hq|exact Hl].
Qed.
Lemma back_loop_ok (budget : Qc) p q :
  (tw q <= budget)%Qc →
  ∃ p1 p2, p = p1 ++ p2 ∧ (tw (p2 ++ q) <= budget)%Qc ∧
    back_loop layout_width budget (rev (char_indices p)) (tw q) (byte_len p) = byte_len p1.
Proof.
  revert q. induction p as [|c p IH] using rev_ind; intros q Hq; [by exists [], []|].
  rewrite char_indices_snoc, rev_app_distr. cbn [rev app back_loop].
  assert (Hw : cadd (tw q) (layout_width c) = tw (c :: q)) by (rewrite text_width_cons; cbn [cadd Qc_coord]; qc_lra).
  rewrite Hw. destruct (clt_spec budget (tw (c :: q))) as [Hlt|Hge].
  - exists (p ++ [c]), []. by rewrite !app_nil_r.
  - destruct (IH (c :: q) Hge) as (p1 & p2 & -> & Hp & Hl). exists p1, (p2 ++ [c]). rewrite <-!app_assoc. done.
Qed.
End loops.

Section clamp.
Context `{!CharTables} (layout_width : char → Qc) (wrap_width affix_width : Qc).
Hypothesis width_nonneg : ∀ c, (0 <= layout_width c)%Qc.
Variables (text : list char) (max_lines : nat) (mono : bool).
Hypothesis no_newline : Forall (λ c, is_char c "010" = false) text.
Hypothesis mono_ok : mono = true → ∀ c, layout_width c = layout_width (ch " ").
Hypothesis max_lines_ok : 1 < max_lines.

Definition chars_of : list (WrapBoundaryCandidate Qc) := map CandidateChar text.
Notation its := chars_of.
Notation upto := (upto layout_width its).
Notation pos := (pos its).
Notation fits := (line_fits layout_width wrap_width its mono).
Notation inv := (line_inv layout_width wrap_width its mono).

Lemma its_ok : Forall (λ it, 0 < candidate_len it ∧ (0 <= item_width layout_width it)%Qc ∧ is_newline it = false) its.
Proof.
  unfold its. apply Forall_map. eapply Forall_impl; [exact no_newline|]. intros c Hc. cbn. 
  split; [apply len_utf8_pos|]. by split.
Qed.
Lemma its_mono : mono = true → Forall (λ it, item_width layout_width it = layout_width (ch " ")) its.
Proof. intros Hm. unfold its. apply Forall_map, Forall_forall. intros c _. by apply mono_ok. Qed.

Lemma pos_bytes k : pos k = byte_len (take k text).
Proof.
  unfold LineWrapFacts.pos, items_len, byte_len, its. rewrite firstn_map, map_map. done.
Qed.
Lemma upto_width k : upto k = text_width layout_width (take k text).
Proof.
  unfold LineWrapFacts.upto, its. rewrite firstn_map. induction (take k text) as [|c s IH]; [done|].
  rewrite text_width_cons. simpl. by rewrite IH.
Qed.
Lemma lookup_its k c : text !! k = Some c → its !! k = Some (CandidateChar c).
Proof. intros Hc. unfold its. by rewrite list_lookup_fmap, Hc. Qed.

(** [n] breaks of lines that fit lead from a line to another one. *)
Inductive breaks : nat → nat → Qc → Prop :=
| breaks_none : breaks 0 0 0%Qc
| breaks_one n a ind a' ind' : breaks n a ind → a < a' → fits a a' ind → breaks (S n) a' ind'.

Definition line_of_clamp (st : ClampState (U:=Qc)) : Line :=
  mkLine (t_width st) (t_first_non_whitespace_ix st) (t_indent st) (t_last_candidate_ix st)
    (t_last_candidate_width st) (t_last_wrap_ix st).

(** Where the text would be truncated: at the start of the line, or in the last line where the affix fits. *)
Definition cut_ok (n a : nat) (ind : Qc) (k t : nat) : Prop :=
  t = pos a ∨ n = max_lines - 1 ∧ ∃ j, t = pos j ∧ a ≤ j ∧ j ≤ k ∧ (ind + upto j - upto a + affix_width <= wrap_width)%Qc.

Record clamp_inv (k a : nat) (ind : Qc) (st : ClampState (U:=Qc)) : Prop := {
  cl_line : inv k a ind (line_of_clamp st);
  cl_breaks : breaks (t_line st) a ind;
  cl_max : t_line st ≤ max_lines - 1;
  cl_cut : cut_ok (t_line st) a ind k (t_truncate_ix st);
}.

Lemma add_char_line (st : ClampState (U:=Qc)) i c :
  ∃ breaks : bool, (breaks = true → is_char c " " = false) ∧
    line_of_clamp (add_char layout_width st i c)
      = see (line_of_clamp st) i breaks (is_char c " ") (layout_width c) ∧
    t_line (add_char layout_width st i c) = t_line st ∧
    t_truncate_ix (add_char layout_width st i c) = t_truncate_ix st.
Proof.
  exists (if is_word_char c then is_char (t_prev_c st) " " else negb (is_char c " ")). split; [|done].
  destruct (is_char c " ") eqn:E; [|done]. apply N.eqb_eq in E as ->. vm_compute. done.
Qed.

Lemma wrap_clamped_ok (st : ClampState (U:=Qc)) (i : nat) (w : Qc) :
  (t_indent st = None → ∀ f, t_first_non_whitespace_ix st = Some f → t_last_wrap_ix st ≤ f) →
  (0 < t_last_candidate_ix st ↔ t_last_wrap_ix st < t_last_candidate_ix st) →
  ∃ st', wrap_clamped layout_width st i w = Ok st' ∧
    line_of_clamp st' = broken layout_width (line_of_clamp st) i w ∧ t_line st' = t_line st + 1 ∧
    t_truncate_ix st' = l_wrap (broken layout_width (line_of_clamp st) i w).
Proof.
  intros Hf Hc. unfold wrap_clamped, broken.
  assert (Hind : match t_indent st, t_first_non_whitespace_ix st with
    | None, Some first => n ← checked_sub first (t_last_wrap_ix st); Ok (Some (N.min MAX_INDENT (as_u32 n)))
    | indent, _ => Ok indent
    end = Ok (next_ind (line_of_clamp st))).
  { unfold next_ind. cbn [line_of_clamp l_indent l_first l_wrap]. destruct (t_indent st) as [n|]; [done|].
    destruct (t_first_non_whitespace_ix st) as [f|]; [|done]. rewrite checked_sub_ok by auto. done. }
  rewrite Hind. cbn [mbind outcome_bind]. set (o := next_ind (line_of_clamp st)).
  cbn [line_of_clamp l_width l_first l_indent l_cand l_cand_width l_wrap].
  destruct (decide (t_last_wrap_ix st < t_last_candidate_ix st)), (decide (0 < t_last_candidate_ix st)); try tauto;
    eexists; (split; [reflexivity|]);
    unfold line_of_clamp; cbn [t_width t_line t_first_non_whitespace_ix t_indent t_last_candidate_ix
      t_last_candidate_width t_last_wrap_ix t_truncate_ix]; (split; [|by split]);
    f_equal; destruct o; cbn [ind_width cadd csub Qc_coord]; try done; by rewrite Qcplus_0_r.
Qed.

Definition clamped (o : outcome (option nat)) : Prop :=
  ∃ n a ind, breaks n a ind ∧ n ≤ max_lines - 1 ∧
    ((o = Ok None ∧ fits a (length text) ind) ∨
     (n = max_lines - 1 ∧ ∃ t j, o = Ok (Some t) ∧ cut_ok n a ind (length text) t ∧
        a < j ∧ j ≤ length text ∧ (wrap_width < ind + upto j - upto a)%Qc)).

Lemma clamp_loop_ok rest st k a ind :
  drop k text = rest → clamp_inv k a ind st →
  clamped (clamp_loop layout_width text wrap_width affix_width max_lines (char_indices_from (pos k) rest) st).
Proof.
  revert st k a ind. induction rest as [|c rest IH]; intros st k a ind Hd [Hl Hb Hm Hc];
    pose proof (li_bound _ _ _ _ _ _ _ _ (proj1 Hl)) as Hkb; unfold chars_of in Hkb; rewrite length_map in Hkb.
  - exists (t_line st), a, ind. split; [done|]. split; [done|]. left. split; [done|].
    apply (inv_fits layout_width wrap_width its its_ok mono its_mono) in Hl. pose proof (f_equal length Hd) as Hlen.
    rewrite length_drop in Hlen. simpl in Hlen. by replace (length text) with k by lia.
  - assert (Hit : text !! k = Some c) by (rewrite <-(Nat.add_0_r k), <-lookup_drop, Hd; done).
    assert (Hd' : drop (S k) text = rest) by (rewrite (drop_S _ _ _ Hit) in Hd; by injection Hd).
    pose proof (lookup_its _ _ Hit) as Hits. pose proof (lookup_lt_Some _ _ _ Hit) as Hk.
    assert (Hnl : is_char c "010" = false) by (rewrite Forall_lookup in no_newline; eauto).
    assert (Hpos : pos k + len_utf8 c = pos (S k)) by (symmetry; apply (pos_S its _ _ Hits)).
    cbn [char_indices_from clamp_loop]. rewrite checked_sub_ok by lia. cbn [mbind outcome_bind]. rewrite Hnl, Hpos.
    cbn zeta. destruct (add_char_line st (pos k) c) as (br & Hbr & Hline & Hln & Htr).
    set (st1 := add_char layout_width st (pos k) c) in *. rewrite Hln.
    pose proof (see_keeps layout_width wrap_width its its_ok mono its_mono k a ind (line_of_clamp st) _ br Hl Hits Hbr) as Hbase.
    cbn [is_space item_width] in Hbase. rewrite <-Hline in Hbase.
    change (t_width st1) with (l_width (line_of_clamp st1)).
    destruct (decide (t_line st < max_lines - 1)) as [Hearly|Hlast].
    + change (t_last_wrap_ix st1) with (l_wrap (line_of_clamp st1)).
      assert (Hcut : t_truncate_ix st = pos a) by (destruct Hc as [?|[? _]]; [done|lia]).
      destruct (clt wrap_width (l_width (line_of_clamp st1)) && _) eqn:Ebr.
      * pose proof Ebr as [_ Hlt]%andb_true_iff. apply Nat.ltb_lt in Hlt.
        destruct (break_keeps layout_width wrap_width its its_ok (width_nonneg _) mono its_mono k a ind (line_of_clamp st)
          _ br Hl Hits Hbr) as (Hfirst & Hcand & a' & Hw' & Haa & Hak & Hfit & Hinv).
        { cbn [is_space item_width]. by rewrite <-Hline. }
        cbn [is_space item_width] in *. rewrite <-Hline in *.
        destruct (wrap_clamped_ok st1 (pos k) (layout_width c) Hfirst Hcand) as (st2 & -> & Hl2 & Hn2 & Ht2).
        cbn [mbind outcome_bind]. apply (IH _ (S k) a' (ind_width layout_width (next_ind (line_of_clamp st1))) Hd'). rewrite <-Hl2 in Hinv, Hw'. split.
        -- exact Hinv.
        -- cbn [with_prev_c t_line]. rewrite Hn2, Hln, Nat.add_1_r. by eapply breaks_one.
        -- cbn [with_prev_c t_line]. lia.
        -- left. cbn [with_prev_c t_truncate_ix]. rewrite Ht2, <-Hl2. exact Hw'.
      * cbn [mbind outcome_bind]. apply (IH _ (S k) a ind Hd'). split; cbn [with_prev_c t_line t_truncate_ix].
        -- exact (goes_on layout_width wrap_width its its_ok mono _ _ _ _ Hbase Ebr).
        -- by rewrite Hln.
        -- rewrite Hln. lia.
        -- left. by rewrite Htr.
    + assert (Hn : t_line st = max_lines - 1) by lia.
      set (st2 := if cle _ wrap_width then _ else st1).
      assert (line_of_clamp st2 = line_of_clamp st1 ∧ t_line st2 = t_line st1 ∧
        cut_ok (t_line st) a ind (S k) (t_truncate_ix st2)) as (Hl2 & Hn2 & Hc2).
      { unfold st2. destruct (cle_spec (cadd (l_width (line_of_clamp st1)) affix_width) wrap_width) as [Hfit|_].
        - split; [done|]. split; [done|]. right. split; [done|]. exists (S k). split; [done|].
          pose proof (li_start _ _ _ _ _ _ _ _ Hbase). split; [lia|]. split; [lia|].
          rewrite (li_width _ _ _ _ _ _ _ _ Hbase) in Hfit. exact Hfit.
        - split; [done|]. split; [done|]. rewrite Htr. destruct Hc as [?|(? & j & ? & ? & ? & ?)]; [by left|right].
          split; [done|]. exists j. split_and!; try done. lia. }
      clearbody st2. change (t_width st2) with (l_width (line_of_clamp st2)). rewrite Hl2.
      destruct (clt_spec wrap_width (l_width (line_of_clamp st1))) as [Hover|Hfit].
      * exists (t_line st), a, ind. split; [done|]. split; [done|]. right. split; [done|].
        exists (t_truncate_ix st2), (S k). split; [done|]. rewrite (li_width _ _ _ _ _ _ _ _ Hbase) in Hover.
        split; [|split; [|split; [lia|done]]].
        -- destruct Hc2 as [?|(? & j & ? & ? & ? & ?)]; [by left|right]. split; [done|]. exists j. split_and!; try done. lia.
        -- destruct (li_start _ _ _ _ _ _ _ _ Hbase); lia.
      * apply (IH _ (S k) a ind Hd'). split; cbn [with_prev_c t_line t_truncate_ix].
        -- split; [by rewrite <-Hl2 in Hbase|]. left. by rewrite (li_width _ _ _ _ _ _ _ _ Hbase) in Hfit.
        -- by rewrite Hn2, Hln.
        -- rewrite Hn2. lia.
        -- by rewrite Hn2, Hln.
Qed.
End clamp.
