(* ===== verification/LineLayout.v ===== *)
(** Shaped lines of [crates/gpui/src/text_system/line_layout.rs]: hit tests, wrap boundaries over glyphs and
    forced widths. Shaping itself is done by the platform, which gives the glyphs. *)
From Stdlib Require Import Ascii.
From S2P Require Import Prelude Chars Geometry Pixels LineWrapper.
Local Open Scope nat_scope.

(** ** Data *)

(** [struct ShapedGlyph], with the identifiers as numbers, and [struct ShapedRun]. *)
Record ShapedGlyph (U : Type) : Type := mkGlyph {
  glyph_id : nat;
  position : Point U;
  glyph_index : nat;
  is_emoji : bool;
}.
Arguments mkGlyph {U}.
Arguments glyph_id {U}.
Arguments position {U}.
Arguments glyph_index {U}.
Arguments is_emoji {U}.
Record ShapedRun (U : Type) : Type := mkShaped { font_id : nat; glyphs : list (ShapedGlyph U) }.
Arguments mkShaped {U}.
Arguments font_id {U}.
Arguments glyphs {U}.

Module LineLayout.
Record t (U : Type) : Type := mk {
  font_size : U;
  width : U;
  ascent : U;
  descent : U;
  runs : list (ShapedRun U);
  len : nat;
}.
Arguments mk {U}.
Arguments font_size {U}.
Arguments width {U}.
Arguments ascent {U}.
Arguments descent {U}.
Arguments runs {U}.
Arguments len {U}.
End LineLayout.

(** [struct WrapBoundary], with the derived order. *)
Record WrapBoundary : Type := mkWrapBoundary { run_ix : nat; glyph_ix : nat }.
Definition boundary_lt (a b : WrapBoundary) : bool :=
  (run_ix a <? run_ix b) || (run_ix a =? run_ix b) && (glyph_ix a <? glyph_ix b).

Section layout.
Context {U : Type} `{!Coord U, !PixelOps U, !PixelFloor U}.
Implicit Types self : LineLayout.t U.
Implicit Types x : U.

(** The glyphs in the order of the nested loops over runs and glyphs. *)
Definition all_glyphs self : list (ShapedGlyph U) := flat_map glyphs (LineLayout.runs self).

(** ** Hit tests *)

Definition glyph_x (g : ShapedGlyph U) : U := Geometry.x (position g).

Definition index_for_x self x : option nat :=
  if cle (LineLayout.width self) x then None
  else
    match List.find (λ g, cle (glyph_x g) x) (rev (all_glyphs self)) with
    | Some g => Some (glyph_index g)
    | None => Some 0
    end.

Fixpoint closest_loop (gs : list (ShapedGlyph U)) x (prev_index : nat) (prev_x : U) : option nat :=
  match gs with
  | [] => None
  | g :: gs =>
      if cle x (glyph_x g)
      then Some (if clt (csub (glyph_x g) x) (csub x prev_x) then glyph_index g else prev_index)
      else closest_loop gs x (glyph_index g) (glyph_x g)
  end.
Definition closest_index_for_x self x : nat :=
  match closest_loop (all_glyphs self) x 0 czero with
  | Some ix => ix
  | None =>
      if LineLayout.len self =? 1
      then if clt (chalf (LineLayout.width self)) x then 1 else 0
      else LineLayout.len self
  end.

Definition x_for_index self (index : nat) : U :=
  match List.find (λ g, index <=? glyph_index g) (all_glyphs self) with
  | Some g => glyph_x g
  | None => LineLayout.width self
  end.

Definition font_id_for_index self (index : nat) : option nat :=
  font_id <$> List.find (λ run, existsb (λ g, index <=? glyph_index g) (glyphs run)) (LineLayout.runs self).

(** ** Wrapping *)

(** The iterator over the glyphs of [compute_wrap_boundaries]. *)
Definition char_at (text : list char) (i : nat) : outcome char :=
  '(_, rest) ← split_bytes text i; unwrap (head rest).
Definition located self : list (WrapBoundary * ShapedGlyph U) :=
  concat (imap (λ r run, imap (λ g glyph, (mkWrapBoundary r g, glyph)) (glyphs run)) (LineLayout.runs self)).
Definition wrap_glyphs self (text : list char) : outcome (list (WrapBoundary * char * U)) :=
  mapM_ok (λ '(boundary, glyph), c ← char_at text (glyph_index glyph); Ok (boundary, c, glyph_x glyph)) (located self).

(** The variables of its loop. *)
Record GlyphWrap : Type := mkGlyphWrap {
  gw_boundaries : list WrapBoundary;
  gw_first : option WrapBoundary;
  gw_cand : option WrapBoundary;
  gw_cand_x : U;
  gw_last : WrapBoundary;
  gw_last_x : U;
  gw_prev : char;
}.
Definition glyph_wrap_start : GlyphWrap := mkGlyphWrap [] None None czero (mkWrapBoundary 0 0) czero 0%N.

(** A glyph before the check of the width. *)
Definition see_glyph (st : GlyphWrap) (boundary : WrapBoundary) (c : char) x : GlyphWrap :=
  let breaks :=
    (if is_word_char c then is_char (gw_prev st) " " && negb (is_char c " ") else negb (is_char c " ")) &&
    bool_decide (is_Some (gw_first st)) in
  mkGlyphWrap (gw_boundaries st)
    (if negb (is_char c " ") && bool_decide (gw_first st = None) then Some boundary else gw_first st)
    (if breaks then Some boundary else gw_cand st) (if breaks then x else gw_cand_x st)
    (gw_last st) (gw_last_x st) (gw_prev st).
(** The new boundary, at the last candidate or at the glyph. *)
Definition break_glyphs (st : GlyphWrap) (boundary : WrapBoundary) x : GlyphWrap :=
  let '(last_boundary, last_boundary_x) :=
    match gw_cand st with Some cand => (cand, gw_cand_x st) | None => (boundary, x) end in
  mkGlyphWrap (gw_boundaries st ++ [last_boundary]) (gw_first st) None (gw_cand_x st) last_boundary
    last_boundary_x (gw_prev st).
Definition set_prev (st : GlyphWrap) (c : char) : GlyphWrap :=
  mkGlyphWrap (gw_boundaries st) (gw_first st) (gw_cand st) (gw_cand_x st) (gw_last st) (gw_last_x st) c.

Fixpoint wrap_glyph_loop (line_width wrap_width : U) (max_lines : option nat)
    (gs : list (WrapBoundary * char * U)) (st : GlyphWrap) : list WrapBoundary :=
  match gs with
  | [] => gw_boundaries st
  | (boundary, c, x) :: gs =>
      if is_char c "010" then wrap_glyph_loop line_width wrap_width max_lines gs st
      else
        let st := see_glyph st boundary c x in
        let next_x := match gs with (_, next_x) :: _ => next_x | [] => line_width end in
        if clt wrap_width (csub next_x (gw_last_x st)) && boundary_lt (gw_last st) boundary then
          if match max_lines with Some max_lines => max_lines - 1 <=? length (gw_boundaries st) | None => false end
          then gw_boundaries st
          else wrap_glyph_loop line_width wrap_width max_lines gs (set_prev (break_glyphs st boundary x) c)
        else wrap_glyph_loop line_width wrap_width max_lines gs (set_prev st c)
  end.
Definition compute_wrap_boundaries self (text : list char) (wrap_width : U) (max_lines : option nat) :
    outcome (list WrapBoundary) :=
  gs ← wrap_glyphs self text;
  Ok (wrap_glyph_loop (LineLayout.width self) wrap_width max_lines gs glyph_wrap_start).
End layout.

(** ** Wrapped lines *)

Module WrappedLineLayout.
Record t (U : Type) : Type := mk {
  unwrapped_layout : LineLayout.t U;
  wrap_boundaries : list WrapBoundary;
  wrap_width : option U;
}.
Arguments mk {U}.
Arguments unwrapped_layout {U}.
Arguments wrap_boundaries {U}.
Arguments wrap_width {U}.
End WrappedLineLayout.

Section wrapped.
Context {U : Type} `{!Coord U, !PixelOps U, !PixelFloor U}.
Implicit Types self : WrappedLineLayout.t U.
Import WrappedLineLayout.

(** [len], [width] and [size]; [Pixels::MAX] is above every width. *)
Definition wrapped_len self : nat := LineLayout.len (unwrapped_layout self).
Definition wrapped_width self : U :=
  match wrap_width self with
  | Some w => pmin w (LineLayout.width (unwrapped_layout self))
  | None => LineLayout.width (unwrapped_layout self)
  end.
Definition wrapped_size self (line_height : U) : Size U :=
  size (wrapped_width self) (pmul line_height (of_nat (length (wrap_boundaries self) + 1))).

(** The glyph at a boundary, [runs[run_ix].glyphs[glyph_ix]]. *)
Definition boundary_glyph self (b : WrapBoundary) : outcome (ShapedGlyph U) :=
  run ← Prelude.index (LineLayout.runs (unwrapped_layout self)) (run_ix b);
  Prelude.index (glyphs run) (glyph_ix b).

Definition _index_for_position self (position : Point U) (line_height : U) (closest : bool) :
    outcome (result nat nat) :=
  let wrapped_line_ix := as_usize (pdiv (Geometry.y position) line_height) in
  start ←
    (if decide (0 < wrapped_line_ix) then
       match wrap_boundaries self !! (wrapped_line_ix - 1) with
       | None => Ok None
       | Some line_start_boundary =>
           glyph ← boundary_glyph self line_start_boundary; Ok (Some (glyph_index glyph, glyph_x glyph))
       end
     else Ok (Some (0, czero)));
  match start with
  | None => Ok (ResErr 0)
  | Some (wrapped_line_start_index, wrapped_line_start_x) =>
      '(wrapped_line_end_index, wrapped_line_end_x) ←
        match wrap_boundaries self !! wrapped_line_ix with
        | Some next_wrap_boundary =>
            glyph ← boundary_glyph self next_wrap_boundary; Ok (glyph_index glyph, glyph_x glyph)
        | None => Ok (LineLayout.len (unwrapped_layout self), LineLayout.width (unwrapped_layout self))
        end;
      let x := cadd (Geometry.x position) wrapped_line_start_x in
      if clt x wrapped_line_start_x then Ok (ResErr wrapped_line_start_index)
      else if cle wrapped_line_end_x x then Ok (ResErr wrapped_line_end_index)
      else if closest then Ok (ResOk (closest_index_for_x (unwrapped_layout self) x))
      else Ok match index_for_x (unwrapped_layout self) x with
              | Some ix => ResOk ix
              | None => ResErr wrapped_line_end_index
              end
  end.
Definition index_for_position self (position : Point U) (line_height : U) : outcome (result nat nat) :=
  _index_for_position self position line_height false.
Definition closest_index_for_position self (position : Point U) (line_height : U) : outcome (result nat nat) :=
  _index_for_position self position line_height true.

(** [position_for_index], its loop over the ends of the rows. *)
Fixpoint position_loop self (index : nat) (line_height : U) (ix line_start_ix : nat) (line_end_indices : list nat) :
    option (Point U) :=
  match line_end_indices with
  | [] => None
  | line_end_ix :: line_end_indices =>
      let line_y := pmul (of_nat ix) line_height in
      if decide (index < line_start_ix) then None
      else if decide (line_end_ix < index) then
        position_loop self index line_height (S ix) line_end_ix line_end_indices
      else
        let line_start_x := x_for_index (unwrapped_layout self) line_start_ix in
        Some (point (csub (x_for_index (unwrapped_layout self) index) line_start_x) line_y)
  end.
Definition position_for_index self (index : nat) (line_height : U) : outcome (option (Point U)) :=
  ends ← mapM_ok (λ b, glyph ← boundary_glyph self b; Ok (glyph_index glyph)) (wrap_boundaries self);
  Ok (position_loop self index line_height 0 0 (ends ++ [wrapped_len self])).
End wrapped.

(** ** Forced widths *)

Section force.
Context {U : Type} `{!Coord U, !PixelOps U, !PixelFloor U}.

Definition at_x (g : ShapedGlyph U) (x : U) : ShapedGlyph U :=
  mkGlyph (glyph_id g) (point x (Geometry.y (position g))) (glyph_index g) (is_emoji g).
Definition pabs (a : U) : U := if clt a czero then pneg a else a.

(** The variables of [apply_force_width_to_layout]: the cell, and the shaped and the actual position of the
    last base; before the first one its shaped position is below every other. *)
Definition ForceState : Type := nat * option U * U.
Definition force_glyph (force_width : U) (st : ForceState) (g : ShapedGlyph U) : ForceState * ShapedGlyph U :=
  let '(glyph_pos, last_base_shaped_x, last_base_actual_x) := st in
  let shaped_x := glyph_x g in
  let zero_advance :=
    match last_base_shaped_x with
    | Some last => if clt (cadd last (chalf force_width)) shaped_x then None else Some last
    | None => None
    end in
  match zero_advance with
  | None =>
      let forced_x := pmul (of_nat glyph_pos) force_width in
      let g := if clt pone (pabs (csub shaped_x forced_x)) then at_x g forced_x else g in
      ((glyph_pos + 1, Some shaped_x, glyph_x g), g)
  | Some last => (st, at_x g (cadd last_base_actual_x (csub shaped_x last)))
  end.
Fixpoint force_glyphs (force_width : U) (st : ForceState) (gs : list (ShapedGlyph U)) : ForceState * list (ShapedGlyph U) :=
  match gs with
  | [] => (st, [])
  | g :: gs =>
      let '(st, g) := force_glyph force_width st g in
      let '(st, gs) := force_glyphs force_width st gs in (st, g :: gs)
  end.
Fixpoint force_runs (force_width : U) (st : ForceState) (runs : list (ShapedRun U)) : list (ShapedRun U) :=
  match runs with
  | [] => []
  | run :: runs =>
      let '(st, gs) := force_glyphs force_width st (glyphs run) in
      mkShaped (font_id run) gs :: force_runs force_width st runs
  end.
Definition apply_force_width_to_layout (layout : LineLayout.t U) (force_width : U) : LineLayout.t U :=
  LineLayout.mk (LineLayout.font_size layout) (LineLayout.width layout) (LineLayout.ascent layout)
    (LineLayout.descent layout) (force_runs force_width (0, None, czero) (LineLayout.runs layout))
    (LineLayout.len layout).
End force.
