(* ===== verification/LineLayoutFacts.v ===== *)
(** Shaped lines: the glyphs and their boundaries, hit tests, and the rows that [compute_wrap_boundaries] makes. *)
From Stdlib Require Import QArith Qcanon Qround Ascii.
From Stdlib Require Import QArith Qcanon Ascii.
From S2P Require Import Prelude Geometry Chars Pixels LineWrapper LineWrapFacts LineLayout.
Local Open Scope Qc_scope.
Local Open Scope nat_scope.

(** ** Glyphs and boundaries *)

Section located.
Context {U : Type}.
Implicit Types runs : list (ShapedRun U).

Definition located_from (r : nat) runs : list (WrapBoundary * ShapedGlyph U) :=
  concat (imap (λ i run, imap (λ g glyph, (mkWrapBoundary (r + i) g, glyph)) (glyphs run)) runs).
Lemma located_cons r run runs :
  located_from r (run :: runs) = imap (λ g glyph, (mkWrapBoundary r g, glyph)) (glyphs run) ++ located_from (S r) runs.
Proof.
  unfold located_from. simpl. rewrite Nat.add_0_r. f_equal. f_equal. apply imap_ext. intros i run' _.
  simpl. by rewrite Nat.add_succ_r.
Qed.

(** The glyphs are those of the layout, and a boundary is the place of its glyph. *)
Lemma located_glyphs r runs : map snd (located_from r runs) = flat_map glyphs runs.
Proof.
  revert r. induction runs as [|run runs IH]; intros r; [done|]. rewrite located_cons, map_app, IH. simpl. f_equal.
  change (map snd) with (fmap (M:=list) (@snd WrapBoundary (ShapedGlyph U))). rewrite fmap_imap.
  induction (glyphs run) as [|g gs IHg] using rev_ind; [done|]. rewrite imap_app, IHg. done.
Qed.
Lemma located_place r runs k b g :
  located_from r runs !! k = Some (b, g) →
  ∃ run, r ≤ run_ix b ∧ runs !! (run_ix b - r) = Some run ∧ glyphs run !! glyph_ix b = Some g.
Proof.
  revert r k. induction runs as [|run runs IH]; intros r k Hk; [done|]. rewrite located_cons in Hk.
  apply lookup_app_Some in Hk as [Hk|[_ Hk]].
  - rewrite list_lookup_imap in Hk. destruct (glyphs run !! k) as [g'|] eqn:E; [|done]. injection Hk as <- <-.
    exists run. simpl. rewrite Nat.sub_diag. done.
  - destruct (IH _ _ Hk) as (run' & Hr & Hl & Hg). exists run'. split; [lia|]. split; [|done].
    by replace (run_ix b - r) with (S (run_ix b - S r)) by lia.
Qed.

Definition before (b c : WrapBoundary) : Prop := boundary_lt b c = true.
Lemma before_iff b c :
  before b c ↔ run_ix b < run_ix c ∨ run_ix b = run_ix c ∧ glyph_ix b < glyph_ix c.
Proof. unfold before, boundary_lt. rewrite orb_true_iff, andb_true_iff, !Nat.ltb_lt, Nat.eqb_eq. done. Qed.
Lemma located_sorted r runs i j b c g h :
  i < j → located_from r runs !! i = Some (b, g) → located_from r runs !! j = Some (c, h) → before b c.
Proof.
  revert r i j. induction runs as [|run runs IH]; intros r i j Hij Hi Hj; [done|]. rewrite located_cons in Hi, Hj.
  apply before_iff. apply lookup_app_Some in Hi as [Hi|[Hle Hi]], Hj as [Hj|[Hle' Hj]].
  - rewrite list_lookup_imap in Hi, Hj. destruct (glyphs run !! i), (glyphs run !! j); try done.
    injection Hi as <- <-. injection Hj as <- <-. right. done.
  - rewrite list_lookup_imap in Hi. destruct (glyphs run !! i); [|done]. injection Hi as <- <-.
    destruct (located_place _ _ _ _ _ Hj) as (? & ? & _). left. simpl. lia.
  - apply lookup_lt_Some in Hj. lia.
  - apply before_iff. eapply (IH (S r)); [|done|done]. lia.
Qed.
End located.

(** ** Hit tests *)

Lemma find_split {A} (p : A → bool) (l : list A) :
  match List.find p l with
  | Some y => ∃ l1 l2, l = l1 ++ y :: l2 ∧ p y = true ∧ Forall (λ z, p z = false) l1
  | None => Forall (λ z, p z = false) l
  end.
Proof.
  induction l as [|y l IH]; [constructor|]. simpl. destruct (p y) eqn:E; [by exists [], l|].
  destruct (List.find p l) as [z|]; [|by constructor]. destruct IH as (l1 & l2 & -> & Hz & Hl).
  exists (y :: l1), l2. split; [done|]. split; [done|]. by constructor.
Qed.

Implicit Types self : LineLayout.t Qc.
Implicit Types gs : list (ShapedGlyph Qc).

(** Text that runs from left to right, without glyphs on top of one another. *)
Record ordered gs : Prop := {
  ord_x i j g h : i < j → gs !! i = Some g → gs !! j = Some h → (glyph_x g < glyph_x h)%Qc;
  ord_index i j g h : i < j → gs !! i = Some g → gs !! j = Some h → glyph_index g < glyph_index h;
}.
Lemma ordered_app gs1 gs2 : ordered (gs1 ++ gs2) → ordered gs1 ∧ ordered gs2.
Proof.
  intros [Hx Hi]. split; split; intros i j g h Hij Hg Hh.
  - eapply Hx; [done|by apply lookup_app_l_Some..].
  - eapply Hi; [done|by apply lookup_app_l_Some..].
  - apply (Hx (length gs1 + i) (length gs1 + j)); [lia|rewrite lookup_app_r by lia..]; by rewrite Nat.add_comm, Nat.add_sub.
  - apply (Hi (length gs1 + i) (length gs1 + j)); [lia|rewrite lookup_app_r by lia..]; by rewrite Nat.add_comm, Nat.add_sub.
Qed.
Lemma ordered_middle gs1 g gs2 :
  ordered (gs1 ++ g :: gs2) →
  Forall (λ h, (glyph_x h < glyph_x g)%Qc ∧ glyph_index h < glyph_index g) gs1 ∧
  Forall (λ h, (glyph_x g < glyph_x h)%Qc ∧ glyph_index g < glyph_index h) gs2.
Proof.
  intros [Hx Hi]. split; apply Forall_lookup; intros k h Hk.
  - pose proof (lookup_lt_Some _ _ _ Hk). split; [eapply (Hx k (length gs1))|eapply (Hi k (length gs1))];
      eauto using lookup_app_l_Some; by rewrite list_lookup_middle.
  - split; [eapply (Hx (length gs1) (S (length gs1 + k)))|eapply (Hi (length gs1) (S (length gs1 + k)))];
      [lia|by rewrite list_lookup_middle|idtac|lia|by rewrite list_lookup_middle|idtac];
      rewrite lookup_app_r by lia; by replace (S (length gs1 + k) - length gs1) with (S k) by lia.
Qed.

(** The glyph that covers a position. *)
Lemma index_for_x_ok self (x : Qc) gs1 g gs2 :
  all_glyphs self = gs1 ++ g :: gs2 → ordered (all_glyphs self) →
  (x < LineLayout.width self)%Qc → (glyph_x g <= x)%Qc → Forall (λ h, (x < glyph_x h)%Qc) gs2 →
  index_for_x self x = Some (glyph_index g).
Proof.
  intros Hgs _ Hw Hg Hgs2. unfold index_for_x. rewrite cle_no by done. rewrite Hgs, rev_app_distr. cbn [rev].
  rewrite <-app_assoc. cbn [app].
  assert (Hskip : ∀ l r : list (ShapedGlyph Qc), Forall (λ h, (x < glyph_x h)%Qc) l →
    List.find (λ g, cle (glyph_x g) x) (l ++ r) = List.find (λ g, cle (glyph_x g) x) r).
  { intros l r Hl. induction Hl as [|h l Hh _ IH]; [done|]. cbn [app List.find]. by rewrite cle_no by done. }
  rewrite Hskip by by apply Forall_rev. cbn [List.find]. by rewrite cle_yes by done.
Qed.
Lemma x_for_index_ok self gs1 g gs2 :
  all_glyphs self = gs1 ++ g :: gs2 → ordered (all_glyphs self) → x_for_index self (glyph_index g) = glyph_x g.
Proof.
  intros Hgs Ho. unfold x_for_index. rewrite Hgs in *. destruct (ordered_middle _ _ _ Ho) as [Hb _].
  clear Ho Hgs. induction gs1 as [|h gs1 IH]; cbn [app List.find]; [by rewrite Nat.leb_refl|].
  apply Forall_cons in Hb as [[_ Hh] Hb]. rewrite (proj2 (Nat.leb_gt _ _)) by done. by apply IH.
Qed.
Lemma x_for_index_past self i :
  Forall (λ g, glyph_index g < i) (all_glyphs self) → x_for_index self i = LineLayout.width self.
Proof.
  intros Hall. unfold x_for_index. induction Hall as [|g gs Hg _ IH]; [done|]. cbn [List.find].
  by rewrite (proj2 (Nat.leb_gt _ _)).
Qed.

(** The nearest edge of a glyph. *)
Lemma closest_loop_ok gs (x : Qc) (prev_index : nat) (prev_x : Qc) :
  ordered gs → Forall (λ g, (prev_x < glyph_x g)%Qc) gs → (prev_x < x)%Qc →
  match closest_loop gs x prev_index prev_x with
  | Some i => ∃ xi, ((i, xi) = (prev_index, prev_x) ∨ ∃ g, g ∈ gs ∧ (i, xi) = (glyph_index g, glyph_x g)) ∧
      (pabs (x - xi) <= x - prev_x)%Qc ∧ ∀ g, g ∈ gs → (pabs (x - xi) <= pabs (x - glyph_x g))%Qc
  | None => Forall (λ g, (glyph_x g < x)%Qc) gs
  end.
Proof.
  revert prev_index prev_x. induction gs as [|g gs IH]; intros prev_index prev_x Ho Hp Hx; cbn [closest_loop]; [constructor|].
  apply Forall_cons in Hp as [Hpg Hp]. destruct (ordered_middle [] g gs Ho) as [_ Hafter].
  pose proof (proj2 (ordered_app [g] gs Ho)) as Ho'.
  assert (Habs : ∀ a : Qc, (0 <= a → pabs a = a)%Qc ∧ (a < 0 → pabs a = - a)%Qc).
  { intros a. unfold pabs. change (pneg a) with (- a)%Qc. destruct (clt_spec a czero); change (czero : Qc) with 0%Qc in *; split; intros; try done; qc_lra. }
  destruct (cle_spec x (glyph_x g)) as [Hle|Hlt].
  - assert (Hg : (pabs (x - glyph_x g) = glyph_x g - x)%Qc).
    { destruct (Habs (x - glyph_x g)%Qc) as [H1 H2]. destruct (clt_spec (x - glyph_x g)%Qc 0%Qc); [rewrite H2 by done|rewrite H1 by done]; qc_lra. }
    assert (Hfar : ∀ h, h ∈ gs → (glyph_x g - x <= pabs (x - glyph_x h))%Qc).
    { intros h Hh. rewrite Forall_forall in Hafter. destruct (Hafter h Hh) as [Hgh _].
      destruct (Habs (x - glyph_x h)%Qc) as [_ H2]. rewrite H2 by qc_lra. qc_lra. }
    assert (Hprev : (pabs (x - prev_x) = x - prev_x)%Qc) by (apply (proj1 (Habs _)); qc_lra).
    destruct (clt_spec (csub (glyph_x g) x) (csub x prev_x)) as [Hn|Hn]; cbn [csub Qc_coord] in Hn.
    + exists (glyph_x g). split; [right; exists g; split; [by left|done]|]. rewrite Hg. split; [qc_lra|].
      intros h [->|Hh]%elem_of_cons; [rewrite Hg; qc_lra|by apply Hfar].
    + exists prev_x. split; [by left|]. rewrite Hprev. split; [qc_lra|].
      intros h [->|Hh]%elem_of_cons; [rewrite Hg; done|]. specialize (Hfar h Hh). qc_lra.
  - specialize (IH (glyph_index g) (glyph_x g) Ho').
    destruct (closest_loop gs x (glyph_index g) (glyph_x g)) as [i|].
    + destruct IH as (xi & Hi & Hnear & Hall); [eapply Forall_impl; [exact Hafter|]; by intros ? []|done|].
      exists xi. split; [|split].
      * right. destruct Hi as [Hi|(h & Hh & Hi)]; [exists g; split; [by left|done]|exists h; split; [by right|done]].
      * qc_lra.
      * intros h [->|Hh]%elem_of_cons; [|by apply Hall]. rewrite (proj1 (Habs (x - glyph_x g)%Qc)) by qc_lra. done.
    + constructor; [done|]. apply IH; [eapply Forall_impl; [exact Hafter|]; by intros ? []|done].
Qed.
Lemma closest_loop_some gs (x : Qc) prev_index prev_x i :
  closest_loop gs x prev_index prev_x = Some i → ∃ g, g ∈ gs ∧ (x <= glyph_x g)%Qc.
Proof.
  revert prev_index prev_x. induction gs as [|g gs IH]; intros ??; cbn [closest_loop]; [done|].
  destruct (cle_spec x (glyph_x g)) as [Hle|Hlt]; [intros _; exists g; split; [by left|done]|].
  intros (h & Hh & Hx)%IH. exists h. split; [by right|done].
Qed.

(** ** A limit of rows *)

Section limit.
Context {U : Type} `{!Coord U}.
Implicit Types st : GlyphWrap (U:=U).

Lemma wrap_glyph_extends (line_width wrap_width : U) gls st :
  ∃ more, wrap_glyph_loop line_width wrap_width None gls st = gw_boundaries st ++ more.
Proof.
  revert st. induction gls as [|[[b c] x] gls IH]; intros st; cbn [wrap_glyph_loop]; [exists []; by rewrite app_nil_r|].
  destruct (is_char c "010"); [apply IH|]. cbn zeta.
  destruct (_ && _).
  - match goal with |- context [set_prev ?s c] => destruct (IH (set_prev s c)) as [more ->] end.
    unfold break_glyphs. destruct (gw_cand _); cbn [set_prev gw_boundaries see_glyph]; rewrite <-app_assoc; eauto.
  - match goal with |- context [set_prev ?s c] => destruct (IH (set_prev s c)) as [more ->] end. by exists more.
Qed.

(** With a limit the boundaries are the first ones. *)
Lemma wrap_glyph_limit (line_width wrap_width : U) (max_lines : nat) gls st :
  length (gw_boundaries st) ≤ max_lines - 1 →
  wrap_glyph_loop line_width wrap_width (Some max_lines) gls st
    = take (max_lines - 1) (wrap_glyph_loop line_width wrap_width None gls st).
Proof.
  revert st. induction gls as [|[[b c] x] gls IH]; intros st Hle; cbn [wrap_glyph_loop]; [by rewrite take_ge|].
  destruct (is_char c "010"); [by apply IH|]. cbn zeta.
  match goal with |- context [clt wrap_width (csub ?nx (gw_last_x ?s))] => set (st1 := s); set (next := nx) end.
  change (gw_boundaries st) with (gw_boundaries st1) in Hle.
  destruct (clt wrap_width _ && _); [|by apply IH].
  assert (Hb : ∃ l, gw_boundaries (set_prev (break_glyphs st1 b x) c) = gw_boundaries st1 ++ [l]).
  { unfold break_glyphs. destruct (gw_cand st1); by eexists. }
  destruct Hb as [l Hb]. destruct (Nat.leb_spec (max_lines - 1) (length (gw_boundaries st1))) as [Hfull|Hroom].
  - assert (Hlen : length (gw_boundaries st1) = max_lines - 1) by (apply Nat.le_antisymm; [exact Hle|exact Hfull]).
    destruct (wrap_glyph_extends line_width wrap_width gls (set_prev (break_glyphs st1 b x) c)) as [more ->].
    rewrite Hb, <-app_assoc, take_app_length' by done. done.
  - apply IH. rewrite Hb, length_app. cbn [length]. rewrite Nat.add_1_r. exact Hroom.
Qed.
End limit.

(** ** Rows *)

Section rows.
Variables (line_width wrap_width : Qc) (gls : list (WrapBoundary * char * Qc)).
Notation n := (length gls).

Definition glyph_at (k : nat) : WrapBoundary * char * Qc := default (mkWrapBoundary 0 0, 0%N, 0%Qc) (gls !! k).
Definition place (k : nat) : WrapBoundary := (glyph_at k).1.1.
(** The left edge of the glyph [k]; after the last one the edge of the line. *)
Definition edge (k : nat) : Qc := if decide (k < n) then (glyph_at k).2 else line_width.
(** Where the row that starts with the glyph [a] starts; the first one starts at the edge of the line. *)
Definition row_x (a : nat) : Qc := if decide (a = 0) then 0%Qc else edge a.

Hypothesis edges : ∀ i j, i ≤ j → j ≤ n → (edge i <= edge j)%Qc.
Hypothesis edge_0 : (0 <= edge 0)%Qc.
Hypothesis places : ∀ i j, i < j → j < n → before (place i) (place j).
Hypothesis place_0 : place 0 = mkWrapBoundary 0 0.
Hypothesis no_newline : Forall (λ '(_, c, _), is_char c "010" = false) gls.

(** The row from the glyph [a] to before [k] fits, or does so without its last glyph, or has one glyph. *)
Definition row_fits (a k : nat) : Prop := k ≤ a + 1 ∨ (edge (k - 1) - row_x a <= wrap_width)%Qc.
(** The rows that start at the glyphs [ks], after the row that starts at [a]. *)
Fixpoint rows (a : nat) (ks : list nat) : Prop :=
  match ks with
  | [] => row_fits a n
  | k :: ks => a < k ∧ k < n ∧ row_fits a k ∧ (∃ j, k ≤ j ∧ j < n ∧ (wrap_width < edge (S j) - row_x a)%Qc) ∧ rows k ks
  end.

Lemma row_x_le a k : a ≤ k → k ≤ n → (row_x a <= edge k)%Qc.
Proof.
  intros Hak Hk. unfold row_x. destruct (decide (a = 0)) as [->|]; [|by apply edges].
  pose proof (edges 0 k ltac:(lia) Hk). qc_lra.
Qed.
Lemma before_irrefl b : ¬ before b b.
Proof. rewrite before_iff. lia. Qed.

Record glyph_inv (k a : nat) (st : GlyphWrap (U:=Qc)) : Prop := {
  gi_bound : k ≤ n;
  gi_start : a < k ∨ (a = 0 ∧ k = 0);
  gi_last : gw_last st = place a;
  gi_last_x : gw_last_x st = row_x a;
  gi_cand : match gw_cand st with
    | None => True
    | Some c => ∃ b, c = place b ∧ gw_cand_x st = edge b ∧ a < b ∧ b < k ∧ row_fits a b
    end;
  gi_first : k = 0 → gw_first st = None;
}.
Definition glyph_ok (k a : nat) (st : GlyphWrap (U:=Qc)) : Prop :=
  (edge k - row_x a <= wrap_width)%Qc ∨ k ≤ a + 1 ∨ (gw_cand st = None ∧ (edge (k - 1) - row_x a <= wrap_width)%Qc).

Lemma glyph_ok_fits k a st : k ≤ n → glyph_ok k a st → row_fits a k.
Proof.
  intros Hk [Hf|[?|[_ ?]]]; [|by left|by right]. right. pose proof (edges (k - 1) k ltac:(lia) Hk). qc_lra.
Qed.

Lemma see_glyph_inv k a st b c x :
  glyph_inv k a st → glyph_ok k a st → gls !! k = Some (b, c, x) →
  glyph_inv (S k) a (see_glyph st b c x) ∧
  (gw_cand (see_glyph st b c x) = Some b ∨ gw_cand (see_glyph st b c x) = gw_cand st).
Proof.
  intros [Hk Hst Hl Hlx Hc Hf] Hok Hlk. pose proof (lookup_lt_Some _ _ _ Hlk) as Hlt.
  assert (Hb : b = place k) by (unfold place, glyph_at; by rewrite Hlk).
  assert (Hx : x = edge k) by (unfold edge, glyph_at; by rewrite decide_True, Hlk by done).
  pose proof (glyph_ok_fits _ _ _ Hk Hok) as Hfit. unfold see_glyph.
  set (breaks := (if is_word_char c then _ else _)).
  split; [split|]; cbn [gw_last gw_last_x gw_cand gw_cand_x gw_first]; try done.
  - left. lia.
  - destruct (breaks && bool_decide (is_Some (gw_first st))) eqn:Eb.
    + exists k. split; [done|]. split; [done|]. split; [|split; [lia|done]].
      apply andb_true_iff in Eb as [_ [f Ef]%bool_decide_eq_true]. destruct Hst as [|[_ ->]]; [done|].
      rewrite Hf in Ef by done. done.
    + destruct (gw_cand st) as [cd|]; [|done]. destruct Hc as (b' & ? & ? & ? & ? & ?). exists b'. split_and!; try done; lia.
  - destruct (breaks && _); auto.
Qed.

Lemma break_glyphs_inv k a st b c x :
  glyph_inv k a st → glyph_ok k a st → gls !! k = Some (b, c, x) →
  before (gw_last (see_glyph st b c x)) b →
  ∃ a', gw_boundaries (break_glyphs (see_glyph st b c x) b x) = gw_boundaries st ++ [place a'] ∧
    a < a' ∧ a' ≤ k ∧ row_fits a a' ∧
    glyph_inv (S k) a' (set_prev (break_glyphs (see_glyph st b c x) b x) c) ∧
    glyph_ok (S k) a' (set_prev (break_glyphs (see_glyph st b c x) b x) c).
Proof.
  intros Hst Hok Hlk Hbef. pose proof (see_glyph_inv _ _ _ _ _ _ Hst Hok Hlk) as [Hst1 Hcd].
  pose proof (lookup_lt_Some _ _ _ Hlk) as Hlt. pose proof (glyph_ok_fits _ _ _ (gi_bound _ _ _ Hst) Hok) as Hfit.
  assert (Hb : b = place k) by (unfold place, glyph_at; by rewrite Hlk).
  assert (Hx : x = edge k) by (unfold edge, glyph_at; by rewrite decide_True, Hlk by done).
  assert (Hbd : gw_boundaries (see_glyph st b c x) = gw_boundaries st) by done.
  set (st1 := see_glyph st b c x) in *. destruct Hst1 as [Hk Hs Hl Hlx Hc Hf].
  assert (Hak : a < k).
  { rewrite Hl, Hb in Hbef. destruct (decide (a < k)); [done|]. assert (a = k) as -> by lia.
    by apply before_irrefl in Hbef. }
  unfold break_glyphs. destruct (gw_cand st1) as [cd|] eqn:Ecd.
  - destruct Hc as (b' & -> & Hcx & Hab & Hbk & Hbf). exists b'.
    assert (Hrow : row_x b' = edge b') by (unfold row_x; by rewrite decide_False by lia).
    cbn [gw_boundaries]. rewrite Hbd. split; [done|]. split; [done|]. split; [lia|]. split; [done|]. split.
    + split; cbn [gw_last gw_last_x gw_cand gw_first set_prev]; try done; [left; lia|].
      by rewrite Hcx, Hrow.
    + unfold glyph_ok. cbn [gw_cand set_prev]. replace (S k - 1) with k by lia.
      destruct (decide (b' = k)) as [->|Hne]; [right; left; lia|]. right; right. split; [done|].
      destruct Hcd as [[= Hcd]|Hcd].
      { exfalso. rewrite Hb in Hcd. assert (before (place b') (place k)) as Hp by (apply places; lia).
        rewrite Hcd in Hp. by apply before_irrefl in Hp. }
      destruct Hok as [Hfull|[?|[Hnone _]]]; [|lia|congruence].
      pose proof (row_x_le a b' ltac:(lia) ltac:(lia)). rewrite Hrow. qc_lra.
  - exists k. cbn [gw_boundaries]. rewrite Hbd, Hb. split; [done|]. split; [done|]. split; [lia|]. split; [done|].
    split; [|right; left; lia].
    split; cbn [gw_last gw_last_x gw_cand gw_first set_prev]; try done; [left; lia|].
    unfold row_x. rewrite decide_False by lia. by rewrite Hx.
Qed.

Lemma wrap_rows rest k a st :
  drop k gls = rest → glyph_inv k a st → glyph_ok k a st →
  ∃ ks, wrap_glyph_loop line_width wrap_width None rest st = gw_boundaries st ++ map place ks ∧ rows a ks.
Proof.
  revert k a st. induction rest as [|[[b c] x] rest IH]; intros k a st Hd Hst Hok; cbn [wrap_glyph_loop].
  - exists []. split; [by rewrite app_nil_r|]. pose proof (gi_bound _ _ _ Hst) as Hk.
    pose proof (f_equal length Hd) as Hlen. rewrite length_drop in Hlen. simpl in Hlen.
    assert (Hkn : k = n) by lia. pose proof (glyph_ok_fits _ _ _ Hk Hok) as Hfit. rewrite Hkn in Hfit. exact Hfit.
  - assert (Hlk : gls !! k = Some (b, c, x)) by (rewrite <-(Nat.add_0_r k), <-lookup_drop, Hd; done).
    assert (Hd' : drop (S k) gls = rest) by (rewrite (drop_S _ _ _ Hlk) in Hd; by injection Hd).
    pose proof (lookup_lt_Some _ _ _ Hlk) as Hlt.
    assert (Hnl : is_char c "010" = false).
    { rewrite Forall_lookup in no_newline. by specialize (no_newline _ _ Hlk). }
    rewrite Hnl. cbn zeta.
    assert (Hnext : match rest with (_, next_x) :: _ => next_x | [] => line_width end = edge (S k)).
    { unfold edge, glyph_at. destruct rest as [|[[b' c'] x'] rest].
      - rewrite decide_False; [done|]. pose proof (f_equal length Hd') as Hlen. rewrite length_drop in Hlen. simpl in Hlen. lia.
      - assert (gls !! S k = Some (b', c', x')) as Hl by (rewrite <-(Nat.add_0_r (S k)), <-lookup_drop, Hd'; done).
        rewrite decide_True by (by apply lookup_lt_Some in Hl). by rewrite Hl. }
    rewrite Hnext. destruct (see_glyph_inv _ _ _ _ _ _ Hst Hok Hlk) as [Hst1 _].
    destruct (clt_spec wrap_width (csub (edge (S k)) (gw_last_x (see_glyph st b c x)))) as [Hover|Hfits]; cbn [andb].
    + destruct (boundary_lt (gw_last (see_glyph st b c x)) b) eqn:Hbef.
      * destruct (break_glyphs_inv _ _ _ _ _ _ Hst Hok Hlk Hbef) as (a' & Hbd & Haa & Hak & Hfit & Hinv & Hok').
        destruct (IH (S k) a' _ Hd' Hinv Hok') as (ks & -> & Hks). exists (a' :: ks).
        split; [cbn [set_prev gw_boundaries]; rewrite Hbd, <-app_assoc; reflexivity|].
        split; [done|]. split; [lia|]. split; [done|]. split; [|done]. exists k. split; [done|]. split; [done|].
        by rewrite (gi_last_x _ _ _ Hst1) in Hover.
      * destruct (IH (S k) a (set_prev (see_glyph st b c x) c) Hd') as (ks & -> & Hks).
        -- destruct Hst1. by split.
        -- right; left. destruct (decide (a < k)) as [Hak|]; [|lia].
           pose proof (places a k Hak Hlt) as Hp. rewrite (gi_last _ _ _ Hst1) in Hbef.
           assert (b = place k) as Hb by (unfold place, glyph_at; by rewrite Hlk). rewrite Hb in Hbef.
           unfold before in Hp. congruence.
        -- by exists ks.
    + destruct (IH (S k) a (set_prev (see_glyph st b c x) c) Hd') as (ks & -> & Hks).
      * destruct Hst1. by split.
      * left. by rewrite (gi_last_x _ _ _ Hst1) in Hfits.
      * by exists ks.
Qed.
End rows.
