(* ===== verification/LineWrapTheorems.v ===== *)
(** What the line wrapper promises: soft-wrapped lines fit, truncated text fits and keeps its styles. *)
From Stdlib Require Import NArith QArith Qcanon Qround Ascii String.
From stdpp Require Import gmap.
From S2P Require Import Prelude Chars Geometry Pixels LineWrapper LineWrapFacts.
Local Open Scope Qc_scope.
Local Open Scope nat_scope.

(** ** The cache *)

(** The widths that the cache holds are those of the layout. *)
Record cache_ok {U} (layout_width : char → U) (self : CharWidthCache.t U) : Prop := {
  co_length : length (CharWidthCache.ascii self) = 128;
  co_ascii i width : CharWidthCache.ascii self !! i = Some (Some width) → width = layout_width (N.of_nat i);
  co_other c width : CharWidthCache.other self !! c = Some width → width = layout_width c;
}.
Lemma default_cache_ok {U} (layout_width : char → U) : cache_ok layout_width CharWidthCache.default.
Proof.
  split; [done| |done].
  intros i width Hi. change (repeat (@None U) 128 !! i = Some (Some width)) in Hi. apply list_elem_of_lookup_2, list_elem_of_In, repeat_spec in Hi. done.
Qed.
Lemma width_for_char_ok {U} (layout_width : char → U) self c :
  cache_ok layout_width self →
  ∃ self', width_for_char layout_width self c = Ok (layout_width c, self') ∧ cache_ok layout_width self'.
Proof.
  intros [Hl Ha Ho]. unfold width_for_char. destruct (N.ltb_spec c 128) as [Hc|Hc].
  - unfold Prelude.index. destruct (lookup_lt_is_Some_2 (CharWidthCache.ascii self) (N.to_nat c)) as [o Hlk]; [lia|].
    rewrite Hlk. cbn [unwrap mbind outcome_bind]. destruct o as [width|].
    + exists self. apply Ha in Hlk as ->. rewrite N2Nat.id. by repeat split.
    + eexists. split; [done|]. split; cbn [CharWidthCache.ascii CharWidthCache.other]; [by rewrite length_insert| |done].
      intros i width [(<- & [= <-] & _)|[_ Hi]]%list_lookup_insert_Some; [by rewrite N2Nat.id|by apply Ha].
  - destruct (CharWidthCache.other self !! c) as [width|] eqn:E.
    + exists self. apply Ho in E as ->. by repeat split.
    + eexists. split; [done|]. split; cbn [CharWidthCache.ascii CharWidthCache.other]; [done..|].
      intros c' width [[<- <-]|[_ Hc']]%lookup_insert_Some; [done|by apply Ho].
Qed.

(** The cache of character widths is transparent: whatever characters were measured before, the width
    of a character is the one that the layout gives, and no lookup leaves the array of ASCII widths. *)
Theorem width_cache_transparent {U} (layout_width : char → U) (s : list char) :
  ∃ self, foldM (λ '(widths, self) c,
      '(width, self) ← width_for_char layout_width self c; Ok (widths ++ [width], self))
    ([], CharWidthCache.default) s = Ok (map layout_width s, self).
Proof.
  assert (∀ s acc self, cache_ok layout_width self → ∃ self', foldM (λ '(widths, self) c,
      '(width, self) ← width_for_char layout_width self c; Ok (widths ++ [width], self)) (acc, self) s
      = Ok (acc ++ map layout_width s, self')) as H.
  { clear s. intros s. induction s as [|c s IH]; intros acc self Hok; simpl; [exists self; by rewrite app_nil_r|].
    destruct (width_for_char_ok layout_width self c Hok) as (self' & -> & Hok'). cbn [mbind outcome_bind].
    destruct (IH (acc ++ [layout_width c]) self' Hok') as (self2 & ->). exists self2. by rewrite <-app_assoc. }
  destruct (H s [] _ (default_cache_ok layout_width)) as (self & Hr). by exists self.
Qed.

(** ** Wrapping *)

(** C28: On fragments without newlines, whose items are not empty and, like the space, have no negative width,
    [wrap_line] never panics, and the lines that it makes fit: the boundaries lie in the text, one after the other;
    every line, with the indent of its predecessor, fits in the width without its last item, and as a whole if all items
    are equally wide, unless it has one item only; and no line is broken that could hold what follows. *)
Theorem wrap_line_fits (layout_width : char → Qc) (mono : bool) (fragments : list (LineFragment Qc)) (wrap_width : Qc) :
  let its := flat_map wrap_boundary_candidates fragments in
  Forall (λ it, 0 < candidate_len it ∧ (0 <= item_width layout_width it)%Qc ∧ is_newline it = false) its →
  (0 <= layout_width (ch " "))%Qc →
  (mono = true → Forall (λ it, item_width layout_width it = layout_width (ch " ")) its) →
  ∃ bs, wrap_line layout_width fragments wrap_width = Ok bs ∧
    wrapped layout_width wrap_width its mono 0 0%Qc bs.
Proof.
  intros its Hok Hsp Hm. unfold wrap_line. fold its.
  apply (wrap_loop_ok layout_width wrap_width its Hok Hsp mono Hm (1 + length its) wrap_start 0 0 0%Qc); [|done|lia].
  by apply line_start.
Qed.

Definition px (z : Z) : Qc := Q2Qc (inject_Z z).
Lemma wrap_line_fits_witness :
  ∃ bs, wrap_line (λ _, px 1) [FragmentText (str "aa bbb cccc ddddd eeee")] (px 7) = Ok bs ∧
    wrapped (λ _, px 1) (px 7) (map CandidateChar (str "aa bbb cccc ddddd eeee")) true 0 0%Qc bs.
Proof.
  apply (wrap_line_fits (λ _, px 1) true [FragmentText (str "aa bbb cccc ddddd eeee")] (px 7)).
  - simpl. repeat constructor; try lia; unfold Qcle, not; vm_compute; discriminate.
  - unfold Qcle, not; vm_compute; discriminate.
  - intros _. simpl. repeat constructor.
Defined.

(** The examples of the tests in [line_wrapper.rs], and the end of a word that is broken although it could
    stay in one piece: after a break before the first character of a word, the second one counts as a
    start of a word, because the iterator returns before it remembers the character at the break. *)
Example wrap_of_tests :
  (∀ s : list char, s = str "          aaaaaaaaaaaaaa" →
   match wrap_line (λ _, px 1) [FragmentText s] (px 7) with
   | Ok bs => bs = [mkBoundary 7 0; mkBoundary 14 3; mkBoundary 18 3; mkBoundary 22 3]
   | _ => False
   end).
Proof. intros s ->. vm_compute. reflexivity. Qed.
Example break_inside_of_a_word :
  match wrap_line (λ _, px 1) [FragmentText (str "aaa bbbb")] (px 4) with
  | Ok bs => bs = [mkBoundary 4 0]
  | _ => False
  end ∧
  match wrap_line (λ _, px 1) [FragmentText (str "aaa bbbbc")] (px 4) with
  | Ok bs => bs = [mkBoundary 4 0; mkBoundary 5 0]
  | _ => False
  end.
Proof. split; vm_compute; reflexivity. Qed.

(** ** Truncation *)

Section truncation.
Context `{!CharTables} {S : Type} (layout_width : char → Qc).
Notation tw := (text_width layout_width).
Implicit Types runs : list (TextRun S).
Implicit Types line affix front cut back : list char.

(** How a truncated line looks: the affix stands for the part that is cut, in the style of one of its bytes. *)
Record truncated line affix runs front cut back (res : list char) runs' : Prop := {
  tr_line : line = front ++ cut ++ back;
  tr_cut : cut ≠ [];
  tr_result : res = front ++ affix ++ back;
  tr_runs : ∃ s, s ∈ styles runs ∧
    styles runs' = take (byte_len front) (styles runs) ++ repeat s (byte_len affix)
      ++ drop (byte_len (front ++ cut)) (styles runs);
}.

Lemma byte_len_pos line : line ≠ [] → 0 < byte_len line.
Proof. destruct line as [|c line]; [done|]. rewrite byte_len_cons. pose proof (len_utf8_pos c). lia. Qed.

Lemma truncate_end_cuts line affix runs kept rest :
  length (styles runs) = byte_len line → line = kept ++ rest → rest ≠ [] →
  ∃ front cut runs', truncate_end line (byte_len kept) affix runs = Ok (front ++ affix, runs') ∧
    truncated line affix runs front cut [] (front ++ affix) runs' ∧ ∃ t, kept = front ++ t.
Proof.
  intros Hlen -> Hrest. unfold truncate_end. rewrite split_bytes_app. cbn [mbind outcome_bind].
  destruct (trim_prefix is_trimmed kept) as [t Ht]. set (front := trim_end_matches is_trimmed kept) in *.
  destruct (lookup_lt_is_Some_2 (styles runs) (byte_len front)) as [s Hs].
  { rewrite Hlen, Ht, !byte_len_app. pose proof (byte_len_pos rest Hrest). lia. }
  destruct (update_end_styles front affix runs s Hs) as (runs' & -> & Hst). cbn [mbind outcome_bind].
  exists front, (t ++ rest), runs'. split; [done|]. split; [|by exists t]. split.
  - rewrite app_nil_r, app_assoc, <-Ht. done.
  - by destruct t.
  - by rewrite app_nil_r.
  - exists s. split; [by eapply list_elem_of_lookup_2|]. rewrite Hst.
    rewrite (drop_ge (styles runs)) by (rewrite Hlen, Ht, !byte_len_app; lia). by rewrite app_nil_r.
Qed.

Lemma truncate_start_cuts line affix runs front c back :
  length (styles runs) = byte_len line → line = front ++ c :: back →
  ∃ runs', ('(_, kept) ← split_bytes line (ceil_char_boundary line (byte_len front + 1));
            let result := affix ++ kept in
            runs ← update_runs_after_truncation result affix runs TruncateStart; Ok (result, runs))
      = Ok (affix ++ back, runs') ∧
    truncated line affix runs [] (front ++ [c]) back (affix ++ back) runs'.
Proof.
  intros Hlen ->. rewrite ceil_after.
  replace (split_bytes (front ++ c :: back)) with (split_bytes ((front ++ [c]) ++ back)) by by rewrite <-app_assoc.
  rewrite split_bytes_app. cbn [mbind outcome_bind]. cbn zeta.
  pose proof (byte_len_pos (front ++ [c]) ltac:(by destruct front)) as Hpos.
  assert (Hl : length (styles runs) = Datatypes.S (byte_len (front ++ [c]) - 1) + byte_len back).
  { rewrite Hlen, byte_len_app, byte_len_cons. rewrite byte_len_app in *. change (byte_len [c]) with (len_utf8 c + 0) in *. lia. }
  destruct (lookup_lt_is_Some_2 (styles runs) (byte_len (front ++ [c]) - 1)) as [s Hs]; [lia|].
  destruct (update_start_styles affix back runs s _ Hl Hs) as (runs' & -> & Hst). cbn [mbind outcome_bind].
  exists runs'. split; [done|]. split; [by rewrite <-app_assoc|by destruct front|done|].
  exists s. split; [by eapply list_elem_of_lookup_2|]. rewrite Hst.
  change (byte_len []) with 0. rewrite take_0. cbn [app]. do 2 f_equal. lia.
Qed.

Lemma truncate_middle_cuts line affix runs front cut back :
  length (styles runs) = byte_len line → line = front ++ cut ++ back → cut ≠ [] →
  ('(front', _) ← split_bytes line (byte_len front);
   '(_, back') ← split_bytes line (byte_len (front ++ cut));
   Ok (front' ++ affix ++ back',
       update_runs_after_middle_truncation affix runs (byte_len front) (byte_len (front ++ cut))))
    = Ok (front ++ affix ++ back,
          update_runs_after_middle_truncation affix runs (byte_len front) (byte_len (front ++ cut))) ∧
  truncated line affix runs front cut back (front ++ affix ++ back)
    (update_runs_after_middle_truncation affix runs (byte_len front) (byte_len (front ++ cut))).
Proof.
  intros Hlen -> Hcut. rewrite split_bytes_app. cbn [mbind outcome_bind].
  rewrite app_assoc, split_bytes_app. cbn [mbind outcome_bind]. split; [done|].
  destruct (lookup_lt_is_Some_2 (styles runs) (byte_len front)) as [s Hs].
  { rewrite Hlen, !byte_len_app. pose proof (byte_len_pos cut Hcut). lia. }
  split; [by rewrite app_assoc|done|done|]. exists s. split; [by eapply list_elem_of_lookup_2|].
  by apply update_middle_styles.
Qed.

Lemma two_thirds (a : Qc) : (0 <= a)%Qc →
  (0 <= pmul a (pdiv (cadd pone pone) (cadd (cadd pone pone) pone)) <= a)%Qc.
Proof.
  intros Ha. set (r := pdiv _ _). assert (Hr : (0 <= r)%Qc ∧ (r <= 1)%Qc).
  { unfold r. split; unfold Qcle, not; vm_compute; discriminate. }
  destruct Hr as [H0 H1]. change (pmul a r) with (a * r)%Qc. split.
  - rewrite <-(Qcmult_0_l r). by apply Qcmult_le_compat_r.
  - rewrite <-(Qcmult_1_r a) at 2. rewrite !(Qcmult_comm a). by apply Qcmult_le_compat_r.
Qed.

Hypothesis width_nonneg : ∀ c, (0 <= layout_width c)%Qc.

Lemma cut_between (p1 p2 q1 q2 : list char) :
  q1 ++ q2 = p1 ++ p2 → byte_len q1 < byte_len p1 → ∃ cut, cut ≠ [] ∧ p1 = q1 ++ cut ∧ q2 = cut ++ p2.
Proof.
  intros He Hlt. apply app_eq_inv in He as [(k & -> & ->)|(k & -> & ->)].
  - rewrite byte_len_app in Hlt. lia.
  - exists k. split; [|done]. intros ->. rewrite app_nil_r in Hlt. lia.
Qed.

(** What the middle truncation keeps. *)
Lemma middle_ok line affix (budget : Qc) :
  (0 <= budget)%Qc →
  match should_truncate_line_middle layout_width line budget affix with
  | None => (tw line <= budget)%Qc
  | Some (i, j) => (budget < tw line)%Qc ∧ ∃ front cut back, line = front ++ cut ++ back ∧ cut ≠ [] ∧
      i = byte_len front ∧ j = byte_len (front ++ cut) ∧
      ((tw front + tw affix + tw back <= budget)%Qc ∨ (front = [] ∧ back = []))
  end.
Proof.
  intros Hbud. unfold should_truncate_line_middle. fold (tw line). fold (tw affix).
  destruct (cle_spec (tw line) budget) as [|Hover]; [done|].
  assert (Hne : line ≠ []) by (intros ->; change (tw []) with 0%Qc in Hover; qc_lra).
  assert (Hall : (budget < tw line)%Qc ∧ ∃ front cut back, line = front ++ cut ++ back ∧ cut ≠ [] ∧
    0 = byte_len front ∧ byte_len line = byte_len (front ++ cut) ∧
    ((tw front + tw affix + tw back <= budget)%Qc ∨ (front = [] ∧ back = []))).
  { split; [done|]. exists [], line, []. rewrite app_nil_r. split_and!; try done. by right. }
  destruct (cle_spec (csub budget (tw affix)) czero) as [|Hroom]; [done|]. cbn zeta.
  set (content := csub budget (tw affix)) in *. change (czero : Qc) with 0%Qc in *.
  destruct (two_thirds content) as [Hf0 Hf1]; [qc_lra|]. set (fb := pmul content _) in *.
  destruct (front_loop_ok layout_width fb [] line) as (q1 & q2 & Hq & Hqw & Hql); [exact Hf0|].
  change (byte_len []) with 0 in Hql. change (char_indices_from 0 line) with (char_indices line) in Hql.
  change (tw []) with 0%Qc in Hql. rewrite Hql. cbn [app] in *.
  destruct (back_loop_ok layout_width (csub content fb) line []) as (p1 & p2 & Hp & Hpw & Hpl).
  { change (tw []) with 0%Qc. cbn [csub Qc_coord]. qc_lra. }
  change (tw []) with 0%Qc in Hpl. rewrite Hpl. rewrite app_nil_r in Hpw.
  destruct (decide (byte_len p1 ≤ byte_len q1)) as [|Hlt]; [done|].
  destruct (cut_between p1 p2 q1 q2) as (cut & Hcut & -> & ->); [congruence|lia|].
  split; [done|]. exists q1, cut, p2. split_and!; try done. left.
  unfold content in *. cbn [csub Qc_coord] in *. qc_lra.
Qed.

(** A truncated line fits, with the affix; if not even the affix fits it is alone, except that at the start
    only one character is cut then. *)
Definition fits_truncated (budget : Qc) (from : TruncateFrom) affix front cut back : Prop :=
  (tw (front ++ affix ++ back) <= budget)%Qc ∨ (front = [] ∧ back = []) ∨
  (from = TruncateStart ∧ (budget <= tw affix)%Qc ∧ length cut = 1).

(** [truncate_line] never panics. It keeps a line that fits, to the pixel, and cuts every other
    one, at its start, at its end, or in the middle, so that it fits with the affix; the runs of the result
    cover exactly its bytes, and every byte that is kept keeps its style. *)
Theorem truncate_line_fits line (budget : Qc) affix runs (from : TruncateFrom) :
  (0 <= budget)%Qc → length (styles runs) = byte_len line →
  ∃ res runs', truncate_line layout_width line budget affix runs from = Ok (res, runs') ∧
    ((res = line ∧ runs' = runs ∧ (pfloor (tw line) <= budget)%Qc) ∨
     ∃ front cut back, truncated line affix runs front cut back res runs' ∧ (budget < tw line)%Qc ∧
       match from with TruncateStart => front = [] | TruncateEnd => back = [] | TruncateMiddle => True end ∧
       fits_truncated budget from affix front cut back).
Proof.
  intros Hbud Hlen. unfold truncate_line.
  assert (Hnil : (pfloor (tw []) <= budget)%Qc) by (pose proof (pfloor_le (tw [])); change (tw []) with 0%Qc in *; qc_lra).
  destruct from.
  - unfold should_truncate_line. fold (tw affix).
    pose proof (truncate_start_ok layout_width width_nonneg (tw affix) budget line [] 0) as Hs.
    change (tw []) with 0%Qc in Hs. rewrite app_nil_r in Hs.
    destruct (truncate_loop _ _ _ _ _ _) as [ix|].
    + destruct Hs as [Hover [[Haff ->]|(p1 & c & p2 & -> & -> & Hw)]].
      * destruct line as [|c line]; [change (tw []) with 0%Qc in Hover; exfalso; qc_lra|].
        destruct (truncate_start_cuts (c :: line) affix runs [] c line Hlen eq_refl) as (runs' & Hr & Ht).
        change (byte_len []) with 0 in Hr. eexists _, runs'. split; [exact Hr|]. right. eexists _, _, _.
        split; [exact Ht|]. split; [done|]. split; [done|]. right; right. split; [done|]. split; [qc_lra|done].
      * destruct (truncate_start_cuts _ affix runs p1 c p2 Hlen eq_refl) as (runs' & Hr & Ht).
        eexists _, runs'. split; [exact Hr|]. right. eexists _, _, _. split; [exact Ht|]. split; [done|]. split; [done|].
        left. cbn [app]. rewrite app_nil_r in Hw. rewrite text_width_app. qc_lra.
    + eexists _, _. split; [done|]. left. split; [done|]. split; [done|]. by destruct Hs as [->|Hs].
  - unfold should_truncate_line. fold (tw affix).
    pose proof (truncate_end_ok layout_width width_nonneg (tw affix) budget [] line 0) as Hs.
    change (tw []) with 0%Qc in Hs. change (byte_len []) with 0 in Hs. cbn [app] in Hs.
    change (char_indices_from 0 line) with (char_indices line) in Hs.
    destruct (truncate_loop _ _ _ _ _ _) as [ix|].
    + destruct Hs as [Hover Hs].
      assert (∃ kept rest, line = kept ++ rest ∧ rest ≠ [] ∧ ix = byte_len kept ∧
        (kept = [] ∨ (tw kept + tw affix < budget)%Qc)) as (kept & rest & Hl & Hrest & -> & Hw).
      { destruct Hs as [->|(q1 & q2 & -> & ? & -> & ?)]; [|exists q1, q2; auto].
        exists [], line. split_and!; auto. intros ->. change (tw []) with 0%Qc in Hover. qc_lra. }
      destruct (truncate_end_cuts line affix runs kept rest Hlen Hl Hrest) as (front & cut & runs' & Hr & Ht & t & Hk).
      eexists _, runs'. split; [exact Hr|]. right. eexists _, _, _. split; [exact Ht|]. split; [done|]. split; [done|].
      unfold fits_truncated. rewrite app_nil_r. destruct Hw as [Hw|Hw].
      * right; left. rewrite Hk in Hw. by apply app_nil in Hw as [-> _].
      * left. rewrite Hk, text_width_app in Hw. rewrite text_width_app.
        pose proof (text_width_nonneg layout_width width_nonneg t). qc_lra.
    + eexists _, _. split; [done|]. left. split; [done|]. split; [done|]. by destruct Hs as [->|Hs].
  - pose proof (middle_ok line affix budget Hbud) as Hm. destruct (should_truncate_line_middle _ _ _ _) as [[i j]|].
    + destruct Hm as (Hover & front & cut & back & Hl & Hcut & -> & -> & Hw).
      destruct (truncate_middle_cuts line affix runs front cut back Hlen Hl Hcut) as [Hr Ht].
      eexists _, _. split; [exact Hr|]. right. exists front, cut, back. split; [exact Ht|]. split; [done|]. split; [done|].
      destruct Hw as [Hw|Hw]; [left|by right; left]. rewrite !text_width_app. qc_lra.
    + eexists _, _. split; [done|]. left. split; [done|]. split; [done|].
      pose proof (pfloor_le (tw line)). qc_lra.
Qed.

(** [truncate_wrapped_line] with more than one line never panics. Text that wraps into at most so many
    lines is left alone. Other text is cut in the last line that is allowed, or at its start, where the rest
    of the line has room for the affix; every line before it is broken like by [wrap_line], so that it fits. *)
Theorem truncate_wrapped_fits (mono : bool) (text : list char) (wrap_width : Qc) (max_lines : nat) affix runs :
  Forall (λ c, is_char c "010" = false) text → 1 < max_lines →
  (mono = true → ∀ c, layout_width c = layout_width (ch " ")) →
  length (styles runs) = byte_len text →
  ∃ res runs' n a ind,
    truncate_wrapped_line layout_width text wrap_width max_lines affix runs TruncateEnd = Ok (res, runs') ∧
    breaks layout_width wrap_width text mono n a ind ∧ n < max_lines ∧
    ((res = text ∧ runs' = runs ∧ line_fits layout_width wrap_width (chars_of text) mono a (length text) ind) ∨
     n + 1 = max_lines ∧ ∃ front cut j, truncated text affix runs front cut [] res runs' ∧
       (wrap_width < ind + tw (drop a text))%Qc ∧ length front ≤ j ∧ a ≤ j ∧
       (j = a ∨ (ind + (tw (take j text) - tw (take a text)) + tw affix <= wrap_width)%Qc)).
Proof.
  intros Hnl Hmax Hmono Hlen. unfold truncate_wrapped_line.
  destruct (Nat.leb_spec max_lines 1) as [|_]; [lia|]. simpl orb. cbv iota.
  destruct (clamp_loop_ok layout_width wrap_width (tw affix) width_nonneg text max_lines mono Hnl Hmono Hmax text
    clamp_start 0 0 0%Qc eq_refl) as (n & a & ind & Hb & Hn & Hres).
  { split; cbn [t_line t_truncate_ix clamp_start]; [apply line_start|constructor|lia|by left]. }
  change (char_indices_from (pos (chars_of text) 0) text) with (char_indices text) in Hres.
  destruct Hres as [[-> Hfit]|(-> & t & j & -> & Hcut & Haj & Hjl & Hover)]; cbn [mbind outcome_bind].
  - exists text, runs, n, a, ind. split; [done|]. split; [done|]. split; [lia|]. by left.
  - rewrite !upto_width in Hover.
    assert (Hmon : ∀ i k, i ≤ k → (tw (take i text) <= tw (take k text))%Qc).
    { intros i k Hik. replace (take k text) with (take i text ++ drop i (take k text)).
      - rewrite text_width_app. pose proof (text_width_nonneg layout_width width_nonneg (drop i (take k text))). qc_lra.
      - rewrite <-(take_drop i (take k text)) at 2. by rewrite take_take, Nat.min_l by done. }
    assert (∃ i, t = byte_len (take i text) ∧ i < length text ∧ a ≤ i ∧
      (i = a ∨ (ind + (tw (take i text) - tw (take a text)) + tw affix <= wrap_width)%Qc)) as (i & -> & Hi & Hai & Hw).
    { destruct Hcut as [->|(_ & i & -> & Hai & Hil & Hw)]; rewrite pos_bytes.
      - exists a. split; [done|]. split; [lia|]. auto.
      - rewrite !upto_width in Hw. exists i. split; [done|]. split; [|split; [done|right; qc_lra]].
        destruct (decide (i < length text)); [done|]. exfalso. pose proof (Hmon j i ltac:(lia)).
        pose proof (text_width_nonneg layout_width width_nonneg affix). qc_lra. }
    destruct (truncate_end_cuts text affix runs (take i text) (drop i text) Hlen) as (front & cut & runs' & Hr & Ht & s & Hs).
    { by rewrite take_drop. }
    { intros Hd. pose proof (f_equal length Hd) as Hd'. rewrite length_drop in Hd'. simpl in Hd'. lia. }
    exists (front ++ affix), runs', (max_lines - 1), a, ind. split; [exact Hr|]. split; [done|]. split; [lia|]. right.
    split; [lia|]. exists front, cut, i. split; [exact Ht|]. split; [|split; [|by split]].
    + pose proof (Hmon j (length text) Hjl) as Hj. rewrite (take_ge text (length text)) in Hj by lia.
      rewrite <-(take_drop a text) in Hj at 2. rewrite text_width_app in Hj. qc_lra.
    + pose proof (f_equal length Hs) as Hl. rewrite length_app, length_take in Hl. lia.
Qed.
End truncation.

Import Chars.Ascii.
Lemma sample_width : ∀ c : char, (0 <= (λ _, px 1) c)%Qc.
Proof. intros c. unfold Qcle, not. vm_compute. discriminate. Qed.
Lemma truncate_line_fits_witness :
  ∃ res runs', truncate_line (λ _, px 1) (str "hello world") (px 8) [8230%N] [mkRun 5 0; mkRun 6 1] TruncateEnd
      = Ok (res, runs') ∧
    ∃ front cut back, truncated (str "hello world") [8230%N] [mkRun 5 0; mkRun 6 1] front cut back res runs' ∧
      fits_truncated (λ _, px 1) (px 8) TruncateEnd [8230%N] front cut back.
Proof.
  destruct (truncate_line_fits (λ _, px 1) sample_width (str "hello world") (px 8) [8230%N] [mkRun 5 0; mkRun 6 1] TruncateEnd)
    as (res & runs' & Hr & [(_ & _ & Hf)|(front & cut & back & Ht & _ & _ & Hfit)]).
  - unfold Qcle, not. vm_compute. discriminate.
  - vm_compute. reflexivity.
  - exfalso. revert Hf. unfold Qcle, not. vm_compute. intros H. by apply H.
  - exists res, runs'. split; [exact Hr|]. exists front, cut, back. split; [exact Ht|exact Hfit].
Defined.

Lemma truncate_wrapped_fits_witness :
  ∃ res runs' n a ind,
    truncate_wrapped_line (λ _, px 1) (str "hello wide world") (px 6) 2 [8230%N] [mkRun 16 tt] TruncateEnd = Ok (res, runs') ∧
    breaks (λ _, px 1) (px 6) (str "hello wide world") true n a ind ∧ n < 2.
Proof.
  destruct (truncate_wrapped_fits (λ _, px 1) sample_width true (str "hello wide world") (px 6) 2 [8230%N] [mkRun 16 tt])
    as (res & runs' & n & a & ind & Hr & Hb & Hn & _).
  - simpl. repeat constructor.
  - lia.
  - done.
  - vm_compute. reflexivity.
  - exists res, runs', n, a, ind. split; [exact Hr|]. split; [exact Hb|exact Hn].
Defined.

(** ** Behaviour that a caller may not expect *)

(** Truncation at the start with an affix that is wider than the line cuts one character only. *)
Example start_without_room :
  truncate_line (λ _, px 1) (str "hello world") (px 2) (str "....") [mkRun 11 tt] TruncateStart
    = Ok (str "....ello world", [mkRun 14 tt]).
Proof. vm_compute. reflexivity. Qed.

(** A cut at the end of a run: the affix is not added to the run before it but takes the style of the next. *)
Example middle_affix_style :
  truncate_line (λ _, px 1) (str "aaaabbbbbbcc") (px 7) (str ".") [mkRun 4 0; mkRun 6 1; mkRun 2 2] TruncateMiddle
    = Ok (str "aaaa.cc", [mkRun 4 0; mkRun 1 1; mkRun 2 2]).
Proof. vm_compute. reflexivity. Qed.
