(* ===== verification/LineLayoutTheorems.v ===== *)
(** What shaped lines promise: hit tests find the glyph, the position of an index is hit at that index,
    and the rows of a wrapped line fit. *)
From Stdlib Require Import QArith Qcanon Qround Ascii String.
From S2P Require Import Prelude Chars Geometry Pixels LineWrapper LineWrapFacts LineLayout LineLayoutFacts LineWrapTheorems.
Local Open Scope Qc_scope.
Local Open Scope nat_scope.

Implicit Types self : LineLayout.t Qc.
Implicit Types gs : list (ShapedGlyph Qc).

Lemma ordered_split gs g : ordered gs → g ∈ gs →
  ∃ gs1 gs2, gs = gs1 ++ g :: gs2 ∧ Forall (λ h, (glyph_x g < glyph_x h)%Qc) gs2.
Proof.
  intros Ho (gs1 & gs2 & ->)%list_elem_of_split. exists gs1, gs2. split; [done|].
  destruct (ordered_middle _ _ _ Ho) as [_ Hafter]. eapply Forall_impl; [exact Hafter|]. by intros ? [].
Qed.
Lemma index_of_glyph self g :
  ordered (all_glyphs self) → g ∈ all_glyphs self → (glyph_x g < LineLayout.width self)%Qc →
  x_for_index self (glyph_index g) = glyph_x g ∧ index_for_x self (glyph_x g) = Some (glyph_index g).
Proof.
  intros Ho Hg Hw. destruct (ordered_split _ _ Ho Hg) as (gs1 & gs2 & Hgs & Hafter).
  split; [by eapply x_for_index_ok|]. eapply index_for_x_ok; try done.
Qed.

(** ** Hit tests *)

(** The glyph with the index [i] covers the position [x]: it is the last one that starts before it. *)
Definition covers self (x : Qc) (i : nat) : Prop :=
  ∃ gs1 g gs2, all_glyphs self = gs1 ++ g :: gs2 ∧ i = glyph_index g ∧ (glyph_x g <= x)%Qc ∧
    Forall (λ h, (x < glyph_x h)%Qc) gs2.

(** A hit test finds the glyph under the position, none beyond the width, and the first index before
    every glyph; and the position of a glyph's index is hit at that index. *)
Theorem hit_test_exact self :
  ordered (all_glyphs self) →
  (∀ x, match index_for_x self x with
    | Some i => (x < LineLayout.width self)%Qc ∧
        (covers self x i ∨ i = 0 ∧ Forall (λ h, (x < glyph_x h)%Qc) (all_glyphs self))
    | None => (LineLayout.width self <= x)%Qc
    end) ∧
  ∀ g, g ∈ all_glyphs self → (glyph_x g < LineLayout.width self)%Qc →
    index_for_x self (x_for_index self (glyph_index g)) = Some (glyph_index g).
Proof.
  intros Ho. split.
  - intros x. unfold index_for_x. destruct (cle_spec (LineLayout.width self) x) as [Hle|Hlt]; [done|].
    pose proof (find_split (λ g, cle (glyph_x g) x) (rev (all_glyphs self))) as Hf. cbv beta in Hf.
    destruct (List.find _ _) as [g|]; split; try done.
    + destruct Hf as (l1 & l2 & Hl & Hg & Hl1). left. exists (rev l2), g, (rev l1).
      apply (f_equal (@rev _)) in Hl. rewrite rev_involutive, rev_app_distr in Hl. cbn [rev] in Hl.
      rewrite <-app_assoc in Hl. split; [exact Hl|]. split; [done|]. destruct (cle_spec (glyph_x g) x); [|done].
      split; [done|]. apply Forall_rev. eapply Forall_impl; [exact Hl1|]. intros h Hh. cbv beta in Hh.
      by destruct (cle_spec (glyph_x h) x).
    + right. split; [done|]. apply Forall_rev in Hf. rewrite rev_involutive in Hf. eapply Forall_impl; [exact Hf|].
      intros h Hh. cbv beta in Hh. by destruct (cle_spec (glyph_x h) x).
  - intros g Hg Hw. destruct (index_of_glyph _ _ Ho Hg Hw) as [-> ?]. done.
Qed.

(** A line of glyphs of the same width, of one byte each, and of two runs if [k] is less than [n]. *)
Definition glyph_of (i : nat) : ShapedGlyph Qc := mkGlyph i (point (px (Z.of_nat i)) (px 0)) i false.
Definition line_of (n k : nat) : LineLayout.t Qc :=
  LineLayout.mk (px 1) (px (Z.of_nat n)) (px 1) (px 0)
    [mkShaped 0 (map glyph_of (seq 0 k)); mkShaped 1 (map glyph_of (seq k (n - k)))] n.
Lemma line_of_glyphs n k : k ≤ n → all_glyphs (line_of n k) = map glyph_of (seq 0 n).
Proof.
  intros Hk. unfold all_glyphs, line_of. cbn [LineLayout.runs flat_map glyphs]. rewrite app_nil_r, <-map_app, <-seq_app.
  by replace (k + (n - k)) with n by lia.
Qed.
Lemma px_lt (a b : Z) : (a < b)%Z → (px a < px b)%Qc.
Proof. intros H. unfold Qclt, px. simpl. rewrite !Qred_correct. by rewrite <-Zlt_Qlt. Qed.
Lemma line_of_lookup n i g : map glyph_of (seq 0 n) !! i = Some g → g = glyph_of i ∧ i < n.
Proof. rewrite list_lookup_fmap_Some. intros (j & -> & [-> ?]%lookup_seq). done. Qed.
Lemma line_of_ordered n k : k ≤ n → ordered (all_glyphs (line_of n k)).
Proof.
  intros Hk. rewrite line_of_glyphs by done. split; intros i j g h Hij [-> _]%line_of_lookup [-> _]%line_of_lookup.
  - apply px_lt. lia.
  - done.
Qed.
Lemma hit_test_exact_witness :
  index_for_x (line_of 5 2) (x_for_index (line_of 5 2) (glyph_index (glyph_of 3))) = Some (glyph_index (glyph_of 3)).
Proof.
  apply (hit_test_exact (line_of 5 2)).
  - apply line_of_ordered. lia.
  - rewrite line_of_glyphs by lia. apply list_elem_of_fmap. exists 3. split; [done|]. apply elem_of_seq. lia.
  - apply px_lt. lia.
Defined.

(** ** The nearest edge *)

(** In a line that starts at its edge, a position up to the last glyph goes to the glyph whose edge is
    nearest; every position after the edge of the last glyph goes to the end of the line. *)
Theorem closest_is_nearest self g0 gs last (x : Qc) :
  all_glyphs self = g0 :: gs → last ∈ all_glyphs self → (∀ h, h ∈ all_glyphs self → (glyph_x h <= glyph_x last)%Qc) →
  ordered (all_glyphs self) → glyph_x g0 = 0%Qc → glyph_index g0 = 0 → LineLayout.len self ≠ 1 → (0 < x)%Qc →
  if cle x (glyph_x last)
  then ∃ g, g ∈ all_glyphs self ∧ closest_index_for_x self x = glyph_index g ∧
      ∀ h, h ∈ all_glyphs self → (pabs (x - glyph_x g) <= pabs (x - glyph_x h))%Qc
  else closest_index_for_x self x = LineLayout.len self.
Proof.
  intros Hgs Hlast Hmax Ho Hx0 Hi0 Hlen Hx. unfold closest_index_for_x. rewrite Hgs in *. cbn [closest_loop].
  rewrite Hx0, (cle_no x 0%Qc), Hi0 by done. destruct (ordered_middle [] g0 gs Ho) as [_ Hafter].
  pose proof (closest_loop_ok gs x 0 0%Qc (proj2 (ordered_app [g0] gs Ho))) as Hloop.
  specialize (Hloop ltac:(eapply Forall_impl; [exact Hafter|]; intros ? [? _]; by rewrite <-Hx0) Hx).
  assert (Hpabs : pabs (x - 0)%Qc = (x - 0)%Qc).
  { unfold pabs. change (czero : Qc) with 0%Qc. rewrite (clt_no (x - 0)%Qc 0%Qc); [reflexivity|qc_lra]. }
  destruct (closest_loop gs x 0 0%Qc) as [i|] eqn:Eloop.
  - destruct Hloop as (xi & Hi & Hnear & Hall). assert (Hg : ∃ g, g ∈ g0 :: gs ∧ i = glyph_index g ∧ xi = glyph_x g).
    { destruct Hi as [[= -> ->]|(g & Hg & [= -> ->])]; [exists g0|exists g]; split_and!; by auto using list_elem_of_here, list_elem_of_further. }
    destruct Hg as (g & Hg & -> & ->). destruct (cle_spec x (glyph_x last)) as [Hle|Hgt].
    + exists g. split; [done|]. split; [done|]. intros h [->|Hh]%elem_of_cons; [|by apply Hall].
      rewrite Hx0, Hpabs. exact Hnear.
    + exfalso. destruct (closest_loop_some _ _ _ _ _ Eloop) as (h & Hh & Hle).
      pose proof (Hmax h (list_elem_of_further _ _ _ Hh)). qc_lra.
  - assert (Hall : (glyph_x last < x)%Qc).
    { apply elem_of_cons in Hlast as [->|Hlast]; [by rewrite Hx0|]. rewrite Forall_forall in Hloop. by apply Hloop. }
    rewrite cle_no by done. by destruct (Nat.eqb_spec (LineLayout.len self) 1).
Qed.
Lemma closest_is_nearest_witness : closest_index_for_x (line_of 5 2) (px 4 + Q2Qc (1 # 4))%Qc = 5.
Proof.
  change 5 with (LineLayout.len (line_of 5 2)) at 2.
  assert (Hpos : (px 4 < px 4 + Q2Qc (1 # 4))%Qc) by (unfold Qclt; vm_compute; reflexivity).
  pose proof (closest_is_nearest (line_of 5 2) (glyph_of 0) (map glyph_of (seq 1 4)) (glyph_of 4)
    (px 4 + Q2Qc (1 # 4))%Qc) as H.
  rewrite (cle_no _ (glyph_x (glyph_of 4))) in H by exact Hpos. apply H.
  - reflexivity.
  - rewrite line_of_glyphs by lia. apply list_elem_of_fmap. exists 4. split; [done|]. apply elem_of_seq. lia.
  - intros h. rewrite line_of_glyphs by lia. intros [i [-> Hi%elem_of_seq]]%list_elem_of_fmap.
    destruct (decide (i = 4)) as [->|]; [apply Qcle_refl|]. apply Qclt_le_weak, px_lt. lia.
  - apply line_of_ordered. lia.
  - reflexivity.
  - reflexivity.
  - done.
  - unfold Qclt; vm_compute; reflexivity.
Defined.

(** ** Positions in wrapped lines *)

Section wrapped.
Implicit Types w : WrappedLineLayout.t Qc.
Import WrappedLineLayout.









End wrapped.


(** The line of [test_hit_testing_past_width_before_wrap_boundary]: its last glyph stands behind the width, where the line is
    wrapped; here with a mark on top of the first glyph. *)
Definition late_line : WrappedLineLayout.t Qc :=
  WrappedLineLayout.mk
    (LineLayout.mk (px 16) (px 100) (px 12) (px 4)
      [mkShaped 0 [mkGlyph 0 (point (px 0) (px 0)) 0 false; mkGlyph 7 (point (px 0) (px 0)) 1 false;
        mkGlyph 1 (point (px 101) (px 0)) 2 false]] 3)
    [mkWrapBoundary 0 2] (Some (px 100)).
(** What the test says; and the end of the line, which is hit at the start of its row. *)
Example late_line_hits :
  index_for_position late_line (point (px 50) (px 0)) (px 16) = Ok (ResOk 1) ∧
  index_for_position late_line (point (px 100 + Q2Qc (1 # 2))%Qc (px 0)) (px 16) = Ok (ResErr 2) ∧
  index_for_position late_line (point (px 101) (px 0)) (px 16) = Ok (ResErr 2) ∧
  position_for_index late_line 3 (px 16) = Ok (Some (point (- px 1)%Qc (px 16))) ∧
  index_for_position late_line (point (- px 1)%Qc (px 16)) (px 16) = Ok (ResErr 2).
Proof. vm_compute. done. Qed.


(** ** Rows *)

(** The glyphs stand in order within the width, and the first one belongs to the first run. *)
Record line_ok self : Prop := {
  lo_first : ∀ g, head (all_glyphs self) = Some g → (0 <= glyph_x g)%Qc;
  lo_x : ∀ i j g h, i ≤ j → all_glyphs self !! i = Some g → all_glyphs self !! j = Some h → (glyph_x g <= glyph_x h)%Qc;
  lo_width : Forall (λ g, (glyph_x g <= LineLayout.width self)%Qc) (all_glyphs self);
  lo_zero : (0 <= LineLayout.width self)%Qc;
  lo_run : match LineLayout.runs self with run :: _ => glyphs run ≠ [] | [] => True end;
}.

Lemma located_line self : located self = located_from 0 (LineLayout.runs self).
Proof. done. Qed.
Lemma wrap_glyphs_ok self text (gs : list (WrapBoundary * char * Qc)) :
  wrap_glyphs self text = Ok gs →
  Forall2 (λ '(b, _, x) '(b', g), b = b' ∧ x = glyph_x g) gs (located self).
Proof.
  unfold wrap_glyphs. revert gs. induction (located self) as [|[b g] l IH]; intros gs; cbn [mapM_ok].
  - intros [= <-]. constructor.
  - destruct (char_at text (glyph_index g)) as [c| |]; try done. cbn [mbind outcome_bind].
    destruct (mapM_ok _ l) as [gs'| |]; try done. intros [= <-]. constructor; [done|by apply IH].
Qed.

Lemma located_nonempty self i :
  line_ok self → i < length (located self) →
  ∃ b0 g0, located self !! 0 = Some (b0, g0) ∧ b0 = mkWrapBoundary 0 0.
Proof.
  intros Hok Hi. pose proof (lo_run _ Hok) as Hrun. rewrite located_line in *.
  destruct (LineLayout.runs self) as [|run runs]; [simpl in Hi; lia|]. rewrite located_cons.
  destruct (glyphs run) as [|g gs]; [done|]. by exists (mkWrapBoundary 0 0), g.
Qed.
Lemma located_glyph self i b g : located self !! i = Some (b, g) → all_glyphs self !! i = Some g.
Proof.
  intros Hl. unfold all_glyphs. rewrite <-(located_glyphs 0), <-located_line.
  by rewrite list_lookup_fmap, Hl.
Qed.

(** The rows that wrapping makes fit: the boundaries are glyphs of the line in order; every row, from the
    edge of its first glyph, fits in the width without its last glyph at least, or has only one glyph; a row
    ends only where a later glyph would no longer fit; and with a limit of lines the boundaries are the first ones. *)
Theorem wrap_boundaries_fit self (text : list char) (wrap_width : Qc) (gs : list (WrapBoundary * char * Qc)) :
  wrap_glyphs self text = Ok gs → Forall (λ '(_, c, _), is_char c "010" = false) gs → line_ok self →
  ∃ ks, rows (LineLayout.width self) wrap_width gs 0 ks ∧
    compute_wrap_boundaries self text wrap_width None = Ok (map (place gs) ks) ∧
    ∀ max_lines, compute_wrap_boundaries self text wrap_width (Some max_lines)
      = Ok (take (max_lines - 1) (map (place gs) ks)).
Proof.
  intros Hgs Hnl Hok. pose proof (wrap_glyphs_ok _ _ _ Hgs) as Hl.
  assert (Hat : ∀ i b c x, gs !! i = Some (b, c, x) →
    ∃ g, located self !! i = Some (b, g) ∧ all_glyphs self !! i = Some g ∧ x = glyph_x g).
  { intros i b c x Hi. destruct (Forall2_lookup_l _ _ _ _ _ Hl Hi) as ([b' g] & Hlk & -> & ->).
    exists g. by eauto using located_glyph. }
  assert (Hle : ∀ i, i < length gs → ∃ g, all_glyphs self !! i = Some g ∧ edge (LineLayout.width self) gs i = glyph_x g).
  { intros i Hi. destruct (lookup_lt_is_Some_2 gs i Hi) as [[[b c] x] E]. destruct (Hat _ _ _ _ E) as (g & _ & ? & ->).
    exists g. split; [done|]. unfold edge, glyph_at. by rewrite decide_True, E by done. }
  assert (Hend : edge (LineLayout.width self) gs (length gs) = LineLayout.width self).
  { unfold edge. by rewrite decide_False by lia. }
  destruct (wrap_rows (LineLayout.width self) wrap_width gs) with (rest := gs) (k := 0) (a := 0)
    (st := glyph_wrap_start (U:=Qc)) as (ks & Hloop & Hks).
  - intros i j Hij Hj. destruct (decide (j = length gs)) as [->|].
    + rewrite Hend. destruct (decide (i = length gs)) as [->|]; [rewrite Hend; apply Qcle_refl|].
      destruct (Hle i) as (g & Hg & ->); [lia|]. pose proof (lo_width _ Hok) as Hw. rewrite Forall_lookup in Hw. by eapply Hw.
    + destruct (Hle i) as (g & Hg & ->); [lia|]. destruct (Hle j) as (h & Hh & ->); [lia|]. by eapply (lo_x _ Hok i j).
  - destruct (decide (0 < length gs)) as [Hpos|Hz].
    + destruct (Hle 0) as (g & Hg & ->); [done|]. apply (lo_first _ Hok). by destruct (all_glyphs self).
    + replace (length gs) with 0 in Hend by lia. rewrite Hend. apply (lo_zero _ Hok).
  - intros i j Hij Hj. destruct (lookup_lt_is_Some_2 gs i) as [[[b c] x] Ei]; [lia|].
    destruct (lookup_lt_is_Some_2 gs j Hj) as [[[b' c'] x'] Ej]. unfold place, glyph_at. rewrite Ei, Ej. simpl.
    destruct (Hat _ _ _ _ Ei) as (g & Hg & _), (Hat _ _ _ _ Ej) as (h & Hh & _). rewrite located_line in Hg, Hh.
    exact (located_sorted 0 _ i j b b' g h Hij Hg Hh).
  - exact Hnl.
  - done.
  - assert (Hp : place gs 0 = mkWrapBoundary 0 0).
    { unfold place, glyph_at. destruct (gs !! 0) as [[[b c] x]|] eqn:E; [|done]. simpl.
      destruct (Hat _ _ _ _ E) as (g & Hg & _). destruct (located_nonempty self 0 Hok) as (b0 & g0 & Hg0 & ->); [by apply lookup_lt_Some in Hg|congruence]. }
    split; cbn; try done; [lia|by right].
  - right. left. lia.
  - exists ks. split; [exact Hks|]. cbn [glyph_wrap_start gw_boundaries app] in Hloop.
    unfold compute_wrap_boundaries. rewrite Hgs. cbn [mbind outcome_bind]. rewrite Hloop. split; [done|].
    intros max_lines. rewrite wrap_glyph_limit by (simpl; lia). by rewrite Hloop.
Qed.

Definition line_glyphs : list (WrapBoundary * char * Qc) :=
  match wrap_glyphs (line_of 5 3) (str "ab cd") with Ok gs => gs | _ => [] end.
Lemma wrap_boundaries_fit_witness :
  ∃ ks, rows (px 5) (px 4) line_glyphs 0 ks ∧
    compute_wrap_boundaries (line_of 5 3) (str "ab cd") (px 4) None = Ok (map (place line_glyphs) ks) ∧
    ∀ max_lines, compute_wrap_boundaries (line_of 5 3) (str "ab cd") (px 4) (Some max_lines)
      = Ok (take (max_lines - 1) (map (place line_glyphs) ks)).
Proof.
  apply (wrap_boundaries_fit (line_of 5 3) (str "ab cd") (px 4) line_glyphs).
  - vm_compute. reflexivity.
  - unfold line_glyphs. vm_compute. repeat constructor.
  - split.
    + rewrite line_of_glyphs by lia. intros g [= <-]. apply Qcle_refl.
    + rewrite line_of_glyphs by lia. intros i j g h Hij [-> _]%line_of_lookup [-> _]%line_of_lookup.
      destruct (decide (i = j)) as [->|]; [apply Qcle_refl|]. apply Qclt_le_weak, px_lt. lia.
    + rewrite line_of_glyphs by lia. apply Forall_forall. intros g [i [-> Hi%elem_of_seq]]%list_elem_of_fmap.
      apply Qclt_le_weak, px_lt. lia.
    + apply Qclt_le_weak, (px_lt 0 5). lia.
    + done.
Defined.

(** ** Forced widths *)

Section force.
Variable force_width : Qc.
Notation half := (chalf force_width).

(** A glyph keeps all but its place: it stands within a pixel of a cell no later than itself, or at the
    distance from an earlier glyph that shaping gave it, which is at most half of a cell. *)
Definition same_but_x (g g' : ShapedGlyph Qc) : Prop :=
  glyph_id g' = glyph_id g ∧ glyph_index g' = glyph_index g ∧ is_emoji g' = is_emoji g ∧
  Geometry.y (position g') = Geometry.y (position g).
Definition near_cell (k : nat) (x : Qc) : Prop := (pabs (x - of_nat k * force_width) <= 1)%Qc.
Definition forced (gs gs' : list (ShapedGlyph Qc)) (i : nat) : Prop :=
  ∃ g g', gs !! i = Some g ∧ gs' !! i = Some g' ∧ same_but_x g g' ∧
    ((∃ k, k ≤ i ∧ near_cell k (glyph_x g')) ∨
     ∃ j h h', j < i ∧ gs !! j = Some h ∧ gs' !! j = Some h' ∧ (glyph_x g <= glyph_x h + half)%Qc ∧
       (glyph_x g' - glyph_x h' = glyph_x g - glyph_x h)%Qc).
Definition force_inv (st : ForceState (U:=Qc)) (gs gs' : list (ShapedGlyph Qc)) : Prop :=
  length gs' = length gs ∧ st.1.1 ≤ length gs ∧ (∀ i, i < length gs → forced gs gs' i) ∧
  match st.1.2 with
  | Some last => ∃ j h h', gs !! j = Some h ∧ gs' !! j = Some h' ∧ glyph_x h = last ∧ glyph_x h' = st.2
  | None => True
  end.

Lemma forced_app gs gs' more more' i : forced gs gs' i → forced (gs ++ more) (gs' ++ more') i.
Proof.
  intros (g & g' & Hg & Hg' & Hs & Hx). exists g, g'. split_and!; eauto using lookup_app_l_Some.
  destruct Hx as [?|(j & h & h' & ? & ? & ? & ?)]; [by left|right]. exists j, h, h'. split_and!; try tauto; by apply lookup_app_l_Some.
Qed.
Lemma near_cell_self k : near_cell k (of_nat k * force_width)%Qc.
Proof.
  unfold near_cell. replace (_ - _)%Qc with 0%Qc by qc_lra. unfold Qcle, not; vm_compute; discriminate.
Qed.

Lemma force_glyph_ok st g gs gs' :
  force_inv st gs gs' →
  force_inv (force_glyph force_width st g).1 (gs ++ [g]) (gs' ++ [(force_glyph force_width st g).2]).
Proof.
  destruct st as [[k last] actual]. intros (Hlen & Hk & Hall & Hlast). cbn [fst snd] in *. unfold force_glyph.
  assert (Hend : ∀ h (l : list (ShapedGlyph Qc)), length l = length gs → (l ++ [h]) !! length gs = Some h).
  { intros h l Hl. by rewrite list_lookup_middle. }
  assert (Hgrow : ∀ g', forced (gs ++ [g]) (gs' ++ [g']) (length gs) →
    ∀ i, i < length (gs ++ [g]) → forced (gs ++ [g]) (gs' ++ [g']) i).
  { intros g' Hg i Hi. rewrite length_app in Hi. simpl in Hi. destruct (decide (i = length gs)) as [->|]; [done|].
    apply forced_app, Hall. lia. }
  set (zero := match last with Some _ => _ | None => None end).
  assert (Hz : match zero with Some l => last = Some l ∧ (glyph_x g <= l + half)%Qc | None => True end).
  { unfold zero. destruct last as [l|]; [|done]. by destruct (clt_spec (cadd l half) (glyph_x g)). }
  destruct zero as [l|].
  - destruct Hz as [-> Hz]. destruct Hlast as (j & h & h' & Hj & Hj' & Hh & Hh').
    pose proof (lookup_lt_Some _ _ _ Hj). unfold force_inv. cbn [fst snd].
    split; [rewrite !length_app; simpl; lia|]. split; [rewrite length_app; lia|]. split.
    + apply Hgrow. eexists _, _. split; [by apply Hend|]. split; [by apply Hend|]. split; [by repeat split|].
      right. exists j, h, h'. split; [done|]. split; [by apply lookup_app_l_Some|]. split; [by apply lookup_app_l_Some|].
      rewrite Hh, Hh'. split; [done|]. cbn [glyph_x at_x position Geometry.x cadd csub Qc_coord]. ring.
    + exists j, h, h'. split_and!; by eauto using lookup_app_l_Some.
  - set (g' := if clt pone _ then _ else g).
    assert (Hs : same_but_x g g') by (unfold g'; destruct (clt pone _); by repeat split).
    assert (Hn : near_cell k (glyph_x g')).
    { unfold g'. destruct (clt_spec pone (pabs (csub (glyph_x g) (pmul (of_nat k) force_width)))); [apply near_cell_self|done]. }
    unfold force_inv. cbn [fst snd].
    split; [rewrite !length_app; simpl; lia|]. split; [rewrite length_app; simpl; lia|]. split.
    + apply Hgrow. exists g, g'. split; [by apply Hend|]. split; [by apply Hend|]. split; [done|].
      left. by exists k.
    + exists (length gs), g, g'. split; [by apply Hend|]. split; [by apply Hend|]. done.
Qed.
Lemma force_glyphs_ok gs2 st gs gs' :
  force_inv st gs gs' →
  force_inv (force_glyphs force_width st gs2).1 (gs ++ gs2) (gs' ++ (force_glyphs force_width st gs2).2).
Proof.
  revert st gs gs'. induction gs2 as [|g gs2 IH]; intros st gs gs' Hst; cbn [force_glyphs]; [by rewrite !app_nil_r|].
  pose proof (force_glyph_ok st g _ _ Hst) as H1. destruct (force_glyph force_width st g) as [st1 g'].
  specialize (IH st1 _ _ H1). destruct (force_glyphs force_width st1 gs2) as [st2 gs2'].
  cbn [fst snd] in *. by rewrite <-!app_assoc in IH.
Qed.
Lemma force_runs_ok rs st gs gs' :
  force_inv st gs gs' →
  ∃ st', force_inv st' (gs ++ flat_map glyphs rs) (gs' ++ flat_map glyphs (force_runs force_width st rs)).
Proof.
  revert st gs gs'. induction rs as [|r rs IH]; intros st gs gs' Hst; cbn [force_runs flat_map]; [exists st; by rewrite !app_nil_r|].
  pose proof (force_glyphs_ok (glyphs r) st _ _ Hst) as H1. destruct (force_glyphs force_width st (glyphs r)) as [st1 gs1'].
  cbn [fst snd flat_map glyphs] in *. destruct (IH st1 _ _ H1) as [st' H2]. exists st'. by rewrite <-!app_assoc in H2.
Qed.
End force.

(** Forced widths put every glyph into a cell: each glyph keeps its identity, its index and its height and
    stands within a pixel of a cell that is not after its own place in the line, or, as a combining mark that
    shaping put at most half of a cell after an earlier glyph, at the distance from that glyph that shaping gave it. *)
Theorem force_width_cells (layout : LineLayout.t Qc) (force_width : Qc) (i : nat) :
  i < length (all_glyphs layout) →
  forced force_width (all_glyphs layout) (all_glyphs (apply_force_width_to_layout layout force_width)) i.
Proof.
  destruct (force_runs_ok force_width (LineLayout.runs layout) (0, None, czero) [] []) as [st' H].
  - split; [done|]. split; [done|]. split; [simpl; lia|done].
  - destruct H as (_ & _ & H & _). apply H.
Qed.
Lemma force_width_cells_witness :
  forced (px 3) (all_glyphs (line_of 5 2)) (all_glyphs (apply_force_width_to_layout (line_of 5 2) (px 3))) 4.
Proof. apply (force_width_cells (line_of 5 2) (px 3) 4). rewrite line_of_glyphs by lia. simpl. lia. Defined.
