(* ===== verification/LineCache.v ===== *)
(** The cache of shaped lines over two frames, [LineLayoutCache] of
    [crates/gpui/src/text_system/line_layout.rs]. *)
From stdpp Require Import countable gmap.
From S2P Require Import Prelude Chars Geometry Pixels LineWrapper LineLayout.
Local Open Scope nat_scope.

(** ** Keys *)

Record FontRun : Type := mkFontRun { fr_len : nat; fr_font : nat }.
#[export] Instance FontRun_eq_dec : EqDecision FontRun.
Proof. solve_decision. Defined.
#[export] Instance FontRun_countable : Countable FontRun.
Proof.
  refine (inj_countable' (λ r, (fr_len r, fr_font r)) (λ '(l, f), mkFontRun l f) _). by intros [].
Defined.

Section keys.
Context {U : Type} `{!EqDecision U, !Countable U}.

(** [CacheKey], compared by all of its fields; the lookup key [CacheKeyRef] has the same fields. *)
Record CacheKey : Type := mkKey {
  key_text : list char;
  key_font_size : U;
  key_runs : list FontRun;
  key_wrap_width : option U;
  key_force_width : option U;
}.
#[export] Instance CacheKey_eq_dec : EqDecision CacheKey.
Proof. solve_decision. Defined.
#[export] Instance CacheKey_countable : Countable CacheKey.
Proof.
  refine (inj_countable'
    (λ k, (key_text k, key_font_size k, key_runs k, key_wrap_width k, key_force_width k))
    (λ '(t, s, r, w, f), mkKey t s r w f) _). by intros [].
Defined.

(** [HashedCacheKey]: the hash and the length of the text in its place. *)
Record HashedCacheKey : Type := mkHashed {
  hk_text_hash : N;
  hk_text_len : nat;
  hk_font_size : U;
  hk_runs : list FontRun;
  hk_wrap_width : option U;
  hk_force_width : option U;
}.
#[export] Instance HashedCacheKey_eq_dec : EqDecision HashedCacheKey.
Proof. solve_decision. Defined.
#[export] Instance HashedCacheKey_countable : Countable HashedCacheKey.
Proof.
  refine (inj_countable'
    (λ k, (hk_text_hash k, hk_text_len k, hk_font_size k, hk_runs k, hk_wrap_width k, hk_force_width k))
    (λ '(h, l, s, r, w, f), mkHashed h l s r w f) _). by intros [].
Defined.
End keys.
Arguments CacheKey : clear implicits.
Arguments HashedCacheKey : clear implicits.

(** ** Frames *)

(** One of the maps of a frame with the vector of the keys that the frame used. *)
Record Cached (K V : Type) `{Countable K} : Type := mkCached { entries : gmap K V; used : list K }.
Arguments mkCached {K V _ _}.
Arguments entries {K V _ _}.
Arguments used {K V _ _}.

Section cached.
Context {K V : Type} `{Countable K}.
Implicit Types prev cur : Cached K V.

Definition cached_default : Cached K V := mkCached ∅ [].
(** [current.insert(key, layout)] with [used.push(key)]. *)
Definition store cur (k : K) (v : V) : Cached K V := mkCached (<[k := v]> (entries cur)) (used cur ++ [k]).
(** [remove_entry] of the previous frame, and its insertion into the current one. *)
Definition promote prev cur (k : K) : option (V * Cached K V * Cached K V) :=
  v ← entries prev !! k; Some (v, mkCached (delete k (entries prev)) (used prev), store cur k v).
(** One turn of a loop of [reuse_layouts]: the key is used even if its entry moved before. *)
Definition reuse_key (st : Cached K V * Cached K V) (k : K) : Cached K V * Cached K V :=
  let '(prev, cur) := st in
  match entries prev !! k with
  | Some v => (mkCached (delete k (entries prev)) (used prev), store cur k v)
  | None => (prev, mkCached (entries cur) (used cur ++ [k]))
  end.
(** The loop over [used[start..end]]; the slice panics out of its range. *)
Definition reuse_range prev cur (start stop : nat) : outcome (Cached K V * Cached K V) :=
  if decide (start ≤ stop ∧ stop ≤ length (used prev))
  then Ok (foldl reuse_key (prev, cur) (take (stop - start) (drop start (used prev))))
  else Panic.
Definition truncate_used cur (n : nat) : Cached K V := mkCached (entries cur) (take n (used cur)).
End cached.

(** ** The cache *)

Section cache.
Context {U : Type} `{!Coord U, !PixelOps U, !PixelFloor U, !EqDecision U, !Countable U}.

Record FrameCache : Type := mkFrame {
  lines : Cached (CacheKey U) (LineLayout.t U);
  wrapped_lines : Cached (CacheKey U) (WrappedLineLayout.t U);
  lines_by_hash : Cached (HashedCacheKey U) (LineLayout.t U);
  wrapped_lines_by_hash : Cached (HashedCacheKey U) (WrappedLineLayout.t U);
}.
Definition frame_default : FrameCache := mkFrame cached_default cached_default cached_default cached_default.
Record LineLayoutCache : Type := mkCache { previous_frame : FrameCache; current_frame : FrameCache }.
Definition cache_new : LineLayoutCache := mkCache frame_default frame_default.

Record LineLayoutIndex : Type := mkIndex {
  lines_index : nat;
  wrapped_lines_index : nat;
  lines_by_hash_index : nat;
  wrapped_lines_by_hash_index : nat;
}.

(** [PlatformTextSystem::layout_line]. *)
Context (platform_layout_line : list char → U → list FontRun → LineLayout.t U).
Implicit Types self : LineLayoutCache.

Definition layout_index self : LineLayoutIndex :=
  let frame := current_frame self in
  mkIndex (length (used (lines frame))) (length (used (wrapped_lines frame)))
    (length (used (lines_by_hash frame))) (length (used (wrapped_lines_by_hash frame))).

Definition reuse_layouts self (start stop : LineLayoutIndex) : outcome LineLayoutCache :=
  let '(prev, cur) := (previous_frame self, current_frame self) in
  '(lines_p, lines_c) ← reuse_range (lines prev) (lines cur) (lines_index start) (lines_index stop);
  '(wrapped_p, wrapped_c) ← reuse_range (wrapped_lines prev) (wrapped_lines cur)
    (wrapped_lines_index start) (wrapped_lines_index stop);
  '(hashed_p, hashed_c) ← reuse_range (lines_by_hash prev) (lines_by_hash cur)
    (lines_by_hash_index start) (lines_by_hash_index stop);
  '(wrapped_hashed_p, wrapped_hashed_c) ← reuse_range (wrapped_lines_by_hash prev) (wrapped_lines_by_hash cur)
    (wrapped_lines_by_hash_index start) (wrapped_lines_by_hash_index stop);
  Ok (mkCache (mkFrame lines_p wrapped_p hashed_p wrapped_hashed_p) (mkFrame lines_c wrapped_c hashed_c wrapped_hashed_c)).

Definition truncate_layouts self (ix : LineLayoutIndex) : LineLayoutCache :=
  let cur := current_frame self in
  mkCache (previous_frame self)
    (mkFrame (truncate_used (lines cur) (lines_index ix)) (truncate_used (wrapped_lines cur) (wrapped_lines_index ix))
      (truncate_used (lines_by_hash cur) (lines_by_hash_index ix))
      (truncate_used (wrapped_lines_by_hash cur) (wrapped_lines_by_hash_index ix))).

(** The frames are swapped and the new current one is cleared. *)
Definition finish_frame self : LineLayoutCache := mkCache (current_frame self) frame_default.

(** What is shaped on a miss. *)
Definition shape (text : list char) (font_size : U) (runs : list FontRun) (force_width : option U) : LineLayout.t U :=
  let layout := platform_layout_line text font_size runs in
  match force_width with Some w => apply_force_width_to_layout layout w | None => layout end.

Definition with_lines self (prev cur : Cached (CacheKey U) (LineLayout.t U)) : LineLayoutCache :=
  let '(p, c) := (previous_frame self, current_frame self) in
  mkCache (mkFrame prev (wrapped_lines p) (lines_by_hash p) (wrapped_lines_by_hash p))
    (mkFrame cur (wrapped_lines c) (lines_by_hash c) (wrapped_lines_by_hash c)).
Definition with_wrapped self (prev cur : Cached (CacheKey U) (WrappedLineLayout.t U)) : LineLayoutCache :=
  let '(p, c) := (previous_frame self, current_frame self) in
  mkCache (mkFrame (lines p) prev (lines_by_hash p) (wrapped_lines_by_hash p))
    (mkFrame (lines c) cur (lines_by_hash c) (wrapped_lines_by_hash c)).
Definition with_hashed self (prev cur : Cached (HashedCacheKey U) (LineLayout.t U)) : LineLayoutCache :=
  let '(p, c) := (previous_frame self, current_frame self) in
  mkCache (mkFrame (lines p) (wrapped_lines p) prev (wrapped_lines_by_hash p))
    (mkFrame (lines c) (wrapped_lines c) cur (wrapped_lines_by_hash c)).

Definition layout_line self (text : list char) (font_size : U) (runs : list FontRun) (force_width : option U) :
    LineLayout.t U * LineLayoutCache :=
  let key := mkKey text font_size runs None force_width in
  let '(prev, cur) := (lines (previous_frame self), lines (current_frame self)) in
  match entries cur !! key with
  | Some layout => (layout, self)
  | None =>
      match promote prev cur key with
      | Some (layout, prev, cur) => (layout, with_lines self prev cur)
      | None =>
          let layout := shape text font_size runs force_width in
          (layout, with_lines self prev (store cur key layout))
      end
  end.

Definition layout_wrapped_line self (text : list char) (font_size : U) (runs : list FontRun)
    (wrap_width : option U) (max_lines : option nat) : outcome (WrappedLineLayout.t U * LineLayoutCache) :=
  let key := mkKey text font_size runs wrap_width None in
  let '(prev, cur) := (wrapped_lines (previous_frame self), wrapped_lines (current_frame self)) in
  match entries cur !! key with
  | Some layout => Ok (layout, self)
  | None =>
      match promote prev cur key with
      | Some (layout, prev, cur) => Ok (layout, with_wrapped self prev cur)
      | None =>
          let '(unwrapped_layout, self) := layout_line self text font_size runs None in
          wrap_boundaries ←
            match wrap_width with
            | Some wrap_width => compute_wrap_boundaries unwrapped_layout text wrap_width max_lines
            | None => Ok []
            end;
          let layout := WrappedLineLayout.mk unwrapped_layout wrap_boundaries wrap_width in
          Ok (layout, with_wrapped self prev (store cur key layout))
      end
  end.

(** The probes by hash; the code finds an entry by a scan for an equal key. *)
Definition try_layout_line_by_hash self (text_hash : N) (text_len : nat) (font_size : U) (runs : list FontRun)
    (force_width : option U) : option (LineLayout.t U) :=
  let key := mkHashed text_hash text_len font_size runs None force_width in
  match entries (lines_by_hash (current_frame self)) !! key with
  | Some layout => Some layout
  | None => entries (lines_by_hash (previous_frame self)) !! key
  end.

Definition layout_line_by_hash self (text_hash : N) (text_len : nat) (font_size : U) (runs : list FontRun)
    (force_width : option U) (materialize_text : () → list char) : LineLayout.t U * LineLayoutCache :=
  let key := mkHashed text_hash text_len font_size runs None force_width in
  let '(prev, cur) := (lines_by_hash (previous_frame self), lines_by_hash (current_frame self)) in
  match entries cur !! key with
  | Some layout => (layout, self)
  | None =>
      match (if decide (key ∈ used prev) then promote prev cur key else None) with
      | Some (layout, prev, cur) => (layout, with_hashed self prev cur)
      | None =>
          let layout := shape (materialize_text ()) font_size runs force_width in
          (layout, with_hashed self prev (store cur key layout))
      end
  end.
End cache.
Arguments FrameCache U {_ _}.
Arguments LineLayoutCache U {_ _}.
