(* ===== verification/LineCacheTheorems.v ===== *)
(** The cache of shaped lines is transparent, and a reused range of a frame stays cached. *)
From Stdlib Require Import QArith Qcanon.
From stdpp Require Import countable gmap.
From S2P Require Import Prelude Chars Geometry Pixels LineWrapper LineLayout LineCache LineWrapTheorems LineLayoutTheorems.
Local Open Scope nat_scope.

(** ** The two frames of a map *)

Section cached.
Context {K V : Type} `{Countable K} (P : K → V → Prop).
Implicit Types prev cur : Cached K V.

(** Every entry is one that [P] allows, and the keys that a frame used have entries; those of the previous
    frame may have moved to the current one. *)
Record cached_ok prev cur : Prop := {
  ck_prev : map_Forall P (entries prev);
  ck_cur : map_Forall P (entries cur);
  ck_used_prev : ∀ k, k ∈ used prev → k ∈ dom (entries prev) ∨ k ∈ dom (entries cur);
  ck_used_cur : ∀ k, k ∈ used cur → k ∈ dom (entries cur);
}.

Lemma default_ok : cached_ok cached_default cached_default.
Proof. split; try apply map_Forall_empty; intros k Hk%not_elem_of_nil; done. Qed.
Lemma store_ok prev cur k v : cached_ok prev cur → P k v → cached_ok prev (store cur k v).
Proof.
  intros [Hp Hc Hup Huc] Hv. split; cbn [entries used store]; [done|by apply map_Forall_insert_2| |].
  - intros k' Hk'%Hup. set_solver.
  - intros k' Hk'. set_solver.
Qed.
Lemma promote_ok prev cur k v prev' cur' :
  cached_ok prev cur → promote prev cur k = Some (v, prev', cur') → P k v ∧ cached_ok prev' cur'.
Proof.
  intros [Hp Hc Hup Huc] Hpr. unfold promote in Hpr. destruct (entries prev !! k) as [w|] eqn:E; [|done].
  injection Hpr as <- <- <-. split; [by apply (map_Forall_lookup_1 _ _ _ _ Hp E)|].
  split; cbn [entries used store]; [by apply map_Forall_delete|apply map_Forall_insert_2; [by apply (map_Forall_lookup_1 _ _ _ _ Hp E)|done]| |].
  - intros k' Hk'%Hup. rewrite dom_delete_L, dom_insert_L. destruct (decide (k' = k)); set_solver.
  - intros k' Hk'. set_solver.
Qed.
Lemma reuse_key_ok prev cur k :
  cached_ok prev cur → k ∈ used prev →
  let '(prev', cur') := reuse_key (prev, cur) k in
  cached_ok prev' cur' ∧ k ∈ dom (entries cur') ∧ used prev' = used prev ∧ used cur' = used cur ++ [k] ∧
  dom (entries cur) ⊆ dom (entries cur').
Proof.
  intros Hok Hk. unfold reuse_key. destruct (entries prev !! k) as [v|] eqn:E.
  - destruct (promote_ok prev cur k v (mkCached (delete k (entries prev)) (used prev)) (store cur k v)) as [_ Hok']; [done|by unfold promote; rewrite E|].
    split; [done|]. cbn [entries used store]. set_solver.
  - destruct Hok as [Hp Hc Hup Huc]. assert (Hk' : k ∈ dom (entries cur)).
    { destruct (Hup k Hk) as [Hd|]; [|done]. by apply not_elem_of_dom in E. }
    split; [split; cbn [entries used]; try done|cbn [entries used]; set_solver].
    intros k' [?|Hk2]%elem_of_app; [by apply Huc|]. apply list_elem_of_singleton in Hk2 as ->. done.
Qed.
Lemma reuse_fold_ok ks prev cur :
  cached_ok prev cur → (∀ k, k ∈ ks → k ∈ used prev) →
  let '(prev', cur') := foldl reuse_key (prev, cur) ks in
  cached_ok prev' cur' ∧ (∀ k, k ∈ ks → k ∈ dom (entries cur')) ∧ used cur' = used cur ++ ks ∧
  dom (entries cur) ⊆ dom (entries cur').
Proof.
  revert prev cur. induction ks as [|k ks IH]; intros prev cur Hok Hks; cbn [foldl].
  - split; [done|]. rewrite app_nil_r. split; [by intros k ?%not_elem_of_nil|done].
  - pose proof (reuse_key_ok prev cur k Hok (Hks k (list_elem_of_here _ _))) as H1.
    destruct (reuse_key (prev, cur) k) as [p1 c1]. destruct H1 as (Hok1 & Hk1 & Hup & Huc & Hsub).
    specialize (IH p1 c1 Hok1). destruct (foldl reuse_key (p1, c1) ks) as [p2 c2].
    destruct IH as (Hok2 & Hks2 & Huc2 & Hsub2); [intros k' Hk'; rewrite Hup; apply Hks; by right|].
    split; [done|]. split; [intros k' [->|Hk']%elem_of_cons; [by apply Hsub2|by apply Hks2]|].
    split; [by rewrite Huc2, Huc, <-app_assoc|set_solver].
Qed.
Lemma reuse_range_ok prev cur start stop prev' cur' :
  cached_ok prev cur → reuse_range prev cur start stop = Ok (prev', cur') →
  cached_ok prev' cur' ∧ used cur' = used cur ++ take (stop - start) (drop start (used prev)) ∧
  (∀ k, k ∈ take (stop - start) (drop start (used prev)) → k ∈ dom (entries cur')).
Proof.
  intros Hok. unfold reuse_range. destruct (decide _); [|done]. intros [= Hf].
  pose proof (reuse_fold_ok (take (stop - start) (drop start (used prev))) prev cur Hok) as H1. rewrite Hf in H1.
  destruct H1 as (? & ? & ? & _); [|done]. intros k Hk. eapply elem_of_submseteq; [exact Hk|].
  apply sublist_submseteq. etrans; [apply sublist_take|apply sublist_drop].
Qed.
Lemma truncate_ok prev cur n : cached_ok prev cur → cached_ok prev (truncate_used cur n).
Proof.
  intros [Hp Hc Hup Huc]. split; cbn [entries used truncate_used]; try done. intros k Hk. apply Huc.
  eapply elem_of_submseteq; [exact Hk|]. apply sublist_submseteq, sublist_take.
Qed.
Lemma swap_ok prev cur : cached_ok prev cur → cached_ok cur cached_default.
Proof.
  intros [Hp Hc Hup Huc]. split; [done|apply map_Forall_empty|by intros k ?%Huc; left|by intros k ?%not_elem_of_nil].
Qed.
End cached.

(** ** The cache *)

Section cache.
Context {U : Type} `{!Coord U, !PixelOps U, !PixelFloor U, !EqDecision U, !Countable U}.
Context (platform_layout_line : list char → U → list FontRun → LineLayout.t U).
(** What the callers keep to: the text that a hash stands for, and the limit of lines of a wrapped text. *)
Context (contents : N → list char) (limit : CacheKey U → option nat).
Implicit Types self : LineLayoutCache U.
Notation shape := (shape platform_layout_line).
Notation layout_line := (layout_line platform_layout_line).
Notation layout_wrapped_line := (layout_wrapped_line platform_layout_line).
Notation layout_line_by_hash := (layout_line_by_hash platform_layout_line).

(** The layouts without a cache. *)
Definition fresh_line (k : CacheKey U) : LineLayout.t U :=
  shape (key_text k) (key_font_size k) (key_runs k) (key_force_width k).
Definition fresh_wrapped (k : CacheKey U) (max_lines : option nat) : outcome (WrappedLineLayout.t U) :=
  let unwrapped := shape (key_text k) (key_font_size k) (key_runs k) None in
  bs ← match key_wrap_width k with
       | Some w => compute_wrap_boundaries unwrapped (key_text k) w max_lines
       | None => Ok []
       end;
  Ok (WrappedLineLayout.mk unwrapped bs (key_wrap_width k)).
Definition fresh_hashed (k : HashedCacheKey U) : LineLayout.t U :=
  shape (contents (hk_text_hash k)) (hk_font_size k) (hk_runs k) (hk_force_width k).

(** The requests of one thread to the cache. *)
Inductive cache_step : LineLayoutCache U → LineLayoutCache U → Prop :=
| step_line self text font_size runs force_width :
    cache_step self (layout_line self text font_size runs force_width).2
| step_wrapped self text font_size runs wrap_width layout self' :
    layout_wrapped_line self text font_size runs wrap_width (limit (mkKey text font_size runs wrap_width None))
      = Ok (layout, self') → cache_step self self'
| step_hashed self text_hash text_len font_size runs force_width :
    cache_step self (layout_line_by_hash self text_hash text_len font_size runs force_width (λ _, contents text_hash)).2
| step_reuse self start stop self' : reuse_layouts self start stop = Ok self' → cache_step self self'
| step_truncate self ix : cache_step self (truncate_layouts self ix)
| step_finish self : cache_step self (finish_frame self).
Definition cache_reachable : LineLayoutCache U → Prop := rtc cache_step cache_new.

Record cache_inv self : Prop := {
  ci_lines : cached_ok (λ k v, v = fresh_line k) (lines (previous_frame self)) (lines (current_frame self));
  ci_wrapped : cached_ok (λ k v, fresh_wrapped k (limit k) = Ok v) (wrapped_lines (previous_frame self)) (wrapped_lines (current_frame self));
  ci_hashed : cached_ok (λ k v, v = fresh_hashed k) (lines_by_hash (previous_frame self)) (lines_by_hash (current_frame self));
  ci_wrapped_hashed : cached_ok (λ _ _, False) (wrapped_lines_by_hash (previous_frame self)) (wrapped_lines_by_hash (current_frame self));
}.

Lemma layout_line_ok self text font_size runs force_width :
  cache_inv self →
  (layout_line self text font_size runs force_width).1 = shape text font_size runs force_width ∧
  cache_inv (layout_line self text font_size runs force_width).2 ∧
  wrapped_lines (previous_frame (layout_line self text font_size runs force_width).2) = wrapped_lines (previous_frame self) ∧
  wrapped_lines (current_frame (layout_line self text font_size runs force_width).2) = wrapped_lines (current_frame self).
Proof.
  intros [Hl Hw Hh Hwh]. unfold LineCache.layout_line. set (key := mkKey text font_size runs None force_width).
  destruct (entries (lines (current_frame self)) !! key) as [v|] eqn:E.
  - pose proof (map_Forall_lookup_1 _ _ _ _ (ck_cur _ _ _ Hl) E) as Hv. cbn beta in Hv. by rewrite Hv.
  - destruct (promote _ _ key) as [[[v p] c]|] eqn:Ep.
    + destruct (promote_ok _ _ _ _ _ _ _ Hl Ep) as [Hv Hl']. cbn beta in Hv. by rewrite Hv.
    + cbn [fst snd with_lines previous_frame current_frame wrapped_lines]. split; [done|]. split; [|done].
      split; try done. by apply store_ok.
Qed.
Lemma layout_wrapped_line_ok self text font_size runs wrap_width :
  let key := mkKey text font_size runs wrap_width None in
  cache_inv self →
  fst <$> layout_wrapped_line self text font_size runs wrap_width (limit key) = fresh_wrapped key (limit key) ∧
  ∀ layout self', layout_wrapped_line self text font_size runs wrap_width (limit key) = Ok (layout, self') → cache_inv self'.
Proof.
  intros key Hinv. destruct Hinv as [Hl Hw Hh Hwh] eqn:EI. clear EI. unfold LineCache.layout_wrapped_line. fold key.
  destruct (entries (wrapped_lines (current_frame self)) !! key) as [v|] eqn:E.
  - pose proof (map_Forall_lookup_1 _ _ _ _ (ck_cur _ _ _ Hw) E) as Hv. cbn beta in Hv. rewrite Hv.
    split; [done|]. by intros layout self' [= _ <-].
  - destruct (promote _ _ key) as [[[v p] c]|] eqn:Ep.
    + destruct (promote_ok _ _ _ _ _ _ _ Hw Ep) as [Hv Hw']. cbn beta in Hv. rewrite Hv. split; [done|].
      by intros layout self' [= _ <-].
    + destruct (layout_line_ok self text font_size runs None Hinv) as (Hv & [Hl2 Hw2 Hh2 Hwh2] & Hp2 & Hc2).
      destruct (layout_line self text font_size runs None) as [v self2]. cbn [fst snd] in *. subst v.
      assert (Hf : ∀ bs, match wrap_width with
          | Some w => compute_wrap_boundaries (shape text font_size runs None) text w (limit key)
          | None => Ok []
          end = Ok bs → fresh_wrapped key (limit key) = Ok (WrappedLineLayout.mk (shape text font_size runs None) bs wrap_width)).
      { intros bs Hbs. unfold fresh_wrapped. cbn [key_text key_font_size key_runs key_wrap_width key]. by rewrite Hbs. }
      unfold fresh_wrapped at 1. cbn [key_text key_font_size key_runs key_wrap_width key]. fold key.
      destruct (match wrap_width with Some w => _ | None => Ok [] end) as [bs| |]; [|done..].
      cbn [mbind outcome_bind fmap outcome_fmap fst]. split; [done|]. intros layout self' [= _ <-].
      split; cbn [with_wrapped previous_frame current_frame lines wrapped_lines lines_by_hash wrapped_lines_by_hash]; try done.
      rewrite Hp2 in Hw2. rewrite Hc2 in Hw2. apply store_ok; [done|]. by apply Hf.
Qed.
Lemma layout_by_hash_ok self text_hash text_len font_size runs force_width :
  cache_inv self →
  (layout_line_by_hash self text_hash text_len font_size runs force_width (λ _, contents text_hash)).1
    = shape (contents text_hash) font_size runs force_width ∧
  cache_inv (layout_line_by_hash self text_hash text_len font_size runs force_width (λ _, contents text_hash)).2.
Proof.
  intros [Hl Hw Hh Hwh]. unfold LineCache.layout_line_by_hash. set (key := mkHashed text_hash text_len font_size runs None force_width).
  destruct (entries (lines_by_hash (current_frame self)) !! key) as [v|] eqn:E.
  - pose proof (map_Forall_lookup_1 _ _ _ _ (ck_cur _ _ _ Hh) E) as Hv. cbn beta in Hv. by rewrite Hv.
  - destruct (if decide _ then _ else _) as [[[v p] c]|] eqn:Ep.
    + destruct (decide _); [|done]. destruct (promote_ok _ _ _ _ _ _ _ Hh Ep) as [Hv Hh']. cbn beta in Hv. by rewrite Hv.
    + split; [done|]. split; try done. by apply store_ok.
Qed.
Lemma reuse_ok self start stop self' :
  cache_inv self → reuse_layouts self start stop = Ok self' →
  cache_inv self' ∧
  (∀ k, k ∈ take (lines_index stop - lines_index start) (drop (lines_index start) (used (lines (previous_frame self)))) →
     k ∈ dom (entries (lines (current_frame self')))) ∧
  (∀ k, k ∈ take (wrapped_lines_index stop - wrapped_lines_index start)
        (drop (wrapped_lines_index start) (used (wrapped_lines (previous_frame self)))) →
     k ∈ dom (entries (wrapped_lines (current_frame self')))) ∧
  (∀ k, k ∈ take (lines_by_hash_index stop - lines_by_hash_index start)
        (drop (lines_by_hash_index start) (used (lines_by_hash (previous_frame self)))) →
     k ∈ dom (entries (lines_by_hash (current_frame self')))).
Proof.
  intros [Hl Hw Hh Hwh] Hr. unfold reuse_layouts in Hr.
  destruct (reuse_range (lines _) _ _ _) as [[p1 c1]| |] eqn:E1; try done. cbn [mbind outcome_bind] in Hr.
  destruct (reuse_range (wrapped_lines _) _ _ _) as [[p2 c2]| |] eqn:E2; try done. cbn [mbind outcome_bind] in Hr.
  destruct (reuse_range (lines_by_hash _) _ _ _) as [[p3 c3]| |] eqn:E3; try done. cbn [mbind outcome_bind] in Hr.
  destruct (reuse_range (wrapped_lines_by_hash _) _ _ _) as [[p4 c4]| |] eqn:E4; try done. injection Hr as <-.
  destruct (reuse_range_ok _ _ _ _ _ _ _ Hl E1) as (? & _ & ?), (reuse_range_ok _ _ _ _ _ _ _ Hw E2) as (? & _ & ?),
    (reuse_range_ok _ _ _ _ _ _ _ Hh E3) as (? & _ & ?), (reuse_range_ok _ _ _ _ _ _ _ Hwh E4) as (? & _ & ?).
  split; [by split|]. done.
Qed.
Lemma cache_step_inv self self' : cache_step self self' → cache_inv self → cache_inv self'.
Proof.
  intros Hs Hinv. destruct Hs as [self text fs rs fw|self text fs rs ww layout self' Hw|self h n fs rs fw|self a b self' Hr|self ix|self].
  - by apply layout_line_ok.
  - by apply (proj2 (layout_wrapped_line_ok self text fs rs ww Hinv) _ _ Hw).
  - by apply layout_by_hash_ok.
  - by apply (reuse_ok _ _ _ _ Hinv Hr).
  - destruct Hinv. split; by apply truncate_ok.
  - destruct Hinv. split; by eapply swap_ok.
Qed.
Lemma reachable_inv self : cache_reachable self → cache_inv self.
Proof.
  intros Hr. assert (H : ∀ a b, rtc cache_step a b → cache_inv a → cache_inv b).
  { intros a b. induction 1; [done|]. intros Ha. eauto using cache_step_inv. }
  apply (H _ _ Hr). split; apply default_ok.
Qed.

(** C30: The cache is transparent: if equal hashes stand for equal texts and the limit of lines is the same for
    the same wrapped text, then whatever was asked for before, reused, truncated or dropped, every layout
    is the one that shaping and wrapping the text would give, and a probe by hash gives no other. *)
Theorem line_cache_transparent self :
  cache_reachable self →
  (∀ text font_size runs force_width,
    (layout_line self text font_size runs force_width).1 = shape text font_size runs force_width) ∧
  (∀ text font_size runs wrap_width, let key := mkKey text font_size runs wrap_width None in
    fst <$> layout_wrapped_line self text font_size runs wrap_width (limit key) = fresh_wrapped key (limit key)) ∧
  (∀ text_hash text_len font_size runs force_width,
    (layout_line_by_hash self text_hash text_len font_size runs force_width (λ _, contents text_hash)).1
      = shape (contents text_hash) font_size runs force_width ∧
    match try_layout_line_by_hash self text_hash text_len font_size runs force_width with
    | Some layout => layout = shape (contents text_hash) font_size runs force_width
    | None => True
    end).
Proof.
  intros Hinv%reachable_inv. split; [|split].
  - intros. by apply layout_line_ok.
  - intros. by apply layout_wrapped_line_ok.
  - intros. split; [by apply layout_by_hash_ok|]. unfold try_layout_line_by_hash.
    pose proof (ci_hashed _ Hinv) as [Hp Hc _ _]. set (key := mkHashed text_hash text_len font_size runs None force_width).
    destruct (entries (lines_by_hash (current_frame self)) !! key) as [v|] eqn:E; [by apply (map_Forall_lookup_1 _ _ _ _ Hc E)|].
    destruct (entries (lines_by_hash (previous_frame self)) !! key) as [v|] eqn:E'; [by apply (map_Forall_lookup_1 _ _ _ _ Hp E')|done].
Qed.

(** A reused range stays cached: after the views of a range of the previous frame are reused, every line
    and every wrapped line that the range used is answered from the current frame, and the cache does not change. *)
Theorem reuse_keeps_layouts self start stop self' :
  cache_reachable self → reuse_layouts self start stop = Ok self' →
  (∀ key, key ∈ take (lines_index stop - lines_index start) (drop (lines_index start) (used (lines (previous_frame self)))) →
    key_wrap_width key = None →
    layout_line self' (key_text key) (key_font_size key) (key_runs key) (key_force_width key) = (fresh_line key, self')) ∧
  (∀ key max_lines, key ∈ take (wrapped_lines_index stop - wrapped_lines_index start)
      (drop (wrapped_lines_index start) (used (wrapped_lines (previous_frame self)))) →
    key_force_width key = None →
    ∃ layout, fresh_wrapped key (limit key) = Ok layout ∧
      layout_wrapped_line self' (key_text key) (key_font_size key) (key_runs key) (key_wrap_width key) max_lines = Ok (layout, self')).
Proof.
  intros Hinv%reachable_inv Hr. destruct (reuse_ok _ _ _ _ Hinv Hr) as (Hinv' & Hl & Hw & _). split.
  - intros [t s rs ww fw] Hk Hn. cbn in Hn. subst ww. apply Hl, elem_of_dom in Hk as [v Hv].
    pose proof (map_Forall_lookup_1 _ _ _ _ (ck_cur _ _ _ (ci_lines _ Hinv')) Hv) as Hf. cbn beta in Hf. rewrite <-Hf.
    unfold LineCache.layout_line. cbn [key_text key_font_size key_runs key_force_width]. by rewrite Hv.
  - intros [t s rs ww fw] max_lines Hk Hn. cbn in Hn. subst fw. apply Hw, elem_of_dom in Hk as [v Hv].
    pose proof (map_Forall_lookup_1 _ _ _ _ (ck_cur _ _ _ (ci_wrapped _ Hinv')) Hv) as Hf. cbn beta in Hf. exists v.
    split; [done|]. unfold LineCache.layout_wrapped_line. cbn [key_text key_font_size key_runs key_wrap_width]. by rewrite Hv.
Qed.

(** The line of a frame is reused in the next one. *)
Lemma reuse_after_line text font_size runs force_width :
  let self := finish_frame (layout_line cache_new text font_size runs force_width).2 in
  ∃ self', reuse_layouts self (mkIndex 0 0 0 0) (mkIndex 1 0 0 0) = Ok self' ∧
    used (lines (previous_frame self)) = [mkKey text font_size runs None force_width].
Proof.
  cbv zeta. assert (Hu : used (lines (previous_frame (finish_frame (layout_line cache_new text font_size runs force_width).2)))
    = [mkKey text font_size runs None force_width]).
  { unfold LineCache.layout_line. cbn [cache_new frame_default cached_default previous_frame current_frame lines entries].
    rewrite lookup_empty. unfold promote. cbn [entries cached_default]. rewrite lookup_empty. reflexivity. }
  unfold reuse_layouts, reuse_range. rewrite Hu. repeat (rewrite decide_True by (simpl; lia); cbn [mbind outcome_bind]).
  repeat match goal with |- context [foldl ?f ?a ?l] => destruct (foldl f a l); cbn [mbind outcome_bind] end.
  eexists. split; [reflexivity|exact Hu].
Qed.

(** The limit of lines is not part of the key: a wrapped text that is laid out with one limit and then with
    another in the same frame keeps the boundaries of the first limit. *)
Theorem limit_not_in_key self text font_size runs wrap_width (m1 m2 : option nat) layout self' :
  layout_wrapped_line self text font_size runs wrap_width m1 = Ok (layout, self') →
  layout_wrapped_line self' text font_size runs wrap_width m2 = Ok (layout, self').
Proof.
  unfold LineCache.layout_wrapped_line. set (key := mkKey text font_size runs wrap_width None).
  destruct (entries (wrapped_lines (current_frame self)) !! key) as [v|] eqn:E; [intros [= -> <-]; by rewrite E|].
  destruct (promote _ _ key) as [[[v p] c]|] eqn:Ep.
  - intros [= -> <-]. unfold promote in Ep. destruct (entries (wrapped_lines (previous_frame self)) !! key) as [w|]; [|done].
    injection Ep as <- <- <-. cbn [with_wrapped current_frame wrapped_lines entries store]. by rewrite lookup_insert_eq.
  - destruct (layout_line self text font_size runs None) as [u self2].
    destruct (match wrap_width with Some w => _ | None => Ok [] end) as [bs| |]; [|done..].
    cbn [mbind outcome_bind]. intros [= <- <-]. cbn [with_wrapped current_frame wrapped_lines entries store]. by rewrite lookup_insert_eq.
Qed.
End cache.

(** ** Examples *)

(** A platform that gives every character the width of a pixel. *)
Definition sample_platform (text : list char) (font_size : Qc) (runs : list FontRun) : LineLayout.t Qc :=
  line_of (length text) (length text).
Definition no_text (_ : N) : list char := [].
Definition no_limit (_ : CacheKey Qc) : option nat := None.
Definition sample_key : CacheKey Qc := mkKey [97%N; 98%N] (px 1) [] None None.
(** The cache in the frame after the one that used the key. *)
Definition sample_cache : LineLayoutCache Qc :=
  finish_frame (layout_line sample_platform cache_new (key_text sample_key) (px 1) [] None).2.
Lemma sample_reachable : cache_reachable sample_platform no_text no_limit sample_cache.
Proof. eapply rtc_l; [apply step_line|]. eapply rtc_l; [apply step_finish|]. apply rtc_refl. Qed.
Lemma line_cache_transparent_witness :
  (layout_line sample_platform sample_cache (key_text sample_key) (px 1) [] None).1 = line_of 2 2.
Proof. apply (line_cache_transparent sample_platform no_text no_limit sample_cache sample_reachable). Defined.
Lemma reuse_keeps_layouts_witness :
  ∃ self', reuse_layouts sample_cache (mkIndex 0 0 0 0) (mkIndex 1 0 0 0) = Ok self' ∧
    layout_line sample_platform self' (key_text sample_key) (key_font_size sample_key) (key_runs sample_key)
      (key_force_width sample_key) = (fresh_line sample_platform sample_key, self').
Proof.
  destruct (reuse_after_line sample_platform (key_text sample_key) (px 1) [] None) as (self' & Hr & Hu).
  exists self'. split; [exact Hr|].
  apply (reuse_keeps_layouts sample_platform no_text no_limit sample_cache _ _ self' sample_reachable Hr).
  - unfold sample_cache. rewrite Hu. by left.
  - reflexivity.
Defined.
