(* ===== verification/Entities.v ===== *)
(** Entities, [crates/gpui/src/app/entity_map.rs]: the map that owns them, their reference counts, strong
    and weak handles, leases, and the detector of leaked handles. *)
From stdpp Require Import countable gmap.
From S2P Require Import Prelude.

(** ** Keys *)

(** The keys of a [SlotMap]: a vacant key is given out on insertion, and returned on removal.  The crate
    documents that a key is never given out twice; [issued] are the keys that were. *)
Class SlotKeys (S K : Type) `{Countable K} := {
  new_keys : S;
  alloc : S → K * S;
  release : K → S → S;
  issued : S → gset K;
}.
Class SlotKeysLaws (S K : Type) `{SlotKeys S K} := {
  issued_new : issued new_keys = ∅;
  alloc_fresh s : (alloc s).1 ∉ issued s;
  alloc_issued s : issued (alloc s).2 = {[(alloc s).1]} ∪ issued s;
  release_issued k s : issued (release k s) = issued s;
}.

(** ** Leaked handles *)

Section leaks.
Context {K : Type} `{Countable K}.

(** [LeakDetector], with the backtraces left out. *)
Record LeakDetector : Type := mkLeaks { next_handle_id : nat; entity_handles : gmap K (gset nat) }.
Implicit Types self : LeakDetector.
Definition leaks_new : LeakDetector := mkLeaks 0 ∅.

Definition handle_created self (entity_id : K) : nat * LeakDetector :=
  let id := next_handle_id self in
  (id, mkLeaks (id + 1)
    (<[entity_id := default ∅ (entity_handles self !! entity_id) ∪ {[id]}]> (entity_handles self))).
Definition handle_released self (entity_id : K) (handle_id : nat) : LeakDetector :=
  match entity_handles self !! entity_id with
  | Some handles =>
      let handles := handles ∖ {[handle_id]} in
      mkLeaks (next_handle_id self)
        (if decide (handles = ∅) then delete entity_id (entity_handles self)
         else <[entity_id := handles]> (entity_handles self))
  | None => self
  end.
Definition leak_assert_released self (entity_id : K) : outcome LeakDetector :=
  match entity_handles self !! entity_id with Some _ => Panic | None => Ok self end.
Definition snapshot self : gset K := dom (entity_handles self).
(** Only handles add to the report. *)
Definition assert_no_new_leaks self (entity_ids : gset K) : outcome () :=
  assert_that (bool_decide (map_Forall (λ entity_id handles, entity_id ∈ entity_ids ∨ handles = ∅) (entity_handles self))).
Definition drop_detector self : outcome () := assert_that (bool_decide (entity_handles self = ∅)).
End leaks.
Arguments LeakDetector K {_ _}.

(** ** The map *)

Section entities.
Context {S K V : Type} `{SlotKeys S K}.

(** [AnyEntity] and [Entity], [Slot]: the id, the type as a number, and the map they belong to. *)
Record AnyEntity : Type := mkEntity { entity_id : K; entity_type : nat; entity_map : nat }.
(** [AnyWeakEntity] and [WeakEntity]; [None] is [Weak::new()]. *)
Record AnyWeakEntity : Type := mkWeak { weak_id : K; weak_type : nat; weak_map : option nat }.
Record Lease : Type := mkLease { lease_entity : option V; lease_id : K }.

Record EntityRefCounts : Type := mkCounts {
  counts : gmap K nat;
  keys : S;
  dropped_entity_ids : list K;
}.
(** [map_id] stands for the address of the counts, which handles are compared with. *)
Record EntityMap : Type := mkEntities {
  map_id : nat;
  entities : gmap K V;
  accessed_entities : gset K;
  ref_counts : EntityRefCounts;
}.
Implicit Types self : EntityMap.
Implicit Types rc : EntityRefCounts.

Definition entity_map_new (map_id : nat) : EntityMap := mkEntities map_id ∅ ∅ (mkCounts ∅ new_keys []).
Definition access self (id : K) : EntityMap :=
  mkEntities (map_id self) (entities self) ({[id]} ∪ accessed_entities self) (ref_counts self).
Definition with_entities self (es : gmap K V) : EntityMap :=
  mkEntities (map_id self) es (accessed_entities self) (ref_counts self).
Definition with_counts self rc : EntityMap :=
  mkEntities (map_id self) (entities self) (accessed_entities self) rc.
Definition set_count rc (id : K) (n : nat) : EntityRefCounts :=
  mkCounts (<[id := n]> (counts rc)) (keys rc) (dropped_entity_ids rc).

Definition reserve self (ty : nat) : AnyEntity * EntityMap :=
  let rc := ref_counts self in
  let '(id, keys) := alloc (keys rc) in
  (mkEntity id ty (map_id self),
   with_counts self (mkCounts (<[id := 1]> (counts rc)) keys (dropped_entity_ids rc))).
Definition insert_entity self (slot : AnyEntity) (entity : V) : AnyEntity * EntityMap :=
  let self := access self (entity_id slot) in
  (slot, with_entities self (<[entity_id slot := entity]> (entities self))).

Definition assert_valid_context self (pointer : AnyEntity) : outcome () :=
  assert_that (bool_decide (entity_map pointer = map_id self)).
Definition lease self (pointer : AnyEntity) : outcome (Lease * EntityMap) :=
  _ ← assert_valid_context self pointer;
  let self := access self (entity_id pointer) in
  entity ← unwrap (entities self !! entity_id pointer);
  Ok (mkLease (Some entity) (entity_id pointer), with_entities self (delete (entity_id pointer) (entities self))).
Definition end_lease self (l : Lease) : outcome EntityMap :=
  entity ← unwrap (lease_entity l);
  Ok (with_entities self (<[lease_id l := entity]> (entities self))).
Definition drop_lease (l : Lease) : outcome () := assert_that (bool_decide (lease_entity l = None)).
Definition read_entity self (pointer : AnyEntity) : outcome (V * EntityMap) :=
  _ ← assert_valid_context self pointer;
  let self := access self (entity_id pointer) in
  entity ← unwrap (entities self !! entity_id pointer);
  Ok (entity, self).
(** [App::update_entity], with the update as a function on the entity. *)
Definition update_entity {R} self (handle : AnyEntity) (update : V → V * R) : outcome (R * EntityMap) :=
  '(l, self) ← lease self handle;
  entity ← unwrap (lease_entity l);
  let '(entity, result) := update entity in
  self ← end_lease self (mkLease (Some entity) (lease_id l));
  Ok (result, self).

Definition extend_accessed self (ids : gset K) : EntityMap :=
  mkEntities (map_id self) (entities self) (accessed_entities self ∪ ids) (ref_counts self).
Definition clear_accessed self : EntityMap :=
  mkEntities (map_id self) (entities self) ∅ (ref_counts self).

(** [take_dropped], over the drained ids. *)
Fixpoint take_loop self (ids : list K) : outcome (list (K * V) * EntityMap) :=
  match ids with
  | [] => Ok ([], self)
  | id :: ids =>
      let rc := ref_counts self in
      count ← unwrap (counts rc !! id);
      _ ← assert_that (bool_decide (count = 0));
      let entity := entities self !! id in
      '(rest, self) ← take_loop
        (mkEntities (map_id self) (delete id (entities self)) (accessed_entities self ∖ {[id]})
           (mkCounts (delete id (counts rc)) (release id (keys rc)) (dropped_entity_ids rc))) ids;
      Ok (match entity with Some entity => (id, entity) :: rest | None => rest end, self)
  end.
Definition take_dropped self : outcome (list (K * V) * EntityMap) :=
  let rc := ref_counts self in
  take_loop (with_counts self (mkCounts (counts rc) (keys rc) [])) (dropped_entity_ids rc).

(** ** Handles *)

(** [upgrade] of the pointer to the counts gives [None] once the map is gone. *)
Definition clone_entity (map : option EntityRefCounts) (self : AnyEntity) : outcome (AnyEntity * option EntityRefCounts) :=
  match map with
  | None => Ok (self, None)
  | Some rc =>
      count ← unwrap (counts rc !! entity_id self);
      _ ← assert_that (bool_decide (count ≠ 0));
      Ok (self, Some (set_count rc (entity_id self) (count + 1)))
  end.
(** The two steps of [Drop]: the decrement, which says whether the handle was the last one, and the push
    under the lock for writing. *)
Definition drop_begin (map : option EntityRefCounts) (self : AnyEntity) : outcome (bool * option EntityRefCounts) :=
  match map with
  | None => Ok (false, None)
  | Some rc =>
      count ← unwrap (counts rc !! entity_id self);
      _ ← assert_that (bool_decide (count ≠ 0));
      Ok (bool_decide (count = 1), Some (set_count rc (entity_id self) (count - 1)))
  end.
Definition drop_end rc (self : AnyEntity) : EntityRefCounts :=
  mkCounts (counts rc) (keys rc) (dropped_entity_ids rc ++ [entity_id self]).
Definition drop_entity (map : option EntityRefCounts) (self : AnyEntity) : outcome (option EntityRefCounts) :=
  '(last, map) ← drop_begin map self;
  match map with
  | Some rc => Ok (Some (if last : bool then drop_end rc self else rc))
  | None => Ok None
  end.

Definition downgrade (self : AnyEntity) : AnyWeakEntity :=
  mkWeak (entity_id self) (entity_type self) (Some (entity_map self)).
Definition downcast (self : AnyEntity) (ty : nat) : result AnyEntity AnyEntity :=
  if decide (ty = entity_type self) then ResOk self else ResErr self.

(** [util::atomic_incr_if_not_zero]: the new value, and the counter. *)
Definition atomic_incr_if_not_zero (counter : nat) : nat * nat :=
  if decide (counter = 0) then (0, counter) else (counter + 1, counter + 1).

(** The counts of the map that a weak handle points to. *)
Definition is_upgradable (map : option EntityRefCounts) (self : AnyWeakEntity) : bool :=
  bool_decide (0 < default 0 (rc ← map; counts rc !! weak_id self)).
Definition upgrade (map : option EntityRefCounts) (self : AnyWeakEntity) : option (AnyEntity * EntityRefCounts) :=
  rc ← map;
  count ← counts rc !! weak_id self;
  map_id ← weak_map self;
  match atomic_incr_if_not_zero count with
  | (0, _) => None
  | (_, count) => Some (mkEntity (weak_id self) (weak_type self) map_id, set_count rc (weak_id self) count)
  end.
Definition new_invalid (id : K) : AnyWeakEntity := mkWeak id 0 None.
(** [AnyWeakEntity::assert_released], after the check of the leak detector. *)
Definition assert_released (map : option EntityRefCounts) (leaks : LeakDetector K) (self : AnyWeakEntity) :
    outcome (LeakDetector K) :=
  _ ← unwrap map;
  leaks ← leak_assert_released leaks (weak_id self);
  _ ← assert_that (bool_decide ((rc ← map; counts rc !! weak_id self) = None));
  Ok leaks.
End entities.
Arguments AnyEntity K : clear implicits.
Arguments AnyWeakEntity K : clear implicits.
Arguments Lease K V : clear implicits.
Arguments EntityRefCounts S K {_ _}.
Arguments EntityMap S K V {_ _}.
