(* ===== verification/EntityFacts.v ===== *)
(** Entities that several threads hold: the steps of the handles as a relation, and the invariant of the
    reference counts. *)
From stdpp Require Import countable gmap.
From S2P Require Import Prelude Entities.
Local Open Scope nat_scope.

Section world.
Context {S K V : Type} `{SlotKeysLaws S K}.
Implicit Types m : EntityMap S K V.
Implicit Types rc : EntityRefCounts S K.
Implicit Types e : AnyEntity K.

(** ** The world *)

(** The map with its handles: the slots that are reserved, the handles, the leases with the handles that they
    borrow, and the handle whose drop holds the lock between its two steps.  [w_inserted] are the ids that
    ever had an entity. *)
Record World : Type := mkWorld {
  w_map : EntityMap S K V;
  w_slots : list (AnyEntity K);
  w_handles : list (AnyEntity K);
  w_leases : list (AnyEntity K);
  w_dropping : option (AnyEntity K);
  w_inserted : gset K;
}.
Implicit Types w : World.
Definition w_counts w : EntityRefCounts S K := ref_counts (w_map w).
Definition w_start (map_id : nat) : World := mkWorld (entity_map_new map_id) [] [] [] None ∅.

(** The steps of threads that own their handles: a handle that is cloned, leased or read is alive, a dropped
    one is gone.  The lock for reading is free while a drop is between its steps, the others are not. *)
Inductive world_step : World → World → Prop :=
| ws_reserve m sl hs ls ins ty slot m' :
    reserve m ty = (slot, m') → world_step (mkWorld m sl hs ls None ins) (mkWorld m' (slot :: sl) hs ls None ins)
| ws_insert m sl1 slot sl2 hs ls d ins v e m' :
    insert_entity m slot v = (e, m') →
    world_step (mkWorld m (sl1 ++ slot :: sl2) hs ls d ins) (mkWorld m' (sl1 ++ sl2) (e :: hs) ls d ({[entity_id e]} ∪ ins))
| ws_clone m sl hs ls d ins e e' rc' :
    e ∈ sl ++ hs ++ ls → clone_entity (Some (ref_counts m)) e = Ok (e', Some rc') →
    world_step (mkWorld m sl hs ls d ins) (mkWorld (with_counts m rc') sl (e' :: hs) ls d ins)
| ws_drop_begin m sl hs1 e hs2 ls ins last rc' :
    drop_begin (Some (ref_counts m)) e = Ok (last, Some rc') →
    world_step (mkWorld m sl (hs1 ++ e :: hs2) ls None ins)
      (mkWorld (with_counts m rc') sl (hs1 ++ hs2) ls (if last : bool then Some e else None) ins)
| ws_drop_slot m sl1 e sl2 hs ls ins last rc' :
    drop_begin (Some (ref_counts m)) e = Ok (last, Some rc') →
    world_step (mkWorld m (sl1 ++ e :: sl2) hs ls None ins)
      (mkWorld (with_counts m rc') (sl1 ++ sl2) hs ls (if last : bool then Some e else None) ins)
| ws_drop_end m sl hs ls ins e :
    world_step (mkWorld m sl hs ls (Some e) ins) (mkWorld (with_counts m (drop_end (ref_counts m) e)) sl hs ls None ins)
| ws_upgrade m sl hs ls d ins weak e rc' :
    weak_map weak = Some (map_id m) → upgrade (Some (ref_counts m)) weak = Some (e, rc') →
    world_step (mkWorld m sl hs ls d ins) (mkWorld (with_counts m rc') sl (e :: hs) ls d ins)
| ws_lease m sl hs1 e hs2 ls d ins l m' :
    lease m e = Ok (l, m') →
    world_step (mkWorld m sl (hs1 ++ e :: hs2) ls d ins) (mkWorld m' sl (hs1 ++ hs2) (e :: ls) d ins)
| ws_end_lease m sl hs ls1 e ls2 d ins v m' :
    end_lease m (mkLease (Some v) (entity_id e)) = Ok m' →
    world_step (mkWorld m sl hs (ls1 ++ e :: ls2) d ins) (mkWorld m' sl (e :: hs) (ls1 ++ ls2) d ins)
| ws_read m sl hs ls d ins e v m' :
    e ∈ hs → read_entity m e = Ok (v, m') → world_step (mkWorld m sl hs ls d ins) (mkWorld m' sl hs ls d ins)
| ws_take m sl hs ls ins out m' :
    take_dropped m = Ok (out, m') → world_step (mkWorld m sl hs ls None ins) (mkWorld m' sl hs ls None ins).
Definition world_reachable w : Prop := ∃ map_id, rtc world_step (w_start map_id) w.

(** ** The invariant *)

(** How many handles there are to an id. *)
Fixpoint refs (id : K) (l : list (AnyEntity K)) : nat :=
  match l with [] => 0 | e :: l => (if decide (entity_id e = id) then 1 else 0) + refs id l end.
Definition all_handles w : list (AnyEntity K) := w_slots w ++ w_handles w ++ w_leases w.

Record world_inv w : Prop := {
  wi_keys : dom (counts (w_counts w)) ⊆ issued (keys (w_counts w));
  wi_counts id n : counts (w_counts w) !! id = Some n → n = refs id (all_handles w);
  wi_handles e : e ∈ all_handles w → entity_map e = map_id (w_map w) ∧ entity_id e ∈ dom (counts (w_counts w));
  wi_dropped : NoDup (dropped_entity_ids (w_counts w));
  wi_zero id : counts (w_counts w) !! id = Some 0 ↔
    id ∈ dropped_entity_ids (w_counts w) ∨ entity_id <$> w_dropping w = Some id;
  wi_dropping e : w_dropping w = Some e → entity_id e ∉ dropped_entity_ids (w_counts w);
  wi_slots : NoDup (map entity_id (w_slots w));
  wi_slots_new e : e ∈ w_slots w → entity_id e ∉ w_inserted w;
  wi_leases : NoDup (map entity_id (w_leases w));
  wi_leased e : e ∈ w_leases w → entity_id e ∉ dom (entities (w_map w)) ∧ entity_id e ∈ w_inserted w;
  wi_inserted : w_inserted w ⊆ issued (keys (w_counts w));
  wi_entities id : id ∈ dom (entities (w_map w)) → id ∈ w_inserted w ∧ id ∈ dom (counts (w_counts w));
  wi_present id : id ∈ w_inserted w → id ∈ dom (counts (w_counts w)) →
    id ∈ dom (entities (w_map w)) ∨ id ∈ map entity_id (w_leases w);
}.

End world.
Arguments World S K V {_ _}.

Ltac world_simpl :=
  unfold w_counts, all_handles in *;
  cbn [w_map w_slots w_handles w_leases w_dropping w_inserted with_counts with_entities access set_count ref_counts counts keys
    dropped_entity_ids entities map_id app refs entity_id map] in *.

Section facts.
Context {S K V : Type} `{SlotKeysLaws S K}.
Implicit Types m : EntityMap S K V.
Implicit Types rc : EntityRefCounts S K.
Implicit Types e : AnyEntity K.
Implicit Types w : World S K V.
Implicit Types id : K.

Lemma refs_app id l1 l2 : refs id (l1 ++ l2) = refs id l1 + refs id l2.
Proof. induction l1 as [|e l1 IH]; simpl; [done|]. rewrite IH. lia. Qed.
Lemma refs_pos id l : 0 < refs id l ↔ ∃ e, e ∈ l ∧ entity_id e = id.
Proof.
  induction l as [|e l IH]; simpl; [split; [lia|by intros (? & ?%not_elem_of_nil & _)]|]. destruct (decide (entity_id e = id)) as [He|He].
  - split; [|lia]. intros _. exists e. split; [by left|done].
  - rewrite Nat.add_0_l, IH. split.
    + intros (e' & ? & ?). exists e'. split; [by right|done].
    + intros (e' & [->|?]%elem_of_cons & ?); [done|by exists e'].
Qed.
Lemma refs_elem e l : e ∈ l → 0 < refs (entity_id e) l.
Proof. intros. apply refs_pos. by exists e. Qed.
Lemma refs_middle id l1 e l2 : refs id (l1 ++ e :: l2) = (if decide (entity_id e = id) then 1 else 0) + refs id (l1 ++ l2).
Proof. rewrite !refs_app. simpl. lia. Qed.

(** A handle that is alive has a count that is not zero. *)
Lemma handle_count w e :
  world_inv w → e ∈ all_handles w → ∃ n, counts (w_counts w) !! entity_id e = Some n ∧ 0 < n ∧ n = refs (entity_id e) (all_handles w).
Proof.
  intros Hw He. destruct (wi_handles _ Hw e He) as [_ [n Hn]%elem_of_dom]. exists n. split; [done|].
  pose proof (wi_counts _ Hw _ _ Hn) as ->. split; [by apply refs_elem|done].
Qed.

(** ** Its preservation *)

Lemma set_count_dom rc id n : id ∈ dom (counts rc) → dom (counts (set_count rc id n)) = dom (counts rc).
Proof. intros Hid. cbn [set_count counts]. rewrite dom_insert_L. set_solver. Qed.

(** The counts change for one id, which keeps its key, and the handles change accordingly. *)
Lemma recount_inv w w' e rc' n :
  world_inv w → entity_id e ∈ dom (counts (w_counts w)) → rc' = set_count (w_counts w) (entity_id e) n →
  w_map w' = with_counts (w_map w) rc' →
  w_leases w' = w_leases w → w_inserted w' = w_inserted w →
  w_slots w' `sublist_of` w_slots w →
  (∀ id, refs id (all_handles w') = if decide (entity_id e = id) then n else refs id (all_handles w)) →
  (∀ e', e' ∈ all_handles w' → e' ∈ all_handles w ∨ (entity_map e' = map_id (w_map w) ∧ entity_id e' = entity_id e)) →
  (∀ id, (counts rc' !! id = Some 0 ↔ id ∈ dropped_entity_ids (w_counts w) ∨ entity_id <$> w_dropping w' = Some id)) →
  (∀ e', w_dropping w' = Some e' → entity_id e' ∉ dropped_entity_ids (w_counts w)) →
  world_inv w'.
Proof.
  intros Hw He -> Hm Hl Hi Hs Hrefs Hh Hz Hd. assert (Hc : w_counts w' = set_count (w_counts w) (entity_id e) n) by (unfold w_counts at 1; by rewrite Hm).
  pose proof (set_count_dom (w_counts w) (entity_id e) n He) as Hdom.
  split; rewrite ?Hc, ?Hdom, ?Hm, ?Hl, ?Hi; cbn [set_count keys dropped_entity_ids with_counts map_id entities counts].
  - apply (wi_keys _ Hw).
  - intros id k. rewrite Hrefs. destruct (decide (entity_id e = id)) as [<-|Hne].
    + rewrite lookup_insert_eq. by intros [= <-].
    + rewrite lookup_insert_ne by done. apply (wi_counts _ Hw).
  - intros e' [He'|[? He']]%Hh; [by apply (wi_handles _ Hw)|]. by rewrite He'.
  - apply (wi_dropped _ Hw).
  - apply Hz.
  - apply Hd.
  - eapply sublist_NoDup; [apply (wi_slots _ Hw)|]. by apply (fmap_sublist entity_id).
  - intros e' He'. apply (wi_slots_new _ Hw). by eapply elem_of_sublist.
  - apply (wi_leases _ Hw).
  - apply (wi_leased _ Hw).
  - apply (wi_inserted _ Hw).
  - apply (wi_entities _ Hw).
  - apply (wi_present _ Hw).
Qed.

(** [take_dropped] removes what nothing refers to, in the order in which it was dropped. *)
Lemma take_loop_ok m ids :
  NoDup ids → (∀ id, id ∈ ids → counts (ref_counts m) !! id = Some 0) →
  ∃ m', take_loop m ids = Ok (omap (λ id, (λ v, (id, v)) <$> entities m !! id) ids, m') ∧
    map_id m' = map_id m ∧ accessed_entities m' = accessed_entities m ∖ list_to_set ids ∧
    dropped_entity_ids (ref_counts m') = dropped_entity_ids (ref_counts m) ∧
    issued (keys (ref_counts m')) = issued (keys (ref_counts m)) ∧
    (∀ id, counts (ref_counts m') !! id = if decide (id ∈ ids) then None else counts (ref_counts m) !! id) ∧
    (∀ id, entities m' !! id = if decide (id ∈ ids) then None else entities m !! id).
Proof.
  revert m. induction ids as [|id ids IH]; intros m Hnd Hz; cbn [take_loop].
  - exists m. split; [done|]. split; [done|]. split; [set_solver|]. split; [done|]. split; [done|].
    split; intros id; by rewrite decide_False by apply not_elem_of_nil.
  - apply NoDup_cons in Hnd as [Hid Hnd]. rewrite (Hz id) by by left. cbn [unwrap mbind outcome_bind].
    rewrite bool_decide_true by done. cbn [assert_that mbind outcome_bind].
    match goal with |- context [take_loop ?m1 ids] => destruct (IH m1) as (m' & Ht & Hm & Ha & Hd & Hk & Hc & He); [done| |] end.
    { intros id' Hid'. cbn [ref_counts counts]. rewrite lookup_delete_ne; [apply Hz; by right|by intros ->]. }
    rewrite Ht. cbn [mbind outcome_bind]. exists m'. cbn [ref_counts counts keys dropped_entity_ids entities accessed_entities map_id] in *.
    split; [|split_and!].
    + f_equal. f_equal. cbn [omap list_omap]. 
      assert (Ho : omap (λ id0, (λ v, (id0, v)) <$> delete id (entities m) !! id0) ids = omap (λ id0, (λ v, (id0, v)) <$> entities m !! id0) ids).
      { apply list_omap_ext, Forall_Forall2_diag, Forall_forall. intros id' Hid'. rewrite lookup_delete_ne; [done|by intros ->]. }
      rewrite Ho. by destruct (entities m !! id).
    + done.
    + rewrite Ha. set_solver.
    + done.
    + by rewrite Hk, release_issued.
    + intros id'. rewrite Hc. destruct (decide (id' = id)) as [->|Hne].
      * rewrite lookup_delete_eq. rewrite (decide_True (P := id ∈ id :: ids)) by by left. by destruct (decide _).
      * rewrite lookup_delete_ne by done. destruct (decide (id' ∈ ids)).
        -- by rewrite decide_True by by right.
        -- rewrite decide_False; [done|]. by intros [?|?]%elem_of_cons.
    + intros id'. rewrite He. destruct (decide (id' = id)) as [->|Hne].
      * rewrite lookup_delete_eq. rewrite (decide_True (P := id ∈ id :: ids)) by by left. by destruct (decide _).
      * rewrite lookup_delete_ne by done. destruct (decide (id' ∈ ids)).
        -- by rewrite decide_True by by right.
        -- rewrite decide_False; [done|]. by intros [?|?]%elem_of_cons.
Qed.

Lemma start_inv map_id : world_inv (w_start map_id : World S K V).
Proof.
  split; cbn; rewrite ?issued_new; try set_solver; try constructor; try done.
Qed.

Lemma reserve_inv m sl hs ls ins ty slot m' :
  reserve m ty = (slot, m') → world_inv (mkWorld m sl hs ls None ins) → world_inv (mkWorld m' (slot :: sl) hs ls None ins).
Proof.
  unfold reserve. pose proof (alloc_fresh (keys (ref_counts m))) as Hfresh.
  pose proof (alloc_issued (keys (ref_counts m))) as Hissued. destruct (alloc (keys (ref_counts m))) as [id s] eqn:Ealloc.
  cbn [fst snd] in *. intros [= <- <-] Hw.
  assert (Hn : id ∉ dom (counts (ref_counts m))) by (intros Hid; by apply Hfresh, (wi_keys _ Hw)).
  assert (Hnone : counts (ref_counts m) !! id = None) by by apply not_elem_of_dom.
  assert (Hrefs : refs id (sl ++ hs ++ ls) = 0).
  { destruct (Nat.eq_0_gt_0_cases (refs id (sl ++ hs ++ ls))) as [|(e & He & Hid)%refs_pos]; [done|].
    destruct (wi_handles _ Hw e He) as [_ Hd]. rewrite Hid in Hd. done. }
  split; world_simpl; rewrite ?dom_insert_L.
  - pose proof (wi_keys _ Hw) as Hk. world_simpl. set_solver.
  - intros id' n. destruct (decide (id = id')) as [<-|Hne].
    + rewrite lookup_insert_eq. intros [= <-]. by rewrite Hrefs.
    + rewrite lookup_insert_ne by done. apply (wi_counts _ Hw).
  - intros e [->|He]%elem_of_cons; [cbn [entity_map entity_id]; split; [done|set_solver]|].
    destruct (wi_handles _ Hw e He) as [? ?]. split; [done|]. world_simpl. set_solver.
  - apply (wi_dropped _ Hw).
  - intros id'. pose proof (wi_zero _ Hw id') as Hz. world_simpl. destruct (decide (id = id')) as [<-|Hne].
    + rewrite lookup_insert_eq. rewrite Hnone in Hz. split; [done|]. intros Hd. apply Hz in Hd. done.
    + by rewrite lookup_insert_ne by done.
  - done.
  - constructor; [|apply (wi_slots _ Hw)]. intros (e & Hid & He)%list_elem_of_fmap.
    destruct (wi_handles _ Hw e) as [_ Hd]; [unfold all_handles; set_solver|]. world_simpl. by rewrite <-Hid in Hd.
  - intros e [->|He]%elem_of_cons; [|by apply (wi_slots_new _ Hw)]. cbn [entity_id]. intros Hin. by apply Hfresh, (wi_inserted _ Hw).
  - apply (wi_leases _ Hw).
  - apply (wi_leased _ Hw).
  - pose proof (wi_inserted _ Hw) as Hk. world_simpl. set_solver.
  - intros id' Hid'. destruct (wi_entities _ Hw id' Hid') as [? ?]. world_simpl. split; [done|set_solver].
  - intros id' Hin [->%elem_of_singleton|Hd]%elem_of_union; [|by apply (wi_present _ Hw)].
    exfalso. by apply Hfresh, (wi_inserted _ Hw).
Qed.

Lemma insert_inv m sl1 slot sl2 hs ls d ins v e m' :
  insert_entity m slot v = (e, m') → world_inv (mkWorld m (sl1 ++ slot :: sl2) hs ls d ins) →
  world_inv (mkWorld m' (sl1 ++ sl2) (e :: hs) ls d ({[entity_id e]} ∪ ins)).
Proof.
  unfold insert_entity. intros [= <- <-] Hw.
  assert (Hin : slot ∈ all_handles (mkWorld m (sl1 ++ slot :: sl2) hs ls d ins)) by (unfold all_handles; cbn; set_solver).
  assert (Hp : ∀ e', e' ∈ (sl1 ++ sl2) ++ (slot :: hs) ++ ls ↔ e' ∈ (sl1 ++ slot :: sl2) ++ hs ++ ls) by set_solver.
  assert (Hr : ∀ id, refs id ((sl1 ++ sl2) ++ (slot :: hs) ++ ls) = refs id ((sl1 ++ slot :: sl2) ++ hs ++ ls)).
  { intros id. rewrite !refs_app. cbn [refs]. lia. }
  destruct (wi_handles _ Hw _ Hin) as [Hmap Hdom].
  pose proof (wi_slots _ Hw) as Hnd. cbn [w_slots] in Hnd. rewrite map_app in Hnd. cbn [map] in Hnd.
  pose proof Hnd as Hnd2. rewrite <-Permutation_middle in Hnd2. apply NoDup_cons in Hnd2 as [Hnotin Hnd'].
  pose proof (wi_slots_new _ Hw slot) as Hnew. world_simpl.
  split; world_simpl.
  - apply (wi_keys _ Hw).
  - intros id n Hn. rewrite Hr. by apply (wi_counts _ Hw).
  - intros e He. by apply (wi_handles _ Hw), Hp.
  - apply (wi_dropped _ Hw).
  - apply (wi_zero _ Hw).
  - apply (wi_dropping _ Hw).
  - by rewrite map_app.
  - intros e He. rewrite not_elem_of_union, not_elem_of_singleton. split.
    + intros Heq. apply Hnotin. rewrite <-map_app, <-Heq. by apply (list_elem_of_fmap_2 entity_id).
    + apply (wi_slots_new _ Hw). cbn. set_solver.
  - apply (wi_leases _ Hw).
  - intros e He. destruct (wi_leased _ Hw e He) as [Hd Hi]. world_simpl. rewrite dom_insert_L. 
    assert (entity_id e ≠ entity_id slot) by (intros Heq; apply Hnew; [set_solver|by rewrite <-Heq]). set_solver.
  - pose proof (wi_inserted _ Hw). pose proof (wi_keys _ Hw). world_simpl. set_solver.
  - intros id. rewrite dom_insert_L. intros [->%elem_of_singleton|Hid]%elem_of_union; [split; [set_solver|done]|].
    destruct (wi_entities _ Hw id Hid). world_simpl. set_solver.
  - intros id Hid Hd. rewrite dom_insert_L. apply elem_of_union in Hid as [->%elem_of_singleton|Hid]; [set_solver|].
    destruct (wi_present _ Hw id Hid Hd); cbn in *; set_solver.
Qed.

(** A new handle to an id that has one, or whose count is positive. *)
Lemma gain_inv m sl hs ls d ins e n :
  world_inv (mkWorld m sl hs ls d ins) → counts (ref_counts m) !! entity_id e = Some n → 0 < n → entity_map e = map_id m →
  world_inv (mkWorld (with_counts m (set_count (ref_counts m) (entity_id e) (n + 1))) sl (e :: hs) ls d ins).
Proof.
  intros Hw Hn Hpos Hmap. eapply (recount_inv _ _ e _ (n + 1) Hw); world_simpl; try done.
  - by apply elem_of_dom_2 in Hn.
  - intros id. rewrite !refs_app. cbn [refs]. rewrite refs_app. destruct (decide (entity_id e = id)) as [<-|]; [|lia].
    pose proof (wi_counts _ Hw _ _ Hn) as Hr. world_simpl. rewrite !refs_app in Hr. lia.
  - intros e' He'. assert (e' = e ∨ e' ∈ sl ++ hs ++ ls) as [->|?] by set_solver; [by right|by left].
  - intros id. pose proof (wi_zero _ Hw id) as Hz. world_simpl. destruct (decide (entity_id e = id)) as [<-|Hne].
    + rewrite lookup_insert_eq. rewrite Hn in Hz. split; [intros [=]; lia|]. intros Hd. apply Hz in Hd. injection Hd as Hd. lia.
    + by rewrite lookup_insert_ne by done.
  - apply (wi_dropping _ Hw).
Qed.
Lemma clone_inv m sl hs ls d ins e e' rc' :
  e ∈ sl ++ hs ++ ls → clone_entity (Some (ref_counts m)) e = Ok (e', Some rc') →
  world_inv (mkWorld m sl hs ls d ins) → world_inv (mkWorld (with_counts m rc') sl (e' :: hs) ls d ins).
Proof.
  intros He Hc Hw. unfold clone_entity in Hc. destruct (handle_count _ e Hw He) as (n & Hn & Hpos & _). world_simpl.
  rewrite Hn in Hc. cbn [unwrap mbind outcome_bind] in Hc. rewrite bool_decide_true in Hc by lia. injection Hc as <- <-.
  apply gain_inv; try done. by apply (wi_handles _ Hw).
Qed.
Lemma upgrade_inv m sl hs ls d ins weak e rc' :
  weak_map weak = Some (map_id m) → upgrade (Some (ref_counts m)) weak = Some (e, rc') →
  world_inv (mkWorld m sl hs ls d ins) → world_inv (mkWorld (with_counts m rc') sl (e :: hs) ls d ins).
Proof.
  intros Hm Hu Hw. unfold upgrade in Hu. cbn [mbind option_bind] in Hu.
  destruct (counts (ref_counts m) !! weak_id weak) as [n|] eqn:Hn; [|done]. rewrite Hm in Hu. cbn [mbind option_bind] in Hu.
  unfold atomic_incr_if_not_zero in Hu. destruct n as [|n]; [done|]. cbn [decide Nat.add] in Hu. injection Hu as <- <-.
  apply (gain_inv m sl hs ls d ins (mkEntity (weak_id weak) (weak_type weak) (map_id m)) (Datatypes.S n)); try done. lia.
Qed.

(** A handle is dropped; after the last one the drop holds the lock. *)
Lemma lose_inv m sl1 sl2 hs1 hs2 e ls ins last rc' sl hs :
  (sl = sl1 ++ sl2 ∧ hs = hs1 ++ e :: hs2) ∨ (sl = sl1 ++ e :: sl2 ∧ hs = hs1 ++ hs2) →
  drop_begin (Some (ref_counts m)) e = Ok (last, Some rc') →
  world_inv (mkWorld m sl hs ls None ins) →
  world_inv (mkWorld (with_counts m rc') (sl1 ++ sl2) (hs1 ++ hs2) ls (if last : bool then Some e else None) ins).
Proof.
  intros Hcase Hdrop Hw.
  assert (Hp : ∀ id, refs id (sl ++ hs ++ ls) = (if decide (entity_id e = id) then 1 else 0) + refs id ((sl1 ++ sl2) ++ (hs1 ++ hs2) ++ ls)).
  { intros id. destruct Hcase as [[-> ->]|[-> ->]]; rewrite !refs_app; cbn [refs]; lia. }
  assert (Hsub : ∀ e', e' ∈ (sl1 ++ sl2) ++ (hs1 ++ hs2) ++ ls → e' ∈ sl ++ hs ++ ls).
  { intros e'. destruct Hcase as [[-> ->]|[-> ->]]; set_solver. }
  assert (He : e ∈ sl ++ hs ++ ls) by (destruct Hcase as [[-> ->]|[-> ->]]; set_solver).
  destruct (handle_count _ e Hw He) as (n & Hn & Hpos & Hr). unfold drop_begin in Hdrop. world_simpl.
  rewrite Hn in Hdrop. cbn [unwrap mbind outcome_bind] in Hdrop. rewrite (bool_decide_true (n ≠ 0)) in Hdrop by lia.
  injection Hdrop as Hlast <-. eapply (recount_inv _ _ e _ (n - 1) Hw); world_simpl; try done.
  - by apply elem_of_dom_2 in Hn.
  - destruct Hcase as [[-> _]|[-> _]]; [done|]. apply sublist_app; [done|]. by apply sublist_cons.
  - intros id. specialize (Hp id). destruct (decide (entity_id e = id)) as [<-|]; lia.
  - intros e' He'. left. by apply Hsub.
  - intros id. pose proof (wi_zero _ Hw id) as Hz. world_simpl. destruct (decide (entity_id e = id)) as [<-|Hne].
    + rewrite lookup_insert_eq. rewrite Hn in Hz. destruct (decide (n = 1)) as [->|Hn1].
      * rewrite bool_decide_true in Hlast by done. subst last. simpl. split; [by right|done].
      * rewrite bool_decide_false in Hlast by done. subst last. split; [intros [=]; lia|].
        intros [Hd|Hd]; [|done]. exfalso. assert (Some n = Some 0) as [= ?] by (apply Hz; by left). lia.
    + rewrite lookup_insert_ne by done. rewrite Hz. destruct last; simpl; [|done].
      split; [intros [?|?]; [by left|done]|]. intros [?|[= ?]]; [by left|done].
  - intros e' Hd. destruct last; [|done]. injection Hd as <-. intros Hd.
    assert (counts (ref_counts m) !! entity_id e = Some 0) as Hz by (apply (wi_zero _ Hw); by left). rewrite Hn in Hz. injection Hz as ->. lia.
Qed.

Lemma drop_end_inv m sl hs ls ins e :
  world_inv (mkWorld m sl hs ls (Some e) ins) → world_inv (mkWorld (with_counts m (drop_end (ref_counts m) e)) sl hs ls None ins).
Proof.
  intros Hw. pose proof (wi_dropping _ Hw e eq_refl) as Hnew. pose proof (wi_dropped _ Hw) as Hnd.
  split; unfold drop_end; world_simpl; try by apply Hw.
  - apply NoDup_app. split; [done|]. split; [|apply NoDup_singleton]. intros id Hid ->%list_elem_of_singleton. done.
  - intros id. rewrite (wi_zero _ Hw id). world_simpl. rewrite elem_of_app, list_elem_of_singleton. simpl. split.
    + intros [?|[= ->]]; [by left; left|by left; right].
    + intros [[?| ->]|?]; [by left|by right|done].
  - done.
Qed.

(** What a lease and a read answer: the entity, if it is there. *)
Lemma lease_eq m e :
  entity_map e = map_id m →
  lease m e = match entities m !! entity_id e with
    | Some v => Ok (mkLease (Some v) (entity_id e), with_entities (access m (entity_id e)) (delete (entity_id e) (entities m)))
    | None => Panic
    end.
Proof.
  intros He. unfold lease, assert_valid_context. rewrite bool_decide_true by done. cbn [assert_that mbind outcome_bind access entities].
  by destruct (entities m !! entity_id e).
Qed.
Lemma read_eq m e :
  entity_map e = map_id m →
  read_entity m e = match entities m !! entity_id e with Some v => Ok (v, access m (entity_id e)) | None => Panic end.
Proof.
  intros He. unfold read_entity, assert_valid_context. rewrite bool_decide_true by done. cbn [assert_that mbind outcome_bind access entities].
  by destruct (entities m !! entity_id e).
Qed.

(** Only the entities change, and the handles move. *)
Lemma move_inv m m' sl hs ls hs' ls' d ins :
  world_inv (mkWorld m sl hs ls d ins) → ref_counts m' = ref_counts m → map_id m' = map_id m →
  hs ++ ls ≡ₚ hs' ++ ls' → NoDup (map entity_id ls') →
  (∀ id, id ∈ dom (entities m') ↔ id ∈ dom (entities m) ∧ id ∉ map entity_id ls' ∨ id ∈ map entity_id ls ∧ id ∉ map entity_id ls') →
  (∀ id, id ∈ map entity_id ls' → id ∈ map entity_id ls ∨ id ∈ dom (entities m)) →
  world_inv (mkWorld m' sl hs' ls' d ins).
Proof.
  intros Hw Hrc Hm Hp Hnd He Hl.
  assert (Hr : ∀ id, refs id (sl ++ hs' ++ ls') = refs id (sl ++ hs ++ ls)).
  { intros id. rewrite (refs_app id sl (hs ++ ls)), (refs_app id sl (hs' ++ ls')). f_equal. clear -Hp. induction Hp; simpl; lia. }
  split; world_simpl; rewrite ?Hrc, ?Hm.
  - apply (wi_keys _ Hw).
  - intros id n. rewrite Hr. apply (wi_counts _ Hw).
  - intros e Hin. apply (wi_handles _ Hw). world_simpl. rewrite elem_of_app in Hin |- *. by rewrite Hp.
  - apply (wi_dropped _ Hw).
  - apply (wi_zero _ Hw).
  - apply (wi_dropping _ Hw).
  - apply (wi_slots _ Hw).
  - apply (wi_slots_new _ Hw).
  - done.
  - intros e Hin. assert (Hid : entity_id e ∈ map entity_id ls') by by apply (list_elem_of_fmap_2 entity_id). split.
    + rewrite He. tauto.
    + destruct (Hl _ Hid) as [(e' & -> & Hin')%list_elem_of_fmap|Hd]; [by apply (wi_leased _ Hw)|by apply (wi_entities _ Hw)].
  - apply (wi_inserted _ Hw).
  - intros id Hid. apply He in Hid as [[Hid _]|[(e & -> & Hin)%list_elem_of_fmap _]]; [by apply (wi_entities _ Hw)|].
    split; [by apply (wi_leased _ Hw)|]. apply (wi_handles _ Hw). world_simpl. set_solver.
  - intros id Hin Hd. rewrite He. destruct (decide (id ∈ map entity_id ls')); [by right|left].
    destruct (wi_present _ Hw id Hin Hd); [by left|by right].
Qed.
Lemma lease_inv m sl hs1 e hs2 ls d ins l m' :
  lease m e = Ok (l, m') → world_inv (mkWorld m sl (hs1 ++ e :: hs2) ls d ins) →
  world_inv (mkWorld m' sl (hs1 ++ hs2) (e :: ls) d ins).
Proof.
  intros Hl Hw. destruct (wi_handles _ Hw e) as [Hm _]; [world_simpl; set_solver|]. world_simpl. rewrite lease_eq in Hl by done.
  destruct (entities m !! entity_id e) as [v|] eqn:Hv; [|done]. injection Hl as <- <-. apply elem_of_dom_2 in Hv.
  assert (Hn : entity_id e ∉ map entity_id ls).
  { intros (e' & Hid & Hin)%list_elem_of_fmap. destruct (wi_leased _ Hw e' Hin) as [Hd _]. world_simpl. by rewrite <-Hid in Hd. }
  eapply (move_inv _ _ _ _ _ _ _ _ _ Hw); try done; cbn [map with_entities access entities].
  - rewrite <-!app_assoc. cbn [app]. apply Permutation_app_head. by rewrite Permutation_middle.
  - constructor; [done|apply (wi_leases _ Hw)].
  - intros id. rewrite dom_delete_L, elem_of_difference, elem_of_singleton, elem_of_cons.
    pose proof (wi_leased _ Hw) as Hld. world_simpl. split.
    + intros [Hd Hne]. left. split; [done|]. intros [?|(e' & -> & Hin)%list_elem_of_fmap]; [done|]. by destruct (Hld e' Hin).
    + intros [[Hd Hne]|[Hin Hne]]; [|tauto]. split; [done|]. tauto.
  - intros id [->|?]%elem_of_cons; [by right|by left].
Qed.
Lemma end_lease_inv m sl hs ls1 e ls2 d ins v m' :
  end_lease m (mkLease (Some v) (entity_id e)) = Ok m' → world_inv (mkWorld m sl hs (ls1 ++ e :: ls2) d ins) →
  world_inv (mkWorld m' sl (e :: hs) (ls1 ++ ls2) d ins).
Proof.
  cbn. intros [= <-] Hw. pose proof (wi_leases _ Hw) as Hnd. world_simpl.
  rewrite map_app in Hnd. cbn [map] in Hnd. pose proof Hnd as Hnd2. rewrite <-Permutation_middle in Hnd2. apply NoDup_cons in Hnd2 as [Hni Hnd2].
  rewrite <-map_app in Hni, Hnd2.
  eapply (move_inv _ _ _ _ _ _ _ _ _ Hw); try done; cbn [with_entities entities].
  - cbn [app]. rewrite app_assoc, <-Permutation_middle, <-app_assoc. done.
  - intros id. rewrite dom_insert_L, elem_of_union, elem_of_singleton, !map_app. cbn [map].
    rewrite !elem_of_app, elem_of_cons. rewrite map_app, elem_of_app in Hni. pose proof (wi_leased _ Hw) as Hld. world_simpl. split.
    + intros [->|Hd]; [right; tauto|left]. split; [done|]. intros Hin.
      assert (Hin' : id ∈ map entity_id (ls1 ++ e :: ls2)) by (rewrite map_app, elem_of_app; cbn [map]; rewrite elem_of_cons; tauto).
      apply list_elem_of_fmap in Hin' as (e' & -> & Hin'). by destruct (Hld e' Hin').
    + intros [[Hd _]|[Hin Hn]]; [by right|left]. tauto.
  - intros id Hin. left. rewrite map_app in Hin |- *. cbn [map]. rewrite elem_of_app in Hin |- *. rewrite elem_of_cons. tauto.
Qed.
Lemma access_inv m sl hs ls d ins e :
  world_inv (mkWorld m sl hs ls d ins) → world_inv (mkWorld (access m (entity_id e)) sl hs ls d ins).
Proof. intros Hw. destruct Hw. by split. Qed.

Lemma take_dropped_ok m sl hs ls ins :
  world_inv (mkWorld m sl hs ls None ins) →
  ∃ m', take_dropped m = Ok (omap (λ id, (λ v, (id, v)) <$> entities m !! id) (dropped_entity_ids (ref_counts m)), m') ∧
    world_inv (mkWorld m' sl hs ls None ins) ∧ map_id m' = map_id m ∧ dropped_entity_ids (ref_counts m') = [] ∧
    accessed_entities m' = accessed_entities m ∖ list_to_set (dropped_entity_ids (ref_counts m)) ∧
    issued (keys (ref_counts m')) = issued (keys (ref_counts m)) ∧
    (∀ id, counts (ref_counts m') !! id = if decide (id ∈ dropped_entity_ids (ref_counts m)) then None else counts (ref_counts m) !! id) ∧
    (∀ id, entities m' !! id = if decide (id ∈ dropped_entity_ids (ref_counts m)) then None else entities m !! id).
Proof.
  intros Hw. pose proof (wi_dropped _ Hw) as Hnd. pose proof (wi_zero _ Hw) as Hz. world_simpl. set (ids := dropped_entity_ids (ref_counts m)) in *.
  assert (Hz' : ∀ id, id ∈ ids ↔ counts (ref_counts m) !! id = Some 0).
  { intros id. rewrite Hz. split; [by left|intros [?|?]; done]. }
  unfold take_dropped. fold ids. set (m1 := with_counts m _).
  destruct (take_loop_ok m1 ids) as (m' & Ht & Hm & Ha & Hd & Hk & Hc & He); [done|by intros id Hid%Hz'|].
  exists m'. rewrite Ht. split; [done|]. cbn in Hd, Hk, Hm, Ha. split; [|done].
  assert (Hfree : ∀ e, e ∈ sl ++ hs ++ ls → entity_id e ∉ ids).
  { intros e He' Hid%Hz'. destruct (handle_count _ e Hw He') as (n & Hn & Hp & _). world_simpl. rewrite Hid in Hn. injection Hn as <-. lia. }
  assert (Hdom : ∀ id, id ∈ dom (counts (ref_counts m')) ↔ id ∈ dom (counts (ref_counts m)) ∧ id ∉ ids).
  { intros id. rewrite !elem_of_dom, Hc. cbn [m1 with_counts ref_counts counts]. destruct (decide (id ∈ ids)); [|tauto].
    split; [by intros []|tauto]. }
  assert (Hdome : ∀ id, id ∈ dom (entities m') ↔ id ∈ dom (entities m) ∧ id ∉ ids).
  { intros id. rewrite !elem_of_dom, He. cbn [m1 with_counts entities]. destruct (decide (id ∈ ids)); [|tauto].
    split; [by intros []|tauto]. }
  split; world_simpl; rewrite ?Hk, ?Hm, ?Hd.
  - intros id [Hid _]%Hdom. by apply (wi_keys _ Hw).
  - intros id n. rewrite Hc. destruct (decide (id ∈ ids)); [done|]. apply (wi_counts _ Hw).
  - intros e Hin. split; [by apply (wi_handles _ Hw)|]. apply Hdom. split; [by apply (wi_handles _ Hw)|by apply Hfree].
  - constructor.
  - intros id. rewrite Hc. cbn [m1 with_counts ref_counts counts]. destruct (decide (id ∈ ids)) as [Hid|Hid].
    + split; [done|]. by intros [?%not_elem_of_nil|?].
    + split; [by intros ?%Hz'|]. by intros [?%not_elem_of_nil|?].
  - done.
  - apply (wi_slots _ Hw).
  - apply (wi_slots_new _ Hw).
  - apply (wi_leases _ Hw).
  - intros e Hin. destruct (wi_leased _ Hw e Hin) as [Hn ?]. world_simpl. split; [|done]. rewrite Hdome. tauto.
  - apply (wi_inserted _ Hw).
  - intros id [Hid Hn]%Hdome. destruct (wi_entities _ Hw id Hid) as [? ?]. split; [done|]. by apply Hdom.
  - intros id Hin [Hid Hn]%Hdom. destruct (wi_present _ Hw id Hin Hid); [left; by apply Hdome|by right].
Qed.

Lemma step_inv w w' : world_step w w' → world_inv w → world_inv w'.
Proof.
  intros Hs Hw. destruct Hs.
  - by eapply reserve_inv.
  - by eapply insert_inv.
  - by eapply clone_inv.
  - by eapply (lose_inv m [] sl hs1 hs2); [left| |exact Hw].
  - by eapply (lose_inv m sl1 sl2 [] hs); [right| |exact Hw].
  - by apply drop_end_inv.
  - by eapply upgrade_inv.
  - by eapply lease_inv.
  - by eapply end_lease_inv.
  - match goal with Hr : read_entity _ _ = _ |- _ => rename Hr into Hread end.
    assert (entity_map e = map_id m) as He by (apply (wi_handles _ Hw); world_simpl; set_solver).
    rewrite read_eq in Hread by done. destruct (entities m !! entity_id e); [|done]. injection Hread as <- <-. by apply access_inv.
  - match goal with Ht : take_dropped _ = _ |- _ => rename Ht into Htake end.
    destruct (take_dropped_ok _ _ _ _ _ Hw) as (m2 & Ht & Hw' & _). rewrite Htake in Ht. by injection Ht as -> ->.
Qed.
Lemma reachable_world_inv w : world_reachable w → world_inv w.
Proof.
  intros [map_id Hr]. assert (H' : ∀ a b : World S K V, rtc world_step a b → world_inv a → world_inv b).
  { intros a b. induction 1; eauto using step_inv. }
  by apply (H' _ _ Hr), start_inv.
Qed.
End facts.
