(* ===== verification/EntityTheorems.v ===== *)
(** What the entity map promises: exact reference counts under every interleaving of the handles, release of
    exactly what nothing refers to, and leases that exclude one another. *)
From stdpp Require Import countable gmap.
From S2P Require Import Prelude Entities EntityFacts.
Local Open Scope nat_scope.

Section theorems.
Context {S K V : Type} `{SlotKeysLaws S K}.
Implicit Types w : World S K V.
Implicit Types m : EntityMap S K V.
Implicit Types e : AnyEntity K.

(** C27: Reference counts are exact: however the threads that hold handles interleave, the count of an entity is
    the number of its handles, slots and leases; a count is zero exactly if the entity waits to be released,
    once, or its last handle is being dropped; and the map has the entities that were inserted, are not
    leased and are not released. *)
Theorem entity_counts_exact w :
  world_reachable w →
  (∀ id n, counts (w_counts w) !! id = Some n →
    n = refs id (all_handles w) ∧
    (n = 0 ↔ id ∈ dropped_entity_ids (w_counts w) ∨ entity_id <$> w_dropping w = Some id)) ∧
  (∀ e, e ∈ all_handles w → ∃ n, counts (w_counts w) !! entity_id e = Some n ∧ 0 < n) ∧
  NoDup (dropped_entity_ids (w_counts w)) ∧
  (∀ id, id ∈ dom (entities (w_map w)) ↔
    id ∈ w_inserted w ∧ id ∈ dom (counts (w_counts w)) ∧ id ∉ map entity_id (w_leases w)).
Proof.
  intros Hw%reachable_world_inv. split; [|split; [|split]].
  - intros id n Hn. split; [by apply (wi_counts _ Hw)|]. rewrite <-(wi_zero _ Hw), Hn. split; [by intros ->|by intros [=]].
  - intros e He. destruct (handle_count _ e Hw He) as (n & ? & ? & _). by exists n.
  - apply (wi_dropped _ Hw).
  - intros id. split.
    + intros Hid. destruct (wi_entities _ Hw id Hid). split_and!; try done.
      intros (e & -> & He)%list_elem_of_fmap. by destruct (wi_leased _ Hw e He).
    + intros (Hi & Hd & Hn). by destruct (wi_present _ Hw id Hi Hd).
Qed.

(** Whoever owns a handle can use it: cloning it never panics, nor does dropping it or taking the dropped
    entities while no other drop holds the lock; and leasing or reading its entity panics exactly if the entity is
    leased or was never inserted. *)
Theorem entity_handles_safe w e :
  world_reachable w → e ∈ w_slots w ++ w_handles w →
  (∃ rc', clone_entity (Some (w_counts w)) e = Ok (e, Some rc')) ∧
  (w_dropping w = None →
    (∃ last rc', drop_begin (Some (w_counts w)) e = Ok (last, Some rc') ∧ (last = true ↔ refs (entity_id e) (all_handles w) = 1)) ∧
    ∃ out m', take_dropped (w_map w) = Ok (out, m') ∧ entity_id e ∉ out.*1) ∧
  if decide (entity_id e ∈ w_inserted w ∧ entity_id e ∉ map entity_id (w_leases w))
  then ∃ v l m1 m2, lease (w_map w) e = Ok (l, m1) ∧ lease_entity l = Some v ∧ read_entity (w_map w) e = Ok (v, m2)
  else lease (w_map w) e = Panic ∧ read_entity (w_map w) e = Panic.
Proof.
  intros Hr He. pose proof (reachable_world_inv _ Hr) as Hw.
  assert (Hin : e ∈ all_handles w) by (unfold all_handles; set_solver).
  destruct (handle_count _ e Hw Hin) as (n & Hn & Hp & Hrefs). destruct (wi_handles _ Hw e Hin) as [Hm Hd]. split; [|split].
  - unfold clone_entity. rewrite Hn. cbn [unwrap mbind outcome_bind]. rewrite bool_decide_true by lia. by eexists.
  - intros Hfree. split.
    + unfold drop_begin. rewrite Hn. cbn [unwrap mbind outcome_bind]. rewrite (bool_decide_true (n ≠ 0)) by lia.
      eexists _, _. split; [done|]. rewrite bool_decide_eq_true. lia.
    + destruct w as [m sl hs ls d ins]. cbn in Hfree. subst d.
      destruct (take_dropped_ok _ _ _ _ _ Hw) as (m' & Ht & _). eexists _, m'. split; [exact Ht|].
      intros ([id v] & Hid & Ho)%list_elem_of_fmap. apply list_elem_of_omap in Ho as (id' & Hid' & Ho). cbn in Hid, Ho.
      destruct (entities m !! id') as [v'|]; [|done]. injection Ho as -> _. subst id.
      assert (counts (ref_counts m) !! entity_id e = Some 0) as Hz by (apply (wi_zero _ Hw); left; done).
      cbn [w_counts w_map] in Hn. unfold w_counts in Hn. cbn [w_map] in Hn. rewrite Hz in Hn. injection Hn as <-. lia.
  - rewrite lease_eq, read_eq by done. pose proof (proj2 (proj2 (proj2 (entity_counts_exact w Hr))) (entity_id e)) as Hent.
    destruct (decide _) as [[Hi Hl]|Hno].
    + assert (Hdom : entity_id e ∈ dom (entities (w_map w))) by (apply Hent; done).
      apply elem_of_dom in Hdom as [v Hv]. rewrite Hv. by eexists v, _, _, _.
    + destruct (entities (w_map w) !! entity_id e) as [v|] eqn:E; [|done].
      exfalso. apply Hno. apply elem_of_dom_2, Hent in E. tauto.
Qed.

(** Entities are released when nothing refers to them: taking the dropped entities answers, in the order of
    the drops, the entities of exactly the ids without a handle, and forgets these ids and no others. *)
Theorem take_dropped_exact w :
  world_reachable w → w_dropping w = None →
  ∃ out m', take_dropped (w_map w) = Ok (out, m') ∧
    out = omap (λ id, (λ v, (id, v)) <$> entities (w_map w) !! id) (dropped_entity_ids (w_counts w)) ∧
    (∀ id, id ∈ dropped_entity_ids (w_counts w) ↔ id ∈ dom (counts (w_counts w)) ∧ refs id (all_handles w) = 0) ∧
    (∀ id, counts (ref_counts m') !! id =
      if decide (refs id (all_handles w) = 0) then None else counts (w_counts w) !! id) ∧
    (∀ id, entities m' !! id = if decide (refs id (all_handles w) = 0) then None else entities (w_map w) !! id).
Proof.
  intros Hw%reachable_world_inv Hfree. destruct w as [m sl hs ls d ins]. cbn in Hfree. subst d.
  destruct (take_dropped_ok _ _ _ _ _ Hw) as (m' & Ht & _ & _ & _ & _ & _ & Hc & He). eexists _, m'.
  split; [exact Ht|]. split; [done|].
  assert (Hz : ∀ id, id ∈ dropped_entity_ids (ref_counts m) ↔ id ∈ dom (counts (ref_counts m)) ∧ refs id (sl ++ hs ++ ls) = 0).
  { intros id. pose proof (wi_zero _ Hw id) as Hz. world_simpl. split.
    - intros Hid. assert (counts (ref_counts m) !! id = Some 0) as Hn by (apply Hz; by left). split; [by apply elem_of_dom_2 in Hn|].
      symmetry. by apply (wi_counts _ Hw).
    - intros [[n Hn]%elem_of_dom Hr]. pose proof (wi_counts _ Hw id n Hn) as ->. world_simpl. rewrite Hr in Hn.
      apply Hz in Hn as [?|?]; done. }
  split; [exact Hz|]. split; intros id.
  - rewrite Hc. unfold w_counts, all_handles. cbn [w_map w_slots w_handles w_leases]. specialize (Hz id).
    destruct (decide (id ∈ dropped_entity_ids (ref_counts m))) as [Hid|Hid]; destruct (decide (refs id (sl ++ hs ++ ls) = 0)); try done; try tauto.
    apply not_elem_of_dom. tauto.
  - rewrite He. unfold all_handles. cbn [w_map w_slots w_handles w_leases]. specialize (Hz id).
    destruct (decide (id ∈ dropped_entity_ids (ref_counts m))) as [Hid|Hid]; destruct (decide (refs id (sl ++ hs ++ ls) = 0)); try done; try tauto.
    apply not_elem_of_dom. intros Hd%(wi_entities _ Hw). world_simpl. tauto.
Qed.

(** ** Released ids *)

(** An id that was given out and has no handles left. *)
Definition gone w (id : K) : Prop :=
  id ∈ issued (keys (w_counts w)) ∧ default 0 (counts (w_counts w) !! id) = 0.
Lemma gone_refs w id : world_inv w → gone w id → refs id (all_handles w) = 0.
Proof.
  intros Hw [_ Hg]. destruct (Nat.eq_0_gt_0_cases (refs id (all_handles w))) as [|Hpos]; [done|].
  apply refs_pos in Hpos as (e & He & <-). destruct (handle_count _ e Hw He) as (n & Hn & ? & _). rewrite Hn in Hg. simpl in Hg. lia.
Qed.
Lemma gone_weak w weak : gone w (weak_id weak) →
  is_upgradable (Some (w_counts w)) weak = false ∧ upgrade (Some (w_counts w)) weak = None.
Proof.
  intros [_ Hg]. unfold is_upgradable, upgrade. cbn [mbind option_bind]. rewrite Hg. split; [by apply bool_decide_false; lia|].
  destruct (counts (w_counts w) !! weak_id weak) as [n|]; [|done]. simpl in Hg. subst n. by destruct (weak_map weak).
Qed.
Lemma step_gone w w' id : world_step w w' → world_inv w → gone w id → gone w' id.
Proof.
  intros Hs Hw Hg. pose proof (gone_refs _ _ Hw Hg) as Hnone. pose proof Hg as [Hi Hz].
  assert (Hother : ∀ e, e ∈ all_handles w → entity_id e ≠ id).
  { intros e He <-. pose proof (refs_elem _ _ He). lia. }
  destruct Hs; unfold gone; world_simpl.
  - unfold reserve in *. pose proof (alloc_fresh (keys (ref_counts m))). pose proof (alloc_issued (keys (ref_counts m))) as Ha.
    destruct (alloc (keys (ref_counts m))) as [k s]. cbn [fst snd] in *. simplify_eq. cbn [with_counts ref_counts keys counts].
    rewrite Ha, lookup_insert_ne by (intros ->; done). split; [set_solver|done].
  - unfold insert_entity in *. simplify_eq. done.
  - assert (Hne : entity_id e ≠ id) by (apply Hother; world_simpl; done).
    unfold clone_entity in *. destruct (counts (ref_counts m) !! entity_id e); [|done]. cbn [unwrap mbind outcome_bind] in *.
    destruct (assert_that _); [|done..]. cbn [mbind outcome_bind] in *. simplify_eq. cbn [set_count counts keys]. by rewrite lookup_insert_ne.
  - assert (Hne : entity_id e ≠ id) by (apply Hother; world_simpl; set_solver).
    unfold drop_begin in *. destruct (counts (ref_counts m) !! entity_id e); [|done]. cbn [unwrap mbind outcome_bind] in *.
    destruct (assert_that _); [|done..]. cbn [mbind outcome_bind] in *. simplify_eq. cbn [set_count counts keys]. by rewrite lookup_insert_ne.
  - assert (Hne : entity_id e ≠ id) by (apply Hother; world_simpl; set_solver).
    unfold drop_begin in *. destruct (counts (ref_counts m) !! entity_id e); [|done]. cbn [unwrap mbind outcome_bind] in *.
    destruct (assert_that _); [|done..]. cbn [mbind outcome_bind] in *. simplify_eq. cbn [set_count counts keys]. by rewrite lookup_insert_ne.
  - done.
  - destruct (decide (weak_id weak = id)) as [<-|Hne].
    + exfalso. destruct (gone_weak (mkWorld m sl hs ls d ins) weak Hg) as [_ Hn]. unfold w_counts in Hn. cbn [w_map] in Hn. congruence.
    + unfold upgrade in *. cbn [mbind option_bind] in *. destruct (counts (ref_counts m) !! weak_id weak); [|done]. cbn [mbind option_bind] in *.
      destruct (weak_map weak); [|done]. cbn [mbind option_bind] in *. destruct (atomic_incr_if_not_zero n) as [[|] ?]; [done|].
      simplify_eq. cbn [set_count counts keys]. by rewrite lookup_insert_ne.
  - rewrite lease_eq in * by (apply (wi_handles _ Hw); world_simpl; set_solver).
    destruct (entities m !! entity_id e); [|done]. simplify_eq. done.
  - unfold end_lease in *. cbn in *. simplify_eq. done.
  - rewrite read_eq in * by (apply (wi_handles _ Hw); world_simpl; set_solver).
    destruct (entities m !! entity_id e); [|done]. simplify_eq. done.
  - destruct (take_dropped_ok _ _ _ _ _ Hw) as (m2 & Ht & _ & _ & _ & _ & Hk & Hc & _).
    match goal with Ho : take_dropped m = Ok (out, _) |- _ => rewrite Ht in Ho; injection Ho as _ <- end.
    rewrite Hk, Hc. split; [done|]. by destruct (decide _).
Qed.

(** A released entity never comes back: once an id has no handles left, no weak handle to it can be upgraded,
    now or after any further steps of any thread, also not after its slot was given to another entity. *)
Theorem released_for_good w w' (weak : AnyWeakEntity K) :
  world_reachable w → rtc world_step w w' →
  weak_id weak ∈ issued (keys (w_counts w)) → refs (weak_id weak) (all_handles w) = 0 →
  is_upgradable (Some (w_counts w')) weak = false ∧ upgrade (Some (w_counts w')) weak = None.
Proof.
  intros Hw%reachable_world_inv Hs Hi Hr. apply gone_weak.
  assert (Hg : gone w (weak_id weak)).
  { split; [done|]. destruct (counts (w_counts w) !! weak_id weak) as [n|] eqn:Hn; [|done]. by rewrite (wi_counts _ Hw _ _ Hn). }
  clear Hi Hr. induction Hs as [|w w1 w2 Hst _ IH]; [done|]. apply IH; [by eapply step_inv|by eapply step_gone].
Qed.

(** An update runs on the entity and stores its result: the entity is leased meanwhile, so that an update or
    a read of it within the update panics, afterwards it reads as the update left it, and no other entity
    changes. *)
Theorem update_entity_exact {R} m e v (update : V → V * R) :
  entity_map e = map_id m → entities m !! entity_id e = Some v →
  ∃ m1 m', lease m e = Ok (mkLease (Some v) (entity_id e), m1) ∧
    lease m1 e = Panic ∧ read_entity m1 e = Panic ∧
    update_entity m e update = Ok ((update v).2, m') ∧
    (∃ m2, read_entity m' e = Ok ((update v).1, m2)) ∧
    (∀ id, id ≠ entity_id e → entities m' !! id = entities m !! id) ∧ ref_counts m' = ref_counts m.
Proof.
  intros He Hv. pose proof (lease_eq m e He) as Hl. rewrite Hv in Hl. unfold update_entity. rewrite Hl.
  cbn [mbind outcome_bind lease_entity lease_id unwrap]. destruct (update v) as [v' r].
  set (m1 := with_entities (access m (entity_id e)) (delete (entity_id e) (entities m))). exists m1. eexists. split; [done|].
  assert (He1 : entity_map e = map_id m1) by done. rewrite (lease_eq m1 e He1), (read_eq m1 e He1).
  cbn [m1 with_entities entities]. rewrite lookup_delete_eq. split; [done|]. split; [done|].
  cbn [mbind outcome_bind lease_entity lease_id unwrap]. cbn [end_lease unwrap lease_entity lease_id mbind outcome_bind fst snd].
  split; [done|]. split; [|split; [|done]].
  - rewrite read_eq by done. cbn [with_entities entities]. rewrite lookup_insert_eq. by eexists.
  - intros id Hid. cbn [m1 with_entities entities]. by rewrite lookup_insert_ne, lookup_delete_ne by done.
Qed.
End theorems.

(** ** The leak detector *)

Section leaks.
Context {K : Type} `{Countable K}.
Implicit Types self : LeakDetector K.

(** What handles do: one is created, or one is released. *)
Inductive leak_event : Type := Created (id : K) | Released (id : K) (handle : nat).
(** The detector after events, and the handles that live then. *)
Definition track (st : LeakDetector K * gset (K * nat)) (ev : leak_event) : LeakDetector K * gset (K * nat) :=
  let '(self, live) := st in
  match ev with
  | Created id => let '(h, self) := handle_created self id in (self, {[(id, h)]} ∪ live)
  | Released id h => (handle_released self id h, live ∖ {[(id, h)]})
  end.
Definition tracked self (live : gset (K * nat)) : Prop :=
  (∀ id h, (id, h) ∈ live ↔ ∃ hs, entity_handles self !! id = Some hs ∧ h ∈ hs) ∧
  (∀ id hs, entity_handles self !! id = Some hs → hs ≠ ∅ ∧ ∀ h, h ∈ hs → h < next_handle_id self).

Lemma track_tracked st ev : tracked st.1 st.2 → tracked (track st ev).1 (track st ev).2.
Proof.
  destruct st as [self live]. intros [Hl Hn]. cbn [fst snd] in *. destruct ev as [id|id h]; cbn [track fst snd].
  - unfold handle_created. split; cbn [entity_handles next_handle_id fst snd].
    + intros id' h'. rewrite elem_of_union, elem_of_singleton, Hl. destruct (decide (id = id')) as [<-|Hne].
      * rewrite lookup_insert_eq. split.
        -- intros [[= ->]|(hs & Hhs & Hin)]; (eexists; split; [done|]); [set_solver|]. rewrite Hhs. set_solver.
        -- intros (hs & [= <-] & Hin). apply elem_of_union in Hin as [Hin|Hin]; [|left; set_solver].
           right. destruct (entity_handles self !! id) as [hs|]; [|set_solver]. by exists hs.
      * rewrite lookup_insert_ne by done. split; [intros [[= ? ?]|?]; [congruence|done]|by right].
    + intros id' hs. destruct (decide (id = id')) as [<-|Hne].
      * rewrite lookup_insert_eq. intros [= <-]. split; [set_solver|]. intros h' [Hin|Hin]%elem_of_union; [|apply elem_of_singleton in Hin; lia].
        destruct (entity_handles self !! id) as [hs|] eqn:E; [|set_solver]. apply (Hn _ _ E) in Hin. lia.
      * rewrite lookup_insert_ne by done. intros Hhs. destruct (Hn _ _ Hhs) as [? Hlt]. split; [done|]. intros h' Hh'. specialize (Hlt h' Hh'). lia.
  - unfold handle_released. destruct (entity_handles self !! id) as [hs|] eqn:E.
    + split; cbn [entity_handles next_handle_id].
      * intros id' h'. rewrite elem_of_difference, elem_of_singleton, Hl. destruct (decide (id = id')) as [<-|Hne].
        -- destruct (decide (hs ∖ {[h]} = ∅)) as [Hz|Hz].
           ++ rewrite lookup_delete_eq. split; [|by intros (? & ? & _)]. intros [(hs' & Hhs' & Hin) Hne']. exfalso.
              rewrite E in Hhs'. injection Hhs' as <-. assert (h' = h) as -> by set_solver. done.
           ++ rewrite lookup_insert_eq, E. split.
              ** intros [(hs' & [= <-] & Hin) Hne']. eexists. split; [done|]. rewrite elem_of_difference, elem_of_singleton. split; [done|]. by intros ->.
              ** intros (hs' & [= <-] & [Hin Hne']%elem_of_difference). split; [by exists hs|]. intros [= ->]. set_solver.
        -- assert (Hsame : (if decide (hs ∖ {[h]} = ∅) then delete id (entity_handles self) else <[id:=hs ∖ {[h]}]> (entity_handles self)) !! id'
             = entity_handles self !! id') by (destruct (decide _); [by rewrite lookup_delete_ne|by rewrite lookup_insert_ne]).
           rewrite Hsame. split; [by intros []|]. intros Hx. split; [done|]. intros [= ->]. done.
      * intros id' hs'. destruct (decide (hs ∖ {[h]} = ∅)) as [Hz|Hz].
        -- intros [_ Hhs']%lookup_delete_Some. exact (Hn _ _ Hhs').
        -- intros [[<- <-]|[_ Hhs']]%lookup_insert_Some; [|exact (Hn _ _ Hhs')]. split; [done|]. intros h' [Hin _]%elem_of_difference. by apply (Hn _ _ E).
    + split; [|done]. intros id' h'. rewrite elem_of_difference, elem_of_singleton, Hl. split; [by intros []|]. intros Hx. split; [done|].
      intros [= -> ->]. destruct Hx as (hs & Hhs & _). congruence.
Qed.

(** The leak detector reports exactly the handles that live: after any events, an entity passes the check for
    its release exactly if none of its handles lives, the check for new leaks passes exactly if all living
    handles are to entities of the snapshot, and the detector may be dropped exactly if none lives. *)
Theorem leaks_exact (events : list leak_event) :
  let '(self, live) := foldl track (leaks_new, ∅) events in
  (∀ id, leak_assert_released self id = if decide (set_Forall (λ p, p.1 ≠ id) live) then Ok self else Panic) ∧
  (∀ ids, assert_no_new_leaks self ids = if decide (set_Forall (λ p, p.1 ∈ ids) live) then Ok () else Panic) ∧
  (∀ id, id ∈ snapshot self ↔ ∃ h, (id, h) ∈ live) ∧
  drop_detector self = if decide (live = ∅) then Ok () else Panic.
Proof.
  assert (Ht : ∀ st, tracked st.1 st.2 → tracked (foldl track st events).1 (foldl track st events).2).
  { induction events as [|ev evs IH]; intros st Hst; [done|]. apply IH. by apply track_tracked. }
  specialize (Ht (leaks_new, ∅)). destruct (foldl track (leaks_new, ∅) events) as [self live]. cbn [fst snd] in Ht.
  destruct Ht as [Hl Hn]. { split; cbn; [|done]. intros id h. split; [set_solver|]. intros (hs & Hhs & _). done. }
  assert (Hdom : ∀ id, (∃ hs, entity_handles self !! id = Some hs) ↔ ∃ h, (id, h) ∈ live).
  { intros id. split.
    - intros [hs Hhs]. destruct (Hn _ _ Hhs) as [Hne _]. apply set_choose_L in Hne as [h Hh]. exists h. apply Hl. by exists hs.
    - intros [h (hs & ? & _)%Hl]. by exists hs. }
  split; [|split; [|split]].
  - intros id. unfold leak_assert_released. destruct (entity_handles self !! id) as [hs|] eqn:E; destruct (decide _) as [Hf|Hf]; try done.
    + destruct (proj1 (Hdom id)) as [h Hh]; [by exists hs|]. by destruct (Hf _ Hh).
    + exfalso. apply Hf. intros [id' h] Hin Heq. cbn [fst] in Heq. subst id'. destruct (proj2 (Hdom id)) as [hs Hhs]; [by exists h|]. congruence.
  - intros ids. unfold assert_no_new_leaks, assert_that. destruct (decide (set_Forall _ live)) as [Hf|Hf].
    + rewrite bool_decide_true; [done|]. intros id hs Hhs. left. destruct (proj1 (Hdom id)) as [h Hh]; [by exists hs|]. by apply (Hf _ Hh).
    + rewrite bool_decide_false; [done|]. intros Hall. apply Hf. intros [id h] Hin. cbn [fst].
      destruct (proj2 (Hdom id)) as [hs Hhs]; [by exists h|]. destruct (Hall _ _ Hhs) as [?|Hz]; [done|]. by destruct (Hn _ _ Hhs).
  - intros id. unfold snapshot. rewrite elem_of_dom, <-Hdom. done.
  - unfold drop_detector, assert_that. destruct (decide (live = ∅)) as [->|Hne].
    + rewrite bool_decide_true; [done|]. apply map_empty. intros id. destruct (entity_handles self !! id) as [hs|] eqn:E; [|done].
      destruct (proj1 (Hdom id)) as [h Hh]; [by exists hs|]. set_solver.
    + rewrite bool_decide_false; [done|]. intros Hz. apply set_choose_L in Hne as [[id h] Hin]. destruct (proj2 (Hdom id)) as [hs Hhs]; [by exists h|].
      by rewrite Hz in Hhs.
Qed.
End leaks.

(** ** Examples *)

(** Keys that count upward. *)
#[export] Instance nat_keys : SlotKeys nat nat := {|
  new_keys := 0; alloc s := (s, S s); release _ s := s; issued s := set_seq 0 s
|}.
#[export] Instance nat_keys_laws : SlotKeysLaws nat nat.
Proof.
  split; cbn [issued alloc new_keys release nat_keys fst snd].
  - done.
  - intros s. rewrite elem_of_set_seq. lia.
  - intros s. apply set_eq. intros k. rewrite elem_of_union, elem_of_singleton, !elem_of_set_seq. lia.
  - done.
Qed.

(** A slot that is filled, and then its handle is dropped. *)
Definition sample_handle : AnyEntity nat := mkEntity 0 7 1.
Definition sample_map : EntityMap nat nat nat :=
  mkEntities 1 {[0 := 5]} {[0]} (mkCounts {[0 := 1]} 1 []).
Definition sample_world : World nat nat nat := mkWorld sample_map [] [sample_handle] [] None {[0]}.
Definition sample_counts_0 : EntityRefCounts nat nat := set_count (ref_counts sample_map) 0 0.
Definition sample_gone : World nat nat nat :=
  mkWorld (with_counts (with_counts sample_map sample_counts_0) (drop_end sample_counts_0 sample_handle)) [] [] [] None {[0]}.
Lemma sample_world_reachable : world_reachable sample_world.
Proof.
  exists 1. eapply rtc_l; [by apply (ws_reserve _ _ _ _ _ 7)|].
  eapply rtc_l; [by apply (ws_insert _ [] _ [] [] [] None ∅ 5)|]. apply rtc_refl.
Qed.
Lemma sample_gone_steps : rtc world_step sample_world sample_gone.
Proof.
  eapply rtc_l; [by apply (ws_drop_begin _ [] [] sample_handle [] [] {[0]})|]. eapply rtc_l; [apply ws_drop_end|]. apply rtc_refl.
Qed.
Lemma sample_gone_reachable : world_reachable sample_gone.
Proof. destruct sample_world_reachable as [i Hi]. exists i. etrans; [exact Hi|apply sample_gone_steps]. Qed.

Lemma entity_counts_exact_witness : 1 = refs 0 (all_handles sample_world).
Proof. apply (entity_counts_exact sample_world sample_world_reachable). reflexivity. Defined.
Lemma entity_handles_safe_witness : ∃ rc', clone_entity (Some (w_counts sample_world)) sample_handle = Ok (sample_handle, Some rc').
Proof. apply (entity_handles_safe sample_world sample_handle sample_world_reachable). by left. Defined.
Lemma take_dropped_exact_witness : ∃ out m', take_dropped (w_map sample_gone) = Ok (out, m') ∧ out = [(0, 5)].
Proof.
  destruct (take_dropped_exact sample_gone sample_gone_reachable eq_refl) as (out & m' & Ht & -> & _). by exists [(0, 5)], m'.
Defined.
Lemma released_for_good_witness : upgrade (Some (w_counts sample_gone)) (downgrade sample_handle) = None.
Proof.
  apply (released_for_good sample_gone sample_gone (downgrade sample_handle) sample_gone_reachable); [apply rtc_refl| |reflexivity].
  change (0 ∈ (set_seq 0 1 : gset nat)). apply elem_of_set_seq. lia.
Defined.
Lemma update_entity_exact_witness : ∃ m', update_entity sample_map sample_handle (λ v, (v + 1, v)) = Ok (5, m').
Proof.
  destruct (update_entity_exact sample_map sample_handle 5 (λ v, (v + 1, v)) eq_refl eq_refl) as (m1 & m' & _ & _ & _ & Hu & _).
  by exists m'.
Defined.
