(* ===== verification/WindowTabs.v ===== *)
(** The tabs of system windows, [SystemWindowTabController] of [crates/gpui/src/app.rs], and what the
    controller keeps: every window stays in one group. *)
From stdpp Require Import gmap sorting.
From S2P Require Import Prelude Chars.
Local Open Scope nat_scope.

(** ** Data *)

(** [SystemWindowTab], with the window's id as a number; the handle has the same id. *)
Record SystemWindowTab : Type := mkTab { tab_id : nat; tab_title : list char; last_active_at : nat }.
#[export] Instance SystemWindowTab_eq_dec : EqDecision SystemWindowTab.
Proof. solve_decision. Defined.

Record SystemWindowTabController : Type := mkController {
  visible : option bool;
  tab_groups : gmap nat (list SystemWindowTab);
}.

(** [iter().position] and [max_by_key], which answers the last maximum. *)
Definition position_of (id : nat) (tabs : list SystemWindowTab) : option nat :=
  fst <$> list_find (λ tab, tab_id tab = id) tabs.
Definition latest (tabs : list SystemWindowTab) : option SystemWindowTab :=
  foldl (λ best tab, match best with
    | Some b => if decide (last_active_at b ≤ last_active_at tab) then Some tab else Some b
    | None => Some tab
    end) None tabs.

Section tabs.
(** The order in which a hash map visits its keys. *)
Context (order : gmap nat (list SystemWindowTab) → list nat).
Implicit Types self : SystemWindowTabController.

Definition groups_of (groups : gmap nat (list SystemWindowTab)) : list (nat * list SystemWindowTab) :=
  omap (λ g, (λ tabs, (g, tabs)) <$> groups !! g) (order groups).
Definition with_groups self groups : SystemWindowTabController := mkController (visible self) groups.
Definition controller_new : SystemWindowTabController := mkController None ∅.

(** The first group with a tab of the window. *)
Definition group_with self (id : nat) : option (nat * list SystemWindowTab) :=
  head (filter (λ '(_, tabs), is_Some (position_of id tabs)) (groups_of (tab_groups self))).
Definition tabs self (id : nat) : option (list SystemWindowTab) := snd <$> group_with self id.

(** The window of the group [step] places after the group of the window, around the end. *)
Definition group_window_at self (group_ids : list nat) (ix : nat) : option SystemWindowTab :=
  g ← group_ids !! ix;
  group ← tab_groups self !! g;
  match latest group with Some tab => Some tab | None => head group end.
Definition get_next_tab_group_window self (id : nat) : option SystemWindowTab :=
  '(current_group, _) ← group_with self id;
  let group_ids := order (tab_groups self) in
  '(idx, _) ← list_find (eq current_group) group_ids;
  group_window_at self group_ids ((idx + 1) mod length group_ids).
Definition get_prev_tab_group_window self (id : nat) : option SystemWindowTab :=
  '(current_group, _) ← group_with self id;
  let group_ids := order (tab_groups self) in
  '(idx, _) ← list_find (eq current_group) group_ids;
  group_window_at self group_ids (if decide (idx = 0) then length group_ids - 1 else idx - 1).

Definition init_visible self (v : bool) : SystemWindowTabController :=
  match visible self with None => mkController (Some v) (tab_groups self) | Some _ => self end.
Definition is_visible self : bool := default false (visible self).
Definition set_visible self (v : bool) : SystemWindowTabController := mkController (Some v) (tab_groups self).

Definition update_last_active self (id now : nat) : SystemWindowTabController :=
  with_groups self (fmap (map (λ tab, if decide (tab_id tab = id) then mkTab (tab_id tab) (tab_title tab) now else tab)) (tab_groups self)).

(** [Vec::remove] and [Vec::insert] of the tab. *)
Definition move_in (group : list SystemWindowTab) (current_pos ix : nat) : list SystemWindowTab :=
  match group !! current_pos with
  | Some tab => let rest := delete current_pos group in take ix rest ++ tab :: drop ix rest
  | None => group
  end.
Definition update_tab_position self (id ix : nat) : SystemWindowTabController :=
  match group_with self id with
  | Some (g, windows) =>
      match position_of id windows with
      | Some current_pos =>
          if decide (ix < length windows ∧ current_pos ≠ ix)
          then with_groups self (<[g := move_in windows current_pos ix]> (tab_groups self)) else self
      | None => self
      end
  | None => self
  end.

(** The first tab of the window, found by the two loops of [update_tab_title]. *)
Definition update_tab_title self (id : nat) (title : list char) : SystemWindowTabController :=
  match group_with self id with
  | Some (g, windows) =>
      match list_find (λ tab, tab_id tab = id) windows with
      | Some (pos, tab) =>
          if decide (tab_title tab = title) then self
          else with_groups self (<[g := <[pos := mkTab (tab_id tab) title (last_active_at tab)]> windows]> (tab_groups self))
      | None => self
      end
  | None => self
  end.

Definition sorted_ids (tabs : list SystemWindowTab) : list nat := merge_sort (≤) (map tab_id tabs).
Definition add_tab self (id : nat) (new_tabs : list SystemWindowTab) : SystemWindowTabController :=
  match list_find (λ tab, tab_id tab = id) new_tabs with
  | None => self
  | Some (_, tab) =>
      let expected_tab_ids := sorted_ids (filter (λ tab, tab_id tab ≠ id) new_tabs) in
      match head (filter (λ '(_, group_tabs), sorted_ids group_tabs = expected_tab_ids) (groups_of (tab_groups self))) with
      | Some (tab_group_id, group_tabs) => with_groups self (<[tab_group_id := group_tabs ++ [tab]]> (tab_groups self))
      | None =>
          let new_group_id := size (tab_groups self) in
          with_groups self (<[new_group_id := new_tabs]> (tab_groups self))
      end
  end.

(** [retain] over the groups: the tab is taken from each, and groups that are empty then are removed. *)
Definition without_tab (id : nat) (group : list SystemWindowTab) : list SystemWindowTab :=
  match position_of id group with Some pos => delete pos group | None => group end.
Definition remove_tab self (id : nat) : option SystemWindowTab * SystemWindowTabController :=
  let removed_tab := foldl (λ removed '(_, group),
    match position_of id group with Some pos => group !! pos | None => removed end) None (groups_of (tab_groups self)) in
  (removed_tab,
   with_groups self (omap (λ group, let group := without_tab id group in if decide (group = []) then None else Some group)
     (tab_groups self))).

Definition max_key (keys : list nat) : option nat :=
  match keys with [] => None | k :: keys => Some (foldl max k keys) end.
Definition move_tab_to_new_window self (id : nat) : SystemWindowTabController :=
  let '(removed_tab, self) := remove_tab self id in
  match removed_tab with
  | Some tab =>
      let new_group_id := match max_key (order (tab_groups self)) with Some k => k + 1 | None => 0 end in
      with_groups self (<[new_group_id := [tab]]> (tab_groups self))
  | None => self
  end.

Definition merge_all_windows self (id : nat) : SystemWindowTabController :=
  match tabs self id with
  | None => self
  | Some initial_tabs =>
      let all_tabs := foldl (λ all_tabs '(_, group), all_tabs ++ filter (λ tab, tab ∉ initial_tabs) group)
        initial_tabs (groups_of (tab_groups self)) in
      with_groups self {[0 := all_tabs]}
  end.

(** The window that is activated. *)
Definition select_next_tab self (id : nat) : outcome (option nat) :=
  match tabs self id with
  | None => Ok None
  | Some tabs =>
      current_index ← unwrap (position_of id tabs);
      tab ← index tabs ((current_index + 1) mod length tabs);
      Ok (Some (tab_id tab))
  end.
Definition select_previous_tab self (id : nat) : outcome (option nat) :=
  match tabs self id with
  | None => Ok None
  | Some tabs =>
      current_index ← unwrap (position_of id tabs);
      tab ← index tabs (if decide (current_index = 0) then length tabs - 1 else current_index - 1);
      Ok (Some (tab_id tab))
  end.
End tabs.

Notation Groups := (gmap nat (list SystemWindowTab)).

(** ** Positions *)

Lemma position_of_Some id ts i :
  position_of id ts = Some i ↔
  ∃ l1 tab l2, ts = l1 ++ tab :: l2 ∧ length l1 = i ∧ tab_id tab = id ∧ Forall (λ t, tab_id t ≠ id) l1.
Proof.
  unfold position_of. rewrite fmap_Some. split.
  - intros ([j tab] & (Hj & Hid & Hb)%list_find_Some & ->). exists (take j ts), tab, (drop (S j) ts).
    pose proof (lookup_lt_Some _ _ _ Hj). split_and!; [by rewrite take_drop_middle|simpl; rewrite length_take; lia|done|].
    apply Forall_lookup. intros k t [Hk Hlt]%lookup_take_Some. by eapply Hb.
  - intros (l1 & tab & l2 & -> & <- & Hid & Hf). exists (length l1, tab). split; [|done]. apply list_find_Some.
    split_and!; [by rewrite list_lookup_middle|done|]. intros k t Hk Hlt. rewrite lookup_app_l in Hk by done.
    rewrite Forall_lookup in Hf. by eapply Hf.
Qed.
Lemma position_of_None id ts : position_of id ts = None ↔ Forall (λ t, tab_id t ≠ id) ts.
Proof. unfold position_of. rewrite fmap_None. apply list_find_None. Qed.
Lemma position_of_is_Some id ts : is_Some (position_of id ts) ↔ id ∈ map tab_id ts.
Proof.
  split.
  - intros [i (l1 & tab & l2 & -> & _ & <- & _)%position_of_Some]. rewrite map_app, elem_of_app. right. by left.
  - intros (tab & -> & Hin)%list_elem_of_fmap. destruct (position_of (tab_id tab) ts) eqn:E; [done|].
    apply position_of_None in E. rewrite Forall_forall in E. by destruct (E tab Hin).
Qed.

(** ** Groups *)

Definition all_tabs (groups : Groups) : list SystemWindowTab := concat ((map_to_list groups).*2).
(** No group is empty, and no window is in two places. *)
Record tabs_ok (groups : Groups) : Prop := {
  tk_nonempty : map_Forall (λ _ ts, ts ≠ []) groups;
  tk_unique : NoDup (map tab_id (all_tabs groups));
}.

Lemma all_tabs_insert (groups : Groups) g ts :
  groups !! g = None → all_tabs (<[g := ts]> groups) ≡ₚ ts ++ all_tabs groups.
Proof. intros Hg. unfold all_tabs. by rewrite (map_to_list_insert _ _ _ Hg). Qed.
Lemma all_tabs_split (groups : Groups) g ts :
  groups !! g = Some ts → all_tabs groups ≡ₚ ts ++ all_tabs (delete g groups).
Proof. intros Hg. rewrite <-(insert_delete_id groups g ts Hg) at 1. apply all_tabs_insert, lookup_delete_eq. Qed.
Lemma all_tabs_replace (groups : Groups) g ts :
  all_tabs (<[g := ts]> groups) ≡ₚ ts ++ all_tabs (delete g groups).
Proof. rewrite <-insert_delete_eq. apply all_tabs_insert, lookup_delete_eq. Qed.
Lemma elem_of_all_tabs (groups : Groups) tab : tab ∈ all_tabs groups ↔ ∃ g ts, groups !! g = Some ts ∧ tab ∈ ts.
Proof.
  unfold all_tabs. rewrite list_elem_of_In, in_concat. split.
  - intros (ts & Hts & Hin). rewrite <-list_elem_of_In in Hts. rewrite <-list_elem_of_In in Hin. apply list_elem_of_fmap in Hts as ([g ts'] & -> & Hg%elem_of_map_to_list). by exists g, ts'.
  - intros (g & ts & Hg & Hin). exists ts. rewrite <-!list_elem_of_In. split; [|done]. apply list_elem_of_fmap.
    exists (g, ts). split; [done|]. by apply elem_of_map_to_list.
Qed.

Lemma ok_replace (groups : Groups) g ts ts' :
  tabs_ok groups → groups !! g = Some ts → ts' ≠ [] → map tab_id ts' ≡ₚ map tab_id ts →
  tabs_ok (<[g := ts']> groups) ∧ map tab_id (all_tabs (<[g := ts']> groups)) ≡ₚ map tab_id (all_tabs groups).
Proof.
  intros [Hne Hu] Hg Hts Hp.
  assert (Hall : map tab_id (all_tabs (<[g := ts']> groups)) ≡ₚ map tab_id (all_tabs groups)).
  { rewrite (all_tabs_replace groups g ts'), (all_tabs_split groups g ts Hg), !map_app. by rewrite Hp. }
  split; [split|done]; [by apply map_Forall_insert_2|by rewrite Hall].
Qed.
Lemma ok_delete (groups : Groups) g ts :
  tabs_ok groups → groups !! g = Some ts → tabs_ok (delete g groups).
Proof.
  intros [Hne Hu] Hg. split; [by apply map_Forall_delete|].
  rewrite (all_tabs_split groups g ts Hg), map_app in Hu. by apply NoDup_app in Hu as (_ & _ & ?).
Qed.
(** A window is in one group. *)
Lemma group_unique (groups : Groups) g1 ts1 g2 ts2 id :
  tabs_ok groups → groups !! g1 = Some ts1 → groups !! g2 = Some ts2 → id ∈ map tab_id ts1 → id ∈ map tab_id ts2 → g1 = g2.
Proof.
  intros [_ Hu] H1 H2 Hi1 Hi2. destruct (decide (g1 = g2)) as [|Hne]; [done|exfalso].
  rewrite (all_tabs_split groups g1 ts1 H1), map_app in Hu. apply NoDup_app in Hu as (_ & Hd & _). apply (Hd id Hi1).
  assert (Hg2 : delete g1 groups !! g2 = Some ts2) by by rewrite lookup_delete_ne.
  rewrite (all_tabs_split _ g2 ts2 Hg2), map_app. apply elem_of_app. by left.
Qed.

Section order.
Context (order : Groups → list nat) (order_perm : ∀ groups, order groups ≡ₚ (map_to_list groups).*1).
Implicit Types self : SystemWindowTabController.

Lemma elem_of_order groups g : g ∈ order groups ↔ is_Some (groups !! g).
Proof.
  rewrite order_perm, list_elem_of_fmap. split.
  - intros ([g' ts] & -> & Hg%elem_of_map_to_list). by exists ts.
  - intros [ts Hg]. exists (g, ts). split; [done|]. by apply elem_of_map_to_list.
Qed.
Lemma NoDup_order groups : NoDup (order groups).
Proof. rewrite order_perm. apply NoDup_fst_map_to_list. Qed.
Lemma elem_of_groups groups g ts : (g, ts) ∈ groups_of order groups ↔ groups !! g = Some ts.
Proof.
  unfold groups_of. rewrite list_elem_of_omap. split.
  - intros (g' & _ & Hg). destruct (groups !! g') eqn:E; [|done]. injection Hg as -> ->. done.
  - intros Hg. exists g. split; [by apply elem_of_order|by rewrite Hg].
Qed.
Lemma groups_perm groups : groups_of order groups ≡ₚ map_to_list groups.
Proof.
  apply NoDup_Permutation; [|apply NoDup_map_to_list|intros [g ts]; by rewrite elem_of_groups, elem_of_map_to_list].
  unfold groups_of. pose proof (NoDup_order groups) as Hnd. induction Hnd as [|g gs Hg _ IH]; cbn [omap list_omap]; [constructor|].
  destruct (groups !! g) as [ts|]; [|done]. cbn. constructor; [|done]. intros (g' & Hg' & Hx)%list_elem_of_omap.
  destruct (groups !! g'); [|done]. injection Hx as -> _. done.
Qed.

(** The group of a window. *)
Lemma group_with_spec self id :
  tabs_ok (tab_groups self) →
  match group_with order self id with
  | Some (g, ts) => tab_groups self !! g = Some ts ∧ id ∈ map tab_id ts
  | None => id ∉ map tab_id (all_tabs (tab_groups self))
  end.
Proof.
  intros Hok. unfold group_with. destruct (filter _ _) as [|[g ts] l] eqn:E; cbn [head].
  - intros (tab & -> & (g & ts & Hg & Hin)%elem_of_all_tabs)%list_elem_of_fmap.
    assert (Hf : (g, ts) ∈ filter (λ '(_, tabs), is_Some (position_of (tab_id tab) tabs)) (groups_of order (tab_groups self))).
    { apply list_elem_of_filter. split; [|by apply elem_of_groups]. apply position_of_is_Some. by apply (list_elem_of_fmap_2 tab_id). }
    rewrite E in Hf. by apply not_elem_of_nil in Hf.
  - assert (Hf : (g, ts) ∈ filter (λ '(_, tabs), is_Some (position_of id tabs)) (groups_of order (tab_groups self))) by (rewrite E; by left).
    apply list_elem_of_filter in Hf as [Hp%position_of_is_Some Hg%elem_of_groups]. done.
Qed.
Lemma group_with_of self id g ts :
  tabs_ok (tab_groups self) → tab_groups self !! g = Some ts → id ∈ map tab_id ts → group_with order self id = Some (g, ts).
Proof.
  intros Hok Hg Hid. pose proof (group_with_spec self id Hok) as Hs. destruct (group_with order self id) as [[g' ts']|].
  - destruct Hs as [Hg' Hid']. assert (g = g') as <- by by eapply group_unique. congruence.
  - exfalso. apply Hs. apply list_elem_of_fmap in Hid as (tab & -> & Hin). apply (list_elem_of_fmap_2 tab_id), elem_of_all_tabs. by exists g, ts.
Qed.

(** ** Removal *)

Lemma without_tab_middle id l1 tab l2 :
  tab_id tab = id → Forall (λ t, tab_id t ≠ id) l1 → without_tab id (l1 ++ tab :: l2) = l1 ++ l2.
Proof.
  intros Hid Hf. unfold without_tab. assert (position_of id (l1 ++ tab :: l2) = Some (length l1)) as ->.
  { apply position_of_Some. by exists l1, tab, l2. }
  by rewrite delete_middle.
Qed.
Lemma without_tab_none id ts : id ∉ map tab_id ts → without_tab id ts = ts.
Proof.
  intros Hid. unfold without_tab. assert (position_of id ts = None) as ->; [|done].
  apply position_of_None, Forall_forall. intros t Ht Heq. apply Hid. rewrite <-Heq. by apply (list_elem_of_fmap_2 tab_id).
Qed.
Lemma removed_fold id groups acc g l1 tab l2 :
  tabs_ok groups → groups !! g = Some (l1 ++ tab :: l2) → tab_id tab = id → Forall (λ t, tab_id t ≠ id) l1 →
  foldl (λ removed '(_, group), match position_of id group with Some pos => group !! pos | None => removed end) acc
    (groups_of order groups) = Some tab.
Proof.
  intros Hok Hg Hid Hf. set (step := λ (removed : option SystemWindowTab) (p : nat * list SystemWindowTab), _).
  assert (Hin : (g, l1 ++ tab :: l2) ∈ groups_of order groups) by by apply elem_of_groups.
  assert (Hstep : ∀ acc, step acc (g, l1 ++ tab :: l2) = Some tab).
  { intros acc'. unfold step. assert (position_of id (l1 ++ tab :: l2) = Some (length l1)) as -> by (apply position_of_Some; by exists l1, tab, l2).
    by rewrite list_lookup_middle. }
  assert (Hkeep : ∀ g' ts', groups !! g' = Some ts' → ∀ acc, step acc (g', ts') = acc ∨ (step acc (g', ts') = Some tab)).
  { intros g' ts' Hg' acc'. destruct (decide (g' = g)) as [->|Hne]; [right; assert (ts' = l1 ++ tab :: l2) as -> by congruence; apply Hstep|left].
    unfold step. assert (position_of id ts' = None) as ->; [|done]. apply position_of_None, Forall_forall. intros t Ht Heq.
    apply Hne. eapply (group_unique groups g' ts' g _ id Hok Hg' Hg); [rewrite <-Heq; by apply (list_elem_of_fmap_2 tab_id)|].
    rewrite map_app, elem_of_app. right. rewrite <-Hid. by left. }
  apply list_elem_of_split in Hin as (k1 & k2 & Hk). rewrite Hk, foldl_app. cbn [foldl]. rewrite Hstep.
  assert (Hk2 : Forall (λ p, groups !! p.1 = Some p.2) k2).
  { apply Forall_forall. intros [g' ts'] Hin. apply elem_of_groups. rewrite Hk. set_solver. }
  clear Hk. induction Hk2 as [|[g' ts'] k2 Hp _ IH]; [done|]. cbn [foldl]. destruct (Hkeep g' ts' Hp (Some tab)) as [->| ->]; done.
Qed.
Lemma remove_tab_ok self id :
  tabs_ok (tab_groups self) →
  let '(removed, self') := remove_tab order self id in
  tabs_ok (tab_groups self') ∧ visible self' = visible self ∧
  match removed with
  | Some tab => tab_id tab = id ∧ all_tabs (tab_groups self) ≡ₚ tab :: all_tabs (tab_groups self') ∧
      ∀ g ts, id ∉ map tab_id ts → tab_groups self !! g = Some ts → tab_groups self' !! g = Some ts
  | None => id ∉ map tab_id (all_tabs (tab_groups self)) ∧ tab_groups self' = tab_groups self
  end.
Proof.
  intros Hok. unfold remove_tab. pose proof (group_with_spec self id Hok) as Hspec.
  set (groups := tab_groups self) in *. set (f := λ group : list SystemWindowTab, _).
  assert (Hother : ∀ g ts, groups !! g = Some ts → id ∉ map tab_id ts → f ts = Some ts).
  { intros g ts Hg Hid. unfold f. rewrite without_tab_none by done. rewrite decide_False; [done|]. by apply (tk_nonempty _ Hok g). }
  destruct (group_with order self id) as [[g ts]|].
  - destruct Hspec as [Hg Hid]. apply position_of_is_Some in Hid as [i (l1 & tab & l2 & -> & _ & Hid & Hf)%position_of_Some].
    rewrite (removed_fold id groups None g l1 tab l2 Hok Hg Hid Hf). cbn [with_groups tab_groups visible].
    assert (Hin : id ∈ map tab_id (l1 ++ tab :: l2)) by (rewrite map_app, elem_of_app; right; rewrite <-Hid; by left).
    assert (Heq : omap f groups = if decide (l1 ++ l2 = []) then delete g groups else <[g := l1 ++ l2]> groups).
    { apply map_eq. intros g'. rewrite lookup_omap. destruct (decide (g' = g)) as [->|Hne].
      - rewrite Hg. cbn [mbind option_bind]. unfold f. rewrite without_tab_middle by done.
        destruct (decide (l1 ++ l2 = [])); [by rewrite lookup_delete_eq|by rewrite lookup_insert_eq].
      - destruct (groups !! g') as [ts'|] eqn:E; cbn [mbind option_bind].
        + rewrite (Hother g' ts' E); [|intros Hid'; apply Hne; by eapply group_unique].
          destruct (decide _); [by rewrite lookup_delete_ne|by rewrite lookup_insert_ne].
        + destruct (decide _); [by rewrite lookup_delete_ne|by rewrite lookup_insert_ne]. }
    rewrite Heq. assert (Hperm : all_tabs groups ≡ₚ tab :: all_tabs (if decide (l1 ++ l2 = []) then delete g groups else <[g := l1 ++ l2]> groups)).
    { rewrite (all_tabs_split groups g _ Hg). rewrite <-app_assoc. cbn [app]. rewrite <-Permutation_middle. f_equiv.
      destruct (decide (l1 ++ l2 = [])) as [Hz|Hz]; [by rewrite app_assoc, Hz|]. rewrite all_tabs_replace. by rewrite app_assoc. }
    split; [|split; [done|]].
    + split.
      * destruct (decide _); [by apply map_Forall_delete, Hok|by apply map_Forall_insert_2, Hok].
      * pose proof (tk_unique _ Hok) as Hu. rewrite Hperm in Hu. cbn [map] in Hu. by apply NoDup_cons in Hu as [_ ?].
    + split; [done|]. split; [done|]. intros g' ts' Hid' Hg'. assert (g' ≠ g) by (intros ->; congruence).
      destruct (decide _); [by rewrite lookup_delete_ne|by rewrite lookup_insert_ne].
  - assert (Hfold : ∀ acc, foldl (λ removed '(_, group), match position_of id group with Some pos => group !! pos | None => removed end) acc (groups_of order groups) = acc).
    { assert (Hall : Forall (λ p, position_of id p.2 = None) (groups_of order groups)).
      { apply Forall_forall. intros [g ts] Hin%elem_of_groups. apply position_of_None, Forall_forall. intros t Ht Heq. apply Hspec.
        rewrite <-Heq. apply (list_elem_of_fmap_2 tab_id), elem_of_all_tabs. by exists g, ts. }
      induction Hall as [|[g ts] l Hp _ IH]; intros acc; [done|]. cbn [foldl]. cbn [snd] in Hp. rewrite Hp. apply IH. }
    rewrite Hfold. cbn [with_groups tab_groups visible].
    assert (Heq : omap f groups = groups).
    { apply map_eq. intros g. rewrite lookup_omap. destruct (groups !! g) as [ts|] eqn:E; [|done]. cbn [mbind option_bind].
      apply (Hother g ts E). intros (tab & -> & Hin)%list_elem_of_fmap. apply Hspec. apply (list_elem_of_fmap_2 tab_id), elem_of_all_tabs. by exists g, ts. }
    rewrite Heq. done.
Qed.

(** ** Theorems *)

Lemma move_in_perm ts pos ix : move_in ts pos ix ≡ₚ ts.
Proof.
  unfold move_in. destruct (ts !! pos) as [tab|] eqn:E; [|done].
  rewrite <-Permutation_middle, take_drop. by rewrite <-(delete_Permutation ts pos tab E).
Qed.
Lemma max_key_fresh groups k : max_key (order groups) = Some k → groups !! (k + 1) = None.
Proof.
  intros Hm. destruct (groups !! (k + 1)) as [ts|] eqn:E; [|done]. exfalso.
  assert (Hin : k + 1 ∈ order groups) by (apply elem_of_order; by exists ts).
  destruct (order groups) as [|k0 ks]; [done|]. cbn in Hm. injection Hm as <-.
  assert (Hle : ∀ l a, a ≤ foldl max a l ∧ ∀ x, x ∈ l → x ≤ foldl max a l).
  { induction l as [|y l IH]; intros a; cbn [foldl]; [split; [done|by intros ? ?%not_elem_of_nil]|].
    destruct (IH (max a y)) as [H1 H2]. split; [lia|]. intros x [->|Hx]%elem_of_cons; [lia|by apply H2]. }
  destruct (Hle ks k0) as [H1 H2]. apply elem_of_cons in Hin as [?|Hin]; [lia|]. specialize (H2 _ Hin). lia.
Qed.
Lemma max_key_none groups : max_key (order groups) = None → groups = ∅.
Proof.
  intros Hm. apply map_empty. intros g. destruct (groups !! g) as [ts|] eqn:E; [|done].
  assert (Hin : g ∈ order groups) by (apply elem_of_order; by exists ts). destruct (order groups); [by apply not_elem_of_nil in Hin|done].
Qed.
Lemma merge_fold (initial acc : list SystemWindowTab) (groups : list (nat * list SystemWindowTab)) :
  foldl (λ all '(_, group), all ++ filter (λ tab, tab ∉ initial) group) acc groups
  = acc ++ filter (λ tab, tab ∉ initial) (concat groups.*2).
Proof.
  revert acc. induction groups as [|[g ts] groups IH]; intros acc; cbn [foldl]; [by rewrite app_nil_r|].
  rewrite IH. cbn. by rewrite filter_app, app_assoc.
Qed.

(** The operations on the tabs keep every window in exactly one group, without empty groups: moving or
    renaming a tab and noting that a window was active leave the windows where they are, removing a tab takes
    that window only, moving a tab gives it a group of its own, and merging puts all windows into one group
    behind those of the window's own group. *)
Theorem tab_operations_partition self id :
  tabs_ok (tab_groups self) →
  (∀ f, (∃ now, f = update_last_active self id now) ∨ (∃ ix, f = update_tab_position order self id ix) ∨
      (∃ title, f = update_tab_title order self id title) →
    tabs_ok (tab_groups f) ∧ map tab_id (all_tabs (tab_groups f)) ≡ₚ map tab_id (all_tabs (tab_groups self))) ∧
  (let '(removed, self') := remove_tab order self id in
    tabs_ok (tab_groups self') ∧
    if decide (id ∈ map tab_id (all_tabs (tab_groups self)))
    then ∃ tab, removed = Some tab ∧ tab_id tab = id ∧ all_tabs (tab_groups self) ≡ₚ tab :: all_tabs (tab_groups self')
    else removed = None ∧ tab_groups self' = tab_groups self) ∧
  (let self' := move_tab_to_new_window order self id in
    tabs_ok (tab_groups self') ∧ all_tabs (tab_groups self') ≡ₚ all_tabs (tab_groups self) ∧
    (id ∈ map tab_id (all_tabs (tab_groups self)) → ∃ tab, tabs order self' id = Some [tab])) ∧
  (let self' := merge_all_windows order self id in
    tabs_ok (tab_groups self') ∧ all_tabs (tab_groups self') ≡ₚ all_tabs (tab_groups self) ∧
    (∀ ts, tabs order self id = Some ts → ∃ rest, tab_groups self' = {[0 := ts ++ rest]})).
Proof.
  intros Hok. pose proof (group_with_spec self id Hok) as Hspec. pose proof (remove_tab_ok self id Hok) as Hrem. split; [|split; [|split]].
  - intros f [[now ->]|[[ix ->]|[title ->]]].
    + unfold update_last_active. cbn [with_groups tab_groups]. set (upd := map _).
      assert (Hupd : ∀ ts, map tab_id (upd ts) = map tab_id ts).
      { intros ts. unfold upd. rewrite map_map. apply map_ext. intros t. by destruct (decide _). }
      assert (Hall : map tab_id (all_tabs (upd <$> tab_groups self)) = map tab_id (all_tabs (tab_groups self))).
      { unfold all_tabs. rewrite map_to_list_fmap. induction (map_to_list (tab_groups self)) as [|[g ts] l IH]; [done|].
        cbn. rewrite !map_app, Hupd. by f_equal. }
      split; [split|by rewrite Hall].
      * intros g ts (ts' & <- & Hg)%lookup_fmap_Some. assert (Hne : ts' ≠ []) by exact (tk_nonempty _ Hok g ts' Hg). by destruct ts'.
      * rewrite Hall. apply (tk_unique _ Hok).
    + unfold update_tab_position. destruct (group_with order self id) as [[g ts]|]; [|done]. destruct Hspec as [Hg _].
      destruct (position_of id ts) as [pos|]; [|done]. destruct (decide _); [|done]. cbn [with_groups tab_groups].
      assert (Hne : ts ≠ []) by exact (tk_nonempty _ Hok g ts Hg).
      apply (ok_replace _ _ ts); try done; [|by rewrite move_in_perm]. intros Hz. pose proof (move_in_perm ts pos ix) as Hp.
      rewrite Hz in Hp. by apply Permutation_nil_l in Hp.
    + unfold update_tab_title. destruct (group_with order self id) as [[g ts]|]; [|done]. destruct Hspec as [Hg _].
      destruct (list_find _ ts) as [[pos tab]|] eqn:E; [|done]. destruct (decide _); [done|]. cbn [with_groups tab_groups].
      apply list_find_Some in E as (Hpos & _ & _). assert (Hne : ts ≠ []) by exact (tk_nonempty _ Hok g ts Hg).
      apply (ok_replace _ _ ts); try done; [by destruct ts, pos|].
      change (map tab_id) with (fmap (M := list) tab_id). rewrite list_fmap_insert. cbn [tab_id].
      rewrite list_insert_id; [done|]. by rewrite list_lookup_fmap, Hpos.
  - destruct (remove_tab order self id) as [removed self']. destruct Hrem as (Hok' & _ & Hr). split; [done|].
    destruct removed as [tab|].
    + destruct Hr as (Hid & Hp & _). rewrite decide_True; [by exists tab|]. rewrite Hp. cbn [map]. rewrite Hid. by left.
    + destruct Hr as [Hn ?]. by rewrite decide_False.
  - unfold move_tab_to_new_window. destruct (remove_tab order self id) as [removed self']. destruct Hrem as (Hok' & _ & Hr).
    destruct removed as [tab|].
    + destruct Hr as (Hid & Hp & _). cbv zeta. set (k := match max_key _ with Some _ => _ | None => _ end).
      assert (Hk : tab_groups self' !! k = None).
      { unfold k. destruct (max_key (order (tab_groups self'))) eqn:E; [by apply max_key_fresh|]. by rewrite (max_key_none _ E). }
      cbn [with_groups tab_groups]. pose proof (all_tabs_insert _ _ [tab] Hk) as Hins. cbn [app] in Hins.
      assert (Hok2 : tabs_ok (<[k := [tab]]> (tab_groups self'))).
      { split; [by apply map_Forall_insert_2, Hok'|]. rewrite Hins, <-Hp. apply (tk_unique _ Hok). }
      split; [done|]. split; [by rewrite Hins, Hp|]. intros _. exists tab. unfold tabs.
      rewrite (group_with_of _ _ k [tab]); [done|done|cbn; by rewrite lookup_insert_eq|]. rewrite <-Hid. by left.
    + destruct Hr as [Hn ->]. split; [done|]. by split.
  - unfold merge_all_windows, tabs. destruct (group_with order self id) as [[g ts]|]; cbn [fmap option_fmap option_map snd]; [|by split_and!].
    destruct Hspec as [Hg _]. rewrite merge_fold. cbn [with_groups tab_groups].
    set (rest := filter _ _). assert (Hp : ts ++ rest ≡ₚ all_tabs (tab_groups self)).
    { assert (Hrest : rest ≡ₚ filter (λ tab, tab ∉ ts) (all_tabs (tab_groups self))).
      { unfold rest. apply filter_Permutation. unfold all_tabs. by rewrite groups_perm. }
      rewrite Hrest. rewrite (all_tabs_split _ g ts Hg), filter_app. rewrite filter_none.
      - cbn [app]. f_equiv. rewrite filter_all; [done|]. apply Forall_forall. intros t Ht Hts.
        pose proof (tk_unique _ Hok) as Hu. rewrite (all_tabs_split _ g ts Hg), map_app in Hu. apply NoDup_app in Hu as (_ & Hd & _).
        apply (Hd (tab_id t)); by apply (list_elem_of_fmap_2 tab_id).
      - apply Forall_forall. intros t Ht Hn. done. }
    assert (Hall : all_tabs {[0 := ts ++ rest]} = ts ++ rest) by (unfold all_tabs; rewrite map_to_list_singleton; cbn; by rewrite app_nil_r).
    split; [split|split].
    + apply map_Forall_singleton. assert (Hne : ts ≠ []) by exact (tk_nonempty _ Hok g ts Hg). by destruct ts.
    + rewrite Hall, Hp. apply (tk_unique _ Hok).
    + by rewrite Hall, Hp.
    + intros ts' [= <-]. by exists rest.
Qed.

(** Selecting goes around the tabs of the window's group: the next tab of a window is in its group, and the
    tab before that one is the window again; and the other way around. *)
Theorem tab_selection_cycles self id ts :
  tabs_ok (tab_groups self) → tabs order self id = Some ts →
  (∃ next, select_next_tab order self id = Ok (Some next) ∧ next ∈ map tab_id ts ∧
    select_previous_tab order self next = Ok (Some id)) ∧
  ∃ prev, select_previous_tab order self id = Ok (Some prev) ∧ prev ∈ map tab_id ts ∧
    select_next_tab order self prev = Ok (Some id).
Proof.
  intros Hok Hts. unfold tabs in Hts. pose proof (group_with_spec self id Hok) as Hspec.
  destruct (group_with order self id) as [[g ts']|] eqn:Eg; [|done]. injection Hts as ->. destruct Hspec as [Hg Hid].
  assert (Hu : NoDup (map tab_id ts)).
  { pose proof (tk_unique _ Hok) as Hu. rewrite (all_tabs_split _ g ts Hg), map_app in Hu. by apply NoDup_app in Hu as (? & _). }
  assert (Htabs : ∀ j t, ts !! j = Some t → tabs order self (tab_id t) = Some ts ∧ position_of (tab_id t) ts = Some j).
  { intros j t Hj. assert (Hin : tab_id t ∈ map tab_id ts) by by apply (list_elem_of_fmap_2 tab_id), (list_elem_of_lookup_2 _ j).
    split; [unfold tabs; by rewrite (group_with_of self (tab_id t) g ts Hok Hg Hin)|].
    apply position_of_is_Some in Hin as [k Hk]. rewrite Hk. f_equal.
    apply position_of_Some in Hk as (l1 & t' & l2 & -> & <- & Ht & _). eapply (NoDup_lookup _ _ _ (tab_id t) Hu).
    - change (map tab_id) with (fmap (M := list) tab_id). by rewrite list_lookup_fmap, list_lookup_middle, <-Ht.
    - change (map tab_id) with (fmap (M := list) tab_id). by rewrite list_lookup_fmap, Hj. }
  apply position_of_is_Some in Hid as [i Hi]. pose proof Hi as (l1 & tab & l2 & Hl & Hlen & Htab & _)%position_of_Some.
  assert (Hti : ts !! i = Some tab) by (rewrite Hl, <-Hlen; by rewrite list_lookup_middle).
  assert (Hpos : i < length ts) by by apply lookup_lt_Some in Hti.
  assert (Hnext : ∀ j t, ts !! j = Some t → ∃ t', ts !! ((j + 1) mod length ts) = Some t' ∧ select_next_tab order self (tab_id t) = Ok (Some (tab_id t'))).
  { intros j t Hj. destruct (Htabs j t Hj) as [H1 H2]. destruct (lookup_lt_is_Some_2 ts ((j + 1) mod length ts)) as [t' Ht']; [apply Nat.mod_upper_bound; lia|].
    exists t'. split; [done|]. unfold select_next_tab. rewrite H1, H2. cbn [unwrap mbind outcome_bind]. unfold index. by rewrite Ht'. }
  assert (Hprev : ∀ j t, ts !! j = Some t → ∃ t', ts !! (if decide (j = 0) then length ts - 1 else j - 1) = Some t' ∧
    select_previous_tab order self (tab_id t) = Ok (Some (tab_id t'))).
  { intros j t Hj. destruct (Htabs j t Hj) as [H1 H2]. pose proof (lookup_lt_Some _ _ _ Hj).
    destruct (lookup_lt_is_Some_2 ts (if decide (j = 0) then length ts - 1 else j - 1)) as [t' Ht']; [destruct (decide _); lia|].
    exists t'. split; [done|]. unfold select_previous_tab. rewrite H1, H2. cbn [unwrap mbind outcome_bind]. unfold index. by rewrite Ht'. }
  split.
  - destruct (Hnext i tab Hti) as (t' & Ht' & Hs). exists (tab_id t'). rewrite Htab in Hs. split; [done|].
    split; [by apply (list_elem_of_fmap_2 tab_id), (list_elem_of_lookup_2 _ _ _ Ht')|].
    destruct (Hprev _ _ Ht') as (t2 & Ht2 & ->). assert (Hback : (if decide ((i + 1) mod length ts = 0) then length ts - 1 else (i + 1) mod length ts - 1) = i).
    { destruct (decide (i + 1 = length ts)) as [He|He].
      - rewrite He, Nat.Div0.mod_same. simpl. lia.
      - rewrite Nat.mod_small by lia. rewrite decide_False by lia. lia. }
    rewrite Hback, Hti in Ht2. injection Ht2 as <-. by rewrite Htab.
  - destruct (Hprev i tab Hti) as (t' & Ht' & Hs). exists (tab_id t'). rewrite Htab in Hs. split; [done|].
    split; [by apply (list_elem_of_fmap_2 tab_id), (list_elem_of_lookup_2 _ _ _ Ht')|].
    destruct (Hnext _ _ Ht') as (t2 & Ht2 & ->). assert (Hback : ((if decide (i = 0) then length ts - 1 else i - 1) + 1) mod length ts = i).
    { destruct (decide (i = 0)) as [->|He].
      - replace (length ts - 1 + 1) with (length ts) by lia. apply Nat.Div0.mod_same.
      - replace (i - 1 + 1) with i by lia. by apply Nat.mod_small. }
    rewrite Hback, Hti in Ht2. injection Ht2 as <-. by rewrite Htab.
Qed.
End order.

(** ** Examples *)

(** A map that visits its keys upward. *)
Definition key_order (groups : Groups) : list nat := (map_to_list groups).*1.
Definition tab (id : nat) : SystemWindowTab := mkTab id [] 0.
Definition two_groups : SystemWindowTabController := mkController None {[3 := [tab 1; tab 2]; 7 := [tab 5]]}.
Lemma two_groups_ok : tabs_ok (tab_groups two_groups).
Proof.
  assert (H : bool_decide (map_Forall (λ _ ts, ts ≠ []) (tab_groups two_groups)) = true ∧
    bool_decide (NoDup (map tab_id (all_tabs (tab_groups two_groups)))) = true) by (split; vm_compute; reflexivity).
  destruct H as [H1%bool_decide_eq_true H2%bool_decide_eq_true]. by split.
Qed.
Lemma tab_operations_partition_witness :
  all_tabs (tab_groups (merge_all_windows key_order two_groups 5)) ≡ₚ all_tabs (tab_groups two_groups).
Proof. apply (tab_operations_partition key_order (λ _, reflexivity _) two_groups 5 two_groups_ok). Defined.
Lemma tab_selection_cycles_witness :
  ∃ next, select_next_tab key_order two_groups 1 = Ok (Some next) ∧ next ∈ map tab_id [tab 1; tab 2] ∧
    select_previous_tab key_order two_groups next = Ok (Some 1).
Proof. apply (tab_selection_cycles key_order (λ _, reflexivity _) two_groups 1 [tab 1; tab 2] two_groups_ok eq_refl). Defined.

(** [add_tab] takes the number of groups for the new key: after a group was removed, another one can have that
    key, and its windows are lost. *)
Example add_tab_overwrites :
  let '(_, self) := remove_tab key_order (mkController None {[0 := [tab 1]; 1 := [tab 2]]}) 1 in
  tab_groups (add_tab key_order self 3 [tab 3]) = {[1 := [tab 3]]}.
Proof. vm_compute. reflexivity. Qed.
