(* ===== verification/Scene.v ===== *)
(** The scene of a frame, [crates/gpui/src/scene.rs]: primitives with their orders, layers, replay of a
    part of another scene, and the batches that are handed to the renderer. *)
From Stdlib Require Import NArith String.
From stdpp Require Import pretty.
From S2P Require Import Prelude Geometry BoundsTree Pixels.
Local Open Scope nat_scope.

(** ** Kinds of primitives *)

Module PrimitiveKind.
Inductive t := Shadow | Quad | Path | Underline | MonochromeSprite | SubpixelSprite | PolychromeSprite | Surface.
#[global] Instance eq_dec : EqDecision t.
Proof. solve_decision. Defined.
(** The derived order. *)
Definition rank (k : t) : nat :=
  match k with
  | Shadow => 0 | Quad => 1 | Path => 2 | Underline => 3
  | MonochromeSprite => 4 | SubpixelSprite => 5 | PolychromeSprite => 6 | Surface => 7
  end.
Definition all : list t :=
  [Shadow; Quad; Path; Underline; MonochromeSprite; SubpixelSprite; PolychromeSprite; Surface].
End PrimitiveKind.
Notation Kind := PrimitiveKind.t.

(** One value per kind: the fields [shadows], [quads], ... of [Scene], and those of [BatchIterator]. *)
Record Vecs (X : Type) : Type := vecs {
  shadows : X; quads : X; paths : X; underlines : X;
  monochrome_sprites : X; subpixel_sprites : X; polychrome_sprites : X; surfaces : X;
}.
Arguments vecs {X}.
Arguments shadows {X}.
Arguments quads {X}.
Arguments paths {X}.
Arguments underlines {X}.
Arguments monochrome_sprites {X}.
Arguments subpixel_sprites {X}.
Arguments polychrome_sprites {X}.
Arguments surfaces {X}.

Definition vec {X} (k : Kind) (v : Vecs X) : X :=
  match k with
  | PrimitiveKind.Shadow => shadows v | PrimitiveKind.Quad => quads v
  | PrimitiveKind.Path => paths v | PrimitiveKind.Underline => underlines v
  | PrimitiveKind.MonochromeSprite => monochrome_sprites v
  | PrimitiveKind.SubpixelSprite => subpixel_sprites v
  | PrimitiveKind.PolychromeSprite => polychrome_sprites v
  | PrimitiveKind.Surface => surfaces v
  end.
Definition vecs_of {X} (f : Kind → X) : Vecs X :=
  vecs (f PrimitiveKind.Shadow) (f PrimitiveKind.Quad) (f PrimitiveKind.Path) (f PrimitiveKind.Underline)
    (f PrimitiveKind.MonochromeSprite) (f PrimitiveKind.SubpixelSprite)
    (f PrimitiveKind.PolychromeSprite) (f PrimitiveKind.Surface).
Definition set_vec {X} (k : Kind) (x : X) (v : Vecs X) : Vecs X :=
  vecs_of (λ k', if decide (k' = k) then x else vec k' v).

(** ** Primitives *)

Inductive AtlasTextureKind := Monochrome | Polychrome | Subpixel.
#[export] Instance AtlasTextureKind_eq_dec : EqDecision AtlasTextureKind.
Proof. solve_decision. Defined.
Record AtlasTextureId : Type := mkTexture { texture_index : N; texture_kind : AtlasTextureKind }.
#[export] Instance AtlasTextureId_eq_dec : EqDecision AtlasTextureId.
Proof. solve_decision. Defined.
Record AtlasTile : Type := mkTile { texture_id : AtlasTextureId; tile_id : N; padding : N; tile_bounds : Bounds Z }.

(** [PathVertex] and [Path]; [A] is what the scene does not look at, such as colours.  A content mask
    is its bounds. *)
Record PathVertex (U : Type) : Type := mkVertex { xy_position : Point U; st_position : Point U; vertex_mask : Bounds U }.
Arguments mkVertex {U}.
Arguments xy_position {U}.
Arguments st_position {U}.
Arguments vertex_mask {U}.
Record Path (U A : Type) : Type := mkPath {
  path_id : nat;
  path_order : N;
  path_bounds : Bounds U;
  path_mask : Bounds U;
  vertices : list (PathVertex U);
  path_color : A;
  path_start : Point U;
  path_current : Point U;
  contour_count : nat;
}.
Arguments mkPath {U A}.
Arguments path_id {U A}.
Arguments path_order {U A}.
Arguments path_bounds {U A}.
Arguments path_mask {U A}.
Arguments vertices {U A}.
Arguments path_color {U A}.
Arguments path_start {U A}.
Arguments path_current {U A}.
Arguments contour_count {U A}.

(** What [Shadow], [Quad], [Underline], the sprites and [PaintSurface] have in common. *)
Record Drawn (U A : Type) : Type := mkDrawn { order : N; bounds_of : Bounds U; mask_of : Bounds U; style : A }.
Arguments mkDrawn {U A}.
Arguments order {U A}.
Arguments bounds_of {U A}.
Arguments mask_of {U A}.
Arguments style {U A}.

Module Primitive.
Inductive t (U A : Type) : Type :=
  | Shadow (shadow : Drawn U A)
  | Quad (quad : Drawn U A)
  | Path (path : Path U A)
  | Underline (underline : Drawn U A)
  | MonochromeSprite (sprite : Drawn U A) (tile : AtlasTile)
  | SubpixelSprite (sprite : Drawn U A) (tile : AtlasTile)
  | PolychromeSprite (sprite : Drawn U A) (tile : AtlasTile)
  | Surface (surface : Drawn U A).
Arguments Shadow {U A}.
Arguments Quad {U A}.
Arguments Path {U A}.
Arguments Underline {U A}.
Arguments MonochromeSprite {U A}.
Arguments SubpixelSprite {U A}.
Arguments PolychromeSprite {U A}.
Arguments Surface {U A}.

Definition kind {U A} (self : t U A) : Kind :=
  match self with
  | Shadow _ => PrimitiveKind.Shadow | Quad _ => PrimitiveKind.Quad | Path _ => PrimitiveKind.Path
  | Underline _ => PrimitiveKind.Underline | MonochromeSprite _ _ => PrimitiveKind.MonochromeSprite
  | SubpixelSprite _ _ => PrimitiveKind.SubpixelSprite | PolychromeSprite _ _ => PrimitiveKind.PolychromeSprite
  | Surface _ => PrimitiveKind.Surface
  end.
Definition bounds {U A} (self : t U A) : Bounds U :=
  match self with
  | Path path => path_bounds path
  | Shadow d | Quad d | Underline d | MonochromeSprite d _ | SubpixelSprite d _
  | PolychromeSprite d _ | Surface d => bounds_of d
  end.
Definition content_mask {U A} (self : t U A) : Bounds U :=
  match self with
  | Path path => path_mask path
  | Shadow d | Quad d | Underline d | MonochromeSprite d _ | SubpixelSprite d _
  | PolychromeSprite d _ | Surface d => mask_of d
  end.
Definition draw_order {U A} (self : t U A) : N :=
  match self with
  | Path path => path_order path
  | Shadow d | Quad d | Underline d | MonochromeSprite d _ | SubpixelSprite d _
  | PolychromeSprite d _ | Surface d => order d
  end.
Definition tile {U A} (self : t U A) : option AtlasTile :=
  match self with
  | MonochromeSprite _ tile | SubpixelSprite _ tile | PolychromeSprite _ tile => Some tile
  | _ => None
  end.
(** The order that is assigned on insertion, and the id of a path. *)
Definition set_order {U A} (o : N) (id : nat) (self : t U A) : t U A :=
  let set d := mkDrawn o (bounds_of d) (mask_of d) (style d) in
  match self with
  | Shadow d => Shadow (set d)
  | Quad d => Quad (set d)
  | Path p =>
      Path (mkPath id o (path_bounds p) (path_mask p) (vertices p) (path_color p) (path_start p)
              (path_current p) (contour_count p))
  | Underline d => Underline (set d)
  | MonochromeSprite d tile => MonochromeSprite (set d) tile
  | SubpixelSprite d tile => SubpixelSprite (set d) tile
  | PolychromeSprite d tile => PolychromeSprite (set d) tile
  | Surface d => Surface (set d)
  end.
End Primitive.
Import Primitive.

(** ** The scene *)

(** A stable sort, as [slice::sort_by_key] documents: [le] compares the keys. *)
Fixpoint insert_by {X} (le : X → X → bool) (v : X) (l : list X) : list X :=
  match l with
  | [] => [v]
  | w :: l => if le v w then v :: w :: l else w :: insert_by le v l
  end.
Definition sort_by {X} (le : X → X → bool) (l : list X) : list X := foldr (insert_by le) [] l.

Section scene.
Context {U A : Type} `{!Coord U}.
Local Abbreviation Primitive := (Primitive.t U A).

Inductive PaintOperation : Type :=
  | PaintPrimitive (primitive : Primitive)
  | StartLayer (layer : Bounds U)
  | EndLayer.

Record Scene : Type := mkScene {
  paint_operations : list PaintOperation;
  primitive_bounds : BoundsTree U;
  layer_stack : list N;
  primitives : Vecs (list Primitive);
}.
Implicit Types self : Scene.

Definition scene_default : Scene := mkScene [] default_tree [] (vecs_of (λ _, [])).
Definition scene_clear self : Scene := mkScene [] (clear (primitive_bounds self)) [] (vecs_of (λ _, [])).
Definition scene_len self : nat := length (paint_operations self).

Definition push_layer self (b : Bounds U) : outcome Scene :=
  '(tree, o) ← insert (primitive_bounds self) b;
  Ok (mkScene (paint_operations self ++ [StartLayer b]) tree (layer_stack self ++ [o]) (primitives self)).
Definition pop_layer self : Scene :=
  mkScene (paint_operations self ++ [EndLayer]) (primitive_bounds self) (pop_back (layer_stack self))
    (primitives self).
Definition insert_primitive self (primitive : Primitive) : outcome Scene :=
  let clipped_bounds := intersect (bounds primitive) (content_mask primitive) in
  if is_empty clipped_bounds then Ok self
  else
    '(tree, o) ←
      match last (layer_stack self) with
      | Some o => Ok (primitive_bounds self, o)
      | None => insert (primitive_bounds self) clipped_bounds
      end;
    let primitive := set_order o (length (paths (primitives self))) primitive in
    let k := kind primitive in
    Ok (mkScene (paint_operations self ++ [PaintPrimitive primitive]) tree (layer_stack self)
          (set_vec k (vec k (primitives self) ++ [primitive]) (primitives self))).

(** One operation, and [replay] of a range of those of another scene. *)
Definition apply_operation self (operation : PaintOperation) : outcome Scene :=
  match operation with
  | PaintPrimitive primitive => insert_primitive self primitive
  | StartLayer layer => push_layer self layer
  | EndLayer => Ok (pop_layer self)
  end.
Definition replay self (start end_ : nat) (prev_scene : Scene) : outcome Scene :=
  ops ← slice_to (paint_operations prev_scene) end_;
  ops ← slice_from ops start;
  foldM apply_operation self ops.

(** [finish]: sprites are sorted by their tile as well. *)
Definition order_le (p q : Primitive) : bool := (draw_order p <=? draw_order q)%N.
Definition tile_key (p : Primitive) : N := from_option tile_id 0%N (tile p).
Definition order_tile_le (p q : Primitive) : bool :=
  (draw_order p <? draw_order q)%N
    || (draw_order p =? draw_order q)%N && (tile_key p <=? tile_key q)%N.
Definition is_sprite (k : Kind) : bool :=
  match k with
  | PrimitiveKind.MonochromeSprite | PrimitiveKind.SubpixelSprite | PrimitiveKind.PolychromeSprite => true
  | _ => false
  end.
Definition finish self : Scene :=
  mkScene (paint_operations self) (primitive_bounds self) (layer_stack self)
    (vecs_of (λ k, sort_by (if is_sprite k then order_tile_le else order_le) (vec k (primitives self)))).

End scene.
Arguments PaintOperation U A : clear implicits.
Arguments Scene U A : clear implicits.

(** ** Batches *)

Module PrimitiveBatch.
Inductive t :=
  | Shadows (range : nat * nat)
  | Quads (range : nat * nat)
  | Paths (range : nat * nat)
  | Underlines (range : nat * nat)
  | MonochromeSprites (texture_id : AtlasTextureId) (range : nat * nat)
  | SubpixelSprites (texture_id : AtlasTextureId) (range : nat * nat)
  | PolychromeSprites (texture_id : AtlasTextureId) (range : nat * nat)
  | Surfaces (range : nat * nat).

Definition kind (self : t) : Kind :=
  match self with
  | Shadows _ => PrimitiveKind.Shadow | Quads _ => PrimitiveKind.Quad | Paths _ => PrimitiveKind.Path
  | Underlines _ => PrimitiveKind.Underline | MonochromeSprites _ _ => PrimitiveKind.MonochromeSprite
  | SubpixelSprites _ _ => PrimitiveKind.SubpixelSprite
  | PolychromeSprites _ _ => PrimitiveKind.PolychromeSprite | Surfaces _ => PrimitiveKind.Surface
  end.
Definition range (self : t) : nat * nat :=
  match self with
  | Shadows r | Quads r | Paths r | Underlines r | MonochromeSprites _ r | SubpixelSprites _ r
  | PolychromeSprites _ r | Surfaces r => r
  end.
Definition texture (self : t) : option AtlasTextureId :=
  match self with
  | MonochromeSprites id _ | SubpixelSprites id _ | PolychromeSprites id _ => Some id
  | _ => None
  end.

Local Open Scope string_scope.
Definition label (self : t) : string :=
  let n := pretty ((range self).2 - (range self).1) in
  let sprites name id := name ++ " sprites (" ++ n ++ ") on atlas " ++ pretty (texture_index id) in
  match self with
  | Shadows _ => "shadows (" ++ n ++ ")"
  | Quads _ => "quads (" ++ n ++ ")"
  | Paths _ => "paths (" ++ n ++ ")"
  | Underlines _ => "underlines (" ++ n ++ ")"
  | MonochromeSprites id _ => sprites "monochrome" id
  | SubpixelSprites id _ => sprites "subpixel" id
  | PolychromeSprites id _ => sprites "polychrome" id
  | Surfaces _ => "surfaces (" ++ n ++ ")"
  end.
End PrimitiveBatch.

Section batches.
Context {U A : Type}.
Local Abbreviation Primitive := (Primitive.t U A).

(** [BatchIterator]: for each kind the start of the next batch and what is left of the slice. *)
Definition BatchIterator : Type := Vecs (nat * list Primitive).
Implicit Types self : BatchIterator.
Definition batches (scene : Scene U A) : BatchIterator := vecs_of (λ k, (0, vec k (primitives scene))).

Definition u32_max : N := (2 ^ 32 - 1)%N.
(** Keys, pairs of an order and a kind, with their derived order. *)
Definition key_lt (a b : N * Kind) : bool :=
  (a.1 <? b.1)%N || (a.1 =? b.1)%N && (PrimitiveKind.rank a.2 <? PrimitiveKind.rank b.2).
Definition key_le (a b : N * Kind) : bool := negb (key_lt b a).
Definition peek_key (o : option N * Kind) : N * Kind := (default u32_max o.1, o.2).
Definition orders_and_kinds self : list (option N * Kind) :=
  map (λ k, (draw_order <$> head (vec k self).2, k)) PrimitiveKind.all.

(** The loop of [next_if]: what is taken, and what is left. *)
Fixpoint next_while (f : Primitive → bool) (l : list Primitive) : list Primitive * list Primitive :=
  match l with
  | [] => ([], [])
  | p :: l' => if f p then let '(taken, rest) := next_while f l' in (p :: taken, rest) else ([], l)
  end.

Definition make_batch (k : Kind) (texture_id : option AtlasTextureId) (range : nat * nat) :
    option PrimitiveBatch.t :=
  match k with
  | PrimitiveKind.Shadow => Some (PrimitiveBatch.Shadows range)
  | PrimitiveKind.Quad => Some (PrimitiveBatch.Quads range)
  | PrimitiveKind.Path => Some (PrimitiveBatch.Paths range)
  | PrimitiveKind.Underline => Some (PrimitiveBatch.Underlines range)
  | PrimitiveKind.MonochromeSprite => id ← texture_id; Some (PrimitiveBatch.MonochromeSprites id range)
  | PrimitiveKind.SubpixelSprite => id ← texture_id; Some (PrimitiveBatch.SubpixelSprites id range)
  | PrimitiveKind.PolychromeSprite => id ← texture_id; Some (PrimitiveBatch.PolychromeSprites id range)
  | PrimitiveKind.Surface => Some (PrimitiveBatch.Surfaces range)
  end.
Definition texture_of (p : Primitive) : option AtlasTextureId := texture_id <$> tile p.

Definition next self : outcome (option (PrimitiveBatch.t * BatchIterator)) :=
  let sorted := sort_by (λ a b, key_le (peek_key a) (peek_key b)) (orders_and_kinds self) in
  first ← index sorted 0;
  second ← index sorted 1;
  match first.1 with
  | None => Ok None
  | Some _ =>
      let batch_kind := first.2 in
      let max_order_and_kind := peek_key second in
      let '(start, iter) := vec batch_kind self in
      p ← unwrap (head iter);
      let '(taken, rest) := next_while (λ q,
        key_lt (draw_order q, batch_kind) max_order_and_kind
          && (negb (is_sprite batch_kind) || bool_decide (texture_of q = texture_of p))) (tail iter) in
      let end_ := start + 1 + length taken in
      batch ← unwrap (make_batch batch_kind (texture_of p) (start, end_));
      Ok (Some (batch, set_vec batch_kind (end_, rest) self))
  end.

(** What a renderer collects from the iterator; [fuel] bounds the number of batches. *)
Fixpoint collect (fuel : nat) self : outcome (list PrimitiveBatch.t) :=
  match fuel with
  | O => OutOfFuel
  | S fuel =>
      step ← next self;
      match step with
      | None => Ok []
      | Some (batch, self) => batches ← collect fuel self; Ok (batch :: batches)
      end
  end.
End batches.
