(* ===== verification/SceneFacts.v ===== *)
(** Facts about scenes: the stable sort, the order of the keys, one step of the batch iterator, and what a sequence of paint
    operations leaves in the scene, against a reference that gives each primitive an anchor, which is its layer, or its own
    clip when no layer is open. *)
From Stdlib Require Import NArith Sorted.
From S2P Require Import Prelude Geometry BoundsTree BoundsTreeFacts Scene.
Import Primitive.
Local Open Scope nat_scope.

(** ** Sorting *)

Section sort.
Context {X : Type} (le : X → X → bool).

Lemma insert_by_perm v l : insert_by le v l ≡ₚ v :: l.
Proof.
  induction l as [|w l IH]; [done|]. cbn [insert_by]. destruct (le v w); [done|].
  rewrite IH. apply perm_swap.
Qed.
Lemma sort_by_perm l : sort_by le l ≡ₚ l.
Proof.
  induction l as [|v l IH]; [done|]. unfold sort_by in *. cbn [foldr]. by rewrite insert_by_perm, IH.
Qed.

Context (le_total : ∀ a b, le a b = true ∨ le b a = true)
  (le_trans : ∀ a b c, le a b = true → le b c = true → le a c = true).

Lemma insert_by_sorted v l : StronglySorted (λ a b, le a b = true) l → StronglySorted (λ a b, le a b = true) (insert_by le v l).
Proof using le_total le_trans.
  induction 1 as [|w l Hs IH Hall]; [repeat constructor|]. cbn [insert_by].
  destruct (le v w) eqn:E.
  - constructor; [by constructor|]. constructor; [done|].
    eapply Forall_impl; [exact Hall|]. intros z. by apply le_trans.
  - constructor; [done|]. rewrite insert_by_perm. constructor; [|done].
    by destruct (le_total v w); [congruence|].
Qed.
Lemma sort_by_sorted l : StronglySorted (λ a b, le a b = true) (sort_by le l).
Proof using le_total le_trans. induction l; [constructor|]. by apply insert_by_sorted. Qed.

Lemma strongly_sorted_impl (R R' : X → X → Prop) l :
  (∀ a b, R a b → R' a b) → StronglySorted R l → StronglySorted R' l.
Proof using. intros HR. induction 1; constructor; [done|]. eapply Forall_impl; eauto. Qed.

(** Elements with equal keys keep their order. *)
Lemma insert_by_filter v l (P : X → Prop) `{∀ w, Decision (P w)} :
  (∀ a b, P a → P b → le a b = true) →
  filter P (insert_by le v l) = filter P (v :: l).
Proof using.
  intros HP. induction l as [|w l IH]; [done|]. cbn [insert_by]. destruct (le v w) eqn:E; [done|].
  rewrite filter_cons, IH, !filter_cons. destruct (decide (P v)), (decide (P w)); try done.
  specialize (HP v w). naive_solver congruence.
Qed.
Lemma sort_by_filter l (P : X → Prop) `{∀ w, Decision (P w)} :
  (∀ a b, P a → P b → le a b = true) → filter P (sort_by le l) = filter P l.
Proof using.
  intros HP. induction l as [|v l IH]; [done|]. unfold sort_by in *. cbn [foldr].
  rewrite insert_by_filter, !filter_cons by done. by rewrite IH.
Qed.
End sort.

(** ** Kinds and keys *)

Lemma elem_of_all (k : Kind) : k ∈ PrimitiveKind.all.
Proof. apply list_elem_of_In. destruct k; simpl; tauto. Qed.
Lemma NoDup_all : NoDup PrimitiveKind.all.
Proof. apply (bool_decide_unpack (NoDup PrimitiveKind.all)). reflexivity. Qed.
Lemma rank_inj (k1 k2 : Kind) : PrimitiveKind.rank k1 = PrimitiveKind.rank k2 → k1 = k2.
Proof. by destruct k1, k2. Qed.

Lemma vec_set_vec {X} k k' x (v : Vecs X) : vec k (set_vec k' x v) = if decide (k = k') then x else vec k v.
Proof. by destruct k. Qed.
Lemma vec_vecs_of {X} k (f : Kind → X) : vec k (vecs_of f) = f k.
Proof. by destruct k. Qed.
Lemma vecs_ext {X} (v w : Vecs X) : (∀ k, vec k v = vec k w) → v = w.
Proof.
  intros H. destruct v, w. f_equal; [apply (H PrimitiveKind.Shadow)|apply (H PrimitiveKind.Quad)
    |apply (H PrimitiveKind.Path)|apply (H PrimitiveKind.Underline)|apply (H PrimitiveKind.MonochromeSprite)
    |apply (H PrimitiveKind.SubpixelSprite)|apply (H PrimitiveKind.PolychromeSprite)|apply (H PrimitiveKind.Surface)].
Qed.

Lemma key_le_spec a b :
  key_le a b = true ↔ (a.1 < b.1)%N ∨ a.1 = b.1 ∧ PrimitiveKind.rank a.2 ≤ PrimitiveKind.rank b.2.
Proof.
  unfold key_le, key_lt. rewrite negb_true_iff, orb_false_iff, andb_false_iff, N.ltb_ge, N.eqb_neq, Nat.ltb_ge. lia.
Qed.
Lemma key_lt_spec a b :
  key_lt a b = true ↔ (a.1 < b.1)%N ∨ a.1 = b.1 ∧ PrimitiveKind.rank a.2 < PrimitiveKind.rank b.2.
Proof. unfold key_lt. rewrite orb_true_iff, andb_true_iff, N.ltb_lt, N.eqb_eq, Nat.ltb_lt. done. Qed.
Lemma key_lt_le a b : key_lt a b = true → key_le a b = true.
Proof. rewrite key_le_spec, key_lt_spec. lia. Qed.
Lemma key_le_total a b : key_le a b = true ∨ key_le b a = true.
Proof. rewrite !key_le_spec. lia. Qed.
Lemma key_le_trans a b c : key_le a b = true → key_le b c = true → key_le a c = true.
Proof. rewrite !key_le_spec. lia. Qed.

(** ** The vectors that batches are taken from *)

Section batches.
Context {U A : Type}.
Local Abbreviation Primitive := (Primitive.t U A).
Implicit Types it : @BatchIterator U A.
Implicit Types v : Vecs (list Primitive).

Definition pkey (p : Primitive) : N * Kind := (draw_order p, kind p).
Definition pkey_le (p q : Primitive) : Prop := key_le (pkey p) (pkey q) = true.

(** Each vector holds primitives of its kind, in the order of painting, with orders below the value that
    stands for an iterator at its end. *)
Definition vecs_ok v : Prop :=
  ∀ k, Forall (λ p, kind p = k ∧ (draw_order p < u32_max)%N) (vec k v) ∧
    StronglySorted (λ p q, (draw_order p ≤ draw_order q)%N) (vec k v).

(** The iterator is at [start] of each vector. *)
Definition iter_at v it : Prop := ∀ k, ∃ n, n ≤ length (vec k v) ∧ vec k it = (n, drop n (vec k v)).
Definition left_over it : list Primitive := flat_map (λ k, (vec k it).2) PrimitiveKind.all.

Lemma elem_of_left_over it p : p ∈ left_over it ↔ ∃ k, p ∈ (vec k it).2.
Proof.
  unfold left_over. rewrite elem_of_flat_map. split; [by intros (k & _ & Hp); exists k|].
  intros (k & Hp). exists k. split; [apply elem_of_all|done].
Qed.

Lemma next_while_spec f (l : list Primitive) taken rest :
  next_while f l = (taken, rest) →
  l = taken ++ rest ∧ Forall (λ p, f p = true) taken ∧ match head rest with Some p => f p = false | None => True end.
Proof.
  revert taken rest. induction l as [|p l IH]; intros taken rest E; cbn [next_while] in E; [by simplify_eq|].
  destruct (f p) eqn:Ef; [|by simplify_eq]. destruct (next_while f l) as [t r] eqn:Et. simplify_eq.
  destruct (IH t rest eq_refl) as (-> & Ht & Hr). by split_and!; [|constructor|].
Qed.

(** The sorted keys: the first one belongs to a kind with the least key, and the second one bounds all
    the others. *)
Lemma sorted_keys_spec it :
  ∃ k k2 rest,
    sort_by (λ a b, key_le (peek_key a) (peek_key b)) (orders_and_kinds it)
      = (draw_order <$> head (vec k it).2, k) :: (draw_order <$> head (vec k2 it).2, k2) :: rest ∧
    k2 ≠ k ∧
    (∀ k', key_le (peek_key (draw_order <$> head (vec k it).2, k)) (peek_key (draw_order <$> head (vec k' it).2, k')) = true) ∧
    (∀ k', k' ≠ k → key_le (peek_key (draw_order <$> head (vec k2 it).2, k2)) (peek_key (draw_order <$> head (vec k' it).2, k')) = true).
Proof.
  set (le := λ a b, key_le (peek_key a) (peek_key b)).
  set (g := λ k, (draw_order <$> head (vec k it).2, k)).
  assert (Hp : sort_by le (orders_and_kinds it) ≡ₚ map g PrimitiveKind.all) by apply sort_by_perm.
  assert (Hs : StronglySorted (λ a b, le a b = true) (sort_by le (orders_and_kinds it))).
  { apply sort_by_sorted; unfold le; [intros; apply key_le_total|intros ???; apply key_le_trans]. }
  destruct (sort_by le (orders_and_kinds it)) as [|a [|b rest]] eqn:E; [apply Permutation_length in Hp; done..|].
  assert (Hg : ∀ c, c ∈ a :: b :: rest → ∃ k, c = g k).
  { intros c. rewrite Hp, list_elem_of_In, in_map_iff. intros (k & <- & _). by exists k. }
  assert (Hk : ∀ k, g k ∈ a :: b :: rest).
  { intros k. rewrite Hp, list_elem_of_In, in_map_iff. exists k. split; [done|]. apply list_elem_of_In, elem_of_all. }
  destruct (Hg a) as [k ->]; [left|]. destruct (Hg b) as [k2 ->]; [right; left|].
  assert (Hnd : NoDup (g k :: g k2 :: rest)).
  { rewrite Hp. assert (Inj (=) (=) g) by by intros ?? [= _ ->]. apply (NoDup_fmap_2 g), NoDup_all. }
  apply NoDup_cons in Hnd as [Hn _].
  apply StronglySorted_inv in Hs as [Hs Ha]. apply StronglySorted_inv in Hs as [_ Hb].
  rewrite !Forall_forall in *.
  assert (le_refl : ∀ c, le c c = true) by (intros c; unfold le; apply key_le_spec; lia).
  exists k, k2, rest. split; [done|]. split; [intros ->; apply Hn; left|]. split.
  - intros k'. specialize (Hk k'). apply elem_of_cons in Hk as [Hk|Hk]; [|by apply Ha].
    assert (k' = k) as -> by (by injection Hk). apply le_refl.
  - intros k' Hne. specialize (Hk k'). apply elem_of_cons in Hk as [Hk|Hk]; [by injection Hk|].
    apply elem_of_cons in Hk as [Hk|Hk]; [|by apply Hb]. assert (k' = k2) as -> by (by injection Hk). apply le_refl.
Qed.

Lemma all_split (k : Kind) : PrimitiveKind.all ≡ₚ k :: filter (λ k', k' ≠ k) PrimitiveKind.all.
Proof.
  apply NoDup_Permutation; [apply NoDup_all|..].
  - apply NoDup_cons. rewrite list_elem_of_filter. split; [tauto|]. apply NoDup_filter, NoDup_all.
  - intros k'. rewrite elem_of_cons, list_elem_of_filter. pose proof (elem_of_all k').
    destruct (decide (k' = k)); tauto.
Qed.
Lemma left_over_take it it' k l :
  (vec k it).2 = l ++ (vec k it').2 → (∀ k', k' ≠ k → vec k' it' = vec k' it) →
  left_over it ≡ₚ l ++ left_over it'.
Proof.
  intros Hk Ho. unfold left_over. rewrite (all_split k). cbn [flat_map]. rewrite Hk, <-app_assoc.
  f_equiv. assert (Hf : ∀ ks, Forall (λ k', k' ≠ k) ks →
    flat_map (λ k0, (vec k0 it).2) ks = flat_map (λ k0, (vec k0 it').2) ks).
  { induction 1 as [|k' ks Hne _ IH]; [done|]. cbn [flat_map]. by rewrite IH, Ho. }
  rewrite Hf; [done|]. apply Forall_forall. by intros k' [? _]%list_elem_of_filter.
Qed.

(** What a batch draws, and a step of the iterator. *)
Definition slice_of v (b : PrimitiveBatch.t) : list Primitive :=
  let '(s, e) := PrimitiveBatch.range b in take (e - s) (drop s (vec (PrimitiveBatch.kind b) v)).
Definition drawn v (bs : list PrimitiveBatch.t) : list Primitive := flat_map (slice_of v) bs.

Record step_ok v it (b : PrimitiveBatch.t) it' (p : Primitive) (taken : list Primitive) : Prop := {
  st_iter : iter_at v it';
  st_slice : slice_of v b = p :: taken;
  st_take : (vec (PrimitiveBatch.kind b) it).2 = (p :: taken) ++ (vec (PrimitiveBatch.kind b) it').2;
  st_others : ∀ k, k ≠ PrimitiveBatch.kind b → vec k it' = vec k it;
  st_range : PrimitiveBatch.range b = ((vec (PrimitiveBatch.kind b) it).1, (vec (PrimitiveBatch.kind b) it').1);
  st_least : ∀ q, q ∈ left_over it → pkey_le p q;
  st_before : ∀ q r, q ∈ p :: taken → r ∈ left_over it' → pkey_le q r;
  st_texture : Forall (λ q, texture_of q = PrimitiveBatch.texture b) (p :: taken);
  st_maximal : ∀ q, head (vec (PrimitiveBatch.kind b) it').2 = Some q →
    is_sprite (PrimitiveBatch.kind b) = true ∧ texture_of q ≠ PrimitiveBatch.texture b ∨
    ∃ r, r ∈ left_over it' ∧ key_lt (pkey r) (pkey q) = true;
}.

Lemma make_batch_ok (p : Primitive) range :
  ∃ b, make_batch (kind p) (texture_of p) range = Some b ∧ PrimitiveBatch.kind b = kind p ∧
    PrimitiveBatch.range b = range ∧ PrimitiveBatch.texture b = texture_of p.
Proof. destruct p; eexists; (split; [reflexivity|]); done. Qed.
Lemma texture_of_shape (p q : Primitive) : kind p = kind q → is_sprite (kind p) = false → texture_of p = texture_of q.
Proof. by destruct p, q. Qed.

Context (v : Vecs (list Primitive)) (Hv : vecs_ok v).

Lemma rest_ok it k :
  iter_at v it → Forall (λ p, kind p = k ∧ (draw_order p < u32_max)%N) (vec k it).2 ∧
    StronglySorted (λ p q, (draw_order p ≤ draw_order q)%N) (vec k it).2.
Proof using Hv.
  intros Hi. destruct (Hi k) as (n & Hn & ->). cbn [snd]. destruct (Hv k) as [Hf Hs].
  rewrite <-(take_drop n (vec k v)) in Hf, Hs. apply Forall_app in Hf as [_ Hf].
  by apply StronglySorted_app in Hs as (_ & _ & Hs).
Qed.
Lemma rest_kind it k q : iter_at v it → q ∈ (vec k it).2 → kind q = k ∧ (draw_order q < u32_max)%N.
Proof using Hv. intros Hi Hq. destruct (rest_ok it k Hi) as [Hf _]. rewrite Forall_forall in Hf. by apply Hf. Qed.

Lemma peek_le it k q :
  iter_at v it → q ∈ (vec k it).2 → key_le (peek_key (draw_order <$> head (vec k it).2, k)) (pkey q) = true.
Proof using Hv.
  intros Hi Hq. destruct (rest_kind it k q Hi Hq) as [Hk _]. destruct (rest_ok it k Hi) as [_ Hs].
  destruct (vec k it).2 as [|p l]; [by apply elem_of_nil in Hq|]. apply StronglySorted_inv in Hs as [_ Hs].
  rewrite Forall_forall in Hs. apply key_le_spec. unfold pkey. cbn. rewrite Hk.
  apply elem_of_cons in Hq as [->|Hq]; [by right|]. specialize (Hs q Hq). lia.
Qed.

Lemma next_end it k :
  iter_at v it → (vec k it).2 = [] →
  (∀ k', key_le (peek_key (None, k)) (peek_key (draw_order <$> head (vec k' it).2, k')) = true) →
  left_over it = [].
Proof using Hv.
  intros Hi Hk Hall. destruct (left_over it) as [|q l] eqn:E; [done|].
  assert (Hq : q ∈ left_over it) by (rewrite E; left). apply elem_of_left_over in Hq as (k' & Hq).
  pose proof (key_le_trans _ _ _ (Hall k') (peek_le it k' q Hi Hq)) as Hle.
  destruct (rest_kind it k' q Hi Hq) as [_ Hlt]. apply key_le_spec in Hle. cbn in Hle. lia.
Qed.

Lemma head_elem (l : list Primitive) p : head l = Some p → p ∈ l.
Proof using. destruct l; intros [= ->]. left. Qed.

(** A step, from what the sorted keys and the loop say: [k2] bounds the keys of the other kinds, what is
    taken is below it, and what stops the loop is not or has another texture. *)
Lemma step_ok_intro it k k2 b n p taken left :
  iter_at v it → k2 ≠ k → vec k it = (n, p :: taken ++ left) →
  PrimitiveBatch.kind b = k → PrimitiveBatch.range b = (n, n + 1 + length taken) →
  PrimitiveBatch.texture b = texture_of p →
  (∀ k', key_le (pkey p) (peek_key (draw_order <$> head (vec k' it).2, k')) = true) →
  (∀ k', k' ≠ k → key_le (peek_key (draw_order <$> head (vec k2 it).2, k2))
                         (peek_key (draw_order <$> head (vec k' it).2, k')) = true) →
  (∀ q, q ∈ taken → key_lt (pkey q) (peek_key (draw_order <$> head (vec k2 it).2, k2)) = true ∧
     texture_of q = texture_of p) →
  match head left with
  | Some q => is_sprite k = true ∧ texture_of q ≠ texture_of p ∨
      key_lt (pkey q) (peek_key (draw_order <$> head (vec k2 it).2, k2)) = false
  | None => True
  end →
  step_ok v it b (set_vec k (n + 1 + length taken, left) it) p taken.
Proof using Hv.
  intros Hi Hne Hk Hbk Hbr Hbt Hmin Hsec Htaken Hleft.
  set (it' := set_vec k (n + 1 + length taken, left) it).
  assert (Hk' : vec k it' = (n + 1 + length taken, left)).
  { unfold it'. by rewrite vec_set_vec, decide_True. }
  assert (Ho : ∀ k', k' ≠ k → vec k' it' = vec k' it).
  { intros k' Hn. unfold it'. by rewrite vec_set_vec, decide_False. }
  assert (Hdrop : n ≤ length (vec k v) ∧ drop n (vec k v) = p :: taken ++ left).
  { destruct (Hi k) as (n' & Hn & E). rewrite Hk in E. injection E as -> E. done. }
  destruct Hdrop as [Hn Hdrop].
  assert (Hp : left_over it ≡ₚ (p :: taken) ++ left_over it').
  { apply (left_over_take it it' k); [by rewrite Hk, Hk'|done]. }
  destruct (rest_ok it k Hi) as [_ Hs]. rewrite Hk in Hs. cbn [snd] in Hs.
  assert (Hpq : ∀ k' q, q ∈ (vec k' it).2 → pkey_le p q).
  { intros k' q Hq. eapply key_le_trans; [apply Hmin|]. by apply peek_le. }
  split; rewrite ?Hbk, ?Hk', ?Hk; try done.
  - intros k'. destruct (decide (k' = k)) as [->|Hn']; [|by rewrite Ho].
    exists (n + 1 + length taken). rewrite Hk'. apply (f_equal length) in Hdrop as Hlen.
    rewrite length_drop in Hlen. cbn [length] in Hlen. rewrite length_app in Hlen.
    split; [lia|]. f_equal. rewrite <-Nat.add_assoc, <-drop_drop, Hdrop. cbn [plus drop].
    by rewrite drop_app_length.
  - unfold slice_of. rewrite Hbr, Hbk, Hdrop. replace (n + 1 + length taken - n) with (length (p :: taken)) by (cbn; lia).
    by apply (take_app_length (p :: taken) left).
  - intros q (k' & Hq)%elem_of_left_over. by apply (Hpq k').
  - intros q r Hq (k' & Hr)%elem_of_left_over. destruct (decide (k' = k)) as [->|Hn'].
    + rewrite Hk' in Hr. cbn [snd] in Hr. rewrite app_comm_cons in Hs.
      apply StronglySorted_app in Hs as (Hs & _ & _). specialize (Hs q r Hq Hr).
      destruct (rest_kind it k q Hi) as [Hq1 _]; [rewrite Hk; apply (elem_of_app (p :: taken)); by left|].
      destruct (rest_kind it k r Hi) as [Hr1 _]; [rewrite Hk; apply (elem_of_app (p :: taken)); by right|].
      apply key_le_spec. unfold pkey. cbn. rewrite Hq1, Hr1. lia.
    + rewrite Ho in Hr by done. apply elem_of_cons in Hq as [->|Hq]; [by apply (Hpq k')|].
      destruct (Htaken q Hq) as [Hlt _]. eapply key_le_trans; [by apply key_lt_le|].
      eapply key_le_trans; [by apply (Hsec k')|]. by apply peek_le.
  - rewrite Hbt. constructor; [done|]. apply Forall_forall. intros q Hq. by apply Htaken.
  - cbn [snd]. intros q Hq. rewrite Hq, Hbt in *. destruct Hleft as [Hleft|Hleft]; [by left|right].
    destruct (head (vec k2 it).2) as [r|] eqn:Hr.
    + exists r. split.
      * apply elem_of_left_over. exists k2. rewrite Ho by done. by apply head_elem.
      * destruct (rest_kind it k2 r Hi) as [Hr2 _]; [by apply head_elem|].
        destruct (rest_kind it k q Hi) as [Hq2 _].
        { rewrite Hk. apply (elem_of_app (p :: taken)). right. by apply head_elem. }
        apply not_true_iff_false in Hleft. rewrite key_lt_spec in Hleft |- *. unfold pkey in *. cbn in *.
        rewrite Hr2, Hq2 in *. assert (PrimitiveKind.rank k2 ≠ PrimitiveKind.rank k) by (by intros ?%rank_inj). lia.
    + exfalso. apply not_true_iff_false in Hleft. apply Hleft, key_lt_spec.
      destruct (rest_kind it k q Hi) as [_ Hlt]; [|by left].
      rewrite Hk. apply (elem_of_app (p :: taken)). right. by apply head_elem.
Qed.

End batches.

Section paint.
Context {U A : Type} `{!Coord U}.
Local Abbreviation Primitive := (Primitive.t U A).
Implicit Types self : Scene U A.
Implicit Types ops : list (PaintOperation U A).

Definition clip (p : Primitive) : Bounds U := intersect (bounds p) (content_mask p).
Definition primitive_of (op : PaintOperation U A) : option Primitive :=
  match op with PaintPrimitive p => Some p | _ => None end.
Definition painted self : list Primitive := omap primitive_of (paint_operations self).

(** ** The reference *)

Record Anchors : Type := mkAnchors {
  anchors : list (Bounds U);
  open_layers : list nat;
  painted_at : list (nat * Primitive);
}.
Definition anchor_step (a : Anchors) (op : PaintOperation U A) : Anchors :=
  match op with
  | StartLayer b => mkAnchors (anchors a ++ [b]) (open_layers a ++ [length (anchors a)]) (painted_at a)
  | EndLayer => mkAnchors (anchors a) (pop_back (open_layers a)) (painted_at a)
  | PaintPrimitive p =>
      if is_empty (clip p) then a
      else match last (open_layers a) with
           | Some i => mkAnchors (anchors a) (open_layers a) (painted_at a ++ [(i, p)])
           | None => mkAnchors (anchors a ++ [clip p]) (open_layers a) (painted_at a ++ [(length (anchors a), p)])
           end
  end.
Definition anchors_of ops : Anchors := foldl anchor_step (mkAnchors [] [] []) ops.

Lemma anchors_length ops a : length (anchors (foldl anchor_step a ops)) ≤ length (anchors a) + length ops.
Proof.
  revert a. induction ops as [|op ops IH]; intros a; cbn [foldl length]; [lia|]. rewrite IH.
  enough (length (anchors (anchor_step a op)) ≤ length (anchors a) + 1) by lia.
  destruct op; cbn; rewrite ?length_app; [|cbn; lia..]. case_match; [lia|]. case_match; cbn; rewrite ?length_app; cbn; lia.
Qed.

(** ** Lockstep *)

Definition path_number (p : Primitive) : option nat := match p with Path path => Some (path_id path) | _ => None end.
Definition placed (bs : list (Bounds U)) (ip : nat * Primitive) (q : Primitive) : Prop :=
  ∃ o id, orderings [] bs !! ip.1 = Some o ∧ q = set_order o id ip.2.

Record scene_at (a : Anchors) self : Prop := {
  at_tree : valid (primitive_bounds self) (reverse (zip (anchors a) (orderings [] (anchors a))));
  at_layers : Forall2 (λ i o, orderings [] (anchors a) !! i = Some o) (open_layers a) (layer_stack self);
  at_painted : Forall2 (placed (anchors a)) (painted_at a) (painted self);
  at_vecs : ∀ k, vec k (primitives self) = filter (λ p, kind p = k) (painted self);
  at_paths : omap path_number (painted self) = seq 0 (length (paths (primitives self)));
}.

Lemma kind_set_order o id (p : Primitive) : kind (set_order o id p) = kind p.
Proof. by destruct p. Qed.
Lemma clip_set_order o id (p : Primitive) : clip (set_order o id p) = clip p.
Proof. by destruct p. Qed.
Lemma order_set_order o id (p : Primitive) : draw_order (set_order o id p) = o.
Proof. by destruct p. Qed.
Lemma set_order_twice o id o' id' (p : Primitive) : set_order o id (set_order o' id' p) = set_order o id p.
Proof. by destruct p. Qed.
Lemma path_number_kind (p : Primitive) : path_number p = None ↔ kind p ≠ PrimitiveKind.Path.
Proof. by destruct p. Qed.
Lemma path_number_set_order o id (p : Primitive) :
  path_number (set_order o id p) = if decide (kind p = PrimitiveKind.Path) then Some id else None.
Proof. by destruct p. Qed.

Lemma painted_snoc l op (tree : BoundsTree U) stack prims :
  painted (mkScene (l ++ [op]) tree stack prims)
    = omap primitive_of l ++ match primitive_of op with Some p => [p] | None => [] end.
Proof. unfold painted. cbn. rewrite omap_app. cbn. by destruct (primitive_of op). Qed.

Lemma placed_snoc bs b ip q : placed bs ip q → placed (bs ++ [b]) ip q.
Proof.
  intros (o & id & Ho & ->). exists o, id. split; [|done]. rewrite orderings_snoc. by apply lookup_app_l_Some.
Qed.

Lemma scene_at_clear self : scene_at (anchors_of []) (scene_clear self).
Proof. split; try done; [by left|by intros []]. Qed.

Context `{!CoordLaws U}.

Lemma insert_anchor tree bs b :
  valid tree (reverse (zip bs (orderings [] bs))) → (N.of_nat (length bs) + 1 < 2 ^ 32)%N →
  ∃ tree' o, insert tree b = Ok (tree', o) ∧
    valid tree' (reverse (zip (bs ++ [b]) (orderings [] (bs ++ [b])))) ∧
    orderings [] (bs ++ [b]) !! length bs = Some o.
Proof.
  intros Hv Hlt. set (o := (max_ordering b (reverse (zip bs (orderings [] bs))) + 1)%N).
  assert (Ho : orderings [] (bs ++ [b]) !! length bs = Some o).
  { rewrite orderings_snoc, lookup_app_r, orderings_length, Nat.sub_diag by (by rewrite orderings_length). done. }
  pose proof (orderings_le _ _ _ Ho) as Hle.
  destruct (insert_ok tree _ b Hv) as (tree' & Hi & Hv'); [lia|]. exists tree', o. split_and!; try done.
  rewrite orderings_snoc. rewrite zip_with_app, reverse_app by (by rewrite orderings_length). done.
Qed.

Lemma scene_at_painted a a' self p o id tree :
  scene_at a self → valid tree (reverse (zip (anchors a') (orderings [] (anchors a')))) →
  open_layers a' = open_layers a → (∀ i o, orderings [] (anchors a) !! i = Some o → orderings [] (anchors a') !! i = Some o) →
  (∀ i, painted_at a' = painted_at a ++ [(i, p)] → orderings [] (anchors a') !! i = Some o) →
  (∃ i, painted_at a' = painted_at a ++ [(i, p)]) → id = length (paths (primitives self)) →
  scene_at a' (mkScene (paint_operations self ++ [PaintPrimitive (set_order o id p)]) tree (layer_stack self)
    (set_vec (kind p) (vec (kind p) (primitives self) ++ [set_order o id p]) (primitives self))).
Proof.
  intros Hs Ht Hl Hmono Ho [i Hi] ->. specialize (Ho i Hi). destruct Hs as [_ Hly Hp Hv Hn].
  split; rewrite ?painted_snoc; cbn [primitive_of primitive_bounds layer_stack primitives]; try fold (painted self).
  - done.
  - rewrite Hl. eapply Forall2_impl; [exact Hly|]. auto.
  - rewrite Hi. apply Forall2_app.
    + eapply Forall2_impl; [exact Hp|]. intros [j q] r (o' & id & Ho' & ->). exists o', id. by split; [apply Hmono|].
    + constructor; [|constructor]. by exists o, (length (paths (primitives self))).
  - intros k. rewrite vec_set_vec, filter_app, <-!Hv, filter_cons, kind_set_order.
    destruct (decide (k = kind p)) as [->|Hne]; [by rewrite decide_True|]. rewrite decide_False by congruence. by rewrite app_nil_r.
  - rewrite omap_app, Hn. cbn [omap list_omap]. rewrite path_number_set_order.
    change (paths (set_vec ?k ?l ?v)) with (vec PrimitiveKind.Path (set_vec k l v)). rewrite vec_set_vec.
    destruct (decide (kind p = PrimitiveKind.Path)) as [Hk|Hk].
    + rewrite decide_True, Hk by done. cbn [vec]. rewrite length_app, seq_app. done.
    + rewrite decide_False by congruence. by rewrite app_nil_r.
Qed.

Lemma apply_operation_ok a self op :
  scene_at a self → (N.of_nat (length (anchors a)) + 1 < 2 ^ 32)%N →
  ∃ self', apply_operation self op = Ok self' ∧ scene_at (anchor_step a op) self'.
Proof.
  intros Hs Hlt. destruct op as [p|b|]; cbn [apply_operation anchor_step].
  - unfold insert_primitive. fold (clip p). destruct (is_empty (clip p)); [by exists self|].
    pose proof (at_layers _ _ Hs) as Hly.
    destruct (last (open_layers a)) as [i|] eqn:Hlast.
    + apply last_Some in Hlast as (l' & Hl'). rewrite Hl' in Hly. apply Forall2_app_inv_l in Hly as (s1 & s2 & Hs1 & Hs2 & E).
      inversion Hs2 as [|? o ?? Ho Hnil]; subst. inversion Hnil; subst. rewrite E, last_snoc. cbn [mbind outcome_bind]. cbv zeta. rewrite kind_set_order.
      eexists. split; [done|]. rewrite <-E. apply (scene_at_painted a); try done; [apply Hs| |by exists i].
      cbn. by intros j [_ [= <-]]%app_inj_tail.
    + apply last_None in Hlast. rewrite Hlast in Hly. apply Forall2_nil_inv_l in Hly as E. rewrite E. cbn [last].
      destruct (insert_anchor _ _ (clip p) (at_tree _ _ Hs) Hlt) as (tree & o & -> & Hv & Ho). cbn [mbind outcome_bind]. cbv zeta. rewrite kind_set_order.
      eexists. split; [done|]. rewrite <-E. apply (scene_at_painted a); cbn [anchors open_layers painted_at]; try done.
      * intros j o' Hj. rewrite orderings_snoc. by apply lookup_app_l_Some.
      * by intros j [_ [= <-]]%app_inj_tail.
      * by eexists.
  - unfold push_layer. destruct (insert_anchor _ _ b (at_tree _ _ Hs) Hlt) as (tree & o & -> & Hv & Ho).
    cbn [mbind outcome_bind]. eexists. split; [done|]. destruct Hs as [_ Hly Hp Hvs Hn].
    split; rewrite ?painted_snoc; cbn [primitive_of]; rewrite ?app_nil_r; cbn; try done.
    + apply Forall2_app; [|by repeat constructor]. eapply Forall2_impl; [exact Hly|].
      intros i o' Hi. cbn in *. rewrite orderings_snoc. by apply lookup_app_l_Some.
    + eapply Forall2_impl; [exact Hp|]. intros ??. by apply placed_snoc.
  - unfold pop_layer. eexists. split; [done|]. destruct Hs as [Ht Hly Hp Hvs Hn].
    split; rewrite ?painted_snoc; cbn [primitive_of]; rewrite ?app_nil_r; cbn; try done.
    unfold pop_back. rewrite (Forall2_length _ _ _ Hly). by apply Forall2_take.
Qed.

Lemma paint_ok ops a self :
  scene_at a self → (N.of_nat (length (anchors a) + length ops) < 2 ^ 32)%N →
  ∃ self', foldM apply_operation self ops = Ok self' ∧ scene_at (foldl anchor_step a ops) self'.
Proof.
  revert a self. induction ops as [|op ops IH]; intros a self Hs Hlt; cbn [foldM foldl length] in *; [by exists self|].
  destruct (apply_operation_ok a self op Hs) as (s1 & -> & Hs1); [lia|]. cbn [mbind outcome_bind].
  apply IH; [done|]. pose proof (anchors_length [op] a) as Hl. cbn [foldl length] in Hl. lia.
Qed.
End paint.
