(* ===== verification/SceneTheorems.v ===== *)
(** Theorems about scenes: batches draw every primitive once and in order, replay, and painter's order. *)
From Stdlib Require Import NArith ZArith Sorted String.
From S2P Require Import Prelude Geometry BoundsTree BoundsTreeFacts Scene SceneFacts.
Import Primitive.
Local Open Scope nat_scope.

Section batches.
Context {U A : Type}.
Local Abbreviation Primitive := (Primitive.t U A).
Context (v : Vecs (list Primitive)) (Hv : vecs_ok v).

Lemma next_batch_ok it :
  iter_at v it →
  (next it = Ok None ∧ left_over it = []) ∨
  ∃ b it' p taken, next it = Ok (Some (b, it')) ∧ step_ok v it b it' p taken.
Proof using Hv.
  intros Hi. destruct (sorted_keys_spec it) as (k & k2 & others & Hs & Hne & Hmin & Hsec).
  unfold next. rewrite Hs. cbn [index unwrap lookup list_lookup mbind outcome_bind fst snd].
  destruct (vec k it).2 as [|p rest] eqn:Hrest.
  { left. split; [done|]. eapply next_end; eauto. }
  right. cbn [head fmap option_fmap option_map fst]. destruct (vec k it) as [n l] eqn:Hk. cbn in Hrest. subst l.
  cbn [head unwrap mbind outcome_bind tail].
  set (f := λ q, key_lt (draw_order q, k) _ && _).
  destruct (next_while f rest) as [taken left] eqn:Hw. apply next_while_spec in Hw as (-> & Ht & Hl).
  assert (Hr2 : (vec k it).2 = (p :: taken) ++ left) by by rewrite Hk.
  assert (Hr1 : (vec k it).1 = n) by by rewrite Hk.
  assert (Hin : ∀ q, q ∈ (p :: taken) ++ left → kind q = k ∧ (draw_order q < u32_max)%N).
  { intros q Hq. apply (rest_kind v Hv it k q Hi). by rewrite Hr2. }
  destruct (Hin p) as [Hkp Hop]; [left|].
  destruct (make_batch_ok p (n, n + 1 + length taken)) as (b & Hb & Hbk & Hbr & Hbt).
  rewrite Hkp in Hb, Hbk. rewrite Hb. cbn [unwrap mbind outcome_bind].
  eexists b, _, p, taken. split; [done|].
  apply (step_ok_intro v Hv it k k2 b n p taken left); try done.
  - intros k'. unfold pkey. rewrite Hkp. apply Hmin.
  - intros q Hq. rewrite Forall_forall in Ht. specialize (Ht q Hq). unfold f in Ht. apply andb_true_iff in Ht as [Ht1 Ht2].
    destruct (Hin q) as [Hkq _]; [right; apply elem_of_app; by left|].
    unfold pkey. rewrite Hkq. split; [done|].
    destruct (is_sprite k) eqn:Hsp; [by apply bool_decide_eq_true in Ht2|]. apply texture_of_shape; congruence.
  - destruct left as [|q left]; [done|]. cbn in Hl |- *. unfold f in Hl. apply andb_false_iff in Hl as [Hl|Hl].
    + right. unfold pkey. destruct (Hin q) as [-> _]; [apply elem_of_app; right; left|done].
    + left. by destruct (is_sprite k), (bool_decide_reflect (texture_of q = texture_of p)).
Qed.

(** ** All batches *)

(** Ranges that follow each other from [n] to [len], none of them empty. *)
Fixpoint chained (n len : nat) (rs : list (nat * nat)) : Prop :=
  match rs with
  | [] => n = len
  | (s, e) :: rs => s = n ∧ s < e ∧ chained e len rs
  end.
(** Two batches that could not be drawn as one. *)
Definition apart (b1 b2 : PrimitiveBatch.t) : Prop :=
  ¬ (PrimitiveBatch.kind b1 = PrimitiveBatch.kind b2 ∧ PrimitiveBatch.texture b1 = PrimitiveBatch.texture b2).

Record collected it (bs : list PrimitiveBatch.t) : Prop := {
  co_ranges : ∀ k, chained (vec k it).1 (length (vec k v))
    (map PrimitiveBatch.range (filter (λ b, PrimitiveBatch.kind b = k) bs));
  co_all : drawn v bs ≡ₚ left_over it;
  co_kinds : ∀ k, filter (λ p, kind p = k) (drawn v bs) = (vec k it).2;
  co_sorted : StronglySorted pkey_le (drawn v bs);
  co_texture : Forall (λ b, Forall (λ p, kind p = PrimitiveBatch.kind b ∧ texture_of p = PrimitiveBatch.texture b) (slice_of v b)) bs;
  co_apart : Sorted apart bs;
  co_nonempty : Forall (λ b, slice_of v b ≠ []) bs;
}.

Lemma filter_kind_same (l : list Primitive) k :
  Forall (λ p, kind p = k) l → filter (λ p, kind p = k) l = l.
Proof using. induction 1; [done|]. rewrite filter_cons, decide_True by done. by f_equal. Qed.
Lemma filter_kind_other (l : list Primitive) k k' :
  Forall (λ p, kind p = k) l → k ≠ k' → filter (λ p, kind p = k') l = [].
Proof using. induction 1; intros; [done|]. rewrite filter_cons, decide_False by congruence. auto. Qed.

(** The first batch of the rest starts with the least primitive that is left. *)
Lemma collected_apart it b it' p taken bs :
  iter_at v it → step_ok v it b it' p taken → collected it' bs →
  HdRel apart b bs.
Proof using Hv.
  intros Hi Hst Hc. destruct bs as [|b2 bs]; [constructor|]. constructor. intros [Hk Ht].
  pose proof (co_nonempty _ _ Hc) as Hb2. apply Forall_cons in Hb2 as [Hb2 _]. destruct (slice_of v b2) as [|q l] eqn:Hq; [done|].
  pose proof (co_kinds _ _ Hc (PrimitiveBatch.kind b)) as Hf.
  pose proof (co_texture _ _ Hc) as Htx. apply Forall_cons in Htx as [Htx _]. rewrite Hq in Htx.
  apply Forall_cons in Htx as [[Hqk Hqt] _].
  unfold drawn in Hf. cbn [flat_map] in Hf. rewrite Hq in Hf. cbn [app] in Hf. rewrite filter_cons, decide_True in Hf by congruence.
  destruct (st_maximal _ _ _ _ _ _ Hst q) as [[_ Hne]|(r & Hr & Hlt)].
  - by rewrite <-Hf.
  - congruence.
  - rewrite <-(co_all _ _ Hc) in Hr. pose proof (co_sorted _ _ Hc) as Hs. unfold drawn in Hs, Hr. cbn [flat_map] in Hs, Hr.
    rewrite Hq in Hs, Hr. cbn [app] in Hs, Hr. apply StronglySorted_inv in Hs as [_ Hs].
    apply elem_of_cons in Hr as [->|Hr]; [apply key_lt_spec in Hlt; lia|].
    rewrite Forall_forall in Hs. specialize (Hs r Hr). apply key_lt_spec in Hlt. apply key_le_spec in Hs. lia.
Qed.

Lemma collected_step it b it' p taken bs :
  iter_at v it → step_ok v it b it' p taken → collected it' bs →
  collected it (b :: bs).
Proof using Hv.
  intros Hi Hst Hc. set (k := PrimitiveBatch.kind b).
  assert (Htake : (vec k it).2 = (p :: taken) ++ (vec k it').2) by apply (st_take _ _ _ _ _ _ Hst).
  assert (Hkinds : Forall (λ p, kind p = k) (p :: taken)).
  { apply Forall_forall. intros q Hq. apply (rest_kind v Hv it k q Hi). rewrite Htake.
    apply elem_of_app. by left. }
  assert (Hd : drawn v (b :: bs) = (p :: taken) ++ drawn v bs).
  { unfold drawn. cbn [flat_map]. by rewrite (st_slice _ _ _ _ _ _ Hst). }
  split; rewrite ?Hd.
  - intros k'. rewrite filter_cons. pose proof (co_ranges _ _ Hc k') as Hr. destruct (decide (PrimitiveBatch.kind b = k')) as [<-|Hne].
    + cbn [map]. rewrite (st_range _ _ _ _ _ _ Hst). cbn [chained]. split_and!; [done| |done].
      pose proof (st_take _ _ _ _ _ _ Hst) as Ht. pose proof (st_iter _ _ _ _ _ _ Hst (PrimitiveBatch.kind b)) as (m & Hm & E').
      destruct (Hi (PrimitiveBatch.kind b)) as (n & Hn & E). rewrite E, E' in Ht |- *. cbn [fst snd] in *.
      apply (f_equal length) in Ht. rewrite length_app, !length_drop in Ht. cbn in Ht. lia.
    + by rewrite <-(st_others _ _ _ _ _ _ Hst k') by done.
  - rewrite (co_all _ _ Hc). symmetry. apply (left_over_take it it' k); [exact Htake|apply (st_others _ _ _ _ _ _ Hst)].
  - intros k'. rewrite filter_app, (co_kinds _ _ Hc). destruct (decide (k' = k)) as [->|Hne].
    + rewrite filter_kind_same by done. done.
    + rewrite (filter_kind_other _ k) by done. by rewrite (st_others _ _ _ _ _ _ Hst).
  - apply StronglySorted_app_2; [| |by apply Hc].
    + intros q r Hq Hr. apply (st_before _ _ _ _ _ _ Hst); [done|]. by rewrite <-(co_all _ _ Hc).
    + destruct (rest_ok v Hv it k Hi) as [_ Hs]. rewrite Htake in Hs. apply StronglySorted_app in Hs as (_ & Hs & _).
      clear -Hs Hkinds. revert Hs. induction Hkinds as [|q l Hq Hl IH]; [constructor|]. intros [Hs Hall]%StronglySorted_inv.
      constructor; [by apply IH|]. rewrite Forall_forall in *. intros r Hr. apply key_le_spec. unfold pkey. cbn.
      specialize (Hall r Hr). rewrite Hq, (Hl r Hr). lia.
  - constructor; [|apply Hc]. rewrite (st_slice _ _ _ _ _ _ Hst). pose proof (st_texture _ _ _ _ _ _ Hst) as Ht.
    rewrite Forall_forall in *. intros q Hq. split; [by apply Hkinds|by apply Ht].
  - constructor; [apply Hc|]. by eapply collected_apart.
  - constructor; [by rewrite (st_slice _ _ _ _ _ _ Hst)|apply Hc].
Qed.

Lemma collect_ok fuel it :
  iter_at v it → length (left_over it) < fuel →
  ∃ bs, collect fuel it = Ok bs ∧ collected it bs.
Proof using Hv.
  revert it. induction fuel as [|fuel IH]; intros it Hi Hlen; [lia|]. cbn [collect].
  destruct (next_batch_ok it Hi) as [[-> Hno]|(b & it' & p & taken & -> & Hst)]; cbn [mbind outcome_bind].
  - exists []. split; [done|].
    assert (Hk : ∀ k, (vec k it).2 = []).
    { intros k. destruct (vec k it).2 as [|q l] eqn:E; [done|]. assert (Hq : q ∈ left_over it).
      - apply elem_of_left_over. exists k. rewrite E. left.
      - rewrite Hno in Hq. by apply elem_of_nil in Hq. }
    split; try done; [|by rewrite Hno|constructor..].
    intros k. cbn. destruct (Hi k) as (n & Hn & E). specialize (Hk k). rewrite E in Hk |- *. cbn in *.
    apply (f_equal length) in Hk. rewrite length_drop in Hk. cbn in Hk. lia.
  - destruct (IH it') as (bs & -> & Hc); [apply Hst| |].
    + pose proof (left_over_take it it' _ _ (st_take _ _ _ _ _ _ Hst) (st_others _ _ _ _ _ _ Hst)) as Hp.
      apply Permutation_length in Hp. rewrite length_app in Hp. cbn [length] in Hp. lia.
    + exists (b :: bs). split; [done|]. by eapply collected_step.
Qed.
End batches.

(** ** Properties *)

Section theorems.
Context {U A : Type} `{!Coord U, !CoordLaws U}.
Local Abbreviation Primitive := (Primitive.t U A).
Implicit Types self : Scene U A.
Implicit Types ops : list (PaintOperation U A).

(** Painting a sequence of operations, as a frame does. *)
Definition paint_all self ops : outcome (Scene U A) := foldM apply_operation self ops.

Lemma iter_at_start self : iter_at (primitives self) (batches self).
Proof using. intros k. exists 0. unfold batches. rewrite vec_vecs_of. split; [lia|done]. Qed.
Lemma left_over_kinds it (l : list Primitive) :
  (∀ k, (vec k it).2 ≡ₚ filter (λ p, kind p = k) l) → left_over it ≡ₚ l.
Proof using.
  intros H. assert (Hf : ∀ ks, flat_map (λ k, (vec k it).2) ks ≡ₚ flat_map (λ k, filter (λ p, kind p = k) l) ks).
  { induction ks as [|k ks IH]; [done|]. cbn [flat_map]. by rewrite H, IH. }
  unfold left_over. rewrite Hf. clear H Hf. induction l as [|p l IH].
  - by induction PrimitiveKind.all.
  - rewrite (all_split (kind p)) in IH |- *. cbn [flat_map] in *. rewrite filter_cons, decide_True by done. cbn [app]. f_equiv.
    rewrite <-IH at 2. f_equiv.
    assert (Ho : ∀ ks, Forall (λ k, k ≠ kind p) ks →
      flat_map (λ k, filter (λ q, kind q = k) (p :: l)) ks = flat_map (λ k, filter (λ q, kind q = k) l) ks).
    { induction 1 as [|k ks Hne _ IHk]; [done|]. cbn [flat_map]. by rewrite IHk, filter_cons, decide_False. }
    rewrite Ho; [done|]. apply Forall_forall. by intros k [? _]%list_elem_of_filter.
Qed.

Lemma finish_vec self k : vec k (primitives (finish self)) ≡ₚ vec k (primitives self).
Proof using. unfold finish. cbn [primitives]. rewrite vec_vecs_of. apply sort_by_perm. Qed.
Lemma finish_sorted self k : StronglySorted (λ p q, (draw_order p ≤ draw_order q)%N) (vec k (primitives (finish self))).
Proof using.
  unfold finish. cbn [primitives]. rewrite vec_vecs_of. destruct (is_sprite k).
  - eapply strongly_sorted_impl; [|apply sort_by_sorted]; unfold order_tile_le; intros *;
      rewrite ?orb_true_iff, ?andb_true_iff, ?N.ltb_lt, ?N.eqb_eq, ?N.leb_le; lia.
  - eapply strongly_sorted_impl; [|apply sort_by_sorted]; unfold order_le; intros *; rewrite ?N.leb_le; lia.
Qed.

(** Whatever was painted, [finish] leaves vectors that batches can be taken from. *)
Lemma finish_ok a self :
  scene_at a self → (N.of_nat (length (anchors a)) < u32_max)%N → vecs_ok (primitives (finish self)).
Proof using CoordLaws0.
  intros Hs Hlt k. split; [|apply finish_sorted]. rewrite finish_vec, (at_vecs _ _ Hs). apply Forall_forall.
  intros q [Hk Hq]%list_elem_of_filter. split; [done|].
  apply list_elem_of_lookup in Hq as (j & Hq). destruct (Forall2_lookup_r _ _ _ _ _ (at_painted _ _ Hs) Hq) as ([i p] & _ & o & id & Ho & ->).
  rewrite order_set_order. cbn in Ho. pose proof (orderings_le _ _ _ Ho). apply lookup_lt_Some in Ho. rewrite orderings_length in Ho. lia.
Qed.

(** C14: The batches of a finished scene draw everything once and in order: with vectors that are sorted by
    their orders, which are below the largest [u32], the iterator ends, after at most as many batches as
    there are primitives, and the ranges of the batches of each kind are not empty and follow each other
    through the whole vector.  What is drawn is a permutation of all primitives, sorted by order and then by
    kind, in which those of one kind keep their sequence.  All primitives of a batch have the kind and the
    texture of the batch, and no two adjacent batches could have been one. *)
Theorem batches_exact self fuel :
  let v := primitives self in
  vecs_ok v → length (left_over (batches self)) < fuel →
  ∃ bs, collect fuel (batches self) = Ok bs ∧ length bs ≤ length (left_over (batches self)) ∧
    (∀ k, chained 0 (length (vec k v)) (map PrimitiveBatch.range (filter (λ b, PrimitiveBatch.kind b = k) bs))) ∧
    drawn v bs ≡ₚ left_over (batches self) ∧
    (∀ k, filter (λ p, kind p = k) (drawn v bs) = vec k v) ∧
    StronglySorted pkey_le (drawn v bs) ∧
    Forall (λ b, Forall (λ p, kind p = PrimitiveBatch.kind b ∧ texture_of p = PrimitiveBatch.texture b) (slice_of v b)) bs ∧
    Sorted apart bs.
Proof using.
  intros v Hv Hlen. destruct (collect_ok v Hv fuel (batches self) (iter_at_start self) Hlen) as (bs & Hc & [Hr Ha Hk Hs Ht Hap Hne]).
  exists bs. split_and!; try done.
  - rewrite <-Ha. clear -Hne. induction Hne as [|b bs Hb _ IH]; [cbn; lia|]. unfold drawn in *. cbn [flat_map length].
    rewrite length_app. destruct (slice_of v b); [done|]. cbn [length]. lia.
  - intros k. specialize (Hr k). unfold batches in Hr. by rewrite vec_vecs_of in Hr.
  - intros k. rewrite Hk. unfold batches. by rewrite vec_vecs_of.
Qed.

(** C13: Painter's order: a scene that is cleared and painted with any sequence of operations, of fewer than
    [2 ^ 32 - 1], is painted without a panic.  Its batches draw every primitive whose clip is not empty
    exactly once, and no other, sorted by the orders that the primitives were given.  The order of a
    primitive is that of its anchor, which is the innermost layer that was open, or else its own clip; and
    of two anchors that meet, the later one has the larger order, so that its primitives are drawn over
    those of the earlier one. *)
Theorem painters_order self0 ops :
  (N.of_nat (length ops) < u32_max)%N →
  let a := anchors_of ops in
  ∃ self bs,
    paint_all (scene_clear self0) ops = Ok self ∧
    collect (length (painted self) + 1) (batches (finish self)) = Ok bs ∧
    Forall2 (placed (anchors a)) (painted_at a) (painted self) ∧
    drawn (primitives (finish self)) bs ≡ₚ painted self ∧
    StronglySorted pkey_le (drawn (primitives (finish self)) bs) ∧
    ∀ i j bi bj oi oj, i < j → anchors a !! i = Some bi → anchors a !! j = Some bj →
      orderings [] (anchors a) !! i = Some oi → orderings [] (anchors a) !! j = Some oj →
      intersects bj bi = true → (oi < oj)%N.
Proof using CoordLaws0.
  intros Hlt a. pose proof (anchors_length ops (mkAnchors [] [] [])) as Hlen. fold (anchors_of ops) in Hlen. cbn in Hlen.
  destruct (paint_ok ops (anchors_of []) (scene_clear self0) (scene_at_clear self0)) as (self & Hrun & Hs); [cbn; unfold u32_max in Hlt; lia|].
  change (foldl _ _ ops) with a in Hs. fold a in Hlen.
  assert (Hv : vecs_ok (primitives (finish self))) by (eapply finish_ok; [exact Hs|]; lia).
  assert (Hall : left_over (batches (finish self)) ≡ₚ painted self).
  { apply left_over_kinds. intros k. unfold batches. rewrite vec_vecs_of. cbn [snd]. by rewrite finish_vec, (at_vecs _ _ Hs). }
  destruct (collect_ok _ Hv (length (painted self) + 1) _ (iter_at_start _)) as (bs & Hc & Hco).
  { rewrite Hall. lia. }
  exists self, bs. split_and!; [done..|apply Hs| |apply Hco|].
  - by rewrite (co_all _ _ _ Hco), Hall.
  - intros *. apply orderings_before.
Qed.

(** The primitives of a scene are recorded with their orders, which does not change what they are when they
    are painted again. *)
Lemma insert_primitive_again self o id p : insert_primitive self (set_order o id p) = insert_primitive self p.
Proof using.
  unfold insert_primitive. fold (clip (set_order o id p)). fold (clip p). rewrite clip_set_order.
  destruct (is_empty (clip p)); [done|]. destruct (match last _ with Some _ => _ | None => _ end) as [[tree o']| |]; [|done..].
  cbn [mbind outcome_bind]. by rewrite set_order_twice.
Qed.
Lemma apply_operation_recorded self op self' :
  apply_operation self op = Ok self' →
  (self' = self ∨ ∃ op', paint_operations self' = paint_operations self ++ [op'] ∧ apply_operation self op' = Ok self').
Proof using.
  destruct op as [p|b|]; cbn [apply_operation].
  - unfold insert_primitive at 1. destruct (is_empty _) eqn:He; [intros [= <-]; by left|].
    destruct (match last _ with Some _ => _ | None => _ end) as [[tree o]| |] eqn:E; [|done..].
    cbn [mbind outcome_bind]. intros [= <-]. right. eexists. split; [done|]. cbn [apply_operation].
    rewrite insert_primitive_again. unfold insert_primitive. by rewrite He, E.
  - unfold push_layer. destruct (insert _ b) as [[tree o]| |] eqn:E; [|done..]. cbn [mbind outcome_bind].
    intros [= <-]. right. eexists. split; [done|]. cbn [apply_operation]. unfold push_layer. by rewrite E.
  - intros [= <-]. right. eexists. split; [done|]. done.
Qed.
Lemma recorded_run ops self0 self :
  paint_operations self0 = [] → foldM apply_operation self0 ops = Ok self →
  foldM apply_operation self0 (paint_operations self) = Ok self.
Proof using.
  intros H0. revert self. induction ops as [|op ops IH] using rev_ind; intros self Hrun.
  - injection Hrun as <-. by rewrite H0.
  - rewrite foldM_app in Hrun. destruct (foldM apply_operation self0 ops) as [s1| |] eqn:H1; [|done..].
    cbn [mbind outcome_bind foldM] in Hrun. rename Hrun into H2. destruct (apply_operation s1 op) as [s2| |] eqn:E; [|done..].
    injection H2 as ->. specialize (IH s1 eq_refl). apply apply_operation_recorded in E as [->|(op' & Hop & Ha)]; [done|].
    rewrite Hop. rewrite foldM_app, IH. cbn [mbind outcome_bind foldM]. by rewrite Ha.
Qed.

(** Replaying a whole scene into a cleared one gives the same scene, also when the replayed scene was
    finished: primitives get the same orders and paths the same ids again.  A range that ends past the
    operations panics, and replaying a range is applying its operations. *)
Theorem replay_whole self0 self1 ops self :
  paint_all (scene_clear self0) ops = Ok self →
  replay (scene_clear self1) 0 (scene_len self) (finish self) = Ok self ∧
  (∀ s e, scene_len self < e → replay self1 s e self = Panic) ∧
  (∀ s e, s ≤ e → e ≤ scene_len self →
     replay self1 s e self = paint_all self1 (drop s (take e (paint_operations self)))).
Proof using.
  intros Hrun. split; [|split].
  - apply recorded_run in Hrun; [|done]. unfold replay, scene_len. cbn [finish paint_operations].
    unfold slice_to, slice_from. rewrite decide_True by lia. cbn [mbind outcome_bind]. rewrite decide_True by lia.
    cbn [mbind outcome_bind]. by rewrite take_ge, drop_0 by lia.
  - intros s e He. unfold replay, slice_to. unfold scene_len in He. by rewrite decide_False by lia.
  - intros s e Hs He. unfold replay, slice_to, slice_from. unfold scene_len in He. rewrite decide_True by lia.
    cbn [mbind outcome_bind]. rewrite decide_True by (rewrite length_take; lia). done.
Qed.
End theorems.

(** ** Samples *)

Definition rect (x y w h : Z) : Bounds Z := Geometry.bounds (point x y) (size w h).

Definition demo_quad (o : N) (x y : Z) : Primitive.t Z () :=
  Quad (mkDrawn o (rect x y 10 10) (rect 0 0 100 100) ())%Z.
Definition demo_sprite (o : N) (t : N) (x y : Z) : Primitive.t Z () :=
  MonochromeSprite (mkDrawn o (rect x y 10 10) (rect 0 0 100 100) ())%Z
    (mkTile (mkTexture t Monochrome) t 0 (rect 0 0 1 1)).
(** A quad with a glyph over it, a layer over both with two more, and a quad apart from the rest. *)
Definition demo_ops : list (PaintOperation Z ()) :=
  [PaintPrimitive (demo_quad 0 0 0); PaintPrimitive (demo_sprite 0 1 5 5);
   StartLayer (rect 0 0 50 50);
   PaintPrimitive (demo_sprite 0 2 0 0); PaintPrimitive (demo_sprite 0 1 20 20); PaintPrimitive (demo_quad 0 0 0); EndLayer;
   PaintPrimitive (demo_quad 0 60 60); PaintPrimitive (demo_quad 0 200 0)]%Z.

(** The orders of the primitives, and the batches; the last quad is clipped away. *)
Example demo_batches :
  (self ← foldM apply_operation scene_default demo_ops;
   batches ← collect 10 (batches (finish self));
   Ok (map draw_order (painted self), map PrimitiveBatch.label batches))
  = Ok ([1; 2; 3; 3; 3; 1]%N,
      ["quads (2)"; "monochrome sprites (1) on atlas 1"; "quads (1)"; "monochrome sprites (1) on atlas 1";
       "monochrome sprites (1) on atlas 2"]%string).
Proof. vm_compute. reflexivity. Qed.

Lemma painters_order_witness :
  let a := anchors_of demo_ops in
  ∃ self bs,
    paint_all (scene_clear scene_default) demo_ops = Ok self ∧
    collect (length (painted self) + 1) (batches (finish self)) = Ok bs ∧
    drawn (primitives (finish self)) bs ≡ₚ painted self ∧ length (anchors a) = 4.
Proof.
  assert (Hl : (N.of_nat (length demo_ops) < u32_max)%N) by (vm_compute; reflexivity).
  destruct (painters_order (scene_default (U:=Z) (A:=())) demo_ops Hl) as (self & bs & H1 & H2 & _ & H3 & _).
  exists self, bs. split_and!; [exact H1|exact H2|exact H3|vm_compute; reflexivity].
Defined.

Definition demo_scene : Scene Z () :=
  mkScene [] default_tree [] (vecs [] [demo_quad 1 0 0; demo_quad 3 0 0]%Z [] []
    [demo_sprite 2 1 0 0; demo_sprite 2 2 0 0]%Z [] [] []).
Lemma demo_scene_ok : vecs_ok (primitives demo_scene).
Proof. intros []; (split; [repeat constructor|]); repeat constructor; done. Qed.
Lemma batches_exact_witness :
  ∃ bs, collect 10 (batches demo_scene) = Ok bs ∧
    map PrimitiveBatch.range bs = [(0, 1); (0, 1); (1, 2); (1, 2)] ∧
    drawn (primitives demo_scene) bs ≡ₚ left_over (batches demo_scene).
Proof.
  assert (Hl : length (left_over (batches demo_scene)) < 10) by (apply Nat.ltb_lt; vm_compute; reflexivity).
  destruct (batches_exact demo_scene 10 demo_scene_ok Hl) as (bs & Hc & _ & _ & Hp & _).
  exists bs. split; [exact Hc|]. split; [|exact Hp]. vm_compute in Hc. injection Hc as <-. reflexivity.
Defined.

Lemma replay_whole_witness :
  ∃ self, paint_all (scene_clear scene_default) demo_ops = Ok self ∧
    replay (scene_clear scene_default) 0 (scene_len self) (finish self) = Ok self ∧ scene_len self = 8.
Proof.
  destruct (paint_all (scene_clear (scene_default (U:=Z))) demo_ops) as [self| |] eqn:E;
    [|vm_compute in E; discriminate E..].
  exists self. split; [reflexivity|]. split; [exact (proj1 (replay_whole scene_default scene_default demo_ops self E))|].
  vm_compute in E. injection E as <-. reflexivity.
Defined.
