(* ===== verification/ScenePaths.v ===== *)
(** Vector paths and transformations of [crates/gpui/src/scene.rs]: how a path is built as triangles, its
    bounds, and the composition of transformation matrices. *)
From Stdlib Require Import NArith QArith Qcanon.
From S2P Require Import Prelude Geometry Pixels Scene.
Local Open Scope nat_scope.

(** ** Paths *)

Section paths.
Context {U A : Type} `{!Coord U, !PixelOps U}.
Implicit Types self : Path U A.

Definition at_point (p : Point U) : Bounds U := bounds p size_default.
Definition path_new (color : A) (start : Point U) : Path U A :=
  mkPath 0 0 (at_point start) bounds_default [] color start start 0.

Definition move_to self (to : Point U) : Path U A :=
  mkPath (path_id self) (path_order self) (path_bounds self) (path_mask self) (vertices self)
    (path_color self) to to (contour_count self + 1).
Definition push_triangle self (xy st : Point U * Point U * Point U) : Path U A :=
  let '(xy0, xy1, xy2) := xy in
  let '(st0, st1, st2) := st in
  mkPath (path_id self) (path_order self)
    (union (union (union (path_bounds self) (at_point xy0)) (at_point xy1)) (at_point xy2))
    (path_mask self)
    (vertices self ++ [mkVertex xy0 st0 bounds_default; mkVertex xy1 st1 bounds_default; mkVertex xy2 st2 bounds_default])
    (path_color self) (path_start self) (path_current self) (contour_count self).
Definition with_current self (current : Point U) (count : nat) : Path U A :=
  mkPath (path_id self) (path_order self) (path_bounds self) (path_mask self) (vertices self)
    (path_color self) (path_start self) current count.

(** The triangle between the start of the contour and the line. *)
Definition inside : Point U * Point U * Point U := (point czero pone, point czero pone, point czero pone).
Definition fan self (to : Point U) : Path U A :=
  let self := with_current self (path_current self) (contour_count self + 1) in
  if decide (1 < contour_count self) then push_triangle self (path_start self, path_current self, to) inside else self.
Definition line_to self (to : Point U) : Path U A :=
  let self := fan self to in with_current self to (contour_count self).
Definition curve_to self (to ctrl : Point U) : Path U A :=
  let self := fan self to in
  let self := push_triangle self (path_current self, ctrl, to)
    (point czero czero, point (chalf pone) czero, point pone pone) in
  with_current self to (contour_count self).

Definition clipped_bounds self : Bounds U := intersect (path_bounds self) (path_mask self).

(** [scale] of points, bounds, vertices and paths. *)
Definition scale_point (p : Point U) (factor : U) : Point U := point (pmul (x p) factor) (pmul (y p) factor).
Definition scale_size (s : Size U) (factor : U) : Size U := size (pmul (width s) factor) (pmul (height s) factor).
Definition scale_bounds (b : Bounds U) (factor : U) : Bounds U :=
  bounds (scale_point (origin b) factor) (scale_size (bsize b) factor).
Definition scale_vertex (v : PathVertex U) (factor : U) : PathVertex U :=
  mkVertex (scale_point (xy_position v) factor) (st_position v) (scale_bounds (vertex_mask v) factor).
Definition scale_path self (factor : U) : Path U A :=
  mkPath (path_id self) (path_order self) (scale_bounds (path_bounds self) factor) (scale_bounds (path_mask self) factor)
    (map (λ v, scale_vertex v factor) (vertices self)) (path_color self) (scale_point (path_start self) factor)
    (scale_point (path_current self) factor) (contour_count self).

(** A path as it is built by its callers. *)
Inductive PathOp := MoveTo (to : Point U) | LineTo (to : Point U) | CurveTo (to ctrl : Point U).
Definition apply_op self (op : PathOp) : Path U A :=
  match op with MoveTo to => move_to self to | LineTo to => line_to self to | CurveTo to ctrl => curve_to self to ctrl end.
Definition build_path (color : A) (start : Point U) (ops : list PathOp) : Path U A :=
  foldl apply_op (path_new color start) ops.
Definition target (op : PathOp) : Point U := match op with MoveTo to | LineTo to | CurveTo to _ => to end.
(** The triangles of the operations: a line gives one, except the first operation of a path, and a curve
    one more. *)
Definition triangles (op : PathOp) : nat := match op with MoveTo _ => 0 | LineTo _ => 1 | CurveTo _ _ => 2 end.

(** ** The bounds of a path *)

Context `{!CoordLaws U}.

(** Whoever encloses the bounds encloses the point that the path started with and all its vertices, and the
    other way around. *)
Definition tight self (start : Point U) : Prop :=
  ∀ r, encloses r (path_bounds self) ↔
    encloses r (at_point start) ∧ Forall (λ v, encloses r (at_point (xy_position v))) (vertices self).

Lemma tight_triangle self start xy st : tight self start → tight (push_triangle self xy st) start.
Proof.
  intros Ht r. destruct xy as [[xy0 xy1] xy2], st as [[st0 st1] st2]. cbn [push_triangle path_bounds vertices].
  rewrite !encloses_union, (Ht r), Forall_app, !Forall_cons. cbn [xy_position]. pose proof (Forall_nil_2 (λ v, encloses r (at_point (xy_position v)))). tauto.
Qed.
Lemma tight_fan self start to : tight self start → tight (fan self to) start.
Proof. intros Ht. unfold fan. case_decide; [by apply tight_triangle|done]. Qed.
Lemma tight_op self start op : tight self start → tight (apply_op self op) start.
Proof.
  intros Ht. destruct op as [to|to|to ctrl]; cbn [apply_op]; [done|by apply tight_fan|].
  by apply tight_triangle, tight_fan.
Qed.

Lemma fan_fields self to :
  contour_count (fan self to) = contour_count self + 1 ∧
  path_start (fan self to) = path_start self ∧ path_current (fan self to) = path_current self ∧
  length (vertices (fan self to)) = length (vertices self) + if decide (0 < contour_count self) then 3 else 0.
Proof.
  unfold fan. cbn [with_current contour_count]. destruct (decide (1 < _)), (decide (0 < _)); try lia; cbn;
    rewrite ?length_app; cbn; split_and!; lia || done.
Qed.

Lemma build_snoc color start ops op : build_path color start (ops ++ [op]) = apply_op (build_path color start ops) op.
Proof. unfold build_path. by rewrite foldl_app. Qed.

Lemma build_count color start ops : contour_count (build_path color start ops) = length ops.
Proof.
  induction ops as [|op ops IH] using rev_ind; [done|]. rewrite build_snoc, length_app. cbn [length].
  destruct op as [to|to|to ctrl]; cbn [apply_op]; [cbn; lia|..].
  - change (contour_count (line_to ?p ?q)) with (contour_count (fan p q)). rewrite (proj1 (fan_fields _ _)). lia.
  - change (contour_count (curve_to ?p ?q _)) with (contour_count (fan p q)). rewrite (proj1 (fan_fields _ _)). lia.
Qed.

(** A path that is built by any sequence of operations is made of whole triangles, whose number the
    operations determine; its current point is the target of the last operation, and its bounds are the
    least rectangle around the vertices and the point that the path was created with, which is kept even if
    the path moves away before it draws. *)
Theorem path_bounds_exact color start ops r :
  let path := build_path color start ops in
  (encloses r (path_bounds path) ↔
     encloses r (at_point start) ∧ Forall (λ v, encloses r (at_point (xy_position v))) (vertices path)) ∧
  path_current path = from_option target start (last ops) ∧
  length (vertices path) = 3 * (sum_list (map triangles ops) -
    match ops with (LineTo _ | CurveTo _ _) :: _ => 1 | _ => 0 end).
Proof.
  intros path. split_and!.
  - revert r. unfold path, build_path. fold (tight (foldl apply_op (path_new color start) ops) start).
    induction ops as [|op ops IH] using rev_ind; [intros r; cbn; split; [done|by intros []]|].
    rewrite foldl_app. by apply tight_op.
  - unfold path. destruct ops as [|op ops] using rev_ind; [done|]. rewrite build_snoc, last_snoc. by destruct op.
  - unfold path. clear r path. induction ops as [|op ops IH] using rev_ind; [done|]. rewrite build_snoc.
    assert (Hfan : ∀ p q : Point U, length (vertices (fan (build_path color start ops) q)) =
      length (vertices (build_path color start ops)) + 3 * Nat.min 1 (length ops)).
    { intros p q. rewrite (proj2 (proj2 (proj2 (fan_fields _ _)))), build_count. case_decide; lia. }
    assert (Hsum : sum_list (map triangles (ops ++ [op])) = sum_list (map triangles ops) + triangles op).
    { rewrite map_app, sum_list_with_app. cbn. lia. }
    rewrite Hsum. destruct op as [to|to|to ctrl]; cbn [apply_op triangles].
    + cbn [move_to vertices]. rewrite IH. destruct ops as [|[]]; cbn; lia.
    + change (vertices (line_to ?p ?q)) with (vertices (fan p q)). rewrite (Hfan to to), IH.
      destruct ops as [|[] ops]; cbn; lia.
    + assert (Hc : ∀ p : Path U A, length (vertices (curve_to p to ctrl)) = length (vertices (fan p to)) + 3).
      { intros p. unfold curve_to. cbn. by rewrite length_app. }
      rewrite Hc, (Hfan to to), IH. destruct ops as [|[] ops]; cbn; lia.
Qed.
End paths.
Arguments PathOp U : clear implicits.

(** ** Transformations *)

(** [TransformationMatrix]: the rows of the matrix, and the translation. *)
Record TransformationMatrix (U : Type) : Type := mkMatrix { rotation_scale : (U * U) * (U * U); translation : U * U }.
Arguments mkMatrix {U}.
Arguments rotation_scale {U}.
Arguments translation {U}.

Section transformations.
Context {U : Type} `{!Coord U, !PixelOps U}.
Implicit Types self other : TransformationMatrix U.

Definition unit : TransformationMatrix U := mkMatrix ((pone, czero), (czero, pone)) (czero, czero).
(** The derived [PartialEq]. *)
Definition pair_eq (a b : U * U) : bool := peq a.1 b.1 && peq a.2 b.2.
Definition matrix_eq self other : bool :=
  pair_eq (rotation_scale self).1 (rotation_scale other).1 && pair_eq (rotation_scale self).2 (rotation_scale other).2
    && pair_eq (translation self) (translation other).
Definition compose self other : TransformationMatrix U :=
  if matrix_eq other unit then self
  else
    let '((a00, a01), (a10, a11)) := rotation_scale self in
    let '((b00, b01), (b10, b11)) := rotation_scale other in
    let '(s0, s1) := translation self in
    let '(t0, t1) := translation other in
    mkMatrix
      ((cadd (pmul a00 b00) (pmul a01 b10), cadd (pmul a00 b01) (pmul a01 b11)),
       (cadd (pmul a10 b00) (pmul a11 b10), cadd (pmul a10 b01) (pmul a11 b11)))
      (cadd (cadd s0 (pmul a00 t0)) (pmul a01 t1), cadd (cadd s1 (pmul a10 t0)) (pmul a11 t1)).
Definition translate self (p : Point U) : TransformationMatrix U :=
  compose self (mkMatrix ((pone, czero), (czero, pone)) (x p, y p)).
(** [cos] and [sin] of the [f32] angle. *)
Definition rotate (cos sin : U → U) self (angle : U) : TransformationMatrix U :=
  compose self (mkMatrix ((cos angle, pneg (sin angle)), (sin angle, cos angle)) (czero, czero)).
Definition scale self (s : Size U) : TransformationMatrix U :=
  compose self (mkMatrix ((width s, czero), (czero, height s)) (czero, czero)).
Definition apply_matrix self (p : Point U) : Point U :=
  let '((a00, a01), (a10, a11)) := rotation_scale self in
  let '(t0, t1) := translation self in
  point (cadd (cadd t0 (pmul a00 (x p))) (pmul a01 (y p))) (cadd (cadd t1 (pmul a10 (x p))) (pmul a11 (y p))).
End transformations.

Ltac ring_fields :=
  repeat match goal with
  | |- point _ _ = point _ _ => f_equal
  | |- mkMatrix _ _ = mkMatrix _ _ => f_equal
  | |- (_, _) = (_, _) => f_equal
  end; ring.

Lemma pair_eq_spec (a b : Qc * Qc) : reflect (a = b) (pair_eq a b).
Proof.
  destruct a as [a1 a2], b as [b1 b2]. unfold pair_eq. cbn [fst snd].
  destruct (peq_spec a1 b1), (peq_spec a2 b2); constructor; congruence.
Qed.
Lemma matrix_eq_spec (a b : TransformationMatrix Qc) : reflect (a = b) (matrix_eq a b).
Proof.
  destruct a as [[a1 a2] a3], b as [[b1 b2] b3]. unfold matrix_eq. cbn [rotation_scale translation fst snd].
  destruct (pair_eq_spec a1 b1), (pair_eq_spec a2 b2), (pair_eq_spec a3 b3); constructor; congruence.
Qed.

(** With exact arithmetic composing is applying one after the other, [other] first, which the shortcut
    for the unit matrix does not change; so composition is associative with the unit matrix as its unit,
    and moving, scaling and rotating act on a point before the transformation that they are added to. *)
Theorem transform_compose (self other third : TransformationMatrix Qc) (p q : Point Qc) (s : Size Qc) cos sin angle :
  apply_matrix (compose self other) p = apply_matrix self (apply_matrix other p) ∧
  compose (compose self other) third = compose self (compose other third) ∧
  compose unit self = self ∧ compose self unit = self ∧ apply_matrix unit p = p ∧
  apply_matrix (translate self q) p = apply_matrix self (point (x p + x q) (y p + y q))%Qc ∧
  apply_matrix (scale self s) p = apply_matrix self (point (width s * x p) (height s * y p))%Qc ∧
  apply_matrix (rotate cos sin self angle) p = apply_matrix self
    (point (cos angle * x p - sin angle * y p) (sin angle * x p + cos angle * y p))%Qc.
Proof.
  assert (Hdef : ∀ a b : TransformationMatrix Qc, compose a b =
    let '((a00, a01), (a10, a11)) := rotation_scale a in
    let '((b00, b01), (b10, b11)) := rotation_scale b in
    let '(s0, s1) := translation a in
    let '(t0, t1) := translation b in
    mkMatrix ((a00 * b00 + a01 * b10, a00 * b01 + a01 * b11), (a10 * b00 + a11 * b10, a10 * b01 + a11 * b11))%Qc
      (s0 + a00 * t0 + a01 * t1, s1 + a10 * t0 + a11 * t1)%Qc).
  { intros a b. unfold compose. destruct (matrix_eq_spec b unit) as [->|_]; [|done].
    destruct a as [[[? ?] [? ?]] [? ?]]. cbn [unit rotation_scale translation Geometry.x Geometry.y Geometry.width Geometry.height cadd csub czero pmul pneg pone Qc_coord Qc_pixel_ops]. ring_fields. }
  unfold translate, scale, rotate. rewrite !Hdef.
  destruct self as [[[? ?] [? ?]] [? ?]], other as [[[? ?] [? ?]] [? ?]], third as [[[? ?] [? ?]] [? ?]], p, q, s.
  unfold apply_matrix. cbn [unit rotation_scale translation Geometry.x Geometry.y Geometry.width Geometry.height cadd csub czero pmul pneg pone Qc_coord Qc_pixel_ops]. split_and!; ring_fields.
Qed.
