(* ===== verification/Tracking.v ===== *)
(** Which windows show which entities, [App::record_entities_accessed], [App::notify] and the closing of
    windows of [crates/gpui/src/app.rs], and [WindowInvalidator] of [crates/gpui/src/window.rs]: a notification
    invalidates exactly the windows whose last draw accessed the entity. *)
From stdpp Require Import gmap.
From S2P Require Import Prelude.
Local Open Scope nat_scope.

Section tracking.
Context {K : Type} `{Countable K}.

(** [WindowInvalidatorInner], without the counters of the profiler; [drawing] is a draw phase other than
    [DrawPhase::None]. *)
Record Invalidator : Type := mkInvalidator {
  dirty : bool;
  drawing : bool;
  dirty_views : gset K;
  update_count : nat;
}.
(** The fields of [App] about windows; an invalidator is shared between a window and the map by entity, and is
    named by the id of the window. *)
Record Tracking : Type := mkTracking {
  invalidators : gmap nat Invalidator;
  window_invalidators_by_entity : gmap K (gset nat);
  tracked_entities : gmap nat (gset K);
  current_window_by_entity : gmap K nat;
}.
Implicit Types self : Tracking.

(** [WindowInvalidator::new], [set_dirty], [set_phase], [take_views] and [replace_views]. *)
Definition invalidator_new : Invalidator := mkInvalidator true false ∅ 0.
Definition set_dirty (inner : Invalidator) (d : bool) : Invalidator :=
  mkInvalidator d (drawing inner) (dirty_views inner) (if d then update_count inner + 1 else update_count inner).
Definition set_phase (inner : Invalidator) (phase : bool) : Invalidator :=
  mkInvalidator (dirty inner) phase (dirty_views inner) (update_count inner).
Definition take_views (inner : Invalidator) : gset K * Invalidator :=
  (dirty_views inner, mkInvalidator (dirty inner) (drawing inner) ∅ (update_count inner)).
Definition replace_views (inner : Invalidator) (views : gset K) : Invalidator :=
  mkInvalidator (dirty inner) (drawing inner) views (update_count inner).
(** [invalidate_view]: whether it pushes an effect to notify the observers of the entity, which is also its
    result. *)
Definition invalidate_view (inner : Invalidator) (entity : K) : bool * Invalidator :=
  let inner := mkInvalidator (dirty inner) (drawing inner) ({[entity]} ∪ dirty_views inner) (update_count inner + 1) in
  if drawing inner then (false, inner)
  else (true, mkInvalidator true (drawing inner) (dirty_views inner) (update_count inner)).

Definition tracking_new : Tracking := mkTracking ∅ ∅ ∅ ∅.
Definition tracked self (window : nat) : gset K := default ∅ (tracked_entities self !! window).
Definition windows_of self (entity : K) : gset nat := default ∅ (window_invalidators_by_entity self !! entity).
Definition forget_window (window : nat) (old : gset K) (m : gmap K (gset nat)) : gmap K (gset nat) :=
  map_imap (λ entity windows, Some (if decide (entity ∈ old) then windows ∖ {[window]} else windows)) m.

Definition record_entities_accessed self (window : nat) (entities : gset K) : Tracking :=
  mkTracking (invalidators self)
    (set_fold (λ entity m, <[entity := {[window]} ∪ default ∅ (m !! entity)]> m)
       (forget_window window (tracked self window) (window_invalidators_by_entity self)) entities)
    (<[window := entities]> (tracked_entities self))
    (set_fold (λ entity m, <[entity := window]> m) (current_window_by_entity self) entities).

(** The part of [update_window_id] for a window that was closed. *)
Definition remove_window self (window : nat) : Tracking :=
  match tracked_entities self !! window with
  | Some old =>
      mkTracking (invalidators self) (forget_window window old (window_invalidators_by_entity self))
        (delete window (tracked_entities self))
        (filter (λ '(entity, w), ¬ (entity ∈ old ∧ w = window)) (current_window_by_entity self))
  | None => self
  end.
(** The part of [release_dropped_entities] for one entity. *)
Definition release_entity self (entity : K) : Tracking :=
  mkTracking (invalidators self) (delete entity (window_invalidators_by_entity self)) (tracked_entities self)
    (delete entity (current_window_by_entity self)).
Definition ensure_window self (entity : K) (window : nat) : Tracking :=
  mkTracking (invalidators self) (window_invalidators_by_entity self) (tracked_entities self)
    (<[entity := default window (current_window_by_entity self !! entity)]> (current_window_by_entity self)).
Definition set_window self (entity : K) (window : nat) : Tracking :=
  mkTracking (invalidators self) (window_invalidators_by_entity self) (tracked_entities self)
    (<[entity := window]> (current_window_by_entity self)).
Definition set_invalidator self (window : nat) (inner : Invalidator) : Tracking :=
  mkTracking (<[window := inner]> (invalidators self)) (window_invalidators_by_entity self) (tracked_entities self)
    (current_window_by_entity self).

(** The windows that [notify] invalidates. *)
Definition live_invalidators self (entity : K) : gset nat :=
  filter (λ window, entity ∈ tracked self window) (windows_of self entity).
(** [notify]: invalidates them, in some order; the result says whether the observers are to be notified. *)
Definition invalidate self (entity : K) (window : nat) : bool * Tracking :=
  match invalidators self !! window with
  | Some inner => let '(pushed, inner) := invalidate_view inner entity in (pushed, set_invalidator self window inner)
  | None => (false, self)
  end.
Fixpoint invalidate_all self (entity : K) (windows : list nat) : bool * Tracking :=
  match windows with
  | [] => (false, self)
  | window :: windows =>
      let '(pushed, self) := invalidate self entity window in
      let '(pushed', self) := invalidate_all self entity windows in
      (pushed || pushed', self)
  end.
Definition notify_windows self (entity : K) : bool * Tracking :=
  let live := live_invalidators self entity in
  let '(pushed, self') := if decide (live = ∅) then (true, self) else invalidate_all self entity (elements live) in
  (pushed, mkTracking (invalidators self') (<[entity := windows_of self entity]> (window_invalidators_by_entity self'))
     (tracked_entities self') (current_window_by_entity self')).

(** ** Which windows show an entity *)

(** What happens to the fields. *)
Inductive TrackingEvent : Type :=
  | Drawn (window : nat) (entities : gset K)
  | Closed (window : nat)
  | Released (entity : K)
  | Notified (entity : K)
  | Opened (window : nat)
  | Phase (window : nat) (phase : bool).
Definition track self (ev : TrackingEvent) : Tracking :=
  match ev with
  | Drawn window entities => record_entities_accessed self window entities
  | Closed window => remove_window self window
  | Released entity => release_entity self entity
  | Notified entity => (notify_windows self entity).2
  | Opened window => set_invalidator self window invalidator_new
  | Phase window phase =>
      match invalidators self !! window with
      | Some inner => set_invalidator self window (set_phase inner phase)
      | None => self
      end
  end.

(** The reference: for each window what its last draw accessed, less what was released since. *)
Definition shows (shown : nat → gset K) (ev : TrackingEvent) : nat → gset K :=
  match ev with
  | Drawn window entities => λ w, if decide (w = window) then entities else shown w
  | Closed window => λ w, if decide (w = window) then ∅ else shown w
  | Released entity => λ w, shown w ∖ {[entity]}
  | _ => shown
  end.
Definition shown_after (evs : list TrackingEvent) : nat → gset K := foldl shows (λ _, ∅) evs.

(** The map by entity is exact, and what is shown is tracked. *)
Record tracking_at (shown : nat → gset K) self : Prop := {
  ta_exact : ∀ entity window, window ∈ windows_of self entity ↔ entity ∈ shown window;
  ta_tracked : ∀ window, shown window ⊆ tracked self window;
}.

Lemma forget_lookup window old (m : gmap K (gset nat)) entity :
  default ∅ (forget_window window old m !! entity)
    = if decide (entity ∈ old) then default ∅ (m !! entity) ∖ {[window]} else default ∅ (m !! entity).
Proof.
  unfold forget_window. rewrite map_lookup_imap. destruct (m !! entity) as [ws|]; cbn; [by case_decide|].
  case_decide; [|done]. by rewrite empty_difference_L || set_solver.
Qed.

Lemma add_lookup (window : nat) (m : gmap K (gset nat)) (es : gset K) entity :
  default ∅ (set_fold (λ e m, <[e := {[window]} ∪ default ∅ (m !! e)]> m) m es !! entity)
    = if decide (entity ∈ es) then {[window]} ∪ default ∅ (m !! entity) else default ∅ (m !! entity).
Proof.
  unfold set_fold. cbn. rewrite (decide_ext (entity ∈ es) (entity ∈ elements es)) by (by rewrite elem_of_elements).
  pose proof (NoDup_elements es) as Hnd. induction (elements es) as [|e l IH]; cbn [foldr].
  - by rewrite decide_False by (apply not_elem_of_nil).
  - apply NoDup_cons in Hnd as [Hn Hnd]. specialize (IH Hnd). destruct (decide (e = entity)) as [->|Hne].
    + rewrite lookup_insert_eq. cbn. rewrite IH, decide_False, decide_True; [done|left|done].
    + rewrite lookup_insert_ne, IH by done. apply decide_ext. rewrite elem_of_cons. naive_solver.
Qed.

End tracking.
Arguments Invalidator K {_ _}.
Arguments Tracking K {_ _}.
Arguments TrackingEvent K {_ _}.

Section tracking.
Context {K : Type} `{Countable K}.
Implicit Types self : Tracking K.
Implicit Types shown : nat → gset K.

Lemma windows_of_record self window es entity :
  windows_of (record_entities_accessed self window es) entity
    = let rest := if decide (entity ∈ tracked self window) then windows_of self entity ∖ {[window]} else windows_of self entity in
      if decide (entity ∈ es) then {[window]} ∪ rest else rest.
Proof. unfold windows_of, record_entities_accessed. cbn [window_invalidators_by_entity]. by rewrite add_lookup, forget_lookup. Qed.

Lemma record_at shown self window es :
  tracking_at shown self → tracking_at (shows shown (Drawn window es)) (record_entities_accessed self window es).
Proof.
  intros [He Ht]. split.
  - intros entity w. rewrite windows_of_record. cbn [shows]. specialize (He entity w). specialize (Ht window entity).
    destruct (decide (w = window)) as [->|Hne]; destruct (decide (entity ∈ es)), (decide (entity ∈ tracked self window)); set_solver.
  - intros w. cbn [shows]. unfold tracked, record_entities_accessed. cbn [tracked_entities].
    destruct (decide (w = window)) as [->|Hne]; [by rewrite lookup_insert_eq|]. rewrite lookup_insert_ne by done. apply Ht.
Qed.

Lemma remove_at shown self window :
  tracking_at shown self → tracking_at (shows shown (Closed window)) (remove_window self window).
Proof.
  intros [He Ht]. unfold remove_window. pose proof (Ht window) as Htw. unfold tracked in Htw.
  destruct (tracked_entities self !! window) as [old|] eqn:E; cbn [default] in Htw.
  - split.
    + intros entity w. unfold windows_of. cbn [window_invalidators_by_entity shows]. rewrite forget_lookup. fold (windows_of self entity).
      specialize (He entity w). specialize (Htw entity). case_decide; case_decide; set_solver.
    + intros w. cbn [shows]. unfold tracked. cbn [tracked_entities]. case_decide; [set_solver|].
      rewrite lookup_delete_ne by done. apply Ht.
  - cbn in Htw. split.
    + intros entity w. rewrite He. cbn [shows]. case_decide; [subst; set_solver|done].
    + intros w. cbn [shows]. case_decide; [set_solver|apply Ht].
Qed.

Lemma release_at shown self entity :
  tracking_at shown self → tracking_at (shows shown (Released entity)) (release_entity self entity).
Proof.
  intros [He Ht]. split; cbn [shows].
  - intros e w. unfold windows_of. cbn [release_entity window_invalidators_by_entity]. destruct (decide (e = entity)) as [->|Hne].
    + rewrite lookup_delete_eq. set_solver.
    + rewrite lookup_delete_ne by done. fold (windows_of self e). rewrite He. set_solver.
  - intros w e Hw%elem_of_difference. destruct Hw as [Hw _]. by apply Ht.
Qed.

(** Notifying changes the invalidators only. *)
Lemma invalidate_all_fields self entity ws :
  let self' := (invalidate_all self entity ws).2 in
  window_invalidators_by_entity self' = window_invalidators_by_entity self ∧
  tracked_entities self' = tracked_entities self ∧ current_window_by_entity self' = current_window_by_entity self.
Proof.
  revert self. induction ws as [|w ws IH]; intros self; [done|]. cbn [invalidate_all].
  assert (Hone : let self' := (invalidate self entity w).2 in
    window_invalidators_by_entity self' = window_invalidators_by_entity self ∧
    tracked_entities self' = tracked_entities self ∧ current_window_by_entity self' = current_window_by_entity self).
  { unfold invalidate. destruct (invalidators self !! w) as [inner|]; [|done]. by destruct (invalidate_view inner entity). }
  destruct (invalidate self entity w) as [p1 s1]. cbn in Hone. destruct Hone as (<- & <- & <-).
  specialize (IH s1). by destruct (invalidate_all s1 entity ws).
Qed.

Definition invalidated (entity : K) (inner : Invalidator K) : Invalidator K := (invalidate_view inner entity).2.
Lemma invalidate_all_spec self entity ws :
  NoDup ws →
  let '(pushed, self') := invalidate_all self entity ws in
  (∀ w, invalidators self' !! w = if decide (w ∈ ws) then invalidated entity <$> invalidators self !! w else invalidators self !! w) ∧
  (pushed = true ↔ ∃ w inner, w ∈ ws ∧ invalidators self !! w = Some inner ∧ drawing inner = false).
Proof.
  intros Hnd. revert self. induction Hnd as [|w ws Hw Hnd IH]; intros self; cbn [invalidate_all].
  - split; [intros w; by rewrite decide_False by apply not_elem_of_nil|]. split; [done|]. by intros (? & ? & []%elem_of_nil & _).
  - assert (Hone : let '(p, s) := invalidate self entity w in
      (∀ w', invalidators s !! w' = if decide (w' = w) then invalidated entity <$> invalidators self !! w' else invalidators self !! w') ∧
      (p = true ↔ ∃ inner, invalidators self !! w = Some inner ∧ drawing inner = false)).
    { unfold invalidate. destruct (invalidators self !! w) as [inner|] eqn:E.
      - destruct (invalidate_view inner entity) as [p inner'] eqn:Ei. split.
        + intros w'. cbn. destruct (decide (w' = w)) as [->|Hne]; [|by rewrite lookup_insert_ne by done].
          rewrite lookup_insert_eq, E. cbn. unfold invalidated. by rewrite Ei.
        + unfold invalidate_view in Ei. cbn in Ei. destruct (drawing inner) eqn:Ed; simplify_eq; [split; [done|]|split; [|done]].
          * intros (? & [= <-] & ?). congruence.
          * by exists inner.
      - split; [|split; [done|by intros (? & ? & _)]]. intros w'. case_decide; [subst; by rewrite E|done]. }
    destruct (invalidate self entity w) as [p1 s1]. destruct Hone as [Hinv Hp]. specialize (IH s1).
    destruct (invalidate_all s1 entity ws) as [p2 s2]. destruct IH as [IHi IHp]. split.
    + intros w'. rewrite IHi, !Hinv. destruct (decide (w' = w)) as [->|Hne].
      * rewrite decide_False by done. rewrite decide_True by left. done.
      * destruct (decide (w' ∈ ws)); [rewrite decide_True by (by right)|rewrite decide_False by (by rewrite elem_of_cons; intros [|])]; done.
    + rewrite orb_true_iff, Hp, IHp. split.
      * intros [(inner & E & Hd)|(w' & inner & Hw' & E & Hd)]; [exists w, inner; split; [left|done]|].
        rewrite Hinv, decide_False in E by (by intros ->). exists w', inner. split; [by right|done].
      * intros (w' & inner & [->|Hw']%elem_of_cons & E & Hd); [left; by exists inner|right].
        exists w', inner. rewrite Hinv, decide_False by (by intros ->). done.
Qed.

Lemma notify_fields self entity :
  let self' := (notify_windows self entity).2 in
  (∀ e, windows_of self' e = windows_of self e) ∧ tracked_entities self' = tracked_entities self.
Proof.
  unfold notify_windows. pose proof (invalidate_all_fields self entity (elements (live_invalidators self entity))) as Hf.
  destruct (decide (live_invalidators self entity = ∅)) as [E|E];
    [|destruct (invalidate_all self entity (elements _)) as [p s]; cbn in Hf; destruct Hf as (H1 & H2 & _)];
    cbn [snd window_invalidators_by_entity tracked_entities]; unfold windows_of; split; try done; cbn [window_invalidators_by_entity];
    try rewrite H1; intros e; (destruct (decide (e = entity)) as [->|Hne]; [by rewrite lookup_insert_eq|by rewrite lookup_insert_ne]).
Qed.

Lemma track_at shown self ev : tracking_at shown self → tracking_at (shows shown ev) (track self ev).
Proof.
  intros Hat. destruct ev as [w es|w|e|e|w|w p]; cbn [track]; [by apply record_at|by apply remove_at|by apply release_at|..].
  - destruct (notify_fields self e) as [Hw Ht]. destruct Hat as [He Htr]. split; [intros; by rewrite Hw|].
    intros w. unfold tracked. rewrite Ht. apply Htr.
  - destruct Hat as [He Ht]. by split.
  - destruct Hat as [He Ht]. destruct (invalidators self !! w); by split.
Qed.
Lemma tracking_after (evs : list (TrackingEvent K)) : tracking_at (shown_after evs) (foldl track tracking_new evs).
Proof.
  induction evs as [|ev evs IH] using rev_ind; [by split; [set_solver|]|].
  unfold shown_after in *. rewrite !foldl_app. by apply track_at.
Qed.

(** What a notification does to the invalidator of a window, by whether the window shows the entity. *)
Definition invalidated_by (entity : K) (shows_it : Prop) `{Decision shows_it} (inner inner' : Invalidator K) : Prop :=
  if decide shows_it
  then dirty_views inner' = {[entity]} ∪ dirty_views inner ∧ update_count inner' = update_count inner + 1 ∧
    dirty inner' = (dirty inner || negb (drawing inner)) ∧ drawing inner' = drawing inner
  else inner' = inner.

(** C26: A notification invalidates exactly the windows that show the entity: after any draws, closed windows,
    released entities and notifications, the invalidators of [notify] are those of the windows whose last draw
    accessed the entity.  Each of them has the entity among its dirty views and counts the update, and is
    marked dirty unless it is being drawn; no other window changes.  The observers are notified exactly if no
    window shows the entity, or one that does is not being drawn. *)
Theorem notify_redraws (evs : list (TrackingEvent K)) (entity : K) :
  let self := foldl track tracking_new evs in
  let shown := shown_after evs in
  (∀ w, w ∈ live_invalidators self entity ↔ entity ∈ shown w) ∧
  let '(pushed, self') := notify_windows self entity in
  (∀ w inner, invalidators self !! w = Some inner →
    ∃ inner', invalidators self' !! w = Some inner' ∧ invalidated_by entity (entity ∈ shown w) inner inner') ∧
  (pushed = true ↔ (∀ w, entity ∉ shown w) ∨
    ∃ w inner, entity ∈ shown w ∧ invalidators self !! w = Some inner ∧ drawing inner = false).
Proof.
  intros self shown. unfold invalidated_by. destruct (tracking_after evs) as [He Ht]. fold self shown in He, Ht.
  assert (Hlive : ∀ w, w ∈ live_invalidators self entity ↔ entity ∈ shown w).
  { intros w. unfold live_invalidators. rewrite elem_of_filter, He. specialize (Ht w entity). tauto. }
  split; [exact Hlive|]. unfold notify_windows. destruct (decide (live_invalidators self entity = ∅)) as [E|E].
  - split.
    + intros w inner Hi. exists inner. split; [done|]. rewrite decide_False; [done|]. rewrite <-Hlive, E. set_solver.
    + split; [intros _; left; intros w; rewrite <-Hlive, E; set_solver|done].
  - pose proof (invalidate_all_spec self entity (elements (live_invalidators self entity)) (NoDup_elements _)) as Hall.
    destruct (invalidate_all self entity _) as [p s]. destruct Hall as [Hi Hp]. split.
    + intros w inner Hw. cbn [invalidators]. rewrite Hi, Hw. setoid_rewrite (decide_ext (w ∈ elements (live_invalidators self entity)) (entity ∈ shown w));
        [|by rewrite elem_of_elements, Hlive]. destruct (decide (entity ∈ shown w)); [|by exists inner].
      eexists. split; [done|]. unfold invalidated, invalidate_view. cbn. destruct (drawing inner) eqn:Hd; cbn; rewrite ?Hd, ?orb_false_r, ?orb_true_r; done.
    + rewrite Hp. setoid_rewrite elem_of_elements. setoid_rewrite Hlive. split; [by right|]. intros [Hno|]; [|done].
      destruct E. apply set_eq. intros w. rewrite Hlive. specialize (Hno w). set_solver.
Qed.
End tracking.
