(* ===== verification/Effects.v ===== *)
(** The effect cycle of [App], [crates/gpui/src/app.rs]: updates, the queue of effects, and how it is flushed,
    over the subscriptions, the entity map and the tracking of windows. *)
From stdpp Require Import countable gmap.
From S2P Require Import Prelude Subscription Entities Tracking.
Local Open Scope nat_scope.

Section effects.
Context {S K V Cb Ev : Type} `{SlotKeys S K}.

(** ** State *)

(** The sets whose subscriptions are activated by a deferred effect, and what [Effect::Defer] runs. *)
Inductive DeferredSet := Observers | EventListeners | GlobalObservers.
Inductive Deferred := Callback (callback : Cb) | Activate (set : DeferredSet) (subscriber_id : nat).
(** [Effect]; types are numbers. *)
Inductive Effect :=
  | Notify (emitter : K)
  | Emit (emitter : K) (event_type : nat) (event : Ev)
  | RefreshWindows
  | NotifyGlobalObservers (global_type : nat)
  | Defer (callback : Deferred)
  | EntityCreated (entity : AnyEntity K) (tid : nat) (window : option nat).

Record Queue : Type := mkQueue {
  pending_effects : list Effect;
  pending_notifications : gset K;
  pending_global_notifications : gset nat;
}.
Record SubscriberSets : Type := mkSets {
  observers : SubscriberSet K Cb;
  event_listeners : SubscriberSet K (nat * Cb);
  release_listeners : SubscriberSet K Cb;
  global_observers : SubscriberSet nat Cb;
  new_entity_observers : SubscriberSet nat Cb;
}.
(** The fields of [App] that the effect cycle reads.  [windows] says of each window whether it is refreshing. *)
Record App : Type := mkApp {
  app_entities : EntityMap S K V;
  tracking : Tracking K;
  sets : SubscriberSets;
  queue : Queue;
  windows : gmap nat bool;
  window_update_stack : list nat;
  flushing_effects : bool;
  pending_updates : nat;
}.
Implicit Types cx : App.
Implicit Types q : Queue.

Definition with_map cx m : App :=
  mkApp m (tracking cx) (sets cx) (queue cx) (windows cx) (window_update_stack cx) (flushing_effects cx) (pending_updates cx).
Definition with_tracking cx t : App :=
  mkApp (app_entities cx) t (sets cx) (queue cx) (windows cx) (window_update_stack cx) (flushing_effects cx) (pending_updates cx).
Definition with_sets cx s : App :=
  mkApp (app_entities cx) (tracking cx) s (queue cx) (windows cx) (window_update_stack cx) (flushing_effects cx) (pending_updates cx).
Definition with_queue cx q : App :=
  mkApp (app_entities cx) (tracking cx) (sets cx) q (windows cx) (window_update_stack cx) (flushing_effects cx) (pending_updates cx).
Definition with_flags cx (flushing : bool) (updates : nat) : App :=
  mkApp (app_entities cx) (tracking cx) (sets cx) (queue cx) (windows cx) (window_update_stack cx) flushing updates.
Definition with_ref_counts cx rc : App := with_map cx (with_counts (app_entities cx) rc).
Definition counts_of cx : option (EntityRefCounts S K) := Some (ref_counts (app_entities cx)).

Definition set_observers (s : SubscriberSets) set : SubscriberSets :=
  mkSets set (event_listeners s) (release_listeners s) (global_observers s) (new_entity_observers s).
Definition set_event_listeners (s : SubscriberSets) set : SubscriberSets :=
  mkSets (observers s) set (release_listeners s) (global_observers s) (new_entity_observers s).
Definition set_release_listeners (s : SubscriberSets) set : SubscriberSets :=
  mkSets (observers s) (event_listeners s) set (global_observers s) (new_entity_observers s).
Definition set_global_observers (s : SubscriberSets) set : SubscriberSets :=
  mkSets (observers s) (event_listeners s) (release_listeners s) set (new_entity_observers s).
Definition set_new_entity_observers (s : SubscriberSets) set : SubscriberSets :=
  mkSets (observers s) (event_listeners s) (release_listeners s) (global_observers s) set.

(** An operation on one of the sets. *)
Inductive SubOp :=
  | OnObservers (o : op K Cb)
  | OnEvents (o : op K (nat * Cb))
  | OnReleases (o : op K Cb)
  | OnGlobals (o : op nat Cb)
  | OnCreated (o : op nat Cb).
Definition run_sub (s : SubscriberSets) (o : SubOp) : SubscriberSets :=
  match o with
  | OnObservers o => set_observers s (run_op (observers s) o)
  | OnEvents o => set_event_listeners s (run_op (event_listeners s) o)
  | OnReleases o => set_release_listeners s (run_op (release_listeners s) o)
  | OnGlobals o => set_global_observers s (run_op (global_observers s) o)
  | OnCreated o => set_new_entity_observers s (run_op (new_entity_observers s) o)
  end.
Definition sub cx (o : SubOp) : App := with_sets cx (run_sub (sets cx) o).

(** ** Effects *)

(** [push_effect]; notifications that wait already are not queued again. *)
Definition push_effect q (effect : Effect) : Queue :=
  let push q := mkQueue (pending_effects q ++ [effect]) (pending_notifications q) (pending_global_notifications q) in
  match effect with
  | Notify emitter =>
      if decide (emitter ∈ pending_notifications q) then q
      else push (mkQueue (pending_effects q) ({[emitter]} ∪ pending_notifications q) (pending_global_notifications q))
  | NotifyGlobalObservers g =>
      if decide (g ∈ pending_global_notifications q) then q
      else push (mkQueue (pending_effects q) (pending_notifications q) ({[g]} ∪ pending_global_notifications q))
  | _ => push q
  end.
Definition push cx (effect : Effect) : App := with_queue cx (push_effect (queue cx) effect).

(** [App::notify]. *)
Definition notify cx (entity_id : K) : App :=
  let '(pushed, t) := notify_windows (tracking cx) entity_id in
  let cx := with_tracking cx t in
  if pushed then push cx (Notify entity_id) else cx.

(** [start_update] and [finish_update], over the flush of the queue. *)
Definition start_update cx : App := with_flags cx (flushing_effects cx) (pending_updates cx + 1).
Definition finish_update (flush : App → outcome App) cx : outcome App :=
  cx ← (if negb (flushing_effects cx) && bool_decide (pending_updates cx = 1)
        then cx ← flush (with_flags cx true (pending_updates cx)); Ok (with_flags cx false (pending_updates cx))
        else Ok cx);
  updates ← checked_sub (pending_updates cx) 1;
  Ok (with_flags cx (flushing_effects cx) updates).

(** ** What code does with an [App] *)

(** A subscription, by its set, emitter and id. *)
Inductive SubscriptionId :=
  | Observation (emitter : K) (id : nat)
  | EventSubscription (emitter : K) (id : nat)
  | ReleaseObservation (emitter : K) (id : nat)
  | GlobalObservation (global_type id : nat)
  | CreationObservation (tid id : nat).
Definition unsubscribe_op (s : SubscriptionId) : SubOp :=
  match s with
  | Observation k id => OnObservers (OUnsubscribe k id)
  | EventSubscription k id => OnEvents (OUnsubscribe k id)
  | ReleaseObservation k id => OnReleases (OUnsubscribe k id)
  | GlobalObservation g id => OnGlobals (OUnsubscribe g id)
  | CreationObservation ty id => OnCreated (OUnsubscribe ty id)
  end.

(** The calls that updates and callbacks are made of.  [CGlobal] stands for each of [set_global],
    [global_mut], [default_global], [remove_global] and [update_global], whose value is left out. *)
Inductive Command : Type :=
  | CNotify (id : K)
  | CEmit (id : K) (event_type : nat) (event : Ev)
  | CDefer (callback : Cb)
  | CRefresh
  | CGlobal (global_type : nat)
  | CObserve (id : K) (on_notify : Cb)
  | CSubscribe (id : K) (event_type : nat) (on_event : Cb)
  | CObserveRelease (id : K) (on_release : Cb)
  | CObserveGlobal (global_type : nat) (f : Cb)
  | CObserveNew (tid : nat) (on_new : Cb)
  | CUnsubscribe (s : SubscriptionId)
  | CClone (entity : AnyEntity K)
  | CDrop (entity : AnyEntity K)
  | CDrawn (window : nat) (accessed : gset K)
  | CNew (tid : nat) (build : list Command) (entity : V)
  | CUpdateEntity (handle : AnyEntity K) (update : list Command) (result : V → V)
  | CUpdate (update : list Command).

Definition drop_handle cx (e : AnyEntity K) : outcome App :=
  rc ← drop_entity (counts_of cx) e;
  rc ← unwrap rc;
  Ok (with_ref_counts cx rc).
Definition clone_handle cx (e : AnyEntity K) : outcome App :=
  '(_, rc) ← clone_entity (counts_of cx) e;
  rc ← unwrap rc;
  Ok (with_ref_counts cx rc).

(** A subscription whose activation is deferred: [new_observer], [new_subscription] and [observe_global]. *)
Definition subscribe_deferred cx (set : DeferredSet) (id : nat) (o : SubOp) : App * list SubOp :=
  (push (sub cx o) (Defer (Activate set id)), [o]).
(** The others are active at once. *)
Definition subscribe_active cx (o activate : SubOp) : App * list SubOp := (sub (sub cx o) activate, [o; activate]).
Definition observe_internal cx (id : K) (on_notify : Cb) : App * list SubOp :=
  subscribe_deferred cx Observers (next_subscriber_id (observers (sets cx))) (OnObservers (OInsert id on_notify)).
Definition subscribe_internal cx (id : K) (event_type : nat) (on_event : Cb) : App * list SubOp :=
  subscribe_deferred cx EventListeners (next_subscriber_id (event_listeners (sets cx)))
    (OnEvents (OInsert id (event_type, on_event))).
Definition observe_global cx (global_type : nat) (f : Cb) : App * list SubOp :=
  subscribe_deferred cx GlobalObservers (next_subscriber_id (global_observers (sets cx))) (OnGlobals (OInsert global_type f)).
Definition observe_release cx (id : K) (on_release : Cb) : App * list SubOp :=
  subscribe_active cx (OnReleases (OInsert id on_release))
    (OnReleases (OActivate (next_subscriber_id (release_listeners (sets cx))))).
Definition observe_new cx (tid : nat) (on_new : Cb) : App * list SubOp :=
  subscribe_active cx (OnCreated (OInsert tid on_new))
    (OnCreated (OActivate (next_subscriber_id (new_entity_observers (sets cx))))).
(** [Context::emit], [App::defer], [refresh_windows], and the notification of a changed global. *)
Definition emit cx (id : K) (event_type : nat) (event : Ev) : App := push cx (Emit id event_type event).
Definition defer cx (f : Cb) : App := push cx (Defer (Callback f)).
Definition refresh_windows cx : App := push cx RefreshWindows.
Definition notify_global cx (global_type : nat) : App := push cx (NotifyGlobalObservers global_type).

Section run.
Context (flush : App → outcome App).

(** The new state, and the operations on the sets of subscribers in their order. *)
Fixpoint run_command (c : Command) cx : outcome (App * list SubOp) :=
  let run_all := fix run_all (cs : list Command) cx : outcome (App * list SubOp) :=
    match cs with
    | [] => Ok (cx, [])
    | c :: cs => '(cx, t1) ← run_command c cx; '(cx, t2) ← run_all cs cx; Ok (cx, t1 ++ t2)
    end in
  match c with
  | CNotify id => Ok (notify cx id, [])
  | CEmit id ty ev => Ok (emit cx id ty ev, [])
  | CDefer cb => Ok (defer cx cb, [])
  | CRefresh => Ok (refresh_windows cx, [])
  | CGlobal g => Ok (notify_global cx g, [])
  | CObserve id cb => Ok (observe_internal cx id cb)
  | CSubscribe id ty cb => Ok (subscribe_internal cx id ty cb)
  | CObserveGlobal g cb => Ok (observe_global cx g cb)
  | CObserveRelease id cb => Ok (observe_release cx id cb)
  | CObserveNew ty cb => Ok (observe_new cx ty cb)
  | CUnsubscribe s => Ok (sub cx (unsubscribe_op s), [unsubscribe_op s])
  | CClone e => cx ← clone_handle cx e; Ok (cx, [])
  | CDrop e => cx ← drop_handle cx e; Ok (cx, [])
  | CDrawn w accessed => Ok (with_tracking cx (record_entities_accessed (tracking cx) w accessed), [])
  | CNew ty build entity =>
      let cx := start_update cx in
      let '(slot, m) := reserve (app_entities cx) ty in
      cx ← clone_handle (with_map cx m) slot;
      '(cx, t) ← run_all build cx;
      let cx := push cx (EntityCreated slot ty (last (window_update_stack cx))) in
      let cx := with_map cx (Entities.insert_entity (app_entities cx) slot entity).2 in
      cx ← finish_update flush cx;
      Ok (cx, t)
  | CUpdateEntity handle update result =>
      let cx := start_update cx in
      '(l, m) ← lease (app_entities cx) handle;
      '(cx, t) ← run_all update (with_map cx m);
      m ← end_lease (app_entities cx) (mkLease (result <$> lease_entity l) (lease_id l));
      cx ← finish_update flush (with_map cx m);
      Ok (cx, t)
  | CUpdate update =>
      '(cx, t) ← run_all update (start_update cx);
      cx ← finish_update flush cx;
      Ok (cx, t)
  end.
Fixpoint run_commands (cs : list Command) cx : outcome (App * list SubOp) :=
  match cs with
  | [] => Ok (cx, [])
  | c :: cs => '(cx, t1) ← run_command c cx; '(cx, t2) ← run_commands cs cx; Ok (cx, t1 ++ t2)
  end.

(** ** Applying effects *)

(** What callbacks do is a parameter: the calls of a callback when it is triggered, and whether the handler
    stays; and the handles that an entity owns, which are dropped with it. *)
Inductive Trigger := OnNotify | OnEvent (event : Ev) | OnRelease (entity : V) | OnGlobal | OnDefer
  | OnEntityCreated (entity : AnyEntity K) (window : option nat).
Context (behave : Cb → Trigger → App → list Command * bool) (handles_in : V → list (AnyEntity K)).

Definition call (trigger : Trigger) (cb : Cb) cx : outcome (App * list SubOp * bool) :=
  let '(cmds, keep) := behave cb trigger cx in
  '(cx, t) ← run_commands cmds cx;
  Ok (cx, t, keep).

(** A handler of [observe_internal] and [subscribe_internal]: the emitter is upgraded for the callback. *)
Definition call_upgraded (emitter : K) (trigger : Trigger) (cb : Cb) cx : outcome (App * list SubOp * bool) :=
  match upgrade (counts_of cx) (mkWeak emitter 0 (Some (map_id (app_entities cx)))) with
  | Some (entity, rc) =>
      '(cx, t, keep) ← call trigger cb (with_ref_counts cx rc);
      cx ← drop_handle cx entity;
      Ok (cx, t, keep)
  | None => Ok (cx, [], false)
  end.

(** A handler as the closure that [retain] calls: it runs on the [App] with the current set; once it has
    failed the rest of the loop is skipped. *)
Definition handler {L X} `{Countable L} (put : SubscriberSets → SubscriberSet L X → SubscriberSets) (ops : SubOp → option (op L X))
    (run : X → App → outcome (App * list SubOp * bool))
    (w : outcome App) (st : SubscriberSet L X) (cb : X) : outcome App * list (op L X) * X * bool :=
  match w with
  | Ok cx =>
      match run cb (with_sets cx (put (sets cx) st)) with
      | Ok (cx, t, keep) => (Ok cx, omap ops t, cb, keep)
      | Panic => (Panic, [], cb, true)
      | OutOfFuel => (OutOfFuel, [], cb, true)
      end
  | _ => (w, [], cb, true)
  end.
Definition notify_all {L X} `{Countable L} (get : SubscriberSets → SubscriberSet L X) (put : SubscriberSets → SubscriberSet L X → SubscriberSets)
    (ops : SubOp → option (op L X)) (run : X → App → outcome (App * list SubOp * bool)) (emitter : L) cx : outcome App :=
  let '(w, st) := retain (handler put ops run) emitter (Ok cx) (get (sets cx)) in
  cx ← w;
  Ok (with_sets cx (put (sets cx) st)).

Definition observers_op (o : SubOp) : option (op K Cb) := match o with OnObservers o => Some o | _ => None end.
Definition events_op (o : SubOp) : option (op K (nat * Cb)) := match o with OnEvents o => Some o | _ => None end.
Definition globals_op (o : SubOp) : option (op nat Cb) := match o with OnGlobals o => Some o | _ => None end.
Definition created_op (o : SubOp) : option (op nat Cb) := match o with OnCreated o => Some o | _ => None end.

Definition apply_notify_effect (emitter : K) cx : outcome App :=
  let q := queue cx in
  let cx := with_queue cx (mkQueue (pending_effects q) (pending_notifications q ∖ {[emitter]}) (pending_global_notifications q)) in
  notify_all observers set_observers observers_op (call_upgraded emitter OnNotify) emitter cx.
Definition apply_emit_effect (emitter : K) (event_type : nat) (event : Ev) cx : outcome App :=
  notify_all event_listeners set_event_listeners events_op (λ '(stored_type, cb) cx,
    if decide (stored_type = event_type) then call_upgraded emitter (OnEvent event) cb cx else Ok (cx, [], true)) emitter cx.
Definition apply_refresh_effect cx : App :=
  mkApp (app_entities cx)
    (foldl (λ t w, match invalidators t !! w with Some inner => set_invalidator t w (set_dirty inner true) | None => t end)
       (tracking cx) (elements (dom (windows cx))))
    (sets cx) (queue cx) ((λ _, true) <$> windows cx) (window_update_stack cx) (flushing_effects cx) (pending_updates cx).
Definition apply_notify_global_observers_effect (type_id : nat) cx : outcome App :=
  let q := queue cx in
  let cx := with_queue cx (mkQueue (pending_effects q) (pending_notifications q) (pending_global_notifications q ∖ {[type_id]})) in
  notify_all global_observers set_global_observers globals_op
    (λ cb cx, '(cx, t, _) ← call OnGlobal cb cx; Ok (cx, t, true)) type_id cx.
Definition activation (set : DeferredSet) (id : nat) : SubOp :=
  match set with
  | Observers => OnObservers (OActivate id)
  | EventListeners => OnEvents (OActivate id)
  | GlobalObservers => OnGlobals (OActivate id)
  end.
Definition apply_defer_effect (callback : Deferred) cx : outcome App :=
  match callback with
  | Callback cb => '(cx, _, _) ← call OnDefer cb cx; Ok cx
  | Activate set id => Ok (sub cx (activation set id))
  end.
(** The handle of the effect is dropped at its end. *)
Definition apply_entity_created_effect (entity : AnyEntity K) (tid : nat) (window : option nat) cx : outcome App :=
  let cx := match window with Some w => with_tracking cx (set_window (tracking cx) (entity_id entity) w) | None => cx end in
  cx ← notify_all new_entity_observers set_new_entity_observers created_op (λ cb cx,
    cx ← clone_handle cx entity;
    '(cx, t, _) ← call (OnEntityCreated entity window) cb cx;
    cx ← drop_handle cx entity;
    Ok (cx, t, true)) tid cx;
  drop_handle cx entity.
Definition apply_effect (effect : Effect) cx : outcome App :=
  match effect with
  | Notify emitter => apply_notify_effect emitter cx
  | Emit emitter event_type event => apply_emit_effect emitter event_type event cx
  | RefreshWindows => Ok (apply_refresh_effect cx)
  | NotifyGlobalObservers global_type => apply_notify_global_observers_effect global_type cx
  | Defer callback => apply_defer_effect callback cx
  | EntityCreated entity tid window => apply_entity_created_effect entity tid window cx
  end.

(** [release_dropped_entities]: one entity, and the loop. *)
Definition release_one cx (dropped : K * V) : outcome App :=
  let '(id, entity) := dropped in
  let s := sets cx in
  let s := set_observers s (remove_emitter id (observers s)).2 in
  let s := set_event_listeners s (remove_emitter id (event_listeners s)).2 in
  let '(callbacks, releases) := remove_emitter id (release_listeners s) in
  let cx := with_sets cx (set_release_listeners s releases) in
  let cx := with_tracking cx (release_entity (tracking cx) id) in
  cx ← foldM (λ cx cb, '(cx, _, _) ← call (OnRelease entity) cb cx; Ok cx) cx callbacks;
  foldM drop_handle cx (handles_in entity).
Fixpoint release_dropped_entities (fuel : nat) cx : outcome App :=
  match fuel with
  | O => OutOfFuel
  | Datatypes.S fuel =>
      '(dropped, m) ← take_dropped (app_entities cx);
      let cx := with_map cx m in
      match dropped with
      | [] => Ok cx
      | _ => cx ← foldM release_one cx dropped; release_dropped_entities fuel cx
      end
  end.
End run.

(** [flush_effects]; [fuel] bounds the number of effects and of rounds of releases. *)
Section flush.
Context (behave : Cb → Trigger → App → list Command * bool) (handles_in : V → list (AnyEntity K)).
Definition pop_front q : Queue := mkQueue (tail (pending_effects q)) (pending_notifications q) (pending_global_notifications q).
Fixpoint flush_effects (fuel : nat) cx : outcome App :=
  match fuel with
  | O => OutOfFuel
  | Datatypes.S fuel =>
      cx ← release_dropped_entities (flush_effects fuel) behave handles_in fuel cx;
      match head (pending_effects (queue cx)) with
      | Some effect =>
          cx ← apply_effect (flush_effects fuel) behave effect (with_queue cx (pop_front (queue cx)));
          flush_effects fuel cx
      | None => Ok cx
      end
  end.
(** [App::update]. *)
Definition update (fuel : nat) (cmds : list Command) cx : outcome App :=
  '(cx, _) ← run_commands (flush_effects fuel) cmds (start_update cx);
  finish_update (flush_effects fuel) cx.
End flush.
End effects.
