(* ===== verification/EffectsFacts.v ===== *)
(** Facts about the effect cycle: what code does to an [App] while effects are flushed, as a relation of
    small steps, and invariants of the flush. *)
From stdpp Require Import countable gmap.
From S2P Require Import Prelude Subscription SubscriptionFacts Entities Tracking Effects.
Local Open Scope nat_scope.

(** A property of what [retain] has captured and the set, which does not look at the subscribers. *)
Lemma retain_preserves {L X W} `{Countable L} (f : W → SubscriberSet L X → X → W * list (op L X) * X * bool)
    (J : W → SubscriberSet L X → Prop) k w st :
  (∀ w st cb w' os cb' keep, J w st → f w st cb = (w', os, cb', keep) → J w' (foldl run_op st os)) →
  (∀ w m m' n a d, J w (mkSet m n a d) → J w (mkSet m' n a d)) →
  J w st → let '(w', st') := retain f k w st in J w' st'.
Proof.
  intros Hf Hm HJ. unfold retain. destruct (subscribers st !! k) as [[m|]|]; [|done..].
  assert (Hloop : ∀ m w st, J w st → let '(w', st', _) := retain_loop f w st m in J w' st').
  { clear m w st HJ. induction m as [|[id cb] m IH]; intros w st HJ; cbn [retain_loop]; [done|].
    destruct (decide (id ∉ active st)).
    { specialize (IH w st HJ). by destruct (retain_loop f w st m) as [[? ?] ?]. }
    destruct (decide (id ∈ dropped st)); [by apply IH|].
    destruct (f w st cb) as [[[w1 os] cb'] keep] eqn:E. specialize (IH w1 (foldl run_op st os) (Hf _ _ _ _ _ _ _ HJ E)).
    by destruct (retain_loop f w1 (foldl run_op st os) m) as [[? ?] ?]. }
  specialize (Hloop m w (mkSet (<[k := None]> (subscribers st)) (next_subscriber_id st) (active st) (dropped st))).
  destruct (retain_loop f w _ m) as [[w1 st1] m1]. destruct st1. eapply Hm, Hloop. by destruct st; eapply Hm.
Qed.

(** Two callbacks that agree where such a property holds give the same. *)
Lemma retain_agree {L X W} `{Countable L} (f f' : W → SubscriberSet L X → X → W * list (op L X) * X * bool)
    (J : W → SubscriberSet L X → Prop) k w st :
  (∀ w st cb w' os cb' keep, J w st → f w st cb = (w', os, cb', keep) → J w' (foldl run_op st os)) →
  (∀ w m m' n a d, J w (mkSet m n a d) → J w (mkSet m' n a d)) →
  (∀ w st cb, J w st → f' w st cb = f w st cb) →
  J w st → retain f' k w st = retain f k w st.
Proof.
  intros Hf Hm Hff HJ. unfold retain. destruct (subscribers st !! k) as [[m|]|]; [|done..].
  assert (Hloop : ∀ m w st, J w st → retain_loop f' w st m = retain_loop f w st m).
  { clear m w st HJ. induction m as [|[id cb] m IH]; intros w st HJ; cbn [retain_loop]; [done|].
    destruct (decide (id ∉ active st)); [by rewrite IH|]. destruct (decide (id ∈ dropped st)); [by apply IH|].
    rewrite Hff by done. destruct (f w st cb) as [[[w1 os] cb'] keep] eqn:E. by rewrite (IH _ _ (Hf _ _ _ _ _ _ _ HJ E)). }
  rewrite Hloop; [done|]. destruct st. by eapply Hm.
Qed.

Section effects.
Context {S K V Cb Ev : Type} `{SlotKeys S K}.
Local Abbreviation App := (@App S K V Cb Ev _ _).
Local Abbreviation Command := (@Command K V Cb Ev _ _).
Local Abbreviation Effect := (@Effect K Cb Ev).
Local Abbreviation SubOp := (@SubOp K Cb).
Local Abbreviation Subs := (@SubscriberSets K Cb _ _).
Implicit Types cx : App.
Implicit Types flush : App → outcome App.

Lemma command_nested_ind (P : Command → Prop) :
  (∀ c, match c with CNew _ cs _ | CUpdateEntity _ cs _ | CUpdate cs => Forall P cs | _ => True end → P c) →
  ∀ c, P c.
Proof.
  intros HP. fix IH 1. intros c. apply HP. destruct c; try exact I.
  - induction build; constructor; auto.
  - induction update; constructor; auto.
  - induction update; constructor; auto.
Qed.

(** ** Steps *)

Definition is_insert (o : SubOp) : bool :=
  match o with
  | OnObservers (OInsert _ _) | OnEvents (OInsert _ _) | OnReleases (OInsert _ _) | OnGlobals (OInsert _ _)
  | OnCreated (OInsert _ _) => true
  | _ => false
  end.
(** The next id of the set that an operation is on, and the operation that activates an id of it. *)
Definition next_of (s : Subs) (o : SubOp) : nat :=
  match o with
  | OnObservers _ => next_subscriber_id (observers s)
  | OnEvents _ => next_subscriber_id (event_listeners s)
  | OnReleases _ => next_subscriber_id (release_listeners s)
  | OnGlobals _ => next_subscriber_id (global_observers s)
  | OnCreated _ => next_subscriber_id (new_entity_observers s)
  end.
Definition same_set (set : DeferredSet) (o : SubOp) : bool :=
  match set, o with
  | Observers, OnObservers _ | EventListeners, OnEvents _ | GlobalObservers, OnGlobals _ => true
  | _, _ => false
  end.
Definition active_insert (o activate : SubOp) (s : Subs) : Prop :=
  (∃ k cb, o = OnReleases (OInsert k cb) ∧ activate = OnReleases (OActivate (next_of s o))) ∨
  (∃ k cb, o = OnCreated (OInsert k cb) ∧ activate = OnCreated (OActivate (next_of s o))).

(** What calls do, one step at a time. *)
Inductive step : App → App → Prop :=
  | step_push cx e : step cx (push cx e)
  | step_map cx m : step cx (with_map cx m)
  | step_windows cx t w : step cx (mkApp (app_entities cx) t (sets cx) (queue cx) w (window_update_stack cx)
      (flushing_effects cx) (pending_updates cx))
  | step_flags cx b n : step cx (with_flags cx b n)
  | step_sub cx s : step cx (sub cx (unsubscribe_op s))
  | step_deferred cx set o : is_insert o = true → same_set set o = true →
      step cx (subscribe_deferred cx set (next_of (sets cx) o) o).1
  | step_active cx o a : active_insert o a (sets cx) → step cx (subscribe_active cx o a).1.

(** Effects are flushed, or an update is under way. *)
Definition busy cx : Prop := flushing_effects cx = true ∨ 0 < pending_updates cx.
(** The outcome of running calls then. *)
Record ran cx cx' (t : list SubOp) : Prop := {
  ran_steps : rtc step cx cx';
  ran_flushing : flushing_effects cx' = flushing_effects cx;
  ran_updates : pending_updates cx' = pending_updates cx;
  ran_stack : window_update_stack cx' = window_update_stack cx;
  ran_subs : sets cx' = foldl run_sub (sets cx) t;
}.

Lemma started_busy cx m : busy (with_map (start_update cx) m).
Proof. right. cbn. lia. Qed.

Lemma finish_nested flush cx :
  flushing_effects cx = true ∧ 0 < pending_updates cx ∨ 1 < pending_updates cx →
  finish_update flush cx = Ok (with_flags cx (flushing_effects cx) (pending_updates cx - 1)).
Proof.
  intros Hp. unfold finish_update. replace (negb (flushing_effects cx) && _) with false.
  - cbn [mbind outcome_bind]. unfold checked_sub. by rewrite decide_True by lia.
  - destruct Hp as [[-> _]|Hp]; [done|]. rewrite bool_decide_false by lia. by rewrite andb_false_r.
Qed.

Lemma run_commands_cons flush c cs cx :
  run_commands flush (c :: cs) cx = ('(cx, t1) ← run_command flush c cx; '(cx, t2) ← run_commands flush cs cx; Ok (cx, t1 ++ t2)).
Proof. done. Qed.
(** The nested runs are [run_commands]. *)
Lemma run_all_eq flush cs cx :
  (fix run_all (cs : list Command) cx : outcome (App * list SubOp) :=
    match cs with
    | [] => Ok (cx, [])
    | c :: cs => '(cx, t1) ← run_command flush c cx; '(cx, t2) ← run_all cs cx; Ok (cx, t1 ++ t2)
    end) cs cx = run_commands flush cs cx.
Proof.
  revert cx. induction cs as [|c cs IH]; intros cx; [done|]. cbn [run_commands].
  destruct (run_command flush c cx) as [[cx1 t1]| |]; [|done..]. cbn [mbind outcome_bind]. by rewrite IH.
Qed.

Lemma ran_refl cx : ran cx cx [].
Proof. by split. Qed.
Lemma ran_trans cx cx1 cx2 t1 t2 : ran cx cx1 t1 → ran cx1 cx2 t2 → ran cx cx2 (t1 ++ t2).
Proof.
  intros [? ? Hu1 Hs1 Ht1] [? ? Hu2 Hs2 Ht2]. split; [by etrans|congruence..|].
  by rewrite foldl_app, <-Ht1.
Qed.
Lemma ran_step cx cx' t :
  step cx cx' → flushing_effects cx' = flushing_effects cx →
  pending_updates cx' = pending_updates cx → window_update_stack cx' = window_update_stack cx →
  sets cx' = foldl run_sub (sets cx) t → ran cx cx' t.
Proof. intros. split; try done. by apply rtc_once. Qed.
Lemma ran_busy cx cx' t : ran cx cx' t → busy cx → busy cx'.
Proof. intros [_ Hf Hu _ _] Hb. unfold busy in *. congruence || by rewrite Hf, Hu. Qed.


(** What the flush would do is not asked while effects are flushed: [run] is what [run'] is, and it ran. *)
Definition nested (run run' : outcome (App * list SubOp)) cx : Prop :=
  run = run' ∧ ∀ cx' t, run = Ok (cx', t) → ran cx cx' t.

Lemma nested_ok cx cx' t : ran cx cx' t → nested (Ok (cx', t)) (Ok (cx', t)) cx.
Proof. intros Hr. split; [done|]. by intros ?? [= <- <-]. Qed.
Lemma run_commands_nested flush flush' cs cx :
  Forall (λ c, ∀ cx, busy cx → nested (run_command flush c cx) (run_command flush' c cx) cx) cs →
  busy cx → nested (run_commands flush cs cx) (run_commands flush' cs cx) cx.
Proof.
  intros Hall. revert cx. induction Hall as [|c cs Hc _ IH]; intros cx Hf; [apply nested_ok, ran_refl|].
  cbn [run_commands]. destruct (Hc cx Hf) as [<- Hr]. destruct (run_command flush c cx) as [[cx1 t1]| |] eqn:E;
    [|by split|by split]. cbn [mbind outcome_bind]. specialize (Hr _ _ eq_refl). destruct (IH cx1 (ran_busy _ _ _ Hr Hf)) as [<- Hr2].
  destruct (run_commands flush cs cx1) as [[cx2 t2]| |]; [|by split|by split]. cbn [mbind outcome_bind].
  apply nested_ok. eapply ran_trans; [exact Hr|by apply Hr2].
Qed.

(** The end of an update within another one. *)
Lemma finish_ran flush flush' cx cx1 t :
  ran (start_update cx) cx1 t → busy cx →
  nested (cx ← finish_update flush cx1; Ok (cx, t)) (cx ← finish_update flush' cx1; Ok (cx, t)) cx.
Proof.
  intros [Hs Hf Hu Hst Ht] Hc.
  assert (Hn : flushing_effects cx1 = true ∧ 0 < pending_updates cx1 ∨ 1 < pending_updates cx1).
  { rewrite Hf, Hu. cbn. destruct Hc; [left|right]; [split; [done|]|]; lia. }
  rewrite !finish_nested by done. cbn [mbind outcome_bind].
  apply nested_ok. split; try done.
  - eapply rtc_l; [apply step_flags|]. eapply rtc_r; [exact Hs|apply step_flags].
  - cbn. rewrite Hu. cbn. lia.
Qed.
Lemma ran_map cx cx1 m t : ran cx cx1 t → ran cx (with_map cx1 m) t.
Proof. intros [Hs ? ? ? ?]. split; try done. eapply rtc_r; [exact Hs|apply step_map]. Qed.
Lemma ran_from_map cx cx1 m t : ran (with_map cx m) cx1 t → ran cx cx1 t.
Proof. intros [Hs ? ? ? ?]. split; try done. eapply rtc_l; [apply step_map|exact Hs]. Qed.

Lemma run_command_nested flush flush' c cx :
  busy cx → nested (run_command flush c cx) (run_command flush' c cx) cx.
Proof.
  revert cx. induction c as [c IH] using command_nested_ind. intros cx Hf.
  assert (Hrun : ∀ cs cx, Forall (λ c, ∀ cx, busy cx → nested (run_command flush c cx) (run_command flush' c cx) cx) cs →
    busy cx → nested (run_commands flush cs cx) (run_commands flush' cs cx) cx) by (intros; by apply run_commands_nested).
  destruct c as [id|id ty ev|cb| |g|id cb|id ty cb|id cb|g cb|ty cb|s|e|e|w es|ty cs v|e cs g|cs]; cbn [run_command];
    rewrite ?run_all_eq.
  - apply nested_ok. unfold notify. destruct (notify_windows (tracking cx) id) as [p t].
    assert (Ht : ran cx (with_tracking cx t) []) by (apply ran_step; try done; apply step_windows).
    destruct p; [|done]. change (@nil SubOp) with (@nil SubOp ++ []). eapply ran_trans; [exact Ht|]. apply ran_step; try done. apply step_push.
  - apply nested_ok, ran_step; try done. apply step_push.
  - apply nested_ok, ran_step; try done. apply step_push.
  - apply nested_ok, ran_step; try done. apply step_push.
  - apply nested_ok, ran_step; try done. apply step_push.
  - apply nested_ok, ran_step; try done. by apply (step_deferred cx Observers (OnObservers (OInsert id cb))).
  - apply nested_ok, ran_step; try done. by apply (step_deferred cx EventListeners (OnEvents (OInsert id (ty, cb)))).
  - apply nested_ok, ran_step; try done. apply (step_active cx (OnReleases (OInsert id cb))). left. by exists id, cb.
  - apply nested_ok, ran_step; try done. by apply (step_deferred cx GlobalObservers (OnGlobals (OInsert g cb))).
  - apply nested_ok, ran_step; try done. apply (step_active cx (OnCreated (OInsert ty cb))). right. by exists ty, cb.
  - apply nested_ok, ran_step; try done. apply step_sub.
  - unfold clone_handle. destruct (clone_entity _ e) as [[? [rc|]]| |]; cbn; [|by split..].
    apply nested_ok, ran_map, ran_refl.
  - unfold drop_handle. destruct (drop_entity _ e) as [[rc|]| |]; cbn; [|by split..].
    apply nested_ok, ran_map, ran_refl.
  - apply nested_ok, ran_step; try done. apply step_windows.
  - destruct (reserve _ ty) as [slot m]. unfold clone_handle. destruct (clone_entity _ slot) as [[? [rc|]]| |]; cbn [mbind outcome_bind unwrap]; [|by split..].
    set (cx1 := with_ref_counts _ rc). rewrite !run_all_eq. destruct (Hrun cs cx1 IH (started_busy _ _)) as [<- Hr].
    destruct (run_commands flush cs cx1) as [[cx2 t]| |]; cbn [mbind outcome_bind]; [|by split..].
    apply finish_ran; [|done]. apply ran_map. specialize (Hr cx2 t eq_refl). apply ran_from_map, ran_from_map in Hr.
    rewrite <-(app_nil_r t). eapply ran_trans; [exact Hr|]. apply ran_step; try done. apply step_push.
  - destruct (lease _ e) as [[l m]| |]; cbn [mbind outcome_bind]; [|by split..]. rewrite !run_all_eq.
    destruct (Hrun cs (with_map (start_update cx) m) IH (started_busy _ _)) as [<- Hr].
    destruct (run_commands flush cs _) as [[cx2 t]| |]; cbn [mbind outcome_bind]; [|by split..].
    destruct (end_lease _ _) as [m2| |]; cbn [mbind outcome_bind]; [|by split..].
    apply finish_ran; [|done]. apply ran_map. specialize (Hr cx2 t eq_refl). by apply ran_from_map in Hr.
  - destruct (Hrun cs (start_update cx) IH (started_busy cx (app_entities cx))) as [<- Hr].
    destruct (run_commands flush cs _) as [[cx2 t]| |]; cbn [mbind outcome_bind]; [|by split..].
    apply finish_ran; [|done]. by apply Hr.
Qed.

Lemma commands_nested flush flush' cs cx :
  busy cx → nested (run_commands flush cs cx) (run_commands flush' cs cx) cx.
Proof.
  intros Hf. apply run_commands_nested; [|done]. apply Forall_forall. intros c _ cx'. apply run_command_nested.
Qed.

End effects.

(** ** Invariants of the flush *)

Lemma take_loop_drained {S K V} `{SlotKeys S K} (ids : list K) (m m' : EntityMap S K V) out :
  take_loop m ids = Ok (out, m') → dropped_entity_ids (ref_counts m') = dropped_entity_ids (ref_counts m).
Proof.
  revert m out. induction ids as [|id ids IH]; intros m out; cbn [take_loop]; [by intros [= <- <-]|].
  destruct (counts (ref_counts m) !! id) as [c|]; [|done]. cbn [unwrap mbind outcome_bind].
  destruct (assert_that _); [|done..]. cbn [mbind outcome_bind].
  destruct (take_loop _ ids) as [[rest m1]| |] eqn:E; [|done..]. intros [= <- <-]. by apply IH in E.
Qed.
Lemma take_dropped_drained {S K V} `{SlotKeys S K} (m m' : EntityMap S K V) out :
  take_dropped m = Ok (out, m') → dropped_entity_ids (ref_counts m') = [].
Proof. unfold take_dropped. by intros ->%take_loop_drained. Qed.

Section lenses.
Context {K Cb : Type} `{Countable K}.
Local Abbreviation Subs := (@SubscriberSets K Cb _ _).
(** A field of [SubscriberSets], with the operations on it. *)
Record SetField {L X : Type} `{Countable L} (get : Subs → SubscriberSet L X)
    (put : Subs → SubscriberSet L X → Subs) (ops : @SubOp K Cb → option (op L X)) : Prop := {
  field_get s st : get (put s st) = st;
  field_put s : put s (get s) = s;
  field_put_put s a b : put (put s a) b = put s b;
  field_ops s t : get (foldl run_sub s t) = foldl run_op (get s) (omap ops t);
}.
Lemma field_ops_one {L X : Type} `{Countable L} (get : Subs → SubscriberSet L X) ops :
  (∀ s (o : @SubOp K Cb), get (run_sub s o) = match ops o with Some o => run_op (get s) o | None => get s end) →
  ∀ s t, get (foldl run_sub s t) = foldl run_op (get s) (omap ops t).
Proof.
  intros Hop s t. revert s. induction t as [|o t IH]; intros s; [done|]. cbn [foldl omap list_omap]. rewrite IH, Hop.
  by destruct (ops o).
Qed.
Lemma observers_field : SetField observers set_observers observers_op.
Proof. split; [done|by intros []|done|]. apply field_ops_one. by intros s []. Qed.
Lemma events_field : SetField event_listeners set_event_listeners events_op.
Proof. split; [done|by intros []|done|]. apply field_ops_one. by intros s []. Qed.
Lemma globals_field : SetField global_observers set_global_observers globals_op.
Proof. split; [done|by intros []|done|]. apply field_ops_one. by intros s []. Qed.
Lemma created_field : SetField new_entity_observers set_new_entity_observers created_op.
Proof. split; [done|by intros []|done|]. apply field_ops_one. by intros s []. Qed.
End lenses.

Section invariants.
Context {S K V Cb Ev : Type} `{SlotKeys S K}.
Local Abbreviation App := (@App S K V Cb Ev _ _).
Local Abbreviation Command := (@Command K V Cb Ev _ _).
Local Abbreviation Effect := (@Effect K Cb Ev).
Local Abbreviation SubOp := (@SubOp K Cb).
Local Abbreviation Subs := (@SubscriberSets K Cb _ _).
Implicit Types cx : App.

(** The same subscriptions were handed out and activated. *)
Definition set_ids {L X} `{Countable L} (st : SubscriberSet L X) : nat * gset nat := (next_subscriber_id st, active st).
Definition ids_of (s : Subs) : list (nat * gset nat) :=
  [set_ids (observers s); set_ids (event_listeners s); set_ids (release_listeners s); set_ids (global_observers s);
   set_ids (new_entity_observers s)].

(** The first thing that happens to an effect. *)
Definition settle (e : Effect) (q : @Queue K Cb Ev _ _) : @Queue K Cb Ev _ _ :=
  match e with
  | Notify emitter => mkQueue (tail (pending_effects q)) (pending_notifications q ∖ {[emitter]}) (pending_global_notifications q)
  | NotifyGlobalObservers g => mkQueue (tail (pending_effects q)) (pending_notifications q) (pending_global_notifications q ∖ {[g]})
  | _ => pop_front q
  end.
Definition begin_effect (e : Effect) cx : App :=
  let cx := with_queue cx (settle e (queue cx)) in
  match e with Defer (Activate set id) => sub cx (activation set id) | _ => cx end.

Context (I : App → Prop)
  (I_step : ∀ cx cx', I cx → step cx cx' → I cx')
  (I_ids : ∀ cx s, ids_of s = ids_of (sets cx) → I cx → I (with_sets cx s))
  (I_begin : ∀ cx e, I cx → head (pending_effects (queue cx)) = Some e → I (begin_effect e cx)).
Context (flush : App → outcome App) (behave : Cb → @Trigger K V Ev → App → list Command * bool)
  (handles_in : V → list (AnyEntity K)).
Context (n : nat) (stack : list nat).

Definition good cx : Prop :=
  I cx ∧ flushing_effects cx = true ∧ pending_updates cx = n ∧ window_update_stack cx = stack.

Lemma good_busy cx : good cx → busy cx.
Proof using. intros (_ & Hf & _). by left. Qed.
Lemma good_ran cx cx' t : good cx → ran cx cx' t → good cx'.
Proof using I_step.
  intros (HI & Hf & Hu & Hs) [Hst Hf' Hu' Hs' _]. split_and!; [|congruence..].
  clear -HI Hst I_step. induction Hst; eauto.
Qed.
Lemma good_sets cx s : ids_of s = ids_of (sets cx) → good cx → good (with_sets cx s).
Proof using I_ids. intros Hs (HI & Hf & Hu & Hst). split; [by apply I_ids|done]. Qed.

Lemma call_ran trigger cb cx cx' t keep :
  busy cx → call flush behave trigger cb cx = Ok (cx', t, keep) → ran cx cx' t.
Proof using.
  intros Hf. unfold call. destruct (behave cb trigger cx) as [cmds k]. destruct (run_commands flush cmds cx) as [[cx1 t1]| |] eqn:E; [|done..].
  intros [= <- <- <-]. by apply (commands_nested flush flush cmds cx Hf).
Qed.
Lemma drop_handle_ran cx cx' e : busy cx → drop_handle cx e = Ok cx' → ran cx cx' [].
Proof using.
  intros Hf. unfold drop_handle. destruct (drop_entity _ e) as [[rc|]| |]; [|done..]. intros [= <-].
  apply ran_map, ran_refl.
Qed.
Lemma clone_handle_ran cx cx' e : busy cx → clone_handle cx e = Ok cx' → ran cx cx' [].
Proof using.
  intros Hf. unfold clone_handle. destruct (clone_entity _ e) as [[? [rc|]]| |]; [|done..]. intros [= <-].
  apply ran_map, ran_refl.
Qed.
Lemma ran_snoc cx cx1 cx2 t : ran cx cx1 t → ran cx1 cx2 [] → ran cx cx2 t.
Proof using. intros H1 H2. rewrite <-(app_nil_r t). by eapply ran_trans. Qed.
Lemma call_upgraded_ran emitter trigger cb cx cx' t keep :
  busy cx → call_upgraded flush behave emitter trigger cb cx = Ok (cx', t, keep) → ran cx cx' t.
Proof using.
  intros Hf. unfold call_upgraded. destruct (upgrade _ _) as [[e rc]|]; [|intros [= <- <- <-]; apply ran_refl].
  destruct (call flush behave trigger cb _) as [[[cx1 t1] k]| |] eqn:E; [|done..]. cbn [mbind outcome_bind].
  apply call_ran in E; [|done]. apply ran_from_map in E. destruct (drop_handle cx1 e) as [cx2| |] eqn:Ed; [|done..].
  intros [= <- <- <-]. eapply ran_snoc; [exact E|]. eapply drop_handle_ran; [by eapply ran_busy|done].
Qed.

(** The state of [notify_all] while it calls subscribers. *)
Definition calling {L X} `{Countable L} (put : Subs → SubscriberSet L X → Subs) (w : outcome App) (st : SubscriberSet L X) : Prop :=
  match w with Ok cx => good (with_sets cx (put (sets cx) st)) | _ => True end.
Lemma handler_calling {L X} `{Countable L} (get : Subs → SubscriberSet L X) put ops run :
  SetField get put ops → (∀ cb cx cx' t keep, busy cx → run cb cx = Ok (cx', t, keep) → ran cx cx' t) →
  ∀ w st cb w' os cb' keep, calling put w st → handler put ops run w st cb = (w', os, cb', keep) → calling put w' (foldl run_op st os).
Proof using I_step.
  intros [Hget Hput Hpp Hops] Hrun w st1 cb w' os cb' keep HJ E. unfold handler in E.
  destruct w as [cx2| |]; [|by injection E as <- <- <- <-..].
  destruct (run cb _) as [[[cx3 t] k]| |] eqn:Er; [|by injection E as <- <- <- <-..]. injection E as <- <- <- <-.
  apply Hrun in Er; [|by eapply good_busy]. cbn [calling] in HJ |- *. pose proof (ran_subs _ _ _ Er) as Hsub. cbn in Hsub.
  assert (Hst : foldl run_op st1 (omap ops t) = get (sets cx3)) by (by rewrite Hsub, Hops, Hget).
  rewrite Hst, Hput. destruct cx3. by apply (good_ran _ _ _ HJ Er).
Qed.
(** Which subscribers there are does not matter. *)
Definition ids_only {L X} `{Countable L} (put : Subs → SubscriberSet L X → Subs) : Prop :=
  ∀ s m m' k a d, ids_of (put s (mkSet m k a d)) = ids_of (put s (mkSet m' k a d)).
Lemma calling_ids {L X} `{Countable L} (put : Subs → SubscriberSet L X → Subs) :
  (∀ s a b, put (put s a) b = put s b) → ids_only put →
  ∀ w m m' n a d, calling put w (mkSet m n a d) → calling put w (mkSet m' n a d).
Proof using I_ids.
  intros Hpp Hm [cx2| |] m m' k a d HJ; [|done..]. cbn [calling] in *.
  apply (good_sets _ (put (sets cx2) (mkSet m' k a d))) in HJ; [done|]. cbn. apply Hm.
Qed.
Lemma calling_start {L X} `{Countable L} (get : Subs → SubscriberSet L X) put ops cx :
  SetField get put ops → good cx → calling put (Ok cx) (get (sets cx)).
Proof using. intros [_ Hput _ _] Hg. cbn [calling]. rewrite Hput. by destruct cx. Qed.

Lemma notify_all_good {L X} `{Countable L} (get : Subs → SubscriberSet L X) put ops run emitter cx cx' :
  SetField get put ops → ids_only put →
  (∀ cb cx cx' t keep, busy cx → run cb cx = Ok (cx', t, keep) → ran cx cx' t) →
  good cx → notify_all get put ops run emitter cx = Ok cx' → good cx'.
Proof using I_step I_ids.
  intros Hfield Hm Hrun Hg. unfold notify_all.
  pose proof (retain_preserves (handler put ops run) (calling put) emitter (Ok cx) (get (sets cx))
    (handler_calling _ _ _ _ Hfield Hrun) (calling_ids _ (field_put_put _ _ _ Hfield) Hm)
    (calling_start _ _ _ _ Hfield Hg)) as HJ.
  destruct (retain _ emitter (Ok cx) (get (sets cx))) as [w st]. intros Hw. destruct w as [cx1| |]; [|done..].
  by injection Hw as <-.
Qed.

Lemma begin_good cx e : good cx → head (pending_effects (queue cx)) = Some e → good (begin_effect e cx).
Proof using I_begin.
  intros (HI & Hf & Hu & Hst) He. split; [by apply I_begin|]. unfold begin_effect. by destruct e as [| | | |[|[]]|].
Qed.
Lemma good_step cx cx' :
  step cx cx' → flushing_effects cx' = flushing_effects cx → pending_updates cx' = pending_updates cx →
  window_update_stack cx' = window_update_stack cx → good cx → good cx'.
Proof using I_step. intros Hs Hf Hu Hst (HI & ? & ? & ?). split_and!; [by eapply I_step|congruence..]. Qed.

Lemma created_run_ran entity window cb cx cx' t keep :
  busy cx →
  (cx ← clone_handle cx entity;
   '(cx, t, _) ← call flush behave (OnEntityCreated entity window) cb cx;
   cx ← drop_handle cx entity; Ok (cx, t, true)) = Ok (cx', t, keep) → ran cx cx' t.
Proof using.
  intros Hf. destruct (clone_handle cx entity) as [cx1| |] eqn:E1; [|done..]. cbn [mbind outcome_bind].
  apply clone_handle_ran in E1; [|done]. destruct (call _ _ _ cb cx1) as [[[cx2 t2] k]| |] eqn:E2; [|done..]. cbn [mbind outcome_bind].
  apply call_ran in E2; [|by eapply ran_busy]. destruct (drop_handle cx2 entity) as [cx3| |] eqn:E3; [|done..].
  intros [= <- <- <-]. apply drop_handle_ran in E3; [|eapply ran_busy; [exact E2|by eapply ran_busy]].
  eapply ran_snoc; [|exact E3]. apply (ran_trans _ _ _ [] t2 E1 E2).
Qed.

(** An effect is applied after it was taken from the queue. *)
Lemma apply_effect_good cx e cx' :
  good (begin_effect e cx) →
  apply_effect flush behave e (with_queue cx (pop_front (queue cx))) = Ok cx' → good cx'.
Proof using I_step I_ids.
  intros Hb.
  destruct e as [emitter|emitter ty ev| |g|[cb|set id]|entity tid window]; cbn [apply_effect begin_effect settle] in *.
  - unfold apply_notify_effect. apply notify_all_good; try done; [apply observers_field|]. intros cb ? ? ? ?. apply call_upgraded_ran.
  - unfold apply_emit_effect. apply notify_all_good; try done; [apply events_field|]. intros [stored cb] c c' t keep Hf.
    case_decide; [by apply call_upgraded_ran|]. intros [= <- <- <-]. apply ran_refl.
  - intros [= <-]. eapply good_step; [apply step_windows|done..|exact Hb].
  - unfold apply_notify_global_observers_effect. apply notify_all_good; try done; [apply globals_field|].
    intros cb c c' t keep Hf. destruct (call _ _ _ cb c) as [[[c1 t1] k]| |] eqn:E; [|done..]. intros [= <- <- <-]. by apply call_ran in E.
  - cbn [apply_defer_effect]. destruct (call _ _ _ cb _) as [[[c1 t1] k]| |] eqn:E; [|done..]. intros [= <-].
    apply call_ran in E; [|by eapply good_busy]. by eapply good_ran.
  - intros [= <-]. exact Hb.
  - unfold apply_entity_created_effect. set (cx1 := match window with Some _ => _ | None => _ end).
    assert (Hg1 : good cx1).
    { unfold cx1. destruct window; [|exact Hb]. eapply good_step; [apply step_windows|done..|exact Hb]. }
    destruct (notify_all _ _ _ _ tid cx1) as [cx2| |] eqn:E; [|done..]. cbn [mbind outcome_bind]. intros Hd.
    assert (Hg2 : good cx2).
    { revert E. apply notify_all_good; try done; [apply created_field|]. intros cb c c' t keep. apply created_run_ran. }
    apply drop_handle_ran in Hd; [|by eapply good_busy]. by eapply good_ran.
Qed.

Lemma foldM_good {X} (f : App → X → outcome App) l cx cx' :
  (∀ cx x cx', good cx → f cx x = Ok cx' → good cx') → good cx → foldM f cx l = Ok cx' → good cx'.
Proof using.
  intros Hf. revert cx. induction l as [|x l IH]; intros cx Hg; cbn [foldM]; [by intros [= <-]|].
  destruct (f cx x) as [cx1| |] eqn:E; [|done..]. cbn [mbind outcome_bind]. apply IH. by eapply Hf.
Qed.
Lemma release_one_good cx d cx' : good cx → release_one flush behave handles_in cx d = Ok cx' → good cx'.
Proof using I_step I_ids.
  intros Hg. destruct d as [id entity]. unfold release_one. destruct (remove_emitter id (release_listeners _)) as [cbs st] eqn:Er.
  set (cx1 := with_tracking (with_sets cx _) _).
  assert (Hg1 : good cx1).
  { unfold cx1. eapply good_step; [apply step_windows|done..|]. apply good_sets; [|done]. unfold ids_of. cbn.
    injection Er as <- <-. done. }
  destruct (foldM _ cx1 cbs) as [cx2| |] eqn:E; [|done..]. cbn [mbind outcome_bind].
  assert (Hg2 : good cx2).
  { revert E. apply foldM_good; [|done]. intros c cb c' Hc Hcall. destruct (call _ _ _ cb c) as [[[c1 t1] k]| |] eqn:E; [|done..].
    injection Hcall as <-. apply call_ran in E; [|by eapply good_busy]. by eapply good_ran. }
  apply foldM_good; [|done]. intros c e c' Hc Hd. apply drop_handle_ran in Hd; [|by eapply good_busy]. by eapply good_ran.
Qed.
Lemma release_good fuel cx cx' :
  good cx → release_dropped_entities flush behave handles_in fuel cx = Ok cx' →
  good cx' ∧ dropped_entity_ids (ref_counts (app_entities cx')) = [].
Proof using I_step I_ids.
  revert cx. induction fuel as [|fuel IH]; intros cx Hg; cbn [release_dropped_entities]; [done|].
  destruct (take_dropped (app_entities cx)) as [[d m]| |] eqn:E; [|done..]. cbn [mbind outcome_bind].
  assert (Hg1 : good (with_map cx m)) by (eapply good_step; [apply step_map|done..]).
  destruct d as [|x d].
  - intros [= <-]. split; [done|]. cbn. by apply take_dropped_drained in E.
  - destruct (foldM _ _ (x :: d)) as [cx1| |] eqn:Ef; [|done..]. cbn [mbind outcome_bind]. apply IH.
    revert Ef. by apply foldM_good; [intros ???; apply release_one_good|].
Qed.
End invariants.

(** ** What callbacks see *)

(** Two kinds of callbacks that agree in the states of an invariant cannot be told apart: no callback is ever called in
    another state. *)
Section agree.
Context {S K V Cb Ev : Type} `{SlotKeys S K}.
Local Abbreviation App := (@App S K V Cb Ev _ _).
Local Abbreviation Command := (@Command K V Cb Ev _ _).
Local Abbreviation SubOp := (@SubOp K Cb).
Local Abbreviation Subs := (@SubscriberSets K Cb _ _).
Implicit Types cx : App.
Context (I : App → Prop)
  (I_step : ∀ cx cx', I cx → step cx cx' → I cx')
  (I_ids : ∀ cx s, ids_of s = ids_of (sets cx) → I cx → I (with_sets cx s))
  (I_begin : ∀ cx e, I cx → head (pending_effects (queue cx)) = Some e → I (begin_effect e cx)).
Context (behave behave' : Cb → @Trigger K V Ev → App → list Command * bool)
  (Hagree : ∀ cb trigger cx, I cx → behave' cb trigger cx = behave cb trigger cx).
Context (handles_in : V → list (AnyEntity K)).

Section effect.
Context (flush flush' : App → outcome App) (n : nat) (stack : list nat).
Local Notation good := (good I n stack).

Lemma call_agree trigger cb cx : good cx → call flush' behave' trigger cb cx = call flush behave trigger cb cx.
Proof using Hagree.
  intros Hg. unfold call. rewrite Hagree by apply Hg. destruct (behave cb trigger cx) as [cmds keep].
  by destruct (commands_nested flush flush' cmds cx (good_busy _ _ _ _ Hg)) as [<- _].
Qed.
Lemma good_map cx m : good cx → good (with_map cx m).
Proof using I_step. intros Hg. eapply good_step; [exact I_step|apply step_map|done..]. Qed.
Lemma call_upgraded_agree emitter trigger cb cx :
  good cx → call_upgraded flush' behave' emitter trigger cb cx = call_upgraded flush behave emitter trigger cb cx.
Proof using Hagree I_step.
  intros Hg. unfold call_upgraded. destruct (upgrade _ _) as [[e rc]|]; [|done]. by rewrite call_agree by by apply good_map.
Qed.
Lemma foldM_agree {X} (f g : App → X → outcome App) l cx :
  (∀ cx x, good cx → g cx x = f cx x) → (∀ cx x cx', good cx → f cx x = Ok cx' → good cx') → good cx →
  foldM g cx l = foldM f cx l.
Proof using.
  intros Hfg Hf. revert cx. induction l as [|x l IH]; intros cx Hg; cbn [foldM]; [done|].
  rewrite Hfg by done. destruct (f cx x) as [cx1| |] eqn:E; [|done..]. cbn [mbind outcome_bind]. apply IH. by eapply Hf.
Qed.
Lemma notify_all_agree {L X} `{Countable L} (get : Subs → SubscriberSet L X) put ops run run' emitter cx :
  SetField get put ops → ids_only put →
  (∀ cb cx cx' t keep, busy cx → run cb cx = Ok (cx', t, keep) → ran cx cx' t) →
  (∀ cb cx, good cx → run' cb cx = run cb cx) → good cx →
  notify_all get put ops run' emitter cx = notify_all get put ops run emitter cx.
Proof using I_step I_ids.
  intros Hfield Hm Hrun Hrr Hg. unfold notify_all.
  rewrite (retain_agree (handler put ops run) (handler put ops run') (calling I n stack put)); [done|..].
  - by eapply handler_calling.
  - apply calling_ids; [done|apply Hfield|done].
  - intros [cx1| |] st cb HJ; [|done..]. cbn [calling] in HJ. unfold handler. by rewrite Hrr.
  - by eapply calling_start.
Qed.

Lemma apply_effect_agree cx e :
  good (begin_effect e cx) →
  apply_effect flush' behave' e (with_queue cx (pop_front (queue cx))) = apply_effect flush behave e (with_queue cx (pop_front (queue cx))).
Proof using Hagree I_step I_ids.
  intros Hb. destruct e as [emitter|emitter ty ev| |g|[cb|set id]|entity tid window]; cbn [apply_effect begin_effect settle] in *; try done.
  - unfold apply_notify_effect. apply notify_all_agree; try done; [apply observers_field|..].
    + intros cb ? ? ? ?. apply call_upgraded_ran.
    + intros cb c. apply call_upgraded_agree.
  - unfold apply_emit_effect. apply notify_all_agree; try done; [apply events_field|..].
    + intros [stored cb] c c' t keep Hf. case_decide; [by apply call_upgraded_ran|]. intros [= <- <- <-]. apply ran_refl.
    + intros [stored cb] c Hc. case_decide; [by apply call_upgraded_agree|done].
  - unfold apply_notify_global_observers_effect. apply notify_all_agree; try done; [apply globals_field|..].
    + intros cb c c' t keep Hf. destruct (call _ _ _ cb c) as [[[c1 t1] k]| |] eqn:E; [|done..].
      intros [= <- <- <-]. by apply call_ran in E.
    + intros cb c Hc. by rewrite call_agree.
  - cbn [apply_defer_effect]. by rewrite call_agree.
  - unfold apply_entity_created_effect. set (cx1 := match window with Some _ => _ | None => _ end).
    assert (Hg1 : good cx1).
    { unfold cx1. destruct window; [|exact Hb]. eapply good_step; [exact I_step|apply step_windows|done..|exact Hb]. }
    erewrite notify_all_agree; [done|apply created_field|done| | |exact Hg1].
    + intros cb ? ? ? ?. by eapply created_run_ran.
    + intros cb c Hc. cbv beta. destruct (clone_handle c entity) as [c1| |] eqn:E1; [|done..]. cbn [mbind outcome_bind].
      rewrite call_agree; [done|]. eapply good_ran; [exact I_step|exact Hc|]. eapply clone_handle_ran, E1. by eapply good_busy.
Qed.
Lemma release_one_agree cx d : good cx → release_one flush' behave' handles_in cx d = release_one flush behave handles_in cx d.
Proof using Hagree I_step I_ids.
  intros Hg. destruct d as [id entity]. unfold release_one. destruct (remove_emitter id (release_listeners _)) as [cbs st] eqn:Er.
  set (cx1 := with_tracking (with_sets cx _) _).
  assert (Hg1 : good cx1).
  { unfold cx1. eapply good_step; [exact I_step|apply step_windows|done..|]. apply good_sets; [exact I_ids| |done]. unfold ids_of. cbn.
    injection Er as <- <-. done. }
  erewrite foldM_agree; [done|..|exact Hg1].
  - intros c cb Hc. cbv beta. by rewrite call_agree.
  - intros c cb c' Hc Hcall. cbv beta in Hcall. destruct (call _ _ _ cb c) as [[[c1 t1] k]| |] eqn:E; [|done..].
    injection Hcall as <-. apply call_ran in E; [|by eapply good_busy]. by eapply good_ran.
Qed.
Lemma release_agree fuel cx :
  good cx → release_dropped_entities flush' behave' handles_in fuel cx = release_dropped_entities flush behave handles_in fuel cx.
Proof using Hagree I_step I_ids.
  revert cx. induction fuel as [|fuel IH]; intros cx Hg; cbn [release_dropped_entities]; [done|].
  destruct (take_dropped (app_entities cx)) as [[d m]| |] eqn:E; [|done..]. cbn [mbind outcome_bind].
  assert (Hg1 : good (with_map cx m)) by by apply good_map. destruct d as [|x d]; [done|].
  assert (Hone : ∀ cx d cx', good cx → release_one flush behave handles_in cx d = Ok cx' → good cx') by (intros ???; by apply release_one_good).
  rewrite (foldM_agree (release_one flush behave handles_in)); [|by intros; apply release_one_agree|exact Hone|done].
  destruct (foldM _ _ (x :: d)) as [cx1| |] eqn:Ef; [|done..]. cbn [mbind outcome_bind]. apply IH.
  by eapply foldM_good.
Qed.
End effect.

Lemma flush_agree n stack fuel cx :
  good I n stack cx → flush_effects behave' handles_in fuel cx = flush_effects behave handles_in fuel cx.
Proof using Hagree I_step I_ids I_begin.
  revert cx. induction fuel as [|fuel IH]; intros cx Hg; cbn [flush_effects]; [done|].
  rewrite (release_agree (flush_effects behave handles_in fuel) _ n stack) by done.
  destruct (release_dropped_entities _ _ _ fuel cx) as [cx1| |] eqn:E; [|done..]. cbn [mbind outcome_bind].
  eapply release_good in E as [Hg1 Hd]; try done. destruct (pending_effects (queue cx1)) as [|e q] eqn:Hq; cbn [head]; [done|].
  assert (Hb : good I n stack (begin_effect e cx1)) by (apply begin_good; try done; by rewrite Hq).
  rewrite (apply_effect_agree (flush_effects behave handles_in fuel) _ n stack) by done.
  destruct (apply_effect _ _ e _) as [cx2| |] eqn:Ea; [|done..]. cbn [mbind outcome_bind]. apply IH.
  by eapply apply_effect_good.
Qed.

Lemma commands_keep flush cmds cx cx' t : I cx → busy cx → run_commands flush cmds cx = Ok (cx', t) → I cx'.
Proof using I_step.
  intros HI Hb E. apply (commands_nested flush flush cmds cx Hb) in E as [Hst _ _ _ _].
  clear -HI Hst I_step. induction Hst; eauto.
Qed.

Lemma update_agree fuel cmds cx :
  I cx → flushing_effects cx = false → pending_updates cx = 0 →
  update behave' handles_in fuel cmds cx = update behave handles_in fuel cmds cx.
Proof using Hagree I_step I_ids I_begin.
  intros HI Hf Hu. assert (Hb : busy (start_update cx)) by (right; cbn; lia). unfold update.
  destruct (commands_nested (flush_effects behave handles_in fuel) (flush_effects behave' handles_in fuel) cmds _ Hb) as [<- Hr].
  destruct (run_commands _ cmds (start_update cx)) as [[cx1 t]| |] eqn:E; [|done..]. cbn [mbind outcome_bind].
  assert (HI1 : I cx1) by (eapply commands_keep, E; [eapply I_step; [exact HI|apply step_flags]|done]).
  destruct (Hr _ _ eq_refl) as [_ Hf1 Hu1 _ _]. unfold finish_update. cbn in Hf1, Hu1.
  rewrite Hf1, Hf, Hu1, Hu. cbn [negb andb Nat.add]. rewrite bool_decide_true by done.
  rewrite (flush_agree 1 (window_update_stack cx1)); [done|]. split; [|done]. eapply I_step; [exact HI1|apply step_flags].
Qed.
End agree.

(** The flush keeps an invariant and ends with nothing left. *)
Section flush.
Context {S K V Cb Ev : Type} `{SlotKeys S K}.
Local Abbreviation App := (@App S K V Cb Ev _ _).
Context (I : App → Prop)
  (I_step : ∀ cx cx', I cx → step cx cx' → I cx')
  (I_ids : ∀ cx s, ids_of s = ids_of (sets cx) → I cx → I (with_sets cx s))
  (I_begin : ∀ cx e, I cx → head (pending_effects (queue cx)) = Some e → I (begin_effect e cx)).
Context (behave : Cb → @Trigger K V Ev → App → list (@Command K V Cb Ev _ _) * bool) (handles_in : V → list (AnyEntity K)).

Lemma flush_good n stack fuel (cx cx' : App) :
  good I n stack cx → flush_effects behave handles_in fuel cx = Ok cx' →
  good I n stack cx' ∧ pending_effects (queue cx') = [] ∧ dropped_entity_ids (ref_counts (app_entities cx')) = [].
Proof using I_step I_ids I_begin.
  revert cx. induction fuel as [|fuel IH]; intros cx Hg; cbn [flush_effects]; [done|].
  destruct (release_dropped_entities _ _ _ fuel cx) as [cx1| |] eqn:E; [|done..]. cbn [mbind outcome_bind].
  eapply release_good in E as [Hg1 Hd]; try done. destruct (pending_effects (queue cx1)) as [|e q] eqn:Hq; cbn [head].
  - by intros [= <-].
  - destruct (apply_effect _ _ e _) as [cx2| |] eqn:Ea; [|done..]. cbn [mbind outcome_bind]. apply IH.
    eapply apply_effect_good; try done. apply begin_good; try done. by rewrite Hq.
Qed.

Lemma update_good fuel cmds (cx cx' : App) :
  I cx → flushing_effects cx = false → pending_updates cx = 0 →
  update behave handles_in fuel cmds cx = Ok cx' →
  I cx' ∧ flushing_effects cx' = false ∧ pending_updates cx' = 0 ∧ pending_effects (queue cx') = [] ∧
    dropped_entity_ids (ref_counts (app_entities cx')) = [].
Proof using I_step I_ids I_begin.
  intros HI Hf Hu. unfold update. destruct (run_commands _ cmds (start_update cx)) as [[cx1 t]| |] eqn:E; [|done..].
  cbn [mbind outcome_bind].
  assert (Hr : ran (start_update cx) cx1 t).
  { apply (commands_nested (flush_effects behave handles_in fuel) (flush_effects behave handles_in fuel) cmds); [right; cbn; lia|done]. }
  assert (HI1 : I cx1).
  { assert (HI0 : I (start_update cx)) by (eapply I_step; [exact HI|apply step_flags]).
    destruct Hr as [Hst _ _ _ _]. clear -HI0 Hst I_step. induction Hst; eauto. }
  destruct Hr as [_ Hf1 Hu1 _ _]. cbn in Hf1, Hu1. rewrite Hf in Hf1. rewrite Hu in Hu1. cbn in Hu1.
  unfold finish_update. rewrite Hf1, Hu1. cbn [negb andb bool_decide decide_rel]. rewrite bool_decide_true by done.
  destruct (flush_effects _ _ _ _) as [cx2| |] eqn:Ef; [|done..]. cbn [mbind outcome_bind].
  eapply (flush_good 1 (window_update_stack cx1)) in Ef as [(HI2 & Hf2 & Hu2 & _) [Hq Hd]].
  - cbn [with_flags pending_updates]. unfold checked_sub. rewrite Hu2. cbn. intros [= <-]. split_and!; try done.
    eapply I_step; [eapply I_step; [exact HI2|apply (step_flags _ false 1)]|apply (step_flags _ false 0)].
  - split; [|done]. eapply I_step; [exact HI1|apply step_flags].
Qed.
End flush.

(** ** The invariant of the queue and the subscriptions *)

Section app_ok.
Context {S K V Cb Ev : Type} `{SlotKeys S K}.
Local Abbreviation App := (@App S K V Cb Ev _ _).
Local Abbreviation Effect := (@Effect K Cb Ev).
Local Abbreviation Queue := (@Queue K Cb Ev _ _).
Implicit Types cx : App.
Implicit Types q : Queue.

Definition notified (e : Effect) : option K := match e with Notify emitter => Some emitter | _ => None end.
Definition global_notified (e : Effect) : option nat := match e with NotifyGlobalObservers g => Some g | _ => None end.
(** Each emitter waits for one notification at most, and the pending sets say which do. *)
Record queue_ok q : Prop := {
  qo_notify : NoDup (omap notified (pending_effects q));
  qo_notified k : k ∈ pending_notifications q ↔ k ∈ omap notified (pending_effects q);
  qo_global : NoDup (omap global_notified (pending_effects q));
  qo_globals g : g ∈ pending_global_notifications q ↔ g ∈ omap global_notified (pending_effects q);
}.

Lemma queue_ok_push q e : queue_ok q → queue_ok (push_effect q e).
Proof.
  intros [Hn Hns Hg Hgs].
  assert (Hsn : ∀ (e : Effect) l, omap notified (l ++ [e]) = omap notified l ++ match notified e with Some k => [k] | None => [] end).
  { intros e0 l. rewrite omap_app. cbn. by destruct (notified e0). }
  assert (Hsg : ∀ (e : Effect) l, omap global_notified (l ++ [e]) = omap global_notified l ++ match global_notified e with Some k => [k] | None => [] end).
  { intros e0 l. rewrite omap_app. cbn. by destruct (global_notified e0). }
  destruct e as [k|k ty ev| |g|d|en tid w]; cbn [push_effect]; try case_decide as Hin; try done;
    split; cbn [pending_effects pending_notifications pending_global_notifications]; rewrite ?Hsn, ?Hsg;
    cbn [notified global_notified]; rewrite ?app_nil_r; try done.
  - apply NoDup_app. split_and!; [done| |apply NoDup_singleton]. intros k' Hk' ->%list_elem_of_singleton. by rewrite <-Hns in Hk'.
  - intros k'. rewrite elem_of_union, elem_of_singleton, elem_of_app, list_elem_of_singleton, Hns. tauto.
  - apply NoDup_app. split_and!; [done| |apply NoDup_singleton]. intros k' Hk' ->%list_elem_of_singleton. by rewrite <-Hgs in Hk'.
  - intros k'. rewrite elem_of_union, elem_of_singleton, elem_of_app, list_elem_of_singleton, Hgs. tauto.
Qed.
Lemma queue_ok_settle q e : queue_ok q → head (pending_effects q) = Some e → queue_ok (settle e q).
Proof.
  intros [Hn Hns Hg Hgs] He. destruct (pending_effects q) as [|e' l] eqn:Hq; [done|]. injection He as ->.
  destruct e as [k|k ty ev| |g|d|en tid w]; cbn [omap list_omap notified global_notified] in *;
    split; cbn [settle pop_front pending_effects pending_notifications pending_global_notifications]; rewrite ?Hq; cbn [tail];
    try done; try (by apply NoDup_cons in Hn as [_ ?]); try (by apply NoDup_cons in Hg as [_ ?]).
  - intros k'. rewrite elem_of_difference, elem_of_singleton, Hns, elem_of_cons. apply NoDup_cons in Hn as [Hk _]. naive_solver.
  - intros k'. rewrite elem_of_difference, elem_of_singleton, Hgs, elem_of_cons. apply NoDup_cons in Hg as [Hk _]. naive_solver.
Qed.

(** Every subscription is active, or waits in the queue to be activated. *)
Definition waits (set : DeferredSet) (ids : nat * gset nat) (l : list Effect) : Prop :=
  ∀ id, id < ids.1 → id ∈ ids.2 ∨ Defer (Activate set id) ∈ l.
Definition all_active (ids : nat * gset nat) : Prop := ∀ id, id < ids.1 → id ∈ ids.2.
Record app_ok cx : Prop := {
  ao_queue : queue_ok (queue cx);
  ao_observers : waits Observers (set_ids (observers (sets cx))) (pending_effects (queue cx));
  ao_events : waits EventListeners (set_ids (event_listeners (sets cx))) (pending_effects (queue cx));
  ao_globals : waits GlobalObservers (set_ids (global_observers (sets cx))) (pending_effects (queue cx));
  ao_releases : all_active (set_ids (release_listeners (sets cx)));
  ao_created : all_active (set_ids (new_entity_observers (sets cx)));
}.

Lemma waits_more set ids l l' : (∀ e, e ∈ l → e ∈ l') → waits set ids l → waits set ids l'.
Proof. intros Hl Hw id Hid. destruct (Hw id Hid); auto. Qed.
Lemma push_elem q e e' : e' ∈ pending_effects q → e' ∈ pending_effects (push_effect q e).
Proof.
  intros He. destruct e; cbn [push_effect]; try case_decide; try done; cbn [pending_effects]; apply elem_of_app; by left.
Qed.
(** Operations other than an insertion. *)
Lemma run_op_ids {L X} `{Countable L} (st : SubscriberSet L X) (o : op L X) :
  (∀ k cb, o ≠ OInsert k cb) → next_subscriber_id (run_op st o) = next_subscriber_id st ∧ active st ⊆ active (run_op st o).
Proof. intros Ho. destruct o; cbn; [by destruct (Ho emitter_key callback)|..]; set_solver. Qed.
Lemma waits_op {L X} `{Countable L} set (st : SubscriberSet L X) (o : op L X) l :
  (∀ k cb, o ≠ OInsert k cb) → waits set (set_ids st) l → waits set (set_ids (run_op st o)) l.
Proof.
  intros Ho Hw id Hid. destruct (run_op_ids st o Ho) as [Hn Ha]. cbn in Hid. rewrite Hn in Hid.
  destruct (Hw id Hid); [left; by apply Ha|by right].
Qed.
Lemma active_op {L X} `{Countable L} (st : SubscriberSet L X) (o : op L X) :
  (∀ k cb, o ≠ OInsert k cb) → all_active (set_ids st) → all_active (set_ids (run_op st o)).
Proof. intros Ho Ha id Hid. destruct (run_op_ids st o Ho) as [Hn Hs]. cbn in Hid. rewrite Hn in Hid. by apply Hs, Ha. Qed.
Lemma active_insert_op {L X} `{Countable L} (st : SubscriberSet L X) k cb :
  all_active (set_ids st) → all_active (set_ids (run_op (run_op st (OInsert k cb)) (OActivate (next_subscriber_id st)))).
Proof.
  intros Ha id. unfold set_ids. cbn. intros Hid. destruct (decide (id = next_subscriber_id st)) as [->|Hne]; [set_solver|].
  apply elem_of_union. right. apply Ha. cbn. lia.
Qed.
Lemma waits_insert {L X} `{Countable L} set (st : SubscriberSet L X) k cb q :
  waits set (set_ids st) (pending_effects q) →
  waits set (set_ids (run_op st (OInsert k cb))) (pending_effects (push_effect q (Defer (Activate set (next_subscriber_id st))))).
Proof.
  intros Hw id Hid. cbn in Hid. destruct (decide (id = next_subscriber_id st)) as [->|Hne].
  - right. cbn. apply elem_of_app. right. by apply list_elem_of_singleton.
  - destruct (Hw id) as [Ha|Hq]; [cbn; lia|by left|right]. by apply push_elem.
Qed.

Lemma app_ok_step cx cx' : app_ok cx → step cx cx' → app_ok cx'.
Proof.
  intros [Hq Ho He Hg Hr Hc] Hst. destruct Hst as [cx e|cx m|cx t w|cx b n|cx u|cx set o Hi Hs|cx o a Ha]; try by split.
  - split; cbn; try done; [by apply queue_ok_push|..]; (eapply waits_more; [|done]; intros e'; apply push_elem).
  - destruct u; split; cbn [sub with_sets sets queue unsubscribe_op run_sub set_observers set_event_listeners set_release_listeners
      set_global_observers set_new_entity_observers observers event_listeners release_listeners global_observers new_entity_observers];
      try done; first [by apply waits_op|by apply active_op].
  - destruct o as [[k cb| | |]|[k cb| | |]| |[k cb| | |]|], set; try done; split; cbn [subscribe_deferred fst push with_queue queue sets sub with_sets run_sub next_of
      set_observers set_event_listeners set_global_observers observers event_listeners release_listeners global_observers new_entity_observers];
      try done; try (by apply queue_ok_push); try (by apply waits_insert);
      (eapply waits_more; [|done]; intros e'; apply push_elem).
  - destruct Ha as [(k & cb & -> & ->)|(k & cb & -> & ->)]; split; cbn [subscribe_active fst queue sets sub with_sets run_sub next_of
      set_release_listeners set_new_entity_observers observers event_listeners release_listeners global_observers new_entity_observers];
      try done; by apply active_insert_op.
Qed.
Lemma app_ok_ids cx s : ids_of s = ids_of (sets cx) → app_ok cx → app_ok (with_sets cx s).
Proof.
  unfold ids_of. intros [= Ho Ho' He He' Hr Hr' Hg Hg' Hc Hc'] [? ? ? ? ? ?]. split; cbn; try done; unfold set_ids;
    rewrite ?Ho, ?Ho', ?He, ?He', ?Hr, ?Hr', ?Hg, ?Hg', ?Hc, ?Hc'; done.
Qed.
Lemma app_ok_begin cx e : app_ok cx → head (pending_effects (queue cx)) = Some e → app_ok (begin_effect e cx).
Proof.
  intros Hok He. pose proof (queue_ok_settle _ _ (ao_queue _ Hok) He) as Hq. destruct Hok as [_ Ho Hev Hg Hr Hc].
  destruct (pending_effects (queue cx)) as [|e' l] eqn:Hl; [done|]. injection He as ->.
  assert (Htail : pending_effects (settle e (queue cx)) = l) by (destruct e; cbn; by rewrite Hl).
  assert (Hw : ∀ set ids, (∀ id, e ≠ Defer (Activate set id)) → waits set ids (e :: l) → waits set ids l).
  { intros set ids Hne Hw id Hid. destruct (Hw id Hid) as [|[E|?]%elem_of_cons]; [by left|by destruct (Hne id)|by right]. }
  assert (Hwa : ∀ {L X} `{Countable L} set (st : SubscriberSet L X) id, e = Defer (Activate set id) →
    waits set (set_ids st) (e :: l) → waits set (set_ids (run_op st (OActivate id))) l).
  { intros L X ?? set st id -> Hw' i Hi. cbn in *. destruct (decide (i = id)) as [->|Hne]; [left; set_solver|].
    destruct (Hw' i Hi) as [?|[[= ->]|?]%elem_of_cons]; [left; set_solver|done|by right]. }
  unfold begin_effect. destruct e as [k|k ty ev| |g|[cb|set id]|en tid w]; split;
    cbn [with_queue queue sets sub with_sets run_sub activation] ; try done; rewrite ?Htail;
    try (by apply Hw); destruct set; cbn [run_sub set_observers set_event_listeners set_global_observers observers event_listeners
      release_listeners global_observers new_entity_observers]; try done; first [by apply Hwa|by apply Hw].
Qed.

Lemma app_ok_start em t w s : app_ok (mkApp (Ev:=Ev) em t (mkSets set_new set_new set_new set_new set_new) (mkQueue [] ∅ ∅) w s false 0).
Proof. split; [split; cbn; try constructor; set_solver|..]; intros id Hid; cbn in Hid; lia. Qed.

End app_ok.
