(* ===== verification/EffectsTheorems.v ===== *)
(** Theorems about the effect cycle: what holds after an update, that callbacks run to completion, when
    subscriptions begin to be called, and how the subscribers of an effect are called. *)
From stdpp Require Import countable gmap.
From S2P Require Import Prelude Subscription SubscriptionFacts Entities EntityTheorems Tracking Effects EffectsFacts.
Local Open Scope nat_scope.

Section theorems.
Context {S K V Cb Ev : Type} `{SlotKeys S K}.
Local Abbreviation App := (@App S K V Cb Ev _ _).
Local Abbreviation Command := (@Command K V Cb Ev _ _).
Local Abbreviation Effect := (@Effect K Cb Ev).
Local Abbreviation SubOp := (@SubOp K Cb).
Local Abbreviation Subs := (@SubscriberSets K Cb _ _).
Implicit Types cx : App.
Context (behave : Cb → @Trigger K V Ev → App → list Command * bool) (handles_in : V → list (AnyEntity K)).

(** ** After an update *)

(** No update is under way and nothing waits. *)
Definition at_rest cx : Prop :=
  flushing_effects cx = false ∧ pending_updates cx = 0 ∧ pending_effects (queue cx) = [] ∧
  pending_notifications (queue cx) = ∅ ∧ pending_global_notifications (queue cx) = ∅.

(** C23: The effect cycle settles: when an update from a state at rest returns, whatever it and all callbacks
    did, the next state is at rest again, without effects, notifications or dropped entities that wait; and every
    subscription that was ever made is active.  In between the queue is in order all the time: each emitter and each
    global waits for one notification at most, the pending sets name exactly those that wait, and every subscription
    is active or waits for its activation.  It is so after each of the calls of the update, and in every state in which
    a callback is called, so that callbacks that would do anything else in another state give the same update; and the
    calls of a callback keep it so. *)
Theorem update_settles fuel cmds cx :
  app_ok cx → at_rest cx →
  (∀ cx', update behave handles_in fuel cmds cx = Ok cx' →
    app_ok cx' ∧ at_rest cx' ∧ dropped_entity_ids (ref_counts (app_entities cx')) = [] ∧
    Forall all_active (ids_of (sets cx'))) ∧
  (∀ cmds1 cmds2 cx1 t, cmds = cmds1 ++ cmds2 →
    run_commands (flush_effects behave handles_in fuel) cmds1 (start_update cx) = Ok (cx1, t) → app_ok cx1) ∧
  (∀ behave', (∀ cb trigger cx1, app_ok cx1 → behave' cb trigger cx1 = behave cb trigger cx1) →
    update behave' handles_in fuel cmds cx = update behave handles_in fuel cmds cx) ∧
  (∀ flush cmds1 cx1 cx2 t, app_ok cx1 → busy cx1 → run_commands flush cmds1 cx1 = Ok (cx2, t) → app_ok cx2) ∧
  (∀ cx1, app_ok cx1 → NoDup (omap notified (pending_effects (queue cx1))) ∧ NoDup (omap global_notified (pending_effects (queue cx1)))).
Proof.
  intros Hok (Hf & Hu & _). split; [|split; [|split; [|split]]].
  - intros cx' Hup.
    destruct (update_good app_ok app_ok_step app_ok_ids app_ok_begin behave handles_in fuel cmds cx cx' Hok Hf Hu Hup)
      as (Hok' & Hf' & Hu' & Hq & Hd).
    split; [done|]. destruct Hok' as [[_ Hn _ Hg] Ho He Hgl Hr Hc]. rewrite Hq in *.
    split; [|split; [done|]].
    + split_and!; try done; apply set_eq; intros k; rewrite ?Hn, ?Hg; cbn; set_solver.
    + assert (Hw : ∀ set ids, waits (K:=K) (Cb:=Cb) (Ev:=Ev) set ids [] → all_active ids).
      { intros set ids Hw id Hid. destruct (Hw id Hid) as [|[]%elem_of_nil]; done. }
      unfold ids_of. repeat constructor; eauto.
  - intros cmds1 cmds2 cx1 t _. apply (commands_keep app_ok app_ok_step); [|right; cbn; lia].
    eapply app_ok_step; [exact Hok|apply step_flags].
  - intros behave' Hagree. by apply (update_agree app_ok app_ok_step app_ok_ids app_ok_begin).
  - intros flush cmds1 cx1 cx2 t Hok1 Hb. by apply (commands_keep app_ok app_ok_step).
  - by intros cx1 [[? _ ? _] _ _ _ _ _].
Qed.

(** ** Callbacks *)

Lemma push_appends (q : @Queue K Cb Ev _ _) e :
  ∃ l, pending_effects (push_effect q e) = pending_effects q ++ l.
Proof.
  destruct e; cbn [push_effect]; try case_decide; cbn [pending_effects]; try (by eexists); exists []; by rewrite app_nil_r.
Qed.
Lemma step_appends cx cx' : step cx cx' → ∃ l, pending_effects (queue cx') = pending_effects (queue cx) ++ l.
Proof.
  destruct 1; try (exists []; by rewrite app_nil_r); [apply push_appends|]. cbn. by eexists.
Qed.

(** What was done between two states only appended effects and changed subscriptions. *)
Definition only_queued cx cx' (t : list SubOp) : Prop :=
  (∃ l, pending_effects (queue cx') = pending_effects (queue cx) ++ l) ∧
  flushing_effects cx' = flushing_effects cx ∧ pending_updates cx' = pending_updates cx ∧
  sets cx' = foldl run_sub (sets cx) t.

(** C25: Callbacks run to completion: while effects are flushed, or within an update, the calls of a callback
    or of a nested update never flush effects, whatever the flush would do; they only append effects to the
    queue, behind those that wait, and change the subscriptions by their own operations. *)
Theorem callbacks_run_to_completion flush flush' cmds cx :
  busy cx →
  run_commands flush cmds cx = run_commands flush' cmds cx ∧
  ∀ cx' t, run_commands flush cmds cx = Ok (cx', t) → only_queued cx cx' t.
Proof.
  intros Hb. destruct (commands_nested flush flush' cmds cx Hb) as [He Hr]. split; [done|].
  intros cx' t Hrun. destruct (Hr cx' t Hrun) as [Hst Hf Hu _ Hs]. split_and!; try done.
  clear -Hst. induction Hst as [cx|cx1 cx2 cx3 H1 _ IH]; [exists []; by rewrite app_nil_r|].
  destruct (step_appends _ _ H1) as (l1 & Hl1). destruct IH as (l2 & Hl2). exists (l1 ++ l2). by rewrite Hl2, Hl1, app_assoc.
Qed.

(** ** New subscriptions *)

Definition ids_in (set : DeferredSet) (s : Subs) : nat * gset nat :=
  match set with
  | Observers => set_ids (observers s)
  | EventListeners => set_ids (event_listeners s)
  | GlobalObservers => set_ids (global_observers s)
  end.
(** The subscription was made, and is not active. *)
Definition inactive (set : DeferredSet) (id : nat) cx : Prop :=
  id < (ids_in set (sets cx)).1 ∧ id ∉ (ids_in set (sets cx)).2.

Lemma inactive_step set id cx cx' : inactive set id cx → step cx cx' → inactive set id cx'.
Proof.
  intros [Hlt Hin] Hst. destruct Hst as [cx e|cx m|cx t w|cx b n|cx u|cx set' o Hi Hs|cx o a Ha]; try by split.
  - unfold inactive in *. destruct u, set; done.
  - unfold inactive in *. destruct o as [[k cb| | |]|[k cb| | |]| |[k cb| | |]|], set', set; try done; cbn in *; (split; [lia|done]).
  - unfold inactive in *. destruct Ha as [(k & cb & -> & ->)|(k & cb & -> & ->)], set; done.
Qed.
Lemma inactive_ids set id cx s : ids_of s = ids_of (sets cx) → inactive set id cx → inactive set id (with_sets cx s).
Proof.
  unfold inactive, ids_of. intros [= ? ? ? ? ? ? ? ? ? ?]. cbn. destruct set; unfold ids_in, set_ids; cbn; intuition congruence.
Qed.
Lemma inactive_begin set id cx e : e ≠ Defer (Activate set id) → inactive set id cx → inactive set id (begin_effect e cx).
Proof.
  intros Hne [Hlt Hin]. unfold inactive, begin_effect. destruct e as [k|k ty ev| |g|[cb|set' id']|en tid w]; try done.
  destruct (decide (id = id')) as [->|Hid]; destruct set, set'; try done; cbn in *; (split; [done|]); set_solver.
Qed.

(** The commands that make a subscription whose activation is deferred. *)
Definition subscribes (c : Command) : option DeferredSet :=
  match c with
  | CObserve _ _ => Some Observers
  | CSubscribe _ _ _ => Some EventListeners
  | CObserveGlobal _ _ => Some GlobalObservers
  | _ => None
  end.

(** A subscription is not called for effects that were queued before it was made: its activation is
    queued behind them, and applying any other effect, with all that callbacks do, leaves it inactive. *)
Theorem subscription_waits flush c set cx :
  subscribes c = Some set → Forall (λ ids, ∀ id, id ∈ ids.2 → id < ids.1) (ids_of (sets cx)) →
  let id := (ids_in set (sets cx)).1 in
  (∃ cx' t, run_command flush c cx = Ok (cx', t) ∧ inactive set id cx' ∧
    pending_effects (queue cx') = pending_effects (queue cx) ++ [Defer (Activate set id)]) ∧
  ∀ cx1 cx2 e, inactive set id cx1 → flushing_effects cx1 = true → e ≠ Defer (Activate set id) →
    apply_effect flush behave e (with_queue cx1 (pop_front (queue cx1))) = Ok cx2 → inactive set id cx2.
Proof.
  intros Hc Hids id. split.
  - assert (Hfresh : id ∉ (ids_in set (sets cx)).2).
    { rewrite Forall_forall in Hids. intros Hin. unfold id in Hin.
      assert (ids_in set (sets cx) ∈ ids_of (sets cx)) as Hi by (destruct set; unfold ids_of; cbn; set_solver).
      specialize (Hids _ Hi _ Hin). lia. }
    destruct c; try done; injection Hc as <-; (eexists _, _; split; [done|]); (split; [|done]);
      unfold inactive; cbn in *; (split; [unfold id; cbn; lia|done]).
  - intros cx1 cx2 e Hin Hf Hne Ha.
    assert (Hg : good (inactive set id) (pending_updates cx1) (window_update_stack cx1) (begin_effect e cx1)).
    { split; [by apply inactive_begin|]. unfold begin_effect. by destruct e as [| | | |[|[]]|]. }
    eapply (apply_effect_good (inactive set id) (inactive_step set id) (inactive_ids set id)) in Ha; [apply Ha|exact Hg].
Qed.

(** ** How subscribers are called *)

Section deliver.
Context {L X : Type} `{Countable L} (get : Subs → SubscriberSet L X) (put : Subs → SubscriberSet L X → Subs)
  (ops : SubOp → option (op L X)) (Hfield : SetField get put ops)
  (run : X → App → outcome (App * list SubOp * bool))
  (Hrun : ∀ cb cx cx' t keep, busy cx → run cb cx = Ok (cx', t, keep) → ran cx cx' t).
Implicit Types m : list (nat * X).

(** The reference: the callbacks run on the [App] itself, one after the other; the subscribers that stay. *)
Fixpoint deliver m cx : outcome (App * list (nat * X)) :=
  match m with
  | [] => Ok (cx, [])
  | (id, cb) :: m =>
      if decide (id ∉ active (get (sets cx))) then '(cx, m) ← deliver m cx; Ok (cx, (id, cb) :: m)
      else if decide (id ∈ dropped (get (sets cx))) then deliver m cx
      else
        '(cx, _, keep) ← run cb cx;
        let stays := keep && bool_decide (id ∉ dropped (get (sets cx))) in
        '(cx, m) ← deliver m cx;
        Ok (cx, if stays then (id, cb) :: m else m)
  end.
(** The subscribers are taken out of the set while they are called, and put back in front of those that
    were added meanwhile. *)
Definition take_out (emitter : L) (st : SubscriberSet L X) : SubscriberSet L X :=
  mkSet (<[emitter := None]> (subscribers st)) (next_subscriber_id st) (active st) (dropped st).
Definition put_back (emitter : L) m (st : SubscriberSet L X) : SubscriberSet L X :=
  let m := match subscribers st !! emitter with Some (Some added) => btree_extend m added | _ => m end in
  let others := delete emitter (subscribers st) in
  mkSet (if decide (m = []) then others else <[emitter := Some m]> others) (next_subscriber_id st) (active st) (dropped st).
Definition on_set (f : SubscriberSet L X → SubscriberSet L X) cx : App := with_sets cx (put (sets cx) (f (get (sets cx)))).

Lemma with_sets_get cx : with_sets cx (put (sets cx) (get (sets cx))) = cx.
Proof using Hfield. rewrite (field_put _ _ _ Hfield). by destruct cx. Qed.
Lemma failed_loop (w : outcome App) st m :
  (∀ cx, w ≠ Ok cx) → (retain_loop (handler put ops run) w st m).1.1 = w.
Proof using.
  intros Hw. revert st. induction m as [|[id cb] m IH]; intros st; [done|]. cbn [retain_loop].
  assert (Hh : handler put ops run w st cb = (w, [], cb, true)) by (destruct w; [by destruct (Hw x)|done..]).
  rewrite Hh. cbn [foldl]. specialize (IH st). destruct (decide (id ∉ active st)), (decide (id ∈ dropped st)), (retain_loop _ w st m) as [[w' st'] m']; done.
Qed.

Lemma retain_loop_deliver m cx st :
  busy cx →
  match deliver m (with_sets cx (put (sets cx) st)) with
  | Ok (cx2, m') => ∃ cx' st', retain_loop (handler put ops run) (Ok cx) st m = (Ok cx', st', m') ∧
      cx2 = with_sets cx' (put (sets cx') st') ∧ get (sets cx2) = st'
  | Panic => (retain_loop (handler put ops run) (Ok cx) st m).1.1 = Panic
  | OutOfFuel => (retain_loop (handler put ops run) (Ok cx) st m).1.1 = OutOfFuel
  end.
Proof using Hfield Hrun.
  revert cx st. induction m as [|[id cb] m IH]; intros cx st Hb; cbn [deliver retain_loop].
  { exists cx, st. split_and!; [done..|]. apply (field_get _ _ _ Hfield). }
  set (cx0 := with_sets cx (put (sets cx) st)).
  assert (Hst : get (sets cx0) = st) by apply (field_get _ _ _ Hfield). rewrite !Hst.
  pose proof (IH cx st Hb) as IH0. fold cx0 in IH0.
  destruct (decide (id ∉ active st)).
  { destruct (deliver m cx0) as [[cx2 m']| |]; cbn [mbind outcome_bind].
    - destruct IH0 as (cx' & st' & E & Hc1 & Hc2). exists cx', st'. by rewrite E.
    - by destruct (retain_loop _ (Ok cx) st m) as [[? ?] ?].
    - by destruct (retain_loop _ (Ok cx) st m) as [[? ?] ?]. }
  destruct (decide (id ∈ dropped st)); [done|]. unfold handler at 1 3 5. fold cx0.
  destruct (run cb cx0) as [[[cx1 t] keep]| |] eqn:E; cbn [mbind outcome_bind foldl].
  - assert (Hb0 : busy cx0) by done. pose proof (Hrun _ _ _ _ _ Hb0 E) as Hr.
    assert (Hg1 : foldl run_op st (omap ops t) = get (sets cx1)).
    { rewrite (ran_subs _ _ _ Hr), (field_ops _ _ _ Hfield). by rewrite Hst. }
    rewrite Hg1. specialize (IH cx1 (get (sets cx1)) (ran_busy _ _ _ Hr Hb0)). rewrite with_sets_get in IH.
    destruct (deliver m cx1) as [[cx2 m']| |]; cbn [mbind outcome_bind].
    + destruct IH as (cx' & st' & E' & Hc1 & Hc2). exists cx', st'. by rewrite E'.
    + by destruct (retain_loop _ (Ok cx1) _ m) as [[? ?] ?].
    + by destruct (retain_loop _ (Ok cx1) _ m) as [[? ?] ?].
  - assert (Hfail : (retain_loop (handler put ops run) Panic st m).1.1 = Panic) by by apply failed_loop.
    by destruct (retain_loop _ Panic st m) as [[? ?] ?].
  - assert (Hfail : (retain_loop (handler put ops run) OutOfFuel st m).1.1 = OutOfFuel) by by apply failed_loop.
    by destruct (retain_loop _ OutOfFuel st m) as [[? ?] ?].
Qed.

Lemma notify_all_deliver emitter cx :
  busy cx →
  notify_all get put ops run emitter cx =
    match subscribers (get (sets cx)) !! emitter with
    | Some (Some m) => '(cx, m) ← deliver m (on_set (take_out emitter) cx); Ok (on_set (put_back emitter m) cx)
    | _ => Ok cx
    end.
Proof using Hfield Hrun.
  intros Hb. unfold notify_all, retain. destruct (subscribers (get (sets cx)) !! emitter) as [[m|]|]; [|cbn [mbind outcome_bind]; by rewrite with_sets_get..].
  pose proof (retain_loop_deliver m cx (take_out emitter (get (sets cx))) Hb) as Hl. fold (take_out emitter (get (sets cx))).
  unfold on_set at 1. destruct (deliver m _) as [[cx2 m']| |].
  - destruct Hl as (cx' & st' & -> & -> & Hst). cbn [mbind outcome_bind]. f_equal. unfold on_set.
    assert (Hg : get (sets (with_sets cx' (put (sets cx') st'))) = st') by done. rewrite Hg. cbn [with_sets sets]. rewrite (field_put_put _ _ _ Hfield). by destruct cx'.
  - destruct (retain_loop _ (Ok cx) _ m) as [[w st'] m']. cbn in Hl. by rewrite Hl.
  - destruct (retain_loop _ (Ok cx) _ m) as [[w st'] m']. cbn in Hl. by rewrite Hl.
Qed.
End deliver.

Definition unnotified cx (emitter : K) : App :=
  let q := queue cx in
  with_queue cx (mkQueue (pending_effects q) (pending_notifications q ∖ {[emitter]}) (pending_global_notifications q)).
Definition event_handler flush (event_type : nat) (event : Ev) (emitter : K) :
    nat * Cb → App → outcome (App * list SubOp * bool) :=
  λ '(stored_type, cb) cx,
    if decide (stored_type = event_type) then call_upgraded flush behave emitter (OnEvent event) cb cx else Ok (cx, [], true).
Lemma event_handler_ran flush ty ev emitter cb cx cx' t keep :
  busy cx → event_handler flush ty ev emitter cb cx = Ok (cx', t, keep) → ran cx cx' t.
Proof.
  intros Hb. destruct cb as [stored cb]. unfold event_handler. case_decide; [by apply call_upgraded_ran|]. intros [= <- <- <-]. apply ran_refl.
Qed.

(** C24: Notifications and events call the subscribers of their emitter in the order in which they subscribed,
    on the state that the calls before have left: a subscriber that is not active yet is passed over and
    stays, one whose subscription was dropped, also by a call before it, is left out, and one is taken out
    when its handler is done or its subscription was dropped meanwhile.  Handlers are not called, and are taken
    out, once the emitter is gone.  Subscribers that were added during the calls follow those that stay. *)
Theorem effects_call_subscribers flush cx emitter event_type event :
  busy cx →
  apply_notify_effect flush behave emitter cx =
    (let cx := unnotified cx emitter in
     match subscribers (observers (sets cx)) !! emitter with
     | Some (Some m) =>
         '(cx, m) ← deliver observers (call_upgraded flush behave emitter OnNotify) m (on_set observers set_observers (take_out emitter) cx);
         Ok (on_set observers set_observers (put_back emitter m) cx)
     | _ => Ok cx
     end) ∧
  apply_emit_effect flush behave emitter event_type event cx =
    match subscribers (event_listeners (sets cx)) !! emitter with
    | Some (Some m) =>
        '(cx, m) ← deliver event_listeners (event_handler flush event_type event emitter) m
          (on_set event_listeners set_event_listeners (take_out emitter) cx);
        Ok (on_set event_listeners set_event_listeners (put_back emitter m) cx)
    | _ => Ok cx
    end ∧
  ∀ trigger cb, upgrade (counts_of cx) (mkWeak emitter 0 (Some (map_id (app_entities cx)))) = None →
    call_upgraded flush behave emitter trigger cb cx = Ok (cx, [], false).
Proof.
  intros Hb. split_and!.
  - apply (notify_all_deliver observers set_observers observers_op observers_field); [|done].
    intros cb ? ? ? ?. apply call_upgraded_ran.
  - unfold apply_emit_effect. rewrite <-(notify_all_deliver event_listeners set_event_listeners events_op events_field); [|apply event_handler_ran|done].
    done.
  - intros trigger cb Hu. unfold call_upgraded. by rewrite Hu.
Qed.

(** ** Termination *)

(** Handlers that call nothing. *)
Definition quiet : Prop := ∀ cb trigger cx, (behave cb trigger cx).1 = [].
Definition unchanged cx cx' : Prop :=
  queue cx' = queue cx ∧ flushing_effects cx' = flushing_effects cx ∧ pending_updates cx' = pending_updates cx ∧
  dropped_entity_ids (ref_counts (app_entities cx')) = dropped_entity_ids (ref_counts (app_entities cx)).

Lemma quiet_call flush trigger cb cx : quiet → ∃ keep, call flush behave trigger cb cx = Ok (cx, [], keep).
Proof. intros Hq. unfold call. specialize (Hq cb trigger cx). destruct (behave cb trigger cx) as [cmds keep]. cbn in Hq. subst. by exists keep. Qed.
Lemma quiet_upgraded flush emitter trigger cb cx :
  quiet → ∃ cx' keep, call_upgraded flush behave emitter trigger cb cx = Ok (cx', [], keep) ∧ unchanged cx cx' ∧ sets cx' = sets cx.
Proof.
  intros Hq. unfold call_upgraded. destruct (upgrade _ _) as [[e rc]|] eqn:Eu; [|by exists cx, false].
  destruct (quiet_call flush trigger cb (with_ref_counts cx rc) Hq) as [keep ->]. cbn [mbind outcome_bind].
  unfold upgrade, counts_of in Eu. cbn in Eu. destruct (counts (ref_counts (app_entities cx)) !! emitter) as [n|] eqn:En; [|done].
  unfold atomic_incr_if_not_zero in Eu. cbn in Eu. destruct (decide (n = 0)) as [->|Hn]; [done|]. cbn in Eu.
  destruct (n + 1) as [|m] eqn:Em; [lia|]. injection Eu as <- <-. unfold drop_handle, counts_of, drop_entity, drop_begin.
  cbn. rewrite lookup_insert_eq. cbn. rewrite (bool_decide_true (Datatypes.S m ≠ 0)) by lia. cbn. rewrite (bool_decide_false (Datatypes.S m = 1)) by lia. cbn.
  eexists _, keep. split; [done|]. done.
Qed.
Lemma quiet_deliver {L X} `{Countable L} (get : Subs → SubscriberSet L X) run m cx :
  (∀ cb cx, ∃ cx' keep, run cb cx = Ok (cx', [], keep) ∧ unchanged cx cx' ∧ sets cx' = sets cx) →
  ∃ cx' m', deliver get run m cx = Ok (cx', m') ∧ unchanged cx cx' ∧ sets cx' = sets cx.
Proof.
  intros Hrun. revert cx. induction m as [|[id cb] m IH]; intros cx; cbn [deliver]; [by exists cx, []|].
  destruct (IH cx) as (cx1 & m1 & E1 & Hu1 & Hs1). destruct (decide (id ∉ active (get (sets cx)))); [rewrite E1; by eexists _, _|].
  destruct (decide (id ∈ dropped (get (sets cx)))); [rewrite E1; by eexists _, _|].
  destruct (Hrun cb cx) as (cx2 & keep & -> & (H2a & H2b & H2c & H2d) & Hs2). cbn [mbind outcome_bind].
  destruct (IH cx2) as (cx3 & m3 & -> & (H3a & H3b & H3c & H3d) & Hs3). cbn [mbind outcome_bind].
  eexists _, _. split; [done|]. unfold unchanged. split_and!; congruence.
Qed.

Definition is_created (e : Effect) : bool := match e with EntityCreated _ _ _ => true | _ => false end.
Definition settled cx (l : list Effect) : Prop :=
  flushing_effects cx = true ∧ pending_effects (queue cx) = l ∧ dropped_entity_ids (ref_counts (app_entities cx)) = [].
Lemma settled_unchanged cx cx' l : settled cx l → unchanged cx cx' → settled cx' l.
Proof. intros (Hf & Hl & Hd) (Hq & Hf' & _ & Hd'). split_and!; congruence. Qed.

Lemma quiet_notify_all {L X} `{Countable L} (get : Subs → SubscriberSet L X) put ops run emitter cx l :
  SetField get put ops → (∀ cb cx cx' t keep, busy cx → run cb cx = Ok (cx', t, keep) → ran cx cx' t) →
  (∀ cb cx, ∃ cx' keep, run cb cx = Ok (cx', [], keep) ∧ unchanged cx cx' ∧ sets cx' = sets cx) →
  settled cx l → ∃ cx', notify_all get put ops run emitter cx = Ok cx' ∧ settled cx' l.
Proof.
  intros Hfield Hran Hrun Hs. rewrite (notify_all_deliver get put ops Hfield run Hran) by (left; apply Hs).
  destruct (subscribers (get (sets cx)) !! emitter) as [[m|]|]; [|by exists cx..].
  destruct (quiet_deliver get run m (on_set get put (take_out emitter) cx) Hrun) as (cx' & m' & -> & Hu & _).
  cbn [mbind outcome_bind]. eexists. split; [done|].
  assert (Hs' : settled cx' l) by (eapply settled_unchanged; [|exact Hu]; exact Hs). exact Hs'.
Qed.

Lemma quiet_effect flush e l cx :
  quiet → is_created e = false → settled cx (e :: l) →
  ∃ cx', apply_effect flush behave e (with_queue cx (pop_front (queue cx))) = Ok cx' ∧ settled cx' l.
Proof.
  intros Hq He (Hf & Hl & Hd). assert (Hpop : tail (pending_effects (queue cx)) = l) by by rewrite Hl.
  destruct e as [k|k ty ev| |g|[cb|set id]|]; try done; cbn [apply_effect].
  - apply (quiet_notify_all observers set_observers observers_op); [apply observers_field|intros cb ? ? ? ?; apply call_upgraded_ran| |done].
    intros cb c. by apply quiet_upgraded.
  - apply (quiet_notify_all event_listeners set_event_listeners events_op); [apply events_field|apply event_handler_ran| |done].
    intros [stored cb] c. unfold event_handler. case_decide; [by apply quiet_upgraded|]. by exists c, true.
  - eexists. split; [done|done].
  - apply (quiet_notify_all global_observers set_global_observers globals_op); [apply globals_field| | |done].
    + intros cb c c' t keep Hb. destruct (call _ _ _ cb c) as [[[c1 t1] k]| |] eqn:E; [|done..]. intros [= <- <- <-]. by apply call_ran in E.
    + intros cb c. destruct (quiet_call flush OnGlobal cb c Hq) as [k ->]. by exists c, true.
  - cbn [apply_defer_effect]. destruct (quiet_call flush OnDefer cb (with_queue cx (pop_front (queue cx))) Hq) as [k ->]. by eexists.
  - eexists. split; [done|]. done.
Qed.

Lemma flush_step fuel cx :
  flush_effects behave handles_in (Datatypes.S fuel) cx =
    (cx ← release_dropped_entities (flush_effects behave handles_in fuel) behave handles_in fuel cx;
     match head (pending_effects (queue cx)) with
     | Some effect =>
         cx ← apply_effect (flush_effects behave handles_in fuel) behave effect (with_queue cx (pop_front (queue cx)));
         flush_effects behave handles_in fuel cx
     | None => Ok cx
     end).
Proof. done. Qed.
Lemma nothing_dropped flush fuel cx :
  dropped_entity_ids (ref_counts (app_entities cx)) = [] →
  ∃ cx', release_dropped_entities flush behave handles_in (Datatypes.S fuel) cx = Ok cx' ∧ unchanged cx cx'.
Proof.
  intros Hd. cbn [release_dropped_entities]. unfold take_dropped. rewrite Hd. cbn [take_loop mbind outcome_bind].
  eexists. split; [done|]. unfold unchanged. by rewrite Hd.
Qed.

(** With handlers that call nothing the flush ends, after one round for each effect that waits, and
    without a panic, whatever subscriptions there are. *)
Theorem quiet_flush_ends fuel cx :
  quiet → flushing_effects cx = true → dropped_entity_ids (ref_counts (app_entities cx)) = [] →
  Forall (λ e, is_created e = false) (pending_effects (queue cx)) → length (pending_effects (queue cx)) + 2 ≤ fuel →
  ∃ cx', flush_effects behave handles_in fuel cx = Ok cx' ∧ pending_effects (queue cx') = [].
Proof.
  intros Hq Hf Hd Hall Hfuel. remember (pending_effects (queue cx)) as l eqn:Hl. symmetry in Hl.
  assert (Hs : settled cx l) by done. clear Hf Hd Hl.
  revert fuel cx Hs Hfuel. induction Hall as [|e l He _ IH]; intros fuel cx Hs Hfuel;
    (destruct fuel as [|[|fuel]]; [cbn in Hfuel; lia..|]); rewrite flush_step;
    (destruct (nothing_dropped (flush_effects behave handles_in (Datatypes.S fuel)) fuel cx) as (cx1 & -> & Hu); [apply Hs|]);
    apply (settled_unchanged _ _ _ Hs) in Hu; cbn [mbind outcome_bind]; rewrite (proj1 (proj2 Hu)); cbn [head].
  - exists cx1. split; [done|]. apply Hu.
  - destruct (quiet_effect (flush_effects behave handles_in (Datatypes.S fuel)) e l cx1 Hq He Hu) as (cx2 & -> & Hs2).
    cbn [mbind outcome_bind]. apply IH; [done|]. cbn in Hfuel |- *. lia.
Qed.
End theorems.

(** ** Samples *)

Section samples.
Local Abbreviation App := (@App nat nat nat nat nat _ _).
Local Abbreviation Command := (@Command nat nat nat nat _ _).
Implicit Types cx : App.

Definition app0 : App :=
  mkApp (entity_map_new 1) tracking_new (mkSets set_new set_new set_new set_new set_new) (mkQueue [] ∅ ∅) ∅ [] false 0.
(** Callback 1 emits an event of type 7, callback 2 makes an entity of the event, the others do nothing. *)
Definition behave0 (cb : nat) (trigger : @Trigger nat nat nat) cx : list Command * bool :=
  match cb, trigger with
  | 1, OnNotify => ([CNotify 0; CEmit 0 7 40], true)
  | 2, OnEvent ev => ([CUpdate [CNew 3 [] ev]], false)
  | _, _ => ([], true)
  end.
Definition nothing_in (v : nat) : list (AnyEntity nat) := [].

(** The listener makes an entity of the first event and is taken out, so that the second one makes none. *)
Definition demo_update : list Command :=
  [CNew 3 [] 5; CObserve 0 3; CSubscribe 0 7 2; CNotify 0; CNotify 0; CEmit 0 7 40; CEmit 0 7 41].
Example demo_update_result :
  (cx ← update behave0 nothing_in 20 demo_update app0;
   Ok (map_to_list (entities (app_entities cx)), map_to_list (counts (ref_counts (app_entities cx)))))
  = Ok ([(1, 40); (0, 5)], [(1, 1); (0, 1)]).
Proof. vm_compute. reflexivity. Qed.
(** An entity that is dropped in the update that made it is gone before its observers are notified. *)
Example demo_dropped :
  (cx ← update behave0 nothing_in 20 [CNew 3 [] 5; CObserve 0 1; CNotify 0; CDrop (mkEntity 0 3 1)] app0;
   Ok (map_to_list (entities (app_entities cx)), map_to_list (subscribers (observers (sets cx)))))
  = Ok ([], []).
Proof. vm_compute. reflexivity. Qed.
(** An update of an entity that is being updated panics. *)
Example demo_double_lease :
  update behave0 nothing_in 20 [CNew 3 [] 5; CUpdateEntity (mkEntity 0 3 1) [CUpdateEntity (mkEntity 0 3 1) [] id] id] app0 = Panic.
Proof. vm_compute. reflexivity. Qed.

Lemma app0_ok : app_ok app0.
Proof. apply app_ok_start. Qed.

(** Callbacks that fail where two notifications of one emitter wait. *)
Definition watchful (cb : nat) (trigger : @Trigger nat nat nat) cx : list Command * bool :=
  if decide (NoDup (omap notified (pending_effects (queue cx)))) then behave0 cb trigger cx
  else ([CDrop (mkEntity 99 0 1)], true).
Lemma update_settles_witness :
  ∃ cx', update watchful nothing_in 20 demo_update app0 = Ok cx' ∧ at_rest cx' ∧ next_subscriber_id (observers (sets cx')) = 1.
Proof.
  destruct (update_settles behave0 nothing_in 20 demo_update app0 app0_ok) as (Hrest & _ & Hsame & _); [repeat split|].
  rewrite (Hsame watchful).
  2:{ intros cb trigger cx1 Hok. unfold watchful. rewrite decide_True; [reflexivity|]. apply Hok. }
  destruct (update behave0 nothing_in 20 demo_update app0) as [cx'| |] eqn:E; [|vm_compute in E; discriminate E..].
  exists cx'. split; [reflexivity|]. split.
  - exact (proj1 (proj2 (Hrest cx' eq_refl))).
  - vm_compute in E. injection E as <-. reflexivity.
Defined.
Lemma callbacks_run_to_completion_witness :
  busy (start_update app0) ∧
  run_commands (λ _, Panic) demo_update (start_update app0) = run_commands (λ _, OutOfFuel) demo_update (start_update app0).
Proof.
  assert (Hb : busy (start_update app0)) by (right; cbn; lia). split; [exact Hb|].
  exact (proj1 (callbacks_run_to_completion (λ _, Panic) (λ _, OutOfFuel) demo_update (start_update app0) Hb)).
Defined.
Lemma subscription_waits_witness :
  ∃ cx' t, run_command (λ _, Panic) (CObserve 0 1) app0 = Ok (cx', t) ∧ inactive Observers 0 cx' ∧
    pending_effects (queue cx') = [Defer (Activate Observers 0)].
Proof.
  refine (proj1 (subscription_waits behave0 (λ _, Panic) (CObserve 0 1) Observers app0 eq_refl _)).
  repeat constructor; cbn; intros id Hid; apply elem_of_empty in Hid; destruct Hid.
Defined.
Lemma effects_call_subscribers_witness :
  busy (start_update app0) ∧ apply_notify_effect (λ _, Panic) behave0 3 (start_update app0) = Ok (unnotified (start_update app0) 3).
Proof.
  assert (Hb : busy (start_update app0)) by (right; cbn; lia). split; [exact Hb|].
  exact (proj1 (effects_call_subscribers behave0 (λ _, Panic) (start_update app0) 3 0 0 Hb)).
Defined.
Lemma quiet_flush_ends_witness :
  ∃ cx', flush_effects (λ _ _ _, ([], true)) nothing_in 4 (push (push (with_flags app0 true 1) (Notify 3)) (Emit 3 1 2)) = Ok cx' ∧
    pending_effects (queue cx') = [].
Proof.
  apply (quiet_flush_ends (λ _ _ _, ([], true)) nothing_in 4); [by intros ?|reflexivity|reflexivity|apply Forall_cons; split; [reflexivity|]; apply Forall_cons; split; [reflexivity|]; apply Forall_nil; exact Logic.I|vm_compute; lia].
Defined.
End samples.
