(* ===== verification/TestScheduler.v ===== *)
(** The deterministic scheduler of tests, [crates/scheduler/src/test_scheduler.rs] and [clock.rs], with the
    dispatcher of [crates/gpui/src/platform/test/dispatcher.rs] over it: sessions, priorities, timers, blocking. *)
From stdpp Require Import gmap.
From S2P Require Import Prelude Queue Scene.
Local Open Scope nat_scope.

(** ** Code that is scheduled *)

(** [TracingWaker]: its trace, and the cell of the [block] call it wakes. *)
Record TracingWaker : Type := mkWaker { waker_id : option nat; awoken : nat }.

(** What a runnable does when it is run, what polling a future does, and what the drop of a timer's sender does: calls
    of the scheduler, whose answers the rest depends on, and reads and writes of shared cells.  A poll ends with
    whether the future is ready; the answer of a runnable is not used.  Code that moves the clock itself, through
    [TestScheduler::clock], or that calls [allow_parking] or [forbid_parking] is not expressed: the latter two are
    operations on the state ([permit_parking], [forbid_parking]) that the test makes between executions. *)
Inductive Prog : Type :=
  | Return (ready : bool)
  | ScheduleLocal (session_id : nat) (runnable : Prog) (k : Prog)
  | ScheduleBackground (runnable : Prog) (priority : Priority) (k : Prog)
  | SetTimer (duration : nat) (notify : Prog) (k : Prog)
  | BlockOn (session_id : option nat) (future : TracingWaker → Prog) (timeout : option nat) (k : bool → Prog)
  | AdvanceClock (duration : nat) (k : Prog)
  | AllocateSession (k : nat → Prog)
  | CloneWaker (w : TracingWaker) (k : TracingWaker → Prog)
  | WakeByRef (w : TracingWaker) (k : Prog)
  | DropWaker (w : TracingWaker) (k : Prog)
  | ReadClock (k : nat → Prog)
  | ReadCell (c : nat) (k : nat → Prog)
  | WriteCell (c v : nat) (k : Prog).

(** ** State *)

Record ScheduledRunnable : Type := mkRunnable { session_id : option nat; priority : Priority; runnable : Prog }.
(** [ScheduledTimer]; [on_drop] is what the drop of the sender [_notify] does. *)
Record ScheduledTimer : Type := mkTimer { expiration : nat; on_drop : Prog }.

(** [SchedulerState], in three parts: what is queued, how it is configured, and the flags.  A trace is its id, and
    the error that was found is whether there is one. *)
Record Config : Type := mkConfig {
  randomize_order : bool; allow_parking : bool; timeout_ticks : nat * nat; capture_pending_traces : bool;
}.
Record Flags : Type := mkFlags {
  is_main_thread : bool; non_determinism_error : bool; parking_allowed_once : bool; finished : bool; unparked : bool;
}.
Record SchedulerState : Type := mkSched {
  runnables : list ScheduledRunnable;
  timers : list ScheduledTimer;
  blocked_sessions : list nat;
  next_session_id : nat;
  next_trace_id : nat;
  pending_traces : list nat;
  config : Config;
  flags : Flags;
}.

(** What happened, in order: ghost state that the theorems speak of. *)
Inductive Event :=
  | Scheduled (r : ScheduledRunnable)
  | Ran (r : ScheduledRunnable)
  | Armed (expiration : nat)
  | Expired (expiration now : nat).

(** The scheduler, its clock and its random generator, the cells of the wakers and of the code that runs, and how
    often the real clock was read. *)
Record World (R : Type) : Type := mkWorld {
  state : SchedulerState; now : nat; rng : R; wakers : list bool; cells : gmap nat nat; reads : nat;
  log : list Event;
}.
Arguments mkWorld {R}.
Arguments state {R}.
Arguments now {R}.
Arguments rng {R}.
Arguments wakers {R}.
Arguments cells {R}.
Arguments reads {R}.
Arguments log {R}.

Definition with_runnables st l : SchedulerState :=
  mkSched l (timers st) (blocked_sessions st) (next_session_id st) (next_trace_id st) (pending_traces st) (config st) (flags st).
Definition with_timers st l : SchedulerState :=
  mkSched (runnables st) l (blocked_sessions st) (next_session_id st) (next_trace_id st) (pending_traces st) (config st) (flags st).
Definition with_blocked st l : SchedulerState :=
  mkSched (runnables st) (timers st) l (next_session_id st) (next_trace_id st) (pending_traces st) (config st) (flags st).
Definition with_next_session st n : SchedulerState :=
  mkSched (runnables st) (timers st) (blocked_sessions st) n (next_trace_id st) (pending_traces st) (config st) (flags st).
Definition with_traces st n l : SchedulerState :=
  mkSched (runnables st) (timers st) (blocked_sessions st) (next_session_id st) n l (config st) (flags st).
Definition with_config st c : SchedulerState :=
  mkSched (runnables st) (timers st) (blocked_sessions st) (next_session_id st) (next_trace_id st) (pending_traces st) c (flags st).
Definition with_flags st f : SchedulerState :=
  mkSched (runnables st) (timers st) (blocked_sessions st) (next_session_id st) (next_trace_id st) (pending_traces st) (config st) f.
Definition set_main st (b : bool) : SchedulerState :=
  let f := flags st in
  with_flags st (mkFlags b (non_determinism_error f) (parking_allowed_once f) (finished f) (unparked f)).
Definition set_unparked st (b : bool) : SchedulerState :=
  let f := flags st in
  with_flags st (mkFlags (is_main_thread f) (non_determinism_error f) (parking_allowed_once f) (finished f) b).
Definition set_error st : SchedulerState :=
  let f := flags st in
  with_flags st (mkFlags (is_main_thread f) true (parking_allowed_once f) (finished f) (unparked f)).

(** [TestSchedulerConfig::default], [TestScheduler::new], and the short operations on the state.  A [SessionId] is a
    [u16]: the addition that overflows it panics. *)
Definition default_config (capture : bool) : Config := mkConfig true false (1, 1000) capture.
Definition new_state (c : Config) : SchedulerState :=
  mkSched [] [] [] 0 0 [] c (mkFlags true false false false false).
Definition end_test st : outcome SchedulerState :=
  let f := flags st in
  if non_determinism_error f then Panic
  else Ok (with_flags st (mkFlags (is_main_thread f) false (parking_allowed_once f) true (unparked f))).
Definition set_timeout_ticks st (ticks : nat * nat) : SchedulerState :=
  let c := config st in with_config st (mkConfig (randomize_order c) (allow_parking c) ticks (capture_pending_traces c)).
Definition permit_parking st : SchedulerState :=
  let c := config st in
  let f := flags st in
  with_flags (with_config st (mkConfig (randomize_order c) true (timeout_ticks c) (capture_pending_traces c)))
    (mkFlags (is_main_thread f) (non_determinism_error f) true (finished f) (unparked f)).
Definition forbid_parking st : SchedulerState :=
  let c := config st in
  with_config st (mkConfig (randomize_order c) false (timeout_ticks c) (capture_pending_traces c)).
Definition parking_allowed st : bool := allow_parking (config st).
Definition allocate_session_id st : outcome (nat * SchedulerState) :=
  let id := next_session_id st + 1 in
  if (N.of_nat id <? 65536)%N then Ok (id, with_next_session st id) else Panic.
Definition has_pending_tasks st : bool := negb (deque_empty (runnables st)) || negb (deque_empty (timers st)).
Definition is_foreground (r : ScheduledRunnable) : bool := bool_decide (is_Some (session_id r)).
Definition pending_task_counts st : nat * nat :=
  (length (filter (λ r, is_foreground r) (runnables st)), length (filter (λ r, negb (is_foreground r)) (runnables st))).

(** [assert_correct_thread]: activity of another thread is an error that [end_test] reports, or a panic afterwards. *)
Definition assert_correct_thread (current expected : nat) st : outcome SchedulerState :=
  if parking_allowed_once (flags st) then Ok st
  else if decide (current = expected) then Ok st
  else if finished (flags st) then Panic
  else Ok (set_error st).

(** ** The choice of the next runnable *)

Section choice.
Context (background_only : bool) (blocked : list nat).

(** The indices of the candidates: of each session that is not blocked the first runnable, and all background ones. *)
Fixpoint candidate_indices (seen_sessions : list nat) (ix : nat) (rs : list ScheduledRunnable) : list nat :=
  match rs with
  | [] => []
  | r :: rs =>
      match session_id r with
      | Some s =>
          if background_only then candidate_indices seen_sessions (Datatypes.S ix) rs
          else if decide (s ∈ blocked) then candidate_indices seen_sessions (Datatypes.S ix) rs
          else if decide (s ∈ seen_sessions) then candidate_indices seen_sessions (Datatypes.S ix) rs
          else ix :: candidate_indices (s :: seen_sessions) (Datatypes.S ix) rs
      | None => ix :: candidate_indices seen_sessions (Datatypes.S ix) rs
      end
  end.
End choice.

(** The loop over the weights: the index of the first whose range holds [target], or 0. *)
Fixpoint select_from (i : nat) (weights : list nat) (target : nat) : nat :=
  match weights with
  | [] => 0
  | w :: weights => if decide (target < w) then i else select_from (Datatypes.S i) weights (target - w)
  end.

(** [partition_point] of the timers, which are sorted: those that have expired, and the others. *)
Fixpoint split_expired (t : nat) (l : list ScheduledTimer) : list ScheduledTimer * list ScheduledTimer :=
  match l with
  | [] => ([], [])
  | timer :: rest =>
      if decide (expiration timer ≤ t) then let '(a, b) := split_expired t rest in (timer :: a, b)
      else ([], timer :: rest)
  end.

(** [VecDeque::insert] and [VecDeque::remove]. *)
Definition insert_at {X} (ix : nat) (x : X) (l : list X) : list X := take ix l ++ x :: drop ix l.
Definition remove_at {X} (ix : nat) (l : list X) : option X * list X :=
  match l !! ix with Some x => (Some x, take ix l ++ drop (Datatypes.S ix) l) | None => (None, l) end.

Section scheduler.
(** The generator: [random_range] of a range that is given by its ends, the last one excluded, and [random]. *)
Context {R : Type} (random_range : R → nat → nat → outcome (nat * R)) (random : R → bool * R).
(** The real clock at each reading, whether another thread has set [unparked] by then, and the threads. *)
Context (instants : nat → nat) (interrupted : nat → bool) (current thread : nat).
(** How many units of time a second has. *)
Context (second : nat).
Implicit Types w : World R.

Definition with_state w st : World R := mkWorld st (now w) (rng w) (wakers w) (cells w) (reads w) (log w).
Definition with_rng w r : World R := mkWorld (state w) (now w) r (wakers w) (cells w) (reads w) (log w).
Definition with_wakers w l : World R := mkWorld (state w) (now w) (rng w) l (cells w) (reads w) (log w).
Definition with_cells w m : World R := mkWorld (state w) (now w) (rng w) (wakers w) m (reads w) (log w).
Definition record_event w e : World R := mkWorld (state w) (now w) (rng w) (wakers w) (cells w) (reads w) (log w ++ [e]).
(** [TestClock::advance]; durations are differences that do not go below zero, as of [Instant]. *)
Definition advance w (duration : nat) : World R :=
  mkWorld (state w) (now w + duration) (rng w) (wakers w) (cells w) (reads w) (log w).
(** [Instant::now]. *)
Definition read_instant w : nat * World R :=
  (instants (reads w), mkWorld (state w) (now w) (rng w) (wakers w) (cells w) (Datatypes.S (reads w)) (log w)).

(** ** Scheduling *)

Definition check_thread w : outcome (World R) :=
  st ← assert_correct_thread current thread (state w);
  Ok (with_state w st).

(** Both insert at a random index: a foreground task after those of its session. *)
Definition insert_runnable w (start_ix : nat) (r : ScheduledRunnable) : outcome (World R) :=
  let rs := runnables (state w) in
  '(ix, g) ←
    (if randomize_order (config (state w)) then random_range (rng w) start_ix (length rs + 1)
     else Ok (length rs, rng w));
  if decide (ix ≤ length rs) then
    Ok (record_event (with_state (with_rng w g)
          (set_unparked (with_runnables (state w) (insert_at ix r rs)) true)) (Scheduled r))
  else Panic.
(** [rposition] plus one. *)
Fixpoint after_last (s : nat) (rs : list ScheduledRunnable) : nat :=
  match rs with
  | [] => 0
  | r :: rs =>
      match after_last s rs with
      | 0 => if decide (session_id r = Some s) then 1 else 0
      | n => Datatypes.S n
      end
  end.
Definition schedule_local w (s : nat) (p : Prog) : outcome (World R) :=
  w ← check_thread w;
  insert_runnable w (after_last s (runnables (state w))) (mkRunnable (Some s) Medium p).
Definition schedule_background_with_priority w (p : Prog) (pr : Priority) : outcome (World R) :=
  w ← check_thread w;
  insert_runnable w 0 (mkRunnable None pr p).

(** [timer]; the sort is stable. *)
Definition timer w (duration : nat) (notify : Prog) : World R :=
  let l := timers (state w) ++ [mkTimer (now w + duration) notify] in
  record_event (with_state w (with_timers (state w) (sort_by (λ a b, bool_decide (expiration a ≤ expiration b)) l)))
    (Armed (now w + duration)).

(** [Clone], [wake_by_ref] and [Drop] of [TracingWaker]. *)
Definition clone_waker w (x : TracingWaker) : TracingWaker * World R :=
  let st := state w in
  if capture_pending_traces (config st) then
    let id := next_trace_id st in
    (mkWaker (Some id) (awoken x), with_state w (with_traces st (id + 1) (pending_traces st ++ [id])))
  else (mkWaker None (awoken x), w).
Definition remove_trace st (id : option nat) : SchedulerState :=
  match id with
  | Some id => with_traces st (next_trace_id st) (filter (λ t, t ≠ id) (pending_traces st))
  | None => st
  end.
Definition wake_by_ref w (x : TracingWaker) : outcome (World R) :=
  w ← check_thread w;
  let w := with_state w (set_unparked (remove_trace (state w) (waker_id x)) true) in
  Ok (with_wakers w (<[awoken x := true]> (wakers w))).
Definition drop_waker w (x : TracingWaker) : outcome (World R) :=
  w ← check_thread w;
  Ok (with_state w (remove_trace (state w) (waker_id x))).

(** ** Steps *)

(** The first part of [step_filtered]: the timers that have expired leave the list. *)
Definition expire w : list ScheduledTimer * World R :=
  let '(elapsed, rest) := split_expired (now w) (timers (state w)) in
  let w := with_state w (with_timers (state w) rest) in
  (elapsed, foldl (λ w t, record_event w (Expired (expiration t) (now w))) w elapsed).

(** The second part: choose a candidate and remove it. *)
Definition take_runnable (background_only : bool) w : outcome (option ScheduledRunnable * World R) :=
  let st := state w in
  let rs := runnables st in
  let cands := candidate_indices background_only (blocked_sessions st) [] 0 rs in
  let take i g :=
    ix ← index cands i;
    let '(r, rest) := remove_at ix rs in
    Ok (r, with_state (with_rng w g) (with_runnables st rest)) in
  match cands with
  | [] => Ok (None, w)
  | _ =>
      if randomize_order (config st) then
        weights ← mapM_ok (λ ix, r ← index rs ix; Ok (weight (priority r))) cands;
        let total_weight := sum_list weights in
        if decide (total_weight = 0) then
          '(choice, g) ← random_range (rng w) 0 (length cands);
          take choice g
        else
          '(target, g) ← random_range (rng w) 0 total_weight;
          take (select_from 0 weights target) g
      else take 0 (rng w)
  end.

(** [advance_clock_to_next_timer]. *)
Definition advance_clock_to_next_timer w : bool * World R :=
  match timers (state w) with
  | t :: _ => (true, advance w (expiration t - now w))
  | [] => (false, w)
  end.

(** [park]: one round of its loop waits until the real clock shows [after]. *)
Fixpoint park_loop (fuel : nat) (hard_deadline effective_deadline : nat) w : outcome (bool * World R) :=
  match fuel with
  | O => OutOfFuel
  | Datatypes.S fuel =>
      let '(t, w) := read_instant w in
      if decide (effective_deadline ≤ t) then
        if decide (hard_deadline ≤ t) then Panic else Ok (false, w)
      else
        let '(before_park, w) := read_instant w in
        let '(after, w) := read_instant w in
        let w := advance w (after - before_park) in
        let w := if interrupted (reads w) then with_state w (set_unparked (state w) true) else w in
        if match timers (state w) with t :: _ => bool_decide (expiration t ≤ now w) | [] => false end
        then Ok (true, w)
        else if unparked (flags (state w)) then Ok (true, with_state w (set_unparked (state w) false))
        else park_loop fuel hard_deadline effective_deadline w
  end.
Definition park (fuel : nat) (deadline : option nat) w : outcome (bool * World R) :=
  if allow_parking (config (state w)) then
    let '(start, w) := read_instant w in
    let hard_deadline := start + 15 * second in
    park_loop fuel hard_deadline (match deadline with Some d => Nat.min d hard_deadline | None => hard_deadline end) w
  else if deadline is Some _ then Ok (false, w)
  else Panic.

(** ** The loops over steps *)

Section run.
Context (fuel : nat) (step_filtered : bool → World R → outcome (bool * World R)).

Definition step : World R → outcome (bool * World R) := step_filtered false.

Fixpoint run_loop (n : nat) w : outcome (World R) :=
  match n with
  | O => OutOfFuel
  | Datatypes.S n => '(worked, w) ← step w; if (worked : bool) then run_loop n w else Ok w
  end.
Definition run w : outcome (World R) := run_loop fuel w.

Fixpoint run_with_clock_advancement (n : nat) w : outcome (World R) :=
  match n with
  | O => OutOfFuel
  | Datatypes.S n =>
      '(worked, w) ← step w;
      if (worked : bool) then run_with_clock_advancement n w
      else
        let '(advanced, w) := advance_clock_to_next_timer w in
        if advanced then run_with_clock_advancement n w else Ok w
  end.

Fixpoint advance_loop (n : nat) (next_now : nat) w : outcome (World R) :=
  match n with
  | O => OutOfFuel
  | Datatypes.S n =>
      w ← run w;
      match timers (state w) with
      | t :: _ =>
          if decide (expiration t ≤ next_now) then advance_loop n next_now (advance w (expiration t - now w)) else Ok w
      | [] => Ok w
      end
  end.
Definition advance_clock (duration : nat) w : outcome (World R) :=
  let next_now := now w + duration in
  w ← advance_loop fuel next_now w;
  Ok (advance w (next_now - now w)).

(** The steps between two polls: as many as a coin says, until there is nothing to do. *)
Fixpoint random_steps (n : nat) (stepped : option bool) w : outcome (option bool * World R) :=
  match n with
  | O => OutOfFuel
  | Datatypes.S n =>
      let '(again, g) := random (rng w) in
      let w := with_rng w g in
      if again then
        let stepped := default false stepped in
        '(worked, w) ← step w;
        if (worked : bool) then random_steps n (Some true) w else Ok (Some stepped, w)
      else Ok (stepped, w)
  end.

(** The loop of [block]; [None] is [usize::MAX] ticks. *)
Fixpoint block_loop (n : nat) (ticks : option nat) (deadline : option nat) (waker : TracingWaker)
    (poll : World R → outcome (bool * World R)) w : outcome (bool * World R) :=
  match n with
  | O => OutOfFuel
  | Datatypes.S n =>
      if ticks is Some 0 then Ok (false, w)
      else
        let ticks := Nat.pred <$> ticks in
        '(ready, w) ← poll w;
        if (ready : bool) then Ok (true, w)
        else
          '(stepped, w) ← random_steps fuel None w;
          let stepped := default true stepped in
          let was_awoken := default false (wakers w !! awoken waker) in
          let w := with_wakers w (<[awoken waker := false]> (wakers w)) in
          if negb stepped && negb was_awoken then
            let '(advanced, w) :=
              if allow_parking (config (state w)) then (false, w) else advance_clock_to_next_timer w in
            if advanced then block_loop n ticks deadline waker poll w
            else
              '(parked, w) ← park fuel deadline w;
              if (parked : bool) then block_loop n ticks deadline waker poll w else Ok (false, w)
          else block_loop n ticks deadline waker poll w
  end.
Definition block (s : option nat) (poll : TracingWaker → World R → outcome (bool * World R)) (timeout : option nat) w :
    outcome (bool * World R) :=
  let w := if s is Some s then with_state w (with_blocked (state w) (blocked_sessions (state w) ++ [s])) else w in
  let '(deadline, w) :=
    match timeout with
    | Some d => let '(t, w) := read_instant w in (Some (t + d), w)
    | None => (None, w)
    end in
  let waker := mkWaker None (length (wakers w)) in
  let w := with_wakers w (wakers w ++ [false]) in
  '(max_ticks, w) ←
    match timeout with
    | Some _ =>
        let '(lo, hi) := timeout_ticks (config (state w)) in
        '(n, g) ← random_range (rng w) lo (hi + 1);
        Ok (Some n, with_rng w g)
    | None => Ok (None, w)
    end;
  '(completed, w) ← block_loop fuel max_ticks deadline waker (poll waker) w;
  let w := if s is Some _ then with_state w (with_blocked (state w) (pop_back (blocked_sessions (state w)))) else w in
  w ← drop_waker w waker;
  Ok (completed, w).

(** Run a program. *)
Fixpoint exec (p : Prog) w : outcome (bool * World R) :=
  match p with
  | Return ready => Ok (ready, w)
  | ScheduleLocal s q k => w ← schedule_local w s q; exec k w
  | ScheduleBackground q pr k => w ← schedule_background_with_priority w q pr; exec k w
  | SetTimer d notify k => exec k (timer w d notify)
  | BlockOn s future timeout k =>
      '(completed, w) ← block s (λ waker, exec (future waker)) timeout w;
      exec (k completed) w
  | AdvanceClock d k => w ← advance_clock d w; exec k w
  | AllocateSession k => '(id, st) ← allocate_session_id (state w); exec (k id) (with_state w st)
  | CloneWaker x k => let '(y, w) := clone_waker w x in exec (k y) w
  | WakeByRef x k => w ← wake_by_ref w x; exec k w
  | DropWaker x k => w ← drop_waker w x; exec k w
  | ReadClock k => exec (k (now w)) w
  | ReadCell c k => exec (k (default 0 (cells w !! c))) w
  | WriteCell c v k => exec k (with_cells w (<[c := v]> (cells w)))
  end.

(** The drop of timers, in their order. *)
Definition drop_timers (l : list ScheduledTimer) w : outcome (World R) :=
  foldM (λ w t, '(_, w) ← exec (on_drop t) w; Ok w) w l.
(** The last part of [step_filtered]: run what was taken. *)
Definition run_taken (r : ScheduledRunnable) w : outcome (World R) :=
  let was_main_thread := is_main_thread (flags (state w)) in
  let w := record_event (with_state w (set_main (state w) (is_foreground r))) (Ran r) in
  '(_, w) ← exec (runnable r) w;
  Ok (with_state w (set_main (state w) was_main_thread)).
End run.

Fixpoint step_filtered (fuel : nat) (background_only : bool) w : outcome (bool * World R) :=
  match fuel with
  | O => OutOfFuel
  | Datatypes.S fuel =>
      let '(elapsed, w) := expire w in
      w ← drop_timers fuel (step_filtered fuel) elapsed w;
      if bool_decide (0 < length elapsed) then Ok (true, w)
      else
        '(taken, w) ← take_runnable background_only w;
        match taken with
        | Some r => w ← run_taken fuel (step_filtered fuel) r w; Ok (true, w)
        | None => Ok (false, w)
        end
  end.
Definition tick (fuel : nat) : World R → outcome (bool * World R) := step_filtered fuel false.
Definition tick_background_only (fuel : nat) : World R → outcome (bool * World R) := step_filtered fuel true.
(** [run_until_parked] of the dispatcher. *)
Definition run_until_parked (fuel : nat) (w : World R) : outcome (World R) := run fuel (step_filtered fuel) w.

(** [drain_tasks], over what the drop of a runnable does. *)
Section drain.
Context (drop_runnable : ScheduledRunnable → World R → outcome (World R)).
Fixpoint drain_tasks (fuel : nat) w : outcome (World R) :=
  match fuel with
  | O => OutOfFuel
  | Datatypes.S fuel' =>
      if has_pending_tasks (state w) then
        let rs := runnables (state w) in
        let ts := timers (state w) in
        let w := with_state w (with_timers (with_runnables (state w) []) []) in
        w ← drop_timers fuel' (step_filtered fuel') ts w;
        w ← foldM (λ w r, drop_runnable r w) w rs;
        drain_tasks fuel' w
      else Ok w
  end.
End drain.

(** [Yield]: its poll, which wakes the waker while there are yields left, and [yield_random] given the toss. *)
Definition poll_yield (n : nat) : bool * nat := if decide (n = 0) then (true, 0) else (false, n - 1).
Definition yield_random (rare : bool) w : outcome (nat * World R) :=
  '(n, g) ← (if rare then random_range (rng w) 10 20 else random_range (rng w) 0 2);
  Ok (n, with_rng w g).
End scheduler.

(** What [rand] documents of [random_range]: it panics on an empty range and is in the range otherwise. *)
Class RangeLaws {R} (random_range : R → nat → nat → outcome (nat * R)) : Prop := {
  range_defined r lo hi : lo < hi → ∃ n r', random_range r lo hi = Ok (n, r') ∧ lo ≤ n < hi;
  range_empty r lo hi : hi ≤ lo → random_range r lo hi = Panic;
}.
