(* ===== verification/TestSchedulerFacts.v ===== *)
(** The test scheduler: candidates and queues, and the rule by which a relation that the atomic actions respect holds
    of every execution. *)
From stdpp Require Import gmap sorting.
From S2P Require Import Prelude Queue Scene SceneFacts TestScheduler.
Local Open Scope nat_scope.

(** ** Queues *)

(** What waits of a session, or of the background tasks. *)
Definition waiting (o : option nat) (rs : list ScheduledRunnable) : list ScheduledRunnable :=
  filter (λ r, session_id r = o) rs.

Lemma waiting_app o l1 l2 : waiting o (l1 ++ l2) = waiting o l1 ++ waiting o l2.
Proof. apply filter_app. Qed.

Lemma waiting_cons o r l :
  waiting o (r :: l) = if decide (session_id r = o) then r :: waiting o l else waiting o l.
Proof. unfold waiting. by rewrite filter_cons. Qed.

Lemma waiting_nil o l : (∀ r, r ∈ l → session_id r ≠ o) → waiting o l = [].
Proof. intros H. apply filter_none, Forall_forall, H. Qed.

Lemma after_last_le s rs : after_last s rs ≤ length rs.
Proof. induction rs as [|r rs IH]; cbn; [lia|]. destruct (after_last s rs); [case_decide|]; lia. Qed.

Lemma after_last_0 s rs : after_last s rs = 0 → waiting (Some s) rs = [].
Proof.
  induction rs as [|r rs IH]; cbn [after_last]; [done|]. intros H. unfold waiting in *. rewrite filter_cons.
  destruct (after_last s rs); [|done]. case_decide as E; [done|]. by apply IH.
Qed.

(** Past the last task of the session there is none of it. *)
Lemma waiting_drop s rs ix : after_last s rs ≤ ix → waiting (Some s) (drop ix rs) = [].
Proof.
  revert ix. induction rs as [|r rs IH]; intros ix Hix; [by rewrite drop_nil|].
  destruct ix as [|ix].
  - apply (after_last_0 s (r :: rs)). lia.
  - cbn. apply IH. revert Hix. cbn [after_last]. destruct (after_last s rs); lia.
Qed.

Lemma waiting_insert_same s rs ix r :
  session_id r = Some s → after_last s rs ≤ ix →
  waiting (Some s) (insert_at ix r rs) = waiting (Some s) rs ++ [r].
Proof.
  intros Hr Hix. unfold insert_at. rewrite <-(take_drop ix rs) at 3.
  rewrite !waiting_app, (waiting_drop s rs ix Hix), app_nil_r. f_equal.
  unfold waiting. rewrite filter_cons, decide_True by done. f_equal. apply (waiting_drop s rs ix Hix).
Qed.

Lemma waiting_insert_other o rs ix r : session_id r ≠ o → waiting o (insert_at ix r rs) = waiting o rs.
Proof.
  intros Hr. unfold insert_at. rewrite <-(take_drop ix rs) at 3. rewrite !waiting_app. f_equal.
  unfold waiting. by rewrite filter_cons, decide_False.
Qed.

Lemma insert_at_perm {X} ix (x : X) l : insert_at ix x l ≡ₚ x :: l.
Proof. unfold insert_at. by rewrite <-Permutation_middle, take_drop. Qed.

Lemma remove_at_Some {X} ix (l : list X) x : l !! ix = Some x →
  remove_at ix l = (Some x, take ix l ++ drop (S ix) l) ∧ l = take ix l ++ x :: drop (S ix) l.
Proof. intros H. unfold remove_at. rewrite H. split; [done|]. by rewrite take_drop_middle. Qed.

(** ** Candidates *)

Section candidates.
Context (bg : bool) (blocked : list nat).
Implicit Types seen : list nat.

(** A runnable is a candidate when it is of the background, or the first of a session that may run. *)
Definition candidate_after seen (rs : list ScheduledRunnable) (i : nat) : Prop :=
  ∃ r, rs !! i = Some r ∧
    match session_id r with
    | None => True
    | Some s => bg = false ∧ s ∉ blocked ∧ s ∉ seen ∧ waiting (Some s) (take i rs) = []
    end.
Definition is_candidate := candidate_after [].

Lemma candidate_after_S seen r rs i :
  candidate_after seen (r :: rs) (S i) ↔
  candidate_after (match session_id r with Some s => s :: seen | None => seen end) rs i.
Proof.
  unfold candidate_after. cbn [lookup list_lookup take].
  split; intros (r' & Hr' & Hc); exists r'; (split; [done|]); destruct (session_id r') as [s'|]; [|done| |done];
    revert Hc; unfold waiting; rewrite filter_cons;
    destruct (session_id r) as [s|]; rewrite ?elem_of_cons; case_decide; naive_solver.
Qed.

(** Sessions that may not run need not be remembered. *)
Lemma candidate_after_skip s seen rs i :
  bg = true ∨ s ∈ blocked ∨ s ∈ seen → candidate_after (s :: seen) rs i ↔ candidate_after seen rs i.
Proof.
  intros Hs. unfold candidate_after.
  split; intros (r' & Hr' & Hc); exists r'; (split; [done|]); destruct (session_id r') as [s'|]; [|done| |done];
    rewrite elem_of_cons in *; [naive_solver|].
  destruct Hc as (? & ? & ? & ?). repeat split; try done. intros [->|?]; [|done]. naive_solver.
Qed.

Lemma candidate_indices_after seen ix rs i :
  i ∈ candidate_indices bg blocked seen ix rs ↔ ∃ j, i = ix + j ∧ candidate_after seen rs j.
Proof.
  revert seen ix. induction rs as [|r rs IH]; intros seen ix; cbn [candidate_indices].
  - split; [by intros ?%not_elem_of_nil|]. by intros (j & _ & r & ? & _).
  - assert (Hcase : (∃ j, i = ix + j ∧ candidate_after seen (r :: rs) j) ↔
      (i = ix ∧ candidate_after seen (r :: rs) 0) ∨
      ∃ j, i = S ix + j ∧ candidate_after (match session_id r with Some s => s :: seen | None => seen end) rs j).
    { setoid_rewrite <-candidate_after_S. split.
      - intros ([|j] & -> & ?); [left|right; exists j]; (split; [lia|done]).
      - intros [[-> ?]|(j & -> & ?)]; [exists 0|exists (S j)]; (split; [lia|done]). }
    assert (H0 : candidate_after seen (r :: rs) 0 ↔
      match session_id r with None => True | Some s => bg = false ∧ s ∉ blocked ∧ s ∉ seen end).
    { unfold candidate_after. cbn [take]. split.
      - intros (r' & [= <-] & Hc). destruct (session_id r); naive_solver.
      - intros Hc. exists r. split; [done|]. destruct (session_id r); naive_solver. }
    rewrite Hcase, H0. clear Hcase H0. destruct (session_id r) as [s|]; [|rewrite elem_of_cons, IH; naive_solver].
    destruct bg eqn:Ebg; [|case_decide; [|case_decide]].
    1-3: rewrite IH; setoid_rewrite candidate_after_skip; [naive_solver|tauto].
    rewrite elem_of_cons, IH. naive_solver.
Qed.

Lemma candidate_indices_ok rs i : i ∈ candidate_indices bg blocked [] 0 rs ↔ is_candidate rs i.
Proof. rewrite candidate_indices_after. unfold is_candidate. naive_solver. Qed.
End candidates.

(** ** Executions *)

Section rule.
Context {R : Type} (random_range : R → nat → nat → outcome (nat * R)) (random : R → bool * R).
Context (instants : nat → nat) (interrupted : nat → bool) (current thread second : nat).
Implicit Types w : World R.

Notation insert_runnable := (insert_runnable random_range).
Notation take_runnable := (take_runnable random_range).
Notation step_filtered := (step_filtered random_range random instants interrupted current thread second).
Notation exec := (exec random_range random instants interrupted current thread second).

(** What the queues, the clock and the history do not show. *)
Definition same_visible w w' : Prop :=
  runnables (state w') = runnables (state w) ∧ timers (state w') = timers (state w) ∧
  blocked_sessions (state w') = blocked_sessions (state w) ∧ config (state w') = config (state w) ∧
  is_main_thread (flags (state w')) = is_main_thread (flags (state w)) ∧ now w' = now w ∧ log w' = log w.

(** Where a runnable is inserted at the earliest. *)
Definition start_of (r : ScheduledRunnable) (rs : list ScheduledRunnable) : nat :=
  match session_id r with Some s => after_last s rs | None => 0 end.

Definition push_blocked w (s : nat) : World R := with_state w (with_blocked (state w) (blocked_sessions (state w) ++ [s])).
Definition pop_blocked w : World R := with_state w (with_blocked (state w) (pop_back (blocked_sessions (state w)))).
(** Around the run of a runnable. *)
Definition enter w (r : ScheduledRunnable) : World R :=
  record_event (with_state w (set_main (state w) (is_foreground r))) (Ran r).
Definition leave w w' : World R := with_state w' (set_main (state w') (is_main_thread (flags (state w)))).

(** The clock is advanced, and not past a timer. *)
Definition before_timers w (duration : nat) : Prop :=
  duration = 0 ∨ match timers (state w) with t :: _ => now w + duration ≤ expiration t | [] => True end.

(** A relation of states that every atomic action is in, and that is closed under their compositions. *)
Record closed (Rel : World R → World R → Prop) : Prop := {
  closed_trans w1 w2 w3 : Rel w1 w2 → Rel w2 w3 → Rel w1 w3;
  closed_same w w' : same_visible w w' → Rel w w';
  closed_insert w r w' : insert_runnable w (start_of r (runnables (state w))) r = Ok w' → Rel w w';
  closed_timer w d p : Rel w (timer w d p);
  closed_expire w : Rel w (expire w).2;
  closed_advance w d : allow_parking (config (state w)) = true ∨ before_timers w d → Rel w (advance w d);
  closed_run w bg r w1 w2 : take_runnable bg w = Ok (Some r, w1) → Rel (enter w1 r) w2 → Rel w (leave w1 w2);
  closed_block w s w' : Rel (push_blocked w s) w' → Rel w (pop_blocked w');
}.

Section closed.
Context (Rel : World R → World R → Prop) (HR : closed Rel).

Lemma closed_refl w : Rel w w.
Proof. by apply HR. Qed.




Ltac same := apply (closed_same Rel HR); by repeat split.
Ltac via w1 := apply (closed_trans Rel HR) with w1; [|].

Lemma check_thread_rel w w' : check_thread current thread w = Ok w' → Rel w w'.
Proof.
  unfold check_thread, assert_correct_thread. intros H.
  repeat case_match; simplify_eq/=; same.
Qed.

Lemma schedule_local_rel w s p w' : schedule_local random_range current thread w s p = Ok w' → Rel w w'.
Proof.
  unfold schedule_local. intros (w1 & ?%check_thread_rel & H)%outcome_bind_ok. via w1; [done|].
  by apply (closed_insert Rel HR w1 (mkRunnable (Some s) Medium p)).
Qed.

Lemma schedule_background_rel w p pr w' :
  schedule_background_with_priority random_range current thread w p pr = Ok w' → Rel w w'.
Proof.
  unfold schedule_background_with_priority. intros (w1 & ?%check_thread_rel & H)%outcome_bind_ok. via w1; [done|].
  by apply (closed_insert Rel HR w1 (mkRunnable None pr p)).
Qed.

Lemma clone_waker_rel w x : Rel w (clone_waker w x).2.
Proof. unfold clone_waker. case_match; same. Qed.

Lemma remove_trace_visible st id :
  runnables (remove_trace st id) = runnables st ∧ timers (remove_trace st id) = timers st ∧
  blocked_sessions (remove_trace st id) = blocked_sessions st ∧ config (remove_trace st id) = config st ∧
  flags (remove_trace st id) = flags st.
Proof. by destruct id. Qed.

Lemma wake_by_ref_rel w x w' : wake_by_ref current thread w x = Ok w' → Rel w w'.
Proof.
  unfold wake_by_ref. intros (w1 & ?%check_thread_rel & [= <-])%outcome_bind_ok. via w1; [done|].
  apply (closed_same Rel HR). unfold same_visible. cbn.
  destruct (remove_trace_visible (state w1) (waker_id x)) as (-> & -> & -> & -> & ->). done.
Qed.

Lemma drop_waker_visible w x w' : drop_waker current thread w x = Ok w' → same_visible w w'.
Proof.
  unfold drop_waker. intros (w1 & H & [= <-])%outcome_bind_ok. unfold same_visible. cbn.
  destruct (remove_trace_visible (state w1) (waker_id x)) as (-> & -> & -> & -> & ->).
  unfold check_thread, assert_correct_thread in H. repeat case_match; by simplify_eq/=.
Qed.

Lemma drop_waker_rel w x w' : drop_waker current thread w x = Ok w' → Rel w w'.
Proof. intros ?%drop_waker_visible. by apply HR. Qed.

Lemma take_none w bg w' : take_runnable bg w = Ok (None, w') → w' = w ∧
  candidate_indices bg (blocked_sessions (state w)) [] 0 (runnables (state w)) = [].
Proof.
  unfold take_runnable. intros H. destruct (candidate_indices _ _ _ _ _) as [|c cs] eqn:E; [by simplify_eq|].
  exfalso. rewrite <-E in H.
  assert (Hno : ∀ i g w', (ix ← index (candidate_indices bg (blocked_sessions (state w)) [] 0 (runnables (state w))) i;
    let '(r, rest) := remove_at ix (runnables (state w)) in
    Ok (r, with_state (with_rng w g) (with_runnables (state w) rest))) = Ok (None, w') → False).
  { intros i g w0 (ix & Hix & Hr)%outcome_bind_ok. unfold index in Hix.
    destruct (candidate_indices _ _ _ _ _ !! i) as [ix'|] eqn:Ei; [|done]. injection Hix as ->.
    apply list_elem_of_lookup_2, candidate_indices_ok in Ei as (r & Hr' & _).
    destruct (remove_at_Some ix _ r Hr') as [Hrem _]. rewrite Hrem in Hr. simplify_eq. }
  destruct (randomize_order _); [|by apply Hno in H].
  apply outcome_bind_ok in H as (ws & _ & H). case_decide;
    apply outcome_bind_ok in H as ([? ?] & _ & H); by apply Hno in H.
Qed.

Lemma advance_to_next_rel w b w' : advance_clock_to_next_timer w = (b, w') → Rel w w'.
Proof.
  unfold advance_clock_to_next_timer. destruct (timers (state w)) as [|t ts] eqn:E; intros [= <- <-]; [apply closed_refl|].
  apply (closed_advance Rel HR). right. unfold before_timers. rewrite E. lia.
Qed.

Lemma park_loop_rel fuel hard eff w b w' :
  allow_parking (config (state w)) = true →
  park_loop instants interrupted fuel hard eff w = Ok (b, w') → Rel w w'.
Proof.
  revert w. induction fuel as [|fuel IH]; intros w Hp H; [done|]. cbn [park_loop] in H.
  unfold read_instant in H. repeat case_decide; simplify_eq/=; [same|].
  match type of H with context [advance ?w0 ?d] => set (w1 := advance w0 d) in *; assert (H1 : Rel w w1) end.
  { eapply (closed_trans Rel HR); [|apply (closed_advance Rel HR); by left]. same. }
  match type of H with context [if interrupted ?n then ?a else w1] =>
    set (w2 := if interrupted n then a else w1) in *; assert (H2 : Rel w1 w2 ∧ config (state w2) = config (state w)) end.
  { unfold w2. destruct (interrupted _); (split; [|done]); [same|apply closed_refl]. }
  destruct H2 as [H2 Hc2]. via w2; [by via w1|]. cbn in H.
  clearbody w2. match type of H with (if ?due then _ else _) = _ => destruct due end; [simplify_eq; apply closed_refl|].
  destruct (unparked _); [simplify_eq; same|]. apply IH in H; [done|]. by rewrite Hc2.
Qed.

Lemma park_rel fuel deadline w b w' :
  park instants interrupted second fuel deadline w = Ok (b, w') → Rel w w'.
Proof.
  unfold park. destruct (allow_parking _) eqn:E.
  - unfold read_instant. intros H%park_loop_rel; [|done]. refine (closed_trans Rel HR _ _ _ _ H). same.
  - destruct deadline; intros [= <- <-]. apply closed_refl.
Qed.

(** *** The loops, over a step that is in the relation *)

Section steps.
Context (fuel : nat) (step : bool → World R → outcome (bool * World R)).
Context (Hstep : ∀ bg w b w', step bg w = Ok (b, w') → Rel w w').

Lemma run_loop_rel n w w' : run_loop step n w = Ok w' → Rel w w'.
Proof.
  revert w. induction n as [|n IH]; intros w H; [done|]. cbn in H.
  apply outcome_bind_ok in H as ([worked w1] & ?%Hstep & H). via w1; [done|].
  destruct worked; [by apply IH|]. simplify_eq. apply closed_refl.
Qed.

Lemma run_with_clock_advancement_rel n w w' : run_with_clock_advancement step n w = Ok w' → Rel w w'.
Proof.
  revert w. induction n as [|n IH]; intros w H; [done|]. cbn in H.
  apply outcome_bind_ok in H as ([worked w1] & ?%Hstep & H). via w1; [done|].
  destruct worked; [by apply IH|].
  destruct (advance_clock_to_next_timer w1) as [b w2] eqn:E. apply advance_to_next_rel in E. via w2; [done|].
  destruct b; [by apply IH|]. simplify_eq. apply closed_refl.
Qed.

Lemma advance_loop_rel n t w w' : advance_loop fuel step n t w = Ok w' →
  Rel w w' ∧ match timers (state w') with x :: _ => t < expiration x | [] => True end.
Proof.
  revert w. induction n as [|n IH]; intros w H; [done|]. cbn [advance_loop] in H.
  apply outcome_bind_ok in H as (w1 & ?%run_loop_rel & H).
  destruct (timers (state w1)) as [|x xs] eqn:E; [simplify_eq; by rewrite E|].
  case_decide as Hx; [|simplify_eq; rewrite E; split; [done|lia]].
  apply IH in H as [H Hh]. split; [|done]. via w1; [done|]. refine (closed_trans Rel HR _ _ _ _ H).
  apply (closed_advance Rel HR). right. unfold before_timers. rewrite E. lia.
Qed.

Lemma advance_clock_rel d w w' : advance_clock fuel step d w = Ok w' → Rel w w'.
Proof.
  unfold advance_clock. intros (w1 & [H1 Hh]%advance_loop_rel & [= <-])%outcome_bind_ok. via w1; [done|].
  apply (closed_advance Rel HR). right. unfold before_timers.
  destruct (timers (state w1)); [by right|]. lia.
Qed.

Lemma random_steps_rel n o w o' w' : random_steps random step n o w = Ok (o', w') → Rel w w'.
Proof.
  revert o w. induction n as [|n IH]; intros o w H; [done|]. cbn [random_steps] in H.
  destruct (random (rng w)) as [again g]. via (with_rng w g); [same|].
  destruct again; [|simplify_eq; apply closed_refl].
  apply outcome_bind_ok in H as ([worked w1] & ?%Hstep & H). via w1; [done|].
  destruct worked; [by eapply IH|]. simplify_eq. apply closed_refl.
Qed.

Lemma block_loop_rel n ticks deadline x poll w b w' :
  (∀ w b w', poll w = Ok (b, w') → Rel w w') →
  block_loop random instants interrupted second fuel step n ticks deadline x poll w = Ok (b, w') → Rel w w'.
Proof.
  intros Hpoll. revert ticks w. induction n as [|n IH]; intros ticks w H; [done|]. cbn [block_loop] in H.
  destruct (match ticks with Some 0 => true | _ => false end) eqn:Et.
  { destruct ticks as [[|?]|]; simplify_eq. apply closed_refl. }
  assert (Hbody : ∀ (A : outcome (bool * World R)), (match ticks with Some 0 => Ok (false, w) | _ => A end) = A).
  { intros A. by destruct ticks as [[|?]|]. }
  rewrite Hbody in H. clear Hbody.
  apply outcome_bind_ok in H as ([ready w1] & ?%Hpoll & H). via w1; [done|].
  destruct ready; [simplify_eq; apply closed_refl|].
  apply outcome_bind_ok in H as ([o w2] & ?%random_steps_rel & H). via w2; [done|].
  set (w3 := with_wakers w2 _) in H. via w3; [same|]. clearbody w3.
  destruct (negb _ && negb _); [|by eapply IH].
  destruct (if allow_parking (config (state w3)) then _ else _) as [adv w4] eqn:E4.
  assert (Rel w3 w4). { destruct (allow_parking _); [simplify_eq; apply closed_refl|by eapply advance_to_next_rel]. }
  via w4; [done|]. destruct adv; [by eapply IH|].
  apply outcome_bind_ok in H as ([parked w5] & ?%park_rel & H). via w5; [done|].
  destruct parked; [by eapply IH|]. simplify_eq. apply closed_refl.
Qed.

(** What [block] does between the push of its session and the pop. *)
Lemma block_parts s poll timeout w b w' :
  (∀ x w b w', poll x w = Ok (b, w') → Rel w w') →
  block random_range random instants interrupted current thread second fuel step s poll timeout w = Ok (b, w') →
  ∃ w1, Rel (match s with Some s => push_blocked w s | None => w end) w1 ∧
    same_visible (match s with Some s => pop_blocked w1 | None => w1 end) w'.
Proof.
  intros Hpoll H. unfold block in H.
  set (w0 := match s with Some s => _ | None => w end) in H.
  destruct (match timeout with Some d => _ | None => _ end) as [deadline w1] eqn:E1.
  assert (H1 : Rel w0 w1). { destruct timeout; cbn in E1; simplify_eq; [same|apply closed_refl]. }
  clear E1. set (x := mkWaker None _) in H. set (w2 := with_wakers w1 _) in H.
  apply outcome_bind_ok in H as ([ticks w3] & E3 & H).
  assert (H3 : Rel w2 w3).
  { destruct timeout; [|simplify_eq; apply closed_refl]. destruct (timeout_ticks _).
    apply outcome_bind_ok in E3 as ([??] & _ & E3). simplify_eq. same. }
  apply outcome_bind_ok in H as ([completed w4] & E4 & H). apply block_loop_rel in E4; [|apply Hpoll].
  apply outcome_bind_ok in H as (w5 & E5%drop_waker_visible & H). simplify_eq/=. exists w4. split.
  - change (Rel w0 w4). via w1; [done|]. via w2; [same|]. by via w3.
  - by destruct s.
Qed.

Lemma block_rel s poll timeout w b w' :
  (∀ x w b w', poll x w = Ok (b, w') → Rel w w') →
  block random_range random instants interrupted current thread second fuel step s poll timeout w = Ok (b, w') → Rel w w'.
Proof.
  intros Hpoll (w1 & H1 & H2)%block_parts; [|done]. refine (closed_trans Rel HR _ _ _ _ (closed_same Rel HR _ _ H2)).
  destruct s as [s|]; [|done]. by apply (closed_block Rel HR w s).
Qed.

Lemma exec_rel p w b w' : exec fuel step p w = Ok (b, w') → Rel w w'.
Proof.
  revert w b w'.
  induction p as [| ? q IHq k IH | q IHq ? k IH | ? q IHq k IH | ? f IHf ? k IH | ? k IH | k IH | x k IH
    | x k IH | x k IH | k IH | ? k IH | ?? k IH]; intros w b w' H; cbn [TestScheduler.exec] in H.
  - simplify_eq. apply closed_refl.
  - apply outcome_bind_ok in H as (w1 & ?%schedule_local_rel & H). via w1; [done|by eapply IH].
  - apply outcome_bind_ok in H as (w1 & ?%schedule_background_rel & H). via w1; [done|by eapply IH].
  - refine (closed_trans Rel HR _ _ _ (closed_timer Rel HR _ _ _) _). by eapply IH.
  - apply outcome_bind_ok in H as ([c w1] & ?%block_rel & H); [via w1; [done|by eapply IH]|]. by intros; eapply IHf.
  - apply outcome_bind_ok in H as (w1 & ?%advance_clock_rel & H). via w1; [done|by eapply IH].
  - apply outcome_bind_ok in H as ([id st] & E & H). unfold allocate_session_id in E. case_match; simplify_eq.
    apply IH in H. refine (closed_trans Rel HR _ _ _ _ H). same.
  - destruct (clone_waker _ _) as [y w1] eqn:E. pose proof (clone_waker_rel w x) as Hc. rewrite E in Hc.
    via w1; [done|by eapply IH].
  - apply outcome_bind_ok in H as (w1 & ?%wake_by_ref_rel & H). via w1; [done|by eapply IH].
  - apply outcome_bind_ok in H as (w1 & ?%drop_waker_rel & H). via w1; [done|by eapply IH].
  - by eapply IH.
  - by eapply IH.
  - apply IH in H. refine (closed_trans Rel HR _ _ _ _ H). same.
Qed.

Lemma drop_timers_rel l w w' :
  drop_timers random_range random instants interrupted current thread second fuel step l w = Ok w' → Rel w w'.
Proof.
  unfold drop_timers. revert w. induction l as [|t l IH]; intros w H; cbn [foldM] in H; [simplify_eq; apply closed_refl|].
  apply outcome_bind_ok in H as (w2 & H1 & H). apply outcome_bind_ok in H1 as ([b w1] & ?%exec_rel & [= <-]).
  via w1; [done|by apply IH].
Qed.

End steps.

(** Every step is in the relation, and so are the executions made of steps. *)
Lemma step_rel fuel bg w b w' : step_filtered fuel bg w = Ok (b, w') → Rel w w'.
Proof.
  revert bg w b w'. induction fuel as [|fuel IH]; intros bg w b w' H; [done|]. cbn [TestScheduler.step_filtered] in H.
  destruct (expire w) as [elapsed w1] eqn:E. pose proof (closed_expire Rel HR w) as H1. rewrite E in H1. cbn in H1.
  via w1; [done|]. apply outcome_bind_ok in H as (w2 & H2 & H).
  apply drop_timers_rel in H2; [|apply IH]. via w2; [done|].
  case_bool_decide; [simplify_eq; apply closed_refl|].
  apply outcome_bind_ok in H as ([taken w3] & H3 & H). destruct taken as [r|].
  - apply outcome_bind_ok in H as (w4 & H4 & [= <- <-]).
    unfold run_taken in H4. apply outcome_bind_ok in H4 as ([b5 w5] & H5 & [= <-]).
    apply exec_rel in H5; [|apply IH]. by eapply (closed_run Rel HR).
  - simplify_eq. apply take_none in H3 as [-> _]. apply closed_refl.
Qed.

Lemma exec_top_rel fuel p w b w' : exec fuel (step_filtered fuel) p w = Ok (b, w') → Rel w w'.
Proof. apply exec_rel, step_rel. Qed.

End closed.

(** ** What the actions do to the queues *)

Lemma insert_runnable_ok `{!RangeLaws random_range} w start r w' :
  start ≤ length (runnables (state w)) → insert_runnable w start r = Ok w' →
  ∃ ix g, start ≤ ix ≤ length (runnables (state w)) ∧
    w' = record_event (with_state (with_rng w g)
           (set_unparked (with_runnables (state w) (insert_at ix r (runnables (state w)))) true)) (Scheduled r).
Proof.
  unfold TestScheduler.insert_runnable. intros Hs ([ix g] & Hix & H)%outcome_bind_ok.
  case_decide; [|done]. injection H as <-. exists ix, g. split; [|done]. split; [|done].
  destruct (randomize_order _); [|by simplify_eq].
  destruct (range_defined (rng w) start (length (runnables (state w)) + 1)) as (n & r' & E & ?); [lia|].
  rewrite E in Hix. simplify_eq. lia.
Qed.

Lemma start_of_le r rs : start_of r rs ≤ length rs.
Proof. unfold start_of. destruct (session_id r); [apply after_last_le|lia]. Qed.

(** Whatever the generator says, a candidate is taken. *)
Lemma take_some w bg r w1 : take_runnable bg w = Ok (Some r, w1) →
  ∃ ix g, is_candidate bg (blocked_sessions (state w)) (runnables (state w)) ix ∧
    runnables (state w) !! ix = Some r ∧
    w1 = with_state (with_rng w g)
           (with_runnables (state w) (take ix (runnables (state w)) ++ drop (S ix) (runnables (state w)))).
Proof.
  unfold TestScheduler.take_runnable. intros H. destruct (candidate_indices _ _ _ _ _) as [|c cs] eqn:E; [by simplify_eq|].
  rewrite <-E in H.
  set (taking i g := ix ← index (candidate_indices bg (blocked_sessions (state w)) [] 0 (runnables (state w))) i;
    let '(r, rest) := remove_at ix (runnables (state w)) in
    Ok (r, with_state (with_rng w g) (with_runnables (state w) rest))) in H.
  assert (Htake : ∃ i g, taking i g = Ok (Some r, w1)).
  { destruct (randomize_order _); [|by eauto].
    apply outcome_bind_ok in H as (ws & _ & H).
    case_decide; apply outcome_bind_ok in H as ([? ?] & _ & H); eauto. }
  destruct Htake as (i & g & (ix & Hix & Hr)%outcome_bind_ok).
  unfold index in Hix. destruct (candidate_indices _ _ _ _ _ !! i) as [ix'|] eqn:Ei; [|done]. injection Hix as ->.
  apply list_elem_of_lookup_2, candidate_indices_ok in Ei. pose proof Ei as (r' & Hr' & _).
  destruct (remove_at_Some ix _ r' Hr') as [Hrem _]. rewrite Hrem in Hr. simplify_eq. eauto.
Qed.

Lemma split_expired_ok t l a b : split_expired t l = (a, b) →
  l = a ++ b ∧ Forall (λ x, expiration x ≤ t) a ∧ match b with x :: _ => t < expiration x | [] => True end.
Proof.
  revert a b. induction l as [|x l IH]; intros a b H; cbn in H; [by simplify_eq|].
  case_decide.
  - destruct (split_expired t l) as [a' b']. simplify_eq. destruct (IH _ _ eq_refl) as (-> & ? & ?).
    split; [done|]. split; [by constructor|done].
  - simplify_eq. split; [done|]. split; [done|lia].
Qed.

Lemma expire_ok w : ∃ a b, timers (state w) = a ++ b ∧ Forall (λ x, expiration x ≤ now w) a ∧
  match b with x :: _ => now w < expiration x | [] => True end ∧ (expire w).1 = a ∧
  state (expire w).2 = with_timers (state w) b ∧ now (expire w).2 = now w ∧ rng (expire w).2 = rng w ∧
  log (expire w).2 = log w ++ map (λ t, Expired (expiration t) (now w)) a.
Proof.
  unfold expire. destruct (split_expired _ _) as [a b] eqn:E. apply split_expired_ok in E as (Hl & Ha & Hb).
  exists a, b. do 3 (split; [done|]). cbn [fst snd]. split; [done|].
  assert (Hf : ∀ l (v : World R), state (foldl (λ v t, record_event v (Expired (expiration t) (now v))) v l) = state v ∧
    now (foldl (λ v t, record_event v (Expired (expiration t) (now v))) v l) = now v ∧
    rng (foldl (λ v t, record_event v (Expired (expiration t) (now v))) v l) = rng v ∧
    log (foldl (λ v t, record_event v (Expired (expiration t) (now v))) v l) =
      log v ++ map (λ t, Expired (expiration t) (now v)) l).
  { induction l as [|t l IH]; intros v; cbn; [by rewrite app_nil_r|].
    destruct (IH (record_event v (Expired (expiration t) (now v)))) as (-> & -> & -> & ->). cbn. by rewrite <-app_assoc. }
  destruct (Hf a (with_state w (with_timers (state w) b))) as (-> & -> & -> & ->). done.
Qed.

(** *** Relations that speak of the events between two states *)

Section history.
Context `{!RangeLaws random_range} (P : World R → list Event → World R → Prop).

Record historic : Prop := {
  historic_trans w1 e1 w2 e2 w3 : P w1 e1 w2 → P w2 e2 w3 → P w1 (e1 ++ e2) w3;
  historic_same w w' : same_visible w w' → P w [] w';
  historic_insert w r ix g :
    start_of r (runnables (state w)) ≤ ix ≤ length (runnables (state w)) →
    P w [Scheduled r] (record_event (with_state (with_rng w g)
      (set_unparked (with_runnables (state w) (insert_at ix r (runnables (state w)))) true)) (Scheduled r));
  historic_timer w d p : P w [Armed (now w + d)] (timer w d p);
  historic_expire w : P w (map (λ t, Expired (expiration t) (now w)) (expire w).1) (expire w).2;
  historic_advance w d : allow_parking (config (state w)) = true ∨ before_timers w d → P w [] (advance w d);
  historic_run w bg ix r g e w2 :
    let w1 := with_state (with_rng w g)
      (with_runnables (state w) (take ix (runnables (state w)) ++ drop (S ix) (runnables (state w)))) in
    is_candidate bg (blocked_sessions (state w)) (runnables (state w)) ix → runnables (state w) !! ix = Some r →
    P (enter w1 r) e w2 → P w (Ran r :: e) (leave w1 w2);
  historic_block w s e w' : P (push_blocked w s) e w' → P w e (pop_blocked w');
}.

Lemma historic_closed : historic → closed (λ w w', ∃ e, log w' = log w ++ e ∧ P w e w').
Proof.
  intros HP. split.
  - intros w1 w2 w3 (e1 & E1 & H1) (e2 & E2 & H2). exists (e1 ++ e2). split; [by rewrite E2, E1, app_assoc|].
    by eapply HP.
  - intros w w' H. exists []. rewrite app_nil_r. split; [apply H|by apply HP].
  - intros w r w' (ix & g & ? & ->)%insert_runnable_ok; [|apply start_of_le]. exists [Scheduled r].
    split; [done|]. by apply HP.
  - intros w d p. eexists. split; [done|]. by apply HP.
  - intros w. destruct (expire_ok w) as (a & b & _ & _ & _ & Ha & _ & _ & _ & Hl). exists (map (λ t, Expired (expiration t) (now w)) a).
    split; [done|]. rewrite <-Ha. by apply HP.
  - intros w d ?. exists []. rewrite app_nil_r. split; [done|]. by apply (historic_advance HP).
  - intros w bg r w1 w2 (ix & g & Hc & Hr & ->)%take_some (e & E & H). exists (Ran r :: e).
    split; [|by eapply (historic_run HP)]. cbn in *. by rewrite E, <-app_assoc.
  - intros w s w' (e & E & H). exists e. split; [done|]. by eapply HP.
Qed.
End history.
End rule.
