(* ===== verification/TestSchedulerTheorems.v ===== *)
(** What the test scheduler promises, whatever its generator says and whatever the scheduled code does: the order
    within a session, that nothing is lost, that blocked sessions wait, and punctual timers. *)
From stdpp Require Import gmap sorting.
From S2P Require Import Prelude Queue Scene SceneFacts TestScheduler TestSchedulerFacts.
Local Open Scope nat_scope.

(** ** The events of an execution *)

Definition scheduled (evs : list Event) : list ScheduledRunnable :=
  omap (λ e, match e with Scheduled r => Some r | _ => None end) evs.
Definition ran (evs : list Event) : list ScheduledRunnable :=
  omap (λ e, match e with Ran r => Some r | _ => None end) evs.
Definition armed (evs : list Event) : list nat := omap (λ e, match e with Armed t => Some t | _ => None end) evs.
Definition expired (evs : list Event) : list nat := omap (λ e, match e with Expired t _ => Some t | _ => None end) evs.

Section theorems.
Context {R : Type} (random_range : R → nat → nat → outcome (nat * R)) (random : R → bool * R) `{!RangeLaws random_range}.
Context (instants : nat → nat) (interrupted : nat → bool) (current thread second : nat).
Implicit Types w : World R.

Notation step_filtered := (step_filtered random_range random instants interrupted current thread second).
Notation exec := (exec random_range random instants interrupted current thread second).

(** What happens to a scheduler: code runs, which may block, and the dispatcher ticks. *)
Inductive executes (fuel : nat) w : World R → Prop :=
  | executes_code p b w' : exec fuel (step_filtered fuel) p w = Ok (b, w') → executes fuel w w'
  | executes_tick bg b w' : step_filtered fuel bg w = Ok (b, w') → executes fuel w w'.
Definition execution fuel : World R → World R → Prop := rtc (executes fuel).

Lemma execution_historic P fuel w w' :
  historic P → execution fuel w w' → ∃ e, log w' = log w ++ e ∧ P w e w'.
Proof.
  intros HP%(historic_closed random_range) H. induction H as [w|w1 w2 w3 H _ IH].
  - apply HP. by repeat split.
  - refine (closed_trans _ _ HP _ _ _ _ IH). destruct H as [p b w2 H|bg b w2 H].
    + exact (exec_top_rel _ _ _ _ _ _ _ _ HP _ _ _ _ _ H).
    + exact (step_rel _ _ _ _ _ _ _ _ HP _ _ _ _ _ H).
Qed.

(** ** Queues *)

Definition in_order w (e : list Event) w' : Prop :=
  (∀ s, waiting (Some s) (runnables (state w)) ++ waiting (Some s) (scheduled e) =
        waiting (Some s) (ran e) ++ waiting (Some s) (runnables (state w'))) ∧
  runnables (state w) ++ scheduled e ≡ₚ ran e ++ runnables (state w').

Lemma scheduled_app e1 e2 : scheduled (e1 ++ e2) = scheduled e1 ++ scheduled e2.
Proof. apply omap_app. Qed.
Lemma ran_app e1 e2 : ran (e1 ++ e2) = ran e1 ++ ran e2.
Proof. apply omap_app. Qed.

Lemma in_order_quiet w e w' :
  runnables (state w') = runnables (state w) → scheduled e = [] → ran e = [] → in_order w e w'.
Proof. intros E Es Er. unfold in_order. rewrite E, Es, Er. split; [intros s|]; by rewrite ?app_nil_r. Qed.

Lemma no_runs_expired l t : scheduled (map (λ x : ScheduledTimer, Expired (expiration x) t) l) = [] ∧
  ran (map (λ x : ScheduledTimer, Expired (expiration x) t) l) = [].
Proof. by induction l. Qed.

Lemma in_order_historic : historic in_order.
Proof.
  split.
  - intros w1 e1 w2 e2 w3 [O1 P1] [O2 P2]. unfold in_order. rewrite scheduled_app, ran_app. split.
    + intros s. rewrite !waiting_app, app_assoc, O1, <-app_assoc, O2. by rewrite app_assoc.
    + rewrite app_assoc, P1, <-app_assoc, P2. by rewrite app_assoc.
  - intros w w' H. apply in_order_quiet; [apply H|done..].
  - intros w r ix g [Hix _]. split; cbn.
    + intros s. fold (waiting (Some s) (insert_at ix r (runnables (state w)))).
      destruct (decide (session_id r = Some s)) as [Hs|Hs].
      * unfold start_of in Hix. rewrite Hs in Hix. by rewrite waiting_insert_same.
      * by rewrite waiting_insert_other, app_nil_r.
    + by rewrite insert_at_perm, Permutation_app_comm.
  - intros w d p. by apply in_order_quiet.
  - intros w. destruct (expire_ok w) as (a & b & _ & _ & _ & -> & Hs & _).
    apply in_order_quiet; [by rewrite Hs|apply no_runs_expired..].
  - intros w d _. by apply in_order_quiet.
  - intros w bg ix r g e w2 w1 (r' & Hr' & Hc) Hr [O P]. assert (r' = r) as -> by congruence.
    destruct (remove_at_Some ix _ r Hr) as [_ Hl]. split.
    + intros s. specialize (O s : waiting (Some s) (take ix (runnables (state w)) ++ drop (S ix) (runnables (state w)))
        ++ waiting (Some s) (scheduled e) = waiting (Some s) (ran e) ++ waiting (Some s) (runnables (state w2))) as O'.
      clear O. rewrite Hl at 1. rewrite waiting_app in O' |- *.
      rewrite (waiting_cons _ r). change (ran (Ran r :: e)) with (r :: ran e). rewrite waiting_cons.
      destruct (decide (session_id r = Some s)) as [Hs|Hs]; [|exact O'].
      rewrite Hs in Hc. destruct Hc as (_ & _ & _ & Hn). rewrite Hn in *. cbn [app] in *. f_equal. exact O'.
    + rewrite Hl at 1. rewrite <-Permutation_middle. cbn in *. by constructor.
  - intros w s e w' H. exact H.
Qed.

(** C35: Whatever the random choices and the scheduled code, also across nested blocking, the tasks of a session run in
    the order in which they were scheduled: those that ran, followed by those that wait, are those that waited, followed
    by those that were scheduled; and no task of any kind is lost or run twice. *)
Theorem sessions_run_in_order fuel w w' :
  execution fuel w w' →
  ∃ e, log w' = log w ++ e ∧
    (∀ s, waiting (Some s) (runnables (state w)) ++ waiting (Some s) (scheduled e) =
          waiting (Some s) (ran e) ++ waiting (Some s) (runnables (state w'))) ∧
    runnables (state w) ++ scheduled e ≡ₚ ran e ++ runnables (state w').
Proof. intros H. by apply (execution_historic in_order) in H; [|apply in_order_historic]. Qed.

(** ** Blocked sessions *)

Definition runs_unblocked (blocked : list nat) (ev : Event) : Prop :=
  match ev with Ran r => match session_id r with Some s => s ∉ blocked | None => True end | _ => True end.
Definition respects_blocks w (e : list Event) w' : Prop :=
  blocked_sessions (state w') = blocked_sessions (state w) ∧
  is_main_thread (flags (state w')) = is_main_thread (flags (state w)) ∧
  Forall (runs_unblocked (blocked_sessions (state w))) e.

Lemma respects_blocks_historic : historic respects_blocks.
Proof.
  split.
  - intros w1 e1 w2 e2 w3 (B1 & M1 & F1) (B2 & M2 & F2). unfold respects_blocks.
    rewrite B2, M2, B1, M1. rewrite B1 in F2. by rewrite Forall_app.
  - intros w w' (_ & _ & ? & _ & ? & _). by split.
  - intros w r ix g _. split; [done|]. split; [done|]. by repeat constructor.
  - intros w d p. split; [done|]. split; [done|]. by repeat constructor.
  - intros w. destruct (expire_ok w) as (a & b & _ & _ & _ & -> & Hs & _). unfold respects_blocks. rewrite Hs.
    split; [done|]. split; [done|]. by apply Forall_map, Forall_true.
  - intros w d _. by repeat split.
  - intros w bg ix r g e w2 w1 (r' & Hr' & Hc) Hr (B & M & F). assert (r' = r) as -> by congruence. cbn in *. split; [done|]. split; [done|].
    constructor; [|done]. cbn. destruct (session_id r); [|done]. by destruct Hc as (_ & ? & _).
  - intros w s e w' (B & M & F). unfold pop_blocked, respects_blocks. cbn in *. rewrite B, pop_back_snoc.
    split; [done|]. split; [done|]. eapply Forall_impl; [exact F|]. intros [| r | |]; try done.
    cbn. destruct (session_id r); [|done]. rewrite elem_of_app. tauto.
Qed.

(** While a session blocks on a future, no task of that session runs, at whatever depth of nesting, nor does one of
    a session that was blocked before; afterwards the sessions that are blocked and the main-thread flag are as they were. *)
Theorem blocked_session_waits fuel w s future timeout b w' :
  block random_range random instants interrupted current thread second fuel (step_filtered fuel)
    (Some s) (λ x, exec fuel (step_filtered fuel) (future x)) timeout w = Ok (b, w') →
  ∃ e, log w' = log w ++ e ∧
    (∀ r s', r ∈ ran e → session_id r = Some s' → s' ≠ s ∧ s' ∉ blocked_sessions (state w)) ∧
    blocked_sessions (state w') = blocked_sessions (state w) ∧
    is_main_thread (flags (state w')) = is_main_thread (flags (state w)).
Proof.
  pose proof (historic_closed random_range respects_blocks respects_blocks_historic) as HR.
  intros H. eapply (block_parts _ _ _ _ _ _ _ _ HR) in H as (w1 & (e & E & B & M & F) & V).
  2: intros bg v c v' Hv; exact (step_rel _ _ _ _ _ _ _ _ HR _ _ _ _ _ Hv).
  2: intros x v c v' Hv; exact (exec_top_rel _ _ _ _ _ _ _ _ HR _ _ _ _ _ Hv).
  destruct V as (_ & _ & VB & _ & VM & _ & VL). exists e. cbn in *. rewrite VL, E. split; [done|]. split.
  - intros r s' (ev & Hev & Er)%list_elem_of_omap Hs. rewrite Forall_forall in F. specialize (F ev Hev).
    destruct ev; simplify_eq/=. rewrite Hs in F. set_solver.
  - by rewrite VB, VM, B, pop_back_snoc.
Qed.

(** ** Timers *)

(** The timers are in the order of their expiration, and none is overdue. *)
Definition punctual w : Prop :=
  StronglySorted (λ a b, expiration a ≤ expiration b) (timers (state w)) ∧
  Forall (λ t, now w ≤ expiration t) (timers (state w)).
Definition on_time (ev : Event) : Prop := match ev with Expired t n => t = n | _ => True end.
Definition keeps_time w (e : list Event) w' : Prop :=
  map expiration (timers (state w)) ++ armed e ≡ₚ expired e ++ map expiration (timers (state w')) ∧
  config (state w') = config (state w) ∧
  (allow_parking (config (state w)) = false → punctual w →
    punctual w' ∧ now w ≤ now w' ∧ Forall on_time e ∧
    StronglySorted le (expired e) ∧ Forall (λ t, now w ≤ t ≤ now w') (expired e)).

Lemma keeps_time_quiet w e w' :
  timers (state w') = timers (state w) → config (state w') = config (state w) → now w' = now w →
  armed e = [] → expired e = [] → Forall on_time e → keeps_time w e w'.
Proof.
  intros E Ec En Ea Ex Ho. unfold keeps_time, punctual. rewrite E, Ec, En, Ea, Ex, app_nil_r.
  split; [done|]. split; [done|]. intros _ Hp. repeat split; try done; try apply Hp. constructor.
Qed.

(** The timers that expire when none is overdue are those of this moment. *)
Lemma expired_now w a b : timers (state w) = a ++ b → punctual w → Forall (λ x, expiration x ≤ now w) a →
  map expiration a = replicate (length a) (now w).
Proof.
  intros E [_ Hp] Ha. rewrite E in Hp. apply Forall_app in Hp as [Hp _]. clear E.
  induction Ha as [|x a Hx _ IH]; [done|]. inversion Hp; subst. cbn. rewrite IH by done. f_equal. lia.
Qed.

Lemma keeps_time_historic : historic keeps_time.
Proof.
  split.
  - intros w1 e1 w2 e2 w3 (P1 & C1 & T1) (P2 & C2 & T2). unfold keeps_time, armed, expired in *.
    rewrite !omap_app. split; [|split; [congruence|]].
    + by rewrite app_assoc, P1, <-app_assoc, P2, app_assoc.
    + intros Hp HT. destruct (T1 Hp HT) as (HT2 & N1 & F1 & S1 & B1). rewrite C1 in T2.
      destruct (T2 Hp HT2) as (HT3 & N2 & F2 & S2 & B2). split; [done|]. split; [lia|].
      split; [by apply Forall_app|]. split.
      * apply StronglySorted_app_2; [|done..]. intros x y Hx Hy.
        rewrite Forall_forall in B1, B2. specialize (B1 x Hx). specialize (B2 y Hy). lia.
      * apply Forall_app. split; (eapply Forall_impl; [done|]); cbn; lia.
  - intros w w' (_ & ? & _ & ? & _ & ? & _). by apply keeps_time_quiet.
  - intros w r ix g _. apply keeps_time_quiet; try done. by repeat constructor.
  - intros w d p. unfold keeps_time, timer. cbn. set (le := λ a b : ScheduledTimer, bool_decide _).
    set (l := timers (state w) ++ [mkTimer (now w + d) p]).
    assert (Hperm : sort_by le l ≡ₚ l) by apply sort_by_perm.
    split; [|split; [done|]].
    + rewrite Hperm. unfold l. by rewrite map_app.
    + intros _ [_ Ha]. repeat split; try done; cbn; [| |by repeat constructor|constructor].
      * eapply strongly_sorted_impl; [|apply sort_by_sorted]; unfold le; intros *; rewrite ?bool_decide_eq_true; lia.
      * rewrite Hperm. unfold l. apply Forall_app. split; [done|]. repeat constructor. cbn. lia.
  - intros w. destruct (expire_ok w) as (a & b & E & Ha & _ & -> & Hs & Hn & _). unfold keeps_time, punctual.
    assert (Hx : armed (map (λ t, Expired (expiration t) (now w)) a) = [] ∧
      expired (map (λ t, Expired (expiration t) (now w)) a) = map expiration a).
    { clear. induction a as [|t a [IH1 IH2]]; [done|]. cbn in *. split; [done|]. by f_equal. }
    destruct Hx as [-> ->]. rewrite Hs, Hn, app_nil_r. cbn. rewrite E, map_app. split; [done|]. split; [done|].
    intros _ [Hsort Hover]. pose proof (expired_now w a b E) as Hnow. unfold punctual in Hnow. rewrite E in Hnow.
    specialize (Hnow (conj Hsort Hover) Ha). apply StronglySorted_app in Hsort as (_ & _ & Hsort).
    apply Forall_app in Hover as [Hover1 Hover2].
    repeat split; try done.
    + apply Forall_map. rewrite Forall_forall in Hover1, Ha |- *. intros x Hx. specialize (Hover1 x Hx).
      specialize (Ha x Hx). cbn. lia.
    + rewrite Hnow. clear. induction (length a); cbn; constructor; [done|]. by apply Forall_replicate.
    + rewrite Hnow. by apply Forall_replicate.
  - intros w d Hd. unfold keeps_time. cbn. rewrite app_nil_r. split; [done|]. split; [done|]. intros Hp [Hs Ho].
    destruct Hd as [Hd|Hd]; [congruence|]. unfold punctual. cbn.
    repeat split; try done; [|lia|constructor].
    destruct Hd as [->|Hd]; [by rewrite Nat.add_0_r|].
    inversion Hs as [|t ts Hs' Hall E]; [constructor|]. rewrite <-E in Hd. constructor; [done|].
    eapply Forall_impl; [done|]. cbn. lia.
  - intros w bg ix r g e w2 w1 _ _ (P & C & T). split; [exact P|]. split; [exact C|]. intros Hp HT.
    destruct (T Hp HT) as (HT2 & N & F & S' & B). split; [done|]. split; [done|]. split; [by constructor|]. by split.
  - intros w s e w' H. exact H.
Qed.

(** C36: While parking is forbidden, from a state where the timers are sorted and none is overdue, whatever the random
    choices and whatever the scheduled code asks of the scheduler (it does not move the clock behind its back, through
    [TestScheduler::clock]), every timer expires exactly at its time, the timers expire in the order of their times,
    none is overdue, and none is lost: those that expired and those that are pending are those that were pending or have
    been armed. *)
Theorem timers_expire_on_time fuel w w' :
  allow_parking (config (state w)) = false → punctual w → execution fuel w w' →
  punctual w' ∧ now w ≤ now w' ∧
  ∃ e, log w' = log w ++ e ∧ Forall on_time e ∧ StronglySorted le (expired e) ∧
    map expiration (timers (state w)) ++ armed e ≡ₚ expired e ++ map expiration (timers (state w')).
Proof.
  intros Hp HT (e & E & P & _ & T)%(execution_historic keeps_time); [|apply keeps_time_historic].
  destruct (T Hp HT) as (? & ? & ? & ? & _). eauto 10.
Qed.
End theorems.

(** ** A run *)

(** A generator that goes through the numbers. *)
Definition counting_range (r lo hi : nat) : outcome (nat * nat) :=
  if decide (lo < hi) then Ok (lo + r mod (hi - lo), r + 1) else Panic.
Definition counting_coin (r : nat) : bool * nat := (Nat.even (r / 2), r + 1).
#[export] Instance counting_laws : RangeLaws counting_range.
Proof.
  split; intros r lo hi H; unfold counting_range.
  - rewrite decide_True by done. eexists _, _. split; [done|].
    pose proof (Nat.mod_upper_bound r (hi - lo)). lia.
  - by rewrite decide_False by lia.
Qed.

(** Two tasks of session 1, one of session 2 and one of the background, a timer, and a block of session 1 on what the
    timer writes. *)
Definition sample_task (n : nat) : Prog := WriteCell n 1 (Return true).
Definition sample_code : Prog :=
  SetTimer 5 (sample_task 0)
    (ScheduleLocal 1 (sample_task 1) (ScheduleLocal 2 (sample_task 2) (ScheduleBackground (sample_task 3) High
    (ScheduleLocal 1 (sample_task 4)
      (BlockOn (Some 1) (λ _, ReadCell 0 (λ v, Return (bool_decide (v = 1)))) None Return))))).
Definition sample_world : World nat :=
  mkWorld (new_state (default_config false)) 0 3 [] ∅ 0 [].
Definition sample_exec : Prog → World nat → outcome (bool * World nat) :=
  exec counting_range counting_coin id (λ _, false) 0 0 1000 20
    (step_filtered counting_range counting_coin id (λ _, false) 0 0 1000 20).
Definition sample_result : World nat :=
  match sample_exec sample_code sample_world with Ok (_, w) => w | _ => sample_world end.

Example sample_ran : map session_id (ran (log sample_result)) = [Some 2; None] ∧ expired (log sample_result) = [5] ∧
  map session_id (runnables (state sample_result)) = [Some 1; Some 1] ∧ now sample_result = 5.
Proof. vm_compute. done. Qed.

Lemma sample_execution :
  execution counting_range counting_coin id (λ _, false) 0 0 1000 20 sample_world sample_result.
Proof. apply rtc_once. apply executes_code with sample_code true. vm_compute. reflexivity. Qed.

Lemma sessions_run_in_order_witness :
  ∃ e, log sample_result = log sample_world ++ e ∧
    (∀ s, waiting (Some s) (runnables (state sample_world)) ++ waiting (Some s) (scheduled e) =
          waiting (Some s) (ran e) ++ waiting (Some s) (runnables (state sample_result))) ∧
    runnables (state sample_world) ++ scheduled e ≡ₚ ran e ++ runnables (state sample_result).
Proof.
  apply (sessions_run_in_order counting_range counting_coin id (λ _, false) 0 0 1000 20).
  exact sample_execution.
Defined.

Lemma timers_expire_on_time_witness :
  punctual sample_result ∧ now sample_world ≤ now sample_result ∧
  ∃ e, log sample_result = log sample_world ++ e ∧ Forall on_time e ∧ StronglySorted le (expired e) ∧
    map expiration (timers (state sample_world)) ++ armed e ≡ₚ expired e ++ map expiration (timers (state sample_result)).
Proof.
  apply (timers_expire_on_time counting_range counting_coin id (λ _, false) 0 0 1000 20).
  - reflexivity.
  - split; constructor.
  - exact sample_execution.
Defined.

(** The sample up to its block, and the block. *)
Definition sample_before : World nat :=
  match sample_exec
    (SetTimer 5 (sample_task 0) (ScheduleLocal 1 (sample_task 1) (ScheduleLocal 2 (sample_task 2) (Return true))))
    sample_world with Ok (_, w) => w | _ => sample_world end.
Definition sample_future (x : TracingWaker) : Prog := ReadCell 0 (λ v, Return (bool_decide (v = 1))).
Local Notation sample_block :=
  (block counting_range counting_coin id (λ _, false) 0 0 1000 20
    (step_filtered counting_range counting_coin id (λ _, false) 0 0 1000 20) (Some 1)
    (λ x, exec counting_range counting_coin id (λ _, false) 0 0 1000 20
       (step_filtered counting_range counting_coin id (λ _, false) 0 0 1000 20) (sample_future x)) None sample_before).
Definition sample_after : World nat := match sample_block with Ok (_, w) => w | _ => sample_before end.
Lemma sample_block_runs : sample_block = Ok (true, sample_after).
Proof. vm_compute. reflexivity. Qed.

Lemma blocked_session_waits_witness :
  sample_block = Ok (true, sample_after) ∧
  ∃ e, log sample_after = log sample_before ++ e ∧
    (∀ r s', r ∈ ran e → session_id r = Some s' → s' ≠ 1 ∧ s' ∉ blocked_sessions (state sample_before)) ∧
    blocked_sessions (state sample_after) = blocked_sessions (state sample_before) ∧
    is_main_thread (flags (state sample_after)) = is_main_thread (flags (state sample_before)).
Proof.
  split; [exact sample_block_runs|].
  exact (blocked_session_waits counting_range counting_coin id (λ _, false) 0 0 1000 20 sample_before 1 sample_future None
    true sample_after sample_block_runs).
Defined.
