(* ===== verification/TestSchedulerRuns.v ===== *)
(** The test scheduler runs code that does a bounded amount of work, and that neither blocks nor advances the clock, to
    its end: how much is ever scheduled bounds the steps of [run], [run_with_clock_advancement] and [advance_clock], and
    what they leave behind.  A task that schedules itself again for ever has no such bound, and [run] does not end on
    it. *)
From stdpp Require Import gmap sorting.
From S2P Require Import Prelude Queue Scene SceneFacts TestScheduler TestSchedulerFacts TestSchedulerTheorems.
Local Open Scope nat_scope.

(** ** Work *)

(** [works n p]: [p] neither blocks nor advances the clock, and makes at most [n] tasks, timers and session ids in
    all: what these tasks and timers make is counted. *)
Inductive works : nat → Prog → Prop :=
  | works_return n b : works n (Return b)
  | works_local a b n s q k : works a q → works b k → 1 + a + b ≤ n → works n (ScheduleLocal s q k)
  | works_background a b n q pr k : works a q → works b k → 1 + a + b ≤ n → works n (ScheduleBackground q pr k)
  | works_timer a b n d q k : works a q → works b k → 1 + a + b ≤ n → works n (SetTimer d q k)
  | works_allocate a n k : (∀ id, works a (k id)) → 1 + a ≤ n → works n (AllocateSession k)
  | works_clone n x k : (∀ y, works n (k y)) → works n (CloneWaker x k)
  | works_wake n x k : works n k → works n (WakeByRef x k)
  | works_drop n x k : works n k → works n (DropWaker x k)
  | works_clock n k : (∀ t, works n (k t)) → works n (ReadClock k)
  | works_read n c k : (∀ v, works n (k v)) → works n (ReadCell c k)
  | works_write n c v k : works n k → works n (WriteCell c v k).

(** The tasks or timers of a list and what they schedule. *)
Inductive weighs {X} (f : X → Prog) : nat → list X → Prop :=
  | weighs_nil : weighs f 0 []
  | weighs_cons a n x l : works a (f x) → weighs f n l → weighs f (1 + a + n) (x :: l).

Section weighs.
Context {X : Type} (f : X → Prog).

Lemma weighs_app n m l1 l2 : weighs f n l1 → weighs f m l2 → weighs f (n + m) (l1 ++ l2).
Proof.
  intros H ?. induction H as [|a n x l ? _ IH]; [done|].
  replace (1 + a + n + m) with (1 + a + (n + m)) by lia. by constructor.
Qed.

Lemma weighs_app_inv n l1 l2 : weighs f n (l1 ++ l2) → ∃ a b, n = a + b ∧ weighs f a l1 ∧ weighs f b l2.
Proof.
  revert n. induction l1 as [|x l1 IH]; intros n H; [exists 0, n; repeat split; [constructor|done]|].
  inversion H as [|a m ? ? ? Hl]; subst. apply IH in Hl as (b & c & -> & ? & ?).
  exists (1 + a + b), c. split; [lia|]. split; [by constructor|done].
Qed.

Lemma weighs_perm n l l' : l ≡ₚ l' → weighs f n l → weighs f n l'.
Proof.
  intros Hp. revert n. induction Hp as [|x l l' _ IH|x y l|l1 l2 l3 _ IH1 _ IH2]; intros n H; [done| | |eauto].
  - inversion H; subst. constructor; eauto.
  - inversion H as [|a ? ? ? Ha H']; subst. inversion H' as [|b m ? ? Hb ?]; subst.
    replace (1 + a + (1 + b + m)) with (1 + b + (1 + a + m)) by lia. by repeat constructor.
Qed.

Lemma weighs_length n l : weighs f n l → length l ≤ n.
Proof. induction 1; cbn; lia. Qed.
End weighs.

Section runs.
Context {R : Type} (random_range : R → nat → nat → outcome (nat * R)) (random : R → bool * R) `{!RangeLaws random_range}.
Context (instants : nat → nat) (interrupted : nat → bool) (thread second : nat).
Implicit Types w : World R.

Notation step_filtered := (step_filtered random_range random instants interrupted thread thread second).
Notation exec := (exec random_range random instants interrupted thread thread second).

(** The work that waits in a scheduler. *)
Definition workload (n : nat) w : Prop :=
  ∃ a b, n = a + b ∧ weighs runnable a (runnables (state w)) ∧ weighs on_drop b (timers (state w)).

(** There are session ids for that much work: they are of 16 bits. *)
Definition ids_left (n : nat) w : Prop := (N.of_nat (next_session_id (state w) + n) < 65536)%N.

(** What the code that runs leaves alone. *)
Definition same_frame w w' : Prop := blocked_sessions (state w') = blocked_sessions (state w) ∧ now w' = now w.

(** The work of [w] was [n] and is [n'] in [w'], and in between [d] was added at most: what became a session id is no
    work any more. *)
Definition spent (n d : nat) w w' (n' : nat) : Prop :=
  next_session_id (state w) ≤ next_session_id (state w') ∧
  next_session_id (state w') + n' ≤ next_session_id (state w) + n + d.

Lemma spent_refl n d w w' : next_session_id (state w') = next_session_id (state w) → spent n d w w' n.
Proof. unfold spent. lia. Qed.

Lemma insert_runs w r n a :
  workload n w → works a (runnable r) →
  ∃ w', insert_runnable random_range w (start_of r (runnables (state w))) r = Ok w' ∧ workload (1 + a + n) w' ∧
    same_frame w w' ∧ next_session_id (state w') = next_session_id (state w).
Proof.
  intros (b & c & -> & Hr & Ht) Ha. unfold insert_runnable.
  set (rs := runnables (state w)) in *. pose proof (start_of_le r rs) as Hs.
  assert (Hix : ∃ ix g, (if randomize_order (config (state w)) then random_range (rng w) (start_of r rs) (length rs + 1)
      else Ok (length rs, rng w)) = Ok (ix, g) ∧ ix ≤ length rs).
  { destruct (randomize_order _); [|by eauto].
    destruct (range_defined (rng w) (start_of r rs) (length rs + 1)) as (ix & g & -> & ?); [lia|].
    exists ix, g. split; [done|lia]. }
  destruct Hix as (ix & g & -> & Hix). cbn. rewrite decide_True by done. eexists. split; [done|]. split; [|done].
  exists (1 + a + b), c. split; [lia|]. split; [|exact Ht]. cbn.
  eapply weighs_perm; [symmetry; apply insert_at_perm|]. by constructor.
Qed.

Lemma check_thread_ok w : check_thread thread thread w = Ok w.
Proof.
  unfold check_thread, assert_correct_thread.
  destruct (parking_allowed_once _); cbn; [by destruct w|]. rewrite decide_True by done. by destruct w.
Qed.

Lemma remove_trace_same w n x f l :
  let w1 := with_state w (remove_trace (state w) x) in
  let w2 := with_wakers (with_state w (set_unparked (remove_trace (state w) x) f)) l in
  workload n w →
  workload n w1 ∧ same_frame w w1 ∧ next_session_id (state w1) = next_session_id (state w) ∧
  workload n w2 ∧ same_frame w w2 ∧ next_session_id (state w2) = next_session_id (state w).
Proof. intros. by destruct x. Qed.

Lemma allocate_runs w n : ids_left (1 + n) w →
  allocate_session_id (state w) =
    Ok (next_session_id (state w) + 1, with_next_session (state w) (next_session_id (state w) + 1)).
Proof. unfold ids_left, allocate_session_id. intros. by rewrite (proj2 (N.ltb_lt _ _)) by lia. Qed.

(** Such code ends, and adds no more than it may. *)
Lemma exec_runs fuel step p a n w :
  works a p → workload n w → ids_left (n + a) w →
  ∃ b w' n', exec fuel step p w = Ok (b, w') ∧ workload n' w' ∧ spent n a w w' n' ∧ same_frame w w'.
Proof.
  intros Hp. revert n w.
  assert (Hnext : ∀ k a n n1 m w w1, (∀ n w, workload n w → ids_left (n + a) w →
      ∃ b w' n', exec fuel step k w = Ok (b, w') ∧ workload n' w' ∧ spent n a w w' n' ∧ same_frame w w') →
    workload n1 w1 → same_frame w w1 → spent n (m - a) w w1 n1 → a ≤ m → ids_left (n + m) w →
    ∃ b w' n', exec fuel step k w1 = Ok (b, w') ∧ workload n' w' ∧ spent n m w w' n' ∧ same_frame w w').
  { intros k c n n1 m w w1 IH H1 [E1 E2] Hs Hm Hi. unfold spent, ids_left in *.
    destruct (IH _ _ H1) as (b & w' & n' & E & H' & Hn' & [E3 E4]); [lia|].
    exists b, w', n'. split; [done|]. split; [done|]. split; [lia|]. split; congruence. }
  assert (Hsame : ∀ k n m w w1, (∀ n w, workload n w → ids_left (n + m) w →
      ∃ b w' n', exec fuel step k w = Ok (b, w') ∧ workload n' w' ∧ spent n m w w' n' ∧ same_frame w w') →
    ids_left (n + m) w →
    workload n w1 ∧ same_frame w w1 ∧ next_session_id (state w1) = next_session_id (state w) →
    ∃ b w' n', exec fuel step k w1 = Ok (b, w') ∧ workload n' w' ∧ spent n m w w' n' ∧ same_frame w w').
  { intros k n m w w1 IH Hi (H1 & Hf & E). eapply Hnext; [exact IH|done|done|by apply spent_refl|done|done]. }
  induction Hp as [n0 b|a b n0 s q k Hq _ _ IH Hn0|a b n0 q pr k Hq _ _ IH Hn0|a b n0 d q k Hq _ _ IH Hn0|a n0 k _ IH Hn0
    |n0 x k _ IH|n0 x k _ IH|n0 x k _ IH|n0 k _ IH|n0 c k _ IH|n0 c v k _ IH];
    intros n w Hw Hi; cbn [TestScheduler.exec].
  - exists b, w, n. split; [done|]. split; [done|]. split; [by apply spent_refl|done].
  - unfold schedule_local. rewrite check_thread_ok. cbn [mbind outcome_bind].
    destruct (insert_runs w (mkRunnable (Some s) Medium q) n a Hw Hq) as (w1 & E & H1 & Hf & En). cbn in E. rewrite E. cbn.
    eapply Hnext; [exact IH|done|done|unfold spent; lia|lia|done].
  - unfold schedule_background_with_priority. rewrite check_thread_ok. cbn [mbind outcome_bind].
    destruct (insert_runs w (mkRunnable None pr q) n a Hw Hq) as (w1 & E & H1 & Hf & En). cbn in E. rewrite E. cbn.
    eapply Hnext; [exact IH|done|done|unfold spent; lia|lia|done].
  - apply (Hnext k b n (1 + a + n) n0 w (timer w d q)); [done| |done|unfold spent; cbn; lia|lia|done].
    destruct Hw as (r & t & -> & Hr & Ht). exists r, (1 + a + t). split; [lia|]. split; [done|]. cbn.
    eapply weighs_perm; [symmetry; apply sort_by_perm|]. replace (S (a + t)) with (t + (1 + a + 0)) by lia.
    apply weighs_app; [done|]. repeat constructor; done.
  - rewrite (allocate_runs w 0) by (unfold ids_left in *; lia). cbn [mbind outcome_bind].
    eapply (Hnext _ a n n); [apply IH|exact Hw|done|unfold spent; cbn; lia|lia|done].
  - unfold clone_waker. cbn. destruct (capture_pending_traces _); (apply (Hsame _ n n0 w); [apply IH|done|done]).
  - unfold wake_by_ref. rewrite check_thread_ok. cbn [mbind outcome_bind].
    apply (Hsame _ n n0 w); [done..|]. by eapply remove_trace_same.
  - unfold drop_waker. rewrite check_thread_ok. cbn [mbind outcome_bind].
    apply (Hsame _ n n0 w); [done..|].
    destruct (remove_trace_same w n (waker_id x) true [] Hw) as (? & ? & ? & _). done.
  - by apply IH.
  - by apply IH.
  - by apply (Hsame _ n n0 w).
Qed.

Lemma drop_timers_runs fuel step l m n w :
  weighs on_drop m l → workload n w → ids_left (n + m) w →
  ∃ w' n', drop_timers random_range random instants interrupted thread thread second fuel step l w = Ok w' ∧
    workload n' w' ∧ spent n (m - length l) w w' n' ∧ same_frame w w'.
Proof.
  intros Hl. revert n w. induction Hl as [|a m x l Ha Hl IH]; intros n w Hw Hi.
  - exists w, n. split; [done|]. split; [done|]. split; [by apply spent_refl|done].
  - unfold drop_timers in *. cbn [foldM]. apply weighs_length in Hl.
    destruct (exec_runs fuel step (on_drop x) a n w Ha Hw) as (b & w1 & n1 & -> & H1 & Hn1 & [E1 E2]).
    { unfold ids_left in *. lia. }
    cbn. unfold spent, ids_left in *.
    destruct (IH n1 w1 H1) as (w' & n' & E & H' & Hn' & [E3 E4]); [lia|]. cbn in E. rewrite E.
    exists w', n'. split; [done|]. split; [done|]. split; [lia|]. split; congruence.
Qed.

(** ** Steps *)

(** A timer has expired. *)
Definition due w : Prop := match timers (state w) with t :: _ => expiration t ≤ now w | [] => False end.
(** Nothing can be done now. *)
Definition idle (background_only : bool) w : Prop :=
  ¬ due w ∧ candidate_indices background_only (blocked_sessions (state w)) [] 0 (runnables (state w)) = [].

Lemma take_runs bg w :
  candidate_indices bg (blocked_sessions (state w)) [] 0 (runnables (state w)) = [] ∨
  ∃ r w1, take_runnable random_range bg w = Ok (Some r, w1).
Proof.
  unfold take_runnable. set (rs := runnables (state w)). set (cands := candidate_indices _ _ _ _ _).
  destruct cands as [|c cs] eqn:E; [by left|right]. rewrite <-E.
  assert (Htake : ∀ i g, i < length cands → ∃ r w1,
    (ix ← index cands i; let '(r, rest) := remove_at ix rs in
     Ok (r, with_state (with_rng w g) (with_runnables (state w) rest))) = Ok (Some r, w1)).
  { intros i g [ix Hix]%lookup_lt_is_Some. unfold index. rewrite Hix. cbn.
    apply list_elem_of_lookup_2, candidate_indices_ok in Hix as (r & Hr & _).
    destruct (remove_at_Some ix rs r Hr) as [-> _]. eauto. }
  assert (Hlen : 0 < length cands) by (rewrite E; cbn; lia).
  destruct (randomize_order _); [|by apply Htake].
  assert (Hw : ∃ ws, mapM_ok (λ ix, r ← index rs ix; Ok (weight (priority r))) cands = Ok ws ∧ length ws = length cands).
  { assert (Hall : Forall (λ ix, is_Some (rs !! ix)) cands).
    { apply Forall_forall. intros ix Hix%candidate_indices_ok. destruct Hix as (r & Hr & _). eauto. }
    clear -Hall. induction Hall as [|ix l [r Hr] _ (ws & IH & Hl)]; [by exists []|]. cbn [mapM_ok].
    assert (Hi : index rs ix = Ok r) by (unfold index; by rewrite Hr).
    rewrite Hi. cbn. rewrite IH. eexists. split; [done|]. cbn. by rewrite Hl. }
  destruct Hw as (ws & -> & Hws). cbn [mbind outcome_bind]. case_decide.
  - destruct (range_defined (rng w) 0 (length cands)) as (n & g & -> & ?); [lia|]. apply Htake. lia.
  - destruct (range_defined (rng w) 0 (sum_list ws)) as (n & g & -> & ?); [lia|]. apply Htake.
    rewrite <-Hws. clear -Hws Hlen. assert (Hsel : ∀ ws i t, select_from i ws t < i + length ws ∨ select_from i ws t = 0).
    { clear. induction ws as [|v ws IH]; intros i t; cbn; [by right|]. case_decide; [left; lia|].
      destruct (IH (S i) (t - v)); [left|right]; lia. }
    destruct (Hsel ws 0 n); lia.
Qed.

(** What was taken runs, and its own work is gone. *)
Lemma run_taken_runs fuel step bg n w r w1 :
  workload n w → ids_left n w → take_runnable random_range bg w = Ok (Some r, w1) →
  ∃ w' n', run_taken random_range random instants interrupted thread thread second fuel step r w1 = Ok w' ∧
    workload n' w' ∧ spent n 0 w w' (1 + n') ∧ same_frame w w'.
Proof.
  intros (a & b & -> & Hr & Ht) Hi (ix & g & _ & Hix & ->)%take_some. unfold run_taken.
  destruct (remove_at_Some ix _ r Hix) as [_ Hl]. rewrite Hl in Hr.
  apply (weighs_perm runnable a _ _ (symmetry (Permutation_middle _ _ _))) in Hr.
  inversion Hr as [|c m ? ? Hc Hm]; subst. set (w1 := with_state _ _).
  destruct (exec_runs fuel step (runnable r) c (m + b) (enter w1 r) Hc) as (x & w2 & n2 & E & H2 & Hn2 & [F1 F2]).
  { by exists m, b. }
  { unfold ids_left in *. cbn. lia. }
  unfold enter in E. rewrite E. cbn. eexists _, n2. split; [done|]. split; [done|].
  unfold spent in *. cbn in Hn2 |- *. split; [lia|]. by split.
Qed.

(** Each step does some of the work, or there is nothing to do and it changes nothing. *)
Lemma step_runs fuel bg n w :
  workload n w → ids_left n w →
  (∃ w' n', step_filtered (S fuel) bg w = Ok (true, w') ∧ workload n' w' ∧ spent n 0 w w' (1 + n') ∧ same_frame w w') ∨
  (∃ w', step_filtered (S fuel) bg w = Ok (false, w') ∧ idle bg w ∧ state w' = state w ∧ now w' = now w).
Proof.
  intros (a & b & -> & Hr & Ht) Hi. cbn [TestScheduler.step_filtered].
  destruct (expire_ok w) as (el & rest & E & Hel & Hrest & E1 & E2 & E3 & _ & _).
  destruct (expire w) as [el' w0] eqn:Ew. cbn in E1, E2, E3. subst el'.
  rewrite E in Ht. apply weighs_app_inv in Ht as (m & c & -> & Hm & Hc).
  assert (Hw0 : workload (a + c) w0) by (exists a, c; rewrite E2; by repeat split).
  assert (Hid : next_session_id (state w0) = next_session_id (state w)) by (by rewrite E2).
  destruct el as [|x el].
  - unfold drop_timers. cbn [foldM mbind outcome_bind length]. rewrite bool_decide_false by lia. cbn [app] in E.
    assert (Hst : state w0 = state w) by (rewrite E2, <-E; by destruct (state w)).
    destruct (take_runs bg w0) as [Hnone|(r & w2 & Hsome)].
    + right. unfold take_runnable. rewrite Hnone. cbn. exists w0. rewrite Hst in Hnone. repeat split; try done.
      unfold due. rewrite E. destruct rest; [tauto|lia].
    + left. rewrite Hsome. cbn.
      destruct (run_taken_runs fuel (step_filtered fuel) bg _ w0 r w2 Hw0) as (w' & n' & -> & H' & Hn' & [F1 F2]);
        [unfold ids_left in *; lia|done|].
      cbn. exists w', n'. split; [done|]. split; [done|]. split; [unfold spent in *; lia|].
      split; [by rewrite F1, Hst|congruence].
  - left. pose proof (weighs_length _ _ _ Hm).
    destruct (drop_timers_runs fuel (step_filtered fuel) _ m (a + c) w0 Hm Hw0) as (w1 & n1 & -> & H1 & Hn1 & [F1 F2]);
      [unfold ids_left in *; lia|].
    cbn [mbind outcome_bind]. cbn [length] in *. rewrite bool_decide_true by lia.
    exists w1, n1. split; [done|]. split; [done|]. split; [unfold spent in *; lia|]. split; [by rewrite F1, E2|congruence].
Qed.

(** What does not concern the state or the time. *)
Lemma workload_state n w w' : state w' = state w → workload n w → workload n w'.
Proof. unfold workload. by intros ->. Qed.
Lemma ids_state n w w' : state w' = state w → ids_left n w → ids_left n w'.
Proof. unfold ids_left. by intros ->. Qed.
Lemma idle_state bg w w' : state w' = state w → now w' = now w → idle bg w → idle bg w'.
Proof. unfold idle, due. by intros -> ->. Qed.

(** ** Loops *)

Lemma run_loop_runs fuel k n w :
  workload n w → ids_left n w → n < k →
  ∃ w' n', run_loop (step_filtered (S fuel)) k w = Ok w' ∧ workload n' w' ∧ ids_left n' w' ∧ n' ≤ n ∧ (due w → n' < n) ∧
    idle false w' ∧ same_frame w w'.
Proof.
  revert n w. induction k as [|k IH]; intros n w Hw Hids Hk; [lia|]. cbn [run_loop]. unfold step.
  destruct (step_runs fuel false n w Hw Hids) as [(w1 & n1 & -> & H1 & Hn1 & [F1 F2])|(w1 & -> & Hi & Es & En)];
    cbn [mbind outcome_bind].
  - unfold spent in Hn1. destruct (IH n1 w1 H1) as (w' & n' & E & H' & ? & Hn' & _ & Hi & [F3 F4]);
      [unfold ids_left in *; lia|lia|]. rewrite E.
    exists w', n'. do 3 (split; [done|]). split; [lia|]. split; [lia|]. split; [done|]. split; congruence.
  - exists w1, n. split; [done|]. split; [by eapply workload_state|]. split; [by eapply ids_state|]. split; [lia|].
    split; [by destruct Hi|]. split; [by eapply idle_state|]. split; congruence.
Qed.

Lemma due_advance w t ts : timers (state w) = t :: ts → due (advance w (expiration t - now w)).
Proof. intros E. unfold due. cbn. rewrite E. lia. Qed.

Lemma due_works n w : workload n w → due w → 0 < n.
Proof.
  intros (a & b & -> & _ & Ht) Hd. unfold due in Hd. destruct (timers (state w)); [done|]. inversion Ht; lia.
Qed.

Lemma advance_loop_runs fuel fuel' k t n w :
  workload n w → ids_left n w → n < fuel → n < k ∨ n ≤ k ∧ due w → now w ≤ t →
  ∃ w' n', advance_loop fuel (step_filtered (S fuel')) k t w = Ok w' ∧ workload n' w' ∧ idle false w' ∧ now w' ≤ t ∧
    match timers (state w') with x :: _ => t < expiration x | [] => True end ∧
    blocked_sessions (state w') = blocked_sessions (state w).
Proof.
  revert n w. induction k as [|k IH]; intros n w Hw Hids Hf Hk Ht.
  { destruct Hk as [?|[? Hd]]; [lia|]. pose proof (due_works n w Hw Hd). lia. }
  cbn [advance_loop]. unfold run.
  destruct (run_loop_runs fuel' fuel n w Hw Hids Hf) as (w1 & n1 & -> & H1 & Hids1 & Hn1 & Hlt & Hi & [F1 F2]).
  cbn [mbind outcome_bind]. destruct (timers (state w1)) as [|x xs] eqn:E.
  - exists w1, n1. rewrite E, F2. by do 4 (split; [done|]).
  - case_decide as Hx.
    + destruct (IH n1 (advance w1 (expiration x - now w1))) as (w' & n' & -> & H' & Hi' & Ht' & Hx' & F').
      * exact H1.
      * exact Hids1.
      * lia.
      * right. split; [|by eapply due_advance]. destruct Hk as [?|[? ?%Hlt]]; lia.
      * cbn. lia.
      * exists w', n'. do 5 (split; [done|]). by rewrite F'.
    + exists w1, n1. rewrite E, F2. do 4 (split; [done|]). split; [lia|done].
Qed.

Lemma with_advancement_runs fuel k n w :
  workload n w → ids_left n w → 2 * n + 1 < k ∨ 2 * n < k ∧ due w →
  ∃ w' n', run_with_clock_advancement (step_filtered (S fuel)) k w = Ok w' ∧ workload n' w' ∧ idle false w' ∧
    timers (state w') = [] ∧ blocked_sessions (state w') = blocked_sessions (state w).
Proof.
  revert n w. induction k as [|k IH]; intros n w Hw Hids Hk; [lia|]. cbn [run_with_clock_advancement]. unfold step.
  destruct (step_runs fuel false n w Hw Hids) as [(w1 & n1 & -> & H1 & Hn1 & [F1 F2])|(w1 & -> & Hi & Es & En)];
    cbn [mbind outcome_bind].
  - unfold spent in Hn1. destruct (IH n1 w1 H1) as (w' & n' & -> & ? & ? & ? & F3);
      [unfold ids_left in *; lia|left; lia|]. exists w', n'. by rewrite F3.
  - unfold advance_clock_to_next_timer. destruct (timers (state w1)) as [|x xs] eqn:E.
    + exists w1, n. split; [done|]. split; [by eapply workload_state|]. split; [by eapply idle_state|].
      split; [done|by rewrite Es].
    + destruct (IH n (advance w1 (expiration x - now w1))) as (w' & n' & -> & ? & ? & ? & F3).
      * by eapply (workload_state n w).
      * by eapply (ids_state n w).
      * right. split; [|by eapply due_advance]. destruct Hk as [?|[? ?]]; [lia|]. by destruct Hi.
      * exists w', n'. rewrite F3. cbn. by rewrite Es.
Qed.

(** When no session is blocked, only an empty queue leaves nothing to do. *)
Lemma idle_empty w : blocked_sessions (state w) = [] → idle false w → runnables (state w) = [].
Proof.
  intros Hb [_ Hc]. destruct (runnables (state w)) as [|r rs] eqn:E; [done|].
  assert (H0 : 0 ∈ candidate_indices false (blocked_sessions (state w)) [] 0 (r :: rs)).
  { apply candidate_indices_ok. exists r. split; [done|]. rewrite Hb. destruct (session_id r); [|done].
    repeat split; try done; apply not_elem_of_nil. }
  rewrite Hc in H0. by apply not_elem_of_nil in H0.
Qed.

(** ** The theorems *)

(** [advance_clock] ends, in no more steps than the work that waits, when the scheduled code neither blocks nor
    advances the clock, does a bounded amount of work, and there are session ids for it: then the clock has moved by
    exactly the duration, everything that could run has run, and only timers after that time are left. *)
Theorem advance_clock_ends fuel fuel' n d w :
  workload n w → ids_left n w → n < fuel → blocked_sessions (state w) = [] →
  ∃ w', advance_clock fuel (step_filtered (S fuel')) d w = Ok w' ∧ now w' = now w + d ∧ runnables (state w') = [] ∧
    match timers (state w') with t :: _ => now w' < expiration t | [] => True end.
Proof.
  intros Hw Hids Hf Hb. unfold advance_clock.
  destruct (advance_loop_runs fuel fuel' fuel (now w + d) n w) as (w1 & n1 & -> & _ & Hi & Hn & Ht & F);
    [done|done|done|by left|lia|].
  cbn [mbind outcome_bind]. eexists. split; [done|]. cbn. split; [lia|].
  split; [apply idle_empty; [by rewrite F|done]|]. destruct (timers (state w1)); [done|]. lia.
Qed.

(** C37: Let no session be blocked, and let the code that waits do a bounded amount of work: it neither blocks nor
    advances the clock, and the tasks and timers that wait, those they schedule, those these schedule and so on, with
    the session ids all of them allocate, are [n] at most; and let there be that many session ids below the bound of
    16 bits.  (A task that schedules itself again for ever has no such [n].)  Then [run] ends after at most [n] steps
    that do something, with an empty queue and no expired timer, and the time has not changed; and
    [run_with_clock_advancement] ends after at most [2 * n + 2] rounds with nothing left at all.  Neither panics. *)
Theorem run_ends fuel n w :
  workload n w → ids_left n w → blocked_sessions (state w) = [] → n < fuel →
  (∃ w', run_until_parked random_range random instants interrupted thread thread second fuel w = Ok w' ∧
     runnables (state w') = [] ∧ ¬ due w' ∧ now w' = now w) ∧
  (∃ w', run_with_clock_advancement (step_filtered fuel) (2 * n + 2) w = Ok w' ∧ has_pending_tasks (state w') = false).
Proof.
  intros Hw Hids Hb Hf. destruct fuel as [|fuel]; [lia|]. split.
  - unfold run_until_parked, run.
    destruct (run_loop_runs fuel (S fuel) n w Hw Hids) as (w' & n' & E & _ & _ & _ & _ & Hi & [F1 F2]); [lia|].
    exists w'. split; [exact E|]. split; [apply idle_empty; [by rewrite F1|done]|]. by split; [apply Hi|].
  - destruct (with_advancement_runs fuel (2 * n + 2) n w Hw Hids) as (w' & n' & E & _ & Hi & Ht & F); [lia|].
    exists w'. split; [exact E|]. unfold has_pending_tasks. rewrite Ht, idle_empty; [done|by rewrite F|done].
Qed.

(** ** Giving up *)

Lemma park_loop_true fuel t w b w' : park_loop instants interrupted fuel t t w = Ok (b, w') → b = true.
Proof.
  revert w. induction fuel as [|fuel IH]; intros w H; [done|]. cbn [park_loop] in H. unfold read_instant in H.
  repeat case_decide; simplify_eq/=.
  match type of H with (if ?due then _ else _) = _ => destruct due end; [by simplify_eq|].
  match type of H with (if ?u then _ else _) = _ => destruct u end; [by simplify_eq|]. by apply IH in H.
Qed.

(** A block without a timeout never gives up: when it returns, the last poll found its future ready.  (It may panic,
    as parking is forbidden or has taken too long.) *)
Theorem block_without_timeout fuel step s poll w b w' :
  block random_range random instants interrupted thread thread second fuel step s poll None w = Ok (b, w') →
  b = true ∧ ∃ x v v', poll x v = Ok (true, v').
Proof.
  unfold block. cbn [mbind outcome_bind]. intros ([c w1] & H & H2)%outcome_bind_ok.
  apply outcome_bind_ok in H2 as (w2 & _ & [= -> ->]). revert H.
  generalize (match s with Some s => with_state w (with_blocked (state w) (blocked_sessions (state w) ++ [s])) | None => w end).
  intros w0. generalize (mkWaker None (length (wakers w0))) as x. intros x. generalize (with_wakers w0 (wakers w0 ++ [false])). clear w w0.
  generalize fuel at 2. intros n. induction n as [|n IH]; intros w H; [done|]. cbn [block_loop fmap option_fmap option_map] in H.
  apply outcome_bind_ok in H as ([ready w3] & Hp & H). destruct ready; [simplify_eq; eauto|].
  apply outcome_bind_ok in H as ([o w4] & _ & H). destruct (_ && _); [|by eapply IH].
  destruct (if allow_parking _ then _ else _) as [adv w5]. destruct adv; [by eapply IH|].
  apply outcome_bind_ok in H as ([parked w6] & Hpark & H). destruct parked; [by eapply IH|].
  unfold park in Hpark. destruct (allow_parking _); [|done]. unfold read_instant in Hpark.
  by apply park_loop_true in Hpark.
Qed.
End runs.

(** ** Witnesses *)

(** A task that spawns another one in a session of its own, and a timer that spawns one too. *)
Definition spawning : Prog :=
  ScheduleLocal 1 (AllocateSession (λ s, ScheduleLocal s (Return true) (Return true)))
    (SetTimer 7 (ScheduleLocal 2 (Return true) (Return true)) (Return true)).
Definition spawned : World nat :=
  match sample_exec spawning sample_world with Ok (_, w) => w | _ => sample_world end.

Lemma spawned_workload : workload 5 spawned.
Proof.
  exists 3, 2. split; [done|]. split.
  - apply (weighs_cons runnable 2 0); [|constructor]. cbn. apply (works_allocate 1); [|lia]. intros s.
    apply (works_local 0 0); [constructor..|lia].
  - apply (weighs_cons on_drop 1 0); [|constructor]. cbn. apply (works_local 0 0); [constructor..|lia].
Qed.

Lemma spawned_ids : ids_left 5 spawned.
Proof. reflexivity. Qed.

Lemma run_ends_witness :
  (∃ w', run_until_parked counting_range counting_coin id (λ _, false) 0 0 1000 6 spawned = Ok w' ∧
     runnables (state w') = [] ∧ ¬ due w' ∧ now w' = now spawned) ∧
  (∃ w', run_with_clock_advancement (step_filtered counting_range counting_coin id (λ _, false) 0 0 1000 6) 12 spawned
     = Ok w' ∧ has_pending_tasks (state w') = false).
Proof.
  apply (run_ends counting_range counting_coin id (λ _, false) 0 1000 6 5 spawned spawned_workload spawned_ids).
  - reflexivity.
  - lia.
Defined.

Lemma advance_clock_ends_witness :
  ∃ w', advance_clock 9 (step_filtered counting_range counting_coin id (λ _, false) 0 0 1000 5) 6 spawned = Ok w' ∧
    now w' = now spawned + 6 ∧ runnables (state w') = [] ∧
    match timers (state w') with t :: _ => now w' < expiration t | [] => True end.
Proof.
  apply (advance_clock_ends counting_range counting_coin id (λ _, false) 0 1000 9 4 5 6 spawned spawned_workload
    spawned_ids).
  - lia.
  - reflexivity.
Defined.

Lemma block_without_timeout_witness :
  true = true ∧ ∃ x v (v' : World nat), sample_exec (sample_future x) v = Ok (true, v').
Proof.
  apply (block_without_timeout counting_range counting_coin id (λ _, false) 0 1000 20
    (step_filtered counting_range counting_coin id (λ _, false) 0 0 1000 20) (Some 1)
    (λ x, exec counting_range counting_coin id (λ _, false) 0 0 1000 20
       (step_filtered counting_range counting_coin id (λ _, false) 0 0 1000 20) (sample_future x)) sample_before
    true sample_after).
  exact sample_block_runs.
Defined.
