(* ===== verification/Arena.v ===== *)
(** The arena that the elements of a frame live in, [crates/gpui/src/arena.rs]: chunks of bytes, allocation, the scopes
    that defer a clear, and boxes that are checked when they are used; and that it refines a store of values. *)
From stdpp Require Import gmap.
From S2P Require Import Prelude.
Local Open Scope nat_scope.

(** [alloc::Layout]: sizes and alignments, which are powers of two. *)
Record Layout : Type := mkLayout { layout_size : nat; layout_align : nat }.

Record Chunk : Type := mkChunk { start : nat; chunk_end : nat; offset : nat }.

(** [ArenaElement]: where the value is that [drop] drops, and its size. *)
Record ArenaElement : Type := mkElement { value : nat; value_size : nat }.

(** [Arena]; [valid] is the number of its shared cell. *)
Record Arena : Type := mkArena {
  chunks : list Chunk;
  elements : list ArenaElement;
  valid : nat;
  current_chunk_index : nat;
  chunk_size : nat;
  scope_depth : nat;
}.

(** [ArenaBox]: a pointer to a value of some size, and the cell of its arena's time. *)
Record ArenaBox : Type := mkBox { box_ptr : nat; box_size : nat; box_valid : nat }.

Section arena.
(** The bytes, the largest [usize], and the addresses that the system allocator gives to the chunks. *)
Context {B : Type} (usize_max : nat) (chunk_address : nat → nat).

(** Memory, the cells, and the values that were dropped, in order. *)
Record Heap : Type := mkHeap { memory : gmap nat B; cells : list bool; dropped : list (option (list B)) }.
Implicit Types h : Heap.
Implicit Types a : Arena.
Implicit Types m : gmap nat B.

Fixpoint read_bytes m (p n : nat) : option (list B) :=
  match n with
  | O => Some []
  | S n => b ← m !! p; v ← read_bytes m (S p) n; Some (b :: v)
  end.
Fixpoint write_bytes m (p : nat) (v : list B) : gmap nat B :=
  match v with
  | [] => m
  | b :: v => <[p := b]> (write_bytes m (S p) v)
  end.

(** [usize::checked_add] and [ptr::align_offset]. *)
Definition checked_add (x y : nat) : option nat := if decide (x + y ≤ usize_max) then Some (x + y) else None.
Definition align_offset (p align : nat) : nat := (align - p mod align) mod align.

Definition chunk_new (k size : nat) : Chunk := mkChunk (chunk_address k) (chunk_address k + size) (chunk_address k).
(** [Chunk::allocate], with the chunk after it. *)
Definition allocate (c : Chunk) (layout : Layout) : option nat * Chunk :=
  let base := offset c in
  match checked_add base (align_offset base (layout_align layout)) with
  | None => (None, c)
  | Some aligned_addr =>
      match checked_add aligned_addr (layout_size layout) with
      | None => (None, c)
      | Some next_addr =>
          if decide (next_addr ≤ chunk_end c)
          then (if decide (aligned_addr = 0) then None else Some aligned_addr, mkChunk (start c) (chunk_end c) next_addr)
          else (None, c)
      end
  end.
Definition reset (c : Chunk) : Chunk := mkChunk (start c) (chunk_end c) (start c).

Definition arena_new (size : nat) (h : Heap) : outcome (Arena * Heap) :=
  if decide (size = 0) then Panic
  else Ok (mkArena [chunk_new 0 size] [] (length (cells h)) 0 size 0, mkHeap (memory h) (cells h ++ [true]) (dropped h)).
Definition capacity a : nat := length (chunks a) * chunk_size a.

Definition begin_scope a : Arena :=
  mkArena (chunks a) (elements a) (valid a) (current_chunk_index a) (chunk_size a) (scope_depth a + 1).
Definition end_scope a : outcome Arena :=
  depth ← checked_sub (scope_depth a) 1;
  Ok (mkArena (chunks a) (elements a) (valid a) (current_chunk_index a) (chunk_size a) depth).

(** The destructor of a value, which sees its bytes. *)
Definition drop_element h (e : ArenaElement) : Heap :=
  mkHeap (memory h) (cells h) (dropped h ++ [read_bytes (memory h) (value e) (value_size e)]).

(** [for chunk_index in 0..=index]. *)
Definition reset_upto (index : nat) (cs : list Chunk) : outcome (list Chunk) :=
  if decide (index < length cs) then Ok (map reset (take (S index) cs) ++ drop (S index) cs) else Panic.
Definition force_clear a h : outcome (Arena * Heap) :=
  let cells1 := <[valid a := false]> (cells h) in
  let h1 := foldl drop_element (mkHeap (memory h) (cells1 ++ [true]) (dropped h)) (elements a) in
  cs ← reset_upto (current_chunk_index a) (chunks a);
  Ok (mkArena cs [] (length cells1) 0 (chunk_size a) (scope_depth a), h1).
Definition clear a h : outcome (Arena * Heap) :=
  if decide (scope_depth a = 0) then force_clear a h else Ok (a, h).

(** [alloc]: [v] is what the closure returns. *)
Definition alloc a h (layout : Layout) (v : list B) : outcome (ArenaBox * Arena * Heap) :=
  c ← index (chunks a) (current_chunk_index a);
  let '(ptr, c) := allocate c layout in
  let cs := <[current_chunk_index a := c]> (chunks a) in
  '(ptr, cs, i) ←
    match ptr with
    | Some ptr => Ok (ptr, cs, current_chunk_index a)
    | None =>
        let i := current_chunk_index a + 1 in
        cs ← (if decide (length cs ≤ i) then
                let cs := cs ++ [chunk_new (length cs) (chunk_size a)] in
                _ ← assert_that (bool_decide (i = length cs - 1));
                Ok cs
              else Ok cs);
        c ← index cs i;
        let '(ptr, c) := allocate c layout in
        ptr ← unwrap ptr;
        Ok (ptr, <[i := c]> cs, i)
    end;
  Ok (mkBox ptr (layout_size layout) (valid a),
      mkArena cs (elements a ++ [mkElement ptr (layout_size layout)]) (valid a) i (chunk_size a) (scope_depth a),
      mkHeap (write_bytes (memory h) ptr v) (cells h) (dropped h)).

(** [validate], [deref], [deref_mut] with an assignment, and [map] to a part of the value. *)
Definition validate h (b : ArenaBox) : outcome () := assert_that (default false (cells h !! box_valid b)).
Definition deref h (b : ArenaBox) : outcome (option (list B)) :=
  _ ← validate h b; Ok (read_bytes (memory h) (box_ptr b) (box_size b)).
Definition deref_mut h (b : ArenaBox) (v : list B) : outcome Heap :=
  _ ← validate h b; Ok (mkHeap (write_bytes (memory h) (box_ptr b) v) (cells h) (dropped h)).
Definition box_map h (b : ArenaBox) (at_ len : nat) : outcome ArenaBox :=
  _ ← validate h b; Ok (mkBox (box_ptr b + at_) len (box_valid b)).

(** ** Use of an arena *)

(** What a program does with an arena; boxes are numbered in the order of their allocation. *)
Inductive Op : Type :=
  | OpAlloc (layout : Layout) (v : list B)
  | OpRead (i : nat)
  | OpWrite (i : nat) (v : list B)
  | OpBegin
  | OpEnd
  | OpClear.
Record Use : Type := mkUse { arena : Arena; heap : Heap; boxes : list ArenaBox }.
Implicit Types u : Use.

Definition run_op u (o : Op) : outcome (Use * option (list B)) :=
  match o with
  | OpAlloc layout v =>
      '(b, a, h) ← alloc (arena u) (heap u) layout v; Ok (mkUse a h (boxes u ++ [b]), None)
  | OpRead i =>
      b ← index (boxes u) i; v ← deref (heap u) b; Ok (u, v)
  | OpWrite i v =>
      b ← index (boxes u) i; h ← deref_mut (heap u) b v; Ok (mkUse (arena u) h (boxes u), None)
  | OpBegin => Ok (mkUse (begin_scope (arena u)) (heap u) (boxes u), None)
  | OpEnd => a ← end_scope (arena u); Ok (mkUse a (heap u) (boxes u), None)
  | OpClear => '(a, h) ← clear (arena u) (heap u); Ok (mkUse a h (boxes u), None)
  end.
Fixpoint run_ops u (os : list Op) : outcome (Use * list (option (list B))) :=
  match os with
  | [] => Ok (u, [])
  | o :: os => '(u, x) ← run_op u o; '(u, xs) ← run_ops u os; Ok (u, x :: xs)
  end.

(** ** The store that it refines *)

(** The values that were allocated, those since the last clear alive; the depth; and what was dropped. *)
Record Store : Type := mkStore { vals : list (option (list B)); depth : nat; gone : list (list B) }.
Definition store_op (s : Store) (o : Op) : outcome (Store * option (list B)) :=
  match o with
  | OpAlloc _ v => Ok (mkStore (vals s ++ [Some v]) (depth s) (gone s), None)
  | OpRead i => x ← index (vals s) i; v ← unwrap x; Ok (s, Some v)
  | OpWrite i v => x ← index (vals s) i; _ ← unwrap x; Ok (mkStore (<[i := Some v]> (vals s)) (depth s) (gone s), None)
  | OpBegin => Ok (mkStore (vals s) (depth s + 1) (gone s), None)
  | OpEnd => d ← checked_sub (depth s) 1; Ok (mkStore (vals s) d (gone s), None)
  | OpClear =>
      Ok (if decide (depth s = 0) then mkStore (map (λ _, None) (vals s)) 0 (gone s ++ omap id (vals s)) else s, None)
  end.
Fixpoint store_ops (s : Store) (os : list Op) : outcome (Store * list (option (list B))) :=
  match os with
  | [] => Ok (s, [])
  | o :: os => '(s, x) ← store_op s o; '(s, xs) ← store_ops s os; Ok (s, x :: xs)
  end.

(** Values have the size of their type, and a chunk can hold any one of them wherever it starts. *)
Definition op_ok (size : nat) (sizes : list nat) (o : Op) : Prop :=
  match o with
  | OpAlloc layout v =>
      length v = layout_size layout ∧ 0 < layout_align layout ∧ layout_size layout + layout_align layout ≤ size + 1
  | OpWrite i v => ∀ n, sizes !! i = Some n → length v = n
  | _ => True
  end.
Definition sizes_after (sizes : list nat) (o : Op) : list nat :=
  match o with OpAlloc layout _ => sizes ++ [layout_size layout] | _ => sizes end.
Fixpoint ops_ok (size : nat) (sizes : list nat) (os : list Op) : Prop :=
  match os with
  | [] => True
  | o :: os => op_ok size sizes o ∧ ops_ok size (sizes_after sizes o) os
  end.
End arena.
Arguments Op : clear implicits.
Arguments Use : clear implicits.
Arguments Store : clear implicits.
Arguments Heap : clear implicits.
