(* ===== verification/ArenaTheorems.v ===== *)
(** The arena is a store of values: allocations are aligned and apart, a box reads what was last written to it until its
    time ends, and panics afterwards; and each value is dropped once, in order, when the outermost scope clears. *)
From stdpp Require Import gmap.
From S2P Require Import Prelude Arena.
Local Open Scope nat_scope.

(** ** Bytes *)

Definition apart (p n q l : nat) : Prop := p + n ≤ q ∨ q + l ≤ p.

Section bytes.
Context {B : Type}.
Implicit Types m : gmap nat B.
Implicit Types v : list B.

Lemma write_bytes_lookup m p v x :
  write_bytes m p v !! x = if decide (p ≤ x < p + length v) then v !! (x - p) else m !! x.
Proof.
  revert p. induction v as [|b v IH]; intros p; cbn [write_bytes length].
  - rewrite decide_False by lia. done.
  - destruct (decide (x = p)) as [->|Hne].
    + rewrite lookup_insert_eq, decide_True by lia. by rewrite Nat.sub_diag.
    + rewrite lookup_insert_ne, IH by done. destruct (decide (S p ≤ x < S p + length v)).
      * rewrite decide_True by lia. by replace (x - p) with (S (x - S p)) by lia.
      * rewrite decide_False by lia. done.
Qed.

Lemma read_bytes_ext m m' p n : (∀ x, p ≤ x < p + n → m !! x = m' !! x) → read_bytes m p n = read_bytes m' p n.
Proof.
  revert p. induction n as [|n IH]; intros p H; [done|]. cbn [read_bytes].
  rewrite (H p), (IH (S p)) by (intros; try apply H; lia). done.
Qed.

Lemma read_write_apart m p v q n : apart p (length v) q n → read_bytes (write_bytes m p v) q n = read_bytes m q n.
Proof.
  intros Ha. apply read_bytes_ext. intros x Hx. rewrite write_bytes_lookup, decide_False; [done|].
  unfold apart in Ha. lia.
Qed.

Lemma read_write_same m p v : read_bytes (write_bytes m p v) p (length v) = Some v.
Proof.
  revert p m. induction v as [|b v IH]; intros p m; [done|]. cbn [length read_bytes write_bytes].
  rewrite lookup_insert_eq. cbn.
  rewrite (read_bytes_ext _ (write_bytes m (S p) v) (S p)); [by rewrite IH|].
  intros x Hx. by rewrite lookup_insert_ne by lia.
Qed.

(** An empty value lies anywhere. *)
Lemma write_bytes_nil m p : write_bytes m p [] = m.
Proof. done. Qed.
End bytes.

(** ** Allocation *)

Section arena.
Context {B : Type} (usize_max : nat) (chunk_address : nat → nat) (size limit : nat).
(** The first chunks that the system allocator gives out lie apart in the address space. *)
Hypothesis address_ok : ∀ k, k ≤ limit → 0 < chunk_address k ∧ chunk_address k + size ≤ usize_max.
Hypothesis address_apart : ∀ j k, j ≤ limit → k ≤ limit → j ≠ k → apart (chunk_address j) size (chunk_address k) size.
Implicit Types c : Chunk.
Implicit Types a : Arena.
Implicit Types h : Heap B.
Implicit Types u : Use B.
Implicit Types s : Store B.

Notation allocate := (allocate usize_max).
Notation alloc := (alloc usize_max chunk_address).
Notation run_op := (run_op usize_max chunk_address).
Notation run_ops := (run_ops usize_max chunk_address).

Lemma align_offset_lt p align : 0 < align → align_offset p align < align.
Proof. intros. apply Nat.mod_upper_bound. lia. Qed.

Lemma align_offset_aligned p align : 0 < align → (p + align_offset p align) mod align = 0.
Proof.
  intros Ha. unfold align_offset. rewrite Nat.Div0.add_mod_idemp_r.
  pose proof (Nat.mod_upper_bound p align ltac:(lia)) as Hlt. pose proof (Nat.div_mod_eq p align) as Hp.
  replace (p + (align - p mod align)) with (align + p / align * align) by lia.
  rewrite Nat.Div0.mod_add. apply Nat.Div0.mod_same.
Qed.

Lemma allocate_some c l p c' : 0 < layout_align l → allocate c l = (Some p, c') →
  offset c ≤ p ∧ p mod layout_align l = 0 ∧ offset c' = p + layout_size l ∧ offset c' ≤ chunk_end c ∧
  start c' = start c ∧ chunk_end c' = chunk_end c.
Proof.
  unfold Arena.allocate, checked_add. intros Ha H. repeat case_decide; simplify_eq/=.
  repeat split; try lia. by apply align_offset_aligned.
Qed.

Lemma allocate_none c l c' : 0 < offset c → allocate c l = (None, c') → c' = c.
Proof. unfold Arena.allocate, checked_add. intros H0 H. repeat case_decide; simplify_eq/=; [lia|done..]. Qed.

Lemma allocate_fits c l : 0 < start c → offset c = start c → chunk_end c = start c + size → chunk_end c ≤ usize_max →
  0 < layout_align l → layout_size l + layout_align l ≤ size + 1 → ∃ p c', allocate c l = (Some p, c').
Proof.
  intros H0 Ho He Hm Ha Hs. pose proof (align_offset_lt (offset c) (layout_align l) Ha).
  unfold Arena.allocate, checked_add. rewrite !decide_True by lia. rewrite decide_False by lia. eauto.
Qed.

(** The chunks of an arena, up to the current one in use. *)
Definition chunks_ok (cs : list Chunk) (current : nat) : Prop :=
  current < length cs ∧
  ∀ k c, cs !! k = Some c → start c = chunk_address k ∧ chunk_end c = start c + size ∧
    start c ≤ offset c ≤ chunk_end c ∧ (current < k → offset c = start c).

(** What an allocation changes. *)
Definition grows (cs cs' : list Chunk) (current current' p : nat) : Prop :=
  current ≤ current' ∧
  ∀ j c, j ≤ current → cs !! j = Some c →
    ∃ c', cs' !! j = Some c' ∧ start c' = start c ∧ offset c ≤ offset c' ∧ (j = current' → offset c ≤ p).

Lemma chunks_insert cs k c c' p n :
  chunks_ok cs k → cs !! k = Some c → offset c ≤ p → offset c' = p + n → offset c' ≤ chunk_end c →
  start c' = start c → chunk_end c' = chunk_end c →
  chunks_ok (<[k:=c']> cs) k ∧ grows cs (<[k:=c']> cs) k k p ∧ start c ≤ p.
Proof.
  intros [Hk Hcs] Hc Hp Ho He Hs Hce. destruct (Hcs k c Hc) as (E1 & E2 & [E3 E4] & _). split; [|split].
  - split; [by rewrite length_insert|]. intros j d. rewrite list_lookup_insert_Some.
    intros [(<- & <- & _)|[Hne Hd]]; [|by apply Hcs]. rewrite Hs, Hce. repeat split; try done; lia.
  - split; [done|]. intros j d _ Hd. destruct (decide (j = k)) as [->|Hne].
    + exists c'. rewrite list_lookup_insert_eq by done. simplify_eq. repeat split; try done; lia.
    + exists d. rewrite list_lookup_insert_ne by done. repeat split; done.
  - lia.
Qed.

Lemma chunks_next cs k : chunks_ok cs k → S k < length cs → chunks_ok cs (S k).
Proof.
  intros [_ Hcs] Hk. split; [done|]. intros j d Hd. destruct (Hcs j d Hd) as (? & ? & ? & Hj).
  repeat split; try done; try lia.
Qed.

Lemma chunks_push cs k : chunks_ok cs k → length cs ≤ S k →
  chunks_ok (cs ++ [chunk_new chunk_address (length cs) size]) (S k).
Proof.
  intros [Hk Hcs] Hl. assert (length cs = S k) as Hlen by lia. split; [rewrite length_app; cbn; lia|].
  intros j d. rewrite lookup_app_Some, list_lookup_singleton_Some. intros [Hd|(Hj & Hj0 & <-)].
  - destruct (Hcs j d Hd) as (? & ? & ? & _). pose proof (lookup_lt_Some _ _ _ Hd). repeat split; try done; lia.
  - unfold chunk_new. cbn. replace j with (length cs) by lia. repeat split; lia.
Qed.

Lemma alloc_ok a h l v :
  chunks_ok (chunks a) (current_chunk_index a) → chunk_size a = size → length (chunks a) ≤ limit →
  0 < layout_align l → layout_size l + layout_align l ≤ size + 1 →
  ∃ p k cs, alloc a h l v = Ok (mkBox p (layout_size l) (valid a),
      mkArena cs (elements a ++ [mkElement p (layout_size l)]) (valid a) k size (scope_depth a),
      mkHeap (write_bytes (memory h) p v) (Arena.cells h) (dropped h)) ∧
    p mod layout_align l = 0 ∧ chunks_ok cs k ∧ length cs ≤ S (length (chunks a)) ∧
    grows (chunks a) cs (current_chunk_index a) k p ∧
    ∃ c, cs !! k = Some c ∧ start c ≤ p ∧ p + layout_size l ≤ offset c.
Proof.
  intros Hok Hsize Hlim Ha Hl. set (k := current_chunk_index a) in *. pose proof Hok as [Hk Hcs].
  destruct (lookup_lt_is_Some_2 _ _ Hk) as [c Hc]. unfold Arena.alloc, index. fold k. rewrite Hc. cbn.
  destruct (Hcs k c Hc) as (E1 & E2 & [E3 E4] & _). destruct (address_ok k) as [H0 Hm]; [lia|].
  destruct (allocate c l) as [[p|] c'] eqn:Eal.
  - apply allocate_some in Eal as (A1 & A2 & A3 & A4 & A5 & A6); [|done]. cbn. rewrite Hsize.
    destruct (chunks_insert (chunks a) k c c' p (layout_size l)) as (I1 & I2 & I3); try done.
    exists p, k, (<[k:=c']> (chunks a)). split; [done|]. split; [done|]. split; [done|].
    split; [rewrite length_insert; lia|]. split; [done|]. exists c'. rewrite list_lookup_insert_eq by done.
    split; [done|]. lia.
  - apply allocate_none in Eal as ->; [|lia]. rewrite list_insert_id by done.
    set (cs := if decide (length (chunks a) ≤ k + 1) then chunks a ++ [chunk_new chunk_address (length (chunks a)) size] else chunks a).
    assert (Hcs' : chunks_ok cs (S k) ∧ length cs ≤ S (length (chunks a)) ∧ ∀ j d, chunks a !! j = Some d → cs !! j = Some d).
    { unfold cs. case_decide.
      - split; [apply chunks_push; [done|lia]|]. split; [rewrite length_app; cbn; lia|].
        intros j d Hd. by apply lookup_app_l_Some.
      - split; [apply chunks_next; [done|lia]|]. split; [lia|done]. }
    destruct Hcs' as (Hok' & Hlen & Hsub).
    assert (Erun : (if decide (length (chunks a) ≤ k + 1)
      then _ ← assert_that (bool_decide (k + 1 = length (chunks a ++ [chunk_new chunk_address (length (chunks a)) (chunk_size a)]) - 1));
        Ok (chunks a ++ [chunk_new chunk_address (length (chunks a)) (chunk_size a)])
      else Ok (chunks a)) = Ok cs).
    { unfold cs. rewrite Hsize. case_decide; [|done]. rewrite bool_decide_true; [done|]. rewrite length_app. cbn. lia. }
    cbn in Erun. rewrite Erun. clear Erun. cbn. pose proof Hok' as [Hk' Hcs'].
    replace (k + 1) with (S k) by lia. destruct (lookup_lt_is_Some_2 _ _ Hk') as [d Hd]. rewrite Hd. cbn.
    destruct (Hcs' (S k) d Hd) as (D1 & D2 & [D3 D4] & _). destruct (address_ok (S k)) as [D0 Dm]; [lia|].
    assert (Hfresh : offset d = start d).
    { unfold cs in Hd. case_decide as Hdec.
      - apply lookup_app_Some in Hd as [Hd|[_ Hd]]; [by apply (Hcs (S k) d Hd); lia|].
        apply list_lookup_singleton_Some in Hd as [_ <-]. done.
      - by apply (Hcs (S k) d Hd); lia. }
    destruct (allocate_fits d l) as (p & d' & Eal); try done; try lia. rewrite Eal. cbn.
    apply allocate_some in Eal as (A1 & A2 & A3 & A4 & A5 & A6); [|done]. rewrite Hsize.
    destruct (chunks_insert cs (S k) d d' p (layout_size l)) as (I1 & I2 & I3); try done.
    exists p, (S k), (<[S k:=d']> cs). split; [done|]. split; [done|]. split; [done|].
    split; [rewrite length_insert; lia|]. split.
    + split; [lia|]. intros j e Hj He. destruct (proj2 I2 j e) as (e' & He' & ? & ? & Hjp); [lia|by apply Hsub|].
      exists e'. by repeat split.
    + exists d'. rewrite list_lookup_insert_eq by done. split; [done|]. lia.
Qed.

(** ** The invariant *)

(** The values alive: a box of the present time and its value. *)
Definition live u s (i : nat) (b : ArenaBox) (v : list B) : Prop :=
  boxes u !! i = Some b ∧ vals s !! i = Some (Some v).
Definition box_element (x : ArenaBox * option (list B)) : option ArenaElement :=
  match x.2 with Some _ => Some (mkElement (box_ptr x.1) (box_size x.1)) | None => None end.

Record sim (u : Use B) (s : Store B) (sizes : list nat) : Prop := {
  sim_sizes : map box_size (boxes u) = sizes;
  sim_vals : length (vals s) = length (boxes u);
  sim_depth : scope_depth (arena u) = depth s;
  sim_gone : dropped (heap u) = map Some (gone s);
  sim_chunk_size : chunk_size (arena u) = size;
  sim_chunks : chunks_ok (chunks (arena u)) (current_chunk_index (arena u));
  sim_few : length (chunks (arena u)) ≤ S (length (boxes u));
  sim_valid : Arena.cells (heap u) !! valid (arena u) = Some true;
  sim_live i b v : live u s i b v → box_valid b = valid (arena u) ∧ length v = box_size b ∧
    read_bytes (memory (heap u)) (box_ptr b) (box_size b) = Some v ∧
    ∃ k c, k ≤ current_chunk_index (arena u) ∧ chunks (arena u) !! k = Some c ∧ start c ≤ box_ptr b ∧
      box_ptr b + box_size b ≤ offset c;
  sim_dead i b : boxes u !! i = Some b → vals s !! i = Some None → Arena.cells (heap u) !! box_valid b = Some false;
  sim_apart i j b b' v v' : live u s i b v → live u s j b' v' → i ≠ j →
    apart (box_ptr b) (box_size b) (box_ptr b') (box_size b');
  sim_elements : elements (arena u) = omap box_element (zip (boxes u) (vals s));
}.

Lemma sim_box u s sizes i v : sim u s sizes → vals s !! i = Some v → ∃ b, boxes u !! i = Some b.
Proof. intros Hs Hi. apply lookup_lt_is_Some_2. rewrite <-(sim_vals _ _ _ Hs). by eapply lookup_lt_Some. Qed.

(** The chunks of two places. *)
Lemma places_apart cs k j c d p n q l current :
  chunks_ok cs current → length cs ≤ S limit → cs !! k = Some c → cs !! j = Some d → k ≠ j →
  start c ≤ p → p + n ≤ offset c → start d ≤ q → q + l ≤ offset d → apart p n q l.
Proof.
  intros [_ Hcs] Hl Hc Hd Hne ????. destruct (Hcs k c Hc) as (? & ? & ? & _). destruct (Hcs j d Hd) as (? & ? & ? & _).
  pose proof (lookup_lt_Some _ _ _ Hc). pose proof (lookup_lt_Some _ _ _ Hd).
  pose proof (address_apart k j ltac:(lia) ltac:(lia) Hne) as Ha. unfold apart in *. lia.
Qed.

Lemma sim_alloc u s sizes l v :
  sim u s sizes → length (boxes u) < limit → op_ok size sizes (OpAlloc l v) →
  ∃ u', run_op u (OpAlloc l v) = Ok (u', None) ∧
    sim u' (mkStore (vals s ++ [Some v]) (depth s) (gone s)) (sizes ++ [layout_size l]) ∧
    length (boxes u') = S (length (boxes u)) ∧
    ∃ b, boxes u' = boxes u ++ [b] ∧ box_ptr b mod layout_align l = 0.
Proof.
  intros Hs Hlim (Hv & Ha & Hl). pose proof (sim_few _ _ _ Hs) as Hfew.
  destruct (alloc_ok (arena u) (heap u) l v (sim_chunks _ _ _ Hs) (sim_chunk_size _ _ _ Hs)) as
    (p & k & cs & E & Hp & Hok & Hlen & Hgrow & c & Hc & Hcp & Hco); [lia|done|done|].
  cbn [Arena.run_op]. rewrite E. cbn [mbind outcome_bind]. set (b := mkBox p (layout_size l) (valid (arena u))).
  eexists. split; [done|]. split; [|split; [cbn; rewrite length_app; cbn; lia|by exists b]].
  assert (Hold : ∀ i b' v', live (mkUse (mkArena cs (elements (arena u) ++ [mkElement p (layout_size l)]) (valid (arena u)) k size
      (scope_depth (arena u))) (mkHeap (write_bytes (memory (heap u)) p v) (Arena.cells (heap u)) (dropped (heap u)))
      (boxes u ++ [b])) (mkStore (vals s ++ [Some v]) (depth s) (gone s)) i b' v' →
    live u s i b' v' ∨ i = length (boxes u) ∧ b' = b ∧ v' = v).
  { unfold live. cbn. intros i b' v' [Hb' Hv']. apply lookup_snoc_Some in Hb' as [[Hi Hb']|[-> <-]].
    - left. split; [done|]. rewrite lookup_app_l in Hv' by (rewrite (sim_vals _ _ _ Hs); done). done.
    - right. rewrite <-(sim_vals _ _ _ Hs), lookup_app_r, Nat.sub_diag in Hv' by lia. cbn in Hv'. by simplify_eq. }
  (** The new value is apart from those that live. *)
  assert (Hnew : ∀ i b' v', live u s i b' v' → apart p (layout_size l) (box_ptr b') (box_size b')).
  { intros i b' v' Hb'. destruct (sim_live _ _ _ Hs i b' v' Hb') as (_ & _ & _ & j & d & Hj & Hd & Hd1 & Hd2).
    destruct (proj2 Hgrow j d Hj Hd) as (d' & Hd' & E1 & E2 & E3).
    destruct (decide (j = k)) as [->|Hne]; [right; specialize (E3 eq_refl); lia|].
    eapply (places_apart cs k j c d'); try done; lia. }
  split; cbn.
  - by rewrite map_app, (sim_sizes _ _ _ Hs).
  - rewrite !length_app, (sim_vals _ _ _ Hs). done.
  - apply Hs.
  - apply Hs.
  - done.
  - done.
  - rewrite length_app. cbn. lia.
  - apply Hs.
  - intros i b' v' [Hb'|(-> & -> & ->)]%Hold.
    + destruct (sim_live _ _ _ Hs i b' v' Hb') as (V & Lv & Rd & j & d & Hj & Hd & Hd1 & Hd2). split; [done|]. split; [done|].
      split; [rewrite read_write_apart; [done|rewrite Hv; by eapply Hnew]|].
      destruct (proj2 Hgrow j d Hj Hd) as (d' & Hd' & E1 & E2 & _). exists j, d'.
      split; [destruct Hgrow; lia|]. split; [done|]. lia.
    + cbn. split; [done|]. split; [done|]. rewrite <-Hv at 1. split; [apply read_write_same|]. exists k, c. done.
  - intros i b' Hb' Hv'. apply lookup_snoc_Some in Hv' as [[Hi Hv']|[_ ?]]; [|done].
    rewrite lookup_app_l in Hb' by (rewrite <-(sim_vals _ _ _ Hs); done). by apply (sim_dead _ _ _ Hs i).
  - intros i j b1 b2 v1 v2 H1%Hold H2%Hold Hne. destruct H1 as [H1|(-> & -> & ->)], H2 as [H2|(-> & -> & ->)].
    + by eapply (sim_apart _ _ _ Hs i j).
    + apply Hnew in H1. unfold apart in *. cbn. lia.
    + by apply Hnew in H2.
    + done.
  - rewrite (sim_elements _ _ _ Hs), zip_with_app by (by rewrite (sim_vals _ _ _ Hs)). by rewrite omap_app.
Qed.

(** ** Reading and writing *)

Lemma sim_validate u s sizes i b x : sim u s sizes → boxes u !! i = Some b → vals s !! i = Some x →
  validate (heap u) b = match x with Some _ => Ok () | None => Panic end.
Proof.
  intros Hs Hb Hx. unfold validate. destruct x as [v|].
  - destruct (sim_live _ _ _ Hs i b v) as (-> & _); [done|]. by rewrite (sim_valid _ _ _ Hs).
  - by rewrite (sim_dead _ _ _ Hs i b).
Qed.

Lemma sim_read u s sizes i : sim u s sizes →
  run_op u (OpRead i) = match store_op s (OpRead i) with Ok (_, x) => Ok (u, x) | Panic => Panic | OutOfFuel => OutOfFuel end.
Proof.
  intros Hs. cbn [Arena.run_op store_op]. unfold index. destruct (vals s !! i) as [x|] eqn:Hx; cbn.
  - destruct (sim_box u s sizes i x Hs Hx) as [b Hb]. rewrite Hb. cbn. unfold deref.
    rewrite (sim_validate u s sizes i b x) by done. destruct x as [v|]; [|done]. cbn.
    destruct (sim_live _ _ _ Hs i b v) as (_ & _ & -> & _); done.
  - apply lookup_ge_None in Hx. rewrite (sim_vals _ _ _ Hs) in Hx. apply lookup_ge_None in Hx. by rewrite Hx.
Qed.

Lemma list_omap_cons {X Y} (f : X → option Y) x l :
  omap f (x :: l) = match f x with Some y => y :: omap f l | None => omap f l end.
Proof. done. Qed.

Lemma omap_insert_live (bs : list ArenaBox) (vs : list (option (list B))) i v v0 :
  vs !! i = Some (Some v0) → omap box_element (zip bs (<[i:=Some v]> vs)) = omap box_element (zip bs vs).
Proof.
  revert i vs. induction bs as [|b bs IH]; intros i vs Hi; [done|]. destruct vs as [|x vs]; [done|].
  destruct i as [|i]; [cbn in *; by simplify_eq|].
  change (omap box_element ((b, x) :: zip bs (<[i:=Some v]> vs)) = omap box_element ((b, x) :: zip bs vs)).
  rewrite !list_omap_cons. by rewrite (IH i vs Hi).
Qed.

Lemma sim_write u s sizes i v : sim u s sizes → op_ok size sizes (OpWrite i v) →
  match store_op s (OpWrite i v) with
  | Ok (s', x) => ∃ u', run_op u (OpWrite i v) = Ok (u', x) ∧ sim u' s' sizes ∧ length (boxes u') = length (boxes u)
  | Panic => run_op u (OpWrite i v) = Panic
  | OutOfFuel => True
  end.
Proof.
  intros Hs Hv. cbn [Arena.run_op store_op op_ok] in *. unfold index. destruct (vals s !! i) as [x|] eqn:Hx; cbn.
  2: { apply lookup_ge_None in Hx. rewrite (sim_vals _ _ _ Hs) in Hx. apply lookup_ge_None in Hx. by rewrite Hx. }
  destruct (sim_box u s sizes i x Hs Hx) as [b Hb]. rewrite Hb. cbn. unfold deref_mut.
  rewrite (sim_validate u s sizes i b x) by done. destruct x as [v0|]; [|done]. cbn.
  eexists. split; [done|]. split; [|done].
  assert (Hlen : length v = box_size b).
  { apply Hv. rewrite <-(sim_sizes _ _ _ Hs), list_lookup_fmap, Hb. done. }
  set (u' := mkUse _ _ _).
  assert (Hold : ∀ j b' v', live u' (mkStore (<[i:=Some v]> (vals s)) (depth s) (gone s)) j b' v' →
    (i ≠ j ∧ live u s j b' v') ∨ j = i ∧ b' = b ∧ v' = v).
  { unfold live, u'. cbn. intros j b' v' [Hb' Hv']. apply list_lookup_insert_Some in Hv' as [(<- & ? & _)|[? ?]].
    - right. simplify_eq. done.
    - left. done. }
  assert (Hlive : live u s i b v0) by done.
  split; cbn; try apply Hs.
  - by rewrite length_insert, (sim_vals _ _ _ Hs).
  - intros j b' v' [[Hne Hb']|(-> & -> & ->)]%Hold.
    + destruct (sim_live _ _ _ Hs j b' v' Hb') as (V & L & R & P). split; [done|]. split; [done|]. split; [|done].
      rewrite read_write_apart; [done|]. rewrite Hlen. by eapply (sim_apart _ _ _ Hs i j).
    + destruct (sim_live _ _ _ Hs i b v0 Hlive) as (V & _ & _ & P). split; [done|]. split; [done|]. split; [|done].
      rewrite <-Hlen. apply read_write_same.
  - intros j b' Hb' Hv'. apply list_lookup_insert_Some in Hv' as [(? & ? & _)|[? ?]]; [done|]. by apply (sim_dead _ _ _ Hs j).
  - intros j k b1 b2 v1 v2 H1%Hold H2%Hold Hne. destruct H1 as [[? H1]|(-> & -> & ->)], H2 as [[? H2]|(-> & -> & ->)].
    + by eapply (sim_apart _ _ _ Hs j k).
    + by eapply (sim_apart _ _ _ Hs j i).
    + by eapply (sim_apart _ _ _ Hs i k).
    + done.
  - rewrite (omap_insert_live _ _ i v v0) by done. apply Hs.
Qed.

(** ** Clearing *)

Lemma drop_elements es h : let h' := foldl drop_element h es in
  memory h' = memory h ∧ Arena.cells h' = Arena.cells h ∧
  dropped h' = dropped h ++ map (λ e, read_bytes (memory h) (value e) (value_size e)) es.
Proof.
  revert h. induction es as [|e es IH]; intros h; cbn; [by rewrite app_nil_r|].
  destruct (IH (drop_element h e)) as (-> & -> & ->). cbn. by rewrite <-app_assoc.
Qed.

(** What the elements hold are the values that live. *)
Lemma elements_values u s sizes : sim u s sizes →
  map (λ e, read_bytes (memory (heap u)) (value e) (value_size e)) (elements (arena u)) = map Some (omap id (vals s)).
Proof.
  intros Hs. rewrite (sim_elements _ _ _ Hs).
  assert (Hread : ∀ i b v, boxes u !! i = Some b → vals s !! i = Some (Some v) →
    read_bytes (memory (heap u)) (box_ptr b) (box_size b) = Some v).
  { intros i b v Hb Hv. by destruct (sim_live _ _ _ Hs i b v) as (_ & _ & ? & _). }
  pose proof (sim_vals _ _ _ Hs) as Hlen. revert Hread Hlen. generalize (boxes u) as bs, (vals s) as vs. clear Hs.
  induction bs as [|b bs IH]; intros [|x vs] Hread Hlen; try done. cbn. injection Hlen as Hlen.
  assert (IH' := IH vs (λ i, Hread (S i)) Hlen). destruct x as [v|]; cbn; [|done].
  rewrite (Hread 0 b v eq_refl eq_refl). by f_equal.
Qed.

Lemma omap_dead (bs : list ArenaBox) (vs : list (option (list B))) :
  omap box_element (zip bs (map (λ _, None) vs)) = [].
Proof. revert vs. induction bs as [|b bs IH]; intros [|x vs]; try done. apply IH. Qed.

Lemma sim_clear u s sizes : sim u s sizes → depth s = 0 →
  ∃ u', run_op u OpClear = Ok (u', None) ∧ boxes u' = boxes u ∧
    sim u' (mkStore (map (λ _, None) (vals s)) 0 (gone s ++ omap id (vals s))) sizes.
Proof.
  intros Hs Hd. cbn [Arena.run_op]. unfold clear. rewrite (sim_depth _ _ _ Hs), decide_True by done.
  unfold force_clear. pose proof (sim_chunks _ _ _ Hs) as [Hk Hcs]. unfold reset_upto. rewrite decide_True by done.
  cbn [mbind outcome_bind]. set (a := arena u) in *.
  destruct (drop_elements (elements a) (mkHeap (memory (heap u)) (<[valid a:=false]> (Arena.cells (heap u)) ++ [true]) (dropped (heap u))))
    as (Em & Ec & Ed). cbn in Em, Ec, Ed.
  set (h' := foldl drop_element _ _) in *. eexists. split; [done|]. split; [done|].
  pose proof (lookup_lt_Some _ _ _ (sim_valid _ _ _ Hs)) as Hvalid.
  assert (Hchunks : ∀ k c, (map reset (take (S (current_chunk_index a)) (chunks a)) ++ drop (S (current_chunk_index a)) (chunks a)) !! k = Some c →
    start c = chunk_address k ∧ chunk_end c = start c + size ∧ start c ≤ offset c ≤ chunk_end c ∧ offset c = start c).
  { intros k c Hc. apply lookup_app_Some in Hc as [Hc|[Hle Hc]].
    - apply list_lookup_fmap_Some in Hc as (d & -> & Hd'). apply lookup_take_Some in Hd' as [Hd' _].
      destruct (Hcs k d Hd') as (? & ? & ? & _). cbn. repeat split; try done; lia.
    - rewrite length_map, length_take_le in Hle, Hc by lia. rewrite lookup_drop in Hc.
      replace (S (current_chunk_index a) + (k - S (current_chunk_index a))) with k in Hc by lia.
      destruct (Hcs k c Hc) as (? & ? & ? & Hfree). repeat split; try done; try lia. }
  assert (Hnone : ∀ i v, map (λ _ : option (list B), None : option (list B)) (vals s) !! i ≠ Some (Some v)).
  { intros i v Hi. apply list_lookup_fmap_Some in Hi as (? & ? & _). done. }
  split; cbn.
  - apply Hs.
  - by rewrite length_map, (sim_vals _ _ _ Hs).
  - by rewrite <-Hd, <-(sim_depth _ _ _ Hs).
  - rewrite Ed, map_app, (sim_gone _ _ _ Hs). f_equal. by eapply elements_values.
  - apply Hs.
  - split; [rewrite length_app, length_map, length_take_le, length_drop by lia; lia|].
    intros k c Hc. destruct (Hchunks k c Hc) as (? & ? & ? & ?). repeat split; try done; lia.
  - rewrite length_app, length_map, length_take_le, length_drop by lia. pose proof (sim_few _ _ _ Hs). unfold a in *. lia.
  - rewrite Ec, lookup_app_r, length_insert, Nat.sub_diag by (rewrite length_insert; lia). done.
  - intros i b v [_ Hv]. by apply Hnone in Hv.
  - intros i b Hb Hx. rewrite Ec. apply list_lookup_fmap_Some in Hx as (x & _ & Hx).
    destruct x as [v|].
    + destruct (sim_live _ _ _ Hs i b v) as (-> & _); [done|].
      rewrite lookup_app_l by (by rewrite length_insert). by apply list_lookup_insert_eq.
    + pose proof (sim_dead _ _ _ Hs i b Hb Hx) as Hdead. pose proof (lookup_lt_Some _ _ _ Hdead).
      rewrite lookup_app_l by (by rewrite length_insert). rewrite list_lookup_insert_ne; [done|].
      intros E. unfold a in E. rewrite <-E, (sim_valid _ _ _ Hs) in Hdead. done.
  - intros i j b b' v v' [_ Hv]. by apply Hnone in Hv.
  - symmetry. apply omap_dead.
Qed.

(** ** The refinement *)

Lemma sim_op u s sizes o :
  sim u s sizes → length (boxes u) < limit → op_ok size sizes o →
  match store_op s o with
  | Ok (s', x) => ∃ u', run_op u o = Ok (u', x) ∧ sim u' s' (sizes_after sizes o) ∧
      length (boxes u') ≤ S (length (boxes u))
  | Panic => run_op u o = Panic
  | OutOfFuel => False
  end.
Proof.
  intros Hs Hlim Ho. destruct o as [l v|i|i v| | |].
  - destruct (sim_alloc u s sizes l v Hs Hlim Ho) as (u' & E & Hs' & Hl & _). exists u'. rewrite Hl. done.
  - rewrite (sim_read u s sizes i Hs). cbn [store_op]. unfold index.
    destruct (vals s !! i) as [[v|]|]; cbn; try done. exists u. split; [done|]. split; [done|lia].
  - pose proof (sim_write u s sizes i v Hs Ho) as H. cbn [store_op] in *. unfold index in *.
    destruct (vals s !! i) as [[v0|]|]; cbn in *; try done.
    destruct H as (u' & E & Hs' & Hl). exists u'. rewrite Hl. split; [done|]. split; [done|lia].
  - cbn. eexists. split; [done|]. split; [|cbn; lia]. destruct Hs. split; cbn; try done. by f_equal.
  - cbn [store_op Arena.run_op]. unfold end_scope, checked_sub. rewrite (sim_depth _ _ _ Hs). case_decide; cbn; [|done].
    eexists. split; [done|]. split; [|cbn; lia]. destruct Hs. split; cbn; done.
  - cbn [store_op]. case_decide as Hd.
    + destruct (sim_clear u s sizes Hs Hd) as (u' & E & Eb & Hs'). exists u'. rewrite Eb. split; [done|]. split; [done|lia].
    + exists u. cbn. unfold clear. rewrite (sim_depth _ _ _ Hs), decide_False by done. cbn.
      split; [by destruct u|]. split; [done|lia].
Qed.

Lemma sim_ops os u s sizes :
  sim u s sizes → length (boxes u) + length os ≤ limit → ops_ok size sizes os →
  match store_ops s os with
  | Ok (s', xs) => ∃ u' sizes', run_ops u os = Ok (u', xs) ∧ sim u' s' sizes'
  | Panic => run_ops u os = Panic
  | OutOfFuel => False
  end.
Proof.
  revert u s sizes. induction os as [|o os IH]; intros u s sizes Hs Hlim; cbn [store_ops ops_ok length] in *; [by eauto|].
  intros [Ho Hos]. pose proof (sim_op u s sizes o Hs ltac:(lia) Ho) as H. cbn [Arena.run_ops].
  destruct (store_op s o) as [[s1 x]| |]; cbn [mbind outcome_bind]; [|by rewrite H|done].
  destruct H as (u1 & -> & Hs1 & Hl1). cbn [mbind outcome_bind].
  specialize (IH u1 s1 _ Hs1 ltac:(lia) Hos). destruct (store_ops s1 os) as [[s2 xs]| |]; cbn; [|by rewrite IH|done].
  destruct IH as (u2 & sizes2 & -> & Hs2). by exists u2, sizes2.
Qed.

Lemma sim_new h a h' : arena_new chunk_address size h = Ok (a, h') → dropped h = [] →
  sim (mkUse a h' []) (mkStore [] 0 []) [].
Proof.
  unfold arena_new. case_decide; [done|]. intros [= <- <-] Hd. split; cbn; try done; try lia.
  - split; [cbn; lia|]. intros k c Hc. apply list_lookup_singleton_Some in Hc as [-> <-]. cbn. repeat split; lia.
  - rewrite lookup_app_r, Nat.sub_diag by lia. done.
  - intros i b v [Hb _]. done.
  - intros i j b b' v v' [Hb _]. done.
Qed.

(** C38: An arena whose chunks can hold each value wherever they start refines a store of values.  Whatever a program
    allocates, reads, writes and clears, in nested scopes, the arena gives the same answers and panics exactly where the
    store does, which is at the use of a box whose time has ended and at an unbalanced end of a scope; no value is
    disturbed by another, at the level of bytes; and the values are dropped once each, in the order of their allocation,
    when the outermost clear comes. *)
Theorem arena_refines_store os h a h' :
  arena_new chunk_address size h = Ok (a, h') → dropped h = [] → length os ≤ limit → ops_ok size [] os →
  match store_ops (mkStore [] 0 []) os with
  | Ok (s, answers) => ∃ u, run_ops (mkUse a h' []) os = Ok (u, answers) ∧ dropped (heap u) = map Some (gone s) ∧
      scope_depth (arena u) = depth s
  | Panic => run_ops (mkUse a h' []) os = Panic
  | OutOfFuel => False
  end.
Proof.
  intros Hn Hd Hlim Hos. pose proof (sim_ops os _ _ _ (sim_new h a h' Hn Hd) Hlim Hos) as H.
  destruct (store_ops _ os) as [[s xs]| |]; [|done..]. destruct H as (u & sizes & E & Hs).
  exists u. split; [done|]. split; [by eapply sim_gone|by eapply sim_depth].
Qed.

(** The box of an allocation is aligned for its type. *)
Theorem alloc_aligned u s sizes l v u' :
  sim u s sizes → length (boxes u) < limit → op_ok size sizes (OpAlloc l v) → run_op u (OpAlloc l v) = Ok (u', None) →
  ∃ b, boxes u' = boxes u ++ [b] ∧ box_ptr b mod layout_align l = 0.
Proof.
  intros Hs Hlim Ho E. destruct (sim_alloc u s sizes l v Hs Hlim Ho) as (u1 & E1 & _ & _ & Hb). rewrite E in E1. by injection E1 as <-.
Qed.
End arena.

(** ** A run *)

Definition sample_address (k : nat) : nat := 17 + k * 16.
Definition sample_ops : list (Op nat) :=
  [OpBegin; OpAlloc (mkLayout 8 8) (seq 0 8); OpAlloc (mkLayout 2 2) [20; 21]; OpAlloc (mkLayout 4 4) [30; 31; 32; 33];
   OpWrite 1 [40; 41]; OpClear; OpRead 0; OpRead 1; OpRead 2; OpEnd; OpClear; OpAlloc (mkLayout 1 1) [7]; OpRead 3].
Definition sample_heap : Heap nat := mkHeap ∅ [] [].

Lemma arena_refines_store_witness :
  match store_ops (mkStore [] 0 []) sample_ops with
  | Ok (s, answers) => ∃ u, run_ops 1000 sample_address (mkUse (mkArena [chunk_new sample_address 0 16] [] 0 0 16 0)
        (mkHeap ∅ [true] []) []) sample_ops = Ok (u, answers) ∧ dropped (heap u) = map Some (gone s) ∧
      scope_depth (arena u) = depth s
  | Panic => run_ops 1000 sample_address (mkUse (mkArena [chunk_new sample_address 0 16] [] 0 0 16 0)
        (mkHeap ∅ [true] []) []) sample_ops = Panic
  | OutOfFuel => False
  end.
Proof.
  apply (arena_refines_store 1000 sample_address 16 20) with (h := sample_heap).
  - intros k Hk. unfold sample_address. lia.
  - intros j k Hj Hk Hne. unfold apart, sample_address. lia.
  - reflexivity.
  - reflexivity.
  - cbn. lia.
  - cbn. repeat split; try lia. intros n [= <-]. done.
Defined.

(** The store's answers, and a chunk of exactly one value, which can be too small when it starts at an odd address. *)
Example sample_answers : store_ops (mkStore [] 0 []) sample_ops =
  Ok (mkStore [None; None; None; Some [7]] 0 [seq 0 8; [40; 41]; [30; 31; 32; 33]],
      [None; None; None; None; None; None; Some (seq 0 8); Some [40; 41]; Some [30; 31; 32; 33]; None; None; None; Some [7]]).
Proof. reflexivity. Qed.

Example tight_chunk_panics :
  alloc 1000 sample_address (mkArena [chunk_new sample_address 0 8] [] 0 0 8 0) (mkHeap ∅ [true] []) (mkLayout 8 8) (seq 0 8)
    = Panic.
Proof. vm_compute. done. Qed.
