(* ===== verification/Scroll.v ===== *)
(** Scrolling: wheel deltas ([interactive.rs]), the dominant axis of a gesture ([gestures.rs]), scroll handles, the clamp of
    the scroll position and the wheel listener ([elements/div.rs]), and uniform lists ([elements/uniform_list.rs]), all of
    [crates/gpui/src], over exact lengths. *)
From Stdlib Require Import QArith Qcanon Qround.
From S2P Require Import Prelude Chars LineWrapper Geometry Pixels.
Local Open Scope Qc_scope.
Local Open Scope nat_scope.

Abbreviation px := Qc.
Implicit Types a b c d : px.

(** ** Lengths *)

Definition pabs a : px := if clt a 0%Qc then (- a)%Qc else a.
Definition is_zero a : bool := peq a 0%Qc.
(** [clamp] of [Ord], which panics when the limits are the wrong way round. *)
Definition clamp a (low high : px) : outcome px :=
  _ ← assert_that (cle low high); Ok (if clt a low then low else if clt high a then high else a).
(** [f32::round]: half away from zero. *)
Definition pround a : px :=
  if clt a 0%Qc then (- pfloor (- a + Q2Qc (1 # 2)))%Qc else pfloor (a + Q2Qc (1 # 2))%Qc.
Definition pceil a : px := (- pfloor (- a))%Qc.
Definition round_to_two_decimals a : px := (pround (a * Q2Qc 100) / Q2Qc 100)%Qc.

Definition zero_point : Point px := point 0%Qc 0%Qc.
Definition add_point (p q : Point px) : Point px := point (x p + x q)%Qc (y p + y q)%Qc.
Definition sub_point (p q : Point px) : Point px := point (x p - x q)%Qc (y p - y q)%Qc.

(** ** Wheel deltas *)

Inductive ScrollDelta := PixelDelta (delta : Point px) | LineDelta (delta : Point px).
Definition precise (self : ScrollDelta) : bool := match self with PixelDelta _ => true | LineDelta _ => false end.
Definition pixel_delta (self : ScrollDelta) (line_height : px) : Point px :=
  match self with
  | PixelDelta delta => delta
  | LineDelta delta => point (line_height * x delta)%Qc (line_height * y delta)%Qc
  end.
(** [signum] of floats, for which zero is positive. *)
Definition same_sign a b : bool := Bool.eqb (clt a 0%Qc) (clt b 0%Qc).
Definition coalesce_along a b : px := if same_sign a b then (a + b)%Qc else b.
Definition coalesce (self other : ScrollDelta) : ScrollDelta :=
  match self, other with
  | PixelDelta a, PixelDelta b => PixelDelta (point (coalesce_along (x a) (x b)) (coalesce_along (y a) (y b)))
  | LineDelta a, LineDelta b => LineDelta (point (coalesce_along (x a) (x b)) (coalesce_along (y a) (y b)))
  | _, _ => other
  end.

(** ** The axis of a gesture *)

Inductive TouchPhase := Started | Moved | Ended | Cancelled.
Inductive Axis := Horizontal | Vertical.
(** [OngoingScroll]; times are milliseconds. *)
Record OngoingScroll : Type := mkOngoing { last_event : option nat; axis : option Axis }.
Definition SCROLL_EVENT_SEPARATION : nat := 28.
Definition UNLOCK_PERCENT : px := Q2Qc (19 # 10).
Definition UNLOCK_LOWER_BOUND : px := Q2Qc 6.
Definition filter_at (self : OngoingScroll) (delta : Point px) (touch_phase : TouchPhase) (now : nat) :
    OngoingScroll * Point px :=
  match touch_phase with
  | Ended | Cancelled => (mkOngoing None None, delta)
  | _ =>
      let started := match touch_phase with Started => true | _ => false end in
      let dx := pabs (x delta) in
      let dy := pabs (y delta) in
      if is_zero dx && is_zero dy then (if started then mkOngoing None None else self, delta)
      else
        let starts_new_gesture :=
          started || match last_event self with
                     | None => true
                     | Some last => bool_decide (SCROLL_EVENT_SEPARATION ≤ now - last)
                     end in
        let axis :=
          if starts_new_gesture then (if cle dx dy then Some Vertical else Some Horizontal)
          else if cle UNLOCK_LOWER_BOUND (pmax dx dy) then
            match axis self with
            | Some Vertical => if clt dy dx && cle (dy * UNLOCK_PERCENT)%Qc dx then None else axis self
            | Some Horizontal => if clt dx dy && cle (dx * UNLOCK_PERCENT)%Qc dy then None else axis self
            | None => None
            end
          else axis self in
        (mkOngoing (Some now) axis,
         match axis with
         | Some Vertical => point 0%Qc (y delta)
         | Some Horizontal => point (x delta) 0%Qc
         | None => delta
         end)
  end.

(** ** Scroll handles *)

Inductive Overflow := OverflowVisible | OverflowClip | OverflowHidden | OverflowScroll.
Definition scrolls (o : Overflow) : bool := match o with OverflowScroll => true | _ => false end.

Module ItemStrategy.
Inductive t := FirstVisible | Top.
End ItemStrategy.
(** [ScrollActiveItem]. *)
Record ScrollActiveItem : Type := mkActive { active_index : nat; active_strategy : ItemStrategy.t }.
(** [ScrollHandleState]; the offset is shared with the element. *)
Record ScrollHandle : Type := mkHandle {
  offset : Point px;
  ongoing_scroll : OngoingScroll;
  handle_bounds : Bounds px;
  max_offset : Point px;
  child_bounds : list (Bounds px);
  to_bottom : bool;
  overflow : Point Overflow;
  active_item : option ScrollActiveItem;
}.
Implicit Types h : ScrollHandle.

Definition handle_new : ScrollHandle :=
  mkHandle zero_point (mkOngoing None None) bounds_default zero_point [] false (point OverflowVisible OverflowVisible) None.
Definition set_offset h (position : Point px) : ScrollHandle :=
  mkHandle position (ongoing_scroll h) (handle_bounds h) (max_offset h) (child_bounds h) (to_bottom h) (overflow h) (active_item h).
Definition set_active h (item : option ScrollActiveItem) : ScrollHandle :=
  mkHandle (offset h) (ongoing_scroll h) (handle_bounds h) (max_offset h) (child_bounds h) (to_bottom h) (overflow h) item.
Definition set_children h (cs : list (Bounds px)) : ScrollHandle :=
  mkHandle (offset h) (ongoing_scroll h) (handle_bounds h) (max_offset h) cs (to_bottom h) (overflow h) (active_item h).
Definition set_ongoing h (o : OngoingScroll) : ScrollHandle :=
  mkHandle (offset h) o (handle_bounds h) (max_offset h) (child_bounds h) (to_bottom h) (overflow h) (active_item h).
Definition scroll_to_item h (ix : nat) : ScrollHandle := set_active h (Some (mkActive ix ItemStrategy.FirstVisible)).
Definition scroll_to_top_of_item h (ix : nat) : ScrollHandle := set_active h (Some (mkActive ix ItemStrategy.Top)).
Definition scroll_to_bottom h : ScrollHandle :=
  mkHandle (offset h) (ongoing_scroll h) (handle_bounds h) (max_offset h) (child_bounds h) true (overflow h) (active_item h).

(** Along one axis: the least scroll that shows an item of the extent from [low] to [high] in the viewport from [top] to
    [bottom], both before the scroll. *)
Definition show_item (o low high item_size top bottom viewport_size : px) : px :=
  if clt viewport_size item_size then (top - low)%Qc
  else if clt (low + o)%Qc top then (top - low)%Qc
  else if clt bottom (high + o)%Qc then (bottom - high)%Qc
  else o.
Definition scroll_to_active_item h : ScrollHandle :=
  match active_item h with
  | None => h
  | Some item =>
      match child_bounds h !! active_index item with
      | None => h
      | Some cb =>
          let hb := handle_bounds h in
          let oy :=
            match active_strategy item with
            | ItemStrategy.FirstVisible =>
                if scrolls (y (overflow h))
                then show_item (y (offset h)) (top cb) (bottom cb) (height (bsize cb)) (top hb) (bottom hb) (height (bsize hb))
                else y (offset h)
            | ItemStrategy.Top => (top hb - top cb)%Qc
            end in
          let ox :=
            if scrolls (x (overflow h))
            then show_item (x (offset h)) (left cb) (right cb) (width (bsize cb)) (left hb) (right hb) (width (bsize hb))
            else x (offset h) in
          set_active (set_offset h (point ox oy)) None
      end
  end.

Section search.
(** [binary_search_by] of slices. *)
Context (binary_search_by : (Bounds px → comparison) → list (Bounds px) → result nat nat).
Definition item_at h (at_ : px) : nat :=
  match binary_search_by (λ r, if clt at_ (top r) then Gt else if clt (bottom r) at_ then Lt else Eq) (child_bounds h) with
  | ResOk ix => ix
  | ResErr ix => Nat.min ix (length (child_bounds h) - 1)
  end.
Definition top_item h : nat := item_at h (top (handle_bounds h) - y (offset h))%Qc.
Definition bottom_item h : nat := item_at h (bottom (handle_bounds h) - y (offset h))%Qc.
Definition logical_scroll_top h : nat * px :=
  let ix := top_item h in
  match child_bounds h !! ix with
  | Some r => (ix, top r + y (offset h) - top (handle_bounds h))%Qc
  | None => (ix, 0%Qc)
  end.
Definition logical_scroll_bottom h : nat * px :=
  let ix := bottom_item h in
  match child_bounds h !! ix with
  | Some r => (ix, bottom r + y (offset h) - bottom (handle_bounds h))%Qc
  | None => (ix, 0%Qc)
  end.
End search.

(** [clamp_scroll_position] of an element that tracks a handle; [padding] is in snapped pixels. *)
Definition scroll_max (content_size : Size px) (padding : Edges px) (bs : Bounds px) : Point px :=
  let padded_width := (width content_size + (edge_left padding + edge_right padding))%Qc in
  let padded_height := (height content_size + (edge_top padding + edge_bottom padding))%Qc in
  point_max (point (round_to_two_decimals (padded_width - width (bsize bs))) (round_to_two_decimals (padded_height - height (bsize bs))))
    zero_point.
Definition clamp_scroll_position h (content_size : Size px) (padding : Edges px) (bs : Bounds px) (o : Point Overflow) :
    outcome ScrollHandle :=
  let m := scroll_max content_size padding bs in
  ox ← clamp (x (offset h)) (- x m)%Qc 0%Qc;
  oy ← (if to_bottom h then Ok (- y m)%Qc else clamp (y (offset h)) (- y m)%Qc 0%Qc);
  Ok (mkHandle (point ox oy) (ongoing_scroll h) bs m (child_bounds h) false o (active_item h)).

(** The first part of [Div::prepaint]: the bounds of the children, as the layout gives them, and the size of the content.
    [Pixels::MAX] is larger than any length that occurs. *)
Definition content_of (pixels_max : px) (children : list (Bounds px)) (bs : Bounds px) : Size px :=
  match children with
  | [] => bsize bs
  | _ =>
      let child_min := foldl (λ m r, point_min m (origin r)) (point pixels_max pixels_max) children in
      let child_max := foldl (λ m r, point_max m (bottom_right r)) zero_point children in
      size (x child_max - x child_min)%Qc (y child_max - y child_min)%Qc
  end.
Definition div_prepaint (pixels_max : px) h (children : list (Bounds px)) (bs : Bounds px) (padding : Edges px)
    (o : Point Overflow) : outcome ScrollHandle :=
  let content_size := content_of pixels_max children bs in
  let h := match children with [] => h | _ => set_children h children end in
  clamp_scroll_position (scroll_to_active_item h) content_size padding bs o.

(** The listener of the wheel: what of a delta an element scrolls by. *)
Record ScrollStyle : Type := mkScrollStyle {
  style_overflow : Point Overflow; allow_concurrent_scroll : bool; restrict_scroll_to_axis : bool;
}.
Definition wheel_delta (st : ScrollStyle) (delta : Point px) : Point px :=
  let along own other own_delta other_delta :=
    if scrolls own then
      if negb (is_zero own_delta) then own_delta
      else if negb (restrict_scroll_to_axis st) && negb (scrolls other) then other_delta
      else 0%Qc
    else 0%Qc in
  let delta_x := along (x (style_overflow st)) (y (style_overflow st)) (x delta) (y delta) in
  let delta_y := along (y (style_overflow st)) (x (style_overflow st)) (y delta) (x delta) in
  if negb (allow_concurrent_scroll st) && negb (is_zero delta_x) && negb (is_zero delta_y) then
    if clt (pabs delta_y) (pabs delta_x) then point delta_x 0%Qc else point 0%Qc delta_y
  else point delta_x delta_y.
(** Whether the view is notified is the second result. *)
Definition scroll_wheel (st : ScrollStyle) (line_height : px) h (event : ScrollDelta) (phase : TouchPhase) (now : nat) :
    ScrollHandle * bool :=
  let delta := pixel_delta event line_height in
  let '(o, delta) :=
    if restrict_scroll_to_axis st && precise event then filter_at (ongoing_scroll h) delta phase now
    else (ongoing_scroll h, delta) in
  let new := add_point (offset h) (wheel_delta st delta) in
  (set_offset (set_ongoing h o) new, negb (peq (x new) (x (offset h)) && peq (y new) (y (offset h)))).

(** [ScrollAnchor::scroll_to], as it runs on the next frame. *)
Definition anchor_scroll_to h (last_origin : Point px) : ScrollHandle :=
  set_offset h (sub_point (origin (handle_bounds h)) last_origin).

(** ** Uniform lists *)

Module UniformStrategy.
Inductive t := Top | Center | Bottom | Nearest.
End UniformStrategy.
Record DeferredScrollToItem : Type := mkDeferred {
  item_index : nat; strategy : UniformStrategy.t; item_offset : nat; scroll_strict : bool;
}.
Record ItemSize : Type := mkItemSize { item : Size px; item_contents : Size px }.
(** [UniformListScrollState]. *)
Record UniformState : Type := mkUniform {
  base_handle : ScrollHandle;
  deferred_scroll_to_item : option DeferredScrollToItem;
  last_item_size : option ItemSize;
  uniform_flipped : bool;
}.
Implicit Types u : UniformState.

Definition uniform_new : UniformState := mkUniform handle_new None None false.
Definition set_base u h : UniformState := mkUniform h (deferred_scroll_to_item u) (last_item_size u) (uniform_flipped u).
Definition uniform_scroll_to u (ix : nat) (s : UniformStrategy.t) (o : nat) (strict : bool) : UniformState :=
  mkUniform (base_handle u) (Some (mkDeferred ix s o strict)) (last_item_size u) (uniform_flipped u).
(** [scroll_to_bottom], with the largest [usize]. *)
Definition uniform_scroll_to_bottom (usize_max : nat) u : UniformState :=
  uniform_scroll_to u usize_max UniformStrategy.Bottom 0 false.
Definition is_scrollable u : bool :=
  match last_item_size u with
  | Some s => clt (height (item s)) (height (item_contents s))
  | None => false
  end.
Definition is_scrolled_to_end u : option bool :=
  let m := y (max_offset (base_handle u)) in
  if cle m 0%Qc then None else Some (cle m (- y (offset (base_handle u)))%Qc).

(** [UniformList::y_flipped] of a list that tracks the handle; [pixels_min] is [Pixels::MIN]. *)
Definition set_flipped (pixels_min : px) u (y_flipped : bool) : UniformState :=
  let h := base_handle u in
  match last_item_size u with
  | Some last =>
      if negb (Bool.eqb (uniform_flipped u) y_flipped) then
        let new_y := (- (y (offset h) + height (item_contents last) - height (item last)))%Qc in
        mkUniform (set_offset h (point (x (offset h)) new_y)) (deferred_scroll_to_item u) (last_item_size u) y_flipped
      else u
  | None =>
      if y_flipped
      then mkUniform (set_offset h (point (x (offset h)) pixels_min)) (deferred_scroll_to_item u) (last_item_size u) y_flipped
      else u
  end.

(** [measure_item], over what rendering the item to measure gives: its size, when there is one. *)
Definition measure_item (item_count item_to_measure_index : nat) (measure : nat → option (Size px)) : Size px :=
  if decide (item_count = 0) then size_default
  else default size_default (measure (Nat.min item_to_measure_index (item_count - 1))).

(** The measured layout of a list whose height is inferred. *)
Inductive AvailableSpace := Definite (n : px) | MinContent | MaxContent.
Definition infer_size (item_size : Size px) (max_items : nat) (known_width : option px) (available : Size AvailableSpace) : Size px :=
  let desired_height := (height item_size * of_nat max_items)%Qc in
  size (match known_width with
        | Some w => w
        | None => match width available with Definite n => n | _ => width item_size end
        end)
       (match height available with Definite n => pmin desired_height n | _ => desired_height end).

(** The scroll that a deferred request asks for, where the scroll top is [scroll_top]. *)
Section request.
Context (usize_max : nat) (item_height list_height : px) (item_count : nat) (y_flipped : bool).

Definition content_height : px := (item_height * of_nat item_count)%Qc.
Definition scroll_request (r : DeferredScrollToItem) (offset_y : px) : outcome px :=
  ix ← (if y_flipped then
          _ ← assert_that (bool_decide (item_index r + 1 ≤ usize_max));
          Ok (item_count - (item_index r + 1))
        else Ok (item_index r));
  let item_top := (item_height * of_nat ix)%Qc in
  let item_bottom := (item_top + item_height)%Qc in
  let scroll_top := (- offset_y)%Qc in
  let offset_pixels := (item_height * of_nat (item_offset r))%Qc in
  let is_above := clt item_top (scroll_top + offset_pixels)%Qc in
  let is_below := clt (scroll_top + list_height)%Qc item_bottom in
  if scroll_strict r || is_above || is_below then
    let s :=
      match strategy r with
      | UniformStrategy.Nearest =>
          if is_above then UniformStrategy.Top else if is_below then UniformStrategy.Bottom else UniformStrategy.Nearest
      | s => s
      end in
    let max_scroll_offset := pmax (content_height - list_height)%Qc 0%Qc in
    match s with
    | UniformStrategy.Top =>
        o ← clamp (item_top - offset_pixels)%Qc 0%Qc max_scroll_offset; Ok (- o)%Qc
    | UniformStrategy.Center =>
        let item_center := (item_top + item_height / Q2Qc 2)%Qc in
        let viewport_height := (list_height - offset_pixels)%Qc in
        let viewport_center := (offset_pixels + viewport_height / Q2Qc 2)%Qc in
        o ← clamp (item_center - viewport_center)%Qc 0%Qc max_scroll_offset; Ok (- o)%Qc
    | UniformStrategy.Bottom =>
        o ← clamp (item_bottom - list_height)%Qc 0%Qc max_scroll_offset; Ok (- o)%Qc
    | UniformStrategy.Nearest => Ok offset_y
    end
  else Ok offset_y.

(** The items that are rendered at an offset. *)
Definition visible_range (padding_top offset_y : px) : nat * nat :=
  let first := as_usize (pfloor (- (offset_y + padding_top) / item_height)%Qc) in
  let last := as_usize (pceil ((- offset_y + list_height) / item_height)%Qc) in
  (first, Nat.min last item_count).
(** The items in the order in which they are laid out: a flipped list renders the mirrored range and reverses it. *)
Definition rendered_items (range : nat * nat) : list nat :=
  let '(first, last) := range in
  if y_flipped then rev (seq (item_count - last) ((item_count - first) - (item_count - last)))
  else seq first (last - first).
End request.

(** [UniformList::prepaint] over a tracked handle: the handle, the visible range, and where each item goes.  The
    bounds without borders and padding are [padded]. *)
Record UniformLayout : Type := mkLayoutParams {
  list_bounds : Bounds px; border : Edges px; list_padding : Edges px;
  longest_item_size : Size px; list_item_count : nat; can_scroll_horizontally : bool; list_overflow : Point Overflow;
}.
Definition padded_bounds (l : UniformLayout) : Bounds px :=
  from_corners
    (add_point (origin (list_bounds l))
       (point (edge_left (border l) + edge_left (list_padding l))%Qc (edge_top (border l) + edge_top (list_padding l))%Qc))
    (sub_point (bottom_right (list_bounds l))
       (point (edge_right (border l) + edge_right (list_padding l))%Qc (edge_bottom (border l) + edge_bottom (list_padding l))%Qc)).
Definition content_size_of (l : UniformLayout) : Size px :=
  let w := width (bsize (padded_bounds l)) in
  size (if can_scroll_horizontally l then pmax w (width (longest_item_size l)) else w)
       (height (longest_item_size l) * of_nat (list_item_count l))%Qc.
(** The corrections of the offset before the request: the second part of the closure that [prepaint] passes on. *)
Definition correct_offset (l : UniformLayout) (o : Point px) : Point px :=
  let max_scroll_offset := (height (bsize (padded_bounds l)) - height (content_size_of l))%Qc in
  let oy := if negb (is_zero (y o)) && clt (y o) max_scroll_offset then max_scroll_offset else y o in
  let content_width := (width (content_size_of l) + edge_left (list_padding l) + edge_right (list_padding l))%Qc in
  let is_scrolled_horizontally := can_scroll_horizontally l && negb (is_zero (x o)) in
  let ox := if is_scrolled_horizontally && cle content_width (width (bsize (padded_bounds l))) then 0%Qc else x o in
  point ox oy.
Definition uniform_prepaint (usize_max : nat) (l : UniformLayout) u : outcome (UniformState * list (nat * Point px)) :=
  let padded := padded_bounds l in
  let item_height := height (longest_item_size l) in
  let content := content_size_of l in
  let request := deferred_scroll_to_item u in
  h ← clamp_scroll_position (base_handle u) content (list_padding l) (list_bounds l) (list_overflow l);
  let u := mkUniform h None (Some (mkItemSize (bsize padded) content)) (uniform_flipped u) in
  if decide (0 < list_item_count l) then
    let o := correct_offset l (offset h) in
    oy ← match request with
         | Some r =>
             scroll_request usize_max item_height (height (bsize padded)) (list_item_count l) (uniform_flipped u) r (y o)
         | None => Ok (y o)
         end;
    let o := point (x o) oy in
    let range := visible_range item_height (height (bsize padded)) (list_item_count l) (edge_top (list_padding l)) oy in
    let items := rendered_items (list_item_count l) (uniform_flipped u) range in
    let places := map (λ ix, add_point (add_point (origin padded) o) (point 0%Qc (item_height * of_nat ix)%Qc))
                    (seq range.1 (range.2 - range.1)) in
    Ok (set_base u (set_offset h o), zip items places)
  else Ok (u, []).
