(* ===== verification/ScrollTheorems.v ===== *)
(** What scrolling promises: offsets stay in range, an item that is scrolled to is shown, and a uniform list renders what
    can be seen of it. *)
From Stdlib Require Import QArith Qcanon Qround Lqa.
From S2P Require Import Prelude Chars LineWrapper Geometry Pixels LineWrapFacts Scroll.
Local Open Scope Qc_scope.
Local Open Scope nat_scope.

Implicit Types a b c d : px.
Implicit Types h : ScrollHandle.

(** ** Lengths *)

Lemma clamp_ok a low high : (low <= high)%Qc →
  ∃ c, clamp a low high = Ok c ∧ (low <= c <= high)%Qc ∧ ((low <= a <= high)%Qc → c = a) ∧
    ((a <= high)%Qc → (a <= c)%Qc) ∧ ((low <= a)%Qc → (c <= a)%Qc) ∧ ((a < low)%Qc → c = low).
Proof.
  intros Hl. unfold clamp. rewrite (cle_yes low high Hl). cbn [assert_that mbind outcome_bind].
  eexists. split; [done|]. destruct (clt_spec a low), (clt_spec high a); repeat split; intros; try qc_lra;
    try (destruct H0; qc_lra); try (destruct H1; qc_lra).
Qed.

Lemma this_q (q : Q) : (this (Q2Qc q) == q)%Q.
Proof. apply Qred_correct. Qed.

Lemma pfloor_spec a : (pfloor a <= a)%Qc ∧ (a < pfloor a + 1)%Qc.
Proof.
  split; [apply pfloor_le|]. unfold Qclt. rewrite this_add. cbn [pfloor Qc_floor]. rewrite this_q.
  change (this 1) with 1%Q. pose proof (Qlt_floor (this a)) as H. rewrite inject_Z_plus in H. exact H.
Qed.

Lemma this_mul (a b : Qc) : (this (a * b)%Qc == this a * this b)%Q.
Proof. apply Qred_correct. Qed.

Lemma half_pos : (0 < Q2Qc (1 # 2))%Qc ∧ (Q2Qc (1 # 2) + Q2Qc (1 # 2) = 1)%Qc.
Proof. split; [reflexivity|apply Qc_is_canon; reflexivity]. Qed.

Lemma pround_near a : (pround a - a <= Q2Qc (1 # 2))%Qc ∧ (a - pround a <= Q2Qc (1 # 2))%Qc.
Proof.
  unfold pround. destruct half_pos as [H1 H2]. destruct (clt_spec a 0%Qc).
  - pose proof (pfloor_spec (- a + Q2Qc (1 # 2))%Qc) as [H3 H4]. revert H1 H2 H3 H4.
    generalize (pfloor (- a + Q2Qc (1 # 2))%Qc) as f, (Q2Qc (1 # 2)) as e. intros. split; qc_lra.
  - pose proof (pfloor_spec (a + Q2Qc (1 # 2))%Qc) as [H3 H4]. revert H1 H2 H3 H4.
    generalize (pfloor (a + Q2Qc (1 # 2))%Qc) as f, (Q2Qc (1 # 2)) as e. intros. split; qc_lra.
Qed.

(** Half of a hundredth. *)
Definition tolerance : px := Q2Qc (1 # 200).

Lemma round_two_near a : (round_to_two_decimals a - a <= tolerance)%Qc ∧ (a - round_to_two_decimals a <= tolerance)%Qc.
Proof.
  unfold round_to_two_decimals. pose proof (pround_near (a * Q2Qc 100)%Qc) as [H1 H2]. revert H1 H2.
  generalize (pround (a * Q2Qc 100)%Qc) as r. intros r H1 H2.
  assert (E : (this (r / Q2Qc 100)%Qc == this r * (1 # 100))%Q).
  { unfold Qcdiv. rewrite this_mul. apply Qmult_comp; [reflexivity|]. reflexivity. }
  unfold Qcle in *. rewrite this_sub, this_mul in H1, H2. rewrite !this_sub, E. unfold tolerance. rewrite this_q in *.
  rewrite this_q in H1, H2. split; lra.
Qed.

(** ** The range of the offset *)

(** The offset of a handle is between the end of the content and its start. *)
Definition in_range h : Prop :=
  (0 <= x (max_offset h) ∧ 0 <= y (max_offset h))%Qc ∧
  (- x (max_offset h) <= x (offset h) <= 0)%Qc ∧ (- y (max_offset h) <= y (offset h) <= 0)%Qc.

Lemma scroll_max_nonneg content padding bs :
  (0 <= x (scroll_max content padding bs))%Qc ∧ (0 <= y (scroll_max content padding bs))%Qc.
Proof.
  unfold scroll_max, point_max, zero_point. cbn [x y].
  split; [destruct (clt_spec 0%Qc (round_to_two_decimals (width content + (edge_left padding + edge_right padding) - width (bsize bs))%Qc))
         |destruct (clt_spec 0%Qc (round_to_two_decimals (height content + (edge_top padding + edge_bottom padding) - height (bsize bs))%Qc))];
    qc_lra.
Qed.

Lemma clamp_position h content padding bs o :
  ∃ h', clamp_scroll_position h content padding bs o = Ok h' ∧ in_range h' ∧
    max_offset h' = scroll_max content padding bs ∧ handle_bounds h' = bs ∧ overflow h' = o ∧
    child_bounds h' = child_bounds h ∧ active_item h' = active_item h ∧ to_bottom h' = false ∧
    (to_bottom h = true → y (offset h') = (- y (max_offset h'))%Qc) ∧
    ((- x (max_offset h') <= x (offset h) <= 0)%Qc → x (offset h') = x (offset h)) ∧
    (to_bottom h = false → ((- y (max_offset h') <= y (offset h) <= 0)%Qc → y (offset h') = y (offset h)) ∧
       ((y (offset h) <= 0)%Qc → (y (offset h) <= y (offset h'))%Qc) ∧
       ((- y (max_offset h') <= y (offset h))%Qc → (y (offset h') <= y (offset h))%Qc) ∧
       ((y (offset h) < - y (max_offset h'))%Qc → y (offset h') = (- y (max_offset h'))%Qc)).
Proof.
  destruct (scroll_max_nonneg content padding bs) as [Hx Hy]. unfold clamp_scroll_position.
  revert Hx Hy. generalize (scroll_max content padding bs) as m. intros m Hx Hy.
  destruct (clamp_ok (x (offset h)) (- x m)%Qc 0%Qc) as (ox & -> & Rx & Ex & _); [qc_lra|]. cbn [mbind outcome_bind].
  destruct (to_bottom h); cbn [mbind outcome_bind].
  - eexists. split; [done|]. unfold in_range.
    cbn [offset max_offset handle_bounds overflow child_bounds active_item to_bottom x y].
    repeat split; try done; try apply Rx; try qc_lra.
  - destruct (clamp_ok (y (offset h)) (- y m)%Qc 0%Qc) as (oy & -> & Ry & Ey & L1 & L2 & L3); [qc_lra|]. cbn [mbind outcome_bind].
    eexists. split; [done|]. unfold in_range.
    cbn [offset max_offset handle_bounds overflow child_bounds active_item to_bottom x y].
    repeat split; try done; try apply Rx; try apply Ry.
Qed.

(** Clamping never panics; it leaves the offset between zero and the scrollable length on both axes, it does not move an
    offset that is there already, unless the bottom was asked for, where it goes to the very end, and doing it again changes
    nothing. *)
Theorem clamp_keeps_range h content padding bs o :
  ∃ h', clamp_scroll_position h content padding bs o = Ok h' ∧ in_range h' ∧
    (to_bottom h = true → y (offset h') = (- y (max_offset h'))%Qc) ∧
    (to_bottom h = false → max_offset h = max_offset h' → in_range h → offset h' = offset h) ∧
    ∃ h2, clamp_scroll_position h' content padding bs o = Ok h2 ∧ offset h2 = offset h'.
Proof.
  destruct (clamp_position h content padding bs o) as (h' & E & R & M & _ & _ & _ & _ & B & Tb & Px & Py).
  exists h'. split; [done|]. split; [done|]. split; [done|]. split.
  - intros Hb Hm (_ & Rx & Ry). rewrite Hm in Rx, Ry.
    destruct (offset h') as [ox oy] eqn:E', (offset h) as [px py]. cbn in *. f_equal; [by apply Px|by apply (Py Hb)].
  - destruct (clamp_position h' content padding bs o) as (h2 & E2 & _ & M2 & _ & _ & _ & _ & _ & _ & Px2 & Py2).
    exists h2. split; [done|]. destruct R as (_ & Rx & Ry). rewrite M2, <-M in Px2, Py2.
    destruct (offset h2) as [ox oy], (offset h') as [px py]. cbn in *. f_equal; [by apply Px2|by apply (Py2 B)].
Qed.

(** ** Scrolling to a child *)

Lemma fold_min_le (l : list (Bounds px)) p0 :
  let m := foldl (λ m r, point_min m (origin r)) p0 l in
  (y m <= y p0)%Qc ∧ ∀ r, r ∈ l → (y m <= top r)%Qc.
Proof.
  revert p0. induction l as [|r l IH]; intros p0; cbn [foldl]; [split; [qc_lra|by intros r ?%not_elem_of_nil]|].
  destruct (IH (point_min p0 (origin r))) as [H1 H2].
  assert (Hm : (y (point_min p0 (origin r)) <= y p0)%Qc ∧ (y (point_min p0 (origin r)) <= top r)%Qc).
  { unfold point_min, top. cbn [y]. destruct (cle_spec (y p0) (y (origin r))); split; qc_lra. }
  split; [qc_lra|]. intros r' [->|Hr']%elem_of_cons; [qc_lra|]. by apply H2.
Qed.

Lemma fold_max_ge (l : list (Bounds px)) p0 :
  let m := foldl (λ m r, point_max m (bottom_right r)) p0 l in
  (y p0 <= y m)%Qc ∧ ∀ r, r ∈ l → (bottom r <= y m)%Qc.
Proof.
  revert p0. induction l as [|r l IH]; intros p0; cbn [foldl]; [split; [qc_lra|by intros r ?%not_elem_of_nil]|].
  destruct (IH (point_max p0 (bottom_right r))) as [H1 H2].
  assert (Hm : (y p0 <= y (point_max p0 (bottom_right r)))%Qc ∧ (bottom r <= y (point_max p0 (bottom_right r)))%Qc).
  { unfold point_max, bottom. cbn [y]. change (y (bottom_right r)) with (cadd (y (origin r)) (height (bsize r))).
    destruct (clt_spec (cadd (y (origin r)) (height (bsize r))) (y p0)); cbn [cadd Qc_coord] in *; split; qc_lra. }
  split; [qc_lra|]. intros r' [->|Hr']%elem_of_cons; [qc_lra|]. by apply H2.
Qed.

Lemma scroll_max_y content padding bs :
  (height content + (edge_top padding + edge_bottom padding) - height (bsize bs) - tolerance
    <= y (scroll_max content padding bs))%Qc.
Proof.
  unfold scroll_max, point_max, zero_point. cbn [y].
  pose proof (round_two_near (height content + (edge_top padding + edge_bottom padding) - height (bsize bs))%Qc) as [_ H].
  revert H. generalize (round_to_two_decimals (height content + (edge_top padding + edge_bottom padding) - height (bsize bs))%Qc) as r.
  intros r H. destruct (clt_spec 0%Qc r); qc_lra.
Qed.

(** C39: Scrolling to a child of an element that scrolls vertically shows the child: after the next prepaint, when the layout
    has not changed since the last one, the offset is in its range, no scroll to the bottom is pending, the content starts at the padding and the child fits, the whole child is in the
    bounds, up to half a hundredth of a pixel, to which the scrollable length is rounded. *)
Theorem scroll_to_item_shows pixels_max h ix children bs padding o cb :
  in_range h → max_offset h = scroll_max (content_of pixels_max children bs) padding bs → handle_bounds h = bs →
  to_bottom h = false → scrolls (y (overflow h)) = true → children !! ix = Some cb →
  (0 <= height (bsize cb) <= height (bsize bs))%Qc → (∀ r, r ∈ children → top bs <= top r)%Qc →
  (∃ r, r ∈ children ∧ top r <= top bs + edge_top padding + edge_bottom padding)%Qc →
  ∃ h', div_prepaint pixels_max (scroll_to_item h ix) children bs padding o = Ok h' ∧ active_item h' = None ∧
    (top bs - tolerance <= top cb + y (offset h'))%Qc ∧ (bottom cb + y (offset h') <= bottom bs + tolerance)%Qc.
Proof.
  intros (_ & _ & Hy) Hm Hb Hbot Ho Hix [Hpos Hfit] Hall (r & Hr & Hrtop). unfold div_prepaint.
  set (content := content_of pixels_max children bs) in *.
  assert (Hc : match children with [] => scroll_to_item h ix | _ => set_children (scroll_to_item h ix) children end =
    set_children (scroll_to_item h ix) children) by (by destruct children). rewrite Hc. clear Hc.
  unfold scroll_to_active_item. cbn [active_item set_children set_active scroll_to_item child_bounds active_index active_strategy handle_bounds overflow offset].
  rewrite Hix, Ho, Hb.
  match goal with |- context [clamp_scroll_position ?h1] => set (h1' := h1) end.
  destruct (clamp_position h1' content padding bs o) as (h' & -> & R & M & _ & _ & _ & A & _ & _ & _ & Py).
  exists h'. split; [done|]. split; [by rewrite A|]. destruct (Py Hbot) as (P1 & P2 & P3 & P4). clear Py.
  destruct R as (_ & _ & Ry). rewrite M in *. rewrite Hm in Hy.
  assert (Hoff : y (offset h1') = show_item (y (offset h)) (top cb) (bottom cb) (height (bsize cb)) (top bs) (bottom bs) (height (bsize bs))) by done.
  rewrite Hoff in P1, P2, P3, P4. clear Hoff A.
  pose proof (scroll_max_y content padding bs) as Hmax. set (m := y (scroll_max content padding bs)) in *.
  assert (Hend : (bottom cb - bottom bs <= m + tolerance)%Qc).
  { assert (Hcont : (bottom cb - top r <= height content)%Qc).
    { unfold content, content_of. destruct children as [|c0 cs]; [by apply not_elem_of_nil in Hr|]. cbn [height].
      pose proof (fold_min_le (c0 :: cs) (point pixels_max pixels_max)) as [_ Hmin].
      pose proof (fold_max_ge (c0 :: cs) zero_point) as [_ Hmx].
      apply list_elem_of_lookup_2 in Hix. specialize (Hmin r Hr). specialize (Hmx cb Hix). qc_lra. }
    unfold bottom at 2. cbn [cadd Qc_coord]. change (y (origin bs)) with (top bs). qc_lra. }
  assert (Htop : (top bs <= top cb)%Qc) by (apply Hall; by eapply list_elem_of_lookup_2).
  assert (Hht : bottom cb = (top cb + height (bsize cb))%Qc) by done.
  assert (Hhb : bottom bs = (top bs + height (bsize bs))%Qc) by done.
  assert (Htol : (0 <= tolerance)%Qc) by (by unfold tolerance, Qcle).
  revert P1 P2 P3 P4. unfold show_item. rewrite (clt_no _ _ Hfit).
  generalize dependent (y (offset h')). intros o' Ry. revert Hy. generalize (y (offset h)) as oy. intros oy Hy.
  destruct (clt_spec (top cb + oy)%Qc (top bs)); [|destruct (clt_spec (bottom bs) (bottom cb + oy)%Qc)]; intros P1 P2 P3 P4.
  - rewrite P1 by (split; qc_lra). split; qc_lra.
  - assert (Q2 : (bottom bs - bottom cb <= o')%Qc) by (apply P2; qc_lra).
    destruct (cle_spec (- m)%Qc (bottom bs - bottom cb)%Qc) as [Hle|Hlt].
    + specialize (P3 Hle). split; qc_lra.
    + specialize (P4 Hlt). split; qc_lra.
  - rewrite P1 by (split; qc_lra). split; qc_lra.
Qed.

(** ** Uniform lists *)

Lemma as_usize_floor a : as_usize (pfloor a) = Z.to_nat (Qfloor (this a)).
Proof. cbn [as_usize pfloor Qc_floor]. by rewrite (Qfloor_comp _ _ (this_q _)), Qfloor_Z. Qed.
Lemma as_usize_ceil a : as_usize (pceil a) = Z.to_nat (- Qfloor (- this a)).
Proof.
  unfold pceil. cbn [as_usize pfloor Qc_floor]. f_equal.
  rewrite (Qfloor_comp _ (inject_Z (- Qfloor (this (- a)%Qc)))).
  - rewrite Qfloor_Z. f_equal. apply Qfloor_comp, this_opp.
  - rewrite this_opp, this_q, inject_Z_opp. reflexivity.
Qed.
Lemma this_of_nat (n : nat) : (this (of_nat n : Qc) == inject_Z (Z.of_nat n))%Q.
Proof. apply this_q. Qed.

Lemma floor_below a (n : nat) : (a < of_nat (S n))%Qc → as_usize (pfloor a) ≤ n.
Proof.
  unfold Qclt. rewrite as_usize_floor, this_of_nat. intros H.
  assert (Hf : (inject_Z (Qfloor (this a)) < inject_Z (Z.of_nat (S n)))%Q) by (eapply Qle_lt_trans; [apply Qfloor_le|done]).
  rewrite <-Zlt_Qlt in Hf. lia.
Qed.
Lemma ceil_above a (n : nat) : (of_nat n < a)%Qc → n < as_usize (pceil a).
Proof.
  unfold Qclt. rewrite as_usize_ceil, this_of_nat. intros H.
  assert (Hf : (inject_Z (Qfloor (- this a)) < inject_Z (- Z.of_nat n))%Q).
  { eapply Qle_lt_trans; [apply Qfloor_le|]. rewrite inject_Z_opp. lra. }
  rewrite <-Zlt_Qlt in Hf. lia.
Qed.

Lemma inv_pos b : (0 < b)%Qc → (0 < / b)%Qc.
Proof.
  unfold Qclt. intros H. assert (E : (this (/ b)%Qc == / this b)%Q) by apply Qred_correct.
  rewrite E. change (this 0%Qc) with 0%Q in *. by apply Qinv_lt_0_compat.
Qed.
Lemma div_lt a b c : (0 < b)%Qc → (a < c * b)%Qc → (a / b < c)%Qc.
Proof.
  intros Hb H. apply (Qcmult_lt_compat_r _ _ (/ b)%Qc) in H.
  - unfold Qcdiv. by rewrite <-Qcmult_assoc, Qcmult_inv_r, Qcmult_1_r in H by (intros ->; by apply Qlt_irrefl in Hb).
  - by apply inv_pos.
Qed.
Lemma lt_div a b c : (0 < b)%Qc → (c * b < a)%Qc → (c < a / b)%Qc.
Proof.
  intros Hb H. apply (Qcmult_lt_compat_r _ _ (/ b)%Qc) in H.
  - unfold Qcdiv. by rewrite <-Qcmult_assoc, Qcmult_inv_r, Qcmult_1_r in H by (intros ->; by apply Qlt_irrefl in Hb).
  - by apply inv_pos.
Qed.

Lemma half_twice a : (a / Q2Qc 2 + a / Q2Qc 2 = a)%Qc.
Proof. unfold Qcdiv. rewrite <-Qcmult_plus_distr_r. replace (/ Q2Qc 2 + / Q2Qc 2)%Qc with 1%Qc by (by apply Qc_is_canon). ring. Qed.

Section uniform.
Context (usize_max : nat) (item_height list_height : px) (item_count : nat) (y_flipped : bool).
Hypothesis height_pos : (0 < item_height)%Qc.
Notation slot_top n := (item_height * of_nat n)%Qc.
Notation range o padding_top := (visible_range item_height list_height item_count padding_top o).

Lemma slot_S (n : nat) : slot_top (S n) = (slot_top n + item_height)%Qc.
Proof using. rewrite <-Nat.add_1_r, of_nat_add, of_nat_1. ring. Qed.
Lemma slot_mono (m n : nat) : m ≤ n → (slot_top m <= slot_top n)%Qc.
Proof using height_pos.
  induction 1 as [|n _ IH]; [apply Qcle_refl|]. rewrite slot_S. qc_lra.
Qed.

(** Whatever can be seen in the viewport, or in the padding above it, is rendered. *)
Lemma seen_in_range o padding_top n :
  n < item_count → (- o - padding_top < slot_top (S n))%Qc → (slot_top n < - o + list_height)%Qc →
  (range o padding_top).1 ≤ n < (range o padding_top).2.
Proof using height_pos.
  intros Hn H1 H2. unfold visible_range. cbn [fst snd]. split.
  - apply floor_below, div_lt; [done|]. rewrite (Qcmult_comm _ item_height). qc_lra.
  - apply Nat.min_glb_lt; [|done]. apply ceil_above, lt_div; [done|]. rewrite (Qcmult_comm _ item_height). qc_lra.
Qed.

(** The item in a slot. *)
Definition mirror (n : nat) : nat := if y_flipped then item_count - (n + 1) else n.

Lemma rendered_lookup first last n : first ≤ n < last → last ≤ item_count →
  rendered_items item_count y_flipped (first, last) !! (n - first) = Some (mirror n).
Proof using.
  intros Hn Hl. unfold rendered_items, mirror. destruct y_flipped.
  - rewrite rev_alt. change (rev_append ?l []) with (reverse l).
    rewrite reverse_lookup, length_seq by (rewrite length_seq; lia). apply lookup_seq. lia.
  - apply lookup_seq. lia.
Qed.

(** A target that shows an item shows it after the clamp to the scrollable length, too. *)
Lemma clamp_shows t low high : (0 <= low)%Qc → (high <= content_height item_height item_count)%Qc →
  (t <= low)%Qc → (high <= t + list_height)%Qc →
  ∃ c, clamp t 0%Qc (pmax (content_height item_height item_count - list_height)%Qc 0%Qc) = Ok c ∧
    (c <= low)%Qc ∧ (high <= c + list_height)%Qc.
Proof using.
  intros Hlow Hhigh Ht1 Ht2. pose proof (pmax_ge (content_height item_height item_count - list_height)%Qc 0%Qc) as [M1 M2].
  revert Hhigh M1 M2. generalize (content_height item_height item_count) as k, (pmax (content_height item_height item_count - list_height)%Qc 0%Qc) as m.
  intros k m Hhigh M1 M2. unfold clamp. rewrite (cle_yes _ _ M2). cbn [assert_that mbind outcome_bind].
  eexists. split; [done|]. destruct (clt_spec t 0%Qc), (clt_spec m t); split; qc_lra.
Qed.

(** A request for an item leads to an offset at which its slot is inside the viewport. *)
Lemma request_shows r o :
  item_offset r = 0 → item_index r < item_count → item_count ≤ usize_max → (item_height <= list_height)%Qc →
  ∃ o', scroll_request usize_max item_height list_height item_count y_flipped r o = Ok o' ∧
    (- o' <= slot_top (mirror (item_index r)))%Qc ∧ (slot_top (S (mirror (item_index r))) <= - o' + list_height)%Qc ∧
    (scroll_strict r = false → (- o <= slot_top (mirror (item_index r)))%Qc →
       (slot_top (S (mirror (item_index r))) <= - o + list_height)%Qc → o' = o).
Proof using height_pos.
  intros H0 Hix Hmax Hfit. unfold scroll_request.
  assert (Hslot : (if y_flipped then
      _ ← assert_that (bool_decide (item_index r + 1 ≤ usize_max)); Ok (item_count - (item_index r + 1))
      else Ok (item_index r)) = Ok (mirror (item_index r))).
  { unfold mirror. destruct y_flipped; [|done]. by rewrite bool_decide_true by lia. }
  rewrite Hslot. cbn [mbind outcome_bind]. rewrite H0, of_nat_0, Qcmult_0_r.
  set (n := mirror (item_index r)). rewrite slot_S.
  assert (Hlow : (0 <= slot_top n)%Qc) by (pose proof (slot_mono 0 n ltac:(lia)) as H; rewrite of_nat_0, Qcmult_0_r in H; qc_lra).
  assert (Hhigh : (slot_top n + item_height <= content_height item_height item_count)%Qc).
  { rewrite <-slot_S. apply slot_mono. unfold n, mirror. destruct y_flipped; lia. }
  pose proof (clamp_shows (slot_top n) (slot_top n) (slot_top n + item_height)%Qc Hlow Hhigh) as Htop.
  pose proof (clamp_shows (slot_top n + item_height - list_height)%Qc (slot_top n) (slot_top n + item_height)%Qc Hlow Hhigh) as Hbot.
  pose proof (clamp_shows (slot_top n + item_height / Q2Qc 2 - list_height / Q2Qc 2)%Qc (slot_top n) (slot_top n + item_height)%Qc Hlow Hhigh) as Hcen.
  replace (list_height - 0)%Qc with list_height by ring.
  pose proof (half_twice item_height) as E1. pose proof (half_twice list_height) as E2.
  revert Htop Hbot Hcen E1 E2. generalize (slot_top n) as low, (item_height / Q2Qc 2)%Qc as h2, (list_height / Q2Qc 2)%Qc as l2.
  clear Hslot Hlow Hhigh. intros low h2 l2 Htop Hbot Hcen E1 E2.
  assert (Hdone : ∀ t, (∃ c, clamp t 0%Qc (pmax (content_height item_height item_count - list_height)%Qc 0%Qc) = Ok c ∧
      (c <= low)%Qc ∧ (low + item_height <= c + list_height)%Qc) →
    ((- o <= low)%Qc → (low + item_height <= - o + list_height)%Qc → scroll_strict r = false → False) →
    ∃ o', (c ← clamp t 0%Qc (pmax (content_height item_height item_count - list_height)%Qc 0%Qc); Ok (- c)%Qc) = Ok o' ∧
      (- o' <= low)%Qc ∧ (low + item_height <= - o' + list_height)%Qc ∧
      (scroll_strict r = false → (- o <= low)%Qc → (low + item_height <= - o + list_height)%Qc → o' = o)).
  { intros t (c & -> & C1 & C2) Hno. exists (- c)%Qc. split; [done|]. split; [qc_lra|]. split; [qc_lra|].
    intros ? ? ?. exfalso. by apply Hno. }
  assert (Hcur : (- o + 0 <= low)%Qc → (low + item_height <= - o + list_height)%Qc →
    ∃ o', Ok o = Ok o' ∧ (- o' <= low)%Qc ∧ (low + item_height <= - o' + list_height)%Qc ∧
      (scroll_strict r = false → (- o <= low)%Qc → (low + item_height <= - o + list_height)%Qc → o' = o)).
  { intros ? ?. exists o. split; [done|]. split; [qc_lra|]. split; [qc_lra|done]. }
  assert (T1 : ∃ c, clamp (low - 0)%Qc 0%Qc (pmax (content_height item_height item_count - list_height)%Qc 0%Qc) = Ok c ∧
      (c <= low)%Qc ∧ (low + item_height <= c + list_height)%Qc).
  { replace (low - 0)%Qc with low by ring. apply Htop; qc_lra. }
  assert (T2 := Hbot ltac:(qc_lra) ltac:(qc_lra)). 
  assert (T3 : ∃ c, clamp (low + h2 - (0 + l2))%Qc 0%Qc (pmax (content_height item_height item_count - list_height)%Qc 0%Qc) = Ok c ∧
      (c <= low)%Qc ∧ (low + item_height <= c + list_height)%Qc).
  { replace (low + h2 - (0 + l2))%Qc with (low + h2 - l2)%Qc by ring. apply Hcen; qc_lra. }
  clear Htop Hbot Hcen.
  destruct (clt_spec low (- o + 0)%Qc) as [Ha|Ha], (clt_spec (- o + list_height)%Qc (low + item_height)%Qc) as [Hb|Hb];
    rewrite ?orb_true_r, ?orb_false_r; [| | |destruct (scroll_strict r) eqn:Es; [|by apply Hcur]];
    cbn [orb]; destruct (strategy r); (apply Hdone; [done|intros; first [discriminate|qc_lra]]) || by apply Hcur.
Qed.
End uniform.

(** ** The prepaint of a uniform list *)

(** C40: The next prepaint after a request for an item of a uniform list, without an item offset, renders the item and
    places all of it inside the padded bounds, for every strategy, flipped or not, whatever the offset was, as long as
    an item fits into the list; the request is consumed. *)
Theorem uniform_list_shows usize_max l u ix s strict :
  let item_height := height (longest_item_size l) in
  (0 < item_height)%Qc → (item_height <= height (bsize (padded_bounds l)))%Qc → (0 <= edge_top (list_padding l))%Qc →
  ix < list_item_count l → list_item_count l ≤ usize_max →
  ∃ u' places p, uniform_prepaint usize_max l (uniform_scroll_to u ix s 0 strict) = Ok (u', places) ∧
    (ix, p) ∈ places ∧ (top (padded_bounds l) <= y p)%Qc ∧ (y p + item_height <= bottom (padded_bounds l))%Qc ∧
    deferred_scroll_to_item u' = None.
Proof.
  intros item_height Hpos Hfit Hpad Hix Hmax. unfold uniform_prepaint. fold item_height.
  cbn [uniform_scroll_to base_handle deferred_scroll_to_item uniform_flipped].
  destruct (clamp_position (base_handle u) (content_size_of l) (list_padding l) (list_bounds l) (list_overflow l)) as (h & -> & _).
  cbn [mbind outcome_bind]. rewrite decide_True by lia.
  set (o := correct_offset l (offset h)). set (padded := padded_bounds l) in *.
  destruct (request_shows usize_max item_height (height (bsize padded)) (list_item_count l) (uniform_flipped u) Hpos
    (mkDeferred ix s 0 strict) (y o)) as (oy & -> & H1 & H2 & _); [done..|]. cbn [mbind outcome_bind item_index] in *.
  set (n := mirror (list_item_count l) (uniform_flipped u) ix) in *.
  assert (Hn : n < list_item_count l) by (unfold n, mirror; destruct (uniform_flipped u); lia).
  set (rg := visible_range item_height (height (bsize padded)) (list_item_count l) (edge_top (list_padding l)) oy).
  rewrite slot_S in H2.
  assert (Hr : rg.1 ≤ n < rg.2) by (apply seen_in_range; [done..|rewrite slot_S; qc_lra|qc_lra]).
  assert (Hlast : rg.2 ≤ list_item_count l) by (unfold rg, visible_range; cbn [snd]; lia).
  pose proof (rendered_lookup (list_item_count l) (uniform_flipped u) rg.1 rg.2 n Hr Hlast) as Hlook.
  rewrite <-surjective_pairing in Hlook.
  assert (Hmir : mirror (list_item_count l) (uniform_flipped u) n = ix) by (unfold n, mirror; destruct (uniform_flipped u); lia).
  rewrite Hmir in Hlook.
  eexists _, _, (add_point (add_point (origin padded) (point (x o) oy)) (point 0%Qc (item_height * of_nat n)%Qc)).
  split; [done|]. split; [|split; [|split; [|done]]].
  - apply list_elem_of_lookup. exists (n - rg.1). apply lookup_zip_with_Some. eexists _, _. split; [done|]. split; [exact Hlook|].
    apply list_lookup_fmap_Some. exists n. split; [done|]. rewrite lookup_seq. lia.
  - cbn [y add_point]. change (y (origin padded)) with (top padded). qc_lra.
  - cbn [y add_point]. change (bottom padded) with (y (origin padded) + height (bsize padded))%Qc. qc_lra.
Qed.

(** Flipping a list that was laid out and flipping it back restores the handle. *)
Lemma flip_twice pixels_min u last :
  last_item_size u = Some last →
  set_flipped pixels_min (set_flipped pixels_min u (negb (uniform_flipped u))) (uniform_flipped u) = u.
Proof.
  intros Hl. destruct u as [h def ls fl]. cbn in Hl. subst ls. unfold set_flipped. cbn [last_item_size uniform_flipped].
  assert (E : negb (Bool.eqb fl (negb fl)) = true) by (by destruct fl).
  assert (E2 : negb (Bool.eqb (negb fl) fl) = true) by (by destruct fl).
  rewrite E. cbn [last_item_size uniform_flipped base_handle deferred_scroll_to_item]. rewrite E2. f_equal.
  destruct h as [[ox oy] og hb m cs tb ov ac]. unfold set_offset.
  cbn [offset ongoing_scroll handle_bounds max_offset child_bounds to_bottom overflow active_item x y]. f_equal. f_equal. ring.
Qed.

(** ** Gestures *)

(** Events that follow one another closely and do not leave the axis of their gesture stay on it: the other axis does not
    move, and the axis is remembered. *)
Lemma gesture_keeps_axis o delta now last :
  last_event o = Some last → now - last < SCROLL_EVENT_SEPARATION → axis o = Some Vertical →
  (pabs (x delta) < pabs (y delta) * UNLOCK_PERCENT)%Qc →
  let '(o', d) := filter_at o delta Moved now in axis o' = Some Vertical ∧ d = point 0%Qc (y delta) ∨ d = delta ∧ o' = o.
Proof.
  intros Hl Ht Ha Hd. unfold filter_at. destruct (_ && _); [by right|]. cbn [orb]. rewrite Hl, bool_decide_false by lia.
  rewrite Ha. destruct (cle UNLOCK_LOWER_BOUND _); [|by left].
  destruct (cle_spec (pabs (y delta) * UNLOCK_PERCENT)%Qc (pabs (x delta))); [qc_lra|].
  rewrite andb_false_r. by left.
Qed.

(** An element does not scroll along an axis on which it does not, nor along both at once unless it allows that. *)
Lemma wheel_axes st delta :
  (scrolls (x (style_overflow st)) = false → x (wheel_delta st delta) = 0%Qc) ∧
  (scrolls (y (style_overflow st)) = false → y (wheel_delta st delta) = 0%Qc) ∧
  (allow_concurrent_scroll st = false → x (wheel_delta st delta) = 0%Qc ∨ y (wheel_delta st delta) = 0%Qc).
Proof.
  unfold wheel_delta. set (dx := if scrolls (x _) then _ else _). set (dy := if scrolls (y _) then _ else _).
  assert (Hx : scrolls (x (style_overflow st)) = false → dx = 0%Qc) by (unfold dx; by intros ->).
  assert (Hy : scrolls (y (style_overflow st)) = false → dy = 0%Qc) by (unfold dy; by intros ->).
  clearbody dx dy. destruct (allow_concurrent_scroll st); cbn [negb andb]; [by repeat split|].
  unfold is_zero. destruct (peq_spec dx 0%Qc) as [E1|], (peq_spec dy 0%Qc) as [E2|]; cbn [negb andb x y]; [by auto..|].
  destruct (clt _ _); cbn [x y]; auto.
Qed.

(** ** Samples *)

Definition q (n : Z) : px := Q2Qc (inject_Z n).
Definition sample_bounds : Bounds px := bounds (point 0%Qc 0%Qc) (size (q 100) (q 100)).
Definition sample_children : list (Bounds px) :=
  map (λ n, bounds (point 0%Qc (q n)) (size (q 100) (q 60))) [5; 65; 125]%Z.
Definition sample_padding : Edges px := edges (q 5) (q 0) (q 5) (q 0).
Definition sample_overflow : Point Overflow := point OverflowHidden OverflowScroll.
Definition sample_handle : ScrollHandle :=
  mkHandle zero_point (mkOngoing None None) sample_bounds
    (scroll_max (content_of (q 9999) sample_children sample_bounds) sample_padding sample_bounds) [] false sample_overflow None.

Ltac qc_compute := repeat split; vm_compute; discriminate.

Lemma scroll_to_item_shows_witness :
  ∃ h', div_prepaint (q 9999) (scroll_to_item sample_handle 2) sample_children sample_bounds sample_padding sample_overflow = Ok h' ∧
    active_item h' = None ∧ (q 0 - tolerance <= q 125 + y (offset h'))%Qc ∧ (q 185 + y (offset h') <= q 100 + tolerance)%Qc.
Proof.
  destruct (scroll_to_item_shows (q 9999) sample_handle 2 sample_children sample_bounds sample_padding sample_overflow
    (bounds (point 0%Qc (q 125)) (size (q 100) (q 60)))) as (h' & E & A & H1 & H2).
  - qc_compute.
  - reflexivity.
  - reflexivity.
  - reflexivity.
  - reflexivity.
  - reflexivity.
  - qc_compute.
  - apply Forall_forall. unfold sample_children. repeat constructor; vm_compute; discriminate.
  - eexists. split; [left|]. vm_compute. discriminate.
  - exists h'. split; [exact E|]. split; [exact A|]. split.
    + exact H1.
    + replace (q 185) with (q 125 + q 60)%Qc by (apply Qc_is_canon; reflexivity).
      replace (q 100) with (q 0 + q 100)%Qc by (apply Qc_is_canon; reflexivity). exact H2.
Defined.

(** A list of ten items of 20 pixels in 100 pixels, of which a border takes some. *)
Definition sample_list (border_width : Z) : UniformLayout :=
  let b := q border_width in
  mkLayoutParams sample_bounds (edges b b b b) (edges (q 0) (q 0) (q 0) (q 0)) (size (q 50) (q 20)) 10 false sample_overflow.

Lemma uniform_list_shows_witness :
  ∃ u' places p, uniform_prepaint 1000 (sample_list 10) (uniform_scroll_to uniform_new 7 UniformStrategy.Center 0 true)
      = Ok (u', places) ∧ (7, p) ∈ places ∧ (top (padded_bounds (sample_list 10)) <= y p)%Qc ∧
    (y p + q 20 <= bottom (padded_bounds (sample_list 10)))%Qc ∧ deferred_scroll_to_item u' = None.
Proof.
  apply (uniform_list_shows 1000 (sample_list 10) uniform_new 7 UniformStrategy.Center true).
  - reflexivity.
  - vm_compute. discriminate.
  - vm_compute. discriminate.
  - cbn. lia.
  - cbn. lia.
Defined.

(** The tops of the items that a prepaint renders. *)
Definition tops (r : outcome (UniformState * list (nat * Point px))) : outcome (UniformState * list (nat * Q)) :=
  '(u, places) ← r; Ok (u, map (λ '(ix, p), (ix, this (y p))) places).
Definition last_top (r : outcome (UniformState * list (nat * Point px))) : option (nat * Q) :=
  match tops r with Ok (_, l) => list.last l | _ => None end.
Definition state_of (r : outcome (UniformState * list (nat * Point px))) : UniformState :=
  match r with Ok (u, _) => u | _ => uniform_new end.

(** The scrollable length does not count the border: a request for the last item shows it, from 70 pixels up to 90, where
    the inside of the border ends; at the next frame the offset is clamped to a range that lacks the width of both borders,
    and the last item is not even rendered. *)
Example border_hides_the_end :
  let r1 := uniform_prepaint 1000 (sample_list 10) (uniform_scroll_to uniform_new 9 UniformStrategy.Bottom 0 false) in
  let r2 := uniform_prepaint 1000 (sample_list 10) (state_of r1) in
  last_top r1 = Some (9, (70#1)%Q) ∧ last_top r2 = Some (8, (70#1)%Q).
Proof. vm_compute. done. Qed.

(** Scrolling a flipped list to its bottom asks for an item whose number overflows. *)
Example flipped_to_bottom_panics :
  uniform_prepaint 1000 (sample_list 0)
    (uniform_scroll_to_bottom 1000 (mkUniform handle_new None None true)) = Panic.
Proof. vm_compute. done. Qed.
