(* ===== verification/Window.v ===== *)
(** Windows: hit testing, focus, and the frames that draws produce, [crates/gpui/src/window.rs], with the drags of
    [crates/gpui/src/app.rs].  Code of the application, that is listeners and elements, is a list of calls. *)
From Stdlib Require Import ZArith QArith Qcanon.
From stdpp Require Import gmap.
From S2P Require Import Prelude Chars KeyContext Predicate Keystroke Binding Keymap DispatchTree TabStops Subscription Geometry Pixels.
Import DispatchTree.
Local Open Scope nat_scope.

(** ** Data *)

Inductive DispatchPhase := Bubble | Capture.
(** The cursor styles; only the first one is named here. *)
Inductive CursorStyle := Arrow | OtherStyle (style : nat).
Inductive HitboxBehavior := Normal | BlockMouse | BlockMouseExceptScroll.
#[export] Instance HitboxBehavior_eq_dec : EqDecision HitboxBehavior.
Proof. solve_decision. Defined.

(** [HitboxId] is a [u64]. *)
Abbreviation HitboxId := Z (only parsing).
Definition next_id (id : HitboxId) : HitboxId := ((id + 1) mod 2 ^ 64)%Z.
Record Hitbox : Type := mkHitbox {
  hitbox_id : HitboxId;
  hitbox_bounds : Bounds Qc;
  content_mask : Bounds Qc;
  behavior : HitboxBehavior;
}.
Record HitTest : Type := mkHitTest { ids : list HitboxId; hover_hitbox_count : nat }.
#[export] Instance HitTest_eq_dec : EqDecision HitTest.
Proof. solve_decision. Defined.
Record CursorStyleRequest : Type := mkRequest { request_hitbox : option HitboxId; style : CursorStyle }.

Record WindowFocusEvent : Type := mkFocusEvent { previous_focus_path : list FocusId; current_focus_path : list FocusId }.
Definition is_focus_in (self : WindowFocusEvent) (focus_id : FocusId) : bool :=
  negb (bool_decide (focus_id ∈ previous_focus_path self)) && bool_decide (focus_id ∈ current_focus_path self).
Definition is_focus_out (self : WindowFocusEvent) (focus_id : FocusId) : bool :=
  bool_decide (focus_id ∈ previous_focus_path self) && negb (bool_decide (focus_id ∈ current_focus_path self)).

Inductive InputModality := Mouse | Keyboard | TouchScreen.
#[export] Instance InputModality_eq_dec : EqDecision InputModality.
Proof. solve_decision. Defined.
Inductive DrawPhase := NotDrawing | Prepaint | Paint | FocusPhase.
#[export] Instance DrawPhase_eq_dec : EqDecision DrawPhase.
Proof. solve_decision. Defined.
Inductive CursorHideMode := Never | OnTyping | OnTypingAndAction.
#[export] Instance CursorHideMode_eq_dec : EqDecision CursorHideMode.
Proof. solve_decision. Defined.

(** [PendingInput]; the timer runs as long as it is there, and finds the input by its generation. *)
Record PendingInput : Type := mkPending {
  pending_keystrokes : list Keystroke.t;
  pending_focus : option FocusId;
  timer : bool;
  needs_timeout : bool;
  generation : nat;
}.
Record ModifierState : Type := mkModifierState { held : Modifiers.t; saw_other_input : bool }.

(** ** Events *)

Inductive MouseButton := LeftButton | RightButton | MiddleButton | NavigateButton (forward : bool).
#[export] Instance MouseButton_eq_dec : EqDecision MouseButton.
Proof. solve_decision. Defined.
Record KeyDownEvent : Type := mkKeyDown { keystroke : Keystroke.t; is_held : bool; prefer_character_input : bool }.
Inductive FileDropEvent :=
  | Entered (position : Point Qc) (paths : nat)
  | DropPending (position : Point Qc)
  | Submit (position : Point Qc)
  | Exited
  | DropEnded.
(** [PlatformInput]; a touch is only passed on by other code. *)
Inductive PlatformInput :=
  | KeyDown (event : KeyDownEvent)
  | KeyUp (keystroke : Keystroke.t)
  | ModifiersChanged (modifiers : Modifiers.t) (capslock : bool)
  | MouseDown (button : MouseButton) (position : Point Qc) (modifiers : Modifiers.t) (click_count : nat)
  | MouseUp (button : MouseButton) (position : Point Qc) (modifiers : Modifiers.t) (click_count : nat)
  | MousePressure (position : Point Qc) (modifiers : Modifiers.t)
  | MouseMove (position : Point Qc) (pressed_button : option MouseButton) (modifiers : Modifiers.t)
  | MouseExited (position : Point Qc) (pressed_button : option MouseButton) (modifiers : Modifiers.t)
  | ScrollWheel (position : Point Qc) (delta : Point Qc) (modifiers : Modifiers.t)
  | Pinch (position : Point Qc) (modifiers : Modifiers.t)
  | FileDrop (event : FileDropEvent)
  | Touch (touch : nat).
Definition mouse_event (self : PlatformInput) : bool :=
  match self with KeyDown _ | KeyUp _ | ModifiersChanged _ _ | Touch _ => false | _ => true end.
Definition keyboard_event (self : PlatformInput) : bool :=
  match self with KeyDown _ | KeyUp _ | ModifiersChanged _ _ => true | _ => false end.

Section window.
Context {L A V : Type} `{UserAction A} {os : Target}.

(** ** State *)

(** [AnyDrag]: its value, the style, and the code that gives the payload for the platform. *)
Record AnyDrag : Type := mkDrag { value : nat; drag_cursor_style : option CursorStyle; external_payload_source : option L }.
Inductive PlatformOwnedDragState := Suspended (drag : AnyDrag) | RestoredInSourceWindow.
Record PlatformOwnedDrag : Type := mkOwned { source_window : nat; drag_state : PlatformOwnedDragState }.

(** [Frame], without what is drawn; the keys of element states, pairs of an id and a type, are numbers. *)
Record Frame : Type := mkFrame {
  frame_focus : option FocusId;
  window_active : bool;
  element_states : gmap nat V;
  accessed_element_states : list nat;
  mouse_listeners : list (option L);
  dispatch_tree : DispatchTree.t L;
  hitboxes : list Hitbox;
  input_handlers : list (option L);
  cursor_styles : list CursorStyleRequest;
  tab_stops : TabStopMap.t;
}.
Record FocusState : Type := mkFocus { focus : option FocusId; focus_enabled : bool; focus_generation : Z }.
Record Pointer : Type := mkPointer {
  mouse_position : Point Qc;
  mouse_hit_test : HitTest;
  captured_hitbox : option HitboxId;
  modifiers : Modifiers.t;
  capslock : bool;
  last_input_modality : InputModality;
}.
Record DrawState : Type := mkDrawState { dirty : bool; draw_phase : DrawPhase; update_count : nat; refreshing : bool }.
Record Keys : Type := mkKeys { pending_input : option PendingInput; pending_modifier : ModifierState }.
(** [Window], its fields in groups; [input_handler] is the one that the platform window has. *)
Record Window : Type := mkWindow {
  rendered_frame : Frame;
  next_frame : Frame;
  next_hitbox_id : HitboxId;
  focus_state : FocusState;
  pointer : Pointer;
  draw_state : DrawState;
  keys : Keys;
  input_handler : option L;
  default_prevented : bool;
  active : bool;
  hovered : bool;
  removed : bool;
}.

(** The sets of subscribers that a window calls. *)
Inductive WindowSet := Interceptors | KeystrokeObservers | PendingInputObservers | FocusListeners | FocusLostListeners.
#[local] Instance WindowSet_eq_dec : EqDecision WindowSet.
Proof. solve_decision. Defined.
Abbreviation SubOp := (WindowSet * op () L)%type (only parsing).
(** What waits for the end of the update. *)
Inductive Deferred :=
  | NotifyPendingInput
  | DispatchAction (focus_id : option FocusId) (action : Action A)
  | RefreshWindow.
(** The arguments of a call of application code. *)
Inductive Call :=
  | OnMouse (event : PlatformInput) (phase : DispatchPhase)
  | OnKey (event : PlatformInput) (phase : DispatchPhase)
  | OnModifiers (event : PlatformInput)
  | OnAction (action : Action A) (phase : DispatchPhase)
  | OnGlobalAction (action : Action A) (phase : DispatchPhase)
  | OnKeystroke (keystroke : Keystroke.t) (action : option (Action A)) (context_stack : list KeyContext.t)
  | OnPendingInput
  | OnFocus (event : WindowFocusEvent)
  | OnFocusLost
  | OnText (text : list char)
  | OnPayload.
(** What happened, in order: calls of application code and of the platform. *)
Inductive LogEntry :=
  | Called (listener : L) (call : Call)
  | HidCursor
  | SetCursor (style : CursorStyle).

(** The fields of [App] that windows use; a generation is an [Rc] that is compared by its address, [timers] are the
    generations that timers were started for. *)
Record App : Type := mkApp {
  propagate_event : bool;
  keymap : Keymap.t A;
  global_action_listeners : gmap TypeId (list L);
  active_drag : option AnyDrag;
  platform_owned_drag : option PlatformOwnedDrag;
  cursor_hide_mode : CursorHideMode;
  sets : WindowSet → SubscriberSet () L;
  deferred : list Deferred;
  generations : nat;
  timers : list nat;
  log : list LogEntry;
}.
Record World : Type := mkWorld { win : Window; app : App }.
Implicit Types w : World.
Implicit Types f : Frame.

(** Assignments to one field. *)
Definition put_rendered_frame w (v : Frame) : World :=
  mkWorld (mkWindow v (next_frame (win w)) (next_hitbox_id (win w)) (focus_state (win w)) (pointer (win w)) (draw_state (win w)) (keys (win w)) (input_handler (win w)) (default_prevented (win w)) (active (win w)) (hovered (win w)) (removed (win w))) (app w).
Definition put_next_frame w (v : Frame) : World :=
  mkWorld (mkWindow (rendered_frame (win w)) v (next_hitbox_id (win w)) (focus_state (win w)) (pointer (win w)) (draw_state (win w)) (keys (win w)) (input_handler (win w)) (default_prevented (win w)) (active (win w)) (hovered (win w)) (removed (win w))) (app w).
Definition put_next_hitbox_id w (v : HitboxId) : World :=
  mkWorld (mkWindow (rendered_frame (win w)) (next_frame (win w)) v (focus_state (win w)) (pointer (win w)) (draw_state (win w)) (keys (win w)) (input_handler (win w)) (default_prevented (win w)) (active (win w)) (hovered (win w)) (removed (win w))) (app w).
Definition put_focus_state w (v : FocusState) : World :=
  mkWorld (mkWindow (rendered_frame (win w)) (next_frame (win w)) (next_hitbox_id (win w)) v (pointer (win w)) (draw_state (win w)) (keys (win w)) (input_handler (win w)) (default_prevented (win w)) (active (win w)) (hovered (win w)) (removed (win w))) (app w).
Definition put_pointer w (v : Pointer) : World :=
  mkWorld (mkWindow (rendered_frame (win w)) (next_frame (win w)) (next_hitbox_id (win w)) (focus_state (win w)) v (draw_state (win w)) (keys (win w)) (input_handler (win w)) (default_prevented (win w)) (active (win w)) (hovered (win w)) (removed (win w))) (app w).
Definition put_draw_state w (v : DrawState) : World :=
  mkWorld (mkWindow (rendered_frame (win w)) (next_frame (win w)) (next_hitbox_id (win w)) (focus_state (win w)) (pointer (win w)) v (keys (win w)) (input_handler (win w)) (default_prevented (win w)) (active (win w)) (hovered (win w)) (removed (win w))) (app w).
Definition put_keys w (v : Keys) : World :=
  mkWorld (mkWindow (rendered_frame (win w)) (next_frame (win w)) (next_hitbox_id (win w)) (focus_state (win w)) (pointer (win w)) (draw_state (win w)) v (input_handler (win w)) (default_prevented (win w)) (active (win w)) (hovered (win w)) (removed (win w))) (app w).
Definition put_input_handler w (v : option L) : World :=
  mkWorld (mkWindow (rendered_frame (win w)) (next_frame (win w)) (next_hitbox_id (win w)) (focus_state (win w)) (pointer (win w)) (draw_state (win w)) (keys (win w)) v (default_prevented (win w)) (active (win w)) (hovered (win w)) (removed (win w))) (app w).
Definition put_default_prevented w (v : bool) : World :=
  mkWorld (mkWindow (rendered_frame (win w)) (next_frame (win w)) (next_hitbox_id (win w)) (focus_state (win w)) (pointer (win w)) (draw_state (win w)) (keys (win w)) (input_handler (win w)) v (active (win w)) (hovered (win w)) (removed (win w))) (app w).
Definition put_removed w (v : bool) : World :=
  mkWorld (mkWindow (rendered_frame (win w)) (next_frame (win w)) (next_hitbox_id (win w)) (focus_state (win w)) (pointer (win w)) (draw_state (win w)) (keys (win w)) (input_handler (win w)) (default_prevented (win w)) (active (win w)) (hovered (win w)) v) (app w).
Definition put_propagate_event w (v : bool) : World :=
  mkWorld (win w) (mkApp v (keymap (app w)) (global_action_listeners (app w)) (active_drag (app w)) (platform_owned_drag (app w)) (cursor_hide_mode (app w)) (sets (app w)) (deferred (app w)) (generations (app w)) (timers (app w)) (log (app w))).
Definition put_keymap w (v : Keymap.t A) : World :=
  mkWorld (win w) (mkApp (propagate_event (app w)) v (global_action_listeners (app w)) (active_drag (app w)) (platform_owned_drag (app w)) (cursor_hide_mode (app w)) (sets (app w)) (deferred (app w)) (generations (app w)) (timers (app w)) (log (app w))).
Definition put_global_action_listeners w (v : gmap TypeId (list L)) : World :=
  mkWorld (win w) (mkApp (propagate_event (app w)) (keymap (app w)) v (active_drag (app w)) (platform_owned_drag (app w)) (cursor_hide_mode (app w)) (sets (app w)) (deferred (app w)) (generations (app w)) (timers (app w)) (log (app w))).
Definition put_active_drag w (v : option AnyDrag) : World :=
  mkWorld (win w) (mkApp (propagate_event (app w)) (keymap (app w)) (global_action_listeners (app w)) v (platform_owned_drag (app w)) (cursor_hide_mode (app w)) (sets (app w)) (deferred (app w)) (generations (app w)) (timers (app w)) (log (app w))).
Definition put_platform_owned_drag w (v : option PlatformOwnedDrag) : World :=
  mkWorld (win w) (mkApp (propagate_event (app w)) (keymap (app w)) (global_action_listeners (app w)) (active_drag (app w)) v (cursor_hide_mode (app w)) (sets (app w)) (deferred (app w)) (generations (app w)) (timers (app w)) (log (app w))).
Definition put_sets w (v : WindowSet → SubscriberSet () L) : World :=
  mkWorld (win w) (mkApp (propagate_event (app w)) (keymap (app w)) (global_action_listeners (app w)) (active_drag (app w)) (platform_owned_drag (app w)) (cursor_hide_mode (app w)) v (deferred (app w)) (generations (app w)) (timers (app w)) (log (app w))).
Definition put_deferred w (v : list Deferred) : World :=
  mkWorld (win w) (mkApp (propagate_event (app w)) (keymap (app w)) (global_action_listeners (app w)) (active_drag (app w)) (platform_owned_drag (app w)) (cursor_hide_mode (app w)) (sets (app w)) v (generations (app w)) (timers (app w)) (log (app w))).
Definition put_generations w (v : nat) : World :=
  mkWorld (win w) (mkApp (propagate_event (app w)) (keymap (app w)) (global_action_listeners (app w)) (active_drag (app w)) (platform_owned_drag (app w)) (cursor_hide_mode (app w)) (sets (app w)) (deferred (app w)) v (timers (app w)) (log (app w))).
Definition put_timers w (v : list nat) : World :=
  mkWorld (win w) (mkApp (propagate_event (app w)) (keymap (app w)) (global_action_listeners (app w)) (active_drag (app w)) (platform_owned_drag (app w)) (cursor_hide_mode (app w)) (sets (app w)) (deferred (app w)) (generations (app w)) v (log (app w))).
Definition put_log w (v : list LogEntry) : World :=
  mkWorld (win w) (mkApp (propagate_event (app w)) (keymap (app w)) (global_action_listeners (app w)) (active_drag (app w)) (platform_owned_drag (app w)) (cursor_hide_mode (app w)) (sets (app w)) (deferred (app w)) (generations (app w)) (timers (app w)) v).
Definition set_frame_focus f (v : option FocusId) : Frame :=
  mkFrame v (window_active f) (element_states f) (accessed_element_states f) (mouse_listeners f) (dispatch_tree f) (hitboxes f) (input_handlers f) (cursor_styles f) (tab_stops f).
Definition set_window_active f (v : bool) : Frame :=
  mkFrame (frame_focus f) v (element_states f) (accessed_element_states f) (mouse_listeners f) (dispatch_tree f) (hitboxes f) (input_handlers f) (cursor_styles f) (tab_stops f).
Definition set_element_states f (v : gmap nat V) : Frame :=
  mkFrame (frame_focus f) (window_active f) v (accessed_element_states f) (mouse_listeners f) (dispatch_tree f) (hitboxes f) (input_handlers f) (cursor_styles f) (tab_stops f).
Definition set_accessed_element_states f (v : list nat) : Frame :=
  mkFrame (frame_focus f) (window_active f) (element_states f) v (mouse_listeners f) (dispatch_tree f) (hitboxes f) (input_handlers f) (cursor_styles f) (tab_stops f).
Definition set_mouse_listeners f (v : list (option L)) : Frame :=
  mkFrame (frame_focus f) (window_active f) (element_states f) (accessed_element_states f) v (dispatch_tree f) (hitboxes f) (input_handlers f) (cursor_styles f) (tab_stops f).
Definition set_dispatch_tree f (v : DispatchTree.t L) : Frame :=
  mkFrame (frame_focus f) (window_active f) (element_states f) (accessed_element_states f) (mouse_listeners f) v (hitboxes f) (input_handlers f) (cursor_styles f) (tab_stops f).
Definition set_hitboxes f (v : list Hitbox) : Frame :=
  mkFrame (frame_focus f) (window_active f) (element_states f) (accessed_element_states f) (mouse_listeners f) (dispatch_tree f) v (input_handlers f) (cursor_styles f) (tab_stops f).
Definition set_input_handlers f (v : list (option L)) : Frame :=
  mkFrame (frame_focus f) (window_active f) (element_states f) (accessed_element_states f) (mouse_listeners f) (dispatch_tree f) (hitboxes f) v (cursor_styles f) (tab_stops f).
Definition set_cursor_styles f (v : list CursorStyleRequest) : Frame :=
  mkFrame (frame_focus f) (window_active f) (element_states f) (accessed_element_states f) (mouse_listeners f) (dispatch_tree f) (hitboxes f) (input_handlers f) v (tab_stops f).
Definition set_tab_stops f (v : TabStopMap.t) : Frame :=
  mkFrame (frame_focus f) (window_active f) (element_states f) (accessed_element_states f) (mouse_listeners f) (dispatch_tree f) (hitboxes f) (input_handlers f) (cursor_styles f) v.
Definition with_next w (g : Frame → Frame) : World := put_next_frame w (g (next_frame (win w))).
Definition focused w : option FocusId := focus (focus_state (win w)).
Definition pending_of w : option PendingInput := pending_input (keys (win w)).
Definition note w (e : LogEntry) : World := put_log w (log (app w) ++ [e]).
Definition put_pending w (p : option PendingInput) : World := put_keys w (mkKeys p (pending_modifier (keys (win w)))).
Definition defer w (d : Deferred) : World := put_deferred w (deferred (app w) ++ [d]).

(** ** Invalidation *)

(** [WindowInvalidator::set_dirty], [set_phase], [not_drawing], and [Window::refresh]. *)
Definition set_dirty (s : DrawState) (d : bool) : DrawState :=
  mkDrawState d (draw_phase s) (if d then update_count s + 1 else update_count s) (refreshing s).
Definition set_phase w (phase : DrawPhase) : World :=
  let s := draw_state (win w) in put_draw_state w (mkDrawState (dirty s) phase (update_count s) (refreshing s)).
Definition set_refreshing w (b : bool) : World :=
  let s := draw_state (win w) in put_draw_state w (mkDrawState (dirty s) (draw_phase s) (update_count s) b).
Definition not_drawing w : bool := bool_decide (draw_phase (draw_state (win w)) = NotDrawing).
Definition refresh w : World :=
  if not_drawing w then let w := set_refreshing w true in put_draw_state w (set_dirty (draw_state (win w)) true) else w.
Definition assert_phase w (phase : DrawPhase) : outcome () :=
  assert_that (bool_decide (draw_phase (draw_state (win w)) = phase)).

(** ** Hit testing *)

(** The loop of [Frame::hit_test] over the hitboxes, the front one first. *)
Fixpoint hit_test_loop (l : list Hitbox) (position : Point Qc) (t : HitTest) (counted : bool) : HitTest * bool :=
  match l with
  | [] => (t, counted)
  | h :: l =>
      if contains (intersect (hitbox_bounds h) (content_mask h)) position then
        let t := mkHitTest (ids t ++ [hitbox_id h]) (hover_hitbox_count t) in
        let '(t, counted) :=
          if negb counted && bool_decide (behavior h = BlockMouseExceptScroll)
          then (mkHitTest (ids t) (length (ids t)), true) else (t, counted) in
        if decide (behavior h = BlockMouse) then (t, counted) else hit_test_loop l position t counted
      else hit_test_loop l position t counted
  end.
Definition hit_test f (position : Point Qc) : HitTest :=
  let '(t, counted) := hit_test_loop (rev (hitboxes f)) position (mkHitTest [] 0) false in
  if counted : bool then t else mkHitTest (ids t) (length (ids t)).

(** [HitboxId::hit_test], [is_hovered], [is_hovered_ignoring_last_input] and [should_handle_scroll]. *)
Definition id_hit_test w (id : HitboxId) : bool :=
  let t := mouse_hit_test (pointer (win w)) in bool_decide (id ∈ take (hover_hitbox_count t) (ids t)).
Definition last_input_was_keyboard w : bool := bool_decide (last_input_modality (pointer (win w)) = Keyboard).
Definition is_hovered_ignoring_last_input w (id : HitboxId) : bool :=
  if decide (captured_hitbox (pointer (win w)) = Some id) then true else id_hit_test w id.
Definition is_hovered w (id : HitboxId) : bool :=
  if decide (captured_hitbox (pointer (win w)) = Some id) then true
  else if last_input_was_keyboard w then false else id_hit_test w id.
Definition should_handle_scroll w (id : HitboxId) : bool := bool_decide (id ∈ ids (mouse_hit_test (pointer (win w)))).

(** [Frame::cursor_style]: the last request for the whole window, or the last one of a hovered hitbox. *)
Fixpoint cursor_style_loop w (requests : list CursorStyleRequest) (style_ : option CursorStyle) : option CursorStyle :=
  match requests with
  | [] => style_
  | r :: requests =>
      match request_hitbox r with
      | None => Some (style r)
      | Some id =>
          cursor_style_loop w requests
            (match style_ with Some s => Some s
             | None => if is_hovered_ignoring_last_input w id then Some (style r) else None end)
      end
  end.
Definition cursor_style w f : option CursorStyle := cursor_style_loop w (rev (cursor_styles f)) None.
Definition reset_cursor_style w : World :=
  if hovered (win w) then note w (SetCursor (default Arrow (cursor_style w (rendered_frame (win w))))) else w.

Definition set_hit_test w (t : HitTest) : World :=
  let p := pointer (win w) in
  put_pointer w (mkPointer (mouse_position p) t (captured_hitbox p) (modifiers p) (capslock p) (last_input_modality p)).
Definition set_captured w (c : option HitboxId) : World :=
  let p := pointer (win w) in
  put_pointer w (mkPointer (mouse_position p) (mouse_hit_test p) c (modifiers p) (capslock p) (last_input_modality p)).

(** ** Focus *)

(** [focus_generation] is a [u64]. *)
Definition move_focus w (id : option FocusId) (moved : bool) : World :=
  let s := focus_state (win w) in
  put_focus_state w (mkFocus id (focus_enabled s)
    (if moved then ((focus_generation s + 1) mod 2 ^ 64)%Z else focus_generation s)).
Definition clear_pending_keystrokes w : World := put_pending w None.
Definition focus_handle_ w (id : FocusId) : World :=
  if negb (focus_enabled (focus_state (win w))) || bool_decide (focused w = Some id) then w
  else refresh (defer (clear_pending_keystrokes (move_focus w (Some id) true)) NotifyPendingInput).
Definition blur w : World :=
  if negb (focus_enabled (focus_state (win w))) then w
  else refresh (move_focus w None (bool_decide (focused w ≠ None))).
Definition disable_focus w : World :=
  let w := blur w in
  let s := focus_state (win w) in put_focus_state w (mkFocus (focus s) false (focus_generation s)).
(** [focus_next] and [focus_prev], over the step in the order of the tab stops. *)
Definition focus_step (step : TabStopMap.t → option FocusId → outcome (option FocusHandle)) w : outcome World :=
  if negb (focus_enabled (focus_state (win w))) then Ok w
  else handle ← step (tab_stops (rendered_frame (win w))) (focused w);
       Ok (match handle with Some h => focus_handle_ w (handle_id h) | None => w end).
Definition focus_next : World → outcome World := focus_step tab_next.
Definition focus_prev : World → outcome World := focus_step tab_prev.
Definition remove_window w : World := put_removed (clear_pending_keystrokes w) true.

(** The node that gets the events of a focused element, or the root. *)
Definition focus_node_id_in_rendered_frame w (focus_id : option FocusId) : outcome DispatchNodeId :=
  match focus_id ≫= focusable_node_id (dispatch_tree (rendered_frame (win w))) with
  | Some id => Ok id
  | None => root_node_id (dispatch_tree (rendered_frame (win w)))
  end.
Definition frame_focus_path f : outcome (list FocusId) :=
  match frame_focus f with Some id => focus_path (dispatch_tree f) id | None => Ok [] end.

(** ** Drags *)

Definition stop_active_drag w (window : nat) : World * bool :=
  match active_drag (app w) with
  | Some _ =>
      let w := put_active_drag w None in
      let w := match platform_owned_drag (app w) with
               | Some (mkOwned source RestoredInSourceWindow) =>
                   if decide (source = window) then put_platform_owned_drag w None else w
               | _ => w
               end in
      (refresh w, true)
  | None => (w, false)
  end.
Definition hand_active_drag_to_platform w (window : nat) : World * bool :=
  match active_drag (app w) with
  | Some drag => (put_platform_owned_drag (put_active_drag w None) (Some (mkOwned window (Suspended drag))), true)
  | None => (w, false)
  end.
Definition restore_platform_drag w (window : nat) : World * bool :=
  match platform_owned_drag (app w) with
  | Some owned =>
      if decide (source_window owned = window) then
        let w := put_platform_owned_drag w (Some (mkOwned window RestoredInSourceWindow)) in
        match drag_state owned with
        | Suspended drag => (put_active_drag w (Some drag), true)
        | RestoredInSourceWindow => (w, false)
        end
      else (w, false)
  | None => (w, false)
  end.
Definition hand_restored_drag_to_platform w (window : nat) : World * bool :=
  match platform_owned_drag (app w) with
  | Some (mkOwned source RestoredInSourceWindow) =>
      if decide (source = window) then
        match active_drag (app w) with
        | Some drag => (put_platform_owned_drag (put_active_drag w None) (Some (mkOwned source (Suspended drag))), true)
        | None => (w, false)
        end
      else (w, false)
  | _ => (w, false)
  end.
Definition end_platform_drag w (window : nat) : World * bool :=
  match platform_owned_drag (app w) with
  | Some owned =>
      if decide (source_window owned = window) then (put_active_drag (put_platform_owned_drag w None) None, true)
      else (w, false)
  | None => (w, false)
  end.

(** ** What application code does *)

(** The calls on the window and the application. *)
Inductive Command : Type :=
  | CStopPropagation
  | CPropagate
  | CPreventDefault
  | CRefresh
  | CFocus (id : FocusId)
  | CBlur
  | CDisableFocus
  | CFocusNext
  | CFocusPrev
  | CRemoveWindow
  | CCapturePointer (id : HitboxId)
  | CReleasePointer
  | CDispatchAction (action : Action A)
  | COnAction (action_type : TypeId) (listener : L)
  | CStartDrag (drag : AnyDrag)
  | CStopDrag (window : nat)
  | CBindKeys (bindings : list (KeyBinding A))
  | CClearKeyBindings
  | CSub (set : WindowSet) (o : op () L).

Definition put_set w (s : WindowSet) (st : SubscriberSet () L) : World :=
  put_sets w (λ s', if decide (s' = s) then st else sets (app w) s').
Definition on_global_action w (action_type : TypeId) (listener : L) : World :=
  let m := global_action_listeners (app w) in
  put_global_action_listeners w (<[action_type := default [] (m !! action_type) ++ [listener]]> m).
Definition run_command (c : Command) w : outcome World :=
  match c with
  | CStopPropagation => Ok (put_propagate_event w false)
  | CPropagate => Ok (put_propagate_event w true)
  | CPreventDefault => Ok (put_default_prevented w true)
  | CRefresh => Ok (refresh w)
  | CFocus id => Ok (focus_handle_ w id)
  | CBlur => Ok (blur w)
  | CDisableFocus => Ok (disable_focus w)
  | CFocusNext => focus_next w
  | CFocusPrev => focus_prev w
  | CRemoveWindow => Ok (remove_window w)
  | CCapturePointer id => Ok (set_captured w (Some id))
  | CReleasePointer => Ok (set_captured w None)
  | CDispatchAction act => Ok (defer w (DispatchAction (focused w) act))
  | COnAction ty l => Ok (on_global_action w ty l)
  | CStartDrag drag => Ok (put_active_drag w (Some drag))
  | CStopDrag window => Ok (stop_active_drag w window).1
  | CBindKeys bs => Ok (defer (put_keymap w (add_bindings (keymap (app w)) bs)) RefreshWindow)
  | CClearKeyBindings => Ok (defer (put_keymap w (keymap_clear (keymap (app w)))) RefreshWindow)
  | CSub s o => Ok (put_set w s (run_op (sets (app w) s) o))
  end.
Definition run_commands : list Command → World → outcome World := λ cs w, foldM (λ w c, run_command c w) w cs.
Definition sub_ops (s : WindowSet) (cs : list Command) : list (op () L) :=
  omap (λ c, match c with CSub s' o => if decide (s' = s) then Some o else None | _ => None end) cs.

(** What a listener does when it is called, and whether a subscriber stays. *)
Context (behave : L → Call → World → list Command * bool).

(** Code that is called is noted, then its calls run. *)
Definition call (c : Call) (l : L) w : outcome World := run_commands (behave l c w).1 (note w (Called l c)).

(** A subscriber as the closure that [retain] calls. *)
Definition handler (s : WindowSet) (c : Call) (r : outcome World) (st : SubscriberSet () L) (l : L)
    : outcome World * list (op () L) * L * bool :=
  match r with
  | Ok w =>
      let w := put_set w s st in
      let '(cmds, keep) := behave l c w in
      (run_commands cmds (note w (Called l c)), sub_ops s cmds, l, keep)
  | r => (r, [], l, true)
  end.
Definition notify_set (s : WindowSet) (c : Call) w : outcome World :=
  let '(r, st) := retain (handler s c) () (Ok w) (sets (app w) s) in
  w ← r; Ok (put_set w s st).

(** [pending_input_changed]. *)
Definition pending_input_changed w : outcome World := notify_set PendingInputObservers OnPendingInput w.

(** ** Frames *)

Definition frame_new (tree : DispatchTree.t L) : Frame := mkFrame None false ∅ [] [] tree [] [] [] tab_default.
(** [Frame::clear]; [window_active] stays. *)
Definition frame_clear f : Frame :=
  mkFrame None (window_active f) ∅ [] [] (tree_clear (dispatch_tree f)) [] [] [] (tab_clear (tab_stops f)).
(** [Frame::finish]: the states that the frame has accessed are kept. *)
Definition finish_states (self prev : gmap nat V) (accessed : list nat) : gmap nat V * gmap nat V :=
  foldl (λ '(self, prev) key,
    match prev !! key with Some state => (<[key := state]> self, delete key prev) | None => (self, prev) end)
    (self, prev) accessed.
Definition frame_finish f prev : Frame * Frame :=
  let '(states, old) := finish_states (element_states f) (element_states prev) (accessed_element_states f) in
  (set_element_states f states, set_element_states prev old).

(** [PrepaintStateIndex] and [PaintIndex], for the parts of a frame that are here. *)
Record PrepaintStateIndex : Type := mkPrepaintIndex {
  hitboxes_index : nat; dispatch_tree_index : nat; accessed_index : nat }.
Record PaintIndex : Type := mkPaintIndex {
  mouse_listeners_index : nat; input_handlers_index : nat; cursor_styles_index : nat;
  paint_accessed_index : nat; tab_handle_index : nat }.
Definition prepaint_index w : PrepaintStateIndex :=
  let f := next_frame (win w) in
  mkPrepaintIndex (length (hitboxes f)) (tree_len (dispatch_tree f)) (length (accessed_element_states f)).
Definition window_paint_index w : PaintIndex :=
  let f := next_frame (win w) in
  mkPaintIndex (length (mouse_listeners f)) (length (input_handlers f)) (length (cursor_styles f))
    (length (accessed_element_states f)) (TabStops.paint_index (tab_stops f)).
(** A slice of a [Vec]. *)
Definition slice {X} (l : list X) (a b : nat) : outcome (list X) :=
  if decide (a ≤ b ∧ b ≤ length l) then Ok (take (b - a) (drop a l)) else Panic.
(** The slice, and the list with the slice taken out. *)
Definition take_slice {X} (l : list (option X)) (a b : nat) : outcome (list (option X) * list (option X)) :=
  s ← slice l a b; Ok (s, take a l ++ replicate (b - a) None ++ drop b l).

(** [reuse_prepaint] and [reuse_paint]. *)
Definition reuse_prepaint w (start finish : PrepaintStateIndex) : outcome World :=
  let old := rendered_frame (win w) in
  hs ← slice (hitboxes old) (hitboxes_index start) (hitboxes_index finish);
  acc ← slice (accessed_element_states old) (accessed_index start) (accessed_index finish);
  '(tree, source, reused) ← reuse_subtree (dispatch_tree (next_frame (win w)))
    (dispatch_tree_index start, dispatch_tree_index finish) (dispatch_tree old) (focused w);
  let f := next_frame (win w) in
  let f := mkFrame (if contains_focus reused then focused w else frame_focus f) (window_active f) (element_states f)
    (accessed_element_states f ++ acc) (mouse_listeners f) tree (hitboxes f ++ hs) (input_handlers f) (cursor_styles f)
    (tab_stops f) in
  Ok (put_next_frame (put_rendered_frame w (set_dispatch_tree old source)) f).
Definition reuse_paint w (start finish : PaintIndex) : outcome World :=
  let old := rendered_frame (win w) in
  styles ← slice (cursor_styles old) (cursor_styles_index start) (cursor_styles_index finish);
  '(handlers, old_handlers) ← take_slice (input_handlers old) (input_handlers_index start) (input_handlers_index finish);
  '(listeners, old_listeners) ← take_slice (mouse_listeners old) (mouse_listeners_index start) (mouse_listeners_index finish);
  acc ← slice (accessed_element_states old) (paint_accessed_index start) (paint_accessed_index finish);
  ops ← slice (TabStopMap.insertion_history (tab_stops old)) (tab_handle_index start) (tab_handle_index finish);
  let f := next_frame (win w) in
  tabs ← TabStops.replay (tab_stops f) ops;
  let f := mkFrame (frame_focus f) (window_active f) (element_states f) (accessed_element_states f ++ acc)
    (mouse_listeners f ++ listeners) (dispatch_tree f) (hitboxes f) (input_handlers f ++ handlers)
    (cursor_styles f ++ styles) tabs in
  Ok (put_next_frame (put_rendered_frame w (set_mouse_listeners (set_input_handlers old old_handlers) old_listeners)) f).
(** What [transact] undoes when its closure fails. *)
Definition rollback w (index : PrepaintStateIndex) : outcome World :=
  let f := next_frame (win w) in
  tree ← tree_truncate (dispatch_tree f) (dispatch_tree_index index);
  Ok (put_next_frame w (set_dispatch_tree
    (set_accessed_element_states (set_hitboxes f (take (hitboxes_index index) (hitboxes f)))
      (take (accessed_index index) (accessed_element_states f))) tree)).

(** ** What elements do *)

(** The calls of elements that build a frame. *)
Inductive FrameOp : Type :=
  | FInsertHitbox (hitbox_bounds_ mask : Bounds Qc) (behavior_ : HitboxBehavior)
  | FFocusHandle (id : FocusId)
  | FView (id : EntityId)
  | FPushNode
  | FPopNode
  | FActiveNode (id : DispatchNodeId)
  | FKeyContext (context : KeyContext.t)
  | FKeyListener (listener : L)
  | FModifiersListener (listener : L)
  | FActionListener (action_type : TypeId) (listener : L)
  | FMouseListener (listener : L)
  | FCursorStyle (style_ : CursorStyle) (hitbox : option HitboxId)
  | FInput (id : FocusId) (listener : L)
  | FTab (o : TabStopOperation)
  | FTakeState (key : nat)
  | FPutState (key : nat) (state : V)
  | FReusePrepaint (start finish : PrepaintStateIndex)
  | FReusePaint (start finish : PaintIndex)
  | FRollback (index : PrepaintStateIndex)
  | FCommand (c : Command).

Definition insert_hitbox w (b mask : Bounds Qc) (behavior_ : HitboxBehavior) : World * Hitbox :=
  let h := mkHitbox (next_hitbox_id (win w)) b mask behavior_ in
  let w := put_next_hitbox_id w (next_id (next_hitbox_id (win w))) in
  (with_next w (λ f, set_hitboxes f (hitboxes f ++ [h])), h).
Definition set_focus_handle w (id : FocusId) : outcome World :=
  let w := if decide (focused w = Some id) then with_next w (λ f, set_frame_focus f (Some id)) else w in
  tree ← set_focus_id (dispatch_tree (next_frame (win w))) id;
  Ok (with_next w (λ f, set_dispatch_tree f tree)).
(** A call of the dispatch tree. *)
Definition on_tree w (g : DispatchTree.t L → outcome (DispatchTree.t L)) : outcome World :=
  tree ← g (dispatch_tree (next_frame (win w))); Ok (with_next w (λ f, set_dispatch_tree f tree)).
(** [with_element_state] before and after its closure. *)
Definition take_state w (key : nat) : World * option V :=
  let w := with_next w (λ f, set_accessed_element_states f (accessed_element_states f ++ [key])) in
  let drop_key f := set_element_states f (delete key (element_states f)) in
  match element_states (next_frame (win w)) !! key with
  | Some state => (with_next w drop_key, Some state)
  | None =>
      match element_states (rendered_frame (win w)) !! key with
      | Some state => (put_rendered_frame w (drop_key (rendered_frame (win w))), Some state)
      | None => (w, None)
      end
  end.
Definition put_state w (key : nat) (state : V) : World :=
  with_next w (λ f, set_element_states f (<[key := state]> (element_states f))).
Definition set_cursor_style w (style_ : CursorStyle) (hitbox : option HitboxId) : World :=
  with_next w (λ f, set_cursor_styles f (cursor_styles f ++ [mkRequest hitbox style_])).
Definition on_mouse_event w (l : L) : World := with_next w (λ f, set_mouse_listeners f (mouse_listeners f ++ [Some l])).
Definition handle_input w (id : FocusId) (l : L) : World :=
  if decide (focused w = Some id) then with_next w (λ f, set_input_handlers f (input_handlers f ++ [Some l])) else w.

Definition frame_op w (o : FrameOp) : outcome World :=
  match o with
  | FInsertHitbox b mask k => _ ← assert_phase w Prepaint; Ok (insert_hitbox w b mask k).1
  | FFocusHandle id => _ ← assert_phase w Prepaint; set_focus_handle w id
  | FView id => _ ← assert_phase w Prepaint; on_tree w (λ t, set_view_id t id)
  | FPushNode => on_tree w (λ t, Ok (push_node t).1)
  | FPopNode => on_tree w pop_node
  | FActiveNode id => on_tree w (λ t, set_active_node t id)
  | FKeyContext c => _ ← assert_phase w Paint; on_tree w (λ t, set_key_context t c)
  | FKeyListener l => _ ← assert_phase w Paint; on_tree w (λ t, on_key_event t l)
  | FModifiersListener l => _ ← assert_phase w Paint; on_tree w (λ t, on_modifiers_changed t l)
  | FActionListener ty l => _ ← assert_phase w Paint; on_tree w (λ t, on_action t ty l)
  | FMouseListener l => _ ← assert_phase w Paint; Ok (on_mouse_event w l)
  | FCursorStyle s h => _ ← assert_phase w Paint; Ok (set_cursor_style w s h)
  | FInput id l => _ ← assert_phase w Paint; Ok (handle_input w id l)
  | FTab o => tabs ← replay_step (tab_stops (next_frame (win w))) o; Ok (with_next w (λ f, set_tab_stops f tabs))
  | FTakeState key => Ok (take_state w key).1
  | FPutState key v => Ok (put_state w key v)
  | FReusePrepaint start finish => reuse_prepaint w start finish
  | FReusePaint start finish => reuse_paint w start finish
  | FRollback index => _ ← assert_phase w Prepaint; rollback w index
  | FCommand c => run_command c w
  end.

(** ** Drawing *)

(** What the elements of the window call in the two phases. *)
Context (prepaint paint : World → list FrameOp).

Definition draw_roots w : outcome World :=
  let w := set_phase w Prepaint in
  w ← foldM frame_op w (prepaint w);
  let w := set_hit_test w (hit_test (next_frame (win w)) (mouse_position (pointer (win w)))) in
  let w := set_phase w Paint in
  foldM frame_op w (paint w).

(** The input handler that the platform has goes back to the last empty slot, or to the end. *)
Fixpoint fill_slot (l : list (option L)) (h : L) : option (list (option L)) :=
  match l with
  | [] => None
  | o :: l =>
      match fill_slot l h with
      | Some l => Some (o :: l)
      | None => match o with None => Some (Some h :: l) | Some _ => None end
      end
  end.
Definition restore_input_handler w : World :=
  match input_handler (win w) with
  | Some h =>
      let w := put_input_handler w None in
      let f := rendered_frame (win w) in
      put_rendered_frame w (set_input_handlers f (default (input_handlers f ++ [Some h]) (fill_slot (input_handlers f) h)))
  | None => w
  end.
(** The last handler is taken out of its slot. *)
Fixpoint take_last (l : list (option L)) : option (L * list (option L)) :=
  match l with
  | [] => None
  | o :: l =>
      match take_last l with
      | Some (h, l) => Some (h, o :: l)
      | None => match o with Some h => Some (h, None :: l) | None => None end
      end
  end.
Definition install_input_handler w : World :=
  match take_last (input_handlers (next_frame (win w))) with
  | Some (h, l) => put_input_handler (with_next w (λ f, set_input_handlers f l)) (Some h)
  | None => w
  end.

(** The part of [draw] that compares the focus of the two frames and calls the listeners; it gives the focus that
    later changes are compared with. *)
Definition notify_focus (previous current : list FocusId) (was_active is_active : bool) w
    : outcome (World * option FocusId) :=
  let focus_before := focused w in
  if decide (previous ≠ current ∨ was_active ≠ is_active) then
    '(w, focus_before) ←
      (if decide (previous ≠ [] ∧ current = [])
       then w ← notify_set FocusLostListeners OnFocusLost w; Ok (w, focused w)
       else Ok (w, focus_before));
    let event := mkFocusEvent (if was_active then previous else []) (if is_active then current else []) in
    w ← notify_set FocusListeners (OnFocus event) w;
    Ok (w, focus_before)
  else Ok (w, focus_before).

(** [Window::draw]. *)
Definition swap_frames w : World := put_next_frame (put_rendered_frame w (next_frame (win w))) (frame_clear (rendered_frame (win w))).
Definition draw w : outcome World :=
  let w := put_draw_state w (set_dirty (draw_state (win w)) false) in
  let w := restore_input_handler w in
  w ← draw_roots w;
  let w := with_next w (λ f, set_window_active f (active (win w))) in
  let w := install_input_handler w in
  let '(f, old) := frame_finish (next_frame (win w)) (rendered_frame (win w)) in
  let w := put_next_frame (put_rendered_frame w old) f in
  let w := set_phase w FocusPhase in
  previous ← frame_focus_path (rendered_frame (win w));
  let was_active := window_active (rendered_frame (win w)) in
  let w := swap_frames w in
  current ← frame_focus_path (rendered_frame (win w));
  let is_active := window_active (rendered_frame (win w)) in
  '(w, focus_before) ← notify_focus previous current was_active is_active w;
  let w := reset_cursor_style w in
  let w := set_refreshing w false in
  let w := set_phase w NotDrawing in
  Ok (if decide (focused w ≠ focus_before) then refresh w else w).
End window.
Arguments AnyDrag : clear implicits.
Arguments Frame : clear implicits.
Arguments Window : clear implicits.
Arguments App : clear implicits.
Arguments World : clear implicits.
Arguments Call : clear implicits.
Arguments Deferred : clear implicits.
Arguments LogEntry : clear implicits.
Arguments Command : clear implicits.
Arguments FrameOp : clear implicits.
