(* ===== verification/WindowInput.v ===== *)
(** How a window handles input, [crates/gpui/src/window.rs]: mouse events, keystrokes with pending input and replays, the
    dispatch of actions along the tree, and what waits for the end of an update. *)
From Stdlib Require Import NArith ZArith QArith Qcanon Ascii String.
From stdpp Require Import gmap.
From S2P Require Import Prelude Chars KeyContext Predicate Keystroke Binding Keymap DispatchTree TabStops Subscription Geometry Pixels Window.
Import DispatchTree.
Local Open Scope nat_scope.

(** What the platform of a window answers: whether it can drag things out, whether it starts such a drag, and whether
    code gives a payload for one. *)
Record Platform (L W : Type) : Type := mkPlatform {
  window_id : nat;
  viewport_size : Size Qc;
  can_start_external_drag : bool;
  start_external_drag : W → bool;
  gives_payload : L → W → bool;
}.
Arguments mkPlatform {L W}.
Arguments window_id {L W}.
Arguments viewport_size {L W}.
Arguments can_start_external_drag {L W}.
Arguments start_external_drag {L W}.
Arguments gives_payload {L W}.

Section input.
Context {L A V : Type} `{UserAction A} {os : Target}.
Implicit Types w : World L A V.
Context (behave : L → Call A → World L A V → list (Command L A) * bool) (prepaint paint : World L A V → list (FrameOp L A V)).
(** Whether an input handler accepts text. *)
Context (accepts_text_input : L → World L A V → bool) (platform : Platform L (World L A V)).

Definition propagate w : bool := propagate_event (app w).
Definition stop w : World L A V := put_propagate_event w false.
Definition resume w : World L A V := put_propagate_event w true.
Definition tree_of w : DispatchTree.t L := dispatch_tree (rendered_frame (win w)).

(** A loop over listeners that returns when one of them has stopped the propagation. *)
Fixpoint until_stopped {X} (run : X → World L A V → outcome (World L A V)) (l : list X) w : outcome (World L A V) :=
  match l with
  | [] => Ok w
  | x :: l => w ← run x w; if propagate w then until_stopped run l w else Ok w
  end.
(** The same over the nodes of a path and the listeners of each. *)
Fixpoint along {X} (listeners : DispatchNode.t L → list X) (run : X → World L A V → outcome (World L A V)) (path : list DispatchNodeId) w
    : outcome (World L A V) :=
  match path with
  | [] => Ok w
  | id :: path =>
      n ← node (tree_of w) id;
      w ← until_stopped run (listeners n) w;
      if propagate w then along listeners run path w else Ok w
  end.

(** ** Actions *)

(** The global listeners are taken out of the map while they run; the ones that were added meanwhile come after them. *)
Definition with_global_listeners (ty : TypeId) (run : list L → World L A V → outcome (World L A V)) w : outcome (World L A V) :=
  match global_action_listeners (app w) !! ty with
  | Some ls =>
      w ← run ls (put_global_action_listeners w (delete ty (global_action_listeners (app w))));
      let m := global_action_listeners (app w) in
      Ok (put_global_action_listeners w (<[ty := ls ++ default [] (m !! ty)]> m))
  | None => Ok w
  end.
Definition action_listeners_for (ty : TypeId) (n : DispatchNode.t L) : list L :=
  omap (λ l, if decide (l.1 = ty) then Some l.2 else None) (DispatchNode.action_listeners n).
(** Actions stop the propagation by default in the bubble phase. *)
Definition call_action (act : Action A) (phase : DispatchPhase) (l : L) w : outcome (World L A V) :=
  call behave (OnAction act phase) l (match phase with Capture => w | Bubble => stop w end).
Definition call_global_action (act : Action A) (phase : DispatchPhase) (stops : bool) (l : L) w : outcome (World L A V) :=
  call behave (OnGlobalAction act phase) l (if stops then stop w else w).

Definition dispatch_action_on_node_inner (node_id : DispatchNodeId) (act : Action A) w : outcome (World L A V) :=
  let ty := type_id act in
  path ← dispatch_path (tree_of w) node_id;
  w ← with_global_listeners ty (until_stopped (call_global_action act Capture false)) (resume w);
  if negb (propagate w) then Ok w
  else
    w ← along (action_listeners_for ty) (call_action act Capture) path w;
    if negb (propagate w) then Ok w
    else
      w ← along (action_listeners_for ty) (call_action act Bubble) (rev path) w;
      if negb (propagate w) then Ok w
      else with_global_listeners ty (λ ls, until_stopped (call_global_action act Bubble true) (rev ls)) w.
Definition dispatch_action_on_node (node_id : DispatchNodeId) (act : Action A) w : outcome (World L A V) :=
  w ← dispatch_action_on_node_inner node_id act w;
  Ok (if negb (propagate w) && bool_decide (cursor_hide_mode (app w) = OnTypingAndAction) && last_input_was_keyboard w
      then note w HidCursor else w).
(** [App::dispatch_global_action], without a window. *)
Definition dispatch_global_action (act : Action A) w : outcome (World L A V) :=
  w ← with_global_listeners (type_id act) (until_stopped (call_global_action act Capture false)) (resume w);
  if propagate w
  then with_global_listeners (type_id act) (λ ls, until_stopped (call_global_action act Bubble false) (rev ls)) w
  else Ok w.

(** ** Mouse events *)

Definition call_mouse (event : PlatformInput) (phase : DispatchPhase) (l : option L) w : outcome (World L A V) :=
  l ← unwrap l; call behave (OnMouse event phase) l w.
Definition is_mouse_up (event : PlatformInput) : bool := match event with MouseUp _ _ _ _ => true | _ => false end.
Definition is_mouse_move (event : PlatformInput) : bool := match event with MouseMove _ _ _ => true | _ => false end.
Definition put_listeners w (l : list (option L)) : World L A V :=
  put_rendered_frame w (set_mouse_listeners (rendered_frame (win w)) l).
Definition update_hit_test w : World L A V :=
  let t := hit_test (rendered_frame (win w)) (mouse_position (pointer (win w))) in
  if decide (t = mouse_hit_test (pointer (win w))) then w else reset_cursor_style (set_hit_test w t).
(** What a mouse event does to an active drag and to the capture of the pointer at its end. *)
Definition drag_follows (event : PlatformInput) w : World L A V :=
  match active_drag (app w) with
  | Some _ =>
      if is_mouse_move event then refresh w
      else if is_mouse_up event then refresh (put_active_drag w None) else w
  | None => w
  end.
Definition release_capture (event : PlatformInput) w : World L A V := if is_mouse_up event then set_captured w None else w.
Definition dispatch_mouse_event (event : PlatformInput) w : outcome (World L A V) :=
  let w := update_hit_test w in
  let listeners := mouse_listeners (rendered_frame (win w)) in
  w ← until_stopped (call_mouse event Capture) listeners (put_listeners w []);
  w ← (if propagate w then until_stopped (call_mouse event Bubble) (rev listeners) w else Ok w);
  Ok (release_capture event (drag_follows event (put_listeners w listeners))).

(** ** Key events *)

Definition contexts_at w (id : DispatchNodeId) : outcome (list KeyContext.t) :=
  path ← dispatch_path (tree_of w) id; contexts_of (tree_of w) path.
Definition window_context_stack w : outcome (list KeyContext.t) :=
  id ← focus_node_id_in_rendered_frame w (focused w); contexts_at w id.

Definition dispatch_keystroke_observers (event : PlatformInput) (act : option (Action A)) (contexts : list KeyContext.t) w
    : outcome (World L A V) :=
  match event with
  | KeyDown e => notify_set behave KeystrokeObservers (OnKeystroke (keystroke e) act contexts) w
  | _ => Ok w
  end.
Definition dispatch_keystroke_interceptors (event : PlatformInput) (contexts : list KeyContext.t) w : outcome (World L A V) :=
  match event with
  | KeyDown e => notify_set behave Interceptors (OnKeystroke (keystroke e) None contexts) w
  | _ => Ok w
  end.
Definition dispatch_key_down_up_event (event : PlatformInput) (path : list DispatchNodeId) w : outcome (World L A V) :=
  w ← along DispatchNode.key_listeners (call behave (OnKey event Capture)) path w;
  if propagate w then along DispatchNode.key_listeners (call behave (OnKey event Bubble)) (rev path) w else Ok w.
Definition dispatch_modifiers_changed_event (event : PlatformInput) (path : list DispatchNodeId) w : outcome (World L A V) :=
  match event with
  | ModifiersChanged _ _ => along DispatchNode.modifiers_changed_listeners (call behave (OnModifiers event)) (rev path) w
  | _ => Ok w
  end.
Definition finish_dispatch_key_event (event : PlatformInput) (path : list DispatchNodeId) (contexts : list KeyContext.t) w
    : outcome (World L A V) :=
  w ← dispatch_key_down_up_event event path w;
  if negb (propagate w) then Ok w
  else
    w ← dispatch_modifiers_changed_event event path w;
    if negb (propagate w) then Ok w else dispatch_keystroke_observers event None contexts w.

(** [input_handler.dispatch_input], with the handler taken from the platform and put back. *)
Definition input_text (text : list char) w : outcome (World L A V * bool) :=
  match input_handler (win w) with
  | Some h =>
      w ← call behave (OnText text) h (put_input_handler w None);
      Ok (put_input_handler w (Some h), true)
  | None => Ok (w, false)
  end.
Definition accepts_text w : bool := match input_handler (win w) with Some h => accepts_text_input h w | None => false end.

(** The bindings of a keystroke in turn, until the action of one is handled; which one. *)
Fixpoint try_bindings (node_id : DispatchNodeId) (bindings : list (KeyBinding A)) w : outcome (World L A V * option (Action A)) :=
  match bindings with
  | [] => Ok (w, None)
  | b :: bindings =>
      w ← dispatch_action_on_node node_id (action b) w;
      if propagate w then try_bindings node_id bindings w else Ok (w, Some (action b))
  end.

(** [replay_pending_input]. *)
Definition replay_one (node_id : DispatchNodeId) (path : list DispatchNodeId) w (r : Replay A) : outcome (World L A V) :=
  let event := KeyDown (mkKeyDown (replay_keystroke r) false true) in
  '(w, handled) ← try_bindings node_id (replay_bindings r) (resume w);
  match handled with
  | Some act => dispatch_keystroke_observers event (Some act) [] w
  | None =>
      w ← dispatch_key_down_up_event event path w;
      if negb (propagate w) then Ok w
      else match Keystroke.key_char (replay_keystroke r) with
           | Some input => '(w, _) ← input_text input w; Ok w
           | None => Ok w
           end
  end.
Definition replay_pending_input (replays : list (Replay A)) w : outcome (World L A V) :=
  node_id ← focus_node_id_in_rendered_frame w (focused w);
  path ← dispatch_path (tree_of w) node_id;
  foldM (replay_one node_id path) w replays.

(** A modifier that is pressed and released alone is a keystroke. *)
Definition modifier_key (m : Modifiers.t) : option (list char) :=
  if Modifiers.shift m then Some (str "shift")
  else if Modifiers.control m then Some (str "control")
  else if Modifiers.alt m then Some (str "alt")
  else if Modifiers.platform m then Some (str "platform")
  else if Modifiers.function m then Some (str "function")
  else None.
Definition modifier_keystroke (s : ModifierState) (new : Modifiers.t) : option Keystroke.t :=
  if bool_decide (Modifiers.number_of_modifiers new = 0) && bool_decide (Modifiers.number_of_modifiers (held s) = 1)
       && negb (saw_other_input s)
  then (λ k, Keystroke.mk Modifiers.none k None) <$> modifier_key (held s) else None.
Definition modifiers_changed (s : ModifierState) (new : Modifiers.t) : ModifierState :=
  mkModifierState new
    (if bool_decide (Modifiers.number_of_modifiers (held s) = 0) && bool_decide (Modifiers.number_of_modifiers new = 1)
     then false
     else if bool_decide (1 < Modifiers.number_of_modifiers new) then true else saw_other_input s).
Definition put_pending_modifier w (s : ModifierState) : World L A V := put_keys w (mkKeys (pending_of w) s).
Definition read_keystroke (event : PlatformInput) w : World L A V * option Keystroke.t :=
  let s := pending_modifier (keys (win w)) in
  match event with
  | ModifiersChanged m _ => (put_pending_modifier w (modifiers_changed s m), modifier_keystroke s m)
  | KeyDown e =>
      let w := put_pending_modifier w (mkModifierState (held s) true) in
      (if bool_decide (Keystroke.key_char (keystroke e) ≠ None) && bool_decide (cursor_hide_mode (app w) ≠ Never)
       then note w HidCursor else w, Some (keystroke e))
  | _ => (w, None)
  end.

(** [PendingInput::default], with a generation of its own. *)
Definition fresh_generation w : World L A V * nat := (put_generations w (generations (app w) + 1), generations (app w)).
Definition pending_default w : World L A V * PendingInput :=
  let '(w, g) := fresh_generation w in (w, mkPending [] None false false g).
(** The input that is pending is taken; it counts only if the focus has not moved since. *)
Definition take_pending w : World L A V * PendingInput :=
  let '(w, p) := match pending_of w with Some p => (put_pending w None, p) | None => pending_default w end in
  if decide (pending_focus p ≠ None ∧ pending_focus p ≠ focused w) then pending_default w else (w, p).
(** The timer of a generation of its own. *)
Definition start_timer w : World L A V * nat :=
  let '(w, g) := fresh_generation w in (put_timers w (timers (app w) ++ [g]), g).
Definition types_text (event : PlatformInput) : bool :=
  match event with KeyDown e => bool_decide (Keystroke.key_char (keystroke e) ≠ None) | _ => false end.
(** The keystrokes may be the start of a longer sequence: they are kept, with a timeout if they mean something by
    themselves. *)
Definition hold_input (event : PlatformInput) (result : DispatchResult A) (p : PendingInput) w : outcome (World L A V) :=
  let needs := needs_timeout p || (pending_has_binding result || (types_text event && accepts_text w)) in
  let '(w, g) := if needs then start_timer w else (w, generation p) in
  let w := put_pending w (Some (mkPending (pending result) (focused w) needs needs g)) in
  w ← pending_input_changed behave w;
  Ok (stop w).
Definition prefers_text (event : PlatformInput) : bool :=
  match event with KeyDown e => prefer_character_input e | _ => false end.
Definition dispatch_matches (event : PlatformInput) (node_id : DispatchNodeId) (path : list DispatchNodeId)
    (result : DispatchResult A) w : outcome (World L A V) :=
  '(w, handled) ← (if prefers_text event && accepts_text w then Ok (w, None)
                    else try_bindings node_id (dispatch_bindings result) w);
  w ← match handled with
      | Some act => dispatch_keystroke_observers event (Some act) (result_context_stack result) w
      | None => finish_dispatch_key_event event path (result_context_stack result) w
      end;
  pending_input_changed behave w.

(** [dispatch_key_event], from the keystroke on. *)
Definition dispatch_typed (event : PlatformInput) (typed : Keystroke.t) (node_id : DispatchNodeId) (path : list DispatchNodeId) w
    : outcome (World L A V) :=
  contexts ← window_context_stack w;
  w ← dispatch_keystroke_interceptors event contexts (resume w);
  if negb (propagate w) then contexts ← window_context_stack w; finish_dispatch_key_event event path contexts w
  else
    let '(w, p) := take_pending w in
    result ← dispatch_key (length (pending_keystrokes p) + 1) (tree_of w) (keymap (app w)) (pending_keystrokes p) typed path;
    w ← match to_replay result with
        | [] => Ok w
        | replays => w ← replay_pending_input replays w; Ok (resume w)
        end;
    match pending result with
    | [] => dispatch_matches event node_id path result w
    | _ => hold_input event result p w
    end.
Definition dispatch_key_event (event : PlatformInput) w : outcome (World L A V) :=
  w ← (if dirty (draw_state (win w)) then draw behave prepaint paint w else Ok w);
  node_id ← focus_node_id_in_rendered_frame w (focused w);
  path ← dispatch_path (tree_of w) node_id;
  let '(w, typed) := read_keystroke event w in
  match typed with
  | None => contexts ← window_context_stack w; finish_dispatch_key_event event path contexts w
  | Some typed => dispatch_typed event typed node_id path w
  end.

(** The timer of the generation [g] has run for a second. *)
Definition fire_timer (g : nat) w : outcome (World L A V) :=
  if removed (win w) then Ok w
  else match pending_of w with
       | Some p =>
           if decide (generation p = g) then
             let w := put_pending w None in
             if decide (pending_focus p = focused w) then
               node_id ← focus_node_id_in_rendered_frame w (focused w);
               path ← dispatch_path (tree_of w) node_id;
               replays ← flush_dispatch (length (pending_keystrokes p)) (tree_of w) (keymap (app w)) (pending_keystrokes p) path;
               w ← pending_input_changed behave w;
               replay_pending_input replays w
             else Ok w
           else Ok w
       | None => Ok w
       end.

(** [active_pending_input], [has_pending_keystrokes] and [pending_input_keystrokes]. *)
Definition active_pending_input w : option PendingInput :=
  match pending_of w with Some p => if decide (pending_focus p = focused w) then Some p else None | None => None end.
Definition has_pending_keystrokes w : bool := bool_decide (active_pending_input w ≠ None).
Definition pending_input_keystrokes w : option (list Keystroke.t) := pending_keystrokes <$> active_pending_input w.

(** ** Events *)

Definition set_modality w (m : InputModality) : World L A V :=
  let p := pointer (win w) in
  put_pointer w (mkPointer (mouse_position p) (mouse_hit_test p) (captured_hitbox p) (modifiers p) (capslock p) m).
Definition set_pointer w (position : Point Qc) (m : Modifiers.t) : World L A V :=
  let p := pointer (win w) in
  put_pointer w (mkPointer position (mouse_hit_test p) (captured_hitbox p) m (capslock p) (last_input_modality p)).
Definition set_position w (position : Point Qc) : World L A V := set_pointer w position (modifiers (pointer (win w))).
Definition set_modifiers w (m : Modifiers.t) (caps : bool) : World L A V :=
  let p := pointer (win w) in
  put_pointer w (mkPointer (mouse_position p) (mouse_hit_test p) (captured_hitbox p) m caps (last_input_modality p)).
Definition modality (event : PlatformInput) (old : InputModality) : InputModality :=
  match event with
  | KeyDown _ => Keyboard
  | MouseMove _ _ _ | MouseDown _ _ _ _ => Mouse
  | Touch _ => TouchScreen
  | _ => old
  end.

(** The part of [dispatch_event] that tracks the pointer and translates the dragging of files. *)
Definition file_move (position : Point Qc) : PlatformInput := MouseMove position (Some LeftButton) Modifiers.none.
Definition translate_drop (event : FileDropEvent) w : World L A V * PlatformInput :=
  match event with
  | Entered position paths =>
      let '(w, restored) := restore_platform_drag (set_position w position) (window_id platform) in
      (if negb restored && bool_decide (active_drag (app w) = None)
       then put_active_drag w (Some (mkDrag paths None None)) else w, file_move position)
  | DropPending position => (set_position w position, file_move position)
  | Submit position => (set_position w position, MouseUp LeftButton position Modifiers.none 1)
  | Exited =>
      let '(w, handed) := hand_restored_drag_to_platform w (window_id platform) in
      (refresh (if handed then w else put_active_drag w None), FileDrop Exited)
  | DropEnded => (refresh (end_platform_drag w (window_id platform)).1, FileDrop DropEnded)
  end.
Definition track (event : PlatformInput) w : World L A V * PlatformInput :=
  match event with
  | MouseMove position _ m | MouseDown _ position m _ | MouseUp _ position m _ | ScrollWheel position _ m | Pinch position m =>
      (set_pointer w position m, event)
  | MouseExited _ _ m => (set_modifiers w m (capslock (pointer (win w))), event)
  | ModifiersChanged m caps => (set_modifiers w m caps, event)
  | FileDrop e => translate_drop e w
  | MousePressure _ _ | Touch _ | KeyDown _ | KeyUp _ => (w, event)
  end.

(** [promote_external_drag_to_platform]. *)
Definition promote_external_drag_to_platform (event : PlatformInput) w : outcome (World L A V) :=
  match event with
  | MouseMove position (Some LeftButton) _ =>
      if contains (bounds (point 0%Qc 0%Qc) (viewport_size platform)) position then Ok w
      else if negb (can_start_external_drag platform) then Ok w
      else match active_drag (app w) with
           | Some (mkDrag v style (Some source)) =>
               w ← call behave OnPayload source (put_active_drag w (Some (mkDrag v style None)));
               if gives_payload platform source w && start_external_drag platform w then
                 let '(w, handed) := hand_active_drag_to_platform w (window_id platform) in
                 Ok (if handed then refresh w else w)
               else Ok w
           | _ => Ok w
           end
  | _ => Ok w
  end.

(** [dispatch_event]; its result is the two flags of the state. *)
Definition dispatch_event (event : PlatformInput) w : outcome (World L A V) :=
  let old := last_input_modality (pointer (win w)) in
  let w := set_modality w (modality event old) in
  let w := if decide (last_input_modality (pointer (win w)) ≠ old) then refresh w else w in
  let w := put_default_prevented (resume w) false in
  let '(w, event) := track event w in
  w ← (if mouse_event event then dispatch_mouse_event event w
       else if keyboard_event event then dispatch_key_event event w else Ok w);
  promote_external_drag_to_platform event w.

(** [dispatch_keystroke]: whether the keystroke was handled. *)
Definition dispatch_keystroke `{CaseTable} (k : Keystroke.t) w : outcome (World L A V * bool) :=
  let k := with_simulated_ime k in
  w ← dispatch_event (KeyDown (mkKeyDown k false false)) w;
  if negb (propagate w) then Ok (w, true)
  else match Keystroke.key_char k with
       | Some input => input_text input w
       | None => Ok (w, false)
       end.

(** ** The end of an update *)

(** The first thing that waits; a window that was closed is left alone. *)
Definition run_deferred w : outcome (World L A V) :=
  match deferred (app w) with
  | [] => Ok w
  | d :: rest =>
      let w := put_deferred w rest in
      if removed (win w) then Ok w
      else match d with
           | NotifyPendingInput => pending_input_changed behave w
           | DispatchAction focus_id act =>
               node_id ← focus_node_id_in_rendered_frame w focus_id;
               dispatch_action_on_node node_id act w
           | RefreshWindow => Ok (put_draw_state (set_refreshing w true) (set_dirty (draw_state (win (set_refreshing w true))) true))
           end
  end.

(** What happens to a window from outside. *)
Inductive WindowEvent : Type :=
  | Input (event : PlatformInput)
  | TimerFired (generation : nat)
  | DeferredRuns
  | Drawn
  | Updated (commands : list (Command L A)).
Definition window_step w (e : WindowEvent) : outcome (World L A V) :=
  match e with
  | Input event => dispatch_event event w
  | TimerFired g => fire_timer g w
  | DeferredRuns => run_deferred w
  | Drawn => draw behave prepaint paint w
  | Updated cmds => run_commands cmds w
  end.
End input.
