(* ===== verification/Interactivity.v ===== *)
(** The interactivity of elements, [Interactivity] of [crates/gpui/src/elements/div.rs]: the listeners that an element
    gives to its window, which turn mouse and key events into clicks, drags, drops, hovers and tooltips. *)
From Stdlib Require Import ZArith QArith Qcanon String.
From stdpp Require Import gmap.
From S2P Require Import Prelude Chars KeyContext Predicate Keystroke Binding Keymap DispatchTree TabStops Subscription Geometry Pixels Window.
Local Open Scope nat_scope.

(** ** Events *)

(** [MouseDownEvent] and [MouseUpEvent]. *)
Record MouseDownEvent : Type := mkDown {
  down_button : MouseButton; down_position : Point Qc; down_modifiers : Modifiers.t; down_count : nat }.
Record MouseUpEvent : Type := mkUp {
  up_button : MouseButton; up_position : Point Qc; up_modifiers : Modifiers.t; up_count : nat }.
Inductive KeyboardButton := Enter | Space.
(** [ClickEvent], with the fields of its three kinds. *)
Inductive ClickEvent :=
  | MouseClick (down : MouseDownEvent) (up : MouseUpEvent)
  | KeyboardClick (button : KeyboardButton) (bounds : Bounds Qc)
  | TouchClick (position : Point Qc) (tap_count : nat) (long_press : bool).
Module Click.
Implicit Types self : ClickEvent.
Definition modifiers self : Modifiers.t :=
  match self with MouseClick _ up => up_modifiers up | KeyboardClick _ _ | TouchClick _ _ _ => Modifiers.none end.
Definition position self : Point Qc :=
  match self with
  | KeyboardClick _ b => bottom_left b
  | MouseClick _ up => up_position up
  | TouchClick p _ _ => p
  end.
Definition mouse_position self : option (Point Qc) :=
  match self with MouseClick _ up => Some (up_position up) | KeyboardClick _ _ | TouchClick _ _ _ => None end.
Definition with_button self (b : MouseButton) : bool :=
  match self with
  | MouseClick down up => bool_decide (down_button down = b) && bool_decide (up_button up = b)
  | KeyboardClick _ _ | TouchClick _ _ _ => false
  end.
Definition is_right_click self : bool := with_button self RightButton.
Definition is_middle_click self : bool := with_button self MiddleButton.
Definition is_secondary self : bool :=
  match self with TouchClick _ _ long_press => long_press | _ => with_button self RightButton end.
Definition standard_click self : bool :=
  match self with
  | KeyboardClick _ _ => true
  | MouseClick _ _ => with_button self LeftButton
  | TouchClick _ _ long_press => negb long_press
  end.
Definition click_count self : nat :=
  match self with KeyboardClick _ _ => 1 | MouseClick _ up => up_count up | TouchClick _ n _ => n end.
Definition is_keyboard self : bool := match self with KeyboardClick _ _ => true | _ => false end.
End Click.

(** [GroupHitboxes]: the hitboxes of the groups that are being painted, the innermost last. *)
Module GroupHitboxes.
Definition t : Type := gmap (list char) (list HitboxId).
Implicit Types self : t.
Definition get self (name : list char) : option HitboxId := (self !! name) ≫= last.
Definition push self (name : list char) (id : HitboxId) : t := <[name := default [] (self !! name) ++ [id]]> self.
Definition pop self (name : list char) : outcome t :=
  ids ← unwrap (self !! name); Ok (<[name := take (length ids - 1) ids]> self).
End GroupHitboxes.

(** ** State *)

(** [DRAG_THRESHOLD]. *)
Definition DRAG_THRESHOLD : Qc := Q2Qc (2 # 1).
(** [magnitude() > DRAG_THRESHOLD], by the squares. *)
Definition beyond_threshold (a b : Point Qc) : bool :=
  clt (DRAG_THRESHOLD * DRAG_THRESHOLD)%Qc ((x a - x b) * (x a - x b) + (y a - y b) * (y a - y b))%Qc.

Record ElementClickedState : Type := mkClicked { clicked_group : bool; clicked_element : bool }.
Definition not_clicked : ElementClickedState := mkClicked false false.
Definition is_clicked (self : ElementClickedState) : bool := clicked_group self || clicked_element self.
Record ElementHoverState : Type := mkHover { hover_group : bool; hover_element : bool }.
Definition not_hovered : ElementHoverState := mkHover false false.
(** [TooltipBuilder] and [AnyTooltip], whose view is named by the code that builds it. *)
Record TooltipBuilder (L : Type) : Type := mkBuilder { build : L; hoverable : bool }.
Arguments mkBuilder {L}. Arguments build {L}. Arguments hoverable {L}.
Record Tooltip (L : Type) : Type := mkTooltip { tooltip_view : L; tooltip_position : Point Qc }.
Arguments mkTooltip {L}. Arguments tooltip_view {L}. Arguments tooltip_position {L}.
(** [ActiveTooltip]; a task is known by a number, and dropping it cancels it. *)
Inductive ActiveTooltip (L : Type) :=
  | WaitingForShow (task : nat)
  | Visible (tooltip : Tooltip L) (is_hoverable : bool)
  | WaitingForHide (tooltip : Tooltip L) (task : nat).
Arguments WaitingForShow {L}. Arguments Visible {L}. Arguments WaitingForHide {L}.
(** [InteractiveElementState]: cells that the closures of a frame share with the state of the element; a cell that has
    not been made holds its default, except for the one of hovers, which is looked for. *)
Record Cells (L : Type) : Type := mkCells {
  clicked_state : ElementClickedState;
  hover_state : option ElementHoverState;
  hover_listener_state : bool;
  pending_mouse_down : option MouseDownEvent;
  pending_keyboard_down : option Z;
  active_tooltip : option (ActiveTooltip L);
}.
Arguments mkCells {L}. Arguments clicked_state {L}. Arguments hover_state {L}. Arguments hover_listener_state {L}.
Arguments pending_mouse_down {L}. Arguments pending_keyboard_down {L}. Arguments active_tooltip {L}.
Definition cells_default {L} : Cells L := mkCells not_clicked None false None None None.
(** [DragListener]: the value, the code that renders it and the one that gives its payload. *)
Record DragListener (L : Type) : Type := mkDragListener { drag_value : nat; render : L; external_payload : option L }.
Arguments mkDragListener {L}. Arguments drag_value {L}. Arguments render {L}. Arguments external_payload {L}.
(** The closures that wrap the listeners of the application for one kind of mouse event. *)
Inductive MouseListener (L : Type) :=
  | OnMouseDown (button : MouseButton) (listener : L)
  | CaptureAnyMouseDown (listener : L)
  | OnAnyMouseDown (listener : L)
  | OnMouseDownOut (listener : L)
  | OnMouseUp (button : MouseButton) (listener : L)
  | CaptureAnyMouseUp (listener : L)
  | OnAnyMouseUp (listener : L)
  | OnMouseUpOut (button : MouseButton) (listener : L)
  | OnMousePressure (listener : L)
  | CaptureMousePressure (listener : L)
  | OnMouseMove (listener : L)
  | OnDragMove (type : TypeId) (listener : L)
  | OnMouseExit (listener : L)
  | OnScrollWheel (listener : L)
  | OnPinch (listener : L)
  | CapturePinch (listener : L).
Arguments OnMouseDown {L}. Arguments CaptureAnyMouseDown {L}. Arguments OnAnyMouseDown {L}. Arguments OnMouseDownOut {L}.
Arguments OnMouseUp {L}. Arguments CaptureAnyMouseUp {L}. Arguments OnAnyMouseUp {L}. Arguments OnMouseUpOut {L}.
Arguments OnMousePressure {L}. Arguments CaptureMousePressure {L}. Arguments OnMouseMove {L}. Arguments OnDragMove {L}.
Arguments OnMouseExit {L}. Arguments OnScrollWheel {L}. Arguments OnPinch {L}. Arguments CapturePinch {L}.

(** [Interactivity], the part that decides which listeners there are; [user_listeners] are the seven lists in the order in
    which they are painted; groups are known by their names. *)
Record Interactivity (L : Type) : Type := mkInteractivity {
  stateful : bool;
  tracked_focus_handle : option FocusId;
  user_listeners : list (MouseListener L);
  hover_style : bool;
  mouse_cursor : option CursorStyle;
  drag_over_styles : bool;
  group : option (list char);
  group_hover_style : option (list char);
  group_active_style : option (list char);
  drop_listeners : list (TypeId * L);
  can_drop_predicate : option L;
  click_listeners : list L;
  aux_click_listeners : list L;
  on_drag : option (DragListener L);
  hover_listener : option L;
  tooltip_builder : option (TooltipBuilder L);
}.
Arguments mkInteractivity {L}. Arguments stateful {L}. Arguments tracked_focus_handle {L}. Arguments user_listeners {L}.
Arguments hover_style {L}. Arguments mouse_cursor {L}. Arguments drag_over_styles {L}. Arguments group {L}.
Arguments group_hover_style {L}. Arguments group_active_style {L}. Arguments drop_listeners {L}.
Arguments can_drop_predicate {L}. Arguments click_listeners {L}. Arguments aux_click_listeners {L}. Arguments on_drag {L}.
Arguments hover_listener {L}. Arguments tooltip_builder {L}.
Definition no_interactivity {L} : Interactivity L :=
  mkInteractivity false None [] false None false None None None [] None [] [] None None None.

(** The listeners that an element registers with its window, for mouse events, and for key events if it is focused when it
    is painted. *)
Inductive ElementListener (L : Type) :=
  | NotifyGroupHover (group : HitboxId) (was_hovered : bool)
  | FocusOnDown (id : FocusId)
  | UserMouse (m : MouseListener L)
  | TrackHover (has_cell : bool)
  | TrackGroupHover (group : HitboxId) (has_cell : bool)
  | Drop
  | PressDown
  | StartDrag
  | Release
  | HoverMove (l : L)
  | HoverExit (l : L)
  | TooltipMove
  | TooltipDown
  | TooltipWheel
  | ReleaseActive
  | PressActive (group : option HitboxId).
Arguments NotifyGroupHover {L}. Arguments FocusOnDown {L}. Arguments UserMouse {L}. Arguments TrackHover {L}.
Arguments TrackGroupHover {L}. Arguments Drop {L}. Arguments PressDown {L}. Arguments StartDrag {L}. Arguments Release {L}.
Arguments HoverMove {L}. Arguments HoverExit {L}. Arguments TooltipMove {L}. Arguments TooltipDown {L}.
Arguments TooltipWheel {L}. Arguments ReleaseActive {L}. Arguments PressActive {L}.
Inductive ElementKeyListener := ActivateDown | ActivateUp.

(** What the closures of one frame own: clones of the element's listeners and of its hitbox, and two variables. *)
Record Closures (L : Type) : Type := mkClosures {
  config : Interactivity L;
  painted_hitbox : Hitbox;
  registered : list (ElementListener L);
  registered_keys : list ElementKeyListener;
  drag_listener : option (DragListener L);
  captured_mouse_down : option MouseDownEvent;
}.
Arguments mkClosures {L}. Arguments config {L}. Arguments painted_hitbox {L}. Arguments registered {L}.
Arguments registered_keys {L}. Arguments drag_listener {L}. Arguments captured_mouse_down {L}.

(** The arguments of a call of the application's code. *)
Inductive ElementCall :=
  | OnEvent (event : PlatformInput)
  | OnDragMoved (event : PlatformInput) (bounds : Bounds Qc) (value : nat)
  | OnClick (event : ClickEvent)
  | OnHover (hovered : bool)
  | OnDrop (value : nat)
  | CanDrop (value : nat)
  | OnDragStart (value : nat) (offset : Point Qc)
  | BuildTooltip.
(** What happened to an element, in order: presses that it took, clicks and drags that came of them, calls of the
    application's code, and tooltips that were scheduled and shown, with the moves of the mouse off the element. *)
Inductive Entry (L : Type) :=
  | Pressed (down : MouseDownEvent)
  | Clicked (down : MouseDownEvent) (up : MouseUpEvent)
  | Dragged (down : MouseDownEvent)
  | UserCall (listener : L) (call : ElementCall)
  | TooltipScheduled (task : nat)
  | TooltipShown (task : nat)
  | MovedOff.
Arguments Pressed {L}. Arguments Clicked {L}. Arguments Dragged {L}. Arguments UserCall {L}. Arguments TooltipScheduled {L}.
Arguments TooltipShown {L}. Arguments MovedOff {L}.

Section interactivity.
Context {L A V : Type} `{UserAction A} {os : Target}.

(** The world around an element, its cells and the closures of the frame on screen; [notified] counts the notifications of
    the view, [tasks] the tasks that were spawned. *)
Record State : Type := mkState {
  world : World L A V;
  cells : Cells L;
  closures : Closures L;
  notified : nat;
  tasks : nat;
  trace : list (Entry L);
}.
Implicit Types s : State.
Implicit Types c : Cells L.

(** Assignments to one field. *)
Definition put_world s v : State := mkState v (cells s) (closures s) (notified s) (tasks s) (trace s).
Definition put_cells s v : State := mkState (world s) v (closures s) (notified s) (tasks s) (trace s).
Definition put_closures s v : State := mkState (world s) (cells s) v (notified s) (tasks s) (trace s).
Definition notify_view s : State := mkState (world s) (cells s) (closures s) (notified s + 1) (tasks s) (trace s).
Definition put_tasks s v : State := mkState (world s) (cells s) (closures s) (notified s) v (trace s).
Definition add_entry s (e : Entry L) : State := mkState (world s) (cells s) (closures s) (notified s) (tasks s) (trace s ++ [e]).
Definition put_clicked s (v : ElementClickedState) : State := let c := cells s in
  put_cells s (mkCells v (hover_state c) (hover_listener_state c) (pending_mouse_down c) (pending_keyboard_down c) (active_tooltip c)).
Definition put_hover_state s v : State := let c := cells s in
  put_cells s (mkCells (clicked_state c) v (hover_listener_state c) (pending_mouse_down c) (pending_keyboard_down c) (active_tooltip c)).
Definition put_hover_listener_state s (v : bool) : State := let c := cells s in
  put_cells s (mkCells (clicked_state c) (hover_state c) v (pending_mouse_down c) (pending_keyboard_down c) (active_tooltip c)).
Definition put_pending_mouse s v : State := let c := cells s in
  put_cells s (mkCells (clicked_state c) (hover_state c) (hover_listener_state c) v (pending_keyboard_down c) (active_tooltip c)).
Definition put_pending_keyboard s v : State := let c := cells s in
  put_cells s (mkCells (clicked_state c) (hover_state c) (hover_listener_state c) (pending_mouse_down c) v (active_tooltip c)).
Definition put_tooltip s v : State := let c := cells s in
  put_cells s (mkCells (clicked_state c) (hover_state c) (hover_listener_state c) (pending_mouse_down c) (pending_keyboard_down c) v).
Definition put_captured_down s v : State := let c := closures s in
  put_closures s (mkClosures (config c) (painted_hitbox c) (registered c) (registered_keys c) (drag_listener c) v).
Definition put_drag_listener s v : State := let c := closures s in
  put_closures s (mkClosures (config c) (painted_hitbox c) (registered c) (registered_keys c) v (captured_mouse_down c)).
Definition refresh_window s : State := put_world s (refresh (world s)).
Definition stop_event s : State := put_world s (put_propagate_event (world s) false).

(** What the application's code does when an element calls it, what a predicate for drops answers, the type of a dragged
    value; whether a prompt is open and whether the tooltip of the element is under the mouse. *)
Context (react : L → ElementCall → World L A V → list (Command L A)) (accepts_drop : L → nat → World L A V → bool)
  (type_of_value : nat → TypeId) (has_active_prompt tooltip_is_hovered : World L A V → bool).

Definition user (call : ElementCall) s (l : L) : outcome State :=
  w ← run_commands (react l call (world s)) (world s); Ok (put_world (add_entry s (UserCall l call)) w).
Definition users (call : ElementCall) (ls : list L) s : outcome State := foldM (user call) s ls.

Definition self s : Interactivity L := config (closures s).
Definition hitbox s : Hitbox := painted_hitbox (closures s).
Definition hovers s : bool := is_hovered (world s) (hitbox_id (hitbox s)).
Definition dragging s : option (AnyDrag L) := active_drag (app (world s)).
Definition is_bubble (phase : DispatchPhase) : bool := match phase with Bubble => true | Capture => false end.
Definition is_capture (phase : DispatchPhase) : bool := negb (is_bubble phase).
Definition prevented s : bool := default_prevented (win (world s)).

(** ** The listeners of the application *)

(** When the closure of a mouse listener calls the application's code. *)
Definition listens (m : MouseListener L) (event : PlatformInput) (phase : DispatchPhase) s : option L :=
  let when (b : bool) (l : L) := if b then Some l else None in
  match m, event with
  | OnMouseDown b l, MouseDown b' _ _ _ => when (is_bubble phase && bool_decide (b' = b) && hovers s) l
  | CaptureAnyMouseDown l, MouseDown _ _ _ _ => when (is_capture phase && hovers s) l
  | OnAnyMouseDown l, MouseDown _ _ _ _ => when (is_bubble phase && hovers s) l
  | OnMouseDownOut l, MouseDown _ _ _ _ =>
      when (is_capture phase && negb (has_active_prompt (world s))
            && negb (contains (hitbox_bounds (hitbox s)) (Window.mouse_position (pointer (win (world s)))))) l
  | OnMouseUp b l, MouseUp b' _ _ _ => when (is_bubble phase && bool_decide (b' = b) && hovers s) l
  | CaptureAnyMouseUp l, MouseUp _ _ _ _ => when (is_capture phase && hovers s) l
  | OnAnyMouseUp l, MouseUp _ _ _ _ => when (is_bubble phase && hovers s) l
  | OnMouseUpOut b l, MouseUp b' _ _ _ => when (is_capture phase && bool_decide (b' = b) && negb (hovers s)) l
  | OnMousePressure l, MousePressure _ _ => when (is_bubble phase && hovers s) l
  | CaptureMousePressure l, MousePressure _ _ => when (is_capture phase && hovers s) l
  | OnMouseMove l, MouseMove _ _ _ => when (is_bubble phase && hovers s) l
  | OnMouseExit l, MouseExited _ _ _ => when (is_bubble phase && hovers s) l
  | OnScrollWheel l, ScrollWheel _ _ _ => when (is_bubble phase && should_handle_scroll (world s) (hitbox_id (hitbox s))) l
  | OnPinch l, Pinch _ _ => when (is_bubble phase && hovers s) l
  | CapturePinch l, Pinch _ _ => when (is_capture phase) l
  | _, _ => None
  end.
Definition user_mouse (m : MouseListener L) (event : PlatformInput) (phase : DispatchPhase) s : outcome State :=
  match m, event with
  | OnDragMove ty l, MouseMove _ _ _ =>
      match dragging s with
      | Some drag =>
          if is_capture phase && bool_decide (type_of_value (value drag) = ty)
          then user (OnDragMoved event (hitbox_bounds (hitbox s)) (value drag)) s l else Ok s
      | None => Ok s
      end
  | CapturePinch l, Pinch _ _ =>
      if is_capture phase then user (OnEvent event) s l else Ok (put_world s (put_propagate_event (world s) true))
  | _, _ => match listens m event phase s with Some l => user (OnEvent event) s l | None => Ok s end
  end.

(** ** The listeners of the element itself *)

(** A press moves the focus to the element, unless an element inside did that already. *)
Definition focus_on_down (id : FocusId) (phase : DispatchPhase) s : State :=
  if is_bubble phase && hovers s && negb (prevented s)
  then put_world s (put_default_prevented (focus_handle_ (world s) id) true) else s.
(** The styles of the element, or of its group, for when it is hovered. *)
Definition track_hover (has_cell : bool) (phase : DispatchPhase) s : State :=
  let hovered_ := hovers s in
  match hover_state (cells s) with
  | Some h =>
      if has_cell && is_capture phase && negb (Bool.eqb hovered_ (hover_element h))
      then notify_view (put_hover_state s (Some (mkHover (hover_group h) hovered_))) else s
  | None => s
  end.
Definition track_group_hover (group : HitboxId) (has_cell : bool) (phase : DispatchPhase) s : State :=
  let hovered_ := is_hovered (world s) group in
  match hover_state (cells s) with
  | Some h =>
      if has_cell && is_capture phase && negb (Bool.eqb hovered_ (hover_group h))
      then notify_view (put_hover_state s (Some (mkHover hovered_ (hover_element h)))) else s
  | None => s
  end.
(** [paint_hover_group_handler]: whether the group was hovered is read when the element is painted. *)
Definition notify_group_hover (group : HitboxId) (was_hovered : bool) (phase : DispatchPhase) s : State :=
  if is_capture phase && negb (Bool.eqb (is_hovered (world s) group) was_hovered) then notify_view s else s.

(** The value that is dragged is taken by the first listener for its type, whether it accepts the drop or not. *)
Fixpoint drop_on (type : TypeId) (ls : list (TypeId * L)) s : outcome State :=
  match ls with
  | [] => Ok s
  | (ty, l) :: ls =>
      if decide (ty = type) then
        drag ← unwrap (dragging s);
        let s := put_world s (put_active_drag (world s) None) in
        '(s, can_drop) ← match can_drop_predicate (self s) with
                         | Some p => let b := accepts_drop p (value drag) (world s) in s ← user (CanDrop (value drag)) s p; Ok (s, b)
                         | None => Ok (s, true)
                         end;
        s ← (if can_drop : bool then s ← user (OnDrop (value drag)) s l; Ok (stop_event (refresh_window s)) else Ok s);
        drop_on type ls s
      else drop_on type ls s
  end.
Definition drop (phase : DispatchPhase) s : outcome State :=
  match dragging s with
  | Some drag =>
      if is_bubble phase && hovers s then drop_on (type_of_value (value drag)) (drop_listeners (self s)) s else Ok s
  | None => Ok s
  end.

(** *** Clicks and drags *)

Definition press_down (down : MouseDownEvent) (phase : DispatchPhase) s : State :=
  if is_bubble phase && (bool_decide (down_button down = LeftButton) || bool_decide (aux_click_listeners (self s) ≠ [])) && hovers s
  then refresh_window (add_entry (put_pending_mouse s (Some down)) (Pressed down)) else s.
Definition start_drag (position : Point Qc) (phase : DispatchPhase) s : outcome State :=
  match phase, pending_mouse_down (cells s), drag_listener (closures s) with
  | Bubble, Some down, Some l =>
      if bool_decide (dragging s = None) && beyond_threshold position (down_position down) then
        let s := put_drag_listener s None in
        if decide (down_button down = LeftButton) then
          let s := put_clicked s not_clicked in
          let offset := point (x position - x (origin (hitbox_bounds (hitbox s))))%Qc (y position - y (origin (hitbox_bounds (hitbox s))))%Qc in
          s ← user (OnDragStart (drag_value l) offset) s (render l);
          let s := put_world s (put_active_drag (world s) (Some (mkDrag (drag_value l) (mouse_cursor (self s)) (external_payload l)))) in
          Ok (stop_event (refresh_window (add_entry (put_pending_mouse s None) (Dragged down))))
        else Ok s
      else Ok s
  | _, _, _ => Ok s
  end.
Definition release (up : MouseUpEvent) (phase : DispatchPhase) s : outcome State :=
  match phase with
  | Capture =>
      match pending_mouse_down (cells s) with
      | Some down =>
          let s := if hovers s then put_captured_down s (Some down) else s in
          Ok (refresh_window (put_pending_mouse s None))
      | None => Ok s
      end
  | Bubble =>
      match captured_mouse_down (closures s) with
      | Some down =>
          let s := add_entry (put_captured_down s None) (Clicked down up) in
          users (OnClick (MouseClick down up))
            (match down_button down with LeftButton => click_listeners (self s) | _ => aux_click_listeners (self s) end) s
      | None => Ok s
      end
  end.
(** The key listeners: an activation key that is pressed is kept with the generation of the focus. *)
Definition activation_key (k : Keystroke.t) : option KeyboardButton :=
  if decide (Keystroke.key k = str "enter") then Some Enter
  else if decide (Keystroke.key k = str "space") then Some Space else None.
Definition plain (k : Keystroke.t) : bool := negb (Modifiers.modified (Keystroke.modifiers k)).
Definition generation_of s : Z := focus_generation (focus_state (win (world s))).
Definition activate_down (k : Keystroke.t) (phase : DispatchPhase) s : State :=
  if is_bubble phase && negb (prevented s)
  then put_pending_keyboard s (if bool_decide (activation_key k ≠ None) && plain k then Some (generation_of s) else None)
  else s.
Definition activate_up (k : Keystroke.t) (phase : DispatchPhase) s : outcome State :=
  if is_bubble phase && negb (prevented s) then
    match activation_key k with
    | Some button =>
        if plain k then
          let pending := pending_keyboard_down (cells s) in
          let s := put_pending_keyboard s None in
          if decide (pending = Some (generation_of s))
          then users (OnClick (KeyboardClick button (hitbox_bounds (hitbox s)))) (click_listeners (self s)) s
          else Ok s
        else Ok (put_pending_keyboard s None)
    | None => Ok (put_pending_keyboard s None)
    end
  else Ok s.

(** *** Hovers *)

Definition update_hover (l : L) (b : bool) s : outcome State :=
  if Bool.eqb b (hover_listener_state (cells s)) then Ok s else user (OnHover b) (put_hover_listener_state s b) l.
Definition hover_move (l : L) (phase : DispatchPhase) s : outcome State :=
  if is_bubble phase
  then update_hover l (bool_decide (pending_mouse_down (cells s) = None) && bool_decide (dragging s = None) && hovers s) s
  else Ok s.
Definition hover_exit (l : L) (phase : DispatchPhase) s : outcome State :=
  if is_bubble phase then update_hover l false s else Ok s.

(** *** Tooltips *)

Definition check_is_hovered s : bool := bool_decide (pending_mouse_down (cells s) = None) && hovers s.
Definition check_is_hovered_during_prepaint s : bool :=
  negb (last_input_was_keyboard (world s)) && bool_decide (pending_mouse_down (cells s) = None)
    && contains (hitbox_bounds (hitbox s)) (Window.mouse_position (pointer (win (world s)))).
Definition clear_active_tooltip s : State :=
  let s' := put_tooltip s None in
  match active_tooltip (cells s) with
  | None | Some (WaitingForShow _) => s'
  | Some (Visible _ _) | Some (WaitingForHide _ _) => refresh_window s'
  end.
Definition clear_active_tooltip_if_not_hoverable s : State :=
  match active_tooltip (cells s) with
  | Some (Visible _ false) => refresh_window (put_tooltip s None)
  | _ => s
  end.
(** [set_tooltip_on_window]: the tooltip that is drawn. *)
Definition tooltip_on_window s : option (Tooltip L) :=
  match active_tooltip (cells s) with
  | Some (Visible t _) | Some (WaitingForHide t _) => Some t
  | None | Some (WaitingForShow _) => None
  end.
Definition handle_tooltip_mouse_move (phase : DispatchPhase) s : State :=
  let s := if check_is_hovered s then s else add_entry s MovedOff in
  match active_tooltip (cells s) with
  | None =>
      if check_is_hovered s && is_bubble phase
      then put_tooltip (add_entry (put_tasks s (tasks s + 1)) (TooltipScheduled (tasks s))) (Some (WaitingForShow (tasks s)))
      else s
  | Some (WaitingForShow _) => if check_is_hovered s then s else put_tooltip s None
  | Some (Visible _ is_hoverable) =>
      if is_capture phase && negb (check_is_hovered s) && (negb is_hoverable || negb (tooltip_is_hovered (world s)))
      then notify_view s else s
  | Some (WaitingForHide _ _) =>
      if is_capture phase && (check_is_hovered s || tooltip_is_hovered (world s)) then notify_view s else s
  end.
Definition tooltip_pressed s : State := if tooltip_is_hovered (world s) then s else clear_active_tooltip_if_not_hoverable s.
(** The tasks, when their time has run out; a task that was dropped does not run. *)
Definition show_tooltip (b : TooltipBuilder L) (task : nat) s : outcome State :=
  match active_tooltip (cells s) with
  | Some (WaitingForShow task') =>
      if decide (task' = task) then
        s ← user BuildTooltip s (build b);
        Ok (refresh_window (add_entry (put_tooltip s (Some (Visible
          (mkTooltip (build b) (Window.mouse_position (pointer (win (world s))))) (hoverable b)))) (TooltipShown task)))
      else Ok s
  | _ => Ok s
  end.
Definition hide_tooltip (task : nat) s : State :=
  match active_tooltip (cells s) with
  | Some (WaitingForHide _ task') => if decide (task' = task) then refresh_window (put_tooltip s None) else s
  | _ => s
  end.
(** [handle_tooltip_check_visible_and_update], which the prepaint of the window calls with the bounds of the tooltip. *)
Definition check_visible_and_update (tooltip_is_hoverable : bool) (tooltip_bounds : Bounds Qc) s : State * bool :=
  let hovered_ := check_is_hovered_during_prepaint s
    || (tooltip_is_hoverable && contains tooltip_bounds (Window.mouse_position (pointer (win (world s))))) in
  let s :=
    match active_tooltip (cells s) with
    | Some (Visible t _) =>
        if hovered_ then s
        else if tooltip_is_hoverable
        then put_tooltip (put_tasks s (tasks s + 1)) (Some (WaitingForHide t (tasks s)))
        else clear_active_tooltip s
    | Some (WaitingForHide t _) => if hovered_ then put_tooltip s (Some (Visible t true)) else s
    | None | Some (WaitingForShow _) => s
    end in
  (s, bool_decide (active_tooltip (cells s) ≠ None)).

(** *** The active state *)

Definition release_active (phase : DispatchPhase) s : State :=
  if is_capture phase && is_clicked (clicked_state (cells s)) then refresh_window (put_clicked s not_clicked) else s.
Definition press_active (group : option HitboxId) (phase : DispatchPhase) s : State :=
  if is_bubble phase && negb (prevented s) then
    let group_hovered := match group with Some g => is_hovered (world s) g | None => false end in
    if group_hovered || hovers s then refresh_window (put_clicked s (mkClicked group_hovered (hovers s))) else s
  else s.

(** ** What an element registers *)

Definition has_clicks (i : Interactivity L) : bool :=
  bool_decide (click_listeners i ≠ []) || bool_decide (aux_click_listeners i ≠ []) || bool_decide (on_drag i ≠ None).
(** [paint_hover_group_handler] and [paint_mouse_listeners], in the order of registration. *)
Definition paint_hover_group_handler (i : Interactivity L) (groups : GroupHitboxes.t) s : list (ElementListener L) :=
  match group_hover_style i ≫= GroupHitboxes.get groups with
  | Some g => [NotifyGroupHover g (is_hovered (world s) g)]
  | None => []
  end.
Definition paint_mouse_listeners (i : Interactivity L) (groups : GroupHitboxes.t) s : list (ElementListener L) :=
  let has_cell := stateful i && bool_decide (hover_state (cells s) ≠ None) in
  match tracked_focus_handle i with Some id => [FocusOnDown id] | None => [] end
  ++ (UserMouse <$> user_listeners i)
  ++ (if hover_style i || bool_decide (mouse_cursor i ≠ None) || (bool_decide (dragging s ≠ None) && drag_over_styles i)
      then [TrackHover (has_cell && hover_style i)] else [])
  ++ match group_hover_style i ≫= GroupHitboxes.get groups with Some g => [TrackGroupHover g has_cell] | None => [] end
  ++ (if bool_decide (drop_listeners i ≠ []) then [Drop] else [])
  ++ (if stateful i then
        (if has_clicks i then [PressDown; StartDrag; Release] else [])
        ++ match hover_listener i with Some l => [HoverMove l; HoverExit l] | None => [] end
        ++ (if bool_decide (tooltip_builder i ≠ None) then [TooltipMove; TooltipDown; TooltipWheel] else [])
        ++ [ReleaseActive; PressActive (group_active_style i ≫= GroupHitboxes.get groups)]
      else []).
Definition paint_key_listeners (i : Interactivity L) s : list ElementKeyListener :=
  if stateful i && has_clicks i && bool_decide (tracked_focus_handle i ≠ None)
       && bool_decide (focused (world s) = tracked_focus_handle i)
  then [ActivateDown; ActivateUp] else [].

(** A listener is called with the events of its kind. *)
Definition deliver (x : ElementListener L) (event : PlatformInput) (phase : DispatchPhase) s : outcome State :=
  match x, event with
  | NotifyGroupHover g was, MouseMove _ _ _ => Ok (notify_group_hover g was phase s)
  | FocusOnDown id, MouseDown _ _ _ _ => Ok (focus_on_down id phase s)
  | UserMouse m, _ => user_mouse m event phase s
  | TrackHover cell, MouseMove _ _ _ => Ok (track_hover cell phase s)
  | TrackGroupHover g cell, MouseMove _ _ _ => Ok (track_group_hover g cell phase s)
  | Drop, MouseUp _ _ _ _ => drop phase s
  | PressDown, MouseDown b p m n => Ok (press_down (mkDown b p m n) phase s)
  | StartDrag, MouseMove p _ _ => start_drag p phase s
  | Release, MouseUp b p m n => release (mkUp b p m n) phase s
  | HoverMove l, MouseMove _ _ _ => hover_move l phase s
  | HoverExit l, MouseExited _ _ _ => hover_exit l phase s
  | TooltipMove, MouseMove _ _ _ => Ok (handle_tooltip_mouse_move phase s)
  | TooltipDown, MouseDown _ _ _ _ | TooltipWheel, ScrollWheel _ _ _ => Ok (tooltip_pressed s)
  | ReleaseActive, MouseUp _ _ _ _ => Ok (release_active phase s)
  | PressActive g, MouseDown _ _ _ _ => Ok (press_active g phase s)
  | _, _ => Ok s
  end.
Definition deliver_key (x : ElementKeyListener) (event : PlatformInput) (phase : DispatchPhase) s : outcome State :=
  match x, event with
  | ActivateDown, KeyDown e => Ok (activate_down (keystroke e) phase s)
  | ActivateUp, KeyUp k => activate_up k phase s
  | _, _ => Ok s
  end.

(** ** Frames *)

(** [request_layout], [prepaint] and [paint], as far as they change the state of the element: a drag that is active ends
    presses, and the closures are made anew; an element that is hidden only watches its group. *)
Definition request_layout (i : Interactivity L) s : State :=
  if stateful i && bool_decide (dragging s ≠ None) then put_clicked (put_pending_mouse s None) not_clicked else s.
Definition prepaint (i : Interactivity L) s : State :=
  if stateful i then
    let s := if hover_style i || bool_decide (group_hover_style i ≠ None)
             then put_hover_state s (Some (default not_hovered (hover_state (cells s)))) else s in
    if bool_decide (tooltip_builder i = None) then put_tooltip s None else s
  else s.
Definition paint (i : Interactivity L) (h : Hitbox) (groups : GroupHitboxes.t) (visible : bool) s : State :=
  let watch := paint_hover_group_handler i groups s in
  let inside := match group i with Some g => GroupHitboxes.push groups g (hitbox_id h) | None => groups end in
  put_closures s (if visible
    then mkClosures i h (watch ++ paint_mouse_listeners i inside s) (paint_key_listeners i s) (on_drag i) None
    else mkClosures i h watch [] None None).

(** ** What happens to an element *)

(** An element in its window: its listeners are called, other code changes the world around it, frames draw it anew or
    leave it out, and its tasks run. *)
Inductive step s : State → Prop :=
  | step_mouse x event phase s' : x ∈ registered (closures s) → deliver x event phase s = Ok s' → step s s'
  | step_key x event phase s' : x ∈ registered_keys (closures s) → deliver_key x event phase s = Ok s' → step s s'
  | step_other w : step s (put_world s w)
  | step_frame i h groups visible w1 w2 :
      step s (paint i h groups visible (put_world (prepaint i (put_world (request_layout i s) w1)) w2))
  | step_show b task s' : tooltip_builder (self s) = Some b → show_tooltip b task s = Ok s' → step s s'
  | step_hide task : step s (hide_tooltip task s)
  | step_check b bounds : step s (check_visible_and_update b bounds s).1.
(** A frame without the element drops its state and its closures. *)
Definition left_out (h : Hitbox) s : State :=
  put_closures (put_cells s cells_default) (mkClosures no_interactivity h [] [] None None).
(** Any number of steps, with frames that may leave the element out. *)
Definition run : State → State → Prop := rtc (λ s s', step s s' ∨ ∃ h, s' = left_out h s).
End interactivity.
Arguments State : clear implicits.
