(* ===== verification/WindowFacts.v ===== *)
(** Lemmas on windows: relations of states that every call of application code respects, and what hit tests and the loops
    over listeners do. *)
From Stdlib Require Import NArith ZArith QArith Qcanon.
From stdpp Require Import gmap.
From S2P Require Import Prelude Chars KeyContext Predicate Keystroke Binding Keymap DispatchTree DispatchTreeFacts DispatchTheorems TabStops TabStopsTheorems Subscription Geometry Pixels Window WindowInput.
Import DispatchTree.
Local Open Scope nat_scope.

(** [retain] and a relation of what its closure captures. *)
Lemma retain_rel {K Cb W} `{Countable K} (R : W → W → Prop) `{!PreOrder R}
    (f : W → SubscriberSet K Cb → Cb → W * list (op K Cb) * Cb * bool) :
  (∀ w st cb, R w (f w st cb).1.1.1) → ∀ k w st, R w (retain f k w st).1.
Proof.
  intros Hf k w st. unfold retain. destruct (subscribers st !! k) as [[m|]|]; [|done..].
  assert (Hl : ∀ m w st, R w (retain_loop f w st m).1.1).
  { clear -Hf PreOrder0. induction m as [|[id cb] m IH]; intros w st; simpl; [done|].
    case_decide; [pose proof (IH w st); by destruct (retain_loop f w st m) as [[??]?]|].
    case_decide; [apply IH|]. pose proof (Hf w st cb) as R1. destruct (f w st cb) as [[[w1 ops] cb1] keep].
    pose proof (IH w1 (foldl run_op st ops)) as R2. destruct (retain_loop f w1 _ m) as [[??]?]. simpl in *. by etrans. }
  specialize (Hl m w (mkSet (<[k := None]> (subscribers st)) (next_subscriber_id st) (Subscription.active st) (dropped st))).
  by destruct (retain_loop f w _ m) as [[??]?].
Qed.

Section facts.
Context {L A V : Type} `{UserAction A} {os : Target}.
Implicit Types w : World L A V.
Context (behave : L → Call A → World L A V → list (Command L A) * bool).

(** ** Relations that calls respect *)

(** A relation of states that contains the single steps of calls of application code, and their compositions. *)
Record closed (R : World L A V → World L A V → Prop) : Prop := {
  closed_trans w1 w2 w3 : R w1 w2 → R w2 w3 → R w1 w3;
  closed_command c w w' : run_command c w = Ok w' → R w w';
  closed_log w l : R w (put_log w l);
  closed_set w s st : R w (put_set w s st);
  closed_propagate w b : R w (put_propagate_event w b);
  closed_globals w m : R w (put_global_action_listeners w m);
  closed_handler w h : R w (put_input_handler w h);
}.

Section closed.
Context (R : World L A V → World L A V → Prop) (HR : closed R).

Lemma closed_stays w : R w w.
Proof. destruct w as [wi [p k g ad po ch ss d gn ti lg]]; apply (closed_propagate R HR (mkWorld wi (mkApp p k g ad po ch ss d gn ti lg)) p). Qed.

Ltac via w1 := apply (closed_trans R HR) with w1; [|].

Lemma run_commands_rel cs w w' : run_commands cs w = Ok w' → R w w'.
Proof.
  unfold run_commands. revert w. induction cs as [|c cs IH]; intros w; simpl; [intros [= <-]; apply closed_stays|].
  intros (w1 & H1 & H2)%outcome_bind_ok. via w1; [by apply (closed_command R HR c)|by apply IH].
Qed.

Lemma call_rel c l w w' : call behave c l w = Ok w' → R w w'.
Proof. unfold call. intros ?%run_commands_rel. via (note w (Called l c)); [apply (closed_log R HR)|done]. Qed.

Lemma notify_set_rel s c w w' : notify_set behave s c w = Ok w' → R w w'.
Proof.
  unfold notify_set. intros Hw.
  assert (Hr : ∀ w1, (retain (handler behave s c) () (Ok w) (sets (app w) s)).1 = Ok w1 → R w w1).
  { pose (Q := λ r r' : outcome (World L A V), ∀ w1, r' = Ok w1 → ∃ w0, r = Ok w0 ∧ R w0 w1).
    assert (HQ : PreOrder Q).
    { split; [intros r w1 ->; eauto using closed_stays|].
      intros r1 r2 r3 H1 H2 w3 (w2 & (w1 & -> & ?)%H1 & ?)%H2. exists w1. split; [done|]. by via w2. }
    intros w1 Hw1. destruct (retain_rel Q (handler behave s c)) with (k:=()) (w:=Ok w) (st:=sets (app w) s) (w1:=w1) as (w0 & [= <-] & ?); [|done..].
    clear -HR. intros r st l w1. unfold handler. destruct r as [w| |]; [|done..].
    destruct (behave l c (put_set w s st)) as [cmds keep]. simpl. intros Hc%run_commands_rel.
    exists w. split; [done|]. via (put_set w s st); [apply (closed_set R HR)|].
    via (note (put_set w s st) (Called l c)); [apply (closed_log R HR)|done]. }
  destruct (retain _ _ _ _) as [r st]. apply outcome_bind_ok in Hw as (w1 & -> & [= <-]).
  via w1; [by apply Hr|apply (closed_set R HR)].
Qed.

Lemma until_stopped_rel {X} (run : X → World L A V → outcome (World L A V)) (l : list X) w w' :
  (∀ x w w', run x w = Ok w' → R w w') → until_stopped run l w = Ok w' → R w w'.
Proof.
  intros Hrun. revert w. induction l as [|x l IH]; intros w; simpl; [intros [= <-]; apply closed_stays|].
  intros (w1 & ?%Hrun & H2)%outcome_bind_ok. via w1; [done|].
  destruct (propagate w1); [by apply IH|simplify_eq; apply closed_stays].
Qed.

Lemma along_rel {X} (ls : DispatchNode.t L → list X) (run : X → World L A V → outcome (World L A V)) path w w' :
  (∀ x w w', run x w = Ok w' → R w w') → along ls run path w = Ok w' → R w w'.
Proof.
  intros Hrun. revert w. induction path as [|id path IH]; intros w; simpl; [intros [= <-]; apply closed_stays|].
  intros (n & _ & (w1 & ?%(until_stopped_rel _ _ _ _ Hrun) & H2)%outcome_bind_ok)%outcome_bind_ok. via w1; [done|].
  destruct (propagate w1); [by apply IH|simplify_eq; apply closed_stays].
Qed.

Lemma with_global_rel ty (run : list L → World L A V → outcome (World L A V)) w w' :
  (∀ ls w w', run ls w = Ok w' → R w w') → with_global_listeners ty run w = Ok w' → R w w'.
Proof.
  intros Hrun. unfold with_global_listeners. destruct (_ !! ty) as [ls|]; [|intros [= <-]; apply closed_stays].
  intros (w1 & ?%Hrun & [= <-])%outcome_bind_ok. eapply (closed_trans R HR); [|apply (closed_globals R HR)].
  eapply (closed_trans R HR); [apply (closed_globals R HR)|done].
Qed.

Lemma call_action_rel act phase l w w' : call_action behave act phase l w = Ok w' → R w w'.
Proof.
  unfold call_action. intros ?%call_rel. destruct phase; [|done].
  eapply (closed_trans R HR); [|done]. apply (closed_propagate R HR).
Qed.
Lemma call_global_rel act phase b l w w' : call_global_action behave act phase b l w = Ok w' → R w w'.
Proof.
  unfold call_global_action. intros ?%call_rel. destruct b; [|done].
  eapply (closed_trans R HR); [|done]. apply (closed_propagate R HR).
Qed.
Lemma global_phase_rel act phase b ls w w' :
  until_stopped (call_global_action behave act phase b) ls w = Ok w' → R w w'.
Proof. apply until_stopped_rel. intros. by eapply call_global_rel. Qed.

Lemma dispatch_action_inner_rel id act w w' : dispatch_action_on_node_inner behave id act w = Ok w' → R w w'.
Proof.
  unfold dispatch_action_on_node_inner. intros (path & _ & (w1 & H1 & H2)%outcome_bind_ok)%outcome_bind_ok.
  via w1.
  { via (resume w); [apply (closed_propagate R HR)|]. eapply with_global_rel, H1. intros. by eapply global_phase_rel. }
  destruct (propagate w1); simpl in H2; [|simplify_eq; apply closed_stays].
  apply outcome_bind_ok in H2 as (w2 & H2 & H3). via w2; [eapply along_rel, H2; intros; by eapply call_action_rel|].
  destruct (propagate w2); simpl in H3; [|simplify_eq; apply closed_stays].
  apply outcome_bind_ok in H3 as (w3 & H3 & H4). via w3; [eapply along_rel, H3; intros; by eapply call_action_rel|].
  destruct (propagate w3); simpl in H4; [|simplify_eq; apply closed_stays].
  eapply with_global_rel, H4. intros ls' v v' Hv. exact (global_phase_rel _ _ _ _ _ _ Hv).
Qed.
Lemma dispatch_action_rel id act w w' : dispatch_action_on_node behave id act w = Ok w' → R w w'.
Proof.
  unfold dispatch_action_on_node. intros (w1 & ?%dispatch_action_inner_rel & [= <-])%outcome_bind_ok.
  via w1; [done|]. destruct (_ && _ && _); [apply (closed_log R HR)|apply closed_stays].
Qed.

Lemma observers_rel e act cs w w' : dispatch_keystroke_observers behave e act cs w = Ok w' → R w w'.
Proof. destruct e; simpl; try (intros [= <-]; apply closed_stays). apply notify_set_rel. Qed.
Lemma interceptors_rel e cs w w' : dispatch_keystroke_interceptors behave e cs w = Ok w' → R w w'.
Proof. destruct e; simpl; try (intros [= <-]; apply closed_stays). apply notify_set_rel. Qed.
Lemma key_listeners_rel e path w w' : dispatch_key_down_up_event behave e path w = Ok w' → R w w'.
Proof.
  unfold dispatch_key_down_up_event. intros (w1 & H1 & H2)%outcome_bind_ok.
  via w1; [eapply along_rel, H1; intros; by eapply call_rel|].
  destruct (propagate w1); [eapply along_rel, H2; intros; by eapply call_rel|simplify_eq; apply closed_stays].
Qed.
Lemma modifiers_rel e path w w' : dispatch_modifiers_changed_event behave e path w = Ok w' → R w w'.
Proof.
  destruct e; simpl; try (intros [= <-]; apply closed_stays). intros H2. eapply along_rel, H2. intros. by eapply call_rel.
Qed.
Lemma finish_key_rel e path cs w w' : finish_dispatch_key_event behave e path cs w = Ok w' → R w w'.
Proof.
  unfold finish_dispatch_key_event. intros (w1 & ?%key_listeners_rel & H2)%outcome_bind_ok. via w1; [done|].
  destruct (propagate w1); simpl in H2; [|simplify_eq; apply closed_stays].
  apply outcome_bind_ok in H2 as (w2 & ?%modifiers_rel & H3). via w2; [done|].
  destruct (propagate w2); simpl in H3; [by eapply observers_rel|simplify_eq; apply closed_stays].
Qed.
Lemma input_text_rel text w w' b : input_text behave text w = Ok (w', b) → R w w'.
Proof.
  unfold input_text. destruct (input_handler _) as [h|]; [|intros [= <- _]; apply closed_stays].
  intros (w1 & ?%call_rel & [= <- _])%outcome_bind_ok. eapply (closed_trans R HR); [|apply (closed_handler R HR)].
  eapply (closed_trans R HR); [apply (closed_handler R HR)|done].
Qed.
Lemma try_bindings_rel id bs w w' o : try_bindings behave id bs w = Ok (w', o) → R w w'.
Proof.
  revert w. induction bs as [|b bs IH]; intros w; simpl; [intros [= <- _]; apply closed_stays|].
  intros (w1 & ?%dispatch_action_rel & H2)%outcome_bind_ok. via w1; [done|].
  destruct (propagate w1); [by apply IH|simplify_eq; apply closed_stays].
Qed.
Lemma replay_one_rel id path w r w' : replay_one behave id path w r = Ok w' → R w w'.
Proof.
  unfold replay_one. intros ([w1 o] & H1%try_bindings_rel & H2)%outcome_bind_ok.
  via (resume w); [apply (closed_propagate R HR)|]. via w1; [done|].
  destruct o; [by eapply observers_rel|]. apply outcome_bind_ok in H2 as (w2 & ?%key_listeners_rel & H3).
  via w2; [done|]. destruct (propagate w2); simpl in H3; [|simplify_eq; apply closed_stays].
  destruct (Keystroke.key_char _); [|simplify_eq; apply closed_stays].
  apply outcome_bind_ok in H3 as ([w3 b] & ?%input_text_rel & [= <-]). done.
Qed.
Lemma replay_rel rs w w' : replay_pending_input behave rs w = Ok w' → R w w'.
Proof.
  unfold replay_pending_input. intros (id & _ & (path & _ & Hf)%outcome_bind_ok)%outcome_bind_ok.
  revert w Hf. induction rs as [|r rs IH]; intros w; simpl; [intros [= <-]; apply closed_stays|].
  intros (w1 & ?%replay_one_rel & H2)%outcome_bind_ok. via w1; [done|by apply IH].
Qed.
End closed.
End facts.

(** ** Focus and pending input as an abstract machine *)

(** The focus, the input that is pending, the next generation and the timers that were started. *)
Record View : Type := mkView { v_focus : FocusState; v_pending : option PendingInput; v_next : nat; v_timers : list nat }.
Definition next_u64 (n : Z) : Z := ((n + 1) mod 2 ^ 64)%Z.
(** What can happen to them: the focus moves, which drops the input; it goes away; it is disabled; the input is dropped; a
    generation is made; keystrokes are held for the current focus, with a timer of their own generation or without one. *)
Inductive move : View → View → Prop :=
  | move_focus_to id s p n ts : focus_enabled s = true → focus s ≠ Some id →
      move (mkView s p n ts) (mkView (mkFocus (Some id) (focus_enabled s) (next_u64 (focus_generation s))) None n ts)
  | move_blur s p n ts : focus_enabled s = true →
      move (mkView s p n ts) (mkView (mkFocus None (focus_enabled s)
        (if bool_decide (focus s ≠ None) then next_u64 (focus_generation s) else focus_generation s)) p n ts)
  | move_disable s p n ts : (focus_enabled s = true → focus s = None) →
      move (mkView s p n ts) (mkView (mkFocus (focus s) false (focus_generation s)) p n ts)
  | move_drop s p n ts : move (mkView s p n ts) (mkView s None n ts)
  | move_generation s p n ts : move (mkView s p n ts) (mkView s p (n + 1) ts)
  | move_hold s p n ts ks : ks ≠ [] →
      move (mkView s p n ts) (mkView s (Some (mkPending ks (focus s) true true n)) (n + 1) (ts ++ [n]))
  | move_hold_quiet s p n ts ks g : ks ≠ [] → g < n → g ∉ ts →
      move (mkView s p n ts) (mkView s (Some (mkPending ks (focus s) false false g)) n ts).

(** What holds of them: the timers were started for generations that were made, and the input has one exactly if it needs
    it; its keystrokes are not none, and if they were typed without a focus there is none. *)
Record view_ok (v : View) : Prop := {
  timers_made g : g ∈ v_timers v → g < v_next v;
  held_generation p : v_pending v = Some p → generation p < v_next v;
  held_timer p : v_pending v = Some p → timer p = needs_timeout p ∧ (timer p = true ↔ generation p ∈ v_timers v);
  held_focus p : v_pending v = Some p → pending_focus p = None → focus (v_focus v) = None;
  held_keys p : v_pending v = Some p → pending_keystrokes p ≠ [];
}.
Lemma move_ok v v' : move v v' → view_ok v → view_ok v'.
Proof.
  intros Hm [H1 H2 H3 H4 H5].
  destruct Hm; simpl in *; split; simpl; first [assumption | discriminate | done | idtac].
  - intros g Hg. apply H1 in Hg. lia.
  - intros q Hq. apply H2 in Hq. lia.
  - intros g [Hg| ->%list_elem_of_singleton]%elem_of_app; [apply H1 in Hg|]; lia.
  - intros q [= <-]. simpl. lia.
  - intros q [= <-]. simpl. split; [done|]. split; [|done]. intros _. apply elem_of_app. right. by apply list_elem_of_singleton.
  - by intros q [= <-].
  - by intros q [= <-].
  - by intros q [= <-].
  - intros q [= <-]. simpl. done.
  - by intros q [= <-].
  - by intros q [= <-].
Qed.
Lemma moves_ok v v' : rtc move v v' → view_ok v → view_ok v'.
Proof. induction 1; eauto using move_ok. Qed.
Lemma moves_next v v' : rtc move v v' → v_next v ≤ v_next v'.
Proof. induction 1 as [|v1 v2 v3 Hm _ IH]; [done|]. destruct Hm; simpl in *; lia. Qed.
(** No timer is started for a generation that was made before. *)
Lemma moves_timers v v' g : rtc move v v' → g < v_next v → g ∈ v_timers v' → g ∈ v_timers v.
Proof.
  induction 1 as [|v1 v2 v3 Hm Hms IH]; [done|]. intros Hg Hin.
  assert (g < v_next v2) as Hg2 by (destruct Hm; simpl in *; lia). specialize (IH Hg2 Hin).
  destruct Hm; simpl in *; try done. apply elem_of_app in IH as [?| ->%list_elem_of_singleton]; [done|lia].
Qed.

Section moves.
Context {L A V : Type} `{UserAction A} {os : Target}.
Implicit Types w : World L A V.
Context (behave : L → Call A → World L A V → list (Command L A) * bool) (prepaint paint : World L A V → list (FrameOp L A V)).
Context (accepts_text_input : L → World L A V → bool) (platform : Platform L (World L A V)).

Definition view w : View := mkView (focus_state (win w)) (pending_of w) (generations (app w)) (timers (app w)).
Definition moves w w' : Prop := rtc move (view w) (view w').
#[global] Instance moves_preorder : PreOrder moves.
Proof. split; [intros w; apply rtc_refl|intros ??? H1 H2; unfold moves in *; by etrans]. Qed.

Lemma view_refresh w : view (refresh w) = view w.
Proof. unfold refresh. by destruct (not_drawing w). Qed.
Lemma view_cursor w : view (reset_cursor_style w) = view w.
Proof. unfold reset_cursor_style. by destruct (hovered _). Qed.

Lemma focus_moves w id : moves w (focus_handle_ w id).
Proof.
  unfold focus_handle_, moves. destruct (focus_enabled (focus_state (win w))) eqn:E; simpl; [|done].
  case_bool_decide as Hf; [done|]. rewrite view_refresh. apply rtc_once. by apply (move_focus_to id (focus_state (win w))).
Qed.
Lemma blur_moves w : moves w (blur w).
Proof.
  unfold blur, moves. destruct (focus_enabled (focus_state (win w))) eqn:E; simpl; [|done]. rewrite view_refresh.
  apply rtc_once, (move_blur (focus_state (win w))), E.
Qed.
Lemma blur_focus w : focus_enabled (focus_state (win (blur w))) = true → focus (focus_state (win (blur w))) = None.
Proof.
  unfold blur. destruct (focus_enabled (focus_state (win w))) eqn:E; simpl; [|by rewrite E].
  unfold refresh. by destruct (not_drawing _).
Qed.
Lemma drag_view w window : view (stop_active_drag w window).1 = view w.
Proof.
  unfold stop_active_drag. destruct (active_drag (app w)); [|done]. simpl. rewrite view_refresh.
  repeat case_match; done.
Qed.

Lemma command_moves c w w' : run_command c w = Ok w' → moves w w'.
Proof.
  assert (Hsame : ∀ v, view v = view w → moves w v) by (unfold moves; intros ? ->; done).
  destruct c; simpl; try (intros [= <-]; by apply Hsame); try (unfold focus_next, focus_prev, focus_step).
  - intros [= <-]. by apply Hsame, view_refresh.
  - intros [= <-]. apply focus_moves.
  - intros [= <-]. apply blur_moves.
  - intros [= <-]. unfold disable_focus. etrans; [apply blur_moves|]. apply rtc_once, (move_disable (focus_state (win (blur w)))), blur_focus.
  - destruct (negb _); [intros [= <-]; by apply Hsame|]. intros ([h|] & _ & [= <-])%outcome_bind_ok; [apply focus_moves|by apply Hsame].
  - destruct (negb _); [intros [= <-]; by apply Hsame|]. intros ([h|] & _ & [= <-])%outcome_bind_ok; [apply focus_moves|by apply Hsame].
  - intros [= <-]. apply rtc_once, move_drop.
  - intros [= <-]. by apply Hsame, drag_view.
Qed.
Lemma moves_closed : closed moves.
Proof. split; [intros w1 w2 w3 ??; by etrans|apply command_moves|intros; apply rtc_refl..]. Qed.
Hint Resolve moves_closed : core.

(** *** Frames *)

Lemma on_tree_view w g w' : on_tree w g = Ok w' → view w' = view w.
Proof. unfold on_tree. by intros (? & _ & [= <-])%outcome_bind_ok. Qed.
Lemma take_state_view w k : view (take_state w k).1 = view w.
Proof. unfold take_state. repeat case_match; done. Qed.
Lemma frame_op_moves w o w' : frame_op w o = Ok w' → moves w w'.
Proof.
  assert (Hsame : ∀ v, view v = view w → moves w v) by (unfold moves; intros ? ->; done).
  destruct o; simpl; try (intros (? & _ & Ho)%outcome_bind_ok; revert Ho); try (intros Ho; by apply Hsame, (on_tree_view _ _ _ Ho));
    try (intros [= <-]; by apply Hsame).
  - unfold set_focus_handle. intros (t & _ & [= <-])%outcome_bind_ok. apply Hsame. by case_decide.
  - intros [= <-]. apply Hsame. unfold handle_input. by case_decide.
  - intros [= <-]. apply Hsame, take_state_view.
  - revert x. intros hs (acc & _ & ([[t src] r] & _ & [= <-])%outcome_bind_ok)%outcome_bind_ok. by apply Hsame.
  - intros ([? ?] & _ & ([? ?] & _ & (? & _ & (? & _ & (? & _ & [= <-])%outcome_bind_ok)%outcome_bind_ok)%outcome_bind_ok)%outcome_bind_ok)%outcome_bind_ok.
    by apply Hsame.
  - unfold rollback. intros (t & _ & [= <-])%outcome_bind_ok. by apply Hsame.
  - apply command_moves.
Qed.
Lemma frame_ops_moves os' w w' : foldM frame_op w os' = Ok w' → moves w w'.
Proof.
  revert w. induction os' as [|o os' IH]; intros w; simpl; [by intros [= <-]|].
  intros (w1 & ?%frame_op_moves & ?%IH)%outcome_bind_ok. by etrans.
Qed.
Lemma draw_roots_moves w w' : draw_roots prepaint paint w = Ok w' → moves w w'.
Proof. unfold draw_roots. intros (w1 & Hp%frame_ops_moves & Hq%frame_ops_moves)%outcome_bind_ok. etrans; [exact Hp|exact Hq]. Qed.
Lemma restore_view w : view (restore_input_handler w) = view w.
Proof. unfold restore_input_handler. by destruct (input_handler (win w)). Qed.
Lemma install_view w : view (install_input_handler w) = view w.
Proof. unfold install_input_handler. by destruct (take_last _) as [[??]|]. Qed.
Lemma notify_focus_moves p c a b w w' f : notify_focus behave p c a b w = Ok (w', f) → moves w w'.
Proof.
  unfold notify_focus. case_decide; [|by intros [= <- _]].
  intros ([w1 f1] & Hl & (w2 & Hn%(notify_set_rel behave moves moves_closed) & [= <- _])%outcome_bind_ok)%outcome_bind_ok.
  etrans; [|done]. case_decide; [|by simplify_eq].
  apply outcome_bind_ok in Hl as (w3 & Hl%(notify_set_rel behave moves moves_closed) & [= <- _]). done.
Qed.
Lemma draw_moves w w' : draw behave prepaint paint w = Ok w' → moves w w'.
Proof.
  unfold draw. intros (w1 & Hr%draw_roots_moves & Hd)%outcome_bind_ok.
  etrans; [|etrans; [exact Hr|clear Hr]].
  { unfold moves. rewrite restore_view. done. }
  match goal with Hd : context [install_input_handler ?x] |- _ => pose proof (install_view x) as Hi; destruct (install_input_handler x) as [wi ap] end.
  destruct (frame_finish _ _) as [f old].
  apply outcome_bind_ok in Hd as (prev & _ & (cur & _ & ([w2 fb] & Hn%notify_focus_moves & [= <-])%outcome_bind_ok)%outcome_bind_ok).
  etrans; [|etrans; [exact Hn|]].
  { unfold moves. replace (view w1) with (view (mkWorld wi ap)). done. }
  unfold moves. match goal with |- rtc _ _ (view (if _ then refresh ?x else _)) => assert (view x = view w2) as Hx by apply view_cursor end.
  case_decide; rewrite ?view_refresh, Hx; done.
Qed.

(** *** Input *)

Lemma read_keystroke_view e w : view (read_keystroke e w).1 = view w.
Proof. destruct e; simpl; try done. by destruct (_ && _). Qed.

(** Input that was taken: its generation has no timer unless the input had one. *)
Definition taken_ok (p : PendingInput) w : Prop :=
  generation p < generations (app w) ∧ (needs_timeout p = false → generation p ∉ timers (app w)).
Lemma taken_moves p w w' : taken_ok p w → moves w w' → taken_ok p w'.
Proof.
  intros [Hg Ht] Hm. pose proof (moves_next _ _ Hm) as Hn. simpl in Hn. split; [lia|].
  intros Hp%Ht Hin. apply Hp. eapply (moves_timers (view w) (view w')); simpl; eauto.
Qed.
Lemma take_pending_moves w w' p : view_ok (view w) → take_pending w = (w', p) → moves w w' ∧ taken_ok p w'.
Proof.
  intros Hok. unfold take_pending, pending_default, fresh_generation.
  assert (Hnew : ∀ w, view_ok (view w) → moves w (put_generations w (generations (app w) + 1)) ∧
    taken_ok (mkPending [] None false false (generations (app w))) (put_generations w (generations (app w) + 1))).
  { clear. intros w Hok. split; [apply rtc_once, move_generation|]. split; simpl; [lia|]. intros _ Hin.
    apply (timers_made _ Hok) in Hin. simpl in Hin. lia. }
  destruct (pending_of w) as [q|] eqn:Hq.
  - assert (Hd : moves w (put_pending w None)) by apply rtc_once, move_drop.
    case_decide as Hf; intros [= <- <-].
    + destruct (Hnew (put_pending w None) (moves_ok _ _ Hd Hok)) as [Hm Ht]. split; [|exact Ht]. etrans; [exact Hd|exact Hm].
    + split; [done|]. split; simpl; [by apply (held_generation _ Hok)|].
      intros Hn. destruct (held_timer _ Hok q Hq) as [Hqt Hiff]. simpl in Hiff. rewrite <-Hiff, Hqt, Hn. done.
  - destruct (Hnew w Hok) as [Hm Ht]. rewrite decide_False by (simpl; naive_solver). by intros [= <- <-].
Qed.
Lemma hold_input_moves e (res : DispatchResult A) p w w' :
  pending res ≠ [] → taken_ok p w → hold_input behave accepts_text_input e res p w = Ok w' → moves w w'.
Proof.
  intros Hne [Hg Ht]. unfold hold_input, start_timer, fresh_generation.
  destruct (needs_timeout p || _) eqn:Hn; intros (w1 & Hp%(notify_set_rel behave moves moves_closed) & [= <-])%outcome_bind_ok.
  - etrans; [|exact Hp]. apply rtc_once, (move_hold (focus_state (win w))), Hne.
  - etrans; [|exact Hp]. apply orb_false_iff in Hn as [Hn%Ht _]. apply rtc_once, (move_hold_quiet (focus_state (win w))); done.
Qed.
Lemma dispatch_matches_moves e id path (res : DispatchResult A) w w' :
  dispatch_matches behave accepts_text_input e id path res w = Ok w' → moves w w'.
Proof.
  unfold dispatch_matches. intros ([w1 o] & H1 & (w2 & H2 & H3%(notify_set_rel behave moves moves_closed))%outcome_bind_ok)%outcome_bind_ok.
  etrans; [|etrans; [|exact H3]].
  - destruct (_ && _); [by simplify_eq|]. by apply (try_bindings_rel behave moves moves_closed) in H1.
  - destruct o; [by apply (observers_rel behave moves moves_closed) in H2|by apply (finish_key_rel behave moves moves_closed) in H2].
Qed.
Lemma dispatch_typed_moves e k id path w w' :
  view_ok (view w) → dispatch_typed behave accepts_text_input e k id path w = Ok w' → moves w w'.
Proof.
  intros Hok. unfold dispatch_typed.
  intros (cs & _ & (w1 & Hi%(interceptors_rel behave moves moves_closed) & Hr)%outcome_bind_ok)%outcome_bind_ok.
  assert (Hi' : moves w w1) by exact Hi. etrans; [exact Hi'|].
  destruct (propagate w1); simpl in Hr.
  - destruct (take_pending w1) as [w2 p] eqn:Ht.
    apply take_pending_moves in Ht as [Hm2 Htk]; [|by eapply moves_ok]. etrans; [exact Hm2|].
    apply outcome_bind_ok in Hr as (res & _ & (w3 & Hrep & Hend)%outcome_bind_ok).
    assert (Hm3 : moves w2 w3).
    { destruct (to_replay res); [by simplify_eq|]. apply outcome_bind_ok in Hrep as (w4 & Hrep%(replay_rel behave moves moves_closed) & [= <-]). done. }
    etrans; [exact Hm3|]. destruct (pending res) as [|k' ks] eqn:Hp; [by eapply dispatch_matches_moves|].
    eapply hold_input_moves, Hend; [by rewrite Hp|by eapply taken_moves].
  - apply outcome_bind_ok in Hr as (cs' & _ & Hr). by apply (finish_key_rel behave moves moves_closed) in Hr.
Qed.
Lemma dispatch_key_event_moves e w w' :
  view_ok (view w) → dispatch_key_event behave prepaint paint accepts_text_input e w = Ok w' → moves w w'.
Proof.
  intros Hok. unfold dispatch_key_event. intros (w1 & Hd & (id & _ & (path & _ & Hr)%outcome_bind_ok)%outcome_bind_ok)%outcome_bind_ok.
  assert (Hm1 : moves w w1) by (destruct (dirty _); [by eapply draw_moves|by simplify_eq]).
  etrans; [exact Hm1|]. pose proof (read_keystroke_view e w1) as Hv. destruct (read_keystroke e w1) as [w2 o].
  assert (Hm2 : moves w1 w2) by (unfold moves; by rewrite <-Hv). etrans; [exact Hm2|].
  destruct o.
  - eapply dispatch_typed_moves, Hr. eapply moves_ok; [exact Hm2|]. by eapply moves_ok.
  - apply outcome_bind_ok in Hr as (cs & _ & Hr). by apply (finish_key_rel behave moves moves_closed) in Hr.
Qed.
Lemma fire_timer_moves g w w' : fire_timer behave g w = Ok w' → moves w w'.
Proof.
  unfold fire_timer. destruct (removed _); [by intros [= <-]|]. destruct (pending_of w) as [p|]; [|by intros [= <-]].
  case_decide; [|by intros [= <-]]. assert (Hd : moves w (put_pending w None)) by apply rtc_once, move_drop.
  case_decide; [|by intros [= <-]].
  intros (id & _ & (path & _ & (rs & _ & (w1 & Hn1%(notify_set_rel behave moves moves_closed) & Hn2%(replay_rel behave moves moves_closed))%outcome_bind_ok)%outcome_bind_ok)%outcome_bind_ok)%outcome_bind_ok.
  etrans; [exact Hd|]. by etrans.
Qed.

Lemma update_hit_test_view w : view (update_hit_test w) = view w.
Proof. unfold update_hit_test. by case_decide; [|rewrite view_cursor]. Qed.
Lemma release_capture_view e w : view (release_capture e w) = view w.
Proof. unfold release_capture. by destruct (is_mouse_up e). Qed.
Lemma drag_follows_view e w : view (drag_follows e w) = view w.
Proof.
  unfold drag_follows. destruct (active_drag _); [|done]. destruct (is_mouse_move e); [apply view_refresh|].
  destruct (is_mouse_up e); [by rewrite view_refresh|done].
Qed.
Lemma mouse_loop_moves e phase ls w w' : until_stopped (call_mouse behave e phase) ls w = Ok w' → moves w w'.
Proof.
  apply (until_stopped_rel moves moves_closed). intros o v v'. unfold call_mouse.
  intros (l & _ & ?%(call_rel behave moves moves_closed))%outcome_bind_ok. done.
Qed.
Lemma dispatch_mouse_event_moves e w w' : dispatch_mouse_event behave e w = Ok w' → moves w w'.
Proof.
  unfold dispatch_mouse_event. intros (w1 & H1%mouse_loop_moves & (w2 & H2 & [= <-])%outcome_bind_ok)%outcome_bind_ok.
  etrans; [|etrans; [exact H1|]].
  { unfold moves. change (view (put_listeners ?x _)) with (view x). by rewrite update_hit_test_view. }
  trans w2; [|unfold moves; rewrite release_capture_view, drag_follows_view; reflexivity].
  destruct (propagate w1); [by apply mouse_loop_moves in H2|by simplify_eq].
Qed.
Lemma track_view e w : view (track platform e w).1 = view w.
Proof.
  destruct e as [| | | | | | | | | |d|]; try done. destruct d; simpl; try done.
  - unfold restore_platform_drag. simpl. repeat case_match; simplify_eq/=; repeat case_match; simplify_eq/=; done.
  - unfold hand_restored_drag_to_platform. repeat case_match; simplify_eq/=; rewrite view_refresh; done.
  - rewrite view_refresh. unfold end_platform_drag. repeat case_match; done.
Qed.
Lemma promote_moves e w w' : promote_external_drag_to_platform behave platform e w = Ok w' → moves w w'.
Proof.
  unfold promote_external_drag_to_platform. destruct e as [| | | | | |pos btn m| | | | |]; try (by intros [= <-]).
  destruct btn as [[| | |]|]; try (by intros [= <-]). destruct (contains _ _); [by intros [= <-]|].
  destruct (negb _); [by intros [= <-]|]. destruct (active_drag _) as [[v st [src|]]|]; try (by intros [= <-]).
  intros (w1 & Hc%(call_rel behave moves moves_closed) & Hr)%outcome_bind_ok. etrans; [exact Hc|].
  destruct (_ && _); [|by simplify_eq]. unfold hand_active_drag_to_platform in Hr.
  destruct (active_drag (app w1)); simplify_eq/=; [|done]. unfold moves. by rewrite view_refresh.
Qed.
Lemma dispatch_event_moves e w w' :
  view_ok (view w) → dispatch_event behave prepaint paint accepts_text_input platform e w = Ok w' → moves w w'.
Proof.
  intros Hok. unfold dispatch_event.
  match goal with |- context [track platform e ?x] => set (w0 := x) end.
  assert (Hv : view w0 = view w).
  { subst w0. case_decide; [|done].
    change (view (refresh (set_modality w (modality e (last_input_modality (pointer (win w)))))) = view w). by rewrite view_refresh. }
  clearbody w0. pose proof (track_view e w0) as Ht. destruct (track platform e w0) as [w1 e1].
  simpl in Ht. rewrite Hv in Ht. assert (Hm1 : moves w w1) by (unfold moves; by rewrite Ht).
  intros (w2 & Hd & Hp%promote_moves)%outcome_bind_ok. etrans; [exact Hm1|]. etrans; [|exact Hp].
  destruct (mouse_event e1); [by apply dispatch_mouse_event_moves in Hd|].
  destruct (keyboard_event e1); [|by simplify_eq]. eapply dispatch_key_event_moves, Hd. by rewrite Ht.
Qed.
Lemma run_deferred_moves w w' : run_deferred behave w = Ok w' → moves w w'.
Proof.
  unfold run_deferred. destruct (deferred _) as [|d ds]; [by intros [= <-]|].
  destruct (removed _); [intros [= <-]; apply rtc_refl|]. destruct d; [| |intros [= <-]; apply rtc_refl].
  - intros Hn%(notify_set_rel behave moves moves_closed). exact Hn.
  - intros (id & _ & Hn%(dispatch_action_rel behave moves moves_closed))%outcome_bind_ok. exact Hn.
Qed.
Lemma window_step_moves e w w' :
  view_ok (view w) → window_step behave prepaint paint accepts_text_input platform w e = Ok w' → moves w w'.
Proof.
  intros Hok. destruct e; simpl.
  - by apply dispatch_event_moves.
  - apply fire_timer_moves.
  - apply run_deferred_moves.
  - apply draw_moves.
  - apply (run_commands_rel moves moves_closed).
Qed.
End moves.

(** ** Hit tests *)

Definition shown (position : Point Qc) (h : Hitbox) : bool :=
  contains (intersect (hitbox_bounds h) (content_mask h)) position.
(** A hitbox is reached if it is under the pointer, and none of the ones in front of it that are blocks the mouse. *)
Definition reached (position : Point Qc) (front : list Hitbox) (h : Hitbox) : Prop :=
  shown position h = true ∧ Forall (λ h', shown position h' = true → behavior h' ≠ BlockMouse) front.
Definition reached_for_hover (position : Point Qc) (front : list Hitbox) (h : Hitbox) : Prop :=
  shown position h = true ∧ Forall (λ h', shown position h' = true → behavior h' = Normal) front.

(** The ids that the loop adds to those of [t], and how many of them are hovered. *)
Fixpoint reached_ids (position : Point Qc) (l : list Hitbox) : list HitboxId :=
  match l with
  | [] => []
  | h :: l =>
      if shown position h then hitbox_id h :: (if decide (behavior h = BlockMouse) then [] else reached_ids position l)
      else reached_ids position l
  end.
Fixpoint hovered_ids (position : Point Qc) (l : list Hitbox) : list HitboxId :=
  match l with
  | [] => []
  | h :: l =>
      if shown position h then hitbox_id h :: (if decide (behavior h = Normal) then hovered_ids position l else [])
      else hovered_ids position l
  end.
Lemma hit_test_loop_ids l position t counted :
  ids (hit_test_loop l position t counted).1 = ids t ++ reached_ids position l.
Proof.
  revert t counted. induction l as [|h l IH]; intros t counted; simpl; [by rewrite app_nil_r|].
  unfold shown. destruct (contains _ _); [|apply IH].
  destruct (negb counted && _); case_decide; simpl; rewrite ?IH; simpl; by rewrite <-?app_assoc.
Qed.
Lemma hit_test_loop_counted l position t :
  hover_hitbox_count (hit_test_loop l position t true).1 = hover_hitbox_count t ∧ (hit_test_loop l position t true).2 = true.
Proof.
  revert t. induction l as [|h l IH]; intros t; simpl; [done|]. destruct (contains _ _); [|apply IH].
  case_decide; [done|]. apply (IH (mkHitTest _ _)).
Qed.
Lemma hit_test_loop_hover l position t :
  let '(t', counted) := hit_test_loop l position t false in
  take (if counted : bool then hover_hitbox_count t' else length (ids t')) (ids t') = ids t ++ hovered_ids position l.
Proof.
  revert t. induction l as [|h l IH]; intros t; simpl; [by rewrite firstn_all, app_nil_r|].
  unfold shown. destruct (contains _ _) eqn:Hc; [|apply IH]. simpl.
  destruct (behavior h) eqn:Hb; simpl.
  - specialize (IH (mkHitTest (ids t ++ [hitbox_id h]) (hover_hitbox_count t))).
    destruct (hit_test_loop l position _ false) as [t' c]. by rewrite IH; simpl; rewrite <-app_assoc.
  - by rewrite firstn_all.
  - pose proof (hit_test_loop_counted l position (mkHitTest (ids t ++ [hitbox_id h]) (length (ids t ++ [hitbox_id h])))) as [Hn Hc2].
    pose proof (hit_test_loop_ids l position (mkHitTest (ids t ++ [hitbox_id h]) (length (ids t ++ [hitbox_id h]))) true) as Hi.
    destruct (hit_test_loop l position _ true) as [t' c]. simpl in *. subst c. rewrite Hn, Hi. by rewrite take_app_length.
Qed.
Lemma hit_test_ids {L V} (f : Frame L V) position :
  ids (hit_test f position) = reached_ids position (rev (hitboxes f)) ∧
  take (hover_hitbox_count (hit_test f position)) (ids (hit_test f position)) = hovered_ids position (rev (hitboxes f)).
Proof.
  unfold hit_test. pose proof (hit_test_loop_ids (rev (hitboxes f)) position (mkHitTest [] 0) false) as Hi.
  pose proof (hit_test_loop_hover (rev (hitboxes f)) position (mkHitTest [] 0)) as Hh.
  destruct (hit_test_loop _ _ _ _) as [t c]. simpl in *. destruct c; simpl; auto.
Qed.
Lemma reached_ids_spec position front h back :
  hitbox_id h ∉ (hitbox_id <$> front) → hitbox_id h ∉ (hitbox_id <$> back) →
  (hitbox_id h ∈ reached_ids position (front ++ h :: back) ↔ reached position front h).
Proof.
  intros Hf Hb. assert (Hno : ∀ l, hitbox_id h ∉ (hitbox_id <$> l) → hitbox_id h ∉ reached_ids position l).
  { intros l. induction l as [|g l IH]; simpl; [done|]. rewrite not_elem_of_cons. intros [? ?].
    destruct (shown _ g); [|by apply IH]. apply not_elem_of_cons. split; [done|]. case_decide; [apply not_elem_of_nil|by apply IH]. }
  unfold reached. induction front as [|g front IH]; simpl in *.
  - destruct (shown position h) eqn:Hs.
    + split; [done|]. intros _. apply list_elem_of_here.
    + split; [intros Hin; by apply Hno in Hin|by intros [? _]].
  - apply not_elem_of_cons in Hf as [Hg Hf]. rewrite Forall_cons. destruct (shown position g) eqn:Hs.
    + rewrite elem_of_cons. case_decide as Hd.
      * split; [intros [?|?%elem_of_nil]; done|]. intros (_ & Hn & _). by destruct (Hn eq_refl).
      * rewrite IH by done. naive_solver.
    + rewrite IH by done. naive_solver.
Qed.
Lemma hovered_ids_spec position front h back :
  hitbox_id h ∉ (hitbox_id <$> front) → hitbox_id h ∉ (hitbox_id <$> back) →
  (hitbox_id h ∈ hovered_ids position (front ++ h :: back) ↔ reached_for_hover position front h).
Proof.
  intros Hf Hb. assert (Hno : ∀ l, hitbox_id h ∉ (hitbox_id <$> l) → hitbox_id h ∉ hovered_ids position l).
  { intros l. induction l as [|g l IH]; simpl; [done|]. rewrite not_elem_of_cons. intros [? ?].
    destruct (shown _ g); [|by apply IH]. apply not_elem_of_cons. split; [done|]. case_decide; [by apply IH|apply not_elem_of_nil]. }
  unfold reached_for_hover. induction front as [|g front IH]; simpl in *.
  - destruct (shown position h) eqn:Hs.
    + split; [done|]. intros _. apply list_elem_of_here.
    + split; [intros Hin; by apply Hno in Hin|by intros [? _]].
  - apply not_elem_of_cons in Hf as [Hg Hf]. rewrite Forall_cons. destruct (shown position g) eqn:Hs.
    + rewrite elem_of_cons. case_decide as Hd.
      * rewrite IH by done. naive_solver.
      * split; [intros [?|?%elem_of_nil]; done|]. intros (_ & Hn & _). by destruct Hd; apply Hn.
    + rewrite IH by done. naive_solver.
Qed.

(** ** What calls leave alone, and that they return *)

Section calls.
Context {L A V : Type} `{UserAction A} {os : Target}.
Implicit Types w : World L A V.
Implicit Types f : Frame L V.
Context (behave : L → Call A → World L A V → list (Command L A) * bool).

(** A frame that events can be dispatched in. *)
Record frame_ok f : Prop := {
  frame_tree : well_formed (dispatch_tree f);
  frame_root : nodes (dispatch_tree f) ≠ [];
  frame_tabs : built (tab_stops f);
  frame_listeners : Forall is_Some (mouse_listeners f);
}.

(** What no call changes: the frames, where the pointer is and what it hits, and the phase. *)
Record kept w w' : Prop := {
  kept_rendered : rendered_frame (win w') = rendered_frame (win w);
  kept_next : next_frame (win w') = next_frame (win w);
  kept_position : mouse_position (pointer (win w')) = mouse_position (pointer (win w));
  kept_hit_test : mouse_hit_test (pointer (win w')) = mouse_hit_test (pointer (win w));
  kept_phase : draw_phase (draw_state (win w')) = draw_phase (draw_state (win w));
}.
#[global] Instance kept_preorder : PreOrder kept.
Proof. split; [by split|]. intros w1 w2 w3 [] []. split; congruence. Qed.
Lemma refresh_kept w : kept w (refresh w).
Proof. unfold refresh. destruct (not_drawing w); by split. Qed.
Lemma focus_kept w id : kept w (focus_handle_ w id).
Proof. unfold focus_handle_. destruct (_ || _); [done|]. etrans; [|apply refresh_kept]. by split. Qed.
Lemma blur_kept w : kept w (blur w).
Proof. unfold blur. destruct (negb _); [done|]. etrans; [|apply refresh_kept]. by split. Qed.
Lemma drag_kept w window : kept w (stop_active_drag w window).1.
Proof.
  unfold stop_active_drag. destruct (active_drag (app w)); [|done]. simpl. etrans; [|apply refresh_kept].
  repeat case_match; by split.
Qed.
Lemma focus_step_kept st w w' : focus_step st w = Ok w' → kept w w'.
Proof.
  unfold focus_step. destruct (negb _); [by intros [= <-]|].
  intros ([h|] & _ & [= <-])%outcome_bind_ok; [apply focus_kept|done].
Qed.
Lemma command_kept c w w' : run_command c w = Ok w' → kept w w'.
Proof.
  destruct c; simpl; try (intros [= <-]; by split); try apply focus_step_kept; intros [= <-].
  - apply refresh_kept.
  - apply focus_kept.
  - apply blur_kept.
  - etrans; [apply (blur_kept w)|by split].
  - apply drag_kept.
Qed.
Lemma kept_closed : closed kept.
Proof. split; [intros w1 w2 w3 ??; by etrans|apply command_kept|by split..]. Qed.

(** No call of the window or the application is noted. *)
Lemma refresh_log w : log (app (refresh w)) = log (app w).
Proof. unfold refresh. by destruct (not_drawing w). Qed.
Lemma focus_log w id : log (app (focus_handle_ w id)) = log (app w).
Proof. unfold focus_handle_. destruct (_ || _); [done|]. by rewrite refresh_log. Qed.
Lemma focus_step_log st w w' : focus_step st w = Ok w' → log (app w') = log (app w).
Proof.
  unfold focus_step. destruct (negb _); [by intros [= <-]|].
  intros ([h|] & _ & [= <-])%outcome_bind_ok; [apply focus_log|done].
Qed.
Lemma blur_log w : log (app (blur w)) = log (app w).
Proof. unfold blur. destruct (negb _); [done|]. by rewrite refresh_log. Qed.
Lemma command_log c w w' : run_command c w = Ok w' → log (app w') = log (app w).
Proof.
  destruct c; simpl; try (by intros [= <-]); try apply focus_step_log; intros [= <-].
  - apply refresh_log.
  - apply focus_log.
  - apply blur_log.
  - apply (blur_log w).
  - unfold stop_active_drag. destruct (active_drag (app w)); [|done]. simpl. rewrite refresh_log. repeat case_match; done.
Qed.
(** Global listeners are only added: those that commands register for a type. *)
Definition globals w (ty : TypeId) : list L := default [] (global_action_listeners (app w) !! ty).
Definition registered (ty : TypeId) (cs : list (Command L A)) : list L :=
  omap (λ c, match c with COnAction ty' l => if decide (ty' = ty) then Some l else None | _ => None end) cs.
Lemma command_globals c w w' ty : run_command c w = Ok w' → globals w' ty = globals w ty ++ registered ty [c].
Proof.
  assert (Hs : ∀ v, global_action_listeners (app v) = global_action_listeners (app w) → globals v ty = globals w ty ++ []).
  { intros v Hv. unfold globals. by rewrite Hv, app_nil_r. }
  assert (Hr : ∀ v : World L A V, global_action_listeners (app (refresh v)) = global_action_listeners (app v)).
  { intros v. unfold refresh. by destruct (not_drawing v). }
  assert (Hf : ∀ (v : World L A V) id, global_action_listeners (app (focus_handle_ v id)) = global_action_listeners (app v)).
  { intros v id. unfold focus_handle_. destruct (_ || _); [done|]. by rewrite Hr. }
  assert (Hb : global_action_listeners (app (blur w)) = global_action_listeners (app w)).
  { unfold blur. destruct (negb _); [done|]. by rewrite Hr. }
  assert (Hst : ∀ st, focus_step st w = Ok w' → globals w' ty = globals w ty ++ []).
  { intros st. unfold focus_step. destruct (negb _); [intros [= <-]; by apply Hs|].
    intros ([h|] & _ & [= <-])%outcome_bind_ok; apply Hs; [apply Hf|done]. }
  destruct c; simpl; try (intros [= <-]; by apply Hs); try apply Hst; intros [= <-]; try (by apply Hs).
  - unfold on_global_action, globals. cbn. destruct (decide (action_type = ty)) as [->|Hne].
    + by rewrite lookup_insert_eq.
    + by rewrite lookup_insert_ne, app_nil_r.
  - apply Hs. unfold stop_active_drag. destruct (active_drag (app w)); [|done]. simpl. rewrite Hr. repeat case_match; done.
Qed.
Lemma registered_app ty cs1 cs2 : registered ty (cs1 ++ cs2) = registered ty cs1 ++ registered ty cs2.
Proof. apply omap_app. Qed.
Lemma commands_globals cs w w' ty : run_commands cs w = Ok w' → globals w' ty = globals w ty ++ registered ty cs.
Proof.
  unfold run_commands. revert w. induction cs as [|c cs IH]; intros w; cbn [foldM].
  { intros [= <-]. by rewrite app_nil_r. }
  intros (w1 & E%(command_globals _ _ _ ty) & E2)%outcome_bind_ok. rewrite (IH _ E2), E, <-app_assoc.
  by rewrite <-(registered_app ty [c] cs).
Qed.

Lemma command_ok c w : frame_ok (rendered_frame (win w)) → ∃ w', run_command c w = Ok w'.
Proof.
  intros Hf. assert (Hst : ∀ st, (∀ o, ∃ h, st (tab_stops (rendered_frame (win w))) o = Ok h) → ∃ w', focus_step st w = Ok w').
  { intros st Hst. unfold focus_step. destruct (negb _); [by eexists|]. destruct (Hst (focused w)) as [h ->]. by eexists. }
  destruct c; simpl; try (by eexists); apply Hst; intros o;
    destruct (tab_cycles (tab_stops (rendered_frame (win w))) o (frame_tabs _ Hf)); by eexists.
Qed.
Lemma commands_ok cs w :
  frame_ok (rendered_frame (win w)) → ∃ w', run_commands cs w = Ok w' ∧ log (app w') = log (app w).
Proof.
  unfold run_commands. revert w. induction cs as [|c cs IH]; intros w Hf; simpl; [by exists w|].
  destruct (command_ok c w Hf) as [w1 E]. rewrite E. cbn [mbind outcome_bind].
  destruct (IH w1) as (w2 & -> & Hl); [by rewrite (kept_rendered _ _ (command_kept _ _ _ E))|].
  exists w2. split; [done|]. by rewrite Hl, (command_log _ _ _ E).
Qed.
Lemma call_ok c l w ty :
  frame_ok (rendered_frame (win w)) →
  ∃ w', call behave c l w = Ok w' ∧ rendered_frame (win w') = rendered_frame (win w) ∧
    log (app w') = log (app w) ++ [Called l c] ∧ ∃ added, globals w' ty = globals w ty ++ added.
Proof.
  intros Hf. destruct (commands_ok (behave l c w).1 (note w (Called l c)) Hf) as (w' & E & Hl).
  pose proof (commands_globals _ _ _ ty E) as Ha.
  exists w'. split; [done|]. split; [|split; [done|by eexists]]. exact (kept_rendered _ _ (call_rel behave kept kept_closed _ _ _ _ E)).
Qed.

(** A loop over listeners, each of which returns, keeps [P] and is noted: it calls them in their order, up to one that stops. *)
Lemma until_stopped_ok {X} (P : World L A V → Prop) (g : X → LogEntry L A) (run : X → World L A V → outcome (World L A V)) l w :
  (∀ x w, x ∈ l → P w → ∃ w', run x w = Ok w' ∧ P w' ∧ log (app w') = log (app w) ++ [g x]) →
  P w →
  ∃ w' called rest, until_stopped run l w = Ok w' ∧ P w' ∧ l = called ++ rest ∧
    log (app w') = log (app w) ++ (g <$> called) ∧ (rest ≠ [] → propagate w' = false) ∧ (called = [] → w' = w).
Proof.
  revert w. induction l as [|x l IH]; intros w Hrun Hw; simpl.
  { exists w, [], []. simpl. rewrite app_nil_r. done. }
  destruct (Hrun x w) as (w1 & -> & H1 & Hl1); [apply list_elem_of_here|done|]. cbn [mbind outcome_bind].
  destruct (propagate w1) eqn:Hp.
  - destruct (IH w1) as (w2 & called & rest & -> & H2 & -> & Hl2 & Hr & _); [|done|].
    { intros y v Hy. apply Hrun. by apply list_elem_of_further. }
    exists w2, (x :: called), rest. split; [done|]. split; [done|]. split; [done|]. split; [|done].
    by rewrite Hl2, Hl1, <-app_assoc.
  - by exists w1, [x], l.
Qed.

(** The listeners of the nodes of a path. *)
Definition listeners_along {X} (ls : DispatchNode.t L → list X) (t : DispatchTree.t L) (path : list nat) : list X :=
  path ≫= λ id, match nodes t !! id with Some n => ls n | None => [] end.
Lemma along_ok {X} (P : World L A V → Prop) t (g : X → LogEntry L A) (ls : DispatchNode.t L → list X)
    (run : X → World L A V → outcome (World L A V)) path w :
  (∀ w, P w → tree_of w = t) → Forall (λ id, is_Some (nodes t !! id)) path →
  (∀ x w, P w → ∃ w', run x w = Ok w' ∧ P w' ∧ log (app w') = log (app w) ++ [g x]) →
  P w →
  ∃ w' called rest, along ls run path w = Ok w' ∧ P w' ∧ listeners_along ls t path = called ++ rest ∧
    log (app w') = log (app w) ++ (g <$> called) ∧ (rest ≠ [] → propagate w' = false) ∧ (called = [] → w' = w).
Proof.
  intros HP Hpath Hrun. revert w. induction Hpath as [|id path [n Hn] _ IH]; intros w Hw; simpl.
  { exists w, [], []. simpl. rewrite app_nil_r. done. }
  unfold node, index. rewrite (HP w Hw), Hn. cbn [unwrap mbind outcome_bind].
  destruct (until_stopped_ok P g run (ls n) w) as (w1 & called & rest & -> & H1 & E & Hl & Hr & Hc); [auto|done|].
  cbn [mbind outcome_bind]. unfold listeners_along in *. rewrite E. destruct (propagate w1) eqn:Hp1.
  - assert (rest = []) as -> by (destruct rest; [done|by specialize (Hr ltac:(done))]).
    destruct (IH w1 H1) as (w2 & called2 & rest2 & -> & H2 & -> & Hl2 & Hr2 & Hc2).
    exists w2, (called ++ called2), rest2. rewrite app_nil_r. split; [done|]. split; [done|]. split; [by rewrite app_assoc|].
    split; [by rewrite Hl2, Hl, fmap_app, app_assoc|]. split; [done|].
    intros [-> ->]%app_nil. by rewrite Hc2, Hc.
  - eexists w1, called, _. split; [done|]. split; [done|]. split; [by rewrite <-app_assoc|]. done.
Qed.

(** Global listeners: the ones that are there run, and new ones come after them. *)
Lemma with_global_ok ty (g : L → LogEntry L A) (run : list L → World L A V → outcome (World L A V)) (order : list L → list L) f w :
  order [] = [] →
  (∀ ls v, rendered_frame (win v) = f → ∃ v' called rest, run ls v = Ok v' ∧
     rendered_frame (win v') = f ∧ (∃ added, globals v' ty = globals v ty ++ added) ∧ order ls = called ++ rest ∧
     log (app v') = log (app v) ++ (g <$> called) ∧ (rest ≠ [] → propagate v' = false) ∧ (called = [] → v' = v)) →
  rendered_frame (win w) = f →
  ∃ w' called rest, with_global_listeners ty run w = Ok w' ∧ rendered_frame (win w') = f ∧
    (∃ added, globals w' ty = globals w ty ++ added) ∧ order (globals w ty) = called ++ rest ∧
    log (app w') = log (app w) ++ (g <$> called) ∧ (rest ≠ [] → propagate w' = false) ∧
    (called = [] → propagate w' = propagate w).
Proof.
  intros Ho Hrun Hf. unfold with_global_listeners, globals at 2 3. destruct (global_action_listeners (app w) !! ty) as [ls|] eqn:E.
  - destruct (Hrun ls (put_global_action_listeners w (delete ty (global_action_listeners (app w)))) Hf)
      as (v' & called & rest & -> & Hf' & [added Ha] & Ec & Hl & Hr & Hc).
    cbn [mbind outcome_bind]. eexists _, called, rest. split; [done|]. split; [done|]. split.
    { exists added. unfold globals in *. cbn. rewrite lookup_insert_eq. simpl. f_equal.
      rewrite Ha. cbn. by rewrite lookup_delete_eq. }
    split; [done|]. split; [done|]. split; [done|]. intros Hn. unfold propagate. cbn. by rewrite (Hc Hn).
  - exists w, [], []. split; [done|]. split; [done|]. split; [exists []; unfold globals; by rewrite E|].
    simpl. rewrite app_nil_r, Ho. done.
Qed.

(** ** Calls in turn *)

(** Listeners of actions are called in the bubble phase with the propagation stopped, all others in the world as it is. *)
Definition enters (c : Call A) w : World L A V :=
  match c with OnAction _ Bubble | OnGlobalAction _ Bubble => stop w | _ => w end.

Section turns.
(** What may change between two calls. *)
Context (same : World L A V → World L A V → Prop).

(** The calls of a list are made in turn, each in the world that the one before it has left, up to and with the first one
    that leaves the propagation stopped; and the commands of each call that was made. *)
Inductive turns : list (L * Call A) → World L A V → World L A V → list (list (Command L A)) → Prop :=
  | turns_end w w' : same w w' → turns [] w w' []
  | turns_stop l c calls w v v' w' :
      same w v → call behave c l (enters c v) = Ok v' → propagate v' = false → same v' w' →
      turns ((l, c) :: calls) w w' [(behave l c (enters c v)).1]
  | turns_next l c calls w v v' w' cmds :
      same w v → call behave c l (enters c v) = Ok v' → propagate v' = true → turns calls v' w' cmds →
      turns ((l, c) :: calls) w w' ((behave l c (enters c v)).1 :: cmds).

Context `{!PreOrder same} (same_propagate : ∀ w w', same w w' → propagate w' = propagate w).
Implicit Types calls : list (L * Call A).

Lemma turns_same calls w0 w w' w1 cmds : same w0 w → turns calls w w' cmds → same w' w1 → turns calls w0 w1 cmds.
Proof using PreOrder0.
  intros H0 Ht. revert w0 H0. induction Ht as [w w' Hs|l c calls w v v' w' Hs E Hp Hs'|l c calls w v v' w' cmds Hs E Hp _ IH]; intros w0 H0 H1.
  - constructor. by do 2 (etrans; [done|]).
  - eapply turns_stop; try done; by etrans.
  - eapply turns_next; try done; [by etrans|]. by apply IH.
Qed.
Lemma turns_app calls1 calls2 w w1 w2 cmds1 cmds2 :
  turns calls1 w w1 cmds1 → propagate w1 = true → turns calls2 w1 w2 cmds2 → turns (calls1 ++ calls2) w w2 (cmds1 ++ cmds2).
Proof using PreOrder0 same_propagate.
  intros H1 Hp H2. induction H1 as [w w' Hs|l c calls w v v' w' Hs E Hf Hs'|l c calls w v v' w' cmds Hs E Ht _ IH].
  - by eapply turns_same.
  - apply same_propagate in Hs'. congruence.
  - eapply turns_next; try done. by apply IH.
Qed.
Lemma turns_stopped calls1 calls2 w w1 cmds :
  turns calls1 w w1 cmds → propagate w = true → propagate w1 = false → turns (calls1 ++ calls2) w w1 cmds.
Proof using same_propagate.
  intros H1 Hp Hf. induction H1 as [w w' Hs%same_propagate|l c calls w v v' w' Hs E Hf' Hs'|l c calls w v v' w' cmds Hs E Ht _ IH].
  - congruence.
  - by eapply turns_stop.
  - eapply turns_next; try done. by apply IH.
Qed.
Lemma turns_length calls w w' cmds : turns calls w w' cmds → propagate w' = true → length cmds = length calls.
Proof using same_propagate.
  induction 1 as [|l c calls w v v' w' Hs E Hf Hs'|l c calls w v v' w' cmds Hs E Ht _ IH]; intros Hp; [done| |].
  - apply same_propagate in Hs'. congruence.
  - simpl. by rewrite IH.
Qed.
Lemma call_log c l w w' : call behave c l w = Ok w' → log (app w') = log (app w) ++ [Called l c].
Proof using.
  unfold call, run_commands. change (log (app w) ++ [Called l c]) with (log (app (note w (Called l c)))).
  generalize (note w (Called l c)) as v. generalize ((behave l c w).1) as cs.
  induction cs as [|x cs IH]; intros v; simpl; [by intros [= <-]|].
  intros (v1 & E%command_log & Hv)%outcome_bind_ok. by rewrite (IH _ Hv), E.
Qed.
Lemma turns_log calls w w' cmds :
  (∀ v v', same v v' → log (app v') = log (app v)) → turns calls w w' cmds →
  log (app w') = log (app w) ++ ((λ x, Called x.1 x.2) <$> take (length cmds) calls).
Proof using.
  intros Hlog. assert (He : ∀ c v, log (app (enters c v)) = log (app v)) by by intros [| | |? []|? []| | | | | |] v.
  induction 1 as [w w' Hs|l c calls w v v' w' Hs E _ Hs'|l c calls w v v' w' cmds Hs E _ _ IH]; simpl.
  - by rewrite (Hlog _ _ Hs), app_nil_r.
  - by rewrite (Hlog _ _ Hs'), (call_log _ _ _ _ E), He, (Hlog _ _ Hs).
  - by rewrite IH, (call_log _ _ _ _ E), He, (Hlog _ _ Hs), <-app_assoc.
Qed.

(** The loops make their calls in turn. *)
Lemma call_globals c l w w' ty :
  call behave c l (enters c w) = Ok w' → globals w' ty = globals w ty ++ registered ty (behave l c (enters c w)).1.
Proof using.
  unfold call. intros E%(commands_globals _ _ _ ty). rewrite E. f_equal. by destruct c as [| | |? []|? []| | | | | |].
Qed.
Lemma until_stopped_turns {X} (mk : X → L * Call A) (run : X → World L A V → outcome (World L A V)) ls w w' :
  (∀ x v, run x v = call behave (mk x).2 (mk x).1 (enters (mk x).2 v)) → until_stopped run ls w = Ok w' →
  ∃ cmds, turns (mk <$> ls) w w' cmds ∧ ∀ ty, globals w' ty = globals w ty ++ registered ty (concat cmds).
Proof using PreOrder0.
  intros Hrun. revert w. induction ls as [|x ls IH]; intros w; simpl.
  { intros [= <-]. exists []. split; [by constructor|]. intros ty. by rewrite app_nil_r. }
  intros (w1 & E & Hw)%outcome_bind_ok. rewrite Hrun in E. destruct (mk x) as [l c] eqn:Ex. simpl in E.
  pose proof (λ ty, call_globals _ _ _ _ ty E) as Hg. destruct (propagate w1) eqn:Hp.
  - destruct (IH w1 Hw) as (cmds & Ht & Hg'). exists ((behave l c (enters c w)).1 :: cmds).
    split; [by eapply turns_next|]. intros ty. by rewrite Hg', Hg, <-app_assoc, <-registered_app.
  - injection Hw as <-. exists [(behave l c (enters c w)).1]. split; [by eapply turns_stop|].
    intros ty. rewrite Hg. simpl. by rewrite app_nil_r.
Qed.
Lemma along_turns {X} (mk : X → L * Call A) (ls : DispatchNode.t L → list X) (run : X → World L A V → outcome (World L A V)) path w w' :
  (∀ x v, run x v = call behave (mk x).2 (mk x).1 (enters (mk x).2 v)) →
  along ls run path w = Ok w' → propagate w = true →
  ∃ cmds, turns (mk <$> listeners_along ls (tree_of w) path) w w' cmds ∧
    ∀ ty, globals w' ty = globals w ty ++ registered ty (concat cmds).
Proof using PreOrder0 same_propagate.
  intros Hrun. revert w. induction path as [|id path IH]; intros w; cbn [along].
  { intros [= <-] _. exists []. split; [by constructor|]. intros ty. by rewrite app_nil_r. }
  intros (n & En & (w1 & E & Hw)%outcome_bind_ok)%outcome_bind_ok Hp. unfold node, index in En.
  destruct (nodes (tree_of w) !! id) as [n'|] eqn:Hn; [|done]. injection En as ->.
  assert (Hls : listeners_along ls (tree_of w) (id :: path) = ls n ++ listeners_along ls (tree_of w) path).
  { unfold listeners_along. by rewrite bind_cons, Hn. }
  rewrite Hls, fmap_app.
  assert (Ht1 : tree_of w1 = tree_of w).
  { unfold tree_of. f_equal. apply kept_rendered. eapply (until_stopped_rel kept kept_closed), E.
    intros x v v' Ev. rewrite Hrun in Ev. apply (call_rel behave kept kept_closed) in Ev.
    destruct (mk x).2 as [| | |? []|? []| | | | | |]; exact Ev || (destruct Ev; by split). }
  destruct (until_stopped_turns mk run _ _ _ Hrun E) as (cmds1 & T1 & G1). destruct (propagate w1) eqn:Hp1.
  - destruct (IH w1 Hw Hp1) as (cmds2 & T2 & G2). rewrite Ht1 in T2. exists (cmds1 ++ cmds2).
    split; [by eapply turns_app|]. intros ty. by rewrite G2, G1, <-app_assoc, <-registered_app, concat_app.
  - injection Hw as <-. exists cmds1. split; [by apply turns_stopped|done].
Qed.
End turns.

(** Worlds that differ in the global listeners for one type only, as these are taken out while they run. *)
Definition but_listeners (ty : TypeId) w w' : Prop :=
  ∃ m, w' = put_global_action_listeners w m ∧ delete ty m = delete ty (global_action_listeners (app w)).
#[export] Instance but_listeners_pre ty : PreOrder (but_listeners ty).
Proof.
  split.
  - intros w. exists (global_action_listeners (app w)). split; [by destruct w as [? []]|done].
  - intros w1 w2 w3 (m & -> & Hm) (m' & -> & Hm'). exists m'. split; [done|]. by rewrite Hm'.
Qed.
Lemma but_listeners_propagate ty w w' : but_listeners ty w w' → propagate w' = propagate w.
Proof. by intros (m & -> & _). Qed.
Lemma but_listeners_log ty w w' : but_listeners ty w w' → log (app w') = log (app w).
Proof. by intros (m & -> & _). Qed.

Lemma with_global_turns {ty} (mk : L → L * Call A) (run : L → World L A V → outcome (World L A V)) (order : list L → list L) w w' :
  (∀ x v, run x v = call behave (mk x).2 (mk x).1 (enters (mk x).2 v)) → order [] = [] →
  with_global_listeners ty (λ ls, until_stopped run (order ls)) w = Ok w' →
  ∃ cmds, turns (but_listeners ty) (mk <$> order (globals w ty)) w w' cmds ∧
    ∀ t, globals w' t = globals w t ++ registered t (concat cmds).
Proof.
  intros Hrun Ho. unfold with_global_listeners, globals at 1. destruct (global_action_listeners (app w) !! ty) as [ls|] eqn:E.
  - intros (v & Hv & [= <-])%outcome_bind_ok. set (w0 := put_global_action_listeners w _) in Hv.
    destruct (until_stopped_turns (but_listeners ty) mk run _ _ _ Hrun Hv) as (cmds & T & G). exists cmds. split.
    + eapply turns_same; [apply _| |exact T|]; (eexists; split; [done|]); by rewrite ?delete_delete_eq, ?delete_insert_eq.
    + intros t. specialize (G t). unfold globals in *. cbn in G |- *. destruct (decide (t = ty)) as [->|Hne].
      * rewrite lookup_insert_eq, E. cbn. f_equal. rewrite G, lookup_delete_eq. done.
      * rewrite lookup_insert_ne, G, lookup_delete_ne by done. done.
  - intros [= <-]. exists []. cbn. rewrite Ho. split; [by constructor|]. intros t. by rewrite app_nil_r.
Qed.
End calls.
