(* ===== verification/WindowTheorems.v ===== *)
(** What windows promise: which hitboxes the mouse reaches, in which order listeners and actions run, and how focus and
    pending input go together. *)
From Stdlib Require Import NArith ZArith QArith Qcanon Ascii String.
From stdpp Require Import gmap.
From S2P Require Import Prelude Chars KeyContext Predicate Keystroke Binding Keymap DispatchTree DispatchTreeFacts DispatchTheorems TabStops TabStopsTheorems Subscription Geometry Pixels Window WindowInput WindowFacts.
Import DispatchTree.
Local Open Scope nat_scope.

(** C18: The hit test of a frame reaches a hitbox exactly if the point is in the part of it that its content mask shows and
    no hitbox in front of it that is under the point blocks the mouse; it counts as hovered exactly if all hitboxes in
    front of it that are under the point are normal, so that what is hovered is reached for scrolling too. *)
Theorem frame_hit_test_exact {L V} (f : Frame L V) position back h front :
  hitboxes f = back ++ h :: front → NoDup (hitbox_id <$> hitboxes f) →
  (hitbox_id h ∈ ids (hit_test f position) ↔ reached position (rev front) h) ∧
  (hitbox_id h ∈ take (hover_hitbox_count (hit_test f position)) (ids (hit_test f position)) ↔
     reached_for_hover position (rev front) h).
Proof.
  intros Hf Hnd. destruct (hit_test_ids f position) as [-> ->].
  rewrite Hf in Hnd. rewrite fmap_app, fmap_cons in Hnd. apply NoDup_app in Hnd as (_ & Hb & [Hh _]%NoDup_cons).
  assert (Hback : hitbox_id h ∉ hitbox_id <$> back) by (intros Hi; by eapply (Hb _ Hi), list_elem_of_here).
  replace (rev (hitboxes f)) with (rev front ++ h :: rev back) by (rewrite Hf, rev_app_distr; simpl; by rewrite <-app_assoc).
  split; [apply reached_ids_spec|apply hovered_ids_spec]; by rewrite <-Permutation_rev.
Qed.

(** A panel with a button on it; the pointer is over both. *)
Definition square (a w : Z) : Bounds Qc := bounds (point (Q2Qc (a # 1)) (Q2Qc (a # 1))) (size (Q2Qc (w # 1)) (Q2Qc (w # 1))).
Definition panel : Hitbox := mkHitbox 1 (square 0 10) (square 0 100) BlockMouse.
Definition button : Hitbox := mkHitbox 2 (square 2 4) (square 0 100) Normal.
Definition backdrop : Hitbox := mkHitbox 0 (square 0 50) (square 0 100) Normal.
Definition panel_frame : Frame () () := set_hitboxes (frame_new tree_new) [backdrop; panel; button].
Lemma frame_hit_test_exact_witness :
  ids (hit_test panel_frame (point (Q2Qc (3 # 1)) (Q2Qc (3 # 1)))) = [2; 1]%Z ∧
  (1%Z ∈ ids (hit_test panel_frame (point (Q2Qc (3 # 1)) (Q2Qc (3 # 1)))) ↔
     reached (point (Q2Qc (3 # 1)) (Q2Qc (3 # 1))) [button] panel).
Proof.
  split; [vm_compute; done|].
  apply (frame_hit_test_exact panel_frame (point (Q2Qc (3 # 1)) (Q2Qc (3 # 1))) [backdrop] panel [button]); [done|].
  apply (bool_decide_unpack _). vm_compute. done.
Defined.

Section window.
Context {L A V : Type} `{UserAction A} {os : Target}.
Implicit Types w : World L A V.
Context (behave : L → Call A → World L A V → list (Command L A) * bool).

(** ** Actions *)

(** The calls of an action in their order: the global listeners, the listeners of the nodes from the root to the focused
    one, back again, and the global listeners from the last one. *)
Definition global_calls (act : Action A) (phase : DispatchPhase) (ls : list L) : list (L * Call A) :=
  (λ l, (l, OnGlobalAction act phase)) <$> ls.
Definition node_calls (act : Action A) (phase : DispatchPhase) (ls : list L) : list (L * Call A) :=
  (λ l, (l, OnAction act phase)) <$> ls.
Definition called (c : L * Call A) : LogEntry L A := Called c.1 c.2.

(** What the log shows of it: between two states the calls of a list were made in their order from the first one on, and
    they ended before the last one only because the propagation was stopped. *)
Definition sweep (calls : list (L * Call A)) w w' : Prop :=
  ∃ done rest, calls = done ++ rest ∧ log (app w') = log (app w) ++ (called <$> done) ∧
    (rest ≠ [] → propagate w' = false) ∧ (done = [] → propagate w' = true).
Lemma sweep_app l1 l2 w w1 w2 : sweep l1 w w1 → propagate w1 = true → sweep l2 w1 w2 → sweep (l1 ++ l2) w w2.
Proof.
  intros (d1 & r1 & -> & Hl1 & Hr1 & _) Hp (d2 & r2 & -> & Hl2 & Hr2 & Hd2).
  assert (r1 = []) as -> by (destruct r1; [done|]; rewrite Hr1 in Hp; done).
  exists (d1 ++ d2), r2. rewrite app_nil_r, app_assoc. split; [done|]. split; [by rewrite Hl2, Hl1, fmap_app, app_assoc|].
  split; [done|]. intros [_ Hn]%app_nil. by apply Hd2.
Qed.
Lemma sweep_stop l1 l2 w w1 : sweep l1 w w1 → propagate w1 = false → sweep (l1 ++ l2) w w1.
Proof.
  intros (d1 & r1 & -> & Hl1 & Hr1 & Hd1) Hp. exists d1, (r1 ++ l2). split; [by rewrite app_assoc|]. done.
Qed.
Lemma sweep_loop {X} (mk : X → L * Call A) (ls dn rest : list X) w w' :
  propagate w = true → ls = dn ++ rest → log (app w') = log (app w) ++ ((λ x, called (mk x)) <$> dn) →
  (rest ≠ [] → propagate w' = false) → (dn = [] → propagate w' = propagate w) → sweep (mk <$> ls) w w'.
Proof.
  intros Hp -> Hl Hr Hd. exists (mk <$> dn), (mk <$> rest). rewrite fmap_app. split; [done|].
  split; [by rewrite Hl, <-list_fmap_compose|]. split.
  - intros Hn. apply Hr. by intros ->.
  - intros Hn%fmap_nil_inv. by rewrite (Hd Hn).
Qed.

(** One loop over global listeners, and the phase around it. *)
Lemma global_loop_ok act phase b ty f ls w :
  frame_ok f → rendered_frame (win w) = f →
  ∃ w' dn rest, until_stopped (call_global_action behave act phase b) ls w = Ok w' ∧
    rendered_frame (win w') = f ∧ (∃ added, globals w' ty = globals w ty ++ added) ∧ ls = dn ++ rest ∧
    log (app w') = log (app w) ++ ((λ l, Called l (OnGlobalAction act phase)) <$> dn) ∧
    (rest ≠ [] → propagate w' = false) ∧ (dn = [] → w' = w).
Proof.
  intros Hok Hf.
  destruct (until_stopped_ok (λ v, rendered_frame (win v) = f ∧ ∃ added, globals v ty = globals w ty ++ added)
    (λ l, Called l (OnGlobalAction act phase)) (call_global_action behave act phase b) ls w)
    as (w' & dn & rest & E & [Hf' Ha] & Hls & Hl & Hr & Hd).
  - intros l v _ [Hv [a1 Ha1]]. unfold call_global_action.
    destruct (call_ok behave (OnGlobalAction act phase) l (if b then stop v else v) ty) as (v' & -> & Hv' & Hl & a2 & Ha2);
      [destruct b; simpl; by rewrite Hv|].
    exists v'. split; [done|]. rewrite Hv', Hl. split; [|by destruct b].
    split; [by destruct b|]. exists (a1 ++ a2). rewrite Ha2, app_assoc, <-Ha1. by destruct b.
  - split; [done|]. exists []. by rewrite app_nil_r.
  - exists w', dn, rest. done.
Qed.
Lemma global_phase_ok act phase b order f w :
  order [] = [] → frame_ok f → rendered_frame (win w) = f → propagate w = true →
  ∃ w', with_global_listeners (type_id act) (λ ls, until_stopped (call_global_action behave act phase b) (order ls)) w = Ok w' ∧
    rendered_frame (win w') = f ∧ (∃ added, globals w' (type_id act) = globals w (type_id act) ++ added) ∧
    sweep (global_calls act phase (order (globals w (type_id act)))) w w'.
Proof.
  intros Ho Hok Hf Hp.
  destruct (with_global_ok (type_id act) (λ l, Called l (OnGlobalAction act phase))
    (λ ls, until_stopped (call_global_action behave act phase b) (order ls)) order f w)
    as (w' & dn & rest & E & Hf' & Ha & Hls & Hl & Hr & Hd); [done| |done|].
  { intros ls v Hv. by apply global_loop_ok. }
  exists w'. split; [done|]. split; [done|]. split; [done|]. unfold global_calls. by eapply sweep_loop.
Qed.

(** One pass over the nodes. *)
Lemma node_pass_ok act phase f path w :
  let ls := listeners_along (action_listeners_for (type_id act)) (dispatch_tree f) path in
  frame_ok f → rendered_frame (win w) = f → Forall (λ id, is_Some (nodes (dispatch_tree f) !! id)) path → propagate w = true →
  ∃ w', along (action_listeners_for (type_id act)) (call_action behave act phase) path w = Ok w' ∧
    rendered_frame (win w') = f ∧ (∃ added, globals w' (type_id act) = globals w (type_id act) ++ added) ∧
    sweep (node_calls act phase ls) w w'.
Proof.
  intros ls Hok Hf Hpath Hp.
  destruct (along_ok (λ v, rendered_frame (win v) = f ∧ ∃ added, globals v (type_id act) = globals w (type_id act) ++ added)
    (dispatch_tree f) (λ l, Called l (OnAction act phase)) (action_listeners_for (type_id act)) (call_action behave act phase) path w)
    as (w' & dn & rest & E & [Hf' Ha] & Hls & Hl & Hr & Hd); [|done| | |].
  - intros v [Hv _]. unfold tree_of. by rewrite Hv.
  - intros l v [Hv [a1 Ha1]]. unfold call_action.
    destruct (call_ok behave (OnAction act phase) l (match phase with Capture => v | Bubble => stop v end) (type_id act))
      as (v' & -> & Hv' & Hl & a2 & Ha2); [destruct phase; simpl; by rewrite Hv|].
    exists v'. split; [done|]. rewrite Hv', Hl. split; [|by destruct phase].
    split; [by destruct phase|]. exists (a1 ++ a2). rewrite Ha2, app_assoc, <-Ha1. by destruct phase.
  - split; [done|]. exists []. by rewrite app_nil_r.
  - exists w'. split; [done|]. split; [done|]. split; [done|].
    unfold node_calls, ls. eapply sweep_loop; try done. intros ->. by rewrite Hd.
Qed.

Lemma path_nodes (t : DispatchTree.t L) id path :
  well_formed t → id < length (nodes t) → dispatch_path t id = Ok path → Forall (λ i, is_Some (nodes t !! i)) path.
Proof.
  intros Hwf Hi Hp. destruct (dispatch_path_spec t id Hwf Hi) as (s & Hs & Hd). rewrite Hd in Hp. injection Hp as <-.
  destruct (nodes_of_path t _ Hs) as (ns & Hns & _). revert ns Hns. generalize (s ++ [id]) as l. clear.
  induction l as [|i l IH]; intros ns; simpl; [done|].
  intros (n & Hn & (ns' & Hns & _)%outcome_bind_ok)%outcome_bind_ok. constructor; [|by eapply IH].
  unfold node, index in Hn. destruct (nodes t !! i); [by eexists|done].
Qed.

Lemma action_sweep act id w :
  frame_ok (rendered_frame (win w)) → id < length (nodes (tree_of w)) →
  ∃ w' path added,
    let ls := listeners_along (action_listeners_for (type_id act)) (tree_of w) in
    dispatch_action_on_node_inner behave id act w = Ok w' ∧ dispatch_path (tree_of w) id = Ok path ∧
    rendered_frame (win w') = rendered_frame (win w) ∧
    sweep (global_calls act Capture (globals w (type_id act)) ++ node_calls act Capture (ls path) ++
      node_calls act Bubble (ls (rev path)) ++ global_calls act Bubble (rev (globals w (type_id act) ++ added))) w w'.
Proof.
  intros Hok Hi. set (f := rendered_frame (win w)) in *.
  destruct (dispatch_path_spec (dispatch_tree f) id (frame_tree _ Hok) Hi) as (s & _ & Hp).
  pose proof (path_nodes _ _ _ (frame_tree _ Hok) Hi Hp) as Hn. set (path := s ++ [id]) in *.
  unfold dispatch_action_on_node_inner. change (tree_of w) with (dispatch_tree f). rewrite Hp. cbn [mbind outcome_bind].
  destruct (global_phase_ok act Capture false (λ ls, ls) f (resume w)) as (w1 & E1 & Hf1 & [a1 Ha1] & S1); [done..|].
  change (λ ls, until_stopped (call_global_action behave act Capture false) ls) with (until_stopped (call_global_action behave act Capture false)) in E1.
  rewrite E1. cbn [mbind outcome_bind]. clear E1. change (globals (resume w)) with (globals w) in *.
  assert (S1' : sweep (global_calls act Capture (globals w (type_id act))) w w1) by exact S1. clear S1.
  destruct (propagate w1) eqn:P1; cbn [negb]; [|exists w1, path, []; repeat split; try done; by apply sweep_stop].
  destruct (node_pass_ok act Capture f path w1) as (w2 & E2 & Hf2 & [a2 Ha2] & S2); [done..|].
  rewrite E2. cbn [mbind outcome_bind]. clear E2.
  destruct (propagate w2) eqn:P2; cbn [negb];
    [|exists w2, path, []; repeat split; try done; eapply sweep_app; [done..|by apply sweep_stop]].
  destruct (node_pass_ok act Bubble f (rev path) w2) as (w3 & E3 & Hf3 & [a3 Ha3] & S3); [done|done|by apply Forall_rev|done|].
  rewrite E3. cbn [mbind outcome_bind]. clear E3.
  destruct (propagate w3) eqn:P3; cbn [negb];
    [|exists w3, path, []; repeat split; try done; eapply sweep_app; [done..|]; eapply sweep_app; [done..|by apply sweep_stop]].
  destruct (global_phase_ok act Bubble true (λ ls, rev ls) f w3) as (w4 & -> & Hf4 & _ & S4); [done..|].
  exists w4, path, (a1 ++ a2 ++ a3). repeat split; try done. eapply sweep_app; [done..|]. eapply sweep_app; [done..|].
  eapply sweep_app; [done..|]. by rewrite Ha3, Ha2, Ha1, <-!app_assoc in S4.
Qed.

Lemma action_turns act id w w' path :
  let ty := type_id act in
  let ls := listeners_along (action_listeners_for ty) (tree_of w) in
  frame_ok (rendered_frame (win w)) →
  dispatch_action_on_node_inner behave id act w = Ok w' → dispatch_path (tree_of w) id = Ok path →
  Forall (λ i, is_Some (nodes (tree_of w) !! i)) path →
  ∃ cmds,
    let until_last := global_calls act Capture (globals w ty) ++ node_calls act Capture (ls path) ++ node_calls act Bubble (ls (rev path)) in
    let added := registered ty (concat (take (length until_last) cmds)) in
    turns behave (but_listeners ty) (until_last ++ global_calls act Bubble (rev (globals w ty ++ added))) (resume w) w' cmds ∧
    ∀ t, globals w' t = globals w t ++ registered t (concat cmds).
Proof.
  intros ty ls Hok Hrun Hp Hn. pose proof (but_listeners_propagate (L:=L) (A:=A) (V:=V) ty) as Hsp. revert Hrun. unfold dispatch_action_on_node_inner.
  rewrite Hp. cbn [mbind outcome_bind]. fold ty.
  set (f := rendered_frame (win w)) in *. change (tree_of w) with (dispatch_tree f) in Hn, ls.
  intros (w1 & E1 & Hrun)%outcome_bind_ok.
  destruct (global_phase_ok act Capture false (λ l, l) f (resume w)) as (w1' & E1' & Hf1 & _); [done..|].
  change (λ ls, until_stopped (call_global_action behave act Capture false) ls) with (until_stopped (call_global_action behave act Capture false)) in E1'.
  fold ty in E1'. assert (w1' = w1) as -> by congruence. clear E1'.
  destruct (with_global_turns behave (λ l, (l, OnGlobalAction act Capture)) _ (λ l, l) _ _ ltac:(done) eq_refl E1) as (c1 & T1 & G1).
  change (globals (resume w)) with (globals w) in *.
  assert (Hlen : ∀ (calls : list (L * Call A)) v v' c, turns behave (but_listeners ty) calls v v' c → propagate v' = true → length c = length calls)
    by (intros; by eapply turns_length).
  destruct (propagate w1) eqn:P1; cbn [negb] in Hrun.
  2:{ injection Hrun as <-. exists c1. split; [|done]. rewrite <-app_assoc. by eapply turns_stopped. }
  destruct (node_pass_ok act Capture f path w1) as (w2' & E2' & Hf2 & _); [done..|].
  apply outcome_bind_ok in Hrun as (w2 & E2 & Hrun). assert (w2' = w2) as -> by (fold ty in E2'; congruence). clear E2'.
  destruct (along_turns behave (but_listeners ty) Hsp (λ l, (l, OnAction act Capture)) _ _ _ _ _ ltac:(done) E2 P1) as (c2 & T2 & G2).
  unfold tree_of in T2. rewrite Hf1 in T2. fold (ls path) in T2.
  assert (T12 := turns_app behave _ Hsp _ _ _ _ _ _ _ T1 P1 T2).
  assert (G12 : ∀ t, globals w2 t = globals w t ++ registered t (concat (c1 ++ c2))).
  { intros t. by rewrite G2, G1, <-app_assoc, <-registered_app, concat_app. }
  destruct (propagate w2) eqn:P2; cbn [negb] in Hrun.
  2:{ injection Hrun as <-. exists (c1 ++ c2). split; [|done]. rewrite !app_assoc, <-(app_assoc _ _ (global_calls _ _ _)).
      by eapply turns_stopped. }
  destruct (node_pass_ok act Bubble f (rev path) w2) as (w3' & E3' & Hf3 & _); [done|done|by apply Forall_rev|done|].
  apply outcome_bind_ok in Hrun as (w3 & E3 & Hrun). assert (w3' = w3) as -> by (fold ty in E3'; congruence). clear E3'.
  destruct (along_turns behave (but_listeners ty) Hsp (λ l, (l, OnAction act Bubble)) _ _ _ _ _ ltac:(done) E3 P2) as (c3 & T3 & G3).
  unfold tree_of in T3. rewrite Hf2 in T3. fold (ls (rev path)) in T3.
  assert (T13 := turns_app behave _ Hsp _ _ _ _ _ _ _ T12 P2 T3). rewrite <-app_assoc in T13.
  assert (G13 : ∀ t, globals w3 t = globals w t ++ registered t (concat ((c1 ++ c2) ++ c3))).
  { intros t. by rewrite G3, G12, <-app_assoc, <-registered_app, (concat_app (c1 ++ c2)). }
  destruct (propagate w3) eqn:P3; cbn [negb] in Hrun.
  2:{ injection Hrun as <-. exists ((c1 ++ c2) ++ c3). split; [|done]. by eapply turns_stopped. }
  destruct (with_global_turns behave (λ l, (l, OnGlobalAction act Bubble)) _ (λ l, rev l) _ _ ltac:(done) eq_refl Hrun) as (c4 & T4 & G4).
  exists (((c1 ++ c2) ++ c3) ++ c4). split.
  - cbn zeta. set (until_last := global_calls act Capture _ ++ _). assert (Hl3 : length until_last = length ((c1 ++ c2) ++ c3)) by (symmetry; exact (Hlen _ _ _ _ T13 P3)).
    rewrite Hl3, take_app_length. rewrite G13 in T4. eapply turns_app; [apply _|exact Hsp|exact T13|exact P3|exact T4].
  - intros t. by rewrite G4, G13, <-app_assoc, <-registered_app, (concat_app ((c1 ++ c2) ++ c3)).
Qed.

(** C17: An action calls the global listeners for its type, then those of the nodes from the root to the target, those from
    the target back to the root, and the global ones again, from the last to the first, where those that the calls before
    have registered for the type are the last ones. Each of these is called in turn, in the world that the call before it has left; in the
    bubble phases with the propagation stopped, so that the listener has to ask for more. The next one is called if and
    only if the propagation is on when the call returns. The listeners that the calls have registered are there afterwards,
    behind the earlier ones. It never panics, and leaves the frame alone. *)
Theorem actions_run_in_order act id w :
  frame_ok (rendered_frame (win w)) → id < length (nodes (tree_of w)) →
  ∃ w' path cmds,
    let ty := type_id act in
    let ls := listeners_along (action_listeners_for ty) (tree_of w) in
    let until_last := global_calls act Capture (globals w ty) ++ node_calls act Capture (ls path) ++ node_calls act Bubble (ls (rev path)) in
    let added := registered ty (concat (take (length until_last) cmds)) in
    let calls := until_last ++ global_calls act Bubble (rev (globals w ty ++ added)) in
    dispatch_action_on_node_inner behave id act w = Ok w' ∧ dispatch_path (tree_of w) id = Ok path ∧
    rendered_frame (win w') = rendered_frame (win w) ∧
    turns behave (but_listeners ty) calls (resume w) w' cmds ∧
    log (app w') = log (app w) ++ (called <$> take (length cmds) calls) ∧
    ∀ t, globals w' t = globals w t ++ registered t (concat cmds).
Proof.
  intros Hok Hi. destruct (action_sweep act id w Hok Hi) as (w' & path & _ & E & Hp & Hf & _).
  destruct (action_turns act id w w' path Hok E Hp (path_nodes _ _ _ (frame_tree _ Hok) Hi Hp)) as (cmds & T & G).
  exists w', path, cmds. split; [done|]. split; [done|]. split; [done|]. split; [exact T|]. split; [|exact G].
  exact (turns_log behave _ _ _ _ _ (but_listeners_log (type_id act)) T).
Qed.

(** Without a call of [propagate] the propagation stays stopped. *)
Lemma command_stopped c w w' : run_command c w = Ok w' → c ≠ CPropagate → propagate w = false → propagate w' = false.
Proof.
  intros Hc Hn Hp. assert (Hr : ∀ v : World L A V, propagate (refresh v) = propagate v) by (intros v; unfold refresh; by destruct (not_drawing v)).
  assert (Hf : ∀ v id, propagate (focus_handle_ v id) = propagate v) by (intros v id; unfold focus_handle_; destruct (_ || _); by rewrite ?Hr).
  assert (Hb : propagate (blur w) = propagate w) by (unfold blur; destruct (negb _); by rewrite ?Hr).
  assert (Hst : ∀ st, focus_step st w = Ok w' → propagate w' = false).
  { intros st. unfold focus_step. destruct (negb _); [by intros [= <-]|].
    intros ([h|] & _ & [= <-])%outcome_bind_ok; by rewrite ?Hf. }
  destruct c; simpl in Hc; try exact (Hst _ Hc); simplify_eq/=; try done; rewrite ?Hr, ?Hf, ?Hb; try done.
  - by rewrite <-Hb in Hp.
  - unfold stop_active_drag. destruct (active_drag (app w)); [|done]. simpl. rewrite Hr. repeat case_match; done.
Qed.
Lemma commands_stopped cs w w' : run_commands cs w = Ok w' → CPropagate ∉ cs → propagate w = false → propagate w' = false.
Proof.
  unfold run_commands. revert w. induction cs as [|c cs IH]; intros w; simpl; [by intros [= <-]|].
  intros (w1 & E & Ecs)%outcome_bind_ok [Hc Hcs]%not_elem_of_cons Hp. eapply IH; [exact Ecs|done|]. by eapply command_stopped.
Qed.

(** A loop of which every call stops makes at most one call. *)
Definition once w w' : Prop := w' = w ∨ propagate w' = false ∧ ∃ c, log (app w') = log (app w) ++ [c].
Lemma until_stopped_once {X} (run : X → World L A V → outcome (World L A V)) l w w' :
  (∀ x v v', run x v = Ok v' → propagate v' = false ∧ ∃ c, log (app v') = log (app v) ++ [c]) →
  until_stopped run l w = Ok w' → once w w'.
Proof.
  intros Hrun. destruct l as [|x l]; simpl; [intros [= <-]; by left|].
  intros (w1 & [Hp Hl]%Hrun & H2)%outcome_bind_ok. rewrite Hp in H2. simplify_eq. by right.
Qed.
Lemma along_once {X} (ls : DispatchNode.t L → list X) run path w w' :
  (∀ x v v', run x v = Ok v' → propagate v' = false ∧ ∃ c, log (app v') = log (app v) ++ [c]) →
  along ls run path w = Ok w' → once w w'.
Proof.
  intros Hrun. revert w. induction path as [|id path IH]; intros w; simpl; [intros [= <-]; by left|].
  intros (n & _ & (w1 & [->|[Hp Hl]]%(until_stopped_once _ _ _ _ Hrun) & H2)%outcome_bind_ok)%outcome_bind_ok.
  - destruct (propagate w); [by apply IH|simplify_eq; by left].
  - rewrite Hp in H2. simplify_eq. by right.
Qed.
Lemma call_stops c l w w' :
  (∀ v, CPropagate ∉ (behave l c v).1) → propagate w = false → call behave c l w = Ok w' →
  propagate w' = false ∧ ∃ e, log (app w') = log (app w) ++ [e].
Proof.
  intros Hn Hp E. split; [by eapply commands_stopped|]. exists (Called l c). revert E. unfold call, run_commands.
  generalize ((behave l c w).1) as cs. generalize (eq_refl (log (app (note w (Called l c))))). generalize (note w (Called l c)) at 1 3 as v.
  intros v Hv cs. revert v Hv. induction cs as [|c1 cs IH]; intros v Hv; simpl; [by intros [= <-]|].
  intros (v1 & E1%command_log & E2)%outcome_bind_ok. eapply IH, E2. by rewrite E1.
Qed.

(** Unless a listener asks for more with [propagate], an action is handled at most once: after the calls of the capture
    phases at most one listener is called in the bubble phases. *)
Theorem action_is_handled_once act id w w' :
  (∀ l c v, CPropagate ∉ (behave l c v).1) → frame_ok (rendered_frame (win w)) → id < length (nodes (tree_of w)) →
  dispatch_action_on_node_inner behave id act w = Ok w' →
  ∃ path captured bubbled rest, dispatch_path (tree_of w) id = Ok path ∧
    global_calls act Capture (globals w (type_id act)) ++
      node_calls act Capture (listeners_along (action_listeners_for (type_id act)) (tree_of w) path) = captured ++ rest ∧
    log (app w') = log (app w) ++ (called <$> captured) ++ bubbled ∧ length bubbled ≤ 1 ∧
    (rest ≠ [] ∨ bubbled ≠ [] → propagate w' = false).
Proof.
  intros Hn Hok Hi. set (f := rendered_frame (win w)) in *.
  destruct (dispatch_path_spec (dispatch_tree f) id (frame_tree _ Hok) Hi) as (s & _ & Hp).
  pose proof (path_nodes _ _ _ (frame_tree _ Hok) Hi Hp) as Hpn. set (path := s ++ [id]) in *.
  unfold dispatch_action_on_node_inner. change (tree_of w) with (dispatch_tree f). rewrite Hp. cbn [mbind outcome_bind].
  destruct (global_phase_ok act Capture false (λ ls, ls) f (resume w)) as (w1 & E1 & Hf1 & _ & S1); [done..|].
  change (λ ls, until_stopped (call_global_action behave act Capture false) ls) with (until_stopped (call_global_action behave act Capture false)) in E1.
  rewrite E1. cbn [mbind outcome_bind]. clear E1. change (globals (resume w)) with (globals w) in *.
  assert (S1' : sweep (global_calls act Capture (globals w (type_id act))) w w1) by exact S1. clear S1.
  set (caps := global_calls act Capture (globals w (type_id act)) ++
    node_calls act Capture (listeners_along (action_listeners_for (type_id act)) (dispatch_tree f) path)) in *.
  assert (Hend : ∀ v bubbled, sweep caps w v → length bubbled ≤ 1 → log (app w') = log (app v) ++ bubbled →
    (bubbled ≠ [] → propagate w' = false) → (propagate v = false → v = w') →
    ∃ path0 captured bubbled rest, Ok path = Ok path0 ∧
      global_calls act Capture (globals w (type_id act)) ++
        node_calls act Capture (listeners_along (action_listeners_for (type_id act)) (dispatch_tree f) path0) = captured ++ rest ∧
      log (app w') = log (app w) ++ (called <$> captured) ++ bubbled ∧ length bubbled ≤ 1 ∧ (rest ≠ [] ∨ bubbled ≠ [] → propagate w' = false)).
  { intros v bubbled (dn & rest & E & Hl & Hr & _) Hb Hlb Hpb Hv. exists path, dn, bubbled, rest. split; [done|]. split; [exact E|].
    split; [by rewrite Hlb, Hl, <-app_assoc|]. split; [done|]. intros [Hne|Hne]; [|by apply Hpb]. rewrite <-(Hv (Hr Hne)). by apply Hr. }
  destruct (propagate w1) eqn:P1; cbn [negb].
  2:{ intros [= <-]. apply (Hend w1 []); [by apply sweep_stop|simpl; lia|by rewrite app_nil_r|done|done]. }
  destruct (node_pass_ok act Capture f path w1) as (w2 & E2 & Hf2 & _ & S2); [done..|].
  rewrite E2. cbn [mbind outcome_bind]. clear E2. assert (S : sweep caps w w2) by (by eapply sweep_app). clear S1' S2.
  destruct (propagate w2) eqn:P2; cbn [negb].
  2:{ intros [= <-]. apply (Hend w2 []); [done|simpl; lia|by rewrite app_nil_r|done|done]. }
  assert (Hstops : ∀ l v v', call_action behave act Bubble l v = Ok v' → propagate v' = false ∧ ∃ c, log (app v') = log (app v) ++ [c]).
  { intros l v v'. unfold call_action. by apply (call_stops _ _ (stop v)). }
  assert (Hgstops : ∀ l v v', call_global_action behave act Bubble true l v = Ok v' →
    propagate v' = false ∧ ∃ c, log (app v') = log (app v) ++ [c]).
  { intros l v v'. unfold call_global_action. by apply (call_stops _ _ (stop v)). }
  intros (w3 & [E3|[P3 [c Hc]]]%(along_once _ _ _ _ _ Hstops) & H3)%outcome_bind_ok.
  - rewrite E3, P2 in H3. cbn [negb] in H3. unfold with_global_listeners in H3. destruct (_ !! type_id act) as [gl|].
    + apply outcome_bind_ok in H3 as (w4 & [E4|[P4 [c Hc]]]%(until_stopped_once _ _ _ _ Hgstops) & [= <-]).
      * rewrite E4 in *. apply (Hend w2 []); [done|simpl; lia|by rewrite app_nil_r|done|congruence].
      * apply (Hend w2 [c]); [done|simpl; lia|exact Hc|intros _; exact P4|congruence].
    + injection H3 as <-. apply (Hend w2 []); [done|simpl; lia|by rewrite app_nil_r|done|done].
  - rewrite P3 in H3. cbn [negb] in H3. injection H3 as <-. apply (Hend w2 [c]); [done|simpl; lia|done|done|congruence].
Qed.

(** ** Mouse events *)

Definition mouse_calls (e : PlatformInput) (phase : DispatchPhase) (ls : list L) : list (L * Call A) :=
  (λ l, (l, OnMouse e phase)) <$> ls.
(** The hit test is that of the frame on screen, where the pointer is. *)
Definition hit_test_fresh w : Prop :=
  mouse_hit_test (pointer (win w)) = hit_test (rendered_frame (win w)) (mouse_position (pointer (win w))).

Lemma update_hit_test_ok w :
  rendered_frame (win (update_hit_test w)) = rendered_frame (win w) ∧ hit_test_fresh (update_hit_test w) ∧
  mouse_position (pointer (win (update_hit_test w))) = mouse_position (pointer (win w)) ∧
  propagate (update_hit_test w) = propagate w ∧ next_frame (win (update_hit_test w)) = next_frame (win w) ∧
  draw_phase (draw_state (win (update_hit_test w))) = draw_phase (draw_state (win w)).
Proof.
  unfold update_hit_test, hit_test_fresh. case_decide; [done|]. unfold reset_cursor_style. by destruct (hovered _).
Qed.
Lemma until_stopped_fmap {X Y} (g : X → Y) (run : Y → World L A V → outcome (World L A V)) l w :
  until_stopped run (g <$> l) w = until_stopped (λ x, run (g x)) l w.
Proof.
  revert w. induction l as [|x l IH]; intros w; [done|]. simpl. destruct (run (g x) w) as [w1| |]; [|done..]. simpl.
  by destruct (propagate w1).
Qed.
Lemma mouse_loop_ok e phase ls w :
  frame_ok (rendered_frame (win w)) → propagate w = true →
  ∃ w', until_stopped (call_mouse behave e phase) (Some <$> ls) w = Ok w' ∧ kept w w' ∧ sweep (mouse_calls e phase ls) w w'.
Proof.
  intros Hok Hp. rewrite until_stopped_fmap. unfold call_mouse. cbn [unwrap mbind outcome_bind].
  destruct (until_stopped_ok (λ v, rendered_frame (win v) = rendered_frame (win w)) (λ l, Called l (OnMouse e phase))
    (λ l v, call behave (OnMouse e phase) l v) ls w) as (w' & dn & rest & E & Hf' & Hls & Hl & Hr & Hd); [|done|].
  - intros l v _ Hv. destruct (call_ok behave (OnMouse e phase) l v NoActionType) as (v' & -> & Hv' & Hl & _); [by rewrite Hv|].
    exists v'. by rewrite Hv'.
  - exists w'. split; [done|]. split.
    + eapply (until_stopped_rel kept kept_closed), E. intros l v v'. apply (call_rel behave kept kept_closed).
    + eapply sweep_loop; try done. intros ->. by rewrite Hd.
Qed.
Lemma refresh_propagate w : propagate (refresh w) = propagate w.
Proof. unfold refresh. by destruct (not_drawing w). Qed.
(** What happens after the listeners. *)
Lemma mouse_end_ok e w :
  let w' := release_capture e (drag_follows e w) in
  rendered_frame (win w') = rendered_frame (win w) ∧ pointer (win w') = mkPointer (mouse_position (pointer (win w)))
    (mouse_hit_test (pointer (win w))) (if is_mouse_up e then None else captured_hitbox (pointer (win w)))
    (modifiers (pointer (win w))) (capslock (pointer (win w))) (last_input_modality (pointer (win w))) ∧
  propagate w' = propagate w ∧ log (app w') = log (app w) ∧ (is_mouse_up e = true → active_drag (app w') = None) ∧
  next_frame (win w') = next_frame (win w) ∧ draw_phase (draw_state (win w')) = draw_phase (draw_state (win w)).
Proof.
  unfold release_capture, drag_follows, refresh.
  assert (Hmu : is_mouse_move e = true → is_mouse_up e = false) by (by destruct e).
  destruct (active_drag (app w)) as [d|] eqn:Ed; [|destruct w as [[? ? ? ? [] ? ? ? ? ? ? ?] []], (is_mouse_up e); by repeat split].
  destruct (is_mouse_move e); [rewrite Hmu by done|destruct (is_mouse_up e)]; try destruct (not_drawing _);
    destruct w as [[? ? ? ? [] ? ? ? ? ? ? ?] []]; by repeat split.
Qed.

Lemma mouse_sweep e w :
  frame_ok (rendered_frame (win w)) → propagate w = true →
  ∃ w' ls, dispatch_mouse_event behave e w = Ok w' ∧
    mouse_listeners (rendered_frame (win w)) = Some <$> ls ∧ rendered_frame (win w') = rendered_frame (win w) ∧
    sweep (mouse_calls e Capture ls ++ mouse_calls e Bubble (rev ls)) (update_hit_test w) w' ∧
    hit_test_fresh (update_hit_test w) ∧ hit_test_fresh w' ∧
    mouse_position (pointer (win w')) = mouse_position (pointer (win w)) ∧
    (is_mouse_up e = true → captured_hitbox (pointer (win w')) = None ∧ active_drag (app w') = None) ∧
    next_frame (win w') = next_frame (win w) ∧ draw_phase (draw_state (win w')) = draw_phase (draw_state (win w)).
Proof.
  intros Hok Hp. destruct (update_hit_test_ok w) as (Hrf & Hfr & Hpos & Hpr & Hnx & Hph).
  assert (∃ ls, mouse_listeners (rendered_frame (win w)) = Some <$> ls) as [ls Hls].
  { pose proof (frame_listeners _ Hok) as Hf. revert Hf. generalize (mouse_listeners (rendered_frame (win w))) as l. clear.
    induction 1 as [|o l [x ->] _ [ls ->]]; [by exists []|by exists (x :: ls)]. }
  unfold dispatch_mouse_event. set (u := update_hit_test w) in *. rewrite Hrf, Hls.
  assert (Hok' : frame_ok (set_mouse_listeners (rendered_frame (win w)) [])) by (destruct Hok; by split).
  assert (Hu : rendered_frame (win (put_listeners u [])) = set_mouse_listeners (rendered_frame (win w)) []) by (simpl; by rewrite Hrf).
  destruct (mouse_loop_ok e Capture ls (put_listeners u [])) as (w1 & -> & K1 & S1); [by rewrite Hu|exact (eq_trans Hpr Hp)|].
  cbn [mbind outcome_bind].
  assert (∃ w2, (if propagate w1 then until_stopped (call_mouse behave e Bubble) (rev (Some <$> ls)) w1 else Ok w1) = Ok w2 ∧
    kept w1 w2 ∧ sweep (mouse_calls e Capture ls ++ mouse_calls e Bubble (rev ls)) (put_listeners u []) w2) as (w2 & -> & K2 & S2).
  { destruct (propagate w1) eqn:P1.
    - destruct (mouse_loop_ok e Bubble (rev ls) w1) as (w2 & E2 & K2 & S2); [by rewrite (kept_rendered _ _ K1), Hu|done|].
      exists w2. rewrite <-(map_rev (Some : L → option L)). split; [done|]. split; [done|]. by eapply sweep_app.
    - exists w1. split; [done|]. split; [by split|]. by apply sweep_stop. }
  cbn [mbind outcome_bind].
  destruct (mouse_end_ok e (put_listeners w2 (Some <$> ls))) as (Er & Ept & Epg & El & Ed & En & Eph).
  set (w' := release_capture e _) in *. clearbody w'.
  assert (Erf : rendered_frame (win w') = rendered_frame (win w)).
  { rewrite Er. simpl. rewrite (kept_rendered _ _ K2), (kept_rendered _ _ K1), Hu, <-Hls. by destruct (rendered_frame (win w)). }
  assert (Epos : mouse_position (pointer (win w')) = mouse_position (pointer (win w))).
  { rewrite Ept. simpl. rewrite (kept_position _ _ K2), (kept_position _ _ K1). exact Hpos. }
  exists w', ls. split; [done|]. split; [done|]. split; [done|]. split; [|split; [done|]].
  { destruct S2 as (dn & rest & E & Hl & Hr & Hd). exists dn, rest. split; [done|].
    split; [by rewrite El|]. rewrite Epg. done. }
  split; [|split; [done|]].
  - unfold hit_test_fresh. rewrite Erf, Epos, Ept. simpl. rewrite (kept_hit_test _ _ K2), (kept_hit_test _ _ K1).
    unfold hit_test_fresh in Hfr. rewrite Hrf, Hpos in Hfr. exact Hfr.
  - split; [intros Hup; split; [by rewrite Ept, Hup|by apply Ed]|].
    rewrite En, Eph. simpl. rewrite (kept_next _ _ K2), (kept_next _ _ K1), (kept_phase _ _ K2), (kept_phase _ _ K1). done.
Qed.

Lemma mouse_turns e ls w w' :
  dispatch_mouse_event behave e w = Ok w' → mouse_listeners (rendered_frame (win w)) = Some <$> ls → propagate w = true →
  ∃ v cmds,
    turns behave eq (mouse_calls e Capture ls ++ mouse_calls e Bubble (rev ls)) (put_listeners (update_hit_test w) []) v cmds ∧
    w' = release_capture e (drag_follows e (put_listeners v (Some <$> ls))).
Proof.
  intros E Hls Hp. destruct (update_hit_test_ok w) as (Hrf & _ & _ & Hpr & _). unfold dispatch_mouse_event in E. rewrite Hrf, Hls in E.
  apply outcome_bind_ok in E as (w1 & E1 & (w2 & E2 & [= <-])%outcome_bind_ok).
  rewrite until_stopped_fmap in E1.
  destruct (until_stopped_turns behave eq (λ l, (l, OnMouse e Capture)) _ _ _ _ ltac:(done) E1) as (c1 & T1 & _).
  destruct (propagate w1) eqn:P1.
  - rewrite <-(map_rev (Some : L → option L)) in E2. change (map Some (rev ls)) with ((Some : L → option L) <$> rev ls) in E2. rewrite until_stopped_fmap in E2.
    destruct (until_stopped_turns behave eq (λ l, (l, OnMouse e Bubble)) _ _ _ _ ltac:(done) E2) as (c2 & T2 & _).
    exists w2, (c1 ++ c2). split; [|done]. eapply turns_app; [apply _|by intros ? ? ->|exact T1|exact P1|exact T2].
  - injection E2 as <-. exists w1, c1. split; [|done]. eapply turns_stopped; [by intros ? ? ->|exact T1| |exact P1].
    exact (eq_trans Hpr Hp).
Qed.

(** A mouse event first brings the hit test up to date, so that every listener sees what the pointer hits in the frame
    on screen; then it calls all mouse listeners in the order in which they were registered and again from the last one to
    the first, each in the world that the one before it has left, up to and with the first one that stops it. It never panics, keeps the listeners for the next
    event, and the release of a button ends the drag and the capture of the pointer. *)
Theorem mouse_events_run_in_order e w :
  frame_ok (rendered_frame (win w)) → propagate w = true →
  ∃ w' ls, dispatch_mouse_event behave e w = Ok w' ∧
    mouse_listeners (rendered_frame (win w)) = Some <$> ls ∧ rendered_frame (win w') = rendered_frame (win w) ∧
    (∃ v cmds,
      turns behave eq (mouse_calls e Capture ls ++ mouse_calls e Bubble (rev ls)) (put_listeners (update_hit_test w) []) v cmds ∧
      w' = release_capture e (drag_follows e (put_listeners v (Some <$> ls)))) ∧
    hit_test_fresh (update_hit_test w) ∧ hit_test_fresh w' ∧
    mouse_position (pointer (win w')) = mouse_position (pointer (win w)) ∧
    (is_mouse_up e = true → captured_hitbox (pointer (win w')) = None ∧ active_drag (app w') = None) ∧
    next_frame (win w') = next_frame (win w) ∧ draw_phase (draw_state (win w')) = draw_phase (draw_state (win w)).
Proof.
  intros Hok Hp. destruct (mouse_sweep e w Hok Hp) as (w' & ls & E & Hls & Hf & _ & Hrest).
  exists w', ls. do 3 (split; [done|]). split; [by apply mouse_turns|done].
Qed.

(** ** Focus and pending input *)

Context (prepaint paint : World L A V → list (FrameOp L A V)) (accepts_text_input : L → World L A V → bool).
Context (platform : Platform L (World L A V)).

(** A run of things that happen to a window. *)
Definition window_run (es : list (WindowEvent (L:=L) (A:=A))) w : outcome (World L A V) :=
  foldM (window_step behave prepaint paint accepts_text_input platform) w es.
Lemma window_run_moves es w w' : view_ok (view w) → window_run es w = Ok w' → moves w w'.
Proof.
  unfold window_run. revert w. induction es as [|e es IH]; intros w Hok; simpl; [intros [= <-]; apply rtc_refl|].
  intros (w1 & Hm%window_step_moves & H2)%outcome_bind_ok; [|done]. pose proof (moves_ok _ _ Hm Hok) as Hok1.
  unfold moves in *. etrans; [exact Hm|]. by apply IH.
Qed.

(** C15: Whatever happens to a window, input, timers, deferred calls, draws and calls of the application, does to its
    focus and its pending input what a sequence of the moves of the abstract machine does.  The focus goes to another
    handle, while it is enabled, and that drops the input; it goes away, or is disabled once it is away, and the input
    stays; the input is dropped; a generation is made; or keystrokes are held for the focus of that moment, with a timer
    of a new generation if they need one, and for a generation that has no timer otherwise.  (When the input may be
    dropped the machine leaves open.)  The machine keeps its invariant: keystrokes that were typed without a focus are
    dropped before there is one, an input has a timer exactly if it needs one, and timers were only started for
    generations that were made. *)
Theorem window_refines_machine e w w' :
  view_ok (view w) → window_step behave prepaint paint accepts_text_input platform w e = Ok w' →
  rtc move (view w) (view w') ∧ view_ok (view w').
Proof. intros Hok Hm%window_step_moves; [|done]. split; [exact Hm|]. exact (moves_ok _ _ Hm Hok). Qed.

(** Once the focus of a window is disabled, nothing that happens to the window gives it a focus again. *)
Theorem disabled_focus_stays es w w' :
  view_ok (view w) → window_run es w = Ok w' → focus_enabled (focus_state (win w)) = false → focused w = None →
  focus_enabled (focus_state (win w')) = false ∧ focused w' = None.
Proof.
  intros Hok Hm%window_run_moves He Hf; [|done].
  assert (Hs : ∀ v v', rtc move v v' → focus_enabled (v_focus v) = false → focus (v_focus v) = None →
    focus_enabled (v_focus v') = false ∧ focus (v_focus v') = None).
  { clear. induction 1 as [|v1 v2 v3 Hm _ IH]; [done|]. intros He Hf. apply IH; destruct Hm; simpl in *; congruence. }
  by apply (Hs _ _ Hm).
Qed.

(** C16: A timer only ever flushes the input that it was started for: whatever has happened since, either that input is
    still pending, unchanged, or the timer does nothing when it fires. *)
Theorem timers_flush_their_input es w w' p :
  view_ok (view w) → pending_of w = Some p → timer p = true → window_run es w = Ok w' →
  pending_of w' = Some p ∨ fire_timer behave (generation p) w' = Ok w'.
Proof.
  intros Hok Hp Ht Hm%window_run_moves; [|done].
  assert (Hs : ∀ v v' g, rtc move v v' → view_ok v → g ∈ v_timers v → (∀ q, v_pending v = Some q → generation q = g → q = p) →
    ∀ q, v_pending v' = Some q → generation q = g → q = p).
  { clear. intros v v' g Hm. induction Hm as [|v1 v2 v3 Hm _ IH]; [auto|]. intros Hok Hg Hq.
    pose proof (timers_made _ Hok g Hg) as Hn. apply IH; [by eapply move_ok| |].
    - destruct Hm; simpl in *; try done. apply elem_of_app. by left.
    - destruct Hm; simpl in *; try done; intros r [= <-]; simpl; intros ->; [lia|done]. }
  destruct (held_timer _ Hok p Hp) as [_ Hiff].
  destruct (pending_of w') as [q|] eqn:Hq.
  - destruct (decide (generation q = generation p)) as [E|E].
    + left. rewrite <-Hq. rewrite (Hs _ _ (generation p) Hm Hok) with (q:=q) in Hq; [done| | |done|done].
      * by apply Hiff.
      * intros r Hr _. simpl in Hr. congruence.
    + right. unfold fire_timer. rewrite Hq. destruct (removed _); [done|]. by rewrite decide_False.
  - right. unfold fire_timer. rewrite Hq. by destruct (removed _).
Qed.

(** ** Modifiers *)

(** An event during which no key is pressed and exactly one modifier is held, or a key is released. *)
Definition quiet (e : PlatformInput) : Prop :=
  match e with ModifiersChanged m _ => Modifiers.number_of_modifiers m = 1 | KeyDown _ => False | _ => True end.
#[local] Instance quiet_dec e : Decision (quiet e).
Proof. destruct e; simpl; apply _. Defined.
Definition releases (e : PlatformInput) : Prop :=
  match e with ModifiersChanged m _ => Modifiers.number_of_modifiers m = 0 | _ => False end.
Definition read_all (es : list PlatformInput) w : World L A V := foldl (λ w e, (read_keystroke e w).1) w es.
Definition last_held (m : Modifiers.t) (es : list PlatformInput) : Modifiers.t :=
  foldl (λ m e, match e with ModifiersChanged m' _ => m' | _ => m end) m es.

Lemma read_all_ok es w :
  Forall (λ e, ¬ releases e) es → 0 < Modifiers.number_of_modifiers (held (pending_modifier (keys (win w)))) →
  let s := pending_modifier (keys (win (read_all es w))) in
  held s = last_held (held (pending_modifier (keys (win w)))) es ∧ 0 < Modifiers.number_of_modifiers (held s) ∧
  saw_other_input s = saw_other_input (pending_modifier (keys (win w))) || negb (bool_decide (Forall quiet es)).
Proof.
  revert w. induction es as [|e es IH]; intros w Hr Hn; simpl.
  { rewrite orb_false_r. done. }
  apply Forall_cons in Hr as [Hre Hr].
  assert (Hw : let s := pending_modifier (keys (win (read_keystroke e w).1)) in
    held s = last_held (held (pending_modifier (keys (win w)))) [e] ∧ 0 < Modifiers.number_of_modifiers (held s) ∧
    saw_other_input s = saw_other_input (pending_modifier (keys (win w))) || negb (bool_decide (quiet e))).
  { destruct e; simpl in *; rewrite ?orb_false_r, ?orb_true_r; try done.
    - by destruct (_ && _).
    - split; [done|]. split; [lia|]. rewrite bool_decide_false by lia. simpl.
      destruct (decide (1 < Modifiers.number_of_modifiers modifiers)).
      + rewrite bool_decide_true, bool_decide_false by lia. by rewrite orb_true_r.
      + rewrite bool_decide_false, bool_decide_true by lia. by rewrite orb_false_r. }
  destruct Hw as (Hh & Hp & Hs). destruct (IH (read_keystroke e w).1 Hr Hp) as (Eh & Ep & Es).
  rewrite Es, Hs. split; [by rewrite Eh, Hh|]. split; [done|]. rewrite <-orb_assoc. f_equal. rewrite <-negb_andb. f_equal.
  apply Bool.eq_iff_eq_true. rewrite andb_true_iff, !bool_decide_eq_true, Forall_cons. done.
Qed.

(** A modifier that is pressed when none is held counts as a keystroke when all modifiers are released, exactly if no
    key was pressed and never more than one modifier was held in between; the keystroke is the modifier that was held last. *)
Theorem lone_modifier_is_a_keystroke w m c es m' c' :
  Modifiers.number_of_modifiers (held (pending_modifier (keys (win w)))) = 0 → Modifiers.number_of_modifiers m = 1 →
  Forall (λ e, ¬ releases e) es → Modifiers.number_of_modifiers m' = 0 →
  (read_keystroke (ModifiersChanged m' c') (read_all (ModifiersChanged m c :: es) w)).2 =
    if decide (Forall quiet es) then (λ k, Keystroke.mk Modifiers.none k None) <$> modifier_key (last_held m es) else None.
Proof.
  intros H0 H1 Hes Hm'. simpl. set (w1 := put_pending_modifier w (modifiers_changed (pending_modifier (keys (win w))) m)).
  assert (Hs1 : pending_modifier (keys (win w1)) = mkModifierState m false).
  { unfold w1. simpl. unfold modifiers_changed. by rewrite !bool_decide_true by done. }
  destruct (read_all_ok es w1 Hes) as (Hh & Hp & Hs); [rewrite Hs1; simpl; lia|]. rewrite Hs1 in Hh, Hs. simpl in *.
  unfold modifier_keystroke. rewrite bool_decide_true by done. change (foldl _ w1 es) with (read_all es w1). rewrite Hs, Hh in *. simpl.
  rewrite negb_involutive. case_decide as Hq; [|by rewrite (bool_decide_false (Forall quiet es)), andb_false_r].
  rewrite (bool_decide_true (Forall quiet es)), andb_true_r by done. rewrite bool_decide_true; [done|].
  clear -H1 Hq. revert m H1. induction Hq as [|e es He _ IH]; intros m H1; simpl; [done|]. apply IH. by destruct e.
Qed.

(** ** No panics *)

Implicit Types e : PlatformInput.
Lemma notify_ok s c w : frame_ok (rendered_frame (win w)) → ∃ w', notify_set behave s c w = Ok w' ∧ kept w w'.
Proof.
  intros Hok. cut (∃ w', notify_set behave s c w = Ok w').
  { intros [w' E]. exists w'. split; [done|]. by eapply (notify_set_rel behave kept kept_closed). }
  pose (Q := λ r : outcome (World L A V), ∃ v, r = Ok v ∧ frame_ok (rendered_frame (win v))).
  assert (HR : PreOrder (λ r r', Q r → Q r')) by (split; [by intros ?|by intros ??? Ha Hb Hc; auto]).
  unfold notify_set.
  destruct (retain_rel (λ r r', Q r → Q r') (handler behave s c)) with (k:=()) (w:=Ok w) (st:=sets (app w) s) as (v & Hv & _).
  - clear w Hok. intros r st l (w & -> & Hok). unfold handler.
    destruct (behave l c (put_set w s st)) as [cmds keep]. simpl.
    destruct (commands_ok cmds (note (put_set w s st) (Called l c)) Hok) as (w' & E & _). rewrite E.
    exists w'. split; [done|]. by rewrite (kept_rendered _ _ (run_commands_rel kept kept_closed _ _ _ E)).
  - exists w. done.
  - destruct (retain _ _ _ _) as [r st]. simpl in Hv. subst r. by eexists.
Qed.
Lemma focus_node_ok w fid :
  frame_ok (rendered_frame (win w)) → ∃ id, focus_node_id_in_rendered_frame w fid = Ok id ∧ id < length (nodes (tree_of w)).
Proof.
  intros Hok. unfold focus_node_id_in_rendered_frame, tree_of. pose proof (frame_tree _ Hok) as Hwf.
  destruct (fid ≫= _) as [id|] eqn:E.
  - exists id. split; [done|]. destruct fid as [g|]; [|done]. simpl in E. unfold focusable_node_id in E.
    destruct (wf_focus _ Hwf _ _ E) as (n & Hn & _). by eapply lookup_lt_Some.
  - pose proof (frame_root _ Hok) as Hr. exists 0. unfold root_node_id. rewrite bool_decide_true by done. split; [done|].
    destruct (nodes _); [done|simpl; lia].
Qed.
(** A path that events travel along. *)
Definition walkable w (path : list nat) : Prop := Forall (λ i, is_Some (nodes (tree_of w) !! i)) path.
Lemma walkable_nodes w path : walkable w path → ∃ ns, mapM_ok (node (tree_of w)) path = Ok ns.
Proof.
  induction 1 as [|i path [n Hn] _ [ns IH]]; [by exists []|]. simpl.
  assert (node (tree_of w) i = Ok n) as -> by (unfold node, index; by rewrite Hn). simpl.
  rewrite IH. by eexists.
Qed.
Lemma walkable_contexts w path : walkable w path → ∃ cs, contexts_of (tree_of w) path = Ok cs.
Proof. intros [ns E]%walkable_nodes. unfold contexts_of. rewrite E. by eexists. Qed.
Lemma path_ok w id :
  frame_ok (rendered_frame (win w)) → id < length (nodes (tree_of w)) →
  ∃ path, dispatch_path (tree_of w) id = Ok path ∧ walkable w path.
Proof.
  intros Hok Hi. destruct (dispatch_path_spec _ id (frame_tree _ Hok) Hi) as (s & Hs & Hp). exists (s ++ [id]).
  split; [done|]. by eapply (path_nodes _ id); [apply Hok|..].
Qed.
Lemma contexts_ok w : frame_ok (rendered_frame (win w)) → ∃ cs, window_context_stack w = Ok cs.
Proof.
  intros Hok. unfold window_context_stack, Window.focus_node_id_in_rendered_frame.
  destruct (focus_node_ok w (focused w) Hok) as (id & E & Hi). unfold focus_node_id_in_rendered_frame in E. rewrite E.
  cbn [mbind outcome_bind]. unfold WindowInput.contexts_at. destruct (path_ok w id Hok Hi) as (path & -> & Hw).
  by apply walkable_contexts.
Qed.
Lemma kept_frame_ok w w' : kept w w' → frame_ok (rendered_frame (win w)) → frame_ok (rendered_frame (win w')).
Proof. intros K. by rewrite (kept_rendered _ _ K). Qed.
Lemma kept_walkable w w' path : kept w w' → walkable w path → walkable w' path.
Proof. intros K. unfold walkable, tree_of. by rewrite (kept_rendered _ _ K). Qed.

Lemma along_calls_ok c ls path w :
  frame_ok (rendered_frame (win w)) → walkable w path → ∃ w', along ls (call behave c) path w = Ok w' ∧ kept w w'.
Proof.
  intros Hok Hp.
  destruct (along_ok (λ v, rendered_frame (win v) = rendered_frame (win w)) (tree_of w) (λ l, Called l c) ls (call behave c) path w)
    as (w' & _ & _ & E & _); [|done| |done|].
  - intros v Hv. unfold tree_of. by rewrite Hv.
  - intros l v Hv. destruct (call_ok behave c l v NoActionType) as (v' & -> & Hv' & Hl & _); [by rewrite Hv|]. exists v'. by rewrite Hv'.
  - exists w'. split; [done|]. eapply (along_rel kept kept_closed), E. intros l v v'. apply (call_rel behave kept kept_closed).
Qed.
Lemma walkable_rev w path : walkable w path → walkable w (rev path).
Proof. apply Forall_rev. Qed.

Lemma action_ok act id w :
  frame_ok (rendered_frame (win w)) → id < length (nodes (tree_of w)) →
  ∃ w', dispatch_action_on_node behave id act w = Ok w' ∧ kept w w'.
Proof.
  intros Hok Hi. cut (∃ w', dispatch_action_on_node behave id act w = Ok w').
  { intros [w' E]. exists w'. split; [done|]. by eapply (dispatch_action_rel behave kept kept_closed). }
  unfold dispatch_action_on_node. destruct (action_sweep act id w Hok Hi) as (w1 & _ & _ & -> & _). by eexists.
Qed.
Lemma kept_node w w' id : kept w w' → id < length (nodes (tree_of w)) → id < length (nodes (tree_of w')).
Proof. intros K. unfold tree_of. by rewrite (kept_rendered _ _ K). Qed.
Lemma observers_ok e act cs w : frame_ok (rendered_frame (win w)) → ∃ w', dispatch_keystroke_observers behave e act cs w = Ok w' ∧ kept w w'.
Proof. intros Hok. destruct e; simpl; try (by exists w); by apply notify_ok. Qed.
Lemma key_listeners_ok e path w :
  frame_ok (rendered_frame (win w)) → walkable w path → ∃ w', dispatch_key_down_up_event behave e path w = Ok w' ∧ kept w w'.
Proof.
  intros Hok Hp. unfold dispatch_key_down_up_event.
  destruct (along_calls_ok (OnKey e Capture) DispatchNode.key_listeners path w Hok Hp) as (w1 & -> & K1). cbn [mbind outcome_bind].
  destruct (propagate w1); [|by exists w1].
  destruct (along_calls_ok (OnKey e Bubble) DispatchNode.key_listeners (rev path) w1) as (w2 & -> & K2).
  - by eapply kept_frame_ok.
  - eapply kept_walkable, walkable_rev; done.
  - exists w2. split; [done|by etrans].
Qed.
Lemma finish_key_event_ok e path cs w :
  frame_ok (rendered_frame (win w)) → walkable w path → ∃ w', finish_dispatch_key_event behave e path cs w = Ok w' ∧ kept w w'.
Proof.
  intros Hok Hp. unfold finish_dispatch_key_event.
  destruct (key_listeners_ok e path w Hok Hp) as (w1 & -> & K1). cbn [mbind outcome_bind].
  destruct (propagate w1); [|by exists w1]. cbn [negb].
  assert (∃ w2, dispatch_modifiers_changed_event behave e path w1 = Ok w2 ∧ kept w1 w2) as (w2 & -> & K2).
  { destruct e; simpl; try (by exists w1). apply along_calls_ok; [by eapply kept_frame_ok|]. eapply kept_walkable, walkable_rev; done. }
  cbn [mbind outcome_bind]. assert (K : kept w w2) by (by etrans). destruct (propagate w2); [|by exists w2]. cbn [negb].
  destruct (observers_ok e None cs w2) as (w3 & -> & K3); [by eapply kept_frame_ok|]. exists w3. split; [done|by etrans].
Qed.
Lemma input_text_ok text w : frame_ok (rendered_frame (win w)) → ∃ w' b, input_text behave text w = Ok (w', b) ∧ kept w w'.
Proof.
  intros Hok. unfold input_text. destruct (input_handler _) as [h|]; [|by exists w, false].
  destruct (call_ok behave (OnText text) h (put_input_handler w None) NoActionType Hok) as (w' & E & _).
  pose proof (call_rel behave kept kept_closed _ _ _ _ E) as K. rewrite E. cbn [mbind outcome_bind].
  eexists _, true. split; [done|]. destruct K. by split.
Qed.
Lemma try_bindings_ok id bs w :
  frame_ok (rendered_frame (win w)) → id < length (nodes (tree_of w)) →
  ∃ w' o, try_bindings behave id bs w = Ok (w', o) ∧ kept w w'.
Proof.
  revert w. induction bs as [|b bs IH]; intros w Hok Hi; simpl; [by exists w, None|].
  destruct (action_ok (action b) id w Hok Hi) as (w1 & -> & K1). cbn [mbind outcome_bind].
  destruct (propagate w1); [|by eexists _, _].
  destruct (IH w1) as (w2 & o & -> & K2); [by eapply kept_frame_ok|by eapply kept_node|].
  exists w2, o. split; [done|by etrans].
Qed.
Lemma replay_one_ok id path w r :
  frame_ok (rendered_frame (win w)) → id < length (nodes (tree_of w)) → walkable w path →
  ∃ w', replay_one behave id path w r = Ok w' ∧ kept w w'.
Proof.
  intros Hok Hi Hp. unfold replay_one.
  destruct (try_bindings_ok id (replay_bindings r) (resume w) Hok Hi) as (w1 & o & -> & K1). cbn [mbind outcome_bind].
  assert (K1' : kept w w1) by (destruct K1; by split). clear K1.
  pose proof (kept_frame_ok _ _ K1' Hok) as Hok1. destruct o as [act|].
  - destruct (observers_ok (KeyDown (mkKeyDown (replay_keystroke r) false true)) (Some act) [] w1 Hok1) as (w2 & -> & K2).
    exists w2. split; [done|by etrans].
  - destruct (key_listeners_ok (KeyDown (mkKeyDown (replay_keystroke r) false true)) path w1 Hok1) as (w2 & -> & K2);
      [by eapply kept_walkable|]. cbn [mbind outcome_bind]. assert (K : kept w w2) by (by etrans).
    destruct (propagate w2); [|by exists w2]. cbn [negb]. destruct (Keystroke.key_char _) as [t|]; [|by exists w2].
    destruct (input_text_ok t w2) as (w3 & b & -> & K3); [by eapply kept_frame_ok|]. exists w3. split; [done|by etrans].
Qed.
Lemma replay_ok rs w : frame_ok (rendered_frame (win w)) → ∃ w', replay_pending_input behave rs w = Ok w' ∧ kept w w'.
Proof.
  intros Hok. unfold replay_pending_input. destruct (focus_node_ok w (focused w) Hok) as (id & -> & Hi).
  cbn [mbind outcome_bind]. destruct (path_ok w id Hok Hi) as (path & -> & Hp). cbn [mbind outcome_bind].
  revert w Hok Hi Hp. induction rs as [|r rs IH]; intros w Hok Hi Hp; simpl; [by exists w|].
  destruct (replay_one_ok id path w r Hok Hi Hp) as (w1 & -> & K1). cbn [mbind outcome_bind].
  destruct (IH w1) as (w2 & -> & K2); [by eapply kept_frame_ok|by eapply kept_node|by eapply kept_walkable|].
  exists w2. split; [done|by etrans].
Qed.

Lemma take_pending_kept w w' p : take_pending w = (w', p) → kept w w'.
Proof.
  unfold take_pending, pending_default, fresh_generation. destruct (pending_of w); case_decide; intros [= <- <-]; by split.
Qed.
Lemma hold_ok e (res : DispatchResult A) p w :
  frame_ok (rendered_frame (win w)) → ∃ w', hold_input behave accepts_text_input e res p w = Ok w' ∧ kept w w'.
Proof.
  intros Hok. unfold hold_input, start_timer, fresh_generation. destruct (_ || _).
  - match goal with |- context [pending_input_changed _ ?v] => destruct (notify_ok PendingInputObservers OnPendingInput v Hok) as (w' & E & K) end.
    unfold pending_input_changed. rewrite E. eexists. split; [done|]. destruct K. by split.
  - match goal with |- context [pending_input_changed _ ?v] => destruct (notify_ok PendingInputObservers OnPendingInput v Hok) as (w' & E & K) end.
    unfold pending_input_changed. rewrite E. eexists. split; [done|]. destruct K. by split.
Qed.
Lemma matches_ok e id path (res : DispatchResult A) w :
  frame_ok (rendered_frame (win w)) → id < length (nodes (tree_of w)) → walkable w path →
  ∃ w', dispatch_matches behave accepts_text_input e id path res w = Ok w' ∧ kept w w'.
Proof.
  intros Hok Hi Hp. unfold dispatch_matches.
  assert (∃ w1 o, (if prefers_text e && accepts_text accepts_text_input w then Ok (w, None)
    else try_bindings behave id (dispatch_bindings res) w) = Ok (w1, o) ∧ kept w w1) as (w1 & o & -> & K1).
  { destruct (_ && _); [by exists w, None|by apply try_bindings_ok]. }
  cbn [mbind outcome_bind]. pose proof (kept_frame_ok _ _ K1 Hok) as Hok1.
  assert (∃ w2, match o with
    | Some act => dispatch_keystroke_observers behave e (Some act) (result_context_stack res) w1
    | None => finish_dispatch_key_event behave e path (result_context_stack res) w1 end = Ok w2 ∧ kept w1 w2) as (w2 & -> & K2).
  { destruct o; [by apply observers_ok|]. apply finish_key_event_ok; [done|by eapply kept_walkable]. }
  cbn [mbind outcome_bind]. unfold pending_input_changed.
  destruct (notify_ok PendingInputObservers OnPendingInput w2) as (w3 & -> & K3); [by eapply kept_frame_ok, Hok1|].
  exists w3. split; [done|]. etrans; [exact K1|]. by etrans.
Qed.
Lemma typed_ok e k id path w :
  frame_ok (rendered_frame (win w)) → id < length (nodes (tree_of w)) → walkable w path →
  ∃ w', dispatch_typed behave accepts_text_input e k id path w = Ok w' ∧ kept w w'.
Proof.
  intros Hok Hi Hp. unfold dispatch_typed. destruct (contexts_ok w Hok) as (cs & ->). cbn [mbind outcome_bind].
  assert (∃ w1, dispatch_keystroke_interceptors behave e cs (resume w) = Ok w1 ∧ kept (resume w) w1) as (w1 & -> & K1).
  { destruct e; simpl; try (by exists (resume w)). by apply notify_ok. }
  assert (K1' : kept w w1) by (destruct K1; by split). clear K1. cbn [mbind outcome_bind].
  pose proof (kept_frame_ok _ _ K1' Hok) as Hok1. pose proof (kept_walkable _ _ _ K1' Hp) as Hp1.
  destruct (propagate w1); cbn [negb].
  - destruct (take_pending w1) as [w2 p] eqn:Ht. pose proof (take_pending_kept _ _ _ Ht) as K2.
    assert (K : kept w w2) by (by etrans). pose proof (kept_frame_ok _ _ K Hok) as Hok2. pose proof (kept_walkable _ _ _ K Hp) as Hp2.
    destruct (walkable_contexts w2 path Hp2) as (cs2 & Hcs2).
    destruct (dispatch_key_spec (tree_of w2) (keymap (app w2)) path cs2 Hcs2 (length (pending_keystrokes p) + 1) (pending_keystrokes p) k)
      as (res & -> & _); [lia|]. cbn [mbind outcome_bind].
    assert (∃ w3, match to_replay res with [] => Ok w2 | replays => w ← replay_pending_input behave replays w2; Ok (resume w) end
      = Ok w3 ∧ kept w2 w3) as (w3 & -> & K3).
    { destruct (to_replay res) as [|r rs]; [by exists w2|]. destruct (replay_ok (r :: rs) w2 Hok2) as (w3 & -> & K3).
      eexists. split; [done|]. destruct K3. by split. }
    cbn [mbind outcome_bind]. assert (K' : kept w w3) by (by etrans). pose proof (kept_frame_ok _ _ K' Hok) as Hok3.
    destruct (pending res) as [|k' ks].
    + destruct (matches_ok e id path res w3 Hok3) as (w4 & -> & K4); [by eapply kept_node|by eapply kept_walkable|].
      exists w4. split; [done|by etrans].
    + destruct (hold_ok e res p w3 Hok3) as (w4 & -> & K4). exists w4. split; [done|by etrans].
  - destruct (contexts_ok w1 Hok1) as (cs1 & ->). cbn [mbind outcome_bind].
    destruct (finish_key_event_ok e path cs1 w1 Hok1 Hp1) as (w2 & -> & K2). exists w2. split; [done|by etrans].
Qed.
Lemma fire_timer_ok g w :
  view_ok (view w) → frame_ok (rendered_frame (win w)) → ∃ w', fire_timer behave g w = Ok w' ∧ kept w w'.
Proof.
  intros Hv Hok. unfold fire_timer. destruct (removed _); [by exists w|]. destruct (pending_of w) as [p|] eqn:Hp; [|by exists w].
  case_decide; [|by exists w]. case_decide; [|eexists; split; [done|by split]].
  assert (K : kept w (put_pending w None)) by (by split). pose proof (kept_frame_ok _ _ K Hok) as Hok1.
  destruct (focus_node_ok (put_pending w None) (focused (put_pending w None)) Hok1) as (id & -> & Hi). cbn [mbind outcome_bind].
  destruct (path_ok _ id Hok1 Hi) as (path & -> & Hpath). cbn [mbind outcome_bind].
  destruct (walkable_contexts _ path Hpath) as (cs & Hcs).
  destruct (flush_dispatch_spec (tree_of (put_pending w None)) (keymap (app w)) path cs Hcs (length (pending_keystrokes p)) (pending_keystrokes p))
    as (rs & E & _); [by apply (held_keys _ Hv)|done|]. change (keymap (app (put_pending w None))) with (keymap (app w)). rewrite E.
  cbn [mbind outcome_bind]. unfold pending_input_changed.
  destruct (notify_ok PendingInputObservers OnPendingInput _ Hok1) as (w2 & -> & K2). cbn [mbind outcome_bind].
  destruct (replay_ok rs w2) as (w3 & -> & K3); [by eapply kept_frame_ok|]. exists w3. split; [done|].
  etrans; [exact K|by etrans].
Qed.

(** ** Draws *)

(** A frame that nothing has been added to. *)
Definition cleared (f : Frame L V) : Prop := f = frame_clear f.
(** Elements that draw: from a cleared frame they make one that events can be dispatched in, and reuse what the last frame
    prepainted during prepaint only. *)
Record elements_ok : Prop := {
  elements_draw w : frame_ok (rendered_frame (win w)) → cleared (next_frame (win w)) →
    ∃ w', draw_roots prepaint paint w = Ok w' ∧ frame_ok (next_frame (win w')) ∧
      well_formed (dispatch_tree (rendered_frame (win w')));
  elements_reuse w o : o ∈ paint w → match o with FReusePrepaint _ _ => False | _ => True end;
}.
(** What holds of a window between events. *)
Record world_ok w : Prop := {
  world_view : view_ok (view w);
  world_frame : frame_ok (rendered_frame (win w));
  world_next : cleared (next_frame (win w));
  world_phase : draw_phase (draw_state (win w)) = NotDrawing;
  world_hit_test : hit_test_fresh w;
}.

Lemma hit_test_hitboxes (f f' : Frame L V) p : hitboxes f = hitboxes f' → hit_test f p = hit_test f' p.
Proof. unfold hit_test. by intros ->. Qed.
Lemma on_tree_kept w g w' : on_tree w g = Ok w' →
  mouse_position (pointer (win w')) = mouse_position (pointer (win w)) ∧ draw_phase (draw_state (win w')) = draw_phase (draw_state (win w)) ∧
  hitboxes (next_frame (win w')) = hitboxes (next_frame (win w)) ∧ mouse_hit_test (pointer (win w')) = mouse_hit_test (pointer (win w)).
Proof. unfold on_tree. by intros (? & _ & [= <-])%outcome_bind_ok. Qed.
(** What an element leaves alone: the pointer and the phase, and in the paint phase the hitboxes. *)
Lemma frame_op_kept w o w' : frame_op w o = Ok w' →
  mouse_position (pointer (win w')) = mouse_position (pointer (win w)) ∧ draw_phase (draw_state (win w')) = draw_phase (draw_state (win w)) ∧
  mouse_hit_test (pointer (win w')) = mouse_hit_test (pointer (win w)) ∧
  (draw_phase (draw_state (win w)) = Paint → match o with FReusePrepaint _ _ => False | _ => True end →
   hitboxes (next_frame (win w')) = hitboxes (next_frame (win w))).
Proof.
  destruct o; simpl; intros Ho; try (apply outcome_bind_ok in Ho as (u & Hu & Ho)); try (by simplify_eq);
    try (by apply on_tree_kept in Ho as (? & ? & ? & ?)).
  - simplify_eq. split; [done|]. split; [done|]. split; [done|]. intros Hp. unfold assert_phase in Hu. by rewrite Hp in Hu.
  - unfold set_focus_handle in Ho. apply outcome_bind_ok in Ho as (t & _ & [= <-]). by case_decide.
  - simplify_eq. unfold handle_input. by case_decide.
  - simplify_eq. unfold take_state. repeat case_match; done.
  - apply outcome_bind_ok in Ho as (acc & _ & ([[t src] r] & _ & [= <-])%outcome_bind_ok). done.
  - apply outcome_bind_ok in Ho as ([? ?] & _ & Ho).
    apply outcome_bind_ok in Ho as ([? ?] & _ & (? & _ & (? & _ & (? & _ & [= <-])%outcome_bind_ok)%outcome_bind_ok)%outcome_bind_ok).
    done.
  - unfold rollback in Ho. apply outcome_bind_ok in Ho as (t & _ & [= <-]). split; [done|]. split; [done|]. split; [done|].
    intros Hp. unfold assert_phase in Hu. by rewrite Hp in Hu.
  - pose proof (command_kept _ _ _ Ho) as []. by repeat split; [..|intros _ _; congruence].
Qed.
Lemma frame_ops_kept os' w w' : foldM frame_op w os' = Ok w' →
  mouse_position (pointer (win w')) = mouse_position (pointer (win w)) ∧ draw_phase (draw_state (win w')) = draw_phase (draw_state (win w)) ∧
  mouse_hit_test (pointer (win w')) = mouse_hit_test (pointer (win w)) ∧
  (draw_phase (draw_state (win w)) = Paint → (∀ o, o ∈ os' → match o with FReusePrepaint _ _ => False | _ => True end) →
   hitboxes (next_frame (win w')) = hitboxes (next_frame (win w))).
Proof.
  revert w. induction os' as [|o os' IH]; intros w; simpl; [by intros [= <-]|].
  intros (w1 & (Hp1 & Hd1 & Ht1 & Hh1)%frame_op_kept & (Hp2 & Hd2 & Ht2 & Hh2)%IH)%outcome_bind_ok.
  split; [congruence|]. split; [congruence|]. split; [congruence|]. intros Hp Hos. rewrite Hh2, Hh1; try done.
  - apply Hos, list_elem_of_here.
  - congruence.
  - intros o' Ho'. apply Hos. by apply list_elem_of_further.
Qed.
Lemma draw_roots_hit_test w w' : elements_ok → draw_roots prepaint paint w = Ok w' →
  mouse_hit_test (pointer (win w')) = hit_test (next_frame (win w')) (mouse_position (pointer (win w'))).
Proof.
  intros Hel. unfold draw_roots. intros (w1 & _ & (Hp & _ & Ht & Hh)%frame_ops_kept)%outcome_bind_ok.
  rewrite Hp, Ht. simpl. apply hit_test_hitboxes. symmetry. apply Hh; [done|]. intros o. apply (elements_reuse Hel).
Qed.

Lemma focus_path_ok (f : Frame L V) : well_formed (dispatch_tree f) → ∃ path, frame_focus_path f = Ok path.
Proof.
  intros Hwf. unfold frame_focus_path. destruct (frame_focus f) as [id|]; [|by eexists]. unfold focus_path, path_fuel.
  destruct (focusable_node_ids (dispatch_tree f) !! id) as [i|] eqn:E.
  - destruct (wf_focus _ Hwf _ _ E) as (n & Hn & _). pose proof (lookup_lt_Some _ _ _ Hn) as Hi.
    destruct (is_path_exists _ i (wf_ordered _ Hwf) Hi) as [s Hs].
    destruct (is_path_bound _ _ _ (wf_ordered _ Hwf) Hs) as (Hl & _ & _).
    rewrite (ancestors_spec _ _ s) by (done || lia). cbn [mbind outcome_bind].
    assert (Hr : Forall (λ j, is_Some (nodes (dispatch_tree f) !! j)) (rev (s ++ [i]))).
    { apply Forall_rev. apply is_path_in_range in Hs. eapply Forall_impl; [exact Hs|]. intros j Hj. by apply lookup_lt_is_Some. }
    assert (∃ ns, mapM_ok (node (dispatch_tree f)) (rev (s ++ [i])) = Ok ns) as [ns ->]; [|by eexists].
    clear -Hr. induction Hr as [|j l [n Hn] _ [ns IH]]; [by exists []|]. simpl.
    assert (node (dispatch_tree f) j = Ok n) as -> by (unfold node, index; by rewrite Hn). simpl. rewrite IH. by eexists.
  - rewrite Nat.add_1_r. cbn. by eexists.
Qed.
Lemma notify_focus_ok p c a b w :
  frame_ok (rendered_frame (win w)) → ∃ w' f, notify_focus behave p c a b w = Ok (w', f) ∧ kept w w'.
Proof.
  intros Hok. unfold notify_focus. case_decide; [|by eexists _, _].
  assert (∃ w1 f1, (if decide (p ≠ [] ∧ c = []) then w ← notify_set behave FocusLostListeners OnFocusLost w; Ok (w, focused w)
    else Ok (w, focused w)) = Ok (w1, f1) ∧ kept w w1) as (w1 & f1 & -> & K1).
  { case_decide; [|by eexists _, _]. destruct (notify_ok FocusLostListeners OnFocusLost w Hok) as (w1 & -> & K1). by eexists _, _. }
  cbn [mbind outcome_bind].
  match goal with |- context [notify_set _ _ ?c _] => destruct (notify_ok FocusListeners c w1) as (w2 & -> & K2); [by eapply kept_frame_ok|] end.
  eexists _, _. split; [done|by etrans].
Qed.
Lemma draw_ok w :
  elements_ok → frame_ok (rendered_frame (win w)) → cleared (next_frame (win w)) →
  ∃ w', draw behave prepaint paint w = Ok w' ∧ frame_ok (rendered_frame (win w')) ∧ cleared (next_frame (win w')) ∧
    draw_phase (draw_state (win w')) = NotDrawing ∧ hit_test_fresh w'.
Proof.
  intros Hel Hok Hcl. unfold draw.
  set (w0 := restore_input_handler _).
  assert (H0 : frame_ok (rendered_frame (win w0)) ∧ next_frame (win w0) = next_frame (win w)).
  { unfold w0, restore_input_handler. simpl. destruct (input_handler (win w)); [|done]. simpl. split; [|done]. destruct Hok. by split. }
  destruct H0 as [Hok0 Hn0]. destruct (elements_draw Hel w0 Hok0) as (w1 & E & Hok1 & Hwf1); [by rewrite Hn0|].
  pose proof (draw_roots_hit_test _ _ Hel E) as Hht. rewrite E. cbn [mbind outcome_bind]. clearbody w0. clear E Hok0 Hn0 w0.
  set (w2 := install_input_handler _).
  assert (H2 : frame_ok (next_frame (win w2)) ∧ rendered_frame (win w2) = rendered_frame (win w1) ∧ pointer (win w2) = pointer (win w1) ∧
    hitboxes (next_frame (win w2)) = hitboxes (next_frame (win w1))).
  { unfold w2, install_input_handler. simpl. destruct (take_last _) as [[h l]|]; simpl; (split; [destruct Hok1; by split|done]). }
  clearbody w2. destruct H2 as (Hok2 & Hr2 & Hp2 & Hh2). unfold frame_finish.
  destruct (finish_states _ _ _) as [sts olds].
  match goal with |- context [swap_frames ?x] => set (w3 := x) end.
  assert (H3 : frame_ok (next_frame (win w3)) ∧ well_formed (dispatch_tree (rendered_frame (win w3))) ∧ pointer (win w3) = pointer (win w1) ∧
    hitboxes (next_frame (win w3)) = hitboxes (next_frame (win w1))).
  { unfold w3. simpl. split; [destruct Hok2; by split|]. rewrite Hr2. done. }
  clearbody w3. destruct H3 as (Hok3 & Hwf3 & Hp3 & Hh3).
  destruct (focus_path_ok _ Hwf3) as [prev ->]. cbn [mbind outcome_bind].
  destruct (focus_path_ok (rendered_frame (win (swap_frames w3))) (frame_tree _ Hok3)) as [cur ->]. cbn [mbind outcome_bind].
  match goal with |- context [notify_focus behave prev cur ?a ?b (swap_frames w3)] =>
    destruct (notify_focus_ok prev cur a b (swap_frames w3) Hok3) as (w4 & fb & -> & K) end.
  cbn [mbind outcome_bind]. eexists. split; [done|].
  set (w5 := set_phase (set_refreshing (reset_cursor_style w4) false) NotDrawing).
  assert (K5 : rendered_frame (win w5) = rendered_frame (win w4) ∧ next_frame (win w5) = next_frame (win w4) ∧ pointer (win w5) = pointer (win w4) ∧
    draw_phase (draw_state (win w5)) = NotDrawing) by (unfold w5, reset_cursor_style; by destruct (hovered (win w4))).
  clearbody w5. destruct K5 as (Kr & Kn & Kp & Kd).
  assert (Hend : frame_ok (rendered_frame (win w5)) ∧ cleared (next_frame (win w5)) ∧ draw_phase (draw_state (win w5)) = NotDrawing ∧ hit_test_fresh w5).
  { rewrite Kr, Kn. destruct K as [K1 K2 K3 K4 _]. rewrite K1, K2. split; [done|]. split; [unfold cleared; reflexivity|]. split; [done|].
    unfold hit_test_fresh. rewrite Kr, Kp, K1, K3, K4. simpl. rewrite Hp3, Hht. by apply hit_test_hitboxes. }
  case_decide; [|done]. destruct (refresh_kept w5) as [R1 R2 R3 R4 R5]. unfold hit_test_fresh. by rewrite R1, R2, R3, R4, R5.
Qed.

(** ** Events *)

Definition base_ok w : Prop :=
  frame_ok (rendered_frame (win w)) ∧ cleared (next_frame (win w)) ∧ draw_phase (draw_state (win w)) = NotDrawing ∧ hit_test_fresh w.
Lemma kept_base w w' : kept w w' → base_ok w → base_ok w'.
Proof. intros [K1 K2 K3 K4 K5] (? & ? & ? & Hh). unfold base_ok, hit_test_fresh in *. by rewrite K1, K2, K3, K4, K5. Qed.
Lemma key_event_ok e w :
  elements_ok → base_ok w → ∃ w', dispatch_key_event behave prepaint paint accepts_text_input e w = Ok w' ∧ base_ok w'.
Proof.
  intros Hel Hb. unfold dispatch_key_event.
  assert (∃ w1, (if dirty (draw_state (win w)) then draw behave prepaint paint w else Ok w) = Ok w1 ∧ base_ok w1) as (w1 & -> & Hb1).
  { destruct (dirty _); [|by exists w]. destruct Hb as (Hok & Hcl & _). by apply draw_ok. }
  clear Hb w. cbn [mbind outcome_bind]. pose proof Hb1 as (Hok & _). destruct (focus_node_ok w1 (focused w1) Hok) as (id & -> & Hi).
  cbn [mbind outcome_bind]. destruct (path_ok w1 id Hok Hi) as (path & -> & Hp). cbn [mbind outcome_bind].
  assert (K : kept w1 (read_keystroke e w1).1) by (destruct e; simpl; [destruct (_ && _)|..]; by split).
  destruct (read_keystroke e w1) as [w2 typed]. simpl in K.
  pose proof (kept_frame_ok _ _ K Hok) as Hok2. pose proof (kept_walkable _ _ _ K Hp) as Hp2.
  assert (∃ w', match typed with
    | None => contexts ← window_context_stack w2; finish_dispatch_key_event behave e path contexts w2
    | Some typed => dispatch_typed behave accepts_text_input e typed id path w2 end = Ok w' ∧ kept w2 w') as (w' & -> & K').
  { destruct typed as [k|]; [apply typed_ok; [done|by eapply kept_node|done]|].
    destruct (contexts_ok w2 Hok2) as (cs & ->). by apply finish_key_event_ok. }
  exists w'. split; [done|]. eapply kept_base, Hb1. by etrans.
Qed.
Lemma mouse_event_ok e w :
  frame_ok (rendered_frame (win w)) → cleared (next_frame (win w)) → draw_phase (draw_state (win w)) = NotDrawing → propagate w = true →
  ∃ w', dispatch_mouse_event behave e w = Ok w' ∧ base_ok w'.
Proof.
  intros Hok Hcl Hd Hp. destruct (mouse_sweep e w Hok Hp) as (w' & ls & E & _ & Hr & _ & _ & Hf & _ & _ & Hn & Hph).
  exists w'. split; [done|]. unfold base_ok. by rewrite Hr, Hn, Hph.
Qed.
(** What the tracking of the pointer leaves alone. *)
Lemma track_kept e w : let '(w', e') := track platform e w in
  rendered_frame (win w') = rendered_frame (win w) ∧ next_frame (win w') = next_frame (win w) ∧
  draw_phase (draw_state (win w')) = draw_phase (draw_state (win w)) ∧ propagate w' = propagate w ∧
  (mouse_event e' = false → mouse_position (pointer (win w')) = mouse_position (pointer (win w)) ∧
     mouse_hit_test (pointer (win w')) = mouse_hit_test (pointer (win w))).
Proof.
  destruct e as [| | | | | | | | | |d|]; try done. destruct d as [pos paths|pos|pos| |]; simpl.
  - unfold restore_platform_drag. simpl. repeat case_match; simplify_eq/=; repeat case_match; simplify_eq/=; done.
  - done.
  - done.
  - unfold hand_restored_drag_to_platform, refresh. repeat case_match; simplify_eq/=; repeat case_match; done.
  - unfold end_platform_drag, refresh. repeat case_match; simplify_eq/=; done.
Qed.
Lemma promote_drag_ok e w : frame_ok (rendered_frame (win w)) →
  ∃ w', promote_external_drag_to_platform behave platform e w = Ok w' ∧ kept w w'.
Proof.
  intros Hok. unfold promote_external_drag_to_platform. destruct e as [| | | | | |pos btn m| | | | |]; try (by exists w).
  destruct btn as [[| | |]|]; try (by exists w). destruct (contains _ _); [by exists w|].
  destruct (negb _); [by exists w|]. destruct (active_drag _) as [[v st [src|]]|]; try (by exists w).
  set (w0 := put_active_drag w _). destruct (call_ok behave OnPayload src w0 NoActionType Hok) as (w1 & E & _).
  assert (K : kept w w1) by (etrans; [|exact (call_rel behave kept kept_closed _ _ _ _ E)]; by split).
  rewrite E. cbn [mbind outcome_bind]. destruct (_ && _); [|by exists w1]. unfold hand_active_drag_to_platform.
  destruct (active_drag (app w1)); [|by exists w1]. eexists. split; [done|]. etrans; [exact K|].
  etrans; [|apply refresh_kept]. by split.
Qed.
Lemma dispatch_event_ok e w :
  elements_ok → base_ok w → ∃ w', dispatch_event behave prepaint paint accepts_text_input platform e w = Ok w' ∧ base_ok w'.
Proof.
  intros Hel Hb. unfold dispatch_event.
  match goal with |- context [track platform e ?x] => set (w0 := x) end.
  assert (H0 : base_ok w0 ∧ propagate w0 = true).
  { split; [|done]. eapply kept_base, Hb. unfold w0. set (v := set_modality w _).
    trans v; [by split|]. case_decide; [|by split]. destruct (refresh_kept v). by split. }
  clearbody w0. clear Hb. destruct H0 as [(Hok & Hcl & Hd & Hf) Hp]. pose proof (track_kept e w0) as Ht.
  destruct (track platform e w0) as [w1 e1]. destruct Ht as (Hr & Hn & Hph & Hpr & Hm).
  assert (∃ w2, (if mouse_event e1 then dispatch_mouse_event behave e1 w1
    else if keyboard_event e1 then dispatch_key_event behave prepaint paint accepts_text_input e1 w1 else Ok w1) = Ok w2 ∧ base_ok w2)
    as (w2 & -> & Hb2).
  { destruct (mouse_event e1) eqn:Hme.
    - apply mouse_event_ok; congruence || by rewrite ?Hr, ?Hn.
    - destruct (Hm eq_refl) as [Hpos Hht]. assert (base_ok w1) as Hb1.
      { unfold base_ok, hit_test_fresh. rewrite Hr, Hn, Hph, Hpos, Hht. done. }
      destruct (keyboard_event e1); [by apply key_event_ok|by exists w1]. }
  cbn [mbind outcome_bind]. destruct (promote_drag_ok e1 w2) as (w3 & -> & K); [apply Hb2|].
  exists w3. split; [done|by eapply kept_base].
Qed.
Lemma run_deferred_ok w : base_ok w → ∃ w', run_deferred behave w = Ok w' ∧ base_ok w'.
Proof.
  intros Hb. unfold run_deferred. destruct (deferred (app w)) as [|d ds]; [by exists w|].
  assert (Hb0 : base_ok (put_deferred w ds)) by exact Hb. destruct (removed _); [by eexists|]. pose proof Hb0 as (Hok & _).
  destruct d as [|fid act|].
  - destruct (notify_ok PendingInputObservers OnPendingInput _ Hok) as (w' & E & K). exists w'. split; [exact E|by eapply kept_base].
  - destruct (focus_node_ok _ fid Hok) as (id & -> & Hi). cbn [mbind outcome_bind].
    destruct (action_ok act id _ Hok Hi) as (w' & -> & K). exists w'. split; [done|by eapply kept_base].
  - eexists. split; [done|]. exact Hb.
Qed.

(** C19: A window never panics, whatever happens to it, if its elements draw: if what they do from a cleared frame does
    not panic, leaves a frame that events can be dispatched in, and reuses prepainted parts during prepaint only.
    Between events the hit test is that of the frame on screen at the position of the mouse, the frame on screen can
    take events, the next frame is empty, nothing is being drawn, and focus and pending input fit together. *)
Theorem window_never_panics (ev : WindowEvent (L:=L) (A:=A)) w :
  elements_ok → world_ok w →
  ∃ w', window_step behave prepaint paint accepts_text_input platform w ev = Ok w' ∧ world_ok w'.
Proof.
  intros Hel [Hv Hok Hcl Hd Hh]. assert (Hb : base_ok w) by done.
  assert (∃ w', window_step behave prepaint paint accepts_text_input platform w ev = Ok w' ∧ base_ok w') as (w' & E & Ho' & Hc' & Hd' & Hh').
  { destruct ev as [e|g| | |cmds]; simpl.
    - by apply dispatch_event_ok.
    - destruct (fire_timer_ok g w Hv Hok) as (w' & -> & K). exists w'. split; [done|by eapply kept_base].
    - by apply run_deferred_ok.
    - destruct (draw_ok w Hel Hok Hcl) as (w' & -> & Hb'). by exists w'.
    - destruct (commands_ok cmds w Hok) as (w' & E & _). exists w'. split; [done|].
      eapply kept_base, Hb. by eapply (run_commands_rel kept kept_closed). }
  exists w'. split; [done|]. split; [|done..]. eapply moves_ok, Hv. by eapply window_step_moves.
Qed.
End window.

(** ** A window *)

(** Listeners, actions and element states are numbers.  Two elements can be focused; the first one has the key context X
    and an action listener, which moves the focus to the second one; the root has a key listener and a mouse listener. *)
Module Sample.
Import NumberedActions.
#[local] Instance linux : Target := Linux.
Definition key (c : char) : Keystroke.t := Keystroke.mk Modifiers.none [c] (Some [c]).
(** A binding of a sequence of keys. *)
Definition binding (keys : list char) (act : N) (context : option Predicate) : KeyBinding N :=
  mkBinding (User act) ((λ c, KeybindingKeystroke.mk (key c) None) <$> keys) context None None.
Definition shift_key : KeyBinding N :=
  mkBinding (User 3%N) [KeybindingKeystroke.mk (Keystroke.mk Modifiers.none (str "shift") None) None] None None None.
Definition elements (w : World nat N ()) : list (FrameOp nat N ()) :=
  [FPushNode; FPushNode; FFocusHandle 1; FPopNode; FPushNode; FFocusHandle 2; FPopNode; FPopNode].
Definition listeners (w : World nat N ()) : list (FrameOp nat N ()) :=
  [FActiveNode 0; FKeyListener 5; FMouseListener 6; FActionListener (type_id (User 3%N)) 9; FActiveNode 1;
   FKeyContext [mkEntry (str "X") None]; FActionListener (type_id (User 1%N)) 7].
Definition behave (l : nat) (c : Call N) (w : World nat N ()) : list (Command nat N) * bool :=
  (match l with 7 => [CFocus 2] | _ => [] end, true).
Definition platform : Platform nat (World nat N ()) :=
  mkPlatform 1 (size (Q2Qc (100 # 1)) (Q2Qc (100 # 1))) false (λ _, false) (λ _ _, false).
Definition shift : Modifiers.t := Modifiers.set_shift Modifiers.none true.
Definition origin : Point Qc := point (Q2Qc 0) (Q2Qc 0).

Definition root_frame : Frame nat () := frame_new (push_node tree_new).1.
Definition start (focus : option nat) (bindings : list (KeyBinding N)) : World nat N () :=
  mkWorld (mkWindow root_frame (frame_new tree_new) 1 (mkFocus focus true 0)
      (mkPointer origin (mkHitTest [] 0) None Modifiers.none false Mouse) (mkDrawState true NotDrawing 0 false)
      (mkKeys None (mkModifierState Modifiers.none false)) None false true true false)
    (mkApp true (keymap_new bindings) ∅ None None Never (λ _, set_new) [] 0 [] []).
Definition run (es : list PlatformInput) (w : World nat N ()) : outcome (World nat N ()) :=
  window_run behave elements listeners (λ _ _, false) platform (Input <$> es) w.
Definition type_key (c : char) : PlatformInput := KeyDown (mkKeyDown (key c) false false).
End Sample.
Import NumberedActions Sample.
#[local] Existing Instance Sample.linux.

(** The replay of the first key moves the focus to an element that has no binding for the second key; that key is held all
    the same, for the new focus, since it was matched against the bindings of the old one. *)
Example replay_moves_focus :
  (w ← run [type_key (ch "a"); type_key (ch "c")] (start (Some 1)
     [binding (str "a") 1 None; binding (str "ab") 2 None; binding (str "cd") 2 (Some (Identifier (str "X")))]);
   Ok (focused w, pending_input_keystrokes w)) = Ok (Some 2, Some [key (ch "c")]) ∧
  (w ← run [type_key (ch "c")] (start (Some 2)
     [binding (str "a") 1 None; binding (str "ab") 2 None; binding (str "cd") 2 (Some (Identifier (str "X")))]);
   Ok (focused w, pending_input_keystrokes w)) = Ok (Some 2, None).
Proof. split; vm_compute; done. Qed.

(** A click between the press and the release of a modifier does not count as other input: the action that is bound to
    the modifier alone runs. *)
Example click_with_modifier :
  (w ← run [ModifiersChanged shift false; MouseDown LeftButton origin shift 1; MouseUp LeftButton origin shift 1;
            ModifiersChanged Modifiers.none false] (start (Some 1) [shift_key]);
   Ok (last (log (app w)))) = Ok (Some (Called 9 (OnAction (User 3%N) Bubble))).
Proof. vm_compute. done. Qed.

(** ** Witnesses *)

Lemma root_frame_ok : frame_ok root_frame.
Proof.
  split; [apply (push_node_spec tree_new well_formed_new)|done|apply built_default|constructor].
Qed.
(** Elements that only make a root. *)
Definition root_only (w : World nat N ()) : list (FrameOp nat N ()) := [FPushNode].
Definition nothing (w : World nat N ()) : list (FrameOp nat N ()) := [].
Lemma root_only_ok : elements_ok root_only nothing.
Proof.
  split; [|by intros w o ?%elem_of_nil]. intros w Hok Hcl. eexists. split; [reflexivity|]. simpl.
  split; [|apply Hok]. rewrite Hcl. split; simpl; [apply (push_node_spec tree_new well_formed_new)|done|apply built_default|constructor].
Qed.
Lemma start_view_ok focus bindings : view_ok (view (start focus bindings)).
Proof. split; simpl; try done. by intros g ?%elem_of_nil. Qed.
Lemma start_ok focus bindings : world_ok (start focus bindings).
Proof. split; [apply start_view_ok|apply root_frame_ok|done|done|vm_compute; done]. Qed.

Lemma actions_run_in_order_witness :
  let w := put_global_action_listeners (start None []) {[type_id (User 3%N) := [4]]} in
  ∃ w' calls cmds, dispatch_action_on_node_inner behave 0 (User 3%N) w = Ok w' ∧
    turns behave (but_listeners (type_id (User 3%N))) calls (resume w) w' cmds ∧
    log (app w') = [Called 4 (OnGlobalAction (User 3%N) Capture); Called 4 (OnGlobalAction (User 3%N) Bubble)].
Proof.
  destruct (actions_run_in_order behave (User 3%N) 0
    (put_global_action_listeners (start None []) {[type_id (User 3%N) := [4]]}))
    as (w' & path & cmds & E & _ & _ & T & _); [apply root_frame_ok|simpl; lia|].
  exists w'. eexists _, cmds. split; [exact E|]. split; [exact T|]. vm_compute in E. injection E as <-. reflexivity.
Defined.

Lemma mouse_events_run_in_order_witness :
  let w := put_rendered_frame (start None []) (set_mouse_listeners root_frame [Some 6]) in
  let e := MouseUp LeftButton Sample.origin Modifiers.none 1 in
  ∃ w' ls, dispatch_mouse_event behave e w = Ok w' ∧
    mouse_listeners (rendered_frame (win w)) = Some <$> ls ∧ rendered_frame (win w') = rendered_frame (win w) ∧
    (∃ v cmds,
      turns behave eq (mouse_calls e Capture ls ++ mouse_calls e Bubble (rev ls)) (put_listeners (update_hit_test w) []) v cmds ∧
      w' = release_capture e (drag_follows e (put_listeners v (Some <$> ls)))) ∧
    hit_test_fresh (update_hit_test w) ∧ hit_test_fresh w' ∧
    mouse_position (pointer (win w')) = mouse_position (pointer (win w)) ∧
    (is_mouse_up e = true → captured_hitbox (pointer (win w')) = None ∧ active_drag (app w') = None) ∧
    next_frame (win w') = next_frame (win w) ∧ draw_phase (draw_state (win w')) = draw_phase (draw_state (win w)).
Proof.
  apply (mouse_events_run_in_order behave); [|done].
  destruct root_frame_ok as [H1 H2 H3 _]. split; [exact H1|exact H2|exact H3|]. by repeat constructor.
Defined.

Lemma window_refines_machine_witness :
  let w := start (Some 1) [] in
  let w' := focus_handle_ w 2 in
  rtc move (view w) (view w') ∧ view_ok (view w').
Proof.
  apply (window_refines_machine behave elements listeners (λ _ _, false) platform (Updated [CFocus 2]));
    [apply start_view_ok|reflexivity].
Defined.

Lemma disabled_focus_stays_witness :
  let w := disable_focus (start (Some 1) []) in
  focus_enabled (focus_state (win w)) = false ∧ focused w = None.
Proof.
  apply (disabled_focus_stays behave elements listeners (λ _ _, false) platform [Updated [CFocus 2]] (disable_focus (start (Some 1) [])));
    [|reflexivity..].
  split; simpl; try done. by intros g ?%elem_of_nil.
Defined.

Definition waiting : World nat N () :=
  put_generations (put_timers (put_pending (start (Some 1) []) (Some (mkPending [key (ch "a")] (Some 1) true true 0))) [0]) 1.
Lemma timers_flush_their_input_witness :
  pending_of waiting = Some (mkPending [key (ch "a")] (Some 1) true true 0) ∨ fire_timer behave 0 waiting = Ok waiting.
Proof.
  apply (timers_flush_their_input behave elements listeners (λ _ _, false) platform [DeferredRuns] waiting waiting
    (mkPending [key (ch "a")] (Some 1) true true 0)); [|reflexivity..].
  split; simpl; try (by intros p [= <-]).
  - intros g ->%list_elem_of_singleton. lia.
  - intros p [= <-]. simpl. lia.
  - intros p [= <-]. simpl. split; [done|]. rewrite list_elem_of_singleton. done.
Defined.

Lemma lone_modifier_is_a_keystroke_witness :
  (read_keystroke (ModifiersChanged Modifiers.none false) (read_all [ModifiersChanged shift false] (start None []))).2
    = Some (Keystroke.mk Modifiers.none (str "shift") None).
Proof.
  exact (lone_modifier_is_a_keystroke (start None []) shift false [] Modifiers.none false eq_refl eq_refl
    (Forall_nil_2 _) eq_refl).
Defined.

Lemma window_never_panics_witness :
  ∃ w', window_step behave root_only nothing (λ _ _, false) platform (start None []) (Input (type_key (ch "a"))) = Ok w' ∧ world_ok w'.
Proof.
  apply (window_never_panics behave root_only nothing (λ _ _, false) platform); [apply root_only_ok|apply start_ok].
Defined.
