(* ===== verification/InteractivityTheorems.v ===== *)
(** What the listeners of an element make of mouse and key events: a press becomes one click or one drag, the keyboard
    clicks after a clean press of an activation key, hovers alternate, drops go to one listener, and tooltips wait. *)
From Stdlib Require Import ZArith QArith Qcanon String.
From stdpp Require Import gmap.
From S2P Require Import Prelude Chars KeyContext Predicate Keystroke Binding Keymap DispatchTree TabStops Subscription Geometry Pixels Window WindowTheorems Interactivity.
Local Open Scope nat_scope.

Section theorems.
Context {L A V : Type} `{UserAction A} {os : Target}.
Context (react : L → ElementCall → World L A V → list (Command L A)) (accepts_drop : L → nat → World L A V → bool)
  (type_of_value : nat → TypeId) (has_active_prompt tooltip_is_hovered : World L A V → bool).
Implicit Types s : State L A V.
Notation deliver := (deliver react accepts_drop type_of_value has_active_prompt tooltip_is_hovered).
Notation step := (step react accepts_drop type_of_value has_active_prompt tooltip_is_hovered).
Notation run := (run react accepts_drop type_of_value has_active_prompt tooltip_is_hovered).

(** ** The application's code *)

(** It leaves the element alone, but for its entries in the trace. *)
Definition user_entries (tr : list (Entry L)) : Prop := Forall (λ e, ∃ l c, e = UserCall l c) tr.
Definition only_user s s' : Prop :=
  cells s' = cells s ∧ closures s' = closures s ∧ tasks s' = tasks s ∧ ∃ tr, trace s' = trace s ++ tr ∧ user_entries tr.
Lemma only_user_refl s : only_user s s.
Proof. repeat split. exists []. split; [by rewrite app_nil_r|constructor]. Qed.
Lemma only_user_trans s1 s2 s3 : only_user s1 s2 → only_user s2 s3 → only_user s1 s3.
Proof.
  intros (E1 & E2 & E3 & tr1 & E4 & H1) (F1 & F2 & F3 & tr2 & F4 & H2). repeat split; [congruence..|].
  exists (tr1 ++ tr2). split; [by rewrite F4, E4, app_assoc|by apply Forall_app].
Qed.
Lemma user_spec c s l s' : user react c s l = Ok s' → trace s' = trace s ++ [UserCall l c] ∧ only_user s s'.
Proof.
  unfold user. intros (w & _ & [= <-])%outcome_bind_ok. split; [done|]. repeat split. exists [UserCall l c].
  split; [done|]. repeat constructor. by eexists _, _.
Qed.
Lemma users_spec c ls s s' : users react c ls s = Ok s' → trace s' = trace s ++ ((λ l, UserCall l c) <$> ls) ∧ only_user s s'.
Proof.
  unfold users. revert s. induction ls as [|l ls IH]; simpl; intros s.
  - intros [= <-]. split; [by rewrite app_nil_r|apply only_user_refl].
  - intros (s1 & [E1 H1]%user_spec & [E2 H2]%IH)%outcome_bind_ok. split; [|by eapply only_user_trans].
    by rewrite E2, E1, <-app_assoc.
Qed.

(** ** The machine of an element *)

(** What an element remembers between events: the press that is pending, the one that a release has captured, whether its
    hover listener was told of a hover, its tooltip, and how many tasks it has spawned. *)
Record View : Type := mkView {
  v_pending : option MouseDownEvent; v_captured : option MouseDownEvent; v_hovered : bool;
  v_tooltip : option (ActiveTooltip L); v_tasks : nat }.
Definition view s : View :=
  mkView (pending_mouse_down (cells s)) (captured_mouse_down (closures s)) (hover_listener_state (cells s))
    (active_tooltip (cells s)) (tasks s).
(** What can happen to that, and the entry that is emitted.  A press is taken, is dragged, or is captured by a release
    over the element and then clicked; otherwise it is forgotten, like what a frame before has captured. *)
Inductive move : View → list (Entry L) → View → Prop :=
  | press_taken p c h t n d : move (mkView p c h t n) [Pressed d] (mkView (Some d) c h t n)
  | press_dragged c h t n d : move (mkView (Some d) c h t n) [Dragged d] (mkView None c h t n)
  | press_captured c h t n d : move (mkView (Some d) c h t n) [] (mkView None (Some d) h t n)
  | press_forgotten p c h t n : move (mkView p c h t n) [] (mkView None c h t n)
  | press_clicked p h t n d u : move (mkView p (Some d) h t n) [Clicked d u] (mkView p None h t n)
  | frame_drawn p c h t n : move (mkView p c h t n) [] (mkView p None h t n)
  | hover_changed p c h t n l : move (mkView p c h t n) [UserCall l (OnHover (negb h))] (mkView p c (negb h) t n)
  | tooltip_scheduled p c h n : move (mkView p c h None n) [TooltipScheduled n] (mkView p c h (Some (WaitingForShow n)) (n + 1))
  | moved_off p c h t n : (∀ k, t ≠ Some (WaitingForShow k)) → move (mkView p c h t n) [MovedOff] (mkView p c h t n)
  | show_cancelled p c h k n : move (mkView p c h (Some (WaitingForShow k)) n) [MovedOff] (mkView p c h None n)
  | tooltip_shown p c h t b k n :
      move (mkView p c h (Some (WaitingForShow k)) n) [TooltipShown k] (mkView p c h (Some (Visible t b)) n)
  | tooltip_dropped p c h t n : move (mkView p c h t n) [] (mkView p c h None n)
  | hide_scheduled p c h t b n : move (mkView p c h (Some (Visible t b)) n) [] (mkView p c h (Some (WaitingForHide t n)) (n + 1))
  | hide_cancelled p c h t k n : move (mkView p c h (Some (WaitingForHide t k)) n) [] (mkView p c h (Some (Visible t true)) n).
(** The element is left out of a frame. *)
Definition dropped (v : View) : View := mkView None None false None (v_tasks v).
Inductive moves : View → list (Entry L) → View → Prop :=
  | moves_nil v : moves v [] v
  | moves_cons v1 es v2 tr v3 : move v1 es v2 → moves v2 tr v3 → moves v1 (es ++ tr) v3.
Lemma moves_one v1 es v2 : move v1 es v2 → moves v1 es v2.
Proof. intros Hm. rewrite <-(app_nil_r es). eapply moves_cons, moves_nil. exact Hm. Qed.
Lemma moves_app v1 t1 v2 t2 v3 : moves v1 t1 v2 → moves v2 t2 v3 → moves v1 (t1 ++ t2) v3.
Proof. induction 1; [done|]. intros H2. rewrite <-app_assoc. eapply moves_cons; eauto. Qed.

(** The entries that the machine emits: all but the other calls of the application's code. *)
Definition machine_entry (e : Entry L) : bool :=
  match e with UserCall _ (OnHover _) => true | UserCall _ _ => false | _ => true end.
(** A part of a step does what moves of the machine do. *)
Definition sim s s' : Prop := ∃ tr, trace s' = trace s ++ tr ∧ moves (view s) (filter machine_entry tr) (view s').
Lemma sim_refl s : sim s s.
Proof. exists []. split; [by rewrite app_nil_r|constructor]. Qed.
Lemma sim_trans s1 s2 s3 : sim s1 s2 → sim s2 s3 → sim s1 s3.
Proof.
  intros (t1 & E1 & M1) (t2 & E2 & M2). exists (t1 ++ t2). rewrite filter_app. split; [by rewrite E2, E1, app_assoc|].
  by eapply moves_app.
Qed.
(** The machine stands still. *)
Lemma sim_still s s' : view s' = view s → trace s' = trace s → sim s s'.
Proof. intros E1 E2. exists []. rewrite E1, E2, app_nil_r. split; [done|constructor]. Qed.
(** One move, with its entry. *)
Lemma sim_move s s' es : trace s' = trace s ++ es → filter machine_entry es = es → move (view s) es (view s') → sim s s'.
Proof. intros E F M. exists es. split; [done|]. rewrite F. by apply moves_one. Qed.
Ltac still := solve [apply sim_refl | apply sim_still; reflexivity].
(** A move that emits nothing. *)
Ltac silent := eapply (sim_move _ _ []); [symmetry; apply app_nil_r|reflexivity|].

Definition hover_call (c : ElementCall) : bool := match c with OnHover _ => true | _ => false end.
Lemma user_sim c s l s' : hover_call c = false → user react c s l = Ok s' → sim s s'.
Proof.
  intros Hc [E (E1 & E2 & E3 & _)]%user_spec. exists [UserCall l c]. split; [done|].
  unfold view. rewrite E1, E2, E3. by destruct c; try constructor.
Qed.
Ltac by_user := match goal with E : user _ _ _ _ = Ok _ |- _ => refine (user_sim _ _ _ _ _ E); reflexivity end.
Lemma users_sim c ls s s' : hover_call c = false → users react c ls s = Ok s' → sim s s'.
Proof.
  intros Hc. revert s. induction ls as [|l ls IH]; unfold users; simpl; intros s; [intros [= <-]; apply sim_refl|].
  intros (s1 & E1 & E2)%outcome_bind_ok. eapply sim_trans; [by eapply user_sim|by apply IH].
Qed.

Lemma user_mouse_sim m e ph s s' : user_mouse react type_of_value has_active_prompt m e ph s = Ok s' → sim s s'.
Proof.
  assert (Hl : ∀ o, (match o with Some l => user react (OnEvent e) s l | None => Ok s end) = Ok s' → sim s s').
  { intros [l|]; [by apply user_sim|]. intros [= <-]. apply sim_refl. }
  unfold user_mouse. destruct m, e; try apply Hl; clear Hl.
  - destruct (dragging s); [|intros [= <-]; still]. destruct (_ && _); [by apply user_sim|intros [= <-]; still].
  - destruct (is_capture ph); [by apply user_sim|]. intros [= <-]. still.
Qed.
Lemma drop_on_sim ty ls s s' : drop_on react accepts_drop ty ls s = Ok s' → sim s s'.
Proof.
  revert s. induction ls as [|[ty' l] ls IH]; simpl; intros s; [intros [= <-]; still|].
  destruct (decide (ty' = ty)); [|apply IH]. intros (d & _ & Hs)%outcome_bind_ok.
  eapply (sim_trans _ (put_world s (put_active_drag (world s) None))); [still|]. set (s1 := put_world s _) in *. clearbody s1.
  apply outcome_bind_ok in Hs as ([s2 b] & E & Hs). apply (sim_trans _ s2).
  { destruct (can_drop_predicate _); [|injection E as <- _; still].
    apply outcome_bind_ok in E as (s3 & E3 & [= <- _]). by_user. }
  apply outcome_bind_ok in Hs as (s3 & E3 & Hs%IH). eapply sim_trans, Hs.
  destruct b; [|injection E3 as <-; still]. apply outcome_bind_ok in E3 as (s4 & E4 & [= <-]).
  eapply sim_trans; [by_user|]. still.
Qed.
Lemma drop_sim ph s s' : drop react accepts_drop type_of_value ph s = Ok s' → sim s s'.
Proof.
  unfold drop. destruct (dragging s); [|intros [= <-]; still].
  destruct (_ && _); [apply drop_on_sim|intros [= <-]; still].
Qed.
Lemma update_hover_sim l b s s' : update_hover react l b s = Ok s' → sim s s'.
Proof.
  unfold update_hover. destruct (Bool.eqb b _) eqn:Hb; [intros [= <-]; still|].
  intros [E (E1 & E2 & E3 & _)]%user_spec. apply (sim_move _ _ [UserCall l (OnHover b)]); [done..|].
  unfold view. rewrite E1, E2, E3. simpl. apply eqb_false_iff in Hb.
  replace b with (negb (hover_listener_state (cells s))) by (by destruct b, (hover_listener_state (cells s))). constructor.
Qed.
Lemma press_down_sim d ph s : sim s (press_down d ph s).
Proof.
  unfold press_down. destruct (_ && hovers s); [|still]. apply (sim_move _ _ [Pressed d]); [done..|constructor].
Qed.
Lemma start_drag_sim p ph s s' : start_drag react p ph s = Ok s' → sim s s'.
Proof.
  unfold start_drag. destruct ph; [|intros [= <-]; still].
  destruct (pending_mouse_down (cells s)) as [d|] eqn:Hp; [|intros [= <-]; still].
  destruct (drag_listener (closures s)) as [l|]; [|intros [= <-]; still].
  destruct (_ && _); [|intros [= <-]; still]. destruct (decide _); [|intros [= <-]; still].
  set (s1 := put_clicked (put_drag_listener s None) not_clicked). intros (s2 & Hu & [= <-])%outcome_bind_ok.
  eapply (sim_trans _ s1); [still|]. apply user_spec in Hu as Hw. destruct Hw as [_ (E1 & _)].
  eapply sim_trans; [by_user|]. eapply (sim_move _ _ [Dragged d]); [done..|].
  unfold view. simpl. rewrite E1. simpl. rewrite Hp. constructor.
Qed.
Lemma release_sim u ph s s' : release react u ph s = Ok s' → sim s s'.
Proof.
  unfold release. destruct ph.
  - destruct (captured_mouse_down (closures s)) as [d|] eqn:Hc; [|intros [= <-]; still].
    intros Hu%users_sim; [|done]. eapply sim_trans, Hu. apply (sim_move _ _ [Clicked d u]); [done..|].
    unfold view. simpl. rewrite Hc. constructor.
  - destruct (pending_mouse_down (cells s)) as [d|] eqn:Hp; [|intros [= <-]; still]. intros [= <-].
    destruct (hovers s); silent; unfold view; simpl; rewrite Hp; constructor.
Qed.
Lemma clear_tooltip_sim s : sim s (clear_active_tooltip s).
Proof. unfold clear_active_tooltip. destruct (active_tooltip (cells s)) as [[]|]; silent; constructor. Qed.
Lemma tooltip_pressed_sim s : sim s (tooltip_pressed tooltip_is_hovered s).
Proof.
  unfold tooltip_pressed, clear_active_tooltip_if_not_hoverable. destruct (tooltip_is_hovered _); [still|].
  destruct (active_tooltip (cells s)) as [[?|? []|? ?]|]; try still. silent. constructor.
Qed.
Lemma tooltip_move_sim ph s : sim s (handle_tooltip_mouse_move tooltip_is_hovered ph s).
Proof.
  unfold handle_tooltip_mouse_move. destruct (check_is_hovered s) eqn:Hh.
  - rewrite Hh. destruct (active_tooltip (cells s)) as [[k|t b|t k]|] eqn:Ht; try still.
    + destruct (_ && _); still.
    + destruct (_ && _); still.
    + destruct (_ && _); [|still]. apply (sim_move _ _ [TooltipScheduled (tasks s)]); [done..|].
      unfold view. simpl. rewrite Ht. constructor.
  - replace (check_is_hovered (add_entry s MovedOff)) with false by (by rewrite <-Hh). cbn [add_entry cells].
    destruct (active_tooltip (cells s)) as [[k|t b|t k]|] eqn:Ht; cbn [andb orb negb];
      repeat match goal with |- context [if ?b then _ else _] => destruct b end;
      apply (sim_move _ _ [MovedOff]); try reflexivity; unfold view; simpl; rewrite Ht; by constructor.
Qed.

Lemma deliver_sim x e ph s s' : deliver x e ph s = Ok s' → sim s s'.
Proof.
  intros Hd. destruct x; cbn [Interactivity.deliver] in Hd; try (by eapply user_mouse_sim);
    destruct e; try (injection Hd as <-; still); cbn in Hd;
    try (by eapply drop_sim); try (by eapply start_drag_sim); try (by eapply release_sim).
  - injection Hd as <-. unfold notify_group_hover. destruct (_ && _); still.
  - injection Hd as <-. unfold focus_on_down. destruct (_ && _); still.
  - injection Hd as <-. unfold track_hover. destruct (hover_state _); [destruct (_ && _)|]; still.
  - injection Hd as <-. unfold track_group_hover. destruct (hover_state _); [destruct (_ && _)|]; still.
  - injection Hd as <-. apply press_down_sim.
  - unfold hover_move in Hd. destruct (is_bubble ph); [by eapply update_hover_sim|]. injection Hd as <-. still.
  - unfold hover_exit in Hd. destruct (is_bubble ph); [by eapply update_hover_sim|]. injection Hd as <-. still.
  - injection Hd as <-. apply tooltip_move_sim.
  - injection Hd as <-. apply tooltip_pressed_sim.
  - injection Hd as <-. apply tooltip_pressed_sim.
  - injection Hd as <-. unfold release_active. destruct (_ && _); still.
  - injection Hd as <-. unfold press_active. destruct (_ && _); [destruct (_ || _)|]; still.
Qed.
Lemma key_sim x e ph s s' : deliver_key react x e ph s = Ok s' → sim s s'.
Proof.
  destruct x, e; try (intros [= <-]; still); simpl.
  - intros [= <-]. unfold activate_down. destruct (_ && _); still.
  - unfold activate_up. destruct (_ && _); [|intros [= <-]; still].
    destruct (activation_key _); [|intros [= <-]; still]. destruct (plain _); [|intros [= <-]; still].
    destruct (decide _); [|intros [= <-]; still]. intros Hu%users_sim; [|done]. eapply sim_trans, Hu. still.
Qed.
Lemma show_sim b t s s' : show_tooltip react b t s = Ok s' → sim s s'.
Proof.
  unfold show_tooltip. destruct (active_tooltip _) as [[t'|? ?|? ?]|] eqn:Ht; try (intros [= <-]; still).
  destruct (decide _) as [->|]; [|intros [= <-]; still]. intros (s1 & Hu & [= <-])%outcome_bind_ok.
  apply user_spec in Hu as Hw. destruct Hw as [_ (E1 & _)]. eapply sim_trans; [by_user|].
  apply (sim_move _ _ [TooltipShown t]); [done..|]. unfold view. simpl. rewrite E1, Ht. constructor.
Qed.
Lemma layout_sim i s : sim s (request_layout i s).
Proof. unfold request_layout. destruct (_ && _); [|still]. silent. constructor. Qed.
Lemma prepaint_sim i s : sim s (prepaint i s).
Proof.
  unfold prepaint. destruct (stateful i); [|still]. destruct (_ || _), (bool_decide (tooltip_builder i = None)); try still;
    silent; constructor.
Qed.
Lemma paint_sim i h g v s : sim s (paint i h g v s).
Proof. unfold paint. silent. destruct v; constructor. Qed.
Lemma check_sim b bs s : sim s (check_visible_and_update b bs s).1.
Proof.
  unfold check_visible_and_update. simpl. destruct (active_tooltip _) as [[k|t b'|t k]|] eqn:Ht; try still;
    match goal with |- context [if ?b then _ else _] => destruct b end; try still.
  - destruct b; [|apply clear_tooltip_sim]. silent. unfold view. simpl. rewrite Ht. constructor.
  - silent. unfold view. simpl. rewrite Ht. constructor.
Qed.
Lemma step_sim s s' : step s s' → sim s s'.
Proof.
  destruct 1 as [x e ph s' _ Hd|x e ph s' _ Hd|w|i h g v w1 w2|b t s' _ Hd|t|b bs].
  - by eapply deliver_sim.
  - by eapply key_sim.
  - still.
  - eapply sim_trans, paint_sim. apply (sim_trans _ (prepaint i (put_world (request_layout i s) w1))); [|still].
    eapply sim_trans, prepaint_sim. eapply sim_trans; [apply layout_sim|]. still.
  - by eapply show_sim.
  - unfold hide_tooltip. destruct (active_tooltip _) as [[]|]; try still. destruct (decide _); [|still]. silent. constructor.
  - apply check_sim.
Qed.
Definition machine_trace s : list (Entry L) := filter machine_entry (trace s).
(** A property of what the machine remembers and has emitted that its moves, and frames without the element, keep. *)
Lemma step_keeps (P : View → list (Entry L) → Prop) s s' :
  (∀ v es v' tr, move v es v' → P v tr → P v' (tr ++ es)) → step s s' →
  P (view s) (machine_trace s) → P (view s') (machine_trace s').
Proof.
  intros Hm (tr & E & M)%step_sim. unfold machine_trace. rewrite E, filter_app.
  generalize (filter machine_entry (trace s)). clear E. induction M as [v|v1 es v2 t v3 M1 _ IH]; intros l HP.
  - by rewrite app_nil_r.
  - rewrite app_assoc. apply IH. by eapply Hm.
Qed.
Lemma run_keeps (P : View → list (Entry L) → Prop) s s' :
  (∀ v es v' tr, move v es v' → P v tr → P v' (tr ++ es)) → (∀ v tr, P v tr → P (dropped v) tr) →
  run s s' → P (view s) (machine_trace s) → P (view s') (machine_trace s').
Proof.
  intros Hm Hd. induction 1 as [|s1 s2 s3 Hs _ IH]; [done|]. intros HP. apply IH. clear IH.
  destruct Hs as [Hs|[h ->]]; [by eapply step_keeps|]. exact (Hd _ _ HP).
Qed.

(** ** Presses *)

Definition pressed_of (tr : list (Entry L)) : list MouseDownEvent :=
  omap (λ e, match e with Pressed d => Some d | _ => None end) tr.
Definition consumed_of (tr : list (Entry L)) : list MouseDownEvent :=
  omap (λ e, match e with Clicked d _ | Dragged d => Some d | _ => None end) tr.
Lemma omap_machine {X} (f : Entry L → option X) (tr : list (Entry L)) :
  (∀ e, machine_entry e = false → f e = None) → omap f (filter machine_entry tr) = omap f tr.
Proof.
  intros Hf. induction tr as [|e tr IH]; [done|]. rewrite filter_cons. destruct (decide (machine_entry e)) as [He|He]; simpl.
  - destruct (f e); [f_equal|]; exact IH.
  - rewrite (Hf e) by (by destruct (machine_entry e)). exact IH.
Qed.
Definition accounted (v : View) (tr : list (Entry L)) : Prop :=
  consumed_of tr ++ option_list (v_pending v) ++ option_list (v_captured v) ⊆+ pressed_of tr.
Lemma move_accounted v es v' tr : move v es v' → accounted v tr → accounted v' (tr ++ es).
Proof.
  unfold accounted. intros Hm. unfold consumed_of, pressed_of. rewrite !omap_app.
  generalize (omap (λ e, match e with Pressed d => Some d | _ => None end) tr) as P.
  generalize (omap (λ e, match e with Clicked d _ | Dragged d => Some d | _ => None end) tr) as C. intros C P Ha.
  destruct Hm; simpl in *; rewrite ?app_nil_r; try done.
  - rewrite <-Permutation_middle, <-Permutation_cons_append. apply submseteq_skip. etrans; [|exact Ha].
    apply submseteq_app; [done|]. by apply submseteq_inserts_l.
  - by rewrite <-app_assoc.
  - etrans; [|exact Ha]. apply submseteq_app; [done|]. simpl. apply submseteq_skip, submseteq_nil_l.
  - etrans; [|exact Ha]. apply submseteq_app; [done|]. by apply submseteq_inserts_l.
  - by rewrite <-app_assoc, (Permutation_app_comm [d]).
  - etrans; [|exact Ha]. apply submseteq_app; [done|]. by apply submseteq_inserts_r.
Qed.

(** C20: A press of the mouse becomes at most one click or one drag, never both: whatever listeners, frames and other code do,
    the presses that were clicked or dragged are, each counted as often as it occurs, among those that the element took. *)
Theorem a_press_is_a_click_or_a_drag s0 s :
  trace s0 = [] → pending_mouse_down (cells s0) = None → captured_mouse_down (closures s0) = None → run s0 s →
  consumed_of (trace s) ⊆+ pressed_of (trace s).
Proof.
  intros Ht Hp Hc Hr.
  assert (accounted (view s) (machine_trace s)) as Ha.
  { apply (run_keeps accounted s0 s); [apply move_accounted| |exact Hr|].
    - unfold accounted. simpl. intros v tr Ha. etrans; [|exact Ha]. rewrite app_nil_r. by apply submseteq_inserts_r.
    - unfold accounted, machine_trace. rewrite Ht. simpl. by rewrite Hp, Hc. }
  unfold accounted, machine_trace, consumed_of, pressed_of in Ha.
  rewrite !omap_machine in Ha by (by intros []). etrans; [|exact Ha]. by apply submseteq_inserts_r.
Qed.

(** Application code that never panics. *)
Definition safe_code : Prop := ∀ l c w, ∃ w', run_commands (react l c w) w = Ok w'.
Lemma user_safe c s l : safe_code → ∃ s', user react c s l = Ok s'.
Proof. intros Hs. unfold user. destruct (Hs l c (world s)) as [w ->]. by eexists. Qed.
Lemma users_safe c ls s : safe_code → ∃ s', users react c ls s = Ok s'.
Proof.
  intros Hs. unfold users. revert s. induction ls as [|l ls IH]; simpl; intros s; [by eexists|].
  destruct (user_safe c s l Hs) as [s1 ->]. exact (IH s1).
Qed.

(** Pressing and releasing the mouse over an element clicks it: if the press is the last thing that happened to the
    pending press until the release reaches the element, and the element is under the mouse both times, the listeners for
    the button that was pressed are called once each, in order, with the two events. *)
Theorem press_and_release_click d u s s1 s2 s3 :
  safe_code → hovers s = true → down_button d = LeftButton ∨ aux_click_listeners (self s) ≠ [] →
  pending_mouse_down (cells s1) = pending_mouse_down (cells (press_down d Bubble s)) → hovers s1 = true →
  release react u Capture s1 = Ok s2 → captured_mouse_down (closures s3) = captured_mouse_down (closures s2) →
  ∃ s4, release react u Bubble s3 = Ok s4 ∧
    trace s4 = trace s3 ++ Clicked d u ::
      ((λ l, UserCall l (OnClick (MouseClick d u))) <$>
        match down_button d with LeftButton => click_listeners (self s3) | _ => aux_click_listeners (self s3) end).
Proof.
  intros Hsafe Hh Hb Hp Hh1 Hr Hc.
  assert (pending_mouse_down (cells s1) = Some d) as Hd.
  { rewrite Hp. unfold press_down. rewrite Hh. destruct Hb as [Hb|Hb]; rewrite (bool_decide_eq_true_2 _ Hb), ?orb_true_r; done. }
  unfold release in Hr. rewrite Hd, Hh1 in Hr. injection Hr as <-. simpl in Hc.
  unfold release. rewrite Hc.
  match goal with |- context [users _ ?c ?ls ?s'] => destruct (users_safe c ls s' Hsafe) as [s4 E] end.
  exists s4. split; [exact E|]. apply users_spec in E as [-> _]. simpl. by rewrite <-app_assoc.
Qed.

(** ** Hovers *)

Definition hovers_of (tr : list (Entry L)) : list bool :=
  omap (λ e, match e with UserCall _ (OnHover b) => Some b | _ => None end) tr.
Fixpoint alternates (b : bool) (l : list bool) : Prop :=
  match l with [] => True | b' :: l => b' = b ∧ alternates (negb b) l end.
Lemma alternates_snoc b l : alternates b l → alternates b (l ++ [Nat.iter (length l) negb b]).
Proof.
  revert b. induction l as [|b1 l IH]; intros b; [done|]. intros [-> Hl]. split; [done|].
  cbn [length app]. rewrite Nat.iter_succ_r. by apply IH.
Qed.
Lemma alternates_last h l : alternates (negb h) l → default h (last l) = Nat.iter (length l) negb h.
Proof.
  revert h. induction l as [|b l IH]; intros h; [done|]. intros [-> Hl]. cbn [length]. rewrite Nat.iter_succ_r, <-(IH (negb h) Hl).
  rewrite last_cons. by destruct (last l).
Qed.
Definition told (h : bool) (v : View) (tr : list (Entry L)) : Prop :=
  ∃ l, hovers_of tr = l ∧ alternates (negb h) l ∧ v_hovered v = Nat.iter (length l) negb h.
Lemma move_told h v es v' tr : move v es v' → told h v tr → told h v' (tr ++ es).
Proof.
  intros Hm (l & E & Ha & Hv). unfold told, hovers_of. rewrite omap_app. change (omap _ tr) with (hovers_of tr). rewrite E.
  destruct Hm; simpl in *; rewrite ?app_nil_r; try by exists l.
  exists (l ++ [negb h0]). split; [done|]. subst h0. split.
  - replace (negb (Nat.iter (length l) negb h)) with (Nat.iter (length l) negb (negb h)); [by apply alternates_snoc|].
    by rewrite <-Nat.iter_succ_r, Nat.iter_succ.
  - by rewrite length_app, Nat.add_1_r, Nat.iter_succ.
Qed.

(** The hover listener of an element hears of changes only: while the element stays in every frame, the calls of the
    listener alternate, beginning with the opposite of what it was last told, and end with what the element remembers. *)
Theorem hover_calls_alternate s0 s :
  trace s0 = [] → rtc step s0 s →
  let calls := hovers_of (trace s) in
  alternates (negb (hover_listener_state (cells s0))) calls ∧
  default (hover_listener_state (cells s0)) (last calls) = hover_listener_state (cells s).
Proof.
  intros Ht Hr. assert (told (hover_listener_state (cells s0)) (view s) (machine_trace s)) as (l & E & Ha & Hv).
  { assert (told (hover_listener_state (cells s0)) (view s0) (machine_trace s0)) as H0.
    { exists []. unfold machine_trace. by rewrite Ht. }
    revert H0. generalize (hover_listener_state (cells s0)) as h. clear Ht. intros h.
    induction Hr as [|s1 s2 s3 Hs _ IH]; [done|]. intros H1. apply IH. revert H1. apply step_keeps; [|done]. apply move_told. }
  unfold machine_trace, hovers_of in E. rewrite omap_machine in E by (intros [| | |? []| | |]; done).
  unfold hovers_of. cbn zeta. rewrite E. split; [done|]. rewrite (alternates_last _ _ Ha). symmetry. exact Hv.
Qed.

(** ** Tooltips *)

Definition hovered_since (tr : list (Entry L)) (k : nat) : Prop := ∃ t1 t2, tr = t1 ++ TooltipScheduled k :: t2 ∧ MovedOff ∉ t2.
Definition waits_hovered (v : View) (tr : list (Entry L)) : Prop :=
  (∀ k, v_tooltip v = Some (WaitingForShow k) → hovered_since tr k) ∧
  (∀ t k, t ++ [TooltipShown k] `prefix_of` tr → hovered_since t k).
Lemma hovered_since_app tr k es : MovedOff ∉ es → hovered_since tr k → hovered_since (tr ++ es) k.
Proof.
  intros He (t1 & t2 & -> & Ht). exists t1, (t2 ++ es). split; [by rewrite <-app_assoc|]. rewrite elem_of_app. tauto.
Qed.
Lemma prefix_snoc_cases (t : list (Entry L)) e tr es : t ++ [e] `prefix_of` tr ++ es →
  t ++ [e] `prefix_of` tr ∨ ∃ t2, t = tr ++ t2 ∧ t2 ++ [e] `prefix_of` es.
Proof.
  intros [x Hx]. rewrite <-app_assoc in Hx. apply app_eq_inv in Hx as [(k & E1 & E2)|(k & -> & E2)].
  - destruct k as [|e' k].
    + right. exists []. rewrite app_nil_r in E1. subst t. split; [by rewrite app_nil_r|]. exists x. symmetry. exact E2.
    + left. simpl in E2. injection E2 as <- E2. exists k. by rewrite E1, <-app_assoc.
  - right. exists k. split; [done|]. exists x. by rewrite E2, <-app_assoc.
Qed.
Lemma prefix_single (t : list (Entry L)) e es : t ++ [e] `prefix_of` es → length es ≤ 1 → t = [] ∧ es = [e].
Proof.
  intros [x ->]. rewrite !length_app. simpl. intros Hl. destruct t; [|simpl in Hl; lia]. destruct x; [done|simpl in Hl; lia].
Qed.
Lemma move_waits v es v' tr : move v es v' → waits_hovered v tr → waits_hovered v' (tr ++ es).
Proof.
  intros Hm [Hw Hs]. split.
  - intros k Hk. destruct Hm; simpl in *; try discriminate;
      try (apply hovered_since_app; [|by apply Hw]; set_solver).
    injection Hk as ->. exists tr, []. by split; [|set_solver].
  - intros t k [Hp|(t2 & -> & Hp)]%prefix_snoc_cases; [by apply Hs|].
    apply prefix_single in Hp as [-> He]; [|destruct Hm; simpl; lia]. rewrite app_nil_r.
    destruct Hm; try discriminate. injection He as ->. by apply Hw.
Qed.

(** A tooltip is shown only after an uninterrupted hover: whenever one is shown, the task that shows it was scheduled
    before, and since then no move of the mouse has found the element not hovered or pressed. *)
Theorem tooltips_wait_for_hover s0 s t k :
  trace s0 = [] → active_tooltip (cells s0) = None → run s0 s → t ++ [TooltipShown k] `prefix_of` machine_trace s →
  ∃ t1 t2, t = t1 ++ TooltipScheduled k :: t2 ∧ MovedOff ∉ t2.
Proof.
  intros Ht Ha Hr. assert (waits_hovered (view s) (machine_trace s)) as [_ Hs]; [|apply Hs].
  apply (run_keeps waits_hovered s0 s); [apply move_waits| |exact Hr|].
  - intros v tr [_ Hs]. split; [done|exact Hs].
  - unfold machine_trace. rewrite Ht. split; simpl; [by rewrite Ha|]. intros [|? ?] ? [? [=]].
Qed.

(** ** The keyboard *)

(** A key event as an element with the focus sees it: the world in which it arrives, and the key that was pressed or
    released. *)
Definition KeySeen : Type := World L A V * (KeyDownEvent + Keystroke.t).
Definition key_event (p : KeySeen) : PlatformInput := match p.2 with inl e => KeyDown e | inr k => KeyUp k end.
Definition see_key s (p : KeySeen) : outcome (State L A V) :=
  s ← deliver_key react ActivateDown (key_event p) Bubble (put_world s p.1);
  deliver_key react ActivateUp (key_event p) Bubble s.
Definition see_keys s (ps : list KeySeen) : outcome (State L A V) := foldM see_key s ps.
Definition focus_generation_in (w : World L A V) : Z := focus_generation (focus_state (win w)).
(** The generation of the focus at which an activation key was pressed. *)
Definition armed (p : option KeySeen) : option Z :=
  match p with
  | Some (w, inl e) =>
      if bool_decide (activation_key (keystroke e) ≠ None) && plain (keystroke e) then Some (focus_generation_in w) else None
  | _ => None
  end.
Definition not_prevented (p : KeySeen) : Prop := default_prevented (win p.1) = false.

Lemma see_key_armed s p s' : not_prevented p → see_key s p = Ok s' →
  pending_keyboard_down (cells s') = armed (Some p) ∧ closures s' = closures s.
Proof.
  destruct p as [w [e|k]]; unfold not_prevented, see_key; intros Hp; simpl in *.
  - unfold activate_down, prevented. simpl. rewrite Hp. simpl. by intros [= <-].
  - unfold activate_up, prevented. simpl. rewrite Hp. simpl.
    destruct (activation_key k); [|by intros [= <-]]. destruct (plain k); [|by intros [= <-]].
    destruct (decide _); [|by intros [= <-]]. intros [_ (E1 & E2 & _)]%users_spec. by rewrite E1, E2.
Qed.
Lemma see_keys_armed s ps s' : Forall not_prevented ps → pending_keyboard_down (cells s) = None → see_keys s ps = Ok s' →
  pending_keyboard_down (cells s') = armed (last ps) ∧ closures s' = closures s.
Proof.
  intros Hps H0 Hs. assert (∀ q, pending_keyboard_down (cells s) = armed q →
    pending_keyboard_down (cells s') = armed (match last ps with Some p => Some p | None => q end) ∧ closures s' = closures s) as Hq.
  { clear H0. revert s Hs. induction Hps as [|p ps Hp _ IH]; unfold see_keys; simpl; intros s Hs q Hq; [by injection Hs as <-|].
    apply outcome_bind_ok in Hs as (s1 & E1 & Hs). destruct (see_key_armed _ _ _ Hp E1) as [Ha Hc].
    destruct (IH _ Hs (Some p) Ha) as [-> ->]. rewrite last_cons. by destruct (last ps). }
  specialize (Hq None H0). by destruct (last ps).
Qed.

(** C21: A focused element is clicked by the keyboard exactly when an activation key is released right after one was pressed,
    without modifiers, with no other key event that it has seen in between, and in the same generation of the focus; each
    click listener is then called once, in order. *)
Theorem keyboard_click_exact s ps s1 w k :
  safe_code → Forall not_prevented ps → pending_keyboard_down (cells s) = None → see_keys s ps = Ok s1 →
  default_prevented (win w) = false →
  ∃ s2, deliver_key react ActivateUp (KeyUp k) Bubble (put_world s1 w) = Ok s2 ∧
    trace s2 = trace s1 ++
      match activation_key k with
      | Some b =>
          if plain k && bool_decide (armed (last ps) = Some (focus_generation_in w))
          then (λ l, UserCall l (OnClick (KeyboardClick b (hitbox_bounds (hitbox s))))) <$> click_listeners (self s) else []
      | None => []
      end.
Proof.
  intros Hsafe Hps H0 Hs Hw. destruct (see_keys_armed _ _ _ Hps H0 Hs) as [Ha Hc].
  unfold deliver_key, activate_up, prevented. simpl. rewrite Hw. simpl. unfold hitbox, self. rewrite <-Hc.
  destruct (activation_key k) as [b|]; [|eexists; split; [done|]; by rewrite app_nil_r].
  destruct (plain k); [|eexists; split; [done|]; by rewrite app_nil_r].
  rewrite Ha. unfold generation_of. simpl. change (focus_generation (focus_state (win w))) with (focus_generation_in w).
  destruct (decide _) as [E|E].
  - rewrite (bool_decide_eq_true_2 _ E). simpl.
    match goal with |- context [users _ ?c ?ls ?s'] => destruct (users_safe c ls s' Hsafe) as [s2 E2] end.
    exists s2. split; [exact E2|]. by apply users_spec in E2 as [-> _].
  - rewrite (bool_decide_eq_false_2 _ E). simpl. eexists; split; [done|]; by rewrite app_nil_r.
Qed.

(** ** Drops *)

Definition drop_targets (ty : TypeId) (ls : list (TypeId * L)) : list (TypeId * L) := filter (λ x, x.1 = ty) ls.
(** Application code that starts no drag. *)
Definition starts_no_drag : Prop :=
  ∀ l c w w', run_commands (react l c w) w = Ok w' → active_drag (app w) = None → active_drag (app w') = None.
Lemma drop_on_nothing ty ls s : drop_targets ty ls = [] → drop_on react accepts_drop ty ls s = Ok s.
Proof.
  induction ls as [|[ty' l] ls IH]; [done|]. unfold drop_targets. rewrite filter_cons. simpl.
  destruct (decide (ty' = ty)); [done|exact IH].
Qed.
Lemma drop_on_taken ty ls s : drop_targets ty ls ≠ [] → dragging s = None → drop_on react accepts_drop ty ls s = Panic.
Proof.
  intros Hne Hd. induction ls as [|[ty' l] ls IH]; [done|]. unfold drop_targets in Hne. rewrite filter_cons in Hne. simpl in *.
  destruct (decide (ty' = ty)); [by rewrite Hd|by apply IH].
Qed.
(** Skipping the listeners for other types. *)
Lemma drop_on_first ty ls s ty' l ls' : drop_targets ty ls = (ty', l) :: ls' →
  ∃ rest, drop_targets ty rest = ls' ∧ drop_on react accepts_drop ty ls s = drop_on react accepts_drop ty ((ty, l) :: rest) s.
Proof.
  induction ls as [|[ty1 l1] ls IH]; [done|]. unfold drop_targets. rewrite filter_cons. simpl.
  destruct (decide (ty1 = ty)) as [->|]; [|exact IH]. intros [= <- <- <-]. exists ls. split; [done|]. by destruct (decide (ty = ty)).
Qed.

(** C22: What the drop of a dragged value on an element that is hovered does, when the code that it calls starts no new
    drag and does not panic, is decided by how many of the drop listeners of the element are for the type of the value.
    Without one, nothing happens.  With one, the drag ends, and the listener is called exactly if the predicate of the
    element accepts the value.  With two or more the first one takes the drag, and the second one panics. *)
Theorem drop_calls_one_listener s drag :
  safe_code → starts_no_drag → dragging s = Some drag → hovers s = true →
  let v := value drag in
  let w := put_active_drag (world s) None in
  match drop_targets (type_of_value v) (drop_listeners (self s)) with
  | [] => drop react accepts_drop type_of_value Bubble s = Ok s
  | [(_, l)] => ∃ s', drop react accepts_drop type_of_value Bubble s = Ok s' ∧ dragging s' = None ∧
      trace s' = trace s ++ match can_drop_predicate (self s) with
                            | Some p => UserCall p (CanDrop v) :: (if accepts_drop p v w then [UserCall l (OnDrop v)] else [])
                            | None => [UserCall l (OnDrop v)]
                            end
  | _ => drop react accepts_drop type_of_value Bubble s = Panic
  end.
Proof.
  intros Hsafe Hno Hd Hh v w. unfold drop. rewrite Hd, Hh. cbn [is_bubble andb]. fold v.
  destruct (drop_targets (type_of_value v) (drop_listeners (self s))) as [|[ty l] ls] eqn:Ht; [by apply drop_on_nothing|].
  destruct (drop_on_first _ _ s _ _ _ Ht) as (rest & Hr & ->). cbn [drop_on]. rewrite decide_True by done. rewrite Hd.
  cbn [unwrap mbind outcome_bind]. fold v w. set (s0 := put_world s w).
  assert (∃ s1 (b : bool), match can_drop_predicate (self s0) with
    | Some p => s1 ← user react (CanDrop v) s0 p; Ok (s1, accepts_drop p v (world s0)) | None => Ok (s0, true) end = Ok (s1, b) ∧
    dragging s1 = None ∧ (∀ s2, trace s2 = trace s1 ++ (if b then [UserCall l (OnDrop v)] else []) → trace s2 = trace s ++
      match can_drop_predicate (self s) with
      | Some p => UserCall p (CanDrop v) :: (if accepts_drop p v w then [UserCall l (OnDrop v)] else [])
      | None => [UserCall l (OnDrop v)] end)) as (s1 & b & E1 & Hd1 & Htr).
  { change (self s0) with (self s). destruct (can_drop_predicate (self s)) as [p|].
    - destruct (user_safe (CanDrop v) s0 p Hsafe) as [s1 E]. exists s1, (accepts_drop p v w). rewrite E. split; [done|].
      split; [unfold user in E; apply outcome_bind_ok in E as (w1 & Ew & [= <-]); exact (Hno _ _ _ _ Ew eq_refl)|].
      apply user_spec in E as [E _]. intros s2 ->. rewrite E. simpl. by rewrite <-app_assoc.
    - exists s0, true. done. }
  rewrite E1. cbn [mbind outcome_bind].
  assert (∃ s2, (if b : bool then s ← user react (OnDrop v) s1 l; Ok (stop_event (refresh_window s)) else Ok s1) = Ok s2 ∧
    dragging s2 = None ∧ trace s2 = trace s1 ++ (if b then [UserCall l (OnDrop v)] else [])) as (s2 & E2 & Hd2 & Htr2).
  { destruct b; [|exists s1; by rewrite app_nil_r]. destruct (user_safe (OnDrop v) s1 l Hsafe) as [s2 E]. rewrite E.
    eexists. split; [done|]. split.
    - unfold user in E. apply outcome_bind_ok in E as (w1 & Ew & [= <-]). unfold dragging, stop_event, refresh_window, refresh. simpl.
      pose proof (Hno _ _ _ _ Ew Hd1). by destruct (not_drawing w1).
    - apply user_spec in E as [E _]. exact E. }
  rewrite E2. cbn [mbind outcome_bind]. destruct ls as [|x ls].
  - rewrite drop_on_nothing by done. exists s2. split; [done|]. split; [done|]. by apply Htr.
  - destruct x. apply drop_on_taken; [by rewrite Hr|done].
Qed.

(** ** A window with one element *)

(** The two phases in which a window calls the listeners of its only element. *)
Fixpoint call_until (ls : list (ElementListener L)) (e : PlatformInput) (ph : DispatchPhase) s : outcome (State L A V) :=
  match ls with
  | [] => Ok s
  | x :: ls => s ← deliver x e ph s; if propagate_event (app (world s)) then call_until ls e ph s else Ok s
  end.
Definition mouse_event_alone s (e : PlatformInput) : outcome (State L A V) :=
  let s := put_world s (put_propagate_event (world s) true) in
  s ← call_until (registered (closures s)) e Capture s;
  if propagate_event (app (world s)) then call_until (rev (registered (closures s))) e Bubble s else Ok s.

Lemma deliver_closures x e ph s s' : deliver x e ph s = Ok s' → registered (closures s') = registered (closures s).
Proof.
  assert (Hu : ∀ c s l s', user react c s l = Ok s' → registered (closures s') = registered (closures s)).
  { intros c s0 l s1 [_ (_ & -> & _)]%user_spec. done. }
  assert (Hus : ∀ c ls s s', users react c ls s = Ok s' → registered (closures s') = registered (closures s)).
  { intros c ls s0 s1 [_ (_ & -> & _)]%users_spec. done. }
  assert (Hd : ∀ ty ls s s', drop_on react accepts_drop ty ls s = Ok s' → registered (closures s') = registered (closures s)).
  { intros ty ls. induction ls as [|[ty' l] ls IH]; simpl; intros s0 s1; [by intros [= <-]|].
    destruct (decide _); [|apply IH]. intros (d & _ & ([s2 b] & E2 & (s3 & E3 & ->%IH)%outcome_bind_ok)%outcome_bind_ok)%outcome_bind_ok.
    assert (registered (closures s2) = registered (closures s0)) as E4.
    { destruct (can_drop_predicate _); [|by injection E2 as <- _].
      apply outcome_bind_ok in E2 as (s4 & E4 & [= <- _]). by apply Hu in E4. }
    rewrite <-E4. destruct b; [|by injection E3 as <-]. apply outcome_bind_ok in E3 as (s4 & E5 & [= <-]). by apply Hu in E5. }
  intros E. destruct x; cbn [Interactivity.deliver] in E.
  3: { unfold user_mouse in E. destruct m, e; cbn in E;
         repeat match type of E with
           | context [match ?o with Some _ => _ | None => _ end] => destruct o
           | context [if ?b then _ else _] => destruct b
           end; try (by injection E as <-); by eapply Hu. }
  all: destruct e; try (by injection E as <-); cbn in E.
  - injection E as <-. unfold notify_group_hover. by destruct (_ && _).
  - injection E as <-. unfold focus_on_down. by destruct (_ && _).
  - injection E as <-. unfold track_hover. destruct (hover_state _); [by destruct (_ && _)|done].
  - injection E as <-. unfold track_group_hover. destruct (hover_state _); [by destruct (_ && _)|done].
  - unfold drop in E. destruct (dragging s); [|by injection E as <-]. destruct (_ && _); [by eapply Hd|by injection E as <-].
  - injection E as <-. unfold press_down. by destruct (_ && _).
  - unfold start_drag in E. destruct ph; [|by injection E as <-]. destruct (pending_mouse_down _); [|by injection E as <-].
    destruct (drag_listener _); [|by injection E as <-]. destruct (_ && _); [|by injection E as <-].
    destruct (decide _); [|by injection E as <-]. apply outcome_bind_ok in E as (s1 & E%Hu & [= <-]). exact E.
  - unfold release in E. destruct ph.
    + destruct (captured_mouse_down _); [by apply Hus in E|by injection E as <-].
    + destruct (pending_mouse_down _); injection E as <-; [by destruct (hovers s)|done].
  - unfold hover_move, update_hover in E. destruct (is_bubble ph); [|by injection E as <-].
    destruct (Bool.eqb _ _); [by injection E as <-|by apply Hu in E].
  - unfold hover_exit, update_hover in E. destruct (is_bubble ph); [|by injection E as <-].
    destruct (Bool.eqb _ _); [by injection E as <-|by apply Hu in E].
  - injection E as <-. unfold handle_tooltip_mouse_move. destruct (check_is_hovered s); simpl;
      destruct (active_tooltip _) as [[]|]; repeat match goal with |- context [if ?b then _ else _] => destruct b end; done.
  - injection E as <-. unfold tooltip_pressed, clear_active_tooltip_if_not_hoverable. destruct (tooltip_is_hovered _); [done|].
    destruct (active_tooltip _) as [[?|? []|? ?]|]; done.
  - injection E as <-. unfold tooltip_pressed, clear_active_tooltip_if_not_hoverable. destruct (tooltip_is_hovered _); [done|].
    destruct (active_tooltip _) as [[?|? []|? ?]|]; done.
  - injection E as <-. unfold release_active. by destruct (_ && _).
  - injection E as <-. unfold press_active. destruct (_ && _); [by destruct (_ || _)|done].
Qed.
Lemma call_until_steps ls e ph s s' :
  (∀ x, x ∈ ls → x ∈ registered (closures s)) → call_until ls e ph s = Ok s' →
  rtc step s s' ∧ registered (closures s') = registered (closures s).
Proof.
  revert s. induction ls as [|x ls IH]; simpl; intros s Hin; [by intros [= <-]|].
  intros (s1 & E & Hs)%outcome_bind_ok. pose proof (deliver_closures _ _ _ _ _ E) as Hc.
  assert (step s s1) as Hst by (eapply step_mouse; [apply Hin, list_elem_of_here|exact E]).
  destruct (propagate_event _).
  - apply IH in Hs as [Hs ->]; [|intros y Hy; rewrite Hc; apply Hin; by apply list_elem_of_further].
    split; [by eapply rtc_l|done].
  - injection Hs as <-. split; [by apply rtc_once|done].
Qed.
Lemma mouse_event_steps e s s' : mouse_event_alone s e = Ok s' → rtc step s s' ∧ registered (closures s') = registered (closures s).
Proof.
  unfold mouse_event_alone. set (s0 := put_world s _). intros (s1 & E1 & Hs)%outcome_bind_ok.
  assert (step s s0) as H0 by constructor. apply call_until_steps in E1 as [H1 C1]; [|done].
  destruct (propagate_event _).
  - apply call_until_steps in Hs as [H2 C2]; [|intros x; rewrite C1; by rewrite <-Permutation_rev].
    split; [|by rewrite C2, C1]. eapply rtc_l; [exact H0|]. by etrans.
  - injection Hs as <-. split; [by eapply rtc_l|done].
Qed.
Lemma mouse_events_run es s s' : foldM mouse_event_alone s es = Ok s' → rtc step s s'.
Proof.
  revert s. induction es as [|e es IH]; simpl; intros s; [intros [= <-]; apply rtc_refl|].
  intros (s1 & [H1 _]%mouse_event_steps & H2%IH)%outcome_bind_ok. by etrans.
Qed.
Lemma steps_run s s' : rtc step s s' → run s s'.
Proof. intros Hs. unfold Interactivity.run. eapply rtc_subrel, Hs. intros ?? ?. by left. Qed.
End theorems.

(** ** Elements *)

(** Listeners are numbers that do nothing; the element under test is a square at the origin with the hitbox 1, and the mouse
    is over it as long as the hit test of its window says so. *)
Module Element.
Import NumberedActions Sample.
#[export] Existing Instance Sample.linux.
Abbreviation ElementState := (State nat N ()).
Definition square_at_origin : Hitbox := mkHitbox 1 (square 0 10) (square 0 100) Normal.
(** Two listeners for clicks, one for other clicks, a drag, a hover listener and a tooltip. *)
Definition fancy : Interactivity nat :=
  mkInteractivity true (Some 1) [] true None false None None None [] None [1; 2] [3] (Some (mkDragListener 7 4 None)) (Some 5)
    (Some (mkBuilder 6 false)).
(** Two drop listeners for the same type of values. *)
Definition greedy : Interactivity nat :=
  mkInteractivity false None [] false None false None None None [(UserType 1, 8); (UserType 1, 9)] None [] [] None None None.
Definition modest : Interactivity nat :=
  mkInteractivity false None [] false None false None None None [(UserType 1, 8); (UserType 2, 9)] (Some 10) [] [] None None None.
Definition react (l : nat) (c : ElementCall) (w : World nat N ()) : list (Command nat N) := [].
Definition accepts (l value : nat) (w : World nat N ()) : bool := bool_decide (value = 7).
Definition type_of (value : nat) : TypeId := UserType 1.
Definition no (w : World nat N ()) : bool := false.
Definition over (b : bool) (w : World nat N ()) : World nat N () := set_hit_test w (if b then mkHitTest [1%Z] 1 else mkHitTest [] 0).
Definition fresh (i : Interactivity nat) : ElementState :=
  paint i square_at_origin ∅ true
    (prepaint i (mkState (over true (start (Some 1) [])) cells_default (mkClosures no_interactivity square_at_origin [] [] None None) 0 0 [])).
Definition at_ (a : Z) : Point Qc := point (Q2Qc (a # 1)) (Q2Qc (a # 1)).
Definition down (b : MouseButton) : PlatformInput := MouseDown b (at_ 1) Modifiers.none 1.
Definition up (b : MouseButton) : PlatformInput := MouseUp b (at_ 1) Modifiers.none 1.
Definition moves_to (a : Z) (b : option MouseButton) : PlatformInput := MouseMove (at_ a) b Modifiers.none.
Definition events (es : list PlatformInput) (s : ElementState) : outcome ElementState :=
  foldM (mouse_event_alone react accepts type_of no no) s es.
Definition leave (s : ElementState) : ElementState := put_world s (over false (world s)).
Definition clicks (s : ElementState) : list (nat * MouseButton * MouseButton) :=
  omap (λ e, match e with UserCall l (OnClick (MouseClick d u)) => Some (l, down_button d, up_button u) | _ => None end) (trace s).
End Element.
Import NumberedActions Sample Element.

(** A click, and a drag that is no click. *)
Example click_and_drag :
  clicks <$> events [down LeftButton; up LeftButton] (fresh fancy) = Ok [(1, LeftButton, LeftButton); (2, LeftButton, LeftButton)] ∧
  (s ← events [down LeftButton; moves_to 9 (Some LeftButton); up LeftButton] (fresh fancy);
   Ok (clicks s, bool_decide (consumed_of (trace s) = []))) = Ok ([], false).
Proof. split; vm_compute; done. Qed.
(** The button that is released is not compared with the one that was pressed. *)
Example other_button_clicks :
  clicks <$> events [down LeftButton; up RightButton] (fresh fancy) = Ok [(1, LeftButton, RightButton); (2, LeftButton, RightButton)].
Proof. vm_compute. done. Qed.
(** A press that was captured, when the bubble phase did not reach the element, is clicked by the next release, even one away
    from the element. *)
Example captured_press_stays :
  (s ← events [down LeftButton] (fresh fancy);
   s ← deliver react accepts type_of no no Release (up LeftButton) Capture s;
   s ← events [up RightButton] (leave s);
   Ok (clicks s)) = Ok [(1, LeftButton, RightButton); (2, LeftButton, RightButton)].
Proof. vm_compute. done. Qed.
(** Moving with another button pressed takes the drag listener away. *)
Example aux_move_loses_drag :
  (s ← events [down RightButton; moves_to 9 (Some RightButton); up RightButton; down LeftButton; moves_to 9 (Some LeftButton)] (fresh fancy);
   Ok (dragging s)) = Ok None.
Proof. vm_compute. done. Qed.
(** An element that is left out of a frame while it is hovered never tells its hover listener. *)
Example hover_never_ends :
  (s ← events [moves_to 1 None] (fresh fancy);
   s ← events [moves_to 1 None] (paint fancy square_at_origin ∅ true (prepaint fancy (left_out square_at_origin s)));
   Ok (hovers_of (trace s))) = Ok [true; true].
Proof. vm_compute. done. Qed.
(** A drop that the predicate refuses ends the drag without a redraw. *)
Definition with_drag (v : nat) (i : Interactivity nat) : ElementState :=
  let s := fresh i in put_world s (put_active_drag (world s) (Some (mkDrag v None None))).
Example refused_drop_ends_drag :
  (s ← drop react accepts type_of Bubble (with_drag 8 modest); Ok (dragging s, update_count (draw_state (win (world s))))) = Ok (None, 0).
Proof. vm_compute. done. Qed.

(** ** Witnesses *)

Lemma react_safe : safe_code react.
Proof. intros l c w. by exists w. Qed.
Lemma react_starts_no_drag : starts_no_drag react.
Proof. by intros l c w w' [= <-]. Qed.
Lemma events_run es s s' : events es s = Ok s' → Interactivity.run react accepts type_of no no s s'.
Proof. intros Hs%mouse_events_run. by apply steps_run. Qed.
(** What an outcome holds. *)
Definition final (o : outcome ElementState) : ElementState := match o with Ok s => s | _ => fresh no_interactivity end.
Definition clicked_once : ElementState := final (events [down LeftButton; up LeftButton] (fresh fancy)).
Lemma a_press_is_a_click_or_a_drag_witness :
  consumed_of (trace clicked_once) = [mkDown LeftButton (at_ 1) Modifiers.none 1] ∧
  consumed_of (trace clicked_once) ⊆+ pressed_of (trace clicked_once).
Proof.
  split; [vm_compute; reflexivity|].
  apply (a_press_is_a_click_or_a_drag react accepts type_of no no (fresh fancy)); [reflexivity..|].
  apply (events_run [down LeftButton; up LeftButton]). vm_compute. reflexivity.
Defined.

Definition press : MouseDownEvent := mkDown LeftButton (at_ 1) Modifiers.none 1.
Definition released : MouseUpEvent := mkUp LeftButton (at_ 1) Modifiers.none 1.
Lemma press_and_release_click_witness :
  let s1 := press_down press Bubble (fresh fancy) in
  ∃ s4, release react released Bubble (final (release react released Capture s1)) = Ok s4 ∧
    trace s4 = trace (final (release react released Capture s1)) ++ Clicked press released ::
      ((λ l, UserCall l (OnClick (MouseClick press released))) <$> [1; 2]).
Proof.
  apply (press_and_release_click react press released (fresh fancy) (press_down press Bubble (fresh fancy)) (final (release react released Capture (press_down press Bubble (fresh fancy)))));
    [apply react_safe|vm_compute; reflexivity|by left|reflexivity|vm_compute; reflexivity..].
Defined.

Definition in_and_out : list PlatformInput :=
  [moves_to 1 None; moves_to 2 None; MouseExited (at_ 20) None Modifiers.none; moves_to 1 None].
Definition hovered_twice : ElementState := final (events in_and_out (fresh fancy)).
Lemma hover_calls_alternate_witness :
  hovers_of (trace hovered_twice) = [true; false; true] ∧ alternates true (hovers_of (trace hovered_twice)).
Proof.
  split; [vm_compute; reflexivity|].
  refine (proj1 (hover_calls_alternate react accepts type_of no no (fresh fancy) hovered_twice _ _)); [reflexivity|].
  apply (mouse_events_run react accepts type_of no no in_and_out). vm_compute. reflexivity.
Defined.

Definition shown : ElementState :=
  final (s ← events [moves_to 1 None] (fresh fancy); show_tooltip react (mkBuilder 6 false) 0 s).
Lemma shown_run : Interactivity.run react accepts type_of no no (fresh fancy) shown.
Proof.
  eapply (rtc_r _ (final (events [moves_to 1 None] (fresh fancy)))).
  - apply (events_run [moves_to 1 None]). vm_compute. reflexivity.
  - left. eapply (step_show _ _ _ _ _ _ (mkBuilder 6 false) 0); vm_compute; reflexivity.
Qed.
Lemma tooltips_wait_for_hover_witness :
  let t := [TooltipScheduled 0; UserCall 5 (OnHover true)] in
  ∃ t1 t2, t = t1 ++ TooltipScheduled 0 :: t2 ∧ MovedOff ∉ t2.
Proof.
  apply (tooltips_wait_for_hover react accepts type_of no no (fresh fancy) shown); [reflexivity..|exact shown_run|].
  exists []. vm_compute. reflexivity.
Defined.

Definition enter : Keystroke.t := Keystroke.mk Modifiers.none (str "enter") None.
Lemma keyboard_click_exact_witness :
  let w := start (Some 1) [] in
  ∃ s2, deliver_key react ActivateUp (KeyUp enter) Bubble
      (put_world (final (see_keys react (fresh fancy) [(w, inl (mkKeyDown enter false false))])) w) = Ok s2 ∧
    trace s2 = trace (final (see_keys react (fresh fancy) [(w, inl (mkKeyDown enter false false))])) ++
      [UserCall 1 (OnClick (KeyboardClick Enter (square 0 10))); UserCall 2 (OnClick (KeyboardClick Enter (square 0 10)))].
Proof.
  apply (keyboard_click_exact react (fresh fancy) [(start (Some 1) [], inl (mkKeyDown enter false false))] _ (start (Some 1) []) enter);
    [apply react_safe|repeat constructor|reflexivity|vm_compute; reflexivity|reflexivity].
Defined.

(** With two listeners for the type of the value, dropping it panics. *)
Lemma drop_calls_one_listener_witness :
  drop react accepts type_of Bubble (with_drag 7 greedy) = Panic ∧
  (∃ s', drop react accepts type_of Bubble (with_drag 7 modest) = Ok s' ∧ dragging s' = None ∧
    trace s' = [UserCall 10 (CanDrop 7); UserCall 8 (OnDrop 7)]).
Proof.
  split.
  - exact (drop_calls_one_listener react accepts type_of (with_drag 7 greedy) (mkDrag 7 None None) react_safe
      react_starts_no_drag eq_refl eq_refl).
  - exact (drop_calls_one_listener react accepts type_of (with_drag 7 modest) (mkDrag 7 None None) react_safe
      react_starts_no_drag eq_refl eq_refl).
Defined.
